(* ===== verification/_CoqProject ===== *)
-Q . S2P
Prelude.v
CMem.v
PbTypes.v
PbIter.v
PbIterSpec.v
PbOutput.v
PbEncode.v
PbInput.v
PbDecode.v
Leb128.v
PbWire.v
PbSafe.v
PbDecodeSafe.v
PbEmit.v
PbEncodeSpec.v
PbFieldSpec.v
PbRequired.v
PbExample.v
PbFindings.v
Base64.v
Base64Spec.v
LdbCoding.v
LdbCrc.v
LdbLog.v
LdbLogSpec.v
LdbLogRead.v
LdbRandom.v
SkipList.v
SkipListSpec.v
SkipListConc.v
LdbFormat.v
LdbFilter.v
LdbFilterSpec.v
LdbIterator.v
LdbBlock.v
LdbBlockSpec.v
LdbMerger.v
LdbMergerSpec.v
LdbTwoLevel.v
LdbTwoLevelSpec.v
LdbDBIter.v
LdbMemTable.v
LdbMemTableSpec.v
LdbBatchSpec.v
LdbDBIterSpec.v
LdbMemIterSpec.v
LdbTableFormat.v
LdbTableBuilder.v
LdbTable.v
LdbTableFormatSpec.v
LdbTableBuilderSpec.v
LdbTableSpec.v
LdbFileName.v
LdbRing.v
LdbCache.v
LdbCacheTable.v
LdbCacheSpec.v
LdbCacheOps.v
LdbCacheCalls.v
LdbSnapshot.v
LdbReads.v
LdbWrite.v
LdbWriteGroup.v
LdbWriteSpec.v
LdbWriteLive.v
LdbVersionEdit.v
LdbVersionEditSpec.v
LdbVersion.v
LdbVersionSpec.v
LdbVersionGet.v
LdbVersionGetSpec.v
LdbDBGet.v
LdbTableCache.v
LdbTableCacheInv.v
LdbTableCacheSpec.v
LdbCompaction.v
LdbCompactionSpec.v
LdbCompactionRule.v
LdbCompactionWork.v
LdbCompactionWorkSpec.v
