(* ===== verification/Prelude.v ===== *)
(** * Verification of the C and C++ components vendored by DailyDiary

    DailyDiary is an iOS application: Swift view controllers over Firebase. Its own code
    has no C; the C and C++ of the repository is in DailyDiary/Pods. The parts of it that
    have logic of their own are modelled here: nanopb (protocol buffers), the base64
    codec of SocketRocket, and leveldb, the storage engine below Firebase Database.

    ** How C is modelled

    A function that can fail, loop or touch memory is a term of the state monad [M] of
    this file over [outcome]: it is [Done] with a value and a state, [Undef] (an access
    out of bounds, a failed [assert], a signed overflow, a call through NULL) or [NoFuel]
    (the bound on a loop is used up). Theorems are stated as runs that are [Done], so
    that they are about total correctness: they exclude undefined behaviour, failed
    assertions and loops that do not end. Loops are [loop n body x], with a bound [n] that
    is written next to each loop and that the specification lemmas show to be enough
    ([wp_loop], [wp_loop_upto]). Integers are [Z] with the wrap-around of their width
    written out ([u8] ... [u64], [s8] ... [s64]); bytes are [Z] in [0, 256) ([is_byte]);
    C++ strings and slices are lists of bytes. The target is LP64, little-endian, with the
    macros of the Pods target: [PB_FIELD_32BIT], [PB_NO_PACKED_STRUCTS],
    [PB_ENABLE_MALLOC], no [SNAPPY].

    ** The parts, their files and their theorems

    nanopb (nanopb/*.c, *.h). [CMem] is the memory of C structures: blocks, pointers,
    malloc that can fail. [PbTypes] has the descriptors of pb.h, [PbIter] the field
    iterator (pb_common.c), [PbOutput] and [PbEncode] the encoder (pb_encode.c),
    [PbInput] and [PbDecode] the decoder (pb_decode.c). [PbIterSpec] shows that the
    iterator visits the fields where the layout puts them; [PbEmit] and [PbEncodeSpec]
    give a reference encoder and the refinement of it by [pb_encode]; [PbWire] the
    decoding of varints, tags and unknown fields; [PbSafe] and [PbDecodeSafe] the safety
    of [pb_decode] on any bytes; [PbFieldSpec] and [PbEmit] round trips of fields;
    [PbRequired] the check of required fields; [PbExample] the witnesses, on a concrete
    message type; [PbFindings] runs that show defects.

    base64 (fbase64.c): [Base64] and [Base64Spec].

    leveldb, bottom up.
    - util/: [LdbCoding] (coding.cc), [LdbCrc] (crc32c.cc, equal to the bitwise
      definition of CRC-32C), [LdbRandom] (random.h), [Leb128] (the reference varint).
    - The log: [LdbLog] (log_writer.cc, log_reader.cc); [LdbLogSpec] and [LdbLogRead]
      show that what is written is read back, also after a crash in the middle of a
      record, and that reading ends on any bytes.
    - The skip list (skiplist.h): [SkipList], with its pointers as an arena of nodes;
      [SkipListSpec] shows that it is a sorted set, [SkipListConc] that a reader which
      interleaves with a writer step by step never misses what was there before, with the
      stores of the writer that have no barrier in a buffer until a release store.
    - Keys (dbformat.h, comparator.cc): [LdbFormat]. The class [Comparator] with
      [ComparatorLaws] is the interface that all clients are proved against.
    - Filters (hash.cc, bloom.cc, filter_block.cc): [LdbFilter], [LdbFilterSpec]; the
      class [FilterPolicy] with [FilterPolicyLaws] is their interface.
    - Iterators: [LdbIterator] has the interface [IterOps] and its contract [iter_over]:
      an iterator is a cursor in a sorted list of entries. The block iterator
      ([LdbBlock], [LdbBlockSpec]), the merging iterator ([LdbMerger],
      [LdbMergerSpec]), the two-level iterator ([LdbTwoLevel], [LdbTwoLevelSpec]), the
      iterator of the memtable ([LdbMemIterSpec]) and of the database ([LdbDBIter],
      [LdbDBIterSpec]) are shown to implement it, each from the contract of the
      iterators it is made of.
    - The memtable and batches (memtable.cc, write_batch.cc): [LdbMemTable],
      [LdbMemTableSpec], [LdbBatchSpec]; reading at a sequence number is the same by
      [Get] and by iterating.
    - Tables (table/format.cc, table_builder.cc, table.cc): [LdbTableFormat],
      [LdbTableBuilder], [LdbTable], with the specifications [LdbTableFormatSpec],
      [LdbTableBuilderSpec] and [LdbTableSpec], where a table that is built, opened and
      read is shown to be a cursor in its entries and to answer lookups, with the block
      cache as an interface ([BlockCache], [BlockCacheLaws]); [LdbCrc] shows which
      errors of a block the checksums detect.
    - The block cache (util/cache.cc): [LdbRing] has the circular lists, [LdbCache] the cache
      at the level of its pointers, [LdbCacheTable] shows that the hash table finds what is
      in it, [LdbCacheSpec] has the abstract cache and the relation, [LdbCacheOps] shows
      that each operation refines the abstract one and [LdbCacheCalls] that any sequence
      of calls does, and that a value stays while a client holds its handle.
    - The cache of tables (table_cache.cc): [LdbTableCache] is the code over the tables and
      the sharded cache, with the environment that opens files as an interface ([FileEnv],
      [FileEnvLaws]); [LdbTableCacheInv] shows what the sharded cache deletes, and that it
      owns its objects, and [LdbTableCacheSpec] that
      lookups through it find what the tables have. It implements [TableCache] and keeps
      [TableCacheLaws] ([table_cache_laws]), so reads of versions may run over it.
    - Names of files (logging.cc, filename.cc): [LdbFileName].
    - Edits of versions, the records of the manifest (version_edit.cc): [LdbVersionEdit],
      [LdbVersionEditSpec].
    - Reads: [LdbReads] is the abstract specification: a read at a sequence number gives
      the newest update of the key that it can see.
    - Versions (version_set.cc): [LdbVersion] searches the files of a version, and
      [LdbVersionSpec] shows the lower bound, the overlaps, the closed inputs of a
      compaction of level 0 and the level of a new table. [LdbVersionGet] is the read of a
      key in a version, over the cache of tables as an interface ([TableCache],
      [TableCacheLaws]), and [LdbVersionGetSpec] shows that it gives the newest update.
    - Reads of the database (db_impl.cc, [Get]): [LdbDBGet] looks in both memtables and in
      the version, and shows that this gives the newest update of all of them.
    - Compactions (version_set.cc, db_impl.cc): [LdbCompaction] picks the inputs and
      answers the questions on keys, with the proofs in [LdbCompactionSpec];
      [LdbCompactionRule] is the rule of what is dropped and shows that it keeps what is
      read; [LdbCompactionWork] is the loop that writes the tables, with the database it
      runs in as an interface ([CompactionEnv], [CompactionLaws]), and
      [LdbCompactionWorkSpec] shows that it refines the rule, and that reads are kept when
      what is elsewhere in the database is newer than the inputs or below the output.
      [dropped_deletion_shows_old_value] is a compaction where it is not.
    - Snapshots (snapshot.h): [LdbSnapshot] is the list of the snapshots that are held, over
      [LdbRing], and shows that compactions keep what the oldest one can read.
    - Writes (db_impl.cc, [Write] and what it calls, and [BackgroundCall]): [LdbWrite] has
      the queue of writers and the background thread as a relation with one step for each
      critical section and each part without the mutex; the background thread gives it back
      in [BuildTable], [LogAndApply] and [DoCompactionWork]. The log, the memtables, the
      tables and the versions are an interface ([WriteEnv], [WriteEnvLaws]).
      [LdbWriteGroup] shows what a group writes, [LdbWriteSpec] the invariant of the queue
      and of the background thread and the measure of their runs, and [LdbWriteLive] that
      every write returns.

    ** What is not modelled

    Of the memory model of C++, the skip list has what its barriers order for one writer
    and readers whose loads are in order; other shared state is modelled as being under
    the mutex.

    The Swift and Objective-C code (user interface, network clients, key chain), headers
    of binary frameworks, and of leveldb: threads and locks other than those of the skip
    list and of the queue of writers, the file system (env_posix.cc, but for reading a
    mapped file), the C bindings (c.cc), of version_set.cc the set of versions with its
    manifest, and of the database itself (db_impl.cc) all but reads of a key, writes,
    snapshots and compactions, which are never manual and not interrupted by a shutdown. A read of the database is modelled with no other
    thread between its steps. Tables use the block cache through an interface and do not
    release its handles in the model; an iterator from the cache of tables reads with the
    file and the block cache of when it was made. Files are interfaces of the model with
    the contracts their headers document. Memory is not limited in the C++ parts, and
    capacities of strings are not in the model. *)
From stdpp Require Export base list gmap strings.
From Stdlib Require Export ZArith Lia.
Open Scope Z_scope.

(** ** C outcomes and the state monad

    A C function of the program is a function from the state it can reach to an
    outcome: it returns a value and a new state, it has undefined behaviour (an
    access outside of the live objects, an invalid [free], a call through a NULL
    function pointer ...), or the bound the model puts on a loop or on the call
    depth is exhausted. *)
Inductive outcome (A : Type) : Type :=
  | Done (a : A)
  | Undef
  | NoFuel.
Arguments Done {A} a.
Arguments Undef {A}.
Arguments NoFuel {A}.

(** Outcomes in sequence. *)
Definition obind {A B} (f : A → outcome B) (o : outcome A) : outcome B :=
  match o with Done a => f a | Undef => Undef | NoFuel => NoFuel end.
#[export] Instance outcome_bind : MBind outcome := λ A B, obind.
#[export] Instance outcome_ret : MRet outcome := λ A, Done.

Definition M (St A : Type) : Type := St → outcome (A * St).

#[export] Instance M_ret St : MRet (M St) := λ A a s, Done (a, s).
#[export] Instance M_bind St : MBind (M St) := λ A B f c s,
  obind (λ '(a, s'), f a s') (c s).

Definition undef {St A} : M St A := λ _, Undef.
Definition no_fuel {St A} : M St A := λ _, NoFuel.
Definition get_state {St} : M St St := λ s, Done (s, s).
Definition put_state {St} (s : St) : M St unit := λ _, Done (tt, s).

(** A partial operation: undefined behaviour when it gives no value. *)
Definition lift_option {St A} (o : option A) : M St A :=
  match o with Some a => mret a | None => undef end.

(** A function that does not use the state. *)
Definition lift_outcome {St A} (o : outcome A) : M St A := λ s,
  match o with Done a => Done (a, s) | Undef => Undef | NoFuel => NoFuel end.

(** An [assert]. *)
Definition assert_ {St} (b : bool) : M St unit := if b then mret tt else undef.

Declare Scope cprog_scope.
Delimit Scope cprog_scope with cprog.
Open Scope cprog_scope.

(** [check! c; k] is the C idiom [if (!c) return false; k]. *)
Notation "'check!' c ; k" :=
  (mbind (λ ok : bool, if ok then k else mret false) c)
  (at level 20, c at level 100, k at level 200,
   format "check!  c ;  '/' k") : cprog_scope.

(** ** Loops

    [loop n body x] runs [body] from the loop state [x] until it gives [inr a];
    [n], in binary so that a bound of 2^64 costs nothing, is the number of
    iterations allowed. *)
Section loops.
Context {St X A : Type}.
Implicit Types body : X → M St (X + A).

Definition loop_step body (r : X + A) : M St (X + A) :=
  match r with inl x => body x | inr a => mret (inr a) end.

Fixpoint loop_pos (p : positive) body (x : X) : M St (X + A) :=
  match p with
  | xH => body x
  | xO q => r ← loop_pos q body x; loop_step (loop_pos q body) r
  | xI q =>
      r ← body x;
      r' ← loop_step (loop_pos q body) r;
      loop_step (loop_pos q body) r'
  end.

Fixpoint loop_nat (n : nat) body (x : X) : M St (X + A) :=
  match n with
  | O => mret (inl x)
  | S n' => r ← body x; loop_step (loop_nat n' body) r
  end.

Definition loop (n : Z) body (x : X) : M St A :=
  match n with
  | Zpos p =>
      r ← loop_pos p body x;
      match r with inl _ => no_fuel | inr a => mret a end
  | _ => no_fuel
  end.
End loops.

(** A [for (i = 0; i < n; i++)] loop whose body can [return] early. *)
Fixpoint for_loop {St} (n : nat) (i : Z) (body : Z → M St bool) : M St bool :=
  match n with
  | O => mret true
  | S n' => check! body i; for_loop n' (i + 1) body
  end.

(** ** Machine integers *)
Definition wrapu (w x : Z) : Z := x `mod` 2 ^ w.
Definition wraps (w x : Z) : Z :=
  let y := x `mod` 2 ^ w in if y <? 2 ^ (w - 1) then y else y - 2 ^ w.

Abbreviation u8 := (wrapu 8).
Abbreviation u16 := (wrapu 16).
Abbreviation u32 := (wrapu 32).
Abbreviation u64 := (wrapu 64).
Abbreviation s8 := (wraps 8).
Abbreviation s16 := (wraps 16).
Abbreviation s32 := (wraps 32).
Abbreviation s64 := (wraps 64).

(** Little-endian sequences of bytes. *)
Fixpoint le_combine (l : list Z) : Z :=
  match l with [] => 0 | b :: l' => b + 256 * le_combine l' end.
Fixpoint le_split (n : nat) (z : Z) : list Z :=
  match n with O => [] | S n' => z `mod` 256 :: le_split n' (z / 256) end.

Definition is_byte (b : Z) : Prop := 0 ≤ b < 256.
#[export] Instance is_byte_dec b : Decision (is_byte b) := _.

(** ** Total correctness

    [wp c Q s]: from [s], [c] ends, without undefined behaviour and within the
    bounds of the model, in a result and a state that satisfy [Q]. *)
Definition wp {St A} (c : M St A) (Q : A → St → Prop) (s : St) : Prop :=
  match c s with Done (a, s') => Q a s' | _ => False end.

Section wp.
Context {St : Type}.
Implicit Types s : St.

Lemma wp_done {A} (c : M St A) Q s a s' : c s = Done (a, s') → Q a s' → wp c Q s.
Proof. unfold wp. by intros ->. Qed.

Lemma wp_run {A} (c : M St A) Q s : wp c Q s → ∃ a s', c s = Done (a, s') ∧ Q a s'.
Proof. unfold wp. destruct (c s) as [[a s']| |]; [eauto|done|done]. Qed.

Lemma wp_ret {A} (a : A) Q s : Q a s → wp (mret a) Q s.
Proof. done. Qed.

Lemma wp_bind {A B} (c : M St A) (f : A → M St B) Q s :
  wp c (λ a, wp (f a) Q) s → wp (c ≫= f) Q s.
Proof.
  unfold wp, mbind, M_bind, obind. destruct (c s) as [[a s']| |]; done.
Qed.

Lemma wp_mono {A} (c : M St A) (Q Q' : A → St → Prop) s :
  wp c Q s → (∀ a s', Q a s' → Q' a s') → wp c Q' s.
Proof. unfold wp. destruct (c s) as [[a s']| |]; eauto. Qed.

Lemma wp_get Q s : Q s s → wp get_state Q s.
Proof. done. Qed.
Lemma wp_put Q s s' : Q tt s' → wp (put_state s') Q s.
Proof. done. Qed.

Lemma wp_lift_option {A} (o : option A) a Q s :
  o = Some a → Q a s → wp (lift_option o) Q s.
Proof. by intros ->. Qed.

Lemma wp_check (c : M St bool) (k : M St bool) Q s :
  wp c (λ ok s', if ok then wp k Q s' else Q false s') s →
  wp (check! c; k) Q s.
Proof. intros Hc. apply wp_bind. eapply wp_mono; [done|]. by intros []. Qed.
End wp.

(** A case of a conditional under [wp]. *)
Ltac wp_if E :=
  cbv zeta; match goal with |- wp (if ?c then _ else _) _ _ => destruct c eqn:E end.

(** ** Reasoning about loops *)
Section loop_rules.
Context {St X A : Type}.
Implicit Types (body : X → M St (X + A)) (s : St).

Lemma bind_ext {B C} (c c' : M St B) (f f' : B → M St C) s :
  c s = c' s → (∀ b s', f b s' = f' b s') → (c ≫= f) s = (c' ≫= f') s.
Proof.
  unfold mbind, M_bind, obind. intros -> Hf.
  destruct (c' s) as [[b s']| |]; [apply Hf|done|done].
Qed.

Lemma bind_assoc {B C D} (c : M St B) (f : B → M St C) (g : C → M St D) s :
  ((c ≫= f) ≫= g) s = (c ≫= λ b, f b ≫= g) s.
Proof. unfold mbind, M_bind, obind. by destruct (c s) as [[b s']| |]. Qed.

Lemma loop_step_ext (f f' : X → M St (X + A)) r s :
  (∀ x s, f x s = f' x s) → loop_step f r s = loop_step f' r s.
Proof. intros Hf. destruct r; simpl; [apply Hf|done]. Qed.

Lemma loop_nat_add n m body x s :
  loop_nat (n + m) body x s =
  (r ← loop_nat n body x; loop_step (loop_nat m body) r) s.
Proof.
  revert x s. induction n as [|n IH]; intros x s; [done|].
  cbn [loop_nat Nat.add]. rewrite bind_assoc.
  apply bind_ext; [done|]. intros [x'|a] s'; simpl; [apply IH|done].
Qed.

Lemma loop_pos_nat p body x s :
  loop_pos p body x s = loop_nat (Pos.to_nat p) body x s.
Proof.
  revert x s. induction p as [p IH|p IH|]; intros x s.
  - rewrite Pos2Nat.inj_xI. replace (S (2 * _)) with (1 + (Pos.to_nat p + Pos.to_nat p))%nat by lia.
    rewrite loop_nat_add. cbn [loop_pos loop_nat]. rewrite bind_assoc.
    apply bind_ext; [done|]. intros r s'. unfold mbind, M_bind.
    destruct r as [x'|a]; simpl; [|done]. rewrite IH, loop_nat_add.
    apply bind_ext; [done|]. intros r s''. by apply loop_step_ext.
  - rewrite Pos2Nat.inj_xO. replace (2 * _)%nat with (Pos.to_nat p + Pos.to_nat p)%nat by lia.
    rewrite loop_nat_add. cbn [loop_pos]. apply bind_ext; [apply IH|].
    intros r s'. by apply loop_step_ext.
  - simpl. unfold mbind, M_bind, obind.
    destruct (body x s) as [[[x'|a] s']| |]; done.
Qed.

Lemma wp_loop_nat (I : X → St → Prop) (μ : X → St → Z) n body x s (Q : A → St → Prop) :
  I x s → 0 ≤ μ x s < Z.of_nat n →
  (∀ x s, I x s → 0 ≤ μ x s →
    wp (body x) (λ r s', match r with
                         | inl x' => I x' s' ∧ 0 ≤ μ x' s' < μ x s
                         | inr a => Q a s'
                         end) s) →
  wp (loop_nat n body x) (λ r s', match r with inl _ => False | inr a => Q a s' end) s.
Proof.
  intros HI Hμ Hbody. revert x s HI Hμ.
  induction n as [|n IH]; intros x s HI Hμ; [lia|].
  apply wp_bind. eapply wp_mono; [apply Hbody; [done|lia]|].
  intros [x'|a] s'; simpl; [intros [HI' Hlt]|done].
  eapply wp_mono; [apply IH; [done|lia]|done].
Qed.

(** A loop whose measure decreases ends, and its invariant gives the result. *)
Lemma wp_loop (I : X → St → Prop) (μ : X → St → Z) n body x s (Q : A → St → Prop) :
  I x s → 0 ≤ μ x s < n →
  (∀ x s, I x s → 0 ≤ μ x s →
    wp (body x) (λ r s', match r with
                         | inl x' => I x' s' ∧ 0 ≤ μ x' s' < μ x s
                         | inr a => Q a s'
                         end) s) →
  wp (loop n body x) Q s.
Proof.
  intros HI Hμ Hbody. destruct n as [|p|p]; [lia| |lia].
  apply wp_bind. unfold wp at 1. rewrite loop_pos_nat.
  eapply wp_mono; [eapply (wp_loop_nat I μ (Pos.to_nat p)); [done|lia|done]|].
  by intros [x'|a] s' HQ.
Qed.

(** One turn of a loop. *)
Lemma loop_unfold n body x s :
  1 < n →
  loop n body x s =
  (r ← body x; match r with inl x' => loop (n - 1) body x' | inr a => mret a end) s.
Proof.
  intros Hn. destruct n as [|p|p]; [lia| |lia].
  destruct (Z.pos p - 1) as [|q|q] eqn:E; [lia| |lia].
  unfold loop, mbind, M_bind, obind. rewrite loop_pos_nat.
  replace (Pos.to_nat p) with (S (Pos.to_nat q)) by lia.
  cbn [loop_nat]. unfold mbind, M_bind, obind.
  destruct (body x s) as [[[x'|a] s']| |]; simpl; [|done..].
  by rewrite loop_pos_nat.
Qed.

Lemma loop_inl n body x s x' s' :
  1 < n → body x s = Done (inl x', s') →
  loop n body x s = loop (n - 1) body x' s'.
Proof.
  intros Hn Hb. rewrite loop_unfold by done.
  unfold mbind, M_bind, obind. by rewrite Hb.
Qed.

Lemma loop_inr n body x s a s' :
  0 < n → body x s = Done (inr a, s') → loop n body x s = Done (a, s').
Proof.
  intros Hn Hb. destruct (decide (n = 1)) as [->|].
  { unfold loop, mbind, M_bind, obind. cbn [loop_pos]. by rewrite Hb. }
  rewrite loop_unfold by lia. unfold mbind, M_bind, obind. by rewrite Hb.
Qed.

(** The same with an invariant that is indexed by a bound on the turns that are left. *)
Lemma wp_loop_upto (I : nat → X → St → Prop) k n body x s (Q : A → St → Prop) :
  I k x s → Z.of_nat k < n →
  (∀ k x s, I k x s →
    wp (body x) (λ r s', match r with
                         | inl x' => ∃ k', (k' < k)%nat ∧ I k' x' s'
                         | inr a => Q a s'
                         end) s) →
  wp (loop n body x) Q s.
Proof.
  intros HI Hk Hbody. revert k x s n HI Hk.
  induction k as [k IH] using (well_founded_induction lt_wf). intros x s n HI Hk.
  destruct (wp_run _ _ _ (Hbody k x s HI)) as ([x'|a] & s' & E & H).
  - destruct H as (k' & Hlt & HI'). unfold wp. rewrite (loop_inl _ _ _ _ x' s') by (done || lia).
    apply (IH k' Hlt x' s' (n - 1)); [done|lia].
  - unfold wp. by rewrite (loop_inr _ _ _ _ a s') by (done || lia).
Qed.

(** A loop depends on what its body does only. *)
Lemma loop_ext n body body' x s :
  (∀ x s, body x s = body' x s) → loop n body x s = loop n body' x s.
Proof.
  intros Hb. destruct n as [|p|p]; [done| |done]. unfold loop.
  apply bind_ext; [|done]. rewrite !loop_pos_nat. generalize (Pos.to_nat p) as k.
  intros k. revert x s. induction k as [|k IH]; intros x s; [done|]. cbn [loop_nat].
  apply bind_ext; [done|]. intros r s'. by apply loop_step_ext.
Qed.

(** The same under [wp]. *)
Lemma bind_assoc_wp {B C D} (c : M St B) (f : B → M St C) (g : C → M St D) Q s :
  wp ((c ≫= f) ≫= g) Q s = wp (c ≫= λ b, f b ≫= g) Q s.
Proof. unfold wp. by rewrite bind_assoc. Qed.
End loop_rules.

(** The first command of a sequence, when its run is known. *)
Lemma bind_done {St A B} (c : M St A) (f : A → M St B) s a s' :
  c s = Done (a, s') → (c ≫= f) s = f a s'.
Proof. unfold mbind, M_bind, obind. by intros ->. Qed.
Lemma bind_get {St B} (f : St → M St B) s : (get_state ≫= f) s = f s s.
Proof. done. Qed.
Lemma bind_assert {St B} b (f : unit → M St B) s : b = true → (assert_ b ≫= f) s = f tt s.
Proof. by intros ->. Qed.
Lemma bind_lift {St A B} (o : option A) a (f : A → M St B) s :
  o = Some a → (lift_option o ≫= f) s = f a s.
Proof. by intros ->. Qed.
Ltac bind_with E := rewrite (bind_done _ _ _ _ _ E).

(** The other way: a sequence that ends has a first command that ends. *)
Lemma bind_inv {St A B} (c : M St A) (f : A → M St B) s b s' :
  (c ≫= f) s = Done (b, s') → ∃ a s1, c s = Done (a, s1) ∧ f a s1 = Done (b, s').
Proof. unfold mbind, M_bind, obind. destruct (c s) as [[a s1]| |]; [eauto|done..]. Qed.
Ltac inv_bind H x s E := apply bind_inv in H as (x & s & E & H).

(** Compute the first steps of a run: unfold the monad, and use an equation for
    what comes first. *)
Ltac run_unfold :=
  unfold mbind, M_bind, mret, M_ret, obind, outcome_bind, outcome_ret; cbv beta iota.
Ltac run_with E := run_unfold; rewrite E; cbv beta iota.

(** ** Arithmetic of bits and machine integers *)

(** Evaluate the powers of two that the code uses. *)
Ltac pow2 :=
  change (2 ^ 64) with 18446744073709551616 in *;
  change (2 ^ 63) with 9223372036854775808 in *;
  change (2 ^ 32) with 4294967296 in *;
  change (2 ^ 31) with 2147483648 in *;
  change (2 ^ 16) with 65536 in *;
  change (2 ^ 15) with 32768 in *;
  change (2 ^ 8) with 256 in *;
  change (2 ^ 7) with 128 in *.

(** Linear goals with [/] and [mod] by constants. *)
Ltac zdiv := intros; Z.to_euclidean_division_equations; lia.

Lemma wrapu_small w x : 0 ≤ x < 2 ^ w → wrapu w x = x.
Proof. apply Z.mod_small. Qed.
Lemma wrapu_range w x : 0 ≤ w → 0 ≤ wrapu w x < 2 ^ w.
Proof. intros. apply Z.mod_pos_bound. lia. Qed.

Lemma wraps_small w x : 0 < w → - 2 ^ (w - 1) ≤ x < 2 ^ (w - 1) → wraps w x = x.
Proof.
  intros Hw Hx. unfold wraps.
  assert (2 ^ w = 2 * 2 ^ (w - 1)) as Hp.
  { rewrite <-Z.pow_succ_r by lia. f_equal. lia. }
  destruct (Z_lt_le_dec x 0).
  - replace (x `mod` 2 ^ w) with (x + 2 ^ w).
    + destruct (Z.ltb_spec (x + 2 ^ w) (2 ^ (w - 1))); lia.
    + apply (Z.mod_unique_pos _ _ (-1)); lia.
  - rewrite Z.mod_small by lia.
    destruct (Z.ltb_spec x (2 ^ (w - 1))); lia.
Qed.

Lemma wraps_range w x : 0 < w → - 2 ^ (w - 1) ≤ wraps w x < 2 ^ (w - 1).
Proof.
  intros Hw. unfold wraps.
  assert (2 ^ w = 2 * 2 ^ (w - 1)) as Hp.
  { rewrite <-Z.pow_succ_r by lia. f_equal. lia. }
  pose proof (Z.mod_pos_bound x (2 ^ w)).
  destruct (Z.ltb_spec (x `mod` 2 ^ w) (2 ^ (w - 1))); lia.
Qed.

(** Conversion to signed and back keeps the bits. *)
Lemma wraps_mod w x : 0 < w → wraps w x `mod` 2 ^ w = x `mod` 2 ^ w.
Proof.
  intros Hw. unfold wraps. destruct (_ <? _).
  - apply Z.mod_mod. lia.
  - rewrite Zminus_mod, Z_mod_same_full, Z.sub_0_r, !Z.mod_mod by lia. done.
Qed.

Lemma wraps_of_mod w x : wraps w (x `mod` 2 ^ w) = wraps w x.
Proof. unfold wraps. by rewrite Zmod_mod. Qed.

Lemma land_7F x : Z.land x 0x7F = x `mod` 128.
Proof. apply (Z.land_ones x 7). lia. Qed.
Lemma land_FF x : Z.land x 0xFF = x `mod` 256.
Proof. apply (Z.land_ones x 8). lia. Qed.
Lemma land_F x : Z.land x 0x0F = x `mod` 16.
Proof. apply (Z.land_ones x 4). lia. Qed.
Lemma land_7 x : Z.land x 7 = x `mod` 8.
Proof. apply (Z.land_ones x 3). lia. Qed.
Lemma land_1 x : Z.land x 1 = x `mod` 2.
Proof. apply (Z.land_ones x 1). lia. Qed.

(** [|] of values without common bits is [+]. *)
Lemma lor_shiftl_add x y k :
  0 ≤ k → 0 ≤ x < 2 ^ k → Z.lor x (Z.shiftl y k) = x + Z.shiftl y k.
Proof.
  intros Hk Hx. symmetry. apply Z.add_nocarry_lor. apply Z.bits_inj'. intros n Hn.
  rewrite Z.land_spec, Z.bits_0, Z.shiftl_spec by done.
  destruct (Z_lt_le_dec n k).
  - rewrite (Z.testbit_neg_r y) by lia. apply andb_false_r.
  - rewrite <-(Z.mod_small x (2 ^ k)), Z.mod_pow2_bits_high by lia. done.
Qed.

Lemma lor_range w x y : 0 ≤ x < 2 ^ w → 0 ≤ y < 2 ^ w → 0 ≤ Z.lor x y < 2 ^ w.
Proof.
  intros Hx Hy. split; [apply Z.lor_nonneg; lia|].
  assert (0 ≤ w) by (destruct (Z_lt_le_dec w 0); [rewrite Z.pow_neg_r in Hx; lia|done]).
  destruct (decide (Z.lor x y = 0)) as [->|]; [lia|].
  assert (0 < Z.lor x y) by (assert (0 ≤ Z.lor x y) by (apply Z.lor_nonneg; lia); lia).
  apply Z.log2_lt_pow2; [done|]. rewrite Z.log2_lor by lia.
  assert (∀ z, 0 ≤ z < 2 ^ w → z = 0 ∨ Z.log2 z < w) as Hz.
  { intros z ?. destruct (decide (z = 0)); [by left|right; apply Z.log2_lt_pow2; lia]. }
  assert (0 < w) by (destruct (decide (w = 0)) as [->|]; [rewrite Z.pow_0_r in *|]; [|lia];
    replace x with 0 in * by lia; replace y with 0 in * by lia; done).
  destruct (Hz x Hx) as [->|]; destruct (Hz y Hy) as [->|]; simpl; lia.
Qed.

Lemma land_lxor_l x y z : Z.land (Z.lxor x y) z = Z.lxor (Z.land x z) (Z.land y z).
Proof.
  apply Z.bits_inj'. intros n _. rewrite Z.lxor_spec, !Z.land_spec, Z.lxor_spec.
  by destruct (Z.testbit x n), (Z.testbit y n), (Z.testbit z n).
Qed.

Lemma lxor_range w x y :
  0 ≤ w → 0 ≤ x < 2 ^ w → 0 ≤ y < 2 ^ w → 0 ≤ Z.lxor x y < 2 ^ w.
Proof.
  intros Hw Hx Hy. assert (Z.lxor x y = Z.land (Z.lxor x y) (Z.ones w)) as ->.
  - by rewrite land_lxor_l, !Z.land_ones, !Z.mod_small by lia.
  - rewrite Z.land_ones by lia. apply Z.mod_pos_bound. lia.
Qed.

(** Properties of all bytes, by enumeration. *)
Lemma byte_forall (P : Z → bool) :
  forallb P (seqZ 0 256) = true → ∀ b, is_byte b → P b = true.
Proof.
  intros HP b Hb. rewrite forallb_forall in HP. apply HP.
  apply list_elem_of_In, elem_of_seqZ. unfold is_byte in Hb. lia.
Qed.

Lemma land_80_byte b : is_byte b → (Z.land b 0x80 =? 0) = (b <? 128).
Proof.
  intros Hb. apply eqb_prop.
  apply (byte_forall (λ b, Bool.eqb (Z.land b 0x80 =? 0) (b <? 128))); [|done].
  vm_compute. reflexivity.
Qed.

Lemma lor_80 x : 0 ≤ x < 128 → Z.lor x 0x80 = x + 128.
Proof. intros. apply (lor_shiftl_add x 1 7); lia. Qed.

(** ** Little-endian bytes *)

Lemma length_le_split n z : length (le_split n z) = n.
Proof. revert z. induction n as [|n IH]; intros z; simpl; [done|]. by rewrite IH. Qed.

Lemma le_split_bytes n z : Forall is_byte (le_split n z).
Proof.
  revert z. induction n as [|n IH]; intros z; simpl; constructor; [|apply IH].
  apply Z.mod_pos_bound. lia.
Qed.

Lemma pow256_succ n : 256 ^ Z.of_nat (S n) = 256 * 256 ^ Z.of_nat n.
Proof. rewrite Nat2Z.inj_succ, Z.pow_succ_r; lia. Qed.

Lemma le_combine_split n z : le_combine (le_split n z) = z `mod` 256 ^ Z.of_nat n.
Proof.
  revert z. induction n as [|n IH]; intros z.
  - simpl. by rewrite Z.mod_1_r.
  - cbn [le_split le_combine]. rewrite IH, pow256_succ.
    rewrite Z.rem_mul_r by lia. lia.
Qed.

Lemma le_combine_range l : Forall is_byte l → 0 ≤ le_combine l < 256 ^ Z.of_nat (length l).
Proof.
  induction 1 as [|b l Hb Hl IH]; [simpl; lia|].
  cbn [le_combine length]. rewrite pow256_succ. unfold is_byte in Hb. nia.
Qed.

Lemma le_split_combine l : Forall is_byte l → le_split (length l) (le_combine l) = l.
Proof.
  induction 1 as [|b l Hb Hl IH]; [done|]. cbn [le_combine length le_split].
  unfold is_byte in Hb.
  rewrite (Z.mul_comm 256), Z.mod_add, Z.mod_small, Z.div_add, Z.div_small by lia.
  by rewrite Z.add_0_l, IH.
Qed.

Create HintDb le_bytes.
Create Rewrite HintDb le_bytes.
#[export] Hint Rewrite length_le_split le_combine_split : le_bytes.
#[export] Hint Resolve le_split_bytes : le_bytes.

(** [|] accumulates the next group of bits at any width. *)
Lemma lor_wrapu_shiftl w acc x k :
  0 ≤ k ≤ w → 0 ≤ acc < 2 ^ k →
  Z.lor acc (wrapu w (Z.shiftl x k)) = wrapu w (acc + x * 2 ^ k).
Proof.
  intros Hk Ha. unfold wrapu.
  assert (2 ^ w = 2 ^ (w - k) * 2 ^ k) as Ew.
  { rewrite <-Z.pow_add_r by lia. f_equal. lia. }
  assert (0 < 2 ^ (w - k)) by (apply Z.pow_pos_nonneg; lia).
  assert (Z.shiftl x k `mod` 2 ^ w = Z.shiftl (x `mod` 2 ^ (w - k)) k) as ->.
  { rewrite !Z.shiftl_mul_pow2, Ew by lia. by rewrite Z.mul_mod_distr_r by lia. }
  rewrite lor_shiftl_add by lia. rewrite Z.shiftl_mul_pow2 by lia.
  pose proof (Z.mod_pos_bound x (2 ^ (w - k))).
  apply (Z.mod_unique_pos _ _ (x / 2 ^ (w - k))); [nia|].
  rewrite Ew. pose proof (Z.div_mod x (2 ^ (w - k))). nia.
Qed.

(** ** Lists *)

Lemma list_elem_of_concat {A} (ls : list (list A)) x : x ∈ concat ls ↔ ∃ l, x ∈ l ∧ l ∈ ls.
Proof.
  setoid_rewrite list_elem_of_In. rewrite in_concat.
  split; intros (l & ? & ?); by exists l.
Qed.
