(* ===== verification/CMem.v ===== *)
(** * Byte-addressed memory, the heap and little-endian accesses

    The C code works through [void*] and offsets, so the model has one flat
    memory: the live bytes, by address, and the blocks obtained from [realloc].
    An access to a byte that is not live gives no value. The target is LP64 and
    little-endian (the iOS devices and simulators the Pods are built for). *)
From S2P Require Import Prelude.

Record mem := Mem {
  bytes : gmap Z Z;      (* the live bytes *)
  blocks : gmap Z Z;     (* base address -> size of the blocks of the heap *)
}.

Definition NULL : Z := 0.
Definition sizeof_ptr : Z := 8.

Definition load_byte (m : mem) (a : Z) : option Z := bytes m !! a.

Definition store_byte (m : mem) (a v : Z) : option mem :=
  match bytes m !! a with
  | Some _ => Some (Mem (<[a := v `mod` 256]> (bytes m)) (blocks m))
  | None => None
  end.

Fixpoint load_bytes (m : mem) (a : Z) (n : nat) : option (list Z) :=
  match n with
  | O => Some []
  | S n' => b ← load_byte m a; l ← load_bytes m (a + 1) n'; Some (b :: l)
  end.

Fixpoint store_bytes (m : mem) (a : Z) (l : list Z) : option mem :=
  match l with
  | [] => Some m
  | b :: l' => m' ← store_byte m a b; store_bytes m' (a + 1) l'
  end.

(** [*(uintN_t* )a] and [*(uintN_t* )a = v] with [n] bytes. *)
Definition load (m : mem) (a : Z) (n : nat) : option Z :=
  le_combine <$> load_bytes m a n.
Definition store (m : mem) (a : Z) (n : nat) (v : Z) : option mem :=
  store_bytes m a (le_split n v).

(** [memset(a, v, n)] *)
Definition memset (m : mem) (a v n : Z) : option mem :=
  store_bytes m a (replicate (Z.to_nat n) v).

(** A region of [n] fresh bytes, and its removal. *)
Fixpoint map_region (f : Z → Z) (b : gmap Z Z) (a : Z) (n : nat) : gmap Z Z :=
  match n with
  | O => b
  | S n' => map_region f (<[a := f a `mod` 256]> b) (a + 1) n'
  end.
Fixpoint unmap_region (b : gmap Z Z) (a : Z) (n : nat) : gmap Z Z :=
  match n with
  | O => b
  | S n' => unmap_region (delete a b) (a + 1) n'
  end.

Definition fresh_region (b : gmap Z Z) (a : Z) (n : nat) : bool :=
  forallb (λ i, bool_decide (b !! (a + Z.of_nat i) = None)) (seq 0 n).

(** ** [realloc] and [free]

    Where a block goes, and whether there is room for it, is the choice of the
    allocator: an oracle, whose answer is used only when it is a legal one (a
    non-NULL, free region below 2^64). The contents of fresh bytes are
    arbitrary as well. *)
Record allocator := Allocator {
  alloc_choice : gmap Z Z → Z → option Z;
  alloc_junk : Z → Z;
}.

Definition alloc_place (al : allocator) (b : gmap Z Z) (size : Z) : option Z :=
  match alloc_choice al b size with
  | Some a =>
      if (0 <? a) && (a + size <? 2 ^ 64) && fresh_region b a (Z.to_nat size)
      then Some a else None
  | None => None
  end.

(** Gives the new pointer, NULL when the allocation failed; the old block is
    then left alone. A pointer that is not the base of a block is undefined
    behaviour. *)
Definition realloc (al : allocator) (m : mem) (ptr size : Z) : option (Z * mem) :=
  if ptr =? NULL then
    match alloc_place al (bytes m) size with
    | None => Some (NULL, m)
    | Some a =>
        Some (a, Mem (map_region (alloc_junk al) (bytes m) a (Z.to_nat size))
                     (<[a := size]> (blocks m)))
    end
  else
    old ← blocks m !! ptr;
    data ← load_bytes m ptr (Z.to_nat (Z.min old size));
    let b := unmap_region (bytes m) ptr (Z.to_nat old) in
    match alloc_place al b size with
    | None => Some (NULL, m)
    | Some a =>
        m' ← store_bytes
               (Mem (map_region (alloc_junk al) b a (Z.to_nat size))
                    (<[a := size]> (delete ptr (blocks m)))) a data;
        Some (a, m')
    end.

Definition free (m : mem) (ptr : Z) : option mem :=
  if ptr =? NULL then Some m
  else
    n ← blocks m !! ptr;
    Some (Mem (unmap_region (bytes m) ptr (Z.to_nat n)) (delete ptr (blocks m))).

(** ** Live regions and frames *)

Definition mapped (m : mem) (a n : Z) : Prop :=
  ∀ i, a ≤ i < a + n → is_Some (bytes m !! i).

(** Every live byte is one. *)
Definition wf_mem (m : mem) : Prop := ∀ i b, bytes m !! i = Some b → is_byte b.

(** [m'] differs from [m] at most in the contents of [a .. a + n - 1]. *)
Record frame (a n : Z) (m m' : mem) : Prop := {
  frame_dom : ∀ i, is_Some (bytes m !! i) ↔ is_Some (bytes m' !! i);
  frame_blocks : blocks m' = blocks m;
  frame_out : ∀ i, ¬ (a ≤ i < a + n) → bytes m' !! i = bytes m !! i;
}.

Lemma mapped_sub m a n b k : mapped m a n → a ≤ b → b + k ≤ a + n → mapped m b k.
Proof. intros Hm ?? i Hi. apply Hm. lia. Qed.

Lemma mapped_head m a n : mapped m a n → 0 < n → is_Some (bytes m !! a).
Proof. intros Hm ?. apply Hm. lia. Qed.

Lemma frame_mapped a n m m' b k : frame a n m m' → mapped m b k ↔ mapped m' b k.
Proof.
  intros Hf. split; intros Hm i Hi; apply (frame_dom _ _ _ _ Hf); by apply Hm.
Qed.

#[export] Instance frame_refl a n : Reflexive (frame a n).
Proof. intros m. by constructor. Qed.

#[export] Instance frame_trans a n : Transitive (frame a n).
Proof.
  intros m1 m2 m3 [D1 B1 O1] [D2 B2 O2]. constructor.
  - intros i. by rewrite D1.
  - by rewrite B2.
  - intros i Hi. by rewrite O2, O1.
Qed.

Lemma frame_weaken a n b k m m' :
  frame a n m m' → b ≤ a → a + n ≤ b + k → frame b k m m'.
Proof. intros [D B O] ??. constructor; [done|done|]. intros i Hi. apply O. lia. Qed.

(** ** Bytes *)

Lemma store_byte_Some m a v :
  is_Some (bytes m !! a) →
  store_byte m a v = Some (Mem (<[a := v `mod` 256]> (bytes m)) (blocks m)).
Proof. unfold store_byte. by intros [? ->]. Qed.

Lemma load_bytes_length m a n l : load_bytes m a n = Some l → length l = n.
Proof.
  revert a l. induction n as [|n IH]; intros a l; simpl; [by intros [= <-]|].
  destruct (load_byte m a) as [b|]; simpl; [|done].
  destruct (load_bytes m (a + 1) n) as [l'|] eqn:E; simpl; [|done].
  intros [= <-]. simpl. f_equal. by eapply IH.
Qed.

Lemma load_bytes_lookup m a n l :
  load_bytes m a n = Some l ↔
  length l = n ∧ ∀ i b, l !! i = Some b → bytes m !! (a + Z.of_nat i) = Some b.
Proof.
  revert a l. induction n as [|n IH]; intros a l; simpl.
  - split; [by intros [= <-]|]. by intros [->%length_zero_iff_nil _].
  - unfold load_byte. destruct l as [|b l].
    { split; [|by intros []]. destruct (bytes m !! a); [|done].
      simpl. by destruct (load_bytes m (a + 1) n). }
    specialize (IH (a + 1) l). split.
    + destruct (bytes m !! a) as [b'|] eqn:Ea; simpl; [|done].
      destruct (load_bytes m (a + 1) n) as [l'|] eqn:E; simpl; [|done].
      intros [= -> ->]. destruct (proj1 IH eq_refl) as [Hl Hi].
      split; [by rewrite <-Hl|]. intros [|i] b0 H0; simpl in H0.
      * rewrite Z.add_0_r. congruence.
      * rewrite <-(Hi i b0 H0). f_equal. lia.
    + intros [[= Hl] Hi]. rewrite (proj2 IH).
      * pose proof (Hi 0%nat b eq_refl) as H0. rewrite Z.add_0_r in H0. by rewrite H0.
      * split; [done|]. intros i b0 H0. rewrite <-(Hi (S i) b0 H0). f_equal. lia.
Qed.

(** A read only depends on the bytes it reads. *)
Lemma load_bytes_ext m m' a n :
  (∀ i, a ≤ i < a + Z.of_nat n → bytes m' !! i = bytes m !! i) →
  load_bytes m' a n = load_bytes m a n.
Proof.
  revert a. induction n as [|n IH]; intros a Hi; simpl; [done|].
  unfold load_byte. rewrite Hi by lia.
  destruct (bytes m !! a); simpl; [|done]. rewrite IH; [done|].
  intros i ?. apply Hi. lia.
Qed.

Lemma load_ext m m' a n :
  (∀ i, a ≤ i < a + Z.of_nat n → bytes m' !! i = bytes m !! i) →
  load m' a n = load m a n.
Proof. intros Hi. unfold load. by rewrite (load_bytes_ext m m'). Qed.

Lemma load_bytes_mapped m a n :
  mapped m a (Z.of_nat n) → ∃ l, load_bytes m a n = Some l.
Proof.
  revert a. induction n as [|n IH]; intros a Hm; simpl; [eauto|].
  destruct (Hm a) as [b Hb]; [lia|]. unfold load_byte. rewrite Hb. simpl.
  destruct (IH (a + 1)) as [l ->]; [|by eauto]. eapply mapped_sub; [done|lia|lia].
Qed.

Lemma load_bytes_wf m a n l : wf_mem m → load_bytes m a n = Some l → Forall is_byte l.
Proof.
  intros Hwf [_ Hi]%load_bytes_lookup. apply Forall_lookup. intros i b Hb.
  eapply Hwf, Hi, Hb.
Qed.

Lemma load_bytes_app m a n1 n2 l :
  load_bytes m a (n1 + n2) = Some l ↔
  load_bytes m a n1 = Some (take n1 l) ∧
  load_bytes m (a + Z.of_nat n1) n2 = Some (drop n1 l) ∧ length l = (n1 + n2)%nat.
Proof.
  rewrite !load_bytes_lookup, length_take, length_drop. split.
  - intros [Hl Hi]. split_and!; try lia.
    + intros i b [Hb ?]%lookup_take_Some. by apply Hi.
    + intros i b Hb. rewrite lookup_drop in Hb. rewrite <-(Hi _ _ Hb). f_equal. lia.
  - intros ([? H1] & [? H2] & ?). split; [done|]. intros i b Hb.
    destruct (decide (i < n1)%nat).
    + apply H1. by rewrite lookup_take_lt.
    + replace (a + Z.of_nat i) with (a + Z.of_nat n1 + Z.of_nat (i - n1)) by lia.
      apply H2. rewrite lookup_drop. by replace (n1 + (i - n1))%nat with i by lia.
Qed.

(** What a store does: the written bytes, and nothing else. *)
Lemma store_bytes_spec m a l :
  mapped m a (Z.of_nat (length l)) →
  ∃ m', store_bytes m a l = Some m' ∧ blocks m' = blocks m ∧
    (∀ i, ¬ (a ≤ i < a + Z.of_nat (length l)) → bytes m' !! i = bytes m !! i) ∧
    (∀ i b, l !! i = Some b → bytes m' !! (a + Z.of_nat i) = Some (b `mod` 256)).
Proof.
  revert m a. induction l as [|b l IH]; intros m a Hm; simpl.
  { exists m. split_and!; [done|done|done|]. intros i b Hb. by rewrite lookup_nil in Hb. }
  cbn [length] in Hm. rewrite store_byte_Some by (apply (mapped_head _ _ _ Hm); lia). simpl.
  destruct (IH (Mem (<[a:=b `mod` 256]> (bytes m)) (blocks m)) (a + 1))
    as (m' & Hm' & Hb & Ho & Hi).
  { intros i Hi. simpl. apply lookup_insert_is_Some'. right. apply Hm. lia. }
  simpl in *. exists m'. split_and!; [done|done| |].
  - intros i Hi'. rewrite Ho by lia. apply lookup_insert_ne. lia.
  - intros [|i] b' Hb'; simpl in Hb'.
    + simplify_eq. rewrite Z.add_0_r, Ho by lia. apply lookup_insert_eq.
    + rewrite <-(Hi _ _ Hb'). f_equal. lia.
Qed.

Lemma store_bytes_frame m a l m' :
  store_bytes m a l = Some m' → mapped m a (Z.of_nat (length l)) →
  frame a (Z.of_nat (length l)) m m' ∧ load_bytes m' a (length l) = Some ((λ b, b `mod` 256) <$> l).
Proof.
  intros Hs Hm. destruct (store_bytes_spec m a l Hm) as (m'' & Hs' & Hb & Ho & Hi).
  rewrite Hs in Hs'. simplify_eq. split.
  - constructor; [|done|done]. intros i.
    destruct (decide (a ≤ i < a + Z.of_nat (length l))) as [Hr|Hr]; [|by rewrite Ho].
    split; [intros _|intros _; by apply Hm].
    destruct (lookup_lt_is_Some_2 l (Z.to_nat (i - a))) as [b Hb']; [lia|].
    exists (b `mod` 256). rewrite <-(Hi _ _ Hb'). f_equal. lia.
  - apply load_bytes_lookup. split; [by rewrite length_fmap|].
    intros i b Hib. rewrite list_lookup_fmap in Hib.
    destruct (l !! i) as [b'|] eqn:E; simplify_eq/=. by apply Hi.
Qed.

Lemma store_bytes_wf m a l m' : wf_mem m → store_bytes m a l = Some m' → wf_mem m'.
Proof.
  revert m a. induction l as [|b l IH]; intros m a Hwf; simpl; [by intros [= <-]|].
  unfold store_byte. destruct (bytes m !! a); simpl; [|done]. apply IH.
  intros i b'. simpl. intros [[<- <-]|[? ?]]%lookup_insert_Some; [apply Z.mod_pos_bound; lia|by eapply Hwf].
Qed.

(** ** Typed accesses *)

Lemma load_mapped m a n : mapped m a (Z.of_nat n) → ∃ v, load m a n = Some v.
Proof. intros [l Hl]%load_bytes_mapped. exists (le_combine l). unfold load. by rewrite Hl. Qed.

Lemma load_range m a n v : wf_mem m → load m a n = Some v → 0 ≤ v < 256 ^ Z.of_nat n.
Proof.
  intros Hwf. unfold load. destruct (load_bytes m a n) as [l|] eqn:E; simpl; [|done].
  intros [= <-]. rewrite <-(load_bytes_length _ _ _ _ E).
  by eapply le_combine_range, load_bytes_wf.
Qed.

Lemma store_spec m a n v :
  mapped m a (Z.of_nat n) →
  ∃ m', store m a n v = Some m' ∧ frame a (Z.of_nat n) m m' ∧
        load m' a n = Some (v `mod` 256 ^ Z.of_nat n).
Proof.
  intros Hm. unfold store.
  destruct (store_bytes_spec m a (le_split n v)) as (m' & Hs & _).
  { by rewrite length_le_split. }
  exists m'. split; [done|].
  destruct (store_bytes_frame _ _ _ _ Hs) as [Hf Hl]; [by rewrite length_le_split|].
  rewrite length_le_split in *. split; [done|]. unfold load. rewrite Hl. simpl.
  f_equal. rewrite <-le_combine_split. f_equal.
  rewrite <-(list_fmap_id (le_split n v)) at 2. apply list_fmap_ext.
  intros i b Hb. apply Z.mod_small.
  pose proof (le_split_bytes n v) as Hby. rewrite Forall_lookup in Hby. by eapply Hby.
Qed.

Lemma store_wf m a n v m' : wf_mem m → store m a n v = Some m' → wf_mem m'.
Proof. apply store_bytes_wf. Qed.

Lemma memset_spec m a v n :
  0 ≤ n → mapped m a n →
  ∃ m', memset m a v n = Some m' ∧ frame a n m m' ∧
        load_bytes m' a (Z.to_nat n) = Some (replicate (Z.to_nat n) (v `mod` 256)).
Proof.
  intros Hn Hm. unfold memset. set (l := replicate _ _).
  assert (Z.of_nat (length l) = n) as El by (unfold l; rewrite length_replicate; lia).
  destruct (store_bytes_spec m a l) as (m' & Hs & _); [by rewrite El|].
  destruct (store_bytes_frame _ _ _ _ Hs) as [Hf Hl]; [by rewrite El|].
  exists m'. rewrite El in Hf. split_and!; [done|done|].
  unfold l in Hl. by rewrite length_replicate, fmap_replicate in Hl.
Qed.

(** ** Checks on concrete memories *)

Lemma wf_mem_check m : bool_decide (map_Forall (λ _ b, is_byte b) (bytes m)) = true → wf_mem m.
Proof. intros Hb%bool_decide_eq_true i b. apply Hb. Qed.

Lemma mapped_check m a n :
  forallb (λ i, bool_decide (is_Some (bytes m !! i))) (seqZ a n) = true → mapped m a n.
Proof.
  rewrite forallb_forall. intros Hb i Hi. apply (bool_decide_eq_true (is_Some (bytes m !! i))), Hb.
  apply list_elem_of_In, elem_of_seqZ. lia.
Qed.

Lemma submem_check m m' :
  bool_decide (map_Forall (λ i b, bytes m' !! i = Some b) (bytes m)) = true →
  ∀ i b, bytes m !! i = Some b → bytes m' !! i = Some b.
Proof. intros Hb%bool_decide_eq_true. apply Hb. Qed.

Lemma unmapped_check m a n :
  forallb (λ i, bool_decide (bytes m !! i = None)) (seqZ a n) = true →
  ∀ i, a ≤ i < a + n → bytes m !! i = None.
Proof.
  rewrite forallb_forall. intros Hb i Hi. apply (bool_decide_eq_true (bytes m !! i = None)), Hb.
  apply list_elem_of_In, elem_of_seqZ. lia.
Qed.
