(* ===== verification/PbTypes.v ===== *)
(** * nanopb: the types of pb.h

    Field descriptors and the macros that build them, the bits of the field
    type, wire types, callbacks and extensions, in the configuration of the
    Pods target: PB_FIELD_32BIT, PB_ENABLE_MALLOC, PB_NO_PACKED_STRUCTS, error
    messages and custom streams enabled. *)
From S2P Require Import Prelude CMem.

(** ** Field types *)

(** [PB_LTYPE_*] *)
Definition PB_LTYPE_VARINT : Z := 0x00.
Definition PB_LTYPE_UVARINT : Z := 0x01.
Definition PB_LTYPE_SVARINT : Z := 0x02.
Definition PB_LTYPE_FIXED32 : Z := 0x03.
Definition PB_LTYPE_FIXED64 : Z := 0x04.
Definition PB_LTYPE_LAST_PACKABLE : Z := 0x04.
Definition PB_LTYPE_BYTES : Z := 0x05.
Definition PB_LTYPE_STRING : Z := 0x06.
Definition PB_LTYPE_SUBMESSAGE : Z := 0x07.
Definition PB_LTYPE_EXTENSION : Z := 0x08.
Definition PB_LTYPE_FIXED_LENGTH_BYTES : Z := 0x09.
Definition PB_LTYPES_COUNT : Z := 0x0A.
Definition PB_LTYPE_MASK : Z := 0x0F.

(** [PB_HTYPE_*] *)
Definition PB_HTYPE_REQUIRED : Z := 0x00.
Definition PB_HTYPE_OPTIONAL : Z := 0x10.
Definition PB_HTYPE_REPEATED : Z := 0x20.
Definition PB_HTYPE_ONEOF : Z := 0x30.
Definition PB_HTYPE_MASK : Z := 0x30.

(** [PB_ATYPE_*] *)
Definition PB_ATYPE_STATIC : Z := 0x00.
Definition PB_ATYPE_POINTER : Z := 0x80.
Definition PB_ATYPE_CALLBACK : Z := 0x40.
Definition PB_ATYPE_MASK : Z := 0xC0.

Definition PB_ATYPE (x : Z) : Z := Z.land x PB_ATYPE_MASK.
Definition PB_HTYPE (x : Z) : Z := Z.land x PB_HTYPE_MASK.
Definition PB_LTYPE (x : Z) : Z := Z.land x PB_LTYPE_MASK.

(** [pb_size_t] is [uint32_t] with PB_FIELD_32BIT. *)
Definition PB_SIZE_MAX : Z := 2 ^ 32 - 1.
Definition PB_MAX_REQUIRED_FIELDS : Z := 64.

(** ** Field descriptors *)

(** [const void *ptr]: the descriptors of a submessage, by the identity of the
    constant array, or the bytes of a default value, or NULL. *)
Inductive field_ptr : Type :=
  | PtrNull
  | PtrFields (id : Z)
  | PtrDefault (bs : list Z).

Record pb_field_t := PbField {
  tag : Z;            (* pb_size_t *)
  type : Z;           (* pb_type_t *)
  data_offset : Z;    (* pb_size_t *)
  size_offset : Z;    (* pb_ssize_t *)
  data_size : Z;      (* pb_size_t *)
  array_size : Z;     (* pb_size_t *)
  ptr : field_ptr;
}.

#[export] Instance field_ptr_eq_dec : EqDecision field_ptr.
Proof. solve_decision. Defined.
#[export] Instance pb_field_eq_dec : EqDecision pb_field_t.
Proof. solve_decision. Defined.

Definition PB_LAST_FIELD : pb_field_t := PbField 0 0 0 0 0 0 PtrNull.

(** An initialiser converts to the widths of the members of [pb_field_s]. *)
Definition mk_field (tag type data_offset size_offset data_size array_size : Z)
    (ptr : field_ptr) : pb_field_t :=
  PbField (u32 tag) (u8 type) (u32 data_offset) (s32 size_offset)
    (u32 data_size) (u32 array_size) ptr.

(** ** Struct layout

    A member of a message struct: its [offsetof], its [sizeof] and the [sizeof]
    of its elements ([m[0]]). *)
Record member := Member { m_offset : Z; m_size : Z; m_elt : Z }.

Definition pb_membersize (m : member) : Z := m_size m.
Definition pb_arraysize (m : member) : Z := m_size m / m_elt m.
Definition pb_delta (m1 m2 : member) : Z := m_offset m1 - m_offset m2.

Definition PB_DATAOFFSET_FIRST (m1 m2 : member) : Z := m_offset m1.
Definition PB_DATAOFFSET_OTHER (m1 m2 : member) : Z :=
  u64 (m_offset m1 - m_offset m2 - pb_membersize m2).
Definition PB_DATAOFFSET_UNION (m1 m2 : member) : Z := PB_SIZE_MAX.
Definition PB_DATAOFFSET_CHOOSE (m1 m2 : member) : Z :=
  s32 (if m_offset m1 =? m_offset m2 then PB_DATAOFFSET_FIRST m1 m2
       else PB_DATAOFFSET_OTHER m1 m2).

(** The static rules. [fd] is the data offset, [has_m], [m_count] and [which_u]
    are the companion members. *)
Definition PB_REQUIRED_STATIC tag (m : member) fd ltype ptr : pb_field_t :=
  mk_field tag (Z.lor (Z.lor PB_ATYPE_STATIC PB_HTYPE_REQUIRED) ltype)
    fd 0 (pb_membersize m) 0 ptr.
Definition PB_OPTIONAL_STATIC tag (has_m m : member) fd ltype ptr : pb_field_t :=
  mk_field tag (Z.lor (Z.lor PB_ATYPE_STATIC PB_HTYPE_OPTIONAL) ltype)
    fd (pb_delta has_m m) (pb_membersize m) 0 ptr.
Definition PB_SINGULAR_STATIC tag (m : member) fd ltype ptr : pb_field_t :=
  mk_field tag (Z.lor (Z.lor PB_ATYPE_STATIC PB_HTYPE_OPTIONAL) ltype)
    fd 0 (pb_membersize m) 0 ptr.
Definition PB_REPEATED_STATIC tag (m_count m : member) fd ltype ptr : pb_field_t :=
  mk_field tag (Z.lor (Z.lor PB_ATYPE_STATIC PB_HTYPE_REPEATED) ltype)
    fd (pb_delta m_count m) (m_elt m) (pb_arraysize m) ptr.

(** The pointer rules: [m_elt] is the size of what the pointer points at. *)
Definition PB_REQUIRED_POINTER tag (m : member) fd ltype ptr : pb_field_t :=
  mk_field tag (Z.lor (Z.lor PB_ATYPE_POINTER PB_HTYPE_REQUIRED) ltype)
    fd 0 (m_elt m) 0 ptr.
Definition PB_OPTIONAL_POINTER tag (m : member) fd ltype ptr : pb_field_t :=
  mk_field tag (Z.lor (Z.lor PB_ATYPE_POINTER PB_HTYPE_OPTIONAL) ltype)
    fd 0 (m_elt m) 0 ptr.
Definition PB_SINGULAR_POINTER tag (m : member) fd ltype ptr : pb_field_t :=
  mk_field tag (Z.lor (Z.lor PB_ATYPE_POINTER PB_HTYPE_OPTIONAL) ltype)
    fd 0 (m_elt m) 0 ptr.
Definition PB_REPEATED_POINTER tag (m_count m : member) fd ltype ptr : pb_field_t :=
  mk_field tag (Z.lor (Z.lor PB_ATYPE_POINTER PB_HTYPE_REPEATED) ltype)
    fd (pb_delta m_count m) (m_elt m) 0 ptr.

(** The callback rules. *)
Definition PB_REQUIRED_CALLBACK tag (m : member) fd ltype ptr : pb_field_t :=
  mk_field tag (Z.lor (Z.lor PB_ATYPE_CALLBACK PB_HTYPE_REQUIRED) ltype)
    fd 0 (pb_membersize m) 0 ptr.
Definition PB_OPTIONAL_CALLBACK tag (m : member) fd ltype ptr : pb_field_t :=
  mk_field tag (Z.lor (Z.lor PB_ATYPE_CALLBACK PB_HTYPE_OPTIONAL) ltype)
    fd 0 (pb_membersize m) 0 ptr.
Definition PB_SINGULAR_CALLBACK tag (m : member) fd ltype ptr : pb_field_t :=
  mk_field tag (Z.lor (Z.lor PB_ATYPE_CALLBACK PB_HTYPE_OPTIONAL) ltype)
    fd 0 (pb_membersize m) 0 ptr.
Definition PB_REPEATED_CALLBACK tag (m : member) fd ltype ptr : pb_field_t :=
  mk_field tag (Z.lor (Z.lor PB_ATYPE_CALLBACK PB_HTYPE_REPEATED) ltype)
    fd 0 (pb_membersize m) 0 ptr.

(** Extensions: marked REQUIRED to be told apart from proto3 fields. *)
Definition PB_OPTEXT_STATIC tag (m : member) (fd : Z) ltype ptr : pb_field_t :=
  mk_field tag (Z.lor (Z.lor PB_ATYPE_STATIC PB_HTYPE_REQUIRED) ltype)
    0 0 (pb_membersize m) 0 ptr.
Definition PB_OPTEXT_POINTER := PB_OPTIONAL_POINTER.
Definition PB_OPTEXT_CALLBACK := PB_OPTIONAL_CALLBACK.

(** Arrays without a count member, and the members of a union. *)
Definition PB_REPEATED_FIXED_COUNT tag ltype fd (m : member) ptr : pb_field_t :=
  mk_field tag (Z.lor (Z.lor PB_ATYPE_STATIC PB_HTYPE_REPEATED) ltype)
    fd 0 (m_elt m) (pb_arraysize m) ptr.
Definition PB_ONEOF_STATIC (which_u : member) tag (m : member) fd ltype ptr : pb_field_t :=
  mk_field tag (Z.lor (Z.lor PB_ATYPE_STATIC PB_HTYPE_ONEOF) ltype)
    fd (pb_delta which_u m) (pb_membersize m) 0 ptr.
Definition PB_ONEOF_POINTER (which_u : member) tag (m : member) fd ltype ptr : pb_field_t :=
  mk_field tag (Z.lor (Z.lor PB_ATYPE_POINTER PB_HTYPE_ONEOF) ltype)
    fd (pb_delta which_u m) (m_elt m) 0 ptr.
Definition PB_ANONYMOUS_ONEOF_STATIC := PB_ONEOF_STATIC.
Definition PB_ANONYMOUS_ONEOF_POINTER := PB_ONEOF_POINTER.

(** ** PB_FIELD: the macro the generated code uses *)

Inductive proto_type : Set :=
  | BOOL | BYTES | DOUBLE | ENUM | UENUM | FIXED32 | FIXED64 | FLOAT | INT32
  | INT64 | MESSAGE | SFIXED32 | SFIXED64 | SINT32 | SINT64 | STRING | UINT32
  | UINT64 | EXTENSION | FIXED_LENGTH_BYTES.
Inductive field_rules : Set := REQUIRED | OPTIONAL | SINGULAR | REPEATED | OPTEXT.
Inductive field_allocation : Set := STATIC | POINTER | CALLBACK.
Inductive field_placement : Set := FIRST | OTHER | UNION.

Definition PB_LTYPE_MAP (t : proto_type) : Z :=
  match t with
  | BOOL => PB_LTYPE_VARINT
  | BYTES => PB_LTYPE_BYTES
  | DOUBLE => PB_LTYPE_FIXED64
  | ENUM => PB_LTYPE_VARINT
  | UENUM => PB_LTYPE_UVARINT
  | FIXED32 => PB_LTYPE_FIXED32
  | FIXED64 => PB_LTYPE_FIXED64
  | FLOAT => PB_LTYPE_FIXED32
  | INT32 => PB_LTYPE_VARINT
  | INT64 => PB_LTYPE_VARINT
  | MESSAGE => PB_LTYPE_SUBMESSAGE
  | SFIXED32 => PB_LTYPE_FIXED32
  | SFIXED64 => PB_LTYPE_FIXED64
  | SINT32 => PB_LTYPE_SVARINT
  | SINT64 => PB_LTYPE_SVARINT
  | STRING => PB_LTYPE_STRING
  | UINT32 => PB_LTYPE_UVARINT
  | UINT64 => PB_LTYPE_UVARINT
  | EXTENSION => PB_LTYPE_EXTENSION
  | FIXED_LENGTH_BYTES => PB_LTYPE_FIXED_LENGTH_BYTES
  end.

Definition PB_DATAOFFSET (p : field_placement) (m prev : member) : Z :=
  match p with
  | FIRST => PB_DATAOFFSET_FIRST m prev
  | OTHER => PB_DATAOFFSET_OTHER m prev
  | UNION => PB_DATAOFFSET_UNION m prev
  end.

(** [companion] is the [has_], or [_count] member that the macro finds by name. *)
Definition PB_FIELD (tag : Z) (t : proto_type) (rules : field_rules)
    (allocation : field_allocation) (placement : field_placement)
    (companion m prev : member) (ptr : field_ptr) : pb_field_t :=
  let fd := PB_DATAOFFSET placement m prev in
  let ltype := PB_LTYPE_MAP t in
  match rules, allocation with
  | REQUIRED, STATIC => PB_REQUIRED_STATIC tag m fd ltype ptr
  | OPTIONAL, STATIC => PB_OPTIONAL_STATIC tag companion m fd ltype ptr
  | SINGULAR, STATIC => PB_SINGULAR_STATIC tag m fd ltype ptr
  | REPEATED, STATIC => PB_REPEATED_STATIC tag companion m fd ltype ptr
  | OPTEXT, STATIC => PB_OPTEXT_STATIC tag m fd ltype ptr
  | REQUIRED, POINTER => PB_REQUIRED_POINTER tag m fd ltype ptr
  | OPTIONAL, POINTER => PB_OPTIONAL_POINTER tag m fd ltype ptr
  | SINGULAR, POINTER => PB_SINGULAR_POINTER tag m fd ltype ptr
  | REPEATED, POINTER => PB_REPEATED_POINTER tag companion m fd ltype ptr
  | OPTEXT, POINTER => PB_OPTEXT_POINTER tag m fd ltype ptr
  | REQUIRED, CALLBACK => PB_REQUIRED_CALLBACK tag m fd ltype ptr
  | OPTIONAL, CALLBACK => PB_OPTIONAL_CALLBACK tag m fd ltype ptr
  | SINGULAR, CALLBACK => PB_SINGULAR_CALLBACK tag m fd ltype ptr
  | REPEATED, CALLBACK => PB_REPEATED_CALLBACK tag m fd ltype ptr
  | OPTEXT, CALLBACK => PB_OPTEXT_CALLBACK tag m fd ltype ptr
  end.

(** [PB_ONEOF_FIELD] and [PB_ANONYMOUS_ONEOF_FIELD]; there is no macro for a
    oneof with callback allocation. *)
Definition PB_ONEOF_FIELD (which_u : member) (tag : Z) (t : proto_type)
    (allocation : field_allocation) (placement : field_placement)
    (m prev : member) (ptr : field_ptr) : option pb_field_t :=
  let fd := PB_DATAOFFSET placement m prev in
  match allocation with
  | STATIC => Some (PB_ONEOF_STATIC which_u tag m fd (PB_LTYPE_MAP t) ptr)
  | POINTER => Some (PB_ONEOF_POINTER which_u tag m fd (PB_LTYPE_MAP t) ptr)
  | CALLBACK => None
  end.

(** ** Wire types *)
Definition PB_WT_VARINT : Z := 0.
Definition PB_WT_64BIT : Z := 1.
Definition PB_WT_STRING : Z := 2.
Definition PB_WT_32BIT : Z := 5.

(** ** Structs the runtime reads and writes in memory *)

(** [pb_bytes_array_s] *)
Definition bytes_array_size : Z := 0.
Definition bytes_array_bytes : Z := 4.
Definition PB_BYTES_ARRAY_T_ALLOCSIZE (n : Z) : Z := u64 (n + bytes_array_bytes).

(** [pb_callback_s]: the function pointer and its argument *)
Definition callback_funcs : Z := 0.
Definition callback_arg : Z := 8.

(** [pb_extension_s] *)
Definition extension_type : Z := 0.
Definition extension_dest : Z := 8.
Definition extension_next : Z := 16.
Definition extension_found : Z := 24.

(** [pb_extension_type_s]: constant data; [arg] points to the descriptor of the
    extension field. *)
Record pb_extension_type_t := PbExtensionType {
  ext_decode : Z;
  ext_encode : Z;
  ext_arg : list pb_field_t;
}.

(** The constant data of the program: field arrays and extension types. *)
Record rodata := Rodata {
  fields_of : Z → option (list pb_field_t);
  ext_type_of : Z → option pb_extension_type_t;
}.

(** [(const pb_field_t* )field->ptr]: a pointer to anything else is no array of
    descriptors. *)
Definition submsg_fields (ro : rodata) (p : field_ptr) : option (list pb_field_t) :=
  match p with PtrFields id => fields_of ro id | _ => None end.

(** [PB_SET_ERROR] and [PB_GET_ERROR] *)
Definition set_error (errmsg : option string) (msg : string) : option string :=
  match errmsg with Some e => Some e | None => Some msg end.
Definition get_error (errmsg : option string) : string :=
  match errmsg with Some e => e | None => "(none)" end.
