(* ===== verification/PbIter.v ===== *)
(** * nanopb: the field iterator of pb_common.c *)
From S2P Require Import Prelude CMem PbTypes.

(** A pointer to the count or has member: into memory, or to the local variable
    [fixed_count_size] of [pb_decode_noinit] (pb_decode.c line 985). *)
Inductive place : Type :=
  | PMem (a : Z)
  | PFixedCount.
#[export] Instance place_eq_dec : EqDecision place.
Proof. solve_decision. Defined.

(** [pb_field_iter_s]; [pos] is the index in the array [start]. *)
Record pb_field_iter_t := PbFieldIter {
  start : list pb_field_t;
  pos : nat;
  required_field_index : Z;
  dest_struct : Z;
  pData : Z;
  pSize : place;
}.

(** [*iter->pos]: none when the iterator ran off the array. *)
Definition iter_field (it : pb_field_iter_t) : option pb_field_t :=
  start it !! pos it.

Definition pb_field_iter_begin (fields : list pb_field_t) (dest_struct : Z)
    : option (bool * pb_field_iter_t) :=
  f ← fields !! 0%nat;
  let pData := dest_struct + data_offset f in
  let pSize := PMem (pData + size_offset f) in
  Some (bool_decide (tag f ≠ 0),
        PbFieldIter fields 0 0 dest_struct pData pSize).

(** [prev_size] of lines 42-63 *)
Definition iter_prev_size (prev_field : pb_field_t) : Z :=
  if (PB_ATYPE (type prev_field) =? PB_ATYPE_STATIC) &&
     (PB_HTYPE (type prev_field) =? PB_HTYPE_REPEATED)
  then u64 (data_size prev_field * array_size prev_field)
  else if PB_ATYPE (type prev_field) =? PB_ATYPE_POINTER then sizeof_ptr
  else data_size prev_field.

Definition pb_field_iter_next (it : pb_field_iter_t)
    : option (bool * pb_field_iter_t) :=
  prev_field ← iter_field it;
  if tag prev_field =? 0 then Some (false, it)
  else
    f ← start it !! S (pos it);
    if tag f =? 0 then
      '(_, it') ← pb_field_iter_begin (start it) (dest_struct it);
      Some (false, it')
    else if (PB_HTYPE (type prev_field) =? PB_HTYPE_ONEOF) &&
            (PB_HTYPE (type f) =? PB_HTYPE_ONEOF) &&
            (data_offset f =? PB_SIZE_MAX)
    then
      Some (true, PbFieldIter (start it) (S (pos it)) (required_field_index it)
                    (dest_struct it) (pData it) (pSize it))
    else
      let required' :=
        if PB_HTYPE (type prev_field) =? PB_HTYPE_REQUIRED
        then u32 (required_field_index it + 1) else required_field_index it in
      let pData' := pData it + iter_prev_size prev_field + data_offset f in
      Some (true, PbFieldIter (start it) (S (pos it)) required'
                    (dest_struct it) pData' (PMem (pData' + size_offset f))).

(** The two searches: step until [found], or back at the starting position.
    The iterator wraps around after the last field, so a search makes at most
    one step for each entry of the array. *)
Fixpoint iter_search (found : pb_field_t → bool) (start : nat) (fuel : nat)
    (it : pb_field_iter_t) : outcome (bool * pb_field_iter_t) :=
  match fuel with
  | O => NoFuel
  | S fuel' =>
      match iter_field it with
      | None => Undef
      | Some f =>
          if found f then Done (true, it)
          else
            match pb_field_iter_next it with
            | None => Undef
            | Some (_, it') =>
                if bool_decide (pos it' = start) then Done (false, it')
                else iter_search found start fuel' it'
            end
      end
  end.

Definition pb_field_iter_find (it : pb_field_iter_t) (t : Z)
    : outcome (bool * pb_field_iter_t) :=
  iter_search (λ f, (tag f =? t) && negb (PB_LTYPE (type f) =? PB_LTYPE_EXTENSION))
    (pos it) (length (start it)) it.
