(* ===== verification/PbIterSpec.v ===== *)
(** * nanopb: what the field iterator does

    The iterators of an array of descriptors are the ones reached from
    [pb_field_iter_begin]; they depend on the position only. [pb_field_iter_next]
    goes through them and wraps around; [pb_field_iter_find] finds a field if and
    only if the array has it; a loop over the iterator is a [for] loop over the
    positions; and the offsets of an array built by [PB_FIELD] are the ones of
    the members of the struct. *)
From S2P Require Import Prelude CMem PbTypes PbIter.

(** The array has [n] descriptors before its terminator. *)
Record terminated (fields : list pb_field_t) (n : nat) : Prop := {
  term_field : ∀ k, (k < n)%nat → ∃ f, fields !! k = Some f ∧ tag f ≠ 0;
  term_last : ∃ f, fields !! n = Some f ∧ tag f = 0;
}.

(** The iterator at position [k] of the array [fields] over the struct [base]. *)
Fixpoint iter_nth (fields : list pb_field_t) (base : Z) (k : nat)
    : option pb_field_iter_t :=
  match k with
  | O => snd <$> pb_field_iter_begin fields base
  | S k' =>
      it ← iter_nth fields base k';
      '(more, it') ← pb_field_iter_next it;
      if (more : bool) then Some it' else None
  end.

Lemma terminated_length fields n : terminated fields n → (n < length fields)%nat.
Proof. intros [_ (f & Hf & _)]. by eapply lookup_lt_Some. Qed.

Section iter.
Context (fields : list pb_field_t) (base : Z) (n : nat).
Context (Hterm : terminated fields n).

Lemma iter_nth_start k it :
  iter_nth fields base k = Some it → start it = fields ∧ dest_struct it = base.
Proof.
  revert it. induction k as [|k IH]; intros it; simpl.
  - unfold pb_field_iter_begin. destruct (fields !! 0%nat); [|done]. by intros [= <-].
  - destruct (iter_nth fields base k) as [it0|]; [|done]. simpl.
    destruct (IH it0 eq_refl) as [Hs Hd]. unfold pb_field_iter_next.
    destruct (iter_field it0); [|done]. simpl.
    destruct (tag p =? 0); [done|]. destruct (start it0 !! S (pos it0)); [|done]. simpl.
    destruct (tag p0 =? 0).
    { destruct (pb_field_iter_begin _ _) as [[? ?]|]; [done|done]. }
    destruct (_ && _); by intros [= <-].
Qed.

Lemma begin_nth :
  ∃ it, pb_field_iter_begin fields base = Some (bool_decide (0 < n)%nat, it) ∧
        iter_nth fields base 0 = Some it ∧ pos it = 0%nat.
Proof.
  unfold iter_nth, pb_field_iter_begin. destruct Hterm as [Hf (g & Hg & Hg0)].
  destruct n as [|n'].
  - rewrite Hg. simpl. eexists. split_and!; [|done|done].
    by rewrite !bool_decide_eq_false_2 by (lia || auto).
  - destruct (Hf 0%nat) as (f & -> & Hft); [lia|]. simpl. eexists. split_and!; [|done|done].
    by rewrite !bool_decide_eq_true_2 by (lia || auto).
Qed.

Lemma nth_spec k :
  (k < n)%nat →
  ∃ it, iter_nth fields base k = Some it ∧ pos it = k.
Proof.
  induction k as [|k IH]; intros Hk.
  { destruct begin_nth as (it & _ & ? & ?). eauto. }
  destruct IH as (it & Hit & Hp); [lia|]. simpl. rewrite Hit. simpl.
  destruct (iter_nth_start _ _ Hit) as [Hs Hd].
  unfold pb_field_iter_next, iter_field. rewrite Hs, Hp.
  destruct (term_field _ _ Hterm k) as (f & -> & Hf); [lia|].
  destruct (term_field _ _ Hterm (S k)) as (g & -> & Hg); [lia|]. simpl.
  rewrite !(proj2 (Z.eqb_neq _ 0)) by done. destruct (_ && _); simpl; eauto.
Qed.

Lemma nth_field k it :
  (k < n)%nat → iter_nth fields base k = Some it →
  ∃ f, fields !! k = Some f ∧ tag f ≠ 0 ∧ iter_field it = Some f.
Proof.
  intros Hk Hit. destruct (nth_spec k Hk) as (it' & Hit' & Hp).
  assert (it' = it) as -> by congruence.
  destruct (term_field _ _ Hterm k Hk) as (f & Hf & Ht). exists f.
  unfold iter_field. rewrite Hp. by destruct (iter_nth_start _ _ Hit) as [-> _].
Qed.

(** One step: to the next position, or back to the first. *)
Lemma next_nth k it :
  (k < n)%nat → iter_nth fields base k = Some it →
  let k' := if bool_decide (S k = n) then 0%nat else S k in
  ∃ it', pb_field_iter_next it = Some (bool_decide (S k < n)%nat, it') ∧
         iter_nth fields base k' = Some it' ∧ pos it' = k'.
Proof.
  intros Hk Hit. case_bool_decide as E; cbv zeta.
  - destruct begin_nth as (it0 & Hb & Hit0 & Hp0). exists it0.
    split_and!; [|done|done]. rewrite bool_decide_eq_false_2 by lia.
    destruct (nth_field k it Hk Hit) as (f & _ & Hf & Hfi).
    destruct (iter_nth_start _ _ Hit) as [Hs Hd].
    destruct (nth_spec k Hk) as (it' & Hit' & Hp).
    assert (it' = it) as -> by congruence.
    unfold pb_field_iter_next. rewrite Hfi. simpl.
    rewrite (proj2 (Z.eqb_neq _ 0)) by done.
    destruct (term_last _ _ Hterm) as (g & Hg & Hg0). rewrite Hs, Hp, E, Hg. simpl.
    rewrite Hg0. simpl. by rewrite Hd, Hb.
  - destruct (nth_spec (S k)) as (it' & Hit' & Hp'); [lia|].
    exists it'. split_and!; [|done|done]. cbn [iter_nth] in Hit'. rewrite Hit in Hit'.
    rewrite bool_decide_eq_true_2 by lia. simpl in Hit'.
    destruct (pb_field_iter_next it) as [[[] it2]|]; [|done|done].
    simpl in Hit'. by simplify_eq.
Qed.

(** ** Searching *)

(** Does the field at position [j] match? *)
Definition matches (found : pb_field_t → bool) (j : nat) : Prop :=
  ∃ f, fields !! j = Some f ∧ found f = true.

(** [j] is the position [d] steps after [k], around the array. *)
Definition steps_after (k d j : nat) : Prop := (j = (k + d) `mod` n)%nat.

Lemma search_from found k d fuel j it :
  (k < n)%nat → (d < n)%nat → steps_after k d j → (n - d ≤ fuel)%nat →
  iter_nth fields base j = Some it →
  (∀ d' j', (d' < d)%nat → steps_after k d' j' → ¬ matches found j') →
  (∃ e j' it', (d ≤ e < n)%nat ∧ steps_after k e j' ∧ matches found j' ∧
     iter_nth fields base j' = Some it' ∧ iter_search found k fuel it = Done (true, it')) ∨
  ((∀ j', (j' < n)%nat → ¬ matches found j') ∧
   ∃ it', iter_nth fields base k = Some it' ∧
     iter_search found k fuel it = Done (false, it')).
Proof.
  revert d j it. induction fuel as [|fuel IH]; intros d j it Hk Hd Hj Hf Hit Hno; [lia|].
  assert (j < n)%nat as Hjn by (rewrite Hj; apply Nat.mod_upper_bound; lia).
  destruct (nth_field j it Hjn Hit) as (f & Hfj & Hft & Hfi).
  cbn [iter_search]. rewrite Hfi.
  destruct (found f) eqn:Efound.
  { left. exists d, j, it. split_and!; [lia|lia|done|by exists f|done|done]. }
  destruct (next_nth j it Hjn Hit) as (it' & Hnx & Hit' & Hp'). rewrite Hnx.
  set (j' := if bool_decide (S j = n) then 0%nat else S j) in *.
  assert (steps_after k (S d) j') as Hj'.
  { unfold steps_after, j' in *. replace (k + S d)%nat with (S (k + d)) by lia.
    destruct (decide (k + d < n)%nat).
    - rewrite Nat.mod_small in Hj by lia. subst j. clear Hit' Hp' Hnx.
      destruct (decide (S (k + d) = n)) as [E|E].
      + rewrite bool_decide_eq_true_2, E by done. symmetry. apply Nat.Div0.mod_same.
      + rewrite bool_decide_eq_false_2, Nat.mod_small by lia. done.
    - replace (k + d)%nat with (k + d - n + 1 * n)%nat in Hj by lia.
      rewrite Nat.Div0.mod_add, Nat.mod_small in Hj by lia.
      rewrite bool_decide_eq_false_2 by lia.
      replace (S (k + d)) with (S (k + d - n) + 1 * n)%nat by lia.
      rewrite Nat.Div0.mod_add, Nat.mod_small; lia. }
  assert (∀ d' j', (d' < S d)%nat → steps_after k d' j' → ¬ matches found j') as Hno'.
  { intros d' j0 Hd' Hj0. destruct (decide (d' = d)) as [->|].
    - unfold steps_after in *. rewrite Hj0, <-Hj. intros (g & Hg & ?). congruence.
    - eapply Hno; [|done]. lia. }
  destruct (decide (S d = n)) as [Hlast|Hlast].
  - right. assert (j' = k) as Ek.
    { unfold steps_after in Hj'. rewrite Hj', Hlast.
      replace (k + n)%nat with (k + 1 * n)%nat by lia.
      rewrite Nat.Div0.mod_add, Nat.mod_small; lia. }
    rewrite Hp', Ek, bool_decide_eq_true_2 by done. split; [|exists it'; by rewrite <-Ek].
    intros j0 Hj0. apply (Hno' ((j0 + n - k) `mod` n)%nat).
    + rewrite Hlast. apply Nat.mod_upper_bound. lia.
    + unfold steps_after. rewrite Nat.Div0.add_mod_idemp_r.
      replace (k + (j0 + n - k))%nat with (j0 + 1 * n)%nat by lia.
      rewrite Nat.Div0.mod_add, Nat.mod_small; lia.
  - rewrite Hp', bool_decide_eq_false_2.
    + destruct (IH (S d) j' it') as [(e & j0 & it0 & He & Hrest)|Hr]; [done|lia|done|lia|done|done| |by right].
      left. exists e, j0, it0. split; [lia|done].
    + intros Ek. unfold steps_after in Hj'. rewrite Ek in Hj'.
      destruct (decide (k + S d < n)%nat).
      * rewrite Nat.mod_small in Hj'; lia.
      * replace (k + S d)%nat with (k + S d - n + 1 * n)%nat in Hj' by lia.
        rewrite Nat.Div0.mod_add, Nat.mod_small in Hj'; lia.
Qed.

(** A search ends: at a field that matches, or where it began if there is none. *)
Lemma search_nth found k it :
  (k < n)%nat → iter_nth fields base k = Some it →
  (∃ j it', (j < n)%nat ∧ matches found j ∧ iter_nth fields base j = Some it' ∧
     iter_search found (pos it) (length (start it)) it = Done (true, it')) ∨
  ((∀ j, (j < n)%nat → ¬ matches found j) ∧
   iter_search found (pos it) (length (start it)) it = Done (false, it)).
Proof.
  intros Hk Hit. destruct (nth_spec k Hk) as (it0 & Hit0 & Hp).
  assert (it0 = it) as -> by congruence. subst k.
  destruct (iter_nth_start _ _ Hit) as [-> _].
  pose proof (terminated_length _ _ Hterm).
  destruct (search_from found (pos it) 0 (length fields) (pos it) it)
    as [(e & j & it' & He & Hj & Hm & Hit' & Hs)|(Hno & it' & Hit' & Hs)];
    [done|lia| |lia|done|lia| |].
  - unfold steps_after. rewrite Nat.add_0_r, Nat.mod_small; lia.
  - left. exists j, it'. split_and!; [|done|done|done].
    rewrite Hj. apply Nat.mod_upper_bound. lia.
  - right. split; [done|]. by simplify_eq.
Qed.
End iter.

(** ** Loops over the fields *)

Section loops.
Context {St : Type} (g : pb_field_iter_t → M St bool).
Context (fields : list pb_field_t) (base : Z) (n : nat).
Context (Hterm : terminated fields n).

(** [do { if (!g(iter)) return false; } while (pb_field_iter_next(iter));] *)
Definition field_step (it : pb_field_iter_t) : M St (pb_field_iter_t + bool) :=
  ok ← g it;
  if negb ok then mret (inr false)
  else
    '(more, it') ← lift_option (pb_field_iter_next it);
    mret (if (more : bool) then inl it' else inr true).

(** [g] at the positions [k], ..., [k + c - 1], while it succeeds. *)
Fixpoint each_field (k c : nat) : M St bool :=
  match c with
  | O => mret true
  | S c' =>
      match iter_nth fields base k with
      | Some it => check! g it; each_field (S k) c'
      | None => undef
      end
  end.

Lemma loop_fields c k it fuel s :
  (k + S c = n)%nat → iter_nth fields base k = Some it → Z.of_nat c + 1 < fuel →
  loop fuel field_step it s = each_field k (S c) s.
Proof.
  revert k it fuel s. induction c as [|c IH]; intros k it fuel s Hk Hit Hf;
    (rewrite loop_unfold by lia); cbn [each_field]; rewrite Hit;
    unfold field_step at 2; rewrite bind_assoc; (apply bind_ext; [done|]);
    intros [] s'; simpl; try done;
    destruct (next_nth fields base n Hterm k it) as (it' & Hnx & Hit' & _);
    try done; try lia; rewrite Hnx; run_unfold; simpl.
  - by rewrite bool_decide_eq_false_2 by lia.
  - rewrite bool_decide_eq_true_2 by lia. rewrite bool_decide_eq_false_2 in Hit' by lia.
    apply (IH (S k) it' (fuel - 1) s'); [lia|done|lia].
Qed.

(** The loop over a whole message is a [for] loop over its positions. *)
Lemma loop_all_fields it s :
  (0 < n)%nat → iter_nth fields base 0 = Some it →
  loop (Z.of_nat (length fields)) field_step it s = each_field 0 n s.
Proof.
  intros Hn Hit. pose proof (terminated_length _ _ Hterm).
  rewrite (loop_fields (n - 1) 0 it) by (done || lia). by replace (S (n - 1)) with n by lia.
Qed.
End loops.

(** The number of descriptors before the terminator. *)
Definition field_count (fields : list pb_field_t) : option nat :=
  fst <$> list_find (λ f, tag f = 0) fields.

Lemma field_count_terminated fields n : field_count fields = Some n → terminated fields n.
Proof.
  unfold field_count. intros ([k f] & (Hf & Ht & Hno)%list_find_Some & ->)%fmap_Some.
  split; [|by exists f]. simpl. intros j Hj.
  destruct (lookup_lt_is_Some_2 fields j) as [g Hg].
  { apply lookup_lt_Some in Hf. lia. }
  exists g. split; [done|by eapply Hno].
Qed.

Lemma terminated_count fields n : terminated fields n → field_count fields = Some n.
Proof.
  intros [Hf (g & Hg & Hg0)]. unfold field_count.
  apply fmap_Some. exists (n, g). split; [|done]. apply list_find_Some. split_and!; [done|done|].
  intros j f Hj Hlt. destruct (Hf j Hlt) as (f' & Hf' & ?). congruence.
Qed.

(** The way a C function walks through the fields of a message. *)
Lemma message_loop {St} (g : pb_field_iter_t → M St bool) fields base n s :
  field_count fields = Some n →
  ('(nonempty, it) ← lift_option (pb_field_iter_begin fields base);
   if (nonempty : bool) then loop (Z.of_nat (length fields)) (field_step g) it else mret true) s
  = each_field g fields base 0 n s.
Proof.
  intros Hterm%field_count_terminated.
  destruct (begin_nth fields base n Hterm) as (it & Hb & Hit & _).
  rewrite Hb. cbn. case_bool_decide as Hn.
  - by apply loop_all_fields.
  - by replace n with 0%nat by lia.
Qed.

(** ** The offsets of the generated arrays *)

(** What a line [PB_FIELD(...)] of a generated array says; its placement and its
    previous member follow from the line before it. *)
Record slot := Slot {
  sl_tag : Z;
  sl_type : proto_type;
  sl_rules : field_rules;
  sl_alloc : field_allocation;
  sl_companion : member;
  sl_member : member;
  sl_ptr : field_ptr;
}.

Fixpoint build_from (prev : option member) (l : list slot) : list pb_field_t :=
  match l with
  | [] => [PB_LAST_FIELD]
  | s :: l' =>
      PB_FIELD (sl_tag s) (sl_type s) (sl_rules s) (sl_alloc s)
        (match prev with None => FIRST | Some _ => OTHER end)
        (sl_companion s) (sl_member s) (default (sl_member s) prev) (sl_ptr s)
      :: build_from (Some (sl_member s)) l'
  end.
Definition build := build_from None.

(** Where the has or count member is; a field without one points at itself. *)
Definition sl_size_offset (s : slot) : Z :=
  match sl_rules s, sl_alloc s with
  | OPTIONAL, STATIC | REPEATED, STATIC | REPEATED, POINTER => m_offset (sl_companion s)
  | _, _ => m_offset (sl_member s)
  end.

(** The members are those of a C struct below 2 GB: a repeated member is an array
    of its elements, a pointer has the size of one, and each member is after the
    one before. (The descriptor of an extension is an array of its own.) *)
Definition slot_ok (s : slot) : Prop :=
  0 < u32 (sl_tag s) ∧ 0 ≤ m_offset (sl_member s) < 2 ^ 31 ∧
  0 ≤ m_offset (sl_companion s) < 2 ^ 31 ∧
  0 ≤ m_size (sl_member s) < 2 ^ 31 ∧ 0 < m_elt (sl_member s) < 2 ^ 31 ∧
  match sl_rules s, sl_alloc s with
  | OPTEXT, STATIC => False
  | REPEATED, STATIC => m_size (sl_member s) `mod` m_elt (sl_member s) = 0
  | _, POINTER => m_size (sl_member s) = sizeof_ptr
  | _, _ => True
  end.
Fixpoint in_order (prev : option member) (l : list slot) : Prop :=
  match l with
  | [] => True
  | s :: l' =>
      match prev with
      | Some m => m_offset m + m_size m ≤ m_offset (sl_member s)
      | None => True
      end ∧ in_order (Some (sl_member s)) l'
  end.

(** The three parts of the type that [PB_FIELD] builds. *)
Lemma PB_FIELD_type tg t r a pl c m prev p :
  type (PB_FIELD tg t r a pl c m prev p) =
    match a with STATIC => PB_ATYPE_STATIC | POINTER => PB_ATYPE_POINTER
               | CALLBACK => PB_ATYPE_CALLBACK end +
    match r, a with
    | REQUIRED, _ | OPTEXT, STATIC => PB_HTYPE_REQUIRED
    | REPEATED, _ => PB_HTYPE_REPEATED
    | _, _ => PB_HTYPE_OPTIONAL
    end + PB_LTYPE_MAP t.
Proof. destruct t, r, a; reflexivity. Qed.

Lemma PB_FIELD_tag tg t r a pl c m prev p : tag (PB_FIELD tg t r a pl c m prev p) = u32 tg.
Proof. by destruct r, a. Qed.

Lemma PB_FIELD_data_offset s pl prev :
  slot_ok s →
  data_offset (PB_FIELD (sl_tag s) (sl_type s) (sl_rules s) (sl_alloc s) pl
    (sl_companion s) (sl_member s) prev (sl_ptr s)) =
  u32 (PB_DATAOFFSET pl (sl_member s) prev).
Proof.
  destruct s as [tg t r a c m p]. unfold slot_ok. simpl.
  intros (_ & _ & _ & _ & _ & Hm). by destruct r, a.
Qed.

Lemma PB_FIELD_size_offset s pl prev :
  slot_ok s →
  m_offset (sl_member s) +
  size_offset (PB_FIELD (sl_tag s) (sl_type s) (sl_rules s) (sl_alloc s) pl
    (sl_companion s) (sl_member s) prev (sl_ptr s)) = sl_size_offset s.
Proof.
  destruct s as [tg t r a c m p]. unfold slot_ok, sl_size_offset. simpl.
  intros (_ & Ho & Hc & Hs & He & Hm).
  destruct r, a; try done; simpl; unfold pb_delta; rewrite ?wraps_small by (simpl; lia); lia.
Qed.

(** The size the iterator skips is the one of the member. *)
Lemma PB_FIELD_prev_size s pl prev :
  slot_ok s →
  iter_prev_size (PB_FIELD (sl_tag s) (sl_type s) (sl_rules s) (sl_alloc s) pl
    (sl_companion s) (sl_member s) prev (sl_ptr s)) = m_size (sl_member s).
Proof.
  destruct s as [tg t r a c m p]. unfold slot_ok, iter_prev_size. simpl.
  intros (_ & Ho & Hc & Hs & He & Hm). pow2.
  assert (u32 (m_size m) = m_size m) as Es by (apply wrapu_small; lia).
  destruct r, a; try done; destruct t; simpl; rewrite ?Es; try done.
  all: unfold pb_arraysize; assert (m_size m / m_elt m * m_elt m = m_size m) as Eq
    by (rewrite Z.mul_comm; pose proof (Z.div_mod (m_size m) (m_elt m)); lia).
  all: assert (0 ≤ m_size m / m_elt m ≤ m_size m) by (split; [apply Z.div_pos; lia|nia]).
  all: rewrite !wrapu_small by (rewrite ?wrapu_small by lia; pow2; nia); lia.
Qed.

Definition slot_field (prev : option member) (s : slot) : pb_field_t :=
  PB_FIELD (sl_tag s) (sl_type s) (sl_rules s) (sl_alloc s)
    (match prev with None => FIRST | Some _ => OTHER end)
    (sl_companion s) (sl_member s) (default (sl_member s) prev) (sl_ptr s).

Definition slot_prev (prev : option member) (l : list slot) (k : nat) : option member :=
  match k with O => prev | S k' => sl_member <$> l !! k' end.

Lemma build_lookup prev l k s :
  l !! k = Some s → build_from prev l !! k = Some (slot_field (slot_prev prev l k) s).
Proof.
  revert prev l. induction k as [|k IH]; intros prev [|s0 l] Hk; try done; simpl in Hk.
  - by injection Hk as ->.
  - cbn [build_from lookup list_lookup]. rewrite (IH _ l Hk). by destruct k.
Qed.

Lemma build_last prev l : build_from prev l !! length l = Some PB_LAST_FIELD.
Proof. revert prev. induction l as [|s l IH]; intros prev; simpl; [done|apply IH]. Qed.

Lemma in_order_lookup prev l k s m :
  in_order prev l → l !! k = Some s → slot_prev prev l k = Some m →
  m_offset m + m_size m ≤ m_offset (sl_member s).
Proof.
  revert prev l. induction k as [|k IH]; intros prev [|s0 l] Ho Hk Hm; try done; simpl in *.
  - simplify_eq. by destruct Ho.
  - destruct Ho as [_ Ho]. eapply (IH _ l Ho Hk). by destruct k.
Qed.

Lemma slot_field_not_oneof prev s :
  (PB_HTYPE (type (slot_field prev s)) =? PB_HTYPE_ONEOF) = false.
Proof.
  unfold slot_field. rewrite PB_FIELD_type.
  destruct (sl_type s), (sl_rules s), (sl_alloc s); reflexivity.
Qed.

Section layout.
Context (l : list slot) (base : Z).
Context (Hok : Forall slot_ok l) (Horder : in_order None l).

Lemma build_terminated : terminated (build l) (length l).
Proof.
  split.
  - intros k Hk. destruct (lookup_lt_is_Some_2 l k Hk) as [s Hs].
    exists (slot_field (slot_prev None l k) s). split; [by apply build_lookup|].
    unfold slot_field. rewrite PB_FIELD_tag.
    rewrite Forall_lookup in Hok. destruct (Hok _ _ Hs). lia.
  - exists PB_LAST_FIELD. split; [apply build_last|done].
Qed.

Lemma layout_nth k s :
  l !! k = Some s →
  ∃ it, iter_nth (build l) base k = Some it ∧
        pData it = base + m_offset (sl_member s) ∧
        pSize it = PMem (base + sl_size_offset s).
Proof.
  revert s. induction k as [|k IH]; intros s Hs;
    pose proof (build_lookup None l _ _ Hs) as Hf; fold build in Hf;
    pose proof Hok as Hok'; rewrite Forall_lookup in Hok'; pose proof (Hok' _ _ Hs) as Hoks.
  - unfold iter_nth, pb_field_iter_begin. fold build. rewrite Hf. simpl.
    eexists. split; [done|]. simpl. unfold slot_field. simpl.
    pose proof (PB_FIELD_size_offset s FIRST (sl_member s) Hoks) as Esz.
    rewrite PB_FIELD_data_offset by done. simpl.
    destruct Hoks as (_ & Ho & _). unfold PB_DATAOFFSET_FIRST.
    rewrite wrapu_small by (pow2; lia). split; [done|]. f_equal. lia.
  - assert (S k < length l)%nat as Hlt by (by eapply lookup_lt_Some).
    destruct (lookup_lt_is_Some_2 l k) as [s0 Hs0]; [lia|].
    destruct (IH s0 Hs0) as (it & Hit & Hd & _).
    destruct (nth_spec _ base _ build_terminated k) as (it0 & Hit0 & Hp); [lia|].
    assert (it0 = it) as -> by congruence. clear Hit0.
    cbn [iter_nth]. rewrite Hit. simpl.
    destruct (iter_nth_start _ _ _ _ Hit) as [Hst Hds].
    pose proof (build_lookup None l _ _ Hs0) as Hf0. fold build in Hf0.
    pose proof (Hok' _ _ Hs0) as Hoks0.
    unfold pb_field_iter_next, iter_field. rewrite Hst, Hp, Hf0, Hf. simpl.
    rewrite slot_field_not_oneof. simpl. unfold slot_field at 1 2. rewrite !PB_FIELD_tag.
    pose proof Hoks0 as (Ht0 & Ho0 & _ & Hz0 & _).
    pose proof Hoks as (Ht & Ho & _).
    rewrite !(proj2 (Z.eqb_neq _ 0)) by lia. simpl. eexists. split; [done|]. simpl.
    unfold slot_field. cbn [slot_prev]. rewrite Hs0. simpl.
    rewrite PB_FIELD_prev_size by done. rewrite PB_FIELD_data_offset by done. simpl.
    pose proof (in_order_lookup None l (S k) s (sl_member s0) Horder Hs) as Hord.
    rewrite <-(PB_FIELD_size_offset s OTHER (sl_member s0) Hoks).
    unfold PB_DATAOFFSET_OTHER, pb_membersize. simpl in Hord. rewrite Hs0 in Hord.
    specialize (Hord eq_refl). rewrite (wrapu_small 64) by (pow2; lia).
    rewrite wrapu_small by (pow2; lia). rewrite Hd. split; [lia|]. f_equal. lia.
Qed.
End layout.

(** ** Theorems *)

(** [pb_field_iter_find], from any position of an array with at least one
    field, ends: it gives an iterator at a field with the tag (and which is not
    an extension range) if the array has one, and otherwise false, with the
    iterator back where it was. *)
Theorem pb_field_iter_find_spec fields base n k it t :
  terminated fields n → (k < n)%nat → iter_nth fields base k = Some it →
  let has j := ∃ f, fields !! j = Some f ∧ tag f = t ∧ PB_LTYPE (type f) ≠ PB_LTYPE_EXTENSION in
  (∃ j it', (j < n)%nat ∧ has j ∧ iter_nth fields base j = Some it' ∧
     pb_field_iter_find it t = Done (true, it')) ∨
  ((∀ j, (j < n)%nat → ¬ has j) ∧ pb_field_iter_find it t = Done (false, it)).
Proof.
  intros Hterm Hk Hit has.
  set (found f := (tag f =? t) && negb (PB_LTYPE (type f) =? PB_LTYPE_EXTENSION)).
  assert (∀ j, matches fields found j ↔ has j) as Hm.
  { intros j. unfold found. unfold matches, has. apply exist_proper. intros f.
    by rewrite andb_true_iff, negb_true_iff, Z.eqb_eq, Z.eqb_neq. }
  destruct (search_nth fields base n Hterm found k it Hk Hit)
    as [(j & it' & Hj & Hmj & Hit' & Hs)|[Hno Hs]].
  - left. exists j, it'. split_and!; [done|by apply Hm|done|done].
  - right. split; [|done]. intros j Hj. rewrite <-Hm. by apply Hno.
Qed.

(** Over an array built by [PB_FIELD] from the members of a struct in their
    order, the iterator visits each descriptor once and points at its member and
    at its has or count member; then it wraps around and says so. *)
Theorem pb_field_iter_layout l base k s :
  Forall slot_ok l → in_order None l → l !! k = Some s →
  ∃ it it', iter_nth (build l) base k = Some it ∧
    iter_field it = build l !! k ∧
    pData it = base + m_offset (sl_member s) ∧
    pSize it = PMem (base + sl_size_offset s) ∧
    pb_field_iter_next it = Some (bool_decide (S k < length l)%nat, it') ∧
    iter_nth (build l) base (if bool_decide (S k = length l) then 0 else S k) = Some it'.
Proof.
  intros Hok Hord Hs. pose proof (build_terminated l Hok) as Hterm.
  assert (k < length l)%nat as Hk by (by eapply lookup_lt_Some).
  destruct (layout_nth l base Hok Hord k s Hs) as (it & Hit & Hd & Hz).
  destruct (next_nth _ _ _ Hterm k it Hk Hit) as (it' & Hn & Hit' & _).
  destruct (nth_field _ _ _ Hterm k it Hk Hit) as (f & Hf & _ & Hfi).
  exists it, it'. split_and!; [done|by rewrite Hfi|done|done|done|done].
Qed.
