(* ===== verification/PbOutput.v ===== *)
(** * nanopb: output streams and the helper encoders of pb_encode.c *)
From S2P Require Import Prelude CMem PbTypes.

(** ** Streams *)

(** [callback] of [pb_ostream_s]: NULL for a sizing stream, [buf_write], or a
    function of the application, by its address. *)
Inductive ocallback : Type :=
  | OcbNull
  | OcbBufWrite
  | OcbUser (fn : Z).
#[export] Instance ocallback_eq_dec : EqDecision ocallback.
Proof. solve_decision. Defined.

(** [pb_ostream_s] *)
Record pb_ostream_t := PbOStream {
  callback : ocallback;
  state : Z;
  max_size : Z;
  bytes_written : Z;
  errmsg : option string;
}.

(** What an encoder can reach: the memory and its stream. *)
Record estate := EState { e_mem : mem; e_out : pb_ostream_t }.
Abbreviation enc := (M estate).

(** The [const pb_byte_t *buf] handed to [pb_write]: NULL, an address, or a
    local array. *)
Inductive wbuf : Type :=
  | BNull
  | BMem (a : Z)
  | BLocal (l : list Z).

Definition wbuf_get (m : mem) (buf : wbuf) (i : nat) : option Z :=
  match buf with
  | BNull => None
  | BMem a => load_byte m (a + Z.of_nat i)
  | BLocal l => l !! i
  end.

(** The functions the application supplies: custom stream callbacks, field
    encoders ([pb_callback_t]) and extension encoders, by address. *)
Class EncHost := {
  enc_ro : rodata;
  user_write : Z → wbuf → Z → enc bool;
  user_encode : Z → pb_field_t → Z → enc bool;
  user_ext_encode : Z → Z → enc bool;
}.

(** ** State access *)
Definition get_out : enc pb_ostream_t := s ← get_state; mret (e_out s).
Definition get_emem : enc mem := s ← get_state; mret (e_mem s).
Definition set_out (o : pb_ostream_t) : enc unit :=
  s ← get_state; put_state (EState (e_mem s) o).
Definition set_emem (m : mem) : enc unit :=
  s ← get_state; put_state (EState m (e_out s)).
Definition eload (a : Z) (n : nat) : enc Z :=
  m ← get_emem; lift_option (load m a n).

Definition o_with_errmsg (o : pb_ostream_t) (e : option string) : pb_ostream_t :=
  PbOStream (callback o) (state o) (max_size o) (bytes_written o) e.
Definition o_with_written (o : pb_ostream_t) (n : Z) : pb_ostream_t :=
  PbOStream (callback o) (state o) (max_size o) n (errmsg o).
Definition o_with_state (o : pb_ostream_t) (st : Z) : pb_ostream_t :=
  PbOStream (callback o) st (max_size o) (bytes_written o) (errmsg o).

(** [PB_RETURN_ERROR] *)
Definition o_return_error (msg : string) : enc bool :=
  o ← get_out;
  set_out (o_with_errmsg o (set_error (errmsg o) msg));;
  mret false.

(** Run a function on another stream: gives what it returned and the stream as
    it left it. *)
Definition on_ostream {A} (sub : pb_ostream_t) (c : enc A) : enc (A * pb_ostream_t) :=
  o ← get_out;
  set_out sub;;
  a ← c;
  sub' ← get_out;
  set_out o;;
  mret (a, sub').

Definition PB_OSTREAM_SIZING : pb_ostream_t := PbOStream OcbNull NULL 0 0 None.

Definition pb_ostream_from_buffer (buf bufsize : Z) : pb_ostream_t :=
  PbOStream OcbBufWrite buf bufsize 0 None.

Section output.
Context `{H : EncHost}.

(** [for (i = 0; i < count; i++) dest[i] = buf[i];] *)
Fixpoint copy_out (m : mem) (dest : Z) (buf : wbuf) (i n : nat) : option mem :=
  match n with
  | O => Some m
  | S n' =>
      b ← wbuf_get m buf i;
      m' ← store_byte m (dest + Z.of_nat i) b;
      copy_out m' dest buf (S i) n'
  end.

Definition buf_write (buf : wbuf) (count : Z) : enc bool :=
  o ← get_out;
  let dest := state o in
  set_out (o_with_state o (dest + count));;
  m ← get_emem;
  m' ← lift_option (copy_out m dest buf 0 (Z.to_nat count));
  set_emem m';;
  mret true.

Definition call_ocallback (cb : ocallback) (buf : wbuf) (count : Z) : enc bool :=
  match cb with
  | OcbNull => undef
  | OcbBufWrite => buf_write buf count
  | OcbUser fn => user_write fn buf count
  end.

(** The tail of [pb_write]: [stream->bytes_written += count; return true;] *)
Definition account_written (count : Z) : enc bool :=
  o ← get_out;
  set_out (o_with_written o (u64 (bytes_written o + count)));;
  mret true.

Definition pb_write (buf : wbuf) (count : Z) : enc bool :=
  o ← get_out;
  if bool_decide (callback o ≠ OcbNull) then
    if max_size o <? u64 (bytes_written o + count) then
      o_return_error "stream full"
    else
      ok ← call_ocallback (callback o) buf count;
      if negb ok then o_return_error "io error"
      else account_written count
  else account_written count.

(** ** Helper functions *)

(** The loop of [pb_encode_varint] (lines 585-590): the bytes of [value], each
    with its top bit set. A [uint64_t] takes at most ten. *)
Fixpoint varint_groups (fuel : nat) (value : Z) : list Z :=
  match fuel with
  | O => []
  | S n =>
      if value =? 0 then []
      else Z.lor (Z.land value 0x7F) 0x80 :: varint_groups n (Z.shiftr value 7)
  end.

(** [buffer[i-1] &= 0x7F] *)
Definition clear_last (l : list Z) : list Z :=
  match reverse l with
  | [] => []
  | b :: l' => reverse (Z.land b 0x7F :: l')
  end.

Definition pb_encode_varint (value : Z) : enc bool :=
  if value <=? 0x7F then pb_write (BLocal [u8 value]) 1
  else
    let buffer := clear_last (varint_groups 10 value) in
    pb_write (BLocal buffer) (Z.of_nat (length buffer)).

(** [~((uint64_t)value << 1)] and [(uint64_t)value << 1] *)
Definition zigzag (value : Z) : Z :=
  if value <? 0 then u64 (Z.lnot (u64 (Z.shiftl (u64 value) 1)))
  else u64 (Z.shiftl (u64 value) 1).

Definition pb_encode_svarint (value : Z) : enc bool :=
  pb_encode_varint (zigzag value).

Definition fixed32_bytes (val : Z) : list Z :=
  [u8 (Z.land val 0xFF);
   u8 (Z.land (Z.shiftr val 8) 0xFF);
   u8 (Z.land (Z.shiftr val 16) 0xFF);
   u8 (Z.land (Z.shiftr val 24) 0xFF)].

Definition pb_encode_fixed32 (value : Z) : enc bool :=
  val ← eload value 4;
  pb_write (BLocal (fixed32_bytes val)) 4.

Definition fixed64_bytes (val : Z) : list Z :=
  [u8 (Z.land val 0xFF);
   u8 (Z.land (Z.shiftr val 8) 0xFF);
   u8 (Z.land (Z.shiftr val 16) 0xFF);
   u8 (Z.land (Z.shiftr val 24) 0xFF);
   u8 (Z.land (Z.shiftr val 32) 0xFF);
   u8 (Z.land (Z.shiftr val 40) 0xFF);
   u8 (Z.land (Z.shiftr val 48) 0xFF);
   u8 (Z.land (Z.shiftr val 56) 0xFF)].

Definition pb_encode_fixed64 (value : Z) : enc bool :=
  val ← eload value 8;
  pb_write (BLocal (fixed64_bytes val)) 8.

Definition pb_encode_tag (wiretype field_number : Z) : enc bool :=
  let tag := Z.lor (u64 (Z.shiftl field_number 3)) wiretype in
  pb_encode_varint tag.

(** The switch of lines 644-669. *)
Definition wiretype_of_ltype (ltype : Z) : option Z :=
  if (ltype =? PB_LTYPE_VARINT) || (ltype =? PB_LTYPE_UVARINT)
     || (ltype =? PB_LTYPE_SVARINT) then Some PB_WT_VARINT
  else if ltype =? PB_LTYPE_FIXED32 then Some PB_WT_32BIT
  else if ltype =? PB_LTYPE_FIXED64 then Some PB_WT_64BIT
  else if (ltype =? PB_LTYPE_BYTES) || (ltype =? PB_LTYPE_STRING)
     || (ltype =? PB_LTYPE_SUBMESSAGE) || (ltype =? PB_LTYPE_FIXED_LENGTH_BYTES)
  then Some PB_WT_STRING
  else None.

Definition pb_encode_tag_for_field (field : pb_field_t) : enc bool :=
  match wiretype_of_ltype (PB_LTYPE (type field)) with
  | Some wiretype => pb_encode_tag wiretype (tag field)
  | None => o_return_error "invalid field type"
  end.

Definition pb_encode_string (buffer : wbuf) (size : Z) : enc bool :=
  check! pb_encode_varint size;
  pb_write buffer size.
End output.
