(* ===== verification/PbEncode.v ===== *)
(** * nanopb: pb_encode.c, fields and messages

    The C functions call one another recursively ([pb_encode] down to
    [pb_enc_submessage] and back to [pb_encode]); each is a definition here,
    over the [pb_encode] it calls, and [pb_encode] ties the knot with a bound on
    the depth of the nesting. *)
From S2P Require Import Prelude CMem PbTypes PbIter PbOutput.

(** [pb_encoder_t], without its stream. *)
Abbreviation encoder := (pb_field_t → Z → enc bool).

Section encode.
Context `{H : EncHost}.

(** [PB_CHECK_PROTO3]: recursive on the submessages; [fuel] bounds the depth. *)
Fixpoint pb_check_proto3_default_value (fuel : nat) (field : pb_field_t)
    (pData : Z) : enc bool :=
  match fuel with
  | O => no_fuel
  | S fuel' =>
    let type := type field in
    let pSize := pData + size_offset field in
    if PB_HTYPE type =? PB_HTYPE_REQUIRED then mret false
    else if PB_HTYPE type =? PB_HTYPE_REPEATED then
      n ← eload pSize 4; mret (n =? 0)
    else if PB_HTYPE type =? PB_HTYPE_ONEOF then
      n ← eload pSize 4; mret (n =? 0)
    else if (PB_HTYPE type =? PB_HTYPE_OPTIONAL)
            && negb (size_offset field =? 0) then
      b ← eload pSize 1; mret (b =? 0)
    else
      let catch_all :=
        for_loop (Z.to_nat (data_size field)) 0
          (λ i, b ← eload (pData + i) 1; mret (b =? 0)) in
      if PB_ATYPE type =? PB_ATYPE_STATIC then
        if PB_LTYPE type =? PB_LTYPE_BYTES then
          n ← eload (pData + bytes_array_size) 4; mret (n =? 0)
        else if PB_LTYPE type =? PB_LTYPE_STRING then
          c ← eload pData 1; mret (c =? 0)
        else if PB_LTYPE type =? PB_LTYPE_FIXED_LENGTH_BYTES then
          mret (data_size field =? 0)
        else if PB_LTYPE type =? PB_LTYPE_SUBMESSAGE then
          fields ← lift_option (submsg_fields enc_ro (ptr field));
          '(nonempty, it) ← lift_option (pb_field_iter_begin fields pData);
          if (nonempty : bool) then
            loop (Z.of_nat (length fields)) (λ it,
              f ← lift_option (iter_field it);
              dflt ← pb_check_proto3_default_value fuel' f (PbIter.pData it);
              if negb dflt then mret (inr false)
              else
                '(more, it') ← lift_option (pb_field_iter_next it);
                mret (if (more : bool) then inl it' else inr true)) it
          else mret true
        else catch_all
      else catch_all
  end.

(** ** Field encoders *)

(** [value] of the integer encoders: read at the size of the field. *)
Definition load_sint (field : pb_field_t) (src : Z) : enc (option Z) :=
  if data_size field =? 1 then v ← eload src 1; mret (Some (s8 v))
  else if data_size field =? 2 then v ← eload src 2; mret (Some (s16 v))
  else if data_size field =? 4 then v ← eload src 4; mret (Some (s32 v))
  else if data_size field =? 8 then v ← eload src 8; mret (Some (s64 v))
  else mret None.

Definition pb_enc_varint (field : pb_field_t) (src : Z) : enc bool :=
  value ← load_sint field src;
  match value with
  | None => o_return_error "invalid data_size"
  | Some value => pb_encode_varint (u64 value)
  end.

Definition pb_enc_uvarint (field : pb_field_t) (src : Z) : enc bool :=
  if data_size field =? 1 then v ← eload src 1; pb_encode_varint v
  else if data_size field =? 2 then v ← eload src 2; pb_encode_varint v
  else if data_size field =? 4 then v ← eload src 4; pb_encode_varint v
  else if data_size field =? 8 then v ← eload src 8; pb_encode_varint v
  else o_return_error "invalid data_size".

Definition pb_enc_svarint (field : pb_field_t) (src : Z) : enc bool :=
  value ← load_sint field src;
  match value with
  | None => o_return_error "invalid data_size"
  | Some value => pb_encode_svarint value
  end.

Definition pb_enc_fixed64 (field : pb_field_t) (src : Z) : enc bool :=
  pb_encode_fixed64 src.

Definition pb_enc_fixed32 (field : pb_field_t) (src : Z) : enc bool :=
  pb_encode_fixed32 src.

Definition pb_enc_bytes (field : pb_field_t) (src : Z) : enc bool :=
  if src =? NULL then pb_encode_string BNull 0
  else
    size ← eload (src + bytes_array_size) 4;
    if (PB_ATYPE (type field) =? PB_ATYPE_STATIC) &&
       (data_size field <? PB_BYTES_ARRAY_T_ALLOCSIZE size)
    then o_return_error "bytes size exceeded"
    else pb_encode_string (BMem (src + bytes_array_bytes)) size.

(** The loop of lines 847-851; it reads a live byte at each step, so that the
    number of live bytes bounds it. *)
Fixpoint c_strnlen (m : mem) (fuel : nat) (p size max_size : Z) : option Z :=
  if size <? max_size then
    c ← load_byte m p;
    if c =? 0 then Some size
    else
      match fuel with
      | O => None
      | S fuel' => c_strnlen m fuel' (p + 1) (size + 1) max_size
      end
  else Some size.

Definition pb_enc_string (field : pb_field_t) (src : Z) : enc bool :=
  let max_size :=
    if PB_ATYPE (type field) =? PB_ATYPE_POINTER then 2 ^ 64 - 1
    else data_size field in
  if src =? NULL then pb_encode_string BNull 0
  else
    m ← get_emem;
    size ← lift_option (c_strnlen m (size (bytes m)) src 0 max_size);
    pb_encode_string (BMem src) size.

Definition pb_enc_fixed_length_bytes (field : pb_field_t) (src : Z) : enc bool :=
  pb_encode_string (BMem src) (data_size field).

Section recursive.
(** The recursive call of [pb_encode], and the bound for the walks through
    nested submessages and chains of extensions. *)
Variable pb_encode_rec : list pb_field_t → Z → enc bool.
Variable depth : nat.

Definition pb_encode_submessage (fields : list pb_field_t) (src_struct : Z)
    : enc bool :=
  '(ok, substream) ← on_ostream PB_OSTREAM_SIZING (pb_encode_rec fields src_struct);
  if negb ok then
    o ← get_out;
    set_out (o_with_errmsg o (errmsg substream));;
    mret false
  else
    let size := bytes_written substream in
    check! pb_encode_varint size;
    stream ← get_out;
    if bool_decide (callback stream = OcbNull) then pb_write BNull size
    else if max_size stream <? u64 (bytes_written stream + size) then
      o_return_error "stream full"
    else
      '(status, substream) ←
        on_ostream (PbOStream (callback stream) (state stream) size 0 None)
          (pb_encode_rec fields src_struct);
      set_out (PbOStream (callback stream) (state substream) (max_size stream)
                 (u64 (bytes_written stream + bytes_written substream))
                 (errmsg substream));;
      if negb (bytes_written substream =? size) then
        o_return_error "submsg size changed"
      else mret status.

Definition pb_enc_submessage (field : pb_field_t) (src : Z) : enc bool :=
  match ptr field with
  | PtrNull => o_return_error "invalid field descriptor"
  | p => fields ← lift_option (submsg_fields enc_ro p);
         pb_encode_submessage fields src
  end.

Definition PB_ENCODERS : list (option encoder) := [
  Some pb_enc_varint;
  Some pb_enc_uvarint;
  Some pb_enc_svarint;
  Some pb_enc_fixed32;
  Some pb_enc_fixed64;
  Some pb_enc_bytes;
  Some pb_enc_string;
  Some pb_enc_submessage;
  None;
  Some pb_enc_fixed_length_bytes
].

(** [func(stream, field, p)]: a call through NULL is undefined. *)
Definition call_encoder (func : option encoder) : encoder :=
  λ field p, match func with Some f => f field p | None => undef end.

(** ** Encode a single field *)

(** The two element loops of [encode_array]. *)
Definition encode_elements (field : pb_field_t) (pData count : Z)
    (func : pb_field_t → Z → enc bool) : enc bool :=
  for_loop (Z.to_nat count) 0 (λ i, func field (pData + i * data_size field)).

Definition encode_array (field : pb_field_t) (pData count : Z)
    (func : encoder) : enc bool :=
  if count =? 0 then mret true
  else if negb (PB_ATYPE (type field) =? PB_ATYPE_POINTER)
          && (array_size field <? count) then
    o_return_error "array max size exceeded"
  else if PB_LTYPE (type field) <=? PB_LTYPE_LAST_PACKABLE then
    check! pb_encode_tag PB_WT_STRING (tag field);
    let packed (size : Z) : enc bool :=
      check! pb_encode_varint size;
      stream ← get_out;
      if bool_decide (callback stream = OcbNull) then pb_write BNull size
      else encode_elements field pData count func in
    if PB_LTYPE (type field) =? PB_LTYPE_FIXED32 then packed (u64 (4 * count))
    else if PB_LTYPE (type field) =? PB_LTYPE_FIXED64 then packed (u64 (8 * count))
    else
      '(ok, sizestream) ← on_ostream PB_OSTREAM_SIZING
                            (encode_elements field pData count func);
      if negb ok then mret false else packed (bytes_written sizestream)
  else
    encode_elements field pData count (λ field p,
      check! pb_encode_tag_for_field field;
      if (PB_ATYPE (type field) =? PB_ATYPE_POINTER) &&
         ((PB_LTYPE (type field) =? PB_LTYPE_STRING) ||
          (PB_LTYPE (type field) =? PB_LTYPE_BYTES)) then
        q ← eload p 8; func field q
      else func field p).

(** [pSize] is [None] while it points to the local [implicit_has]. *)
Definition encode_basic_field (field : pb_field_t) (pData : Z) : enc bool :=
  func ← lift_option (PB_ENCODERS !! Z.to_nat (PB_LTYPE (type field)));
  let func := call_encoder func in
  '(pSize, implicit_has) ←
    (if negb (size_offset field =? 0) then
       mret (Some (pData + size_offset field), false)
     else if PB_HTYPE (type field) =? PB_HTYPE_OPTIONAL then
       dflt ← pb_check_proto3_default_value depth field pData;
       mret (None, negb dflt)
     else mret (None, true));
  '(pData, implicit_has) ←
    (if PB_ATYPE (type field) =? PB_ATYPE_POINTER then
       p ← eload pData 8; mret (p, negb (p =? NULL))
     else mret (pData, implicit_has));
  let emit : enc bool :=
    check! pb_encode_tag_for_field field; func field pData in
  if PB_HTYPE (type field) =? PB_HTYPE_REQUIRED then
    if pData =? NULL then o_return_error "missing required field" else emit
  else if PB_HTYPE (type field) =? PB_HTYPE_OPTIONAL then
    has ← (match pSize with
           | Some a => b ← eload a 1; mret (negb (b =? 0))
           | None => mret implicit_has
           end);
    if (has : bool) then emit else mret true
  else if PB_HTYPE (type field) =? PB_HTYPE_REPEATED then
    count ← (match pSize with
             | Some a => eload a 4
             | None => mret (array_size field)
             end);
    encode_array field pData count func
  else
    which ← (match pSize with Some a => eload a 4 | None => undef end);
    if which =? tag field then emit else mret true.

Definition encode_callback_field (field : pb_field_t) (pData : Z) : enc bool :=
  fn ← eload (pData + callback_funcs) 8;
  if negb (fn =? NULL) then
    ok ← user_encode fn field (pData + callback_arg);
    if negb ok then o_return_error "callback error" else mret true
  else mret true.

Definition encode_field (field : pb_field_t) (pData : Z) : enc bool :=
  if (PB_ATYPE (type field) =? PB_ATYPE_STATIC) ||
     (PB_ATYPE (type field) =? PB_ATYPE_POINTER) then
    encode_basic_field field pData
  else if PB_ATYPE (type field) =? PB_ATYPE_CALLBACK then
    encode_callback_field field pData
  else o_return_error "invalid field type".

(** ** Extensions *)

Definition default_extension_encoder (ty : pb_extension_type_t) (extension : Z)
    : enc bool :=
  field ← lift_option (ext_arg ty !! 0%nat);
  if PB_ATYPE (type field) =? PB_ATYPE_POINTER then
    encode_field field (extension + extension_dest)
  else
    dest ← eload (extension + extension_dest) 8;
    encode_field field dest.

Definition encode_extension_field (field : pb_field_t) (pData : Z) : enc bool :=
  extension ← eload pData 8;
  loop (Z.of_nat depth) (λ extension,
    if extension =? NULL then mret (inr true)
    else
      t ← eload (extension + extension_type) 8;
      ty ← lift_option (ext_type_of enc_ro t);
      status ← (if negb (ext_encode ty =? NULL)
                then user_ext_encode (ext_encode ty) extension
                else default_extension_encoder ty extension);
      if negb status then mret (inr false)
      else
        next ← eload (extension + extension_next) 8;
        mret (inl next)) extension.

(** ** Encode all fields *)

Definition pb_encode_body (fields : list pb_field_t) (src_struct : Z) : enc bool :=
  '(nonempty, it) ← lift_option (pb_field_iter_begin fields src_struct);
  if negb nonempty then mret true
  else
    loop (Z.of_nat (length fields)) (λ it,
      f ← lift_option (iter_field it);
      ok ← (if PB_LTYPE (type f) =? PB_LTYPE_EXTENSION
            then encode_extension_field f (pData it)
            else encode_field f (pData it));
      if negb ok then mret (inr false)
      else
        '(more, it') ← lift_option (pb_field_iter_next it);
        mret (if (more : bool) then inl it' else inr true)) it.
End recursive.

(** [fuel] bounds the depth of nested messages, and the length of a chain of
    extensions. *)
Fixpoint pb_encode (fuel : nat) (fields : list pb_field_t) (src_struct : Z)
    : enc bool :=
  match fuel with
  | O => no_fuel
  | S fuel' => pb_encode_body (pb_encode fuel') fuel fields src_struct
  end.

Definition pb_encode_delimited (fuel : nat) (fields : list pb_field_t)
    (src_struct : Z) : enc bool :=
  pb_encode_submessage (pb_encode fuel) fields src_struct.

Definition pb_encode_nullterminated (fuel : nat) (fields : list pb_field_t)
    (src_struct : Z) : enc bool :=
  check! pb_encode fuel fields src_struct;
  pb_write (BLocal [0]) 1.

(** [*size] is the second component; it is written on success only. *)
Definition pb_get_encoded_size (fuel : nat) (fields : list pb_field_t)
    (src_struct : Z) : enc (bool * option Z) :=
  '(ok, stream) ← on_ostream PB_OSTREAM_SIZING (pb_encode fuel fields src_struct);
  mret (if (ok : bool) then (true, Some (bytes_written stream)) else (false, None)).
End encode.
