(* ===== verification/PbInput.v ===== *)
(** * nanopb: input streams and the helper decoders of pb_decode.c *)
From S2P Require Import Prelude CMem PbTypes PbIter.

(** ** Streams *)

(** [callback] of [pb_istream_s]: [buf_read], or a function of the application. *)
Inductive icallback : Type :=
  | IcbBufRead
  | IcbUser (fn : Z).
#[export] Instance icallback_eq_dec : EqDecision icallback.
Proof. solve_decision. Defined.

(** [pb_istream_s] *)
Record pb_istream_t := PbIStream {
  callback : icallback;
  state : Z;
  bytes_left : Z;
  errmsg : option string;
}.

(** What a decoder can reach: the memory, its stream, and the variable
    [fixed_count_size] of the running [pb_decode_noinit]. *)
Record dstate := DState {
  d_mem : mem;
  d_in : pb_istream_t;
  d_fixed_count_size : Z;
}.
Abbreviation dec := (M dstate).

(** The [pb_byte_t *buf] handed to [pb_read]: NULL, an address, or a local
    array, whose new contents the function gives back. *)
Inductive rbuf : Type :=
  | RNull
  | RMem (a : Z)
  | RLocal.

(** The functions the application supplies, by address, and the choices of the
    allocator and of the placement of local arrays. *)
Class DecHost := {
  dec_ro : rodata;
  dec_heap : allocator;
  dec_stack : allocator;
  user_read : Z → rbuf → Z → dec (bool * list Z);
  user_decode : Z → pb_field_t → Z → dec bool;
  user_ext_decode : Z → Z → Z → Z → dec bool;
}.

(** No loop of the decoder runs more than 2^64 times: the bound is not reached
    by a stream whose [bytes_left] decreases. *)
Definition LOOP_MAX : Z := 2 ^ 64.

(** ** State access *)
Definition get_in : dec pb_istream_t := s ← get_state; mret (d_in s).
Definition get_dmem : dec mem := s ← get_state; mret (d_mem s).
Definition set_in (i : pb_istream_t) : dec unit :=
  s ← get_state; put_state (DState (d_mem s) i (d_fixed_count_size s)).
Definition set_dmem (m : mem) : dec unit :=
  s ← get_state; put_state (DState m (d_in s) (d_fixed_count_size s)).
Definition set_fixed_count (n : Z) : dec unit :=
  s ← get_state; put_state (DState (d_mem s) (d_in s) n).
Lemma run_get_in s : get_in s = Done (d_in s, s).
Proof. done. Qed.
Lemma run_get_dmem s : get_dmem s = Done (d_mem s, s).
Proof. done. Qed.
Lemma run_set_in i s : set_in i s = Done (tt, DState (d_mem s) i (d_fixed_count_size s)).
Proof. done. Qed.
Lemma run_set_dmem m s : set_dmem m s = Done (tt, DState m (d_in s) (d_fixed_count_size s)).
Proof. done. Qed.

Definition dload (a : Z) (n : nat) : dec Z :=
  m ← get_dmem; lift_option (load m a n).
Definition dstore (a : Z) (n : nat) (v : Z) : dec unit :=
  m ← get_dmem; m' ← lift_option (store m a n v); set_dmem m'.
Definition dmemset (a v n : Z) : dec unit :=
  m ← get_dmem; m' ← lift_option (memset m a v n); set_dmem m'.

(** [*(pb_size_t* )iter->pSize] *)
Definition load_size (p : place) : dec Z :=
  match p with
  | PMem a => dload a 4
  | PFixedCount => s ← get_state; mret (d_fixed_count_size s)
  end.
Definition store_size (p : place) (v : Z) : dec unit :=
  match p with
  | PMem a => dstore a 4 v
  | PFixedCount => set_fixed_count (u32 v)
  end.

Definition lift_outcome {A} (o : outcome A) : dec A :=
  match o with Done a => mret a | Undef => undef | NoFuel => no_fuel end.

Definition i_with_left (i : pb_istream_t) (n : Z) : pb_istream_t :=
  PbIStream (callback i) (state i) n (errmsg i).
Definition i_with_state (i : pb_istream_t) (st : Z) : pb_istream_t :=
  PbIStream (callback i) st (bytes_left i) (errmsg i).
Definition i_with_errmsg (i : pb_istream_t) (e : option string) : pb_istream_t :=
  PbIStream (callback i) (state i) (bytes_left i) e.

(** [PB_SET_ERROR], and [PB_RETURN_ERROR] in functions that give a value when
    they return true. *)
Definition i_set_error (msg : string) : dec unit :=
  i ← get_in; set_in (i_with_errmsg i (set_error (errmsg i) msg)).
Definition i_return_error (msg : string) : dec bool :=
  i_set_error msg;; mret false.
Definition i_return_none {A} (msg : string) : dec (option A) :=
  i_set_error msg;; mret None.

(** Run a function on another stream: gives what it returned and the stream as
    it left it. *)
Definition on_istream {A} (sub : pb_istream_t) (c : dec A) : dec (A * pb_istream_t) :=
  i ← get_in;
  set_in sub;;
  a ← c;
  sub' ← get_in;
  set_in i;;
  mret (a, sub').

Definition pb_istream_from_buffer (buf bufsize : Z) : pb_istream_t :=
  PbIStream IcbBufRead buf bufsize None.

Section input.
Context `{H : DecHost}.

(** ** Reading *)

(** [for (i = 0; i < count; i++) buf[i] = source[i];] *)
Fixpoint copy_in (m : mem) (source dest : Z) (n : nat) : option mem :=
  match n with
  | O => Some m
  | S n' =>
      b ← load_byte m source;
      m' ← store_byte m dest b;
      copy_in m' (source + 1) (dest + 1) n'
  end.

Definition buf_read (buf : rbuf) (count : Z) : dec (bool * list Z) :=
  i ← get_in;
  let source := state i in
  set_in (i_with_state i (source + count));;
  m ← get_dmem;
  match buf with
  | RNull => mret (true, [])
  | RMem dest =>
      m' ← lift_option (copy_in m source dest (Z.to_nat count));
      set_dmem m';;
      mret (true, [])
  | RLocal =>
      l ← lift_option (load_bytes m source (Z.to_nat count));
      mret (true, l)
  end.

Definition call_icallback (cb : icallback) (buf : rbuf) (count : Z)
    : dec (bool * list Z) :=
  match cb with
  | IcbBufRead => buf_read buf count
  | IcbUser fn =>
      '(ok, data) ← user_read fn buf count;
      match buf with
      | RLocal =>
          (* a callback that reports success has filled the array *)
          if (ok : bool) && negb (Z.of_nat (length data) =? count) then undef
          else mret (ok, data)
      | _ => mret (ok, data)
      end
  end.

(** Lines 119-131 of [pb_read]. *)
Definition pb_read_some (buf : rbuf) (count : Z) : dec (bool * list Z) :=
  i ← get_in;
  if bytes_left i <? count then
    i_set_error "end-of-stream";; mret (false, [])
  else
    '(ok, data) ← call_icallback (callback i) buf count;
    if negb ok then i_set_error "io error";; mret (false, [])
    else
      i ← get_in;
      set_in (i_with_left i (u64 (bytes_left i - count)));;
      mret (true, data).

(** The whole function; [tmp] of the skipping loop is a local array. *)
Definition pb_read_raw (buf : rbuf) (count : Z) : dec (bool * list Z) :=
  i ← get_in;
  match buf, callback i with
  | RNull, IcbUser _ =>
      loop LOOP_MAX (λ count,
        if 16 <? count then
          '(ok, _) ← pb_read_some RLocal 16;
          if negb ok then mret (inr (false, []))
          else mret (inl (count - 16))
        else
          '(ok, _) ← pb_read_some RLocal count;
          mret (inr (ok, []))) count
  | _, _ => pb_read_some buf count
  end.

Definition pb_read (buf : rbuf) (count : Z) : dec bool :=
  '(ok, _) ← pb_read_raw buf count; mret ok.

(** Reading into a local array: its contents, when [pb_read] returned true. *)
Definition pb_read_local (count : Z) : dec (option (list Z)) :=
  '(ok, data) ← pb_read_raw RLocal count;
  if (ok : bool) then mret (Some data) else mret None.

Definition pb_readbyte : dec (option Z) :=
  i ← get_in;
  if bytes_left i =? 0 then i_return_none "end-of-stream"
  else
    '(ok, data) ← call_icallback (callback i) RLocal 1;
    if negb ok then i_return_none "io error"
    else
      i ← get_in;
      set_in (i_with_left i (u64 (bytes_left i - 1)));;
      b ← lift_option (data !! 0%nat);
      mret (Some b).

(** ** Varints *)

(** The [do ... while] of lines 211-231, with the check that follows it; the
    loop state is [bitpos], of type [uint_fast8_t], and [result]. *)
Definition varint32_step (st : Z * Z) : dec ((Z * Z) + option Z) :=
  let '(bitpos, result) := st in
  ob ← pb_readbyte;
  match ob with
  | None => mret (inr None)
  | Some byte =>
      let sign_extension := if bitpos <? 63 then 0xFF else 0x01 in
      if (32 <=? bitpos) && negb (Z.land byte 0x7F =? 0x00) &&
         ((Z.shiftr result 31 =? 0) || negb (byte =? sign_extension))
      then r ← i_return_none "varint overflow"; mret (inr r)
      else
        let result :=
          if 32 <=? bitpos then result
          else Z.lor result (u32 (Z.shiftl (Z.land byte 0x7F) bitpos)) in
        let bitpos := u8 (bitpos + 7) in
        if negb (Z.land byte 0x80 =? 0) then mret (inl (bitpos, result))
        else if (bitpos =? 35) && negb (Z.land byte 0x70 =? 0) then
          r ← i_return_none "varint overflow"; mret (inr r)
        else mret (inr (Some result))
  end.

(** Gives [*dest], when it returns true, and whether it sets [*eof]. *)
Definition pb_decode_varint32_eof : dec (option Z * bool) :=
  ob ← pb_readbyte;
  match ob with
  | None => i ← get_in; mret (None, bytes_left i =? 0)
  | Some byte =>
      if Z.land byte 0x80 =? 0 then mret (Some byte, false)
      else
        r ← loop LOOP_MAX varint32_step (7, Z.land byte 0x7F);
        mret (r, false)
  end.

Definition pb_decode_varint32 : dec (option Z) :=
  '(r, _) ← pb_decode_varint32_eof; mret r.

Definition varint_step (st : Z * Z) : dec ((Z * Z) + option Z) :=
  let '(bitpos, result) := st in
  if 64 <=? bitpos then r ← i_return_none "varint overflow"; mret (inr r)
  else
    ob ← pb_readbyte;
    match ob with
    | None => mret (inr None)
    | Some byte =>
        let result := Z.lor result (u64 (Z.shiftl (Z.land byte 0x7F) bitpos)) in
        let bitpos := u8 (bitpos + 7) in
        if negb (Z.land byte 0x80 =? 0) then mret (inl (bitpos, result))
        else mret (inr (Some result))
    end.

Definition pb_decode_varint : dec (option Z) :=
  loop LOOP_MAX varint_step (0, 0).

Definition pb_skip_varint : dec bool :=
  loop LOOP_MAX (λ _ : unit,
    data ← pb_read_local 1;
    match data with
    | None => mret (inr false)
    | Some l =>
        byte ← lift_option (l !! 0%nat);
        if negb (Z.land byte 0x80 =? 0) then mret (inl tt) else mret (inr true)
    end) tt.

Definition pb_skip_string : dec bool :=
  length ← pb_decode_varint32;
  match length with
  | None => mret false
  | Some length => pb_read RNull length
  end.

(** Gives [*tag] and [*wire_type] when it returns true, and [*eof]. *)
Definition pb_decode_tag : dec (option (Z * Z) * bool) :=
  '(temp, eof) ← pb_decode_varint32_eof;
  match temp with
  | None => mret (None, eof)
  | Some temp =>
      if temp =? 0 then mret (None, true)
      else mret (Some (Z.shiftr temp 3, Z.land temp 7), eof)
  end.

Definition pb_skip_field (wire_type : Z) : dec bool :=
  if wire_type =? PB_WT_VARINT then pb_skip_varint
  else if wire_type =? PB_WT_64BIT then pb_read RNull 8
  else if wire_type =? PB_WT_STRING then pb_skip_string
  else if wire_type =? PB_WT_32BIT then pb_read RNull 4
  else i_return_error "invalid wire_type".

(** The bytes put in [buf] ([*size] is their number), when it returns true. *)
Definition read_raw_value (wire_type max_size : Z) : dec (option (list Z)) :=
  if wire_type =? PB_WT_VARINT then
    loop LOOP_MAX (λ buf,
      if max_size <? Z.of_nat (length buf) + 1 then mret (inr None)
      else
        data ← pb_read_local 1;
        match data with
        | None => mret (inr None)
        | Some l =>
            b ← lift_option (l !! 0%nat);
            if negb (Z.land b 0x80 =? 0) then mret (inl (buf ++ [b]))
            else mret (inr (Some (buf ++ [b])))
        end) []
  else if wire_type =? PB_WT_64BIT then pb_read_local 8
  else if wire_type =? PB_WT_32BIT then pb_read_local 4
  else i_return_none "invalid wire_type".

(** ** Substreams *)

Definition pb_make_string_substream : dec (option pb_istream_t) :=
  size ← pb_decode_varint32;
  match size with
  | None => mret None
  | Some size =>
      stream ← get_in;
      if bytes_left stream <? size then i_return_none "parent stream too short"
      else
        set_in (i_with_left stream (u64 (bytes_left stream - size)));;
        mret (Some (i_with_left stream size))
  end.

Definition pb_close_string_substream (substream : pb_istream_t) : dec bool :=
  '(ok, substream) ←
    (if bytes_left substream =? 0 then mret (true, substream)
     else on_istream substream (pb_read RNull (bytes_left substream)));
  if negb ok then mret false
  else
    stream ← get_in;
    set_in (PbIStream (callback stream) (state substream) (bytes_left stream)
              (errmsg substream));;
    mret true.

(** ** Signed and fixed size integers *)

Definition unzigzag (value : Z) : Z :=
  if negb (Z.land value 1 =? 0) then s64 (Z.lnot (Z.shiftr value 1))
  else s64 (Z.shiftr value 1).

Definition pb_decode_svarint : dec (option Z) :=
  value ← pb_decode_varint;
  mret (unzigzag <$> value).

(** [b0 << 0 | b1 << 8 | ...] at the width of the destination *)
Fixpoint or_bytes (w shift : Z) (l : list Z) : Z :=
  match l with
  | [] => 0
  | b :: l' => Z.lor (wrapu w (Z.shiftl b shift)) (or_bytes w (shift + 8) l')
  end.

Definition pb_decode_fixed32 (dest : Z) : dec bool :=
  data ← pb_read_local 4;
  match data with
  | None => mret false
  | Some bytes => dstore dest 4 (or_bytes 32 0 bytes);; mret true
  end.

Definition pb_decode_fixed64 (dest : Z) : dec bool :=
  data ← pb_read_local 8;
  match data with
  | None => mret false
  | Some bytes => dstore dest 8 (or_bytes 64 0 bytes);; mret true
  end.
End input.
