(* ===== verification/PbDecode.v ===== *)
(** * nanopb: pb_decode.c, fields and messages, with PB_ENABLE_MALLOC

    As in PbEncode, each C function is a definition over the recursive call it
    makes, and [pb_decode_noinit] ties the knot with a bound on the depth. *)
From S2P Require Import Prelude CMem PbTypes PbIter PbInput.

(** [pb_decoder_t], without its stream. *)
Abbreviation decoder := (pb_field_t → Z → dec bool).

Section decode.
Context `{H : DecHost}.

Definition iter_field_d (it : pb_field_iter_t) : dec pb_field_t :=
  lift_option (iter_field it).

(** ** Allocation *)

Definition allocate_field (pData data_size array_size : Z) : dec bool :=
  ptr ← dload pData 8;
  if (data_size =? 0) || (array_size =? 0) then i_return_error "invalid size"
  else
    let check_limit := 2 ^ 32 in
    if ((check_limit <=? data_size) || (check_limit <=? array_size)) &&
       ((2 ^ 64 - 1) / array_size <? data_size)
    then i_return_error "size too large"
    else
      m ← get_dmem;
      '(ptr, m) ← lift_option (realloc dec_heap m ptr (u64 (array_size * data_size)));
      set_dmem m;;
      if ptr =? NULL then i_return_error "realloc failed"
      else dstore pData 8 ptr;; mret true.

Definition pb_free (p : Z) : dec unit :=
  m ← get_dmem; m' ← lift_option (free m p); set_dmem m'.

(** ** Extensions as iterators *)

Definition ext_type_at (extension : Z) : dec pb_extension_type_t :=
  t ← dload (extension + extension_type) 8;
  lift_option (ext_type_of dec_ro t).

Definition iter_from_extension (extension : Z) : dec pb_field_iter_t :=
  ty ← ext_type_at extension;
  field ← lift_option (ext_arg ty !! 0%nat);
  dest ← dload (extension + extension_dest) 8;
  '(_, it) ← lift_option (pb_field_iter_begin (ext_arg ty) dest);
  let pData :=
    if PB_ATYPE (type field) =? PB_ATYPE_POINTER
    then extension + extension_dest else dest in
  mret (PbFieldIter (start it) (pos it) (required_field_index it)
          (dest_struct it) pData (PMem (extension + extension_found))).

(** Walk a chain of extensions; [depth] bounds its length. *)
Definition for_extensions (depth : nat) (body : Z → dec unit) (extension : Z)
    : dec unit :=
  loop (Z.of_nat depth) (λ ext,
    if ext =? NULL then mret (inr tt)
    else
      body ext;;
      next ← dload (ext + extension_next) 8;
      mret (inl next)) extension.

(** The [do { ... } while (pb_field_iter_next(&iter))] over a message. *)
Definition for_fields (body : pb_field_iter_t → dec unit)
    (fields : list pb_field_t) (dest_struct : Z) : dec unit :=
  '(nonempty, it) ← lift_option (pb_field_iter_begin fields dest_struct);
  if negb nonempty then mret tt
  else
    loop (Z.of_nat (length fields)) (λ it,
      body it;;
      '(more, it') ← lift_option (pb_field_iter_next it);
      mret (if (more : bool) then inl it' else inr tt)) it.

(** ** Default values *)

(** [pb_field_set_to_default] and [pb_message_set_to_defaults] call each
    other; [fuel] bounds the depth of submessages and extension chains. *)
Fixpoint pb_field_set_to_default (fuel : nat) (it : pb_field_iter_t) : dec unit :=
  match fuel with
  | O => no_fuel
  | S fuel' =>
    field ← iter_field_d it;
    let type := type field in
    if PB_LTYPE type =? PB_LTYPE_EXTENSION then
      ext ← dload (pData it) 8;
      for_extensions fuel (λ ext,
        dstore (ext + extension_found) 1 0;;
        ext_iter ← iter_from_extension ext;
        pb_field_set_to_default fuel' ext_iter) ext
    else if PB_ATYPE type =? PB_ATYPE_STATIC then
      init_data ←
        (if (PB_HTYPE type =? PB_HTYPE_OPTIONAL)
            && bool_decide (pSize it ≠ PMem (pData it)) then
           match pSize it with
           | PMem a => dstore a 1 0;; mret true
           | PFixedCount => undef
           end
         else if (PB_HTYPE type =? PB_HTYPE_REPEATED)
                 || (PB_HTYPE type =? PB_HTYPE_ONEOF) then
           store_size (pSize it) 0;; mret false
         else mret true);
      if (init_data : bool) then
        if PB_LTYPE type =? PB_LTYPE_SUBMESSAGE then
          fields ← lift_option (submsg_fields dec_ro (ptr field));
          for_fields (pb_field_set_to_default fuel') fields (pData it)
        else
          match ptr field with
          | PtrNull => dmemset (pData it) 0 (data_size field)
          | PtrDefault bs =>
              if Z.of_nat (length bs) <? data_size field then undef
              else
                m ← get_dmem;
                m' ← lift_option
                       (store_bytes m (pData it) (take (Z.to_nat (data_size field)) bs));
                set_dmem m'
          | PtrFields _ => undef
          end
      else mret tt
    else if PB_ATYPE type =? PB_ATYPE_POINTER then
      dstore (pData it) 8 NULL;;
      if (PB_HTYPE type =? PB_HTYPE_REPEATED) || (PB_HTYPE type =? PB_HTYPE_ONEOF)
      then store_size (pSize it) 0
      else mret tt
    else mret tt
  end.

Definition pb_message_set_to_defaults (fuel : nat) (fields : list pb_field_t)
    (dest_struct : Z) : dec unit :=
  for_fields (pb_field_set_to_default fuel) fields dest_struct.

(** [initialize_pointer_field] *)
Definition initialize_pointer_field (fuel : nat) (pItem : Z) (field : pb_field_t)
    : dec unit :=
  let ltype := PB_LTYPE (type field) in
  if (ltype =? PB_LTYPE_STRING) || (ltype =? PB_LTYPE_BYTES) then
    dstore pItem 8 NULL
  else if ltype =? PB_LTYPE_SUBMESSAGE then
    dmemset pItem 0 (data_size field);;
    fields ← lift_option (submsg_fields dec_ro (ptr field));
    pb_message_set_to_defaults fuel fields pItem
  else mret tt.

(** ** Releasing *)

(** The number of items of lines 1160-1181; [count] is a [pb_size_t]. *)
Definition release_count (it : pb_field_iter_t) (field : pb_field_t) : dec Z :=
  if PB_HTYPE (type field) =? PB_HTYPE_REPEATED then
    let static := PB_ATYPE (type field) =? PB_ATYPE_STATIC in
    count ← (if static && bool_decide (pSize it = PMem (pData it))
             then mret (array_size field) else load_size (pSize it));
    mret (if static && (array_size field <? count) then array_size field else count)
  else mret 1.

Definition repeat_items (n : Z) (body : Z → dec unit) : dec unit :=
  _ ← for_loop (Z.to_nat n) 0 (λ i, body i;; mret true);
  mret tt.

(** [pb_release_single_field] and [pb_release]. *)
Fixpoint pb_release_single_field (fuel : nat) (it : pb_field_iter_t) : dec unit :=
  match fuel with
  | O => no_fuel
  | S fuel' =>
    field ← iter_field_d it;
    let type := type field in
    not_current ←
      (if PB_HTYPE type =? PB_HTYPE_ONEOF then
         which ← load_size (pSize it); mret (negb (which =? tag field))
       else mret false);
    if (not_current : bool) then mret tt
    else
      (if PB_LTYPE type =? PB_LTYPE_EXTENSION then
         ext ← dload (pData it) 8;
         for_extensions fuel (λ ext,
           ext_iter ← iter_from_extension ext;
           pb_release_single_field fuel' ext_iter) ext
       else if PB_LTYPE type =? PB_LTYPE_SUBMESSAGE then
         pItem ← (if PB_ATYPE type =? PB_ATYPE_POINTER then dload (pData it) 8
                  else mret (pData it));
         count ← release_count it field;
         if pItem =? NULL then mret tt
         else
           repeat_items count (λ i,
             fields ← lift_option (submsg_fields dec_ro (ptr field));
             let item := pItem + i * data_size field in
             if item =? NULL then mret tt
             else for_fields (pb_release_single_field fuel') fields item)
       else mret tt);;
      if PB_ATYPE type =? PB_ATYPE_POINTER then
        (if (PB_HTYPE type =? PB_HTYPE_REPEATED) &&
            ((PB_LTYPE type =? PB_LTYPE_STRING) || (PB_LTYPE type =? PB_LTYPE_BYTES))
         then
           pItem ← dload (pData it) 8;
           count ← load_size (pSize it);
           repeat_items count (λ i,
             p ← dload (pItem + i * sizeof_ptr) 8;
             pb_free p;;
             dstore (pItem + i * sizeof_ptr) 8 NULL)
         else mret tt);;
        (if PB_HTYPE type =? PB_HTYPE_REPEATED then store_size (pSize it) 0
         else mret tt);;
        p ← dload (pData it) 8;
        pb_free p;;
        dstore (pData it) 8 NULL
      else mret tt
  end.

Definition pb_release (fuel : nat) (fields : list pb_field_t) (dest_struct : Z)
    : dec unit :=
  if dest_struct =? NULL then mret tt
  else for_fields (pb_release_single_field fuel) fields dest_struct.

Definition pb_release_union_field (fuel : nat) (it : pb_field_iter_t)
    : dec (bool * pb_field_iter_t) :=
  field ← iter_field_d it;
  old_tag ← load_size (pSize it);
  let new_tag := tag field in
  if old_tag =? 0 then mret (true, it)
  else if old_tag =? new_tag then mret (true, it)
  else
    '(found, it) ← lift_outcome (pb_field_iter_find it old_tag);
    if negb found then ok ← i_return_error "invalid union tag"; mret (ok, it)
    else
      pb_release_single_field fuel it;;
      '(found, it) ← lift_outcome (pb_field_iter_find it new_tag);
      if negb found then ok ← i_return_error "iterator error"; mret (ok, it)
      else mret (true, it).

(** ** Field decoders *)

(** [clamped = *(intN_t* )dest = (intN_t)svalue] at the size of the field:
    none for a size that is not one of an integer. *)
Definition store_clamped (conv : Z → Z → Z) (field : pb_field_t) (dest v : Z)
    : dec (option Z) :=
  if data_size field =? 8 then dstore dest 8 v;; mret (Some (conv 64 v))
  else if data_size field =? 4 then dstore dest 4 v;; mret (Some (conv 32 v))
  else if data_size field =? 2 then dstore dest 2 v;; mret (Some (conv 16 v))
  else if data_size field =? 1 then dstore dest 1 v;; mret (Some (conv 8 v))
  else mret None.

Definition check_clamped (clamped : option Z) (v : Z) : dec bool :=
  match clamped with
  | None => i_return_error "invalid data_size"
  | Some c => if negb (c =? v) then i_return_error "integer too large" else mret true
  end.

Definition pb_dec_varint (field : pb_field_t) (dest : Z) : dec bool :=
  value ← pb_decode_varint;
  match value with
  | None => mret false
  | Some value =>
      let svalue := if data_size field =? 8 then s64 value else s32 value in
      clamped ← store_clamped wraps field dest svalue;
      check_clamped clamped svalue
  end.

Definition pb_dec_uvarint (field : pb_field_t) (dest : Z) : dec bool :=
  value ← pb_decode_varint;
  match value with
  | None => mret false
  | Some value =>
      clamped ← store_clamped wrapu field dest value;
      check_clamped clamped value
  end.

Definition pb_dec_svarint (field : pb_field_t) (dest : Z) : dec bool :=
  value ← pb_decode_svarint;
  match value with
  | None => mret false
  | Some value =>
      clamped ← store_clamped wraps field dest value;
      check_clamped clamped value
  end.

Definition pb_dec_fixed32 (field : pb_field_t) (dest : Z) : dec bool :=
  pb_decode_fixed32 dest.

Definition pb_dec_fixed64 (field : pb_field_t) (dest : Z) : dec bool :=
  pb_decode_fixed64 dest.

Definition pb_dec_bytes (field : pb_field_t) (dest : Z) : dec bool :=
  size ← pb_decode_varint32;
  match size with
  | None => mret false
  | Some size =>
      if PB_SIZE_MAX <? size then i_return_error "bytes overflow"
      else
        let alloc_size := PB_BYTES_ARRAY_T_ALLOCSIZE size in
        if alloc_size <? size then i_return_error "size too large"
        else
          let fill (bdest : Z) : dec bool :=
            dstore (bdest + bytes_array_size) 4 size;;
            pb_read (RMem (bdest + bytes_array_bytes)) size in
          if PB_ATYPE (type field) =? PB_ATYPE_POINTER then
            check! allocate_field dest alloc_size 1;
            bdest ← dload dest 8;
            fill bdest
          else if data_size field <? alloc_size then i_return_error "bytes overflow"
          else fill dest
  end.

Definition pb_dec_string (field : pb_field_t) (dest : Z) : dec bool :=
  size ← pb_decode_varint32;
  match size with
  | None => mret false
  | Some size =>
      let alloc_size := u32 (size + 1) in
      if alloc_size <? size then i_return_error "size too large"
      else
        let fill (dest : Z) : dec bool :=
          status ← pb_read (RMem dest) size;
          dstore (dest + size) 1 0;;
          mret status in
        if PB_ATYPE (type field) =? PB_ATYPE_POINTER then
          check! allocate_field dest alloc_size 1;
          dest ← dload dest 8;
          fill dest
        else if data_size field <? alloc_size then i_return_error "string overflow"
        else fill dest
  end.

Definition pb_dec_fixed_length_bytes (field : pb_field_t) (dest : Z) : dec bool :=
  size ← pb_decode_varint32;
  match size with
  | None => mret false
  | Some size =>
      if PB_SIZE_MAX <? size then i_return_error "bytes overflow"
      else if size =? 0 then dmemset dest 0 (data_size field);; mret true
      else if negb (size =? data_size field) then
        i_return_error "incorrect fixed length bytes size"
      else pb_read (RMem dest) (data_size field)
  end.

Section recursive.
(** The recursive call of [pb_decode_noinit], and the bound for the walks
    through submessages and chains of extensions. *)
Variable pb_decode_noinit_rec : list pb_field_t → Z → dec bool.
Variable depth : nat.

(** [pb_decode] over the recursive call. *)
Definition pb_decode_with (fields : list pb_field_t) (dest_struct : Z) : dec bool :=
  pb_message_set_to_defaults depth fields dest_struct;;
  status ← pb_decode_noinit_rec fields dest_struct;
  if (status : bool) then mret true
  else pb_release depth fields dest_struct;; mret false.

Definition pb_dec_submessage (field : pb_field_t) (dest : Z) : dec bool :=
  osub ← pb_make_string_substream;
  match osub with
  | None => mret false
  | Some substream =>
      match ptr field with
      | PtrNull => i_return_error "invalid field descriptor"
      | p =>
          fields ← lift_option (submsg_fields dec_ro p);
          '(status, substream) ← on_istream substream
            (if PB_HTYPE (type field) =? PB_HTYPE_REPEATED
             then pb_decode_with fields dest
             else pb_decode_noinit_rec fields dest);
          check! pb_close_string_substream substream;
          mret status
      end
  end.

Definition PB_DECODERS : list (option decoder) := [
  Some pb_dec_varint;
  Some pb_dec_uvarint;
  Some pb_dec_svarint;
  Some pb_dec_fixed32;
  Some pb_dec_fixed64;
  Some pb_dec_bytes;
  Some pb_dec_string;
  Some pb_dec_submessage;
  None;
  Some pb_dec_fixed_length_bytes
].

(** [func(stream, field, dest)]: a call through NULL is undefined. *)
Definition call_decoder (func : option decoder) : decoder :=
  λ field p, match func with Some f => f field p | None => undef end.

Definition decoder_of (field : pb_field_t) : dec decoder :=
  func ← lift_option (PB_DECODERS !! Z.to_nat (PB_LTYPE (type field)));
  mret (call_decoder func).

(** [pData + data_size * index]; the product has the width of [pb_size_t]. *)
Definition item_address (base : Z) (field : pb_field_t) (index : Z) : Z :=
  base + u32 (data_size field * index).

(** ** Decode a single field *)

Definition decode_static_field (wire_type : Z) (it : pb_field_iter_t) : dec bool :=
  field ← iter_field_d it;
  func ← decoder_of field;
  let type := type field in
  if PB_HTYPE type =? PB_HTYPE_REQUIRED then func field (pData it)
  else if PB_HTYPE type =? PB_HTYPE_OPTIONAL then
    (if bool_decide (pSize it ≠ PMem (pData it)) then
       match pSize it with PMem a => dstore a 1 1 | PFixedCount => undef end
     else mret tt);;
    func field (pData it)
  else if PB_HTYPE type =? PB_HTYPE_REPEATED then
    if (wire_type =? PB_WT_STRING) && (PB_LTYPE type <=? PB_LTYPE_LAST_PACKABLE)
    then
      osub ← pb_make_string_substream;
      match osub with
      | None => mret false
      | Some substream =>
          '(status, substream) ← on_istream substream
            (loop LOOP_MAX (λ _ : unit,
               sub ← get_in;
               size ← load_size (pSize it);
               if (0 <? bytes_left sub) && (size <? array_size field) then
                 ok ← func field (item_address (pData it) field size);
                 if negb ok then mret (inr false)
                 else
                   size ← load_size (pSize it);
                   store_size (pSize it) (u32 (size + 1));;
                   mret (inl tt)
               else mret (inr true)) tt);
          if negb (bytes_left substream =? 0) then i_return_error "array overflow"
          else check! pb_close_string_substream substream; mret status
      end
    else
      size ← load_size (pSize it);
      let pItem := item_address (pData it) field size in
      store_size (pSize it) (u32 (size + 1));;
      if array_size field <=? size then i_return_error "array overflow"
      else func field pItem
  else
    store_size (pSize it) (tag field);;
    (if PB_LTYPE type =? PB_LTYPE_SUBMESSAGE then
       dmemset (pData it) 0 (data_size field);;
       fields ← lift_option (submsg_fields dec_ro (ptr field));
       pb_message_set_to_defaults depth fields (pData it)
     else mret tt);;
    func field (pData it).

(** The body of the loop of lines 593-628; the loop state is
    [allocated_size]. *)
Definition pointer_packed_step (it : pb_field_iter_t) (field : pb_field_t)
    (func : decoder) (allocated_size : Z) : dec (Z + (bool * bool)) :=
  sub ← get_in;
  if bytes_left sub =? 0 then mret (inr (true, false))
  else
    size ← load_size (pSize it);
    '(ok, allocated_size) ←
      (if allocated_size <? size + 1 then
         if data_size field =? 0 then undef
         else
           let allocated_size :=
             u64 (allocated_size + ((bytes_left sub - 1) / data_size field + 1)) in
           ok ← allocate_field (pData it) (data_size field) allocated_size;
           mret (ok, allocated_size)
       else mret (true, allocated_size));
    if negb ok then mret (inr (false, false))
    else
      base ← dload (pData it) 8;
      size ← load_size (pSize it);
      let pItem := item_address base field size in
      initialize_pointer_field depth pItem field;;
      ok ← func field pItem;
      if negb ok then mret (inr (false, false))
      else
        size ← load_size (pSize it);
        if size =? PB_SIZE_MAX then mret (inr (false, true))
        else
          store_size (pSize it) (u32 (size + 1));;
          mret (inl allocated_size).

Definition decode_pointer_field (wire_type : Z) (it : pb_field_iter_t) : dec bool :=
  field ← iter_field_d it;
  func ← decoder_of field;
  let type := type field in
  if negb (PB_HTYPE type =? PB_HTYPE_REPEATED) then
    (if PB_LTYPE type =? PB_LTYPE_SUBMESSAGE then
       p ← dload (pData it) 8;
       if negb (p =? NULL) then pb_release_single_field depth it else mret tt
     else mret tt);;
    (if PB_HTYPE type =? PB_HTYPE_ONEOF
     then store_size (pSize it) (tag field) else mret tt);;
    if (PB_LTYPE type =? PB_LTYPE_STRING) || (PB_LTYPE type =? PB_LTYPE_BYTES)
    then func field (pData it)
    else
      check! allocate_field (pData it) (data_size field) 1;
      p ← dload (pData it) 8;
      initialize_pointer_field depth p field;;
      func field p
  else if (wire_type =? PB_WT_STRING) && (PB_LTYPE type <=? PB_LTYPE_LAST_PACKABLE)
  then
    allocated_size ← load_size (pSize it);
    osub ← pb_make_string_substream;
    match osub with
    | None => mret false
    | Some substream =>
        '(r, substream) ← on_istream substream
          (loop LOOP_MAX (pointer_packed_step it field func) allocated_size);
        let '(status, too_many) := (r : bool * bool) in
        (if too_many then
           stream ← get_in;
           set_in (i_with_errmsg stream (Some "too many array entries"))
         else mret tt);;
        check! pb_close_string_substream substream;
        mret status
    end
  else
    size ← load_size (pSize it);
    if size =? PB_SIZE_MAX then i_return_error "too many array entries"
    else
      store_size (pSize it) (u32 (size + 1));;
      size ← load_size (pSize it);
      check! allocate_field (pData it) (data_size field) size;
      base ← dload (pData it) 8;
      size ← load_size (pSize it);
      let pItem := item_address base field (u32 (size - 1)) in
      initialize_pointer_field depth pItem field;;
      func field pItem.

(** A local array [pb_byte_t buffer[10]] filled with [data], for the time of
    [body]. *)
Definition with_local_buffer (n : Z) (data : list Z) (body : Z → dec bool)
    : dec bool :=
  m ← get_dmem;
  a ← lift_option (alloc_place dec_stack (bytes m) n);
  let b := map_region (alloc_junk dec_stack) (bytes m) a (Z.to_nat n) in
  m' ← lift_option (store_bytes (Mem b (blocks m)) a data);
  set_dmem m';;
  status ← body a;
  m ← get_dmem;
  set_dmem (Mem (unmap_region (bytes m) a (Z.to_nat n)) (blocks m));;
  mret status.

Definition decode_callback_field (wire_type : Z) (it : pb_field_iter_t) : dec bool :=
  field ← iter_field_d it;
  fn ← (if pData it =? NULL then mret NULL
        else dload (pData it + callback_funcs) 8);
  let arg := pData it + callback_arg in
  if fn =? NULL then pb_skip_field wire_type
  else if wire_type =? PB_WT_STRING then
    osub ← pb_make_string_substream;
    match osub with
    | None => mret false
    | Some substream =>
        '(ok, substream) ← on_istream substream
          (loop LOOP_MAX (λ _ : unit,
             ok ← user_decode fn field arg;
             if negb ok then mret (inr false)
             else
               sub ← get_in;
               if negb (bytes_left sub =? 0) then mret (inl tt)
               else mret (inr true)) tt);
        if negb ok then i_return_error "callback failed"
        else check! pb_close_string_substream substream; mret true
    end
  else
    data ← read_raw_value wire_type 10;
    match data with
    | None => mret false
    | Some buf =>
        with_local_buffer 10 buf (λ buffer,
          '(status, _) ← on_istream
            (pb_istream_from_buffer buffer (Z.of_nat (length buf)))
            (user_decode fn field arg);
          mret status)
    end.

(** [iter] is changed by [pb_release_union_field]: it is given back. *)
Definition decode_field (wire_type : Z) (it : pb_field_iter_t)
    : dec (bool * pb_field_iter_t) :=
  field ← iter_field_d it;
  '(ok, it) ←
    (if PB_HTYPE (type field) =? PB_HTYPE_ONEOF
     then pb_release_union_field depth it else mret (true, it));
  if negb ok then mret (false, it)
  else
    field ← iter_field_d it;
    status ←
      (if PB_ATYPE (type field) =? PB_ATYPE_STATIC then
         decode_static_field wire_type it
       else if PB_ATYPE (type field) =? PB_ATYPE_POINTER then
         decode_pointer_field wire_type it
       else if PB_ATYPE (type field) =? PB_ATYPE_CALLBACK then
         decode_callback_field wire_type it
       else i_return_error "invalid field type");
    mret (status, it).

(** ** Extensions *)

Definition default_extension_decoder (extension t wire_type : Z) : dec bool :=
  ty ← ext_type_at extension;
  field ← lift_option (ext_arg ty !! 0%nat);
  if negb (tag field =? t) then mret true
  else
    it ← iter_from_extension extension;
    dstore (extension + extension_found) 1 1;;
    '(status, _) ← decode_field wire_type it;
    mret status.

Definition decode_extension (t wire_type : Z) (it : pb_field_iter_t) : dec bool :=
  extension ← dload (pData it) 8;
  stream ← get_in;
  let pos := bytes_left stream in
  loop (Z.of_nat depth) (λ extension,
    stream ← get_in;
    if (extension =? NULL) || negb (pos =? bytes_left stream) then mret (inr true)
    else
      ty ← ext_type_at extension;
      status ←
        (if negb (ext_decode ty =? NULL)
         then user_ext_decode (ext_decode ty) extension t wire_type
         else default_extension_decoder extension t wire_type);
      if negb status then mret (inr false)
      else
        next ← dload (extension + extension_next) 8;
        mret (inl next)) extension.

Definition find_extension_field (it : pb_field_iter_t)
    : outcome (bool * pb_field_iter_t) :=
  iter_search (λ f, PB_LTYPE (type f) =? PB_LTYPE_EXTENSION)
    (pos it) (length (start it)) it.

(** ** Decode all fields *)

(** The local variables of [pb_decode_noinit], [fixed_count_size] apart. *)
Record locals := Locals {
  l_fields_seen : list Z;
  l_extension_range_start : Z;
  l_iter : pb_field_iter_t;
  l_fixed_count_field : option nat;
}.

Definition with_iter (l : locals) (it : pb_field_iter_t) : locals :=
  Locals (l_fields_seen l) (l_extension_range_start l) it (l_fixed_count_field l).

(** [fixed_count_field != NULL && fixed_count_size != fixed_count_field->array_size] *)
Definition fixed_count_incomplete (l : locals) : dec bool :=
  match l_fixed_count_field l with
  | None => mret false
  | Some i =>
      f ← lift_option (start (l_iter l) !! i);
      s ← get_state;
      mret (negb (d_fixed_count_size s =? array_size f))
  end.

(** Lines 935-961: no field has this tag. The iterator and the range of the
    extensions change; false when an error is returned. *)
Definition decode_unknown (t wire_type : Z) (l : locals) : dec (bool * locals) :=
  let skip (l : locals) : dec (bool * locals) :=
    ok ← pb_skip_field wire_type; mret (ok, l) in
  if l_extension_range_start l <=? t then
    '(found, it) ← lift_outcome (find_extension_field (l_iter l));
    f ← iter_field_d it;
    let range_start := if (found : bool) then tag f else 2 ^ 32 - 1 in
    let l := Locals (l_fields_seen l) range_start it (l_fixed_count_field l) in
    if range_start <=? t then
      stream ← get_in;
      let pos := bytes_left stream in
      ok ← decode_extension t wire_type it;
      if negb ok then mret (false, l)
      else
        stream ← get_in;
        if negb (pos =? bytes_left stream) then mret (true, l) else skip l
    else skip l
  else skip l.

(** Lines 967-986: the counter of a repeated field without a count member. *)
Definition select_fixed_count (field : pb_field_t) (l : locals)
    : dec (bool * locals) :=
  let it := l_iter l in
  if (PB_HTYPE (type field) =? PB_HTYPE_REPEATED)
     && bool_decide (pSize it = PMem (pData it))
  then
    let it' := PbFieldIter (start it) (pos it) (required_field_index it)
                 (dest_struct it) (pData it) PFixedCount in
    if bool_decide (l_fixed_count_field l ≠ Some (pos it)) then
      incomplete ← fixed_count_incomplete l;
      if (incomplete : bool) then
        ok ← i_return_error "wrong size for fixed count field"; mret (ok, l)
      else
        set_fixed_count 0;;
        mret (true, Locals (l_fields_seen l) (l_extension_range_start l) it'
                      (Some (pos it)))
    else mret (true, with_iter l it')
  else mret (true, l).

(** Lines 988-993. *)
Definition mark_required (field : pb_field_t) (l : locals) : locals :=
  let i := required_field_index (l_iter l) in
  if (PB_HTYPE (type field) =? PB_HTYPE_REQUIRED) && (i <? PB_MAX_REQUIRED_FIELDS)
  then
    let tmp := Z.shiftl 1 (Z.land i 31) in
    let w := Z.to_nat (Z.shiftr i 5) in
    Locals (alter (λ x, Z.lor x tmp) w (l_fields_seen l))
      (l_extension_range_start l) (l_iter l) (l_fixed_count_field l)
  else l.

(** One turn of the [while (stream->bytes_left)] loop: [inr None] is an
    error return, [inr (Some l)] the end of the loop. *)
Definition noinit_step (l : locals) : dec (locals + option locals) :=
  stream ← get_in;
  if bytes_left stream =? 0 then mret (inr (Some l))
  else
    '(tw, eof) ← pb_decode_tag;
    match tw with
    | None => mret (inr (if (eof : bool) then Some l else None))
    | Some (t, wire_type) =>
        '(found, it) ← lift_outcome (pb_field_iter_find (l_iter l) t);
        let l := with_iter l it in
        if negb found then
          '(ok, l) ← decode_unknown t wire_type l;
          mret (if (ok : bool) then inl l else inr None)
        else
          field ← iter_field_d it;
          '(ok, l) ← select_fixed_count field l;
          if negb ok then mret (inr None)
          else
            let l := mark_required field l in
            '(ok, it) ← decode_field wire_type (l_iter l);
            mret (if (ok : bool) then inl (with_iter l it) else inr None)
    end.

(** Lines 1015-1018: to the end of the field array. Gives
    [req_field_count], [last_type] and the iterator. *)
Definition seek_end (it : pb_field_iter_t) : dec (Z * Z * pb_field_iter_t) :=
  loop (Z.of_nat (length (start it))) (λ it,
    f ← iter_field_d it;
    let req_field_count := required_field_index it in
    let last_type := type f in
    '(more, it') ← lift_option (pb_field_iter_next it);
    mret (if (more : bool) then inl it'
          else inr (req_field_count, last_type, it'))) it.

(** Lines 1027-1045: are the first [n] bits of [fields_seen] set? *)
Definition all_required_seen (fields_seen : list Z) (n : Z) : bool :=
  let allbits := 2 ^ 32 - 1 in
  let word i := default 0 (fields_seen !! i) in
  forallb (λ i, word i =? allbits) (seq 0 (Z.to_nat (Z.shiftr n 5))) &&
  ((Z.land n 31 =? 0) ||
   (word (Z.to_nat (Z.shiftr n 5)) =? Z.shiftr allbits (32 - Z.land n 31))).

(** Lines 1006-1046. *)
Definition check_required (l : locals) : dec bool :=
  '(count_type, it) ← seek_end (l_iter l);
  let '(req_field_count, last_type) := (count_type : Z * Z) in
  f ← iter_field_d it;
  let n :=
    if (PB_HTYPE last_type =? PB_HTYPE_REQUIRED) && negb (tag f =? 0)
    then u32 (req_field_count + 1) else req_field_count in
  let n := if PB_MAX_REQUIRED_FIELDS <? n then PB_MAX_REQUIRED_FIELDS else n in
  if all_required_seen (l_fields_seen l) n then mret true
  else i_return_error "missing required field".

Definition pb_decode_noinit_body (fields : list pb_field_t) (dest_struct : Z)
    : dec bool :=
  caller ← get_state;
  set_fixed_count 0;;
  '(_, it) ← lift_option (pb_field_iter_begin fields dest_struct);
  r ← loop LOOP_MAX noinit_step (Locals [0; 0] 0 it None);
  status ←
    (match r with
     | None => mret false
     | Some l =>
         incomplete ← fixed_count_incomplete l;
         if (incomplete : bool)
         then i_return_error "wrong size for fixed count field"
         else check_required l
     end);
  set_fixed_count (d_fixed_count_size caller);;
  mret status.
End recursive.

(** [fuel] bounds the depth of nested messages, and the length of a chain of
    extensions. *)
Fixpoint pb_decode_noinit (fuel : nat) (fields : list pb_field_t) (dest_struct : Z)
    : dec bool :=
  match fuel with
  | O => no_fuel
  | S fuel' => pb_decode_noinit_body (pb_decode_noinit fuel') fuel fields dest_struct
  end.

Definition pb_decode (fuel : nat) (fields : list pb_field_t) (dest_struct : Z)
    : dec bool :=
  pb_decode_with (pb_decode_noinit fuel) fuel fields dest_struct.

(** The two delimited forms differ in the function they run on the substream. *)
Definition decode_delimited (c : dec bool) : dec bool :=
  osub ← pb_make_string_substream;
  match osub with
  | None => mret false
  | Some substream =>
      '(status, substream) ← on_istream substream c;
      check! pb_close_string_substream substream;
      mret status
  end.

Definition pb_decode_delimited_noinit (fuel : nat) (fields : list pb_field_t)
    (dest_struct : Z) : dec bool :=
  decode_delimited (pb_decode_noinit fuel fields dest_struct).

Definition pb_decode_delimited (fuel : nat) (fields : list pb_field_t)
    (dest_struct : Z) : dec bool :=
  decode_delimited (pb_decode fuel fields dest_struct).

Definition pb_decode_nullterminated (fuel : nat) (fields : list pb_field_t)
    (dest_struct : Z) : dec bool :=
  pb_decode fuel fields dest_struct.
End decode.
