(* ===== verification/Leb128.v ===== *)
(** * Base 128 varints

    The reference definition of the varints of the nanopb and leveldb codecs: the
    encoder, the parser, their round trip and the bounds of lengths and values. *)
From S2P Require Import Prelude.

(** A base 128 varint: seven bits in each byte, the least significant first; the
    top bit of a byte says that more follow. *)
Fixpoint leb128_bytes (fuel : nat) (v : Z) : list Z :=
  match fuel with
  | O => []
  | S n => if v <? 128 then [v] else v `mod` 128 + 128 :: leb128_bytes n (v / 128)
  end.
Definition uleb (v : Z) : list Z := leb128_bytes 10 v.

(** The value and the length of the varint at the head of a list. *)
Fixpoint leb128 (l : list Z) : option (Z * nat) :=
  match l with
  | [] => None
  | b :: l' =>
      if b <? 128 then Some (b, 1%nat)
      else '(v, n) ← leb128 l'; Some (b - 128 + 128 * v, S n)
  end.

Lemma leb128_bytes_byte n v : 0 ≤ v → Forall is_byte (leb128_bytes n v).
Proof.
  revert v. induction n as [|n IH]; intros v Hv; simpl; [constructor|].
  destruct (Z.ltb_spec v 128).
  - repeat constructor; unfold is_byte; lia.
  - constructor; [|apply IH; apply Z.div_pos; lia].
    unfold is_byte. pose proof (Z.mod_pos_bound v 128). lia.
Qed.

Lemma leb128_bytes_length n v : (length (leb128_bytes n v) ≤ n)%nat.
Proof.
  revert v. induction n as [|n IH]; intros v; simpl; [lia|].
  destruct (v <? 128); simpl; [lia|]. specialize (IH (v / 128)). lia.
Qed.

Lemma pow128_succ n : 128 ^ Z.of_nat (S n) = 128 * 128 ^ Z.of_nat n.
Proof. rewrite Nat2Z.inj_succ, Z.pow_succ_r; lia. Qed.

Lemma leb128_of_bytes n v l :
  0 ≤ v < 128 ^ Z.of_nat n → (0 < n)%nat →
  leb128 (leb128_bytes n v ++ l) = Some (v, length (leb128_bytes n v)).
Proof.
  revert v. induction n as [|n IH]; intros v Hv Hn; [lia|].
  rewrite pow128_succ in Hv. simpl.
  destruct (Z.ltb_spec v 128) as [Hs|Hb]; simpl.
  - by rewrite (proj2 (Z.ltb_lt v 128)).
  - pose proof (Z.mod_pos_bound v 128). rewrite (proj2 (Z.ltb_ge _ 128)) by lia.
    assert (0 < v / 128) by (apply Z.div_str_pos; lia).
    assert (v / 128 < 128 ^ Z.of_nat n) by (apply Z.div_lt_upper_bound; lia).
    destruct n as [|n]; [simpl in *; lia|].
    rewrite IH by lia. simpl. do 2 f_equal.
    pose proof (Z.div_mod v 128). lia.
Qed.

Lemma leb128_take l n v k :
  leb128 l = Some (v, k) → (k ≤ n)%nat → leb128 (take n l) = Some (v, k).
Proof.
  revert n v k. induction l as [|b l IH]; intros n v k; simpl; [done|].
  destruct (b <? 128) eqn:Eb.
  - intros [= <- <-] ?. destruct n; [lia|]. simpl. by rewrite Eb.
  - destruct (leb128 l) as [[v' k']|] eqn:E; simpl; [|done].
    intros [= <- <-] ?. destruct n; [lia|]. simpl. rewrite Eb.
    by rewrite (IH n v' k') by (done || lia).
Qed.

Lemma leb128_range l v k :
  Forall is_byte l → leb128 l = Some (v, k) →
  0 ≤ v < 128 ^ Z.of_nat k ∧ (1 ≤ k ≤ length l)%nat.
Proof.
  intros Hl. revert v k. induction Hl as [|b l Hb Hl IH]; intros v k; simpl; [done|].
  unfold is_byte in Hb. destruct (Z.ltb_spec b 128).
  - intros [= <- <-]. simpl. lia.
  - destruct (leb128 l) as [[v' k']|]; simpl; [|done]. intros [= <- <-].
    destruct (IH v' k' eq_refl) as [? ?]. rewrite pow128_succ. split; [nia|lia].
Qed.

Lemma uleb_length v : (1 ≤ length (uleb v) ≤ 10)%nat.
Proof.
  split; [|apply leb128_bytes_length]. unfold uleb. simpl. by destruct (_ <? _); simpl; lia.
Qed.

Lemma leb128_uleb v l : 0 ≤ v < 2 ^ 64 → leb128 (uleb v ++ l) = Some (v, length (uleb v)).
Proof. intros Hv. apply leb128_of_bytes; [|lia]. simpl. pow2. lia. Qed.

(** More significant bits take more bytes. *)
Lemma leb128_bytes_snoc n v :
  128 ^ Z.of_nat n ≤ v → length (leb128_bytes (S n) v) = S n.
Proof.
  revert v. induction n as [|n IH]; intros v Hv.
  - simpl. by destruct (v <? 128).
  - rewrite pow128_succ in Hv. assert (0 < 128 ^ Z.of_nat n) by (apply Z.pow_pos_nonneg; lia).
    change (leb128_bytes (S (S n)) v)
      with (if v <? 128 then [v] else v `mod` 128 + 128 :: leb128_bytes (S n) (v / 128)).
    rewrite (proj2 (Z.ltb_ge v 128)) by lia. cbn [length]. f_equal. apply IH.
    apply Z.div_le_lower_bound; lia.
Qed.

Lemma uleb_length_negative x : - 2 ^ 31 ≤ x < 0 → length (uleb (u64 x)) = 10%nat.
Proof.
  intros Hx. apply leb128_bytes_snoc.
  assert (u64 x = x + 2 ^ 64) as ->.
  { unfold wrapu. symmetry. apply (Z.mod_unique_pos _ _ (-1)); pow2; lia. }
  change (128 ^ Z.of_nat 9) with (2 ^ 63). pow2. lia.
Qed.

Lemma leb128_app l l' v k : leb128 l = Some (v, k) → leb128 (l ++ l') = Some (v, k).
Proof.
  revert v k. induction l as [|b l IH]; intros v k; simpl; [done|].
  destruct (b <? 128); [done|]. destruct (leb128 l) as [[v' k']|]; simpl; [|done].
  intros [= <- <-]. by rewrite (IH v' k').
Qed.

Lemma uleb_length_32 v : 0 ≤ v < 2 ^ 32 → (length (uleb v) ≤ 5)%nat.
Proof.
  intros Hv. unfold uleb. cbn [leb128_bytes].
  do 4 (match goal with |- context [?x <? 128] => destruct (x <? 128) end; [simpl; lia|]).
  rewrite (proj2 (Z.ltb_lt (v / 128 / 128 / 128 / 128) 128)); [simpl; lia|]. pow2. zdiv.
Qed.
