(* ===== verification/PbWire.v ===== *)
(** * nanopb: the wire format

    The helper encoders of PbOutput and the helper decoders of PbInput implement
    the wire format, with the varints of Leb128, on memory buffers: functional
    correctness on every input, errors included, and round trips. *)
From S2P Require Export Leb128.
From S2P Require Import Prelude CMem PbTypes PbIter PbOutput PbInput.

(** ** The encoder of varints *)

Section output.
Context `{H : EncHost}.

Lemma clear_last_cons b l : l ≠ [] → clear_last (b :: l) = b :: clear_last l.
Proof.
  intros Hl. unfold clear_last. rewrite reverse_cons.
  destruct (reverse l) as [|c l'] eqn:E; simpl.
  - apply (f_equal reverse) in E. by rewrite reverse_involutive in E.
  - by rewrite !reverse_cons, reverse_app.
Qed.

Lemma varint_groups_nonempty n v : 0 < v → (0 < n)%nat → varint_groups n v ≠ [].
Proof. intros ??. destruct n; [lia|]. simpl. by rewrite (proj2 (Z.eqb_neq v 0)) by lia. Qed.

Lemma varint_groups_leb128 n v :
  0 < v < 128 ^ Z.of_nat n →
  clear_last (varint_groups n v) = leb128_bytes n v.
Proof.
  revert v. induction n as [|n IH]; intros v Hv; [simpl in *; lia|].
  rewrite pow128_succ in Hv. cbn [varint_groups leb128_bytes].
  rewrite (proj2 (Z.eqb_neq v 0)) by lia.
  rewrite land_7F, lor_80 by (apply Z.mod_pos_bound; lia).
  rewrite Z.shiftr_div_pow2 by lia. change (2 ^ 7) with 128.
  destruct (Z.ltb_spec v 128) as [Hs|Hb].
  - rewrite Z.div_small by lia.
    assert (varint_groups n 0 = []) as -> by (by destruct n).
    unfold clear_last. simpl. rewrite land_7F.
    replace ((v `mod` 128 + 128) `mod` 128) with v by zdiv. done.
  - assert (0 < v / 128) by (apply Z.div_str_pos; lia).
    assert (v / 128 < 128 ^ Z.of_nat n) by (apply Z.div_lt_upper_bound; lia).
    assert (0 < n)%nat by (destruct n; [simpl in *; lia|lia]).
    rewrite clear_last_cons by (by apply varint_groups_nonempty).
    by rewrite IH.
Qed.

Lemma pb_encode_varint_uleb v :
  0 ≤ v < 2 ^ 64 →
  pb_encode_varint v = pb_write (BLocal (uleb v)) (Z.of_nat (length (uleb v))).
Proof.
  intros Hv. unfold pb_encode_varint. destruct (Z.leb_spec v 0x7F) as [Hs|Hb].
  - unfold uleb. cbn [leb128_bytes].
    rewrite (proj2 (Z.ltb_lt v 128)) by lia. by rewrite wrapu_small by lia.
  - by rewrite varint_groups_leb128 by (pow2; simpl; lia).
Qed.
End output.

(** ** Memory input streams

    [input_is s l]: the stream of [s] reads from memory, and [l] is exactly what
    is left in it. [adv k s] is [s] after [k] bytes were read, [fail_with msg s]
    is [s] after an error was reported. *)
Record input_is (s : dstate) (l : list Z) : Prop := {
  input_cb : callback (d_in s) = IcbBufRead;
  input_left : bytes_left (d_in s) = Z.of_nat (length l);
  input_bytes : load_bytes (d_mem s) (state (d_in s)) (length l) = Some l;
  input_byte : Forall is_byte l;
  input_max : Z.of_nat (length l) < 2 ^ 64;
}.

Definition adv (k : nat) (s : dstate) : dstate :=
  DState (d_mem s)
    (PbIStream (callback (d_in s)) (state (d_in s) + Z.of_nat k)
       (bytes_left (d_in s) - Z.of_nat k) (errmsg (d_in s)))
    (d_fixed_count_size s).

Definition fail_with (msg : string) (s : dstate) : dstate :=
  DState (d_mem s) (i_with_errmsg (d_in s) (set_error (errmsg (d_in s)) msg))
    (d_fixed_count_size s).

Lemma adv_0 s : adv 0 s = s.
Proof. destruct s as [m [cb st lf er] f]. unfold adv. simpl. by rewrite Z.add_0_r, Z.sub_0_r. Qed.

Lemma adv_adv j k s : adv j (adv k s) = adv (k + j) s.
Proof. unfold adv. simpl. do 2 f_equal; lia. Qed.

Lemma input_is_adv s l1 l2 : input_is s (l1 ++ l2) → input_is (adv (length l1) s) l2.
Proof.
  intros [Hcb Hl Hb Hby Hm]. rewrite length_app in *.
  apply load_bytes_app in Hb as (_ & Hb & _). rewrite drop_app_length in Hb.
  constructor; simpl; [done|lia|done| |lia]. by apply Forall_app in Hby as [_ ?].
Qed.

Section input.
Context `{H : DecHost}.

Lemma pb_readbyte_cons s b l :
  input_is s (b :: l) → pb_readbyte s = Done (Some b, adv 1 s).
Proof.
  intros [Hcb Hl Hb Hby Hm]. cbn [length] in *.
  destruct s as [m [cb st lf er] f]. simpl in *. subst cb lf.
  unfold pb_readbyte, get_in, get_state. unfold mbind, mret, M_bind, M_ret, obind. simpl.
  unfold buf_read, get_in, set_in, get_dmem, get_state, put_state.
  unfold mbind, mret, M_bind, M_ret, obind. simpl.
  unfold load_byte in *. destruct (bytes m !! st) as [b0|] eqn:E; [|done].
  simpl in Hb |- *. destruct (load_bytes m (st + 1) (length l)); [|done].
  simpl in Hb. simplify_eq/=. unfold adv. simpl. do 3 f_equal.
  rewrite wrapu_small; f_equal; lia.
Qed.

Lemma pb_readbyte_nil s :
  input_is s [] → pb_readbyte s = Done (None, fail_with "end-of-stream" s).
Proof.
  intros [Hcb Hl _ _ _]. destruct s as [m [cb st lf er] f]. simpl in *. by subst lf.
Qed.

Lemma input_is_byte s b l : input_is s (b :: l) → is_byte b.
Proof. intros [_ _ _ Hb _]. by apply Forall_cons in Hb as [? _]. Qed.

Lemma input_is_tail s b l : input_is s (b :: l) → input_is (adv 1 s) l.
Proof. apply (input_is_adv s [b]). Qed.

(** *** 64-bit varints *)

Lemma varint_step_eof i acc s :
  input_is s [] → (i < 10)%nat →
  varint_step (7 * Z.of_nat i, acc) s = Done (inr None, fail_with "end-of-stream" s).
Proof.
  intros Hin Hi. unfold varint_step. rewrite (proj2 (Z.leb_gt 64 _)) by lia.
  by run_with (pb_readbyte_nil s Hin).
Qed.

Lemma varint_step_byte i acc s b l :
  input_is s (b :: l) → (i < 10)%nat → 0 ≤ acc < 2 ^ (7 * Z.of_nat i) →
  varint_step (7 * Z.of_nat i, acc) s =
  Done (if b <? 128 then inr (Some (u64 (acc + b * 2 ^ (7 * Z.of_nat i))))
        else inl (7 * Z.of_nat (S i), u64 (acc + (b - 128) * 2 ^ (7 * Z.of_nat i))),
        adv 1 s).
Proof.
  intros Hin Hi Hacc. unfold varint_step. rewrite (proj2 (Z.leb_gt 64 _)) by lia.
  run_with (pb_readbyte_cons s b l Hin).
  pose proof (input_is_byte _ _ _ Hin) as Hb.
  rewrite land_80_byte by done. rewrite land_7F, lor_wrapu_shiftl by lia.
  replace (u8 (7 * Z.of_nat i + 7)) with (7 * Z.of_nat (S i))
    by (rewrite wrapu_small; lia).
  unfold is_byte in Hb. destruct (Z.ltb_spec b 128); simpl.
  - by rewrite (Z.mod_small b 128) by lia.
  - by replace (b `mod` 128) with (b - 128) by zdiv.
Qed.

Lemma varint_loop fuel i acc s l :
  input_is s l → (i ≤ 10)%nat → 0 ≤ acc < 2 ^ (7 * Z.of_nat i) → acc < 2 ^ 64 →
  11 - Z.of_nat i < fuel →
  loop fuel varint_step (7 * Z.of_nat i, acc) s =
  match leb128 (take (10 - i) l) with
  | Some (v, k) => Done (Some (u64 (acc + v * 2 ^ (7 * Z.of_nat i))), adv k s)
  | None =>
      Done (None,
        fail_with (if bool_decide (10 - i ≤ length l)%nat then "varint overflow"
                   else "end-of-stream") (adv ((10 - i) `min` length l) s))
  end.
Proof.
  remember (10 - i)%nat as j eqn:Ej.
  revert fuel i acc s l Ej.
  induction j as [|j IH]; intros fuel i acc s l Ej Hin Hi Hacc Hm Hf.
  { assert (i = 10%nat) as -> by lia. erewrite loop_inr; [|lia|done].
    simpl. by rewrite adv_0. }
  destruct l as [|b l]; simpl take; cbn [leb128].
  { erewrite loop_inr; [|lia|apply varint_step_eof; [done|lia]]. simpl. by rewrite adv_0. }
  pose proof (input_is_byte _ _ _ Hin) as Hb. unfold is_byte in Hb.
  pose proof (varint_step_byte i acc s b l Hin) as Hs.
  destruct (Z.ltb_spec b 128) as [Hlt|Hge].
  { erewrite loop_inr; [done|lia|apply Hs; [lia|done]]. }
  erewrite loop_inl; [|lia|apply Hs; [lia|done]].
  assert (0 < 2 ^ (7 * Z.of_nat i)) by (apply Z.pow_pos_nonneg; lia).
  assert (2 ^ (7 * Z.of_nat (S i)) = 128 * 2 ^ (7 * Z.of_nat i)) as Ep.
  { replace (7 * Z.of_nat (S i)) with (7 + 7 * Z.of_nat i) by lia.
    by rewrite Z.pow_add_r by lia. }
  pose proof (input_is_tail _ _ _ Hin) as Hin'.
  rewrite (IH (fuel - 1) (S i) _ (adv 1 s) l); [|lia|done|lia| | |lia].
  - destruct (leb128 (take j l)) as [[v k]|]; simpl; rewrite adv_adv.
    + do 3 f_equal. unfold wrapu. rewrite Zplus_mod_idemp_l. f_equal. rewrite Ep. ring.
    + do 4 f_equal. by rewrite (bool_decide_ext (j ≤ length l)%nat (S j ≤ S (length l))%nat) by lia.
  - split; [apply wrapu_range; lia|].
    eapply Z.le_lt_trans; [apply Z.mod_le; [nia|lia]|]. rewrite Ep. nia.
  - apply wrapu_range. lia.
Qed.

Lemma pb_decode_varint_leb128 s l :
  input_is s l →
  pb_decode_varint s =
  match leb128 (take 10 l) with
  | Some (v, k) => Done (Some (u64 v), adv k s)
  | None =>
      Done (None, fail_with (if bool_decide (10 ≤ length l)%nat then "varint overflow"
                             else "end-of-stream") (adv (10 `min` length l) s))
  end.
Proof.
  intros Hin. unfold pb_decode_varint.
  change (0, 0) with (7 * Z.of_nat 0, 0).
  rewrite (varint_loop LOOP_MAX 0 0 s l); [|done|lia|simpl; lia|lia|unfold LOOP_MAX; lia].
  replace (10 - 0)%nat with 10%nat by lia.
  destruct (leb128 (take 10 l)) as [[v k]|]; [|done].
  do 4 f_equal. simpl. lia.
Qed.

Lemma pb_decode_varint_uleb s v l :
  0 ≤ v < 2 ^ 64 → input_is s (uleb v ++ l) →
  pb_decode_varint s = Done (Some v, adv (length (uleb v)) s).
Proof.
  intros Hv Hin. rewrite (pb_decode_varint_leb128 _ _ Hin).
  rewrite (leb128_take _ _ v (length (uleb v))).
  - by rewrite wrapu_small.
  - by apply leb128_uleb.
  - apply uleb_length.
Qed.

(** *** 32-bit varints *)

Lemma varint32_step_eof st s :
  input_is s [] →
  varint32_step st s = Done (inr None, fail_with "end-of-stream" s).
Proof. intros Hin. destruct st. unfold varint32_step. by run_with (pb_readbyte_nil s Hin). Qed.

Lemma varint32_step_low i acc s b l :
  input_is s (b :: l) → (i < 5)%nat → 0 ≤ acc < 2 ^ (7 * Z.of_nat i) →
  let acc' := u32 (acc + (b `mod` 128) * 2 ^ (7 * Z.of_nat i)) in
  varint32_step (7 * Z.of_nat i, acc) s =
  if b <? 128 then
    if bool_decide (i = 4%nat) && (16 <=? b)
    then Done (inr None, fail_with "varint overflow" (adv 1 s))
    else Done (inr (Some acc'), adv 1 s)
  else Done (inl (7 * Z.of_nat (S i), acc'), adv 1 s).
Proof.
  intros Hin Hi Hacc acc'. unfold varint32_step.
  run_with (pb_readbyte_cons s b l Hin).
  pose proof (input_is_byte _ _ _ Hin) as Hb.
  rewrite (proj2 (Z.leb_gt 32 _)) by lia. cbn [andb].
  rewrite land_80_byte by done. rewrite land_7F, lor_wrapu_shiftl by lia.
  replace (u8 (7 * Z.of_nat i + 7)) with (7 * Z.of_nat (S i))
    by (rewrite wrapu_small; lia).
  fold acc'.
  assert ((7 * Z.of_nat (S i) =? 35) = bool_decide (i = 4%nat)) as ->.
  { destruct (Z.eqb_spec (7 * Z.of_nat (S i)) 35); case_bool_decide; lia. }
  destruct (b <? 128) eqn:Eb; cbn [negb]; [|done].
  assert (negb (Z.land b 112 =? 0) = (16 <=? b)) as ->; [|by destruct (_ && _)].
  clear -Hb Eb. revert Eb.
  pose proof (byte_forall (λ b, implb (b <? 128)
    (Bool.eqb (negb (Z.land b 112 =? 0)) (16 <=? b))) eq_refl b Hb) as HP.
  simpl in HP. intros Eb. rewrite Eb in HP. by apply eqb_prop.
Qed.

(** Past bit 32 only padding is accepted: zeros, or the sign bits of a negative
    number. *)
Lemma varint32_step_sign i acc s b l :
  input_is s (b :: l) → (5 ≤ i ≤ 9)%nat → 2 ^ 31 ≤ acc →
  b = (if bool_decide (i = 9%nat) then 1 else 255) →
  varint32_step (7 * Z.of_nat i, acc) s =
  Done (if bool_decide (i = 9%nat) then inr (Some acc) else inl (7 * Z.of_nat (S i), acc),
        adv 1 s).
Proof.
  intros Hin Hi Hacc Hb. unfold varint32_step.
  run_with (pb_readbyte_cons s b l Hin).
  rewrite (proj2 (Z.leb_le 32 _)) by lia. rewrite Z.shiftr_div_pow2 by lia.
  rewrite (proj2 (Z.eqb_neq (acc / 2 ^ 31) 0)) by (pow2; zdiv).
  replace (u8 (7 * Z.of_nat i + 7)) with (7 * Z.of_nat (S i))
    by (rewrite wrapu_small; lia).
  case_bool_decide; subst b.
  - subst i. done.
  - rewrite (proj2 (Z.ltb_lt _ 63)) by lia. done.
Qed.

Lemma varint32_loop fuel i acc s l v k :
  input_is s l → (1 ≤ i < 5)%nat → 0 ≤ acc < 2 ^ (7 * Z.of_nat i) →
  6 - Z.of_nat i < fuel → leb128 (take (5 - i) l) = Some (v, k) →
  loop fuel varint32_step (7 * Z.of_nat i, acc) s =
  if acc + v * 2 ^ (7 * Z.of_nat i) <? 2 ^ 32
  then Done (Some (acc + v * 2 ^ (7 * Z.of_nat i)), adv k s)
  else Done (None, fail_with "varint overflow" (adv k s)).
Proof.
  remember (5 - i)%nat as j eqn:Ej.
  revert fuel i acc s l v k Ej.
  induction j as [|j IH]; intros fuel i acc s l v k Ej Hin Hi Hacc Hf Hl; [lia|].
  destruct l as [|b l]; simpl in Hl; [done|].
  pose proof (input_is_byte _ _ _ Hin) as Hb. unfold is_byte in Hb.
  pose proof (varint32_step_low i acc s b l Hin) as Hs. cbv zeta in Hs.
  set (p := 2 ^ (7 * Z.of_nat i)) in *.
  assert (0 < p) by (apply Z.pow_pos_nonneg; lia).
  assert (p ≤ 2 ^ 28) by (apply Z.pow_le_mono_r; lia).
  assert (2 ^ (7 * Z.of_nat (S i)) = 128 * p) as Ep.
  { replace (7 * Z.of_nat (S i)) with (7 + 7 * Z.of_nat i) by lia.
    by rewrite Z.pow_add_r by lia. }
  destruct (Z.ltb_spec b 128) as [Hlt|Hge].
  - injection Hl as <- <-. rewrite (Z.mod_small b 128) in Hs by lia.
    case_bool_decide as Hi4; cbn [andb] in Hs.
    + subst i. change p with (2 ^ 28) in *. clear p.
      destruct (Z.leb_spec 16 b); (erewrite loop_inr; [|lia|apply Hs; lia]).
      * by rewrite (proj2 (Z.ltb_ge _ (2 ^ 32))) by lia.
      * rewrite (proj2 (Z.ltb_lt _ (2 ^ 32))) by lia. by rewrite wrapu_small by lia.
    + assert (128 * p ≤ 2 ^ 28) by (rewrite <-Ep; apply Z.pow_le_mono_r; lia).
      erewrite loop_inr; [|lia|apply Hs; lia].
      rewrite (proj2 (Z.ltb_lt _ (2 ^ 32))) by nia. by rewrite wrapu_small by nia.
  - destruct (leb128 (take j l)) as [[v' k']|] eqn:El; simpl in Hl; [|done].
    injection Hl as <- <-.
    destruct j as [|j]; [done|].
    assert (128 * p ≤ 2 ^ 28) by (rewrite <-Ep; apply Z.pow_le_mono_r; lia).
    assert (b `mod` 128 = b - 128) as Em by zdiv. rewrite Em in Hs.
    erewrite loop_inl; [|lia|apply Hs; lia].
    rewrite wrapu_small by nia.
    rewrite (IH _ (S i) _ _ l v' k'); [|lia|by eapply input_is_tail|lia|rewrite Ep; nia|lia|done].
    rewrite Ep, adv_adv.
    by replace (acc + (b - 128) * p + v' * (128 * p))
      with (acc + (b - 128 + 128 * v') * p) by ring.
Qed.

(** Up to five bytes, the value is the one of the reference if it fits. *)
Lemma pb_decode_varint32_eof_short s l v k :
  input_is s l → leb128 (take 5 l) = Some (v, k) →
  pb_decode_varint32_eof s =
  if v <? 2 ^ 32 then Done ((Some v, false), adv k s)
  else Done ((None, false), fail_with "varint overflow" (adv k s)).
Proof.
  intros Hin Hl. destruct l as [|b l]; simpl in Hl; [done|].
  unfold pb_decode_varint32_eof. run_with (pb_readbyte_cons s b l Hin).
  pose proof (input_is_byte _ _ _ Hin) as Hb. rewrite land_80_byte by done.
  unfold is_byte in Hb. destruct (Z.ltb_spec b 128) as [Hlt|Hge].
  - injection Hl as <- <-. by rewrite (proj2 (Z.ltb_lt _ (2 ^ 32))) by lia.
  - destruct (leb128 (take 4 l)) as [[v' k']|] eqn:El; simpl in Hl; [|done].
    injection Hl as <- <-. rewrite land_7F.
    assert (b `mod` 128 = b - 128) as -> by zdiv.
    change (7, b - 128) with (7 * Z.of_nat 1, b - 128).
    rewrite (varint32_loop _ 1 _ _ l v' k');
      [|by eapply input_is_tail|lia|simpl; lia|unfold LOOP_MAX; simpl; lia|done].
    rewrite adv_adv. change (2 ^ (7 * Z.of_nat 1)) with 128.
    replace (b - 128 + v' * 128) with (b - 128 + 128 * v') by ring.
    by destruct (_ <? _).
Qed.

Lemma pb_decode_varint32_eof_nil s :
  input_is s [] →
  pb_decode_varint32_eof s = Done ((None, true), fail_with "end-of-stream" s).
Proof.
  intros Hin. unfold pb_decode_varint32_eof. run_with (pb_readbyte_nil s Hin).
  unfold get_in, get_state. run_unfold. simpl. by rewrite (input_left _ _ Hin).
Qed.

Lemma pb_decode_varint32_short s l v k :
  input_is s l → leb128 (take 5 l) = Some (v, k) →
  pb_decode_varint32 s =
  if v <? 2 ^ 32 then Done (Some v, adv k s)
  else Done (None, fail_with "varint overflow" (adv k s)).
Proof.
  intros Hin Hl. unfold pb_decode_varint32.
  run_with (pb_decode_varint32_eof_short s l v k Hin Hl). by destruct (_ <? _).
Qed.

Lemma leb128_uleb_32 v l :
  0 ≤ v < 2 ^ 32 → leb128 (take 5 (uleb v ++ l)) = Some (v, length (uleb v)).
Proof.
  intros Hv. apply leb128_take; [|by apply uleb_length_32].
  apply leb128_uleb. pow2. lia.
Qed.

Lemma pb_decode_varint32_uleb s v l :
  0 ≤ v < 2 ^ 32 → input_is s (uleb v ++ l) →
  pb_decode_varint32 s = Done (Some v, adv (length (uleb v)) s).
Proof.
  intros Hv Hin.
  rewrite (pb_decode_varint32_short _ _ _ _ Hin (leb128_uleb_32 v l Hv)).
  by rewrite (proj2 (Z.ltb_lt v _)) by lia.
Qed.

(** A continued group in the first 32 bits. *)
Lemma varint32_loop_prefix j fuel i acc v s l :
  (i + j = 5)%nat → (1 ≤ i)%nat →
  input_is s (leb128_bytes (10 - i) v ++ l) → 128 ^ Z.of_nat j ≤ v →
  0 ≤ acc < 2 ^ (7 * Z.of_nat i) → acc < 2 ^ 32 → Z.of_nat j + 1 < fuel →
  loop fuel varint32_step (7 * Z.of_nat i, acc) s =
    loop (fuel - Z.of_nat j) varint32_step
      (35, u32 (acc + (v `mod` 128 ^ Z.of_nat j) * 2 ^ (7 * Z.of_nat i))) (adv j s) ∧
  input_is (adv j s) (leb128_bytes 5 (v / 128 ^ Z.of_nat j) ++ l).
Proof.
  revert fuel i acc v s. induction j as [|j IH]; intros fuel i acc v s Hij Hi Hin Hv Ha H32 Hf.
  { assert (i = 5%nat) as -> by lia. rewrite adv_0, Z.pow_0_r, Z.mod_1_r, Z.div_1_r.
    rewrite Z.add_0_r, Z.sub_0_r, wrapu_small by lia. done. }
  rewrite pow128_succ in *. set (q := 128 ^ Z.of_nat j) in *.
  assert (0 < q) by (apply Z.pow_pos_nonneg; lia).
  assert (10 - i = S (9 - i))%nat as Ei by lia. rewrite Ei in Hin. cbn [leb128_bytes] in Hin.
  rewrite (proj2 (Z.ltb_ge v 128)) in Hin by nia. cbn [app] in Hin.
  set (b := v `mod` 128 + 128) in *.
  assert (b `mod` 128 = v `mod` 128) as Eb by (unfold b; zdiv).
  pose proof (varint32_step_low i acc s b _ Hin) as Hs. cbv zeta in Hs.
  rewrite (proj2 (Z.ltb_ge b 128)), Eb in Hs by (unfold b; zdiv).
  set (p := 2 ^ (7 * Z.of_nat i)) in *.
  assert (2 ^ (7 * Z.of_nat (S i)) = 128 * p) as Ep.
  { replace (7 * Z.of_nat (S i)) with (7 + 7 * Z.of_nat i) by lia.
    by rewrite Z.pow_add_r by lia. }
  assert (0 < p) by (apply Z.pow_pos_nonneg; lia).
  erewrite loop_inl; [|lia|apply Hs; [lia|lia]].
  apply input_is_tail in Hin.
  destruct (IH (fuel - 1) (S i) (u32 (acc + v `mod` 128 * p)) (v / 128) (adv 1 s))
    as [IH1 IH2]; [lia|lia| | | | |lia|].
  - by replace (10 - S i)%nat with (9 - i)%nat by lia.
  - apply Z.div_le_lower_bound; lia.
  - rewrite Ep. split; [apply wrapu_range; lia|].
    assert (v `mod` 128 < 128) by zdiv. assert (0 ≤ v `mod` 128) by zdiv.
    eapply Z.le_lt_trans; [apply Z.mod_le; [nia|lia]|]. nia.
  - apply wrapu_range. lia.
  - rewrite IH1. rewrite adv_adv in *. rewrite Z.div_div in IH2 by lia. split; [|done].
    f_equal; [lia|]. f_equal. unfold wrapu. rewrite Zplus_mod_idemp_l. f_equal.
    rewrite Ep, Z.rem_mul_r by lia. ring.
Qed.

(** The ten bytes of a negative [int32] give the same 32 bits. *)
Lemma pb_decode_varint32_negative s x l :
  - 2 ^ 31 ≤ x < 0 → input_is s (uleb (u64 x) ++ l) →
  pb_decode_varint32 s = Done (Some (u32 x), adv 10 s).
Proof.
  intros Hx Hin. assert (u64 x = x + 2 ^ 64) as E64.
  { unfold wrapu. symmetry. apply (Z.mod_unique_pos _ _ (-1)); pow2; lia. }
  rewrite E64 in Hin. set (v := x + 2 ^ 64) in *.
  unfold uleb in Hin. cbn [leb128_bytes] in Hin.
  change (leb128_bytes _ _) with (leb128_bytes 9 (v / 128)) in Hin.
  rewrite (proj2 (Z.ltb_ge v 128)) in Hin by (unfold v; pow2; lia). cbn [app] in Hin.
  unfold pb_decode_varint32, pb_decode_varint32_eof.
  run_with (pb_readbyte_cons s _ _ Hin).
  rewrite land_80_byte by (by eapply input_is_byte).
  rewrite (proj2 (Z.ltb_ge _ 128)) by zdiv. rewrite land_7F.
  assert ((v `mod` 128 + 128) `mod` 128 = v `mod` 128) as -> by zdiv.
  apply input_is_tail in Hin.
  change (7, v `mod` 128) with (7 * Z.of_nat 1, v `mod` 128).
  destruct (varint32_loop_prefix 4 LOOP_MAX 1 (v `mod` 128) (v / 128) (adv 1 s) l)
    as [-> Hin']; [lia|lia|done| | | |unfold LOOP_MAX; simpl; lia|].
  { simpl. unfold v. pow2. zdiv. }
  { simpl. zdiv. }
  { pow2. zdiv. }
  rewrite adv_adv in *.
  assert (v / 128 / 128 ^ Z.of_nat 4 = 2 ^ 29 - 1) as Eq.
  { simpl. unfold v. rewrite Z.div_div by lia. symmetry.
    apply (Z.div_unique_pos _ _ _ (x + 128 * 268435456)); pow2; lia. }
  rewrite Eq in Hin'. change (leb128_bytes 5 (2 ^ 29 - 1)) with [255; 255; 255; 255; 1] in Hin'.
  assert (u32 (v `mod` 128 + ((v / 128) `mod` 128 ^ Z.of_nat 4) * 2 ^ (7 * Z.of_nat 1)) = x + 2 ^ 32)
    as ->.
  { unfold wrapu. symmetry.
    apply (Z.mod_unique_pos _ _ ((v `mod` 2 ^ 35) / 2 ^ 32)); [pow2; lia|].
    change (128 ^ Z.of_nat 4) with 268435456. change (2 ^ (7 * Z.of_nat 1)) with 128.
    change (2 ^ 35) with 34359738368.
    assert (v `mod` 34359738368 = v `mod` 128 + ((v / 128) `mod` 268435456) * 128) as <-.
    { change 34359738368 with (128 * 268435456). rewrite Z.rem_mul_r by lia. ring. }
    unfold v. pow2. zdiv. }
  assert (2 ^ 31 ≤ x + 2 ^ 32) as Hacc by (pow2; lia).
  assert (Z.of_nat 4 < LOOP_MAX - 10) as HL by (unfold LOOP_MAX; pow2; lia).
  pose proof (input_is_tail _ _ _ Hin') as H6. rewrite adv_adv in H6.
  pose proof (input_is_tail _ _ _ H6) as H7. rewrite adv_adv in H7.
  pose proof (input_is_tail _ _ _ H7) as H8. rewrite adv_adv in H8.
  pose proof (input_is_tail _ _ _ H8) as H9. rewrite adv_adv in H9.
  change 35 with (7 * Z.of_nat 5).
  erewrite loop_inl; [|lia|eapply (varint32_step_sign 5); [exact Hin'|lia|done|done]].
  erewrite loop_inl; [|lia|eapply (varint32_step_sign 6); [rewrite adv_adv; exact H6|lia|done|done]].
  erewrite loop_inl; [|lia|eapply (varint32_step_sign 7); [rewrite !adv_adv; exact H7|lia|done|done]].
  erewrite loop_inl; [|lia|eapply (varint32_step_sign 8); [rewrite !adv_adv; exact H8|lia|done|done]].
  erewrite loop_inr; [|lia|eapply (varint32_step_sign 9); [rewrite !adv_adv; exact H9|lia|done|done]].
  rewrite !adv_adv. do 3 f_equal. unfold wrapu.
  apply (Z.mod_unique_pos _ _ (-1)); pow2; lia.
Qed.
End input.

(** ** Reading and skipping bytes *)

Section reading.
Context `{H : DecHost}.

Lemma pb_read_local_app s l1 l2 :
  input_is s (l1 ++ l2) →
  pb_read_local (Z.of_nat (length l1)) s = Done (Some l1, adv (length l1) s).
Proof.
  intros [Hcb Hl Hb Hby Hm]. rewrite length_app in *.
  apply load_bytes_app in Hb as (Hb & _ & _). rewrite take_app_length in Hb.
  destruct s as [m [cb st lf er] f]. simpl in *. subst cb lf.
  unfold pb_read_local, pb_read_raw, pb_read_some, get_in, get_state. run_unfold. simpl.
  rewrite (proj2 (Z.ltb_ge _ _)) by lia.
  unfold buf_read, get_in, set_in, get_dmem, get_state, put_state. run_unfold. simpl.
  rewrite Nat2Z.id, Hb. simpl. unfold adv. simpl. rewrite wrapu_small by lia. done.
Qed.

Lemma pb_read_null_app s l1 l2 :
  input_is s (l1 ++ l2) →
  pb_read RNull (Z.of_nat (length l1)) s = Done (true, adv (length l1) s).
Proof.
  intros [Hcb Hl Hb Hby Hm]. rewrite length_app in *.
  destruct s as [m [cb st lf er] f]. simpl in *. subst cb lf.
  unfold pb_read, pb_read_raw, pb_read_some, get_in, get_state. run_unfold. simpl.
  rewrite (proj2 (Z.ltb_ge _ _)) by lia.
  unfold buf_read, get_in, set_in, get_dmem, get_state, put_state. run_unfold. simpl.
  unfold adv. simpl. rewrite wrapu_small by lia. done.
Qed.

(** On a memory stream [pb_read] is its tail. *)
Lemma pb_read_raw_buf s buf n :
  callback (d_in s) = IcbBufRead → pb_read_raw buf n s = pb_read_some buf n s.
Proof.
  intros Hcb. unfold pb_read_raw. run_with (run_get_in s).
  rewrite Hcb. by destruct buf.
Qed.

Lemma pb_read_some_eof s buf n :
  bytes_left (d_in s) < n →
  pb_read_some buf n s = Done ((false, []), fail_with "end-of-stream" s).
Proof.
  intros Hn. unfold pb_read_some. run_with (run_get_in s).
  by rewrite (proj2 (Z.ltb_lt (bytes_left (d_in s)) n)).
Qed.

(** Any read past the end of the stream reports it and reads nothing. *)
Lemma pb_read_eof s l buf n :
  input_is s l → Z.of_nat (length l) < n →
  pb_read buf n s = Done (false, fail_with "end-of-stream" s).
Proof.
  intros [Hcb Hl _ _ _] Hn. unfold pb_read.
  run_with (pb_read_raw_buf s buf n Hcb). by rewrite pb_read_some_eof by lia.
Qed.

Lemma pb_skip_varint_leb128 s l v k :
  input_is s l → leb128 l = Some (v, k) → pb_skip_varint s = Done (true, adv k s).
Proof.
  unfold pb_skip_varint. intros Hin Hl.
  assert (Z.of_nat (length l) < LOOP_MAX) as Hm by (unfold LOOP_MAX; apply Hin).
  revert Hm Hin Hl. generalize LOOP_MAX. revert s v k.
  induction l as [|b l IH]; intros s v k n Hm Hin Hl; simpl in Hl; [done|].
  pose proof (pb_read_local_app s [b] l Hin) as Hr. change (Z.of_nat (length [b])) with 1 in Hr.
  pose proof (input_is_byte _ _ _ Hin) as Hb. cbn [length] in *.
  assert (1 < n) as Hn by lia.
  destruct (Z.ltb_spec b 128) as [Hlt|Hge].
  - injection Hl as <- <-. erewrite loop_inr; [done|lia|].
    run_with Hr. simpl. rewrite land_80_byte by done.
    by rewrite (proj2 (Z.ltb_lt b 128)).
  - destruct (leb128 l) as [[v' k']|] eqn:El; simpl in Hl; [|done].
    injection Hl as <- <-.
    erewrite (loop_inl n _ tt s tt (adv 1 s)); [|done|].
    + rewrite (IH (adv 1 s) v' k'); [by rewrite adv_adv|lia|by eapply input_is_tail|done].
    + run_with Hr. simpl. rewrite land_80_byte by done.
      by rewrite (proj2 (Z.ltb_ge b 128)).
Qed.

Lemma pb_skip_string_app s l1 l2 :
  Z.of_nat (length l1) < 2 ^ 32 → input_is s (uleb (Z.of_nat (length l1)) ++ l1 ++ l2) →
  pb_skip_string s =
  Done (true, adv (length (uleb (Z.of_nat (length l1))) + length l1) s).
Proof.
  intros Hn Hin. unfold pb_skip_string.
  run_with (pb_decode_varint32_uleb s _ _ (conj (Nat2Z.is_nonneg _) Hn) Hin).
  rewrite (pb_read_null_app _ l1 l2) by (by apply input_is_adv). by rewrite adv_adv.
Qed.

(** ** Tags *)

Definition tag_bytes (wiretype field_number : Z) : list Z :=
  uleb (8 * field_number + wiretype).

Lemma pb_decode_tag_bytes s wt t l :
  0 ≤ wt < 8 → 0 < t < 2 ^ 29 → input_is s (tag_bytes wt t ++ l) →
  pb_decode_tag s = Done ((Some (t, wt), false), adv (length (tag_bytes wt t)) s).
Proof.
  intros Hw Ht Hin. unfold tag_bytes in *. unfold pb_decode_tag.
  assert (0 ≤ 8 * t + wt < 2 ^ 32) as Hr.
  { change (2 ^ 32) with (8 * 2 ^ 29). lia. }
  pose proof (pb_decode_varint32_eof_short _ _ _ _ Hin (leb128_uleb_32 _ l Hr)) as E.
  rewrite (proj2 (Z.ltb_lt _ (2 ^ 32))) in E by lia. run_with E.
  rewrite (proj2 (Z.eqb_neq _ 0)) by lia.
  rewrite land_7, Z.shiftr_div_pow2 by lia. change (2 ^ 3) with 8.
  assert ((8 * t + wt) / 8 = t) as -> by zdiv.
  by assert ((8 * t + wt) `mod` 8 = wt) as -> by zdiv.
Qed.

(** A zero byte ends a message, as the end of the stream does. *)
Lemma pb_decode_tag_zero s l :
  input_is s (0 :: l) → pb_decode_tag s = Done ((None, true), adv 1 s).
Proof.
  intros Hin. unfold pb_decode_tag.
  run_with (pb_decode_varint32_eof_short s (0 :: l) 0 1 Hin eq_refl). done.
Qed.

Lemma pb_decode_tag_nil s :
  input_is s [] → pb_decode_tag s = Done ((None, true), fail_with "end-of-stream" s).
Proof. intros Hin. unfold pb_decode_tag. by run_with (pb_decode_varint32_eof_nil s Hin). Qed.

(** ** Skipping fields *)

(** A payload of the wire type [wt]. *)
Inductive payload : Z → list Z → Prop :=
  | payload_varint l v : leb128 l = Some (v, length l) → payload PB_WT_VARINT l
  | payload_64bit l : length l = 8%nat → payload PB_WT_64BIT l
  | payload_string l : Z.of_nat (length l) < 2 ^ 32 →
      payload PB_WT_STRING (uleb (Z.of_nat (length l)) ++ l)
  | payload_32bit l : length l = 4%nat → payload PB_WT_32BIT l.

Lemma pb_skip_field_payload s wt p l :
  payload wt p → input_is s (p ++ l) →
  pb_skip_field wt s = Done (true, adv (length p) s).
Proof.
  intros Hp Hin. destruct Hp as [p v Hv|p Hp|p Hp|p Hp]; unfold pb_skip_field; simpl.
  - eapply pb_skip_varint_leb128; [done|]. by apply leb128_app.
  - rewrite <-(pb_read_null_app s p l Hin). by rewrite Hp.
  - rewrite length_app. rewrite <-app_assoc in Hin. by eapply pb_skip_string_app.
  - rewrite <-(pb_read_null_app s p l Hin). by rewrite Hp.
Qed.

Lemma pb_skip_field_invalid s wt :
  wt ∉ [PB_WT_VARINT; PB_WT_64BIT; PB_WT_STRING; PB_WT_32BIT] →
  pb_skip_field wt s = Done (false, fail_with "invalid wire_type" s).
Proof.
  intros Hwt. unfold pb_skip_field.
  rewrite !not_elem_of_cons in Hwt. destruct Hwt as (H0 & H1 & H2 & H5 & _).
  by rewrite !(proj2 (Z.eqb_neq _ _)) by done.
Qed.

(** ** Substreams *)

(** [open_sub n s]: the parent stream while a substream of [n] bytes is open. *)
Definition open_sub (n : nat) (s : dstate) : dstate :=
  DState (d_mem s) (i_with_left (d_in s) (bytes_left (d_in s) - Z.of_nat n))
    (d_fixed_count_size s).
Definition sub_of (n : nat) (s : dstate) : pb_istream_t :=
  i_with_left (d_in s) (Z.of_nat n).

Lemma pb_make_string_substream_app s l1 l2 :
  Z.of_nat (length l1) < 2 ^ 32 → input_is s (uleb (Z.of_nat (length l1)) ++ l1 ++ l2) →
  let s1 := adv (length (uleb (Z.of_nat (length l1)))) s in
  pb_make_string_substream s =
    Done (Some (sub_of (length l1) s1), open_sub (length l1) s1) ∧
  input_is s1 (l1 ++ l2).
Proof.
  intros Hn Hin s1. pose proof (input_is_adv _ _ _ Hin) as Hin1. split; [|done].
  unfold pb_make_string_substream.
  run_with (pb_decode_varint32_uleb s _ _ (conj (Nat2Z.is_nonneg _) Hn) Hin).
  fold s1. fold s1 in Hin1. run_with (run_get_in s1).
  pose proof (input_left _ _ Hin1) as El. pose proof (input_max _ _ Hin1).
  rewrite length_app in *.
  rewrite (proj2 (Z.ltb_ge (bytes_left (d_in s1)) (Z.of_nat (length l1)))) by lia.
  rewrite run_set_in. by rewrite wrapu_small by lia.
Qed.

Lemma pb_make_string_substream_short s n l :
  0 ≤ n < 2 ^ 32 → Z.of_nat (length l) < n → input_is s (uleb n ++ l) →
  pb_make_string_substream s =
  Done (None, fail_with "parent stream too short" (adv (length (uleb n)) s)).
Proof.
  intros Hn Hl Hin. unfold pb_make_string_substream.
  run_with (pb_decode_varint32_uleb s _ _ Hn Hin).
  rewrite run_get_in. cbv beta iota.
  rewrite (input_left _ _ (input_is_adv _ _ _ Hin)).
  by rewrite (proj2 (Z.ltb_lt (Z.of_nat (length l)) n)).
Qed.

(** The substream reads the bytes of the string; after it is closed, whatever
    part of it was read, the parent reads what follows the string. *)
Lemma sub_of_input s l1 l2 f :
  input_is s (l1 ++ l2) →
  input_is (DState (d_mem s) (sub_of (length l1) s) f) l1.
Proof.
  intros [Hcb Hl Hb Hby Hm]. rewrite length_app in *.
  apply load_bytes_app in Hb as (Hb & _ & _). rewrite take_app_length in Hb.
  apply Forall_app in Hby as [Hby _]. constructor; simpl; [done|done|done|done|lia].
Qed.
End reading.

(** ** Fixed size integers *)

(** [s] with another memory. *)
Definition with_mem (m : mem) (s : dstate) : dstate :=
  DState m (d_in s) (d_fixed_count_size s).

Lemma or_bytes_combine w sh l :
  Forall is_byte l → 0 ≤ sh → sh + 8 * Z.of_nat (length l) ≤ w →
  or_bytes w sh l = le_combine l * 2 ^ sh.
Proof.
  intros Hl. revert sh. induction Hl as [|b l Hb Hl IH]; intros sh Hsh Hw; [done|].
  cbn [or_bytes le_combine length] in *. unfold is_byte in Hb.
  assert (0 < 2 ^ sh) by (apply Z.pow_pos_nonneg; lia).
  assert (2 ^ (sh + 8) = 256 * 2 ^ sh) as Ep by (rewrite Z.pow_add_r by lia; lia).
  assert (2 ^ (sh + 8) ≤ 2 ^ w) by (apply Z.pow_le_mono_r; lia).
  rewrite IH by lia. rewrite wrapu_small by (rewrite Z.shiftl_mul_pow2 by lia; nia).
  rewrite <-Z.shiftl_mul_pow2 by lia.
  rewrite lor_shiftl_add; [|lia|rewrite Z.shiftl_mul_pow2 by lia; nia].
  rewrite !Z.shiftl_mul_pow2 by lia. rewrite Ep. ring.
Qed.

(** [copy_in] from a source that the destination does not touch. *)
Lemma copy_in_store l : ∀ m source dest,
  load_bytes m source (length l) = Some l → Forall is_byte l →
  mapped m dest (Z.of_nat (length l)) →
  (source + Z.of_nat (length l) ≤ dest ∨ dest + Z.of_nat (length l) ≤ source) →
  copy_in m source dest (length l) = store_bytes m dest l.
Proof.
  induction l as [|b l IH]; intros m source dest Hl Hby Hm Hd; [done|].
  apply Forall_cons in Hby as [Hb Hby]. cbn [length] in *.
  change (S (length l)) with (1 + length l)%nat in Hl.
  apply load_bytes_app in Hl as (H1 & H2 & _). simpl in H1, H2.
  cbn [copy_in store_bytes]. destruct (load_byte m source) as [b'|]; [|done].
  simpl in H1. simplify_eq/=.
  rewrite store_byte_Some by (apply Hm; lia). simpl. change (drop 0 l) with l in *.
  apply IH; [|done| |lia].
  - rewrite <-H2 at 1. apply load_bytes_ext. intros i Hi. simpl. rewrite lookup_insert_ne by lia. done.
  - intros i Hi. simpl. apply lookup_insert_is_Some'. right. apply Hm. lia.
Qed.

Section fixed.
Context `{H : DecHost}.

Lemma run_dstore a n v s m' :
  store (d_mem s) a n v = Some m' → dstore a n v s = Done (tt, with_mem m' s).
Proof.
  intros Hs. unfold dstore. run_with (run_get_dmem s). by rewrite Hs.
Qed.

Lemma pb_decode_fixed32_app s dest l1 l2 m' :
  length l1 = 4%nat → input_is s (l1 ++ l2) →
  store (d_mem s) dest 4 (le_combine l1) = Some m' →
  pb_decode_fixed32 dest s = Done (true, with_mem m' (adv 4 s)).
Proof.
  intros Hl Hin Hs. unfold pb_decode_fixed32.
  pose proof (pb_read_local_app _ _ _ Hin) as Hr. rewrite Hl in Hr. change (Z.of_nat 4) with 4 in Hr. run_with Hr.
  pose proof (input_byte _ _ Hin) as [Hby _]%Forall_app.
  rewrite or_bytes_combine, Z.mul_1_r by (done || lia).
  by rewrite (run_dstore _ _ _ (adv 4 s) m' Hs).
Qed.

Lemma pb_decode_fixed64_app s dest l1 l2 m' :
  length l1 = 8%nat → input_is s (l1 ++ l2) →
  store (d_mem s) dest 8 (le_combine l1) = Some m' →
  pb_decode_fixed64 dest s = Done (true, with_mem m' (adv 8 s)).
Proof.
  intros Hl Hin Hs. unfold pb_decode_fixed64.
  pose proof (pb_read_local_app _ _ _ Hin) as Hr. rewrite Hl in Hr. change (Z.of_nat 8) with 8 in Hr. run_with Hr.
  pose proof (input_byte _ _ Hin) as [Hby _]%Forall_app.
  rewrite or_bytes_combine, Z.mul_1_r by (done || lia).
  by rewrite (run_dstore _ _ _ (adv 8 s) m' Hs).
Qed.

(** Reading into memory: the bytes are stored. *)
Lemma pb_read_mem_app s dest l1 l2 m' :
  input_is s (l1 ++ l2) → mapped (d_mem s) dest (Z.of_nat (length l1)) →
  (state (d_in s) + Z.of_nat (length l1) ≤ dest ∨
   dest + Z.of_nat (length l1) ≤ state (d_in s)) →
  store_bytes (d_mem s) dest l1 = Some m' →
  pb_read (RMem dest) (Z.of_nat (length l1)) s =
  Done (true, with_mem m' (adv (length l1) s)).
Proof.
  intros [Hcb Hl Hb Hby Hm] Hmap Hd Hs. rewrite length_app in *.
  apply load_bytes_app in Hb as (Hb & _ & _). rewrite take_app_length in Hb.
  apply Forall_app in Hby as [Hby _].
  pose proof (copy_in_store l1 _ _ _ Hb Hby Hmap Hd) as Hc. rewrite Hs in Hc.
  destruct s as [m [cb st lf er] f]. simpl in *. subst cb lf.
  unfold pb_read, pb_read_raw, pb_read_some, get_in, get_state. run_unfold. simpl.
  rewrite (proj2 (Z.ltb_ge _ _)) by lia.
  unfold buf_read, get_in, set_in, get_dmem, set_dmem, get_state, put_state. run_unfold. simpl.
  rewrite Nat2Z.id, Hc. simpl. unfold with_mem, adv. simpl. rewrite wrapu_small by lia. done.
Qed.
End fixed.

(** ** What the readers do on every stream *)

Section theorems.
Context `{H : DecHost}.

(** The function [pb_decode_varint] reads the LEB128 number at the head of any memory
    stream, of at most ten bytes, modulo 2^64; ten bytes that do not end one are an
    overflow, and it consumes what it looked at. *)
Theorem varint_decoding s l :
  input_is s l →
  pb_decode_varint s =
  match leb128 (take 10 l) with
  | Some (v, k) => Done (Some (u64 v), adv k s)
  | None =>
      Done (None, fail_with (if bool_decide (10 ≤ length l)%nat then "varint overflow"
                             else "end-of-stream") (adv (10 `min` length l) s))
  end.
Proof. apply pb_decode_varint_leb128. Qed.

(** A field of an unknown tag is skipped: the stream moves past its payload,
    whatever the payload is, and an unknown wire type is an error. *)
Theorem skip_field wt s :
  (∀ p l, payload wt p → input_is s (p ++ l) →
     pb_skip_field wt s = Done (true, adv (length p) s) ∧ input_is (adv (length p) s) l) ∧
  (wt ∉ [PB_WT_VARINT; PB_WT_64BIT; PB_WT_STRING; PB_WT_32BIT] →
     pb_skip_field wt s = Done (false, fail_with "invalid wire_type" s)).
Proof.
  split; [|apply pb_skip_field_invalid]. intros p l Hp Hin.
  split; [by eapply pb_skip_field_payload|by apply input_is_adv].
Qed.
End theorems.
