(* ===== verification/PbSafe.v ===== *)
(** * nanopb: the input layer is safe on every input

    [safe a n s]: the stream of [s] reads from memory, and [a .. a + n - 1] is a
    live region apart from what is left to read. [step a n s s']: between [s] and
    [s'] the memory changed in that region only and the stream did not leave the
    bytes it had. [total a n c]: from every safe state [c] ends without undefined
    behaviour, makes a step, and reports an error when it fails. *)
From S2P Require Import Prelude CMem PbTypes PbIter PbInput PbWire.

(** ** Streams *)

(** [i'] reads from what was left in [i]. *)
Record within (i i' : pb_istream_t) : Prop := {
  within_cb : callback i' = callback i;
  within_state : state i ≤ state i';
  within_left : 0 ≤ bytes_left i' ≤ bytes_left i;
  within_end : state i' + bytes_left i' ≤ state i + bytes_left i;
  within_errmsg : is_Some (errmsg i) → is_Some (errmsg i');
}.

Record safe (a n : Z) (s : dstate) : Prop := {
  safe_input : ∃ l, input_is s l;
  safe_wf : wf_mem (d_mem s);
  safe_mapped : mapped (d_mem s) a n;
  safe_disjoint : state (d_in s) + bytes_left (d_in s) ≤ a ∨ a + n ≤ state (d_in s);
  safe_count : 0 ≤ d_fixed_count_size s < 2 ^ 32;
}.

Record step (a n : Z) (s s' : dstate) : Prop := {
  step_frame : frame a n (d_mem s) (d_mem s');
  step_wf : wf_mem (d_mem s');
  step_within : within (d_in s) (d_in s');
  step_count : 0 ≤ d_fixed_count_size s' < 2 ^ 32;
}.

Lemma within_refl i : 0 ≤ bytes_left i → within i i.
Proof. intros. constructor; [done|lia|lia|lia|done]. Qed.

Lemma within_trans i1 i2 i3 : within i1 i2 → within i2 i3 → within i1 i3.
Proof. intros [C1 S1 L1 E1 M1] [C2 S2 L2 E2 M2]. constructor; [congruence|lia|lia|lia|auto]. Qed.

Lemma safe_left a n s : safe a n s → 0 ≤ bytes_left (d_in s) < 2 ^ 64.
Proof. intros [[l Hl] _ _ _ _]. rewrite (input_left _ _ Hl). pose proof (input_max _ _ Hl). lia. Qed.

Lemma step_refl a n s : safe a n s → step a n s s.
Proof.
  intros Hs. pose proof (safe_left _ _ _ Hs). destruct Hs as [_ Hwf _ _ Hc].
  constructor; [done|done|apply within_refl; lia|done].
Qed.

Lemma step_trans a n s1 s2 s3 : step a n s1 s2 → step a n s2 s3 → step a n s1 s3.
Proof.
  intros [F1 W1 I1 C1] [F2 W2 I2 C2].
  constructor; [by transitivity (d_mem s2)|done|by eapply within_trans|done].
Qed.

Lemma step_weaken a n b k s s' : step b k s s' → a ≤ b → b + k ≤ a + n → step a n s s'.
Proof. intros [F W I C] ??. constructor; [by eapply frame_weaken|done|done|done]. Qed.

Lemma safe_weaken a n b k s : safe a n s → a ≤ b → b + k ≤ a + n → 0 ≤ k → safe b k s.
Proof.
  intros [I W M D C] ???. constructor; [done|done|by eapply mapped_sub|lia|done].
Qed.

(** Reading further, in a memory that changed elsewhere. *)
Lemma input_within s s' l :
  input_is s l → wf_mem (d_mem s') → within (d_in s) (d_in s') →
  (∀ i, state (d_in s) ≤ i < state (d_in s) + bytes_left (d_in s) →
        bytes (d_mem s') !! i = bytes (d_mem s) !! i) →
  ∃ l', input_is s' l'.
Proof.
  intros [Hcb Hl Hb Hby Hm] Hwf [Wcb Ws Wl We _] Hmem.
  destruct (load_bytes_mapped (d_mem s') (state (d_in s')) (Z.to_nat (bytes_left (d_in s'))))
    as [l' Hl'].
  { intros i Hi. rewrite Hmem by lia. apply load_bytes_lookup in Hb as [_ Hb].
    destruct (lookup_lt_is_Some_2 l (Z.to_nat (i - state (d_in s)))) as [b Hb']; [lia|].
    exists b. rewrite <-(Hb _ _ Hb'). f_equal. lia. }
  pose proof (load_bytes_length _ _ _ _ Hl') as El.
  exists l'. constructor; [congruence|lia|by rewrite El|by eapply load_bytes_wf|lia].
Qed.

Lemma safe_step a n s s' : safe a n s → step a n s s' → safe a n s'.
Proof.
  intros [[l Hl] W M D C] [F W' I C']. constructor; [|done| | |done].
  - eapply input_within; [done|done|done|]. intros i Hi. apply (frame_out _ _ _ _ F). lia.
  - by apply (frame_mapped _ _ _ _ _ _ F).
  - destruct I as [_ ? ? ? _]. lia.
Qed.

(** A change of the stream alone. *)
Lemma step_in a n s i :
  safe a n s → within (d_in s) i → step a n s (DState (d_mem s) i (d_fixed_count_size s)).
Proof. intros [_ W _ _ C] Hi. by constructor. Qed.

Lemma adv_within k s : Z.of_nat k ≤ bytes_left (d_in s) → within (d_in s) (d_in (adv k s)).
Proof. intros. constructor; simpl; [done|lia|lia|lia|done]. Qed.

Lemma step_adv a n k s : safe a n s → Z.of_nat k ≤ bytes_left (d_in s) → step a n s (adv k s).
Proof. intros Hs Hk. apply (step_in a n s); [done|]. by apply (adv_within k s). Qed.

Lemma step_fail_with a n msg s s' : step a n s s' → step a n s (fail_with msg s').
Proof.
  intros [F W [Ic Is Il Ie Im] C]. constructor; [done|done| |done].
  constructor; [done|done|done|done|]. intros _. simpl. by destruct (errmsg (d_in s')); eexists.
Qed.

(** ** Total functions *)

(** [bad r s]: the result [r] is an error and [s] has a message. *)
Class Result (A : Type) := is_error : A → bool.
#[export] Instance bool_result : Result bool := negb.
#[export] Instance option_result {A} : Result (option A) :=
  λ o, match o with None => true | Some _ => false end.
#[export] Instance unit_result : Result unit := λ _, false.

Definition reported `{Result A} (r : A) (s : dstate) : Prop :=
  is_error r = true → is_Some (errmsg (d_in s)).

Definition total `{Result A} (a n : Z) (c : dec A) : Prop :=
  ∀ s, safe a n s → wp c (λ r s', step a n s s' ∧ reported r s') s.

(** A case of a conditional. *)
Ltac total_if E :=
  cbv zeta; match goal with |- total _ _ (if ?c then _ else _) => destruct c eqn:E end.

Lemma set_error_some e msg : is_Some (set_error e msg).
Proof. destruct e; by eexists. Qed.

Lemma reported_fail `{Result A} (r : A) msg s : reported r (fail_with msg s).
Proof. intros _. apply set_error_some. Qed.

Section total.
Context (a n : Z).

Lemma total_ret `{Result A} (r : A) : is_error r = false → total a n (mret r).
Proof.
  intros Hr s Hs. apply wp_ret. split; [by apply step_refl|]. unfold reported. by rewrite Hr.
Qed.

Lemma total_weaken `{Result A} b k (c : dec A) :
  total b k c → a ≤ b → b + k ≤ a + n → 0 ≤ k → total a n c.
Proof.
  intros Hc ??? s Hs. eapply wp_mono; [apply Hc; by eapply safe_weaken|].
  intros r s' [Hst Hr]. split; [by eapply step_weaken|done].
Qed.

(** In sequence, with what is known of the first result. *)
Lemma wp_total_bind {A} `{Result B} (c : dec A) (f : A → dec B) s (Q : A → dstate → Prop) :
  safe a n s →
  wp c (λ r s', step a n s s' ∧ Q r s') s →
  (∀ r s', safe a n s' → step a n s s' → Q r s' →
     wp (f r) (λ r' s'', step a n s' s'' ∧ reported r' s'') s') →
  wp (c ≫= f) (λ r' s'', step a n s s'' ∧ reported r' s'') s.
Proof.
  intros Hs Hc Hf. apply wp_bind. eapply wp_mono; [exact Hc|].
  intros r s' [Hst HQ]. eapply wp_mono; [apply Hf; [by eapply safe_step|done|done]|].
  intros r' s'' [Hst' Hr]. split; [by eapply step_trans|done].
Qed.

Lemma total_bind `{Result A} `{Result B} (c : dec A) (f : A → dec B) :
  total a n c → (∀ r, total a n (f r)) → total a n (c ≫= f).
Proof.
  intros Hc Hf s Hs. eapply (wp_total_bind _ _ s (λ r s', reported r s')); [done|by apply Hc|].
  intros r s' Hs' _ _. by apply Hf.
Qed.

Lemma total_check (c k : dec bool) : total a n c → total a n k → total a n (check! c; k).
Proof.
  intros Hc Hk s Hs. eapply (wp_total_bind _ _ s (λ r s', reported r s')); [done|by apply Hc|].
  intros [] s' Hs' _ Hr; [by apply Hk|]. apply wp_ret. split; [by apply step_refl|done].
Qed.

Lemma total_error msg : total a n (i_return_error msg).
Proof.
  intros s Hs. unfold wp. change (i_return_error msg s) with (Done (false, fail_with msg s)).
  split; [by apply step_fail_with, step_refl|apply reported_fail].
Qed.

Lemma total_none {A} msg : total a n (i_return_none (A := A) msg).
Proof.
  intros s Hs. unfold wp. change (i_return_none msg s) with (Done (@None A, fail_with msg s)).
  split; [by apply step_fail_with, step_refl|apply reported_fail].
Qed.

(** ** Memory *)

Lemma step_mem s m' :
  safe a n s → frame a n (d_mem s) m' → wf_mem m' → step a n s (with_mem m' s).
Proof.
  intros Hs Hf Hw. pose proof (safe_left _ _ _ Hs). destruct Hs as [_ _ _ _ C].
  constructor; simpl; [done|done|apply within_refl; lia|done].
Qed.

Lemma wp_dload b k s (Q : Z → dstate → Prop) :
  mapped (d_mem s) b (Z.of_nat k) →
  (∀ v, load (d_mem s) b k = Some v → Q v s) → wp (dload b k) Q s.
Proof.
  intros Hm HQ. destruct (load_mapped _ _ _ Hm) as [v Hv].
  eapply wp_done; [|by apply HQ]. unfold dload. run_with (run_get_dmem s). by rewrite Hv.
Qed.

Lemma total_dstore b k v :
  a ≤ b → b + Z.of_nat k ≤ a + n → total a n (dstore b k v).
Proof.
  intros ?? s Hs. destruct (store_spec (d_mem s) b k v) as (m' & Hst & Hf & _).
  { eapply mapped_sub; [by apply safe_mapped|done|done]. }
  eapply wp_done; [by apply run_dstore|]. split; [|done].
  apply step_mem; [done|by eapply frame_weaken|eapply store_wf; [|done]; by eapply safe_wf].
Qed.

Lemma total_dmemset b v k :
  a ≤ b → b + k ≤ a + n → 0 ≤ k → total a n (dmemset b v k).
Proof.
  intros ??? s Hs. destruct (memset_spec (d_mem s) b v k) as (m' & Hst & Hf & _); [done| |].
  { eapply mapped_sub; [by apply safe_mapped|done|done]. }
  eapply wp_done.
  { unfold dmemset. run_with (run_get_dmem s). rewrite Hst. cbn.
    by rewrite run_set_dmem. }
  split; [|done]. apply (step_mem s m'); [done|by eapply frame_weaken|].
  eapply store_bytes_wf; [|exact Hst]. by eapply safe_wf.
Qed.
End total.

(** ** Reading *)

Section reading.
Context `{H : DecHost} (a n : Z).

Lemma safe_cases s :
  safe a n s →
  (bytes_left (d_in s) = 0 ∧ input_is s []) ∨
  (∃ b l, input_is s (b :: l) ∧ is_byte b ∧ 1 ≤ bytes_left (d_in s)).
Proof.
  intros [[[|b l] Hl] _ _ _ _]; [left|right]; pose proof (input_left _ _ Hl) as E; simpl in E.
  - done.
  - exists b, l. split_and!; [done|by eapply input_is_byte|lia].
Qed.

Lemma wp_readbyte s :
  safe a n s →
  wp pb_readbyte (λ r s', step a n s s' ∧
    match r with
    | Some b => is_byte b ∧ bytes_left (d_in s') = bytes_left (d_in s) - 1
    | None => is_Some (errmsg (d_in s'))
    end) s.
Proof.
  intros Hs. destruct (safe_cases s Hs) as [[_ Hin]|(b & l & Hin & Hb & Hleft)].
  - eapply wp_done; [by apply pb_readbyte_nil|].
    split; [by apply step_fail_with, step_refl|apply set_error_some].
  - eapply wp_done; [by eapply pb_readbyte_cons|].
    split; [|done]. apply step_adv; [done|lia].
Qed.

Lemma total_read_null k : 0 ≤ k → total a n (pb_read RNull k).
Proof.
  intros Hk s Hs. destruct (safe_input _ _ _ Hs) as [l Hin].
  destruct (decide (Z.of_nat (length l) < k)) as [Hlt|Hge].
  - eapply wp_done; [by eapply pb_read_eof|].
    split; [by apply step_fail_with, step_refl|apply reported_fail].
  - rewrite <-(take_drop (Z.to_nat k) l) in Hin.
    pose proof (pb_read_null_app _ _ _ Hin) as E. rewrite take_drop in Hin.
    rewrite length_take in E. replace (Z.of_nat (_ `min` _)) with k in E by lia.
    eapply wp_done; [exact E|]. split; [|done].
    apply step_adv; [done|]. rewrite (input_left _ _ Hin). lia.
Qed.

Lemma total_read_mem b k :
  0 ≤ k → a ≤ b → b + k ≤ a + n → total a n (pb_read (RMem b) k).
Proof.
  intros Hk ?? s Hs. destruct (safe_input _ _ _ Hs) as [l Hin].
  destruct (decide (Z.of_nat (length l) < k)) as [Hlt|Hge].
  - eapply wp_done; [by eapply pb_read_eof|].
    split; [by apply step_fail_with, step_refl|apply reported_fail].
  - set (l1 := take (Z.to_nat k) l).
    assert (Z.of_nat (length l1) = k) as Ek by (unfold l1; rewrite length_take; lia).
    assert (mapped (d_mem s) b (Z.of_nat (length l1))) as Hm.
    { eapply mapped_sub; [by apply safe_mapped|done|lia]. }
    destruct (store_bytes_spec _ _ _ Hm) as (m' & Hst & _).
    destruct (store_bytes_frame _ _ _ _ Hst Hm) as [Hf _].
    pose proof (safe_disjoint _ _ _ Hs) as Hd. rewrite (input_left _ _ Hin) in Hd.
    pose proof Hin as Hin'. rewrite <-(take_drop (Z.to_nat k) l) in Hin'.
    pose proof (pb_read_mem_app _ b _ _ m' Hin' Hm ltac:(fold l1; lia) Hst) as E.
    fold l1 in E. rewrite Ek in E. eapply wp_done; [exact E|]. split; [|done]. eapply step_trans.
    + eapply (step_adv _ _ (length l1)); [done|]. rewrite (input_left _ _ Hin). lia.
    + eapply step_mem; [|eapply frame_weaken; [exact Hf|lia|lia]|].
      * eapply safe_step; [done|]. apply step_adv; [done|]. rewrite (input_left _ _ Hin). lia.
      * eapply store_bytes_wf; [|done]. by eapply safe_wf.
Qed.

(** Reading into a local array gives as many bytes. *)
Lemma wp_read_local k s :
  0 ≤ k → safe a n s →
  wp (pb_read_local k) (λ r s', step a n s s' ∧
    match r with
    | Some l => Z.of_nat (length l) = k ∧ Forall is_byte l ∧
                bytes_left (d_in s') = bytes_left (d_in s) - k
    | None => is_Some (errmsg (d_in s'))
    end) s.
Proof.
  intros Hk Hs. destruct (safe_input _ _ _ Hs) as [l Hin].
  destruct (decide (Z.of_nat (length l) < k)) as [Hlt|Hge].
  - eapply wp_done.
    { unfold pb_read_local. run_with (pb_read_raw_buf s RLocal k (input_cb _ _ Hin)).
      rewrite pb_read_some_eof by (rewrite (input_left _ _ Hin); lia). cbn. reflexivity. }
    split; [by apply step_fail_with, step_refl|apply set_error_some].
  - set (l1 := take (Z.to_nat k) l).
    assert (Z.of_nat (length l1) = k) as Ek by (unfold l1; rewrite length_take; lia).
    pose proof Hin as Hin'. rewrite <-(take_drop (Z.to_nat k) l) in Hin'.
    pose proof (pb_read_local_app _ _ _ Hin') as E. fold l1 in E. rewrite Ek in E.
    eapply wp_done; [exact E|]. split; [apply step_adv; [done|]; rewrite (input_left _ _ Hin); lia|].
    split_and!; [done| |simpl; lia].
    pose proof (input_byte _ _ Hin) as Hby. rewrite <-(take_drop (Z.to_nat k) l) in Hby.
    by apply Forall_app in Hby as [? _].
Qed.
End reading.

(** ** Varints, tags and skipped fields *)

Section varints.
Context `{H : DecHost} (a n : Z).

(** A loop that reads on: the bytes left decrease. *)
Lemma wp_reading_loop {X A} (I : X → Prop) (body : X → dec (X + A)) x s
    (Q : A → dstate → Prop) :
  I x → safe a n s →
  (∀ x s1, I x → safe a n s1 → step a n s s1 →
     wp (body x) (λ r s', step a n s1 s' ∧
       match r with
       | inl x' => I x' ∧ bytes_left (d_in s') < bytes_left (d_in s1)
       | inr r => Q r s'
       end) s1) →
  wp (loop LOOP_MAX body x) (λ r s', step a n s s' ∧ Q r s') s.
Proof.
  intros Hx Hs Hbody.
  apply (wp_loop (λ x s', I x ∧ safe a n s' ∧ step a n s s') (λ _ s', bytes_left (d_in s'))).
  - split_and!; [done|done|by apply step_refl].
  - pose proof (safe_left _ _ _ Hs). unfold LOOP_MAX. lia.
  - intros x' s1 (Hx' & Hs1 & Hst) _. eapply wp_mono; [by apply Hbody|].
    intros [x''|r] s2 [Hst2 HQ].
    + destruct HQ as [Hx'' Hlt]. pose proof (safe_step _ _ _ _ Hs1 Hst2) as Hs2.
      pose proof (safe_left _ _ _ Hs2).
      split_and!; [done|done|by eapply step_trans|lia|done].
    + split; [by eapply step_trans|done].
Qed.

(** What a varint decoder gives: a value of [w] bits after at least one byte, or
    an error. *)
Definition read_value (w : Z) (s : dstate) (r : option Z) (s' : dstate) : Prop :=
  match r with
  | Some v => 0 ≤ v < 2 ^ w ∧ bytes_left (d_in s') < bytes_left (d_in s)
  | None => is_Some (errmsg (d_in s'))
  end.

Lemma wp_decode_varint s :
  safe a n s → wp pb_decode_varint (λ r s', step a n s s' ∧ read_value 64 s r s') s.
Proof.
  intros Hs. destruct (safe_input _ _ _ Hs) as [l Hin]. eapply wp_mono with (Q := λ r s', _).
  { unfold wp. rewrite (pb_decode_varint_leb128 s l Hin).
    destruct (leb128 (take 10 l)) as [[v k]|] eqn:E.
    - pose proof (input_byte _ _ Hin) as Hby. rewrite <-(take_drop 10 l) in Hby.
      apply Forall_app in Hby as [Hby _]. destruct (leb128_range _ _ _ Hby E) as [_ Hk].
      rewrite length_take in Hk. pose proof (input_left _ _ Hin).
      instantiate (1 := step a n s s' ∧ read_value 64 s r s'). split.
      + apply step_adv; [done|lia].
      + split; [apply wrapu_range; lia|simpl; lia].
    - pose proof (input_left _ _ Hin). split; [|apply set_error_some].
      apply step_fail_with, step_adv; [done|lia]. }
  done.
Qed.

Lemma wp_varint32_step st s :
  0 ≤ st.2 < 2 ^ 32 → safe a n s →
  wp (varint32_step st) (λ r s', step a n s s' ∧
    match r with
    | inl st' => 0 ≤ st'.2 < 2 ^ 32 ∧ bytes_left (d_in s') < bytes_left (d_in s)
    | inr r => read_value 32 s r s'
    end) s.
Proof.
  destruct st as [bitpos result]. intros Hst Hs. simpl in Hst. apply wp_bind.
  eapply wp_mono; [by apply wp_readbyte|]. intros [b|] s1 [Hst1 Hb]; [|by apply wp_ret].
  destruct Hb as [Hb Hleft].
  assert (∀ msg, wp (r ← i_return_none msg; mret (inr r)) (λ (r : Z * Z + option Z) s',
    step a n s s' ∧
    match r with
    | inl st' => 0 ≤ st'.2 < 2 ^ 32 ∧ bytes_left (d_in s') < bytes_left (d_in s)
    | inr r => read_value 32 s r s'
    end) s1) as Herr.
  { intros msg. unfold wp.
    change ((r ← i_return_none msg; mret (inr r)) s1)
      with (Done (inr (A := Z * Z) (@None Z), fail_with msg s1)).
    split; [by apply step_fail_with|apply set_error_some]. }
  wp_if E1; [apply Herr|].
  set (result' := if 32 <=? bitpos then result else Z.lor result _).
  assert (0 ≤ result' < 2 ^ 32) as Hr.
  { unfold result'. destruct (32 <=? bitpos); [done|].
    pose proof (wrapu_range 32 (Z.shiftl (Z.land b 0x7F) bitpos) ltac:(lia)) as Hw.
    by apply lor_range. }
  wp_if E2; [apply wp_ret; split; [done|simpl; lia]|].
  wp_if E3; [apply Herr|]. apply wp_ret. split; [done|]. split; [done|lia].
Qed.

Lemma wp_decode_varint32_eof s :
  safe a n s →
  wp pb_decode_varint32_eof (λ '(r, eof) s', step a n s s' ∧
    (eof = true → r = None) ∧ read_value 32 s r s') s.
Proof.
  intros Hs. apply wp_bind. eapply wp_mono; [by apply wp_readbyte|].
  intros [b|] s1 [Hst1 Hb].
  - destruct Hb as [Hb Hleft]. unfold is_byte in Hb.
    wp_if E; [apply wp_ret; split_and!; [done|done|split; [pow2; lia|lia]]|].
    apply wp_bind. eapply wp_mono.
    { apply (wp_reading_loop (λ st : Z * Z, 0 ≤ st.2 < 2 ^ 32) _ _ s1
        (λ r s', read_value 32 s r s')); [|by eapply safe_step|].
      - simpl. rewrite land_7F. pose proof (Z.mod_pos_bound b 128). pow2. lia.
      - intros st s2 Hst2 Hs2 Hstep. eapply wp_mono; [by apply wp_varint32_step|].
        intros [st'|[v|]] s3 [Hst3 HQ]; (split; [done|]); [done| |done].
        destruct HQ. split; [done|]. destruct Hstep as [_ _ [_ _ ? _ _] _]. lia. }
    intros r s2 [Hst2 HQ]. apply wp_ret. split_and!; [by eapply step_trans|done|].
    destruct r; [|done]. destruct HQ. split; [done|lia].
  - apply wp_bind, wp_done with (s' := s1) (a := d_in s1); [done|].
    apply wp_ret. split_and!; [done|done|done].
Qed.

Lemma wp_decode_varint32 s :
  safe a n s → wp pb_decode_varint32 (λ r s', step a n s s' ∧ read_value 32 s r s') s.
Proof.
  intros Hs. apply wp_bind. eapply wp_mono; [by apply wp_decode_varint32_eof|].
  intros [r eof] s' (Hst & _ & HQ). by apply wp_ret.
Qed.

Lemma wp_decode_svarint s :
  safe a n s →
  wp pb_decode_svarint (λ r s', step a n s s' ∧
    match r with
    | Some v => bytes_left (d_in s') < bytes_left (d_in s)
    | None => is_Some (errmsg (d_in s'))
    end) s.
Proof.
  intros Hs. apply wp_bind. eapply wp_mono; [by apply wp_decode_varint|].
  intros [v|] s' (Hst & HQ); apply wp_ret; (split; [done|]); [by destruct HQ|done].
Qed.

Lemma total_skip_varint : total a n pb_skip_varint.
Proof.
  intros s Hs. unfold pb_skip_varint. eapply wp_mono.
  { apply (wp_reading_loop (λ _ : unit, True) _ _ s (λ r s', reported r s')); [done|done|].
    intros [] s1 _ Hs1 _. apply wp_bind.
    eapply wp_mono; [apply (wp_read_local a n 1 s1); [lia|done]|].
    intros [l|] s2 [Hst2 HQ]; [|apply wp_ret; split; [done|by intros _]].
    destruct HQ as (Hl & _ & Hleft). destruct l as [|b l]; [done|].
    apply wp_bind. eapply wp_lift_option; [done|].
    wp_if E; (apply wp_ret; split; [done|]); [split; [done|lia]|done]. }
  done.
Qed.

Lemma total_skip_string : total a n pb_skip_string.
Proof.
  intros s Hs. eapply (wp_total_bind _ _ _ _ _ (λ r s', read_value 32 s r s')); [done|by apply wp_decode_varint32|].
  intros [len|] s' Hs' _ HQ.
  - apply (total_read_null a n len); [destruct HQ; lia|done].
  - apply wp_ret. split; [by apply step_refl|by intros _].
Qed.

Lemma total_skip_field wt : total a n (pb_skip_field wt).
Proof.
  unfold pb_skip_field.
  destruct (_ =? _); [apply total_skip_varint|].
  destruct (_ =? _); [by apply total_read_null|].
  destruct (_ =? _); [apply total_skip_string|].
  destruct (_ =? _); [by apply total_read_null|apply total_error].
Qed.

(** A tag takes at least one byte. *)
Lemma wp_decode_tag s :
  safe a n s →
  wp pb_decode_tag (λ '(r, eof) s', step a n s s' ∧
    match r with
    | Some (t, wt) => 0 ≤ t < 2 ^ 29 ∧ bytes_left (d_in s') < bytes_left (d_in s)
    | None => eof = true ∨ is_Some (errmsg (d_in s'))
    end) s.
Proof.
  intros Hs. apply wp_bind. eapply wp_mono; [by apply wp_decode_varint32_eof|].
  intros [[v|] eof] s' (Hst & Heof & HQ).
  - destruct HQ as [Hv Hleft]. wp_if E; apply wp_ret; (split; [done|]); [by left|].
    rewrite Z.shiftr_div_pow2 by lia. change (2 ^ 3) with 8. change (2 ^ 29) with 536870912.
    pow2. split; [zdiv|done].
  - apply wp_ret. split; [done|by right].
Qed.
End varints.

(** ** Substreams *)

Section substreams.
Context `{H : DecHost} (a n : Z).

(** [s] with the stream [i]. *)
Definition with_in (i : pb_istream_t) (s : dstate) : dstate :=
  DState (d_mem s) i (d_fixed_count_size s).

Lemma wp_on_istream {A} (sub : pb_istream_t) (c : dec A) (Q : A * pb_istream_t → dstate → Prop) s :
  wp c (λ r s', Q (r, d_in s') (with_in (d_in s) s')) (with_in sub s) →
  wp (on_istream sub c) Q s.
Proof.
  unfold wp, on_istream, with_in. unfold get_in, set_in, get_state, put_state. run_unfold.
  simpl. by destruct (c _) as [[r s']| |].
Qed.

(** A substream: [i] is the parent while it is open; the bytes of the substream
    are those the parent gave up. *)
Record opened (i0 i sub : pb_istream_t) : Prop := {
  opened_parent : callback i = callback i0 ∧ state i0 ≤ state i ∧ state sub = state i;
  opened_cb : callback sub = callback i0;
  opened_left : 0 ≤ bytes_left i ∧ 0 ≤ bytes_left sub;
  opened_end : state i + bytes_left sub + bytes_left i ≤ state i0 + bytes_left i0;
  opened_errmsg : errmsg sub = errmsg i;
}.

Lemma wp_make_substream s :
  safe a n s →
  wp pb_make_string_substream (λ r s', step a n s s' ∧
    match r with
    | Some sub => opened (d_in s) (d_in s') sub ∧ bytes_left (d_in s') < bytes_left (d_in s)
    | None => is_Some (errmsg (d_in s'))
    end) s.
Proof.
  intros Hs. apply wp_bind. eapply wp_mono; [by apply wp_decode_varint32|].
  intros [v|] s1 [Hst1 HQ]; [|by apply wp_ret]. destruct HQ as [Hv Hlt].
  pose proof (safe_step _ _ _ _ Hs Hst1) as Hs1. pose proof (safe_left _ _ _ Hs1) as Hl1.
  apply wp_bind, (wp_done _ _ _ (d_in s1) s1 (run_get_in s1)).
  destruct (Z.ltb_spec (bytes_left (d_in s1)) v) as [Hs2|Hs2].
  - unfold wp. change (i_return_none _ s1) with
      (Done (@None pb_istream_t, fail_with "parent stream too short" s1)).
    split; [by apply step_fail_with|apply set_error_some].
  - rewrite wrapu_small by lia. eapply wp_bind, wp_done; [apply run_set_in|]. apply wp_ret.
    destruct Hst1 as [F W [Ic Is Il Ie Im] C]. simpl. split; [|split; [|lia]].
    + constructor; [done|done| |done]. constructor; simpl; [done|lia|lia|lia|done].
    + constructor; simpl; [done|done|lia|lia|done].
Qed.

(** The substream is safe, and what it does to the memory is a step of the
    parent. *)
Lemma opened_safe s s1 sub :
  safe a n s → step a n s s1 → opened (d_in s) (d_in s1) sub →
  safe a n (with_in sub s1).
Proof.
  intros Hs [F W I C] [(Oc & Os & Op) Ocb [Ol Ol'] Oe Om].
  pose proof (safe_step _ _ _ _ Hs (Build_step _ _ _ _ F W I C)) as Hs1.
  destruct Hs as [[l Hl] W0 M D C0]. constructor; simpl; [|done| | |done].
  - eapply (input_within s); [done|done| |].
    + constructor; simpl; [done|lia|lia|lia|]. rewrite Om. apply I.
    + intros i Hi. apply (frame_out _ _ _ _ F). lia.
  - by apply (frame_mapped _ _ _ _ _ _ F).
  - lia.
Qed.

Lemma wp_close_substream s s1 sub sub' s2 :
  safe a n s → step a n s s1 → opened (d_in s) (d_in s1) sub →
  step a n (with_in sub s1) (with_in sub' s2) → d_in s2 = d_in s1 →
  wp (pb_close_string_substream sub') (λ r s', step a n s s' ∧ r = true ∧
    errmsg (d_in s') = errmsg sub' ∧ bytes_left (d_in s') = bytes_left (d_in s1)) s2.
Proof.
  intros Hs Hst1 Ho Hst2 Hin.
  pose proof (opened_safe _ _ _ Hs Hst1 Ho) as Hsub.
  pose proof (safe_step _ _ _ _ Hsub Hst2) as Hsub'.
  pose proof (safe_left _ _ _ Hsub') as Hleft. simpl in Hleft.
  assert (∀ st', state sub' ≤ st' → st' + 0 ≤ state sub' + bytes_left sub' →
    step a n s (DState (d_mem s2)
      (PbIStream (callback (d_in s2)) st' (bytes_left (d_in s2)) (errmsg sub'))
      (d_fixed_count_size s2))) as Hfinal.
  { intros st' H1 H2. destruct Hst1 as [F1 W1 [I1 I2 I3 I4 I5] C1].
    destruct Hst2 as [F2 W2 [J1 J2 J3 J4 J5] C2]. simpl in *.
    destruct Ho as [(Oc & Os & Op) Ocb [Ol Ol'] Oe Om].
    constructor; simpl; [by transitivity (d_mem s1)|done| |done].
    rewrite Hin. constructor; simpl; [done|lia|lia|lia|]. rewrite Om in J5. auto. }
  unfold pb_close_string_substream. apply wp_bind.
  destruct (Z.eqb_spec (bytes_left sub') 0) as [E|E].
  - apply wp_ret. cbn [negb]. apply wp_bind, (wp_done _ _ _ (d_in s2) s2 (run_get_in s2)).
    eapply wp_bind, wp_done; [apply run_set_in|]. apply wp_ret.
    rewrite <-Hin. split_and!; [apply Hfinal; lia|done|done|done].
  - apply wp_on_istream.
    destruct (safe_input _ _ _ Hsub') as [l Hl].
    pose proof (input_left _ _ Hl) as El. simpl in El.
    pose proof (pb_read_null_app (with_in sub' s2) l []) as Er. rewrite app_nil_r in Er.
    rewrite <-El in Er. eapply wp_done; [by apply Er|]. cbn [negb].
    apply wp_bind. eapply wp_done; [apply run_get_in|].
    eapply wp_bind, wp_done; [apply run_set_in|]. apply wp_ret. simpl.
    rewrite <-Hin. split_and!; [apply Hfinal; lia|done|done|done].
Qed.

(** Run [c] on a substream, close it, and give what [c] gave. *)
Lemma wp_substream s s1 sub (c : dec bool) (k : bool → pb_istream_t → dec bool) :
  safe a n s → step a n s s1 → opened (d_in s) (d_in s1) sub →
  total a n c →
  (∀ r sub' s2, d_in s2 = d_in s1 → step a n (with_in sub s1) (with_in sub' s2) →
     reported r (with_in sub' s2) →
     wp (k r sub') (λ r' s', step a n s s' ∧ reported r' s') s2) →
  wp ('(r, sub') ← on_istream sub c; k r sub') (λ r' s', step a n s s' ∧ reported r' s') s1.
Proof.
  intros Hs Hst1 Ho Hc Hk. apply wp_bind, wp_on_istream.
  eapply wp_mono; [apply Hc; by eapply opened_safe|].
  intros r s2 [Hst2 Hr]. apply Hk; [done| |]; by destruct s2.
Qed.
End substreams.

(** ** Decoders that read at least one byte *)

Section eats.
Context `{H : DecHost} (a n : Z).

Definition eats (c : dec bool) : Prop :=
  ∀ s, safe a n s → wp c (λ r s', step a n s s' ∧ reported r s' ∧
    (r = true → bytes_left (d_in s') < bytes_left (d_in s))) s.

Lemma eats_total c : eats c → total a n c.
Proof. intros Hc s Hs. eapply wp_mono; [by apply Hc|]. intros r s' (? & ? & _). done. Qed.

(** Read something, then go on with it. *)
Lemma eats_read {A} (c : dec (option A)) (k : A → dec bool) :
  (∀ s, safe a n s → wp c (λ r s', step a n s s' ∧
     match r with
     | Some _ => bytes_left (d_in s') < bytes_left (d_in s)
     | None => is_Some (errmsg (d_in s'))
     end) s) →
  (∀ v, total a n (k v)) →
  eats (v ← c; match v with None => mret false | Some v => k v end).
Proof.
  intros Hc Hk s Hs. apply wp_bind. eapply wp_mono; [by apply Hc|].
  intros [v|] s' [Hst HQ].
  - eapply wp_mono; [apply Hk; by eapply safe_step|]. intros r s'' [Hst' Hr].
    split_and!; [by eapply step_trans|done|]. intros _.
    destruct (step_within _ _ _ _ Hst') as [_ _ ? _ _]. lia.
  - apply wp_ret. split_and!; [done|by intros _|done].
Qed.

Lemma eats_decode_fixed32 dest :
  a ≤ dest → dest + 4 ≤ a + n → eats (pb_decode_fixed32 dest).
Proof.
  intros ??. apply eats_read.
  - intros s Hs. eapply wp_mono; [apply (wp_read_local a n 4); [lia|done]|].
    intros [l|] s' [Hst HQ]; (split; [done|]); [lia|done].
  - intros l. apply (total_bind a n); [by apply total_dstore|intros _; by apply total_ret].
Qed.

Lemma eats_decode_fixed64 dest :
  a ≤ dest → dest + 8 ≤ a + n → eats (pb_decode_fixed64 dest).
Proof.
  intros ??. apply eats_read.
  - intros s Hs. eapply wp_mono; [apply (wp_read_local a n 8); [lia|done]|].
    intros [l|] s' [Hst HQ]; (split; [done|]); [lia|done].
  - intros l. apply (total_bind a n); [by apply total_dstore|intros _; by apply total_ret].
Qed.
End eats.
