(* ===== verification/PbDecodeSafe.v ===== *)
(** * nanopb: pb_decode is safe on every input

    [msg_ok fuel fields size]: the descriptors are those of a struct of [size]
    bytes: static members inside it, with their has and count members, submessages
    of at most [fuel] levels. For such a message, whatever the input bytes are,
    decoding ends, has no undefined behaviour, writes in the struct only, and
    reports an error when it fails. *)
From S2P Require Import Prelude CMem PbTypes PbIter PbIterSpec PbInput PbDecode PbWire PbSafe.

(** ** Well-formed static messages *)

Definition place_ok (base size : Z) (p : place) : Prop :=
  match p with PMem a => base ≤ a ∧ a + 4 ≤ base + size | PFixedCount => True end.

(** The number of items a field has room for. *)
Definition capacity (f : pb_field_t) : Z :=
  if PB_HTYPE (type f) =? PB_HTYPE_REPEATED then array_size f else 1.

Section ok.
Context `{H : DecHost}.

(** The field [f] at the iterator [it] lies in the struct; [sub_ok fields n] says
    that [fields] describes a submessage of [n] bytes. *)
Record field_in (sub_ok : list pb_field_t → Z → Prop) (base size : Z)
    (it : pb_field_iter_t) (f : pb_field_t) : Prop := {
  in_static : PB_ATYPE (type f) = PB_ATYPE_STATIC;
  in_ltype : PB_LTYPE (type f) ≤ 9 ∧ PB_LTYPE (type f) ≠ PB_LTYPE_EXTENSION;
  in_data_size : 0 ≤ data_size f;
  in_array_size : 0 ≤ array_size f < 2 ^ 32;
  in_capacity : 0 ≤ data_size f * capacity f < 2 ^ 32;
  in_data : base ≤ pData it ∧ pData it + data_size f * capacity f ≤ base + size;
  in_size :
    match PB_HTYPE (type f) with
    | 0x00 => True
    | 0x10 => ∃ a, pSize it = PMem a ∧ (a ≠ pData it → base ≤ a ∧ a + 1 ≤ base + size)
    | _ => place_ok base size (pSize it)
    end;
  in_fixed :
    (PB_LTYPE (type f) = PB_LTYPE_FIXED32 → 4 ≤ data_size f) ∧
    (PB_LTYPE (type f) = PB_LTYPE_FIXED64 → 8 ≤ data_size f);
  in_ptr :
    if PB_LTYPE (type f) =? PB_LTYPE_SUBMESSAGE
    then ∃ id fields, ptr f = PtrFields id ∧ fields_of dec_ro id = Some fields ∧
                      sub_ok fields (data_size f)
    else match ptr f with
         | PtrNull => True
         | PtrDefault bs => data_size f ≤ Z.of_nat (length bs)
         | PtrFields _ => False
         end;
}.

Fixpoint msg_ok (fuel : nat) (fields : list pb_field_t) (size : Z) : Prop :=
  match fuel with
  | O => False
  | S fuel' =>
      ∃ n, field_count fields = Some n ∧ (0 < n)%nat ∧
      ∀ base k it f, (k < n)%nat → iter_nth fields base k = Some it →
        iter_field it = Some f → field_in (msg_ok fuel') base size it f
  end.

Lemma field_in_mono (P Q : list pb_field_t → Z → Prop) base size it f :
  (∀ fields n, P fields n → Q fields n) → field_in P base size it f → field_in Q base size it f.
Proof.
  intros HPQ []. constructor; try done. destruct (_ =? _); [|done].
  destruct in_ptr0 as (id & fields & ? & ? & ?). eauto 6.
Qed.

Lemma msg_ok_S fuel fields size : msg_ok fuel fields size → msg_ok (S fuel) fields size.
Proof.
  revert fields size. induction fuel as [|fuel IH]; intros fields size; [done|].
  intros (n & Hn & Hpos & Hf). exists n. split_and!; [done|done|].
  intros base k it f Hk Hit Hfi. eapply field_in_mono; [exact IH|]. by eapply Hf.
Qed.

(** The sizes of an array. *)
Lemma item_in sub_ok base size it f i :
  field_in sub_ok base size it f → 0 ≤ i < capacity f →
  base ≤ pData it + data_size f * i ∧
  pData it + data_size f * i + data_size f ≤ base + size ∧
  0 ≤ data_size f * i < 2 ^ 32.
Proof. intros [] Hi. nia. Qed.

Lemma capacity_single f : PB_HTYPE (type f) ≠ PB_HTYPE_REPEATED → capacity f = 1.
Proof. unfold capacity. by intros ->%Z.eqb_neq. Qed.

Lemma capacity_repeated f : PB_HTYPE (type f) = PB_HTYPE_REPEATED → capacity f = array_size f.
Proof. unfold capacity. by intros ->. Qed.

(** The data of a field that is not an array. *)
Lemma single_in sub_ok base size it f :
  field_in sub_ok base size it f → PB_HTYPE (type f) ≠ PB_HTYPE_REPEATED →
  base ≤ pData it ∧ pData it + data_size f ≤ base + size.
Proof. intros [] Hs. rewrite capacity_single in * by done. lia. Qed.

(** The four kinds of fields. *)
Lemma htype_cases t :
  PB_HTYPE t = PB_HTYPE_REQUIRED ∨ PB_HTYPE t = PB_HTYPE_OPTIONAL ∨
  PB_HTYPE t = PB_HTYPE_REPEATED ∨ PB_HTYPE t = PB_HTYPE_ONEOF.
Proof.
  unfold PB_HTYPE, PB_HTYPE_MASK, PB_HTYPE_REQUIRED, PB_HTYPE_OPTIONAL, PB_HTYPE_REPEATED,
    PB_HTYPE_ONEOF.
  assert (Z.land t 0x30 = Z.shiftl (Z.shiftr t 4 `mod` 4) 4) as ->.
  { assert (Z.shiftr t 4 `mod` 4 = Z.land (Z.shiftr t 4) 3) as ->
      by (symmetry; apply (Z.land_ones _ 2); lia).
    change 0x30 with (Z.shiftl 3 4).
    rewrite Z.shiftl_land. apply Z.bits_inj'. intros i Hi.
    rewrite !Z.land_spec. destruct (Z_lt_le_dec i 4).
    - rewrite (Z.shiftl_spec_low 3) by lia. by rewrite !andb_false_r.
    - f_equal. rewrite Z.shiftl_spec_high, Z.shiftr_spec by lia. f_equal. lia. }
  rewrite Z.shiftl_mul_pow2 by lia. change (2 ^ 4) with 16.
  pose proof (Z.mod_pos_bound (Z.shiftr t 4) 4). lia.
Qed.

Lemma size_place sub_ok base size it f :
  field_in sub_ok base size it f →
  PB_HTYPE (type f) = PB_HTYPE_REPEATED ∨ PB_HTYPE (type f) = PB_HTYPE_ONEOF →
  place_ok base size (pSize it).
Proof. intros [] [E|E]; by rewrite E in *. Qed.

Lemma size_optional sub_ok base size it f :
  field_in sub_ok base size it f → PB_HTYPE (type f) = PB_HTYPE_OPTIONAL →
  ∃ a, pSize it = PMem a ∧ (a ≠ pData it → base ≤ a ∧ a + 1 ≤ base + size).
Proof. intros [] E; by rewrite E in *. Qed.
End ok.

(** ** Counts *)

Section counts.
Context (base size : Z).

Lemma wp_load_size p s :
  place_ok base size p → safe base size s →
  wp (load_size p) (λ v s', s' = s ∧ 0 ≤ v < 2 ^ 32) s.
Proof.
  intros Hp Hs. destruct p as [a|]; simpl in *.
  - apply wp_dload.
    + eapply mapped_sub; [by apply safe_mapped|lia|lia].
    + intros v Hv. split; [done|]. change (2 ^ 32) with (256 ^ Z.of_nat 4).
      eapply load_range; [|done]. by eapply safe_wf.
  - split; [done|]. by eapply safe_count.
Qed.

Lemma total_store_size p v : place_ok base size p → total base size (store_size p v).
Proof.
  intros Hp. destruct p as [a|]; simpl in *; [apply total_dstore; lia|].
  intros s Hs. unfold wp, set_fixed_count, get_state, put_state. run_unfold. split; [|done].
  pose proof (safe_left _ _ _ Hs). destruct Hs as [_ W _ _ _].
  constructor; simpl; [done|done|apply within_refl; lia|apply wrapu_range; lia].
Qed.

(** A count, and what depends on it. *)
Lemma total_load_size `{Result A} p (f : Z → dec A) :
  place_ok base size p → (∀ v, 0 ≤ v < 2 ^ 32 → total base size (f v)) →
  total base size (v ← load_size p; f v).
Proof.
  intros Hp Hf s Hs. apply wp_bind. eapply wp_mono; [by apply wp_load_size|].
  intros v s' [-> Hv]. by apply Hf.
Qed.

Lemma total_seq `{Result A} (c : dec unit) (k : dec A) :
  total base size c → total base size k → total base size (c;; k).
Proof. intros Hc Hk. by apply (total_bind base size c (λ _, k)). Qed.

Lemma total_lift `{Result A} {B} (o : option B) b (f : B → dec A) :
  o = Some b → total base size (f b) → total base size (lift_option o ≫= f).
Proof. intros -> Hf. done. Qed.

(** ** Loops over fields and items *)

Lemma total_fields (body : pb_field_iter_t → dec unit) fields dest n :
  field_count fields = Some n → (0 < n)%nat →
  (∀ k it, (k < n)%nat → iter_nth fields dest k = Some it → total base size (body it)) →
  total base size (for_fields body fields dest).
Proof.
  intros Hn Hpos Hbody s Hs. pose proof (field_count_terminated _ _ Hn) as Hterm.
  pose proof (terminated_length _ _ Hterm).
  destruct (begin_nth fields dest n Hterm) as (it0 & Hb & Hit0 & Hp0).
  unfold for_fields. rewrite Hb. rewrite bool_decide_eq_true_2 by done.
  apply wp_bind. eapply wp_lift_option; [done|]. cbn [negb].
  apply (wp_loop (λ it s', (∃ k, (k < n)%nat ∧ iter_nth fields dest k = Some it ∧ pos it = k) ∧
                           safe base size s' ∧ step base size s s')
                 (λ it _, Z.of_nat (n - pos it))).
  - split_and!; [by exists 0%nat|done|by apply step_refl].
  - lia.
  - intros it s1 ((k & Hk & Hit & Hp) & Hs1 & Hst) _. apply wp_bind.
    eapply wp_mono; [by eapply Hbody|]. intros [] s2 [Hst2 _].
    destruct (next_nth fields dest n Hterm k it Hk Hit) as (it' & Hnx & Hit' & Hp').
    rewrite Hnx. apply wp_bind. eapply wp_lift_option; [done|].
    pose proof (safe_step _ _ _ _ Hs1 Hst2). pose proof (step_trans _ _ _ _ _ Hst Hst2).
    apply wp_ret. destruct (decide (S k < n)%nat).
    + rewrite bool_decide_eq_true_2 by done.
      rewrite bool_decide_eq_false_2 in Hit', Hp' by lia.
      split_and!; [by exists (S k)|done|done|lia|lia].
    + by rewrite bool_decide_eq_false_2 by done.
Qed.

Lemma total_repeat n (body : Z → dec unit) :
  (∀ i, 0 ≤ i < n → total base size (body i)) → total base size (repeat_items n body).
Proof.
  intros Hbody. unfold repeat_items. intros s Hs.
  assert (∀ k i, 0 ≤ i → i + Z.of_nat k ≤ n → total base size
    (for_loop k i (λ i, body i;; mret true))) as Hloop.
  { induction k as [|k IH]; intros i Hi Hk; cbn [for_loop]; [by apply total_ret|].
    apply total_check; [apply total_seq; [apply Hbody; lia|by apply total_ret]|].
    apply IH; lia. }
  destruct (Z_lt_le_dec n 0).
  - replace (Z.to_nat n) with 0%nat by lia. by apply (total_ret base size tt).
  - eapply (wp_total_bind _ _ _ _ s (λ r s', reported r s')); [done|apply Hloop; [lia|lia|done]|].
    intros r s' Hs' _ _. by apply total_ret.
Qed.
End counts.

(** ** Default values and release *)

Section walks.
Context `{H : DecHost}.

Lemma total_store_default base size it f sub_ok :
  field_in sub_ok base size it f → (PB_LTYPE (type f) =? PB_LTYPE_SUBMESSAGE) = false →
  PB_HTYPE (type f) ≠ PB_HTYPE_REPEATED →
  total base size
    (match ptr f with
     | PtrNull => dmemset (pData it) 0 (data_size f)
     | PtrDefault bs =>
         if Z.of_nat (length bs) <? data_size f then undef
         else
           m ← get_dmem;
           m' ← lift_option (store_bytes m (pData it) (take (Z.to_nat (data_size f)) bs));
           set_dmem m'
     | PtrFields _ => undef
     end).
Proof.
  intros Hin Hl Hh. pose proof (single_in _ _ _ _ _ Hin Hh) as [Hlo Hhi].
  pose proof (in_ptr _ _ _ _ _ Hin) as Hp. rewrite Hl in Hp.
  pose proof (in_data_size _ _ _ _ _ Hin) as Hd.
  destruct (ptr f) as [|id|bs]; [by apply total_dmemset|done|].
  rewrite (proj2 (Z.ltb_ge _ _)) by done. intros s Hs.
  set (l := take _ bs).
  assert (Z.of_nat (length l) = data_size f) as El by (unfold l; rewrite length_take; lia).
  assert (mapped (d_mem s) (pData it) (Z.of_nat (length l))) as Hm.
  { eapply mapped_sub; [by apply safe_mapped|done|lia]. }
  destruct (store_bytes_spec _ _ _ Hm) as (m' & Hst & _).
  destruct (store_bytes_frame _ _ _ _ Hst Hm) as [Hf _].
  eapply wp_done.
  { run_with (run_get_dmem s). rewrite Hst. cbn. by rewrite run_set_dmem. }
  split; [|done]. apply (step_mem base size s m'); [done| |].
  - eapply frame_weaken; [exact Hf|lia|lia].
  - eapply store_bytes_wf; [|exact Hst]. by eapply safe_wf.
Qed.

(** The has or count member of a field that is reset. *)
Lemma total_reset base size it f sub_ok (k : bool → dec unit) :
  field_in sub_ok base size it f →
  (∀ b, (b = true → PB_HTYPE (type f) ≠ PB_HTYPE_REPEATED) → total base size (k b)) →
  total base size
    (init_data ←
       (if (PB_HTYPE (type f) =? PB_HTYPE_OPTIONAL)
           && bool_decide (pSize it ≠ PMem (pData it)) then
          match pSize it with
          | PMem a => dstore a 1 0;; mret true
          | PFixedCount => undef
          end
        else if (PB_HTYPE (type f) =? PB_HTYPE_REPEATED)
                || (PB_HTYPE (type f) =? PB_HTYPE_ONEOF) then
          store_size (pSize it) 0;; mret false
        else mret true);
     k init_data).
Proof.
  intros Hin Hk. destruct (htype_cases (type f)) as [E|[E|[E|E]]]; rewrite E in Hk |- *;
    cbn [Z.eqb Pos.eqb andb orb PB_HTYPE_REQUIRED PB_HTYPE_OPTIONAL PB_HTYPE_REPEATED
         PB_HTYPE_ONEOF] in *.
  - by apply (Hk true).
  - destruct (size_optional _ _ _ _ _ Hin E) as (a & Ea & Ha). rewrite Ea.
    case_bool_decide as Hne; [|by apply (Hk true)]. intros s Hs. rewrite bind_assoc_wp.
    apply (total_seq base size (dstore a 1 0) (k true)); [|by apply Hk|done].
    apply total_dstore; destruct Ha; try lia; congruence.
  - intros s Hs. rewrite bind_assoc_wp.
    apply (total_seq base size (store_size (pSize it) 0) (k false)); [|by apply Hk|done].
    apply total_store_size, (size_place _ _ _ _ _ Hin). by left.
  - intros s Hs. rewrite bind_assoc_wp.
    apply (total_seq base size (store_size (pSize it) 0) (k false)); [|by apply Hk|done].
    apply total_store_size, (size_place _ _ _ _ _ Hin). by right.
Qed.

(** The submessage of a field. *)
Lemma submsg_ok base size it f sub_ok :
  field_in sub_ok base size it f → (PB_LTYPE (type f) =? PB_LTYPE_SUBMESSAGE) = true →
  ∃ fields, submsg_fields dec_ro (ptr f) = Some fields ∧ sub_ok fields (data_size f).
Proof.
  intros Hin E. pose proof (in_ptr _ _ _ _ _ Hin) as Hp. rewrite E in Hp.
  destruct Hp as (id & fields & -> & ? & ?). eauto.
Qed.

(** A walk through the fields of a submessage. *)
Lemma total_submsg fuel (body : pb_field_iter_t → dec unit) fields dest ds base size :
  msg_ok fuel fields ds → base ≤ dest → dest + ds ≤ base + size → 0 ≤ ds →
  (∀ fuel' it f, fuel = S fuel' → iter_field it = Some f →
     field_in (msg_ok fuel') dest ds it f → total dest ds (body it)) →
  total base size (for_fields body fields dest).
Proof.
  destruct fuel as [|fuel]; [done|]. intros (n & Hn & Hpos & Hf) ??? Hbody.
  apply (total_weaken _ _ dest ds); [|done|done|done].
  eapply total_fields; [done|done|]. intros k it Hk Hit.
  destruct (nth_field fields dest n (field_count_terminated _ _ Hn) k it Hk Hit)
    as (f & _ & _ & Hfi).
  eapply Hbody; [done|done|by eapply Hf].
Qed.

Lemma total_set_default fuel base size it f :
  iter_field it = Some f → field_in (msg_ok fuel) base size it f →
  total base size (pb_field_set_to_default (S fuel) it).
Proof.
  revert base size it f. induction fuel as [|fuel IH]; intros base size it f Hf Hin;
    pose proof (in_ltype _ _ _ _ _ Hin) as [_ Hext]; apply Z.eqb_neq in Hext;
    cbn [pb_field_set_to_default]; (eapply total_lift; [exact Hf|]); cbv zeta;
    rewrite Hext, (in_static _ _ _ _ _ Hin), Z.eqb_refl;
    (eapply total_reset; [exact Hin|]); intros [] Hb; try (by apply total_ret);
    (destruct (PB_LTYPE (type f) =? PB_LTYPE_SUBMESSAGE) eqn:El;
      [|eapply total_store_default; [exact Hin|done|by apply Hb]]);
    destruct (submsg_ok _ _ _ _ _ Hin El) as (fields & Hfs & Hsub); [done|].
  eapply total_lift; [exact Hfs|].
  pose proof (single_in _ _ _ _ _ Hin (Hb eq_refl)) as [Hlo Hhi].
  eapply total_submsg; [exact Hsub|done|done|by eapply in_data_size|].
  intros fuel' it' f' [= <-] Hf' Hin'. by eapply IH.
Qed.

(** [pb_message_set_to_defaults] *)
Lemma total_set_defaults fuel fields dest ds base size :
  msg_ok fuel fields ds → base ≤ dest → dest + ds ≤ base + size → 0 ≤ ds →
  total base size (pb_message_set_to_defaults fuel fields dest).
Proof.
  intros Hm ???. eapply total_submsg; [done|done|done|done|].
  intros fuel' it f -> Hf Hin. by eapply total_set_default.
Qed.

Lemma wp_release_count base size it f sub_ok s :
  field_in sub_ok base size it f → safe base size s →
  wp (release_count it f) (λ c s', s' = s ∧ 0 ≤ c ≤ capacity f) s.
Proof.
  intros Hin Hs. unfold release_count, capacity.
  destruct (Z.eqb_spec (PB_HTYPE (type f)) PB_HTYPE_REPEATED) as [E|E]; [|apply wp_ret; split; [done|lia]].
  rewrite (in_static _ _ _ _ _ Hin), Z.eqb_refl. cbn [andb]. cbv zeta.
  pose proof (in_array_size _ _ _ _ _ Hin) as Ha.
  apply wp_bind, (wp_mono _ (λ c s', s' = s ∧ 0 ≤ c < 2 ^ 32)).
  - case_bool_decide; [by apply wp_ret|].
    apply (wp_load_size base size); [|done]. apply (size_place _ _ _ _ _ Hin). by left.
  - intros c s' [-> Hc]. apply wp_ret. split; [done|].
    destruct (Z.ltb_spec (array_size f) c); lia.
Qed.

(** Is the member of the union the current one? *)
Lemma total_not_current base size it f sub_ok (k : bool → dec unit) :
  field_in sub_ok base size it f → (∀ b, total base size (k b)) →
  total base size
    (not_current ←
       (if PB_HTYPE (type f) =? PB_HTYPE_ONEOF then
          which ← load_size (pSize it); mret (negb (which =? tag f))
        else mret false);
     k not_current).
Proof.
  intros Hin Hk. destruct (Z.eqb_spec (PB_HTYPE (type f)) PB_HTYPE_ONEOF) as [E|E]; [|apply Hk].
  intros s Hs. rewrite bind_assoc_wp.
  apply (total_load_size base size (pSize it)
    (λ which, k (negb (which =? tag f)))); [|intros; apply Hk|done].
  apply (size_place _ _ _ _ _ Hin). by right.
Qed.

Lemma total_release fuel base size it f :
  iter_field it = Some f → field_in (msg_ok fuel) base size it f →
  total base size (pb_release_single_field (S fuel) it).
Proof.
  revert base size it f. induction fuel as [|fuel IH]; intros base size it f Hf Hin;
    pose proof (in_ltype _ _ _ _ _ Hin) as [_ Hext]; apply Z.eqb_neq in Hext;
    cbn [pb_release_single_field]; (eapply total_lift; [exact Hf|]); cbv zeta;
    rewrite Hext, (in_static _ _ _ _ _ Hin);
    change (PB_ATYPE_STATIC =? PB_ATYPE_POINTER) with false; cbv beta iota;
    (apply (total_not_current base size it f _ _ Hin)); intros []; try (by apply total_ret);
    (apply total_seq; [|by apply total_ret]);
    (destruct (PB_LTYPE (type f) =? PB_LTYPE_SUBMESSAGE) eqn:El; [|by apply total_ret]);
    destruct (submsg_ok _ _ _ _ _ Hin El) as (fields & Hfs & Hsub); [done|].
  intros s Hs. apply wp_bind, wp_ret.
  eapply wp_total_bind with (Q := λ c s', 0 ≤ c ≤ capacity f); [done| |].
  { eapply wp_mono; [by eapply wp_release_count|]. intros c s' [-> Hc].
    split; [by apply step_refl|done]. }
  intros c s' Hs' _ Hc. wp_if E; [by apply total_ret|].
  apply (total_repeat base size); [|done]. intros i Hi.
  eapply total_lift; [exact Hfs|]. total_if E0; [by apply total_ret|].
  destruct (item_in _ _ _ _ _ i Hin) as (H1 & H2 & H3); [lia|].
  eapply total_submsg; [exact Hsub|lia|lia|by eapply in_data_size|].
  intros fuel' it' f' [= <-] Hf' Hin'. by eapply IH.
Qed.

(** [pb_release] *)
Lemma total_pb_release fuel fields dest ds base size :
  msg_ok fuel fields ds → base ≤ dest → dest + ds ≤ base + size → 0 ≤ ds →
  total base size (pb_release fuel fields dest).
Proof.
  intros Hm ???. unfold pb_release. destruct (dest =? NULL); [by apply total_ret|].
  eapply total_submsg; [done|done|done|done|].
  intros fuel' it f -> Hf Hin. by eapply total_release.
Qed.
End walks.

(** [pb_decode], over the function that decodes the fields. *)
Lemma total_decode_with `{H : DecHost} rec depth fields dest ds :
  msg_ok depth fields ds → 0 ≤ ds → total dest ds (rec fields dest) →
  total dest ds (pb_decode_with rec depth fields dest).
Proof.
  intros Hm ? Hrec. unfold pb_decode_with.
  apply total_seq; [apply (total_set_defaults depth _ _ ds dest ds Hm); lia|].
  intros s Hs. eapply wp_total_bind with (Q := λ r s', reported r s'); [done|by apply Hrec|].
  intros [] s' Hs' _ Hr; [by apply total_ret|].
  eapply wp_total_bind with (Q := λ _ s'', step dest ds s' s''); [done| |].
  - eapply wp_mono; [apply (total_pb_release depth fields dest ds dest ds Hm); [lia|lia|lia|done]|].
    by intros [] s'' [? _].
  - intros [] s'' Hs'' _ Hst. apply wp_ret. split; [by apply step_refl|].
    intros _. eapply within_errmsg; [by eapply step_within|]. by apply Hr.
Qed.

(** ** Values *)

Section values.
Context `{H : DecHost}.
Context (fuel : nat) (rec : list pb_field_t → Z → dec bool).
Context (Hrec : ∀ fields dest ds, msg_ok fuel fields ds → total dest ds (rec fields dest)).
Context (base size : Z).

(** The numbers. *)
Lemma number_varint s :
  safe base size s → wp pb_decode_varint (λ r s', step base size s s' ∧
     match r with
     | Some _ => bytes_left (d_in s') < bytes_left (d_in s)
     | None => is_Some (errmsg (d_in s'))
     end) s.
Proof.
  intros Hs. eapply wp_mono; [by apply wp_decode_varint|].
  intros [v|] s' [? HQ]; (split; [done|]); [by destruct HQ|done].
Qed.

(** A length: at most 2^32 - 1. *)
Lemma total_length (k : Z → dec bool) :
  (∀ v, 0 ≤ v < 2 ^ 32 → total base size (k v)) →
  total base size (v ← pb_decode_varint32; match v with None => mret false | Some v => k v end).
Proof.
  intros Hk s Hs. eapply (wp_total_bind _ _ _ _ s (λ r s', read_value 32 s r s'));
    [done|by apply wp_decode_varint32|].
  intros [v|] s' Hs' _ HQ; [apply Hk; [by destruct HQ|done]|].
  apply wp_ret. split; [by apply step_refl|by intros _].
Qed.

Lemma total_clamped conv f dest v :
  base ≤ dest → dest + data_size f ≤ base + size →
  total base size (clamped ← store_clamped conv f dest v; check_clamped clamped v).
Proof.
  intros Hlo Hhi s Hs.
  assert (∀ k c, data_size f = Z.of_nat k →
    wp (dstore dest k v;; mret (Some (c : Z)))
      (λ r s', step base size s s' ∧ True) s) as Hst.
  { intros k c Ek. apply wp_bind. eapply wp_mono; [apply (total_dstore base size dest k v)|];
      [done|lia|done|]. intros [] s' [Hst _]. by apply wp_ret. }
  eapply wp_total_bind with (Q := λ _ _, True); [done| |].
  - unfold store_clamped.
    destruct (Z.eqb_spec (data_size f) 8); [by apply (Hst 8%nat)|].
    destruct (Z.eqb_spec (data_size f) 4); [by apply (Hst 4%nat)|].
    destruct (Z.eqb_spec (data_size f) 2); [by apply (Hst 2%nat)|].
    destruct (Z.eqb_spec (data_size f) 1); [by apply (Hst 1%nat)|].
    apply wp_ret. split; [by apply step_refl|done].
  - intros [c|] s' Hs' _ _; unfold check_clamped; [|by apply total_error].
    destruct (negb (c =? v)); [by apply total_error|by apply total_ret].
Qed.

Lemma eats_dec_varint f dest :
  base ≤ dest → dest + data_size f ≤ base + size → eats base size (pb_dec_varint f dest).
Proof.
  intros. unfold pb_dec_varint. apply eats_read; [apply number_varint|].
  intros v. by apply total_clamped.
Qed.

Lemma eats_dec_uvarint f dest :
  base ≤ dest → dest + data_size f ≤ base + size → eats base size (pb_dec_uvarint f dest).
Proof.
  intros. unfold pb_dec_uvarint. apply eats_read; [apply number_varint|].
  intros v. by apply total_clamped.
Qed.

Lemma eats_dec_svarint f dest :
  base ≤ dest → dest + data_size f ≤ base + size → eats base size (pb_dec_svarint f dest).
Proof.
  intros. unfold pb_dec_svarint. apply eats_read; [apply wp_decode_svarint|].
  intros v. by apply total_clamped.
Qed.

Lemma total_dec_bytes f dest :
  PB_ATYPE (type f) = PB_ATYPE_STATIC →
  base ≤ dest → dest + data_size f ≤ base + size → total base size (pb_dec_bytes f dest).
Proof.
  intros Hst ??. unfold pb_dec_bytes. apply total_length. intros v Hv.
  total_if E1; [by apply total_error|]. total_if E2; [by apply total_error|].
  rewrite Hst. change (PB_ATYPE_STATIC =? PB_ATYPE_POINTER) with false. cbv beta iota.
  unfold PB_BYTES_ARRAY_T_ALLOCSIZE in *. rewrite wrapu_small in *
    by (unfold bytes_array_bytes; pow2; lia).
  destruct (Z.ltb_spec (data_size f) (v + bytes_array_bytes)); [by apply total_error|].
  unfold bytes_array_bytes, bytes_array_size in *.
  apply total_seq; [apply total_dstore; lia|apply total_read_mem; lia].
Qed.

Lemma total_dec_string f dest :
  PB_ATYPE (type f) = PB_ATYPE_STATIC →
  base ≤ dest → dest + data_size f ≤ base + size → total base size (pb_dec_string f dest).
Proof.
  intros Hst ??. unfold pb_dec_string. apply total_length. intros v Hv. cbv zeta.
  destruct (Z.ltb_spec (u32 (v + 1)) v) as [E1|E1]; [by apply total_error|].
  assert (u32 (v + 1) = v + 1) as E.
  { destruct (decide (v = 2 ^ 32 - 1)) as [->|]; [by vm_compute in E1|apply wrapu_small; lia]. }
  rewrite E, Hst. change (PB_ATYPE_STATIC =? PB_ATYPE_POINTER) with false. cbv beta iota.
  destruct (Z.ltb_spec (data_size f) (v + 1)); [by apply total_error|].
  intros s Hs. eapply wp_total_bind with (Q := λ r s', reported r s'); [done| |].
  { apply (total_read_mem base size dest v); [lia|lia|lia|done]. }
  intros r s' Hs' _ Hr. apply wp_bind.
  destruct (store_spec (d_mem s') (dest + v) 1 0) as (m' & Hm & _).
  { eapply mapped_sub; [by apply safe_mapped|lia|lia]. }
  pose proof (total_dstore base size (dest + v) 1 0 ltac:(lia) ltac:(lia) s' Hs') as Hd.
  unfold wp in Hd. rewrite (run_dstore _ _ _ s' m' Hm) in Hd. destruct Hd as [Hd _].
  eapply wp_done; [by apply run_dstore|]. by apply wp_ret.
Qed.

Lemma total_dec_fixed_length_bytes f dest :
  0 ≤ data_size f → base ≤ dest → dest + data_size f ≤ base + size →
  total base size (pb_dec_fixed_length_bytes f dest).
Proof.
  intros ???. unfold pb_dec_fixed_length_bytes. apply total_length. intros v Hv.
  total_if E1; [by apply total_error|].
  total_if E2; [apply total_seq; [by apply total_dmemset|by apply total_ret]|].
  total_if E3; [by apply total_error|]. by apply total_read_mem.
Qed.

(** The end of a substream. *)
Lemma wp_close_status b n s s1 sub sub' s2 (r : bool) :
  safe b n s → step b n s s1 → opened (d_in s) (d_in s1) sub →
  step b n (with_in sub s1) (with_in sub' s2) → d_in s2 = d_in s1 →
  reported r (with_in sub' s2) →
  wp (check! pb_close_string_substream sub'; mret r)
    (λ r' s', step b n s s' ∧ reported r' s') s2.
Proof.
  intros Hs Hst1 Ho Hst2 Hin Hr. apply wp_check.
  eapply wp_mono; [by eapply wp_close_substream|]. intros ok s' (Hst & -> & He & _).
  apply wp_ret. split; [done|]. intros Hr'. rewrite He. by apply Hr.
Qed.

Lemma total_dec_submessage f dest fields b n :
  submsg_fields dec_ro (ptr f) = Some fields → msg_ok fuel fields (data_size f) →
  0 ≤ data_size f → b ≤ dest → dest + data_size f ≤ b + n →
  total b n (pb_dec_submessage rec (S fuel) f dest).
Proof.
  intros Hf Hm ??? s Hs. unfold pb_dec_submessage. apply wp_bind.
  eapply wp_mono; [by apply wp_make_substream|]. intros [sub|] s1 [Hst1 HQ];
    [|apply wp_ret; split; [done|by intros _]].
  destruct HQ as [Ho _].
  assert (∀ (A : Type) (x y : dec A), match ptr f with PtrNull => x | _ => y end = y) as Hptr.
  { intros. by destruct (ptr f). }
  destruct (ptr f) as [|id|bs] eqn:Ep; [done| |done].
  apply wp_bind. eapply wp_lift_option; [exact Hf|].
  apply wp_substream with (a := b) (n := n) (s := s) (sub := sub); [done|done|done| |].
  - apply (total_weaken b n dest (data_size f)); [|done|done|done].
    destruct (_ =? PB_HTYPE_REPEATED); [|by apply Hrec].
    apply total_decode_with; [by apply msg_ok_S|done|by apply Hrec].
  - intros r sub' s2 Hin Hst2 Hr. by eapply wp_close_status.
Qed.

(** The types of static fields. *)
Lemma ltype_cases t :
  PB_LTYPE t ≤ 9 → PB_LTYPE t ≠ PB_LTYPE_EXTENSION →
  PB_LTYPE t ∈ [PB_LTYPE_VARINT; PB_LTYPE_UVARINT; PB_LTYPE_SVARINT; PB_LTYPE_FIXED32;
    PB_LTYPE_FIXED64; PB_LTYPE_BYTES; PB_LTYPE_STRING; PB_LTYPE_SUBMESSAGE;
    PB_LTYPE_FIXED_LENGTH_BYTES].
Proof.
  unfold PB_LTYPE, PB_LTYPE_MASK, PB_LTYPE_EXTENSION. rewrite land_F. intros H9 H8.
  rewrite !elem_of_cons. pose proof (Z.mod_pos_bound t 16).
  unfold PB_LTYPE_VARINT, PB_LTYPE_UVARINT, PB_LTYPE_SVARINT, PB_LTYPE_FIXED32,
    PB_LTYPE_FIXED64, PB_LTYPE_BYTES, PB_LTYPE_STRING, PB_LTYPE_SUBMESSAGE,
    PB_LTYPE_FIXED_LENGTH_BYTES. lia.
Qed.

(** The decoders of the types that can be packed. *)
Lemma eats_value sub_ok it f func dest :
  field_in sub_ok base size it f → PB_LTYPE (type f) ≤ PB_LTYPE_LAST_PACKABLE →
  PB_DECODERS rec (S fuel) !! Z.to_nat (PB_LTYPE (type f)) = Some func →
  base ≤ dest → dest + data_size f ≤ base + size →
  eats base size (call_decoder func f dest).
Proof.
  intros Hin Hl Hfunc Hlo Hhi. unfold PB_LTYPE_LAST_PACKABLE in Hl.
  destruct (in_ltype _ _ _ _ _ Hin) as [H9 H8]. destruct (in_fixed _ _ _ _ _ Hin) as [H32 H64].
  pose proof (ltype_cases _ H9 H8) as Hc.
  repeat (apply elem_of_cons in Hc as [Hc|Hc]); try (by apply elem_of_nil in Hc);
    rewrite Hc in *; try done; injection Hfunc as <-; cbn [call_decoder].
  - by apply eats_dec_varint.
  - by apply eats_dec_uvarint.
  - by apply eats_dec_svarint.
  - specialize (H32 eq_refl). apply eats_decode_fixed32; lia.
  - specialize (H64 eq_refl). apply eats_decode_fixed64; lia.
Qed.

(** Every field decoder. *)
Lemma total_value it f func dest :
  field_in (msg_ok fuel) base size it f →
  PB_DECODERS rec (S fuel) !! Z.to_nat (PB_LTYPE (type f)) = Some func →
  base ≤ dest → dest + data_size f ≤ base + size →
  total base size (call_decoder func f dest).
Proof.
  intros Hin Hfunc Hlo Hhi. pose proof (in_data_size _ _ _ _ _ Hin) as Hd.
  destruct (Z_le_gt_dec (PB_LTYPE (type f)) PB_LTYPE_LAST_PACKABLE) as [Hl|Hl].
  { by apply eats_total, (eats_value _ _ _ _ _ Hin). }
  destruct (in_ltype _ _ _ _ _ Hin) as [H9 H8].
  pose proof (in_static _ _ _ _ _ Hin) as Hst.
  destruct (PB_LTYPE (type f) =? PB_LTYPE_SUBMESSAGE) eqn:El.
  { destruct (submsg_ok _ _ _ _ _ Hin El) as (fields & Hfs & Hsub).
    apply Z.eqb_eq in El. rewrite El in Hfunc. injection Hfunc as <-.
    by eapply total_dec_submessage. }
  pose proof (ltype_cases _ H9 H8) as Hc.
  repeat (apply elem_of_cons in Hc as [Hc|Hc]); try (by apply elem_of_nil in Hc);
    rewrite Hc in *; try done; injection Hfunc as <-; cbn [call_decoder].
  - by apply total_dec_bytes.
  - by apply total_dec_string.
  - by apply total_dec_fixed_length_bytes.
Qed.
End values.

(** ** Static fields *)

Section static.
Context `{H : DecHost}.
Context (fuel : nat) (rec : list pb_field_t → Z → dec bool).
Context (Hrec : ∀ fields dest ds, msg_ok fuel fields ds → total dest ds (rec fields dest)).
Context (base size : Z).

Lemma decoders_lookup it f :
  field_in (msg_ok fuel) base size it f →
  ∃ func, PB_DECODERS rec (S fuel) !! Z.to_nat (PB_LTYPE (type f)) = Some func.
Proof.
  intros Hin. destruct (in_ltype _ _ _ _ _ Hin) as [H9 _]. apply lookup_lt_is_Some_2.
  unfold PB_LTYPE, PB_LTYPE_MASK in *. rewrite land_F in *.
  pose proof (Z.mod_pos_bound (type f) 16). simpl. lia.
Qed.

Lemma item_address_small sub_ok it f i :
  field_in sub_ok base size it f → 0 ≤ i < capacity f →
  item_address (pData it) f i = pData it + data_size f * i.
Proof.
  intros Hin Hi. destruct (item_in _ _ _ _ _ i Hin Hi) as (_ & _ & ?).
  unfold item_address. by rewrite wrapu_small.
Qed.

(** The packed array: items while there are bytes and room. *)
Lemma total_packed it f func :
  field_in (msg_ok fuel) base size it f →
  PB_HTYPE (type f) = PB_HTYPE_REPEATED → PB_LTYPE (type f) ≤ PB_LTYPE_LAST_PACKABLE →
  PB_DECODERS rec (S fuel) !! Z.to_nat (PB_LTYPE (type f)) = Some func →
  total base size
    (loop LOOP_MAX (λ _ : unit,
       sub ← get_in;
       size ← load_size (pSize it);
       if (0 <? bytes_left sub) && (size <? array_size f) then
         ok ← call_decoder func f (item_address (pData it) f size);
         if negb ok then mret (inr false)
         else
           size ← load_size (pSize it);
           store_size (pSize it) (u32 (size + 1));;
           mret (inl tt)
       else mret (inr true)) tt).
Proof.
  intros Hin Hh Hl Hfunc s Hs.
  pose proof (size_place _ _ _ _ _ Hin (or_introl Hh)) as Hp.
  apply (wp_reading_loop base size (λ _ : unit, True)); [done|done|].
  intros [] s1 _ Hs1 _. apply wp_bind, (wp_done _ _ _ (d_in s1) s1 (run_get_in s1)).
  apply wp_bind. eapply wp_mono; [by apply (wp_load_size base size)|].
  intros v s1' [-> Hv].
  destruct (Z.ltb_spec v (array_size f)) as [Hlt|Hge];
    [|rewrite andb_false_r; apply wp_ret; split; [by apply step_refl|done]].
  wp_if E; [|apply wp_ret; split; [by apply step_refl|done]].
  rewrite <-(capacity_repeated f Hh) in Hlt.
  rewrite (item_address_small (msg_ok fuel) it f v) by (done || lia).
  destruct (item_in _ _ _ _ _ v Hin) as (H1 & H2 & _); [lia|].
  apply wp_bind. eapply wp_mono; [by apply (eats_value fuel rec base size _ _ _ _ _ Hin)|].
  intros [] s2 (Hst2 & Hr & Heat); cbn [negb]; [|apply wp_ret; by split].
  pose proof (safe_step _ _ _ _ Hs1 Hst2) as Hs2. apply wp_bind.
  eapply wp_mono; [by apply (wp_load_size base size)|]. intros v' s2' [-> Hv'].
  apply wp_bind. eapply wp_mono; [by apply (total_store_size base size)|].
  intros [] s3 [Hst3 _]. apply wp_ret. split; [by eapply step_trans|]. split; [done|].
  specialize (Heat eq_refl). destruct (step_within _ _ _ _ Hst3) as [_ _ ? _ _]. lia.
Qed.

Lemma total_static_repeated wt it f func :
  field_in (msg_ok fuel) base size it f → PB_HTYPE (type f) = PB_HTYPE_REPEATED →
  PB_DECODERS rec (S fuel) !! Z.to_nat (PB_LTYPE (type f)) = Some func →
  total base size
    (if (wt =? PB_WT_STRING) && (PB_LTYPE (type f) <=? PB_LTYPE_LAST_PACKABLE)
     then
       osub ← pb_make_string_substream;
       match osub with
       | None => mret false
       | Some substream =>
           '(status, substream) ← on_istream substream
             (loop LOOP_MAX (λ _ : unit,
                sub ← get_in;
                size ← load_size (pSize it);
                if (0 <? bytes_left sub) && (size <? array_size f) then
                  ok ← call_decoder func f (item_address (pData it) f size);
                  if negb ok then mret (inr false)
                  else
                    size ← load_size (pSize it);
                    store_size (pSize it) (u32 (size + 1));;
                    mret (inl tt)
                else mret (inr true)) tt);
           if negb (bytes_left substream =? 0) then i_return_error "array overflow"
           else check! pb_close_string_substream substream; mret status
       end
     else
       size ← load_size (pSize it);
       let pItem := item_address (pData it) f size in
       store_size (pSize it) (u32 (size + 1));;
       if array_size f <=? size then i_return_error "array overflow"
       else call_decoder func f pItem).
Proof.
  intros Hin Hh Hfunc. pose proof (size_place _ _ _ _ _ Hin (or_introl Hh)) as Hp.
  total_if E.
  - apply andb_true_iff in E as [_ Hl%Z.leb_le]. intros s Hs.
    apply wp_bind. eapply wp_mono; [by apply (wp_make_substream base size)|].
    intros [sub|] s1 [Hst1 HQ]; [|apply wp_ret; split; [done|by intros _]].
    destruct HQ as [Ho _].
    apply (wp_substream base size s s1 sub); [done|done|done|by apply total_packed|].
    intros r sub' s2 Hin2 Hst2 Hr. wp_if E; [|by eapply wp_close_status].
    unfold wp. change (i_return_error _ s2) with (Done (false, fail_with "array overflow" s2)).
    split; [|apply reported_fail]. apply step_fail_with.
    destruct Hst1 as [F1 W1 I1 C1]. destruct Hst2 as [F2 W2 I2 C2]. simpl in *.
    constructor; [by transitivity (d_mem s1)|done|by rewrite Hin2|done].
  - apply total_load_size; [done|]. intros v Hv. cbv zeta.
    apply total_seq; [by apply total_store_size|].
    destruct (Z.leb_spec (array_size f) v); [by apply total_error|].
    rewrite <-(capacity_repeated f Hh) in *.
    rewrite (item_address_small (msg_ok fuel) it f v) by (done || lia).
    destruct (item_in _ _ _ _ _ v Hin) as (H1 & H2 & _); [lia|].
    by eapply total_value.
Qed.

Lemma total_static wt it f :
  iter_field it = Some f → field_in (msg_ok fuel) base size it f →
  total base size (decode_static_field rec (S fuel) wt it).
Proof.
  intros Hf Hin. unfold decode_static_field. eapply total_lift; [exact Hf|].
  destruct (decoders_lookup it f Hin) as [func Hfunc]. unfold decoder_of. intros s Hs.
  rewrite bind_assoc_wp. apply wp_bind. eapply wp_lift_option; [exact Hfunc|].
  apply wp_bind, wp_ret. cbv zeta. revert s Hs.
  change (total base size ?c) with (∀ s, safe base size s → wp c
    (λ r s', step base size s s' ∧ reported r s') s).
  pose proof (λ dest, total_value fuel rec Hrec base size it f func dest Hin Hfunc) as Hval.
  destruct (Z.eqb_spec (PB_HTYPE (type f)) PB_HTYPE_REQUIRED) as [E|E1].
  { destruct (single_in _ _ _ _ _ Hin) as [? ?]; [by rewrite E|]. by apply Hval. }
  destruct (Z.eqb_spec (PB_HTYPE (type f)) PB_HTYPE_OPTIONAL) as [E|E2].
  { destruct (single_in _ _ _ _ _ Hin) as [? ?]; [by rewrite E|].
    apply total_seq; [|by apply Hval].
    destruct (size_optional _ _ _ _ _ Hin E) as (a & Ea & Ha). rewrite Ea.
    case_bool_decide as Hne; [|by apply total_ret].
    apply total_dstore; destruct Ha; try lia; congruence. }
  destruct (Z.eqb_spec (PB_HTYPE (type f)) PB_HTYPE_REPEATED) as [E|E3].
  { by apply total_static_repeated. }
  destruct (htype_cases (type f)) as [|[|[|E]]]; [done..|].
  destruct (single_in _ _ _ _ _ Hin) as [Hlo Hhi]; [by rewrite E|].
  apply total_seq; [apply total_store_size, (size_place _ _ _ _ _ Hin); by right|].
  apply total_seq; [|by apply Hval].
  destruct (PB_LTYPE (type f) =? PB_LTYPE_SUBMESSAGE) eqn:El; [|by apply total_ret].
  destruct (submsg_ok _ _ _ _ _ Hin El) as (fields & Hfs & Hsub).
  pose proof (in_data_size _ _ _ _ _ Hin).
  apply total_seq; [by apply total_dmemset|]. eapply total_lift; [exact Hfs|].
  eapply total_set_defaults; [by apply msg_ok_S|done|done|done].
Qed.
End static.

(** ** The loop of pb_decode_noinit *)

(** An iterator whose size pointer was redirected to [fixed_count_size]. *)
Definition counting (it : pb_field_iter_t) : pb_field_iter_t :=
  PbFieldIter (start it) (pos it) (required_field_index it) (dest_struct it) (pData it)
    PFixedCount.

(** Only a step inside of a union looks at the size pointer. *)
Lemma next_counting it f :
  iter_field it = Some f → PB_HTYPE (type f) = PB_HTYPE_REPEATED →
  pb_field_iter_next (counting it) = if tag f =? 0 then Some (false, counting it)
                                     else pb_field_iter_next it.
Proof.
  intros Hf E. unfold pb_field_iter_next. unfold iter_field in *. cbn [counting start pos].
  rewrite Hf. cbn. destruct (tag f =? 0); [done|].
  destruct (start it !! S (pos it)); [|done]. cbn. by rewrite E.
Qed.

Section noinit.
Context `{H : DecHost}.
Context (fuel : nat) (rec : list pb_field_t → Z → dec bool).
Context (Hrec : ∀ fields dest ds, msg_ok fuel fields ds → total dest ds (rec fields dest)).
Context (fields : list pb_field_t) (base size : Z) (n : nat).
Context (Hcount : field_count fields = Some n) (Hpos : (0 < n)%nat).
Context (Hfields : ∀ k it f, (k < n)%nat → iter_nth fields base k = Some it →
  iter_field it = Some f → field_in (msg_ok fuel) base size it f).

(** The iterators of a run: those of the array, or one that counts the items of a
    repeated field. *)
Definition at_field (it : pb_field_iter_t) : Prop :=
  ∃ k it0 f, (k < n)%nat ∧ iter_nth fields base k = Some it0 ∧ pos it0 = k ∧
    iter_field it0 = Some f ∧ tag f ≠ 0 ∧
    (it = it0 ∨ (it = counting it0 ∧ PB_HTYPE (type f) = PB_HTYPE_REPEATED)).

Lemma at_nth k it : (k < n)%nat → iter_nth fields base k = Some it → at_field it.
Proof.
  intros Hk Hit. pose proof (field_count_terminated _ _ Hcount) as Hterm.
  destruct (nth_field fields base n Hterm k it Hk Hit) as (f & _ & Ht & Hf).
  destruct (nth_spec fields base n Hterm k Hk) as (it' & Hit' & Hp).
  exists k, it, f. split_and!; [done|done|congruence|done|done|by left].
Qed.

Lemma at_field_in it :
  at_field it → ∃ f, iter_field it = Some f ∧ tag f ≠ 0 ∧ start it = fields ∧
                     field_in (msg_ok fuel) base size it f.
Proof.
  intros (k & it0 & f & Hk & Hit & Hp & Hf & Ht & Hcase).
  pose proof (Hfields k it0 f Hk Hit Hf) as Hin.
  destruct (iter_nth_start _ _ _ _ Hit) as [Hst _].
  exists f. destruct Hcase as [->|[-> E]]; [done|].
  split_and!; [done|done|done|]. destruct Hin. constructor; try done. by rewrite E.
Qed.

(** Searches stay among them. *)
Lemma search_at found it :
  at_field it →
  ∃ b it', iter_search found (pos it) (length (start it)) it = Done (b, it') ∧ at_field it' ∧
    (b = true → ∃ f, iter_field it' = Some f ∧ found f = true) ∧
    (b = false → ∀ j, (j < n)%nat → ¬ matches fields found j).
Proof.
  intros Hat. pose proof Hat as (k & it0 & f & Hk & Hit & Hp & Hf & Ht & Hcase).
  pose proof (field_count_terminated _ _ Hcount) as Hterm.
  assert (∃ b it', iter_search found (pos it0) (length (start it0)) it0 = Done (b, it') ∧
    at_field it' ∧ (b = true → ∃ f, iter_field it' = Some f ∧ found f = true) ∧
    (b = false → ∀ j, (j < n)%nat → ¬ matches fields found j)) as Hplain.
  { destruct (search_nth fields base n Hterm found k it0 Hk Hit)
      as [(j & it' & Hj & (g & Hg & Hfg) & Hit' & Hs)|[Hno Hs]].
    - exists true, it'. split_and!; [done|by eapply at_nth| |done]. intros _.
      destruct (nth_field fields base n Hterm j it' Hj Hit') as (g' & Hg' & _ & Hfi).
      exists g'. split; [done|]. congruence.
    - exists false, it0. split_and!; [done|by eapply at_nth|done|done]. }
  destruct Hcase as [->|[-> E]]; [done|].
  destruct (found f) eqn:Ef.
  - exists true, (counting it0). split_and!; [|done|by exists f|done].
    pose proof (terminated_length _ _ Hterm). destruct (iter_nth_start _ _ _ _ Hit) as [Hst _].
    cbn [counting start]. rewrite Hst. destruct (length fields) as [|m]; [lia|].
    cbn [iter_search]. unfold iter_field in *. cbn [counting start pos]. by rewrite Hf, Ef.
  - destruct Hplain as (b & it' & Hs & Hrest). exists b, it'. split; [|done].
    rewrite <-Hs. cbn [counting start pos].
    destruct (length (start it0)) as [|m]; [done|]. cbn [iter_search].
    assert (iter_field (counting it0) = Some f) as -> by done. rewrite Hf, Ef.
    rewrite (next_counting it0 f Hf E). by rewrite (proj2 (Z.eqb_neq (tag f) 0)).
Qed.

Lemma wp_find {A} found it (k : bool * pb_field_iter_t → dec A) (Q : A → dstate → Prop) s :
  at_field it →
  (∀ b it', at_field it' → (b = true → ∃ f, iter_field it' = Some f ∧ found f = true) →
     wp (k (b, it')) Q s) →
  wp (r ← lift_outcome (iter_search found (pos it) (length (start it)) it); k r) Q s.
Proof.
  intros Hat Hk. destruct (search_at found it Hat) as (b & it' & -> & Hat' & Hb & _).
  by apply wp_bind, wp_ret, Hk.
Qed.

(** What functions that move the iterator give. *)
Definition moved (s : dstate) (r : bool * pb_field_iter_t) (s' : dstate) : Prop :=
  step base size s s' ∧ at_field r.2 ∧ reported r.1 s'.

Lemma moved_error s it msg :
  safe base size s → at_field it →
  wp (ok ← i_return_error msg; mret (ok, it)) (moved s) s.
Proof.
  intros Hs Hit. unfold wp.
  change ((ok ← i_return_error msg; mret (ok, it)) s) with (Done ((false, it), fail_with msg s)).
  split_and!; [by apply step_fail_with, step_refl|done|apply reported_fail].
Qed.

Lemma wp_release_union it f s :
  at_field it → iter_field it = Some f → PB_HTYPE (type f) = PB_HTYPE_ONEOF →
  safe base size s →
  wp (pb_release_union_field (S fuel) it) (moved s) s.
Proof.
  intros Hat Hf Hh Hs. unfold pb_release_union_field.
  apply wp_bind. eapply wp_lift_option; [exact Hf|].
  destruct (at_field_in it Hat) as (f' & Hf' & _ & _ & Hin).
  assert (f' = f) as -> by congruence.
  apply wp_bind. eapply wp_mono.
  { apply (wp_load_size base size); [|done]. apply (size_place _ _ _ _ _ Hin). by right. }
  intros old s' [-> Hold]. cbv zeta.
  assert (moved s (true, it) s) as Hsame by (split_and!; [by apply step_refl|done|done]).
  wp_if E1; [by apply wp_ret|]. wp_if E2; [by apply wp_ret|].
  unfold pb_field_iter_find. apply wp_find; [done|]. intros b it1 Hat1 _.
  destruct b; cbn [negb]; [|by apply moved_error].
  destruct (at_field_in it1 Hat1) as (f1 & Hf1 & _ & _ & Hin1).
  apply wp_bind. eapply wp_mono; [by eapply (total_release fuel base size)|].
  intros [] s1 [Hst1 _]. pose proof (safe_step _ _ _ _ Hs Hst1).
  apply wp_find; [done|]. intros b it2 Hat2 _.
  destruct b; cbn [negb]; [apply wp_ret; by split_and!|].
  eapply wp_mono; [by apply moved_error|]. intros r s2 (Hst2 & ? & ?).
  split_and!; [by eapply step_trans|done|done].
Qed.

Lemma wp_decode_field wt it s :
  at_field it → safe base size s →
  wp (decode_field rec (S fuel) wt it) (moved s) s.
Proof.
  intros Hat Hs. destruct (at_field_in it Hat) as (f & Hf & _ & _ & Hin).
  unfold decode_field. apply wp_bind. eapply wp_lift_option; [exact Hf|].
  apply wp_bind, (wp_mono _ (moved s)).
  { destruct (Z.eqb_spec (PB_HTYPE (type f)) PB_HTYPE_ONEOF); [by eapply wp_release_union|].
    apply wp_ret. split_and!; [by apply step_refl|done|done]. }
  intros [ok it1] s1 (Hst1 & Hat1 & Hr). cbn [fst snd] in *.
  destruct ok; cbn [negb]; [|apply wp_ret; by split_and!].
  destruct (at_field_in it1 Hat1) as (f1 & Hf1 & _ & _ & Hin1).
  apply wp_bind. eapply wp_lift_option; [exact Hf1|].
  rewrite (in_static _ _ _ _ _ Hin1). change (PB_ATYPE_STATIC =? PB_ATYPE_STATIC) with true.
  cbv beta iota. apply wp_bind. eapply wp_mono.
  { apply (total_static fuel rec Hrec base size wt it1 f1 Hf1 Hin1). by eapply safe_step. }
  intros r s2 [Hst2 Hr2]. apply wp_ret. split_and!; [by eapply step_trans|done|done].
Qed.

(** The local variables between two turns of the loop. *)
Definition locals_ok (l : locals) : Prop :=
  at_field (l_iter l) ∧
  match l_fixed_count_field l with Some i => (i < n)%nat | None => True end.

Lemma wp_fixed_count_incomplete l s (Q : bool → dstate → Prop) :
  locals_ok l → (∀ b, Q b s) → wp (fixed_count_incomplete l) Q s.
Proof.
  intros [Hat Hfix] HQ. unfold fixed_count_incomplete.
  destruct (l_fixed_count_field l) as [i|]; [|by apply wp_ret].
  destruct (at_field_in _ Hat) as (f & _ & _ & Hst & _).
  destruct (term_field _ _ (field_count_terminated _ _ Hcount) i Hfix) as (g & Hg & _).
  apply wp_bind. eapply wp_lift_option; [by rewrite Hst|].
  apply wp_bind, wp_get. apply wp_ret, HQ.
Qed.

(** A result that carries the local variables. *)
Definition kept (s : dstate) (r : bool * locals) (s' : dstate) : Prop :=
  step base size s s' ∧ locals_ok r.2 ∧ reported r.1 s'.

Lemma wp_skip wt l s :
  locals_ok l → safe base size s →
  wp (ok ← pb_skip_field wt; mret (ok, l)) (kept s) s.
Proof.
  intros Hl Hs. apply wp_bind. eapply wp_mono; [by apply (total_skip_field base size)|].
  intros r s' [Hst Hr]. apply wp_ret. by split_and!.
Qed.

(** There is no extension range: the field is skipped. *)
Lemma wp_decode_unknown t wt l s :
  0 ≤ t < 2 ^ 29 → locals_ok l → safe base size s →
  wp (decode_unknown rec (S fuel) t wt l) (kept s) s.
Proof.
  intros Ht Hl Hs. unfold decode_unknown. wp_if E; [|by apply wp_skip].
  unfold find_extension_field. apply wp_find; [apply Hl|]. intros b it Hat Hb.
  destruct (at_field_in it Hat) as (f & Hf & _ & _ & Hin).
  apply wp_bind. eapply wp_lift_option; [exact Hf|].
  destruct b.
  { destruct (Hb eq_refl) as (g & Hg & Hext%Z.eqb_eq).
    destruct (in_ltype _ _ _ _ _ Hin) as [_ Hno]. congruence. }
  cbv zeta. rewrite (proj2 (Z.leb_gt (2 ^ 32 - 1) t)) by (change (2 ^ 29) with 536870912 in Ht; pow2; lia).
  apply wp_skip; [|done]. split; [done|]. by destruct Hl.
Qed.

Lemma wp_select_fixed_count f l s :
  locals_ok l → iter_field (l_iter l) = Some f → safe base size s →
  wp (select_fixed_count f l) (kept s) s.
Proof.
  intros Hl Hf Hs. pose proof Hl as [Hat Hfix]. unfold select_fixed_count.
  assert (kept s (true, l) s) as Hsame by (split_and!; [by apply step_refl|done|done]).
  wp_if E; [|by apply wp_ret]. apply andb_true_iff in E as [Eh%Z.eqb_eq Ep].
  pose proof Hat as (k & it0 & f0 & Hk & Hit & Hp & Hf0 & Ht & Hcase).
  destruct Hcase as [Ei|[Ei _]]; [|rewrite Ei in Ep; by case_bool_decide].
  rewrite Ei in *. assert (f0 = f) as -> by congruence.
  assert (at_field (counting it0)) as Hatc.
  { exists k, it0, f. split_and!; [done..|by right]. }
  wp_if E2; [|apply wp_ret; split_and!; [by apply step_refl|by split|done]].
  apply wp_bind, wp_fixed_count_incomplete; [done|]. intros [].
  - unfold wp. change ((ok ← i_return_error ?m; mret (ok, l)) s)
      with (Done ((false, l), fail_with m s)).
    split_and!; [by apply step_fail_with, step_refl|done|apply reported_fail].
  - apply wp_bind. eapply wp_mono; [apply (total_store_size base size PFixedCount 0); done|].
    intros [] s1 [Hst _]. apply wp_ret. split_and!; [done| |done].
    split; [done|]. simpl. lia.
Qed.

Lemma mark_required_ok f l : locals_ok l → locals_ok (mark_required f l).
Proof. intros Hl. unfold mark_required. by destruct (_ && _). Qed.

Lemma wp_noinit_step l s :
  locals_ok l → safe base size s →
  wp (noinit_step rec (S fuel) l) (λ r s', step base size s s' ∧
    match r with
    | inl l' => locals_ok l' ∧ bytes_left (d_in s') < bytes_left (d_in s)
    | inr (Some l') => locals_ok l'
    | inr None => is_Some (errmsg (d_in s'))
    end) s.
Proof.
  intros Hl Hs. unfold noinit_step. apply wp_bind, (wp_done _ _ _ (d_in s) s (run_get_in s)).
  wp_if E; [apply wp_ret; split; [by apply step_refl|done]|].
  apply wp_bind. eapply wp_mono; [by apply (wp_decode_tag base size)|].
  intros [[[t wt]|] eof] s1 [Hst1 HQ]; [|apply wp_ret; split; [done|]; destruct eof; [done|by destruct HQ]].
  destruct HQ as [Ht Hleft]. pose proof (safe_step _ _ _ _ Hs Hst1) as Hs1.
  unfold pb_field_iter_find. apply wp_find; [apply Hl|]. intros b it Hat _.
  assert (locals_ok (with_iter l it)) as Hl1 by (destruct Hl; by split).
  assert (∀ s', step base size s1 s' → step base size s s' ∧
    bytes_left (d_in s') < bytes_left (d_in s)) as Hgo.
  { intros s' Hst. split; [by eapply step_trans|].
    destruct (step_within _ _ _ _ Hst) as [_ _ ? _ _]. lia. }
  destruct b; cbn [negb].
  - destruct (at_field_in it Hat) as (f & Hf & _ & _ & Hin).
    apply wp_bind. eapply wp_lift_option; [exact Hf|].
    apply wp_bind. eapply wp_mono; [by apply wp_select_fixed_count|].
    intros [ok l2] s2 (Hst2 & Hl2 & Hr2). cbn [fst snd] in *.
    destruct ok; cbn [negb]; [|apply wp_ret; split; [by apply Hgo|by apply Hr2]].
    pose proof (mark_required_ok f l2 Hl2) as Hl3. apply wp_bind.
    eapply wp_mono; [apply wp_decode_field; [apply Hl3|by eapply safe_step]|].
    intros [ok it3] s3 (Hst3 & Hat3 & Hr3). cbn [fst snd] in *.
    destruct (Hgo s3) as [Hst Hlt]; [by eapply step_trans|].
    apply wp_ret. destruct ok; (split; [done|]); [|by apply Hr3].
    split; [|done]. split; [done|]. by destruct Hl3.
  - apply wp_bind. eapply wp_mono; [by apply wp_decode_unknown|].
    intros [ok l2] s2 (Hst2 & Hl2 & Hr2). cbn [fst snd] in *.
    destruct (Hgo s2 Hst2) as [Hst Hlt].
    apply wp_ret. destruct ok; (split; [done|]); [done|by apply Hr2].
Qed.

(** One step from any iterator of a run. *)
Lemma next_at it :
  at_field it →
  ∃ it', pb_field_iter_next it = Some (bool_decide (S (pos it) < n)%nat, it') ∧ at_field it' ∧
         ((S (pos it) < n)%nat → pos it' = S (pos it)).
Proof.
  intros (k & it0 & f & Hk & Hit & Hp & Hf & Ht & Hcase).
  pose proof (field_count_terminated _ _ Hcount) as Hterm.
  destruct (next_nth fields base n Hterm k it0 Hk Hit) as (it' & Hnx & Hit' & Hp').
  assert (at_field it') as Hat'.
  { eapply at_nth; [|exact Hit']. case_bool_decide; lia. }
  assert ((S k < n)%nat → pos it' = S k) as Hpos'.
  { intros ?. by rewrite bool_decide_eq_false_2 in Hp' by lia. }
  subst k. destruct Hcase as [->|[-> E]]; [eauto|].
  exists it'. rewrite (next_counting _ _ Hf E), (proj2 (Z.eqb_neq (tag f) 0)) by done. eauto.
Qed.

Lemma wp_seek_end it s (Q : Z * Z * pb_field_iter_t → dstate → Prop) :
  at_field it → (∀ a b it', at_field it' → Q (a, b, it') s) → wp (seek_end it) Q s.
Proof.
  intros Hat HQ. pose proof (terminated_length _ _ (field_count_terminated _ _ Hcount)).
  assert (∀ it, at_field it → start it = fields ∧ (pos it < n)%nat) as Hat_pos.
  { intros it1 Hat1. destruct (at_field_in it1 Hat1) as (_ & _ & _ & Hst & _).
    split; [done|]. destruct Hat1 as (k & it0 & _ & Hk & _ & Hp & _ & _ & [->|[-> _]]); simpl; lia. }
  destruct (Hat_pos it Hat) as [Hst Hp]. unfold seek_end. rewrite Hst.
  apply (wp_loop (λ it' s', at_field it' ∧ s' = s) (λ it' _, Z.of_nat (n - pos it'))).
  - done.
  - lia.
  - intros it1 s1 [Hat1 ->] _. destruct (Hat_pos it1 Hat1) as [Hst1 Hp1].
    destruct (at_field_in it1 Hat1) as (f & Hf & _). destruct (next_at it1 Hat1) as (it' & Hnx & Hat' & Hp').
    apply wp_bind. eapply wp_lift_option; [exact Hf|].
    apply wp_bind. eapply wp_lift_option; [exact Hnx|]. apply wp_ret.
    case_bool_decide; [|by apply HQ]. rewrite Hp' by done. split_and!; [done|done|lia|lia].
Qed.

Lemma wp_check_required l s :
  locals_ok l → safe base size s →
  wp (check_required l) (λ r s', step base size s s' ∧ reported r s') s.
Proof.
  intros [Hat _] Hs. unfold check_required. apply wp_bind, wp_seek_end; [done|].
  intros a b it Hat'. destruct (at_field_in it Hat') as (f & Hf & _).
  apply wp_bind. eapply wp_lift_option; [exact Hf|]. cbv zeta.
  match goal with |- wp (if ?c then _ else _) _ _ => destruct c end;
    [by apply total_ret|by apply total_error].
Qed.

(** The whole function. *)
Lemma total_noinit_body : total base size (pb_decode_noinit_body rec (S fuel) fields base).
Proof.
  intros s Hs. pose proof (safe_count _ _ _ Hs) as Hc. unfold pb_decode_noinit_body.
  apply wp_bind, wp_get.
  apply (total_seq base size (set_fixed_count 0));
    [exact (total_store_size base size PFixedCount 0 I)| |done].
  assert (∀ c (status : bool) s1 s2, 0 ≤ c < 2 ^ 32 → safe base size s1 → step base size s1 s2 →
    reported status s2 →
    wp (set_fixed_count c;; mret status)
      (λ r s', step base size s1 s' ∧ reported r s') s2) as Hend.
  { intros c status s1 s2 Hc' Hs1 [F W I C] Hr. apply wp_bind. unfold wp at 1.
    change (set_fixed_count c s2) with (Done (tt, DState (d_mem s2) (d_in s2) c)).
    apply wp_ret. split; [by constructor|done]. }
  generalize (d_fixed_count_size s), Hc. clear s Hs Hc. intros c Hc s Hs.
  destruct (begin_nth fields base n (field_count_terminated _ _ Hcount)) as (it & Hb & Hit & _).
  apply wp_bind. eapply wp_lift_option; [exact Hb|].
  apply wp_bind. eapply wp_mono.
  { apply (wp_reading_loop base size locals_ok) with (Q := λ r s', match r with
      | Some l' => locals_ok l' | None => is_Some (errmsg (d_in s')) end); [|exact Hs|].
    - split; [by apply (at_nth 0)|done].
    - intros l s1 Hl Hs1 _. eapply wp_mono; [by apply wp_noinit_step|].
      intros [l'|[l'|]] s2 [Hst2 HQ]; by split. }
  intros [l|] s1 [Hst1 HQ]; [|apply wp_bind, wp_ret; apply Hend; [done|done|done|by intros _]].
  pose proof (safe_step _ _ _ _ Hs Hst1) as Hs1. apply wp_bind, wp_bind.
  apply wp_fixed_count_incomplete; [done|]. intros [].
  - eapply wp_mono; [by apply (total_error base size)|]. intros r s2 [Hst2 Hr].
    apply Hend; [done|done|by eapply step_trans|done].
  - eapply wp_mono; [by apply wp_check_required|]. intros r s2 [Hst2 Hr].
    apply Hend; [done|done|by eapply step_trans|done].
Qed.
End noinit.

(** [pb_decode_noinit], by induction on the depth. *)
Lemma total_noinit `{H : DecHost} fuel fields dest ds :
  msg_ok fuel fields ds → total dest ds (pb_decode_noinit fuel fields dest).
Proof.
  revert fields dest ds. induction fuel as [|fuel IH]; intros fields dest ds; [done|].
  intros (n & Hn & Hpos & Hf). cbn [pb_decode_noinit]. eapply total_noinit_body; [|done|done|].
  - intros fields' dest' ds'. apply IH.
  - intros k it f. apply Hf.
Qed.

(** ** Generated messages are well formed *)

Section slots.
Context `{H : DecHost}.

(** The size of a value of a slot. *)
Definition slot_data_size (s : slot) : Z :=
  match sl_rules s with REPEATED => m_elt (sl_member s) | _ => m_size (sl_member s) end.

(** A static member inside a struct of [size] bytes, with its companion; a nested
    message is one of at most [fuel] levels, other fields have no default. *)
Record slot_in (fuel : nat) (size : Z) (s : slot) : Prop := {
  slot_static : sl_alloc s = STATIC;
  slot_type : sl_type s ≠ EXTENSION;
  slot_member_in : m_offset (sl_member s) + m_size (sl_member s) ≤ size;
  slot_companion_in :
    match sl_rules s with
    | OPTIONAL => m_offset (sl_companion s) + 1 ≤ size
    | REPEATED => m_offset (sl_companion s) + 4 ≤ size
    | _ => True
    end;
  slot_fixed :
    match PB_LTYPE_MAP (sl_type s) with
    | 0x03 => 4 ≤ slot_data_size s
    | 0x04 => 8 ≤ slot_data_size s
    | _ => True
    end;
  slot_sub :
    match sl_type s with
    | MESSAGE => ∃ id fields, sl_ptr s = PtrFields id ∧ fields_of dec_ro id = Some fields ∧
                              msg_ok fuel fields (slot_data_size s)
    | _ => sl_ptr s = PtrNull
    end;
}.

Definition slot_htype (s : slot) : Z :=
  match sl_rules s with
  | REQUIRED | OPTEXT => PB_HTYPE_REQUIRED
  | OPTIONAL | SINGULAR => PB_HTYPE_OPTIONAL
  | REPEATED => PB_HTYPE_REPEATED
  end.

(** The members of the descriptor of a static slot. *)
Lemma slot_field_static prev s :
  slot_ok s → sl_alloc s = STATIC →
  PB_ATYPE (type (slot_field prev s)) = PB_ATYPE_STATIC ∧
  PB_HTYPE (type (slot_field prev s)) = slot_htype s ∧
  PB_LTYPE (type (slot_field prev s)) = PB_LTYPE_MAP (sl_type s) ∧
  data_size (slot_field prev s) = slot_data_size s ∧
  array_size (slot_field prev s) =
    (if slot_htype s =? PB_HTYPE_REPEATED
     then m_size (sl_member s) / m_elt (sl_member s) else 0) ∧
  ptr (slot_field prev s) = sl_ptr s.
Proof.
  intros (Ht & Ho & Hco & Hs & He & Hm) Hst.
  assert (0 ≤ m_size (sl_member s) / m_elt (sl_member s) < 2 ^ 32) as Hq.
  { split; [apply Z.div_pos; lia|]. apply Z.div_lt_upper_bound; nia. }
  assert (u32 (m_size (sl_member s)) = m_size (sl_member s)) as Es
    by (apply wrapu_small; pow2; lia).
  assert (u32 (m_elt (sl_member s)) = m_elt (sl_member s)) as Ee
    by (apply wrapu_small; pow2; lia).
  pose proof (wrapu_small 32 _ Hq) as Eq. unfold slot_htype, slot_data_size.
  destruct s as [tg t r a c m p]; cbn in *. subst a.
  split_and!; destruct r; try done; by destruct t.
Qed.

Lemma slot_field_in fuel base size it prev s :
  slot_ok s → slot_in fuel size s →
  pData it = base + m_offset (sl_member s) → pSize it = PMem (base + sl_size_offset s) →
  field_in (msg_ok fuel) base size it (slot_field prev s).
Proof.
  intros Hok [Hst Hty Hmem Hcomp Hfix Hsub] Hd Hp.
  destruct (slot_field_static prev s Hok Hst) as (Ea & Eh & El & Ed & En & Ep).
  destruct Hok as (Ht & Ho & Hco & Hs & He & Hm).
  assert (0 ≤ m_size (sl_member s) / m_elt (sl_member s) < 2 ^ 31) as Hq.
  { split; [apply Z.div_pos; lia|]. apply Z.div_lt_upper_bound; nia. }
  assert (slot_data_size s * capacity (slot_field prev s) = m_size (sl_member s)) as Hcap.
  { unfold capacity. rewrite Eh, En. unfold slot_data_size, slot_htype. rewrite Hst in Hm. revert Hm.
    destruct (sl_rules s); cbn -[Z.div Z.modulo Z.mul]; intros Hm; try lia.
    pose proof (Z.div_mod (m_size (sl_member s)) (m_elt (sl_member s))). lia. }
  assert (0 ≤ slot_data_size s) as Hds by (unfold slot_data_size; destruct (sl_rules s); lia).
  constructor; rewrite ?Ea, ?Eh, ?El, ?Ed, ?Ep, ?Hcap, ?Hd, ?Hp; try done.
  - by destruct (sl_type s).
  - rewrite En. destruct (_ =? _); pow2; lia.
  - pow2. lia.
  - lia.
  - unfold sl_size_offset, slot_htype. rewrite Hst. revert Hcomp.
    destruct (sl_rules s); try done; cbn; intros Hcomp; [| |lia];
      (eexists; split; [done|]); [lia|congruence].
  - split; intros E; by rewrite E in Hfix.
  - revert Hsub Hty. destruct (sl_type s); cbn; intros Hsub Hty; try (by rewrite Hsub); done.
Qed.

Lemma slots_msg_ok fuel l size :
  (0 < length l)%nat → Forall slot_ok l → in_order None l → Forall (slot_in fuel size) l →
  msg_ok (S fuel) (build l) size.
Proof.
  intros Hpos Hok Hord Hin. pose proof (build_terminated l Hok) as Hterm.
  exists (length l). split_and!; [|done|].
  - apply terminated_count, Hterm.
  - intros base k it f Hk Hit Hf. destruct (lookup_lt_is_Some_2 l k Hk) as [s Hs].
    destruct (layout_nth l base Hok Hord k s Hs) as (it' & Hit' & Hd & Hp).
    assert (it' = it) as -> by congruence.
    destruct (nth_field _ _ _ Hterm k it Hk Hit) as (g & Hg & _ & Hfi).
    unfold build in Hg. rewrite (build_lookup None l k s Hs) in Hg.
    assert (f = slot_field (slot_prev None l k) s) as -> by congruence.
    rewrite Forall_lookup in Hok, Hin. apply slot_field_in; eauto.
Qed.
End slots.

(** ** Theorems *)

Section theorems.
Context `{H : DecHost} (fuel : nat) (fields : list pb_field_t) (dest size : Z).
Context (Hmsg : msg_ok fuel fields size).

(** C2: whatever bytes the stream holds, [pb_decode] into a struct with static
    members ends, within the fuel that the nesting of the message needs, without
    undefined behaviour: no access outside of the stream and the struct. It
    writes in the struct only, stays inside the stream, and gives an error message
    when it fails. The descriptors are well formed, and an array of fixed count is not
    shorter than a [pb_size_t] (see [fixed_count_default_out_of_bounds]). *)
Theorem pb_decode_safe s :
  safe dest size s → 0 ≤ size →
  ∃ ok s', pb_decode fuel fields dest s = Done (ok, s') ∧
    frame dest size (d_mem s) (d_mem s') ∧
    within (d_in s) (d_in s') ∧
    (ok = false → is_Some (errmsg (d_in s'))).
Proof.
  intros Hs Hsz. apply (wp_run (pb_decode fuel fields dest) (λ ok s',
    frame dest size (d_mem s) (d_mem s') ∧ within (d_in s) (d_in s') ∧
    (ok = false → is_Some (errmsg (d_in s'))))).
  unfold pb_decode. eapply wp_mono; [by apply total_decode_with, Hs; [..|apply total_noinit]|].
  intros ok s' [[F _ W _] Hr]. split_and!; [done|done|]. intros ->. by apply Hr.
Qed.
End theorems.
