(* ===== verification/PbEmit.v ===== *)
(** * nanopb: what the helper encoders write

    [wrote l s s'] says that an encoder appended the bytes [l] to a memory
    stream and changed nothing else; [emits c l s], that [c] does that from [s]
    if there is room. *)
From S2P Require Import Prelude CMem PbTypes PbIter PbOutput PbInput PbWire.

(** The stream writes to memory and has room for [n] more bytes. *)
Record room (s : estate) (n : Z) : Prop := {
  room_cb : PbOutput.callback (e_out s) = OcbBufWrite;
  room_written : 0 ≤ bytes_written (e_out s);
  room_max : bytes_written (e_out s) + n ≤ max_size (e_out s) < 2 ^ 64;
  room_mapped : mapped (e_mem s) (PbOutput.state (e_out s)) n;
}.

(** [account k s]: [k] more bytes were written to the stream. *)
Definition account (k : nat) (o : pb_ostream_t) : pb_ostream_t :=
  PbOStream (PbOutput.callback o) (PbOutput.state o + Z.of_nat k) (max_size o)
    (bytes_written o + Z.of_nat k) (PbOutput.errmsg o).

Record wrote (l : list Z) (s s' : estate) : Prop := {
  wrote_out : e_out s' = account (length l) (e_out s);
  wrote_frame :
    frame (PbOutput.state (e_out s)) (Z.of_nat (length l)) (e_mem s) (e_mem s');
  wrote_bytes : load_bytes (e_mem s') (PbOutput.state (e_out s)) (length l) = Some l;
}.

Definition emits (c : enc bool) (l : list Z) (s : estate) : Prop :=
  room s (Z.of_nat (length l)) → ∃ s', c s = Done (true, s') ∧ wrote l s s'.

Lemma account_account j k o : account k (account j o) = account (j + k) o.
Proof. unfold account. simpl. f_equal; lia. Qed.

Lemma wrote_nil s : wrote [] s s.
Proof.
  constructor; [|done|done]. destruct s as [m [cb st mx w er]]. unfold account. simpl.
  by rewrite !Z.add_0_r.
Qed.

Lemma wrote_app l1 l2 s s1 s2 :
  wrote l1 s s1 → wrote l2 s1 s2 → wrote (l1 ++ l2) s s2.
Proof.
  intros [E1 F1 B1] [E2 F2 B2]. rewrite E1 in F2, B2. simpl in F2, B2.
  constructor; rewrite ?length_app.
  - by rewrite E2, E1, account_account.
  - transitivity (e_mem s1); (eapply frame_weaken; [eassumption|lia|lia]).
  - apply load_bytes_app. rewrite take_app_length, drop_app_length, length_app.
    split_and!; [|done|done]. rewrite <-B1. apply load_bytes_ext.
    intros i Hi. apply (frame_out _ _ _ _ F2). lia.
Qed.

Lemma room_wrote l s s' n :
  wrote l s s' → room s (Z.of_nat (length l) + n) → 0 ≤ n → room s' n.
Proof.
  intros [E F B] [Hcb Hw Hm Hp] Hn. constructor; rewrite E; simpl; [done|lia|lia|].
  apply (frame_mapped _ _ _ _ _ _ F). eapply mapped_sub; [done|lia|lia].
Qed.

Lemma room_weaken s n k : room s n → k ≤ n → room s k.
Proof.
  intros [Hcb Hw Hm Hp] ?. constructor; [done|done|lia|].
  eapply mapped_sub; [done|lia|lia].
Qed.

(** What the memory still holds outside of the buffer. *)
Lemma wrote_load l s s' a n :
  wrote l s s' →
  (a + Z.of_nat n ≤ PbOutput.state (e_out s) ∨
   PbOutput.state (e_out s) + Z.of_nat (length l) ≤ a) →
  load_bytes (e_mem s') a n = load_bytes (e_mem s) a n.
Proof.
  intros [_ F _] Hd. apply load_bytes_ext. intros i Hi. apply (frame_out _ _ _ _ F). lia.
Qed.

Section emit.
Context `{H : EncHost}.

Lemma run_get_out s : get_out s = Done (e_out s, s).
Proof. done. Qed.

Lemma run_eload a n v s : load (e_mem s) a n = Some v → eload a n s = Done (v, s).
Proof.
  intros Hv. unfold eload, get_emem, get_state. run_unfold. by rewrite Hv.
Qed.

(** [l] is what the buffer [b] holds, and goes on holding while bytes are stored
    at [dest]. *)
Definition source (b : wbuf) (l : list Z) (m : mem) (dest : Z) : Prop :=
  match b with
  | BNull => l = []
  | BLocal l' => l' = l
  | BMem a =>
      load_bytes m a (length l) = Some l ∧
      (a + Z.of_nat (length l) ≤ dest ∨ dest + Z.of_nat (length l) ≤ a)
  end.

Lemma copy_out_store b l m dest n :
  (∀ m' i, (i < length l)%nat →
     (∀ j, ¬ (dest ≤ j < dest + Z.of_nat (length l)) → bytes m' !! j = bytes m !! j) →
     wbuf_get m' b i = l !! i) →
  ∀ i m', (i + n = length l)%nat →
    (∀ j, ¬ (dest ≤ j < dest + Z.of_nat (length l)) → bytes m' !! j = bytes m !! j) →
    copy_out m' dest b i n = store_bytes m' (dest + Z.of_nat i) (drop i l).
Proof.
  intros Hget. induction n as [|n IH]; intros i m' Hi Hm'; cbn [copy_out].
  { by rewrite drop_ge by lia. }
  destruct (lookup_lt_is_Some_2 l i) as [c Hc]; [lia|].
  rewrite (drop_S l c i Hc). rewrite Hget, Hc by (done || lia). cbn [store_bytes]. simpl.
  unfold store_byte. destruct (bytes m' !! (dest + Z.of_nat i)) eqn:E; simpl; [|done].
  rewrite IH; [by replace (dest + Z.of_nat (S i)) with (dest + Z.of_nat i + 1) by lia|lia|].
  intros j Hj. simpl. rewrite lookup_insert_ne by lia. by apply Hm'.
Qed.

Lemma pb_write_emits b l s :
  Forall is_byte l → source b l (e_mem s) (PbOutput.state (e_out s)) →
  emits (pb_write b (Z.of_nat (length l))) l s.
Proof.
  intros Hby Hsrc [Hcb Hw Hmax Hmap].
  destruct (store_bytes_spec _ _ _ Hmap) as (m' & Hm' & _).
  destruct (store_bytes_frame _ _ _ _ Hm' Hmap) as [Hf Hl].
  set (s' := EState m' (account (length l) (e_out s))).
  exists s'. split.
  - unfold pb_write. run_with (run_get_out s). rewrite Hcb.
    rewrite bool_decide_eq_true_2 by done.
    rewrite (wrapu_small 64) by lia.
    rewrite (proj2 (Z.ltb_ge (max_size (e_out s)) (bytes_written (e_out s) + _))) by lia.
    cbn [call_ocallback]. unfold buf_write. run_with (run_get_out s).
    unfold set_out, get_emem, set_emem, get_state, put_state. run_unfold. cbn.
    rewrite Nat2Z.id.
    rewrite (copy_out_store b l (e_mem s)); [| |done|done].
    + rewrite drop_0, Z.add_0_r, Hm'. cbn.
      unfold account_written, get_out, set_out, get_state, put_state. run_unfold. cbn.
      rewrite (wrapu_small 64) by lia. done.
    + intros m0 i Hi Hm0. destruct b as [|a|l']; simpl in Hsrc |- *.
      * subst l. simpl in Hi. lia.
      * destruct Hsrc as [Ha Hd]. apply load_bytes_lookup in Ha as [_ Ha].
        destruct (lookup_lt_is_Some_2 l i Hi) as [c Hc].
        unfold load_byte. rewrite Hm0, (Ha _ _ Hc) by lia. done.
      * by subst l'.
  - constructor; [done|done|]. simpl. rewrite Hl. f_equal.
    rewrite <-(list_fmap_id l) at 2. apply list_fmap_ext. intros i c Hc.
    apply Z.mod_small. rewrite Forall_lookup in Hby. by eapply Hby.
Qed.

(** A write that does not fit stores nothing. *)
Lemma pb_write_full b n s :
  PbOutput.callback (e_out s) ≠ OcbNull →
  max_size (e_out s) < u64 (bytes_written (e_out s) + n) →
  pb_write b n s =
  Done (false, EState (e_mem s)
          (o_with_errmsg (e_out s) (set_error (PbOutput.errmsg (e_out s)) "stream full"))).
Proof.
  intros Hcb Hn. unfold pb_write. run_with (run_get_out s).
  rewrite bool_decide_eq_true_2 by done.
  by rewrite (proj2 (Z.ltb_lt (max_size (e_out s)) _)) by done.
Qed.

(** A sizing stream only counts. *)
Lemma pb_write_sizing b n s :
  PbOutput.callback (e_out s) = OcbNull →
  pb_write b n s =
  Done (true, EState (e_mem s) (o_with_written (e_out s) (u64 (bytes_written (e_out s) + n)))).
Proof. intros Hcb. unfold pb_write. run_with (run_get_out s). by rewrite Hcb. Qed.

End emit.

(** ** What an encoder produces

    [ready m s]: the stream of [s] counts, or writes to a live buffer, and the
    memory has the bytes of [m] outside of that buffer. [m] is what the encoder
    may read: the message, the application's data. *)
Record ready (m : mem) (s : estate) : Prop := {
  ready_src : ∀ a b, bytes m !! a = Some b → bytes (e_mem s) !! a = Some b;
  ready_byte : wf_mem m;
  ready_written : 0 ≤ bytes_written (e_out s);
  ready_errmsg : PbOutput.errmsg (e_out s) = None;
  ready_stream :
    PbOutput.callback (e_out s) = OcbNull ∨
    (PbOutput.callback (e_out s) = OcbBufWrite ∧
     bytes_written (e_out s) ≤ max_size (e_out s) < 2 ^ 64 ∧
     mapped (e_mem s) (PbOutput.state (e_out s))
       (max_size (e_out s) - bytes_written (e_out s)) ∧
     ∀ a, PbOutput.state (e_out s) ≤ a <
            PbOutput.state (e_out s) + (max_size (e_out s) - bytes_written (e_out s)) →
          bytes m !! a = None);
}.

Definition fits (n : Z) (s : estate) : Prop :=
  PbOutput.callback (e_out s) = OcbNull ∨
  bytes_written (e_out s) + n ≤ max_size (e_out s).
#[export] Instance fits_dec n s : Decision (fits n s) := _.

(** The bytes [l] were counted, or written. *)
Definition output (l : list Z) (s s' : estate) : Prop :=
  (PbOutput.callback (e_out s) = OcbNull ∧
   s' = EState (e_mem s)
          (o_with_written (e_out s) (bytes_written (e_out s) + Z.of_nat (length l)))) ∨
  (PbOutput.callback (e_out s) = OcbBufWrite ∧ wrote l s s').

(** The stream was full: only the rest of the buffer can have changed. *)
Record overflow (s s' : estate) : Prop := {
  overflow_errmsg : PbOutput.errmsg (e_out s') = Some "stream full"%string;
  overflow_frame :
    frame (PbOutput.state (e_out s)) (max_size (e_out s) - bytes_written (e_out s))
      (e_mem s) (e_mem s');
}.

(** [c] appends the bytes [l] if the stream has room for them, and reports that
    the stream is full if not. *)
Definition produces (m : mem) (c : enc bool) (l : list Z) : Prop :=
  ∀ s, ready m s → bytes_written (e_out s) + Z.of_nat (length l) < 2 ^ 64 →
    (fits (Z.of_nat (length l)) s → ∃ s', c s = Done (true, s') ∧ output l s s') ∧
    (¬ fits (Z.of_nat (length l)) s → ∃ s', c s = Done (false, s') ∧ overflow s s').

Lemma output_out l s s' :
  output l s s' →
  PbOutput.callback (e_out s') = PbOutput.callback (e_out s) ∧
  max_size (e_out s') = max_size (e_out s) ∧
  bytes_written (e_out s') = bytes_written (e_out s) + Z.of_nat (length l) ∧
  PbOutput.errmsg (e_out s') = PbOutput.errmsg (e_out s).
Proof. intros [[_ ->]|[_ [E _ _]]]; [done|by rewrite E]. Qed.

Lemma output_nil s :
  PbOutput.callback (e_out s) = OcbNull ∨ PbOutput.callback (e_out s) = OcbBufWrite →
  output [] s s.
Proof.
  intros [E|E]; [left|right]; (split; [done|]); [|apply wrote_nil].
  destruct s as [m [cb st mx w er]]. unfold o_with_written. simpl. by rewrite Z.add_0_r.
Qed.

Lemma output_app l1 l2 s s1 s2 :
  output l1 s s1 → output l2 s1 s2 → output (l1 ++ l2) s s2.
Proof.
  intros H1 H2. destruct (output_out _ _ _ H1) as (Ecb & _).
  destruct H1 as [[Hc ->]|[Hc W1]]; destruct H2 as [[Hc' ->]|[Hc' W2]]; rewrite Ecb in Hc';
    try congruence.
  - left. split; [done|]. simpl. unfold o_with_written. simpl. do 2 f_equal.
    rewrite length_app. lia.
  - right. split; [done|]. by eapply wrote_app.
Qed.

Lemma output_ready m l s s' :
  ready m s → fits (Z.of_nat (length l)) s → output l s s' → ready m s'.
Proof.
  intros [Hsrc Hby Hw He Hst] Hfits [[Hc ->]|[Hc [E F B]]].
  - constructor; simpl; [done|done|lia|done|by left].
  - destruct Hst as [?|(_ & Hmax & Hmap & Hdis)]; [congruence|].
    destruct Hfits as [?|Hfits]; [congruence|].
    constructor; rewrite ?E; simpl; [|done|lia|done|right; split_and!].
    + intros a b Hab. rewrite (frame_out _ _ _ _ F); [by apply Hsrc|].
      intros Ha. rewrite Hdis in Hab by lia. done.
    + done.
    + lia.
    + lia.
    + apply (frame_mapped _ _ _ _ _ _ F). eapply mapped_sub; [done|lia|lia].
    + intros a Ha. apply Hdis. lia.
Qed.

Lemma output_overflow l s s1 s2 :
  fits (Z.of_nat (length l)) s → output l s s1 → overflow s1 s2 → overflow s s2.
Proof.
  intros Hfits Ho [Ee Ef]. destruct (output_out _ _ _ Ho) as (Ecb & Em & Ew & Eer).
  constructor; [done|]. rewrite Em, Ew in Ef.
  destruct Ho as [[Hc ->]|[Hc [E F B]]]; simpl in *.
  - eapply frame_weaken; [done|lia|lia].
  - rewrite E in Ef. simpl in Ef. destruct Hfits as [?|Hfits]; [congruence|].
    transitivity (e_mem s1); (eapply frame_weaken; [done|lia|lia]).
Qed.

Lemma ready_load_bytes m s a n l :
  ready m s → load_bytes m a n = Some l → load_bytes (e_mem s) a n = Some l.
Proof.
  intros Hr [Hl Hi]%load_bytes_lookup. apply load_bytes_lookup. split; [done|].
  intros i b Hb. by eapply ready_src, Hi.
Qed.

Lemma ready_load m s a n v : ready m s → load m a n = Some v → load (e_mem s) a n = Some v.
Proof.
  unfold load. intros Hr Hl. destruct (load_bytes m a n) as [l|] eqn:E; [|done].
  by rewrite (ready_load_bytes m s a n l).
Qed.

Section produces.
Context `{H : EncHost}.
Context (m : mem).

Lemma produces_ret : produces m (mret true) [].
Proof.
  intros s Hr _. split.
  - intros _. exists s. split; [done|]. apply output_nil.
    destruct (ready_stream _ _ Hr) as [?|[? _]]; auto.
  - intros Hf. destruct Hf. unfold fits. destruct (ready_stream _ _ Hr) as [?|(_ & Hx & _)]; auto.
    right. simpl. lia.
Qed.

Lemma produces_ext (c c' : enc bool) l :
  (∀ s, ready m s → Z.of_nat (length l) < 2 ^ 64 → c s = c' s) →
  produces m c' l → produces m c l.
Proof.
  intros E Hc s Hr Hw. pose proof (ready_written _ _ Hr). rewrite E by (done || lia).
  by apply Hc.
Qed.

(** No stream holds 2^64 bytes. *)
Lemma produces_small c l : (Z.of_nat (length l) < 2 ^ 64 → produces m c l) → produces m c l.
Proof.
  intros Hc s Hr Hw. pose proof (ready_written _ _ Hr). apply Hc; [lia|done|done].
Qed.

(** Encoders in sequence. *)
Lemma produces_check (c k : enc bool) l1 l2 :
  produces m c l1 → produces m k l2 → produces m (check! c; k) (l1 ++ l2).
Proof.
  intros Hc Hk s Hr Hw. rewrite length_app, Nat2Z.inj_add in *.
  destruct (Hc s Hr ltac:(lia)) as [Hfit Hno].
  destruct (decide (fits (Z.of_nat (length l1)) s)) as [Hf1|Hf1].
  - destruct (Hfit Hf1) as (s1 & Ec & Ho1).
    destruct (output_out _ _ _ Ho1) as (Ecb & Em & Ew & Eer).
    pose proof (output_ready _ _ _ _ Hr Hf1 Ho1) as Hr1.
    destruct (Hk s1 Hr1 ltac:(lia)) as [Hfit2 Hno2].
    assert (fits (Z.of_nat (length l2)) s1 ↔
            fits (Z.of_nat (length l1) + Z.of_nat (length l2)) s) as Hiff.
    { unfold fits. rewrite Ecb, Em, Ew. by rewrite Z.add_assoc. }
    rewrite <-Hiff. split; intros Hf2.
    + destruct (Hfit2 Hf2) as (s2 & Ek & Ho2). exists s2. split; [by run_with Ec|].
      by eapply output_app.
    + destruct (Hno2 Hf2) as (s2 & Ek & Ho2). exists s2. split; [by run_with Ec|].
      by eapply output_overflow.
  - destruct (Hno Hf1) as (s1 & Ec & Ho1). split.
    + intros Hf2. destruct Hf1. unfold fits in *. destruct Hf2; [by left|right; lia].
    + intros _. exists s1. split; [by run_with Ec|done].
Qed.

(** [c] reads [v] from [m]. *)
Definition reads {A} (c : enc A) (v : A) : Prop := ∀ s, ready m s → c s = Done (v, s).

Lemma reads_ret {A} (v : A) : reads (mret v) v.
Proof. done. Qed.

Lemma reads_bind {A B} (c : enc A) (f : A → enc B) v w :
  reads c v → reads (f v) w → reads (c ≫= f) w.
Proof. intros Hc Hf s Hr. run_with (Hc s Hr). by apply Hf. Qed.

Lemma reads_eload a n v : load m a n = Some v → reads (eload a n) v.
Proof. intros Hv s Hr. by apply run_eload, (ready_load _ _ _ _ _ Hr). Qed.

Lemma reads_lift {A} (o : option A) v : o = Some v → reads (lift_option o) v.
Proof. by intros ->. Qed.

Lemma produces_bind {A} (c : enc A) v (f : A → enc bool) l :
  reads c v → produces m (f v) l → produces m (c ≫= f) l.
Proof.
  intros Hc. apply produces_ext. intros s Hr _. by run_with (Hc s Hr).
Qed.

Lemma produces_load {a n v} (f : Z → enc bool) l :
  load m a n = Some v → produces m (f v) l → produces m (eload a n ≫= f) l.
Proof. intros Hv. by apply produces_bind, reads_eload. Qed.

(** [pb_write] of a local array, or of bytes of [m]. *)
Lemma produces_write b l :
  Forall is_byte l →
  match b with
  | BNull => l = []
  | BLocal l' => l' = l
  | BMem a => load_bytes m a (length l) = Some l
  end →
  produces m (pb_write b (Z.of_nat (length l))) l.
Proof.
  intros Hby Hb s Hr Hw.
  pose proof (ready_written _ _ Hr) as Hw0. unfold fits.
  destruct (ready_stream _ _ Hr) as [Hcb|(Hcb & Hmax & Hmap & Hdis)].
  - split; [|intros []; auto]. intros _. eexists. split; [by apply pb_write_sizing|].
    left. split; [done|]. by rewrite wrapu_small by lia.
  - split.
    + intros [?|Hf]; [congruence|].
      destruct (pb_write_emits b l s Hby) as (s' & Es & W).
      * destruct b as [|a|l']; simpl; [done| |done].
        split; [by eapply ready_load_bytes|].
        destruct l as [|c l]; [simpl; lia|].
        apply load_bytes_lookup in Hb as [_ Hb].
        assert (∀ i, (i < length (c :: l))%nat → bytes m !! (a + Z.of_nat i) ≠ None) as Hin.
        { intros i Hi. destruct (lookup_lt_is_Some_2 (c :: l) i Hi) as [x Hx].
          by rewrite (Hb _ _ Hx). }
        destruct (Z_le_gt_dec (a + Z.of_nat (length (c :: l))) (PbOutput.state (e_out s))); [by left|].
        destruct (Z_le_gt_dec (PbOutput.state (e_out s) + Z.of_nat (length (c :: l))) a); [by right|].
        exfalso. destruct (Z_le_gt_dec a (PbOutput.state (e_out s))).
        -- apply (Hin (Z.to_nat (PbOutput.state (e_out s) - a))); [lia|]. apply Hdis. simpl in *. lia.
        -- apply (Hin 0%nat); [simpl; lia|]. apply Hdis. simpl in *. lia.
      * constructor; [done|done|lia|]. eapply mapped_sub; [done|lia|lia].
      * exists s'. split; [done|]. by right.
    + intros Hf. eexists. split.
      * apply pb_write_full; [congruence|]. rewrite wrapu_small by lia.
        destruct (Z_lt_le_dec (max_size (e_out s)) (bytes_written (e_out s) + Z.of_nat (length l)));
          [done|]. destruct Hf. by right.
      * constructor; [|done]. simpl. by rewrite (ready_errmsg _ _ Hr).
Qed.

(** ** The helper encoders *)

Lemma uleb_bytes v : 0 ≤ v → Forall is_byte (uleb v).
Proof. apply leb128_bytes_byte. Qed.

Lemma produces_varint v : 0 ≤ v < 2 ^ 64 → produces m (pb_encode_varint v) (uleb v).
Proof.
  intros Hv. rewrite pb_encode_varint_uleb by done.
  apply produces_write; [apply uleb_bytes; lia|done].
Qed.

Lemma produces_string b l :
  Forall is_byte l → Z.of_nat (length l) < 2 ^ 64 →
  match b with
  | BNull => l = []
  | BLocal l' => l' = l
  | BMem a => load_bytes m a (length l) = Some l
  end →
  produces m (pb_encode_string b (Z.of_nat (length l))) (uleb (Z.of_nat (length l)) ++ l).
Proof.
  intros Hby Hlen Hb. apply produces_check; [apply produces_varint; lia|].
  by apply produces_write.
Qed.

Lemma produces_tag wt t :
  0 ≤ wt < 8 → 0 ≤ t < 2 ^ 32 → produces m (pb_encode_tag wt t) (tag_bytes wt t).
Proof.
  intros Hw Ht. unfold pb_encode_tag, tag_bytes.
  assert (0 ≤ 8 * t + wt < 2 ^ 64) by (pow2; lia).
  assert (Z.lor (u64 (Z.shiftl t 3)) wt = 8 * t + wt) as ->.
  { rewrite wrapu_small; [|rewrite Z.shiftl_mul_pow2 by lia; pow2; lia].
    rewrite Z.lor_comm, lor_shiftl_add, Z.shiftl_mul_pow2 by lia. lia. }
  by apply produces_varint.
Qed.

(** Little-endian fixed size values. *)
Lemma fixed32_bytes_le v : fixed32_bytes v = le_split 4 v.
Proof.
  unfold fixed32_bytes. rewrite !land_FF, !Z.shiftr_div_pow2 by lia.
  unfold wrapu. change (2 ^ 8) with 256. rewrite !Z.mod_mod by lia.
  cbn [le_split]. rewrite !Z.div_div by lia. done.
Qed.

Lemma fixed64_bytes_le v : fixed64_bytes v = le_split 8 v.
Proof.
  unfold fixed64_bytes. rewrite !land_FF, !Z.shiftr_div_pow2 by lia.
  unfold wrapu. change (2 ^ 8) with 256. rewrite !Z.mod_mod by lia.
  cbn [le_split]. rewrite !Z.div_div by lia. done.
Qed.

Lemma produces_fixed32 a v :
  load m a 4 = Some v → produces m (pb_encode_fixed32 a) (le_split 4 v).
Proof.
  intros Hv. unfold pb_encode_fixed32. eapply produces_load; [done|].
  rewrite fixed32_bytes_le. exact (produces_write (BLocal _) (le_split 4 v) (le_split_bytes 4 v) eq_refl).
Qed.

Lemma produces_fixed64 a v :
  load m a 8 = Some v → produces m (pb_encode_fixed64 a) (le_split 8 v).
Proof.
  intros Hv. unfold pb_encode_fixed64. eapply produces_load; [done|].
  rewrite fixed64_bytes_le. exact (produces_write (BLocal _) (le_split 8 v) (le_split_bytes 8 v) eq_refl).
Qed.

(** ** Zig-zag *)

Lemma zigzag_spec x :
  - 2 ^ 63 ≤ x < 2 ^ 63 → zigzag x = if x <? 0 then - 2 * x - 1 else 2 * x.
Proof.
  intros Hx. unfold zigzag. rewrite Z.shiftl_mul_pow2 by lia. change (2 ^ 1) with 2.
  destruct (Z.ltb_spec x 0).
  - assert (u64 (u64 x * 2) = 2 * x + 2 ^ 64) as ->.
    { unfold wrapu. rewrite Zmult_mod_idemp_l. symmetry.
      apply (Z.mod_unique_pos _ _ (-1)); pow2; lia. }
    unfold Z.lnot, wrapu. symmetry. apply (Z.mod_unique_pos _ _ (-1)); pow2; lia.
  - rewrite !(wrapu_small 64) by (rewrite ?(wrapu_small 64) by (pow2; lia); pow2; lia). lia.
Qed.

Lemma zigzag_range x : - 2 ^ 63 ≤ x < 2 ^ 63 → 0 ≤ zigzag x < 2 ^ 64.
Proof. intros Hx. rewrite zigzag_spec by done. destruct (Z.ltb_spec x 0); pow2; lia. Qed.

Lemma unzigzag_zigzag x : - 2 ^ 63 ≤ x < 2 ^ 63 → unzigzag (zigzag x) = x.
Proof.
  intros Hx. rewrite zigzag_spec by done. unfold unzigzag.
  rewrite land_1, Z.shiftr_div_pow2 by lia. change (2 ^ 1) with 2.
  destruct (Z.ltb_spec x 0).
  - assert ((- 2 * x - 1) `mod` 2 = 1) as -> by zdiv.
    assert ((- 2 * x - 1) / 2 = - x - 1) as -> by zdiv.
    unfold Z.lnot. simpl. rewrite wraps_small by (pow2; simpl; lia). lia.
  - assert ((2 * x) `mod` 2 = 0) as -> by zdiv.
    assert ((2 * x) / 2 = x) as -> by zdiv.
    simpl. by rewrite wraps_small by (pow2; simpl; lia).
Qed.

Lemma produces_svarint x :
  - 2 ^ 63 ≤ x < 2 ^ 63 → produces m (pb_encode_svarint x) (uleb (zigzag x)).
Proof. intros Hx. by apply produces_varint, zigzag_range. Qed.
End produces.

(** The stream is a buffer with room for [n] bytes. *)
Record buffer (m : mem) (s : estate) (n : Z) : Prop := {
  buffer_ready : ready m s;
  buffer_cb : PbOutput.callback (e_out s) = OcbBufWrite;
  buffer_room : bytes_written (e_out s) + n ≤ max_size (e_out s);
}.

Lemma buffer_max m s n : buffer m s n → max_size (e_out s) < 2 ^ 64.
Proof. intros [[_ _ _ _ [?|(_ & ? & _)]] Hcb _]; [congruence|lia]. Qed.

(** On a buffer with room, what is produced is written. *)
Lemma produces_wrote m c l s :
  produces m c l → buffer m s (Z.of_nat (length l)) →
  ∃ s', c s = Done (true, s') ∧ wrote l s s'.
Proof.
  intros Hc Hb. pose proof (buffer_max _ _ _ Hb). destruct Hb as [Hr Hcb Hroom].
  destruct (Hc s Hr ltac:(lia)) as [Hfit _].
  destruct Hfit as (s' & Ec & [[? _]|[_ W]]); [by right|congruence|by eauto].
Qed.

(** ** Values are read back

    What a helper encoder writes to a memory buffer, the matching helper decoder reads
    back. *)

(** A stream over what was written between the states [s] and [s']. *)
Definition reader (s s' : estate) : dstate :=
  DState (e_mem s')
    (pb_istream_from_buffer (PbOutput.state (e_out s))
       (bytes_written (e_out s') - bytes_written (e_out s))) 0.

(** The decoder [c] gives [r] and leaves the stream empty, without an error. *)
Definition reads_all {A} (c : dec A) (r : A) (d : dstate) : Prop :=
  ∃ d', c d = Done (r, d') ∧ bytes_left (d_in d') = 0 ∧ errmsg (d_in d') = None.

Lemma reader_input m l s s' :
  buffer m s (Z.of_nat (length l)) → Forall is_byte l → wrote l s s' →
  input_is (reader s s') l.
Proof.
  intros Hb Hl [E F B]. pose proof (buffer_max _ _ _ Hb).
  destruct Hb as [[_ _ Hw _ _] _ Hroom]. unfold reader. rewrite E. simpl.
  replace (bytes_written (e_out s) + Z.of_nat (length l) - bytes_written (e_out s))
    with (Z.of_nat (length l)) by lia.
  constructor; simpl; [done|done|done|done|lia].
Qed.

Lemma app_nil_input st l : input_is st l → input_is st (l ++ []).
Proof. by rewrite app_nil_r. Qed.

(** [encodes c n s P]: with room for [n] bytes [c] succeeds, writes at least one
    byte and at most [n], and [P] holds of a reader of what it wrote. *)
Definition encodes (c : enc bool) (n : Z) (s : estate) (P : dstate → Prop) : Prop :=
  ∃ s', c s = Done (true, s') ∧
        1 ≤ bytes_written (e_out s') - bytes_written (e_out s) ≤ n ∧
        P (reader s s').

Lemma produces_encodes_with m (c : enc bool) n l s P :
  produces m c l → buffer m s n → 1 ≤ Z.of_nat (length l) ≤ n → Forall is_byte l →
  (∀ st, input_is st l → errmsg (d_in st) = None → P st) →
  encodes c n s P.
Proof.
  intros Hc Hb Hl Hby HP.
  assert (buffer m s (Z.of_nat (length l))) as Hb' by (destruct Hb; constructor; [done|done|lia]).
  destruct (produces_wrote _ _ _ _ Hc Hb') as (s' & Ec & W). exists s'. split; [done|].
  pose proof (reader_input m l s s' Hb' Hby W) as Hin. rewrite (wrote_out _ _ _ W). simpl.
  split; [lia|]. by apply HP.
Qed.

Lemma produces_encodes {A} m (c : enc bool) (d : dec A) n l r s :
  produces m c l → buffer m s n → 1 ≤ Z.of_nat (length l) ≤ n → Forall is_byte l →
  (∀ st, input_is st l → d st = Done (r, adv (length l) st)) →
  encodes c n s (reads_all d r).
Proof.
  intros Hc Hb Hl Hby Hd. eapply produces_encodes_with; [done..|]. intros st Hin He.
  eexists. split; [by apply Hd|]. simpl. rewrite (input_left _ _ Hin). split; [lia|done].
Qed.

Section roundtrip.
Context `{HE : EncHost, HD : DecHost}.

(** ** Integers *)

(** A 64-bit varint read back is the value that was written. *)
Theorem varint_roundtrip m v s :
  0 ≤ v < 2 ^ 64 → buffer m s 10 →
  encodes (pb_encode_varint v) 10 s (reads_all pb_decode_varint (Some v)).
Proof.
  intros Hv Hr. pose proof (uleb_length v) as Hlen.
  eapply produces_encodes; [by apply produces_varint|done|lia|apply uleb_bytes; lia|].
  intros st Hin. by apply (pb_decode_varint_uleb st v []), app_nil_input.
Qed.

(** an [int32] or a [uint32], encoded as its 64-bit conversion the way
    [pb_enc_varint] does, is read back by the 32-bit decoder; a negative number
    takes ten bytes, of which the decoder keeps 32 bits. *)
Theorem varint32_roundtrip m x s :
  - 2 ^ 31 ≤ x < 2 ^ 32 → buffer m s 10 →
  encodes (pb_encode_varint (u64 x)) 10 s (reads_all pb_decode_varint32 (Some (u32 x))).
Proof.
  intros Hx Hr. pose proof (uleb_length (u64 x)) as Hlen.
  assert (0 ≤ u64 x < 2 ^ 64) as Hu by (apply wrapu_range; lia).
  eapply produces_encodes; [by apply produces_varint|done|lia|apply uleb_bytes; lia|].
  intros st Hin%app_nil_input. destruct (Z_lt_le_dec x 0).
  - rewrite (uleb_length_negative x) by lia. apply (pb_decode_varint32_negative st x []); [lia|done].
  - rewrite (wrapu_small 64 x) in * by (pow2; lia). rewrite wrapu_small by lia.
    apply (pb_decode_varint32_uleb st x []); [lia|done].
Qed.

(** Zig-zag: a signed 64-bit integer is read back. *)
Theorem svarint_roundtrip m x s :
  - 2 ^ 63 ≤ x < 2 ^ 63 → buffer m s 10 →
  encodes (pb_encode_svarint x) 10 s (reads_all pb_decode_svarint (Some x)).
Proof.
  intros Hx Hr. pose proof (uleb_length (zigzag x)) as Hlen.
  pose proof (zigzag_range x Hx).
  eapply produces_encodes; [by apply produces_svarint|done|lia|apply uleb_bytes; lia|].
  intros st Hin%app_nil_input. unfold pb_decode_svarint.
  run_with (pb_decode_varint_uleb st (zigzag x) [] (zigzag_range x Hx) Hin).
  simpl. by rewrite unzigzag_zigzag.
Qed.

(** ** Tags *)

(** The field number and the wire type of a tag are read back; the tag is
    not taken for the end of the message. *)
Theorem tag_roundtrip m wt t s :
  0 ≤ wt < 8 → 0 < t < 2 ^ 29 → buffer m s 5 →
  encodes (pb_encode_tag wt t) 5 s (reads_all pb_decode_tag (Some (t, wt), false)).
Proof.
  intros Hw Ht Hr.
  assert (0 ≤ 8 * t + wt < 2 ^ 32) as Hv by (change (2 ^ 32) with (8 * 2 ^ 29); lia).
  pose proof (uleb_length (8 * t + wt)) as Hlen. pose proof (uleb_length_32 _ Hv).
  eapply produces_encodes; [apply produces_tag; [done|pow2; lia]|done| | |].
  - unfold tag_bytes. lia.
  - apply uleb_bytes; lia.
  - intros st Hin%app_nil_input. by apply (pb_decode_tag_bytes st wt t []).
Qed.
End roundtrip.
