(* ===== verification/PbEncodeSpec.v ===== *)
(** * nanopb: a reference encoder, and that pb_encode implements it

    [wire_message] says what the bytes of a message are: a function of the
    descriptors and of the memory, without streams, buffers or sizing passes.
    The theorems show that [pb_encode] appends exactly those bytes to a stream
    that has room, that it counts them on a sizing stream, and that it reports a
    full stream otherwise. *)
From S2P Require Import Prelude CMem PbTypes PbIter PbIterSpec PbOutput PbEncode PbInput PbWire PbEmit.

(** ** The reference encoder *)

Definition delimited (l : list Z) : list Z := uleb (Z.of_nat (length l)) ++ l.

Section wire.
Context (ro : rodata) (m : mem).

(** An integer of the size of the field. *)
Definition ref_int (f : pb_field_t) (src : Z) : option Z :=
  if bool_decide (data_size f ∈ [1; 2; 4; 8])
  then load m src (Z.to_nat (data_size f)) else None.
Definition ref_sint (f : pb_field_t) (src : Z) : option Z :=
  wraps (8 * data_size f) <$> ref_int f src.

(** The bytes before the NUL, at most [max]. *)
Definition ref_string (src max : Z) : option (list Z) :=
  n ← c_strnlen m (size (bytes m)) src 0 max;
  load_bytes m src (Z.to_nat n).

Fixpoint all_zero (n : nat) (a : Z) : option bool :=
  match n with
  | O => Some true
  | S n' => b ← load m a 1; if b =? 0 then all_zero n' (a + 1) else Some false
  end.

(** Does [g] hold of the fields at the positions [k], ..., [k + c - 1]? *)
Fixpoint all_fields (g : pb_field_t → Z → option bool) (fields : list pb_field_t)
    (base : Z) (k c : nat) : option bool :=
  match c with
  | O => Some true
  | S c' =>
      it ← iter_nth fields base k;
      f ← iter_field it;
      b ← g f (pData it);
      if (b : bool) then all_fields g fields base (S k) c' else Some false
  end.

(** Has a proto3 field its default value? *)
Fixpoint proto3_default (fuel : nat) (f : pb_field_t) (p : Z) : option bool :=
  match fuel with
  | O => None
  | S fuel' =>
    let pSize := p + size_offset f in
    let h := PB_HTYPE (type f) in
    let l := PB_LTYPE (type f) in
    if h =? PB_HTYPE_REQUIRED then Some false
    else if (h =? PB_HTYPE_REPEATED) || (h =? PB_HTYPE_ONEOF) then
      n ← load m pSize 4; Some (n =? 0)
    else if (h =? PB_HTYPE_OPTIONAL) && negb (size_offset f =? 0) then
      b ← load m pSize 1; Some (b =? 0)
    else if negb (PB_ATYPE (type f) =? PB_ATYPE_STATIC) then
      all_zero (Z.to_nat (data_size f)) p
    else if l =? PB_LTYPE_BYTES then
      n ← load m p 4; Some (n =? 0)
    else if l =? PB_LTYPE_STRING then
      c ← load m p 1; Some (c =? 0)
    else if l =? PB_LTYPE_FIXED_LENGTH_BYTES then Some (data_size f =? 0)
    else if l =? PB_LTYPE_SUBMESSAGE then
      fields ← submsg_fields ro (ptr f);
      n ← field_count fields;
      all_fields (proto3_default fuel') fields p 0 n
    else all_zero (Z.to_nat (data_size f)) p
  end.

Section message.
(** The bytes of a nested message, and the bound on the nesting. *)
Variable wire_rec : list pb_field_t → Z → option (list Z).
Variable depth : nat.

(** The payload of a field for the value at [src]. *)
Definition wire_value (f : pb_field_t) (src : Z) : option (list Z) :=
  let l := PB_LTYPE (type f) in
  if l =? PB_LTYPE_VARINT then
    v ← ref_sint f src; Some (uleb (u64 v))
  else if l =? PB_LTYPE_UVARINT then
    v ← ref_int f src; Some (uleb v)
  else if l =? PB_LTYPE_SVARINT then
    v ← ref_sint f src; Some (uleb (if v <? 0 then - 2 * v - 1 else 2 * v))
  else if l =? PB_LTYPE_FIXED32 then load_bytes m src 4
  else if l =? PB_LTYPE_FIXED64 then load_bytes m src 8
  else if l =? PB_LTYPE_BYTES then
    if src =? NULL then Some (delimited [])
    else
      n ← load m src 4;
      if (PB_ATYPE (type f) =? PB_ATYPE_STATIC) && (data_size f <? n + 4) then None
      else delimited <$> load_bytes m (src + 4) (Z.to_nat n)
  else if l =? PB_LTYPE_STRING then
    if src =? NULL then Some (delimited [])
    else
      delimited <$> ref_string src
        (if PB_ATYPE (type f) =? PB_ATYPE_POINTER then 2 ^ 64 - 1 else data_size f)
  else if l =? PB_LTYPE_SUBMESSAGE then
    fields ← submsg_fields ro (ptr f);
    delimited <$> wire_rec fields src
  else if l =? PB_LTYPE_FIXED_LENGTH_BYTES then
    delimited <$> load_bytes m src (Z.to_nat (data_size f))
  else None.

Definition wire_tag (f : pb_field_t) : option (list Z) :=
  (λ wt, tag_bytes wt (tag f)) <$> wiretype_of_ltype (PB_LTYPE (type f)).

(** A tag and its payload. *)
Definition wire_one (f : pb_field_t) (src : Z) : option (list Z) :=
  t ← wire_tag f; v ← wire_value f src; Some (t ++ v).

Fixpoint wire_items (g : Z → option (list Z)) (f : pb_field_t) (p : Z) (i : Z) (n : nat)
    : option (list Z) :=
  match n with
  | O => Some []
  | S n' =>
      v ← g (p + i * data_size f);
      l ← wire_items g f p (i + 1) n';
      Some (v ++ l)
  end.

(** Numbers are packed in one string; other items have each their tag. *)
Definition wire_array (f : pb_field_t) (p count : Z) : option (list Z) :=
  if count =? 0 then Some []
  else if negb (PB_ATYPE (type f) =? PB_ATYPE_POINTER) && (array_size f <? count)
  then None
  else if PB_LTYPE (type f) <=? PB_LTYPE_LAST_PACKABLE then
    l ← wire_items (wire_value f) f p 0 (Z.to_nat count);
    Some (tag_bytes PB_WT_STRING (tag f) ++ delimited l)
  else
    wire_items (λ a,
      src ← (if (PB_ATYPE (type f) =? PB_ATYPE_POINTER) &&
                ((PB_LTYPE (type f) =? PB_LTYPE_STRING) ||
                 (PB_LTYPE (type f) =? PB_LTYPE_BYTES))
             then load m a 8 else Some a);
      wire_one f src) f p 0 (Z.to_nat count).

Definition wire_basic (f : pb_field_t) (pData : Z) : option (list Z) :=
  let h := PB_HTYPE (type f) in
  let pSize := pData + size_offset f in
  let pointer := PB_ATYPE (type f) =? PB_ATYPE_POINTER in
  if bool_decide (PB_LTYPE (type f) ≤ 9) then
    p ← (if pointer then load m pData 8 else Some pData);
    if h =? PB_HTYPE_REQUIRED then
      if p =? NULL then None else wire_one f p
    else if h =? PB_HTYPE_OPTIONAL then
      has ← (if negb (size_offset f =? 0) then b ← load m pSize 1; Some (negb (b =? 0))
             else
               d ← proto3_default depth f pData;
               Some (if pointer then negb (p =? NULL) else negb d));
      if (has : bool) then wire_one f p else Some []
    else if h =? PB_HTYPE_REPEATED then
      count ← (if negb (size_offset f =? 0) then load m pSize 4 else Some (array_size f));
      wire_array f p count
    else if size_offset f =? 0 then None
    else
      which ← load m pSize 4;
      if which =? tag f then wire_one f p else Some []
  else None.

(** What application callbacks produce is not part of the reference: only
    fields without one are. *)
Definition wire_field (f : pb_field_t) (pData : Z) : option (list Z) :=
  if (PB_ATYPE (type f) =? PB_ATYPE_STATIC) || (PB_ATYPE (type f) =? PB_ATYPE_POINTER)
  then wire_basic f pData
  else if PB_ATYPE (type f) =? PB_ATYPE_CALLBACK then
    fn ← load m (pData + callback_funcs) 8;
    if fn =? NULL then Some [] else None
  else None.

(** A chain of at most [fuel - 1] extensions. *)
Fixpoint wire_extensions (fuel : nat) (ext : Z) : option (list Z) :=
  match fuel with
  | O => None
  | S fuel' =>
      if ext =? NULL then Some []
      else
        t ← load m (ext + extension_type) 8;
        ty ← ext_type_of ro t;
        if negb (ext_encode ty =? NULL) then None
        else
          f ← ext_arg ty !! 0%nat;
          p ← (if PB_ATYPE (type f) =? PB_ATYPE_POINTER
               then Some (ext + extension_dest) else load m (ext + extension_dest) 8);
          l1 ← wire_field f p;
          next ← load m (ext + extension_next) 8;
          l2 ← wire_extensions fuel' next;
          Some (l1 ++ l2)
  end.

Fixpoint wire_fields (fields : list pb_field_t) (base : Z) (k c : nat) : option (list Z) :=
  match c with
  | O => Some []
  | S c' =>
      it ← iter_nth fields base k;
      f ← iter_field it;
      l1 ← (if PB_LTYPE (type f) =? PB_LTYPE_EXTENSION
            then ext ← load m (pData it) 8; wire_extensions depth ext
            else wire_field f (pData it));
      l2 ← wire_fields fields base (S k) c';
      Some (l1 ++ l2)
  end.

Definition wire_body (fields : list pb_field_t) (base : Z) : option (list Z) :=
  n ← field_count fields; wire_fields fields base 0 n.
End message.

(** The bytes of a message with at most [fuel] levels. *)
Fixpoint wire_message (fuel : nat) (fields : list pb_field_t) (base : Z)
    : option (list Z) :=
  match fuel with
  | O => None
  | S fuel' => wire_body (wire_message fuel') fuel fields base
  end.
End wire.

(** ** Fields *)

(** The values that fit the members of [pb_field_s]. *)
Record field_ok (f : pb_field_t) : Prop := {
  ok_tag : 0 ≤ tag f < 2 ^ 32;
  ok_data_size : 0 ≤ data_size f < 2 ^ 32;
  ok_array_size : 0 ≤ array_size f < 2 ^ 32;
}.

(** The descriptors of the program have the widths of [pb_field_s]. *)
Record rodata_ok (ro : rodata) : Prop := {
  rodata_fields : ∀ id fields, fields_of ro id = Some fields → Forall field_ok fields;
  rodata_ext : ∀ t ty, ext_type_of ro t = Some ty → Forall field_ok (ext_arg ty);
}.

(** Take apart a reference that gives a value. *)
Ltac ref_inv :=
  repeat match goal with
  | H : _ ≫= _ = Some _ |- _ => apply bind_Some in H as (? & ? & ?)
  | H : _ <$> _ = Some _ |- _ => apply fmap_Some in H as (? & ? & ->)
  | H : Some _ = Some _ |- _ => injection H as <- || injection H as ->
  | H : None = Some _ |- _ => discriminate H
  end.

Section fields.
Context `{H : EncHost} (m : mem).
Context (Hm : wf_mem m).

Lemma ref_int_inv f src v :
  ref_int m f src = Some v →
  (data_size f = 1 ∨ data_size f = 2 ∨ data_size f = 4 ∨ data_size f = 8) ∧
  load m src (Z.to_nat (data_size f)) = Some v.
Proof.
  unfold ref_int. case_bool_decide as E; [|done]. rewrite !elem_of_cons, elem_of_nil in E.
  intros ->. split; [tauto|done].
Qed.

Lemma reads_load_sint f src v :
  ref_sint m f src = Some v → reads m (load_sint f src) (Some v).
Proof.
  unfold ref_sint. intros (x & (Hd & Hx)%ref_int_inv & ->)%fmap_Some. unfold load_sint.
  destruct Hd as [E|[E|[E|E]]]; rewrite E in *; simpl;
    (eapply reads_bind; [by apply reads_eload|apply reads_ret]).
Qed.

Lemma ref_sint_range f src v : ref_sint m f src = Some v → - 2 ^ 63 ≤ v < 2 ^ 63.
Proof.
  unfold ref_sint. intros (x & (Hd & Hx)%ref_int_inv & ->)%fmap_Some.
  pose proof (wraps_range (8 * data_size f) x ltac:(lia)) as Hr.
  assert (2 ^ (8 * data_size f - 1) ≤ 2 ^ 63) by (apply Z.pow_le_mono_r; lia). lia.
Qed.

Lemma produces_enc_varint f src v :
  ref_sint m f src = Some v → produces m (pb_enc_varint f src) (uleb (u64 v)).
Proof.
  intros Hv. unfold pb_enc_varint. eapply produces_bind; [by apply reads_load_sint|].
  apply produces_varint, wrapu_range. lia.
Qed.

Lemma produces_enc_uvarint f src v :
  ref_int m f src = Some v → produces m (pb_enc_uvarint f src) (uleb v).
Proof.
  intros [Hd Hv]%ref_int_inv. pose proof (load_range _ _ _ _ Hm Hv) as Hr.
  assert (256 ^ Z.of_nat (Z.to_nat (data_size f)) ≤ 2 ^ 64).
  { change 256 with (2 ^ 8). rewrite <-Z.pow_mul_r by lia. apply Z.pow_le_mono_r; lia. }
  assert (0 ≤ v < 2 ^ 64) by lia.
  unfold pb_enc_uvarint. destruct Hd as [E|[E|[E|E]]]; rewrite E in *; simpl;
    (eapply produces_load; [done|]; by apply produces_varint).
Qed.

Lemma produces_enc_svarint f src v :
  ref_sint m f src = Some v →
  produces m (pb_enc_svarint f src) (uleb (if v <? 0 then - 2 * v - 1 else 2 * v)).
Proof.
  intros Hv. pose proof (ref_sint_range _ _ _ Hv). unfold pb_enc_svarint.
  eapply produces_bind; [by apply reads_load_sint|]. cbv beta iota.
  rewrite <-zigzag_spec by done. by apply produces_svarint.
Qed.

Lemma produces_enc_fixed32 f src l :
  load_bytes m src 4 = Some l → produces m (pb_enc_fixed32 f src) l.
Proof.
  intros Hl. pose proof (load_bytes_wf _ _ _ _ Hm Hl) as Hby.
  rewrite <-(le_split_combine l Hby), (load_bytes_length _ _ _ _ Hl).
  apply produces_fixed32. unfold load. by rewrite Hl.
Qed.

Lemma produces_enc_fixed64 f src l :
  load_bytes m src 8 = Some l → produces m (pb_enc_fixed64 f src) l.
Proof.
  intros Hl. pose proof (load_bytes_wf _ _ _ _ Hm Hl) as Hby.
  rewrite <-(le_split_combine l Hby), (load_bytes_length _ _ _ _ Hl).
  apply produces_fixed64. unfold load. by rewrite Hl.
Qed.

(** A string of the memory, of a length the code has. *)
Lemma produces_mem_string a n l :
  load_bytes m a (Z.to_nat n) = Some l → 0 ≤ n < 2 ^ 64 →
  produces m (pb_encode_string (BMem a) n) (delimited l).
Proof.
  intros Hl Hn. pose proof (load_bytes_length _ _ _ _ Hl) as El.
  replace n with (Z.of_nat (length l)) by lia.
  apply produces_string; [by eapply load_bytes_wf|lia|by rewrite El].
Qed.

Lemma produces_null_string : produces m (pb_encode_string BNull 0) (delimited []).
Proof. apply (produces_string m BNull []); [constructor|simpl; lia|done]. Qed.

Lemma produces_enc_bytes f src n l :
  src ≠ NULL → load m src 4 = Some n →
  (PB_ATYPE (type f) =? PB_ATYPE_STATIC) && (data_size f <? n + 4) = false →
  load_bytes m (src + 4) (Z.to_nat n) = Some l →
  produces m (pb_enc_bytes f src) (delimited l).
Proof.
  intros Hs Hn Hc Hl. pose proof (load_range _ _ _ _ Hm Hn) as Hr. simpl in Hr.
  unfold pb_enc_bytes. rewrite (proj2 (Z.eqb_neq src NULL)) by done.
  unfold bytes_array_size. rewrite Z.add_0_r. eapply produces_load; [done|].
  unfold PB_BYTES_ARRAY_T_ALLOCSIZE, bytes_array_bytes.
  rewrite wrapu_small by (pow2; lia). rewrite Hc.
  apply produces_mem_string; [done|pow2; lia].
Qed.

(** [strnlen] gives the same in a larger memory. *)
Lemma c_strnlen_mono m' fuel fuel' p sz mx r :
  (∀ a b, bytes m !! a = Some b → bytes m' !! a = Some b) → (fuel ≤ fuel')%nat →
  c_strnlen m fuel p sz mx = Some r → c_strnlen m' fuel' p sz mx = Some r.
Proof.
  intros Hsub. revert fuel' p sz. induction fuel as [|fuel IH]; intros fuel' p sz Hf;
    (destruct fuel' as [|fuel']; [|]); simpl; try lia;
    destruct (sz <? mx); try done; unfold load_byte;
    destruct (bytes m !! p) as [c|] eqn:E; simpl; try done;
    rewrite (Hsub _ _ E); simpl; destruct (c =? 0); try done; apply IH; lia.
Qed.

Lemma c_strnlen_range m' fuel p sz mx r :
  0 ≤ sz ≤ mx → c_strnlen m' fuel p sz mx = Some r → sz ≤ r ≤ mx.
Proof.
  revert p sz. induction fuel as [|fuel IH]; intros p sz Hsz; simpl;
    destruct (Z.ltb_spec sz mx); try (intros [= <-]; lia);
    destruct (load_byte m' p) as [c|]; simpl; try done;
    destruct (c =? 0); try done; try (intros [= <-]; lia).
  intros Hr%IH; lia.
Qed.

Lemma produces_enc_string f src l :
  field_ok f → src ≠ NULL →
  ref_string m src (if PB_ATYPE (type f) =? PB_ATYPE_POINTER then 2 ^ 64 - 1 else data_size f)
    = Some l →
  produces m (pb_enc_string f src) (delimited l).
Proof.
  intros Hok Hs Hl. unfold pb_enc_string. rewrite (proj2 (Z.eqb_neq src NULL)) by done.
  set (mx := if _ =? _ then _ else _) in *.
  assert (0 ≤ mx < 2 ^ 64) as Hmx.
  { destruct Hok as [_ Hd _]. unfold mx. destruct (_ =? _); pow2; lia. }
  unfold ref_string in Hl. apply bind_Some in Hl as (n & Hn & Hl).
  pose proof (c_strnlen_range _ _ _ _ _ _ (conj (Z.le_refl 0) (proj1 Hmx)) Hn).
  apply (produces_ext _ _ (pb_encode_string (BMem src) n));
    [|apply produces_mem_string; [done|lia]].
  intros s Hr _. unfold get_emem, get_state. run_unfold.
  rewrite (c_strnlen_mono (e_mem s) (size (bytes m)) _ _ _ _ n); [done| | |done].
  - intros a b. by apply ready_src.
  - rewrite <-!size_dom. apply subseteq_size. intros a.
    rewrite !elem_of_dom. intros [b Hb]. exists b. by eapply ready_src.
Qed.
End fields.

(** ** Sizing passes and substreams *)

Lemma sizing_ready m s : ready m s → ready m (EState (e_mem s) PB_OSTREAM_SIZING).
Proof. intros [Hsrc Hby _ _ _]. constructor; simpl; [done|done|lia|done|by left]. Qed.

(** A sizing pass gives the length and changes nothing. *)
Lemma on_sizing m (c : enc bool) l s :
  produces m c l → ready m s → Z.of_nat (length l) < 2 ^ 64 →
  on_ostream PB_OSTREAM_SIZING c s =
  Done ((true, PbOStream OcbNull NULL 0 (Z.of_nat (length l)) None), s).
Proof.
  intros Hc Hr Hl. destruct s as [mm o].
  destruct (Hc _ (sizing_ready _ _ Hr) Hl) as [Hfit _].
  destruct Hfit as (s' & Ec & [[_ ->]|[? _]]); [by left| |done].
  unfold on_ostream, get_out, set_out, get_state, put_state. run_unfold.
  simpl in *. by rewrite Ec.
Qed.

(** The substream of exactly [n] bytes of a buffer. *)
Definition exact_stream (n : Z) (o : pb_ostream_t) : pb_ostream_t :=
  PbOStream (PbOutput.callback o) (PbOutput.state o) n 0 None.

(** A run on the substream of its size writes all of it. *)
Lemma on_exact m (c : enc bool) l s :
  produces m c l → ready m s → PbOutput.callback (e_out s) = OcbBufWrite →
  bytes_written (e_out s) + Z.of_nat (length l) ≤ max_size (e_out s) →
  ∃ m', on_ostream (exact_stream (Z.of_nat (length l)) (e_out s)) c s =
      Done ((true, account (length l) (exact_stream (Z.of_nat (length l)) (e_out s))),
            EState m' (e_out s)) ∧
    frame (PbOutput.state (e_out s)) (Z.of_nat (length l)) (e_mem s) m' ∧
    load_bytes m' (PbOutput.state (e_out s)) (length l) = Some l.
Proof.
  intros Hc Hr Hcb Hroom. destruct s as [mm o]. simpl in *.
  pose proof Hr as [Hsrc Hby Hw _ [?|(_ & Hmax & Hmap & Hdis)]]; [simpl in *; congruence|].
  simpl in *.
  set (s0 := EState mm (exact_stream (Z.of_nat (length l)) o)).
  assert (ready m s0) as Hr0.
  { constructor; simpl; [done|done|lia|done|right; split_and!; [done|lia|lia| |]].
    - eapply mapped_sub; [done|lia|lia].
    - intros a Ha. apply Hdis. lia. }
  destruct (Hc s0 Hr0) as [Hfit _]; [simpl; lia|].
  destruct Hfit as (s' & Ec & [[? _]|[_ [Ho Hf Hl]]]); [right; simpl; lia|simpl in *; congruence|].
  exists (e_mem s'). split_and!; [|done|done].
  unfold on_ostream, get_out, set_out, get_state, put_state. run_unfold. cbn.
  unfold s0 in Ec, Ho. rewrite Ec. cbn. by rewrite Ho.
Qed.

(** [pb_write(stream, NULL, size)] on a sizing stream, and a check of the room and
    a second pass on a buffer: the way nested messages and packed arrays are
    written after their size. *)
Definition second_pass `{EncHost} (size : Z) (c : enc bool) : enc bool :=
  stream ← get_out;
  if bool_decide (PbOutput.callback stream = OcbNull) then pb_write BNull size else c.

Section passes.
Context `{H : EncHost} (m : mem).

Lemma produces_second_pass (c : enc bool) l :
  (∀ s, PbOutput.callback (e_out s) = OcbBufWrite → ready m s →
     bytes_written (e_out s) + Z.of_nat (length l) < 2 ^ 64 →
     (fits (Z.of_nat (length l)) s → ∃ s', c s = Done (true, s') ∧ output l s s') ∧
     (¬ fits (Z.of_nat (length l)) s → ∃ s', c s = Done (false, s') ∧ overflow s s')) →
  produces m (second_pass (Z.of_nat (length l)) c) l.
Proof.
  intros Hc s Hr Hw. unfold second_pass. run_with (run_get_out s).
  destruct (ready_stream _ _ Hr) as [Hcb|(Hcb & _)].
  - rewrite bool_decide_eq_true_2 by done. split; [|intros []; by left]. intros _.
    pose proof (ready_written _ _ Hr).
    eexists. split; [by apply pb_write_sizing|]. left. split; [done|].
    by rewrite wrapu_small by lia.
  - rewrite bool_decide_eq_false_2 by congruence. by apply Hc.
Qed.

Lemma produces_submessage rec fields src l :
  produces m (rec fields src) l →
  produces m (pb_encode_submessage rec fields src) (delimited l).
Proof.
  intros Hrec.
  apply (produces_ext _ _
    (check! pb_encode_varint (Z.of_nat (length l));
     second_pass (Z.of_nat (length l))
       (stream ← get_out;
        if max_size stream <? u64 (bytes_written stream + Z.of_nat (length l)) then
          o_return_error "stream full"
        else
          '(status, substream) ←
            on_ostream (exact_stream (Z.of_nat (length l)) stream) (rec fields src);
          set_out (PbOStream (PbOutput.callback stream) (PbOutput.state substream)
                     (max_size stream)
                     (u64 (bytes_written stream + bytes_written substream))
                     (PbOutput.errmsg substream));;
          if negb (bytes_written substream =? Z.of_nat (length l)) then
            o_return_error "submsg size changed"
          else mret status))).
  { intros s Hr Hl. unfold delimited in Hl. rewrite length_app in Hl.
    unfold pb_encode_submessage. run_with (on_sizing m _ l s Hrec Hr ltac:(lia)). cbn [negb].
    apply bind_ext; [done|]. intros [] s1; [|done].
    unfold second_pass, get_out, get_state. run_unfold. by destruct (bool_decide _). }
  apply produces_small. intros Hw. unfold delimited in *. rewrite length_app in Hw.
  apply produces_check; [apply produces_varint; lia|]. apply produces_second_pass. clear Hw. intros s Hcb Hr Hw.
  pose proof (ready_written _ _ Hr). pose proof (ready_errmsg _ _ Hr) as Her.
  run_with (run_get_out s). rewrite wrapu_small by lia. unfold fits.
  split.
  - intros [?|Hf]; [congruence|]. rewrite (proj2 (Z.ltb_ge _ _)) by done.
    destruct (on_exact m _ l s Hrec Hr Hcb Hf) as (m' & Eo & Hfr & Hld).
    rewrite Eo. cbn. rewrite Z.eqb_refl. cbn. eexists. split; [done|]. right.
    split; [done|]. constructor; simpl; [|done|done].
    unfold account. rewrite Her, wrapu_small by lia. done.
  - intros Hf. rewrite (proj2 (Z.ltb_lt _ _)).
    + eexists. split; [done|]. by constructor; simpl; [rewrite Her|].
    + destruct (Z_lt_le_dec (max_size (e_out s)) (bytes_written (e_out s) + Z.of_nat (length l)));
        [done|]. destruct Hf. by right.
Qed.

(** [pb_encode_tag_for_field] *)
Lemma produces_tag_for_field f t :
  field_ok f → wire_tag f = Some t → produces m (pb_encode_tag_for_field f) t.
Proof.
  intros Hok. unfold wire_tag, pb_encode_tag_for_field.
  destruct (wiretype_of_ltype _) as [wt|] eqn:E; [|done]. intros [= <-].
  apply produces_tag; [|apply Hok]. unfold wiretype_of_ltype in E.
  repeat (destruct (_ || _) in E; [injection E as <-; done|]).
  do 2 (destruct (_ =? _) in E; [injection E as <-; done|]).
  by destruct (_ || _) in E; [injection E as <-|].
Qed.
End passes.

(** ** Values, arrays and basic fields *)

Section values.
Context `{H : EncHost} (m : mem).
Context (Hm : wf_mem m).
Context (wire_rec : list pb_field_t → Z → option (list Z)).
Context (enc_rec : list pb_field_t → Z → enc bool).
Context (Hro : rodata_ok enc_ro).
Context (Hrec : ∀ fields src l, Forall field_ok fields →
  wire_rec fields src = Some l → produces m (enc_rec fields src) l).

Lemma produces_enc_submessage f src fields l :
  submsg_fields enc_ro (ptr f) = Some fields → wire_rec fields src = Some l →
  produces m (pb_enc_submessage enc_rec f src) (delimited l).
Proof.
  intros Hf Hl. unfold pb_enc_submessage. destruct (ptr f) as [|id|bs] eqn:Ep; [done| |done].
  eapply produces_bind; [by apply reads_lift|]. apply produces_submessage, Hrec; [|done].
  by eapply rodata_fields.
Qed.

Lemma produces_value f src func l :
  field_ok f →
  PB_ENCODERS enc_rec !! Z.to_nat (PB_LTYPE (type f)) = Some func →
  wire_value enc_ro m wire_rec f src = Some l →
  produces m (call_encoder func f src) l.
Proof.
  intros Hok Hfunc. unfold wire_value.
  destruct (Z.eqb_spec (PB_LTYPE (type f)) PB_LTYPE_VARINT) as [E|_].
  { rewrite E in Hfunc. simplify_eq/=. intros ?. ref_inv. by apply produces_enc_varint. }
  destruct (Z.eqb_spec (PB_LTYPE (type f)) PB_LTYPE_UVARINT) as [E|_].
  { rewrite E in Hfunc. simplify_eq/=. intros ?. ref_inv. by apply produces_enc_uvarint. }
  destruct (Z.eqb_spec (PB_LTYPE (type f)) PB_LTYPE_SVARINT) as [E|_].
  { rewrite E in Hfunc. simplify_eq/=. intros ?. ref_inv. by apply produces_enc_svarint. }
  destruct (Z.eqb_spec (PB_LTYPE (type f)) PB_LTYPE_FIXED32) as [E|_].
  { rewrite E in Hfunc. simplify_eq/=. by apply produces_enc_fixed32. }
  destruct (Z.eqb_spec (PB_LTYPE (type f)) PB_LTYPE_FIXED64) as [E|_].
  { rewrite E in Hfunc. simplify_eq/=. by apply produces_enc_fixed64. }
  destruct (Z.eqb_spec (PB_LTYPE (type f)) PB_LTYPE_BYTES) as [E|_].
  { rewrite E in Hfunc. simplify_eq/=. destruct (Z.eqb_spec src NULL) as [->|Hs].
    - intros [= <-]. unfold pb_enc_bytes. simpl. apply produces_null_string.
    - intros (n & Hn & Hl)%bind_Some. destruct (_ && _) eqn:Ec; [done|]. ref_inv.
      by eapply produces_enc_bytes. }
  destruct (Z.eqb_spec (PB_LTYPE (type f)) PB_LTYPE_STRING) as [E|_].
  { rewrite E in Hfunc. simplify_eq/=. destruct (Z.eqb_spec src NULL) as [->|Hs].
    - intros [= <-]. unfold pb_enc_string. simpl. apply produces_null_string.
    - intros ?. ref_inv. by apply produces_enc_string. }
  destruct (Z.eqb_spec (PB_LTYPE (type f)) PB_LTYPE_SUBMESSAGE) as [E|_].
  { rewrite E in Hfunc. simplify_eq/=. intros ?. ref_inv. by eapply produces_enc_submessage. }
  destruct (Z.eqb_spec (PB_LTYPE (type f)) PB_LTYPE_FIXED_LENGTH_BYTES) as [E|_]; [|done].
  rewrite E in Hfunc. simplify_eq/=. intros ?. ref_inv.
  apply produces_mem_string; [done|done|]. destruct Hok as [_ ? _]. pow2. lia.
Qed.

(** [check! pb_encode_tag_for_field field; func field p] *)
Lemma produces_one f src func l :
  field_ok f →
  PB_ENCODERS enc_rec !! Z.to_nat (PB_LTYPE (type f)) = Some func →
  wire_one enc_ro m wire_rec f src = Some l →
  produces m (check! pb_encode_tag_for_field f; call_encoder func f src) l.
Proof.
  intros Hok Hfunc Hl. unfold wire_one in Hl. ref_inv.
  apply produces_check; [by apply produces_tag_for_field|by apply produces_value].
Qed.

(** A loop over the items of an array. *)
Lemma produces_items (g : Z → option (list Z)) (c : Z → enc bool) f p i n l :
  (∀ a v, g a = Some v → produces m (c a) v) →
  wire_items g f p i n = Some l →
  produces m (for_loop n i (λ i, c (p + i * data_size f))) l.
Proof.
  intros Hg. revert i l. induction n as [|n IH]; intros i l; cbn [wire_items for_loop]; intros Hl.
  - injection Hl as <-. apply produces_ret.
  - ref_inv. apply produces_check; [by apply Hg|by apply IH].
Qed.

Lemma wire_items_length g f p i n k l :
  (∀ a v, g a = Some v → length v = k) → wire_items g f p i n = Some l →
  length l = (n * k)%nat.
Proof.
  intros Hg. revert i l. induction n as [|n IH]; intros i l; cbn [wire_items]; intros Hl.
  - by injection Hl as <-.
  - ref_inv. rewrite length_app. erewrite (Hg _ x), IH by done. lia.
Qed.

Lemma produces_packed f p count func l :
  field_ok f →
  PB_ENCODERS enc_rec !! Z.to_nat (PB_LTYPE (type f)) = Some func →
  wire_items (wire_value enc_ro m wire_rec f) f p 0 (Z.to_nat count) = Some l →
  produces m (check! pb_encode_varint (Z.of_nat (length l));
              second_pass (Z.of_nat (length l))
                (encode_elements f p count (call_encoder func))) (delimited l).
Proof.
  intros Hok Hfunc Hl. apply produces_small. unfold delimited. rewrite length_app. intros Hw.
  apply produces_check; [apply produces_varint; lia|]. apply produces_second_pass.
  intros s _. assert (produces m (encode_elements f p count (call_encoder func)) l) as Hp.
  { unfold encode_elements.
    apply (produces_items (wire_value enc_ro m wire_rec f) (call_encoder func f)); [|done].
    intros a v. by apply produces_value. }
  apply Hp.
Qed.

Lemma produces_array f p count func l :
  field_ok f → 0 ≤ count < 2 ^ 32 →
  PB_ENCODERS enc_rec !! Z.to_nat (PB_LTYPE (type f)) = Some func →
  wire_array enc_ro m wire_rec f p count = Some l →
  produces m (encode_array f p count (call_encoder func)) l.
Proof.
  intros Hok Hcount Hfunc. unfold wire_array, encode_array.
  destruct (count =? 0); [intros [= <-]; apply produces_ret|].
  destruct (_ && _); [done|].
  destruct (PB_LTYPE (type f) <=? PB_LTYPE_LAST_PACKABLE).
  - intros (body & Hl & [= <-])%bind_Some.
    apply produces_check; [apply produces_tag; [done|apply Hok]|].
    pose proof (produces_packed f p count func body Hok Hfunc Hl) as Hp. unfold second_pass in Hp.
    destruct (Z.eqb_spec (PB_LTYPE (type f)) PB_LTYPE_FIXED32) as [E|E32].
    { assert (length body = Z.to_nat count * 4)%nat as Elen.
      { eapply wire_items_length; [|done]. intros a v. unfold wire_value. rewrite E.
        apply (load_bytes_length m a 4). }
      rewrite wrapu_small by (pow2; lia).
      by replace (Z.of_nat (length body)) with (4 * count) in Hp by lia. }
    destruct (Z.eqb_spec (PB_LTYPE (type f)) PB_LTYPE_FIXED64) as [E|E64].
    { assert (length body = Z.to_nat count * 8)%nat as Elen.
      { eapply wire_items_length; [|done]. intros a v. unfold wire_value. rewrite E.
        apply (load_bytes_length m a 8). }
      rewrite wrapu_small by (pow2; lia).
      by replace (Z.of_nat (length body)) with (8 * count) in Hp by lia. }
    eapply produces_ext; [|exact Hp]. intros s Hr Hw.
    unfold delimited in Hw. rewrite length_app in Hw.
    assert (produces m (encode_elements f p count (call_encoder func)) body) as He.
    { unfold encode_elements.
      apply (produces_items (wire_value enc_ro m wire_rec f) (call_encoder func f)); [|done].
      intros a v. by apply produces_value. }
    run_with (on_sizing m _ body s He Hr ltac:(lia)). done.
  - intros Hl. unfold encode_elements.
    apply (produces_items _ (λ a, check! pb_encode_tag_for_field f;
             if (PB_ATYPE (type f) =? PB_ATYPE_POINTER) &&
                ((PB_LTYPE (type f) =? PB_LTYPE_STRING) ||
                 (PB_LTYPE (type f) =? PB_LTYPE_BYTES))
             then q ← eload a 8; call_encoder func f q
             else call_encoder func f a) f p 0 _ _) with (2 := Hl).
    intros a v Hv. destruct (_ && _) eqn:Ec; ref_inv; unfold wire_one in *; ref_inv.
    + apply produces_check; [by apply produces_tag_for_field|].
      eapply produces_load; [done|]. by apply produces_value.
    + apply produces_check; [by apply produces_tag_for_field|]. by apply produces_value.
Qed.
End values.

(** ** Default values of proto3 *)

Section proto3.
Context `{H : EncHost} (m : mem).

Lemma reads_all_zero n p i b :
  all_zero m n (p + i) = Some b →
  reads m (for_loop n i (λ i, b ← eload (p + i) 1; mret (b =? 0))) b.
Proof.
  revert i b. induction n as [|n IH]; intros i b; cbn [all_zero for_loop].
  - intros [= <-]. apply reads_ret.
  - intros (c & Hc & Hb)%bind_Some.
    apply (reads_bind m _ _ (c =? 0)).
    { eapply reads_bind; [by apply reads_eload|apply reads_ret]. }
    destruct (c =? 0); [|injection Hb as <-; apply reads_ret].
    apply IH. by rewrite Z.add_assoc.
Qed.

Lemma reads_all_fields (g : pb_field_t → Z → option bool) (c : pb_field_t → Z → enc bool)
    fields base k n b :
  (∀ f p b, g f p = Some b → reads m (c f p) b) →
  all_fields g fields base k n = Some b →
  reads m (each_field (λ it, f ← lift_option (iter_field it); c f (pData it)) fields base k n) b.
Proof.
  intros Hg. revert k b. induction n as [|n IH]; intros k b; cbn [all_fields each_field].
  - intros [= <-]. apply reads_ret.
  - intros (it & Hit & (f & Hf & (d & Hd & Hb)%bind_Some)%bind_Some)%bind_Some. rewrite Hit.
    apply (reads_bind m _ _ d).
    { eapply reads_bind; [by apply reads_lift|by apply Hg]. }
    destruct d; [by apply IH|injection Hb as <-; apply reads_ret].
Qed.

Lemma reads_check_proto3 fuel f p b :
  proto3_default enc_ro m fuel f p = Some b →
  reads m (pb_check_proto3_default_value fuel f p) b.
Proof.
  revert f p b. induction fuel as [|fuel IH]; intros f p b; [done|].
  cbn [proto3_default pb_check_proto3_default_value].
  destruct (PB_HTYPE (type f) =? PB_HTYPE_REQUIRED); [intros [= <-]; apply reads_ret|].
  assert (∀ a n (g : Z → bool), (v ← load m a n; Some (g v)) = Some b →
    reads m (v ← eload a n; mret (g v)) b) as Hload.
  { intros a n g (v & Hv & [= <-])%bind_Some.
    eapply reads_bind; [by apply reads_eload|apply reads_ret]. }
  destruct (PB_HTYPE (type f) =? PB_HTYPE_REPEATED); [apply Hload|].
  destruct (PB_HTYPE (type f) =? PB_HTYPE_ONEOF); [apply Hload|].
  cbn [orb]. destruct (_ && _); [apply Hload|].
  pose proof (reads_all_zero (Z.to_nat (data_size f)) p 0 b) as Hzero. rewrite Z.add_0_r in Hzero.
  destruct (PB_ATYPE (type f) =? PB_ATYPE_STATIC); cbn [negb]; [|done].
  destruct (PB_LTYPE (type f) =? PB_LTYPE_BYTES).
  { unfold bytes_array_size. rewrite Z.add_0_r. apply Hload. }
  destruct (PB_LTYPE (type f) =? PB_LTYPE_STRING); [apply Hload|].
  destruct (_ =? PB_LTYPE_FIXED_LENGTH_BYTES); [intros [= <-]; apply reads_ret|].
  destruct (_ =? PB_LTYPE_SUBMESSAGE); [|done].
  intros (fields & Hfs & (n & Hn & Hall)%bind_Some)%bind_Some.
  eapply reads_bind; [by apply reads_lift|]. intros s Hr.
  rewrite <-(reads_all_fields _ _ _ _ _ _ _ (IH) Hall s Hr).
  rewrite <-(message_loop _ fields p n s Hn).
  apply bind_ext; [done|]. intros [[] it] s'; [|done].
  apply loop_ext. intros it' s''. unfold field_step. by rewrite bind_assoc.
Qed.
End proto3.

(** ** Whole fields *)

Section whole.
Context `{H : EncHost} (m : mem).
Context (Hm : wf_mem m).
Context (wire_rec : list pb_field_t → Z → option (list Z)).
Context (enc_rec : list pb_field_t → Z → enc bool).
Context (Hro : rodata_ok enc_ro).
Context (Hrec : ∀ fields src l, Forall field_ok fields →
  wire_rec fields src = Some l → produces m (enc_rec fields src) l).
Context (depth : nat).

Lemma reads_if {A} (b : bool) (c d : enc A) v w :
  reads m c v → reads m d w → reads m (if b then c else d) (if b then v else w).
Proof. by destruct b. Qed.

Lemma encoders_lookup f :
  bool_decide (PB_LTYPE (type f) ≤ 9) = true →
  ∃ func, PB_ENCODERS enc_rec !! Z.to_nat (PB_LTYPE (type f)) = Some func.
Proof.
  intros Hl%bool_decide_eq_true. apply lookup_lt_is_Some_2.
  unfold PB_LTYPE, PB_LTYPE_MASK in *. change 0x0F with 15 in *. rewrite land_F in *.
  pose proof (Z.mod_pos_bound (type f) 16). simpl. lia.
Qed.

Lemma produces_basic f p l :
  field_ok f → wire_basic enc_ro m wire_rec depth f p = Some l →
  produces m (encode_basic_field enc_rec depth f p) l.
Proof.
  intros Hok. unfold wire_basic, encode_basic_field.
  destruct (bool_decide _) eqn:El; [|done].
  destruct (encoders_lookup f El) as [func Hfunc].
  intros (q & Hq & Hl)%bind_Some.
  eapply produces_bind; [by apply reads_lift|].
  assert (∀ (b : bool), reads m
    (if PB_ATYPE (type f) =? PB_ATYPE_POINTER
     then p0 ← eload p 8; mret (p0, negb (p0 =? NULL)) else mret (p, b))
    (q, if PB_ATYPE (type f) =? PB_ATYPE_POINTER then negb (q =? NULL) else b)) as Hptr.
  { intros b. destruct (_ =? PB_ATYPE_POINTER).
    - eapply reads_bind; [by apply reads_eload|apply reads_ret].
    - injection Hq as ->. apply reads_ret. }
  pose proof (λ l, produces_one m Hm wire_rec enc_rec Hro Hrec f q func l Hok Hfunc) as Hone.
  destruct (Z.eqb_spec (PB_HTYPE (type f)) PB_HTYPE_REQUIRED) as [Eh|Eh].
  { rewrite Eh. simpl.
    eapply produces_bind.
    { apply (reads_if _ _ _ (Some (p + size_offset f), false) (None, true)); apply reads_ret. }
    destruct (negb (size_offset f =? 0)); (eapply produces_bind; [apply Hptr|]);
      cbv beta iota; (destruct (q =? NULL); [done|by apply Hone]). }
  destruct (Z.eqb_spec (PB_HTYPE (type f)) PB_HTYPE_OPTIONAL) as [Eo|Eo].
  { destruct (negb (size_offset f =? 0)).
    - eapply produces_bind; [apply reads_ret|]. cbv beta iota.
      eapply produces_bind; [apply Hptr|]. cbv beta iota.
      destruct (load m (p + size_offset f) 1) as [b|] eqn:Eb; [|done]. cbn in Hl.
      eapply produces_bind; [eapply reads_bind; [by apply reads_eload|apply reads_ret]|].
      destruct (negb (b =? 0)); [by apply Hone|injection Hl as <-; apply produces_ret].
    - destruct (proto3_default enc_ro m depth f p) as [d|] eqn:Ed; [|done]. cbn in Hl.
      eapply produces_bind; [eapply reads_bind; [by apply reads_check_proto3|apply reads_ret]|].
      cbv beta iota. eapply produces_bind; [apply Hptr|]. cbv beta iota.
      eapply produces_bind; [apply reads_ret|].
      set (has := if PB_ATYPE (type f) =? PB_ATYPE_POINTER then negb (q =? NULL) else negb d) in *.
      destruct has; [by apply Hone|injection Hl as <-; apply produces_ret]. }
  destruct (Z.eqb_spec (PB_HTYPE (type f)) PB_HTYPE_REPEATED) as [Er|Er].
  { destruct (negb (size_offset f =? 0)).
    - eapply produces_bind; [apply reads_ret|]. cbv beta iota.
      eapply produces_bind; [apply Hptr|]. cbv beta iota.
      destruct (load m (p + size_offset f) 4) as [n|] eqn:En; [|done]. cbn in Hl.
      eapply produces_load; [done|].
      pose proof (load_range _ _ _ _ Hm En) as Hr. change (256 ^ Z.of_nat 4) with (2 ^ 32) in Hr.
      by eapply produces_array.
    - eapply produces_bind; [apply reads_ret|]. cbv beta iota.
      eapply produces_bind; [apply Hptr|]. cbv beta iota.
      eapply produces_bind; [apply reads_ret|].
      eapply produces_array; try done. apply Hok. }
  destruct (Z.eqb_spec (size_offset f) 0) as [Es|Es]; [done|]. cbn [negb].
  eapply produces_bind; [apply reads_ret|]. cbv beta iota.
  eapply produces_bind; [apply Hptr|]. cbv beta iota.
  apply bind_Some in Hl as (w & Hw & Hl). eapply produces_load; [done|].
  destruct (w =? tag f); [by apply Hone|injection Hl as <-; apply produces_ret].
Qed.

Lemma produces_field f p l :
  field_ok f → wire_field enc_ro m wire_rec depth f p = Some l →
  produces m (encode_field enc_rec depth f p) l.
Proof.
  intros Hok. unfold wire_field, encode_field.
  destruct (_ || _); [by apply produces_basic|].
  destruct (_ =? PB_ATYPE_CALLBACK); [|done].
  intros (fn & Hfn & Hl)%bind_Some. unfold encode_callback_field.
  eapply produces_load; [done|]. destruct (fn =? NULL); [|done].
  injection Hl as <-. apply produces_ret.
Qed.

(** The chain of the extensions of a message. *)
Lemma produces_extensions fuel n ext l :
  wire_extensions enc_ro m wire_rec depth fuel ext = Some l → Z.of_nat fuel ≤ n →
  produces m (loop n (λ extension,
    if extension =? NULL then mret (inr true)
    else
      t ← eload (extension + extension_type) 8;
      ty ← lift_option (ext_type_of enc_ro t);
      status ← (if negb (ext_encode ty =? NULL)
                then user_ext_encode (ext_encode ty) extension
                else default_extension_encoder enc_rec depth ty extension);
      if negb status then mret (inr false)
      else
        next ← eload (extension + extension_next) 8;
        mret (inl next)) ext) l.
Proof.
  revert ext l n. induction fuel as [|fuel IH]; intros ext l n; [done|].
  cbn [wire_extensions]. destruct (ext =? NULL) eqn:E.
  { intros [= <-] Hn. apply (produces_ext _ _ (mret true)); [|apply produces_ret].
    intros s Hr _. apply loop_inr; [lia|]. by rewrite E. }
  intros (t & Ht & Hl)%bind_Some Hn. apply bind_Some in Hl as (ty & Hty & Hl).
  destruct (ext_encode ty =? NULL) eqn:Een; [|done]. cbn [negb] in Hl.
  apply bind_Some in Hl as (f & Hf & Hl). apply bind_Some in Hl as (p & Hp & Hl).
  apply bind_Some in Hl as (l1 & Hl1 & Hl). apply bind_Some in Hl as (nx & Hnx & Hl).
  apply bind_Some in Hl as (l2 & Hl2 & [= <-]).
  assert (1 < n) as Hn1.
  { destruct fuel; [done|lia]. }
  specialize (IH nx l2 (n - 1) Hl2 ltac:(lia)).
  assert (produces m (default_extension_encoder enc_rec depth ty ext) l1) as Hd.
  { unfold default_extension_encoder. eapply produces_bind; [by apply reads_lift|].
    pose proof (rodata_ext _ Hro t ty Hty) as Hok. rewrite Forall_lookup in Hok. specialize (Hok _ _ Hf).
    destruct (_ =? PB_ATYPE_POINTER); [injection Hp as <-; by apply produces_field|].
    eapply produces_load; [done|]. by apply produces_field. }
  eapply produces_ext;
    [|exact (produces_check m _ _ _ _ Hd (produces_load m _ _ Hnx IH))].
  intros s Hr _. rewrite loop_unfold by done. rewrite E.
  rewrite !bind_assoc. run_with (reads_eload m _ _ _ Ht s Hr).
  rewrite Hty. cbn [lift_option]. run_unfold. rewrite Een. cbn [negb].
  destruct (default_extension_encoder enc_rec depth ty ext s) as [[[] s1]| |]; try done.
  cbn [negb]. by destruct (eload (ext + extension_next) 8 s1) as [[nx' s2]| |].
Qed.

Lemma produces_fields fields base k c l :
  Forall field_ok fields →
  wire_fields enc_ro m wire_rec depth fields base k c = Some l →
  produces m
    (each_field (λ it,
       f ← lift_option (iter_field it);
       if PB_LTYPE (type f) =? PB_LTYPE_EXTENSION
       then encode_extension_field enc_rec depth f (pData it)
       else encode_field enc_rec depth f (pData it)) fields base k c) l.
Proof.
  intros Hfs. revert k l. induction c as [|c IH]; intros k l; cbn [wire_fields each_field].
  { intros [= <-]. apply produces_ret. }
  intros (it & Hit & Hl)%bind_Some. rewrite Hit.
  apply bind_Some in Hl as (f & Hf & Hl). apply bind_Some in Hl as (l1 & Hl1 & Hl).
  apply bind_Some in Hl as (l2 & Hl2 & [= <-]).
  assert (field_ok f) as Hok.
  { unfold iter_field in Hf. destruct (iter_nth_start _ _ _ _ Hit) as [Hs _].
    rewrite Hs in Hf. by eapply Forall_lookup_1. }
  apply produces_check; [|by apply IH].
  eapply produces_bind; [by apply reads_lift|].
  destruct (_ =? PB_LTYPE_EXTENSION); [|by apply produces_field].
  apply bind_Some in Hl1 as (ext & Hext & Hl1).
  unfold encode_extension_field. eapply produces_load; [done|].
  by eapply produces_extensions.
Qed.

Lemma produces_body fields base l :
  Forall field_ok fields →
  wire_body enc_ro m wire_rec depth fields base = Some l →
  produces m (pb_encode_body enc_rec depth fields base) l.
Proof.
  intros Hfs (n & Hn & Hl)%bind_Some.
  eapply produces_ext; [|by apply produces_fields]. intros s _ _.
  rewrite <-(message_loop _ fields base n s Hn). unfold pb_encode_body.
  apply bind_ext; [done|]. intros [[] it] s'; cbn [negb]; [|done].
  apply loop_ext. intros it' s''. unfold field_step. by rewrite bind_assoc.
Qed.
End whole.

(** [pb_encode] implements the reference. *)
Lemma produces_message `{H : EncHost} m fuel fields base l :
  wf_mem m → rodata_ok enc_ro → Forall field_ok fields →
  wire_message enc_ro m fuel fields base = Some l →
  produces m (pb_encode fuel fields base) l.
Proof.
  intros Hm Hro. revert fields base l. induction fuel as [|fuel IH]; intros fields base l Hfs; [done|].
  cbn [wire_message pb_encode]. by apply produces_body.
Qed.


(** ** Theorems *)

Section theorems.
Context `{H : EncHost} (m : mem) (fuel : nat) (fields : list pb_field_t) (base : Z).
Context (Hm : wf_mem m) (Hro : rodata_ok enc_ro) (Hfields : Forall field_ok fields).

(** C1: [pb_encode] implements the reference. On a stream that has room it
    returns true, has appended exactly the bytes of the message and has changed
    nothing but the buffer behind them; on a sizing stream it counts them; on a
    stream without room it returns false with the error "stream full" and has
    written in the buffer only. *)
Theorem pb_encode_refines l s :
  wire_message enc_ro m fuel fields base = Some l →
  ready m s → bytes_written (e_out s) + Z.of_nat (length l) < 2 ^ 64 →
  if decide (fits (Z.of_nat (length l)) s)
  then ∃ s', pb_encode fuel fields base s = Done (true, s') ∧ output l s s'
  else ∃ s', pb_encode fuel fields base s = Done (false, s') ∧ overflow s s'.
Proof.
  intros Hwire Hr Hw. destruct (produces_message m fuel fields base l Hm Hro Hfields Hwire s Hr Hw).
  destruct (decide _); auto.
Qed.

(** The size [pb_get_encoded_size] reports is the number of bytes
    [pb_encode] writes, and the state is as before. *)
Theorem pb_get_encoded_size_exact l s :
  wire_message enc_ro m fuel fields base = Some l →
  ready m s → Z.of_nat (length l) < 2 ^ 64 →
  pb_get_encoded_size fuel fields base s = Done ((true, Some (Z.of_nat (length l))), s).
Proof.
  intros Hwire Hr Hl. unfold pb_get_encoded_size.
  run_with (on_sizing m _ l s (produces_message m fuel fields base l Hm Hro Hfields Hwire) Hr Hl).
  done.
Qed.

(** The function [pb_encode_delimited] writes the length and then the message: the two
    passes over the message agree, whatever it contains, and the error "submsg
    size changed" is never reported. *)
Theorem pb_encode_delimited_refines l s :
  wire_message enc_ro m fuel fields base = Some l →
  buffer m s (Z.of_nat (length (delimited l))) →
  ∃ s', pb_encode_delimited fuel fields base s = Done (true, s') ∧
        wrote (delimited l) s s'.
Proof.
  intros Hwire Hb. apply (produces_wrote m); [|done].
  by apply produces_submessage, produces_message.
Qed.

(** [pb_encode_nullterminated] writes the message and a zero byte. *)
Theorem pb_encode_nullterminated_refines l s :
  wire_message enc_ro m fuel fields base = Some l →
  buffer m s (Z.of_nat (length l) + 1) →
  ∃ s', pb_encode_nullterminated fuel fields base s = Done (true, s') ∧
        wrote (l ++ [0]) s s'.
Proof.
  intros Hwire Hb. apply (produces_wrote m).
  - apply produces_check; [by apply produces_message|].
    apply (produces_write m (BLocal [0]) [0]); [|done]. repeat constructor; done.
  - rewrite length_app, Nat2Z.inj_add. done.
Qed.
End theorems.
