(* ===== verification/PbFieldSpec.v ===== *)
(** * nanopb: the functional behaviour of the decoders

    What each decoder of a value does on every input: varints and their errors,
    skipped fields, substreams, integer fields and the check of their range; and
    that a value encoded from a struct is decoded back into a struct. *)
From S2P Require Import Prelude CMem PbTypes PbIter PbIterSpec PbOutput PbEncode PbInput PbDecode PbWire PbEmit PbEncodeSpec.

(** ** Integer fields *)

(** The sizes of the integers. *)
Definition int_size (d : Z) : Prop := d = 1 ∨ d = 2 ∨ d = 4 ∨ d = 8.

Lemma int_size_range d : int_size d → 1 ≤ d ≤ 8.
Proof. unfold int_size. lia. Qed.

(** There is room for [n] bytes at [dest], apart from what the stream reads. *)
Record clear (dest n : Z) (s : dstate) : Prop := {
  clear_mapped : mapped (d_mem s) dest n;
  clear_disjoint : state (d_in s) + bytes_left (d_in s) ≤ dest ∨ dest + n ≤ state (d_in s);
}.

(** [s'] is [s] after [k] bytes were read and the bytes [l] stored at [dest]. *)
Record stored (dest : Z) (l : list Z) (k : nat) (s s' : dstate) : Prop := {
  stored_in : d_in s' = d_in (adv k s);
  stored_bytes : load_bytes (d_mem s') dest (length l) = Some l;
  stored_frame : frame dest (Z.of_nat (length l)) (d_mem s) (d_mem s');
}.

Lemma le_split_mod n z : le_split n (z `mod` 256 ^ Z.of_nat n) = le_split n z.
Proof.
  rewrite <-le_combine_split. rewrite <-(length_le_split n z) at 1.
  apply le_split_combine, le_split_bytes.
Qed.

Lemma bytes_mod l : Forall is_byte l → (λ b, b `mod` 256) <$> l = l.
Proof.
  intros Hl. rewrite <-(list_fmap_id l) at 2. apply list_fmap_ext.
  intros i b Hb. apply Z.mod_small. rewrite Forall_lookup in Hl. by eapply Hl.
Qed.

(** A store of bytes, and of an integer. *)
Lemma stored_store dest l k s m' :
  Forall is_byte l → mapped (d_mem s) dest (Z.of_nat (length l)) →
  store_bytes (d_mem s) dest l = Some m' → stored dest l k s (with_mem m' (adv k s)).
Proof.
  intros Hby Hm Hs. destruct (store_bytes_frame _ _ _ _ Hs Hm) as [Hf Hl].
  rewrite bytes_mod in Hl by done. by constructor.
Qed.

Lemma store_mapped m a n v :
  mapped m a (Z.of_nat n) → ∃ m', store m a n v = Some m'.
Proof. intros Hm. destruct (store_spec m a n v Hm) as (m' & ? & _). by exists m'. Qed.

(** The integers of [w] bits, and the conversion to them. *)
Definition int_range (signed : bool) (w x : Z) : Prop :=
  if signed then - 2 ^ (w - 1) ≤ x < 2 ^ (w - 1) else 0 ≤ x < 2 ^ w.
#[export] Instance int_range_dec sg w x : Decision (int_range sg w x).
Proof. unfold int_range. destruct sg; apply _. Defined.
Definition int_conv (signed : bool) : Z → Z → Z := if signed then wraps else wrapu.

Lemma int_conv_range sg w x : 0 < w → int_conv sg w x = x ↔ int_range sg w x.
Proof.
  intros Hw. unfold int_conv, int_range. destruct sg; split.
  - intros <-. by apply wraps_range.
  - by apply wraps_small.
  - intros <-. apply wrapu_range. lia.
  - by apply wrapu_small.
Qed.

Section ints.
Context `{H : DecHost}.

Lemma run_store_clamped conv f dest v s m' :
  int_size (data_size f) → store (d_mem s) dest (Z.to_nat (data_size f)) v = Some m' →
  store_clamped conv f dest v s = Done (Some (conv (8 * data_size f) v), with_mem m' s).
Proof.
  intros Hd Hst. unfold store_clamped.
  destruct Hd as [E|[E|[E|E]]]; rewrite E in *; cbn [Z.eqb Pos.eqb];
    [change (Z.to_nat 1) with 1%nat in Hst|change (Z.to_nat 2) with 2%nat in Hst
    |change (Z.to_nat 4) with 4%nat in Hst|change (Z.to_nat 8) with 8%nat in Hst];
    by run_with (run_dstore _ _ _ s m' Hst).
Qed.

(** The number [v] was read in [k] bytes; it is stored and checked. *)
Lemma run_number_field (conv : Z → Z → Z) f dest v k s :
  int_size (data_size f) → mapped (d_mem s) dest (data_size f) →
  ∃ s', (clamped ← store_clamped conv f dest v; check_clamped clamped v) (adv k s) =
      Done (bool_decide (conv (8 * data_size f) v = v),
            if bool_decide (conv (8 * data_size f) v = v) then s'
            else fail_with "integer too large" s') ∧
    stored dest (le_split (Z.to_nat (data_size f)) v) k s s'.
Proof.
  intros Hd Hm. pose proof (int_size_range _ Hd).
  set (n := Z.to_nat (data_size f)). assert (Z.of_nat n = data_size f) as En by (unfold n; lia).
  destruct (store_mapped (d_mem s) dest n v) as [m' Hst]; [by rewrite En|].
  exists (with_mem m' (adv k s)). split.
  - run_with (run_store_clamped conv f dest v (adv k s) m' Hd Hst). unfold check_clamped.
    destruct (Z.eqb_spec (conv (8 * data_size f) v) v).
    + by rewrite bool_decide_eq_true_2.
    + by rewrite bool_decide_eq_false_2.
  - apply stored_store; [apply le_split_bytes|by rewrite length_le_split, En|done].
Qed.

(** What the three kinds of integer fields make of the value of a varint, and
    whether their type is signed. *)
Inductive int_decoder : decoder → bool → (Z → Z → Z) → Prop :=
  | dec_signed : int_decoder pb_dec_varint true (λ d v, if d =? 8 then s64 v else s32 v)
  | dec_unsigned : int_decoder pb_dec_uvarint false (λ _ v, v)
  | dec_zigzag : int_decoder pb_dec_svarint true (λ _ v, unzigzag v).

Lemma run_int_field dec sg val f dest v s l :
  int_decoder dec sg val →
  int_size (data_size f) → mapped (d_mem s) dest (data_size f) →
  0 ≤ v < 2 ^ 64 → input_is s (uleb v ++ l) →
  let x := val (data_size f) v in
  let ok := bool_decide (int_range sg (8 * data_size f) x) in
  ∃ s', dec f dest s = Done (ok, if ok then s' else fail_with "integer too large" s') ∧
    stored dest (le_split (Z.to_nat (data_size f)) x) (length (uleb v)) s s'.
Proof.
  intros Hdec Hd Hm Hv Hin x ok. pose proof (int_size_range _ Hd).
  destruct (run_number_field (int_conv sg) f dest x (length (uleb v)) s Hd Hm) as (s' & E & Hst).
  exists s'. split; [|done].
  assert (bool_decide (int_conv sg (8 * data_size f) x = x) = ok) as Eok
    by (apply bool_decide_ext, int_conv_range; lia).
  rewrite Eok in E. rewrite <-E. pose proof (pb_decode_varint_uleb s v l Hv Hin) as Ev.
  destruct Hdec; [unfold pb_dec_varint; by run_with Ev|unfold pb_dec_uvarint; by run_with Ev|].
  unfold pb_dec_svarint, pb_decode_svarint. by run_with Ev.
Qed.

(** The numbers that are sent to the three kinds of integer fields, as [enc x] on the
    wire; [narrow] when the decoder goes through 32 bits for a field that has less
    than 64. *)
Inductive int_kind : decoder → bool → bool → (Z → Z) → Prop :=
  | kind_int : int_kind pb_dec_varint true true u64
  | kind_uint : int_kind pb_dec_uvarint false false (λ x, x)
  | kind_sint : int_kind pb_dec_svarint true false zigzag.

Lemma s32_u64 x : s32 (u64 x) = s32 x.
Proof.
  rewrite <-(wraps_of_mod 32 (u64 x)), <-(wraps_of_mod 32 x). unfold wrapu.
  rewrite Z.mod_mod_divide; [done|]. exists (2 ^ 32). done.
Qed.

Lemma kind_decoder dec sg narrow enc x :
  int_kind dec sg narrow enc → int_range sg 64 x →
  0 ≤ enc x < 2 ^ 64 ∧ ∃ val, int_decoder dec sg val ∧
    ∀ d, int_size d → val d (enc x) = if narrow && negb (d =? 8) then s32 x else x.
Proof.
  intros Hk Hx. destruct Hk; cbn [andb].
  - split; [apply wrapu_range; lia|]. eexists. split; [constructor|]. intros d Hd. simpl.
    destruct (d =? 8); simpl; [|apply s32_u64].
    rewrite <-(wraps_of_mod 64 (u64 x)). unfold wrapu. rewrite Z.mod_mod, wraps_of_mod by lia.
    by apply wraps_small.
  - split; [done|]. eexists. by split; [constructor|].
  - split; [by apply zigzag_range|]. eexists. split; [constructor|]. intros d Hd. by apply unzigzag_zigzag.
Qed.

(** C30: the number [x], sent to an integer field of its kind, is stored as it is and
    accepted when it is in the range of the integer type of the field. Out of that
    range: an unsigned or a zigzag field refuses it with "integer too large"; a plain
    signed field, which has less than 8 bytes then, reads [x] modulo 2^32 and accepts
    that if it is in its range, so that a 4-byte field accepts every number and a
    1-byte field takes 2^32 + 5 for 5. In all cases the bytes around are left alone. *)
Theorem int_field_decoding dec sg narrow enc f dest x s l :
  int_kind dec sg narrow enc →
  int_size (data_size f) → mapped (d_mem s) dest (data_size f) →
  int_range sg 64 x → input_is s (uleb (enc x) ++ l) →
  let w := 8 * data_size f in
  let result y (ok : bool) := ∃ s',
    stored dest (le_split (Z.to_nat (data_size f)) y) (length (uleb (enc x))) s s' ∧
    dec f dest s = Done (ok, if ok then s' else fail_with "integer too large" s') in
  (int_range sg w x → result x true) ∧
  (¬ int_range sg w x → narrow = false → result x false) ∧
  (¬ int_range sg w x → narrow = true →
     data_size f < 8 ∧ result (s32 x) (bool_decide (int_range true w (s32 x)))) ∧
  (narrow = true → data_size f = 4 → result (s32 x) true).
Proof.
  intros Hk Hd Hm Hx Hin w result.
  destruct (kind_decoder dec sg narrow enc x Hk Hx) as (Hv & val & Hdec & Hval).
  assert (∀ y ok, val (data_size f) (enc x) = y → bool_decide (int_range sg w y) = ok → result y ok) as Hres.
  { intros y ok <- <-. destruct (run_int_field dec sg val f dest (enc x) s l Hdec Hd Hm Hv Hin) as (s' & E & Hst).
    by exists s'. }
  specialize (Hval _ Hd).
  assert (narrow = true → sg = true) as Hsg by (by destruct Hk).
  assert (data_size f ≠ 8 → int_range true w x → s32 x = x) as Hsmall.
  { intros H8 Hr. apply wraps_small; [lia|]. unfold int_range, w in Hr.
    destruct Hd as [Ed|[Ed|[Ed|Ed]]]; rewrite Ed in *; simpl in Hr; pow2; lia. }
  split_and!.
  - intros Hr. apply Hres; [|by apply bool_decide_eq_true]. rewrite Hval.
    destruct narrow; [|done]. rewrite Hsg in Hr by done.
    destruct (Z.eqb_spec (data_size f) 8); [done|by apply Hsmall].
  - intros Hr ->. apply Hres; [done|by apply bool_decide_eq_false].
  - intros Hr ->. rewrite Hsg in * by done.
    assert (data_size f ≠ 8) as H8 by (unfold w in Hr; intros E8; by rewrite E8 in Hr).
    split; [unfold int_size in Hd; lia|]. apply Hres; [|done]. by rewrite Hval, (proj2 (Z.eqb_neq _ _) H8).
  - intros -> H4. rewrite Hsg in * by done. apply Hres; [by rewrite Hval, H4|].
    apply bool_decide_eq_true. unfold w. rewrite H4. by apply (wraps_range 32).
Qed.
End ints.

(** ** Strings and byte arrays *)

Lemma store_bytes_app m a l1 l2 :
  store_bytes m a (l1 ++ l2) =
  m' ← store_bytes m a l1; store_bytes m' (a + Z.of_nat (length l1)) l2.
Proof.
  revert m a. induction l1 as [|b l1 IH]; intros m a; cbn [app store_bytes length].
  - by rewrite Z.add_0_r.
  - destruct (store_byte m a b) as [m'|]; [|done]. simpl. rewrite IH.
    by replace (a + 1 + Z.of_nat (length l1)) with (a + Z.of_nat (S (length l1))) by lia.
Qed.

Lemma store_bytes_mapped m a l :
  mapped m a (Z.of_nat (length l)) → ∃ m', store_bytes m a l = Some m'.
Proof. intros Hm. destruct (store_bytes_spec m a l Hm) as (m' & ? & _). by exists m'. Qed.

Section strings.
Context `{H : DecHost}.

(** The content of a delimited field is at the head of the stream. *)
Lemma run_length s l1 l2 :
  Z.of_nat (length l1) < 2 ^ 32 → input_is s (delimited l1 ++ l2) →
  let s1 := adv (length (uleb (Z.of_nat (length l1)))) s in
  pb_decode_varint32 s = Done (Some (Z.of_nat (length l1)), s1) ∧ input_is s1 (l1 ++ l2).
Proof.
  unfold delimited. rewrite <-app_assoc. cbv zeta. intros Hn Hin.
  split; [by eapply pb_decode_varint32_uleb; [lia|]|by apply input_is_adv].
Qed.

Lemma delimited_length l :
  length (delimited l) = (length (uleb (Z.of_nat (length l))) + length l)%nat.
Proof. unfold delimited. by rewrite length_app. Qed.

Lemma run_read_stored s l1 l2 dest m' :
  input_is s (l1 ++ l2) → clear dest (Z.of_nat (length l1)) s →
  store_bytes (d_mem s) dest l1 = Some m' →
  pb_read (RMem dest) (Z.of_nat (length l1)) s = Done (true, with_mem m' (adv (length l1) s)).
Proof.
  intros Hin [Hm Hd] Hst. eapply pb_read_mem_app; [done|done| |done].
  rewrite (input_left _ _ Hin), length_app in Hd. lia.
Qed.

Lemma clear_weaken a n b k s : clear a n s → a ≤ b → b + k ≤ a + n → clear b k s.
Proof. intros [Hm Hd] ??. constructor; [by eapply mapped_sub|lia]. Qed.

Lemma clear_adv a n k s :
  clear a n s → 0 ≤ n → Z.of_nat k ≤ bytes_left (d_in s) → clear a n (adv k s).
Proof. intros [Hm Hd] ??. constructor; [done|simpl; lia]. Qed.

(** What [pb_dec_string] makes of a string, in an array of [data_size f] bytes: it
    stores the string and a NUL, when there is room for both. *)
Definition string_decoded (f : pb_field_t) (dest : Z) (l : list Z) (s : dstate) : Prop :=
  let n := Z.of_nat (length l) in
  if n <? data_size f then
    ∃ s', pb_dec_string f dest s = Done (true, s') ∧
          stored dest (l ++ [0]) (length (delimited l)) s s'
  else
    pb_dec_string f dest s =
    Done (false, fail_with "string overflow" (adv (length (uleb n)) s)).

Lemma pb_dec_string_spec f dest s l1 l2 :
  PB_ATYPE (type f) ≠ PB_ATYPE_POINTER → Z.of_nat (length l1) < 2 ^ 32 - 1 →
  input_is s (delimited l1 ++ l2) → clear dest (data_size f) s →
  string_decoded f dest l1 s.
Proof.
  intros Ht Hn Hin Hc. unfold string_decoded. set (n := Z.of_nat (length l1)) in *.
  destruct (run_length s l1 l2 ltac:(lia) Hin) as [Er Hin1]. fold n in Er, Hin1.
  set (s1 := adv _ s) in *.
  assert (pb_dec_string f dest s =
    (if data_size f <? n + 1 then i_return_error "string overflow"
     else (status ← pb_read (RMem dest) n; dstore (dest + n) 1 0;; mret status)) s1) as ->.
  { unfold pb_dec_string. run_with Er.
    rewrite (wrapu_small 32 (n + 1)) by lia. rewrite (proj2 (Z.ltb_ge (n + 1) n)) by lia.
    by rewrite (proj2 (Z.eqb_neq _ _) Ht). }
  destruct (Z.ltb_spec n (data_size f)) as [Hfit|Hno].
  2: { by rewrite (proj2 (Z.ltb_lt (data_size f) (n + 1))) by lia. }
  rewrite (proj2 (Z.ltb_ge (data_size f) (n + 1))) by lia.
  assert (mapped (d_mem s) dest (Z.of_nat (length (l1 ++ [0])))) as Hm.
  { eapply mapped_sub; [by apply (clear_mapped _ _ _ Hc)|lia|rewrite length_app; simpl; unfold n in *; lia]. }
  destruct (store_bytes_mapped _ _ _ Hm) as [m2 Hst].
  pose proof Hst as Hst'. rewrite store_bytes_app in Hst'. apply bind_Some in Hst' as (m1 & H1 & H2).
  exists (with_mem m2 (adv (length (delimited l1)) s)). split.
  - assert (Z.of_nat (length (uleb n)) ≤ bytes_left (d_in s)).
    { rewrite (input_left _ _ Hin), length_app, delimited_length. fold n. lia. }
    assert (clear dest n s1) as Hc1 by (apply clear_adv; [apply (clear_weaken _ _ dest n _ Hc); lia|lia|done]).
    pose proof (run_read_stored s1 l1 l2 dest m1 Hin1 Hc1 H1) as E1. fold n in E1, H2. run_with E1.
    rewrite (run_dstore _ 1 0 (with_mem m1 (adv (length l1) s1)) m2 H2).
    unfold s1. rewrite adv_adv, delimited_length. done.
  - apply stored_store; [|done|done]. apply Forall_app. split; [|by repeat constructor].
    by pose proof (input_byte _ _ Hin1) as [? _]%Forall_app.
Qed.

(** What [pb_dec_bytes] makes of a string, in a [pb_bytes_array_t] of [data_size f]
    bytes: it stores the length and the bytes, when there is room for both. *)
Definition bytes_decoded (f : pb_field_t) (dest : Z) (l : list Z) (s : dstate) : Prop :=
  let n := Z.of_nat (length l) in
  if n + 4 <=? data_size f then
    ∃ s', pb_dec_bytes f dest s = Done (true, s') ∧
          stored dest (le_split 4 n ++ l) (length (delimited l)) s s'
  else
    pb_dec_bytes f dest s =
    Done (false, fail_with "bytes overflow" (adv (length (uleb n)) s)).

Lemma pb_dec_bytes_spec f dest s l1 l2 :
  PB_ATYPE (type f) ≠ PB_ATYPE_POINTER → Z.of_nat (length l1) < 2 ^ 32 →
  input_is s (delimited l1 ++ l2) → clear dest (data_size f) s →
  bytes_decoded f dest l1 s.
Proof.
  intros Ht Hn Hin Hc. unfold bytes_decoded. set (n := Z.of_nat (length l1)) in *.
  destruct (run_length s l1 l2 ltac:(lia) Hin) as [Er Hin1]. fold n in Er, Hin1.
  set (s1 := adv _ s) in *.
  assert (pb_dec_bytes f dest s =
    (if data_size f <? n + 4 then i_return_error "bytes overflow"
     else dstore dest 4 n;; pb_read (RMem (dest + 4)) n) s1) as ->.
  { unfold pb_dec_bytes. run_with Er. unfold PB_SIZE_MAX.
    rewrite (proj2 (Z.ltb_ge (2 ^ 32 - 1) n)) by lia.
    unfold PB_BYTES_ARRAY_T_ALLOCSIZE, bytes_array_bytes, bytes_array_size.
    rewrite wrapu_small by (pow2; lia). rewrite (proj2 (Z.ltb_ge (n + 4) n)) by lia.
    rewrite Z.add_0_r. by rewrite (proj2 (Z.eqb_neq _ _) Ht). }
  destruct (Z.leb_spec (n + 4) (data_size f)) as [Hfit|Hno].
  2: { by rewrite (proj2 (Z.ltb_lt (data_size f) (n + 4))) by lia. }
  rewrite (proj2 (Z.ltb_ge (data_size f) (n + 4))) by lia.
  set (l := le_split 4 n ++ l1).
  assert (Z.of_nat (length l) = n + 4) as El
    by (unfold l; rewrite length_app, length_le_split; unfold n; lia).
  assert (mapped (d_mem s) dest (Z.of_nat (length l))) as Hm
    by (rewrite El; eapply mapped_sub; [apply Hc|lia|lia]).
  destruct (store_bytes_mapped _ _ _ Hm) as [m2 Hst].
  pose proof Hst as Hst'. unfold l in Hst'. rewrite store_bytes_app in Hst'.
  apply bind_Some in Hst' as (m1 & H1 & H2). rewrite length_le_split in H2.
  exists (with_mem m2 (adv (length (delimited l1)) s)). split.
  - assert (Z.of_nat (length (uleb n)) ≤ bytes_left (d_in s)).
    { rewrite (input_left _ _ Hin), length_app, delimited_length. fold n. lia. }
    assert (clear dest (data_size f) s1) as [Hm1 Hd1] by (apply clear_adv; [done|lia|done]).
    run_with (run_dstore dest 4 n s1 m1 H1).
    destruct (store_bytes_frame _ _ _ _ H1) as [F1 _].
    { rewrite length_le_split. eapply mapped_sub; [apply Hc|lia|lia]. }
    rewrite length_le_split in F1.
    assert (input_is (with_mem m1 s1) (l1 ++ l2)) as Hin2.
    { destruct Hin1 as [Icb Il Ib Iby Im]. constructor; [done|done| |done|done].
      simpl. rewrite <-Ib. apply load_bytes_ext. intros i Hi. apply (frame_out _ _ _ _ F1).
      rewrite Il in Hd1. simpl in *. lia. }
    pose proof (run_read_stored (with_mem m1 s1) l1 l2 (dest + 4) m2 Hin2) as E1.
    fold n in E1. rewrite E1.
    + rewrite delimited_length, <-adv_adv. done.
    + constructor; [|simpl in *; lia]. simpl. apply (frame_mapped _ _ _ _ _ _ F1).
      eapply mapped_sub; [apply Hc|lia|lia].
    + done.
  - apply stored_store; [|done|done]. apply Forall_app. split; [apply le_split_bytes|].
    by pose proof (input_byte _ _ Hin1) as [? _]%Forall_app.
Qed.
End strings.

(** ** Substreams *)

(** The substream [i] after [k] bytes of it were read, with the error message [e]. *)
Definition sub_read (k : nat) (e : option string) (i : pb_istream_t) : pb_istream_t :=
  PbIStream (callback i) (state i + Z.of_nat k) (bytes_left i - Z.of_nat k) e.

Section substreams.
Context `{H : DecHost}.

Lemma pb_read_null_left s n :
  callback (d_in s) = IcbBufRead → 0 ≤ n ≤ bytes_left (d_in s) → bytes_left (d_in s) < 2 ^ 64 →
  pb_read RNull n s = Done (true, adv (Z.to_nat n) s).
Proof.
  intros Hcb Hn Hl. destruct s as [m [cb st lf er] f]. simpl in *. subst cb.
  unfold pb_read, pb_read_raw, pb_read_some, get_in, get_state. run_unfold. simpl.
  rewrite (proj2 (Z.ltb_ge _ _)) by lia.
  unfold buf_read, get_in, set_in, get_dmem, get_state, put_state. run_unfold. simpl.
  unfold adv. simpl. rewrite wrapu_small by lia. by rewrite Z2Nat.id by lia.
Qed.

(** A substream is opened on the bytes of a delimited field and nothing else;
    whatever part of them is read, whatever the memory has become and whatever the
    error is, closing it brings the stream to what follows the field, and hands the
    error over. *)
Theorem substream_isolated s l1 l2 :
  Z.of_nat (length l1) < 2 ^ 32 → input_is s (delimited l1 ++ l2) →
  ∃ sub s1, pb_make_string_substream s = Done (Some sub, s1) ∧
    (∀ f, input_is (DState (d_mem s) sub f) l1) ∧
    ∀ k e s2, (k ≤ length l1)%nat → d_in s2 = d_in s1 →
      pb_close_string_substream (sub_read k e sub) s2 =
      Done (true, DState (d_mem s2)
        (i_with_errmsg (d_in (adv (length (delimited l1)) s)) e) (d_fixed_count_size s2)).
Proof.
  unfold delimited. rewrite <-app_assoc. intros Hn Hin.
  destruct (pb_make_string_substream_app s l1 l2 Hn Hin) as [E Hin1].
  set (s1 := adv _ s) in *. exists (sub_of (length l1) s1), (open_sub (length l1) s1).
  split; [done|]. split; [intros f; change (d_mem s) with (d_mem s1); by eapply sub_of_input|].
  intros k e s2 Hk Es. unfold pb_close_string_substream.
  pose proof (input_left _ _ Hin1) as El. pose proof (input_cb _ _ Hin1) as Ecb.
  pose proof (input_max _ _ Hin1). rewrite !length_app in *. rewrite <-adv_adv. fold s1. clearbody s1.
  simpl. destruct (Z.eqb_spec (Z.of_nat (length l1) - Z.of_nat k) 0) as [E0|E0].
  - run_unfold. unfold get_in, set_in, get_state, put_state. run_unfold. simpl. rewrite Es. simpl.
    unfold adv, i_with_errmsg. simpl. by replace k with (length l1) by lia.
  - unfold on_istream, get_in, set_in, get_state, put_state. run_unfold. simpl.
    rewrite pb_read_null_left; simpl; [|done|lia|lia].
    simpl. rewrite Es. unfold adv, i_with_errmsg. simpl. rewrite Z2Nat.id by lia.
    assert (state (d_in s1) + Z.of_nat k + (Z.of_nat (length l1) - Z.of_nat k) =
      state (d_in s1) + Z.of_nat (length l1)) as -> by lia. done.
Qed.
End substreams.

(** ** Round trips of fields *)

(** [copied dec f dest l]: decoding the whole stream into [dest], where there is
    room for the field, succeeds and stores the bytes [l] there. *)
Definition copied (dec : decoder) (f : pb_field_t) (dest : Z) (l : list Z) (st : dstate) : Prop :=
  clear dest (data_size f) st →
  ∃ st', dec f dest st = Done (true, st') ∧ bytes_left (d_in st') = 0 ∧
         load_bytes (d_mem st') dest (length l) = Some l ∧
         frame dest (Z.of_nat (length l)) (d_mem st) (d_mem st').

Inductive int_codec `{EncHost, DecHost} : encoder → decoder → Prop :=
  | codec_varint : int_codec pb_enc_varint pb_dec_varint
  | codec_uvarint : int_codec pb_enc_uvarint pb_dec_uvarint
  | codec_svarint : int_codec pb_enc_svarint pb_dec_svarint.

Section roundtrips.
Context `{HE : EncHost, HD : DecHost}.

(** What an encoder writes for the integer [v] of memory and what its decoder makes
    of it. *)
Lemma int_codec_spec enc dec m f src v :
  int_codec enc dec → wf_mem m → int_size (data_size f) →
  load m src (Z.to_nat (data_size f)) = Some v →
  ∃ w sg val, int_decoder dec sg val ∧ 0 ≤ w < 2 ^ 64 ∧ produces m (enc f src) (uleb w) ∧
    let x := val (data_size f) w in
    int_range sg (8 * data_size f) x ∧ x `mod` 2 ^ (8 * data_size f) = v.
Proof.
  intros Hc Hm Hd Hv. pose proof (load_range _ _ _ _ Hm Hv) as Hr.
  pose proof (int_size_range _ Hd).
  assert (256 ^ Z.of_nat (Z.to_nat (data_size f)) = 2 ^ (8 * data_size f)) as E256
    by (rewrite Z.pow_mul_r, Z2Nat.id by lia; done).
  rewrite E256 in Hr. set (d := data_size f) in *.
  assert (2 ^ (8 * d) ≤ 2 ^ 64) by (apply Z.pow_le_mono_r; lia).
  assert (ref_int m f src = Some v) as Hi.
  { unfold ref_int. rewrite bool_decide_eq_true_2; [done|].
    rewrite !elem_of_cons. unfold int_size in Hd. tauto. }
  assert (ref_sint m f src = Some (wraps (8 * d) v)) as Hs by (unfold ref_sint; by rewrite Hi).
  pose proof (ref_sint_range _ _ _ _ Hs) as Hsr.
  assert (wraps (8 * d) v `mod` 2 ^ (8 * d) = v) as Emod
    by (rewrite wraps_mod by lia; apply Z.mod_small; lia).
  destruct Hc.
  - exists (u64 (wraps (8 * d) v)), true, (λ d v, if d =? 8 then s64 v else s32 v).
    split; [constructor|]. split; [apply wrapu_range; lia|].
    split; [by apply produces_enc_varint|]. cbv zeta.
    assert ((if d =? 8 then s64 (u64 (wraps (8 * d) v)) else s32 (u64 (wraps (8 * d) v)))
            = wraps (8 * d) v) as ->.
    { destruct (Z.eqb_spec d 8) as [E|E].
      - unfold wrapu. rewrite wraps_of_mod. apply wraps_small; [lia|]. simpl. lia.
      - transitivity (s32 (wraps (8 * d) v)).
        + apply s32_u64.
        + apply wraps_small; [lia|].
          pose proof (wraps_range (8 * d) v ltac:(lia)) as Hw.
          assert (2 ^ (8 * d - 1) ≤ 2 ^ (32 - 1)); [|lia].
          apply Z.pow_le_mono_r; [lia|]. unfold int_size in Hd. lia. }
    split; [apply wraps_range; lia|done].
  - exists v, false, (λ _ v, v). split; [constructor|]. split; [lia|].
    split; [by apply produces_enc_uvarint|]. cbv zeta.
    split; [done|by apply Z.mod_small].
  - exists (zigzag (wraps (8 * d) v)), true, (λ _ v, unzigzag v). split; [constructor|].
    split; [by apply zigzag_range|]. split.
    { rewrite zigzag_spec by done. by apply produces_enc_svarint. }
    cbv zeta. rewrite unzigzag_zigzag by done. split; [apply wraps_range; lia|done].
Qed.

(** Decoding all of a stream. *)
Lemma copied_stored dec f dest l st st' k :
  dec f dest st = Done (true, st') → stored dest l k st st' → Z.of_nat k = bytes_left (d_in st) →
  copied dec f dest l st.
Proof.
  intros E [Ei El Ef] Hk _. exists st'. split_and!; [done| |done|done].
  rewrite Ei. simpl. lia.
Qed.

(** An integer field of 1, 2, 4 or 8 bytes, of any of the three encodings, is
    decoded back: every value of every size is accepted, and stored as it was. *)
Theorem int_field_roundtrip enc dec m f src dest l s :
  int_codec enc dec → wf_mem m → int_size (data_size f) →
  load_bytes m src (Z.to_nat (data_size f)) = Some l → buffer m s 10 →
  encodes (enc f src) 10 s (copied dec f dest l).
Proof.
  intros Hc Hm Hd Hl Hb. pose proof (int_size_range _ Hd).
  pose proof (load_bytes_wf _ _ _ _ Hm Hl) as Hby.
  destruct (int_codec_spec enc dec m f src (le_combine l) Hc Hm Hd)
    as (w & sg & val & Hdec & Hw & Hp & Hfit & Hmod); [unfold load; by rewrite Hl|].
  pose proof (uleb_length w) as Hlen.
  eapply produces_encodes_with; [exact Hp|done|lia|apply uleb_bytes; lia|].
  intros st Hin _ Hmap. apply app_nil_input in Hin.
  destruct (run_int_field dec sg val f dest w st [] Hdec Hd (clear_mapped _ _ _ Hmap) Hw Hin)
    as (st' & E & Hst).
  rewrite bool_decide_eq_true_2 in E by done.
  assert (le_split (Z.to_nat (data_size f)) (val (data_size f) w) = l) as El.
  { rewrite <-le_split_mod.
    assert (256 ^ Z.of_nat (Z.to_nat (data_size f)) = 2 ^ (8 * data_size f)) as ->
      by (rewrite Z.pow_mul_r, Z2Nat.id by lia; done).
    rewrite Hmod, <-(load_bytes_length _ _ _ _ Hl). by apply le_split_combine. }
  rewrite El in Hst. eapply copied_stored; [done|done| |done].
  by rewrite (input_left _ _ Hin), app_nil_r.
Qed.

(** Fields of four and eight bytes. *)
Theorem fixed_field_roundtrip m f src dest l s :
  wf_mem m → data_size f = Z.of_nat (length l) →
  load_bytes m src (length l) = Some l → buffer m s (Z.of_nat (length l)) →
  (length l = 4%nat → encodes (pb_enc_fixed32 f src) 4 s (copied pb_dec_fixed32 f dest l)) ∧
  (length l = 8%nat → encodes (pb_enc_fixed64 f src) 8 s (copied pb_dec_fixed64 f dest l)).
Proof.
  intros Hm Hd Hl Hb. pose proof (load_bytes_wf _ _ _ _ Hm Hl) as Hby.
  split; intros El; rewrite El in *;
    (eapply produces_encodes_with;
      [first [by apply produces_enc_fixed32|by apply produces_enc_fixed64]
      |done|rewrite El; lia|done|]);
    intros st Hin%app_nil_input _ Hc;
    pose proof (clear_mapped _ _ _ Hc) as Hmap; rewrite Hd in Hmap;
    destruct (store_mapped (d_mem st) dest (length l) (le_combine l)) as [m' Hst];
    try (rewrite El; done); pose proof Hst as Hst'; rewrite El in Hst;
    (eapply copied_stored;
      [first [by eapply pb_decode_fixed32_app|by eapply pb_decode_fixed64_app]
      |apply stored_store; [done|rewrite El; done|]
      |rewrite (input_left _ _ Hin), app_nil_r; lia|done]);
    unfold store in Hst'; by rewrite le_split_combine in Hst'.
Qed.

(** The string a field holds is decoded back with its NUL when it is shorter
    than the array. A string that fills the array has no NUL: it is encoded, but the
    decoder refuses what was written. *)
Theorem string_field_roundtrip m f src dest l s :
  wf_mem m → field_ok f → PB_ATYPE (type f) = PB_ATYPE_STATIC → src ≠ NULL →
  ref_string m src (data_size f) = Some l → Z.of_nat (length l) < 2 ^ 32 - 1 →
  let n := Z.of_nat (length (delimited l)) in
  buffer m s n →
  encodes (pb_enc_string f src) n s
    (λ st, clear dest (data_size f) st → string_decoded f dest l st).
Proof.
  intros Hm Hok Ht Hs Hl Hn n Hb.
  assert (Forall is_byte l) as Hby.
  { unfold ref_string in Hl. apply bind_Some in Hl as (k & _ & Hl). by eapply load_bytes_wf. }
  eapply produces_encodes_with.
  - apply produces_enc_string; [done|done|done|]. by rewrite Ht.
  - done.
  - unfold n. rewrite delimited_length. pose proof (uleb_length (Z.of_nat (length l))). lia.
  - apply Forall_app. split; [apply uleb_bytes; lia|done].
  - intros st Hin%app_nil_input _ Hc. eapply pb_dec_string_spec; [by rewrite Ht|done|done|done].
Qed.

(** A byte array and its length are decoded back, when they are in bounds. *)
Theorem bytes_field_roundtrip m f src dest l s :
  wf_mem m → PB_ATYPE (type f) = PB_ATYPE_STATIC → src ≠ NULL →
  load m src 4 = Some (Z.of_nat (length l)) → load_bytes m (src + 4) (length l) = Some l →
  Z.of_nat (length l) + 4 ≤ data_size f →
  let n := Z.of_nat (length (delimited l)) in
  buffer m s n →
  encodes (pb_enc_bytes f src) n s
    (λ st, clear dest (data_size f) st → bytes_decoded f dest l st).
Proof.
  intros Hm Ht Hs Hn Hl Hd n Hb.
  pose proof (load_range _ _ _ _ Hm Hn) as Hr. simpl in Hr.
  pose proof (load_bytes_wf _ _ _ _ Hm Hl) as Hby.
  eapply produces_encodes_with.
  - eapply produces_enc_bytes; [done|done|done| |by rewrite Nat2Z.id].
    rewrite (proj2 (Z.ltb_ge _ _)) by lia. apply andb_false_r.
  - done.
  - unfold n. rewrite delimited_length. pose proof (uleb_length (Z.of_nat (length l))). lia.
  - apply Forall_app. split; [apply uleb_bytes; lia|done].
  - intros st Hin%app_nil_input _ Hc. eapply pb_dec_bytes_spec; [by rewrite Ht|pow2; lia|done|done].
Qed.
End roundtrips.
