(* ===== verification/PbRequired.v ===== *)
(** * nanopb: required fields

    The decoder keeps one bit for each of the first 64 required fields. At the end
    of a message the bits say which of them were read, and a message that was read to
    its end is refused if and only if one is missing. *)
From S2P Require Import Prelude CMem PbTypes PbIter PbIterSpec PbInput PbDecode PbWire PbSafe PbDecodeSafe.

(** ** The number of a required field *)

Definition is_required (f : pb_field_t) : bool := PB_HTYPE (type f) =? PB_HTYPE_REQUIRED.

(** The number of required fields before the position [k]. *)
Fixpoint required_before (fields : list pb_field_t) (k : nat) {struct k} : Z :=
  match k, fields with
  | S k', f :: fields' => (if is_required f then 1 else 0) + required_before fields' k'
  | _, _ => 0
  end.

Lemma required_before_range fields k : 0 ≤ required_before fields k ≤ Z.of_nat k.
Proof.
  revert fields. induction k as [|k IH]; intros [|f fields]; simpl; [lia..|].
  specialize (IH fields). destruct (is_required f); lia.
Qed.

Lemma required_before_S fields k f :
  fields !! k = Some f →
  required_before fields (S k) = required_before fields k + (if is_required f then 1 else 0).
Proof.
  revert fields. induction k as [|k IH]; intros [|g fields] Hf; [done| |done|].
  - simpl in *. simplify_eq. destruct fields; simpl; lia.
  - change (required_before (g :: fields) (S (S k))) with
      ((if is_required g then 1 else 0) + required_before fields (S k)).
    rewrite (IH fields Hf). simpl. lia.
Qed.





Section fields.
Context (fields : list pb_field_t) (base : Z) (n : nat).
Context (Hterm : terminated fields n) (Hn : Z.of_nat n < 2 ^ 32).

(** The iterator counts the required fields it went past. *)
Lemma nth_required k it :
  (k < n)%nat → iter_nth fields base k = Some it →
  required_field_index it = required_before fields k.
Proof.
  revert it. induction k as [|k IH]; intros it Hk Hit.
  - simpl in Hit. unfold pb_field_iter_begin in Hit.
    destruct (fields !! 0%nat); simplify_eq/=. by destruct fields.
  - cbn [iter_nth] in Hit.
    destruct (nth_spec fields base n Hterm k) as (it0 & Hit0 & Hp0); [lia|].
    rewrite Hit0 in Hit. specialize (IH it0 ltac:(lia) Hit0). simpl in Hit.
    destruct (nth_field fields base n Hterm k it0 ltac:(lia) Hit0) as (f & Hf & Htf & Hif).
    destruct (iter_nth_start fields base k it0 Hit0) as [Es Ed].
    rewrite (required_before_S _ _ _ Hf). unfold is_required.
    pose proof (required_before_range fields k).
    unfold pb_field_iter_next in Hit. rewrite Hif in Hit. simpl in Hit.
    destruct (tag f =? 0); [done|].
    destruct (start it0 !! S (pos it0)) as [g|]; [|done]. simpl in Hit.
    destruct (tag g =? 0).
    { by destruct (pb_field_iter_begin _ _) as [[? ?]|]. }
    destruct (PB_HTYPE (type f) =? PB_HTYPE_ONEOF) eqn:Eo; simpl in Hit.
    + apply Z.eqb_eq in Eo. rewrite Eo in *. simpl in Hit.
      destruct (_ && _); simpl in Hit; simplify_eq/=; rewrite IH; simpl; lia.
    + injection Hit as <-. simpl. rewrite IH.
      destruct (PB_HTYPE (type f) =? PB_HTYPE_REQUIRED); [apply wrapu_small|]; lia.
Qed.

(** *** The walk to the end of the array *)

End fields.

(** ** The bits *)

(** The bit of the required field number [i]. *)
Definition seen (words : list Z) (i : Z) : bool :=
  Z.testbit (default 0 (words !! Z.to_nat (i / 32))) (i `mod` 32).

(** [fields_seen], two words of 32 bits. *)
Definition seen_ok (words : list Z) : Prop :=
  length words = 2%nat ∧ Forall (λ w, 0 ≤ w < 2 ^ 32) words.



Lemma testbit_set w j i :
  0 ≤ i → 0 ≤ j → Z.testbit (Z.lor w (Z.shiftl 1 j)) i = Z.testbit w i || bool_decide (i = j).
Proof.
  intros Hi Hj. rewrite Z.lor_spec, Z.shiftl_1_l, Z.pow2_bits_eqb by done. f_equal.
  apply eq_iff_eq_true. rewrite Z.eqb_eq, bool_decide_eq_true. done.
Qed.

Lemma seen_mark words i j :
  seen_ok words → 0 ≤ i < 64 → 0 ≤ j < 64 →
  let words' := alter (λ x, Z.lor x (Z.shiftl 1 (Z.land i 31))) (Z.to_nat (Z.shiftr i 5)) words in
  seen_ok words' ∧ seen words' j = seen words j || bool_decide (j = i).
Proof.
  intros [Hl Hw] Hi Hj. rewrite Z.shiftr_div_pow2 by lia. change (2 ^ 5) with 32.
  assert (Z.land i 31 = i `mod` 32) as -> by (apply (Z.land_ones i 5); lia). split.
  - split; [by rewrite length_alter|]. apply Forall_alter; [done|]. intros w Hw' _. 
    apply (lor_range 32); [by eapply (Forall_lookup_1 _ _ _ _ Hw Hw')|].
    rewrite Z.shiftl_1_l. split; [lia|]. apply Z.pow_lt_mono_r; zdiv.
  - unfold seen. destruct (decide (j / 32 = i / 32)) as [E|E].
    + rewrite E, list_lookup_alter. rewrite decide_True by done.
      destruct (lookup_lt_is_Some_2 words (Z.to_nat (i / 32))) as [w ->]; [rewrite Hl; zdiv|].
      simpl. rewrite testbit_set by zdiv. f_equal. apply bool_decide_ext.
      split; [intros; zdiv|by intros ->].
    + rewrite list_lookup_alter_ne by zdiv.
      rewrite bool_decide_eq_false_2 by congruence. by rewrite orb_false_r.
Qed.

(** ** The check *)

Section check.
Context `{H : DecHost}.
Context (fields : list pb_field_t) (base : Z) (n : nat).
Context (Hterm : terminated fields n) (Hn : Z.of_nat n < 2 ^ 32) (Hpos : (0 < n)%nat).

(** What the decoder does to its locals when it finds the field [k]. *)
Definition visit (l : locals) (k : nat) : locals :=
  match iter_nth fields base k, fields !! k with
  | Some it, Some f => mark_required f (with_iter l it)
  | _, _ => l
  end.

(** The required field [k] is one of those that have a bit. *)
Definition tracked (k : nat) : Prop :=
  (k < n)%nat ∧ (∃ f, fields !! k = Some f ∧ is_required f = true) ∧
  required_before fields k < PB_MAX_REQUIRED_FIELDS.

(** The bits are those of the fields [ks]. *)
Record tracks (ks : list nat) (l : locals) : Prop := {
  tracks_ok : seen_ok (l_fields_seen l);
  tracks_seen : ∀ i, 0 ≤ i < 64 → seen (l_fields_seen l) i = true ↔
    ∃ k, k ∈ ks ∧ tracked k ∧ required_before fields k = i;
}.


Lemma tracks_visit ks k l : (k < n)%nat → tracks ks l → tracks (k :: ks) (visit l k).
Proof.
  intros Hk [Hok Hseen]. unfold visit.
  destruct (nth_spec fields base n Hterm k Hk) as (it & Hit & _). rewrite Hit.
  destruct (nth_field fields base n Hterm k it Hk Hit) as (f & Hf & _). rewrite Hf.
  unfold mark_required. simpl. rewrite (nth_required fields base n Hterm Hn k it Hk Hit).
  pose proof (required_before_range fields k) as Hr.
  assert (∀ k', k' ∈ k :: ks ∧ tracked k' ↔ (k' = k ∧ tracked k) ∨ (k' ∈ ks ∧ tracked k')) as Hin.
  { intros k'. rewrite elem_of_cons. split; [intros [[->|?] ?]; auto|intros [[-> ?]|[? ?]]; auto]. }
  assert (tracked k ↔ is_required f = true ∧ required_before fields k < PB_MAX_REQUIRED_FIELDS) as Ht.
  { unfold tracked. split; [intros (_ & (g & Hg & ?) & ?)|intros [? ?]]; [by simplify_eq|by eauto]. }
  unfold is_required in Ht.
  destruct (PB_HTYPE (type f) =? PB_HTYPE_REQUIRED) eqn:Eq; simpl.
  2: { constructor; [done|]. intros i Hi. simpl. rewrite (Hseen i Hi). split.
       - intros (k' & Hk' & Ht' & E). exists k'. split_and!; [by right|done|done].
       - intros (k' & Hk' & Ht' & E). exists k'. destruct (proj1 (Hin k') (conj Hk' Ht')) as [[-> Htk]|[? _]];
           [by apply Ht in Htk as [? _]|done]. }
  destruct (Z.ltb_spec (required_before fields k) PB_MAX_REQUIRED_FIELDS) as [Hlt|Hge].
  2: { constructor; [done|]. intros i Hi. simpl. rewrite (Hseen i Hi). split.
       - intros (k' & Hk' & Ht' & E). exists k'. split_and!; [by right|done|done].
       - intros (k' & Hk' & Ht' & E). exists k'. destruct (proj1 (Hin k') (conj Hk' Ht')) as [[-> Htk]|[? _]];
           [apply Ht in Htk as [_ ?]; lia|done]. }
  unfold PB_MAX_REQUIRED_FIELDS in Hlt.
  constructor; simpl; [by apply (seen_mark _ _ 0 Hok); lia|].
  intros i Hi. destruct (seen_mark _ (required_before fields k) i Hok) as [_ ->]; [lia|lia|].
  rewrite orb_true_iff, (Hseen i Hi), bool_decide_eq_true. split.
  - intros [(k' & Hk' & Ht' & E)| ->].
    + exists k'. split_and!; [by right|done|done].
    + exists k. split_and!; [by left|by apply Ht|done].
  - intros (k' & Hk' & Ht' & E). destruct (proj1 (Hin k') (conj Hk' Ht')) as [[-> _]|[? _]];
      [by right|left; eauto].
Qed.

Lemma tracks_visits ks ks0 l :
  Forall (λ k, (k < n)%nat) ks → tracks ks0 l → tracks (reverse ks ++ ks0) (foldl visit l ks).
Proof.
  intros Hks. revert ks0 l. induction Hks as [|k ks Hk Hks IH]; intros ks0 l Hl; [done|].
  rewrite reverse_cons, <-app_assoc. simpl. by apply IH, tracks_visit.
Qed.



End check.

(** ** The runs of pb_decode_noinit *)



Section run.
Context `{H : DecHost}.







End run.

(** ** Messages of static members *)

Section message.
Context `{H : DecHost} (fuel : nat) (fields : list pb_field_t) (base size : Z) (n : nat).
Context (Hcount : field_count fields = Some n) (Hn : Z.of_nat n < 2 ^ 32).
Context (Hmsg : msg_ok (S fuel) fields size).
Context (Htags : ∀ j k f g, (j < n)%nat → (k < n)%nat → fields !! j = Some f → fields !! k = Some g →
  tag f = tag g → j = k).

Local Abbreviation turn := (noinit_step (pb_decode_noinit fuel) (S fuel)).
Local Abbreviation running := (locals_ok fields base n).

















End message.
