(* ===== verification/PbExample.v ===== *)
(** * nanopb: a concrete program

    Two generated messages with a nested one, a packed array and a string, a
    memory that holds an outer message at 1000, a buffer at 2000 and room for a
    decoded message at 3000. The theorems are applied to it: their hypotheses
    hold together. *)
From S2P Require Import Prelude CMem PbTypes PbIter PbIterSpec PbOutput PbEncode PbInput PbDecode PbWire PbSafe PbDecodeSafe PbEmit PbEncodeSpec PbFieldSpec PbRequired.

(** [struct inner { int32_t a; bool has_b; int64_t b; }] *)
Definition inner_slots : list slot := [
  Slot 1 INT32 REQUIRED STATIC (Member 0 4 4) (Member 0 4 4) PtrNull;
  Slot 2 SINT64 OPTIONAL STATIC (Member 4 1 1) (Member 8 8 8) PtrNull
].

(** [struct outer { uint32_t id; pb_size_t items_count; int32_t items[4];
     inner in; bool has_s; char s[8]; }] *)
Definition outer_slots : list slot := [
  Slot 1 UINT32 REQUIRED STATIC (Member 0 4 4) (Member 0 4 4) PtrNull;
  Slot 2 INT32 REPEATED STATIC (Member 4 4 4) (Member 8 16 4) PtrNull;
  Slot 3 MESSAGE REQUIRED STATIC (Member 24 16 16) (Member 24 16 16) (PtrFields 1);
  Slot 4 STRING OPTIONAL STATIC (Member 40 1 1) (Member 41 8 1) PtrNull
].

Definition inner_fields : list pb_field_t := Eval vm_compute in build inner_slots.
Definition outer_fields : list pb_field_t := Eval vm_compute in build outer_slots.
Definition example_ro : rodata :=
  Rodata (λ i, if i =? 1 then Some inner_fields else None) (λ _, None).

(** An application without callbacks, and an allocator that never reuses. *)
Definition bump : allocator :=
  Allocator (λ b size, Some (fold_right Z.max 4096 (elements (dom b)) + 1)) (λ _, 0xAA).
#[local] Instance example_enc : EncHost := {|
  enc_ro := example_ro;
  user_write _ _ _ := undef;
  user_encode _ _ _ := undef;
  user_ext_encode _ _ := undef;
|}.
#[local] Instance example_dec : DecHost := {|
  dec_ro := example_ro;
  dec_heap := bump;
  dec_stack := bump;
  user_read _ _ _ := undef;
  user_decode _ _ _ := undef;
  user_ext_decode _ _ _ _ := undef;
|}.

(** The bytes of [outer { 300, 3, { 1, -2, 5, 0 }, { -7, true, -5 }, true, "ABC" }] *)
Definition outer_bytes : list Z :=
  le_split 4 300 ++ le_split 4 3 ++ le_split 4 1 ++ le_split 4 (-2) ++ le_split 4 5 ++
  le_split 4 0 ++ le_split 4 (-7) ++ [1; 0; 0; 0] ++ le_split 8 (-5) ++ [1] ++
  [65; 66; 67; 0; 0; 0; 0; 0].

Fixpoint put_bytes (b : gmap Z Z) (a : Z) (l : list Z) : gmap Z Z :=
  match l with [] => b | x :: l' => put_bytes (<[a := x]> b) (a + 1) l' end.

(** The message alone, and the whole memory. *)
Definition message_mem : mem := Mem (put_bytes ∅ 1000 outer_bytes) ∅.
Definition example_mem : mem :=
  Mem (map_region (λ _, 0) (map_region (λ _, 0) (bytes message_mem) 2000 64) 3000 49) ∅.
Definition example_state (bufsize : Z) : estate :=
  EState example_mem (pb_ostream_from_buffer 2000 bufsize).

(** What the message is on the wire. *)
Definition outer_wire : list Z :=
  [8; 172; 2; 18; 12; 1; 254; 255; 255; 255; 255; 255; 255; 255; 255; 1; 5; 26; 13; 8;
   249; 255; 255; 255; 255; 255; 255; 255; 255; 1; 16; 9; 34; 3; 65; 66; 67].

Lemma example_wire : wire_message example_ro message_mem 3 outer_fields 1000 = Some outer_wire.
Proof. vm_compute. reflexivity. Qed.

Lemma example_ready n : 0 ≤ n ≤ 64 → ready message_mem (example_state n).
Proof.
  intros Hn. constructor.
  - apply (submem_check message_mem example_mem). vm_compute. reflexivity.
  - apply wf_mem_check. vm_compute. reflexivity.
  - done.
  - done.
  - right. cbn [e_out e_mem example_state pb_ostream_from_buffer PbOutput.callback
      PbOutput.state max_size bytes_written].
    split_and!; [done|lia|pow2; lia| |].
    + apply (mapped_sub _ 2000 64); [|lia|lia]. apply mapped_check. vm_compute. reflexivity.
    + intros a Ha. apply (unmapped_check message_mem 2000 64); [vm_compute; reflexivity|lia].
Qed.

Lemma example_buffer n k : 0 ≤ n ≤ 64 → k ≤ n → buffer message_mem (example_state n) k.
Proof. intros. constructor; [by apply example_ready|done|simpl; lia]. Qed.

Lemma example_message_wf : wf_mem message_mem.
Proof. apply wf_mem_check. vm_compute. reflexivity. Qed.

Ltac field_oks := repeat constructor; simpl; lia.

Lemma example_ro_ok : rodata_ok example_ro.
Proof.
  constructor; [|done]. intros id fields. simpl. destruct (id =? 1); [|done].
  intros [= <-]. field_oks.
Qed.

Lemma example_fields_ok : Forall field_ok outer_fields.
Proof. field_oks. Qed.

(** A stream over bytes at 2000, and a struct at 3000. *)
Definition input_state (l : list Z) : dstate :=
  DState (Mem (put_bytes (bytes example_mem) 2000 l) ∅)
    (pb_istream_from_buffer 2000 (Z.of_nat (length l))) 0.

Lemma inner_ok : msg_ok 1 inner_fields 16.
Proof.
  apply (slots_msg_ok 0 inner_slots); [simpl; lia|..].
  - repeat constructor; simpl; lia.
  - simpl. lia.
  - repeat constructor; simpl; try done; lia.
Qed.

Lemma outer_ok : msg_ok 2 outer_fields 49.
Proof.
  apply (slots_msg_ok 1 outer_slots); [simpl; lia|..].
  - repeat constructor; simpl; lia.
  - simpl. lia.
  - repeat constructor; simpl; try done; try lia.
    exists 1, inner_fields. split_and!; [done|done|apply inner_ok].
Qed.

(** Checks on a concrete input. *)
Definition input_ok (l : list Z) : bool :=
  let s := input_state l in
  bool_decide (load_bytes (d_mem s) 2000 (length l) = Some l) &&
  forallb (λ b, bool_decide (is_byte b)) l &&
  bool_decide (map_Forall (λ _ b, is_byte b) (bytes (d_mem s))) &&
  forallb (λ i, bool_decide (is_Some (bytes (d_mem s) !! i))) (seqZ 3000 49) &&
  (Z.of_nat (length l) <=? 1000).

Lemma input_ok_is l : input_ok l = true → input_is (input_state l) l.
Proof.
  unfold input_ok. rewrite !andb_true_iff. intros ((((Hl & Hb) & _) & _) & Hlen).
  apply bool_decide_eq_true in Hl. apply Z.leb_le in Hlen. constructor; [done|done|done| |lia].
  apply Forall_forall. intros b Hb'. rewrite forallb_forall in Hb.
  apply (bool_decide_eq_true (is_byte b)), Hb, list_elem_of_In, Hb'.
Qed.

Lemma input_safe l : input_ok l = true → safe 3000 49 (input_state l).
Proof.
  intros Hok. pose proof (input_ok_is l Hok) as Hin. unfold input_ok in Hok.
  rewrite !andb_true_iff in Hok. destruct Hok as ((((_ & _) & Hwf) & Hm) & Hlen%Z.leb_le).
  constructor; [by exists l|by apply wf_mem_check|by apply mapped_check|cbn; lia|done].
Qed.

Lemma input_clear l n : input_ok l = true → 0 ≤ n ≤ 49 → clear 3000 n (input_state l).
Proof.
  intros [_ _ Hm Hd _]%input_safe Hn.
  exact (clear_weaken 3000 49 3000 n _ (Build_clear _ _ _ Hm Hd) ltac:(lia) ltac:(lia)).
Qed.

(** ** Witnesses *)

(** A message, and bytes that are none. *)
Lemma pb_decode_safe_witness :
  (∃ ok s', pb_decode 2 outer_fields 3000 (input_state outer_wire) = Done (ok, s') ∧
    frame 3000 49 (d_mem (input_state outer_wire)) (d_mem s') ∧
    within (d_in (input_state outer_wire)) (d_in s') ∧
    (ok = false → is_Some (errmsg (d_in s')))) ∧
  (∃ ok s', pb_decode 2 outer_fields 3000 (input_state [26; 200; 1; 2; 3]) = Done (ok, s') ∧
    frame 3000 49 (d_mem (input_state [26; 200; 1; 2; 3])) (d_mem s') ∧
    within (d_in (input_state [26; 200; 1; 2; 3])) (d_in s') ∧
    (ok = false → is_Some (errmsg (d_in s')))).
Proof.
  split; (apply (pb_decode_safe 2 outer_fields 3000 49 outer_ok);
    [apply input_safe; vm_compute; reflexivity|lia]).
Defined.

Lemma pb_encode_refines_witness :
  (∃ s', pb_encode 3 outer_fields 1000 (example_state 64) = Done (true, s') ∧
         output outer_wire (example_state 64) s') ∧
  (∃ s', pb_encode 3 outer_fields 1000 (example_state 36) = Done (false, s') ∧
         overflow (example_state 36) s').
Proof.
  split.
  - apply (pb_encode_refines (H := example_enc) message_mem 3 outer_fields 1000 example_message_wf
    example_ro_ok example_fields_ok outer_wire (example_state 64) example_wire).
    + apply example_ready. lia.
    + simpl. lia.
  - apply (pb_encode_refines (H := example_enc) message_mem 3 outer_fields 1000 example_message_wf
    example_ro_ok example_fields_ok outer_wire (example_state 36) example_wire).
    + apply example_ready. lia.
    + simpl. lia.
Defined.

Lemma pb_get_encoded_size_exact_witness :
  pb_get_encoded_size 3 outer_fields 1000 (example_state 0) =
  Done ((true, Some 37), example_state 0).
Proof.
  apply (pb_get_encoded_size_exact (H := example_enc) message_mem 3 outer_fields 1000 example_message_wf
    example_ro_ok example_fields_ok outer_wire (example_state 0) example_wire).
  - apply example_ready. lia.
  - simpl. lia.
Defined.

Lemma pb_encode_delimited_refines_witness :
  ∃ s', pb_encode_delimited 3 outer_fields 1000 (example_state 64) = Done (true, s') ∧
        wrote (37 :: outer_wire) (example_state 64) s'.
Proof.
  apply (pb_encode_delimited_refines (H := example_enc) message_mem 3 outer_fields 1000 example_message_wf
    example_ro_ok example_fields_ok outer_wire (example_state 64) example_wire).
  apply example_buffer; simpl; lia.
Defined.

Lemma pb_encode_nullterminated_refines_witness :
  ∃ s', pb_encode_nullterminated 3 outer_fields 1000 (example_state 38) = Done (true, s') ∧
        wrote (outer_wire ++ [0]) (example_state 38) s'.
Proof.
  apply (pb_encode_nullterminated_refines (H := example_enc) message_mem 3 outer_fields 1000 example_message_wf
    example_ro_ok example_fields_ok outer_wire (example_state 38) example_wire).
  apply example_buffer; simpl; lia.
Defined.

Lemma varint_roundtrip_witness :
  encodes (pb_encode_varint 300) 10 (example_state 64) (reads_all pb_decode_varint (Some 300)).
Proof. apply (varint_roundtrip message_mem); [lia|apply example_buffer; lia]. Defined.

Lemma varint32_roundtrip_witness :
  encodes (pb_encode_varint (2 ^ 64 - 7)) 10 (example_state 10)
    (reads_all pb_decode_varint32 (Some (2 ^ 32 - 7))).
Proof. apply (varint32_roundtrip message_mem (-7)); [lia|apply example_buffer; lia]. Defined.

Lemma svarint_roundtrip_witness :
  encodes (pb_encode_svarint (-5)) 10 (example_state 10) (reads_all pb_decode_svarint (Some (-5))).
Proof. apply (svarint_roundtrip message_mem); [lia|apply example_buffer; lia]. Defined.

Lemma tag_roundtrip_witness :
  encodes (pb_encode_tag PB_WT_STRING 3) 5 (example_state 5)
    (reads_all pb_decode_tag (Some (3, PB_WT_STRING), false)).
Proof.
  apply (tag_roundtrip message_mem); [done|lia|apply example_buffer; lia].
Defined.

Lemma pb_field_iter_find_spec_witness :
  ∃ it it', iter_nth outer_fields 3000 3 = Some it ∧
    pb_field_iter_find it 2 = Done (true, it') ∧ pData it' = 3008.
Proof.
  destruct (iter_nth outer_fields 3000 3) as [it|] eqn:Hit; [|vm_compute in Hit; discriminate].
  destruct (pb_field_iter_find_spec outer_fields 3000 4 3 it 2)
    as [(j & it' & Hj & (f & Hf & Ht & _) & Hit' & Hs)|[Hno _]].
  - apply (build_terminated outer_slots). repeat constructor; simpl; lia.
  - lia.
  - exact Hit.
  - exists it, it'. split; [reflexivity|]. split; [exact Hs|].
    destruct j as [|[|[|[|j]]]]; [| | | |lia]; vm_compute in Hf; injection Hf as <-;
      try (vm_compute in Ht; discriminate).
    vm_compute in Hit'. by injection Hit' as <-.
  - destruct (Hno 1%nat); [lia|]. eexists. split; [reflexivity|]. split; [reflexivity|].
    vm_compute. discriminate.
Defined.

Lemma pb_field_iter_layout_witness :
  ∃ it it', iter_nth outer_fields 3000 1 = Some it ∧ iter_field it = outer_fields !! 1%nat ∧
    pData it = 3008 ∧ pSize it = PMem 3004 ∧ pb_field_iter_next it = Some (true, it') ∧
    iter_nth outer_fields 3000 2 = Some it'.
Proof.
  apply (pb_field_iter_layout outer_slots 3000 1
    (Slot 2 INT32 REPEATED STATIC (Member 4 4 4) (Member 8 16 4) PtrNull)).
  - repeat constructor; simpl; lia.
  - simpl. lia.
  - reflexivity.
Defined.

Lemma varint_decoding_witness :
  pb_decode_varint (input_state [172; 2; 7]) = Done (Some 300, adv 2 (input_state [172; 2; 7])) ∧
  pb_decode_varint (input_state [172]) =
    Done (None, fail_with "end-of-stream" (adv 1 (input_state [172]))).
Proof.
  split.
  - refine (varint_decoding (input_state [172; 2; 7]) [172; 2; 7] (input_ok_is _ _)).
    vm_compute. reflexivity.
  - refine (varint_decoding (input_state [172]) [172] (input_ok_is _ _)). vm_compute. reflexivity.
Defined.

Lemma skip_field_witness :
  pb_skip_field PB_WT_STRING (input_state [2; 9; 9; 7]) =
    Done (true, adv 3 (input_state [2; 9; 9; 7])) ∧
  pb_skip_field 3 (input_state [7]) = Done (false, fail_with "invalid wire_type" (input_state [7])).
Proof.
  split.
  - apply (proj1 (skip_field PB_WT_STRING (input_state [2; 9; 9; 7])) [2; 9; 9] [7]).
    + by apply (payload_string [9; 9]).
    + apply (input_ok_is [2; 9; 9; 7]). vm_compute. reflexivity.
  - apply (proj2 (skip_field 3 (input_state [7]))). apply (bool_decide_unpack _).
    vm_compute. reflexivity.
Defined.

(** An [int8_t], the integer [items[0]], and the string and the bytes at 1041. *)
Definition int8_field : pb_field_t := Eval vm_compute in mk_field 1 (PB_LTYPE_VARINT) 0 0 1 0 PtrNull.
Definition int32_field : pb_field_t := Eval vm_compute in mk_field 1 (PB_LTYPE_VARINT) 0 0 4 0 PtrNull.
Definition string_field : pb_field_t := Eval vm_compute in mk_field 1 (PB_LTYPE_STRING) 0 0 8 0 PtrNull.

Lemma int_field_decoding_witness :
  (∃ s', stored 3000 [127] 1 (input_state [127]) s' ∧
     pb_dec_varint int8_field 3000 (input_state [127]) = Done (true, s')) ∧
  (∃ s', stored 3000 [128] 2 (input_state [128; 1]) s' ∧
     pb_dec_varint int8_field 3000 (input_state [128; 1]) =
     Done (false, fail_with "integer too large" s')) ∧
  (∃ s', stored 3000 [5] 5 (input_state [133; 128; 128; 128; 16]) s' ∧
     pb_dec_varint int8_field 3000 (input_state [133; 128; 128; 128; 16]) = Done (true, s')).
Proof.
  split_and!.
  - refine (proj1 (int_field_decoding _ _ _ _ int8_field 3000 127 (input_state [127]) []
      kind_int _ _ _ (input_ok_is [127] _)) _); [by left|apply (input_clear [127] 1)| | |];
      try (split; vm_compute; discriminate); try (split; vm_compute; reflexivity); try lia;
      vm_compute; try reflexivity; intuition discriminate.
  - refine (proj2 (proj1 (proj2 (proj2 (int_field_decoding _ _ _ _ int8_field 3000 128 (input_state [128; 1]) []
      kind_int _ _ _ (input_ok_is [128; 1] _)))) _ eq_refl)); [by left|apply (input_clear [128; 1] 1)| | |];
      try lia; vm_compute; try reflexivity; intuition discriminate.
  - refine (proj2 (proj1 (proj2 (proj2 (int_field_decoding _ _ _ _ int8_field 3000 (2 ^ 32 + 5)
      (input_state [133; 128; 128; 128; 16]) [] kind_int _ _ _ (input_ok_is [133; 128; 128; 128; 16] _)))) _
      eq_refl)); [by left|apply (input_clear [133; 128; 128; 128; 16] 1)| | |];
      try lia; vm_compute; try reflexivity; intuition discriminate.
Defined.

Lemma substream_isolated_witness :
  ∃ sub s1, pb_make_string_substream (input_state [2; 9; 9; 7]) = Done (Some sub, s1) ∧
    pb_close_string_substream (sub_read 1 None sub) s1 =
    Done (true, DState (d_mem s1) (d_in (adv 3 (input_state [2; 9; 9; 7]))) (d_fixed_count_size s1)).
Proof.
  destruct (substream_isolated (input_state [2; 9; 9; 7]) [9; 9] [7]) as (sub & s1 & E & _ & Hc).
  - reflexivity.
  - apply (input_ok_is [2; 9; 9; 7]). vm_compute. reflexivity.
  - exists sub, s1. split; [exact E|]. apply (Hc 1%nat None s1); [simpl; lia|reflexivity].
Defined.

Lemma int_field_roundtrip_witness :
  encodes (pb_enc_svarint int32_field 1012) 10 (example_state 64)
    (copied pb_dec_svarint int32_field 3000 [254; 255; 255; 255]).
Proof.
  apply (int_field_roundtrip _ _ message_mem); [constructor|apply example_message_wf| | |].
  - right. right. by left.
  - vm_compute. reflexivity.
  - apply example_buffer; lia.
Defined.

Lemma fixed_field_roundtrip_witness :
  encodes (pb_enc_fixed32 int32_field 1012) 4 (example_state 64)
    (copied pb_dec_fixed32 int32_field 3000 [254; 255; 255; 255]).
Proof.
  refine (proj1 (fixed_field_roundtrip message_mem int32_field 1012 3000 [254; 255; 255; 255]
    (example_state 64) example_message_wf eq_refl _ _) eq_refl); [vm_compute; reflexivity|].
  apply example_buffer; simpl; lia.
Defined.

Lemma string_field_roundtrip_witness :
  encodes (pb_enc_string string_field 1041) 4 (example_state 64)
    (λ st, clear 3000 8 st → string_decoded string_field 3000 [65; 66; 67] st).
Proof.
  apply (string_field_roundtrip message_mem string_field 1041 3000 [65; 66; 67]);
    [apply example_message_wf|constructor; simpl; lia|reflexivity|discriminate
    |vm_compute; reflexivity|reflexivity|apply example_buffer; simpl; lia].
Defined.

(** [items_count] and [items], read as a byte array of length 3. *)
Lemma bytes_field_roundtrip_witness :
  encodes (pb_enc_bytes string_field 1004) 4 (example_state 64)
    (λ st, clear 3000 8 st → bytes_decoded string_field 3000 [1; 0; 0] st).
Proof.
  apply (bytes_field_roundtrip message_mem string_field 1004 3000 [1; 0; 0]);
    [apply example_message_wf|reflexivity|discriminate|vm_compute; reflexivity
    |vm_compute; reflexivity|simpl; lia|apply example_buffer; simpl; lia].
Defined.



