(* ===== verification/PbFindings.v ===== *)
(** * nanopb: what the code does not mean to do

    Concrete runs of the decoder and the encoder in which the code does something
    else than it says: numbers that are too long are accepted, memory outside of
    the struct is written or read, and a field that is not empty is left out. *)
From S2P Require Import Prelude CMem PbTypes PbIter PbIterSpec PbOutput PbEncode PbInput PbDecode PbWire PbExample.

(** An allocator that has no memory. *)
Definition no_heap : allocator := Allocator (λ _ _, None) (λ _, 0).
Definition bare_dec (ro : rodata) : DecHost := {|
  dec_ro := ro;
  dec_heap := no_heap;
  dec_stack := bump;
  user_read _ _ _ := undef;
  user_decode _ _ _ := undef;
  user_ext_decode _ _ _ _ := undef;
|}.
Definition bare_enc (ro : rodata) : EncHost := {|
  enc_ro := ro;
  user_write _ _ _ := undef;
  user_encode _ _ _ := undef;
  user_ext_encode _ _ := undef;
|}.

(** A memory with the bytes [struct] at 1000 and [input] at 2000. *)
Definition small_mem (struct input : list Z) : mem :=
  Mem (put_bytes (put_bytes ∅ 1000 struct) 2000 input) ∅.
Definition reading (struct input : list Z) : dstate :=
  DState (small_mem struct input) (pb_istream_from_buffer 2000 (Z.of_nat (length input))) 0.
Definition writing (struct room : list Z) : estate :=
  EState (small_mem struct room) (pb_ostream_from_buffer 2000 (Z.of_nat (length room))).

(** ** 32-bit varints *)

(** [bitpos] is a [uint_fast8_t] and nothing bounds the length of the varint: after
    37 continuation bytes [bitpos] has wrapped around to 3, and the last byte is
    taken for bits of the result. *)
Theorem varint32_bitpos_wraps :
  let l := replicate 37 0x80 ++ [1] in
  pb_decode_varint32 (H := bare_dec example_ro) (reading [] l) = Done (Some 8, adv 38 (reading [] l)).
Proof. vm_compute. reflexivity. Qed.

(** The check that the fifth byte fits is made after the last byte only: the high
    bits of a fifth byte that is not the last are dropped without an error. *)
Theorem varint32_high_bits_dropped :
  let l := [0x80; 0x80; 0x80; 0x80; 0xF0; 0x00] in
  leb128 l = Some (0x70 * 2 ^ 28, 6%nat) ∧
  pb_decode_varint32 (H := bare_dec example_ro) (reading [] l) = Done (Some 0, adv 6 (reading [] l)).
Proof. vm_compute. split; reflexivity. Qed.

(** ** Arrays of a fixed count *)

(** [struct { bool f[2]; }], an array without a count member: the descriptor has
    the size offset 0, and the decoder clears a [pb_size_t] there. *)
Definition flags : member := Member 0 2 1.
Definition flags_fields : list pb_field_t :=
  [PB_REPEATED_FIXED_COUNT 1 PB_LTYPE_VARINT (PB_DATAOFFSET FIRST flags flags) flags PtrNull;
   PB_LAST_FIELD].

Theorem fixed_count_default_out_of_bounds :
  pb_decode (H := bare_dec example_ro) 1 flags_fields 1000 (reading [1; 1] []) = Undef.
Proof. vm_compute. reflexivity. Qed.

(** [struct { uint32_t v[2]; }] in a proto3 message: the check for an empty message
    takes the first element for the count, so the value {0, 7} is not encoded. *)
Definition pair : member := Member 0 8 4.
Definition pair_fields : list pb_field_t :=
  [PB_REPEATED_FIXED_COUNT 1 PB_LTYPE_UVARINT (PB_DATAOFFSET FIRST pair pair) pair PtrNull;
   PB_LAST_FIELD].
Definition pair_ro : rodata := Rodata (λ i, if i =? 1 then Some pair_fields else None) (λ _, None).
Definition holder_fields : list pb_field_t :=
  build [Slot 1 MESSAGE SINGULAR STATIC pair pair (PtrFields 1)].

Theorem fixed_count_value_dropped :
  let s := writing [0; 0; 0; 0; 7; 0; 0; 0] (replicate 10 0) in
  pb_encode (H := bare_enc pair_ro) 3 holder_fields 1000 s = Done (true, s).
Proof. vm_compute. reflexivity. Qed.

(** ** Pointers *)

(** [struct { inner *p; }] with the optional field NULL: the check for a proto3
    default compares as many bytes as the pointed-to message has, from the pointer
    on, and reads past the end of the struct. *)
Definition pointer_member : member := Member 0 8 16.
Definition pointer_fields : list pb_field_t :=
  build [Slot 1 MESSAGE OPTIONAL POINTER pointer_member pointer_member (PtrFields 1)].

Theorem pointer_default_out_of_bounds :
  pb_encode (H := bare_enc example_ro) 3 pointer_fields 1000 (writing (replicate 8 0) (replicate 10 0))
  = Undef.
Proof. vm_compute. reflexivity. Qed.

(** [struct { pb_size_t names_count; char **names; }]: the count is incremented
    before the array is allocated; when there is no memory, the message is
    released with a count of one and an array that is NULL. *)
Definition names_fields : list pb_field_t :=
  build [Slot 1 STRING REPEATED POINTER (Member 0 4 4) (Member 8 8 8) PtrNull].

Theorem failed_allocation_released :
  pb_decode (H := bare_dec example_ro) 1 names_fields 1000 (reading (replicate 16 0) [10; 1; 65])
  = Undef.
Proof. vm_compute. reflexivity. Qed.
