(* ===== verification/Base64.v ===== *)
(** * The base64 codec of SocketRocket: fbase64.c

    Definitions; the theorems are in Base64Spec. Characters are the values of
    a signed [char], bytes those of a [u_char]. *)
From S2P Require Import Prelude.
From Stdlib Require Ascii String.

(** ** The alphabet *)

Definition bytes_of_string (s : string) : list Z :=
  (λ c, Z.of_N (Ascii.N_of_ascii c)) <$> String.list_ascii_of_string s.

Definition Base64 : list Z :=
  bytes_of_string "ABCDEFGHIJKLMNOPQRSTUVWXYZabcdefghijklmnopqrstuvwxyz0123456789+/".
Definition Pad64 : Z := 61.

(** [Base64[i]], in an array that ends with a NUL. *)
Definition base64_char (i : Z) : Z := default 0 (Base64 !! Z.to_nat i).

(** White space, in the C locale. [isspace] is defined for the values of an
    [unsigned char] and for EOF, which is -1: a [char] that is negative, other than
    that, is undefined behaviour. *)
Definition is_space (ch : Z) : bool := (ch =? 32) || ((9 <=? ch) && (ch <=? 13)).
Definition isspace (ch : Z) : outcome bool :=
  if (-1 <=? ch) && (ch <=? 255) then Done (is_space ch) else Undef.

(** [strchr(Base64, ch)] as an offset, for a [ch] that is not NUL. *)
Definition base64_index (ch : Z) : option Z :=
  (λ r, Z.of_nat (fst r)) <$> list_find (λ c, c = ch) Base64.

(** ** [f_b64_ntop] *)

(** [output[0..3]] for the three bytes of [input] *)
Definition ntop_output (i0 i1 i2 : Z) : Z * Z * Z * Z :=
  (u8 (Z.shiftr i0 2),
   u8 (Z.shiftl (Z.land i0 0x03) 4 + Z.shiftr i1 4),
   u8 (Z.shiftl (Z.land i1 0x0f) 2 + Z.shiftr i2 6),
   u8 (Z.land i2 0x3f)).

(** The loop of lines 144-161, then the padding of lines 164-183. [src] holds
    the [srclength] bytes that are left, [target] the [datalength] characters
    stored so far; [None] is [return (-1)]. *)
Fixpoint ntop_loop (src target : list Z) (targsize : Z) : option (list Z) :=
  match src with
  | i0 :: i1 :: i2 :: src' =>
      let '(o0, o1, o2, o3) := ntop_output i0 i1 i2 in
      if targsize <? u64 (Z.of_nat (length target) + 4) then None
      else
        ntop_loop src'
          (target ++ [base64_char o0; base64_char o1; base64_char o2; base64_char o3])
          targsize
  | [] => Some target
  | i0 :: rest =>
      let i1 := default 0 (head rest) in
      let '(o0, o1, o2, _) := ntop_output i0 i1 0 in
      if targsize <? u64 (Z.of_nat (length target) + 4) then None
      else
        Some (target ++
          [base64_char o0; base64_char o1;
           (match rest with [] => Pad64 | _ => base64_char o2 end); Pad64])
  end.

(** What is stored in [target], the NUL included, and the return value. *)
Definition f_b64_ntop (src : list Z) (targsize : Z) : option (list Z * Z) :=
  target ← ntop_loop src [] targsize;
  let datalength := Z.of_nat (length target) in
  if targsize <=? datalength then None
  else Some (target ++ [0], s32 datalength).

(** ** [f_b64_pton] *)

(** The [target] of the decoder, NULL or an array, with the index and the
    [state] of the automaton. *)
Record pton_state := PtonState {
  target : option (list Z);
  tarindex : Z;       (* u_int *)
  pstate : Z;         (* [state]: 0 to 3 *)
}.

(** [target[i]] and [target[i] = v]: undefined out of the array. *)
Definition tget (t : list Z) (i : Z) : outcome Z :=
  match t !! Z.to_nat i with Some v => Done v | None => Undef end.
Definition tset (t : list Z) (i v : Z) : outcome (list Z) :=
  if bool_decide (is_Some (t !! Z.to_nat i))
  then Done (<[Z.to_nat i := u8 v]> t) else Undef.

(** The switch of lines 220-260 for the digit [p]; [None] is [return (-1)]. *)
Definition pton_digit (targsize p : Z) (s : pton_state) : outcome (option pton_state) :=
  let i := tarindex s in
  match target s with
  | None =>
      if pstate s =? 0 then Done (Some (PtonState None i 1))
      else if pstate s =? 1 then Done (Some (PtonState None (u32 (i + 1)) 2))
      else if pstate s =? 2 then Done (Some (PtonState None (u32 (i + 1)) 3))
      else Done (Some (PtonState None (u32 (i + 1)) 0))
  | Some t =>
      if pstate s =? 0 then
        if targsize <=? i then Done None
        else
          t ← tset t i (Z.shiftl p 2);
          Done (Some (PtonState (Some t) i 1))
      else if pstate s =? 1 then
        if targsize <=? u32 (i + 1) then Done None
        else
          b ← tget t i;
          t ← tset t i (Z.lor b (Z.shiftr p 4));
          t ← tset t (u32 (i + 1)) (Z.shiftl (Z.land p 0x0f) 4);
          Done (Some (PtonState (Some t) (u32 (i + 1)) 2))
      else if pstate s =? 2 then
        if targsize <=? u32 (i + 1) then Done None
        else
          b ← tget t i;
          t ← tset t i (Z.lor b (Z.shiftr p 2));
          t ← tset t (u32 (i + 1)) (Z.shiftl (Z.land p 0x03) 6);
          Done (Some (PtonState (Some t) (u32 (i + 1)) 3))
      else
        if targsize <=? i then Done None
        else
          b ← tget t i;
          t ← tset t i (Z.lor b p);
          Done (Some (PtonState (Some t) (u32 (i + 1)) 0))
  end.

(** The [while] loop of lines 209-261. The string is the list of its characters
    up to and with its NUL: reading after that is undefined. Gives the state,
    the character that stopped the loop and the rest of the string. *)
Fixpoint pton_loop (src : list Z) (targsize : Z) (s : pton_state)
    : outcome (option (pton_state * Z * list Z)) :=
  match src with
  | [] => Undef
  | ch :: src' =>
      if ch =? 0 then Done (Some (s, ch, src'))
      else
      space ← isspace ch;
      if (space : bool) then pton_loop src' targsize s
      else if ch =? Pad64 then Done (Some (s, ch, src'))
      else
        match base64_index ch with
        | None => Done None
        | Some p =>
            r ← pton_digit targsize p s;
            match r with
            | None => Done None
            | Some s' => pton_loop src' targsize s'
            end
        end
  end.

(** [*src++] *)
Definition next_char (src : list Z) : outcome (Z * list Z) :=
  match src with [] => Undef | ch :: src' => Done (ch, src') end.

(** [for (; ch != '\0'; ch = *src++) if (!isspace(ch)) break;] *)
Fixpoint skip_spaces (ch : Z) (src : list Z) : outcome (Z * list Z) :=
  if ch =? 0 then Done (ch, src)
  else
    space ← isspace ch;
    if (space : bool) then match src with [] => Undef | ch' :: src' => skip_spaces ch' src' end
    else Done (ch, src).

(** [case 3]: only white space may follow, and the extra bits must be zero. *)
Definition pton_pad_last (s : pton_state) (ch : Z) (src : list Z)
    : outcome (option pton_state) :=
  '(ch, _) ← skip_spaces ch src;
  if negb (ch =? 0) then Done None
  else
    match target s with
    | None => Done (Some s)
    | Some t =>
        b ← tget t (tarindex s);
        if negb (b =? 0) then Done None else Done (Some s)
    end.

(** Lines 268-312. *)
Definition pton_finish (s : pton_state) (ch : Z) (src : list Z)
    : outcome (option pton_state) :=
  if ch =? Pad64 then
    '(ch, src) ← next_char src;
    if (pstate s =? 0) || (pstate s =? 1) then Done None
    else if pstate s =? 2 then
      '(ch, src) ← skip_spaces ch src;
      if negb (ch =? Pad64) then Done None
      else
        '(ch, src) ← next_char src;
        pton_pad_last s ch src
    else pton_pad_last s ch src
  else if negb (pstate s =? 0) then Done None
  else Done (Some s).

(** The array as it is left and the return value; [None] is [return (-1)]. *)
Definition f_b64_pton (src : list Z) (target0 : option (list Z)) (targsize : Z)
    : outcome (option (option (list Z) * Z)) :=
  r ← pton_loop src targsize (PtonState target0 0 0);
  match r with
  | None => Done None
  | Some (s, ch, src) =>
      r ← pton_finish s ch src;
      Done (option_map (λ s, (target s, s32 (tarindex s))) r)
  end.

Example pton_ntop_example :
  match f_b64_ntop [77; 97; 110; 255] 32 with
  | Some (t, n) => n = 8 ∧
      f_b64_pton t (Some (replicate 5 170)) 5 = Done (Some (Some [77; 97; 110; 255; 0], 4))
  | None => False
  end.
Proof. vm_compute. split; reflexivity. Qed.
