(* ===== verification/Base64Spec.v ===== *)
(** * The base64 codec of SocketRocket: what it computes

    The encoding of RFC 4648 as a function on lists of bytes; the encoder computes
    it, and the decoder accepts it, with white space anywhere, and nothing else. *)
From S2P Require Import Prelude Base64.

(** ** The encoding *)

(** The groups of six bits of a list of bytes. *)
Fixpoint digits (l : list Z) : list Z :=
  match l with
  | [] => []
  | [a] => [a / 4; a `mod` 4 * 16]
  | [a; b] => [a / 4; a `mod` 4 * 16 + b / 16; b `mod` 16 * 4]
  | a :: b :: c :: l' =>
      [a / 4; a `mod` 4 * 16 + b / 16; b `mod` 16 * 4 + c / 64; c `mod` 64] ++ digits l'
  end.

Definition padding (n : nat) : list Z := replicate ((3 - n mod 3) mod 3)%nat Pad64.

(** The characters of the groups, padded to a multiple of four. *)
Definition radix64 (l : list Z) : list Z :=
  (base64_char <$> digits l) ++ padding (length l).

(** A string without its white space. *)
Definition visible (l : list Z) : list Z := filter (λ c, is_space c = false) l.

Definition is_digit (p : Z) : Prop := 0 ≤ p < 64.

(** Induction on the groups of three bytes. *)
Lemma groups_ind (P : list Z → Prop) :
  P [] → (∀ a, P [a]) → (∀ a b, P [a; b]) →
  (∀ a b c l, P l → P (a :: b :: c :: l)) → ∀ l, P l.
Proof.
  intros H0 H1 H2 H3 l. assert (P l ∧ (∀ a, P (a :: l)) ∧ ∀ a b, P (a :: b :: l)) as [? _]; [|done].
  induction l as [|c l (IH & IH1 & IH2)]; [by auto|]. split_and!; auto.
Qed.

Lemma digits_range l : Forall is_byte l → Forall is_digit (digits l).
Proof.
  induction l as [|a|a b|a b c l IH] using groups_ind; intros Hl; decompose_Forall_hyps;
    unfold is_byte in *; repeat constructor; unfold is_digit; try zdiv. by apply IH.
Qed.

Lemma padding_3 n : padding (3 + n) = padding n.
Proof.
  unfold padding. replace (3 + n)%nat with (n + 1 * 3)%nat by lia. by rewrite Nat.Div0.mod_add.
Qed.

Lemma radix64_3 a b c l :
  radix64 (a :: b :: c :: l) =
  (base64_char <$> [a / 4; a `mod` 4 * 16 + b / 16; b `mod` 16 * 4 + c / 64; c `mod` 64]) ++
  radix64 l.
Proof.
  unfold radix64. change (length (a :: b :: c :: l)) with (3 + length l)%nat. by rewrite padding_3.
Qed.

(** Four characters for three bytes, or fewer. *)
Lemma radix64_length l : length (radix64 l) = (4 * ((length l + 2) / 3))%nat.
Proof.
  induction l as [|a|a b|a b c l IH] using groups_ind; [done..|].
  rewrite radix64_3, length_app, IH. cbn [length fmap list_fmap].
  replace (S (S (S (length l))) + 2)%nat with (1 * 3 + (length l + 2))%nat by lia.
  rewrite Nat.div_add_l by lia. lia.
Qed.

(** ** The encoder *)

Lemma ntop_output_digits a b c :
  is_byte a → is_byte b → is_byte c →
  ntop_output a b c =
  (a / 4, a `mod` 4 * 16 + b / 16, b `mod` 16 * 4 + c / 64, c `mod` 64).
Proof.
  unfold is_byte, ntop_output. intros Ha Hb Hc.
  change 0x03 with (Z.ones 2). change 0x0f with (Z.ones 4). change 0x3f with (Z.ones 6).
  rewrite !Z.land_ones, !Z.shiftr_div_pow2, !Z.shiftl_mul_pow2 by lia.
  change (2 ^ 2) with 4. change (2 ^ 4) with 16. change (2 ^ 6) with 64.
  rewrite !wrapu_small by (change (2 ^ 8) with 256; zdiv). done.
Qed.

Lemma length_4 (x y z w : Z) : length (base64_char <$> [x; y; z; w]) = 4%nat.
Proof. done. Qed.

Lemma ntop_loop_spec src target targsize :
  Forall is_byte src → Z.of_nat (length target) ≤ targsize →
  Z.of_nat (length target + length (radix64 src)) < 2 ^ 64 →
  ntop_loop src target targsize =
  if Z.of_nat (length target + length (radix64 src)) <=? targsize
  then Some (target ++ radix64 src) else None.
Proof.
  revert target. induction src as [|a|a b|a b c src IH] using groups_ind;
    intros target Hby Ht Hmax; rewrite ?Forall_cons in Hby; destruct_and?.
  - cbn [ntop_loop radix64 length]. rewrite (proj2 (Z.leb_le _ _)) by (simpl; lia).
    by rewrite app_nil_r.
  - cbn [ntop_loop head default]. rewrite ntop_output_digits by done.
    change (length (radix64 [a])) with 4%nat in *. rewrite wrapu_small by lia.
    rewrite Nat2Z.inj_add, Z.leb_antisym. destruct (_ <? _); [done|]. simpl.
    unfold radix64. simpl. by rewrite Z.add_0_r.
  - cbn [ntop_loop head default]. rewrite ntop_output_digits by done.
    change (length (radix64 [a; b])) with 4%nat in *. rewrite wrapu_small by lia.
    rewrite Nat2Z.inj_add, Z.leb_antisym. destruct (_ <? _); [done|]. simpl.
    unfold radix64. simpl. by rewrite Z.add_0_r.
  - cbn [ntop_loop]. rewrite ntop_output_digits by done.
    rewrite radix64_3, length_app, length_4 in *. rewrite wrapu_small by lia.
    destruct (Z.ltb_spec targsize (Z.of_nat (length target) + 4)) as [Hlt|Hge].
    + by rewrite (proj2 (Z.leb_gt _ _)) by lia.
    + rewrite IH by (rewrite ?length_app; simpl; lia || done).
      rewrite length_app, <-app_assoc. simpl length.
      by replace (length target + 4 + length (radix64 src))%nat
        with (length target + (4 + length (radix64 src)))%nat by lia.
Qed.

Lemma ntop_run src targsize :
  Forall is_byte src → Z.of_nat (length (radix64 src)) < 2 ^ 31 → 0 ≤ targsize < 2 ^ 64 →
  f_b64_ntop src targsize =
  if Z.of_nat (length (radix64 src)) <? targsize
  then Some (radix64 src ++ [0], Z.of_nat (length (radix64 src))) else None.
Proof.
  intros Hby Hn Ht. unfold f_b64_ntop. rewrite ntop_loop_spec by (simpl; lia || done).
  simpl. destruct (Z.ltb_spec (Z.of_nat (length (radix64 src))) targsize).
  - rewrite (proj2 (Z.leb_le _ _)) by lia. simpl. rewrite (proj2 (Z.leb_gt _ _)) by lia.
    rewrite wraps_small; [done|lia|]. simpl. lia.
  - destruct (_ <=? targsize) eqn:E; [|done]. simpl. by rewrite (proj2 (Z.leb_le _ _)).
Qed.

(** The encoder computes the base64 encoding and adds a NUL; it fails when, and
    only when, the buffer has no room for both. *)
Theorem f_b64_ntop_spec src targsize :
  Forall is_byte src → Z.of_nat (length (radix64 src)) < 2 ^ 31 → 0 ≤ targsize < 2 ^ 64 →
  f_b64_ntop src targsize =
  if Z.of_nat (length (radix64 src)) <? targsize
  then Some (radix64 src ++ [0], Z.of_nat (length (radix64 src))) else None.
Proof. apply ntop_run. Qed.

(** ** The alphabet *)

Lemma digit_forall (P : Z → Prop) `{∀ p, Decision (P p)} :
  forallb (λ p, bool_decide (P p)) (seqZ 0 64) = true → ∀ p, is_digit p → P p.
Proof.
  rewrite forallb_forall. intros Hb p Hp. apply (bool_decide_eq_true (P p)), Hb.
  apply list_elem_of_In, elem_of_seqZ. unfold is_digit in Hp. lia.
Qed.

Lemma base64_index_char p : is_digit p → base64_index (base64_char p) = Some p.
Proof.
  revert p. apply (digit_forall (λ p, base64_index (base64_char p) = Some p)).
  vm_compute. reflexivity.
Qed.

Lemma base64_index_inv ch p : base64_index ch = Some p → is_digit p ∧ base64_char p = ch.
Proof.
  unfold base64_index. intros ([i c] & (Hi & -> & _)%list_find_Some & ->)%fmap_Some. simpl.
  pose proof (lookup_lt_Some _ _ _ Hi) as Hlt. change (length Base64) with 64%nat in Hlt.
  split; [unfold is_digit; lia|]. unfold base64_char. by rewrite Nat2Z.id, Hi.
Qed.

(** The characters of the alphabet are no white space, no NUL and no padding. *)
Lemma base64_char_visible p :
  is_digit p → is_space (base64_char p) = false ∧ base64_char p ≠ 0 ∧ base64_char p ≠ Pad64.
Proof.
  revert p. apply (digit_forall (λ p, is_space (base64_char p) = false ∧
    base64_char p ≠ 0 ∧ base64_char p ≠ Pad64)).
  vm_compute. reflexivity.
Qed.

(** ** Decoding digits

    The bytes that are complete, the number of digits since the last whole group,
    and the bits that are left of the last digit. *)
Definition acc : Type := list Z * Z * Z.

Definition absorb (a : acc) (p : Z) : acc :=
  let '(out, st, pend) := a in
  if st =? 0 then (out, 1, p * 4)
  else if st =? 1 then (out ++ [pend + p / 16], 2, p `mod` 16 * 16)
  else if st =? 2 then (out ++ [pend + p / 4], 3, p `mod` 4 * 64)
  else (out ++ [pend + p], 0, 0).

(** The digits after the last whole group for [n] bytes. *)
Definition last_state (n : nat) : Z :=
  match (n mod 3)%nat with O => 0 | 1%nat => 2 | _ => 3 end.

Lemma last_state_3 n : last_state (3 + n) = last_state n.
Proof.
  unfold last_state. replace (3 + n)%nat with (n + 1 * 3)%nat by lia. by rewrite Nat.Div0.mod_add.
Qed.

Lemma absorb_digits l : ∀ out,
  Forall is_byte l → foldl absorb (out, 0, 0) (digits l) = (out ++ l, last_state (length l), 0).
Proof.
  induction l as [|a|a b|a b c l IH] using groups_ind; intros out Hby;
    rewrite ?Forall_cons in Hby; destruct_and?; unfold is_byte in *.
  - by rewrite app_nil_r.
  - simpl. do 2 f_equal; [|zdiv]. do 2 f_equal. zdiv.
  - simpl. rewrite <-app_assoc. simpl. do 2 f_equal; [|zdiv]. do 2 f_equal; [zdiv|]. f_equal. zdiv.
  - cbn [digits app foldl absorb Z.eqb Pos.eqb]. rewrite IH by done.
    change (length (a :: b :: c :: l)) with (3 + length l)%nat. rewrite last_state_3.
    rewrite <-!app_assoc. simpl. do 2 f_equal. do 2 f_equal; [zdiv|]. f_equal; [zdiv|]. f_equal. zdiv.
Qed.

(** Induction on the groups of four digits. *)
Lemma quads_ind (P : list Z → Prop) :
  P [] → (∀ p, P [p]) → (∀ p q, P [p; q]) → (∀ p q r, P [p; q; r]) →
  (∀ p q r s l, P l → P (p :: q :: r :: s :: l)) → ∀ l, P l.
Proof.
  intros H0 H1 H2 H3 H4 l.
  assert (P l ∧ (∀ a, P (a :: l)) ∧ (∀ a b, P (a :: b :: l)) ∧ ∀ a b c, P (a :: b :: c :: l))
    as [? _]; [|done].
  induction l as [|c l (IH & IH1 & IH2 & IH3)]; [by auto|]. split_and!; auto.
Qed.

(** Digits that leave no bits are those of the bytes they give. *)
Lemma absorb_inv ps : ∀ out0 out st,
  Forall is_digit ps → foldl absorb (out0, 0, 0) ps = (out, st, 0) → st ≠ 1 →
  ∃ l, out = out0 ++ l ∧ Forall is_byte l ∧ ps = digits l ∧ st = last_state (length l).
Proof.
  induction ps as [|p|p q|p q r|p q r s ps IH] using quads_ind; intros out0 out st Hps Hf Hst;
    rewrite ?Forall_cons in Hps; destruct_and?; unfold is_digit in *;
    cbn [foldl absorb Z.eqb Pos.eqb] in Hf.
  - injection Hf as <- <-. exists []. by rewrite app_nil_r.
  - injection Hf as <- <- E. done.
  - injection Hf as <- <- E. exists [p * 4 + q / 16]. split_and!; [done| | |done].
    + repeat constructor; zdiv.
    + simpl. f_equal; [zdiv|]. f_equal. zdiv.
  - injection Hf as <- <- E. rewrite <-app_assoc.
    exists [p * 4 + q / 16; q `mod` 16 * 16 + r / 4]. split_and!; [done| | |done].
    + repeat constructor; zdiv.
    + simpl. f_equal; [zdiv|]. f_equal; [zdiv|]. f_equal. zdiv.
  - apply IH in Hf as (l & -> & Hl & -> & ->); [|done|done].
    exists (p * 4 + q / 16 :: q `mod` 16 * 16 + r / 4 :: r `mod` 4 * 64 + s :: l).
    split_and!.
    + by rewrite <-!app_assoc.
    + repeat constructor; [zdiv..|done].
    + cbn [digits app]. f_equal; [zdiv|]. f_equal; [zdiv|]. f_equal; [zdiv|]. f_equal. zdiv.
    + change (length (_ :: _ :: _ :: l)) with (3 + length l)%nat. by rewrite last_state_3.
Qed.

Lemma absorb_length ps a : (length a.1.1 ≤ length (foldl absorb a ps).1.1)%nat.
Proof.
  revert a. induction ps as [|p ps IH]; intros [[out st] pend]; [done|]. simpl foldl.
  etransitivity; [|apply IH]. unfold absorb. repeat destruct (_ =? _); simpl;
    rewrite ?length_app; simpl; lia.
Qed.

(** ** The decoder follows the digits *)

Lemma tget_mid out x r : tget (out ++ x :: r) (Z.of_nat (length out)) = Done x.
Proof. unfold tget. by rewrite Nat2Z.id, list_lookup_middle. Qed.

Lemma tset_mid out x r v : tset (out ++ x :: r) (Z.of_nat (length out)) v = Done (out ++ u8 v :: r).
Proof.
  unfold tset. rewrite Nat2Z.id, bool_decide_eq_true_2 by (rewrite list_lookup_middle; done).
  by rewrite insert_app_r_alt, Nat.sub_diag by done.
Qed.

Lemma tset_next out x y r v :
  tset (out ++ x :: y :: r) (Z.of_nat (length out) + 1) v = Done (out ++ x :: u8 v :: r).
Proof.
  change (x :: y :: r) with ([x] ++ y :: r). change (x :: u8 v :: r) with ([x] ++ u8 v :: r).
  rewrite !(app_assoc out [x]).
  replace (Z.of_nat (length out) + 1) with (Z.of_nat (length (out ++ [x])))
    by (rewrite length_app; simpl; lia).
  apply tset_mid.
Qed.

Lemma lor_add k x n : 0 ≤ n → 0 ≤ x < 2 ^ n → Z.lor (k * 2 ^ n) x = k * 2 ^ n + x.
Proof.
  intros Hn Hx. rewrite Z.lor_comm, <-Z.shiftl_mul_pow2, lor_shiftl_add by done. lia.
Qed.

Section decoder.
Context (t0 : option (list Z)) (targsize : Z).

(** The caller has the room it says. *)
Definition array_ok : Prop :=
  match t0 with Some t => targsize ≤ Z.of_nat (length t) < 2 ^ 31 | None => True end.

Definition pend_ok (st pend : Z) : Prop :=
  (st = 0 ∧ pend = 0) ∨ (st = 1 ∧ ∃ k, 0 ≤ k < 64 ∧ pend = k * 2 ^ 2) ∨
  (st = 2 ∧ ∃ k, 0 ≤ k < 16 ∧ pend = k * 2 ^ 4) ∨ (st = 3 ∧ ∃ k, 0 ≤ k < 4 ∧ pend = k * 2 ^ 6).

(** What the array holds: the bytes, the bits that are left, and what it held. *)
Definition array_after (t out : list Z) (st pend : Z) : list Z :=
  if st =? 0 then out ++ drop (length out) t else out ++ pend :: drop (S (length out)) t.

(** The decoder is in the state of the accumulator. *)
Record holds (a : acc) (s : pton_state) : Prop := {
  holds_index : tarindex s = u32 (Z.of_nat (length a.1.1));
  holds_state : pstate s = a.1.2;
  holds_pend : pend_ok a.1.2 a.2;
  holds_target :
    match t0 with
    | None => target s = None
    | Some t =>
        target s = Some (array_after t a.1.1 a.1.2 a.2) ∧
        (length a.1.1 ≤ length t)%nat ∧ (a.1.2 ≠ 0 → (length a.1.1 < length t)%nat)
    end;
}.

(** Is there room for what the next digit completes or starts? *)
Definition room (a : acc) : Prop :=
  match t0 with
  | None => True
  | Some _ =>
      Z.of_nat (length a.1.1) + (if (a.1.2 =? 1) || (a.1.2 =? 2) then 1 else 0) < targsize
  end.

#[local] Instance room_dec a : Decision (room a).
Proof. unfold room. destruct t0; apply _. Defined.

Lemma u32_succ n : u32 (u32 n + 1) = u32 (n + 1).
Proof. unfold wrapu. by rewrite Zplus_mod_idemp_l. Qed.

Lemma length_snoc {A} (l : list A) x : Z.of_nat (length (l ++ [x])) = Z.of_nat (length l) + 1.
Proof. rewrite length_app. simpl. lia. Qed.

Lemma pend_ok_absorb out st pend p :
  pend_ok st pend → is_digit p → pend_ok (absorb (out, st, pend) p).1.2 (absorb (out, st, pend) p).2.
Proof.
  unfold pend_ok, is_digit. intros Hpend Hp.
  destruct Hpend as [[-> ->]|[[-> _]|[[-> _]|[-> _]]]]; simpl.
  - right. left. split; [done|]. exists p. lia.
  - right. right. left. split; [done|]. exists (p `mod` 16). zdiv.
  - right. right. right. split; [done|]. exists (p `mod` 4). zdiv.
  - by left.
Qed.

Lemma pton_digit_null a p s :
  t0 = None → holds a s → is_digit p →
  ∃ s', pton_digit targsize p s = Done (Some s') ∧ holds (absorb a p) s'.
Proof.
  destruct a as [[out st] pend], s as [tg i ps]. intros E [Hi Hs Hpend Ht] Hp.
  rewrite E in Ht. simpl in *. subst. pose proof (pend_ok_absorb out st pend p Hpend Hp) as Hok.
  unfold pton_digit. simpl. destruct Hpend as [[-> ->]|[[-> _]|[[-> _]|[-> _]]]]; simpl in *;
    (eexists; split; [done|]); constructor; simpl; rewrite ?E, ?length_snoc, ?u32_succ; done.
Qed.

Lemma drop_next (l : list Z) n : (n < length l)%nat → ∃ x, drop n l = x :: drop (S n) l.
Proof. intros [x Hx]%lookup_lt_is_Some_2. exists x. by apply drop_S. Qed.

(** The bits of a digit that complete a byte. *)
Lemma digit_high k p n e :
  0 ≤ n → 0 ≤ e → 0 ≤ p / 2 ^ n < 2 ^ e → Z.lor (k * 2 ^ e) (Z.shiftr p n) = k * 2 ^ e + p / 2 ^ n.
Proof. intros Hn He Hp. rewrite Z.shiftr_div_pow2 by done. by apply lor_add. Qed.

#[local] Ltac obind := cbn [mbind outcome_bind obind].

Lemma pton_digit_array t a p s :
  t0 = Some t → array_ok → holds a s → is_digit p →
  (room a → ∃ s', pton_digit targsize p s = Done (Some s') ∧ holds (absorb a p) s') ∧
  (¬ room a → pton_digit targsize p s = Done None).
Proof.
  destruct a as [[out st] pend], s as [tg i ps]. unfold array_ok, room. intros E Hok [Hi Hs Hpend Ht] Hp.
  rewrite E in *. simpl in *. destruct Ht as (-> & Hle & Hlt).
  rewrite wrapu_small in Hi by lia. subst i ps.
  pose proof (pend_ok_absorb out st pend p Hpend Hp) as Hok'.
  assert (u32 (Z.of_nat (length out) + 1) = Z.of_nat (length out) + 1) as Eu
    by (apply wrapu_small; lia).
  assert (∀ out' st' pend' tg' i', i' = Z.of_nat (length out') → pend_ok st' pend' →
    tg' = array_after t out' st' pend' → (length out' ≤ length t)%nat →
    (st' ≠ 0 → (length out' < length t)%nat) →
    holds (out', st', pend') (PtonState (Some tg') i' st')) as Hmk.
  { intros out' st' pend' tg' i' -> ? -> ??. constructor; simpl; [|done|done|by rewrite E].
    rewrite wrapu_small by lia. done. }
  unfold pton_digit, array_after. unfold is_digit in Hp.
  destruct Hpend as [[-> ->]|[[-> (k & Hk & ->)]|[[-> (k & Hk & ->)]|[-> (k & Hk & ->)]]]];
    simpl in *.
  - destruct (Z.leb_spec targsize (Z.of_nat (length out))) as [Hf|Hr]; [split; [lia|done]|].
    split; [intros _|lia].
    destruct (drop_next t (length out)) as [x Ed]; [lia|]. rewrite Ed, tset_mid.
    eexists. split; [done|]. apply Hmk; [done|done| |lia|lia].
    unfold array_after. simpl. by rewrite Z.shiftl_mul_pow2, wrapu_small by lia.
  - rewrite Eu. destruct (Z.leb_spec targsize (Z.of_nat (length out) + 1)) as [Hf|Hr];
      [split; [lia|done]|]. split; [intros _|lia].
    destruct (drop_next t (S (length out))) as [y Ed]; [lia|].
    rewrite Ed, tget_mid. obind. rewrite (digit_high k p 4 2) by (simpl; zdiv).
    rewrite tset_mid. obind. rewrite tset_next. obind.
    eexists. split; [done|]. apply Hmk; [by rewrite length_snoc|done| |rewrite length_app; simpl; lia..].
    unfold array_after. simpl. rewrite land_F, Z.shiftl_mul_pow2 by lia.
    rewrite !wrapu_small by (simpl; zdiv). rewrite <-app_assoc, length_app, Nat.add_1_r. done.
  - rewrite Eu. destruct (Z.leb_spec targsize (Z.of_nat (length out) + 1)) as [Hf|Hr];
      [split; [lia|done]|]. split; [intros _|lia].
    destruct (drop_next t (S (length out))) as [y Ed]; [lia|].
    rewrite Ed, tget_mid. obind. rewrite (digit_high k p 2 4) by (simpl; zdiv).
    rewrite tset_mid. obind. rewrite tset_next. obind.
    eexists. split; [done|]. apply Hmk; [by rewrite length_snoc|done| |rewrite length_app; simpl; lia..].
    unfold array_after. simpl. change 3 with (Z.ones 2) at 1.
    rewrite Z.land_ones, Z.shiftl_mul_pow2 by lia.
    rewrite !wrapu_small by (simpl; zdiv). rewrite <-app_assoc, length_app, Nat.add_1_r. done.
  - destruct (Z.leb_spec targsize (Z.of_nat (length out))) as [Hf|Hr]; [split; [lia|done]|].
    split; [intros _|lia]. rewrite tget_mid. obind.
    rewrite (lor_add k p 6), tset_mid, Eu by lia. obind.
    eexists. split; [done|]. apply Hmk; [by rewrite length_snoc|done| |rewrite length_app; simpl; lia..].
    unfold array_after. simpl. rewrite wrapu_small by (simpl; lia).
    rewrite <-app_assoc, length_app, Nat.add_1_r. done.
Qed.

Lemma pton_digit_spec a p s :
  array_ok → holds a s → is_digit p →
  (room a → ∃ s', pton_digit targsize p s = Done (Some s') ∧ holds (absorb a p) s') ∧
  (¬ room a → pton_digit targsize p s = Done None).
Proof.
  intros Hok Hs Hp. destruct t0 as [t|] eqn:E.
  - by eapply pton_digit_array.
  - split; [intros _; by apply pton_digit_null|]. unfold room. rewrite E. tauto.
Qed.

(** *** The loop *)

(** There is room for the bytes, and one more. *)
Definition fits (a : acc) : Prop :=
  match t0 with None => True | Some _ => Z.of_nat (length a.1.1) < targsize end.

Lemma fits_room a p ps : pend_ok a.1.2 a.2 → fits (foldl absorb (absorb a p) ps) → room a.
Proof.
  destruct a as [[out st] pend]. unfold fits, room. intros Hp Hf. destruct t0; [|done].
  pose proof (absorb_length ps (absorb (out, st, pend) p)) as Hl. simpl in *.
  destruct Hp as [[-> _]|[[-> _]|[[-> _]|[-> _]]]]; simpl in *; rewrite ?length_app in Hl; simpl in Hl; lia.
Qed.

(** Where the loop stops. *)
Definition stops (ch : Z) (rest : list Z) : Prop := ch = 0 ∨ ch = Pad64 ∧ 0 ∈ rest.

Lemma visible_space c l : is_space c = true → visible (c :: l) = visible l.
Proof. intros Hc. unfold visible. rewrite filter_cons_False; [done|]. by rewrite Hc. Qed.

Lemma visible_char c l : is_space c = false → visible (c :: l) = c :: visible l.
Proof. intros Hc. unfold visible. by rewrite filter_cons_True. Qed.

Lemma visible_app l1 l2 : visible (l1 ++ l2) = visible l1 ++ visible l2.
Proof. apply filter_app. Qed.

(** The characters that [isspace] takes. *)
Definition char_ok (c : Z) : Prop := -1 ≤ c < 256.
#[export] Instance char_ok_dec c : Decision (char_ok c) := _.

Lemma run_isspace {B} c (f : bool → outcome B) : char_ok c → (isspace c ≫= f) = f (is_space c).
Proof.
  unfold char_ok, isspace. intros Hc. rewrite (proj2 (Z.leb_le _ _)), (proj2 (Z.leb_le _ _)) by lia. done.
Qed.
Lemma space_ok c : is_space c = true → char_ok c.
Proof.
  unfold is_space, char_ok. rewrite orb_true_iff, andb_true_iff, Z.eqb_eq, !Z.leb_le. lia.
Qed.
Lemma spaces_ok l : Forall (λ c, is_space c = true) l → Forall char_ok l.
Proof. intros Hl. eapply Forall_impl; [exact Hl|]. exact space_ok. Qed.
Lemma base64_char_ok p : is_digit p → char_ok (base64_char p).
Proof. revert p. apply (digit_forall (λ p, char_ok (base64_char p))). vm_compute. done. Qed.

Lemma pton_loop_sound src : ∀ a s,
  array_ok → holds a s → 0 ∈ src → Forall char_ok src →
  pton_loop src targsize s = Done None ∨
  ∃ text ch rest ps s', src = text ++ ch :: rest ∧ stops ch rest ∧
    visible text = base64_char <$> ps ∧ Forall is_digit ps ∧
    holds (foldl absorb a ps) s' ∧ pton_loop src targsize s = Done (Some (s', ch, rest)).
Proof.
  induction src as [|ch src IH]; intros a s Hok Hs H0 Hch0; [by apply not_elem_of_nil in H0|].
  apply Forall_cons in Hch0 as [Hcok Hch0]. cbn [pton_loop]. destruct (Z.eqb_spec ch 0) as [->|Hch].
  { right. exists [], 0, src, [], s. split_and!; [done|by left|done|done|done|done]. }
  apply elem_of_cons in H0 as [<-|H0]; [done|]. rewrite run_isspace by done.
  destruct (is_space ch) eqn:Esp.
  { destruct (IH a s Hok Hs H0 Hch0) as [E|(text & ch' & rest & ps & s' & -> & Hst & Hv & Hps & Hs' & E)];
      [by left|right]. exists (ch :: text), ch', rest, ps, s'.
    split_and!; [done|done|by rewrite visible_space|done|done|done]. }
  destruct (Z.eqb_spec ch Pad64) as [->|Hpad].
  { right. exists [], Pad64, src, [], s. split_and!; [done|by right|done|done|done|done]. }
  destruct (base64_index ch) as [p|] eqn:Ep; [|by left].
  apply base64_index_inv in Ep as [Hp Ep].
  destruct (pton_digit_spec a p s Hok Hs Hp) as [Hroom Hno].
  destruct (decide (room a)) as [Hr|Hr]; [|left; by rewrite (Hno Hr)].
  destruct (Hroom Hr) as (s1 & E1 & Hs1). rewrite E1. cbn [mbind outcome_bind obind].
  destruct (IH (absorb a p) s1 Hok Hs1 H0 Hch0)
    as [E|(text & ch' & rest & ps & s' & -> & Hst & Hv & Hps & Hs' & E)]; [by left|right].
  exists (ch :: text), ch', rest, (p :: ps), s'. split_and!; [done|done| |by constructor|done|done].
  by rewrite visible_char, Hv, <-Ep.
Qed.

Lemma pton_loop_complete text ch rest : ∀ a s ps,
  array_ok → holds a s → stops ch rest →
  visible text = base64_char <$> ps → Forall is_digit ps → fits (foldl absorb a ps) →
  ∃ s', pton_loop (text ++ ch :: rest) targsize s = Done (Some (s', ch, rest)) ∧
        holds (foldl absorb a ps) s'.
Proof.
  induction text as [|c text IH]; intros a s ps Hok Hs Hst Hv Hps Hf.
  - symmetry in Hv. apply fmap_nil_inv in Hv as ->. exists s. split; [|done].
    cbn [app pton_loop]. destruct Hst as [->|[-> _]]; done.
  - cbn [app pton_loop]. destruct (is_space c) eqn:Esp.
    { rewrite visible_space in Hv by done. destruct (Z.eqb_spec c 0) as [->|_]; [done|].
      rewrite run_isspace, Esp by (by apply space_ok). by apply IH. }
    rewrite visible_char in Hv by done. destruct ps as [|p ps]; [done|].
    rewrite fmap_cons in Hv. injection Hv as -> Hv. apply Forall_cons in Hps as [Hp Hps].
    destruct (base64_char_visible p Hp) as (_ & H0 & Hpad).
    rewrite (proj2 (Z.eqb_neq _ _) H0), run_isspace, Esp, (proj2 (Z.eqb_neq _ _) Hpad), base64_index_char
      by (by apply base64_char_ok || done).
    destruct (pton_digit_spec a p s Hok Hs Hp) as [Hroom _].
    destruct Hroom as (s1 & E1 & Hs1); [by eapply fits_room; [apply Hs|]|].
    rewrite E1. cbn [mbind outcome_bind obind]. exact (IH (absorb a p) s1 ps Hok Hs1 Hst Hv Hps Hf).
Qed.

(** *** The end of the string *)

(** White space up to another character. *)
Lemma skip_spaces_app sp c rest :
  Forall (λ c, is_space c = true) sp → is_space c = false → char_ok c →
  ('(ch, src) ← next_char (sp ++ c :: rest); skip_spaces ch src) = Done (c, rest).
Proof.
  intros Hsp Hc Hok. simpl. induction Hsp as [|c' sp Hc' Hsp IH]; simpl.
  - destruct rest; simpl; destruct (c =? 0); try done; by rewrite run_isspace, Hc.
  - destruct (Z.eqb_spec c' 0) as [->|Hn]; [done|]. apply Z.eqb_neq in Hn.
    destruct sp as [|c'' sp]; simpl in *; rewrite Hn, run_isspace, Hc' by (by apply space_ok); exact IH.
Qed.

Lemma spaces_split l :
  0 ∈ l → ∃ sp c rest, l = sp ++ c :: rest ∧ Forall (λ c, is_space c = true) sp ∧
    is_space c = false ∧ (c = 0 ∨ 0 ∈ rest).
Proof.
  induction l as [|c l IH]; intros H0; [by apply not_elem_of_nil in H0|].
  destruct (is_space c) eqn:E.
  - apply elem_of_cons in H0 as [<-|H0]; [done|].
    destruct (IH H0) as (sp & c' & rest & -> & ? & ? & ?). exists (c :: sp), c', rest.
    split_and!; [done|by constructor|done|done].
  - exists [], c, l. split_and!; [done|done|done|]. apply elem_of_cons in H0 as [<-|H0]; auto.
Qed.

(** The ends of a string that are accepted after [st] digits. *)
Inductive accepts : Z → Z → list Z → Prop :=
  | accepts_end rest : accepts 0 0 rest
  | accepts_pad sp rest :
      Forall (λ c, is_space c = true) sp → accepts 3 Pad64 (sp ++ 0 :: rest)
  | accepts_pads sp sp' rest :
      Forall (λ c, is_space c = true) sp → Forall (λ c, is_space c = true) sp' →
      accepts 2 Pad64 (sp ++ Pad64 :: sp' ++ 0 :: rest).

Lemma run_pad_last a s ch src sp c rest :
  array_ok → holds a s → a.1.2 ≠ 0 → ch :: src = sp ++ c :: rest →
  Forall (λ c, is_space c = true) sp → is_space c = false → char_ok c →
  pton_pad_last s ch src =
  Done (if bool_decide (c = 0 ∧ (is_Some t0 → a.2 = 0)) then Some s else None).
Proof.
  intros Hok Hs Hst E Hsp Hc Hcok. unfold pton_pad_last.
  pose proof (skip_spaces_app sp c rest Hsp Hc Hcok) as Esk. rewrite <-E in Esk. simpl in Esk.
  rewrite Esk. cbn [mbind outcome_bind obind].
  destruct (Z.eqb_spec c 0) as [->|Hn]; simpl; [|by rewrite bool_decide_eq_false_2 by tauto].
  destruct a as [[out st] pend], Hs as [Hi Hps Hpend Ht]. unfold array_ok in Hok. simpl in *.
  destruct t0 as [t|].
  - destruct Ht as (-> & Hle & Hlt). rewrite Hi, wrapu_small by lia. unfold array_after.
    rewrite (proj2 (Z.eqb_neq _ _) Hst), tget_mid. cbn [mbind outcome_bind obind].
    destruct (Z.eqb_spec pend 0) as [->|Hp]; simpl.
    + done.
    + rewrite bool_decide_eq_false_2; [done|]. intros [_ Hp']. by apply Hp, Hp'.
  - rewrite Ht. rewrite bool_decide_eq_true_2; [done|]. split; [done|]. by intros [? ?].
Qed.

Lemma run_finish a s ch rest :
  array_ok → holds a s → stops ch rest → Forall char_ok rest →
  ∃ r, pton_finish s ch rest = Done r ∧
    (r = None ∨ r = Some s ∧ accepts a.1.2 ch rest ∧ (is_Some t0 → a.2 = 0)).
Proof.
  intros Hok Hs Hst Hrest. unfold pton_finish. pose proof (holds_pend _ _ Hs) as Hpend.
  rewrite (holds_state _ _ Hs).
  destruct Hst as [->|[-> H0]]; simpl.
  - destruct (Z.eqb_spec a.1.2 0) as [E|E]; simpl; [|by eauto].
    eexists. split; [done|]. right. rewrite E. split_and!; [done|constructor|].
    destruct Hpend as [[_ ->]|[[E' _]|[[E' _]|[E' _]]]]; [done|congruence..].
  - destruct rest as [|c src]; [by apply not_elem_of_nil in H0|]. cbn [next_char mbind outcome_bind obind].
    destruct (spaces_split _ H0) as (sp & c1 & r1 & E1 & Hsp & Hc1 & H01).
    rewrite E1, Forall_app, Forall_cons in Hrest. destruct Hrest as (_ & Hok1 & Hrest).
    destruct Hpend as [[Est _]|[[Est _]|[[Est _]|[Est _]]]]; rewrite Est; simpl; [by eauto..| |].
    + pose proof (skip_spaces_app sp c1 r1 Hsp Hc1 Hok1) as Esk. rewrite <-E1 in Esk. simpl in Esk.
      rewrite Esk. cbn [mbind outcome_bind obind].
      destruct (Z.eqb_spec c1 Pad64) as [->|Hn]; simpl; [|by eauto].
      destruct H01 as [?|H01]; [done|].
      destruct r1 as [|c2 r1]; [by apply not_elem_of_nil in H01|]. cbn [next_char mbind outcome_bind obind].
      destruct (spaces_split _ H01) as (sp2 & c3 & r3 & E3 & Hsp2 & Hc3 & _).
      rewrite E3, Forall_app, Forall_cons in Hrest. destruct Hrest as (_ & Hok3 & _).
      rewrite (run_pad_last a s c2 r1 sp2 c3 r3 Hok Hs) by (rewrite ?Est; done).
      eexists. split; [done|]. case_bool_decide as Hb; [right|by left]. destruct Hb as [-> Hp].
      split_and!; [done| |done]. rewrite E1, E3. by constructor.
    + rewrite (run_pad_last a s c src sp c1 r1 Hok Hs) by (rewrite ?Est; done).
      eexists. split; [done|]. case_bool_decide as Hb; [right|by left]. destruct Hb as [-> Hp].
      split_and!; [done| |done]. rewrite E1. by constructor.
Qed.

Lemma run_finish_accepts a s ch rest :
  array_ok → holds a s → accepts a.1.2 ch rest → (is_Some t0 → a.2 = 0) →
  pton_finish s ch rest = Done (Some s).
Proof.
  intros Hok Hs Hacc Hp. unfold pton_finish. rewrite (holds_state _ _ Hs).
  remember a.1.2 as st eqn:Est.
  destruct Hacc as [rest|sp rest Hsp|sp sp' rest Hsp Hsp']; simpl; [done|..].
  - destruct (sp ++ 0 :: rest) as [|c src] eqn:E; [by destruct sp|]. simpl.
    rewrite (run_pad_last a s c src sp 0 rest Hok Hs) by (rewrite <-?Est; done).
    by rewrite bool_decide_eq_true_2.
  - pose proof (skip_spaces_app sp Pad64 (sp' ++ 0 :: rest) Hsp eq_refl ltac:(done)) as Esk.
    destruct (sp ++ Pad64 :: sp' ++ 0 :: rest) as [|c src] eqn:E; [by destruct sp|]. simpl in *.
    rewrite Esk. cbn [mbind outcome_bind obind]. simpl.
    destruct (sp' ++ 0 :: rest) as [|c' src'] eqn:E'; [by destruct sp'|]. simpl.
    rewrite (run_pad_last a s c' src' sp' 0 rest Hok Hs) by (rewrite <-?Est; done).
    by rewrite bool_decide_eq_true_2.
Qed.
End decoder.

(** ** Theorems on the decoder *)

Definition pads (st : Z) : nat := if st =? 2 then 2%nat else if st =? 3 then 1%nat else 0%nat.

Lemma padding_state n : padding n = replicate (pads (last_state n)) Pad64.
Proof.
  unfold padding, last_state. pose proof (Nat.mod_upper_bound n 3).
  destruct (n mod 3)%nat as [|[|[|k]]]; [done..|lia].
Qed.

Lemma last_state_cases n : last_state n = 0 ∨ last_state n = 2 ∨ last_state n = 3.
Proof. unfold last_state. destruct (n mod 3)%nat as [|[|k]]; auto. Qed.

Lemma visible_spaces l : Forall (λ c, is_space c = true) l → visible l = [].
Proof. induction 1 as [|c l Hc Hl IH]; [done|]. by rewrite visible_space. Qed.

Lemma visible_nil l : visible l = [] → Forall (λ c, is_space c = true) l.
Proof.
  induction l as [|c l IH]; [done|]. destruct (is_space c) eqn:E.
  - rewrite visible_space by done. intros. constructor; auto.
  - by rewrite visible_char.
Qed.

Lemma visible_inv l l1 c l2 :
  visible l = l1 ++ c :: l2 → ∃ a b, l = a ++ c :: b ∧ visible a = l1 ∧ visible b = l2.
Proof.
  revert l1. induction l as [|x l IH]; intros l1; [by destruct l1|].
  destruct (is_space x) eqn:E.
  - rewrite visible_space by done. intros (a & b & -> & <- & <-)%IH. exists (x :: a), b.
    by rewrite visible_space.
  - rewrite visible_char by done. destruct l1 as [|y l1]; intros [= -> Hl].
    + by exists [], l.
    + apply IH in Hl as (a & b & -> & <- & <-). exists (y :: a), b. by rewrite visible_char.
Qed.

(** The first NUL ends the string. *)
Lemma string_end text l r : text ++ [0] = l ++ 0 :: r → 0 ∉ text → l = text ∧ r = [].
Proof.
  revert l. induction text as [|c text IH]; intros [|x l] E H0; simplify_eq/=.
  - done.
  - by destruct l.
  - by destruct H0; left.
  - apply not_elem_of_cons in H0 as [_ H0]. by destruct (IH l) as [-> ->].
Qed.

Lemma accepts_visible st ch rest text text1 :
  text ++ [0] = text1 ++ ch :: rest → 0 ∉ text → accepts st ch rest →
  visible text = visible text1 ++ replicate (pads st) Pad64.
Proof.
  intros E H0 Hacc. destruct Hacc as [rest|sp rest Hsp|sp sp' rest Hsp Hsp'].
  - apply string_end in E as [-> _]; [|done]. by rewrite app_nil_r.
  - rewrite (app_comm_cons sp), (app_assoc text1) in E.
    apply string_end in E as [<- _]; [|done].
    by rewrite visible_app, visible_char, (visible_spaces sp) by done.
  - rewrite (app_comm_cons sp'), (app_assoc sp), (app_comm_cons (sp ++ _)), (app_assoc text1) in E.
    apply string_end in E as [<- _]; [|done].
    rewrite visible_app, visible_char, visible_app, visible_char by done.
    by rewrite (visible_spaces sp), (visible_spaces sp') by done.
Qed.

Lemma text_split st text l :
  st = 0 ∨ st = 2 ∨ st = 3 → visible text = l ++ replicate (pads st) Pad64 →
  ∃ text1 ch rest, text ++ [0] = text1 ++ ch :: rest ∧ stops ch rest ∧
    visible text1 = l ∧ accepts st ch rest.
Proof.
  intros [-> | [-> | ->]] Hv; simpl in Hv.
  - rewrite app_nil_r in Hv. exists text, 0, []. split_and!; [done|by left|done|constructor].
  - apply visible_inv in Hv as (a & b & -> & Ha & Hb).
    apply (visible_inv b []) in Hb as (sp & sp' & -> & Hsp%visible_nil & Hsp'%visible_nil).
    exists a, Pad64, (sp ++ Pad64 :: sp' ++ 0 :: []).
    split_and!; [by simplify_list_eq| |done|by constructor].
    right. split; [done|]. rewrite !elem_of_app, elem_of_cons, elem_of_app, elem_of_cons. tauto.
  - apply visible_inv in Hv as (a & sp & -> & Ha & Hsp%visible_nil).
    exists a, Pad64, (sp ++ 0 :: []).
    split_and!; [by simplify_list_eq| |done|by constructor].
    right. split; [done|]. rewrite elem_of_app, elem_of_cons. tauto.
Qed.

Lemma holds_start t0 : holds t0 ([], 0, 0) (PtonState t0 0 0).
Proof. constructor; simpl; [done|done|by left|]. destruct t0; [|done]. split_and!; [done|lia|done]. Qed.

(** C32: on a string whose characters [isspace] takes (those of ASCII; a negative
    [char], but EOF, makes the call undefined, see [f_b64_pton_negative]), the decoder
    is defined and never leaves the array it is given. And what it accepts is an
    encoding: the string without its white space is the base64 encoding, padded and
    with no stray bits, of the bytes it stores; it gives their number, and changes
    nothing after them but, at most, the next byte, which it clears. *)
Theorem f_b64_pton_sound text t targsize :
  Forall char_ok text → 0 ∉ text → targsize ≤ Z.of_nat (length t) < 2 ^ 31 →
  f_b64_pton (text ++ [0]) (Some t) targsize = Done None ∨
  ∃ out, Forall is_byte out ∧ visible text = radix64 out ∧
    f_b64_pton (text ++ [0]) (Some t) targsize =
    Done (Some (Some (array_after t out (last_state (length out)) 0), Z.of_nat (length out))).
Proof.
  intros Hch H0 Ht. unfold f_b64_pton.
  assert (Forall char_ok (text ++ [0])) as Hch0 by (apply Forall_app; by repeat constructor).
  destruct (pton_loop_sound (Some t) targsize (text ++ [0]) ([], 0, 0) (PtonState (Some t) 0 0))
    as [->|(text1 & ch & rest & ps & s & E & Hst & Hv & Hps & Hs & ->)];
    [done|apply holds_start|apply elem_of_app; right; by left|done|by left|].
  cbn [mbind outcome_bind obind].
  rewrite E, Forall_app, Forall_cons in Hch0. destruct Hch0 as (_ & _ & Hrest).
  destruct (run_finish (Some t) targsize _ s ch rest Ht Hs Hst Hrest) as (r & -> & [->|(-> & Hacc & Hp)]);
    [by left|right]. simpl. specialize (Hp ltac:(by eexists)).
  destruct (foldl absorb ([], 0, 0) ps) as [[out st] pend] eqn:Ef. simpl in *. subst pend.
  destruct (absorb_inv ps [] out st Hps Ef) as (l & -> & Hl & -> & ->); [by inversion Hacc|].
  destruct Hs as [Hi Hss Hpend (Hta & Hle & _)]. simpl in *.
  exists l. split_and!; [done| |].
  - rewrite (accepts_visible _ _ _ _ _ E H0 Hacc), Hv. unfold radix64. by rewrite padding_state.
  - rewrite Hta, Hi, wrapu_small, wraps_small by lia. done.
Qed.

(** A negative character, after characters that are digits or white space, is given
    to [isspace] as a negative [int]. *)
Lemma f_b64_pton_negative text c rest t0 targsize ps :
  c < -1 → visible text = base64_char <$> ps → Forall is_digit ps →
  array_ok t0 targsize → fits t0 targsize (foldl absorb ([], 0, 0) ps) →
  f_b64_pton (text ++ c :: rest) t0 targsize = Undef.
Proof.
  intros Hc Hv Hps Hok Hf. unfold f_b64_pton.
  assert (∀ a s, holds t0 a s → fits t0 targsize (foldl absorb a ps) →
    pton_loop (text ++ c :: rest) targsize s = Undef) as Hloop; [|by rewrite (Hloop _ _ (holds_start t0) Hf)].
  clear Hf. revert ps Hv Hps.
  induction text as [|x text IH]; intros ps Hv Hps a s Hs Hf; cbn [app pton_loop].
  - rewrite (proj2 (Z.eqb_neq c 0)) by lia. unfold isspace.
    by rewrite (proj2 (Z.leb_gt (-1) c)) by lia.
  - destruct (is_space x) eqn:Esp.
    { rewrite visible_space in Hv by done. destruct (Z.eqb_spec x 0) as [->|_]; [done|].
      rewrite run_isspace, Esp by (by apply space_ok). by eapply IH. }
    rewrite visible_char in Hv by done. destruct ps as [|p ps]; [done|].
    rewrite fmap_cons in Hv. injection Hv as -> Hv. apply Forall_cons in Hps as [Hp Hps].
    destruct (base64_char_visible p Hp) as (_ & H0 & Hpad).
    rewrite (proj2 (Z.eqb_neq _ _) H0), run_isspace, Esp, (proj2 (Z.eqb_neq _ _) Hpad), base64_index_char
      by (by apply base64_char_ok || done).
    destruct (pton_digit_spec t0 targsize a p s Hok Hs Hp) as [Hroom _].
    destruct Hroom as (s1 & E1 & Hs1); [by eapply fits_room; [apply Hs|]|].
    rewrite E1. cbn [mbind outcome_bind obind]. by eapply IH.
Qed.

Lemma pton_run text out t0 targsize :
  Forall is_byte out → visible text = radix64 out → Z.of_nat (length out) < 2 ^ 31 →
  match t0 with
  | Some t => Z.of_nat (length out) < targsize ≤ Z.of_nat (length t) ∧ Z.of_nat (length t) < 2 ^ 31
  | None => True
  end →
  f_b64_pton (text ++ [0]) t0 targsize =
  Done (Some ((λ t, array_after t out (last_state (length out)) 0) <$> t0, Z.of_nat (length out))).
Proof.
  intros Hby Hv Hn Ht. unfold radix64 in Hv. rewrite padding_state in Hv.
  destruct (text_split _ _ _ (last_state_cases (length out)) Hv)
    as (text1 & ch & rest & E & Hst & Hv1 & Hacc).
  assert (array_ok t0 targsize) as Hok by (unfold array_ok; destruct t0; [lia|done]).
  pose proof (absorb_digits out [] Hby) as Ef. simpl in Ef.
  unfold f_b64_pton. rewrite E.
  destruct (pton_loop_complete t0 targsize text1 ch rest ([], 0, 0) (PtonState t0 0 0) (digits out))
    as (s & -> & Hs); [done|apply holds_start|done|done|by apply digits_range| |].
  { rewrite Ef. unfold fits. destruct t0; [simpl; lia|done]. }
  cbn [mbind outcome_bind obind]. rewrite Ef in Hs.
  rewrite (run_finish_accepts t0 targsize _ s ch rest Hok Hs) by done. simpl.
  destruct Hs as [Hi Hss Hpend Hta]. simpl in *. rewrite Hi.
  rewrite (wrapu_small 32), (wraps_small 32) by (simpl; lia).
  destruct t0 as [t|]; simpl; [by destruct Hta as [-> _]|by rewrite Hta].
Qed.

(** the decoder accepts every encoding, with white space anywhere, when there
    is room for one byte more than it stores, and gives the encoded bytes. Without
    an array it gives their number. *)
Theorem f_b64_pton_complete text out t0 targsize :
  Forall is_byte out → visible text = radix64 out → Z.of_nat (length out) < 2 ^ 31 →
  match t0 with
  | Some t => Z.of_nat (length out) < targsize ≤ Z.of_nat (length t) ∧ Z.of_nat (length t) < 2 ^ 31
  | None => True
  end →
  f_b64_pton (text ++ [0]) t0 targsize =
  Done (Some ((λ t, array_after t out (last_state (length out)) 0) <$> t0, Z.of_nat (length out))).
Proof. apply pton_run. Qed.

Lemma radix64_visible l : Forall is_byte l → visible (radix64 l) = radix64 l.
Proof.
  intros Hl%digits_range. unfold radix64. rewrite visible_app. f_equal.
  - induction Hl as [|p ps Hp Hl IH]; [done|]. rewrite fmap_cons.
    rewrite visible_char by (by apply base64_char_visible). by rewrite IH.
  - unfold padding. by destruct ((3 - length l mod 3) mod 3)%nat as [|[|[|k]]] eqn:E;
      [..|pose proof (Nat.mod_upper_bound (3 - length l mod 3) 3); lia].
Qed.

(** C28: what the encoder writes, the decoder reads back: given room for the bytes
    and one more, it restores them, and it leaves the rest of the array alone. *)
Theorem base64_roundtrip src t targsize targsize' :
  Forall is_byte src →
  Z.of_nat (length (radix64 src)) < 2 ^ 31 →
  Z.of_nat (length (radix64 src)) < targsize < 2 ^ 64 →
  Z.of_nat (length src) < targsize' ≤ Z.of_nat (length t) → Z.of_nat (length t) < 2 ^ 31 →
  ∃ text n t', f_b64_ntop src targsize = Some (text, n) ∧
    f_b64_pton text (Some t) targsize' = Done (Some (Some t', Z.of_nat (length src))) ∧
    take (length src) t' = src ∧
    drop (S (length src)) t' = drop (S (length src)) t.
Proof.
  intros Hby Hn Ht Ht' Hlen. do 3 eexists. split_and!.
  - rewrite ntop_run by (done || lia). by rewrite (proj2 (Z.ltb_lt _ _)) by lia.
  - apply (pton_run (radix64 src) src (Some t)); [done|by apply radix64_visible|lia|lia].
  - unfold array_after. destruct (_ =? _); apply take_app_length.
  - unfold array_after. destruct (_ =? 0).
    + rewrite drop_app_ge by lia. replace (S (length src) - length src)%nat with 1%nat by lia.
      rewrite drop_drop. f_equal. lia.
    + rewrite drop_app_ge by lia. by replace (S (length src) - length src)%nat with 1%nat by lia.
Qed.

(** ** Witnesses

    The bytes of "Man" and 255, and their encoding with white space in it. *)
Definition example_bytes : list Z := [77; 97; 110; 255].
Definition example_text : list Z := bytes_of_string " TWFu /w = = ".

Lemma example_bytes_ok : Forall is_byte example_bytes.
Proof. repeat constructor; unfold is_byte; lia. Qed.

Lemma f_b64_ntop_spec_witness :
  f_b64_ntop example_bytes 9 = Some (radix64 example_bytes ++ [0], 8) ∧
  f_b64_ntop example_bytes 8 = None.
Proof.
  split.
  - refine (f_b64_ntop_spec example_bytes 9 example_bytes_ok _ _); [reflexivity|lia].
  - refine (f_b64_ntop_spec example_bytes 8 example_bytes_ok _ _); [reflexivity|lia].
Defined.

Lemma f_b64_pton_sound_witness :
  f_b64_pton (example_text ++ [0]) (Some (replicate 6 170)) 6 = Done None ∨
  ∃ out, Forall is_byte out ∧ visible example_text = radix64 out ∧
    f_b64_pton (example_text ++ [0]) (Some (replicate 6 170)) 6 =
    Done (Some (Some (array_after (replicate 6 170) out (last_state (length out)) 0),
                Z.of_nat (length out))).
Proof.
  apply f_b64_pton_sound; [| |simpl; lia]; apply (bool_decide_unpack _); vm_compute; reflexivity.
Defined.

Lemma f_b64_pton_complete_witness :
  f_b64_pton (example_text ++ [0]) (Some (replicate 6 170)) 6 =
    Done (Some (Some [77; 97; 110; 255; 0; 170], 4)) ∧
  f_b64_pton (example_text ++ [0]) None 0 = Done (Some (None, 4)).
Proof.
  split.
  - refine (f_b64_pton_complete example_text example_bytes (Some (replicate 6 170)) 6
      example_bytes_ok _ _ _); [vm_compute; reflexivity|reflexivity|simpl; lia].
  - refine (f_b64_pton_complete example_text example_bytes None 0
      example_bytes_ok _ _ I); [vm_compute; reflexivity|reflexivity].
Defined.

Lemma base64_roundtrip_witness :
  ∃ text n t', f_b64_ntop example_bytes 9 = Some (text, n) ∧
    f_b64_pton text (Some (replicate 6 170)) 5 = Done (Some (Some t', 4)) ∧
    take 4 t' = example_bytes ∧ drop 5 t' = [170].
Proof.
  refine (base64_roundtrip example_bytes (replicate 6 170) 9 5 example_bytes_ok _ _ _ _);
    [reflexivity|split; reflexivity|simpl; lia|reflexivity].
Defined.
