(* ===== verification/LdbCoding.v ===== *)
(** * leveldb: the encodings of util/coding.cc and util/coding.h

    A [char*] is the list of the bytes from it on, a [Slice] or a [std::string] the
    list of its bytes; the functions that move a pointer give the bytes that are
    left. The target is little-endian ([port::kLittleEndian]). *)
From S2P Require Import Prelude Leb128.

(** ** Fixed-size numbers *)

Definition EncodeFixed32 (value : Z) : list Z := le_split 4 value.
Definition EncodeFixed64 (value : Z) : list Z := le_split 8 value.
Definition PutFixed32 (dst : list Z) (value : Z) : list Z := dst ++ EncodeFixed32 value.
Definition PutFixed64 (dst : list Z) (value : Z) : list Z := dst ++ EncodeFixed64 value.

#[global] Arguments EncodeFixed32 : simpl never.
#[global] Arguments EncodeFixed64 : simpl never.

(** Four or eight bytes are read from the pointer, without a check: no value when
    they are not there. *)
Definition DecodeFixed32 (ptr : list Z) : option Z :=
  if bool_decide (4 ≤ length ptr)%nat then Some (le_combine (take 4 ptr)) else None.
Definition DecodeFixed64 (ptr : list Z) : option Z :=
  if bool_decide (8 ≤ length ptr)%nat then Some (le_combine (take 8 ptr)) else None.

(** ** Varints *)

(** A store of a number through an [unsigned char*]. *)
Definition EncodeVarint32 (v : Z) : list Z :=
  let B := 128 in
  if v <? Z.shiftl 1 7 then [u8 v]
  else if v <? Z.shiftl 1 14 then [u8 (Z.lor v B); u8 (Z.shiftr v 7)]
  else if v <? Z.shiftl 1 21 then
    [u8 (Z.lor v B); u8 (Z.lor (Z.shiftr v 7) B); u8 (Z.shiftr v 14)]
  else if v <? Z.shiftl 1 28 then
    [u8 (Z.lor v B); u8 (Z.lor (Z.shiftr v 7) B); u8 (Z.lor (Z.shiftr v 14) B);
     u8 (Z.shiftr v 21)]
  else
    [u8 (Z.lor v B); u8 (Z.lor (Z.shiftr v 7) B); u8 (Z.lor (Z.shiftr v 14) B);
     u8 (Z.lor (Z.shiftr v 21) B); u8 (Z.shiftr v 28)].
Definition PutVarint32 (dst : list Z) (v : Z) : list Z := dst ++ EncodeVarint32 v.

(** The loop makes at most nine turns on a [uint64_t]; [encode_varint64_uleb] shows
    that ten are enough. *)
Fixpoint encode_varint64 (fuel : nat) (v : Z) : list Z :=
  match fuel with
  | O => []
  | S n =>
      if 128 <=? v then u8 (Z.lor (Z.land v 127) 128) :: encode_varint64 n (Z.shiftr v 7)
      else [u8 v]
  end.
Definition EncodeVarint64 (v : Z) : list Z := encode_varint64 10 v.
Definition PutVarint64 (dst : list Z) (v : Z) : list Z := dst ++ EncodeVarint64 v.

Definition PutLengthPrefixedSlice (dst value : list Z) : list Z :=
  PutVarint32 dst (u32 (Z.of_nat (length value))) ++ value.

Fixpoint varint_length (fuel : nat) (v len : Z) : Z :=
  match fuel with
  | O => len
  | S n => if 128 <=? v then varint_length n (Z.shiftr v 7) (len + 1) else len
  end.
Definition VarintLength (v : Z) : Z := varint_length 10 v 1.

(** The loop of the two decoders: [w] is the width of the result, [max] the last
    shift. *)
Fixpoint get_varint (w max shift result : Z) (p : list Z) : option (Z * list Z) :=
  match p with
  | [] => None
  | byte :: p' =>
      if shift <=? max then
        if Z.land byte 128 =? 0 then Some (Z.lor result (wrapu w (Z.shiftl byte shift)), p')
        else get_varint w max (shift + 7)
               (Z.lor result (wrapu w (Z.shiftl (Z.land byte 127) shift))) p'
      else None
  end.

Definition GetVarint32PtrFallback (p : list Z) : option (Z * list Z) := get_varint 32 28 0 0 p.
Definition GetVarint32Ptr (p : list Z) : option (Z * list Z) :=
  match p with
  | result :: p' => if Z.land result 128 =? 0 then Some (result, p') else GetVarint32PtrFallback p
  | [] => GetVarint32PtrFallback p
  end.
Definition GetVarint32 (input : list Z) : option (Z * list Z) := GetVarint32Ptr input.
Definition GetVarint64Ptr (p : list Z) : option (Z * list Z) := get_varint 64 63 0 0 p.
Definition GetVarint64 (input : list Z) : option (Z * list Z) := GetVarint64Ptr input.

(** The slice and what follows it. *)
Definition GetLengthPrefixedSlicePtr (p : list Z) : option (list Z * list Z) :=
  '(len, p) ← GetVarint32Ptr p;
  if Z.of_nat (length p) <? len then None
  else Some (take (Z.to_nat len) p, drop (Z.to_nat len) p).
Definition GetLengthPrefixedSlice (input : list Z) : option (list Z * list Z) :=
  '(len, input) ← GetVarint32 input;
  if len <=? Z.of_nat (length input) then
    Some (take (Z.to_nat len) input, drop (Z.to_nat len) input)
  else None.

(** ** The encoders compute the reference *)

Lemma u8_lor_80 x : 0 ≤ x → u8 (Z.lor x 128) = x `mod` 128 + 128.
Proof.
  intros Hx. unfold wrapu. change (2 ^ 8) with 256.
  rewrite <-land_FF, Z.land_lor_distr_l. change (Z.land 128 255) with 128.
  assert (Z.lor (Z.land x 255) 128 = Z.lor (x `mod` 128) 128) as ->.
  { rewrite <-land_7F. apply Z.bits_inj'. intros n Hn.
    rewrite !Z.lor_spec, !Z.land_spec.
    change 255 with (Z.ones 8). change 127 with (Z.ones 7). change 128 with (2 ^ 7).
    rewrite !Z.testbit_ones_nonneg, Z.pow2_bits_eqb by lia.
    destruct (Z.ltb_spec n 8), (Z.ltb_spec n 7), (Z.eqb_spec 7 n); try lia; by destruct (Z.testbit x n). }
  apply lor_80. apply Z.mod_pos_bound. lia.
Qed.

Lemma uleb_fuel n m v :
  0 ≤ v < 128 ^ Z.of_nat n → 0 ≤ v < 128 ^ Z.of_nat m → (0 < n)%nat → (0 < m)%nat →
  leb128_bytes n v = leb128_bytes m v.
Proof.
  revert m v. induction n as [|n IH]; intros m v Hn Hm Hn0 Hm0; [lia|].
  destruct m as [|m]; [lia|]. rewrite pow128_succ in Hn, Hm. cbn [leb128_bytes].
  destruct (Z.ltb_spec v 128) as [|Hv]; [done|]. f_equal.
  assert (0 < v / 128) by (apply Z.div_str_pos; lia).
  assert (v / 128 < 128 ^ Z.of_nat n) by (apply Z.div_lt_upper_bound; lia).
  assert (v / 128 < 128 ^ Z.of_nat m) by (apply Z.div_lt_upper_bound; lia).
  destruct n; [simpl in *; lia|]. destruct m; [simpl in *; lia|]. apply IH; lia.
Qed.

Lemma EncodeVarint32_uleb v : 0 ≤ v < 2 ^ 32 → EncodeVarint32 v = uleb v.
Proof.
  pow2. intros Hv. unfold uleb. rewrite (uleb_fuel 10 5) by (simpl; lia).
  unfold EncodeVarint32. rewrite !Z.shiftl_1_l.
  change (2 ^ 7) with 128. change (2 ^ 14) with 16384. change (2 ^ 21) with 2097152.
  change (2 ^ 28) with 268435456.
  rewrite !u8_lor_80 by (try apply Z.shiftr_nonneg; lia). rewrite !Z.shiftr_div_pow2 by lia.
  change (2 ^ 7) with 128. change (2 ^ 14) with 16384. change (2 ^ 21) with 2097152.
  change (2 ^ 28) with 268435456. cbn [leb128_bytes].
  rewrite !Z.div_div by lia.
  change (128 * 128) with 16384. change (16384 * 128) with 2097152.
  change (2097152 * 128) with 268435456.
  assert (∀ x, 0 ≤ x < 128 → u8 x = x) as Hu by (intros; apply wrapu_small; pow2; lia).
  assert (v / 128 < 128 ↔ v < 16384) by zdiv.
  assert (v / 16384 < 128 ↔ v < 2097152) by zdiv.
  assert (v / 2097152 < 128 ↔ v < 268435456) by zdiv.
  assert (0 ≤ v / 268435456 < 128) by zdiv.
  assert (0 ≤ v / 128 ∧ 0 ≤ v / 16384 ∧ 0 ≤ v / 2097152) by zdiv.
  repeat match goal with |- context [?a <? ?b] => destruct (Z.ltb_spec a b); try lia end;
    rewrite ?Hu by lia; done.
Qed.

Lemma encode_varint64_uleb n v : 0 ≤ v → encode_varint64 n v = leb128_bytes n v.
Proof.
  revert v. induction n as [|n IH]; intros v Hv; [done|]. cbn [encode_varint64 leb128_bytes].
  destruct (Z.leb_spec 128 v), (Z.ltb_spec v 128); try lia.
  - rewrite u8_lor_80 by (apply Z.land_nonneg; lia).
    rewrite land_7F, Z.mod_mod, Z.shiftr_div_pow2 by lia. f_equal. apply IH. by apply Z.div_pos.
  - f_equal. apply wrapu_small. pow2. lia.
Qed.

Lemma EncodeVarint64_uleb v : 0 ≤ v → EncodeVarint64 v = uleb v.
Proof. apply encode_varint64_uleb. Qed.

Lemma varint_length_uleb n v len :
  0 ≤ v < 128 ^ Z.of_nat n → (0 < n)%nat →
  varint_length n v len = len - 1 + Z.of_nat (length (leb128_bytes n v)).
Proof.
  revert v len. induction n as [|n IH]; intros v len Hv Hn; [lia|].
  rewrite pow128_succ in Hv. cbn [varint_length leb128_bytes].
  destruct (Z.leb_spec 128 v), (Z.ltb_spec v 128); try lia; [|simpl; lia].
  rewrite Z.shiftr_div_pow2 by lia. change (2 ^ 7) with 128.
  assert (0 < v / 128) by (apply Z.div_str_pos; lia).
  assert (v / 128 < 128 ^ Z.of_nat n) by (apply Z.div_lt_upper_bound; lia).
  destruct n; [simpl in *; lia|]. rewrite IH by lia. cbn [length]. lia.
Qed.

(** ** The decoders compute the reference *)

Lemma get_varint_leb128 w max p : ∀ shift result,
  Forall is_byte p → 0 ≤ shift ≤ w → 0 ≤ result < 2 ^ shift → max ≤ w →
  (∀ s, s ≤ max → s + 7 ≤ w ∨ max < s + 7) →
  get_varint w max shift result p =
  match leb128 p with
  | Some (v, k) =>
      if bool_decide (shift + 7 * (Z.of_nat k - 1) ≤ max)
      then Some (wrapu w (result + v * 2 ^ shift), drop k p) else None
  | None => None
  end.
Proof.
  induction p as [|b p IH]; intros shift result Hp Hs Hr Hmax Hw; [done|].
  apply Forall_cons in Hp as [Hb Hp]. cbn [get_varint leb128].
  rewrite land_80_byte by done. unfold is_byte in Hb.
  destruct (Z.ltb_spec b 128).
  - destruct (Z.leb_spec shift max).
    + rewrite bool_decide_eq_true_2 by lia. by rewrite lor_wrapu_shiftl.
    + by rewrite bool_decide_eq_false_2 by lia.
  - assert (b `mod` 128 = b - 128) as Em by zdiv.
    destruct (Z.leb_spec shift max) as [Hle|Hgt].
    2: { destruct (leb128 p) as [[v k]|] eqn:E; [|done]. simpl.
         apply leb128_range in E as [_ ?]; [|done].
         by rewrite bool_decide_eq_false_2 by lia. }
    rewrite land_7F, Em.
    destruct (Hw shift Hle) as [Hsw|Hlast].
    + assert (2 ^ (shift + 7) = 128 * 2 ^ shift) as Ep by (rewrite Z.pow_add_r by lia; lia).
      assert (2 ^ (shift + 7) ≤ 2 ^ w) by (apply Z.pow_le_mono_r; lia).
      rewrite lor_wrapu_shiftl by lia. rewrite (wrapu_small w (_ + _)) by nia.
      rewrite IH by (done || lia || nia).
      destruct (leb128 p) as [[v k]|] eqn:E; [|done]. simpl.
      apply leb128_range in E as [_ ?]; [|done].
      case_bool_decide; case_bool_decide; try lia; [|done].
      do 3 f_equal. rewrite Ep. lia.
    + destruct p as [|b' p]; [done|]. cbn [get_varint].
      rewrite (proj2 (Z.leb_gt (shift + 7) max)) by lia.
      destruct (leb128 (b' :: p)) as [[v k]|] eqn:E; [|done]. simpl.
      apply leb128_range in E as [_ ?]; [|done].
      by rewrite bool_decide_eq_false_2 by lia.
Qed.

Lemma GetVarint32Ptr_leb128 p :
  Forall is_byte p →
  GetVarint32Ptr p =
  match leb128 p with
  | Some (v, k) => if bool_decide (k ≤ 5)%nat then Some (u32 v, drop k p) else None
  | None => None
  end.
Proof.
  intros Hp.
  assert (GetVarint32PtrFallback p =
    match leb128 p with
    | Some (v, k) => if bool_decide (k ≤ 5)%nat then Some (u32 v, drop k p) else None
    | None => None
    end) as E.
  { unfold GetVarint32PtrFallback. rewrite get_varint_leb128 by (done || lia).
    destruct (leb128 p) as [[v k]|] eqn:El; [|done]. apply leb128_range in El as [_ ?]; [|done].
    case_bool_decide; case_bool_decide; try lia; [|done]. by rewrite Z.mul_1_r. }
  destruct p as [|b p]; [done|]. cbn [GetVarint32Ptr]. rewrite E.
  apply Forall_cons in Hp as [Hb Hp]. rewrite land_80_byte by done. cbn [leb128].
  destruct (Z.ltb_spec b 128); [|done]. rewrite bool_decide_eq_true_2 by lia.
  unfold is_byte in Hb. by rewrite wrapu_small by (pow2; lia).
Qed.

Lemma GetVarint64Ptr_leb128 p :
  Forall is_byte p →
  GetVarint64Ptr p =
  match leb128 p with
  | Some (v, k) => if bool_decide (k ≤ 10)%nat then Some (u64 v, drop k p) else None
  | None => None
  end.
Proof.
  intros Hp. unfold GetVarint64Ptr. rewrite get_varint_leb128 by (done || lia).
  destruct (leb128 p) as [[v k]|] eqn:El; [|done]. apply leb128_range in El as [_ ?]; [|done].
  case_bool_decide; case_bool_decide; try lia; [|done]. by rewrite Z.mul_1_r.
Qed.

(** ** Reading back *)

Lemma uleb_byte v : 0 ≤ v → Forall is_byte (uleb v).
Proof. apply leb128_bytes_byte. Qed.

Lemma get32_put v l :
  0 ≤ v < 2 ^ 32 → Forall is_byte l → GetVarint32Ptr (EncodeVarint32 v ++ l) = Some (v, l).
Proof.
  intros Hv Hl. rewrite EncodeVarint32_uleb by done.
  assert (length (uleb v) ≤ 5)%nat as Hlen.
  { unfold uleb. rewrite (uleb_fuel 10 5) by (pow2; simpl; lia). apply leb128_bytes_length. }
  rewrite GetVarint32Ptr_leb128 by (apply Forall_app; split; [apply uleb_byte; lia|done]).
  rewrite leb128_uleb by (pow2; lia). rewrite bool_decide_eq_true_2 by done.
  by rewrite wrapu_small, drop_app_length by done.
Qed.

Lemma get64_put v l :
  0 ≤ v < 2 ^ 64 → Forall is_byte l → GetVarint64Ptr (EncodeVarint64 v ++ l) = Some (v, l).
Proof.
  intros Hv Hl. rewrite EncodeVarint64_uleb by lia.
  rewrite GetVarint64Ptr_leb128 by (apply Forall_app; split; [apply uleb_byte; lia|done]).
  rewrite leb128_uleb by done. pose proof (uleb_length v).
  rewrite bool_decide_eq_true_2 by lia. by rewrite wrapu_small, drop_app_length by done.
Qed.

Lemma length_fixed32 v : length (EncodeFixed32 v) = 4%nat.
Proof. apply length_le_split. Qed.
Lemma EncodeFixed32_bytes v : Forall is_byte (EncodeFixed32 v).
Proof. apply le_split_bytes. Qed.
Lemma EncodeFixed64_bytes v : Forall is_byte (EncodeFixed64 v).
Proof. apply le_split_bytes. Qed.

Lemma fixed32_get_put v l : 0 ≤ v < 2 ^ 32 → DecodeFixed32 (EncodeFixed32 v ++ l) = Some v.
Proof.
  intros Hv. unfold DecodeFixed32, EncodeFixed32.
  rewrite bool_decide_eq_true_2 by (rewrite length_app, length_le_split; lia).
  rewrite take_app_length' by (by rewrite length_le_split).
  by rewrite le_combine_split, Z.mod_small by (pow2; simpl; lia).
Qed.

(** An array of numbers. *)
Lemma put_fixed32s l : ∀ dst, foldl PutFixed32 dst l = dst ++ concat (EncodeFixed32 <$> l).
Proof.
  induction l as [|v l IH]; intros dst; simpl; [by rewrite app_nil_r|].
  rewrite IH. unfold PutFixed32. by rewrite <-app_assoc.
Qed.
Lemma length_fixed32s l : length (concat (EncodeFixed32 <$> l)) = (4 * length l)%nat.
Proof.
  induction l as [|v l IH]; [done|]. cbn [fmap list_fmap concat length].
  rewrite length_app, IH. unfold EncodeFixed32. rewrite length_le_split. lia.
Qed.
Lemma fixed32_lookup l rest : ∀ i v,
  l !! i = Some v → 0 ≤ v < 2 ^ 32 →
  DecodeFixed32 (drop (4 * i) (concat (EncodeFixed32 <$> l) ++ rest)) = Some v.
Proof.
  induction l as [|w l IH]; intros [|i] v E Hv; try done; cbn [fmap list_fmap concat].
  - injection E as ->. rewrite drop_0, <-app_assoc. by apply fixed32_get_put.
  - replace (4 * S i)%nat with (length (EncodeFixed32 w) + 4 * i)%nat
      by (unfold EncodeFixed32; rewrite length_le_split; lia).
    rewrite <-drop_drop, <-app_assoc, drop_app_length. by apply IH.
Qed.

Lemma fixed64_get_put v l : 0 ≤ v < 2 ^ 64 → DecodeFixed64 (EncodeFixed64 v ++ l) = Some v.
Proof.
  intros Hv. unfold DecodeFixed64, EncodeFixed64.
  rewrite bool_decide_eq_true_2 by (rewrite length_app, length_le_split; lia).
  rewrite take_app_length' by (by rewrite length_le_split).
  by rewrite le_combine_split, Z.mod_small by (pow2; simpl; lia).
Qed.

(** A length-prefixed slice. *)
Definition prefixed (value : list Z) : list Z :=
  EncodeVarint32 (Z.of_nat (length value)) ++ value.

Lemma varint32_bytes v : 0 ≤ v < 2 ^ 32 → Forall is_byte (EncodeVarint32 v).
Proof. intros Hv. rewrite EncodeVarint32_uleb by done. apply uleb_byte. lia. Qed.
Lemma varint64_bytes v : 0 ≤ v → Forall is_byte (EncodeVarint64 v).
Proof. intros Hv. rewrite EncodeVarint64_uleb by done. by apply uleb_byte. Qed.

Lemma put_prefixed dst value :
  Z.of_nat (length value) < 2 ^ 32 → PutLengthPrefixedSlice dst value = dst ++ prefixed value.
Proof.
  intros Hl. unfold PutLengthPrefixedSlice, PutVarint32, prefixed.
  rewrite wrapu_small by lia. by rewrite app_assoc.
Qed.

Lemma prefixed_bytes value :
  Z.of_nat (length value) < 2 ^ 32 → Forall is_byte value → Forall is_byte (prefixed value).
Proof.
  intros Hl Hv. apply Forall_app. split; [|done].
  rewrite EncodeVarint32_uleb by lia. apply uleb_byte. lia.
Qed.

Lemma get_prefixed value l :
  Z.of_nat (length value) < 2 ^ 32 → Forall is_byte value → Forall is_byte l →
  GetLengthPrefixedSlice (prefixed value ++ l) = Some (value, l) ∧
  GetLengthPrefixedSlicePtr (prefixed value ++ l) = Some (value, l).
Proof.
  intros Hl Hv Hb. unfold GetLengthPrefixedSlice, GetLengthPrefixedSlicePtr, GetVarint32, prefixed.
  rewrite <-app_assoc, get32_put by (try apply Forall_app; (done || lia)). simpl.
  rewrite length_app, Nat2Z.inj_add, Nat2Z.id.
  rewrite (proj2 (Z.leb_le _ _)), (proj2 (Z.ltb_ge _ _)) by lia.
  by rewrite take_app_length, drop_app_length.
Qed.

(** ** Theorems *)

(** A number of 64 bits that is put as a varint is read back, whatever follows;
    [VarintLength] is the number of bytes, at most 10; below 2^32 the unrolled
    encoder writes the same bytes, at most 5 (the size of its buffer), and the
    decoder of 32 bits reads the same number. *)
Theorem ldb_varint_roundtrip v l :
  0 ≤ v < 2 ^ 64 → Forall is_byte l →
  GetVarint64 (PutVarint64 [] v ++ l) = Some (v, l) ∧
  VarintLength v = Z.of_nat (length (EncodeVarint64 v)) ∧ 1 ≤ VarintLength v ≤ 10 ∧
  (v < 2 ^ 32 →
    EncodeVarint32 v = EncodeVarint64 v ∧ VarintLength v ≤ 5 ∧
    GetVarint32 (PutVarint32 [] v ++ l) = Some (v, l)).
Proof.
  intros Hv Hl.
  assert (VarintLength v = Z.of_nat (length (EncodeVarint64 v))) as E.
  { unfold VarintLength. rewrite varint_length_uleb by (simpl; pow2; lia).
    rewrite EncodeVarint64_uleb by lia. unfold uleb. lia. }
  pose proof (uleb_length v). pose proof (EncodeVarint64_uleb v ltac:(lia)) as Eu.
  rewrite Eu in E.
  split_and!; [unfold PutVarint64; rewrite app_nil_l; by apply get64_put|by rewrite Eu|lia|lia|]. intros Hv32.
  split_and!; [rewrite Eu; apply EncodeVarint32_uleb; lia| |apply get32_put; [lia|done]].
  pose proof (uleb_length_32 v ltac:(lia)). lia.
Qed.

(** The decoders read the varint at the head of any bytes, and fail exactly when
    there is none or it has too many bytes; bits that do not fit are dropped. *)
Theorem ldb_varint_decoding p :
  Forall is_byte p →
  GetVarint32 p =
    match leb128 p with
    | Some (v, k) => if bool_decide (k ≤ 5)%nat then Some (u32 v, drop k p) else None
    | None => None
    end ∧
  GetVarint64 p =
    match leb128 p with
    | Some (v, k) => if bool_decide (k ≤ 10)%nat then Some (u64 v, drop k p) else None
    | None => None
    end.
Proof. intros Hp. split; [by apply GetVarint32Ptr_leb128|by apply GetVarint64Ptr_leb128]. Qed.

Lemma ldb_varint_roundtrip_witness :
  GetVarint64 (PutVarint64 [] 300 ++ [7]) = Some (300, [7]) ∧
  VarintLength 300 = Z.of_nat (length (EncodeVarint64 300)) ∧ 1 ≤ VarintLength 300 ≤ 10 ∧
  (300 < 2 ^ 32 →
    EncodeVarint32 300 = EncodeVarint64 300 ∧ VarintLength 300 ≤ 5 ∧
    GetVarint32 (PutVarint32 [] 300 ++ [7]) = Some (300, [7])).
Proof. apply ldb_varint_roundtrip; [lia|]. repeat constructor; unfold is_byte; lia. Defined.

Lemma ldb_varint_decoding_witness :
  GetVarint32 [0xAC; 0x02; 9] = Some (300, [9]) ∧ GetVarint64 [0x80; 0x80] = None.
Proof.
  split.
  - exact (proj1 (ldb_varint_decoding [0xAC; 0x02; 9] ltac:(repeat constructor; unfold is_byte; lia))).
  - exact (proj2 (ldb_varint_decoding [0x80; 0x80] ltac:(repeat constructor; unfold is_byte; lia))).
Defined.
