(* ===== verification/LdbCrc.v ===== *)
(** * leveldb: crc32c (util/crc32c.cc and util/crc32c.h)

    The checksum of log records, computed one byte at a time with one table, or four
    at a time with four. It is the cyclic redundancy check of the Castagnoli
    polynomial: the reference takes one bit at a time. The hardware version is not
    modelled: [port::AcceleratedCRC32C] gives 0 on the target, which has no SSE. *)
From S2P Require Import Prelude LdbCoding.

Definition table0_ : list Z := [
  0x00000000; 0xf26b8303; 0xe13b70f7; 0x1350f3f4; 0xc79a971f; 0x35f1141c; 0x26a1e7e8; 0xd4ca64eb;
  0x8ad958cf; 0x78b2dbcc; 0x6be22838; 0x9989ab3b; 0x4d43cfd0; 0xbf284cd3; 0xac78bf27; 0x5e133c24;
  0x105ec76f; 0xe235446c; 0xf165b798; 0x030e349b; 0xd7c45070; 0x25afd373; 0x36ff2087; 0xc494a384;
  0x9a879fa0; 0x68ec1ca3; 0x7bbcef57; 0x89d76c54; 0x5d1d08bf; 0xaf768bbc; 0xbc267848; 0x4e4dfb4b;
  0x20bd8ede; 0xd2d60ddd; 0xc186fe29; 0x33ed7d2a; 0xe72719c1; 0x154c9ac2; 0x061c6936; 0xf477ea35;
  0xaa64d611; 0x580f5512; 0x4b5fa6e6; 0xb93425e5; 0x6dfe410e; 0x9f95c20d; 0x8cc531f9; 0x7eaeb2fa;
  0x30e349b1; 0xc288cab2; 0xd1d83946; 0x23b3ba45; 0xf779deae; 0x05125dad; 0x1642ae59; 0xe4292d5a;
  0xba3a117e; 0x4851927d; 0x5b016189; 0xa96ae28a; 0x7da08661; 0x8fcb0562; 0x9c9bf696; 0x6ef07595;
  0x417b1dbc; 0xb3109ebf; 0xa0406d4b; 0x522bee48; 0x86e18aa3; 0x748a09a0; 0x67dafa54; 0x95b17957;
  0xcba24573; 0x39c9c670; 0x2a993584; 0xd8f2b687; 0x0c38d26c; 0xfe53516f; 0xed03a29b; 0x1f682198;
  0x5125dad3; 0xa34e59d0; 0xb01eaa24; 0x42752927; 0x96bf4dcc; 0x64d4cecf; 0x77843d3b; 0x85efbe38;
  0xdbfc821c; 0x2997011f; 0x3ac7f2eb; 0xc8ac71e8; 0x1c661503; 0xee0d9600; 0xfd5d65f4; 0x0f36e6f7;
  0x61c69362; 0x93ad1061; 0x80fde395; 0x72966096; 0xa65c047d; 0x5437877e; 0x4767748a; 0xb50cf789;
  0xeb1fcbad; 0x197448ae; 0x0a24bb5a; 0xf84f3859; 0x2c855cb2; 0xdeeedfb1; 0xcdbe2c45; 0x3fd5af46;
  0x7198540d; 0x83f3d70e; 0x90a324fa; 0x62c8a7f9; 0xb602c312; 0x44694011; 0x5739b3e5; 0xa55230e6;
  0xfb410cc2; 0x092a8fc1; 0x1a7a7c35; 0xe811ff36; 0x3cdb9bdd; 0xceb018de; 0xdde0eb2a; 0x2f8b6829;
  0x82f63b78; 0x709db87b; 0x63cd4b8f; 0x91a6c88c; 0x456cac67; 0xb7072f64; 0xa457dc90; 0x563c5f93;
  0x082f63b7; 0xfa44e0b4; 0xe9141340; 0x1b7f9043; 0xcfb5f4a8; 0x3dde77ab; 0x2e8e845f; 0xdce5075c;
  0x92a8fc17; 0x60c37f14; 0x73938ce0; 0x81f80fe3; 0x55326b08; 0xa759e80b; 0xb4091bff; 0x466298fc;
  0x1871a4d8; 0xea1a27db; 0xf94ad42f; 0x0b21572c; 0xdfeb33c7; 0x2d80b0c4; 0x3ed04330; 0xccbbc033;
  0xa24bb5a6; 0x502036a5; 0x4370c551; 0xb11b4652; 0x65d122b9; 0x97baa1ba; 0x84ea524e; 0x7681d14d;
  0x2892ed69; 0xdaf96e6a; 0xc9a99d9e; 0x3bc21e9d; 0xef087a76; 0x1d63f975; 0x0e330a81; 0xfc588982;
  0xb21572c9; 0x407ef1ca; 0x532e023e; 0xa145813d; 0x758fe5d6; 0x87e466d5; 0x94b49521; 0x66df1622;
  0x38cc2a06; 0xcaa7a905; 0xd9f75af1; 0x2b9cd9f2; 0xff56bd19; 0x0d3d3e1a; 0x1e6dcdee; 0xec064eed;
  0xc38d26c4; 0x31e6a5c7; 0x22b65633; 0xd0ddd530; 0x0417b1db; 0xf67c32d8; 0xe52cc12c; 0x1747422f;
  0x49547e0b; 0xbb3ffd08; 0xa86f0efc; 0x5a048dff; 0x8ecee914; 0x7ca56a17; 0x6ff599e3; 0x9d9e1ae0;
  0xd3d3e1ab; 0x21b862a8; 0x32e8915c; 0xc083125f; 0x144976b4; 0xe622f5b7; 0xf5720643; 0x07198540;
  0x590ab964; 0xab613a67; 0xb831c993; 0x4a5a4a90; 0x9e902e7b; 0x6cfbad78; 0x7fab5e8c; 0x8dc0dd8f;
  0xe330a81a; 0x115b2b19; 0x020bd8ed; 0xf0605bee; 0x24aa3f05; 0xd6c1bc06; 0xc5914ff2; 0x37faccf1;
  0x69e9f0d5; 0x9b8273d6; 0x88d28022; 0x7ab90321; 0xae7367ca; 0x5c18e4c9; 0x4f48173d; 0xbd23943e;
  0xf36e6f75; 0x0105ec76; 0x12551f82; 0xe03e9c81; 0x34f4f86a; 0xc69f7b69; 0xd5cf889d; 0x27a40b9e;
  0x79b737ba; 0x8bdcb4b9; 0x988c474d; 0x6ae7c44e; 0xbe2da0a5; 0x4c4623a6; 0x5f16d052; 0xad7d5351].
Definition table1_ : list Z := [
  0x00000000; 0x13a29877; 0x274530ee; 0x34e7a899; 0x4e8a61dc; 0x5d28f9ab; 0x69cf5132; 0x7a6dc945;
  0x9d14c3b8; 0x8eb65bcf; 0xba51f356; 0xa9f36b21; 0xd39ea264; 0xc03c3a13; 0xf4db928a; 0xe7790afd;
  0x3fc5f181; 0x2c6769f6; 0x1880c16f; 0x0b225918; 0x714f905d; 0x62ed082a; 0x560aa0b3; 0x45a838c4;
  0xa2d13239; 0xb173aa4e; 0x859402d7; 0x96369aa0; 0xec5b53e5; 0xfff9cb92; 0xcb1e630b; 0xd8bcfb7c;
  0x7f8be302; 0x6c297b75; 0x58ced3ec; 0x4b6c4b9b; 0x310182de; 0x22a31aa9; 0x1644b230; 0x05e62a47;
  0xe29f20ba; 0xf13db8cd; 0xc5da1054; 0xd6788823; 0xac154166; 0xbfb7d911; 0x8b507188; 0x98f2e9ff;
  0x404e1283; 0x53ec8af4; 0x670b226d; 0x74a9ba1a; 0x0ec4735f; 0x1d66eb28; 0x298143b1; 0x3a23dbc6;
  0xdd5ad13b; 0xcef8494c; 0xfa1fe1d5; 0xe9bd79a2; 0x93d0b0e7; 0x80722890; 0xb4958009; 0xa737187e;
  0xff17c604; 0xecb55e73; 0xd852f6ea; 0xcbf06e9d; 0xb19da7d8; 0xa23f3faf; 0x96d89736; 0x857a0f41;
  0x620305bc; 0x71a19dcb; 0x45463552; 0x56e4ad25; 0x2c896460; 0x3f2bfc17; 0x0bcc548e; 0x186eccf9;
  0xc0d23785; 0xd370aff2; 0xe797076b; 0xf4359f1c; 0x8e585659; 0x9dface2e; 0xa91d66b7; 0xbabffec0;
  0x5dc6f43d; 0x4e646c4a; 0x7a83c4d3; 0x69215ca4; 0x134c95e1; 0x00ee0d96; 0x3409a50f; 0x27ab3d78;
  0x809c2506; 0x933ebd71; 0xa7d915e8; 0xb47b8d9f; 0xce1644da; 0xddb4dcad; 0xe9537434; 0xfaf1ec43;
  0x1d88e6be; 0x0e2a7ec9; 0x3acdd650; 0x296f4e27; 0x53028762; 0x40a01f15; 0x7447b78c; 0x67e52ffb;
  0xbf59d487; 0xacfb4cf0; 0x981ce469; 0x8bbe7c1e; 0xf1d3b55b; 0xe2712d2c; 0xd69685b5; 0xc5341dc2;
  0x224d173f; 0x31ef8f48; 0x050827d1; 0x16aabfa6; 0x6cc776e3; 0x7f65ee94; 0x4b82460d; 0x5820de7a;
  0xfbc3faf9; 0xe861628e; 0xdc86ca17; 0xcf245260; 0xb5499b25; 0xa6eb0352; 0x920cabcb; 0x81ae33bc;
  0x66d73941; 0x7575a136; 0x419209af; 0x523091d8; 0x285d589d; 0x3bffc0ea; 0x0f186873; 0x1cbaf004;
  0xc4060b78; 0xd7a4930f; 0xe3433b96; 0xf0e1a3e1; 0x8a8c6aa4; 0x992ef2d3; 0xadc95a4a; 0xbe6bc23d;
  0x5912c8c0; 0x4ab050b7; 0x7e57f82e; 0x6df56059; 0x1798a91c; 0x043a316b; 0x30dd99f2; 0x237f0185;
  0x844819fb; 0x97ea818c; 0xa30d2915; 0xb0afb162; 0xcac27827; 0xd960e050; 0xed8748c9; 0xfe25d0be;
  0x195cda43; 0x0afe4234; 0x3e19eaad; 0x2dbb72da; 0x57d6bb9f; 0x447423e8; 0x70938b71; 0x63311306;
  0xbb8de87a; 0xa82f700d; 0x9cc8d894; 0x8f6a40e3; 0xf50789a6; 0xe6a511d1; 0xd242b948; 0xc1e0213f;
  0x26992bc2; 0x353bb3b5; 0x01dc1b2c; 0x127e835b; 0x68134a1e; 0x7bb1d269; 0x4f567af0; 0x5cf4e287;
  0x04d43cfd; 0x1776a48a; 0x23910c13; 0x30339464; 0x4a5e5d21; 0x59fcc556; 0x6d1b6dcf; 0x7eb9f5b8;
  0x99c0ff45; 0x8a626732; 0xbe85cfab; 0xad2757dc; 0xd74a9e99; 0xc4e806ee; 0xf00fae77; 0xe3ad3600;
  0x3b11cd7c; 0x28b3550b; 0x1c54fd92; 0x0ff665e5; 0x759baca0; 0x663934d7; 0x52de9c4e; 0x417c0439;
  0xa6050ec4; 0xb5a796b3; 0x81403e2a; 0x92e2a65d; 0xe88f6f18; 0xfb2df76f; 0xcfca5ff6; 0xdc68c781;
  0x7b5fdfff; 0x68fd4788; 0x5c1aef11; 0x4fb87766; 0x35d5be23; 0x26772654; 0x12908ecd; 0x013216ba;
  0xe64b1c47; 0xf5e98430; 0xc10e2ca9; 0xd2acb4de; 0xa8c17d9b; 0xbb63e5ec; 0x8f844d75; 0x9c26d502;
  0x449a2e7e; 0x5738b609; 0x63df1e90; 0x707d86e7; 0x0a104fa2; 0x19b2d7d5; 0x2d557f4c; 0x3ef7e73b;
  0xd98eedc6; 0xca2c75b1; 0xfecbdd28; 0xed69455f; 0x97048c1a; 0x84a6146d; 0xb041bcf4; 0xa3e32483].
Definition table2_ : list Z := [
  0x00000000; 0xa541927e; 0x4f6f520d; 0xea2ec073; 0x9edea41a; 0x3b9f3664; 0xd1b1f617; 0x74f06469;
  0x38513ec5; 0x9d10acbb; 0x773e6cc8; 0xd27ffeb6; 0xa68f9adf; 0x03ce08a1; 0xe9e0c8d2; 0x4ca15aac;
  0x70a27d8a; 0xd5e3eff4; 0x3fcd2f87; 0x9a8cbdf9; 0xee7cd990; 0x4b3d4bee; 0xa1138b9d; 0x045219e3;
  0x48f3434f; 0xedb2d131; 0x079c1142; 0xa2dd833c; 0xd62de755; 0x736c752b; 0x9942b558; 0x3c032726;
  0xe144fb14; 0x4405696a; 0xae2ba919; 0x0b6a3b67; 0x7f9a5f0e; 0xdadbcd70; 0x30f50d03; 0x95b49f7d;
  0xd915c5d1; 0x7c5457af; 0x967a97dc; 0x333b05a2; 0x47cb61cb; 0xe28af3b5; 0x08a433c6; 0xade5a1b8;
  0x91e6869e; 0x34a714e0; 0xde89d493; 0x7bc846ed; 0x0f382284; 0xaa79b0fa; 0x40577089; 0xe516e2f7;
  0xa9b7b85b; 0x0cf62a25; 0xe6d8ea56; 0x43997828; 0x37691c41; 0x92288e3f; 0x78064e4c; 0xdd47dc32;
  0xc76580d9; 0x622412a7; 0x880ad2d4; 0x2d4b40aa; 0x59bb24c3; 0xfcfab6bd; 0x16d476ce; 0xb395e4b0;
  0xff34be1c; 0x5a752c62; 0xb05bec11; 0x151a7e6f; 0x61ea1a06; 0xc4ab8878; 0x2e85480b; 0x8bc4da75;
  0xb7c7fd53; 0x12866f2d; 0xf8a8af5e; 0x5de93d20; 0x29195949; 0x8c58cb37; 0x66760b44; 0xc337993a;
  0x8f96c396; 0x2ad751e8; 0xc0f9919b; 0x65b803e5; 0x1148678c; 0xb409f5f2; 0x5e273581; 0xfb66a7ff;
  0x26217bcd; 0x8360e9b3; 0x694e29c0; 0xcc0fbbbe; 0xb8ffdfd7; 0x1dbe4da9; 0xf7908dda; 0x52d11fa4;
  0x1e704508; 0xbb31d776; 0x511f1705; 0xf45e857b; 0x80aee112; 0x25ef736c; 0xcfc1b31f; 0x6a802161;
  0x56830647; 0xf3c29439; 0x19ec544a; 0xbcadc634; 0xc85da25d; 0x6d1c3023; 0x8732f050; 0x2273622e;
  0x6ed23882; 0xcb93aafc; 0x21bd6a8f; 0x84fcf8f1; 0xf00c9c98; 0x554d0ee6; 0xbf63ce95; 0x1a225ceb;
  0x8b277743; 0x2e66e53d; 0xc448254e; 0x6109b730; 0x15f9d359; 0xb0b84127; 0x5a968154; 0xffd7132a;
  0xb3764986; 0x1637dbf8; 0xfc191b8b; 0x595889f5; 0x2da8ed9c; 0x88e97fe2; 0x62c7bf91; 0xc7862def;
  0xfb850ac9; 0x5ec498b7; 0xb4ea58c4; 0x11abcaba; 0x655baed3; 0xc01a3cad; 0x2a34fcde; 0x8f756ea0;
  0xc3d4340c; 0x6695a672; 0x8cbb6601; 0x29faf47f; 0x5d0a9016; 0xf84b0268; 0x1265c21b; 0xb7245065;
  0x6a638c57; 0xcf221e29; 0x250cde5a; 0x804d4c24; 0xf4bd284d; 0x51fcba33; 0xbbd27a40; 0x1e93e83e;
  0x5232b292; 0xf77320ec; 0x1d5de09f; 0xb81c72e1; 0xccec1688; 0x69ad84f6; 0x83834485; 0x26c2d6fb;
  0x1ac1f1dd; 0xbf8063a3; 0x55aea3d0; 0xf0ef31ae; 0x841f55c7; 0x215ec7b9; 0xcb7007ca; 0x6e3195b4;
  0x2290cf18; 0x87d15d66; 0x6dff9d15; 0xc8be0f6b; 0xbc4e6b02; 0x190ff97c; 0xf321390f; 0x5660ab71;
  0x4c42f79a; 0xe90365e4; 0x032da597; 0xa66c37e9; 0xd29c5380; 0x77ddc1fe; 0x9df3018d; 0x38b293f3;
  0x7413c95f; 0xd1525b21; 0x3b7c9b52; 0x9e3d092c; 0xeacd6d45; 0x4f8cff3b; 0xa5a23f48; 0x00e3ad36;
  0x3ce08a10; 0x99a1186e; 0x738fd81d; 0xd6ce4a63; 0xa23e2e0a; 0x077fbc74; 0xed517c07; 0x4810ee79;
  0x04b1b4d5; 0xa1f026ab; 0x4bdee6d8; 0xee9f74a6; 0x9a6f10cf; 0x3f2e82b1; 0xd50042c2; 0x7041d0bc;
  0xad060c8e; 0x08479ef0; 0xe2695e83; 0x4728ccfd; 0x33d8a894; 0x96993aea; 0x7cb7fa99; 0xd9f668e7;
  0x9557324b; 0x3016a035; 0xda386046; 0x7f79f238; 0x0b899651; 0xaec8042f; 0x44e6c45c; 0xe1a75622;
  0xdda47104; 0x78e5e37a; 0x92cb2309; 0x378ab177; 0x437ad51e; 0xe63b4760; 0x0c158713; 0xa954156d;
  0xe5f54fc1; 0x40b4ddbf; 0xaa9a1dcc; 0x0fdb8fb2; 0x7b2bebdb; 0xde6a79a5; 0x3444b9d6; 0x91052ba8].
Definition table3_ : list Z := [
  0x00000000; 0xdd45aab8; 0xbf672381; 0x62228939; 0x7b2231f3; 0xa6679b4b; 0xc4451272; 0x1900b8ca;
  0xf64463e6; 0x2b01c95e; 0x49234067; 0x9466eadf; 0x8d665215; 0x5023f8ad; 0x32017194; 0xef44db2c;
  0xe964b13d; 0x34211b85; 0x560392bc; 0x8b463804; 0x924680ce; 0x4f032a76; 0x2d21a34f; 0xf06409f7;
  0x1f20d2db; 0xc2657863; 0xa047f15a; 0x7d025be2; 0x6402e328; 0xb9474990; 0xdb65c0a9; 0x06206a11;
  0xd725148b; 0x0a60be33; 0x6842370a; 0xb5079db2; 0xac072578; 0x71428fc0; 0x136006f9; 0xce25ac41;
  0x2161776d; 0xfc24ddd5; 0x9e0654ec; 0x4343fe54; 0x5a43469e; 0x8706ec26; 0xe524651f; 0x3861cfa7;
  0x3e41a5b6; 0xe3040f0e; 0x81268637; 0x5c632c8f; 0x45639445; 0x98263efd; 0xfa04b7c4; 0x27411d7c;
  0xc805c650; 0x15406ce8; 0x7762e5d1; 0xaa274f69; 0xb327f7a3; 0x6e625d1b; 0x0c40d422; 0xd1057e9a;
  0xaba65fe7; 0x76e3f55f; 0x14c17c66; 0xc984d6de; 0xd0846e14; 0x0dc1c4ac; 0x6fe34d95; 0xb2a6e72d;
  0x5de23c01; 0x80a796b9; 0xe2851f80; 0x3fc0b538; 0x26c00df2; 0xfb85a74a; 0x99a72e73; 0x44e284cb;
  0x42c2eeda; 0x9f874462; 0xfda5cd5b; 0x20e067e3; 0x39e0df29; 0xe4a57591; 0x8687fca8; 0x5bc25610;
  0xb4868d3c; 0x69c32784; 0x0be1aebd; 0xd6a40405; 0xcfa4bccf; 0x12e11677; 0x70c39f4e; 0xad8635f6;
  0x7c834b6c; 0xa1c6e1d4; 0xc3e468ed; 0x1ea1c255; 0x07a17a9f; 0xdae4d027; 0xb8c6591e; 0x6583f3a6;
  0x8ac7288a; 0x57828232; 0x35a00b0b; 0xe8e5a1b3; 0xf1e51979; 0x2ca0b3c1; 0x4e823af8; 0x93c79040;
  0x95e7fa51; 0x48a250e9; 0x2a80d9d0; 0xf7c57368; 0xeec5cba2; 0x3380611a; 0x51a2e823; 0x8ce7429b;
  0x63a399b7; 0xbee6330f; 0xdcc4ba36; 0x0181108e; 0x1881a844; 0xc5c402fc; 0xa7e68bc5; 0x7aa3217d;
  0x52a0c93f; 0x8fe56387; 0xedc7eabe; 0x30824006; 0x2982f8cc; 0xf4c75274; 0x96e5db4d; 0x4ba071f5;
  0xa4e4aad9; 0x79a10061; 0x1b838958; 0xc6c623e0; 0xdfc69b2a; 0x02833192; 0x60a1b8ab; 0xbde41213;
  0xbbc47802; 0x6681d2ba; 0x04a35b83; 0xd9e6f13b; 0xc0e649f1; 0x1da3e349; 0x7f816a70; 0xa2c4c0c8;
  0x4d801be4; 0x90c5b15c; 0xf2e73865; 0x2fa292dd; 0x36a22a17; 0xebe780af; 0x89c50996; 0x5480a32e;
  0x8585ddb4; 0x58c0770c; 0x3ae2fe35; 0xe7a7548d; 0xfea7ec47; 0x23e246ff; 0x41c0cfc6; 0x9c85657e;
  0x73c1be52; 0xae8414ea; 0xcca69dd3; 0x11e3376b; 0x08e38fa1; 0xd5a62519; 0xb784ac20; 0x6ac10698;
  0x6ce16c89; 0xb1a4c631; 0xd3864f08; 0x0ec3e5b0; 0x17c35d7a; 0xca86f7c2; 0xa8a47efb; 0x75e1d443;
  0x9aa50f6f; 0x47e0a5d7; 0x25c22cee; 0xf8878656; 0xe1873e9c; 0x3cc29424; 0x5ee01d1d; 0x83a5b7a5;
  0xf90696d8; 0x24433c60; 0x4661b559; 0x9b241fe1; 0x8224a72b; 0x5f610d93; 0x3d4384aa; 0xe0062e12;
  0x0f42f53e; 0xd2075f86; 0xb025d6bf; 0x6d607c07; 0x7460c4cd; 0xa9256e75; 0xcb07e74c; 0x16424df4;
  0x106227e5; 0xcd278d5d; 0xaf050464; 0x7240aedc; 0x6b401616; 0xb605bcae; 0xd4273597; 0x09629f2f;
  0xe6264403; 0x3b63eebb; 0x59416782; 0x8404cd3a; 0x9d0475f0; 0x4041df48; 0x22635671; 0xff26fcc9;
  0x2e238253; 0xf36628eb; 0x9144a1d2; 0x4c010b6a; 0x5501b3a0; 0x88441918; 0xea669021; 0x37233a99;
  0xd867e1b5; 0x05224b0d; 0x6700c234; 0xba45688c; 0xa345d046; 0x7e007afe; 0x1c22f3c7; 0xc167597f;
  0xc747336e; 0x1a0299d6; 0x782010ef; 0xa565ba57; 0xbc65029d; 0x6120a825; 0x0302211c; 0xde478ba4;
  0x31035088; 0xec46fa30; 0x8e647309; 0x5321d9b1; 0x4a21617b; 0x9764cbc3; 0xf54642fa; 0x2803e842].

(** An entry of a table; the index is a byte. *)
Definition table_ (t : list Z) (c : Z) : Z := nth (Z.to_nat c) t 0.

(** ** The two macros of [Extend] *)

Definition STEP1 (l : Z) (byte : Z) : Z :=
  let c := Z.lxor (Z.land l 0xff) byte in
  Z.lxor (table_ table0_ c) (Z.shiftr l 8).

(** [w] is [LE_LOAD32(p)]. *)
Definition STEP4 (l w : Z) : Z :=
  let c := Z.lxor l w in
  Z.lxor (Z.lxor (Z.lxor (table_ table3_ (Z.land c 0xff))
    (table_ table2_ (Z.land (Z.shiftr c 8) 0xff)))
    (table_ table1_ (Z.land (Z.shiftr c 16) 0xff)))
    (table_ table0_ (Z.shiftr c 24)).

(** [n] bytes, one at a time; the loops of [Extend] never ask for more than there
    are. *)
Fixpoint step1s (n : nat) (l : Z) (p : list Z) : Z * list Z :=
  match n, p with
  | S n', b :: p' => step1s n' (STEP1 l b) p'
  | _, _ => (l, p)
  end.

(** [n] times four bytes. *)
Fixpoint step4s (n : nat) (l : Z) (p : list Z) : Z * list Z :=
  match n with
  | O => (l, p)
  | S n' => step4s n' (STEP4 l (le_combine (take 4 p))) (drop 4 p)
  end.

(** [addr] is the address of the buffer: the first bytes, up to an aligned address,
    are taken one at a time, unless that is past the end. *)
Definition Extend (addr crc : Z) (buf : list Z) : Z :=
  let l := Z.lxor crc 0xffffffff in
  let x := Z.shiftl (Z.shiftr (addr + 3) 2) 2 in
  let '(l, p) :=
    if x <=? addr + Z.of_nat (length buf) then step1s (Z.to_nat (x - addr)) l buf else (l, buf) in
  (* while ((e-p) >= 16) *)
  let n16 := (length p / 16)%nat in
  let '(l, p) := step4s (4 * n16) l p in
  (* while ((e-p) >= 4) *)
  let n4 := (length p / 4)%nat in
  let '(l, p) := step4s n4 l p in
  (* while (p != e) *)
  let '(l, _) := step1s (length p) l p in
  Z.lxor l 0xffffffff.

Definition Value (addr : Z) (data : list Z) : Z := Extend addr 0 data.

Definition kMaskDelta : Z := 0xa282ead8.
Definition Mask (crc : Z) : Z :=
  u32 (Z.lor (Z.shiftr crc 15) (u32 (Z.shiftl crc 17)) + kMaskDelta).
Definition Unmask (masked_crc : Z) : Z :=
  let rot := u32 (masked_crc - kMaskDelta) in
  Z.lor (Z.shiftr rot 17) (u32 (Z.shiftl rot 15)).

(** ** The reference: one bit at a time *)

(** The Castagnoli polynomial, reflected. *)
Definition castagnoli : Z := 0x82f63b78.
Definition crc_bit (l : Z) : Z :=
  if Z.odd l then Z.lxor (Z.shiftr l 1) castagnoli else Z.shiftr l 1.
Fixpoint crc_bits (n : nat) (l : Z) : Z :=
  match n with O => l | S n' => crc_bit (crc_bits n' l) end.
Definition crc_byte (l byte : Z) : Z := crc_bits 8 (Z.lxor l byte).
Definition crc_ref (crc : Z) (buf : list Z) : Z :=
  Z.lxor (fold_left crc_byte buf (Z.lxor crc 0xffffffff)) 0xffffffff.

(** ** Bits are linear *)

Lemma crc_bit_lxor a b : crc_bit (Z.lxor a b) = Z.lxor (crc_bit a) (crc_bit b).
Proof.
  unfold crc_bit. rewrite Z.shiftr_lxor, <-!Z.bit0_odd, Z.lxor_spec.
  destruct (Z.testbit a 0), (Z.testbit b 0); simpl;
    apply Z.bits_inj'; intros n Hn; rewrite ?Z.lxor_spec;
    destruct (Z.testbit _ n), (Z.testbit _ n), (Z.testbit castagnoli n); done.
Qed.

Lemma crc_bits_lxor n a b : crc_bits n (Z.lxor a b) = Z.lxor (crc_bits n a) (crc_bits n b).
Proof.
  induction n as [|n IH]; [done|]. cbn [crc_bits]. by rewrite IH, crc_bit_lxor.
Qed.

Lemma crc_bits_add n m l : crc_bits (n + m) l = crc_bits n (crc_bits m l).
Proof. induction n as [|n IH]; [done|]. cbn [Nat.add crc_bits]. by rewrite IH. Qed.

(** Zeros at the bottom are shifted out. *)
Lemma crc_bits_shiftl n l : crc_bits n (Z.shiftl l (Z.of_nat n)) = l.
Proof.
  revert l. induction n as [|n IH]; intros l; [apply Z.shiftl_0_r|].
  replace (S n) with (n + 1)%nat at 1 by lia. rewrite crc_bits_add.
  assert (crc_bits 1 (Z.shiftl l (Z.of_nat (S n))) = Z.shiftl l (Z.of_nat n)) as ->; [|apply IH].
  cbn [crc_bits]. unfold crc_bit.
  rewrite <-Z.bit0_odd, Z.shiftl_spec_low by lia. rewrite Z.shiftr_shiftl_l by lia.
  f_equal. lia.
Qed.

Lemma split_low n l :
  0 ≤ n → l = Z.lxor (Z.land l (Z.ones n)) (Z.shiftl (Z.shiftr l n) n).
Proof.
  intros Hn. apply Z.bits_inj'. intros i Hi.
  rewrite Z.lxor_spec, Z.land_spec, Z.testbit_ones_nonneg by lia.
  destruct (Z.ltb_spec i n).
  - rewrite (Z.shiftl_spec_low _ n) by lia. by destruct (Z.testbit l i).
  - rewrite Z.shiftl_spec_high, Z.shiftr_spec by lia. replace (i - n + n) with i by lia.
    by destruct (Z.testbit l i).
Qed.

Lemma table_bits k t :
  forallb (λ c, table_ t c =? crc_bits k c) (seqZ 0 256) = true →
  ∀ c, is_byte c → table_ t c = crc_bits k c.
Proof.
  intros Ht c Hc. apply Z.eqb_eq. by apply (byte_forall (λ c, table_ t c =? crc_bits k c)).
Qed.

Lemma table0_bits c : is_byte c → table_ table0_ c = crc_bits 8 c.
Proof. apply table_bits. vm_compute. reflexivity. Qed.
Lemma table1_bits c : is_byte c → table_ table1_ c = crc_bits 16 c.
Proof. apply table_bits. vm_compute. reflexivity. Qed.
Lemma table2_bits c : is_byte c → table_ table2_ c = crc_bits 24 c.
Proof. apply table_bits. vm_compute. reflexivity. Qed.
Lemma table3_bits c : is_byte c → table_ table3_ c = crc_bits 32 c.
Proof. apply table_bits. vm_compute. reflexivity. Qed.

(** ** The steps compute the reference *)

Lemma land_byte l : is_byte (Z.land l 0xff).
Proof. rewrite land_FF. apply Z.mod_pos_bound. lia. Qed.

Lemma lxor_byte a b : is_byte a → is_byte b → is_byte (Z.lxor a b).
Proof. apply (lxor_range 8). lia. Qed.

(** The bits of a byte and of what is above it. *)
Lemma crc_bits_low n k l :
  (k ≤ n)%nat →
  crc_bits n l = Z.lxor (crc_bits n (Z.land l (Z.ones (Z.of_nat k))))
    (crc_bits (n - k) (Z.shiftr l (Z.of_nat k))).
Proof.
  intros Hk. rewrite (split_low (Z.of_nat k) l) at 1 by lia. rewrite crc_bits_lxor. f_equal.
  replace n with ((n - k) + k)%nat at 1 by lia. by rewrite crc_bits_add, crc_bits_shiftl.
Qed.

Lemma STEP1_byte l b : is_byte b → STEP1 l b = crc_byte l b.
Proof.
  intros Hb. unfold STEP1, crc_byte. rewrite (crc_bits_low 8 8 (Z.lxor l b)) by lia.
  change (Z.ones (Z.of_nat 8)) with 0xff. change (Z.of_nat 8) with 8.
  rewrite land_lxor_l, (land_FF b), (Z.mod_small b) by (unfold is_byte in Hb; lia).
  rewrite table0_bits by (apply lxor_byte; [apply land_byte|done]). f_equal.
  rewrite Z.shiftr_lxor, (Z.shiftr_div_pow2 b), (Z.div_small b) by (unfold is_byte in Hb; lia).
  by rewrite Z.lxor_0_r.
Qed.

Lemma STEP4_bits l w : 0 ≤ Z.lxor l w < 2 ^ 32 → STEP4 l w = crc_bits 32 (Z.lxor l w).
Proof.
  intros Hc. unfold STEP4. set (c := Z.lxor l w) in *. cbv zeta.
  rewrite table3_bits, table2_bits, table1_bits by apply land_byte.
  rewrite table0_bits.
  2: { unfold is_byte. rewrite Z.shiftr_div_pow2 by lia. pow2. zdiv. }
  rewrite (crc_bits_low 32 8 c), (crc_bits_low (32 - 8) 8 (Z.shiftr c _)),
    (crc_bits_low (32 - 8 - 8) 8 (Z.shiftr (Z.shiftr c _) _)) by lia.
  rewrite !Z.shiftr_shiftr by lia. rewrite <-!Z.lxor_assoc. done.
Qed.

Lemma crc_byte_bits n l b x :
  crc_bits n (Z.lxor (crc_byte l b) x) = crc_bits (n + 8) (Z.lxor l (Z.lxor b (Z.shiftl x 8))).
Proof.
  rewrite <-Z.lxor_assoc. unfold crc_byte. rewrite crc_bits_add, (crc_bits_lxor 8 (Z.lxor l b)).
  by rewrite (crc_bits_shiftl 8 x : crc_bits 8 (Z.shiftl x 8) = x).
Qed.

Lemma crc_bytes4 l b0 b1 b2 b3 :
  Forall is_byte [b0; b1; b2; b3] →
  fold_left crc_byte [b0; b1; b2; b3] l = crc_bits 32 (Z.lxor l (le_combine [b0; b1; b2; b3])).
Proof.
  intros Hb. cbn [fold_left]. unfold crc_byte at 1.
  rewrite !crc_byte_bits.
  cbn [Nat.add].
  apply (f_equal (λ x, crc_bits 32 (Z.lxor l x))).
  assert (∀ b x, is_byte b → b + 256 * x = Z.lxor b (Z.shiftl x 8)) as Hadd.
  { intros b x Hbx. unfold is_byte in Hbx.
    rewrite <-Z.add_nocarry_lxor.
    - rewrite Z.shiftl_mul_pow2 by lia. lia.
    - apply Z.bits_inj'. intros n Hn. rewrite Z.land_spec, Z.bits_0.
      destruct (Z_lt_le_dec n 8).
      + rewrite Z.shiftl_spec_low by lia. apply andb_false_r.
      + rewrite <-(Z.mod_small b (2 ^ 8)), Z.mod_pow2_bits_high by lia. done. }
  cbn [le_combine]. repeat match goal with H : Forall _ (_ :: _) |- _ => apply Forall_cons in H as [? H] end.
  rewrite (Hadd b3 0), (Hadd b2), (Hadd b1), (Hadd b0) by done.
  by rewrite Z.shiftl_0_l, Z.lxor_0_r.
Qed.

(** The register keeps to 32 bits. *)
Lemma crc_bit_range l : 0 ≤ l < 2 ^ 32 → 0 ≤ crc_bit l < 2 ^ 32.
Proof.
  intros Hl. assert (0 ≤ Z.shiftr l 1 < 2 ^ 31) as Hs.
  { rewrite Z.shiftr_div_pow2 by lia. pow2. zdiv. }
  unfold crc_bit. destruct (Z.odd l); [|pow2; lia]. apply (lxor_range 32); unfold castagnoli; pow2; lia.
Qed.

Lemma crc_bits_range n l : 0 ≤ l < 2 ^ 32 → 0 ≤ crc_bits n l < 2 ^ 32.
Proof. intros Hl. induction n as [|n IH]; [done|]. cbn [crc_bits]. by apply crc_bit_range. Qed.

Lemma crc_bytes_range p l :
  Forall is_byte p → 0 ≤ l < 2 ^ 32 → 0 ≤ fold_left crc_byte p l < 2 ^ 32.
Proof.
  intros Hp. revert l. induction Hp as [|b p Hb Hp IH]; intros l Hl; [done|]. cbn [fold_left].
  apply IH. apply crc_bits_range, (lxor_range 32); [lia|done|]. unfold is_byte in Hb. pow2. lia.
Qed.

#[local] Opaque crc_byte crc_bits STEP1 STEP4.

Lemma step1s_ref n l p :
  Forall is_byte p → step1s n l p = (fold_left crc_byte (take n p) l, drop n p).
Proof.
  intros Hp. revert n l. induction Hp as [|b p Hb Hp IH]; intros [|n] l; [done..|].
  cbn [step1s take drop fold_left]. by rewrite IH, STEP1_byte.
Qed.

Lemma fold_left_take4 {A B} (f : A → B → A) n b0 b1 b2 b3 p l :
  (fold_left f (take n p) (fold_left f [b0; b1; b2; b3] l), drop n p) =
  (fold_left f (take (4 + n) (b0 :: b1 :: b2 :: b3 :: p)) l, drop (4 + n) (b0 :: b1 :: b2 :: b3 :: p)).
Proof. reflexivity. Qed.

Lemma step4s_ref n : ∀ l p,
  Forall is_byte p → (4 * n ≤ length p)%nat → 0 ≤ l < 2 ^ 32 →
  step4s n l p = (fold_left crc_byte (take (4 * n) p) l, drop (4 * n) p).
Proof.
  induction n as [|n IH]; intros l p Hp Hn Hl; [by rewrite take_0, drop_0|].
  destruct p as [|b0 [|b1 [|b2 [|b3 p]]]]; try (simpl in Hn; lia).
  apply (Forall_app _ [b0; b1; b2; b3] p) in Hp as [Hb Hp].
  pose proof (crc_bytes_range _ l Hb Hl) as Hr.
  assert (STEP4 l (le_combine [b0; b1; b2; b3]) = fold_left crc_byte [b0; b1; b2; b3] l) as E4.
  { rewrite crc_bytes4 by done. apply STEP4_bits. apply (lxor_range 32); [lia|done|].
    apply (le_combine_range _ Hb). }
  cbn [step4s]. change (take 4 (b0 :: b1 :: b2 :: b3 :: p)) with [b0; b1; b2; b3].
  change (drop 4 (b0 :: b1 :: b2 :: b3 :: p)) with p.
  rewrite E4, IH by (done || simpl in Hn; lia).
  replace (4 * S n)%nat with (4 + 4 * n)%nat by lia. apply fold_left_take4.
Qed.

Lemma fold_left_split {A B} (f : A → B → A) k p l :
  fold_left f p l = fold_left f (drop k p) (fold_left f (take k p) l).
Proof. rewrite <-(take_drop k p) at 1. apply fold_left_app. Qed.

Lemma Extend_crc_ref addr crc buf :
  Forall is_byte buf → 0 ≤ crc < 2 ^ 32 → Extend addr crc buf = crc_ref crc buf.
Proof.
  intros Hb Hc. unfold Extend, crc_ref. f_equal. cbv zeta.
  assert (0 ≤ Z.lxor crc 4294967295 < 2 ^ 32) as Hl by (apply (lxor_range 32); pow2; lia).
  generalize dependent (Z.lxor crc 4294967295). intros l Hl.
  set (x := Z.shiftl _ 2). clearbody x.
  (* the unaligned head *)
  assert (∃ k, (if x <=? addr + Z.of_nat (length buf)
                then step1s (Z.to_nat (x - addr)) l buf else (l, buf)) =
               (fold_left crc_byte (take k buf) l, drop k buf)) as [k ->].
  { destruct (_ <=? _); [eexists; by apply step1s_ref|]. exists 0%nat. by rewrite take_0, drop_0. }
  cbv beta iota.
  assert (Forall is_byte (take k buf)) as Hk1 by (by apply Forall_take).
  assert (Forall is_byte (drop k buf)) as Hk2 by (by apply Forall_drop).
  rewrite (fold_left_split crc_byte k buf).
  pose proof (crc_bytes_range _ l Hk1 Hl) as Hl1.
  generalize dependent (fold_left crc_byte (take k buf) l). intros l1 Hl1.
  generalize dependent (drop k buf). clear l Hl buf Hb Hk1 k. intros p Hp.
  (* sixteen bytes at a time *)
  set (n := (4 * (length p / 16))%nat).
  assert (4 * n ≤ length p)%nat as Hn.
  { unfold n. pose proof (Nat.div_mod_eq (length p) 16). lia. }
  rewrite (step4s_ref n) by done. cbv beta iota.
  rewrite (fold_left_split crc_byte (4 * n) p).
  pose proof (crc_bytes_range (take (4 * n) p) l1 ltac:(by apply Forall_take) Hl1) as Hl2.
  generalize dependent (fold_left crc_byte (take (4 * n) p) l1). intros l2 Hl2.
  assert (Forall is_byte (drop (4 * n) p)) as Hq by (by apply Forall_drop).
  generalize dependent (drop (4 * n) p). clear l1 Hl1 n Hn p Hp. intros p Hp.
  (* four at a time *)
  set (n := (length p / 4)%nat).
  assert (4 * n ≤ length p)%nat as Hn.
  { unfold n. pose proof (Nat.div_mod_eq (length p) 4). lia. }
  rewrite (step4s_ref n) by done. cbv beta iota.
  rewrite (step1s_ref _ _ (drop (4 * n) p)) by (by apply Forall_drop). cbv beta iota.
  rewrite (fold_left_split crc_byte (4 * n) p).
  by rewrite take_ge by done.
Qed.

Lemma crc_ref_range crc buf :
  Forall is_byte buf → 0 ≤ crc < 2 ^ 32 → 0 ≤ crc_ref crc buf < 2 ^ 32.
Proof.
  intros Hb Hc. unfold crc_ref. apply (lxor_range 32); [lia| |pow2; lia].
  apply crc_bytes_range; [done|]. apply (lxor_range 32); pow2; lia.
Qed.

Lemma crc_ref_app crc a b : crc_ref crc (a ++ b) = crc_ref (crc_ref crc a) b.
Proof.
  unfold crc_ref. rewrite fold_left_app. do 2 f_equal.
  by rewrite Z.lxor_assoc, Z.lxor_nilpotent, Z.lxor_0_r.
Qed.

(** Rotations of 32 bits. *)
Lemma rotate_mod x k :
  0 ≤ x < 2 ^ 32 → 0 < k < 32 →
  Z.lor (Z.shiftr x k) (u32 (Z.shiftl x (32 - k))) = x / 2 ^ k + (x `mod` 2 ^ k) * 2 ^ (32 - k).
Proof.
  intros Hx Hk. rewrite lor_wrapu_shiftl; [|lia|].
  2: { rewrite Z.shiftr_div_pow2 by lia. split; [apply Z.div_pos; lia|].
       apply Z.div_lt_upper_bound; [lia|]. rewrite <-Z.pow_add_r by lia.
       replace (k + (32 - k)) with 32 by lia. lia. }
  rewrite Z.shiftr_div_pow2 by lia. unfold wrapu.
  assert (2 ^ 32 = 2 ^ k * 2 ^ (32 - k)) as E32.
  { rewrite <-Z.pow_add_r by lia. f_equal. lia. }
  symmetry. apply (Z.mod_unique_pos _ _ (x / 2 ^ k)).
  - pose proof (Z.mod_pos_bound x (2 ^ k) ltac:(lia)).
    assert (0 ≤ x / 2 ^ k < 2 ^ (32 - k)); [|nia].
    split; [apply Z.div_pos; lia|]. apply Z.div_lt_upper_bound; lia.
  - rewrite E32. pose proof (Z.div_mod x (2 ^ k) ltac:(lia)). nia.
Qed.

Lemma rotate_range x k :
  0 ≤ x < 2 ^ 32 → 0 < k < 32 → 0 ≤ x / 2 ^ k + (x `mod` 2 ^ k) * 2 ^ (32 - k) < 2 ^ 32.
Proof.
  intros Hx Hk. rewrite <-rotate_mod by done. apply lor_range; [|by apply wrapu_range].
  rewrite Z.shiftr_div_pow2 by lia. split; [apply Z.div_pos; lia|].
  apply Z.div_lt_upper_bound; [lia|]. assert (0 < 2 ^ k) by lia. nia.
Qed.

Lemma Unmask_Mask crc : 0 ≤ crc < 2 ^ 32 → Unmask (Mask crc) = crc.
Proof.
  intros Hc. unfold Unmask, Mask. cbv zeta.
  pose proof (rotate_mod crc 15 Hc ltac:(lia)) as E1. change (32 - 15) with 17 in E1 at 1.
  rewrite E1. clear E1.
  pose proof (rotate_range crc 15 Hc ltac:(lia)) as Hr.
  set (r := crc / 2 ^ 15 + _) in *.
  assert (u32 (u32 (r + kMaskDelta) - kMaskDelta) = r) as ->.
  { unfold wrapu. rewrite Zminus_mod_idemp_l. replace (r + kMaskDelta - kMaskDelta) with r by lia.
    by apply Z.mod_small. }
  pose proof (rotate_mod r 17 Hr ltac:(lia)) as E2. change (32 - 17) with 15 in E2 at 1.
  rewrite E2. clear E2. unfold r.
  change (2 ^ (32 - 15)) with 131072. change (2 ^ (32 - 17)) with 32768.
  change (2 ^ 15) with 32768. change (2 ^ 17) with 131072. pow2. zdiv.
Qed.

Lemma Mask_range crc : 0 ≤ Mask crc < 2 ^ 32.
Proof. by apply wrapu_range. Qed.

(** ** Theorems *)

(** C27: the checksum, computed with four tables on words of four bytes from the first
    aligned address on and with one table on the other bytes, is the cyclic
    redundancy check of the Castagnoli polynomial computed bit by bit, whatever the
    address and the length of the buffer; it does not depend on how the data is cut. *)
Theorem Extend_is_crc32c addr crc buf :
  Forall is_byte buf → 0 ≤ crc < 2 ^ 32 →
  Extend addr crc buf = crc_ref crc buf ∧ 0 ≤ Extend addr crc buf < 2 ^ 32 ∧
  ∀ addr' k, Extend addr' (Extend addr crc (take k buf)) (drop k buf) = Extend addr crc buf.
Proof.
  intros Hb Hc. rewrite !Extend_crc_ref by done.
  split_and!; [done|by apply crc_ref_range..|]. intros addr' k.
  assert (Forall is_byte (take k buf)) by (by apply Forall_take).
  rewrite (Extend_crc_ref addr) by done.
  rewrite Extend_crc_ref by (by apply Forall_drop || by apply crc_ref_range).
  by rewrite <-crc_ref_app, take_drop.
Qed.

(** A masked checksum is unmasked. *)
Theorem Mask_roundtrip crc : 0 ≤ crc < 2 ^ 32 → Unmask (Mask crc) = crc ∧ 0 ≤ Mask crc < 2 ^ 32.
Proof. intros Hc. split; [by apply Unmask_Mask|apply Mask_range]. Qed.

(** The check value of the algorithm: the nine digits. *)
Example crc32c_check_value : Value 0 (seqZ 49 9) = 0xe3069283.
Proof. vm_compute. reflexivity. Qed.

Lemma Extend_is_crc32c_witness :
  Extend 3 0 (seqZ 49 9) = crc_ref 0 (seqZ 49 9) ∧ crc_ref 0 (seqZ 49 9) = 0xe3069283.
Proof.
  split; [|vm_compute; reflexivity].
  apply (Extend_is_crc32c 3 0 (seqZ 49 9)); [|lia].
  apply Forall_forall. intros b Hb. apply elem_of_seqZ in Hb. unfold is_byte. lia.
Defined.

Lemma Mask_roundtrip_witness : Unmask (Mask 0xe3069283) = 0xe3069283 ∧ 0 ≤ Mask 0xe3069283 < 2 ^ 32.
Proof. apply Mask_roundtrip. lia. Defined.

(** ** What the checksum detects

    The register is a bijection of what is added to it: two strings that differ only in
    four consecutive bytes, at most, do not have the same checksum. *)
#[local] Transparent crc_byte crc_bits STEP1 STEP4.

(** ** The register is injective *)

Lemma crc_bit_zero x : 0 ≤ x < 2 ^ 32 → crc_bit x = 0 → x = 0.
Proof.
  intros Hx E. unfold crc_bit in E. assert (0 ≤ Z.shiftr x 1 < 2 ^ 31) as Hs.
  { rewrite Z.shiftr_div_pow2 by lia. pow2. zdiv. }
  destruct (Z.odd x) eqn:Eo.
  - apply Z.lxor_eq in E. unfold castagnoli in E. pow2. lia.
  - rewrite Z.shiftr_div_pow2 in E by lia. pose proof (Zmod_odd x) as Em. rewrite Eo in Em. zdiv.
Qed.
Lemma crc_bits_zero n x : 0 ≤ x < 2 ^ 32 → crc_bits n x = 0 → x = 0.
Proof.
  intros Hx. induction n as [|n IH]; [done|]. cbn [crc_bits]. intros E. apply IH.
  apply crc_bit_zero; [by apply crc_bits_range|done].
Qed.
Lemma crc_bits_inj n x y : 0 ≤ x < 2 ^ 32 → 0 ≤ y < 2 ^ 32 → crc_bits n x = crc_bits n y → x = y.
Proof.
  intros Hx Hy E. apply Z.lxor_eq, (crc_bits_zero n); [by apply (lxor_range 32)|].
  by rewrite crc_bits_lxor, E, Z.lxor_nilpotent.
Qed.

Lemma add_lxor b x : is_byte b → b + 256 * x = Z.lxor b (Z.shiftl x 8).
Proof.
  intros Hb. unfold is_byte in Hb. rewrite <-Z.add_nocarry_lxor.
  - rewrite Z.shiftl_mul_pow2 by lia. lia.
  - apply Z.bits_inj'. intros n Hn. rewrite Z.land_spec, Z.bits_0. destruct (Z_lt_le_dec n 8).
    + rewrite Z.shiftl_spec_low by lia. apply andb_false_r.
    + rewrite <-(Z.mod_small b (2 ^ 8)), Z.mod_pow2_bits_high by lia. done.
Qed.

(** Bytes that go through the register, as one word. *)
Lemma crc_bytes_word w : ∀ l n x, Forall is_byte w →
  crc_bits n (Z.lxor (fold_left crc_byte w l) x) =
  crc_bits (n + 8 * length w) (Z.lxor l (Z.lxor (le_combine w) (Z.shiftl x (8 * Z.of_nat (length w))))).
Proof.
  induction w as [|b w IH]; intros l n x Hw; cbn [fold_left length le_combine].
  - by rewrite Nat.mul_0_r, Nat.add_0_r, Z.mul_0_r, Z.shiftl_0_r, Z.lxor_0_l.
  - apply Forall_cons in Hw as [Hb Hw]. rewrite IH, crc_byte_bits, add_lxor by done.
    f_equal; [lia|]. f_equal. rewrite Z.lxor_assoc. f_equal. rewrite Z.shiftl_lxor. f_equal.
    rewrite Z.shiftl_shiftl by lia. f_equal. lia.
Qed.

Lemma crc_bytes_inj s : ∀ l l', Forall is_byte s → 0 ≤ l < 2 ^ 32 → 0 ≤ l' < 2 ^ 32 →
  fold_left crc_byte s l = fold_left crc_byte s l' → l = l'.
Proof.
  induction s as [|b s IH]; intros l l' Hs Hl Hl' E; [done|]. apply Forall_cons in Hs as [Hb Hs].
  assert (0 ≤ b < 2 ^ 32) as Hb32 by (unfold is_byte in Hb; pow2; lia).
  assert (∀ l, 0 ≤ l < 2 ^ 32 → 0 ≤ crc_byte l b < 2 ^ 32) as Hr.
  { intros l0 Hl0. by apply crc_bits_range, (lxor_range 32). }
  cbn [fold_left] in E. apply IH in E; [|by auto..].
  apply crc_bits_inj in E; [|by apply (lxor_range 32)..].
  apply Z.lxor_eq. apply (f_equal (Z.lxor (Z.lxor l' b))) in E. rewrite Z.lxor_nilpotent in E.
  rewrite <-E. apply Z.bits_inj'. intros n _. rewrite !Z.lxor_spec.
  by destruct (Z.testbit l n), (Z.testbit l' n), (Z.testbit b n).
Qed.

Lemma le_combine_inj w w' :
  Forall is_byte w → Forall is_byte w' → length w = length w' → le_combine w = le_combine w' → w = w'.
Proof. intros Hw Hw' El E. by rewrite <-(le_split_combine w), <-(le_split_combine w'), El, E. Qed.

(** [l'] is [l] with other bytes in a place of four bytes at most. *)
Definition damaged (l l' : list Z) : Prop :=
  ∃ a w w' s, l = a ++ w ++ s ∧ l' = a ++ w' ++ s ∧ w ≠ w' ∧
    length w = length w' ∧ (length w ≤ 4)%nat ∧ Forall is_byte w'.

Lemma damaged_length l l' : damaged l l' → length l' = length l.
Proof. intros (a & w & w' & s & -> & -> & _ & Hl & _). rewrite !length_app. lia. Qed.
Lemma damaged_bytes l l' : Forall is_byte l → damaged l l' → Forall is_byte l'.
Proof. intros Hl (a & w & w' & s & -> & -> & _ & _ & _ & Hw'). rewrite !Forall_app in *. tauto. Qed.

Lemma crc_ref_damaged crc l l' :
  Forall is_byte l → 0 ≤ crc < 2 ^ 32 → damaged l l' → crc_ref crc l ≠ crc_ref crc l'.
Proof.
  intros Hl Hc (a & w & w' & s & -> & -> & Hne & Hlen & H4 & Hw'). rewrite !Forall_app in Hl.
  destruct Hl as (Ha & Hw & Hs). intros E. apply Hne. unfold crc_ref in E.
  apply (f_equal (λ x, Z.lxor x 0xffffffff)) in E. rewrite !Z.lxor_assoc, Z.lxor_nilpotent, !Z.lxor_0_r in E.
  rewrite !fold_left_app in E.
  set (l := fold_left crc_byte a _) in E.
  assert (0 ≤ l < 2 ^ 32) as Hlr by (apply crc_bytes_range; [done|apply (lxor_range 32); pow2; lia]).
  apply crc_bytes_inj in E; [|done|by apply crc_bytes_range..].
  apply le_combine_inj; [done..|].
  pose proof (crc_bytes_word w l 0 0 Hw) as E1. pose proof (crc_bytes_word w' l 0 0 Hw') as E2.
  cbn [crc_bits] in E1, E2. rewrite Z.shiftl_0_l, !Z.lxor_0_r in E1, E2. rewrite E1, E2, Hlen in E.
  assert (∀ v, Forall is_byte v → (length v ≤ 4)%nat → 0 ≤ le_combine v < 2 ^ 32) as Hr.
  { intros v Hv Hv4. pose proof (le_combine_range v Hv) as Hb.
    assert (256 ^ Z.of_nat (length v) ≤ 256 ^ 4) by (apply Z.pow_le_mono_r; lia).
    change (256 ^ 4) with 4294967296 in *. pow2. lia. }
  pose proof (Hr w Hw H4) as Rw. pose proof (Hr w' Hw' ltac:(lia)) as Rw'.
  apply crc_bits_inj in E; [|by apply (lxor_range 32)..].
  apply Z.lxor_eq. apply (f_equal (λ x, Z.lxor x (Z.lxor l (le_combine w')))) in E. rewrite Z.lxor_nilpotent in E.
  rewrite <-E. apply Z.bits_inj'. intros n _. rewrite !Z.lxor_spec.
  by destruct (Z.testbit l n), (Z.testbit (le_combine w) n), (Z.testbit (le_combine w') n).
Qed.

(** ** Masks *)

Lemma Mask_Unmask x : 0 ≤ x < 2 ^ 32 → Mask (Unmask x) = x ∧ 0 ≤ Unmask x < 2 ^ 32.
Proof.
  intros Hx. unfold Mask, Unmask. cbv zeta. set (rot := u32 (x - kMaskDelta)).
  assert (0 ≤ rot < 2 ^ 32) as Hrot by (by apply wrapu_range).
  pose proof (rotate_mod rot 17 Hrot ltac:(lia)) as E1. change (32 - 17) with 15 in E1 at 1. rewrite E1. clear E1.
  pose proof (rotate_range rot 17 Hrot ltac:(lia)) as Hr. split; [|done].
  set (r := rot / 2 ^ 17 + _) in *.
  pose proof (rotate_mod r 15 Hr ltac:(lia)) as E2. change (32 - 15) with 17 in E2 at 1. rewrite E2. clear E2.
  assert (r / 2 ^ 15 + r `mod` 2 ^ 15 * 2 ^ (32 - 15) = rot) as ->.
  { unfold r. change (2 ^ (32 - 15)) with 131072. change (2 ^ (32 - 17)) with 32768.
    change (2 ^ 15) with 32768. change (2 ^ 17) with 131072. pow2. zdiv. }
  unfold rot, wrapu. rewrite Zplus_mod_idemp_l. replace (x - kMaskDelta + kMaskDelta) with x by lia.
  by apply Z.mod_small.
Qed.

(** ** Theorems *)

(** Other bytes in a place of four bytes at most give another checksum, and another
    masked checksum. *)
Theorem crc_detects addr addr' crc l l' :
  Forall is_byte l → 0 ≤ crc < 2 ^ 32 → damaged l l' →
  Extend addr crc l ≠ Extend addr' crc l' ∧ Mask (Extend addr crc l) ≠ Mask (Extend addr' crc l').
Proof.
  intros Hl Hc Hd. pose proof (damaged_bytes l l' Hl Hd) as Hl'.
  rewrite !Extend_crc_ref by done. pose proof (crc_ref_damaged crc l l' Hl Hc Hd) as Hne. split; [done|].
  intros E. apply Hne. rewrite <-(Unmask_Mask (crc_ref crc l)), E, Unmask_Mask by (by apply crc_ref_range). done.
Qed.

Lemma crc_detects_witness : Value 0 [1; 2; 3; 4; 5; 6] ≠ Value 0 [1; 9; 3; 4; 7; 6].
Proof.
  apply (crc_detects 0 0 0); [repeat constructor; unfold is_byte; lia|done|].
  exists [1], [2; 3; 4; 5], [9; 3; 4; 7], [6]. split_and!; [done..|simpl; lia|].
  repeat constructor; unfold is_byte; lia.
Defined.
