(* ===== verification/LdbLog.v ===== *)
(** * leveldb: the log (db/log_format.h, db/log_writer.cc, db/log_reader.cc)

    The log is a sequence of blocks. A record is cut in fragments that do not cross
    the end of a block; a fragment has a header with a checksum, a length and a
    type. Files are the interfaces of include/leveldb/env.h. *)
From S2P Require Import Prelude LdbCoding LdbCrc.

(** ** The interfaces of files *)

(** Each operation gives whether its status is OK. *)
Class WritableFile (F : Type) := {
  Append : list Z → F → bool * F;
  Flush : F → bool * F;
}.
Class SequentialFile (F : Type) := {
  Read : nat → F → bool * list Z * F;
  Skip : nat → F → bool * F;
}.

(** ** The format *)

Definition kZeroType : Z := 0.
Definition kFullType : Z := 1.
Definition kFirstType : Z := 2.
Definition kMiddleType : Z := 3.
Definition kLastType : Z := 4.
Definition kMaxRecordType : Z := kLastType.
Definition kBlockSize : Z := 32768.
Definition kHeaderSize : Z := 4 + 2 + 1.

Definition slen (l : list Z) : Z := Z.of_nat (length l).

(** ** The writer *)

Section writer.
Context {F : Type} `{WritableFile F}.

Record Writer := MkWriter { dest_ : F; block_offset_ : Z }.

(** [Writer(dest)] and [Writer(dest, dest_length)]. *)
Definition new_Writer (dest : F) : Writer := MkWriter dest 0.
Definition new_Writer_at (dest : F) (dest_length : Z) : Writer :=
  MkWriter dest (dest_length `mod` kBlockSize).

(** [type_crc_[t]], that [InitTypeCrc] computes. The address of a buffer has no
    influence on its checksum ([LdbCrc.Extend_is_crc32c]). *)
Definition type_crc_ (t : Z) : Z := Value 0 [t].

Definition dest_Append (data : list Z) : M Writer bool :=
  w ← get_state;
  let '(ok, f) := Append data (dest_ w) in
  put_state (MkWriter f (block_offset_ w));;
  mret ok.
Definition dest_Flush : M Writer bool :=
  w ← get_state;
  let '(ok, f) := Flush (dest_ w) in
  put_state (MkWriter f (block_offset_ w));;
  mret ok.
Definition set_block_offset (x : Z) : M Writer unit :=
  w ← get_state; put_state (MkWriter (dest_ w) x).

(** [ptr] holds the [n] bytes of the fragment. *)
Definition EmitPhysicalRecord (t : Z) (ptr : list Z) : M Writer bool :=
  w ← get_state;
  let n := slen ptr in
  assert_ (n <=? 0xffff);;
  assert_ (block_offset_ w + kHeaderSize + n <=? kBlockSize);;
  let crc := Mask (Extend 0 (type_crc_ t) ptr) in
  let buf := EncodeFixed32 crc ++ [u8 (Z.land n 0xff); u8 (Z.shiftr n 8); u8 t] in
  s ← dest_Append buf;
  s ← (if (s : bool) then
         s ← dest_Append ptr;
         if (s : bool) then dest_Flush else mret s
       else mret s);
  set_block_offset (block_offset_ w + kHeaderSize + n);;
  mret s.

(** One turn of the loop of [AddRecord]: the state is what [ptr] and [left] delimit,
    and [begin]. The status of the trailer is not looked at. *)
Definition add_step (st : list Z * bool) : M Writer ((list Z * bool) + bool) :=
  let '(ptr, begin) := st in
  w ← get_state;
  let leftover := kBlockSize - block_offset_ w in
  assert_ (0 <=? leftover);;
  (if leftover <? kHeaderSize then
     (if 0 <? leftover then dest_Append (take (Z.to_nat leftover) [0; 0; 0; 0; 0; 0])
      else mret true);;
     set_block_offset 0
   else mret tt);;
  w ← get_state;
  assert_ (0 <=? kBlockSize - block_offset_ w - kHeaderSize);;
  let avail := kBlockSize - block_offset_ w - kHeaderSize in
  let left := slen ptr in
  let fragment_length := if left <? avail then left else avail in
  let end_ := left =? fragment_length in
  let type :=
    if begin && end_ then kFullType
    else if begin then kFirstType
    else if end_ then kLastType
    else kMiddleType in
  s ← EmitPhysicalRecord type (take (Z.to_nat fragment_length) ptr);
  let ptr := drop (Z.to_nat fragment_length) ptr in
  mret (if (s : bool) && (0 <? slen ptr) then inl (ptr, false) else inr s).

(** A turn takes at least one byte, unless the block has room for a header only; the
    next turn has a new block. *)
Definition AddRecord (slice : list Z) : M Writer bool :=
  loop (2 * slen slice + 3) add_step (slice, true).
End writer.
Arguments Writer : clear implicits.

(** ** The reader *)

Definition kEof : Z := kMaxRecordType + 1.
Definition kBadRecord : Z := kMaxRecordType + 2.

Section reader.
Context {F : Type} `{SequentialFile F}.

(** [reporter_] is what [Reporter::Corruption] was called with, the last call first;
    without a reporter, nothing is recorded. *)
Record Reader := MkReader {
  file_ : F;
  has_reporter_ : bool;
  reports_ : list (Z * string);
  checksum_ : bool;
  buffer_ : list Z;
  eof_ : bool;
  last_record_offset_ : Z;
  end_of_buffer_offset_ : Z;
  initial_offset_ : Z;
  resyncing_ : bool;
}.

Definition new_Reader (file : F) (reporter checksum : bool) (initial_offset : Z) : Reader :=
  MkReader file reporter [] checksum [] false 0 0 initial_offset (0 <? initial_offset).

Definition set_file (f : F) (r : Reader) : Reader :=
  MkReader f (has_reporter_ r) (reports_ r) (checksum_ r) (buffer_ r) (eof_ r)
    (last_record_offset_ r) (end_of_buffer_offset_ r) (initial_offset_ r) (resyncing_ r).
Definition set_reports (x : list (Z * string)) (r : Reader) : Reader :=
  MkReader (file_ r) (has_reporter_ r) x (checksum_ r) (buffer_ r) (eof_ r)
    (last_record_offset_ r) (end_of_buffer_offset_ r) (initial_offset_ r) (resyncing_ r).
Definition set_buffer (x : list Z) (r : Reader) : Reader :=
  MkReader (file_ r) (has_reporter_ r) (reports_ r) (checksum_ r) x (eof_ r)
    (last_record_offset_ r) (end_of_buffer_offset_ r) (initial_offset_ r) (resyncing_ r).
Definition set_eof (x : bool) (r : Reader) : Reader :=
  MkReader (file_ r) (has_reporter_ r) (reports_ r) (checksum_ r) (buffer_ r) x
    (last_record_offset_ r) (end_of_buffer_offset_ r) (initial_offset_ r) (resyncing_ r).
Definition set_last (x : Z) (r : Reader) : Reader :=
  MkReader (file_ r) (has_reporter_ r) (reports_ r) (checksum_ r) (buffer_ r) (eof_ r)
    x (end_of_buffer_offset_ r) (initial_offset_ r) (resyncing_ r).
Definition set_end (x : Z) (r : Reader) : Reader :=
  MkReader (file_ r) (has_reporter_ r) (reports_ r) (checksum_ r) (buffer_ r) (eof_ r)
    (last_record_offset_ r) x (initial_offset_ r) (resyncing_ r).
Definition set_resyncing (x : bool) (r : Reader) : Reader :=
  MkReader (file_ r) (has_reporter_ r) (reports_ r) (checksum_ r) (buffer_ r) (eof_ r)
    (last_record_offset_ r) (end_of_buffer_offset_ r) (initial_offset_ r) x.

Definition modify (f : Reader → Reader) : M Reader unit := r ← get_state; put_state (f r).

(** A corruption or a failed status, as [reason]. *)
Definition ReportDrop (bytes : Z) (reason : string) : M Reader unit :=
  r ← get_state;
  if has_reporter_ r &&
     (initial_offset_ r <=? u64 (end_of_buffer_offset_ r - slen (buffer_ r) - bytes))
  then put_state (set_reports ((bytes, reason) :: reports_ r) r)
  else mret tt.
Definition ReportCorruption (bytes : Z) (reason : string) : M Reader unit :=
  ReportDrop bytes reason.

Definition SkipToInitialBlock : M Reader bool :=
  r ← get_state;
  let offset_in_block := initial_offset_ r `mod` kBlockSize in
  let block_start_location := u64 (initial_offset_ r - offset_in_block) in
  let block_start_location :=
    if kBlockSize - 6 <? offset_in_block then u64 (block_start_location + kBlockSize)
    else block_start_location in
  modify (set_end block_start_location);;
  if 0 <? block_start_location then
    let '(ok, f) := Skip (Z.to_nat block_start_location) (file_ r) in
    modify (set_file f);;
    if (ok : bool) then mret true
    else ReportDrop block_start_location "skip";; mret false
  else mret true.

(** The [n] bytes from the offset [off] of a buffer: [None] when some of them are
    outside of it. *)
Definition bytes_at (off n : Z) (l : list Z) : option (list Z) :=
  if (0 <=? off) && (0 <=? n) && (off + n <=? slen l)
  then Some (take (Z.to_nat n) (drop (Z.to_nat off) l)) else None.

(** [Slice::remove_prefix], which asserts that the slice has [n] bytes. *)
Definition remove_prefix (n : Z) (l : list Z) : option (list Z) :=
  if (0 <=? n) && (n <=? slen l) then Some (drop (Z.to_nat n) l) else None.

(** One turn of the loop of [ReadPhysicalRecord]: the type of the record, and
    [*result]. A [char] is signed. The header, the bytes that the CRC covers and the
    payload are read from [buffer_]: a byte outside of it is undefined. *)
Definition phys_step (result : list Z) (_ : unit) : M Reader (unit + (Z * list Z)) :=
  r ← get_state;
  if slen (buffer_ r) <? kHeaderSize then
    if negb (eof_ r) then
      let '(ok, data, f) := Read (Z.to_nat kBlockSize) (file_ r) in
      modify (λ r, set_end (u64 (end_of_buffer_offset_ r + slen data))
                     (set_buffer data (set_file f r)));;
      if negb ok then
        modify (set_buffer []);;
        ReportDrop kBlockSize "read";;
        modify (set_eof true);;
        mret (inr (kEof, result))
      else
        (if slen data <? kBlockSize then modify (set_eof true) else mret tt);;
        mret (inl tt)
    else
      modify (set_buffer []);;
      mret (inr (kEof, result))
  else
    let header := buffer_ r in
    h4 ← lift_option (header !! 4%nat);
    h5 ← lift_option (header !! 5%nat);
    h6 ← lift_option (header !! 6%nat);
    let a := Z.land (u32 (s8 h4)) 0xff in
    let b := Z.land (u32 (s8 h5)) 0xff in
    let type := u32 (s8 h6) in
    let length := Z.lor a (u32 (Z.shiftl b 8)) in
    if slen header <? kHeaderSize + length then
      modify (set_buffer []);;
      if negb (eof_ r) then
        ReportCorruption (slen header) "bad record length";;
        mret (inr (kBadRecord, result))
      else mret (inr (kEof, result))
    else if (type =? kZeroType) && (length =? 0) then
      modify (set_buffer []);;
      mret (inr (kBadRecord, result))
    else
      crc_ok ← (if checksum_ r then
                  stored ← lift_option (DecodeFixed32 header);
                  let expected_crc := Unmask stored in
                  covered ← lift_option (bytes_at 6 (1 + length) header);
                  let actual_crc := Value 0 covered in
                  mret (actual_crc =? expected_crc)
                else mret true);
      if negb (crc_ok : bool) then
        modify (set_buffer []);;
        ReportCorruption (slen header) "checksum mismatch";;
        mret (inr (kBadRecord, result))
      else
        rest ← lift_option (remove_prefix (kHeaderSize + length) header);
        modify (set_buffer rest);;
        if u64 (end_of_buffer_offset_ r - slen rest - kHeaderSize - length) <? initial_offset_ r
        then mret (inr (kBadRecord, []))
        else
          payload ← lift_option (bytes_at kHeaderSize length header);
          mret (inr (type, payload)).

(** The buffer is filled at most once. *)
Definition ReadPhysicalRecord (result : list Z) : M Reader (Z * list Z) :=
  loop 3 (phys_step result) tt.

(** The variables of [ReadRecord]. *)
Record rec_state := MkRec {
  in_fragmented_record : bool;
  prospective_record_offset : Z;
  scratch : list Z;
  fragment : list Z;
}.

(** The cases [kFullType] and [kFirstType], when a record is not finished. *)
Definition partial_record (st : rec_state) (reason : string) : M Reader unit :=
  if in_fragmented_record st && bool_decide (scratch st ≠ []) then
    ReportCorruption (slen (scratch st)) reason
  else mret tt.

(** The [switch] of [ReadRecord]: the record, or [None] for [return false]. *)
Definition record_case (record_type physical_record_offset : Z) (st : rec_state)
    : M Reader (rec_state + option (list Z)) :=
  if record_type =? kFullType then
    partial_record st "partial record without end(1)";;
    modify (set_last physical_record_offset);;
    mret (inr (Some (fragment st)))
  else if record_type =? kFirstType then
    partial_record st "partial record without end(2)";;
    mret (inl (MkRec true physical_record_offset (fragment st) (fragment st)))
  else if record_type =? kMiddleType then
    if negb (in_fragmented_record st) then
      ReportCorruption (slen (fragment st)) "missing start of fragmented record(1)";;
      mret (inl st)
    else
      mret (inl (MkRec true (prospective_record_offset st)
                   (scratch st ++ fragment st) (fragment st)))
  else if record_type =? kLastType then
    if negb (in_fragmented_record st) then
      ReportCorruption (slen (fragment st)) "missing start of fragmented record(2)";;
      mret (inl st)
    else
      modify (set_last (prospective_record_offset st));;
      mret (inr (Some (scratch st ++ fragment st)))
  else if record_type =? kEof then mret (inr None)
  else if record_type =? kBadRecord then
    if in_fragmented_record st then
      ReportCorruption (slen (scratch st)) "error in middle of record";;
      mret (inl (MkRec false (prospective_record_offset st) [] (fragment st)))
    else mret (inl st)
  else
    ReportCorruption
      (slen (fragment st) + (if in_fragmented_record st then slen (scratch st) else 0))
      "unknown record type";;
    mret (inl (MkRec false (prospective_record_offset st) [] (fragment st))).

Definition record_step (st : rec_state) : M Reader (rec_state + option (list Z)) :=
  '(record_type, frag) ← ReadPhysicalRecord (fragment st);
  r ← get_state;
  let st := MkRec (in_fragmented_record st) (prospective_record_offset st) (scratch st) frag in
  let physical_record_offset :=
    u64 (end_of_buffer_offset_ r - slen (buffer_ r) - kHeaderSize - slen frag) in
  if resyncing_ r && (record_type =? kMiddleType) then mret (inl st)
  else if resyncing_ r && (record_type =? kLastType) then
    modify (set_resyncing false);; mret (inl st)
  else
    modify (set_resyncing false);;
    record_case record_type physical_record_offset st.

(** [fuel] bounds the number of physical records that are read. *)
Definition ReadRecord (fuel : Z) : M Reader (option (list Z)) :=
  r ← get_state;
  ok ← (if last_record_offset_ r <? initial_offset_ r then SkipToInitialBlock else mret true);
  if (ok : bool) then loop fuel record_step (MkRec false 0 [] []) else mret None.

Definition LastRecordOffset : M Reader Z := r ← get_state; mret (last_record_offset_ r).
End reader.
Arguments Reader : clear implicits.
