(* ===== verification/LdbLogSpec.v ===== *)
(** * leveldb: what is written to the log is read back

    The bytes of a record, as a relation [frags] that the writer implements and the
    reader inverts: a whole log is read back, a log that is cut anywhere gives the
    records that are complete, without a report of corruption. *)
From S2P Require Import Prelude LdbCoding LdbCrc LdbLog.

(** ** Files that do what they are asked *)

Class ReliableWritable (F : Type) `{WritableFile F} := {
  written : F → list Z;
  Append_reliable d f : ∃ f', Append d f = (true, f') ∧ written f' = written f ++ d;
  Flush_reliable f : ∃ f', Flush f = (true, f') ∧ written f' = written f;
}.
Class ReliableSequential (F : Type) `{SequentialFile F} := {
  unread : F → list Z;
  Read_reliable n f : ∃ f', Read n f = (true, take n (unread f), f') ∧ unread f' = drop n (unread f);
  Skip_reliable n f : ∃ f', Skip n f = (true, f') ∧ unread f' = drop n (unread f);
}.

(** Files in memory. *)
#[global] Instance mem_writable : WritableFile (list Z) :=
  {| Append d f := (true, f ++ d); Flush f := (true, f) |}.
#[global] Instance mem_writable_ok : ReliableWritable (list Z).
Proof. refine {| written f := f |}; by eauto. Defined.
#[global] Instance mem_sequential : SequentialFile (list Z) :=
  {| Read n f := (true, take n f, drop n f); Skip n f := (true, drop n f) |}.
#[global] Instance mem_sequential_ok : ReliableSequential (list Z).
Proof. refine {| unread f := f |}; by eauto. Defined.

(** ** The bytes of a record *)

(** A physical record. *)
Definition header_of (t : Z) (d : list Z) : list Z :=
  EncodeFixed32 (Mask (Value 0 (t :: d))) ++
  [u8 (Z.land (slen d) 0xff); u8 (Z.shiftr (slen d) 8); u8 t].
Definition phys (t : Z) (d : list Z) : list Z := header_of t d ++ d.

(** The first offset that has room for a header, and what is skipped. *)
Definition start_of (off : Z) : Z := if kBlockSize - off <? kHeaderSize then 0 else off.
Definition pad_of (off : Z) : list Z :=
  if kBlockSize - off <? kHeaderSize then replicate (Z.to_nat (kBlockSize - off)) 0 else [].

(** [frags off begin d bs off']: from the offset [off] of a block, [bs] are the bytes
    of the record [d], or of the rest of it when [begin] is false, up to [off']. *)
Inductive frags : Z → bool → list Z → list Z → Z → Prop :=
  | frags_end off begin d :
      start_of off + kHeaderSize + slen d ≤ kBlockSize →
      frags off begin d (pad_of off ++ phys (if begin then kFullType else kLastType) d)
        (start_of off + kHeaderSize + slen d)
  | frags_more off begin d1 d2 bs off' :
      start_of off + kHeaderSize + slen d1 = kBlockSize → d2 ≠ [] →
      frags kBlockSize false d2 bs off' →
      frags off begin (d1 ++ d2)
        (pad_of off ++ phys (if begin then kFirstType else kMiddleType) d1 ++ bs) off'.

(** The bytes of some records. *)
Inductive log_bytes : Z → list (list Z) → list Z → Z → Prop :=
  | log_nil off : log_bytes off [] [] off
  | log_cons off d ds bs off1 bs' off' :
      frags off true d bs off1 → log_bytes off1 ds bs' off' →
      log_bytes off (d :: ds) (bs ++ bs') off'.

Lemma slen_app l1 l2 : slen (l1 ++ l2) = slen l1 + slen l2.
Proof. unfold slen. rewrite length_app. lia. Qed.
Lemma slen_nonneg l : 0 ≤ slen l.
Proof. unfold slen. lia. Qed.
Lemma length_header_of t d : length (header_of t d) = 7%nat.
Proof. unfold header_of, EncodeFixed32. by rewrite length_app, length_le_split. Qed.
Lemma slen_phys t d : slen (phys t d) = kHeaderSize + slen d.
Proof. unfold phys. rewrite slen_app. unfold slen at 1. by rewrite length_header_of. Qed.

Lemma start_of_range off : 0 ≤ off ≤ kBlockSize → 0 ≤ start_of off ≤ kBlockSize - kHeaderSize.
Proof.
  unfold start_of. intros Ho. destruct (Z.ltb_spec (kBlockSize - off) kHeaderSize);
    unfold kBlockSize, kHeaderSize in *; lia.
Qed.

Lemma frags_offset off begin d bs off' :
  frags off begin d bs off' → 0 ≤ off ≤ kBlockSize → 0 ≤ off' ≤ kBlockSize.
Proof.
  induction 1 as [off begin d Hb|off begin d1 d2 bs off' Hb Hd Hf IH]; intros Ho.
  - pose proof (slen_nonneg d). pose proof (start_of_range off Ho). unfold kHeaderSize in *. lia.
  - apply IH. unfold kBlockSize. lia.
Qed.

(** The start of a block is the end of the one before. *)
Lemma frags_from_0 begin d bs off' : frags 0 begin d bs off' → frags kBlockSize begin d bs off'.
Proof.
  intros Hf. inversion Hf as [? ? ? Hb|? ? ? ? ? ? Hb Hd Hf']; subst.
  - by apply (frags_end kBlockSize).
  - by apply (frags_more kBlockSize).
Qed.

Lemma frags_slen off begin d bs off' : frags off begin d bs off' → kHeaderSize ≤ slen bs.
Proof.
  destruct 1 as [off begin d Hb|off begin d1 d2 bs off' Hb Hd Hf]; rewrite !slen_app, slen_phys.
  - pose proof (slen_nonneg (pad_of off)). pose proof (slen_nonneg d). lia.
  - pose proof (slen_nonneg (pad_of off)). pose proof (slen_nonneg d1). pose proof (slen_nonneg bs). lia.
Qed.

Lemma log_bytes_offset off ds bs off' :
  log_bytes off ds bs off' → 0 ≤ off ≤ kBlockSize → 0 ≤ off' ≤ kBlockSize.
Proof. induction 1 as [|off d ds bs off1 bs' off' Hf Hl IH]; [done|]. intros Ho. by eapply IH, frags_offset. Qed.

Lemma log_from_0 ds bs off' :
  log_bytes 0 ds bs off' →
  ∃ off, log_bytes kBlockSize ds bs off ∧
    ∀ d b o, frags off' true d b o → frags off true d b o.
Proof.
  inversion 1 as [|? d ds' b1 off1 b2 ? Hf Hl]; subst.
  - exists kBlockSize. split; [constructor|]. intros d b o. apply frags_from_0.
  - exists off'. split; [|done]. econstructor; [by apply frags_from_0|done].
Qed.

(** ** The writer *)

Section writer.
Context {F : Type} `{ReliableWritable F}.
Implicit Types w : Writer F.

(** The writer has appended bytes and moved. *)
Definition appended w (bs : list Z) (off : Z) w' : Prop :=
  written (dest_ w') = written (dest_ w) ++ bs ∧ block_offset_ w' = off.

Lemma run_dest_Append w d :
  ∃ w', dest_Append d w = Done (true, w') ∧ appended w d (block_offset_ w) w'.
Proof.
  destruct (Append_reliable d (dest_ w)) as (f & E & Ef). unfold dest_Append, get_state, put_state.
  run_unfold. rewrite E. by eexists.
Qed.

Lemma run_dest_Flush w :
  ∃ w', dest_Flush w = Done (true, w') ∧ appended w [] (block_offset_ w) w'.
Proof.
  destruct (Flush_reliable (dest_ w)) as (f & E & Ef). unfold dest_Flush, get_state, put_state.
  run_unfold. rewrite E. eexists. split; [done|]. split; [|done]. by rewrite app_nil_r.
Qed.

Lemma crc_of_record t d :
  is_byte t → Forall is_byte d → Extend 0 (type_crc_ t) d = Value 0 (t :: d).
Proof.
  intros Ht Hd. unfold type_crc_, Value.
  assert (Forall is_byte [t]) as Ht1 by (by apply Forall_singleton).
  rewrite (Extend_crc_ref _ _ [t]), (Extend_crc_ref _ _ (t :: d)) by (done || lia || by constructor).
  rewrite Extend_crc_ref by (done || by apply crc_ref_range).
  by rewrite <-crc_ref_app.
Qed.

Lemma run_EmitPhysicalRecord w t d :
  is_byte t → Forall is_byte d → 0 ≤ block_offset_ w →
  block_offset_ w + kHeaderSize + slen d ≤ kBlockSize →
  ∃ w', EmitPhysicalRecord t d w = Done (true, w') ∧
    appended w (phys t d) (block_offset_ w + kHeaderSize + slen d) w'.
Proof.
  intros Ht Hd Ho Hb. unfold EmitPhysicalRecord. cbv zeta.
  rewrite (crc_of_record t d Ht Hd). fold (header_of t d).
  destruct (run_dest_Append w (header_of t d)) as (w1 & E1 & W1 & _).
  destruct (run_dest_Append w1 d) as (w2 & E2 & W2 & _).
  destruct (run_dest_Flush w2) as (w3 & E3 & W3 & _).
  unfold get_state at 1, assert_. run_unfold.
  rewrite (proj2 (Z.leb_le (slen d) 0xffff)) by (unfold kBlockSize, kHeaderSize in *; lia).
  run_unfold. rewrite (proj2 (Z.leb_le _ kBlockSize)) by done.
  run_with E1. rewrite E2, E3. unfold set_block_offset, get_state, put_state. run_unfold.
  eexists. split; [done|]. split; [|done]. simpl.
  rewrite W3, W2, W1, app_nil_r. unfold phys. by rewrite <-!app_assoc.
Qed.

(** The trailer of a block. *)
Lemma run_pad w :
  0 ≤ block_offset_ w ≤ kBlockSize →
  ∃ w', (if kBlockSize - block_offset_ w <? kHeaderSize then
           (if 0 <? kBlockSize - block_offset_ w
            then dest_Append (take (Z.to_nat (kBlockSize - block_offset_ w)) [0; 0; 0; 0; 0; 0])
            else mret true);; set_block_offset 0
         else mret tt) w = Done (tt, w') ∧
    appended w (pad_of (block_offset_ w)) (start_of (block_offset_ w)) w'.
Proof.
  intros Ho. unfold pad_of, start_of.
  destruct (Z.ltb_spec (kBlockSize - block_offset_ w) kHeaderSize) as [Hp|Hp].
  2: { exists w. split; [done|]. split; [by rewrite app_nil_r|done]. }
  set (n := kBlockSize - block_offset_ w) in *.
  assert (take (Z.to_nat n) [0; 0; 0; 0; 0; 0] = replicate (Z.to_nat n) 0) as ->.
  { change [0; 0; 0; 0; 0; 0] with (replicate 6 0). rewrite take_replicate. f_equal.
    unfold kHeaderSize in Hp. lia. }
  destruct (Z.ltb_spec 0 n).
  - destruct (run_dest_Append w (replicate (Z.to_nat n) 0)) as (w1 & E1 & W1 & _).
    run_with E1. unfold set_block_offset, get_state, put_state. run_unfold. by eexists.
  - unfold set_block_offset, get_state, put_state. run_unfold. eexists. split; [done|].
    replace (Z.to_nat n) with 0%nat by lia. split; [by rewrite app_nil_r|done].
Qed.

Definition frag_type (begin end_ : bool) : Z :=
  if begin && end_ then kFullType else if begin then kFirstType
  else if end_ then kLastType else kMiddleType.

Lemma frag_type_end begin : frag_type begin true = if begin then kFullType else kLastType.
Proof. by destruct begin. Qed.
Lemma frag_type_more begin : frag_type begin false = if begin then kFirstType else kMiddleType.
Proof. by destruct begin. Qed.

Lemma run_add_step w d begin :
  Forall is_byte d → 0 ≤ block_offset_ w ≤ kBlockSize →
  let o := start_of (block_offset_ w) in
  let avail := kBlockSize - o - kHeaderSize in
  let n := if slen d <? avail then slen d else avail in
  ∃ w', add_step (d, begin) w =
      Done (if 0 <? slen (drop (Z.to_nat n) d) then inl (drop (Z.to_nat n) d, false) else inr true, w') ∧
    appended w (pad_of (block_offset_ w) ++
      phys (frag_type begin (slen d =? n)) (take (Z.to_nat n) d)) (o + kHeaderSize + n) w'.
Proof.
  intros Hd Ho. cbv zeta. pose proof (start_of_range _ Ho) as Hs.
  destruct (run_pad w Ho) as (w1 & E1 & W1 & O1).
  unfold add_step. rewrite bind_get. cbv zeta. rewrite bind_assert by (apply Z.leb_le; lia).
  bind_with E1. rewrite bind_get, O1.
  rewrite bind_assert by (apply Z.leb_le; unfold kBlockSize, kHeaderSize in *; lia). set (o := start_of (block_offset_ w)) in *.
  set (n := if slen d <? _ then _ else _).
  assert (0 ≤ n ≤ kBlockSize - o - kHeaderSize ∧ n ≤ slen d) as [Hn Hnd].
  { unfold n. pose proof (slen_nonneg d). destruct (Z.ltb_spec (slen d) (kBlockSize - o - kHeaderSize)); lia. }
  assert (slen (take (Z.to_nat n) d) = n) as Hlen.
  { unfold slen in *. rewrite length_take. lia. }
  fold (frag_type begin (slen d =? n)).
  destruct (run_EmitPhysicalRecord w1 (frag_type begin (slen d =? n)) (take (Z.to_nat n) d))
    as (w2 & E2 & W2 & O2).
  - unfold frag_type, is_byte. by destruct begin, (slen d =? n).
  - by apply Forall_take.
  - lia.
  - rewrite O1, Hlen. lia.
  - bind_with E2. eexists. split; [done|].
    split; [by rewrite W2, W1, app_assoc|]. by rewrite O2, O1, Hlen.
Qed.

(** The turns left: a fragment without bytes is followed by one with some. *)
Definition turns (off : Z) (d : list Z) : Z :=
  2 * slen d + (if start_of off =? kBlockSize - kHeaderSize then 1 else 0) + 1.

Lemma turns_range off d : 0 < turns off d ≤ 2 * slen d + 2.
Proof. unfold turns. pose proof (slen_nonneg d). destruct (start_of off =? _); lia. Qed.

Lemma run_AddRecord_loop : ∀ (m : nat) w d begin fuel,
  Forall is_byte d → 0 ≤ block_offset_ w ≤ kBlockSize → turns (block_offset_ w) d ≤ Z.of_nat m →
  turns (block_offset_ w) d < fuel →
  ∃ w' bs, loop fuel add_step (d, begin) w = Done (true, w') ∧
    frags (block_offset_ w) begin d bs (block_offset_ w') ∧ appended w bs (block_offset_ w') w'.
Proof.
  induction m as [|m IH]; intros w d begin fuel Hd Ho Hm Hfuel.
  { pose proof (turns_range (block_offset_ w) d). lia. }
  destruct (run_add_step w d begin Hd Ho) as (w1 & E1 & W1 & O1). cbv zeta in *.
  pose proof (start_of_range _ Ho) as Hs. set (o := start_of (block_offset_ w)) in *.
  pose proof (slen_nonneg d) as Hd0.
  pose proof (turns_range (block_offset_ w) d) as Ht.
  destruct (Z.ltb_spec (slen d) (kBlockSize - o - kHeaderSize)) as [Hin|Hout].
  - (* the record ends in this block *)
    assert (drop (Z.to_nat (slen d)) d = []) as Ed by (apply drop_ge; unfold slen; lia).
    assert (take (Z.to_nat (slen d)) d = d) as Et by (apply take_ge; unfold slen; lia).
    rewrite Ed, Et, Z.eqb_refl, frag_type_end in *. change (0 <? slen []) with false in E1. cbv iota in E1.
    exists w1, (pad_of (block_offset_ w) ++ phys (if begin then kFullType else kLastType) d).
    split_and!; [apply loop_inr; [lia|done]| |split; [done|done]].
    rewrite O1. apply frags_end. fold o. lia.
  - set (n := kBlockSize - o - kHeaderSize) in *.
    assert (n ≤ slen d) as Hn by lia. clear Hout.
    set (d1 := take (Z.to_nat n) d) in *. set (d2 := drop (Z.to_nat n) d) in *.
    assert (slen d1 = n) as Hd1 by (unfold d1, slen in *; rewrite length_take; lia).
    assert (slen d2 = slen d - n) as Hd2 by (unfold d2, slen in *; rewrite length_drop; lia).
    destruct (Z.ltb_spec 0 (slen d2)) as [Hmore|Hend].
    + assert ((slen d =? n) = false) as Eb by (apply Z.eqb_neq; lia). rewrite Eb, frag_type_more in W1.
      assert (block_offset_ w1 = kBlockSize) as OB by (rewrite O1; unfold n; lia).
      assert (turns (block_offset_ w1) d2 < turns (block_offset_ w) d) as Hlt.
      { rewrite OB. unfold turns. fold o. rewrite Hd2.
        change (start_of kBlockSize =? kBlockSize - kHeaderSize) with false.
        destruct (Z.eqb_spec o (kBlockSize - kHeaderSize)); unfold n in *; lia. }
      destruct (IH w1 d2 false (fuel - 1)) as (w2 & bs & E2 & Hf & W2 & _);
        [by apply Forall_drop|unfold kBlockSize in *; lia|lia|lia|].
      pose proof (turns_range (block_offset_ w1) d2).
      exists w2, (pad_of (block_offset_ w) ++ phys (if begin then kFirstType else kMiddleType) d1 ++ bs).
      split_and!; [rewrite (loop_inl fuel _ _ _ _ _ ltac:(lia) E1); done| |split; [|done]].
      * rewrite <-(take_drop (Z.to_nat n) d). fold d1 d2.
        rewrite OB in Hf.
        assert (d2 ≠ []) by (intros E; rewrite E in Hmore; by apply Z.lt_irrefl in Hmore).
        apply frags_more; [fold o; unfold n in *; lia|done|done].
      * rewrite W2, W1. by rewrite <-!app_assoc.
    + assert (d2 = []) as E2 by (destruct d2; [done|unfold slen in Hend; simpl in Hend; lia]).
      assert (slen d = n) as En by (rewrite E2 in Hd2; unfold slen at 1 in Hd2; simpl in Hd2; lia).
      assert (d1 = d) as E1' by (unfold d1; apply take_ge; unfold slen in En; lia).
      rewrite En, Z.eqb_refl, E1', frag_type_end in W1.
      exists w1, (pad_of (block_offset_ w) ++ phys (if begin then kFullType else kLastType) d).
      split_and!; [apply loop_inr; [lia|done]| |split; [done|done]].
      rewrite O1, <-En. apply frags_end. fold o. unfold n in *; lia.
Qed.

Lemma run_AddRecord w d :
  Forall is_byte d → 0 ≤ block_offset_ w ≤ kBlockSize →
  ∃ w' bs, AddRecord d w = Done (true, w') ∧
    frags (block_offset_ w) true d bs (block_offset_ w') ∧ appended w bs (block_offset_ w') w'.
Proof.
  intros Hd Ho. pose proof (turns_range (block_offset_ w) d).
  apply (run_AddRecord_loop (Z.to_nat (turns (block_offset_ w) d))); [done|done|lia|lia].
Qed.

(** Several records. *)
Fixpoint add_records (ds : list (list Z)) : M (Writer F) bool :=
  match ds with
  | [] => mret true
  | d :: ds' => s ← AddRecord d; if (s : bool) then add_records ds' else mret s
  end.

Lemma run_add_records ds : ∀ w,
  Forall (Forall is_byte) ds → 0 ≤ block_offset_ w ≤ kBlockSize →
  ∃ w' bs, add_records ds w = Done (true, w') ∧
    log_bytes (block_offset_ w) ds bs (block_offset_ w') ∧ written (dest_ w') = written (dest_ w) ++ bs.
Proof.
  induction ds as [|d ds IH]; intros w Hds Ho.
  { exists w, []. split_and!; [done|constructor|by rewrite app_nil_r]. }
  apply Forall_cons in Hds as [Hd Hds].
  destruct (run_AddRecord w d Hd Ho) as (w1 & b1 & E1 & Hf & W1 & _).
  destruct (IH w1 Hds (frags_offset _ _ _ _ _ Hf Ho)) as (w2 & b2 & E2 & Hl & W2).
  exists w2, (b1 ++ b2). split_and!; [cbn [add_records]; by run_with E1|by econstructor|].
  by rewrite W2, W1, app_assoc.
Qed.
End writer.
