(* ===== verification/LdbLogRead.v ===== *)
(** * leveldb: reading the log back

    The reader on the bytes that [frags] describes: a record is read and the reader
    is at the next one; bytes that stop in the middle of a record are the end of the
    file, without a report. *)
From S2P Require Import Prelude LdbCoding LdbCrc LdbLog LdbLogSpec.

(** ** Headers *)

Lemma s8_byte b : is_byte b → Z.land (u32 (s8 b)) 0xff = b.
Proof.
  intros Hb. apply Z.eqb_eq. apply (byte_forall (λ b, Z.land (u32 (s8 b)) 0xff =? b)); [|done].
  vm_compute. reflexivity.
Qed.

(** A prefix of two parts stops in the first or in the second. *)
Lemma prefix_split {A} (p a b : list A) :
  p `prefix_of` a ++ b → (p `prefix_of` a ∧ p ≠ a) ∨ ∃ q, p = a ++ q ∧ q `prefix_of` b.
Proof.
  intros Hp. destruct (prefix_weak_total p a (a ++ b)) as [Ha|[q ->]]; [done|by apply prefix_app_r| |].
  - destruct Ha as [[|x k] ->].
    + right. exists []. rewrite !app_nil_r. split; [done|apply prefix_nil].
    + left. split; [by apply prefix_app_r|]. intros E.
      apply (f_equal length) in E. rewrite length_app in E. simpl in E. lia.
  - right. exists q. split; [done|]. by apply prefix_app_inv in Hp.
Qed.

Lemma prefix_strict_slen (p l : list Z) : p `prefix_of` l → p ≠ l → slen p < slen l.
Proof.
  intros [[|x k] ->] Hne; [by rewrite app_nil_r in Hne|].
  rewrite slen_app. unfold slen. simpl. lia.
Qed.

Definition record_type (t : Z) : Prop := 1 ≤ t ≤ 4.

(** The length that the two bytes of a header give. *)
Lemma header_length n :
  0 ≤ n ≤ 0xffff →
  Z.lor (Z.land (u32 (s8 (u8 (Z.land n 0xff)))) 0xff)
    (u32 (Z.shiftl (Z.land (u32 (s8 (u8 (Z.shiftr n 8)))) 0xff) 8)) = n.
Proof.
  intros Hn. rewrite !s8_byte by (apply (wrapu_range 8); lia).
  rewrite land_FF. rewrite Z.shiftr_div_pow2 by lia. change (2 ^ 8) with 256.
  rewrite !(wrapu_small 8) by (pow2; zdiv).
  rewrite lor_wrapu_shiftl by (change (2 ^ 8) with 256; zdiv). change (2 ^ 8) with 256.
  rewrite wrapu_small by (pow2; zdiv). zdiv.
Qed.

Section reader.
Context {F : Type} `{ReliableSequential F}.
Implicit Types r : Reader F.

(** The reader is at the offset [off] of a block, and [rest] is what follows. *)
Record at_pos (off : Z) (rest : list Z) r : Prop := {
  pos_range : 0 ≤ off ≤ kBlockSize;
  pos_buffer : buffer_ r = take (Z.to_nat (kBlockSize - off)) rest;
  pos_file : unread (file_ r) = drop (Z.to_nat (kBlockSize - off)) rest;
  pos_eof : eof_ r = bool_decide (slen rest < kBlockSize - off);
  pos_initial : initial_offset_ r = 0;
  pos_resyncing : resyncing_ r = false;
  pos_last : 0 ≤ last_record_offset_ r;
}.

(** Nothing was reported meanwhile. *)
Definition quiet r r' : Prop := reports_ r' = reports_ r.

(** ** Physical records *)

Lemma at_pos_buffer off t d rest r :
  at_pos off (phys t d ++ rest) r → off + kHeaderSize + slen d ≤ kBlockSize →
  buffer_ r = phys t d ++ take (Z.to_nat (kBlockSize - (off + kHeaderSize + slen d))) rest.
Proof.
  intros Hr Hb. rewrite (pos_buffer _ _ _ Hr). pose proof (slen_phys t d) as Hl.
  rewrite take_app_ge by (unfold slen in *; lia). f_equal. f_equal. unfold slen in *. lia.
Qed.

(** The bytes of a header, in a buffer that has at least that. *)
Lemma header_bytes t d x :
  let h := header_of t d ++ x in
  h !! 4%nat = Some (u8 (Z.land (slen d) 0xff)) ∧ h !! 5%nat = Some (u8 (Z.shiftr (slen d) 8)) ∧
  h !! 6%nat = Some (u8 t) ∧ DecodeFixed32 h = Some (Mask (Value 0 (t :: d))) ∧
  drop 6 h = u8 t :: x ∧ drop 7 h = x.
Proof.
  cbv zeta. unfold header_of. rewrite <-app_assoc.
  pose proof (length_le_split 4 (Mask (Value 0 (t :: d)))) as Hl.
  split_and!.
  5-6: unfold EncodeFixed32; by rewrite drop_app_ge, Hl by lia.
  4: apply fixed32_get_put, Mask_range.
  all: unfold EncodeFixed32; by rewrite lookup_app_r, Hl by lia.
Qed.

Lemma u8_type t : record_type t → u8 t = t.
Proof. unfold record_type. intros. apply wrapu_small. pow2. lia. Qed.
Lemma u32_s8_type t : record_type t → u32 (s8 t) = t.
Proof.
  unfold record_type. intros Ht.
  rewrite wraps_small, wrapu_small by (try pow2; lia). done.
Qed.

(** Bytes that the buffer has. *)
Lemma bytes_at_in off n l :
  0 ≤ off → 0 ≤ n → off + n ≤ slen l →
  bytes_at off n l = Some (take (Z.to_nat n) (drop (Z.to_nat off) l)).
Proof.
  intros ???. unfold bytes_at.
  by rewrite !(proj2 (Z.leb_le _ _)) by lia.
Qed.
Lemma remove_prefix_in n l : 0 ≤ n ≤ slen l → remove_prefix n l = Some (drop (Z.to_nat n) l).
Proof. intros ?. unfold remove_prefix. by rewrite !(proj2 (Z.leb_le _ _)) by lia. Qed.

Lemma phys_step_record off t d rest frag r :
  at_pos off (phys t d ++ rest) r → off + kHeaderSize + slen d ≤ kBlockSize →
  record_type t → Forall is_byte d →
  ∃ r', phys_step frag tt r = Done (inr (t, d), r') ∧
    at_pos (off + kHeaderSize + slen d) rest r' ∧ quiet r r'.
Proof.
  intros Hr Hb Ht Hd. pose proof (at_pos_buffer off t d rest r Hr Hb) as Eb.
  set (x := take _ rest) in Eb. unfold phys in Eb. rewrite <-app_assoc in Eb.
  destruct (header_bytes t d (d ++ x)) as (H4 & H5 & H6 & Hc & D6 & D7).
  rewrite <-Eb in H4, H5, H6, Hc, D6, D7.
  pose proof (slen_nonneg d) as Hd0.
  assert (slen (buffer_ r) = kHeaderSize + slen d + slen x) as Hl.
  { rewrite Eb, !slen_app. unfold slen at 1. rewrite length_header_of. unfold kHeaderSize. lia. }
  assert (0 ≤ slen x) by apply slen_nonneg.
  unfold phys_step. rewrite bind_get, (proj2 (Z.ltb_ge (slen (buffer_ r)) kHeaderSize)) by lia.
  rewrite (bind_lift _ _ _ _ H4), (bind_lift _ _ _ _ H5), (bind_lift _ _ _ _ H6). cbv zeta.
  rewrite header_length by (pose proof (pos_range _ _ _ Hr); unfold kBlockSize, kHeaderSize in *; lia).
  rewrite u8_type, u32_s8_type by done.
  rewrite (proj2 (Z.ltb_ge (slen (buffer_ r)) _)) by lia.
  rewrite (proj2 (Z.eqb_neq t kZeroType)) by (unfold record_type, kZeroType in *; lia).
  cbn [andb].
  assert ((if checksum_ r then
      stored ← lift_option (DecodeFixed32 (buffer_ r));
      let expected_crc := Unmask stored in
      covered ← lift_option (bytes_at 6 (1 + slen d) (buffer_ r));
      let actual_crc := Value 0 covered in
      mret (actual_crc =? expected_crc) else mret true) r = Done (true, r)) as Ecrc.
  { destruct (checksum_ r); [|done]. rewrite (bind_lift _ _ _ _ Hc). cbv zeta.
    rewrite (bind_lift _ _ _ _ (bytes_at_in 6 (1 + slen d) (buffer_ r) ltac:(lia) ltac:(lia)
      ltac:(unfold kHeaderSize in *; lia))). change (Z.to_nat 6) with 6%nat.
    rewrite D6, u8_type by done.
    assert (take (Z.to_nat (1 + slen d)) (t :: d ++ x) = t :: d) as ->.
    { replace (Z.to_nat (1 + slen d)) with (S (length d)) by (unfold slen; lia).
      cbn [take]. by rewrite take_app_length. }
    assert (Forall is_byte (t :: d)) as Htd.
    { constructor; [unfold record_type, is_byte in *; lia|done]. }
    rewrite Unmask_Mask; [by rewrite Z.eqb_refl|]. unfold Value.
    rewrite Extend_crc_ref by (done || lia). apply crc_ref_range; [done|lia]. }
  cbv zeta in Ecrc. bind_with Ecrc. cbn [negb].
  assert (drop (Z.to_nat (kHeaderSize + slen d)) (buffer_ r) = x) as Edrop.
  { replace (Z.to_nat (kHeaderSize + slen d)) with (7 + length d)%nat
      by (unfold kHeaderSize, slen; lia).
    by rewrite <-drop_drop, D7, drop_app_length. }
  rewrite (bind_lift _ _ _ _ (remove_prefix_in (kHeaderSize + slen d) (buffer_ r)
    ltac:(unfold kHeaderSize in *; lia))), Edrop.
  unfold modify, get_state, put_state. run_unfold.
  rewrite (pos_initial _ _ _ Hr).
  rewrite (proj2 (Z.ltb_ge _ 0)) by (apply (wrapu_range 64); lia).
  rewrite bytes_at_in by (unfold kHeaderSize in *; lia). unfold lift_option. cbn.
  change (Z.to_nat kHeaderSize) with 7%nat. rewrite D7.
  rewrite take_app_length' by (unfold slen; lia).
  eexists. split; [done|]. split; [|done].
  destruct Hr as [Hr1 Hr2 Hr3 Hr4 Hr5 Hr6 Hr7]. pose proof (slen_phys t d) as Hp.
  constructor; simpl; [unfold kHeaderSize in *; lia|done| | |done|done|done].
  - rewrite Hr3, drop_app_ge by (unfold slen in *; lia). f_equal. unfold slen in *. lia.
  - rewrite Hr4. apply bool_decide_ext. rewrite slen_app. lia.
Qed.

(** The rest of a block that has no room for a header. *)
Lemma phys_step_pad off rest frag r :
  at_pos off (replicate (Z.to_nat (kBlockSize - off)) 0 ++ rest) r →
  kBlockSize - off < kHeaderSize →
  ∃ r', phys_step frag tt r = Done (inl tt, r') ∧ at_pos 0 rest r' ∧ quiet r r'.
Proof.
  intros [Hr1 Hr2 Hr3 Hr4 Hr5 Hr6 Hr7] Hoff.
  rewrite take_app_length' in Hr2 by (by rewrite length_replicate).
  rewrite drop_app_length' in Hr3 by (by rewrite length_replicate).
  rewrite bool_decide_eq_false_2 in Hr4.
  2: { rewrite slen_app. unfold slen at 1. rewrite length_replicate. pose proof (slen_nonneg rest). lia. }
  destruct (Read_reliable (Z.to_nat kBlockSize) (file_ r)) as (f & E & Ef).
  rewrite Hr3 in E, Ef. unfold phys_step. rewrite bind_get.
  rewrite (proj2 (Z.ltb_lt (slen (buffer_ r)) kHeaderSize)).
  2: { rewrite Hr2. unfold slen. rewrite length_replicate. lia. }
  rewrite Hr4, E. cbn [negb]. set (data := take (Z.to_nat kBlockSize) rest).
  assert (slen data = Z.min kBlockSize (slen rest)) as Hl.
  { unfold data, slen. rewrite length_take. lia. }
  unfold modify, get_state, put_state. run_unfold.
  destruct (Z.ltb_spec (slen data) kBlockSize) as [Hs|Hs]; eexists; (split; [done|]); (split; [|done]);
    constructor; simpl; rewrite ?Z.sub_0_r; try done; try (unfold kBlockSize; lia).
  - rewrite bool_decide_eq_true_2 by lia. done.
  - rewrite bool_decide_eq_false_2 by lia. done.
Qed.

(** The end of the file. *)
Lemma phys_step_eof off t d p frag r :
  at_pos off p r → off + kHeaderSize + slen d ≤ kBlockSize →
  record_type t → p `prefix_of` phys t d → p ≠ phys t d →
  ∃ r', phys_step frag tt r = Done (inr (kEof, frag), r') ∧ quiet r r'.
Proof.
  intros Hr Hb Ht Hp Hne. pose proof (slen_phys t d) as Hl.
  assert (slen p < kHeaderSize + slen d) as Hlt.
  { rewrite <-Hl. by apply prefix_strict_slen. }
  pose proof (slen_nonneg d) as Hd0. pose proof (slen_nonneg p) as Hp0.
  assert (buffer_ r = p) as Ebuf by (rewrite (pos_buffer _ _ _ Hr); apply take_ge; unfold slen in *; lia).
  assert (eof_ r = true) as Eeof by (rewrite (pos_eof _ _ _ Hr); apply bool_decide_eq_true_2; lia).
  unfold phys_step. rewrite bind_get, Ebuf, Eeof. cbn [negb].
  destruct (Z.ltb_spec (slen p) kHeaderSize) as [Hs|Hs].
  { unfold modify, get_state, put_state. run_unfold. by eexists. }
  (* the header is there *)
  destruct Hp as [k Hk]. unfold phys in Hk.
  assert (p = header_of t d ++ drop 7 p) as Eh.
  { rewrite <-(take_drop 7 p) at 1. f_equal.
    pose proof (f_equal (take 7) Hk) as E.
    rewrite take_app_le in E by (by rewrite length_header_of).
    rewrite (take_ge (header_of t d)) in E by (by rewrite length_header_of).
    rewrite take_app_le in E; [by symmetry|]. unfold slen, kHeaderSize in Hs. lia. }
  destruct (header_bytes t d (drop 7 p)) as (H4 & H5 & H6 & _).
  rewrite <-Eh in H4, H5, H6.
  rewrite (bind_lift _ _ _ _ H4), (bind_lift _ _ _ _ H5), (bind_lift _ _ _ _ H6). cbv zeta.
  rewrite header_length by (pose proof (pos_range _ _ _ Hr); unfold kBlockSize, kHeaderSize in *; lia).
  rewrite (proj2 (Z.ltb_lt (slen p) _)) by lia.
  unfold modify, get_state, put_state. run_unfold. by eexists.
Qed.
(** The end of the file in a header, or in the rest of a block. *)
Lemma phys_step_short off p frag r :
  at_pos off p r → slen p < kBlockSize - off → slen p < kHeaderSize →
  ∃ r', phys_step frag tt r = Done (inr (kEof, frag), r') ∧ quiet r r'.
Proof.
  intros Hr Hb Hs.
  assert (buffer_ r = p) as Ebuf.
  { rewrite (pos_buffer _ _ _ Hr). apply take_ge. unfold slen in *. lia. }
  assert (eof_ r = true) as Eeof by (rewrite (pos_eof _ _ _ Hr); by apply bool_decide_eq_true_2).
  unfold phys_step. rewrite bind_get, Ebuf, Eeof, (proj2 (Z.ltb_lt _ _) Hs). cbn [negb].
  unfold modify, get_state, put_state. run_unfold. by eexists.
Qed.

Lemma run_phys_record off t d rest frag r :
  at_pos off (pad_of off ++ phys t d ++ rest) r → start_of off + kHeaderSize + slen d ≤ kBlockSize →
  record_type t → Forall is_byte d →
  ∃ r', ReadPhysicalRecord frag r = Done ((t, d), r') ∧
    at_pos (start_of off + kHeaderSize + slen d) rest r' ∧ quiet r r'.
Proof.
  unfold pad_of, start_of, ReadPhysicalRecord. intros Hr Hb Ht Hd.
  destruct (Z.ltb_spec (kBlockSize - off) kHeaderSize) as [Hp|Hp].
  - destruct (phys_step_pad off (phys t d ++ rest) frag r Hr Hp) as (r1 & E1 & Hr1 & Q1).
    destruct (phys_step_record 0 t d rest frag r1 Hr1 Hb Ht Hd) as (r2 & E2 & Hr2 & Q2).
    exists r2. split_and!; [|done|by etransitivity].
    rewrite (loop_inl 3 _ _ _ _ _ ltac:(lia) E1). by apply loop_inr.
  - destruct (phys_step_record off t d rest frag r Hr Hb Ht Hd) as (r2 & E2 & Hr2 & Q2).
    exists r2. split_and!; [by apply loop_inr|done|done].
Qed.

Lemma run_phys_eof off t d p frag r :
  at_pos off p r → start_of off + kHeaderSize + slen d ≤ kBlockSize → record_type t →
  p `prefix_of` pad_of off ++ phys t d → p ≠ pad_of off ++ phys t d →
  ∃ r', ReadPhysicalRecord frag r = Done ((kEof, frag), r') ∧ quiet r r'.
Proof.
  unfold pad_of, start_of, ReadPhysicalRecord. intros Hr Hb Ht Hp Hne.
  destruct (Z.ltb_spec (kBlockSize - off) kHeaderSize) as [Hpad|Hpad].
  2: { destruct (phys_step_eof off t d p frag r Hr Hb Ht Hp Hne) as (r' & E & Q).
       exists r'. split; [by apply loop_inr|done]. }
  set (z := replicate (Z.to_nat (kBlockSize - off)) 0) in *.
  assert (slen z = kBlockSize - off) as Hz.
  { unfold z, slen. rewrite length_replicate. pose proof (pos_range _ _ _ Hr). lia. }
  destruct (prefix_split p z _ Hp) as [[Hpz Hnz]|(q & -> & Hq)].
  { pose proof (prefix_strict_slen p z Hpz Hnz).
    destruct (phys_step_short off p frag r Hr) as (r' & E & Q); [lia|lia|].
    exists r'. split; [by apply loop_inr|done]. }
  destruct (phys_step_pad off q frag r Hr Hpad) as (r1 & E1 & Hr1 & Q1).
  destruct (phys_step_eof 0 t d q frag r1 Hr1 Hb Ht Hq) as (r2 & E2 & Q2); [congruence|].
  exists r2. split; [|by etransitivity].
  rewrite (loop_inl 3 _ _ _ _ _ ltac:(lia) E1). by apply loop_inr.
Qed.

(** ** Records *)

(** Where [ReadRecord] is between the fragments of a record. *)
Definition reading (begin : bool) (acc : list Z) (st : rec_state) : Prop :=
  if begin then in_fragmented_record st = false ∧ acc = []
  else in_fragmented_record st = true ∧ acc = scratch st.

Lemma set_resyncing_id r : resyncing_ r = false → set_resyncing false r = r.
Proof. destruct r. simpl. by intros ->. Qed.

(** After a physical record, outside of the resynchronisation. *)
Lemma record_step_eq st r t d r' :
  ReadPhysicalRecord (fragment st) r = Done ((t, d), r') → resyncing_ r' = false →
  record_step st r =
  record_case t (u64 (end_of_buffer_offset_ r' - slen (buffer_ r') - kHeaderSize - slen d))
    (MkRec (in_fragmented_record st) (prospective_record_offset st) (scratch st) d) r'.
Proof.
  intros E Hre. unfold record_step. bind_with E. cbv beta iota. rewrite bind_get, Hre. cbv zeta.
  cbn [andb]. unfold modify, get_state, put_state. run_unfold. by rewrite set_resyncing_id.
Qed.

Lemma at_pos_set_last off rest x r : 0 ≤ x → at_pos off rest r → at_pos off rest (set_last x r).
Proof. intros Hx [? ? ? ? ? ? ?]. by constructor. Qed.

(** The last fragment of a record. *)
Lemma record_step_end off (begin : bool) acc d rest st r :
  at_pos off (pad_of off ++ phys (if begin then kFullType else kLastType) d ++ rest) r →
  start_of off + kHeaderSize + slen d ≤ kBlockSize → Forall is_byte d → reading begin acc st →
  0 ≤ prospective_record_offset st →
  ∃ r', record_step st r = Done (inr (Some (acc ++ d)), r') ∧
    at_pos (start_of off + kHeaderSize + slen d) rest r' ∧ quiet r r'.
Proof.
  intros Hr Hb Hd Hst Hpro.
  destruct (run_phys_record off _ d rest (fragment st) r Hr Hb) as (r1 & E1 & Hr1 & Q1);
    [by unfold record_type; destruct begin|done|].
  rewrite (record_step_eq _ _ _ _ _ E1) by apply (pos_resyncing _ _ _ Hr1).
  unfold record_case. destruct begin; destruct Hst as [Hin Hacc]; rewrite Hacc.
  - unfold partial_record. cbn [in_fragmented_record]. rewrite Hin. cbn [andb].
    unfold modify, get_state, put_state. run_unfold. eexists. split; [done|]. split; [|done].
    apply at_pos_set_last; [apply (wrapu_range 64); lia|done].
  - cbn [in_fragmented_record]. rewrite Hin. cbn [negb].
    unfold modify, get_state, put_state. run_unfold. eexists. split; [done|]. split; [|done].
    by apply at_pos_set_last.
Qed.

(** Another fragment. *)
Lemma record_step_more off (begin : bool) acc d rest st r :
  at_pos off (pad_of off ++ phys (if begin then kFirstType else kMiddleType) d ++ rest) r →
  start_of off + kHeaderSize + slen d = kBlockSize → Forall is_byte d → reading begin acc st →
  0 ≤ prospective_record_offset st →
  ∃ r' st', record_step st r = Done (inl st', r') ∧ at_pos kBlockSize rest r' ∧ quiet r r' ∧
    reading false (acc ++ d) st' ∧ 0 ≤ prospective_record_offset st'.
Proof.
  intros Hr Hb Hd Hst Hpro.
  destruct (run_phys_record off _ d rest (fragment st) r Hr) as (r1 & E1 & Hr1 & Q1);
    [lia|by unfold record_type; destruct begin|done|]. rewrite Hb in Hr1.
  rewrite (record_step_eq _ _ _ _ _ E1) by apply (pos_resyncing _ _ _ Hr1).
  unfold record_case. destruct begin; destruct Hst as [Hin Hacc]; rewrite Hacc.
  - unfold partial_record. cbn [in_fragmented_record]. rewrite Hin. cbn [andb].
    unfold modify, get_state, put_state. run_unfold.
    eexists _, _. split; [done|]. split; [done|]. split; [done|]. split; [done|]. apply (wrapu_range 64). lia.
  - cbn [in_fragmented_record]. rewrite Hin. cbn [negb]. run_unfold.
    by eexists _, _.
Qed.

Lemma record_step_eof off t d p st r :
  at_pos off p r → start_of off + kHeaderSize + slen d ≤ kBlockSize → record_type t →
  p `prefix_of` pad_of off ++ phys t d → p ≠ pad_of off ++ phys t d →
  ∃ r', record_step st r = Done (inr None, r') ∧ quiet r r'.
Proof.
  intros Hr Hb Ht Hp Hne.
  destruct (run_phys_eof off t d p (fragment st) r Hr Hb Ht Hp Hne) as (r1 & E1 & Q1).
  unfold record_step. bind_with E1. cbv beta iota. rewrite bind_get. cbv zeta.
  assert ((kEof =? kMiddleType) = false) as -> by done.
  assert ((kEof =? kLastType) = false) as -> by done. rewrite !andb_false_r.
  unfold modify, get_state, put_state. run_unfold. unfold record_case. by eexists.
Qed.

(** The whole record. *)
Lemma run_record off begin d bs off' :
  frags off begin d bs off' → ∀ acc rest st r fuel,
  Forall is_byte d → at_pos off (bs ++ rest) r → reading begin acc st →
  0 ≤ prospective_record_offset st → slen bs < fuel →
  ∃ r', loop fuel record_step st r = Done (Some (acc ++ d), r') ∧ at_pos off' rest r' ∧ quiet r r'.
Proof.
  induction 1 as [off begin d Hb|off begin d1 d2 bs off' Hb Hne Hf IH];
    intros acc rest st r fuel Hd Hr Hst Hpro Hfuel.
  - rewrite <-app_assoc in Hr.
    destruct (record_step_end off begin acc d rest st r Hr Hb Hd Hst Hpro) as (r' & E & Hr' & Q).
    exists r'. split_and!; [|done|done]. apply loop_inr; [|done].
    pose proof (slen_nonneg (pad_of off ++ phys (if begin then kFullType else kLastType) d)). lia.
  - rewrite <-!app_assoc in Hr. apply Forall_app in Hd as [Hd1 Hd2].
    destruct (record_step_more off begin acc d1 (bs ++ rest) st r Hr Hb Hd1 Hst Hpro)
      as (r1 & st1 & E1 & Hr1 & Q1 & Hst1 & Hpro1).
    rewrite !slen_app, slen_phys in Hfuel.
    pose proof (slen_nonneg (pad_of off)). pose proof (slen_nonneg d1). pose proof (slen_nonneg bs).
    unfold kHeaderSize in Hfuel.
    destruct (IH (acc ++ d1) rest st1 r1 (fuel - 1) Hd2 Hr1 Hst1 Hpro1) as (r' & E & Hr' & Q); [lia|].
    exists r'. split_and!; [|done|by etransitivity].
    rewrite (loop_inl fuel _ _ _ _ _ ltac:(lia) E1), E. by rewrite <-app_assoc.
Qed.

(** A record that is cut. *)
Lemma run_record_cut off begin d bs off' :
  frags off begin d bs off' → ∀ acc p st r fuel,
  Forall is_byte d → p `prefix_of` bs → p ≠ bs → at_pos off p r → reading begin acc st →
  0 ≤ prospective_record_offset st → slen p < fuel →
  ∃ r', loop fuel record_step st r = Done (None, r') ∧ quiet r r'.
Proof.
  induction 1 as [off begin d Hb|off begin d1 d2 bs off' Hb Hne Hf IH];
    intros acc p st r fuel Hd Hp Hpne Hr Hst Hpro Hfuel; pose proof (slen_nonneg p).
  - destruct (record_step_eof off (if begin then kFullType else kLastType) d p st r Hr Hb) as (r' & E & Q);
      [by unfold record_type; destruct begin|done|done|].
    exists r'. split; [apply loop_inr; [lia|done]|done].
  - apply Forall_app in Hd as [Hd1 Hd2]. rewrite app_assoc in Hp, Hpne.
    set (t := if begin then kFirstType else kMiddleType) in *.
    destruct (prefix_split p _ bs Hp) as [[Hp1 Hne1]|(q & -> & Hq)].
    + destruct (record_step_eof off t d1 p st r Hr) as (r' & E & Q);
        [lia|unfold t, record_type; by destruct begin|done|done|].
      exists r'. split; [apply loop_inr; [lia|done]|done].
    + rewrite <-app_assoc in Hr.
      destruct (record_step_more off begin acc d1 q st r Hr Hb Hd1 Hst Hpro)
        as (r1 & st1 & E1 & Hr1 & Q1 & Hst1 & Hpro1).
      rewrite !slen_app, slen_phys in Hfuel.
      pose proof (slen_nonneg (pad_of off)). pose proof (slen_nonneg d1). pose proof (slen_nonneg q).
      unfold kHeaderSize in Hfuel.
      destruct (IH (acc ++ d1) q st1 r1 (fuel - 1) Hd2 Hq) as (r' & E & Q);
        [congruence|done|done|done|lia|].
      exists r'. split; [|by etransitivity].
      by rewrite (loop_inl fuel _ _ _ _ _ ltac:(lia) E1), E.
Qed.
(** ** Any bytes *)

(** What is left to read, and whether the buffer must be filled. *)
Definition left_to_read r : Z := slen (buffer_ r) + slen (unread (file_ r)).
Definition must_fill r : bool := (slen (buffer_ r) <? kHeaderSize) && negb (eof_ r).

Lemma wp_ReportDrop bytes reason (Q : unit → Reader F → Prop) r :
  (∀ x, Q tt (set_reports x r)) → wp (ReportDrop bytes reason) Q r.
Proof.
  intros HQ. apply wp_bind, wp_get. destruct (_ && _); [apply wp_put, HQ|apply wp_ret].
  specialize (HQ (reports_ r)). by destruct r.
Qed.

Lemma wp_modify f (Q : unit → Reader F → Prop) r : Q tt (f r) → wp (modify f) Q r.
Proof. done. Qed.

Lemma slen_drop (n : nat) l : slen (drop n l) ≤ slen l.
Proof. unfold slen. rewrite length_drop. lia. Qed.

Definition phys_post r (res : unit + (Z * list Z)) r' : Prop :=
  match res with
  | inl _ => left_to_read r' ≤ left_to_read r ∧ must_fill r = true ∧ must_fill r' = false
  | inr (t, _) => left_to_read r' ≤ left_to_read r ∧ (t = kEof ∨ left_to_read r' < left_to_read r)
  end.

Lemma wp_phys_step frag r : wp (phys_step frag tt) (phys_post r) r.
Proof.
  pose proof (slen_nonneg (unread (file_ r))) as Hu. pose proof (slen_nonneg (buffer_ r)) as Hb.
  unfold phys_step, phys_post, left_to_read, must_fill. apply wp_bind, wp_get.
  wp_if Es; [wp_if Ee|].
  - destruct (Read_reliable (Z.to_nat kBlockSize) (file_ r)) as (f & -> & Ef).
    set (data := take _ _). apply wp_bind, wp_modify. cbn [negb]. apply wp_bind.
    apply Z.ltb_lt in Es.
    assert (slen data + slen (unread f) = slen (unread (file_ r))) as Hd.
    { rewrite Ef. unfold data. rewrite <-slen_app, take_drop. done. }
    wp_if El.
    + apply wp_modify, wp_ret. simpl. split_and!; [lia|done|by rewrite andb_false_r].
    + apply wp_ret, wp_ret. simpl. split_and!; [lia|done|]. apply Z.ltb_ge in El. apply andb_false_iff. left.
      apply Z.ltb_ge. unfold kBlockSize, kHeaderSize in *. lia.
  - apply wp_bind, wp_modify, wp_ret. simpl; change (slen []) with 0; split; [lia|by left].
  - apply Z.ltb_ge in Es. unfold kHeaderSize in Es.
    destruct (lookup_lt_is_Some_2 (buffer_ r) 4) as [h4 H4]; [unfold slen in Es; lia|].
    destruct (lookup_lt_is_Some_2 (buffer_ r) 5) as [h5 H5]; [unfold slen in Es; lia|].
    destruct (lookup_lt_is_Some_2 (buffer_ r) 6) as [h6 H6]; [unfold slen in Es; lia|].
    apply wp_bind, (wp_lift_option _ _ _ _ H4), wp_bind, (wp_lift_option _ _ _ _ H5),
      wp_bind, (wp_lift_option _ _ _ _ H6).
    set (n := Z.lor _ _).
    assert (0 ≤ n) as Hn.
    { apply Z.lor_nonneg. split; [apply Z.land_nonneg; right; lia|apply (wrapu_range 32); lia]. }
    wp_if El; [|wp_if Ez].
    + apply wp_bind, wp_modify. wp_if Ee.
      * apply wp_bind, wp_ReportDrop. intros x. apply wp_ret; simpl; change (slen []) with 0; split; [lia|right; lia].
      * apply wp_ret; simpl; change (slen []) with 0; split; [lia|by left].
    + apply wp_bind, wp_modify, wp_ret. simpl; change (slen []) with 0; split; [lia|right; lia].
    + apply Z.ltb_ge in El. unfold kHeaderSize in El.
      assert (6 + (1 + n) ≤ slen (buffer_ r)) as Hfit by lia.
      apply wp_bind. apply (wp_mono _ (λ _ r', r' = r)).
      { destruct (checksum_ r); [|done]. unfold DecodeFixed32.
        rewrite bool_decide_eq_true_2 by (unfold slen in Es; lia).
        apply wp_bind, wp_ret, wp_bind.
        by apply (wp_lift_option _ _ _ _ (bytes_at_in 6 (1 + n) (buffer_ r) ltac:(lia) ltac:(lia) Hfit)). }
      intros ok r' ->. wp_if Eok.
      * apply wp_bind, wp_modify, wp_bind, wp_ReportDrop. intros x. apply wp_ret.
        simpl; change (slen []) with 0; split; [lia|right; lia].
      * apply wp_bind, (wp_lift_option _ _ _ _ (remove_prefix_in (kHeaderSize + n) (buffer_ r)
          ltac:(unfold kHeaderSize; lia))), wp_bind, wp_modify.
        assert (slen (drop (Z.to_nat (kHeaderSize + n)) (buffer_ r)) = slen (buffer_ r) - kHeaderSize - n) as Hl.
        { unfold slen in *. rewrite length_drop. unfold kHeaderSize in *. lia. }
        unfold kHeaderSize in *.
        wp_if Ei.
        -- apply wp_ret; simpl; rewrite Hl; (split; [lia|right; lia]).
        -- apply wp_bind, (wp_lift_option _ _ _ _ (bytes_at_in 7 n (buffer_ r) ltac:(lia) Hn
             ltac:(lia))), wp_ret. simpl. rewrite Hl. split; [lia|right; lia].
Qed.

Lemma wp_ReadPhysicalRecord frag r :
  wp (ReadPhysicalRecord frag) (λ '(t, _) r', left_to_read r' ≤ left_to_read r ∧
    (t = kEof ∨ left_to_read r' < left_to_read r)) r.
Proof.
  apply (wp_loop (λ _ r', left_to_read r' ≤ left_to_read r) (λ _ r', if must_fill r' then 1 else 0));
    [lia|destruct (must_fill r); lia|].
  intros [] r1 Hr1 _. eapply wp_mono; [apply wp_phys_step|].
  intros [[]|[t d]] r2; simpl.
  - intros (? & -> & ->). lia.
  - intros (? & [?|?]); (split; [lia|auto with lia]).
Qed.

(** The cases of the [switch] only change the reports and the offset. *)
Lemma wp_record_case t off st r :
  wp (record_case t off st) (λ res r', left_to_read r' = left_to_read r ∧
    match res with inl _ => t ≠ kEof | inr _ => True end) r.
Proof.
  unfold record_case, partial_record, ReportCorruption.
  assert (∀ x, left_to_read (set_reports x r) = left_to_read r) as Hset by done.
  repeat match goal with
    | |- wp (if ?c then _ else _) _ _ => destruct c eqn:?
    | |- wp (_ ≫= _) _ _ => apply wp_bind
    | |- wp (ReportDrop _ _) _ _ => apply wp_ReportDrop; intros ?
    | |- wp (modify _) _ _ => apply wp_modify
    | |- wp (mret _) _ _ => apply wp_ret
    end; (split; [done|]); try done; intros ->;
    match goal with H : (kEof =? _) = _ |- _ => vm_compute in H; discriminate H end.
Qed.

Lemma wp_record_step st r :
  wp (record_step st) (λ res r',
    match res with inl _ => left_to_read r' < left_to_read r | inr _ => True end) r.
Proof.
  apply wp_bind. eapply wp_mono; [apply wp_ReadPhysicalRecord|].
  intros [t d] r1 [Hle Ht]. apply wp_bind, wp_get. cbv zeta.
  destruct (resyncing_ r1 && (t =? kMiddleType)) eqn:E1; [|destruct (resyncing_ r1 && (t =? kLastType)) eqn:E2].
  - apply andb_true_iff in E1 as [_ E1]. apply Z.eqb_eq in E1. apply wp_ret. by destruct Ht as [->|].
  - apply andb_true_iff in E2 as [_ E2]. apply Z.eqb_eq in E2. apply wp_bind, wp_modify, wp_ret.
    by destruct Ht as [->|].
  - apply wp_bind, wp_modify. eapply wp_mono; [apply wp_record_case|].
    intros [st'|o] r2; [|done]. intros [-> Hne]. destruct Ht as [|Hlt]; [done|]. exact Hlt.
Qed.

Lemma run_ReadRecord r fuel :
  initial_offset_ r = 0 → 0 ≤ last_record_offset_ r →
  ReadRecord fuel r = loop fuel record_step (MkRec false 0 [] []) r.
Proof.
  intros E0 Hl. unfold ReadRecord. rewrite bind_get, E0, (proj2 (Z.ltb_ge _ 0) Hl). done.
Qed.

Lemma wp_SkipToInitialBlock r :
  wp SkipToInitialBlock (λ _ r', left_to_read r' ≤ left_to_read r) r.
Proof.
  apply wp_bind, wp_get. cbv zeta. apply wp_bind, wp_modify. wp_if E; [|by apply wp_ret; simpl].
  set (n := Z.to_nat _).
  destruct (Skip_reliable n (file_ r)) as (f & Es & Ef). rewrite Es.
  apply wp_bind, wp_modify, wp_ret. unfold left_to_read. simpl. rewrite Ef.
  pose proof (slen_drop n (unread (file_ r))). lia.
Qed.

(** ** All the records *)

Fixpoint read_all (n : nat) (fuel : Z) : M (Reader F) (list (list Z)) :=
  match n with
  | O => mret []
  | S n' =>
      o ← ReadRecord fuel;
      match o with Some d => ds ← read_all n' fuel; mret (d :: ds) | None => mret [] end
  end.

Lemma run_read_log_end off ds bs off' :
  log_bytes off ds bs off' → ∀ rest r fuel,
  Forall (Forall is_byte) ds → at_pos off (bs ++ rest) r → slen bs < fuel →
  ∃ r1, at_pos off' rest r1 ∧ quiet r r1 ∧
    ∀ n res r', read_all n fuel r1 = Done (res, r') →
      read_all (length ds + n) fuel r = Done (ds ++ res, r').
Proof.
  induction 1 as [off|off d ds bs off1 bs' off' Hf Hl IH]; intros rest r fuel Hds Hr Hfuel.
  { by exists r. }
  apply Forall_cons in Hds as [Hd Hds]. rewrite <-app_assoc in Hr. rewrite slen_app in Hfuel.
  pose proof (slen_nonneg bs). pose proof (slen_nonneg bs').
  destruct (run_record _ _ _ _ _ Hf [] (bs' ++ rest) (MkRec false 0 [] []) r fuel Hd Hr)
    as (r1 & E1 & Hr1 & Q1); [done|simpl; lia|lia|].
  destruct (IH rest r1 fuel Hds Hr1) as (r2 & Hr2 & Q2 & Hread); [lia|].
  exists r2. split_and!; [done|by etransitivity|]. intros n res r' En.
  cbn [length Nat.add read_all].
  bind_with (eq_trans (run_ReadRecord r fuel (pos_initial _ _ _ Hr) (pos_last _ _ _ Hr)) E1).
  cbn [app]. by bind_with (Hread _ _ _ En).
Qed.

Lemma new_at_pos f rep chk :
  at_pos kBlockSize (unread f) (new_Reader f rep chk 0).
Proof.
  constructor; simpl; rewrite ?Z.sub_diag; try done.
  symmetry. apply bool_decide_eq_false_2. pose proof (slen_nonneg (unread f)). lia.
Qed.

(** The end of the file, after some records. *)
Lemma run_read_cut off d bs off' p r n fuel :
  frags off true d bs off' → Forall is_byte d → p `prefix_of` bs → p ≠ bs → at_pos off p r →
  slen p < fuel → (0 < n)%nat →
  ∃ r', read_all n fuel r = Done ([], r') ∧ quiet r r'.
Proof.
  intros Hf Hd Hp Hne Hr Hfuel Hn. destruct n as [|n]; [lia|].
  destruct (run_record_cut _ _ _ _ _ Hf [] p (MkRec false 0 [] []) r fuel Hd Hp Hne Hr)
    as (r' & E & Q); [done|simpl; lia|lia|].
  exists r'. split; [|done]. cbn [read_all].
  by bind_with (eq_trans (run_ReadRecord r fuel (pos_initial _ _ _ Hr) (pos_last _ _ _ Hr)) E).
Qed.
End reader.

(** ** Theorems *)

Section theorems.
Context {W R : Type} `{ReliableWritable W} `{ReliableSequential R}.

Lemma frags_exists : ∀ (m : nat) off begin d,
  turns off d ≤ Z.of_nat m → 0 ≤ off ≤ kBlockSize → ∃ bs off', frags off begin d bs off'.
Proof.
  induction m as [|m IH]; intros off begin d Hm Ho.
  { pose proof (turns_range off d). lia. }
  pose proof (start_of_range off Ho) as Hs.
  destruct (Z_le_gt_dec (start_of off + kHeaderSize + slen d) kBlockSize) as [Hb|Hb].
  { eexists _, _. by apply frags_end. }
  set (k := kBlockSize - kHeaderSize - start_of off).
  assert (slen (take (Z.to_nat k) d) = k) as Hk.
  { unfold slen in *. rewrite length_take. unfold k in *. lia. }
  assert (slen (drop (Z.to_nat k) d) = slen d - k) as Hk2.
  { unfold slen in *. rewrite length_drop. unfold k in *. lia. }
  destruct (IH kBlockSize false (drop (Z.to_nat k) d)) as (bs & off' & Hf).
  - unfold turns in *. rewrite Hk2. change (start_of kBlockSize =? kBlockSize - kHeaderSize) with false.
    destruct (Z.eqb_spec (start_of off) (kBlockSize - kHeaderSize)); unfold k in *; lia.
  - unfold kBlockSize. lia.
  - exists (pad_of off ++ phys (if begin then kFirstType else kMiddleType) (take (Z.to_nat k) d) ++ bs), off'.
    rewrite <-(take_drop (Z.to_nat k) d) at 1. apply frags_more; [unfold k in *; lia| |done].
    intros E. rewrite E in Hk2. unfold slen at 1, k in Hk2. simpl in Hk2. lia.
Qed.

(** After the last record. *)
Lemma run_read_end off (r : Reader R) n fuel :
  at_pos off [] r → 0 < fuel → (0 < n)%nat →
  ∃ r', read_all n fuel r = Done ([], r') ∧ quiet r r'.
Proof.
  intros Hr Hfuel Hn.
  destruct (frags_exists (Z.to_nat (turns off [])) off true []) as (bs & off' & Hf);
    [pose proof (turns_range off []); lia|apply (pos_range _ _ _ Hr)|].
  apply (run_read_cut off [] bs off' [] r n fuel Hf); [constructor|apply prefix_nil| |done|done|done].
  intros E. apply frags_slen in Hf. rewrite <-E in Hf. unfold slen, kHeaderSize in Hf. simpl in Hf. lia.
Qed.

(** C24: whatever records a writer adds to a new log, of any sizes, cut in fragments
    over any number of blocks, a reader of the file gives the same records in order,
    with or without verification of the checksums, and reports nothing. *)
Theorem log_roundtrip ds (f0 : W) (f : R) rep chk n fuel :
  Forall (Forall is_byte) ds → written f0 = [] → (length ds < n)%nat →
  ∃ w, add_records ds (new_Writer f0) = Done (true, w) ∧
    (unread f = written (dest_ w) → slen (unread f) < fuel →
     ∃ r, read_all n fuel (new_Reader f rep chk 0) = Done (ds, r) ∧ reports_ r = []).
Proof.
  intros Hds Hf0 Hn.
  destruct (run_add_records ds (new_Writer f0) Hds) as (w & bs & E & Hl & Hw);
    [unfold kBlockSize; simpl; lia|].
  exists w. split; [done|]. intros Hf Hfuel. simpl in Hw, Hl. rewrite Hf0 in Hw. simpl in Hw.
  apply log_from_0 in Hl as (off & Hl & _).
  pose proof (new_at_pos f rep chk) as Hr. rewrite Hf, Hw in Hr, Hfuel.
  replace bs with (bs ++ []) in Hr by apply app_nil_r.
  assert (∃ m, n = (length ds + S m)%nat) as [m ->] by (exists (n - length ds - 1)%nat; lia).
  pose proof (slen_nonneg bs).
  assert (∃ r, read_all (length ds + S m) fuel (new_Reader f rep chk 0) = Done (ds ++ [], r) ∧
    reports_ r = []) as (r & Er & Hrep); [|rewrite app_nil_r in Er; by exists r].
  destruct (run_read_log_end _ _ _ _ Hl [] _ fuel Hds Hr Hfuel) as (r1 & Hr1 & Q1 & Hread).
  destruct (run_read_end off r1 (S m) fuel Hr1) as (r' & E' & Q'); [lia|lia|].
  exists r'. split; [by apply Hread|]. rewrite Q', Q1. done.
Qed.

(** C3: a crash while a record is added loses that record only: from any prefix of
    the file that has the records before, the reader gives them all, gives nothing
    else, and does not take the rest for a corruption. *)
Theorem log_crash ds d (f0 : W) w1 w2 (f : R) rep chk n fuel :
  Forall (Forall is_byte) ds → Forall is_byte d → written f0 = [] →
  add_records ds (new_Writer f0) = Done (true, w1) → AddRecord d w1 = Done (true, w2) →
  written (dest_ w1) `prefix_of` unread f → unread f `prefix_of` written (dest_ w2) →
  unread f ≠ written (dest_ w2) → slen (unread f) < fuel → (length ds < n)%nat →
  ∃ r, read_all n fuel (new_Reader f rep chk 0) = Done (ds, r) ∧ reports_ r = [].
Proof.
  intros Hds Hd Hf0 E1 E2 Hp1 Hp2 Hne Hfuel Hn.
  destruct (run_add_records ds (new_Writer f0) Hds) as (w & bs & E & Hl & Hw);
    [unfold kBlockSize; simpl; lia|].
  rewrite E1 in E. injection E as <-. simpl in Hw, Hl. rewrite Hf0 in Hw. simpl in Hw.
  assert (0 ≤ block_offset_ w1 ≤ kBlockSize) as Ho.
  { apply (log_bytes_offset _ _ _ _ Hl). unfold kBlockSize. lia. }
  destruct (run_AddRecord w1 d Hd Ho) as (w & b2 & E & Hfr & Hw2 & _).
  rewrite E2 in E. injection E as <-. rewrite Hw2, Hw in Hp2, Hne. rewrite Hw in Hp1.
  destruct Hp1 as [p Ep]. rewrite Ep in Hp2, Hne, Hfuel. apply prefix_app_inv in Hp2.
  assert (p ≠ b2) as Hpne by congruence.
  apply log_from_0 in Hl as (off & Hl' & Hoff). apply Hoff in Hfr as Hfr'.
  pose proof (new_at_pos f rep chk) as Hr. rewrite Ep in Hr.
  assert (∃ m, n = (length ds + S m)%nat) as [m ->] by (exists (n - length ds - 1)%nat; lia).
  rewrite slen_app in Hfuel. pose proof (slen_nonneg bs). pose proof (slen_nonneg p).
  destruct (run_read_log_end _ _ _ _ Hl' p _ fuel Hds Hr) as (r1 & Hr1 & Q1 & Hread); [lia|].
  destruct (run_read_cut off d b2 _ p r1 (S m) fuel Hfr' Hd Hp2 Hpne Hr1) as (r' & E' & Q'); [lia|lia|].
  exists r'. split; [by rewrite (Hread _ _ _ E'), app_nil_r|]. rewrite Q', Q1. done.
Qed.

(** C29: whatever bytes the file holds, wherever the reader starts and whatever its
    state, [ReadRecord] ends, and reads nothing outside of its buffer: the header, the
    bytes under the CRC and the payload are undefined outside of it ([bytes_at]). *)
Theorem ReadRecord_total (r : Reader R) fuel :
  left_to_read r < fuel → ∃ o r', ReadRecord fuel r = Done (o, r').
Proof.
  intros Hfuel. pose proof (slen_nonneg (buffer_ r)). pose proof (slen_nonneg (unread (file_ r))).
  assert (wp (ReadRecord fuel) (λ _ _, True) r) as Hwp.
  2: { destruct (wp_run _ _ _ Hwp) as (o & r' & E & _). eauto. }
  apply wp_bind, wp_get, wp_bind. eapply (wp_mono _ (λ _ r', left_to_read r' ≤ left_to_read r)).
  { destruct (_ <? _); [apply wp_SkipToInitialBlock|by apply wp_ret]. }
  intros [] r1 Hr1; [|by apply wp_ret].
  apply (wp_loop (λ _ _, True) (λ _ r', left_to_read r')); [done| |].
  - pose proof (slen_nonneg (buffer_ r1)). pose proof (slen_nonneg (unread (file_ r1))).
    unfold left_to_read in *. lia.
  - intros st r2 _ _. eapply wp_mono; [apply wp_record_step|]. intros [st'|o] r3; [|done].
    intros Hlt. split; [done|]. pose proof (slen_nonneg (buffer_ r3)).
    pose proof (slen_nonneg (unread (file_ r3))). unfold left_to_read in *. lia.
Qed.
End theorems.

(** ** Witnesses: logs in memory *)

Definition example_records : list (list Z) := [[1; 2; 3]; []; [255; 0]].
Definition example_writer (ds : list (list Z)) : Writer (list Z) :=
  match add_records ds (new_Writer []) with Done (_, w) => w | _ => new_Writer [] end.

Lemma example_records_bytes : Forall (Forall is_byte) example_records.
Proof. repeat constructor; unfold is_byte; lia. Qed.

Lemma log_roundtrip_witness :
  ∃ r : Reader (list Z),
    read_all 4 100 (new_Reader (dest_ (example_writer example_records)) true true 0) =
      Done (example_records, r) ∧ reports_ r = [].
Proof.
  destruct (log_roundtrip (W := list Z) (R := list Z) example_records []
    (dest_ (example_writer example_records)) true true 4 100 example_records_bytes)
    as (w & E & Hr); [reflexivity|simpl; lia|].
  apply Hr.
  - unfold example_writer. rewrite E. reflexivity.
  - vm_compute. reflexivity.
Defined.

(** The third record is cut after its header. *)
Lemma log_crash_witness :
  ∃ r : Reader (list Z),
    read_all 3 100 (new_Reader (take 24 (dest_ (example_writer example_records))) true true 0) =
      Done ([[1; 2; 3]; []], r) ∧ reports_ r = [].
Proof.
  apply (log_crash (W := list Z) (R := list Z) [[1; 2; 3]; []] [255; 0] []
    (example_writer [[1; 2; 3]; []]) (example_writer example_records)).
  - repeat constructor; unfold is_byte; lia.
  - repeat constructor; unfold is_byte; lia.
  - reflexivity.
  - vm_compute. reflexivity.
  - vm_compute. reflexivity.
  - exists (drop 17 (take 24 (dest_ (example_writer example_records)))). vm_compute. reflexivity.
  - exists (drop 24 (dest_ (example_writer example_records))). vm_compute. reflexivity.
  - vm_compute. discriminate.
  - vm_compute. reflexivity.
  - simpl. lia.
Defined.

Lemma ReadRecord_total_witness :
  ∃ o r', ReadRecord 10 (new_Reader ([1; 2; 3; 4; 5; 6; 7; 8] : list Z) true true 0) = Done (o, r').
Proof. apply ReadRecord_total. vm_compute. reflexivity. Defined.
