(* ===== verification/LdbRandom.v ===== *)
(** * leveldb: the random number generator of util/random.h

    [Next] computes a product modulo 2^31 - 1 with shifts and one subtraction. *)
From S2P Require Import Prelude.

(** The state is the member [seed_], a [uint32_t]. *)
Definition Random_M : Z := 2147483647.
Definition Random_A : Z := 16807.

Definition Random (s : Z) : Z :=
  let seed := Z.land s 0x7fffffff in
  if (seed =? 0) || (seed =? 2147483647) then 1 else seed.

(** Gives [seed_]: it is both the result and the new state. *)
Definition Random_Next (seed : Z) : Z :=
  let product := u64 (seed * Random_A) in
  let seed := u32 (Z.shiftr product 31 + Z.land product Random_M) in
  if Random_M <? seed then u32 (seed - Random_M) else seed.

(** The result and the new state; [n] is a positive [int]. *)
Definition Random_Uniform (n seed : Z) : Z * Z :=
  let seed := Random_Next seed in (seed `mod` n, seed).
Definition Random_OneIn (n seed : Z) : bool * Z :=
  let seed := Random_Next seed in (seed `mod` n =? 0, seed).

(** [1 << Uniform(max_log + 1)] is an [int]: undefined unless it is below 2^31. *)
Definition Random_Skewed (max_log seed : Z) : option (Z * Z) :=
  let '(base, seed) := Random_Uniform (max_log + 1) seed in
  if base <? 31 then Some (Random_Uniform (Z.shiftl 1 base) seed) else None.

(** ** Theorems *)

(** The seeds that are reached. *)
Definition seed_ok (seed : Z) : Prop := 1 ≤ seed < Random_M.

Lemma Random_ok s : seed_ok (Random s).
Proof.
  unfold Random, seed_ok, Random_M.
  assert (Z.land s 0x7fffffff = s `mod` 2 ^ 31) as -> by (apply (Z.land_ones s 31); lia).
  pose proof (Z.mod_pos_bound s (2 ^ 31) ltac:(lia)) as Hs. change (2 ^ 31) with 2147483648 in *.
  destruct (Z.eqb_spec (s `mod` 2147483648) 0); simpl; [lia|].
  destruct (Z.eqb_spec (s `mod` 2147483648) 2147483647); lia.
Qed.

Lemma Random_Next_mod seed :
  seed_ok seed → Random_Next seed = (seed * Random_A) `mod` Random_M ∧ seed_ok (Random_Next seed).
Proof.
  unfold seed_ok, Random_Next, Random_A, Random_M. intros Hs.
  rewrite (wrapu_small 64) by (pow2; lia).
  set (p := seed * 16807).
  assert (Z.land p 2147483647 = p `mod` 2147483648) as -> by (apply (Z.land_ones p 31); lia).
  rewrite Z.shiftr_div_pow2 by lia. change (2 ^ 31) with 2147483648.
  assert (0 ≤ p < 2147483647 * 16807) as Hp by (unfold p; lia).
  assert (0 ≤ p / 2147483648 < 16807) as Hq by zdiv.
  assert (0 ≤ p `mod` 2147483648 < 2147483648) as Hr by (apply Z.mod_pos_bound; lia).
  rewrite (wrapu_small 32) by (pow2; lia).
  pose proof (Z.div_mod p 2147483648 ltac:(lia)) as Ep.
  assert (p `mod` 2147483647 ≠ 0) as Hnz.
  { intros Hz. apply Z.mod_divide in Hz; [|lia]. unfold p in Hz. rewrite Z.mul_comm in Hz.
    apply Z.gauss in Hz; [|reflexivity]. apply Z.divide_pos_le in Hz; lia. }
  generalize dependent (p / 2147483648). intros q Hq Ep.
  generalize dependent (p `mod` 2147483648). intros r Hr Ep.
  destruct (Z.ltb_spec 2147483647 (q + r)).
  - rewrite (wrapu_small 32) by (pow2; lia). split; [|lia].
    apply (Z.mod_unique_pos _ _ (q + 1)); lia.
  - assert (q + r ≠ 2147483647) as Hne.
    { intros E. apply Hnz. symmetry. apply (Z.mod_unique_pos _ _ (q + 1)); lia. }
    assert (q + r = p `mod` 2147483647) as Er by (apply (Z.mod_unique_pos _ _ q); lia).
    split; [done|lia].
Qed.

(** the generator is the one of the comment: from any seed it is set to, [Next]
    is the product with 16807 modulo 2^31 - 1, computed with shifts and one
    subtraction; the state never becomes 0 or 2^31 - 1. *)
Theorem Random_sequence s n :
  let seed := Nat.iter n Random_Next (Random s) in
  seed_ok seed ∧ Random_Next seed = (seed * Random_A) `mod` Random_M.
Proof.
  assert (seed_ok (Nat.iter n Random_Next (Random s))) as Hs.
  { induction n as [|n IH]; [apply Random_ok|]. by apply Random_Next_mod. }
  split; [done|]. by apply Random_Next_mod.
Qed.

(** The results that are asked to be in a range are. *)
Lemma Random_Uniform_range n seed : 0 < n → 0 ≤ (Random_Uniform n seed).1 < n.
Proof. intros Hn. apply Z.mod_pos_bound. done. Qed.

(** [Skewed] gives a number below [2^max_log], as documented, for a [max_log] of
    at most 30; no shift overflows. *)
Theorem Random_Skewed_range max_log seed :
  0 ≤ max_log ≤ 30 →
  ∃ v seed', Random_Skewed max_log seed = Some (v, seed') ∧ 0 ≤ v < 2 ^ max_log.
Proof.
  intros Hm. unfold Random_Skewed.
  pose proof (Random_Uniform_range (max_log + 1) seed ltac:(lia)) as Hb.
  destruct (Random_Uniform (max_log + 1) seed) as [b s1]. simpl in Hb.
  rewrite (proj2 (Z.ltb_lt b 31)) by lia.
  rewrite Z.shiftl_1_l. assert (0 < 2 ^ b) by (apply Z.pow_pos_nonneg; lia).
  pose proof (Random_Uniform_range (2 ^ b) s1 ltac:(done)) as Hv.
  destruct (Random_Uniform (2 ^ b) s1) as [v s2]. exists v, s2. split; [done|]. simpl in Hv.
  assert (2 ^ b ≤ 2 ^ max_log) by (apply Z.pow_le_mono_r; lia). lia.
Qed.

Lemma Random_Skewed_range_witness :
  ∃ v seed', Random_Skewed 10 301 = Some (v, seed') ∧ 0 ≤ v < 2 ^ 10.
Proof. apply Random_Skewed_range. lia. Defined.
