(* ===== verification/SkipList.v ===== *)
(** * leveldb: the skip list of db/skiplist.h

    The memtable's index. Nodes are allocated one after the other from an arena and
    never freed: an address is the number of the node. The comparator is the
    interface the list is a client of; what leveldb asks of it are the laws of
    [ComparatorLaws]. *)
From S2P Require Import Prelude LdbRandom.

(** ** The interface of comparators

    [compare_(a, b)] is negative, zero or positive. *)
Class Comparator (Key : Type) := compare_ : Key → Key → Z.

Class ComparatorLaws (Key : Type) `{Comparator Key} := {
  compare_refl (a : Key) : compare_ a a = 0;
  compare_sym (a b : Key) : compare_ a b < 0 ↔ 0 < compare_ b a;
  compare_trans (a b c : Key) : compare_ a b ≤ 0 → compare_ b c ≤ 0 → compare_ a c ≤ 0;
}.

(** A [Node*] that is not NULL. *)
Abbreviation addr := nat (only parsing).
Definition kMaxHeight : nat := 12.

(** [Node* prev[kMaxHeight]], a local array. *)
Abbreviation prev_array := (list (option addr)).

Section skiplist.
Context {Key : Type} `{Comparator Key}.

(** [next_] has the length of the height of the node; [None] is a link that is not
    initialised, [Some None] is NULL. *)
Record Node := MkNode {
  key : Key;
  next_ : list (option (option addr));
}.

Record SkipList := MkSkipList {
  nodes : list Node;      (* what the arena holds *)
  head_ : addr;
  max_height_ : nat;
  rnd_ : Z;
}.

Implicit Types sl : SkipList.
Abbreviation op := (M SkipList).

Definition with_nodes (l : list Node) sl : SkipList :=
  MkSkipList l (head_ sl) (max_height_ sl) (rnd_ sl).

(** ** Nodes *)

(** [x->key] *)
Definition node_key (x : addr) : op Key :=
  sl ← get_state; n ← lift_option (nodes sl !! x); mret (key n).

(** [x->Next(n)] and [x->SetNext(n, y)], as one thread runs them: it sees its own stores
    in their order, with a barrier or not. When other threads see them is in
    [SkipListConc]: a store without a barrier may be late there, a release store is not. *)
Definition Next (x : addr) (level : nat) : op (option addr) :=
  sl ← get_state; n ← lift_option (nodes sl !! x); lift_option (mjoin (next_ n !! level)).
Definition SetNext (x : addr) (level : nat) (y : option addr) : op unit :=
  sl ← get_state;
  n ← lift_option (nodes sl !! x);
  _ ← lift_option (next_ n !! level);
  put_state (with_nodes (<[x := MkNode (key n) (<[level := Some y]> (next_ n))]> (nodes sl)) sl).
Definition NoBarrier_Next := Next.
Definition NoBarrier_SetNext := SetNext.

(** [NewNode(key, height)]: the links are not initialised. *)
Definition NewNode (k : Key) (height : nat) : op addr :=
  sl ← get_state;
  put_state (with_nodes (nodes sl ++ [MkNode k (replicate height None)]) sl);;
  mret (length (nodes sl)).

Definition GetMaxHeight : op nat := sl ← get_state; mret (max_height_ sl).

Definition Equal (a b : Key) : bool := compare_ a b =? 0.

Definition KeyIsAfterNode (k : Key) (n : option addr) : op bool :=
  match n with
  | None => mret false
  | Some n => nk ← node_key n; mret (compare_ nk k <? 0)
  end.

(** ** Searching *)

(** Not initialised at first. *)
Definition no_prev : prev_array := replicate kMaxHeight None.

(** [if (prev != NULL) prev[level] = x]: undefined out of the array. *)
Definition set_prev (prev : option prev_array) (level : nat) (x : addr) : op (option prev_array) :=
  match prev with
  | None => mret None
  | Some p =>
      if bool_decide (level < length p)%nat then mret (Some (<[level := Some x]> p)) else undef
  end.

(** On each level a search goes past each node at most once, and leaves the level
    once. *)
Definition search_fuel sl : Z := Z.of_nat (kMaxHeight * (length (nodes sl) + 1) + 1).

(** One turn of the loop of [FindGreaterOrEqual]: the state is [x], [level] and the
    array [prev]. *)
Definition find_ge_step (k : Key) (st : addr * nat * option prev_array)
    : op ((addr * nat * option prev_array) + (option addr * option prev_array)) :=
  let '(x, level, prev) := st in
  next ← Next x level;
  after ← KeyIsAfterNode k next;
  if (after : bool) then
    match next with Some y => mret (inl (y, level, prev)) | None => undef end
  else
    prev ← set_prev prev level x;
    match level with
    | O => mret (inr (next, prev))
    | S level' => mret (inl (x, level', prev))
    end.

Definition FindGreaterOrEqual (k : Key) (prev : option prev_array)
    : op (option addr * option prev_array) :=
  sl ← get_state;
  max ← GetMaxHeight;
  loop (search_fuel sl) (find_ge_step k) (head_ sl, (max - 1)%nat, prev).

Definition find_less_step (k : Key) (st : addr * nat) : op ((addr * nat) + addr) :=
  let '(x, level) := st in
  sl ← get_state;
  (if bool_decide (x = head_ sl) then mret tt
   else xk ← node_key x; assert_ (compare_ xk k <? 0));;
  next ← Next x level;
  match next with
  | Some y =>
      yk ← node_key y;
      if 0 <=? compare_ yk k then
        match level with
        | O => mret (inr x)
        | S level' => mret (inl (x, level'))
        end
      else mret (inl (y, level))
  | None =>
      match level with
      | O => mret (inr x)
      | S level' => mret (inl (x, level'))
      end
  end.

Definition FindLessThan (k : Key) : op addr :=
  sl ← get_state;
  max ← GetMaxHeight;
  loop (search_fuel sl) (find_less_step k) (head_ sl, (max - 1)%nat).

Definition find_last_step (st : addr * nat) : op ((addr * nat) + addr) :=
  let '(x, level) := st in
  next ← Next x level;
  match next with
  | None =>
      match level with
      | O => mret (inr x)
      | S level' => mret (inl (x, level'))
      end
  | Some y => mret (inl (y, level))
  end.

Definition FindLast : op addr :=
  sl ← get_state;
  max ← GetMaxHeight;
  loop (search_fuel sl) find_last_step (head_ sl, (max - 1)%nat).

Definition Contains (k : Key) : op bool :=
  '(x, _) ← FindGreaterOrEqual k None;
  match x with
  | Some x => xk ← node_key x; mret (Equal k xk)
  | None => mret false
  end.

(** ** Insertion *)

(** [kBranching] is 4; the loop makes at most [kMaxHeight - 1] turns. *)
Fixpoint random_height (fuel height : nat) (seed : Z) : nat * Z :=
  match fuel with
  | O => (height, seed)
  | S fuel' =>
      if bool_decide (height < kMaxHeight)%nat then
        let seed := Random_Next seed in
        if seed `mod` 4 =? 0 then random_height fuel' (S height) seed else (height, seed)
      else (height, seed)
  end.

Definition RandomHeight : op nat :=
  sl ← get_state;
  let '(height, seed) := random_height kMaxHeight 1 (rnd_ sl) in
  put_state (MkSkipList (nodes sl) (head_ sl) (max_height_ sl) seed);;
  assert_ (bool_decide (0 < height)%nat);;
  assert_ (bool_decide (height ≤ kMaxHeight)%nat);;
  mret height.

(** [for (i = from; i < to; i++) prev[i] = head_;] *)
Fixpoint fill_prev (prev : prev_array) (x : addr) (from n : nat) : prev_array :=
  match n with
  | O => prev
  | S n' => fill_prev (<[from := Some x]> prev) x (S from) n'
  end.

(** One turn of the last loop: the new node is linked in the list of a level. *)
Definition link_level (x : addr) (prev : prev_array) (i : nat) : op unit :=
  p ← lift_option (mjoin (prev !! i));
  next ← NoBarrier_Next p i;
  NoBarrier_SetNext x i next;;
  SetNext p i (Some x).

Fixpoint link_levels (x : addr) (prev : prev_array) (i n : nat) : op unit :=
  match n with
  | O => mret tt
  | S n' => link_level x prev i;; link_levels x prev (S i) n'
  end.

(** [assert(x == NULL || !Equal(key, x->key))] *)
Definition assert_not_equal (k : Key) (x : option addr) : op unit :=
  match x with
  | None => mret tt
  | Some x => xk ← node_key x; assert_ (negb (Equal k xk))
  end.

Definition Insert (k : Key) : op unit :=
  '(x, prev) ← FindGreaterOrEqual k (Some no_prev);
  prev ← lift_option prev;
  assert_not_equal k x;;
  height ← RandomHeight;
  max ← GetMaxHeight;
  sl ← get_state;
  let prev :=
    if bool_decide (max < height)%nat then fill_prev prev (head_ sl) max (height - max)
    else prev in
  (if bool_decide (max < height)%nat
   then put_state (MkSkipList (nodes sl) (head_ sl) height (rnd_ sl)) else mret tt);;
  x ← NewNode k height;
  link_levels x prev 0 height.

(** The constructor; [any] is the key of [head_], which nobody looks at. *)
Definition new_skiplist (any : Key) : SkipList :=
  MkSkipList [MkNode any (replicate kMaxHeight (Some None))] 0%nat 1%nat (Random 0xdeadbeef).

(** ** Iterators *)

(** [node_]; [list_] is the list of the state. *)
Definition Iterator : Type := option addr.
Definition new_Iterator : Iterator := None.

Definition Valid (it : Iterator) : bool := bool_decide (it ≠ None).
Definition it_key (it : Iterator) : op Key := x ← lift_option it; node_key x.
Definition it_Next (it : Iterator) : op Iterator := x ← lift_option it; Next x 0.

(** [node_ == list_->head_] is NULL for the iterator. *)
Definition not_head (x : addr) : op Iterator :=
  sl ← get_state; mret (if bool_decide (x = head_ sl) then None else Some x).
Definition it_Prev (it : Iterator) : op Iterator :=
  x ← lift_option it; k ← node_key x; y ← FindLessThan k; not_head y.
Definition Seek (target : Key) : op Iterator :=
  '(x, _) ← FindGreaterOrEqual target None; mret x.
Definition SeekToFirst : op Iterator := sl ← get_state; Next (head_ sl) 0.
Definition SeekToLast : op Iterator := y ← FindLast; not_head y.
End skiplist.
Arguments Node : clear implicits.
Arguments SkipList : clear implicits.
