(* ===== verification/SkipListSpec.v ===== *)
(** * leveldb: the skip list is a sorted set

    The lists of the levels are sub-lists of the list of level 0, which is sorted.
    A search finds the first entry that is not before a key, and on each level the
    last node before it; insertion adds an entry at its place; iterators go
    through the entries in order. *)
From stdpp Require Import sorting.
From S2P Require Import Prelude LdbRandom SkipList.

(** ** Comparators *)

Section laws.
Context {Key : Type} `{ComparatorLaws Key}.

Lemma compare_lt_irrefl (a : Key) : ¬ compare_ a a < 0.
Proof. rewrite compare_refl. lia. Qed.

Lemma compare_nlt (a b : Key) : ¬ compare_ a b < 0 ↔ compare_ b a ≤ 0.
Proof. rewrite compare_sym. lia. Qed.

Lemma compare_lt_le_trans (a b c : Key) : compare_ a b < 0 → compare_ b c ≤ 0 → compare_ a c < 0.
Proof.
  intros Hab Hbc. destruct (Z_lt_le_dec (compare_ a c) 0) as [|Hac]; [done|].
  assert (compare_ c a ≤ 0) as Hca by (apply compare_nlt; lia).
  pose proof (compare_trans b c a Hbc Hca). apply compare_sym in Hab. lia.
Qed.

Lemma compare_le_lt_trans (a b c : Key) : compare_ a b ≤ 0 → compare_ b c < 0 → compare_ a c < 0.
Proof.
  intros Hab Hbc. destruct (Z_lt_le_dec (compare_ a c) 0) as [|Hac]; [done|].
  assert (compare_ c a ≤ 0) as Hca by (apply compare_nlt; lia).
  pose proof (compare_trans c a b Hca Hab). apply compare_sym in Hbc. lia.
Qed.

Lemma compare_lt_trans (a b c : Key) : compare_ a b < 0 → compare_ b c < 0 → compare_ a c < 0.
Proof. intros ??. apply (compare_lt_le_trans a b c); [done|lia]. Qed.

(** ** Sorted lists of entries *)

(** An entry: a node and its key. *)
Abbreviation entry := (addr * Key)%type.
Implicit Types l : list entry.

Definition before (k : Key) (e : entry) : Prop := compare_ e.2 k < 0.
#[global] Instance before_dec k e : Decision (before k e) := Z_lt_dec _ _.

Definition sorted (l : list entry) : Prop := StronglySorted (λ a b, compare_ a.2 b.2 < 0) l.

(** The entries before a key, and the others. *)
Definition lower (k : Key) (l : list entry) : list entry := filter (before k) l.
Definition upper (k : Key) (l : list entry) : list entry := filter (λ e, ¬ before k e) l.

Lemma filter_Forall (P : entry → Prop) `{∀ e, Decision (P e)} l : Forall P l → filter P l = l.
Proof. induction 1 as [|e l He Hl IH]; [done|]. by rewrite filter_cons_True, IH. Qed.

Lemma filter_Forall_not (P : entry → Prop) `{∀ e, Decision (P e)} l :
  Forall (λ e, ¬ P e) l → filter P l = [].
Proof. induction 1 as [|e l He Hl IH]; [done|]. by rewrite filter_cons_False. Qed.

Lemma sorted_split k l : sorted l → l = lower k l ++ upper k l.
Proof.
  unfold lower, upper. induction 1 as [|e l Hl IH Hall]; [done|].
  destruct (decide (before k e)) as [Hb|Hb].
  - rewrite filter_cons_True, filter_cons_False by auto. simpl. by f_equal.
  - rewrite filter_cons_False, filter_cons_True by done.
    assert (Forall (λ e, ¬ before k e) l) as Hno.
    { apply Forall_forall. intros e' He' Hb'. rewrite Forall_forall in Hall.
      apply Hb. unfold before in *. eapply compare_lt_trans; [by apply Hall|done]. }
    by rewrite (filter_Forall_not _ l Hno), (filter_Forall _ l Hno).
Qed.

Lemma lower_before k l : Forall (before k) (lower k l).
Proof. apply Forall_forall. intros e. unfold lower. rewrite list_elem_of_filter. tauto. Qed.

Lemma upper_not_before k l : Forall (λ e, ¬ before k e) (upper k l).
Proof. apply Forall_forall. intros e. unfold upper. rewrite list_elem_of_filter. tauto. Qed.

(** The split at a key is the only one of its kind. *)
Lemma split_unique k l1 l2 :
  Forall (before k) l1 → Forall (λ e, ¬ before k e) l2 →
  lower k (l1 ++ l2) = l1 ∧ upper k (l1 ++ l2) = l2.
Proof.
  intros H1 H2. unfold lower, upper. rewrite !filter_app.
  rewrite (filter_Forall _ l1 H1), (filter_Forall_not _ l2 H2), (filter_Forall _ l2 H2).
  rewrite (filter_Forall_not _ l1), app_nil_r; [done|].
  eapply Forall_impl; [exact H1|]. auto.
Qed.

Lemma sublist_filter_mono (P : entry → Prop) `{∀ e, Decision (P e)} l1 l2 :
  l1 `sublist_of` l2 → filter P l1 `sublist_of` filter P l2.
Proof.
  induction 1 as [|e l1 l2 Hs IH|e l1 l2 Hs IH]; [done|..].
  - destruct (decide (P e)); [rewrite !filter_cons_True by done; by constructor|].
    by rewrite !filter_cons_False by done.
  - destruct (decide (P e)); [rewrite filter_cons_True by done; by constructor|].
    by rewrite filter_cons_False by done.
Qed.

Lemma sorted_sublist l1 l2 : l1 `sublist_of` l2 → sorted l2 → sorted l1.
Proof.
  unfold sorted. induction 1 as [|e l1 l2 Hs IH|e l1 l2 Hs IH]; [done|..];
    rewrite ?StronglySorted_cons; intros [Hall Hl]; [|by apply IH].
  split; [|by apply IH]. rewrite Forall_forall in *. intros e' He'. apply Hall.
  by eapply sublist_subseteq.
Qed.
End laws.

(** ** Paths through the nodes *)

Section paths.
Context {Key : Type} `{Comparator Key}.
Implicit Types sl : SkipList Key.

Definition next_of sl (i : nat) (x : addr) : option (option addr) :=
  n ← nodes sl !! x; mjoin (next_ n !! i).
(** The node has a link on the level, initialised or not. *)
Definition has_link sl (i : nat) (x : addr) : Prop :=
  ∃ n, nodes sl !! x = Some n ∧ (i < length (next_ n))%nat.
Definition key_of sl (x : addr) : option Key := key <$> nodes sl !! x.

(** The links of level [i] lead from [x] through [l] to [e]. *)
Fixpoint path sl (i : nat) (x : addr) (l : list (addr * Key)) (e : option addr) : Prop :=
  match l with
  | [] => next_of sl i x = Some e
  | (y, k) :: l' => next_of sl i x = Some (Some y) ∧ key_of sl y = Some k ∧ path sl i y l' e
  end.

(** The last node of a list that starts with [x]. *)
Fixpoint last_addr (x : addr) (l : list (addr * Key)) : addr :=
  match l with [] => x | (y, _) :: l' => last_addr y l' end.

Definition first_addr (l : list (addr * Key)) (e : option addr) : option addr :=
  match l with [] => e | (y, _) :: _ => Some y end.

Lemma last_addr_app x l1 l2 : last_addr x (l1 ++ l2) = last_addr (last_addr x l1) l2.
Proof. revert x. induction l1 as [|[y k] l1 IH]; intros x; [done|]. apply IH. Qed.

Lemma path_next sl i x l1 l2 e :
  path sl i x (l1 ++ l2) e →
  path sl i x l1 (first_addr l2 e) ∧ path sl i (last_addr x l1) l2 e.
Proof.
  revert x. induction l1 as [|[y k] l1 IH]; intros x Hp; simpl in *.
  - split; [|done]. destruct l2 as [|[y k] l2]; [done|]. by destruct Hp as [? _].
  - destruct Hp as (Hn & Hk & Hp%IH). tauto.
Qed.

Lemma path_join sl i x l1 l2 e :
  path sl i x l1 (first_addr l2 e) → path sl i (last_addr x l1) l2 e → path sl i x (l1 ++ l2) e.
Proof.
  revert x. induction l1 as [|[y k] l1 IH]; intros x Hp Hp2; simpl in *; [done|].
  destruct Hp as (Hn & Hk & Hp). split_and!; [done|done|by apply IH].
Qed.

Lemma path_head sl i x l e : path sl i x l e → next_of sl i x = Some (first_addr l e).
Proof. destruct l as [|[y k] l]; [done|]. by intros [? _]. Qed.

Lemma path_key sl i x l e y k : path sl i x l e → (y, k) ∈ l → key_of sl y = Some k.
Proof.
  revert x. induction l as [|[z kz] l IH]; intros x Hp; [by intros ?%not_elem_of_nil|].
  destruct Hp as (_ & Hk & Hp). intros [[= -> ->]|Hin]%elem_of_cons; [done|by eapply IH].
Qed.

(** A path is the same where the links and the keys are. *)
Lemma path_ext sl sl' i x l e :
  (∀ y, y ∈ x :: (fst <$> l) → next_of sl' i y = next_of sl i y) →
  (∀ y k, (y, k) ∈ l → key_of sl y = Some k → key_of sl' y = Some k) →
  path sl i x l e → path sl' i x l e.
Proof.
  revert x. induction l as [|[y k] l IH]; intros x Hn Hk; simpl in *.
  - intros <-. apply Hn. by left.
  - intros (H1 & H2 & H3). split_and!.
    + rewrite <-H1. apply Hn. by left.
    + apply Hk; [by left|done].
    + apply IH; [intros z Hz; apply Hn; by right|intros z kz Hz; apply Hk; by right|done].
Qed.
End paths.

(** ** The invariant *)

Section inv.
Context {Key : Type} `{ComparatorLaws Key}.
Implicit Types sl : SkipList Key.

(** [L i] is the list of level [i]. *)
Record inv sl (L : nat → list (addr * Key)) : Prop := {
  inv_path i : (i < kMaxHeight)%nat → path sl i (head_ sl) (L i) None;
  inv_sub i : L (S i) `sublist_of` L i;
  inv_sorted : sorted (L 0%nat);
  inv_nodup : NoDup (head_ sl :: (fst <$> L 0%nat));
  inv_height : (1 ≤ max_height_ sl ≤ kMaxHeight)%nat;
  inv_empty i : (max_height_ sl ≤ i)%nat → L i = [];
  inv_length : (length (L 0%nat) < length (nodes sl))%nat;
}.

Lemma inv_sub_le sl L i j : inv sl L → (i ≤ j)%nat → L j `sublist_of` L i.
Proof.
  intros Hi Hij. induction Hij as [|j Hij IH]; [done|].
  etransitivity; [by apply (inv_sub _ _ Hi)|done].
Qed.

Lemma inv_level_sorted sl L i : inv sl L → sorted (L i).
Proof.
  intros Hi. eapply sorted_sublist; [by apply (inv_sub_le sl L 0 i Hi); lia|by apply (inv_sorted _ _ Hi)].
Qed.

Lemma inv_level_nodup sl L i : inv sl L → NoDup (head_ sl :: (fst <$> L i)).
Proof.
  intros Hi. eapply sublist_NoDup; [by apply (inv_nodup _ _ Hi)|].
  constructor. apply fmap_sublist, (inv_sub_le sl L 0 i Hi). lia.
Qed.

Lemma inv_level_length sl L i : inv sl L → (length (L i) < length (nodes sl))%nat.
Proof.
  intros Hi. eapply Nat.le_lt_trans; [|by apply (inv_length _ _ Hi)].
  apply sublist_length, (inv_sub_le sl L 0 i Hi). lia.
Qed.

(** ** Running the accesses *)

Lemma run_Next sl i x v : next_of sl i x = Some v → Next x i sl = Done (v, sl).
Proof.
  unfold next_of, Next, get_state. run_unfold. intros Hx.
  destruct (nodes sl !! x) as [n|]; [|done]. simpl in *. by rewrite Hx.
Qed.

Lemma run_node_key sl x k : key_of sl x = Some k → node_key x sl = Done (k, sl).
Proof.
  unfold key_of, node_key, get_state. run_unfold. intros Hx.
  destruct (nodes sl !! x) as [n|]; [|done]. simpl in *. by simplify_eq.
Qed.

Lemma run_KeyIsAfterNode sl k l e :
  (∀ y ky, (y, ky) ∈ l → key_of sl y = Some ky) → e = None →
  KeyIsAfterNode k (first_addr l e) sl =
  Done (match l with [] => false | (_, ky) :: _ => bool_decide (compare_ ky k < 0) end, sl).
Proof.
  intros Hk ->. destruct l as [|[y ky] l]; [done|]. simpl.
  run_with (run_node_key sl y ky (Hk y ky ltac:(by left))). f_equal. f_equal.
  apply eq_iff_eq_true. by rewrite Z.ltb_lt, bool_decide_eq_true.
Qed.

(** A position: the node [x] is the last of a part of the list of the level. *)
Definition at_node sl (L : nat → list (addr * Key)) (i : nat) (x : addr)
    (l1 l2 : list (addr * Key)) : Prop :=
  L i = l1 ++ l2 ∧ last_addr (head_ sl) l1 = x.

Lemma last_addr_snoc x (l : list (addr * Key)) y k : last_addr x (l ++ [(y, k)]) = y.
Proof. by rewrite last_addr_app. Qed.

(** The node is on the levels below too, and everything before it is before [k]. *)
Lemma at_node_below sl L i x l1 l2 :
  inv sl L → at_node sl L (S i) x l1 l2 →
  ∃ l1' l2', at_node sl L i x l1' l2' ∧
    (∀ k, Forall (before k) l1 → Forall (before k) l1') ∧ (length l2' < length (nodes sl))%nat.
Proof.
  intros Hi [El Ex]. pose proof (inv_level_length sl L i Hi) as Hlen.
  destruct l1 as [|e l1 _] using rev_ind.
  { exists [], (L i). split_and!; [by split|done|done]. }
  assert (e ∈ L i) as Hin.
  { eapply sublist_subseteq; [by apply (inv_sub _ _ Hi)|]. rewrite El.
    apply elem_of_app. left. apply elem_of_app. right. by left. }
  apply list_elem_of_split in Hin as (a & b & E). exists (a ++ [e]), b.
  split; [split|split].
  - by rewrite E, <-app_assoc.
  - destruct e as [y ky]. rewrite last_addr_snoc in Ex. by rewrite last_addr_snoc.
  - intros k Hb. apply Forall_app in Hb as [_ Hb]. apply Forall_cons in Hb as [Hb _].
    apply Forall_app. split; [|by constructor].
    pose proof (inv_level_sorted sl L i Hi) as Hs. unfold sorted in Hs.
    rewrite E in Hs. apply Forall_forall. intros e' He'.
    pose proof (StronglySorted_app_1_elem_of _ _ _ _ _ Hs He' ltac:(by left)) as Hlt.
    unfold before in *. simpl in Hlt. by eapply compare_lt_trans.
  - rewrite E, length_app in Hlen. simpl in Hlen. lia.
Qed.

Lemma at_node_next sl L i x l1 l2 :
  inv sl L → (i < kMaxHeight)%nat → at_node sl L i x l1 l2 →
  next_of sl i x = Some (first_addr l2 None) ∧ (∀ y ky, (y, ky) ∈ l2 → key_of sl y = Some ky).
Proof.
  intros Hi Hl [El <-]. pose proof (inv_path _ _ Hi i Hl) as Hp. rewrite El in Hp.
  apply path_next in Hp as [_ Hp]. split; [by eapply path_head|intros y ky; by eapply path_key].
Qed.

(** Where a search leaves a level: everything before the position is before [k],
    and nothing after it. *)
Lemma at_node_split sl L i x l1 l2 k :
  inv sl L → at_node sl L i x l1 l2 → Forall (before k) l1 →
  match l2 with [] => True | e :: _ => ¬ before k e end →
  l1 = lower k (L i) ∧ l2 = upper k (L i).
Proof.
  intros Hi [El _] Hb Hnb. pose proof (inv_level_sorted sl L i Hi) as Hs.
  rewrite El in Hs |- *. cut (Forall (λ e, ¬ before k e) l2).
  { intros Hn. by destruct (split_unique k l1 l2 Hb Hn) as [-> ->]. }
  apply StronglySorted_app in Hs as (_ & _ & Hs2). destruct l2 as [|e l2]; [done|].
  apply StronglySorted_cons in Hs2 as [Hall _]. constructor; [done|].
  eapply Forall_impl; [exact Hall|]. intros e' Hlt Hb'. unfold before in *.
  apply Hnb. by eapply compare_lt_trans.
Qed.

(** ** FindGreaterOrEqual *)

(** The last node before [k] on a level. *)
Definition pred_node sl (L : nat → list (addr * Key)) (k : Key) (i : nat) : addr :=
  last_addr (head_ sl) (lower k (L i)).

(** What a search that starts on [level] does to the array of its caller. *)
Definition prev_after sl L (k : Key) (level : nat) (prev prev' : option prev_array) : Prop :=
  match prev, prev' with
  | None, None => True
  | Some p, Some p' =>
      length p' = length p ∧
      (∀ i, (i ≤ level)%nat → p' !! i = Some (Some (pred_node sl L k i))) ∧
      (∀ i, (level < i)%nat → p' !! i = p !! i)
  | _, _ => False
  end.

Definition prev_ok (prev : option prev_array) : Prop :=
  match prev with Some p => length p = kMaxHeight | None => True end.

(** [prev[level] = x], if there is an array. *)
Definition prev_set (level : nat) (x : addr) (prev prev' : option prev_array) : Prop :=
  match prev, prev' with
  | Some p, Some p' => p' = <[level := Some x]> p
  | None, None => True
  | _, _ => False
  end.

Lemma prev_after_leave sl L k level prev p1 prev' :
  prev_set level (pred_node sl L k level) prev p1 →
  prev_ok prev → (level < kMaxHeight)%nat →
  match level with O => prev' = p1 | S level' => prev_after sl L k level' p1 prev' end →
  prev_after sl L k level prev prev'.
Proof.
  destruct prev as [p|], p1 as [p1|]; try done; intros Hup Hok Hlev Hrest.
  - destruct prev' as [p'|]; [|by destruct level].
    assert (length p' = length p1 ∧ (∀ i, (i < level)%nat → p' !! i = Some (Some (pred_node sl L k i))) ∧
      (∀ i, (level ≤ i)%nat → p' !! i = p1 !! i)) as (Hl & Hlow & Hhigh).
    { destruct level as [|level]; [simplify_eq; split_and!; [done|lia|done]|].
      destruct Hrest as (Hl & Hlow & Hhigh). split_and!; [done|intros; apply Hlow; lia|intros; apply Hhigh; lia]. }
    simpl. rewrite Hup, length_insert in Hl. split_and!; [done| |].
    + intros i Hi. destruct (decide (i = level)) as [->|]; [|apply Hlow; lia].
      rewrite Hhigh, Hup by lia. unfold prev_ok in Hok. by rewrite list_lookup_insert_eq by lia.
    + intros i Hi. rewrite Hhigh, Hup by lia. by rewrite list_lookup_insert_ne by lia.
  - by destruct level; [subst|].
Qed.

Lemma run_set_prev sl prev level x :
  prev_ok prev → (level < kMaxHeight)%nat →
  ∃ prev', set_prev prev level x sl = Done (prev', sl) ∧ prev_ok prev' ∧
    prev_set level x prev prev'.
Proof.
  unfold set_prev. destruct prev as [p|]; simpl; intros Hp Hl.
  - rewrite bool_decide_eq_true_2 by lia. exists (Some (<[level := Some x]> p)).
    split_and!; [done| |done]. unfold prev_ok. by rewrite length_insert.
  - by exists None.
Qed.

(** A step forward on the level. *)
Lemma find_ge_forward sl L k level x l1 y ky l2 prev :
  inv sl L → (level < kMaxHeight)%nat → at_node sl L level x l1 ((y, ky) :: l2) →
  compare_ ky k < 0 →
  find_ge_step k (x, level, prev) sl = Done (inl (y, level, prev), sl) ∧
  at_node sl L level y (l1 ++ [(y, ky)]) l2.
Proof.
  intros Hi Hlev Hat Hlt. destruct (at_node_next sl L _ x l1 _ Hi Hlev Hat) as [Hn Hk].
  split; [|destruct Hat as [El _]; split; [by rewrite El, <-app_assoc|apply last_addr_snoc]].
  unfold find_ge_step. run_with (run_Next sl level x _ Hn).
  rewrite (run_KeyIsAfterNode sl k _ _ Hk eq_refl). by rewrite bool_decide_eq_true_2.
Qed.

(** The step that leaves the level. *)
Lemma find_ge_leave sl L k level x l1 l2 prev :
  inv sl L → (level < kMaxHeight)%nat → at_node sl L level x l1 l2 →
  match l2 with [] => True | e :: _ => ¬ before k e end → prev_ok prev →
  ∃ prev', find_ge_step k (x, level, prev) sl =
      Done (match level with
            | O => inr (first_addr l2 None, prev')
            | S level' => inl (x, level', prev')
            end, sl) ∧
    prev_ok prev' ∧
    prev_set level x prev prev'.
Proof.
  intros Hi Hlev Hat Hnb Hprev. destruct (at_node_next sl L _ x l1 _ Hi Hlev Hat) as [Hn Hk].
  destruct (run_set_prev sl prev level x Hprev Hlev) as (prev' & Es & Hp' & Hup).
  exists prev'. split_and!; [|done|done].
  unfold find_ge_step. run_with (run_Next sl level x _ Hn).
  rewrite (run_KeyIsAfterNode sl k _ _ Hk eq_refl).
  assert (match l2 with [] => false | (_, ky) :: _ => bool_decide (compare_ ky k < 0) end = false) as ->.
  { destruct l2 as [|[y ky] l2]; [done|]. by apply bool_decide_eq_false_2. }
  rewrite Es. by destruct level.
Qed.

Lemma run_find_ge sl L k :
  inv sl L → ∀ level x l1 l2 prev fuel,
  (level < kMaxHeight)%nat → at_node sl L level x l1 l2 → Forall (before k) l1 → prev_ok prev →
  Z.of_nat (level * (length (nodes sl) + 1) + length l2 + 1) < fuel →
  ∃ prev', loop fuel (find_ge_step k) (x, level, prev) sl =
      Done ((first_addr (upper k (L 0%nat)) None, prev'), sl) ∧
    prev_after sl L k level prev prev'.
Proof.
  intros Hi level. induction level as [|level IHlevel]; intros x l1 l2; revert x l1;
    induction l2 as [|[y ky] l2 IH]; intros x l1 prev fuel Hlev Hat Hb Hprev Hfuel.
  all: cbn [length] in Hfuel.
  all: try (destruct (decide (compare_ ky k < 0)) as [Hlt|Hge];
    [destruct (find_ge_forward sl L k _ x l1 y ky l2 prev Hi Hlev Hat Hlt) as [E Hat'];
     destruct (IH y (l1 ++ [(y, ky)]) prev (fuel - 1)) as (prev' & Er & Hp); [done|done| |done|lia|];
     [apply Forall_app; by split; [|constructor]|];
     exists prev'; split; [rewrite <-Er; apply loop_inl; [lia|done]|done]|]).
  all: match goal with Hat : at_node _ _ ?lv ?x ?l1 ?l2 |- _ =>
    destruct (find_ge_leave sl L k lv x l1 l2 prev Hi Hlev Hat) as (p1 & E & Hp1 & Hup); [done|done|];
    destruct (at_node_split sl L lv x l1 l2 k Hi Hat Hb) as [E1 E2]; [done|];
    assert (pred_node sl L k lv = x) as Ex by (destruct Hat as [_ <-]; unfold pred_node; by rewrite <-E1)
  end.
  1-2: exists p1; split; [rewrite <-E2; apply loop_inr; [lia|done]|]; rewrite <-Ex in Hup;
    by apply (prev_after_leave sl L k 0 prev p1 p1).
  all: destruct (at_node_below sl L level x l1 _ Hi Hat) as (l1' & l2' & Hat' & Hb' & Hl2);
    destruct (IHlevel x l1' l2' p1 (fuel - 1)) as (prev' & Er & Hp); [lia|done|by apply Hb'|done|lia|];
    exists prev'; split; [rewrite <-Er; apply loop_inl; [lia|done]|];
    rewrite <-Ex in Hup; by apply (prev_after_leave sl L k (S level) prev p1 prev').
Qed.

Lemma at_head sl L i : at_node sl L i (head_ sl) [] (L i).
Proof. by split. Qed.

Lemma run_FindGreaterOrEqual sl L k prev :
  inv sl L → prev_ok prev →
  ∃ prev', FindGreaterOrEqual k prev sl =
      Done ((first_addr (upper k (L 0%nat)) None, prev'), sl) ∧
    prev_after sl L k (max_height_ sl - 1) prev prev'.
Proof.
  intros Hi Hp. pose proof (inv_height _ _ Hi) as Hh.
  pose proof (inv_level_length sl L (max_height_ sl - 1) Hi) as Hl.
  destruct (run_find_ge sl L k Hi (max_height_ sl - 1) (head_ sl) [] (L (max_height_ sl - 1)%nat) prev
    (search_fuel sl)) as (prev' & E & Hprev); [lia|apply at_head|done|done| |by exists prev'].
  unfold search_fuel, kMaxHeight in *. nia.
Qed.

(** ** FindLessThan and FindLast *)

(** The node of a position, if it is not the head, has a key that is before [k]. *)
Lemma at_node_assert sl L i x l1 l2 k :
  inv sl L → (i < kMaxHeight)%nat → at_node sl L i x l1 l2 → Forall (before k) l1 →
  x = head_ sl ∨ ∃ kx, key_of sl x = Some kx ∧ compare_ kx k < 0.
Proof.
  intros Hi Hlev [El <-] Hb. destruct l1 as [|[y ky] l1 _] using rev_ind; [by left|right].
  rewrite last_addr_snoc. exists ky. apply Forall_app in Hb as [_ Hb].
  apply Forall_cons in Hb as [Hb _]. split; [|done].
  eapply path_key; [by apply (inv_path _ _ Hi i Hlev)|]. rewrite El.
  apply elem_of_app. left. apply elem_of_app. right. by left.
Qed.

(** A search that goes on while the next entry is [ahead] and then goes down ends at
    the last node of level 0 that is [ahead]. *)
Definition stops_at (ahead : addr * Key → Prop) (l2 : list (addr * Key)) : Prop :=
  match l2 with [] => True | e :: _ => ¬ ahead e end.

Record searches sl L (ahead : addr * Key → Prop) (step : addr * nat → M _ (addr * nat + addr)) : Prop := {
  searches_forward i x l1 y ky l2 :
    (i < kMaxHeight)%nat → at_node sl L i x l1 ((y, ky) :: l2) → Forall ahead l1 →
    ahead (y, ky) → step (x, i) sl = Done (inl (y, i), sl);
  searches_leave i x l1 l2 :
    (i < kMaxHeight)%nat → at_node sl L i x l1 l2 → Forall ahead l1 → stops_at ahead l2 →
    step (x, i) sl = Done (match i with O => inr x | S i' => inl (x, i') end, sl);
  searches_below i x l1 l2 l1' l2' :
    at_node sl L (S i) x l1 l2 → at_node sl L i x l1' l2' →
    (∀ k, Forall (before k) l1 → Forall (before k) l1') → Forall ahead l1 → Forall ahead l1';
}.

Lemma run_search sl L ahead step `{∀ e, Decision (ahead e)} :
  inv sl L → searches sl L ahead step → ∀ i x l1 l2 fuel,
  (i < kMaxHeight)%nat → at_node sl L i x l1 l2 → Forall ahead l1 →
  Z.of_nat (i * (length (nodes sl) + 1) + length l2 + 1) < fuel →
  ∃ x0 l1 l2, loop fuel step (x, i) sl = Done (x0, sl) ∧
    at_node sl L 0 x0 l1 l2 ∧ Forall ahead l1 ∧ stops_at ahead l2.
Proof.
  intros Hi [Hfwd Hleave Hbelow] i. induction i as [|i IHi]; intros x l1 l2; revert x l1;
    induction l2 as [|[y ky] l2 IH]; intros x l1 fuel Hlev Hat Hb Hfuel; cbn [length] in Hfuel.
  all: try (destruct (decide (ahead (y, ky))) as [Hy|Hy];
    [destruct (IH y (l1 ++ [(y, ky)]) (fuel - 1)) as (x0 & a & b & E & Hx);
      [done|destruct Hat as [El _]; split; [by rewrite El, <-app_assoc|apply last_addr_snoc]
      |apply Forall_app; split; [done|by constructor]|lia|];
     exists x0, a, b; split; [rewrite <-E; apply loop_inl; [lia|by eapply Hfwd]|done]|]).
  1: exists x, l1, []; split; [apply loop_inr; [lia|by eapply (Hleave 0%nat)]|done].
  1: exists x, l1, ((y, ky) :: l2); split; [apply loop_inr; [lia|by eapply (Hleave 0%nat)]|done].
  all: destruct (at_node_below sl L i x l1 _ Hi Hat) as (l1' & l2' & Hat' & Hb' & Hl2);
    destruct (IHi x l1' l2' (fuel - 1)) as (x0 & a & b & E & Hx);
      [lia|done|by eapply Hbelow|lia|];
    exists x0, a, b; (split; [|done]); rewrite <-E; apply loop_inl; [lia|by eapply (Hleave (S i))].
Qed.

Lemma run_top_search sl L ahead step `{∀ e, Decision (ahead e)} :
  inv sl L → searches sl L ahead step →
  ∃ x0 l1 l2, loop (search_fuel sl) step (head_ sl, (max_height_ sl - 1)%nat) sl = Done (x0, sl) ∧
    at_node sl L 0 x0 l1 l2 ∧ Forall ahead l1 ∧ stops_at ahead l2.
Proof.
  intros Hi Hs. pose proof (inv_height _ _ Hi) as Hh.
  pose proof (inv_level_length sl L (max_height_ sl - 1) Hi) as Hl.
  eapply (run_search sl L ahead step Hi Hs); [lia|apply at_head|done|].
  unfold search_fuel, kMaxHeight in *. nia.
Qed.

Lemma find_less_searches sl L k : inv sl L → searches sl L (before k) (find_less_step k).
Proof.
  intros Hi.
  assert (∀ i x l1 l2 (c : M _ (addr * nat + addr)), (i < kMaxHeight)%nat → at_node sl L i x l1 l2 →
    Forall (before k) l1 →
    (sl' ← get_state;
     (if bool_decide (x = head_ sl') then mret tt
      else xk ← node_key x; assert_ (compare_ xk k <? 0));; c) sl = c sl) as Hassert.
  { intros i x l1 l2 c Hlev Hat Hb. unfold get_state. run_unfold. case_bool_decide as Hx; [done|].
    destruct (at_node_assert sl L i x l1 l2 k Hi Hlev Hat Hb) as [?|(kx & Hk & Hlt)]; [done|].
    rewrite (run_node_key sl x kx Hk). by rewrite (proj2 (Z.ltb_lt _ _) Hlt). }
  constructor.
  - intros i x l1 y ky l2 Hlev Hat Hb Hy.
    destruct (at_node_next sl L i x l1 _ Hi Hlev Hat) as [Hn Hk].
    unfold find_less_step. rewrite (Hassert i x l1 _ _ Hlev Hat Hb).
    run_with (run_Next sl i x _ Hn). simpl.
    rewrite (run_node_key sl y ky (Hk y ky ltac:(by left))).
    unfold before in Hy. simpl in Hy. by rewrite (proj2 (Z.leb_gt _ _)) by lia.
  - intros i x l1 l2 Hlev Hat Hb Hst.
    destruct (at_node_next sl L i x l1 _ Hi Hlev Hat) as [Hn Hk].
    unfold find_less_step. rewrite (Hassert i x l1 _ _ Hlev Hat Hb).
    run_with (run_Next sl i x _ Hn). destruct l2 as [|[y ky] l2]; simpl; [by destruct i|].
    rewrite (run_node_key sl y ky (Hk y ky ltac:(by left))).
    unfold stops_at, before in Hst. simpl in Hst. rewrite (proj2 (Z.leb_le _ _)) by lia. by destruct i.
  - auto.
Qed.

Lemma run_FindLessThan sl L k :
  inv sl L → FindLessThan k sl = Done (pred_node sl L k 0, sl).
Proof.
  intros Hi. destruct (run_top_search sl L (before k) (find_less_step k) Hi (find_less_searches sl L k Hi))
    as (x0 & l1 & l2 & E & Hat & Hb & Hst).
  destruct (at_node_split sl L 0 x0 l1 l2 k Hi Hat Hb Hst) as [-> _].
  unfold FindLessThan. destruct Hat as [_ <-]. exact E.
Qed.

Lemma find_last_searches sl L : inv sl L → searches sl L (λ _, True) find_last_step.
Proof.
  intros Hi. constructor.
  - intros i x l1 y ky l2 Hlev Hat _ _.
    destruct (at_node_next sl L i x l1 _ Hi Hlev Hat) as [Hn _].
    unfold find_last_step. by run_with (run_Next sl i x _ Hn).
  - intros i x l1 l2 Hlev Hat _ Hst.
    destruct (at_node_next sl L i x l1 _ Hi Hlev Hat) as [Hn _].
    unfold find_last_step. run_with (run_Next sl i x _ Hn).
    destruct l2 as [|e l2]; [by destruct i|by destruct Hst].
  - intros. by apply Forall_true.
Qed.

Lemma run_FindLast sl L : inv sl L → FindLast sl = Done (last_addr (head_ sl) (L 0%nat), sl).
Proof.
  intros Hi. destruct (run_top_search sl L _ _ Hi (find_last_searches sl L Hi))
    as (x0 & l1 & l2 & E & Hat & _ & Hst).
  destruct l2 as [|e l2]; [|by destruct Hst]. destruct Hat as [El <-]. rewrite El, app_nil_r.
  exact E.
Qed.

(** ** Changing a link *)

Definition set_link (x : addr) (i : nat) (y : option addr) sl : SkipList Key :=
  with_nodes (alter (λ n, MkNode (key n) (<[i := Some y]> (next_ n))) x (nodes sl)) sl.

Lemma next_has_link sl i x v : next_of sl i x = Some v → has_link sl i x.
Proof.
  unfold next_of, has_link. destruct (nodes sl !! x) as [n|]; [|done]. simpl. intros Hv.
  exists n. split; [done|]. destruct (next_ n !! i) eqn:E; [by eapply lookup_lt_Some|done].
Qed.

Lemma run_SetNext sl x i y :
  has_link sl i x → SetNext x i y sl = Done (tt, set_link x i y sl).
Proof.
  unfold SetNext, set_link, get_state. run_unfold. intros (n & En & Hi). rewrite En. simpl.
  destruct (lookup_lt_is_Some_2 _ _ Hi) as [v Hv]. rewrite Hv. simpl.
  unfold put_state. do 3 f_equal. rewrite list_insert_alter.
  apply list_alter_ext; [|done]. intros m Hm. pose proof (eq_trans (eq_sym En) Hm) as E. by injection E as <-.
Qed.

Lemma next_of_set_link sl x i y j z :
  has_link sl i x →
  next_of (set_link x i y sl) j z = if decide (z = x ∧ j = i) then Some y else next_of sl j z.
Proof.
  unfold next_of, set_link. simpl. intros (n & En & Hi).
  destruct (decide (z = x)) as [->|Hz].
  - rewrite list_lookup_alter, decide_True, En by done. simpl.
    destruct (decide (j = i)) as [->|Hj].
    + rewrite decide_True by done. by rewrite list_lookup_insert_eq.
    + rewrite decide_False by tauto. by rewrite list_lookup_insert_ne.
  - rewrite list_lookup_alter_ne by done. by rewrite decide_False by tauto.
Qed.

Lemma key_of_set_link sl x i y z : key_of (set_link x i y sl) z = key_of sl z.
Proof.
  unfold key_of, set_link. simpl. destruct (decide (z = x)) as [->|Hz].
  - rewrite list_lookup_alter, decide_True by done. by destruct (nodes sl !! x).
  - by rewrite list_lookup_alter_ne.
Qed.

Lemma length_set_link sl x i y : length (nodes (set_link x i y sl)) = length (nodes sl).
Proof. apply length_alter. Qed.

(** A link of a node that is not on a path, or of another level. *)
Lemma has_link_set_link sl x i y j z : has_link (set_link x i y sl) j z ↔ has_link sl j z.
Proof.
  unfold has_link, set_link. simpl. destruct (decide (z = x)) as [->|].
  - rewrite list_lookup_alter, decide_True by done. destruct (nodes sl !! x) as [n|]; simpl.
    + split; intros (m & [= <-] & Hl); eexists; (split; [done|]); simpl in *; by rewrite ?length_insert in *.
    + split; by intros (? & ? & ?).
  - by rewrite list_lookup_alter_ne.
Qed.

Lemma path_set_link sl x i y j z l e :
  has_link sl i x → (j = i → x ∉ z :: (fst <$> l)) →
  path sl j z l e → path (set_link x i y sl) j z l e.
Proof.
  intros Hx Hno. apply path_ext.
  - intros w Hw. rewrite (next_of_set_link sl x i y j w Hx), decide_False; [done|].
    intros [-> ->]. by apply Hno.
  - intros w k _. by rewrite key_of_set_link.
Qed.

(** The link of the last node of a path. *)
Lemma path_set_last sl i x l e y :
  NoDup (x :: (fst <$> l)) → path sl i x l e → path (set_link (last_addr x l) i y sl) i x l y.
Proof.
  revert x. induction l as [|[z k] l IH]; intros x Hnd Hp; simpl in *.
  - rewrite (next_of_set_link sl x i y i x) by (by eapply next_has_link). by rewrite decide_True.
  - destruct Hp as (Hn & Hk & Hp). apply NoDup_cons in Hnd as [Hx Hnd].
    assert (∃ v, next_of sl i (last_addr z l) = Some v) as [v Hv].
    { clear -Hp. revert z Hp. induction l as [|[w kw] l IH]; intros z Hp; simpl in *; [eauto|].
      apply IH, Hp. }
    split_and!; [|by rewrite key_of_set_link|by apply IH].
    rewrite (next_of_set_link _ _ _ _ _ _ (next_has_link _ _ _ _ Hv)), decide_False; [done|].
    intros [E _]. apply Hx. rewrite E. clear. revert z. induction l as [|[w kw] l IH]; intros z; simpl.
    + by left.
    + right. apply IH.
Qed.

(** A new node does not change the paths. *)
Lemma path_new_node sl n j z l e :
  path sl j z l e → path (with_nodes (nodes sl ++ [n]) sl) j z l e.
Proof.
  assert (∀ w m, nodes sl !! w = Some m → nodes (with_nodes (nodes sl ++ [n]) sl) !! w = Some m) as Hl.
  { intros w m Hw. simpl. by apply lookup_app_l_Some. }
  revert z. induction l as [|[y k] l IH]; intros z; simpl; unfold next_of, key_of.
  - destruct (nodes sl !! z) as [m|] eqn:E; [|done]. by rewrite (Hl _ _ E).
  - intros (H1 & H2 & H3). split_and!; [| |by apply IH].
    + destruct (nodes sl !! z) as [m|] eqn:E; [|done]. by rewrite (Hl _ _ E).
    + destruct (nodes sl !! y) as [m|] eqn:E; [|done]. by rewrite (Hl _ _ E).
Qed.

(** ** Linking a new node

    [inserted L k x j]: the lists when the levels below [j] have the new node. *)
Definition inserted (L : nat → list (addr * Key)) (k : Key) (x : addr) (j i : nat)
    : list (addr * Key) :=
  if decide (i < j)%nat then lower k (L i) ++ (x, k) :: upper k (L i) else L i.

(** The node [x], of [h] levels, is linked on the levels below [j]. *)
Record linking sl (L : nat → list (addr * Key)) (k : Key) (x : addr) (h j : nat) : Prop := {
  linking_inv : inv sl (inserted L k x j);
  linking_old : sorted (L 0%nat) ∧ (∀ i, L (S i) `sublist_of` L i) ∧
    (∀ i, (max_height_ sl ≤ i)%nat → L i = []);
  linking_node : ∃ n, nodes sl !! x = Some n ∧ key n = k ∧ length (next_ n) = h;
  linking_nodup : NoDup (head_ sl :: (fst <$> L 0%nat));
  linking_fresh : x ∉ head_ sl :: (fst <$> L 0%nat);
  linking_no_dup : Forall (λ e, compare_ e.2 k ≠ 0) (L 0%nat);
  linking_length : (S (length (L 0%nat)) < length (nodes sl))%nat;
  linking_height : (h ≤ max_height_ sl)%nat;
}.

Lemma sub_level {A} (L : nat → list A) i : (∀ i, L (S i) `sublist_of` L i) → L i `sublist_of` L 0%nat.
Proof. intros Hs. induction i as [|i IH]; [done|]. etransitivity; [apply Hs|done]. Qed.

Lemma inserted_sub L k x j i :
  sorted (L 0%nat) → (∀ i, L (S i) `sublist_of` L i) →
  inserted L k x j (S i) `sublist_of` inserted L k x j i.
Proof.
  intros Hs Hsub. unfold inserted. destruct (decide (S i < j)%nat).
  - rewrite decide_True by lia. apply sublist_app; [by apply sublist_filter_mono|].
    constructor. by apply sublist_filter_mono.
  - destruct (decide (i < j)%nat); [|done]. etransitivity; [apply Hsub|].
    rewrite (sorted_split k (L i)) at 1 by (eapply sorted_sublist; [by apply sub_level|done]).
    apply sublist_app; [done|]. by constructor.
Qed.

Lemma inserted_sorted L k x j :
  sorted (L 0%nat) → Forall (λ e, compare_ e.2 k ≠ 0) (L 0%nat) → sorted (inserted L k x j 0).
Proof.
  intros Hs Hne. unfold inserted. destruct (decide _); [|done].
  pose proof Hs as Hs'. unfold sorted in Hs. rewrite (sorted_split k (L 0%nat) Hs') in Hs.
  apply StronglySorted_app in Hs as (H12 & H1 & H2).
  assert (∀ e, e ∈ upper k (L 0%nat) → compare_ k e.2 < 0) as Hup.
  { intros e He. unfold upper in He. apply list_elem_of_filter in He as [Hnb He].
    rewrite Forall_forall in Hne. specialize (Hne e He). unfold before in Hnb.
    apply compare_sym. lia. }
  pose proof (lower_before k (L 0%nat)) as Hlow. rewrite Forall_forall in Hlow.
  unfold sorted. apply StronglySorted_app. split_and!; [|done|].
  - intros e1 e2 He1 [->|He2]%elem_of_cons; [by apply Hlow|by apply H12].
  - apply StronglySorted_cons. split; [|done]. apply Forall_forall. auto.
Qed.

Lemma inserted_perm L k x j :
  sorted (L 0%nat) → (0 < j)%nat → inserted L k x j 0 ≡ₚ (x, k) :: L 0%nat.
Proof.
  intros Hs Hj. unfold inserted. rewrite decide_True by done.
  rewrite (sorted_split k (L 0%nat) Hs) at 3. by rewrite Permutation_middle.
Qed.

Lemma last_addr_elem (l : list (addr * Key)) x : last_addr x l ∈ x :: (fst <$> l).
Proof.
  revert x. induction l as [|[y k] l IH]; intros x; simpl; [by left|]. right. apply IH.
Qed.

(** The list of a level after the two stores that link the node on it. *)
Lemma link_path sl j h0 k x l1 l2 :
  let p := last_addr h0 l1 in
  let sl2 := set_link p j (Some x) (set_link x j (first_addr l2 None) sl) in
  path sl j h0 (l1 ++ l2) None → NoDup (h0 :: (fst <$> l1 ++ l2)) → x ∉ h0 :: (fst <$> l1 ++ l2) →
  has_link sl j x → key_of sl x = Some k →
  path sl2 j h0 (l1 ++ (x, k) :: l2) None.
Proof.
  intros p sl2 Hp Hnd Hx Hw Hk. set (v := first_addr l2 None) in *.
  apply path_next in Hp as [Hp1 Hp2]. fold p in Hp2.
  rewrite fmap_app, app_comm_cons in Hnd, Hx. apply NoDup_app in Hnd as (Hnd1 & Hdisj & Hnd2).
  rewrite not_elem_of_app in Hx. destruct Hx as [Hx1 Hx2].
  pose proof (last_addr_elem l1 h0 : p ∈ _) as Hpin.
  assert (p ≠ x) as Hpx by (intros ->; done).
  pose proof (path_head _ _ _ _ _ Hp2) as Hnp.
  assert (next_of (set_link x j v sl) j p = Some v) as Hnp1.
  { rewrite (next_of_set_link sl x j v j p Hw). rewrite decide_False by tauto. done. }
  pose proof (next_has_link _ _ _ _ Hnp1) as Hlp.
  assert (next_of sl2 j x = Some v) as Hnx.
  { unfold sl2. rewrite (next_of_set_link _ p j (Some x) j x Hlp), decide_False by (intros [? _]; congruence).
    rewrite (next_of_set_link sl x j v j x Hw). by rewrite decide_True. }
  assert (∀ z, key_of sl2 z = key_of sl z) as Hkeys
    by (intros z; unfold sl2; by rewrite !key_of_set_link).
  apply path_join.
  - unfold sl2. eapply path_set_last; [done|]. by eapply path_set_link; [done|done|].
  - fold p. simpl. split_and!.
    + unfold sl2. rewrite (next_of_set_link _ p j (Some x) j p Hlp). by rewrite decide_True.
    + by rewrite Hkeys.
    + destruct l2 as [|[y ky] l2]; [exact Hnx|]. destruct Hp2 as (_ & Hky & Hp2).
      split_and!; [exact Hnx|by rewrite Hkeys|].
      unfold sl2. eapply path_set_link; [exact Hlp| |].
      * intros _ Hin. by apply (Hdisj p Hpin).
      * eapply path_set_link; [exact Hw|by intros _|done].
Qed.

Lemma link_step sl L k x h j :
  linking sl L k x h j → (j < h)%nat → (h ≤ kMaxHeight)%nat →
  let p := pred_node sl L k j in
  let v := first_addr (upper k (L j)) None in
  linking (set_link p j (Some x) (set_link x j v sl)) L k x h (S j) ∧
  next_of sl j p = Some v ∧ next_of (set_link x j v sl) j p = Some v ∧
  has_link sl j x.
Proof.
  intros [Hi (Hs & Hsub & He) (n & Hn & Hnk & Hnh) Hnd0 Hx Hne Hlen Hh] Hj Hmax p v.
  assert (has_link sl j x) as Hw by (exists n; split; [done|lia]).
  assert (key_of sl x = Some k) as Hk by (unfold key_of; by rewrite Hn, <-Hnk).
  assert (L j `sublist_of` L 0%nat) as Hsub0 by (by apply sub_level).
  assert (sorted (L j)) as Hsj by (by eapply sorted_sublist).
  assert (inserted L k x j j = L j) as Ej by (unfold inserted; by rewrite decide_False by lia).
  pose proof (inv_path _ _ Hi j ltac:(lia)) as Hpj. rewrite Ej in Hpj.
  pose proof (inv_level_nodup _ _ j Hi) as Hnd. rewrite Ej in Hnd.
  assert (x ∉ head_ sl :: (fst <$> L j)) as Hxj.
  { intros Hin. apply Hx. rewrite elem_of_cons in *. destruct Hin as [?|Hin]; [by left|right].
    eapply sublist_subseteq; [by apply fmap_sublist|done]. }
  assert (p ≠ x) as Hpx.
  { intros E. apply Hxj. rewrite <-E. unfold p, pred_node.
    pose proof (last_addr_elem (lower k (L j)) (head_ sl)) as Hin. rewrite elem_of_cons in *.
    destruct Hin as [?|Hin]; [by left|right].
    eapply sublist_subseteq; [apply fmap_sublist, (sublist_filter (before k))|done]. }
  rewrite (sorted_split k (L j) Hsj) in Hpj, Hnd, Hxj.
  assert (next_of sl j p = Some v) as Hnp by (apply path_next in Hpj as [_ Hp2]; by eapply path_head).
  assert (next_of (set_link x j v sl) j p = Some v) as Hnp1.
  { rewrite (next_of_set_link sl x j v j p Hw), decide_False by tauto. done. }
  split_and!; [|done|done|done].
  pose proof (next_has_link _ _ _ _ Hnp1) as Hlp.
  pose proof (inserted_perm L k x (S j) Hs ltac:(lia)) as Hperm.
  constructor; [|done| |done|done|done|by rewrite !length_set_link|done].
  2: { unfold set_link. simpl. rewrite list_lookup_alter_ne, list_lookup_alter, decide_True by done.
       rewrite Hn. simpl. eexists. split_and!; [done|done|]. simpl. by rewrite length_insert. }
  constructor; [| | | |apply (inv_height _ _ Hi)| |].
  - intros i Hmaxi. destruct (decide (i = j)) as [->|Hij].
    + unfold inserted. rewrite decide_True by lia. by eapply link_path.
    + assert (inserted L k x (S j) i = inserted L k x j i) as ->.
      { unfold inserted. destruct (decide (i < j)%nat); [by rewrite decide_True by lia|].
        by rewrite decide_False by lia. }
      eapply path_set_link; [exact Hlp|by intros <-|].
      eapply path_set_link; [exact Hw|by intros <-|]. by apply (inv_path _ _ Hi).
  - intros i. by apply inserted_sub.
  - by apply inserted_sorted.
  - rewrite Hperm. simpl. apply NoDup_cons in Hnd0 as [Hh0 Hnd0].
    rewrite not_elem_of_cons in Hx. destruct Hx as [Hxh Hx0].
    apply NoDup_cons. split; [rewrite not_elem_of_cons; split; [congruence|done]|].
    by apply NoDup_cons.
  - intros i Hge. simpl in Hge. unfold inserted. rewrite decide_False by lia. by apply He.
  - rewrite Hperm, !length_set_link. simpl. lia.
Qed.

(** All the levels of the node. *)
Lemma run_link_levels sl L k x h prev : ∀ n j,
  linking sl L k x h j → (j + n = h)%nat → (h ≤ kMaxHeight)%nat →
  (∀ i, (i < h)%nat → prev !! i = Some (Some (pred_node sl L k i))) →
  ∃ sl', link_levels x prev j n sl = Done (tt, sl') ∧ linking sl' L k x h h ∧
    head_ sl' = head_ sl ∧ max_height_ sl' = max_height_ sl ∧ rnd_ sl' = rnd_ sl.
Proof.
  intros n. revert sl. induction n as [|n IH]; intros sl j Hlk Hjn Hmax Hprev.
  - replace j with h in Hlk by lia. by exists sl.
  - destruct (link_step sl L k x h j Hlk ltac:(lia) Hmax) as (Hlk' & Hnp & Hnp1 & Hw).
    set (p := pred_node sl L k j) in *. set (v := first_addr (upper k (L j)) None) in *.
    destruct (IH _ (S j) Hlk') as (sl' & E & Hsl'); [lia|done|exact Hprev|].
    exists sl'. split; [|exact Hsl'].
    cbn [link_levels]. unfold link_level. rewrite (Hprev j) by lia. simpl. run_unfold.
    fold p. unfold NoBarrier_Next. rewrite (run_Next sl j p _ Hnp).
    unfold NoBarrier_SetNext. rewrite (run_SetNext sl x j v Hw).
    rewrite (run_SetNext _ p j (Some x) (next_has_link _ _ _ _ Hnp1)). exact E.
Qed.

(** ** Random heights *)

Lemma random_height_range fuel h seed :
  (1 ≤ h ≤ kMaxHeight)%nat → (1 ≤ (random_height fuel h seed).1 ≤ kMaxHeight)%nat.
Proof.
  revert h seed. induction fuel as [|fuel IH]; intros h seed Hh; cbn [random_height]; [exact Hh|].
  case_bool_decide; [|exact Hh]. cbv zeta. generalize (Random_Next seed). intros seed'.
  destruct (_ =? 0); [|exact Hh]. apply IH. lia.
Qed.

Definition with_rnd (seed : Z) sl : SkipList Key :=
  MkSkipList (nodes sl) (head_ sl) (max_height_ sl) seed.

Lemma run_RandomHeight sl :
  ∃ h seed, RandomHeight sl = Done (h, with_rnd seed sl) ∧ (1 ≤ h ≤ kMaxHeight)%nat.
Proof.
  pose proof (random_height_range kMaxHeight 1 (rnd_ sl) ltac:(unfold kMaxHeight; lia)) as Hr.
  unfold RandomHeight, get_state, put_state. run_unfold.
  destruct (random_height kMaxHeight 1 (rnd_ sl)) as [h seed]. cbn [fst] in Hr.
  exists h, seed. split; [|done]. rewrite !bool_decide_eq_true_2 by lia. done.
Qed.

Lemma fill_prev_lookup prev x from n i :
  (from + n ≤ length prev)%nat →
  fill_prev prev x from n !! i =
  if decide (from ≤ i < from + n)%nat then Some (Some x) else prev !! i.
Proof.
  revert prev from. induction n as [|n IH]; intros prev from Hl; simpl.
  - by rewrite decide_False by lia.
  - rewrite IH by (rewrite length_insert; lia). destruct (decide (i = from)) as [->|Hi].
    + rewrite decide_False, decide_True by lia. apply list_lookup_insert_eq. lia.
    + rewrite list_lookup_insert_ne by done.
      destruct (decide (S from ≤ i < S from + n)%nat); [by rewrite decide_True by lia|].
      by rewrite decide_False by lia.
Qed.

(** ** Insertion *)

#[local] Arguments RandomHeight : simpl never.
#[local] Arguments FindGreaterOrEqual : simpl never.
#[local] Arguments link_levels : simpl never.

(** The array [prev] for a node of [h] levels. *)
Lemma insert_prev sl L k h prev' :
  inv sl L → (h ≤ kMaxHeight)%nat →
  prev_after sl L k (max_height_ sl - 1) (Some no_prev) (Some prev') →
  let prev :=
    if bool_decide (max_height_ sl < h)%nat
    then fill_prev prev' (head_ sl) (max_height_ sl) (h - max_height_ sl) else prev' in
  ∀ i, (i < h)%nat → prev !! i = Some (Some (pred_node sl L k i)).
Proof.
  intros Hi Hh (Hlen & Hlow & _) prev i Hih. pose proof (inv_height _ _ Hi) as Hm.
  unfold no_prev in Hlen. rewrite length_replicate in Hlen.
  subst prev. case_bool_decide as Hlt.
  - rewrite fill_prev_lookup by lia. destruct (decide _) as [Hr|Hr]; [|apply Hlow; lia].
    do 2 f_equal. unfold pred_node. by rewrite (inv_empty _ _ Hi i) by lia.
  - apply Hlow. lia.
Qed.

(** The list when the node is allocated and not linked. *)
Lemma linking_start sl L k h seed max' :
  inv sl L → Forall (λ e, compare_ e.2 k ≠ 0) (L 0%nat) → (h ≤ max')%nat →
  (max_height_ sl ≤ max' ≤ kMaxHeight)%nat →
  linking (MkSkipList (nodes sl ++ [MkNode k (replicate h None)]) (head_ sl) max' seed)
    L k (length (nodes sl)) h 0.
Proof.
  intros Hi Hne Hh Hmax. pose proof (inv_length _ _ Hi). pose proof (inv_height _ _ Hi).
  set (n := MkNode k (replicate h None)).
  assert (∀ i z l e, path sl i z l e →
    path (MkSkipList (nodes sl ++ [n]) (head_ sl) max' seed) i z l e) as Hpath.
  { intros i z l e Hp. eapply path_ext; [| |by apply (path_new_node sl n)]; done. }
  assert (∀ i, inserted L k (length (nodes sl)) 0 i = L i) as Ei
    by (intros i; unfold inserted; by rewrite decide_False by lia).
  constructor; simpl.
  - constructor; simpl; try setoid_rewrite Ei.
    + intros i Hmaxi. apply Hpath. by apply (inv_path _ _ Hi).
    + apply (inv_sub _ _ Hi).
    + apply (inv_sorted _ _ Hi).
    + apply (inv_nodup _ _ Hi).
    + lia.
    + intros i Hge. apply (inv_empty _ _ Hi). lia.
    + rewrite length_app. lia.
  - split_and!; [apply (inv_sorted _ _ Hi)|apply (inv_sub _ _ Hi)|].
    intros i Hge. apply (inv_empty _ _ Hi). lia.
  - exists n. split_and!; [by apply list_lookup_middle|done|]. simpl. by rewrite length_replicate.
  - apply (inv_nodup _ _ Hi).
  - assert (∀ y, y ∈ head_ sl :: (fst <$> L 0%nat) → (y < length (nodes sl))%nat) as Hlt.
    { pose proof (inv_path _ _ Hi 0 ltac:(unfold kMaxHeight; lia)) as Hp.
      intros y [->|Hin]%elem_of_cons.
      - apply path_head in Hp. unfold next_of in Hp.
        destruct (nodes sl !! head_ sl) eqn:E; [by eapply lookup_lt_Some|done].
      - apply list_elem_of_fmap in Hin as ([y' ky] & -> & Hin). simpl.
        pose proof (path_key _ _ _ _ _ _ _ Hp Hin) as Hk. unfold key_of in Hk.
        destruct (nodes sl !! y') eqn:E; [by eapply lookup_lt_Some|done]. }
    intros Hin%Hlt. lia.
  - done.
  - rewrite length_app. simpl. lia.
  - done.
Qed.

Lemma run_assert_not_equal sl L k :
  inv sl L → Forall (λ e, compare_ e.2 k ≠ 0) (L 0%nat) →
  assert_not_equal k (first_addr (upper k (L 0%nat)) None) sl = Done (tt, sl).
Proof.
  intros Hi Hne. destruct (upper k (L 0%nat)) as [|[y ky] u] eqn:Eu; [done|]. simpl.
  assert ((y, ky) ∈ L 0%nat) as Hin.
  { apply (list_elem_of_filter (λ e, ¬ before k e) (L 0%nat)). unfold upper in Eu. rewrite Eu. by left. }
  run_with (run_node_key sl y ky
    (path_key _ _ _ _ _ _ _ (inv_path _ _ Hi 0 ltac:(unfold kMaxHeight; lia)) Hin)).
  rewrite Forall_forall in Hne. specialize (Hne _ Hin). simpl in Hne.
  unfold Equal. rewrite (proj2 (Z.eqb_neq _ _)); [done|].
  intros E0. apply Hne. pose proof (compare_sym ky k). pose proof (compare_sym k ky). lia.
Qed.

Lemma run_Insert sl L k :
  inv sl L → Forall (λ e, compare_ e.2 k ≠ 0) (L 0%nat) →
  ∃ sl' x h, Insert k sl = Done (tt, sl') ∧ (1 ≤ h)%nat ∧ inv sl' (inserted L k x h).
Proof.
  intros Hi Hne.
  destruct (run_FindGreaterOrEqual sl L k (Some no_prev) Hi) as (prev' & E & Hp); [done|].
  destruct prev' as [prev'|]; [|done].
  destruct (run_RandomHeight sl) as (h & seed & Eh & Hh).
  pose proof (insert_prev sl L k h prev' Hi ltac:(lia) Hp) as Hprev. cbv zeta in Hprev.
  pose proof (inv_height _ _ Hi) as Hm.
  set (prev := if bool_decide (max_height_ sl < h)%nat then _ else _) in *.
  set (max' := if bool_decide (max_height_ sl < h)%nat then h else max_height_ sl).
  assert ((h ≤ max')%nat ∧ (max_height_ sl ≤ max' ≤ kMaxHeight)%nat) as [Hmax1 Hmax2].
  { unfold max'. case_bool_decide; lia. }
  pose proof (linking_start sl L k h seed max' Hi Hne Hmax1 Hmax2) as Hlk.
  destruct (run_link_levels _ L k (length (nodes sl)) h prev h 0 Hlk) as (sl' & El & Hlk' & _);
    [lia|lia|exact Hprev|].
  exists sl', (length (nodes sl)), h. split_and!; [|lia|apply Hlk'].
  unfold Insert. run_with E. cbn [lift_option]. run_unfold.
  rewrite (run_assert_not_equal sl L k Hi Hne), Eh.
  unfold GetMaxHeight, get_state, put_state, NewNode. run_unfold. cbv beta zeta.
  unfold prev, max' in *. cbn [max_height_ nodes head_ rnd_ with_rnd] in *.
  case_bool_decide; unfold get_state, put_state, with_nodes; run_unfold;
    cbn [max_height_ nodes head_ rnd_]; exact El.
Qed.

(** ** What the list contains *)

Definition contents sl (ks : list Key) : Prop := ∃ L, inv sl L ∧ ks = snd <$> L 0%nat.

Lemma new_inv any : inv (new_skiplist any) (λ _, []).
Proof.
  constructor; simpl.
  - intros i Hi. unfold next_of. cbn [new_skiplist nodes].
    change (mjoin (replicate kMaxHeight (Some (None : option addr)) !! i) = Some None).
    by rewrite lookup_replicate_2.
  - done.
  - constructor.
  - apply NoDup_singleton.
  - unfold kMaxHeight. lia.
  - done.
  - lia.
Qed.

(** The keys before another, and the others. *)
Definition keys_before (k : Key) (ks : list Key) : list Key := filter (λ k', compare_ k' k < 0) ks.
Definition keys_from (k : Key) (ks : list Key) : list Key := filter (λ k', ¬ compare_ k' k < 0) ks.

Lemma fmap_filter_snd (P : Key → Prop) `{∀ k, Decision (P k)} (l : list (addr * Key)) :
  snd <$> filter (λ e, P e.2) l = filter P (snd <$> l).
Proof.
  induction l as [|e l IH]; [done|]. destruct (decide (P e.2)).
  - rewrite filter_cons_True, fmap_cons, fmap_cons, filter_cons_True by done. by f_equal.
  - by rewrite filter_cons_False, fmap_cons, filter_cons_False by done.
Qed.

Lemma keys_before_lower k l : keys_before k (snd <$> l) = snd <$> lower k l.
Proof. unfold keys_before, lower. by rewrite <-fmap_filter_snd. Qed.

Lemma keys_from_upper k l : keys_from k (snd <$> l) = snd <$> upper k l.
Proof. unfold keys_from, upper. by rewrite <-fmap_filter_snd. Qed.

Lemma contents_insert sl ks k :
  contents sl ks → Forall (λ k', compare_ k' k ≠ 0) ks →
  ∃ sl', Insert k sl = Done (tt, sl') ∧ contents sl' (keys_before k ks ++ k :: keys_from k ks).
Proof.
  intros (L & Hi & ->) Hne. rewrite Forall_fmap in Hne.
  destruct (run_Insert sl L k Hi Hne) as (sl' & x & h & E & Hh & Hi').
  exists sl'. split; [done|]. exists (inserted L k x h). split; [done|].
  unfold inserted. rewrite decide_True by lia.
  by rewrite keys_before_lower, keys_from_upper, fmap_app.
Qed.

Lemma contents_sorted sl ks : contents sl ks → StronglySorted (λ a b, compare_ a b < 0) ks.
Proof.
  intros (L & Hi & ->). pose proof (inv_sorted _ _ Hi) as Hs. unfold sorted in Hs.
  induction Hs as [|e l Hs IH Hall]; simpl; [constructor|].
  constructor; [done|]. by apply Forall_fmap.
Qed.

Lemma keys_split sl ks k : contents sl ks → ks = keys_before k ks ++ keys_from k ks.
Proof.
  intros (L & Hi & ->). rewrite keys_before_lower, keys_from_upper, <-fmap_app.
  by rewrite <-(sorted_split k (L 0%nat)) by (apply (inv_sorted _ _ Hi)).
Qed.

Lemma run_Contains sl ks k :
  contents sl ks → Contains k sl = Done (existsb (Equal k) ks, sl).
Proof.
  intros Hc. pose proof Hc as (L & Hi & Eks). pose proof (contents_sorted _ _ Hc) as Hs.
  rewrite (keys_split sl ks k Hc) in Hs |- *. rewrite existsb_app.
  destruct (run_FindGreaterOrEqual sl L k None Hi) as (prev' & E & _); [done|].
  unfold Contains. run_with E.
  assert (existsb (Equal k) (keys_before k ks) = false) as ->.
  { apply not_true_is_false. rewrite existsb_exists. intros (k' & Hin & Heq).
    apply list_elem_of_In, list_elem_of_filter in Hin as [Hlt _].
    apply Z.eqb_eq in Heq. pose proof (compare_sym k' k). lia. }
  simpl. rewrite Eks, keys_from_upper in Hs |- *.
  destruct (upper k (L 0%nat)) as [|[y ky] u] eqn:Eu; [done|]. simpl.
  assert ((y, ky) ∈ L 0%nat) as Hin.
  { apply (list_elem_of_filter (λ e, ¬ before k e) (L 0%nat)). unfold upper in Eu. rewrite Eu. by left. }
  rewrite (run_node_key sl y ky
    (path_key _ _ _ _ _ _ _ (inv_path _ _ Hi 0 ltac:(unfold kMaxHeight; lia)) Hin)).
  destruct (Equal k ky) eqn:Eq; [done|]. simpl. do 2 f_equal.
  symmetry. apply not_true_is_false. rewrite existsb_exists. intros (k' & Hin' & Heq).
  apply list_elem_of_In in Hin'. apply StronglySorted_app in Hs as (_ & _ & Hs).
  apply StronglySorted_cons in Hs as [Hall _]. rewrite Forall_forall in Hall.
  specialize (Hall k' Hin'). simpl in Hall. apply Z.eqb_eq in Heq.
  pose proof (upper_not_before k (L 0%nat)) as Hup. rewrite Eu in Hup.
  apply Forall_cons in Hup as [Hky _]. unfold before in Hky. simpl in Hky.
  apply Hky. apply (compare_lt_le_trans ky k' k); [done|].
  destruct (Z_lt_le_dec 0 (compare_ k' k)) as [Hgt|]; [|done]. apply compare_sym in Hgt. lia.
Qed.

(** ** Iterators *)

Lemma first_addr_key sl L k :
  inv sl L → first_addr (upper k (L 0%nat)) None ≫= key_of sl = head (keys_from k (snd <$> L 0%nat)).
Proof.
  intros Hi. rewrite keys_from_upper. destruct (upper k (L 0%nat)) as [|[y ky] u] eqn:Eu; [done|].
  simpl. eapply path_key; [apply (inv_path _ _ Hi 0); unfold kMaxHeight; lia|].
  apply (list_elem_of_filter (λ e, ¬ before k e) (L 0%nat)). unfold upper in Eu. rewrite Eu. by left.
Qed.

Lemma run_it_key sl y k : key_of sl y = Some k → it_key (Some y) sl = Done (k, sl).
Proof. apply run_node_key. Qed.

(** An iterator after [Seek]. *)
Lemma run_Seek sl ks target :
  contents sl ks →
  ∃ it : Iterator, Seek target sl = Done (it, sl) ∧
    match head (keys_from target ks) with
    | Some k => Valid it = true ∧ it_key it sl = Done (k, sl)
    | None => Valid it = false
    end.
Proof.
  intros (L & Hi & ->). destruct (run_FindGreaterOrEqual sl L target None Hi) as (prev' & E & _); [done|].
  pose proof (first_addr_key sl L target Hi) as Ek.
  set (it := first_addr _ _) in *. exists it. split; [unfold Seek; by run_with E|]. rewrite <-Ek.
  destruct it as [y|] eqn:Ei; [|done]. cbn [mbind option_bind].
  destruct (key_of sl y) as [ky|] eqn:Ey; [split; [done|by apply run_it_key]|].
  cbn [mbind option_bind] in Ek. rewrite Ey in Ek. rewrite keys_from_upper in Ek.
  unfold it in Ei. by destruct (upper target (L 0%nat)).
Qed.

(** What an iterator gives, moved by [step] until it is not valid. *)
Fixpoint collect (step : Iterator → M (SkipList Key) Iterator) (n : nat) (it : Iterator)
    : M (SkipList Key) (list Key) :=
  match n with
  | O => mret []
  | S n' =>
      if Valid it then
        k ← it_key it; it' ← step it; ks ← collect step n' it'; mret (k :: ks)
      else mret []
  end.

Lemma run_it_Next sl y v : next_of sl 0 y = Some v → it_Next (Some y) sl = Done (v, sl).
Proof. apply run_Next. Qed.

Lemma collect_S step n y k it ks sl :
  key_of sl y = Some k → step (Some y) sl = Done (it, sl) → collect step n it sl = Done (ks, sl) →
  collect step (S n) (Some y) sl = Done (k :: ks, sl).
Proof.
  intros Hk Hs Hc. cbn [collect]. unfold Valid. rewrite bool_decide_eq_true_2 by done.
  run_with (run_it_key sl y k Hk). by rewrite Hs, Hc.
Qed.

(** The iterator at the last of some entries. *)
Definition it_last (l : list (addr * Key)) : Iterator := fst <$> last l.

Lemma run_not_head sl L l1 l2 :
  inv sl L → L 0%nat = l1 ++ l2 → not_head (last_addr (head_ sl) l1) sl = Done (it_last l1, sl).
Proof.
  intros Hi El. unfold not_head, get_state. run_unfold. unfold it_last.
  destruct l1 as [|[y ky] l1 _] using rev_ind.
  - by rewrite bool_decide_eq_true_2.
  - rewrite last_addr_snoc, last_snoc. rewrite bool_decide_eq_false_2; [done|]. intros ->.
    pose proof (inv_nodup _ _ Hi) as [Hno _]%NoDup_cons. apply Hno. rewrite El, !fmap_app.
    apply elem_of_app. left. apply elem_of_app. right. by left.
Qed.

(** An iterator at an entry. *)
Lemma run_at_entry sl L l1 y ky l2 :
  inv sl L → L 0%nat = l1 ++ (y, ky) :: l2 →
  key_of sl y = Some ky ∧ it_Next (Some y) sl = Done (first_addr l2 None, sl) ∧
  it_Prev (Some y) sl = Done (it_last l1, sl).
Proof.
  intros Hi El.
  assert (key_of sl y = Some ky) as Hk.
  { eapply path_key; [apply (inv_path _ _ Hi 0); unfold kMaxHeight; lia|].
    rewrite El. apply elem_of_app. right. by left. }
  assert (lower ky (L 0%nat) = l1) as Elow.
  { pose proof (inv_sorted _ _ Hi) as Hs. unfold sorted in Hs. rewrite El in Hs |- *.
    apply StronglySorted_app in Hs as (H1 & _ & H2). apply StronglySorted_cons in H2 as [H2 _].
    apply split_unique.
    - apply Forall_forall. intros e He. apply (H1 e (y, ky)); [done|by left].
    - constructor; [apply compare_lt_irrefl|]. eapply Forall_impl; [exact H2|].
      intros e Hlt Hb. unfold before in Hb. simpl in Hlt.
      by apply (compare_lt_irrefl ky), (compare_lt_trans ky e.2 ky). }
  split_and!; [done| |].
  - destruct (at_node_next sl L 0 y (l1 ++ [(y, ky)]) l2 Hi) as [Hny _];
      [unfold kMaxHeight; lia|split; [by rewrite El, <-app_assoc|apply last_addr_snoc]|].
    by apply run_it_Next.
  - unfold it_Prev. cbn [lift_option]. run_unfold. rewrite (run_node_key sl y ky Hk).
    rewrite (run_FindLessThan sl L ky Hi). unfold pred_node. rewrite Elow.
    apply (run_not_head sl L l1 _ Hi El).
Qed.

Lemma collect_next sl L n l1 l2 :
  inv sl L → L 0%nat = l1 ++ l2 → (length l2 < n)%nat →
  collect it_Next n (first_addr l2 None) sl = Done (snd <$> l2, sl).
Proof.
  intros Hi. revert n l1. induction l2 as [|[y ky] l2 IH]; intros n l1 El Hn;
    (destruct n as [|n]; [simpl in Hn; lia|]); [done|].
  destruct (run_at_entry sl L l1 y ky l2 Hi El) as (Hk & Hnx & _).
  apply (collect_S _ _ _ _ (first_addr l2 None)); [done|done|].
  apply (IH n (l1 ++ [(y, ky)])); [by rewrite El, <-app_assoc|simpl in Hn; lia].
Qed.

Lemma collect_prev sl L n l1 l2 :
  inv sl L → L 0%nat = l1 ++ l2 → (length l1 < n)%nat →
  collect it_Prev n (it_last l1) sl = Done (reverse (snd <$> l1), sl).
Proof.
  intros Hi. revert n l2. induction l1 as [|[y ky] l1 IH] using rev_ind; intros n l2 El Hn;
    (destruct n as [|n]; [simpl in Hn; lia|]); [done|].
  unfold it_last at 1. rewrite last_snoc. cbn [fmap option_fmap option_map fst].
  rewrite length_app in Hn. simpl in Hn. rewrite <-app_assoc in El. simpl in El.
  destruct (run_at_entry sl L l1 y ky l2 Hi El) as (Hk & _ & Hpv).
  rewrite fmap_app, reverse_app. apply (collect_S _ _ _ _ (it_last l1)); [done|done|apply (IH n _ El); lia].
Qed.

(** Where the iterators start. *)
Lemma run_SeekToFirst sl L : inv sl L → SeekToFirst sl = Done (first_addr (L 0%nat) None, sl).
Proof.
  intros Hi. destruct (at_node_next sl L 0 (head_ sl) [] (L 0%nat) Hi) as [Hnx _];
    [unfold kMaxHeight; lia|apply at_head|].
  unfold SeekToFirst, get_state. run_unfold. by rewrite (run_Next sl 0 _ _ Hnx).
Qed.
Lemma run_SeekToLast sl L : inv sl L → SeekToLast sl = Done (it_last (L 0%nat), sl).
Proof.
  intros Hi. unfold SeekToLast. run_with (run_FindLast sl L Hi).
  apply (run_not_head sl L (L 0%nat) [] Hi). by rewrite app_nil_r.
Qed.
Lemma run_Seek_upper sl L target :
  inv sl L → Seek target sl = Done (first_addr (upper target (L 0%nat)) None, sl).
Proof.
  intros Hi. destruct (run_FindGreaterOrEqual sl L target None Hi) as (prev' & E & _); [done|].
  unfold Seek. by run_with E.
Qed.
End inv.

(** ** Theorems *)

Section theorems.
Context {Key : Type} `{ComparatorLaws Key}.
Implicit Types sl : SkipList Key.

(** C33: inserting a key that no entry is equal to ends, whatever the random height
    is, and puts the key at its place among the sorted entries; all the levels keep
    their invariant, so the list goes on working. *)
Theorem Insert_spec sl ks k :
  contents sl ks → Forall (λ k', compare_ k' k ≠ 0) ks →
  ∃ sl', Insert k sl = Done (tt, sl') ∧
    contents sl' (keys_before k ks ++ k :: keys_from k ks) ∧
    keys_before k ks ++ keys_from k ks = ks.
Proof.
  intros Hc Hne. destruct (contents_insert sl ks k Hc Hne) as (sl' & E & Hc').
  exists sl'. split_and!; [done|done|]. symmetry. by eapply keys_split.
Qed.

(** [Contains] ends, changes nothing, and is true exactly when an entry compares
    equal to the key. *)
Theorem Contains_spec sl ks k :
  contents sl ks → ∃ b, Contains k sl = Done (b, sl) ∧ (b = true ↔ ∃ k', k' ∈ ks ∧ compare_ k k' = 0).
Proof.
  intros Hc. exists (existsb (Equal k) ks). split; [by apply run_Contains|].
  rewrite existsb_exists. unfold Equal. setoid_rewrite Z.eqb_eq. by setoid_rewrite <-list_elem_of_In.
Qed.

(** Iterators give the entries in order: all of them from [SeekToFirst], those
    that are not before a target from [Seek], and all of them backwards with [Prev]
    from [SeekToLast]; then they are not valid. *)
Theorem iterator_spec sl ks target n :
  contents sl ks → (length ks < n)%nat →
  (it ← SeekToFirst; collect it_Next n it) sl = Done (ks, sl) ∧
  (it ← Seek target; collect it_Next n it) sl = Done (keys_from target ks, sl) ∧
  (it ← SeekToLast; collect it_Prev n it) sl = Done (reverse ks, sl).
Proof.
  intros (L & Hi & ->) Hn. rewrite length_fmap in Hn. split_and!.
  - run_with (run_SeekToFirst sl L Hi). by apply (collect_next sl L n []).
  - run_with (run_Seek_upper sl L target Hi). rewrite keys_from_upper.
    pose proof (sorted_split target (L 0%nat) (inv_sorted _ _ Hi)) as Es.
    apply (collect_next sl L n (lower target (L 0%nat))); [done|done|].
    rewrite Es, length_app in Hn. lia.
  - run_with (run_SeekToLast sl L Hi).
    apply (collect_prev sl L n (L 0%nat) []); [done|by rewrite app_nil_r|done].
Qed.

(** [Insert] of each key of a list. *)
Fixpoint insert_all (ks : list Key) : M (SkipList Key) unit :=
  match ks with [] => mret tt | k :: ks' => Insert k;; insert_all ks' end.

Lemma insert_all_contents ks : ∀ sl ks0,
  contents sl ks0 → StronglySorted (λ a b, compare_ a b ≠ 0) ks →
  (∀ k k', k ∈ ks → k' ∈ ks0 → compare_ k' k ≠ 0) →
  ∃ sl' ks', insert_all ks sl = Done (tt, sl') ∧ contents sl' ks' ∧ ks' ≡ₚ ks ++ ks0.
Proof.
  induction ks as [|k ks IH]; intros sl ks0 Hc Hne Hne0; [by exists sl, ks0|].
  apply StronglySorted_cons in Hne as [Hall Hne].
  destruct (contents_insert sl ks0 k Hc) as (sl1 & E1 & Hc1).
  { apply Forall_forall. intros k' Hk'. apply Hne0; [by left|done]. }
  assert (keys_before k ks0 ++ k :: keys_from k ks0 ≡ₚ k :: ks0) as Hperm.
  { rewrite (keys_split sl ks0 k Hc) at 3. by rewrite Permutation_middle. }
  destruct (IH sl1 _ Hc1 Hne) as (sl' & ks' & E & Hc' & Hp).
  { intros k1 k' Hk1 Hk'. rewrite Hperm in Hk'. apply elem_of_cons in Hk' as [->|Hk'].
    - rewrite Forall_forall in Hall. by apply Hall.
    - apply Hne0; [by right|done]. }
  exists sl', ks'. split_and!; [|done|].
  - cbn [insert_all]. by run_with E1.
  - rewrite Hp, Hperm. by rewrite <-Permutation_middle.
Qed.

(** C26: from the constructor on, whatever keys are inserted in whatever order, as
    long as no two of them are equal, the list holds them sorted, and a scan gives
    them in that order. *)
Theorem insert_all_sorts any ks n :
  StronglySorted (λ a b, compare_ a b ≠ 0) ks → (length ks < n)%nat →
  ∃ sl ks', insert_all ks (new_skiplist any) = Done (tt, sl) ∧ contents sl ks' ∧
    ks' ≡ₚ ks ∧ StronglySorted (λ a b, compare_ a b < 0) ks' ∧
    (it ← SeekToFirst; collect it_Next n it) sl = Done (ks', sl).
Proof.
  intros Hne Hn. destruct (insert_all_contents ks (new_skiplist any) []) as (sl & ks' & E & Hc & Hp).
  - exists (λ _, []). split; [apply new_inv|done].
  - done.
  - intros k k' _ Hk'. by apply not_elem_of_nil in Hk'.
  - rewrite app_nil_r in Hp. exists sl, ks'. split_and!; [done|done|done|by eapply contents_sorted|].
    destruct Hc as (L & Hi & ->).
    destruct (at_node_next sl L 0 (head_ sl) [] (L 0%nat) Hi) as [Hnx _];
      [unfold kMaxHeight; lia|apply at_head|].
    unfold SeekToFirst, get_state. run_unfold. rewrite (run_Next sl 0 _ _ Hnx).
    apply (collect_next sl L n []); [done|done|].
    rewrite <-(length_fmap snd (L 0%nat)). by rewrite Hp.
Qed.
End theorems.

(** ** Witnesses: a list of numbers *)

#[global] Instance Z_comparator : Comparator Z := Z.sub.
#[global] Instance Z_comparator_laws : ComparatorLaws Z.
Proof. split; unfold compare_, Z_comparator; intros; lia. Qed.

(** The list after the insertion of three numbers. *)
Definition three : SkipList Z :=
  Eval vm_compute in
    match insert_all [30; 10; 20] (new_skiplist 0) with Done (_, sl) => sl | _ => new_skiplist 0 end.

Lemma three_contents : contents three [10; 20; 30].
Proof.
  assert (∀ sl sl' ks k, contents sl ks → Forall (λ k', compare_ k' k ≠ 0) ks →
    Insert k sl = Done (tt, sl') → contents sl' (keys_before k ks ++ k :: keys_from k ks)) as Hins.
  { intros sl sl' ks k Hc Hne E. destruct (contents_insert sl ks k Hc Hne) as (sl1 & E1 & Hc1).
    rewrite E in E1. by injection E1 as ->. }
  assert (contents (new_skiplist 0) []) as H0 by (exists (λ _, []); split; [apply new_inv|done]).
  destruct (insert_all [30; 10; 20] (new_skiplist 0)) as [[[] sl]| |] eqn:E; [|vm_compute in E; discriminate..].
  assert (sl = three) as -> by (vm_compute in E; injection E as <-; reflexivity).
  cbn [insert_all] in E. unfold mbind, M_bind, obind in E.
  destruct (Insert 30 (new_skiplist 0)) as [[[] sl1]| |] eqn:E1; [|discriminate E..].
  destruct (Insert 10 sl1) as [[[] sl2]| |] eqn:E2; [|discriminate E..].
  destruct (Insert 20 sl2) as [[[] sl3]| |] eqn:E3; [|discriminate E..].
  injection E as ->.
  apply (Hins sl2 three [10; 30] 20); [|repeat constructor; discriminate|exact E3].
  apply (Hins sl1 sl2 [30] 10); [|repeat constructor; discriminate|exact E2].
  apply (Hins (new_skiplist 0) sl1 [] 30); [exact H0|constructor|exact E1].
Qed.

Lemma Insert_spec_witness :
  ∃ sl', Insert 25 three = Done (tt, sl') ∧ contents sl' [10; 20; 25; 30] ∧
    [10; 20] ++ [30] = [10; 20; 30].
Proof. apply (Insert_spec three [10; 20; 30] 25 three_contents). repeat constructor; discriminate. Defined.

Lemma Contains_spec_witness :
  (∃ b, Contains 20 three = Done (b, three) ∧
    (b = true ↔ ∃ k', k' ∈ [10; 20; 30] ∧ compare_ 20 k' = 0)) ∧
  Contains 20 three = Done (true, three) ∧ Contains 25 three = Done (false, three).
Proof.
  split; [exact (Contains_spec three [10; 20; 30] 20 three_contents)|].
  split; vm_compute; reflexivity.
Defined.

Lemma iterator_spec_witness :
  (it ← SeekToFirst; collect it_Next 4 it) three = Done ([10; 20; 30], three) ∧
  (it ← Seek 15; collect it_Next 4 it) three = Done ([20; 30], three) ∧
  (it ← SeekToLast; collect it_Prev 4 it) three = Done ([30; 20; 10], three).
Proof. apply (iterator_spec three [10; 20; 30] 15 4 three_contents). simpl. lia. Defined.

Lemma insert_all_sorts_witness :
  ∃ sl ks', insert_all [30; 10; 20] (new_skiplist 0) = Done (tt, sl) ∧ contents sl ks' ∧
    ks' ≡ₚ [30; 10; 20] ∧ StronglySorted (λ a b, compare_ a b < 0) ks' ∧
    (it ← SeekToFirst; collect it_Next 4 it) sl = Done (ks', sl).
Proof. apply insert_all_sorts; [repeat constructor; discriminate|simpl; lia]. Defined.
