(* ===== verification/SkipListConc.v ===== *)
(** * leveldb: searches during an insertion

    Readers of the skip list take no lock. One writer inserts while a reader searches, and
    the barriers of skiplist.h are what orders their accesses. Stores without a barrier
    (the greatest height, the new node, its links) are seen by the writer at once, but wait
    in a buffer and reach the memory that the reader sees later, in any order. A release
    store ([SetNext]) is made when all stores before it have reached the memory. Loads of
    the reader are made in their order, as acquire loads are. The relation [step] has one
    step for each load of the reader, each store of the writer, and each store that
    reaches the memory. *)
From stdpp Require Import sorting relations.
From S2P Require Import Prelude LdbRandom SkipList SkipListSpec.

Section conc.
Context {Key : Type} `{ComparatorLaws Key}.
Implicit Types sl : SkipList Key.

(** ** The threads *)

(** Where the writer is in [Insert]. *)
Inductive writer : Type :=
  | WIdle
  | WHeight (k : Key) (prev : prev_array) (h : nat)        (* before max_height_ is stored *)
  | WNode (k : Key) (prev : prev_array) (h : nat)          (* before the node is allocated *)
  | WInit (k : Key) (x h : nat) (prev : prev_array) (j : nat)     (* before x->next_[j] is stored *)
  | WPublish (k : Key) (x h : nat) (prev : prev_array) (j : nat). (* before prev[j]->next_[j] is *)

(** Where the reader is in [FindGreaterOrEqual(key, NULL)]. *)
Inductive reader : Type :=
  | RIdle
  | RSearch (k : Key) (x : nat) (level : nat)
  | RFound (k : Key) (result : option nat).

(** The stores of the writer that are not release stores. *)
Inductive store : Type :=
  | StHeight (h : nat)                                (* max_height_.NoBarrier_Store *)
  | StNode (k : Key) (h : nat)                        (* new (mem) Node(key) *)
  | StLink (x i : nat) (y : option nat).              (* x->NoBarrier_SetNext(i, y) *)
Definition apply_store (t : store) : M (SkipList Key) unit :=
  match t with
  | StHeight h => sl ← get_state; put_state (MkSkipList (nodes sl) (head_ sl) h (rnd_ sl))
  | StNode k h => NewNode k h;; mret tt
  | StLink x i y => NoBarrier_SetNext x i y
  end.

(** What the writer sees: the memory after its own stores, in their order. *)
Fixpoint own (pending : list store) : M (SkipList Key) unit :=
  match pending with
  | [] => mret tt
  | t :: pending => apply_store t;; own pending
  end.

(** The memory, and the stores that did not reach it yet. *)
Record system := System { s_list : SkipList Key; s_pending : list store; s_writer : writer; s_reader : reader }.

(** The writer after the level [j]. *)
Definition next_level (k : Key) (x h : nat) (prev : prev_array) (j : nat) : writer :=
  if bool_decide (S j < h)%nat then WInit k x h prev (S j) else WIdle.

Inductive step : system → system → Prop :=
  | step_search sl sl' pd me k x prev h r :
      (* only the writer changes the list: its own search is not disturbed *)
      own pd sl = Done (tt, me) →
      FindGreaterOrEqual k (Some no_prev) me = Done ((x, Some prev), me) →
      assert_not_equal k x me = Done (tt, me) →
      RandomHeight sl = Done (h, sl') →
      step (System sl pd WIdle r) (System sl' pd (WHeight k prev h) r)
  | step_height sl pd me k prev h r :
      own pd sl = Done (tt, me) →
      step (System sl pd (WHeight k prev h) r)
        (if bool_decide (max_height_ me < h)%nat
         then System sl (pd ++ [StHeight h]) (WNode k (fill_prev prev (head_ me) (max_height_ me) (h - max_height_ me)) h) r
         else System sl pd (WNode k prev h) r)
  | step_alloc sl pd me me' k prev h x r :
      own pd sl = Done (tt, me) → NewNode k h me = Done (x, me') →
      step (System sl pd (WNode k prev h) r) (System sl (pd ++ [StNode k h]) (WInit k x h prev 0) r)
  | step_init sl pd me k x h prev j p next r :
      own pd sl = Done (tt, me) → mjoin (prev !! j) = Some p → NoBarrier_Next p j me = Done (next, me) →
      step (System sl pd (WInit k x h prev j) r) (System sl (pd ++ [StLink x j next]) (WPublish k x h prev j) r)
  | step_publish sl sl' pd k x h prev j p r :
      (* a release store *)
      pd = [] → mjoin (prev !! j) = Some p → SetNext p j (Some x) sl = Done (tt, sl') →
      step (System sl pd (WPublish k x h prev j) r) (System sl' pd (next_level k x h prev j) r)
  | step_commit sl sl' pd1 t pd2 w r :
      apply_store t sl = Done (tt, sl') →
      step (System sl (pd1 ++ t :: pd2) w r) (System sl' (pd1 ++ pd2) w r)
  | step_read_start sl pd w k r :
      step (System sl pd w r) (System sl pd w (RSearch k (head_ sl) (max_height_ sl - 1)))
  | step_read sl pd w k x level x' level' :
      find_ge_step k (x, level, None) sl = Done (inl (x', level', None), sl) →
      step (System sl pd w (RSearch k x level)) (System sl pd w (RSearch k x' level'))
  | step_read_end sl pd w k x level result :
      find_ge_step k (x, level, None) sl = Done (inr (result, None), sl) →
      step (System sl pd w (RSearch k x level)) (System sl pd w (RFound k result)).

(** ** The invariant *)

(** The lists [L] of the levels, at any moment of an insertion. *)
Inductive writer_inv sl : writer → (nat → list (nat * Key)) → Prop :=
  | winv_idle L : inv sl L → writer_inv sl WIdle L
  | winv_height L k prev h :
      inv sl L → Forall (λ e, compare_ e.2 k ≠ 0) (L 0%nat) → (1 ≤ h ≤ kMaxHeight)%nat →
      prev_after sl L k (max_height_ sl - 1) (Some no_prev) (Some prev) →
      writer_inv sl (WHeight k prev h) L
  | winv_node L k prev h :
      inv sl L → Forall (λ e, compare_ e.2 k ≠ 0) (L 0%nat) → (1 ≤ h ≤ kMaxHeight)%nat →
      (h ≤ max_height_ sl)%nat →
      (∀ i, (i < h)%nat → prev !! i = Some (Some (pred_node sl L k i))) →
      writer_inv sl (WNode k prev h) L
  | winv_init L0 L k x h prev j :
      linking sl L0 k x h j → L = inserted L0 k x j → (j < h ≤ kMaxHeight)%nat →
      (∀ i, (i < h)%nat → prev !! i = Some (Some (pred_node sl L0 k i))) →
      writer_inv sl (WInit k x h prev j) L
  | winv_publish L0 L k x h prev j :
      linking sl L0 k x h j → L = inserted L0 k x j → (j < h ≤ kMaxHeight)%nat →
      (∀ i, (i < h)%nat → prev !! i = Some (Some (pred_node sl L0 k i))) →
      next_of sl j x = Some (first_addr (upper k (L0 j)) None) →
      writer_inv sl (WPublish k x h prev j) L.

Lemma writer_inv_inv sl w L : writer_inv sl w L → inv sl L.
Proof. intros []; subst; first [done|by eapply linking_inv]. Qed.

(** The reader is at the head, or at an entry of its level that is before its key. *)
Definition reader_inv sl (L : nat → list (nat * Key)) (r : reader) : Prop :=
  match r with
  | RSearch k x level =>
      (level < kMaxHeight)%nat ∧ (x = head_ sl ∨ ∃ kx, (x, kx) ∈ L level ∧ compare_ kx k < 0)
  | _ => True
  end.

(** What can be pending: at most one store of each kind, the last link of the new node only. *)
Definition height_store sl (l : list store) : Prop := l = [] ∨ ∃ h, l = [StHeight h] ∧ (max_height_ sl < h ≤ kMaxHeight)%nat.
Definition node_store sl (x : nat) (l : list store) : Prop := l = [] ∨ ∃ k h, l = [StNode k h] ∧ x = length (nodes sl).
Definition link_store (x j : nat) (l : list store) : Prop := l = [] ∨ ∃ v, l = [StLink x j v].
Inductive buffered sl : writer → list store → Prop :=
  | bf_idle : buffered sl WIdle []
  | bf_height k prev h : buffered sl (WHeight k prev h) []
  | bf_node k prev h hs : height_store sl hs → buffered sl (WNode k prev h) hs
  | bf_init k x h prev j hs ns : height_store sl hs → node_store sl x ns → buffered sl (WInit k x h prev j) (hs ++ ns)
  | bf_publish k x h prev j hs ns ls :
      height_store sl hs → node_store sl x ns → link_store x j ls → buffered sl (WPublish k x h prev j) (hs ++ ns ++ ls).

Record system_inv (s : system) (me : SkipList Key) (L : nat → list (nat * Key)) : Prop := {
  si_own : own (s_pending s) (s_list s) = Done (tt, me);
  si_writer : writer_inv me (s_writer s) L;
  si_memory : inv (s_list s) L;
  si_buffered : buffered (s_list s) (s_writer s) (s_pending s);
  si_reader : reader_inv (s_list s) L (s_reader s);
}.

(** The lists only grow. *)
Definition grows (L L' : nat → list (nat * Key)) : Prop := ∀ i, L i `sublist_of` L' i.

Lemma reader_inv_grows sl sl' L L' r :
  reader_inv sl L r → head_ sl' = head_ sl → grows L L' → reader_inv sl' L' r.
Proof.
  destruct r as [|k x level|]; [done| |done]. simpl. intros [Hl [Hx|(kx & Hin & Hlt)]] Hh Hg.
  - split; [done|left; congruence].
  - split; [done|right]. exists kx. split; [|done]. eapply sublist_subseteq; [apply Hg|done].
Qed.

(** ** The writer *)

Lemma set_link_id sl i x v : next_of sl i x = Some v → set_link x i v sl = sl.
Proof.
  unfold next_of, set_link, with_nodes. intros Hx. destruct sl as [l h m r]. simpl in *. f_equal.
  apply list_eq. intros j. destruct (decide (j = x)) as [->|]; [|by rewrite list_lookup_alter_ne].
  rewrite list_lookup_alter, decide_True by done. destruct (l !! x) as [[kn nx]|]; [|done].
  simpl in *. rewrite list_insert_id; [done|]. by destruct (nx !! i) as [[]|]; simplify_eq/=.
Qed.

Lemma inserted_grows L k x j :
  sorted (L 0%nat) → (∀ i, L (S i) `sublist_of` L i) → grows (inserted L k x j) (inserted L k x (S j)).
Proof.
  intros Hs Hsub i. unfold inserted. destruct (decide (i < j)%nat); [by rewrite decide_True by lia|].
  destruct (decide _); [|done].
  rewrite (sorted_split k (L i)) at 1 by (eapply sorted_sublist; [by apply sub_level|done]).
  apply sublist_app; [done|]. by constructor.
Qed.

(** A link of the new node, on a level that does not have it yet. *)
Lemma linking_init sl L k x h j v :
  linking sl L k x h j → has_link sl j x → linking (set_link x j v sl) L k x h j.
Proof.
  intros [Hi Hold (n & Hn & Hnk & Hnh) Hnd0 Hx Hne Hlen Hh] Hw.
  constructor; [|done| |done|done|done|by rewrite length_set_link|done].
  - destruct Hi as [Hp Hsub Hs Hnd Hm He Hl].
    constructor; [|done|done|done|done|done|by rewrite length_set_link].
    intros i Hmax. eapply path_set_link; [exact Hw| |by apply Hp]. intros ->.
    intros Hin. apply Hx. unfold inserted in Hin. rewrite decide_False in Hin by lia.
    rewrite elem_of_cons in *. destruct Hin as [?|Hin]; [by left|right].
    eapply sublist_subseteq; [apply fmap_sublist, sub_level, Hold|done].
  - unfold set_link. simpl. rewrite list_lookup_alter, decide_True, Hn by done. simpl.
    eexists. split_and!; [done|done|]. simpl. by rewrite length_insert.
Qed.

(** The assertion tells that no entry is equal to the key. *)
Lemma assert_no_dup sl L k :
  inv sl L → assert_not_equal k (first_addr (upper k (L 0%nat)) None) sl = Done (tt, sl) →
  Forall (λ e, compare_ e.2 k ≠ 0) (L 0%nat).
Proof.
  intros Hi Ha. pose proof (inv_sorted _ _ Hi) as Hs. rewrite (sorted_split k _ Hs).
  apply Forall_app. split.
  { eapply Forall_impl; [apply lower_before|]. intros e. unfold before. lia. }
  pose proof (upper_not_before k (L 0%nat)) as Hup.
  pose proof Hs as Hs'. unfold sorted in Hs'. rewrite (sorted_split k _ Hs) in Hs'.
  apply StronglySorted_app in Hs' as (_ & _ & Hs').
  assert (∀ e, e ∈ upper k (L 0%nat) → e ∈ L 0%nat) as Hsub
    by (intros e; unfold upper; rewrite list_elem_of_filter; tauto).
  destruct (upper k (L 0%nat)) as [|[y ky] u] eqn:Eu; [done|]. simpl in Ha.
  revert Ha. run_with (run_node_key sl y ky (path_key _ _ _ _ _ _ _
    (inv_path _ _ Hi 0 ltac:(unfold kMaxHeight; lia)) (Hsub (y, ky) ltac:(by left)))).
  unfold Equal. destruct (Z.eqb_spec (compare_ k ky) 0) as [|Hne]; [done|]. intros _.
  apply Forall_cons in Hup as [Hky _]. unfold before in Hky. simpl in Hky.
  assert (compare_ k ky < 0) as Hlt.
  { destruct (Z_lt_le_dec (compare_ k ky) 0) as [|Hle]; [done|].
    assert (0 < compare_ k ky) as Hpos by lia. apply compare_sym in Hpos. lia. }
  apply StronglySorted_cons in Hs' as [Hall _].
  constructor.
  - simpl. intros E. apply compare_sym in Hlt. lia.
  - eapply Forall_impl; [exact Hall|]. intros e He E. simpl in He.
    pose proof (compare_lt_trans k ky e.2 Hlt He) as Hlt'. apply compare_sym in Hlt'. lia.
Qed.
(** Neither the greatest height, when it grows, nor the seed matters. *)
Lemma inv_params sl L max' seed :
  inv sl L → (max_height_ sl ≤ max' ≤ kMaxHeight)%nat →
  inv (MkSkipList (nodes sl) (head_ sl) max' seed) L.
Proof.
  intros [Hp Hsub Hs Hnd Hm He Hl] Hmax. constructor; simpl; [|done|done|done|lia| |done].
  - intros i Hi. eapply path_ext; [| |by apply Hp]; done.
  - intros i Hi. apply He. lia.
Qed.

Lemma pred_node_head sl sl' L k i : head_ sl' = head_ sl → pred_node sl' L k i = pred_node sl L k i.
Proof. unfold pred_node. by intros ->. Qed.

Lemma writer_height sl L k prev h :
  writer_inv sl (WHeight k prev h) L →
  let max' := if bool_decide (max_height_ sl < h)%nat then h else max_height_ sl in
  writer_inv (MkSkipList (nodes sl) (head_ sl) max' (rnd_ sl))
    (WNode k (if bool_decide (max_height_ sl < h)%nat
              then fill_prev prev (head_ sl) (max_height_ sl) (h - max_height_ sl) else prev) h) L.
Proof.
  inversion 1 as [|? ? ? ? Hi Hne Hh Hp| | |]; subst. pose proof (inv_height _ _ Hi).
  constructor.
  - apply inv_params; [done|]. case_bool_decide; lia.
  - done.
  - lia.
  - simpl. case_bool_decide; lia.
  - exact (insert_prev sl L k h prev Hi (proj2 Hh) Hp).
Qed.

Lemma writer_alloc sl L k prev h x sl' :
  writer_inv sl (WNode k prev h) L → NewNode k h sl = Done (x, sl') →
  writer_inv sl' (WInit k x h prev 0) (inserted L k x 0) ∧ head_ sl' = head_ sl.
Proof.
  inversion 1 as [| |? ? ? ? Hi Hne Hh Hm Hp| |]; subst.
  unfold NewNode, get_state, put_state, with_nodes. run_unfold. intros [= <- <-].
  split; [|done]. eapply winv_init; [|done|lia|exact Hp].
  apply linking_start; [done..|lia|]. pose proof (inv_height _ _ Hi). lia.
Qed.

Lemma writer_init sl L k x h prev j p next sl' :
  writer_inv sl (WInit k x h prev j) L → mjoin (prev !! j) = Some p →
  NoBarrier_Next p j sl = Done (next, sl) → NoBarrier_SetNext x j next sl = Done (tt, sl') →
  writer_inv sl' (WPublish k x h prev j) L ∧ head_ sl' = head_ sl.
Proof.
  inversion 1 as [| | |L0 ? ? ? ? ? ? Hlk EL Hj Hp|]; subst. rewrite Hp by lia. intros [= <-].
  destruct (link_step sl L0 k x h j Hlk) as (_ & Hn & _ & Hw); [lia|lia|].
  unfold NoBarrier_Next, NoBarrier_SetNext. rewrite (run_Next sl j _ _ Hn). intros [= <-].
  rewrite (run_SetNext sl x j _ Hw). intros [= <-]. split; [|done].
  econstructor; [by eapply linking_init|done|done|exact Hp|].
  rewrite (next_of_set_link sl x j _ j x Hw). by rewrite decide_True.
Qed.

Lemma writer_publish sl L k x h prev j p sl' :
  writer_inv sl (WPublish k x h prev j) L → mjoin (prev !! j) = Some p →
  SetNext p j (Some x) sl = Done (tt, sl') →
  ∃ L', writer_inv sl' (next_level k x h prev j) L' ∧ grows L L' ∧ head_ sl' = head_ sl.
Proof.
  inversion 1 as [| | | |L0 ? ? ? ? ? ? Hlk EL Hj Hp Hx]; subst. rewrite Hp by lia. intros [= <-].
  destruct (link_step sl L0 k x h j Hlk) as (Hlk' & Hn & _ & _); [lia|lia|].
  rewrite (set_link_id sl j x _ Hx) in Hlk'. rewrite (run_SetNext sl _ j _ (next_has_link _ _ _ _ Hn)). intros [= <-].
  exists (inserted L0 k x (S j)). split_and!; [|apply inserted_grows; apply Hlk|done].
  unfold next_level. case_bool_decide.
  - by econstructor; [exact Hlk'| |lia|].
  - constructor. apply Hlk'.
Qed.

(** ** The reader *)

Lemma reader_at sl L k x level :
  inv sl L → reader_inv sl L (RSearch k x level) →
  ∃ l1 l2, at_node sl L level x l1 l2 ∧ Forall (before k) l1.
Proof.
  intros Hi [_ [->|(kx & Hin & Hlt)]]; [exists [], (L level); split; [apply at_head|done]|].
  apply list_elem_of_split in Hin as (a & b & E). exists (a ++ [(x, kx)]), b.
  split; [split; [by rewrite E, <-app_assoc|apply last_addr_snoc]|].
  apply Forall_app. split; [|by constructor].
  pose proof (inv_level_sorted sl L level Hi) as Hs. unfold sorted in Hs. rewrite E in Hs.
  apply Forall_forall. intros e He.
  pose proof (StronglySorted_app_1_elem_of _ _ _ _ _ Hs He ltac:(by left)) as Hlt'.
  unfold before in *. simpl in Hlt'. by eapply compare_lt_trans.
Qed.

(** One turn of the search is defined, keeps the invariant and, when it is the
    last one, gives the first entry of the moment that is not before the key. *)
Lemma reader_turn sl L k x level :
  inv sl L → reader_inv sl L (RSearch k x level) →
  ∃ r, find_ge_step k (x, level, None) sl = Done (r, sl) ∧
    match r with
    | inl (x', level', prev) => prev = None ∧ reader_inv sl L (RSearch k x' level')
    | inr (result, prev) => prev = None ∧ result = first_addr (upper k (L 0%nat)) None
    end.
Proof.
  intros Hi Hr. destruct (reader_at sl L k x level Hi Hr) as (l1 & l2 & Hat & Hb).
  destruct Hr as [Hlev Hx].
  assert (match l2 with [] => True | e :: _ => ¬ before k e end →
    ∃ r, find_ge_step k (x, level, None) sl = Done (r, sl) ∧
      match r with
      | inl (x', level', prev) => prev = None ∧ reader_inv sl L (RSearch k x' level')
      | inr (result, prev) => prev = None ∧ result = first_addr (upper k (L 0%nat)) None
      end) as Hleave.
  { intros Hnb. destruct (find_ge_leave sl L k level x l1 l2 None Hi Hlev Hat Hnb) as (p & E & _ & Hp); [done|].
    destruct p; [done|]. eexists. split; [exact E|].
    destruct (at_node_split sl L level x l1 l2 k Hi Hat Hb Hnb) as [_ ->].
    destruct level as [|level]; [done|]. split; [done|]. split; [lia|].
    destruct Hx as [?|(kx & Hin & ?)]; [by left|right]. exists kx. split; [|done].
    eapply sublist_subseteq; [apply (inv_sub _ _ Hi)|done]. }
  destruct l2 as [|[y ky] l2]; [by apply Hleave|].
  destruct (decide (compare_ ky k < 0)) as [Hlt|Hge]; [|by apply Hleave].
  destruct (find_ge_forward sl L k level x l1 y ky l2 None Hi Hlev Hat Hlt) as [E [El _]].
  eexists. split; [exact E|]. split; [done|]. split; [done|right]. exists ky. split; [|done].
  rewrite El. apply elem_of_app. left. apply elem_of_app. right. by left.
Qed.

(** ** Pending stores *)

Lemma own_app pd1 pd2 sl me : own pd1 sl = Done (tt, me) → own (pd1 ++ pd2) sl = own pd2 me.
Proof.
  revert sl. induction pd1 as [|t pd1 IH]; intros sl; cbn [own app]; [by intros [= <-]|]. run_unfold.
  destruct (apply_store t sl) as [[[] sl1]| |]; [|done..]. apply IH.
Qed.
Lemma own_one t me me' : apply_store t me = Done (tt, me') → own [t] me = Done (tt, me').
Proof. intros E. cbn [own]. run_unfold. by rewrite E. Qed.
Lemma own_snoc pd t sl me me' : own pd sl = Done (tt, me) → apply_store t me = Done (tt, me') → own (pd ++ [t]) sl = Done (tt, me').
Proof. intros Eo Et. rewrite (own_app _ _ _ _ Eo). by apply own_one. Qed.

Lemma SetNext_done sl x i y sl' : SetNext x i y sl = Done (tt, sl') → has_link sl i x ∧ sl' = set_link x i y sl.
Proof.
  intros E. assert (has_link sl i x) as Hx; [|split; [done|]; rewrite (run_SetNext sl x i y Hx) in E; by injection E].
  revert E. unfold SetNext, get_state, has_link. run_unfold. destruct (nodes sl !! x) as [n|] eqn:En; [|done]. cbn [lift_option]. run_unfold.
  destruct (next_ n !! i) as [v|] eqn:Ei; [|done]. intros _. exists n. split; [done|]. by eapply lookup_lt_Some.
Qed.
Lemma apply_head t sl sl' : apply_store t sl = Done (tt, sl') → head_ sl' = head_ sl.
Proof. destruct t; cbn [apply_store]; [by intros [= <-]..|]. by intros [_ ->]%SetNext_done. Qed.
Lemma own_head pd sl me : own pd sl = Done (tt, me) → head_ me = head_ sl.
Proof.
  revert sl. induction pd as [|t pd IH]; intros sl; cbn [own]; [by intros [= <-]|]. run_unfold.
  destruct (apply_store t sl) as [[[] sl1]| |] eqn:E; [|done..]. intros Eo. rewrite (IH _ Eo). by eapply apply_head.
Qed.

Lemma inv_ext sl L L' : (∀ i, L i = L' i) → inv sl L → inv sl L'.
Proof. intros HL [? ? ? ? ? ? ?]. constructor; try setoid_rewrite <-HL; done. Qed.
Lemma inv_new_node sl L n : inv sl L → inv (with_nodes (nodes sl ++ [n]) sl) L.
Proof.
  intros Hi. constructor; try apply Hi.
  - intros i Him. apply path_new_node. by apply (inv_path _ _ Hi).
  - cbn. rewrite length_app. pose proof (inv_length _ _ Hi). lia.
Qed.
Lemma inv_set_link sl L x j v : inv sl L → has_link sl j x → x ∉ head_ sl :: (fst <$> L j) → inv (set_link x j v sl) L.
Proof.
  intros Hi Hl Hx. constructor; try apply Hi.
  - intros i Him. apply path_set_link; [done|by intros ->|]. by apply (inv_path _ _ Hi).
  - rewrite length_set_link. apply (inv_length _ _ Hi).
Qed.

(** A store that reaches the memory: the writer sees what it saw. *)
Lemma commit_shape sl sl' me L x j hs ns ls pd1 t pd2 :
  height_store sl hs → node_store sl x ns → link_store x j ls → pd1 ++ t :: pd2 = hs ++ ns ++ ls →
  own (pd1 ++ t :: pd2) sl = Done (tt, me) → apply_store t sl = Done (tt, sl') → inv sl L →
  (ls ≠ [] → x ∉ head_ sl :: (fst <$> L j)) →
  ∃ hs' ns' ls', pd1 ++ pd2 = hs' ++ ns' ++ ls' ∧ height_store sl' hs' ∧ node_store sl' x ns' ∧ link_store x j ls' ∧
    (ns = [] → ns' = []) ∧ (ls = [] → ls' = []) ∧ own (pd1 ++ pd2) sl' = Done (tt, me) ∧ inv sl' L.
Proof.
  intros Hhs Hns Hls Epd. rewrite Epd. intros Eo Et Hi Hx.
  assert ((∃ h, t = StHeight h ∧ hs = [t] ∧ pd1 ++ pd2 = [] ++ ns ++ ls) ∨ (∃ k h, t = StNode k h ∧ ns = [t] ∧ pd1 ++ pd2 = hs ++ [] ++ ls) ∨
    (∃ v, t = StLink x j v ∧ ls = [t] ∧ pd1 ++ pd2 = hs ++ ns ++ [])) as Hcase.
  { destruct Hhs as [->|(h & -> & _)], Hns as [->|(k & h' & -> & _)], Hls as [->|(v & ->)];
      destruct pd1 as [|t1 [|t2 [|t3 pd1]]]; cbn in Epd; simplify_eq/=; eauto 10; by destruct pd1. }
  destruct Hcase as [(h & -> & -> & ->)|[(k & h & -> & -> & ->)|(v & -> & -> & ->)]].
  - destruct Hhs as [?|(h' & [= <-] & Hh)]; [done|]. injection Et as <-. exists [], ns, ls. split_and!; try done; [by left|].
    apply inv_params; [done|lia].
  - destruct Hns as [?|(k' & h' & [= <- <-] & Ex)]; [done|]. injection Et as <-. exists hs, [], ls. split_and!; try done; [by left| |by apply inv_new_node].
    destruct Hhs as [->|(h' & -> & _)]; exact Eo.
  - assert (has_link sl j x ∧ sl' = set_link x j v sl) as [Hl ->] by by apply SetNext_done.
    destruct Hns as [->|(k' & h' & -> & ->)].
    2: { exfalso. destruct Hl as (n & En & _). apply lookup_lt_Some in En. lia. }
    exists hs, [], []. split_and!; try done; [by left|by left| |by apply inv_set_link; [done|done|apply Hx]].
    destruct Hhs as [->|(h' & -> & _)].
    + pose proof (own_one (StLink x j v) sl _ (run_SetNext sl x j v Hl)) as E1. cbn [app] in Eo |- *. rewrite Eo in E1. by injection E1 as ->.
    + set (sl1 := MkSkipList (nodes sl) (head_ sl) h' (rnd_ sl)). pose proof (own_one (StLink x j v) sl1 _ (run_SetNext sl1 x j v Hl)) as E1.
      change (own [StLink x j v] sl1 = Done (tt, me)) in Eo. rewrite Eo in E1. by injection E1 as ->.
Qed.

(** ** Every step keeps the invariant *)

Lemma commit_inv sl sl' pd1 t pd2 w r me L :
  system_inv (System sl (pd1 ++ t :: pd2) w r) me L → apply_store t sl = Done (tt, sl') →
  system_inv (System sl' (pd1 ++ pd2) w r) me L.
Proof.
  intros [Eo Hw Hi Hb Hr] Et. cbn in *. pose proof (own_head _ _ _ Eo) as Hhd.
  assert (buffered sl' w (pd1 ++ pd2) ∧ own (pd1 ++ pd2) sl' = Done (tt, me) ∧ inv sl' L) as (Hb' & Eo' & Hi').
  { inversion Hb as [E1 E2|? ? ? E1 E2|k prev h hs Hhs E1 E2|k x h prev j hs ns Hhs Hns E1 E2|k x h prev j hs ns ls Hhs Hns Hls E1 E2]; subst w.
    - by destruct pd1.
    - by destruct pd1.
    - destruct (commit_shape sl sl' me L 0 0 (pd1 ++ t :: pd2) [] [] pd1 t pd2) as (hs' & ns' & ls' & -> & Hhs' & _ & _ & Hn & Hl & Eo' & Hi');
        [done|by left|by left|by rewrite !app_nil_r|done..|]. rewrite Hn, Hl, !app_nil_r in * by done. split_and!; [by constructor|done..].
    - destruct (commit_shape sl sl' me L x 0 hs ns [] pd1 t pd2) as (hs' & ns' & ls' & -> & Hhs' & Hns' & _ & _ & Hl & Eo' & Hi');
        [done|done|by left|by rewrite app_nil_r|done..|]. rewrite Hl, !app_nil_r in * by done. split_and!; [by constructor|done..].
    - destruct (commit_shape sl sl' me L x j hs ns ls pd1 t pd2) as (hs' & ns' & ls' & -> & Hhs' & Hns' & Hls' & _ & _ & Eo' & Hi');
        try done; [|split_and!; [by constructor|done..]].
      intros _. inversion Hw as [| | | |L0 ? ? ? ? ? ? Hlk EL Hj Hp Hx]; subst. rewrite <-Hhd.
      intros Hin. apply (linking_fresh _ _ _ _ _ _ Hlk). unfold inserted in Hin. rewrite decide_False in Hin by lia.
      rewrite elem_of_cons in *. destruct Hin as [?|Hin]; [by left|right].
      eapply sublist_subseteq; [apply fmap_sublist, sub_level, (linking_old _ _ _ _ _ _ Hlk)|done]. }
  split; cbn; try done. eapply reader_inv_grows; [done|by eapply apply_head|by intros i].
Qed.

Lemma step_inv s s' me L : step s s' → system_inv s me L → ∃ me' L', system_inv s' me' L' ∧ grows L L'.
Proof.
  intros Hstep Hs. assert (grows L L) as HL by (by intros i).
  destruct Hstep as [sl sl' pd me1 k x prev h r Eo1 E Ea Eh|sl pd me1 k prev h r Eo1|sl pd me1 me' k prev h x r Eo1 E
    |sl pd me1 k x h prev j p next r Eo1 Ep En|sl sl' pd k x h prev j p r Epd Ep Es|sl sl' pd1 t pd2 w r Et
    |sl pd w k r|sl pd w k x level x' level' E|sl pd w k x level result E];
    destruct Hs as [Eo Hw Hi Hb Hr]; cbn [s_list s_pending s_writer s_reader] in *;
    try (rewrite Eo in Eo1; injection Eo1 as <-).
  - inversion Hb; subst. injection Eo as <-.
    destruct (run_FindGreaterOrEqual sl L k (Some no_prev) Hi) as (prev' & E' & Hp); [done|].
    rewrite E in E'. injection E' as -> <-.
    destruct (run_RandomHeight sl) as (h' & seed & Eh' & Hh). rewrite Eh in Eh'. injection Eh' as -> ->.
    assert (inv (with_rnd seed sl) L) as Hi' by (apply inv_params; [done|]; pose proof (inv_height _ _ Hi); lia).
    exists (with_rnd seed sl), L. split; [|done]. split; cbn; [done| |done|constructor|by eapply reader_inv_grows].
    apply winv_height; [exact Hi'|exact (assert_no_dup sl L k Hi Ea)|exact Hh|exact Hp].
  - inversion Hb; subst. injection Eo as <-. pose proof (writer_height _ _ _ _ _ Hw) as Hw'. cbv zeta in Hw'.
    inversion Hw as [|? ? ? ? _ _ Hh _| | |]; subst. case_bool_decide; eexists _, L; (split; [|done]).
    + split; cbn; [reflexivity|exact Hw'|done|constructor; right; exists h; split; [done|lia]|done].
    + split; cbn; [reflexivity|by destruct sl|done|by constructor; left|done].
  - destruct (writer_alloc _ _ _ _ _ _ _ Hw E) as [Hw' Hh].
    assert (∀ i, L i = inserted L k x 0 i) as Ei by (intros i; unfold inserted; by rewrite decide_False by lia).
    assert (grows L (inserted L k x 0)) as Hg by (intros i; by rewrite Ei).
    exists me', (inserted L k x 0). split; [|done]. inversion Hb as [| |? ? ? hs Hhs| |]; subst. split; cbn.
    + eapply own_snoc; [done|]. cbn [apply_store]. run_unfold. by rewrite E.
    + done.
    + by eapply inv_ext.
    + constructor; [done|]. right. exists k, h. split; [done|].
      injection E as <- _. destruct Hhs as [->|(h' & -> & _)]; by injection Eo as <-.
    + by eapply reader_inv_grows.
  - destruct (NoBarrier_SetNext x j next me) as [[[] me']| |] eqn:Es.
    2,3: inversion Hw as [| | |L0 ? ? ? ? ? ? Hlk EL Hj Hp|]; subst; destruct (link_step me L0 k x h j Hlk) as (_ & _ & _ & Hl); [lia|lia|];
      unfold NoBarrier_SetNext in Es; by rewrite (run_SetNext me x j next Hl) in Es.
    destruct (writer_init _ _ _ _ _ _ _ _ _ _ Hw Ep En Es) as [Hw' Hh].
    exists me', L. split; [|done]. inversion Hb as [| | |? ? ? ? ? hs ns Hhs Hns|]; subst. split; cbn; try done.
    + by eapply own_snoc.
    + rewrite <-app_assoc. constructor; [done|done|]. right. by exists next.
  - subst pd. injection Eo as <-. destruct (writer_publish _ _ _ _ _ _ _ _ _ Hw Ep Es) as (L' & Hw' & Hg & Hh).
    exists sl', L'. split; [|done]. split; cbn; [done|done|by eapply writer_inv_inv| |by eapply reader_inv_grows].
    unfold next_level. case_bool_decide; [|constructor]. apply (bf_init sl' k x h prev (S j) [] []); by left.
  - exists me, L. split; [|done]. by eapply commit_inv; [split|].
  - exists me, L. split; [|done]. split; cbn; try done. pose proof (inv_height _ _ Hi). split; [lia|by left].
  - exists me, L. split; [|done]. split; cbn; try done.
    destruct (reader_turn sl L k x level Hi Hr) as (t & E' & Ht). rewrite E in E'. injection E' as <-. apply Ht.
  - exists me, L. split; [|done]. by split.
Qed.
Lemma steps_inv s s' me L : rtc step s s' → system_inv s me L → ∃ me' L', system_inv s' me' L' ∧ grows L L'.
Proof.
  intros Hs. revert me L. induction Hs as [s|s s1 s2 Hst _ IH]; intros me L Hi; [exists me, L; split; [done|by intros i]|].
  destruct (step_inv _ _ _ _ Hst Hi) as (me1 & L1 & Hi1 & Hg1). destruct (IH me1 L1 Hi1) as (me2 & L2 & Hi2 & Hg2).
  exists me2, L2. split; [done|]. intros i. etransitivity; [apply Hg1|apply Hg2].
Qed.

(** What is pending can reach the memory. *)
Lemma flush pd sl me w r : own pd sl = Done (tt, me) → rtc step (System sl pd w r) (System me [] w r).
Proof.
  revert sl. induction pd as [|t pd IH]; intros sl; cbn [own]; [by intros [= <-]|]. run_unfold.
  destruct (apply_store t sl) as [[[] sl1]| |] eqn:Et; [|done..]. intros Eo.
  eapply rtc_l; [by apply (step_commit sl sl1 [])|]. by apply IH.
Qed.

(** A writer that is not idle can take its next step, when what it waits for has reached the memory. *)
Lemma writer_progress s me L :
  system_inv s me L → s_writer s ≠ WIdle →
  ∃ s1 s2, rtc step s s1 ∧ step s1 s2 ∧ s_writer s1 = s_writer s ∧ s_writer s2 ≠ s_writer s ∧ s_reader s2 = s_reader s.
Proof.
  destruct s as [sl pd w r]. intros [Eo Hw _ _ _] Hni. cbn in *.
  destruct Hw as [L Hi|L k prev h Hi Hne Hh Hp|L k prev h Hi Hne Hh Hm Hp|L0 L k x h prev j Hlk EL Hj Hp|L0 L k x h prev j Hlk EL Hj Hp Hx]; [done|..].
  - pose proof (step_height sl pd me k prev h r Eo) as Hst. case_bool_decide; eexists _, _; (split_and!; [done|exact Hst|done..]).
  - eexists _, _. split_and!; [done|by eapply step_alloc|done..].
  - destruct (link_step me L0 k x h j Hlk) as (_ & Hn & _ & _); [lia|lia|].
    eexists _, _. split_and!; [done|eapply step_init; [done|by rewrite Hp by lia|by apply run_Next]|done..].
  - destruct (link_step me L0 k x h j Hlk) as (_ & Hn & _ & _); [lia|lia|].
    eexists (System me [] (WPublish k x h prev j) r), _.
    split_and!; [by apply flush|eapply step_publish; [done|by rewrite Hp by lia|eapply run_SetNext, next_has_link, Hn]|done| |done].
    cbn. unfold next_level. by case_bool_decide.
Qed.

(** A reader that goes on alone ends. *)
Lemma reader_ends sl L k x level :
  inv sl L → reader_inv sl L (RSearch k x level) →
  ∃ fuel, loop fuel (find_ge_step k) (x, level, None) sl =
    Done ((first_addr (upper k (L 0%nat)) None, None), sl).
Proof.
  intros Hi Hr. destruct (reader_at sl L k x level Hi Hr) as (l1 & l2 & Hat & Hb).
  set (n := Z.of_nat (level * (length (nodes sl) + 1) + length l2 + 1)).
  destruct (run_find_ge sl L k Hi level x l1 l2 None (n + 1)) as (prev' & E & Hp);
    [apply Hr|done|done|done|unfold n; lia|].
  exists (n + 1). destruct prev'; done.
Qed.

(** ** Insert is a run of the writer *)

Lemma link_levels_steps k x prev h n r : ∀ sl sl' j,
  (j + n = h)%nat → (0 < n)%nat → link_levels x prev j n sl = Done (tt, sl') →
  rtc step (System sl [] (WInit k x h prev j) r) (System sl' [] WIdle r).
Proof.
  induction n as [|n IH]; intros sl sl' j Hj Hn E; [lia|].
  cbn [link_levels] in E. unfold link_level in E. revert E. run_unfold.
  destruct (mjoin (prev !! j)) as [p|] eqn:Ep; [|done]. cbn [lift_option]. run_unfold.
  destruct (NoBarrier_Next p j sl) as [[next sl0]| |] eqn:En; [|done..].
  assert (sl0 = sl) as ->.
  { revert En. unfold NoBarrier_Next, Next, get_state. run_unfold.
    destruct (nodes sl !! p) as [m|]; [|done]. cbn [lift_option]. run_unfold.
    destruct (mjoin (next_ m !! j)); [|done]. by intros [= _ <-]. }
  destruct (NoBarrier_SetNext x j next sl) as [[[] sl1]| |] eqn:E1; [|done..].
  destruct (SetNext p j (Some x) sl1) as [[[] sl2]| |] eqn:E2; [|done..]. intros E.
  eapply rtc_l; [by eapply (step_init sl [] sl)|]. etransitivity; [by eapply flush, (own_one (StLink x j next))|].
  eapply rtc_l; [by eapply step_publish|].
  unfold next_level. case_bool_decide.
  - apply (IH sl2 sl' (S j)); [lia|lia|done].
  - assert (n = 0%nat) as -> by lia. by injection E as ->.
Qed.

Lemma random_height_pos sl sl' h : RandomHeight sl = Done (h, sl') → (0 < h)%nat.
Proof. destruct (run_RandomHeight sl) as (h' & seed & E & Hh). rewrite E. intros [= <- _]. lia. Qed.

Lemma Insert_steps_of_contents sl sl' k r ks :
  contents sl ks → Insert k sl = Done (tt, sl') →
  rtc step (System sl [] WIdle r) (System sl' [] WIdle r).
Proof.
  intros (L & Hi & _). unfold Insert.
  destruct (run_FindGreaterOrEqual sl L k (Some no_prev) Hi) as (prev' & E & Hp); [done|].
  destruct prev' as [prev|]; [|done]. run_with E. cbn [lift_option]. run_unfold.
  destruct (assert_not_equal _ _ sl) as [[[] sl0]| |] eqn:Ea; [|done..].
  assert (sl0 = sl) as ->.
  { revert Ea. unfold assert_not_equal. destruct (first_addr _ _) as [x|]; [|by intros [=]].
    unfold node_key, get_state. run_unfold. destruct (nodes sl !! x); [|done].
    cbn [lift_option]. run_unfold. destruct (negb _); [by intros [=]|done]. }
  destruct (RandomHeight sl) as [[h sl1]| |] eqn:Eh; [|done..].
  unfold GetMaxHeight, get_state, put_state. run_unfold. cbv zeta. intros E1.
  eapply rtc_l; [by eapply (step_search sl _ [] sl)|]. eapply rtc_l; [by apply (step_height sl1 [] sl1)|].
  pose proof (random_height_pos _ _ _ Eh) as Hh.
  case_bool_decide; revert E1; unfold NewNode at 1, get_state, put_state; run_unfold; intros E1;
    [etransitivity; [by eapply flush, (own_one (StHeight h))|]|];
    (eapply rtc_l; [by eapply step_alloc|]); (etransitivity; [by eapply flush, (own_one (StNode k h))|]);
    by apply link_levels_steps with (n := h).
Qed.

(** ** Theorems *)

(** C20: while keys are inserted, a search of another thread, whatever the
    interleaving of its loads with the stores of the insertion, and whenever the stores
    without a barrier reach the memory, goes on over initialised links of live nodes, can
    always end by itself, and ends with the first entry that is not before its key in the
    list of the moment it ends; no entry is lost, the list stays sorted, and the writer is
    never stuck. *)
Theorem concurrent_search sl ks s :
  contents sl ks → rtc step (System sl [] WIdle RIdle) s →
  ∃ ks', contents (s_list s) ks' ∧ ks `sublist_of` ks' ∧
    (∀ k x level, s_reader s = RSearch k x level →
      ∃ result, result ≫= key_of (s_list s) = head (keys_from k ks') ∧
        (∃ fuel, loop fuel (find_ge_step k) (x, level, None) (s_list s) =
           Done ((result, None), s_list s)) ∧
        (∃ s', step s s' ∧ s_list s' = s_list s ∧ s_writer s' = s_writer s ∧
          match s_reader s' with
          | RSearch k' _ _ => k' = k
          | RFound k' result' => k' = k ∧ result' = result
          | RIdle => False
          end)) ∧
    (s_writer s ≠ WIdle →
      ∃ s1 s2, rtc step s s1 ∧ step s1 s2 ∧ s_writer s1 = s_writer s ∧ s_writer s2 ≠ s_writer s ∧ s_reader s2 = s_reader s).
Proof.
  intros (L0 & Hi0 & ->) Hs.
  destruct (steps_inv _ _ sl L0 Hs) as (me & L & Hsys & Hg); [split; cbn; [done|by constructor|done|constructor|done]|].
  pose proof (si_memory _ _ _ Hsys) as Hi. pose proof (si_reader _ _ _ Hsys) as Hr. exists (snd <$> L 0%nat).
  split_and!; [by exists L|by apply fmap_sublist| |by eapply writer_progress].
  intros k x level Er. rewrite Er in Hr.
  exists (first_addr (upper k (L 0%nat)) None).
  split_and!; [by apply first_addr_key|by apply reader_ends|].
  clear Hsys. destruct s as [sl1 pd w r]; simpl in *; subst r.
  destruct (reader_turn sl1 L k x level Hi Hr) as ([[[x' level'] p]|[result p]] & E & [-> Ht]).
  - eexists. split; [by apply step_read|done].
  - eexists. split; [by apply step_read_end|done].
Qed.

(** [Insert], run without interruption, is a run of the writer's steps. *)
Theorem Insert_is_steps sl sl' k r ks :
  contents sl ks → Insert k sl = Done (tt, sl') →
  rtc step (System sl [] WIdle r) (System sl' [] WIdle r).
Proof. apply Insert_steps_of_contents. Qed.
End conc.

(** ** Witnesses *)

(** A search for 15 starts, and 12 is inserted before it ends. *)
Lemma concurrent_search_witness :
  ∃ s ks', rtc step (System three [] WIdle RIdle) s ∧ contents (s_list s) ks' ∧
    [10; 20; 30] `sublist_of` ks' ∧ (∃ k x level, s_reader s = RSearch k x level).
Proof.
  destruct (Insert 12 three) as [[[] sl']| |] eqn:E; [|vm_compute in E; discriminate..].
  assert (rtc step (System three [] WIdle RIdle)
    (System sl' [] WIdle (RSearch 15 (head_ three) (max_height_ three - 1)))) as Hs.
  { eapply rtc_l; [apply step_read_start|].
    exact (Insert_steps_of_contents _ _ _ _ _ three_contents E). }
  destruct (concurrent_search three [10; 20; 30] _ three_contents Hs) as (ks' & Hc & Hsub & _).
  eexists _, ks'. split_and!; [exact Hs|done|done|by eexists _, _, _].
Defined.

Lemma Insert_is_steps_witness :
  ∃ sl', Insert 25 three = Done (tt, sl') ∧
    rtc step (System three [] WIdle RIdle) (System sl' [] WIdle RIdle).
Proof.
  destruct (Insert 25 three) as [[[] sl']| |] eqn:E; [|vm_compute in E; discriminate..].
  exists sl'. split; [done|]. by apply (Insert_is_steps three sl' 25 RIdle [10; 20; 30] three_contents).
Defined.
