(* ===== verification/LdbFormat.v ===== *)
(** * leveldb: slices, comparators and internal keys

    include/leveldb/slice.h, util/comparator.cc, db/dbformat.h and db/dbformat.cc.
    An internal key is a user key followed by eight bytes, the tag: a sequence
    number of 56 bits and a type. Internal keys are ordered by user key, then from
    the newest to the oldest. *)
From S2P Require Import Prelude LdbCoding SkipList SkipListSpec.

(** ** Slices *)

(** [memcmp] of the first [n] bytes; its sign only is specified. *)
Fixpoint memcmp (a b : list Z) (n : nat) : Z :=
  match n, a, b with
  | S n', x :: a', y :: b' => if x =? y then memcmp a' b' n' else x - y
  | _, _, _ => 0
  end.

Definition slice_compare (a b : list Z) : Z :=
  let min_len := if (length a <? length b)%nat then length a else length b in
  let r := memcmp a b min_len in
  if r =? 0 then
    if (length a <? length b)%nat then -1
    else if (length b <? length a)%nat then 1 else r
  else r.
Definition slice_eq (x y : list Z) : bool :=
  (length x =? length y)%nat && (memcmp x y (length x) =? 0).
Definition starts_with (a x : list Z) : bool :=
  (length x <=? length a)%nat && (memcmp a x (length x) =? 0).

(** ** The comparator of user keys

    What a comparator has besides [Compare]. *)
Class KeyShortener := {
  FindShortestSeparator : list Z → list Z → list Z;
  FindShortSuccessor : list Z → list Z;
}.

(** [BytewiseComparatorImpl] *)
#[export] Instance bytewise_compare : Comparator (list Z) := slice_compare.

(** The number of bytes two strings have in common at the front. *)
Fixpoint common_prefix (a b : list Z) : nat :=
  match a, b with
  | x :: a', y :: b' => if x =? y then S (common_prefix a' b') else O
  | _, _ => O
  end.

Definition bytewise_FindShortestSeparator (start limit : list Z) : list Z :=
  let min_length := Nat.min (length start) (length limit) in
  let diff_index := common_prefix start limit in
  if (min_length <=? diff_index)%nat then start
  else
    match start !! diff_index, limit !! diff_index with
    | Some diff_byte, Some limit_byte =>
        if (diff_byte <? 0xff) && (diff_byte + 1 <? limit_byte)
        then take diff_index start ++ [u8 (diff_byte + 1)]
        else start
    | _, _ => start
    end.

(** The first byte that can be incremented. *)
Fixpoint bytewise_FindShortSuccessor (key : list Z) : list Z :=
  match key with
  | [] => []
  | byte :: key' =>
      if negb (byte =? 0xff) then [u8 (byte + 1)] else byte :: bytewise_FindShortSuccessor key'
  end.
#[export] Instance bytewise_shortener : KeyShortener :=
  {| FindShortestSeparator := bytewise_FindShortestSeparator;
     FindShortSuccessor := bytewise_FindShortSuccessor |}.

(** ** Internal keys *)

Definition kTypeDeletion : Z := 0.
Definition kTypeValue : Z := 1.
Definition kValueTypeForSeek : Z := kTypeValue.
Definition kMaxSequenceNumber : Z := Z.shiftl 1 56 - 1.

Record ParsedInternalKey := MkParsed {
  user_key : list Z;
  sequence : Z;
  type_ : Z;
}.

Definition InternalKeyEncodingLength (key : ParsedInternalKey) : Z :=
  Z.of_nat (length (user_key key)) + 8.

(** No value when an assertion fails. *)
Definition PackSequenceAndType (seq t : Z) : option Z :=
  if (seq <=? kMaxSequenceNumber) && (t <=? kValueTypeForSeek)
  then Some (Z.lor (u64 (Z.shiftl seq 8)) t) else None.

Definition AppendInternalKey (result : list Z) (key : ParsedInternalKey) : option (list Z) :=
  tag ← PackSequenceAndType (sequence key) (type_ key);
  Some (PutFixed64 (result ++ user_key key) tag).

(** The last eight bytes. *)
Definition ikey_tag (internal_key : list Z) : option Z :=
  DecodeFixed64 (drop (length internal_key - 8) internal_key).

Definition ParseInternalKey (internal_key : list Z) : option ParsedInternalKey :=
  let n := length internal_key in
  if (n <? 8)%nat then None
  else
    num ← ikey_tag internal_key;
    let c := Z.land num 0xff in
    if c <=? kTypeValue then Some (MkParsed (take (n - 8) internal_key) (Z.shiftr num 8) c)
    else None.

(** The assertion that the key has eight bytes is left to the callers: a shorter key
    has an empty user key here. *)
Definition ExtractUserKey (internal_key : list Z) : list Z :=
  take (length internal_key - 8) internal_key.
Definition ExtractValueType (internal_key : list Z) : option Z :=
  num ← ikey_tag internal_key; Some (Z.land num 0xff).

Section internal.
Context `{UC : Comparator (list Z)} `{KS : KeyShortener}.

(** [InternalKeyComparator::Compare] *)
Definition ikey_compare (akey bkey : list Z) : Z :=
  let r := compare_ (ExtractUserKey akey) (ExtractUserKey bkey) in
  if r =? 0 then
    let anum := le_combine (drop (length akey - 8) akey) in
    let bnum := le_combine (drop (length bkey - 8) bkey) in
    if bnum <? anum then -1 else if anum <? bnum then 1 else r
  else r.

(** No value when an assertion on the order of the result fails. *)
Definition ikey_FindShortestSeparator (start limit : list Z) : option (list Z) :=
  let user_start := ExtractUserKey start in
  let user_limit := ExtractUserKey limit in
  let tmp := FindShortestSeparator user_start user_limit in
  if (length tmp <? length user_start)%nat && (compare_ user_start tmp <? 0) then
    tag ← PackSequenceAndType kMaxSequenceNumber kValueTypeForSeek;
    let tmp := PutFixed64 tmp tag in
    if (ikey_compare start tmp <? 0) && (ikey_compare tmp limit <? 0) then Some tmp else None
  else Some start.

Definition ikey_FindShortSuccessor (key : list Z) : option (list Z) :=
  let user_key := ExtractUserKey key in
  let tmp := FindShortSuccessor user_key in
  if (length tmp <? length user_key)%nat && (compare_ user_key tmp <? 0) then
    tag ← PackSequenceAndType kMaxSequenceNumber kValueTypeForSeek;
    let tmp := PutFixed64 tmp tag in
    if ikey_compare key tmp <? 0 then Some tmp else None
  else Some key.
End internal.

(** [LookupKey]: the bytes from [start_] to [end_]; its other parts start at
    [kstart_]. *)
Record LookupKey := MkLookupKey { lk_klength : list Z; lk_user_key : list Z; lk_tag : list Z }.
Definition new_LookupKey (user_key : list Z) (s : Z) : option LookupKey :=
  tag ← PackSequenceAndType s kValueTypeForSeek;
  Some (MkLookupKey (EncodeVarint32 (u32 (Z.of_nat (length user_key) + 8))) user_key
    (EncodeFixed64 tag)).
Definition memtable_key (k : LookupKey) : list Z := lk_klength k ++ lk_user_key k ++ lk_tag k.
Definition internal_key (k : LookupKey) : list Z := lk_user_key k ++ lk_tag k.

(** ** The bytewise order *)

Lemma slice_compare_nil : slice_compare [] [] = 0.
Proof. done. Qed.
Lemma slice_compare_nil_l y b : slice_compare [] (y :: b) = -1.
Proof. done. Qed.
Lemma slice_compare_nil_r x a : slice_compare (x :: a) [] = 1.
Proof. done. Qed.
Lemma slice_compare_cons x a y b :
  slice_compare (x :: a) (y :: b) = if x =? y then slice_compare a b else x - y.
Proof.
  unfold slice_compare. cbn [length].
  change (S (length a) <? S (length b))%nat with (length a <? length b)%nat.
  change (S (length b) <? S (length a))%nat with (length b <? length a)%nat.
  assert (∀ n m : nat, memcmp (x :: a) (y :: b) (if (length a <? length b)%nat then S n else S m) =
    if x =? y then memcmp a b (if (length a <? length b)%nat then n else m) else x - y) as E.
  { intros n m. by destruct (length a <? length b)%nat. }
  rewrite E. destruct (Z.eqb_spec x y); [done|]. by rewrite (proj2 (Z.eqb_neq (x - y) 0)) by lia.
Qed.

Ltac slice_cases :=
  rewrite ?slice_compare_nil, ?slice_compare_nil_l, ?slice_compare_nil_r, ?slice_compare_cons.

#[export] Instance bytewise_laws : ComparatorLaws (list Z).
Proof.
  split; unfold compare_, bytewise_compare.
  - intros a. induction a as [|x a IH]; [done|]. slice_cases. by rewrite Z.eqb_refl.
  - intros a. induction a as [|x a IH]; intros [|y b]; slice_cases; [lia..|].
    rewrite (Z.eqb_sym y x). destruct (Z.eqb_spec x y); [apply IH|lia].
  - intros a. induction a as [|x a IH]; intros [|y b] [|z c]; slice_cases; try lia.
    destruct (Z.eqb_spec x y), (Z.eqb_spec y z), (Z.eqb_spec x z); try lia. apply IH.
Qed.

(** Equal in the order is equal. *)
Lemma slice_compare_eq a b : slice_compare a b = 0 ↔ a = b.
Proof.
  split; [|intros ->; apply compare_refl].
  revert b. induction a as [|x a IH]; intros [|y b]; slice_cases; [done..|].
  destruct (Z.eqb_spec x y) as [->|]; [|lia]. intros Hc. f_equal. by apply IH.
Qed.

Lemma slice_compare_snoc a x y b c :
  x < y → slice_compare (a ++ x :: b) (a ++ y :: c) < 0.
Proof.
  intros Hxy. induction a as [|z a IH]; cbn [app]; slice_cases.
  - rewrite (proj2 (Z.eqb_neq x y)) by lia. lia.
  - by rewrite Z.eqb_refl.
Qed.

Lemma common_prefix_spec a b :
  take (common_prefix a b) a = take (common_prefix a b) b ∧
  (common_prefix a b ≤ length a)%nat ∧ (common_prefix a b ≤ length b)%nat ∧
  (∀ x y, a !! common_prefix a b = Some x → b !! common_prefix a b = Some y → x ≠ y).
Proof.
  revert b. induction a as [|x a IH]; intros [|y b]; simpl; [by split_and!; auto with lia..|].
  destruct (Z.eqb_spec x y) as [->|Hne].
  - destruct (IH b) as (E & ? & ? & Hd). simpl. rewrite E. split_and!; [done|lia|lia|exact Hd].
  - simpl. split_and!; [done|lia|lia|congruence].
Qed.

Lemma separator_spec start limit :
  Forall is_byte start → slice_compare start limit < 0 →
  let sep := bytewise_FindShortestSeparator start limit in
  slice_compare start sep ≤ 0 ∧ slice_compare sep limit < 0 ∧ (length sep ≤ length start)%nat.
Proof.
  intros Hs Hlt. cbv zeta. unfold bytewise_FindShortestSeparator.
  set (i := common_prefix start limit).
  pose proof (common_prefix_spec start limit) as (E & _ & _ & Hd). fold i in E, Hd.
  assert (slice_compare start start ≤ 0 ∧ slice_compare start limit < 0 ∧
    (length start ≤ length start)%nat) as Hsame.
  { split_and!; [|done|done]. by rewrite (compare_refl start : slice_compare start start = 0). }
  destruct (_ <=? _)%nat; [done|].
  destruct (start !! i) as [x|] eqn:Ex; [|done]. destruct (limit !! i) as [y|] eqn:Ey; [|done].
  destruct (Z.ltb_spec x 0xff) as [Hff|]; [|done]. destruct (Z.ltb_spec (x + 1) y) as [Hy|]; [|done].
  cbn [andb].
  assert (u8 (x + 1) = x + 1) as ->.
  { apply wrapu_small. pow2. rewrite Forall_forall in Hs.
    specialize (Hs x (list_elem_of_lookup_2 _ _ _ Ex)). unfold is_byte in Hs. lia. }
  pose proof (lookup_lt_Some _ _ _ Ex) as Hi.
  split_and!.
  - rewrite <-(take_drop_middle _ _ _ Ex) at 1.
    pose proof (slice_compare_snoc (take i start) x (x + 1) (drop (S i) start) []). lia.
  - rewrite <-(take_drop_middle _ _ _ Ey), <-E. by apply (slice_compare_snoc _ (x + 1) y []).
  - rewrite length_app, length_take. simpl. lia.
Qed.

Lemma successor_spec key :
  Forall is_byte key →
  slice_compare key (bytewise_FindShortSuccessor key) ≤ 0 ∧
  (length (bytewise_FindShortSuccessor key) ≤ length key)%nat.
Proof.
  induction 1 as [|x key Hx Hk IH]; [done|]. cbn [bytewise_FindShortSuccessor].
  destruct (Z.eqb_spec x 0xff) as [->|Hne]; cbn [negb].
  - slice_cases. rewrite Z.eqb_refl. simpl. split; [tauto|lia].
  - unfold is_byte in Hx. rewrite wrapu_small by (pow2; lia). slice_cases.
    rewrite (proj2 (Z.eqb_neq x (x + 1))) by lia. simpl. lia.
Qed.

Lemma separator_bytes start limit :
  Forall is_byte start → Forall is_byte (bytewise_FindShortestSeparator start limit).
Proof.
  intros Hs. unfold bytewise_FindShortestSeparator. destruct (_ <=? _)%nat; [done|].
  destruct (start !! _) as [x|]; [|done]. destruct (limit !! _) as [y|]; [|done]. destruct (_ && _); [|done].
  apply Forall_app. split; [by apply Forall_take|]. apply Forall_singleton, (wrapu_range 8). lia.
Qed.
Lemma successor_bytes key : Forall is_byte key → Forall is_byte (bytewise_FindShortSuccessor key).
Proof.
  induction 1 as [|x key Hx Hk IH]; [constructor|]. cbn [bytewise_FindShortSuccessor].
  destruct (negb _); [|by constructor]. apply Forall_singleton, (wrapu_range 8). lia.
Qed.

(** ** Internal keys *)

Lemma pack_tag seq t :
  0 ≤ seq ≤ kMaxSequenceNumber → 0 ≤ t ≤ 1 →
  PackSequenceAndType seq t = Some (seq * 256 + t) ∧ 0 ≤ seq * 256 + t < 2 ^ 64.
Proof.
  change kMaxSequenceNumber with (2 ^ 56 - 1). intros Hs Ht. unfold PackSequenceAndType.
  change kMaxSequenceNumber with (2 ^ 56 - 1). unfold kValueTypeForSeek, kTypeValue.
  rewrite (proj2 (Z.leb_le seq _)), (proj2 (Z.leb_le t 1)) by lia. cbn [andb].
  rewrite Z.lor_comm, lor_wrapu_shiftl by lia. change (2 ^ 56) with 72057594037927936 in *.
  rewrite wrapu_small by (pow2; lia). pow2. split; [f_equal; lia|lia].
Qed.

Lemma ikey_parts ukey tag :
  0 ≤ tag < 2 ^ 64 →
  let k := ukey ++ EncodeFixed64 tag in
  ExtractUserKey k = ukey ∧ drop (length k - 8) k = EncodeFixed64 tag ∧
  ikey_tag k = Some tag ∧ le_combine (drop (length k - 8) k) = tag.
Proof.
  intros Ht. cbv zeta. unfold ExtractUserKey, ikey_tag.
  assert (length (ukey ++ EncodeFixed64 tag) - 8 = length ukey)%nat as ->.
  { unfold EncodeFixed64. rewrite length_app, length_le_split. lia. }
  rewrite drop_app_length, take_app_length. split_and!; [done|done| |].
  - rewrite <-(app_nil_r (EncodeFixed64 tag)). by apply fixed64_get_put.
  - unfold EncodeFixed64. by rewrite le_combine_split, Z.mod_small by (pow2; simpl; lia).
Qed.

Section internal_laws.
Context `{UC : Comparator (list Z)} `{!ComparatorLaws (list Z)}.

(** The order of internal keys, by user key and by tag. *)
Lemma ikey_compare_tags ua ta ub tb :
  0 ≤ ta < 2 ^ 64 → 0 ≤ tb < 2 ^ 64 →
  ikey_compare (ua ++ EncodeFixed64 ta) (ub ++ EncodeFixed64 tb) =
  if compare_ ua ub =? 0 then
    if tb <? ta then -1 else if ta <? tb then 1 else compare_ ua ub
  else compare_ ua ub.
Proof.
  intros Ha Hb. unfold ikey_compare.
  destruct (ikey_parts ua ta Ha) as (Eua & _ & _ & Eta).
  destruct (ikey_parts ub tb Hb) as (Eub & _ & _ & Etb). cbv zeta in *.
  by rewrite Eua, Eub, Eta, Etb.
Qed.

(** A lexicographic order of two total orders, the second one reversed. *)
Lemma lex_laws {A} (u : A → list Z) (t : A → Z) (cmp : A → A → Z) :
  (∀ a b, cmp a b = if compare_ (u a) (u b) =? 0 then
     if t b <? t a then -1 else if t a <? t b then 1 else compare_ (u a) (u b)
     else compare_ (u a) (u b)) →
  (∀ a, cmp a a = 0) ∧ (∀ a b, cmp a b < 0 ↔ 0 < cmp b a) ∧
  (∀ a b c, cmp a b ≤ 0 → cmp b c ≤ 0 → cmp a c ≤ 0).
Proof.
  intros E. split_and!.
  - intros a. rewrite E, compare_refl. cbn. by rewrite Z.ltb_irrefl.
  - intros a b. rewrite !E. pose proof (compare_sym (u a) (u b)). pose proof (compare_sym (u b) (u a)).
    destruct (Z.eqb_spec (compare_ (u a) (u b)) 0), (Z.eqb_spec (compare_ (u b) (u a)) 0); try lia.
    destruct (Z.ltb_spec (t b) (t a)), (Z.ltb_spec (t a) (t b)); lia.
  - intros a b c. rewrite !E.
    pose proof (compare_trans (u a) (u b) (u c)) as Habc.
    pose proof (compare_trans (u b) (u c) (u a)). pose proof (compare_trans (u c) (u a) (u b)).
    pose proof (compare_sym (u a) (u b)). pose proof (compare_sym (u b) (u a)).
    pose proof (compare_sym (u b) (u c)). pose proof (compare_sym (u c) (u b)).
    pose proof (compare_sym (u a) (u c)). pose proof (compare_sym (u c) (u a)).
    destruct (Z.eqb_spec (compare_ (u a) (u b)) 0), (Z.eqb_spec (compare_ (u b) (u c)) 0),
      (Z.eqb_spec (compare_ (u a) (u c)) 0);
      destruct (Z.ltb_spec (t b) (t a)), (Z.ltb_spec (t a) (t b)), (Z.ltb_spec (t c) (t b)),
        (Z.ltb_spec (t b) (t c)), (Z.ltb_spec (t c) (t a)), (Z.ltb_spec (t a) (t c)); lia.
Qed.
End internal_laws.

(** The order of internal keys, as a comparator. *)
Definition internal_comparator `{UC : Comparator (list Z)} : Comparator (list Z) := ikey_compare.

#[export] Instance internal_laws `{UC : Comparator (list Z)} `{!ComparatorLaws (list Z)} :
  @ComparatorLaws (list Z) internal_comparator.
Proof.
  destruct (lex_laws ExtractUserKey (λ k, le_combine (drop (length k - 8) k))
    ikey_compare ltac:(intros; reflexivity)) as (H1 & H2 & H3).
  split; [exact H1|exact H2|exact H3].
Qed.

(** ** Theorems *)

(** An internal key that can be made. *)
Definition ikey_ok (key : ParsedInternalKey) : Prop :=
  0 ≤ sequence key ≤ kMaxSequenceNumber ∧ 0 ≤ type_ key ≤ 1.

Lemma tag_parts seq t :
  0 ≤ t ≤ 1 → Z.land (seq * 256 + t) 0xff = t ∧ Z.shiftr (seq * 256 + t) 8 = seq.
Proof. intros Ht. rewrite land_FF, Z.shiftr_div_pow2 by lia. change (2 ^ 8) with 256. split; zdiv. Qed.

(** An internal key is parsed back from its bytes; the order of the bytes of two
    keys is the order of their user keys, whatever comparator these have, then from
    the greatest sequence number to the smallest, then from values to deletions. *)
Theorem internal_key_roundtrip `{UC : Comparator (list Z)} `{!ComparatorLaws (list Z)} k1 k2 :
  ikey_ok k1 → ikey_ok k2 →
  ∃ b1 b2, AppendInternalKey [] k1 = Some b1 ∧ AppendInternalKey [] k2 = Some b2 ∧
    ParseInternalKey b1 = Some k1 ∧ ExtractUserKey b1 = user_key k1 ∧
    ExtractValueType b1 = Some (type_ k1) ∧
    Z.of_nat (length b1) = InternalKeyEncodingLength k1 ∧
    (ikey_compare b1 b2 < 0 ↔
      compare_ (user_key k1) (user_key k2) < 0 ∨
      compare_ (user_key k1) (user_key k2) = 0 ∧
      (sequence k2 < sequence k1 ∨ sequence k2 = sequence k1 ∧ type_ k2 < type_ k1)).
Proof.
  intros [Hs1 Ht1] [Hs2 Ht2].
  destruct (pack_tag _ _ Hs1 Ht1) as [E1 R1]. destruct (pack_tag _ _ Hs2 Ht2) as [E2 R2].
  set (t1 := sequence k1 * 256 + type_ k1) in *. set (t2 := sequence k2 * 256 + type_ k2) in *.
  exists (user_key k1 ++ EncodeFixed64 t1), (user_key k2 ++ EncodeFixed64 t2).
  destruct (ikey_parts (user_key k1) t1 R1) as (Eu & _ & Et & _). cbv zeta in *.
  destruct (tag_parts (sequence k1) (type_ k1) Ht1) as [Ec En]. fold t1 in Ec, En.
  assert (length (user_key k1 ++ EncodeFixed64 t1) = length (user_key k1) + 8)%nat as Hlen
    by (unfold EncodeFixed64; by rewrite length_app, length_le_split).
  split_and!; [unfold AppendInternalKey; by rewrite E1|unfold AppendInternalKey; by rewrite E2|..].
  - unfold ParseInternalKey. fold (ExtractUserKey (user_key k1 ++ EncodeFixed64 t1)).
    rewrite Et, Eu, Hlen. rewrite (proj2 (Nat.ltb_ge _ _)) by lia. simpl. rewrite Ec, En.
    rewrite (proj2 (Z.leb_le _ _)) by (unfold kTypeValue; lia). by destruct k1.
  - done.
  - unfold ExtractValueType. rewrite Et. simpl. by rewrite Ec.
  - rewrite Hlen. unfold InternalKeyEncodingLength. lia.
  - rewrite ikey_compare_tags by done. destruct (Z.eqb_spec (compare_ (user_key k1) (user_key k2)) 0).
    + unfold t1, t2. destruct (Z.ltb_spec (sequence k2 * 256 + type_ k2) (sequence k1 * 256 + type_ k1)),
        (Z.ltb_spec (sequence k1 * 256 + type_ k1) (sequence k2 * 256 + type_ k2)); lia.
    + lia.
Qed.

Lemma length_fixed64 v : length (EncodeFixed64 v) = 8%nat.
Proof. apply length_le_split. Qed.

(** A separator that is shorter than the first user key is before the second one, and so
    with any tag. *)
Lemma separator_user_below us ul ts tl :
  Forall is_byte us →
  (if compare_ us ul =? 0 then if tl <? ts then -1 else if ts <? tl then 1 else compare_ us ul
   else compare_ us ul) < 0 →
  (length (FindShortestSeparator us ul) < length us)%nat →
  compare_ (FindShortestSeparator us ul) ul < 0.
Proof.
  intros Hb Hlt Hlen. destruct (Z.eqb_spec (compare_ us ul) 0) as [E0|Hne].
  - exfalso. apply slice_compare_eq in E0. subst ul.
    assert (FindShortestSeparator us us = us) as E; [|rewrite E in Hlen; lia].
    unfold FindShortestSeparator, bytewise_shortener, bytewise_FindShortestSeparator.
    assert (common_prefix us us = length us) as ->; [|by rewrite Nat.min_id, Nat.leb_refl].
    clear. induction us as [|x us IH]; [done|]. simpl. rewrite Z.eqb_refl. by rewrite IH.
  - by destruct (separator_spec us ul Hb) as (_ & Hsl & _); [exact Hlt|].
Qed.
Lemma separator_below us ul ts tl tm :
  Forall is_byte us → 0 ≤ tm < 2 ^ 64 → 0 ≤ tl < 2 ^ 64 →
  (if compare_ us ul =? 0 then if tl <? ts then -1 else if ts <? tl then 1 else compare_ us ul
   else compare_ us ul) < 0 →
  (length (FindShortestSeparator us ul) < length us)%nat →
  ikey_compare (FindShortestSeparator us ul ++ EncodeFixed64 tm) (ul ++ EncodeFixed64 tl) < 0.
Proof.
  intros Hb Htm Htl Hlt Hlen. pose proof (separator_user_below us ul ts tl Hb Hlt Hlen).
  rewrite ikey_compare_tags by done. by rewrite (proj2 (Z.eqb_neq _ 0)) by lia.
Qed.

(** The order of internal keys is that of their user keys first. *)
Lemma ikey_user_le u t u' t' :
  0 ≤ t < 2 ^ 64 → 0 ≤ t' < 2 ^ 64 → ikey_compare (u ++ EncodeFixed64 t) (u' ++ EncodeFixed64 t') ≤ 0 → compare_ u u' ≤ 0.
Proof. intros Ht Ht'. rewrite ikey_compare_tags by done. destruct (Z.eqb_spec (compare_ u u') 0); lia. Qed.

(** The tag of the separators. *)
Lemma seek_tag :
  PackSequenceAndType kMaxSequenceNumber kValueTypeForSeek = Some (kMaxSequenceNumber * 256 + kValueTypeForSeek) ∧
  0 ≤ kMaxSequenceNumber * 256 + kValueTypeForSeek < 2 ^ 64.
Proof. by vm_compute. Qed.

Lemma internal_larger us ts tmp tm :
  0 ≤ ts < 2 ^ 64 → 0 ≤ tm < 2 ^ 64 → compare_ us tmp < 0 →
  ikey_compare (us ++ EncodeFixed64 ts) (tmp ++ EncodeFixed64 tm) < 0.
Proof. intros Hs Hm Hc. rewrite ikey_compare_tags by done. by rewrite (proj2 (Z.eqb_neq _ 0)) by lia. Qed.
Lemma internal_same us ts : 0 ≤ ts < 2 ^ 64 → ikey_compare (us ++ EncodeFixed64 ts) (us ++ EncodeFixed64 ts) ≤ 0.
Proof. intros Hs. rewrite ikey_compare_tags, compare_refl by done. cbn. by rewrite Z.ltb_irrefl. Qed.

(** The assertions of the functions hold. *)
Lemma internal_separator_law us ts ul tl :
  Forall is_byte us → 0 ≤ ts < 2 ^ 64 → 0 ≤ tl < 2 ^ 64 →
  ikey_compare (us ++ EncodeFixed64 ts) (ul ++ EncodeFixed64 tl) < 0 →
  ∃ sep, ikey_FindShortestSeparator (us ++ EncodeFixed64 ts) (ul ++ EncodeFixed64 tl) = Some sep ∧
    ikey_compare (us ++ EncodeFixed64 ts) sep ≤ 0 ∧ ikey_compare sep (ul ++ EncodeFixed64 tl) < 0 ∧
    Forall is_byte sep ∧ (length sep ≤ length (us ++ EncodeFixed64 ts))%nat ∧
    ∀ u t u' t', 0 ≤ t < 2 ^ 64 → 0 ≤ t' < 2 ^ 64 → compare_ u u' = 0 →
      ikey_compare (ul ++ EncodeFixed64 tl) (u' ++ EncodeFixed64 t') ≤ 0 → ikey_compare (u ++ EncodeFixed64 t) sep ≤ 0 →
      ikey_compare (u ++ EncodeFixed64 t) (us ++ EncodeFixed64 ts) ≤ 0.
Proof.
  intros Hb Hts Htl Hlt. destruct (ikey_parts us ts Hts) as (Eus & _). destruct (ikey_parts ul tl Htl) as (Eul & _).
  destruct seek_tag as [Ep Rp]. set (tm := _ + _) in *. cbv zeta in *.
  unfold ikey_FindShortestSeparator, PutFixed64. rewrite Eus, Eul, Ep. cbn [mbind option_bind].
  set (tmp := FindShortestSeparator us ul).
  destruct ((length tmp <? length us)%nat && (compare_ us tmp <? 0)) eqn:Ec.
  - apply andb_true_iff in Ec as [Hlen%Nat.ltb_lt Hst%Z.ltb_lt].
    pose proof (internal_larger us ts tmp tm Hts Rp Hst) as Hl.
    assert (ikey_compare (tmp ++ EncodeFixed64 tm) (ul ++ EncodeFixed64 tl) < 0) as Htl'.
    { apply separator_below with ts; [done..| |done]. by rewrite ikey_compare_tags in Hlt. }
    rewrite (proj2 (Z.ltb_lt _ 0) Hl), (proj2 (Z.ltb_lt _ 0) Htl'). cbn [andb].
    eexists. split_and!; [done|by apply Z.lt_le_incl|done| | |].
    + apply Forall_app. split; [by apply separator_bytes|apply EncodeFixed64_bytes].
    + rewrite !length_app, !length_fixed64. lia.
    + intros u t u' t' Ht Ht' Eu Hlim%ikey_user_le Hsep%ikey_user_le; [|done..].
      assert (compare_ tmp ul < 0) as Htu by (apply separator_user_below with ts tl; [done| |done]; by rewrite ikey_compare_tags in Hlt).
      assert (compare_ u ul < 0) as H1 by (by eapply compare_le_lt_trans).
      assert (compare_ ul u ≤ 0) as H2 by (eapply compare_trans; [exact Hlim|]; pose proof (compare_sym u u'); pose proof (compare_sym u' u); lia).
      pose proof (compare_le_lt_trans _ _ _ H2 H1). pose proof (compare_refl ul). lia.
  - eexists. split_and!; [done|by apply internal_same|done| |done|done].
    apply Forall_app. split; [done|apply EncodeFixed64_bytes].
Qed.

Lemma internal_successor_law us ts :
  Forall is_byte us → 0 ≤ ts < 2 ^ 64 →
  ∃ succ, ikey_FindShortSuccessor (us ++ EncodeFixed64 ts) = Some succ ∧
    ikey_compare (us ++ EncodeFixed64 ts) succ ≤ 0 ∧
    Forall is_byte succ ∧ (length succ ≤ length (us ++ EncodeFixed64 ts))%nat.
Proof.
  intros Hb Hts. destruct (ikey_parts us ts Hts) as (Eus & _).
  destruct seek_tag as [Ep Rp]. set (tm := _ + _) in *. cbv zeta in *.
  unfold ikey_FindShortSuccessor, PutFixed64. rewrite Eus, Ep. cbn [mbind option_bind].
  set (tmp := FindShortSuccessor us).
  destruct ((length tmp <? length us)%nat && (compare_ us tmp <? 0)) eqn:Ec.
  - apply andb_true_iff in Ec as [Hlen%Nat.ltb_lt Hst%Z.ltb_lt].
    pose proof (internal_larger us ts tmp tm Hts Rp Hst) as Hl. rewrite (proj2 (Z.ltb_lt _ 0) Hl).
    eexists. split_and!; [done|by apply Z.lt_le_incl| |].
    + apply Forall_app. split; [by apply successor_bytes|apply EncodeFixed64_bytes].
    + rewrite !length_app, !length_fixed64. lia.
  - eexists. split_and!; [done|by apply internal_same| |done].
    apply Forall_app. split; [done|apply EncodeFixed64_bytes].
Qed.

(** C35: with the bytewise comparator, the separator of two internal keys is between
    them (the two assertions of the function hold) and not longer, and the successor
    of a key is not before it. *)
Theorem internal_separator us ts ul tl :
  Forall is_byte us → 0 ≤ ts < 2 ^ 64 → 0 ≤ tl < 2 ^ 64 →
  let start := us ++ EncodeFixed64 ts in
  let limit := ul ++ EncodeFixed64 tl in
  ikey_compare start limit < 0 →
  (∃ sep, ikey_FindShortestSeparator start limit = Some sep ∧
    ikey_compare start sep ≤ 0 ∧ ikey_compare sep limit < 0 ∧ (length sep ≤ length start)%nat) ∧
  (∃ succ, ikey_FindShortSuccessor start = Some succ ∧
    ikey_compare start succ ≤ 0 ∧ (length succ ≤ length start)%nat).
Proof.
  intros Hb Hts Htl start limit Hlt. split.
  - destruct (internal_separator_law us ts ul tl Hb Hts Htl Hlt) as (sep & ? & ? & ? & _ & ? & _). by exists sep.
  - destruct (internal_successor_law us ts Hb Hts) as (succ & ? & ? & _ & ?). by exists succ.
Qed.

Lemma internal_key_roundtrip_witness :
  ∃ b1 b2, AppendInternalKey [] (MkParsed [97] 7 1) = Some b1 ∧
    AppendInternalKey [] (MkParsed [97] 5 1) = Some b2 ∧
    ParseInternalKey b1 = Some (MkParsed [97] 7 1) ∧ ikey_compare b1 b2 < 0.
Proof.
  destruct (internal_key_roundtrip (MkParsed [97] 7 1) (MkParsed [97] 5 1))
    as (b1 & b2 & E1 & E2 & P1 & _ & _ & _ & Hc); [split; vm_compute; split; discriminate..|].
  exists b1, b2. split_and!; [done|done|done|]. apply Hc. right.
  split; [vm_compute; reflexivity|]. left. vm_compute. reflexivity.
Defined.

Lemma internal_separator_witness :
  ∃ sep, ikey_FindShortestSeparator ([97; 98; 99] ++ EncodeFixed64 1) ([102] ++ EncodeFixed64 1) =
      Some sep ∧ ikey_compare sep ([102] ++ EncodeFixed64 1) < 0 ∧ sep = [98] ++ EncodeFixed64 (2 ^ 64 - 255).
Proof.
  destruct (internal_separator [97; 98; 99] 1 [102] 1) as [(sep & E & _ & Hlt & _) _];
    [repeat constructor; unfold is_byte; lia|lia|lia|vm_compute; reflexivity|].
  exists sep. split_and!; [exact E|exact Hlt|]. vm_compute in E. injection E as <-.
  vm_compute. reflexivity.
Defined.
