(* ===== verification/LdbFilter.v ===== *)
(** * leveldb: filters

    util/hash.cc, util/bloom.cc, table/filter_block.cc and the filter policy of
    db/dbformat.cc. A filter summarises a set of keys; a filter block holds one filter
    for each range of 2 kilobytes of the file, and says whether a key may be in a data
    block that starts in that range. *)
From S2P Require Import Prelude LdbCoding LdbFormat.

(** ** Hashes *)

Definition hash_m : Z := 0xc6a4a793.
Definition hash_r : Z := 24.

(** The loop over words of four bytes: the bytes that are left, and [h]. *)
Fixpoint hash_words (data : list Z) (h : Z) : list Z * Z :=
  match data with
  | b0 :: b1 :: b2 :: b3 :: data' =>
      let w := le_combine [b0; b1; b2; b3] in
      let h := u32 (h + w) in
      let h := u32 (h * hash_m) in
      hash_words data' (Z.lxor h (Z.shiftr h 16))
  | _ => (data, h)
  end.

(** [case 1] *)
Definition hash_last (b0 h : Z) : Z :=
  let h := u32 (h + b0) in
  let h := u32 (h * hash_m) in
  Z.lxor h (Z.shiftr h hash_r).
Definition hash_rest (data : list Z) (h : Z) : Z :=
  match data with
  | [b0; b1; b2] => hash_last b0 (u32 (u32 (h + Z.shiftl b2 16) + Z.shiftl b1 8))
  | [b0; b1] => hash_last b0 (u32 (h + Z.shiftl b1 8))
  | [b0] => hash_last b0 h
  | _ => h
  end.

Definition Hash (data : list Z) (seed : Z) : Z :=
  let h := u32 (Z.lxor seed (u64 (Z.of_nat (length data) * hash_m))) in
  let '(rest, h) := hash_words data h in
  hash_rest rest h.

(** ** Filter policies

    No value is undefined behaviour. [CreateFilter keys dst] is [*dst] at the end. *)
Class FilterPolicy := {
  CreateFilter : list (list Z) → list Z → option (list Z);
  KeyMayMatch : list Z → list Z → option bool;
}.

(** What include/leveldb/filter_policy.h asks for: a filter is appended to [*dst], it
    matches the keys it was made from, and matching any filter is defined. The length of
    the filter has a bound. *)
Class FilterPolicyLaws `{FilterPolicy} := {
  filter_key : list Z → Prop;     (* the keys the policy is made for *)
  filter_bytes : Z;               (* what a filter takes for each of its keys *)
  filter_bytes_nonneg : 0 ≤ filter_bytes;
  create_filter keys dst : Z.of_nat (length keys) < 2 ^ 31 → Forall filter_key keys →
    ∃ filter, CreateFilter keys dst = Some (dst ++ filter) ∧ Forall is_byte filter ∧
      (keys ≠ [] → Z.of_nat (length filter) ≤ filter_bytes * Z.of_nat (length keys)) ∧
      ∀ key, key ∈ keys → KeyMayMatch key filter = Some true;
  may_match_defined key filter : filter_key key → ∃ b, KeyMayMatch key filter = Some b;
}.

(** [InternalFilterPolicy]: the user keys are given to the user's policy. The array of
    keys is changed in place; the only caller clears it after the call. *)
Definition internal_policy (user_policy : FilterPolicy) : FilterPolicy :=
  {| CreateFilter keys dst :=
       if forallb (λ key, (8 <=? length key)%nat) keys
       then @CreateFilter user_policy (ExtractUserKey <$> keys) dst else None;
     KeyMayMatch key f :=
       if (8 <=? length key)%nat then @KeyMayMatch user_policy (ExtractUserKey key) f
       else None |}.

(** ** The Bloom filter *)

Definition BloomHash (key : list Z) : Z := Hash key 0xbc9f1d34.

(** [k_], from [bits_per_key * 0.69] rounded towards 0. Below 44 the product is at
    least 0.01 away from any integer that is not 0, so that the rounding of the
    floating-point product does not count; from 44 on the result is 30. *)
Definition bloom_k (bits_per_key : Z) : Z :=
  let k := bits_per_key * 69 ÷ 100 in
  let k := if k <? 1 then 1 else k in
  if 30 <? k then 30 else k.

Definition bloom_delta (h : Z) : Z := Z.lor (Z.shiftr h 17) (u32 (Z.shiftl h 15)).

(** [array[bitpos/8] |= (1 << (bitpos % 8))] for [j] values of [h]. *)
Fixpoint bloom_set (j : nat) (bits h delta : Z) (array : list Z) : option (list Z) :=
  match j with
  | O => Some array
  | S j' =>
      let bitpos := h `mod` bits in
      b ← array !! Z.to_nat (bitpos / 8);
      let b := u8 (Z.lor b (Z.shiftl 1 (bitpos `mod` 8))) in
      bloom_set j' bits (u32 (h + delta)) delta (<[Z.to_nat (bitpos / 8) := b]> array)
  end.

Fixpoint bloom_add (k : nat) (bits : Z) (keys : list (list Z)) (array : list Z)
    : option (list Z) :=
  match keys with
  | [] => Some array
  | key :: keys' =>
      let h := BloomHash key in
      array ← bloom_set k bits h (bloom_delta h) array;
      bloom_add k bits keys' array
  end.

Definition bloom_CreateFilter (bits_per_key : Z) (keys : list (list Z)) (dst : list Z)
    : option (list Z) :=
  let k := bloom_k bits_per_key in
  let bits := u64 (Z.of_nat (length keys) * u64 bits_per_key) in
  let bits := if bits <? 64 then 64 else bits in
  let bytes := u64 (bits + 7) / 8 in
  let bits := bytes * 8 in
  if bits =? 0 then None
  else
    array ← bloom_add (Z.to_nat k) bits keys (replicate (Z.to_nat bytes) 0 ++ [u8 k]);
    Some (dst ++ array).

(** The loop of [KeyMayMatch]. *)
Fixpoint bloom_test (j : nat) (bits h delta : Z) (array : list Z) : option bool :=
  match j with
  | O => Some true
  | S j' =>
      let bitpos := h `mod` bits in
      b ← array !! Z.to_nat (bitpos / 8);
      if Z.land b (Z.shiftl 1 (bitpos `mod` 8)) =? 0 then Some false
      else bloom_test j' bits (u32 (h + delta)) delta array
  end.

(** A [char] is signed. *)
Definition bloom_KeyMayMatch (key bloom_filter : list Z) : option bool :=
  let len := length bloom_filter in
  if (len <? 2)%nat then Some false
  else
    let bits := Z.of_nat (len - 1) * 8 in
    c ← bloom_filter !! (len - 1)%nat;
    let k := u64 (s8 c) in
    if 30 <? k then Some true
    else
      let h := BloomHash key in
      bloom_test (Z.to_nat k) bits h (bloom_delta h) bloom_filter.

Definition BloomFilterPolicy (bits_per_key : Z) : FilterPolicy :=
  {| CreateFilter := bloom_CreateFilter bits_per_key; KeyMayMatch := bloom_KeyMayMatch |}.

(** ** The filter block *)

Definition kFilterBaseLg : Z := 11.
Definition kFilterBase : Z := Z.shiftl 1 kFilterBaseLg.

Record FilterBlockBuilder := MkFilterBuilder {
  keys_ : list Z;             (* flattened key contents *)
  start_ : list nat;          (* starting index in keys_ of each key *)
  result_ : list Z;           (* filter data computed so far *)
  filter_offsets_ : list Z;
}.
Definition new_FilterBlockBuilder : FilterBlockBuilder := MkFilterBuilder [] [] [] [].

Section filter_block.
Context `{FilterPolicy}.

(** [tmp_keys_[i]], from [start_[i]] to [start_[i+1]]. *)
Definition tmp_key (keys : list Z) (start : list nat) (i : nat) : option (list Z) :=
  s ← start !! i;
  e ← start !! S i;
  Some (take (e - s) (drop s keys)).

Definition GenerateFilter : M FilterBlockBuilder unit :=
  b ← get_state;
  let num_keys := length (start_ b) in
  let offsets := filter_offsets_ b ++ [u32 (Z.of_nat (length (result_ b)))] in
  if (num_keys =? 0)%nat then
    put_state (MkFilterBuilder (keys_ b) (start_ b) (result_ b) offsets)
  else
    let start := start_ b ++ [length (keys_ b)] in
    tmp_keys ← lift_option (mapM (tmp_key (keys_ b) start) (seq 0 num_keys));
    result ← lift_option (CreateFilter tmp_keys (result_ b));
    put_state (MkFilterBuilder [] [] result offsets).

(** One turn of the loop of [StartBlock]. *)
Definition start_block_step (filter_index : Z) (_ : unit) : M FilterBlockBuilder (unit + unit) :=
  b ← get_state;
  if Z.of_nat (length (filter_offsets_ b)) <? filter_index
  then GenerateFilter;; mret (inl tt) else mret (inr tt).

Definition StartBlock (block_offset : Z) : M FilterBlockBuilder unit :=
  let filter_index := block_offset / kFilterBase in
  b ← get_state;
  assert_ (Z.of_nat (length (filter_offsets_ b)) <=? filter_index);;
  loop (filter_index + 1) (start_block_step filter_index) tt.

Definition AddKey (key : list Z) : M FilterBlockBuilder unit :=
  b ← get_state;
  put_state (MkFilterBuilder (keys_ b ++ key) (start_ b ++ [length (keys_ b)])
    (result_ b) (filter_offsets_ b)).

Definition filter_Finish : M FilterBlockBuilder (list Z) :=
  b ← get_state;
  (if (length (start_ b) =? 0)%nat then mret tt else GenerateFilter);;
  b ← get_state;
  let array_offset := u32 (Z.of_nat (length (result_ b))) in
  let result := foldl PutFixed32 (result_ b) (filter_offsets_ b) in
  let result := PutFixed32 result array_offset ++ [u8 kFilterBaseLg] in
  put_state (MkFilterBuilder (keys_ b) (start_ b) result (filter_offsets_ b));;
  mret result.

(** The reader: [data_] is the contents, and [offset_] an index in them. *)
Record FilterBlockReader := MkFilterReader {
  fr_data_ : list Z;
  fr_offset_ : Z;
  fr_num_ : Z;
  fr_base_lg_ : Z;
}.

Definition new_FilterBlockReader (contents : list Z) : option FilterBlockReader :=
  let n := length contents in
  if (n <? 5)%nat then Some (MkFilterReader [] 0 0 0)
  else
    c ← contents !! (n - 1)%nat;
    let base_lg := u64 (s8 c) in
    last_word ← DecodeFixed32 (drop (n - 5) contents);
    if Z.of_nat (n - 5) <? last_word then Some (MkFilterReader [] 0 0 base_lg)
    else Some (MkFilterReader contents last_word ((Z.of_nat (n - 5) - last_word) / 4) base_lg).

(** A shift by the width of the integer, or by more, is undefined. *)
Definition reader_KeyMayMatch (r : FilterBlockReader) (block_offset : Z) (key : list Z)
    : option bool :=
  if 64 <=? fr_base_lg_ r then None
  else
    let index := Z.shiftr block_offset (fr_base_lg_ r) in
    if index <? fr_num_ r then
      let p := Z.to_nat (fr_offset_ r + index * 4) in
      start ← DecodeFixed32 (drop p (fr_data_ r));
      limit ← DecodeFixed32 (drop (p + 4) (fr_data_ r));
      if (start <=? limit) && (limit <=? fr_offset_ r) then
        KeyMayMatch key (take (Z.to_nat (limit - start)) (drop (Z.to_nat start) (fr_data_ r)))
      else if start =? limit then Some false
      else Some true
    else Some true.
End filter_block.
