(* ===== verification/LdbFilterSpec.v ===== *)
(** * leveldb: filters lose no key

    The Bloom filter keeps the law of filter policies, the policy of internal keys keeps
    it too, and a filter block built with any policy that has it matches each key at
    the offset of its block. *)
From stdpp Require Import sorting.
From S2P Require Import Prelude LdbCoding LdbFormat LdbFilter.

(** ** Bits *)

Lemma land_bit b n : 0 ≤ n → (Z.land b (Z.shiftl 1 n) =? 0) = negb (Z.testbit b n).
Proof.
  intros Hn. rewrite Z.shiftl_1_l. destruct (Z.testbit b n) eqn:E; simpl.
  - apply Z.eqb_neq. intros E0. apply (f_equal (λ z, Z.testbit z n)) in E0.
    rewrite Z.land_spec, E, Z.pow2_bits_true, Z.bits_0 in E0 by done. done.
  - apply Z.eqb_eq, Z.bits_inj_iff'. intros m Hm. rewrite Z.land_spec, Z.bits_0.
    destruct (decide (m = n)) as [->|]; [by rewrite E|].
    by rewrite Z.pow2_bits_false, andb_false_r by lia.
Qed.

Lemma set_bit b n m :
  0 ≤ n → 0 ≤ m < 8 →
  Z.testbit (u8 (Z.lor b (Z.shiftl 1 n))) m = Z.testbit b m || (m =? n).
Proof.
  intros Hn Hm. unfold wrapu. rewrite Z.mod_pow2_bits_low, Z.lor_spec, Z.shiftl_1_l by lia. f_equal.
  destruct (Z.eqb_spec m n) as [->|]; [by apply Z.pow2_bits_true|by apply Z.pow2_bits_false; lia].
Qed.

(** The bits that are set stay set. *)
Definition bits_kept (a a' : list Z) : Prop :=
  ∀ i b, a !! i = Some b →
    ∃ b', a' !! i = Some b' ∧ ∀ n, 0 ≤ n < 8 → Z.testbit b n = true → Z.testbit b' n = true.

#[export] Instance bits_kept_preorder : PreOrder bits_kept.
Proof.
  split.
  - intros a i b E. by exists b.
  - intros a1 a2 a3 H1 H2 i b E. destruct (H1 i b E) as (b' & E' & K).
    destruct (H2 i b' E') as (b'' & E'' & K'). exists b''. eauto.
Qed.

Lemma bits_kept_set a i b n :
  a !! i = Some b → 0 ≤ n → bits_kept a (<[i := u8 (Z.lor b (Z.shiftl 1 n))]> a).
Proof.
  intros E Hn k c Ec. destruct (decide (i = k)) as [<-|].
  - rewrite E in Ec. injection Ec as <-. eexists.
    split; [apply list_lookup_insert_eq; by eapply lookup_lt_Some|].
    intros m Hm Ht. rewrite set_bit by lia. by rewrite Ht.
  - exists c. by rewrite list_lookup_insert_ne.
Qed.

(** ** The Bloom filter *)

Lemma bit_position h bits n :
  bits = n * 8 → 0 < n → 0 ≤ h `mod` bits / 8 < n ∧ 0 ≤ (h `mod` bits) `mod` 8 < 8.
Proof. intros -> Hn. pose proof (Z.mod_pos_bound h (n * 8)). zdiv. Qed.

Lemma bloom_test_kept a a' j : ∀ bits h delta,
  bits_kept a a' → bloom_test j bits h delta a = Some true → bloom_test j bits h delta a' = Some true.
Proof.
  induction j as [|j IH]; intros bits h delta Hk; [done|]. cbn [bloom_test].
  destruct (a !! _) as [b|] eqn:E; [|done]. destruct (Hk _ _ E) as (b' & -> & Hb). simpl.
  pose proof (Z.mod_pos_bound (h `mod` bits) 8 eq_refl) as Hm. rewrite !land_bit by lia.
  destruct (Z.testbit b _) eqn:Eb; [|done]. rewrite (Hb _ Hm Eb). simpl. by apply IH.
Qed.

Lemma bloom_set_spec j : ∀ (n : nat) h delta a,
  (0 < n ≤ length a)%nat →
  ∃ a', bloom_set j (Z.of_nat n * 8) h delta a = Some a' ∧ length a' = length a ∧
    (∀ i, (n ≤ i)%nat → a' !! i = a !! i) ∧ bits_kept a a' ∧
    bloom_test j (Z.of_nat n * 8) h delta a' = Some true.
Proof.
  induction j as [|j IH]; intros n h delta a Hn; [by exists a|]. cbn [bloom_set].
  destruct (bit_position h (Z.of_nat n * 8) (Z.of_nat n) eq_refl ltac:(lia)) as [Hp Hm].
  set (p := Z.to_nat (_ / 8)) in *. set (m := (h `mod` _) `mod` 8) in *.
  destruct (lookup_lt_is_Some_2 a p) as [b Eb]; [lia|]. rewrite Eb. cbn [mbind option_bind].
  set (a1 := <[p := _]> a).
  destruct (IH n (u32 (h + delta)) delta a1) as (a' & E & Hl & Hi & Hk & Ht);
    [unfold a1; rewrite length_insert; lia|].
  pose proof (bits_kept_set a p b m Eb ltac:(lia)) as Hk1. exists a'. split_and!; [done| | | |].
  - by rewrite Hl; unfold a1; rewrite length_insert.
  - intros i Hni. rewrite Hi by done. apply list_lookup_insert_ne. lia.
  - by transitivity a1.
  - destruct (Hk p (u8 (Z.lor b (Z.shiftl 1 m)))) as (b' & Eb' & Hb').
    { apply list_lookup_insert_eq. lia. }
    cbn [bloom_test]. fold p m. rewrite Eb'. simpl. rewrite land_bit by lia.
    rewrite Hb'; [done|lia|]. by rewrite set_bit, Z.eqb_refl, orb_true_r by lia.
Qed.

Lemma bloom_add_spec k (n : nat) keys : ∀ a,
  (0 < n ≤ length a)%nat →
  ∃ a', bloom_add k (Z.of_nat n * 8) keys a = Some a' ∧ length a' = length a ∧
    (∀ i, (n ≤ i)%nat → a' !! i = a !! i) ∧ bits_kept a a' ∧
    ∀ key, key ∈ keys →
      bloom_test k (Z.of_nat n * 8) (BloomHash key) (bloom_delta (BloomHash key)) a' = Some true.
Proof.
  induction keys as [|key keys IH]; intros a Hn.
  { exists a. split_and!; [done..|]. intros key Hk. by apply not_elem_of_nil in Hk. }
  destruct (bloom_set_spec k n (BloomHash key) (bloom_delta (BloomHash key)) a Hn)
    as (a1 & E1 & Hl1 & Hi1 & Hk1 & Ht1).
  destruct (IH a1) as (a' & E & Hl & Hi & Hk & Ht); [lia|].
  exists a'. cbn [bloom_add]. rewrite E1. cbn [mbind option_bind].
  split_and!; [done|lia|intros i Hni; by rewrite Hi, Hi1|by transitivity a1|].
  intros key' [->|Hin]%elem_of_cons; [by eapply bloom_test_kept|by apply Ht].
Qed.

Lemma bloom_set_bytes j : ∀ bits h delta a a',
  Forall is_byte a → bloom_set j bits h delta a = Some a' → Forall is_byte a'.
Proof.
  induction j as [|j IH]; intros bits h delta a a' Ha E; cbn [bloom_set] in E; [by injection E as <-|].
  destruct (a !! _) as [b|]; [|done]. cbn [mbind option_bind] in E. eapply IH, E.
  apply Forall_insert; [done|]. apply (wrapu_range 8). lia.
Qed.
Lemma bloom_add_bytes k bits keys : ∀ a a',
  Forall is_byte a → bloom_add k bits keys a = Some a' → Forall is_byte a'.
Proof.
  induction keys as [|key keys IH]; intros a a' Ha E; cbn [bloom_add] in E; [by injection E as <-|].
  destruct (bloom_set _ _ _ _ _) as [a1|] eqn:E1; [|done]. cbn [mbind option_bind] in E.
  eapply IH, E. by eapply bloom_set_bytes, E1.
Qed.

Lemma bloom_k_range bits_per_key : 1 ≤ bloom_k bits_per_key ≤ 30.
Proof.
  unfold bloom_k. destruct (Z.ltb_spec (bits_per_key * 69 ÷ 100) 1); [done|].
  by destruct (Z.ltb_spec 30 (bits_per_key * 69 ÷ 100)); [|lia].
Qed.

Lemma bloom_law bits_per_key keys dst :
  0 ≤ bits_per_key < 2 ^ 31 → Z.of_nat (length keys) < 2 ^ 31 →
  ∃ filter, bloom_CreateFilter bits_per_key keys dst = Some (dst ++ filter) ∧
    Z.of_nat (length filter) =
      (Z.max 64 (Z.of_nat (length keys) * bits_per_key) + 7) / 8 + 1 ∧
    Forall is_byte filter ∧ ∀ key, key ∈ keys → bloom_KeyMayMatch key filter = Some true.
Proof.
  intros Hb Hl. unfold bloom_CreateFilter. pose proof (bloom_k_range bits_per_key) as Hk.
  set (k := bloom_k bits_per_key) in *. pow2.
  rewrite (wrapu_small 64 bits_per_key), (wrapu_small 64 (_ * _)) by (pow2; nia).
  set (bits := Z.of_nat (length keys) * bits_per_key) in *.
  assert (0 ≤ bits < 2 ^ 62) as Hbits by (change (2 ^ 62) with 4611686018427387904; nia).
  set (bits' := if bits <? 64 then 64 else bits).
  assert (64 ≤ bits' < 2 ^ 62) as Hbits'.
  { unfold bits'. destruct (Z.ltb_spec bits 64); [by split|lia]. }
  change (2 ^ 62) with 4611686018427387904 in *. rewrite wrapu_small by (pow2; lia).
  set (n := Z.to_nat ((bits' + 7) / 8)).
  assert ((bits' + 7) / 8 = Z.of_nat n) as -> by (unfold n; zdiv).
  assert (8 ≤ Z.of_nat n) as Hn by (unfold n; zdiv).
  rewrite (proj2 (Z.eqb_neq _ 0)) by lia.
  destruct (bloom_add_spec (Z.to_nat k) n keys (replicate n 0 ++ [u8 k])) as (a & Ea & Hla & Hi & _ & Ht);
    [rewrite length_app, length_replicate; simpl; lia|].
  rewrite Ea. apply bloom_add_bytes in Ea as Hab.
  2: { apply Forall_app. split; [apply Forall_replicate; unfold is_byte; lia|].
       apply Forall_singleton, (wrapu_range 8). lia. }
  rewrite length_app, length_replicate in Hla. cbn [length] in Hla.
  assert (Z.max 64 bits = bits') as -> by (unfold bits'; destruct (Z.ltb_spec bits 64); lia).
  exists a. split_and!; [done|unfold n in Hla; zdiv|done|]. intros key Hin. specialize (Ht key Hin).
  unfold bloom_KeyMayMatch. rewrite Hla. rewrite (proj2 (Nat.ltb_ge _ _)) by lia.
  replace (n + 1 - 1)%nat with n by lia.
  assert (a !! n = Some k) as ->.
  { rewrite Hi by lia. rewrite lookup_app_r by (rewrite length_replicate; lia).
    rewrite length_replicate, Nat.sub_diag. simpl. f_equal. apply wrapu_small. pow2. lia. }
  simpl. rewrite wraps_small, wrapu_small by (pow2; simpl; lia).
  by rewrite (proj2 (Z.ltb_ge _ _)) by lia.
Qed.

Lemma bloom_test_total (n : nat) a j : ∀ h delta,
  (0 < n ≤ length a)%nat → ∃ r, bloom_test j (Z.of_nat n * 8) h delta a = Some r.
Proof.
  induction j as [|j IH]; intros h delta Hn; [by exists true|]. cbn [bloom_test].
  destruct (bit_position h (Z.of_nat n * 8) (Z.of_nat n) eq_refl ltac:(lia)) as [Hp _].
  destruct (lookup_lt_is_Some_2 a (Z.to_nat (h `mod` (Z.of_nat n * 8) / 8))) as [b ->]; [lia|].
  simpl. destruct (_ =? 0); [by exists false|]. by apply IH.
Qed.

Lemma bloom_may_match_total key f : ∃ r, bloom_KeyMayMatch key f = Some r.
Proof.
  unfold bloom_KeyMayMatch. destruct (Nat.ltb_spec (length f) 2); [by eexists|].
  destruct (lookup_lt_is_Some_2 f (length f - 1)) as [c ->]; [lia|]. cbn [mbind option_bind].
  destruct (_ <? _); [by eexists|]. apply bloom_test_total. lia.
Qed.

#[export] Instance bloom_laws bits_per_key (Hb : 0 ≤ bits_per_key < 2 ^ 31) :
  @FilterPolicyLaws (BloomFilterPolicy bits_per_key).
Proof.
  refine {| filter_key := λ _, True; filter_bytes := bits_per_key + 10 |}; [lia| |].
  - intros keys dst Hl _. destruct (bloom_law bits_per_key keys dst Hb Hl) as (f & E & El & Hf & Hm).
    exists f. split_and!; [done|done| |done]. intros Hne. rewrite El. destruct keys as [|key keys]; [done|].
    cbn [length]. set (n := Z.of_nat (S _)). assert (1 ≤ n) by lia.
    assert ((Z.max 64 (n * bits_per_key) + 7) / 8 ≤ Z.max 64 (n * bits_per_key) / 8 + 1) by zdiv.
    assert (Z.max 64 (n * bits_per_key) / 8 ≤ 8 + n * bits_per_key) by zdiv. nia.
  - intros key f _. apply bloom_may_match_total.
Defined.

(** The policy of internal keys. *)
#[export] Instance internal_policy_laws `{P : FilterPolicy} `{!FilterPolicyLaws} :
  @FilterPolicyLaws (internal_policy P).
Proof.
  refine {| filter_key := λ key, (8 ≤ length key)%nat ∧ filter_key (ExtractUserKey key);
            filter_bytes := filter_bytes |}; [apply filter_bytes_nonneg| |].
  - intros keys dst Hl Hk. cbn [CreateFilter KeyMayMatch internal_policy].
    assert (forallb (λ key, (8 <=? length key)%nat) keys = true) as ->.
    { apply forallb_forall. intros key Hin%list_elem_of_In. rewrite Forall_forall in Hk.
      apply Nat.leb_le. by apply Hk. }
    destruct (create_filter (ExtractUserKey <$> keys) dst) as (f & E & Hf & Hlen & Hm).
    { by rewrite length_fmap. }
    { apply Forall_fmap. eapply Forall_impl; [exact Hk|]. by intros key []. }
    rewrite length_fmap in Hlen. exists f. split_and!; [exact E|done| |].
    + intros Hne. apply Hlen. by intros ->%fmap_nil_inv.
    + intros key Hin. rewrite Forall_forall in Hk.
      rewrite (proj2 (Nat.leb_le _ _)) by (by apply Hk). apply Hm. by apply list_elem_of_fmap_2.
  - intros key f [Hl Hk]. cbn [KeyMayMatch internal_policy]. rewrite (proj2 (Nat.leb_le _ _)) by done.
    by apply may_match_defined.
Defined.

(** ** Arrays of offsets *)

(** Where each of the strings [l] starts in their concatenation. *)
Fixpoint starts {A} (n : nat) (l : list (list A)) : list nat :=
  match l with [] => [] | x :: l' => n :: starts (n + length x) l' end.

Lemma length_starts {A} (l : list (list A)) : ∀ n, length (starts n l) = length l.
Proof. induction l as [|x l IH]; intros n; simpl; [done|]. by rewrite IH. Qed.

Lemma starts_snoc {A} (l : list (list A)) x : ∀ n,
  starts n (l ++ [x]) = starts n l ++ [(n + length (concat l))%nat].
Proof.
  induction l as [|y l IH]; intros n; cbn [starts app concat].
  - by rewrite Nat.add_0_r.
  - rewrite IH, length_app. cbn [app]. by rewrite Nat.add_assoc.
Qed.

Lemma starts_middle {A} (l1 l2 : list (list A)) x : ∀ n,
  starts n (l1 ++ x :: l2) =
  starts n l1 ++ (n + length (concat l1))%nat :: starts (n + length (concat l1) + length x) l2.
Proof.
  induction l1 as [|y l1 IH]; intros n; cbn [starts app concat length].
  - by rewrite !Nat.add_0_r.
  - by rewrite IH, length_app, !Nat.add_assoc.
Qed.

(** Followed by the end of the last string, the array delimits each of them. *)
Lemma starts_lookup {A} (l1 l2 : list (list A)) x :
  let l := l1 ++ x :: l2 in
  let ends := starts 0 l ++ [length (concat l)] in
  ends !! length l1 = Some (length (concat l1)) ∧
  ends !! S (length l1) = Some (length (concat l1) + length x)%nat ∧
  take (length x) (drop (length (concat l1)) (concat l)) = x.
Proof.
  cbv zeta. rewrite starts_middle, <-app_assoc. cbn [app Nat.add].
  rewrite concat_app. cbn [concat]. split_and!.
  - rewrite lookup_app_r; rewrite length_starts; [|done]. by rewrite Nat.sub_diag.
  - rewrite lookup_app_r; rewrite length_starts; [|lia].
    replace (S (length l1) - length l1)%nat with 1%nat by lia. simpl.
    destruct l2 as [|y l2]; simpl; [|done]. by rewrite app_nil_r, length_app.
  - by rewrite drop_app_length, take_app_length.
Qed.

(** ** The builder *)

Section builder.
Context `{FilterPolicyLaws}.
Implicit Types (fs : list (list Z)) (gs : list (list (list Z))) (b : FilterBlockBuilder).

(** The filters [fs] are finished, the filter [i] for the keys [gs !! i]; the keys [p]
    wait for the next one. *)
Record filters b (fs : list (list Z)) (gs : list (list (list Z))) (p : list (list Z)) : Prop := {
  filters_result : result_ b = concat fs;
  filters_offsets : filter_offsets_ b = (λ n, u32 (Z.of_nat n)) <$> starts 0 fs;
  filters_keys : keys_ b = concat p;
  filters_start : start_ b = starts 0 p;
  filters_match :
    Forall2 (λ ks f, ∀ key, key ∈ ks → KeyMayMatch key f = Some true) gs fs;
  filters_valid : Forall filter_key p;
  filters_bytes : Forall (Forall is_byte) fs;
  filters_size : Z.of_nat (length (concat fs)) ≤ filter_bytes * Z.of_nat (length (concat gs));
}.

Lemma new_filters : filters new_FilterBlockBuilder [] [] [].
Proof. split; try done; try constructor. simpl. lia. Qed.

(** The key is for the filter [i]. *)
Definition in_filter (i : nat) (key : list Z) gs (p : list (list Z)) : Prop :=
  (∃ ks, gs !! i = Some ks ∧ key ∈ ks) ∨ i = length gs ∧ key ∈ p.

Lemma tmp_keys_all (p : list (list Z)) :
  mapM (tmp_key (concat p) (starts 0 p ++ [length (concat p)])) (seq 0 (length p)) = Some p.
Proof.
  apply mapM_Some. apply Forall2_same_length_lookup_2; [by rewrite length_seq|].
  intros i j x Ei Ex. apply lookup_seq in Ei as [-> _]. simpl.
  pose proof (lookup_lt_Some _ _ _ Ex) as Hi. apply list_elem_of_split_length in Ex as (l1 & l2 & -> & ->).
  destruct (starts_lookup l1 l2 x) as (E1 & E2 & E3). unfold tmp_key. rewrite E1, E2. simpl.
  by rewrite Nat.add_comm, Nat.add_sub, E3.
Qed.

Lemma run_GenerateFilter b fs gs p :
  filters b fs gs p → Z.of_nat (length p) < 2 ^ 31 →
  ∃ b' f, GenerateFilter b = Done (tt, b') ∧ filters b' (fs ++ [f]) (gs ++ [p]) [].
Proof.
  intros Hb Hp. unfold GenerateFilter. rewrite bind_get. cbv zeta.
  rewrite (filters_start _ _ _ _ Hb), length_starts.
  assert (filter_offsets_ b ++ [u32 (Z.of_nat (length (result_ b)))] =
    (λ n, u32 (Z.of_nat n)) <$> (starts 0 fs ++ [length (concat fs)])) as Eo.
  { by rewrite fmap_app, (filters_offsets _ _ _ _ Hb), (filters_result _ _ _ _ Hb). }
  destruct (Nat.eqb_spec (length p) 0) as [->%nil_length_inv|Hp0].
  - eexists _, []. split; [done|]. destruct Hb. split; simpl.
    + by rewrite concat_app, app_nil_r.
    + by rewrite starts_snoc.
    + done.
    + done.
    + apply Forall2_app; [done|]. constructor; [|done]. intros key Hk. by apply not_elem_of_nil in Hk.
    + done.
    + apply Forall_app. by repeat constructor.
    + rewrite !concat_app, !length_app. simpl. lia.
  - destruct (create_filter p (result_ b) Hp) as (f & Ef & Hfb & Hfl & Hf); [apply Hb|].
    rewrite (filters_keys _ _ _ _ Hb).
    rewrite (bind_lift _ _ _ _ (tmp_keys_all p)), (bind_lift _ _ _ _ Ef).
    eexists _, f. split; [done|]. destruct Hb. split; simpl.
    + rewrite concat_app. simpl. by rewrite app_nil_r, filters_result0.
    + by rewrite starts_snoc.
    + done.
    + done.
    + apply Forall2_app; [done|]. by constructor.
    + done.
    + apply Forall_app. by repeat constructor.
    + rewrite !concat_app, !length_app. simpl. rewrite !app_nil_r, !Nat2Z.inj_add.
      assert (Z.of_nat (length f) ≤ filter_bytes * Z.of_nat (length p)); [|lia].
      apply Hfl. by intros ->.
Qed.

Lemma in_filter_generate i key gs p : in_filter i key gs p → in_filter i key (gs ++ [p]) [].
Proof.
  intros [(ks & E & Hk)|[-> Hk]]; left.
  - exists ks. split; [by apply lookup_app_l_Some|done].
  - exists p. by rewrite lookup_app_r, Nat.sub_diag.
Qed.

(** [StartBlock] closes the filters up to the one of the block. *)
Lemma run_start_loop idx d : ∀ fuel b fs gs p,
  filters b fs gs p → Z.of_nat (length p) < 2 ^ 31 →
  idx = (length gs + d)%nat → Z.of_nat d < fuel →
  ∃ b' fs' gs' p', loop fuel (start_block_step (Z.of_nat idx)) tt b = Done (tt, b') ∧
    filters b' fs' gs' p' ∧ length gs' = idx ∧ concat gs' ++ p' = concat gs ++ p ∧
    (length p' ≤ length p)%nat ∧ ∀ i key, in_filter i key gs p → in_filter i key gs' p'.
Proof.
  induction d as [|d IH]; intros fuel b fs gs p Hb Hp -> Hd;
    assert (length (filter_offsets_ b) = length gs) as Hl
      by (rewrite (filters_offsets _ _ _ _ Hb), length_fmap, length_starts;
          symmetry; eapply Forall2_length, Hb).
  - exists b, fs, gs, p. split_and!; [|done|lia|done|done|done]. apply loop_inr; [lia|].
    unfold start_block_step. rewrite bind_get, Hl. by rewrite (proj2 (Z.ltb_ge _ _)) by lia.
  - destruct (run_GenerateFilter b fs gs p Hb Hp) as (b1 & f & E1 & Hb1).
    destruct (IH (fuel - 1) b1 (fs ++ [f]) (gs ++ [p]) [] Hb1) as (b' & fs' & gs' & p' & E & Hb' & Hg & Hgp & Hp' & Hin);
      [simpl; lia|rewrite length_app; simpl; lia|lia|].
    exists b', fs', gs', p'. split_and!; [|done|exact Hg| |simpl in Hp'; lia|].
    + rewrite (loop_inl fuel _ _ _ tt b1); [|lia|].
      * exact E.
      * unfold start_block_step. rewrite bind_get, Hl, (proj2 (Z.ltb_lt _ _)) by lia. by bind_with E1.
    + rewrite Hgp, concat_app. simpl. by rewrite !app_nil_r.
    + intros i key Hi. by apply Hin, in_filter_generate.
Qed.

Lemma run_AddKey b fs gs p key :
  filters b fs gs p → filter_key key →
  ∃ b', AddKey key b = Done (tt, b') ∧ filters b' fs gs (p ++ [key]).
Proof.
  intros [] Hk. eexists. split; [done|]. split; simpl; [done|done| | |done| |done|done].
  - rewrite concat_app, filters_keys0. simpl. by rewrite app_nil_r.
  - by rewrite starts_snoc, filters_start0, filters_keys0.
  - apply Forall_app. by split; [|constructor].
Qed.

Definition add_keys (keys : list (list Z)) : M FilterBlockBuilder unit :=
  foldr (λ key c, AddKey key;; c) (mret tt) keys.

Lemma run_add_keys keys : ∀ b fs gs p,
  filters b fs gs p → Forall filter_key keys →
  ∃ b', add_keys keys b = Done (tt, b') ∧ filters b' fs gs (p ++ keys).
Proof.
  induction keys as [|key keys IH]; intros b fs gs p Hb Hk; simpl.
  { exists b. by rewrite app_nil_r. }
  apply Forall_cons in Hk as [Hk Hks]. destruct (run_AddKey b fs gs p key Hb Hk) as (b1 & E1 & Hb1).
  destruct (IH b1 fs gs (p ++ [key]) Hb1 Hks) as (b' & E & Hb').
  exists b'. bind_with E1. by rewrite <-app_assoc in Hb'.
Qed.

(** The keys of each data block, with the offset of the block in the file. *)
Fixpoint add_blocks (blocks : list (Z * list (list Z))) : M FilterBlockBuilder unit :=
  match blocks with
  | [] => mret tt
  | (off, keys) :: blocks' => StartBlock off;; add_keys keys;; add_blocks blocks'
  end.

Definition filter_index (off : Z) : nat := Z.to_nat (off / kFilterBase).

Lemma run_add_blocks blocks : ∀ b fs gs p last,
  filters b fs gs p → length gs = filter_index last → 0 ≤ last →
  Forall (λ '(off, keys), last ≤ off < 2 ^ 64 ∧ Forall filter_key keys) blocks →
  StronglySorted Z.le (fst <$> blocks) →
  Z.of_nat (length p + length (concat (snd <$> blocks))) < 2 ^ 31 →
  ∃ b' fs' gs' p', add_blocks blocks b = Done (tt, b') ∧ filters b' fs' gs' p' ∧
    Z.of_nat (length p') < 2 ^ 31 ∧
    (∀ i key, in_filter i key gs p → in_filter i key gs' p') ∧
    (∀ off keys key, (off, keys) ∈ blocks → key ∈ keys → in_filter (filter_index off) key gs' p').
Proof.
  induction blocks as [|[off keys] blocks IH]; intros b fs gs p last Hb Hg Hlast Hk Hs Hl.
  { exists b, fs, gs, p. split_and!; [done|done|simpl in Hl; lia|done|].
    intros off keys key Hin. by apply not_elem_of_nil in Hin. }
  apply Forall_cons in Hk as [[Hoff Hkeys] Hk]. cbn [fmap list_fmap fst snd concat] in Hs, Hl.
  rewrite length_app in Hl. apply StronglySorted_inv in Hs as [Hs Hle].
  assert (last / kFilterBase ≤ off / kFilterBase) as Hdiv by (apply Z.div_le_mono; [done|lia]).
  assert (0 ≤ last / kFilterBase) as Hdiv0 by (by apply Z.div_pos).
  assert (length (filter_offsets_ b) = length gs) as Hlo
    by (rewrite (filters_offsets _ _ _ _ Hb), length_fmap, length_starts;
        symmetry; eapply Forall2_length, Hb).
  destruct (run_start_loop (filter_index off) (filter_index off - length gs)
    (off / kFilterBase + 1) b fs gs p Hb)
    as (b1 & fs1 & gs1 & p1 & E1 & Hb1 & Hg1 & _ & Hp1 & Hin1);
    [lia|unfold filter_index in *; lia|unfold filter_index in *; lia|].
  destruct (run_add_keys keys b1 fs1 gs1 p1 Hb1 Hkeys) as (b2 & E2 & Hb2).
  destruct (IH b2 fs1 gs1 (p1 ++ keys) off Hb2 Hg1) as (b' & fs' & gs' & p' & E & Hb' & Hp' & Hin & Hnew);
    [lia| |done|rewrite length_app; lia|].
  { apply Forall_forall. intros [off' keys'] Hin.
    destruct (proj1 (Forall_forall _ _) Hk _ Hin) as [Hoff' Hkeys'].
    split; [split; [|lia]|done]. apply (proj1 (Forall_forall _ _) Hle).
    apply list_elem_of_fmap. by exists (off', keys'). }
  exists b', fs', gs', p'. split_and!; [|done|done| |].
  - cbn [add_blocks]. unfold StartBlock. cbv zeta.
    replace (Z.of_nat (filter_index off)) with (off / kFilterBase) in E1 by (unfold filter_index; lia).
    rewrite bind_assoc, bind_get, bind_assoc, bind_assert by (apply Z.leb_le; unfold filter_index in *; lia).
    bind_with E1. by bind_with E2.
  - intros i key Hi. apply Hin. destruct (Hin1 i key Hi) as [Hx|[-> Hx]]; [by left|].
    right. split; [done|]. apply elem_of_app. by left.
  - intros off' keys' key [[= -> ->]|Hx]%elem_of_cons Hkey; [|by eapply Hnew].
    apply Hin. right. split; [done|]. apply elem_of_app. by right.
Qed.
End builder.

(** ** The block and its reader *)

Section reader.
Context `{FilterPolicyLaws}.
Implicit Types (fs : list (list Z)) (gs : list (list (list Z))) (b : FilterBlockBuilder).

Lemma run_filter_Finish b fs gs p :
  filters b fs gs p → Z.of_nat (length p) < 2 ^ 31 →
  ∃ b' fs' gs',
    filter_Finish b = Done (concat fs' ++
      concat (EncodeFixed32 <$> ((λ n, u32 (Z.of_nat n)) <$> (starts 0 fs' ++ [length (concat fs')])))
      ++ [kFilterBaseLg], b') ∧
    Forall2 (λ ks f, ∀ key, key ∈ ks → KeyMayMatch key f = Some true) gs' fs' ∧
    (∀ i key, in_filter i key gs p → ∃ ks, gs' !! i = Some ks ∧ key ∈ ks) ∧
    Forall (Forall is_byte) fs' ∧
    Z.of_nat (length (concat fs')) ≤ filter_bytes * Z.of_nat (length (concat gs ++ p)) ∧
    (length fs' ≤ S (length gs))%nat.
Proof.
  intros Hb Hp.
  assert (∃ b1 fs1 gs1, (if (length (start_ b) =? 0)%nat then mret tt else GenerateFilter) b =
      Done (tt, b1) ∧ filters b1 fs1 gs1 [] ∧ concat gs1 = concat gs ++ p ∧ (length gs1 ≤ S (length gs))%nat ∧
      ∀ i key, in_filter i key gs p → in_filter i key gs1 [])
    as (b1 & fs1 & gs1 & E1 & Hb1 & Hgp & Hg1 & Hin).
  { rewrite (filters_start _ _ _ _ Hb), length_starts.
    destruct (Nat.eqb_spec (length p) 0) as [->%nil_length_inv|_];
      [exists b, fs, gs; rewrite app_nil_r; by split_and!; auto|].
    destruct (run_GenerateFilter b fs gs p Hb Hp) as (b1 & f & E1 & Hb1).
    exists b1, (fs ++ [f]), (gs ++ [p]). split_and!; [done|done| | |].
    - rewrite concat_app. simpl. by rewrite app_nil_r.
    - rewrite length_app. simpl. lia.
    - intros. by apply in_filter_generate. }
  eexists _, fs1, gs1. split_and!; [|apply Hb1| |apply Hb1| |].
  - unfold filter_Finish. rewrite bind_get. bind_with E1. rewrite bind_get. cbv zeta.
    rewrite put_fixed32s, (filters_result _ _ _ _ Hb1), (filters_offsets _ _ _ _ Hb1).
    rewrite !fmap_app, concat_app. cbn [fmap list_fmap concat]. unfold PutFixed32.
    rewrite app_nil_r, <-!app_assoc. reflexivity.
  - intros i key Hi. destruct (Hin i key Hi) as [Hx|[_ Hx]]; [done|by apply not_elem_of_nil in Hx].
  - rewrite <-Hgp. apply Hb1.
  - by rewrite <-(Forall2_length _ _ _ (filters_match _ _ _ _ Hb1)).
Qed.

(** A filter block: the filters, the array of their ends, and the unit of the ranges. *)
Definition filter_block (fs : list (list Z)) : list Z :=
  concat fs ++
  concat (EncodeFixed32 <$> ((λ n, u32 (Z.of_nat n)) <$> (starts 0 fs ++ [length (concat fs)]))) ++
  [kFilterBaseLg].

Lemma length_filter_block fs :
  length (filter_block fs) = (length (concat fs) + 4 * length fs + 5)%nat.
Proof.
  unfold filter_block. rewrite !length_app, length_fixed32s, length_fmap, length_app, length_starts.
  simpl. lia.
Qed.

Lemma filter_block_end fs i v :
  Z.of_nat (length (filter_block fs)) < 2 ^ 32 →
  (starts 0 fs ++ [length (concat fs)]) !! i = Some v → (v ≤ length (concat fs))%nat →
  DecodeFixed32 (drop (length (concat fs) + 4 * i) (filter_block fs)) = Some (Z.of_nat v).
Proof.
  intros Hl E Hv. rewrite length_filter_block in Hl. unfold filter_block.
  rewrite <-drop_drop, drop_app_length.
  apply fixed32_lookup; [|lia]. rewrite list_lookup_fmap, E. simpl. f_equal. apply wrapu_small. lia.
Qed.

Lemma run_new_reader fs :
  Z.of_nat (length (filter_block fs)) < 2 ^ 32 →
  new_FilterBlockReader (filter_block fs) =
  Some (MkFilterReader (filter_block fs) (Z.of_nat (length (concat fs))) (Z.of_nat (length fs)) 11).
Proof.
  intros Hl. unfold new_FilterBlockReader. pose proof (length_filter_block fs) as En.
  rewrite (proj2 (Nat.ltb_ge _ _)) by lia.
  assert (filter_block fs !! (length (filter_block fs) - 1)%nat = Some 11) as ->.
  { rewrite Nat.sub_1_r, <-last_lookup. unfold filter_block. by rewrite app_assoc, last_snoc. }
  cbn [mbind option_bind].
  replace (length (filter_block fs) - 5)%nat with (length (concat fs) + 4 * length fs)%nat by lia.
  rewrite (filter_block_end fs (length fs) (length (concat fs)) Hl).
  - simpl. rewrite (proj2 (Z.ltb_ge _ _)) by lia. do 2 f_equal. zdiv.
  - rewrite lookup_app_r; rewrite length_starts; [|done]. by rewrite Nat.sub_diag.
  - done.
Qed.

Lemma run_reader fs off f key :
  Z.of_nat (length (filter_block fs)) < 2 ^ 32 → 0 ≤ off →
  fs !! filter_index off = Some f →
  reader_KeyMayMatch (MkFilterReader (filter_block fs) (Z.of_nat (length (concat fs)))
    (Z.of_nat (length fs)) 11) off key = KeyMayMatch key f.
Proof.
  intros Hl Hoff Ef. unfold reader_KeyMayMatch. cbn [fr_base_lg_ fr_num_ fr_offset_ fr_data_ Z.leb].
  assert (Z.shiftr off 11 = Z.of_nat (filter_index off)) as ->.
  { unfold filter_index. change kFilterBase with 2048. rewrite Z.shiftr_div_pow2 by done.
    change (2 ^ 11) with 2048. rewrite Z2Nat.id; [done|]. by apply Z.div_pos. }
  set (i := filter_index off) in *. pose proof (lookup_lt_Some _ _ _ Ef) as Hi.
  rewrite (proj2 (Z.ltb_lt _ _)) by lia.
  replace (Z.to_nat _) with (length (concat fs) + 4 * i)%nat by lia.
  replace (length (concat fs) + 4 * i + 4)%nat with (length (concat fs) + 4 * S i)%nat by lia.
  apply list_elem_of_split_length in Ef as (l1 & l2 & Efs & Ei).
  destruct (starts_lookup l1 l2 f) as (E1 & E2 & E3). rewrite <-Efs in E1, E2, E3. rewrite <-Ei in E1, E2.
  assert (length (concat l1) + length f ≤ length (concat fs))%nat as Hle.
  { rewrite Efs, concat_app. cbn [concat]. rewrite !length_app. lia. }
  rewrite (filter_block_end fs i _ Hl E1), (filter_block_end fs (S i) _ Hl E2) by lia.
  change (64 <=? 11) with false. cbn [mbind option_bind].
  rewrite (proj2 (Z.leb_le _ _)), (proj2 (Z.leb_le _ _)) by lia. cbn [andb].
  replace (Z.to_nat (_ - _)) with (length f) by lia. rewrite Nat2Z.id.
  unfold filter_block. rewrite drop_app_le, take_app_le by (rewrite ?length_drop; lia). by rewrite E3.
Qed.

(** C22: whatever policy makes the filters, as long as its filters match the keys they
    were made from, a filter block that was built for the data blocks of a file in the
    order of their offsets gives a reader that answers for each key of each block that
    it may be there: a lookup never skips a block that has its key. *)
Theorem filter_block_sound blocks :
  Forall (λ '(off, keys), 0 ≤ off < 2 ^ 64 ∧ Forall filter_key keys) blocks →
  StronglySorted Z.le (fst <$> blocks) →
  Z.of_nat (length (concat (snd <$> blocks))) < 2 ^ 31 →
  ∃ contents b, (add_blocks blocks;; filter_Finish) new_FilterBlockBuilder = Done (contents, b) ∧
    (Z.of_nat (length contents) < 2 ^ 32 →
     ∃ r, new_FilterBlockReader contents = Some r ∧
       ∀ off keys key, (off, keys) ∈ blocks → key ∈ keys →
         reader_KeyMayMatch r off key = Some true).
Proof.
  intros Hk Hs Hl.
  destruct (run_add_blocks blocks new_FilterBlockBuilder [] [] [] 0)
    as (b1 & fs1 & gs1 & p1 & E1 & Hb1 & Hp1 & _ & Hin); [|done|done|done|done|done|].
  { apply new_filters. }
  destruct (run_filter_Finish b1 fs1 gs1 p1 Hb1 Hp1) as (b2 & fs & gs & E2 & Hm & Hgs & _).
  exists (filter_block fs), b2. split; [bind_with E1; exact E2|]. intros Hlen.
  eexists. split; [by apply run_new_reader|]. intros off keys key Hb Hkey.
  destruct (Hgs (filter_index off) key) as (ks & Eks & Hks); [by eapply Hin|].
  destruct (Forall2_lookup_l _ _ _ _ _ Hm Eks) as (f & Ef & Hf).
  rewrite (run_reader fs off f key Hlen); [by apply Hf| |done].
  by apply (proj1 (Forall_forall _ _) Hk _ Hb).
Qed.
End reader.

(** C23: the Bloom filter has no false negatives: it is appended to what the string
    holds, has the size that was asked for, with a minimum, and matches each of its
    keys; and whatever bytes a filter is, a query stays inside of them. *)
Theorem bloom_filter_sound bits_per_key keys dst :
  0 ≤ bits_per_key < 2 ^ 31 → Z.of_nat (length keys) < 2 ^ 31 →
  (∃ filter, bloom_CreateFilter bits_per_key keys dst = Some (dst ++ filter) ∧
    Z.of_nat (length filter) =
      (Z.max 64 (Z.of_nat (length keys) * bits_per_key) + 7) / 8 + 1 ∧
    ∀ key, key ∈ keys → bloom_KeyMayMatch key filter = Some true) ∧
  ∀ key f, ∃ r, bloom_KeyMayMatch key f = Some r.
Proof.
  intros Hb Hl. split; [|apply bloom_may_match_total].
  destruct (bloom_law bits_per_key keys dst Hb Hl) as (f & E & El & _ & Hm). by exists f.
Qed.

(** ** Witnesses *)

(** Two data blocks, with internal keys and Bloom filters. *)
Definition example_policy : FilterPolicy := internal_policy (BloomFilterPolicy 10).
Definition example_blocks : list (Z * list (list Z)) :=
  [(0, [[97] ++ EncodeFixed64 257; [98] ++ EncodeFixed64 513]); (5000, [[99] ++ EncodeFixed64 769])].

Lemma filter_block_sound_witness :
  ∃ contents b r,
    (add_blocks (H := example_policy) example_blocks;; filter_Finish (H := example_policy))
      new_FilterBlockBuilder = Done (contents, b) ∧
    new_FilterBlockReader contents = Some r ∧
    reader_KeyMayMatch (H := example_policy) r 5000 ([99] ++ EncodeFixed64 769) = Some true ∧
    reader_KeyMayMatch (H := example_policy) r 5000 ([97] ++ EncodeFixed64 257) = Some false.
Proof.
  destruct (@filter_block_sound example_policy
    (@internal_policy_laws _ (bloom_laws 10 ltac:(split; [done|by vm_compute]))) example_blocks)
    as (contents & b & E & Hr).
  - repeat constructor; simpl; vm_compute; try done; repeat constructor.
  - repeat constructor; simpl; lia.
  - by vm_compute.
  - exists contents, b. vm_compute in E. injection E as <- <-. destruct Hr as (r & E & Hr); [by vm_compute|].
    exists r. split_and!; [by vm_compute|done|eapply Hr; [right; left|left]|].
    vm_compute in E. injection E as <-. by vm_compute.
Defined.

Lemma bloom_filter_sound_witness :
  ∃ filter, bloom_CreateFilter 10 [[97]; [98]] [1] = Some ([1] ++ filter) ∧
    bloom_KeyMayMatch [98] filter = Some true ∧ length filter = 9%nat.
Proof.
  destruct (bloom_filter_sound 10 [[97]; [98]] [1]) as [(f & E & Hl & Hf) _]; [split; [done|by vm_compute]|by vm_compute|].
  exists f. split_and!; [exact E|apply Hf; right; left|]. apply Nat2Z.inj. rewrite Hl. by vm_compute.
Defined.

(** The byte that gives the unit of the ranges is not checked: the reader shifts by it,
    which is undefined from 64 on, also when the rest of the block was refused. *)
Theorem filter_base_lg_undefined :
  ∃ contents r, new_FilterBlockReader contents = Some r ∧ fr_num_ r = 0 ∧
    reader_KeyMayMatch (H := BloomFilterPolicy 10) r 0 [97] = None.
Proof. exists [0; 0; 0; 0; 64], (MkFilterReader [0; 0; 0; 0; 64] 0 0 64). by vm_compute. Qed.
