(* ===== verification/LdbIterator.v ===== *)
(** * leveldb: iterators (include/leveldb/iterator.h)

    The interface that every iterator of the program implements, and what it promises:
    an iterator over a sorted list of entries is a position in the list. *)
From stdpp Require Import sorting.
From S2P Require Import Prelude SkipList SkipListSpec LdbFormat.

(** Sorted lists, by index. *)
Lemma sorted_lookup {A} (P : A → A → Prop) l i j a b :
  StronglySorted P l → l !! i = Some a → l !! j = Some b → (i < j)%nat → P a b.
Proof.
  intros Hs. revert i j. induction Hs as [|x l Hs IH Hf]; intros [|i] [|j] Ea Eb Hij; simpl in *; try done; try lia.
  - injection Ea as ->. apply (proj1 (Forall_forall _ _) Hf b). by eapply list_elem_of_lookup_2.
  - apply (IH i j); [done|done|lia].
Qed.

Lemma sorted_of_lookup {A} (P : A → A → Prop) l :
  (∀ i j a b, l !! i = Some a → l !! j = Some b → (i < j)%nat → P a b) → StronglySorted P l.
Proof.
  induction l as [|x l IH]; intros H; constructor.
  - apply IH. intros i j a b Ea Eb Hij. apply (H (S i) (S j)); [done|done|lia].
  - apply Forall_lookup_2. intros i b Eb. apply (H O (S i)); [done|done|lia].
Qed.

(** The virtual functions of [Iterator]; [status] is apart. *)
Class IterOps (St : Type) := {
  i_Valid : St → bool;
  i_SeekToFirst : M St unit;
  i_SeekToLast : M St unit;
  i_Seek : list Z → M St unit;
  i_Next : M St unit;
  i_Prev : M St unit;
  i_key : M St (list Z);
  i_value : M St (list Z);
}.

(** [status]; none is OK. *)
Class IterStatus (St : Type) := i_status : St → option string.

(** Entries are keys with values. *)
Abbreviation entries := (list (list Z * list Z)).

(** Any target. *)
Definition any_target (target : list Z) : Prop := True.

(** The position [i], none at the end. *)
Definition at_pos (kvs : entries) (i : nat) : option nat :=
  if (i <? length kvs)%nat then Some i else None.

(** The entry before a position. *)
Definition prev_pos (i : nat) : option nat := match i with O => None | S i' => Some i' end.

(** The last position. *)
Lemma last_pos (l : entries) : at_pos l (length l - 1) = prev_pos (length l).
Proof.
  unfold at_pos. destruct l as [|kv l]; [done|]. cbn [length prev_pos]. rewrite Nat.sub_succ, Nat.sub_0_r.
  by rewrite (proj2 (Nat.ltb_lt _ _)) by lia.
Qed.

(** The number of entries at the front whose keys satisfy [P]. *)
Fixpoint cut (P : list Z → bool) (kvs : entries) : nat :=
  match kvs with
  | [] => O
  | kv :: kvs' => if P kv.1 then S (cut P kvs') else O
  end.

Section contract.
Context `{UC : Comparator (list Z)}.
Implicit Types (P : list Z → bool) (kvs : entries).

Definition below (k : list Z) : list Z → bool := λ key, compare_ key k <? 0.
Definition up_to (k : list Z) : list Z → bool := λ key, compare_ key k <=? 0.

(** The number of entries before the first key that is not less than [target]. *)
Definition lower_bound (kvs : entries) (target : list Z) : nat := cut (below target) kvs.

Definition keys_sorted (kvs : entries) : Prop :=
  StronglySorted (λ a b, compare_ a.1 b.1 < 0) kvs.

(** [R p s]: the state [s] is at the position [p] of the entries. The targets that may
    be looked up satisfy [T]. *)
Record iter_over {St} (I : IterOps St) (T : list Z → Prop) (kvs : entries)
    (R : option nat → St → Prop) : Prop := {
  io_valid p s : R p s → i_Valid s = bool_decide (is_Some p);
  io_bound i s : R (Some i) s → (i < length kvs)%nat;
  io_entry i s k v : R (Some i) s → kvs !! i = Some (k, v) →
    i_key s = Done (k, s) ∧ i_value s = Done (v, s);
  io_first p s : R p s → ∃ s', i_SeekToFirst s = Done (tt, s') ∧ R (at_pos kvs 0) s';
  io_last p s : R p s → ∃ s', i_SeekToLast s = Done (tt, s') ∧ R (at_pos kvs (length kvs - 1)) s';
  io_seek p s target : R p s → T target →
    ∃ s', i_Seek target s = Done (tt, s') ∧ R (at_pos kvs (lower_bound kvs target)) s';
  io_next i s : R (Some i) s → ∃ s', i_Next s = Done (tt, s') ∧ R (at_pos kvs (S i)) s';
  io_prev i s : R (Some i) s → ∃ s', i_Prev s = Done (tt, s') ∧ R (prev_pos i) s';
}.

Lemma cut_le P kvs : (cut P kvs ≤ length kvs)%nat.
Proof. induction kvs as [|kv kvs IH]; simpl; [done|]. destruct (P _); simpl; lia. Qed.
Lemma cut_below P kvs i kv : kvs !! i = Some kv → (i < cut P kvs)%nat → P kv.1 = true.
Proof.
  revert i. induction kvs as [|kv' kvs IH]; intros [|i] E Hi; simpl in *; try done.
  - destruct (P kv'.1) eqn:Ep; [by injection E as <-|lia].
  - destruct (P kv'.1); [|lia]. by apply (IH i), Nat.succ_lt_mono.
Qed.
Lemma cut_at P kvs kv : kvs !! cut P kvs = Some kv → P kv.1 = false.
Proof.
  induction kvs as [|kv' kvs IH]; simpl; [done|].
  destruct (P kv'.1) eqn:E; simpl; [done|]. by intros [= <-].
Qed.
Lemma cut_unique P kvs n :
  (n ≤ length kvs)%nat → (∀ i kv, kvs !! i = Some kv → (i < n)%nat → P kv.1 = true) →
  (∀ kv, kvs !! n = Some kv → P kv.1 = false) → cut P kvs = n.
Proof.
  intros Hn Hb Ha. destruct (Nat.lt_trichotomy (cut P kvs) n) as [Hlt|[Heq|Hgt]]; [|done|].
  - destruct (lookup_lt_is_Some_2 kvs (cut P kvs)) as [kv E]; [lia|].
    pose proof (cut_at _ _ _ E). specialize (Hb _ _ E Hlt). congruence.
  - pose proof (cut_le P kvs). destruct (lookup_lt_is_Some_2 kvs n) as [kv E]; [lia|].
    pose proof (cut_below _ _ _ _ E Hgt). specialize (Ha _ E). congruence.
Qed.

(** The position is the only one with the entries before it below the target, and the
    entry at it, if there is one, not. *)
Lemma lower_bound_unique kvs target n :
  (n ≤ length kvs)%nat →
  (∀ i kv, kvs !! i = Some kv → (i < n)%nat → compare_ kv.1 target < 0) →
  (∀ kv, kvs !! n = Some kv → 0 ≤ compare_ kv.1 target) →
  lower_bound kvs target = n.
Proof.
  intros Hn Hb Ha. apply cut_unique; [done| |].
  - intros i kv E Hi. apply Z.ltb_lt. by eapply Hb.
  - intros kv E. apply Z.ltb_ge. by apply Ha.
Qed.
End contract.

Section sorted.
Context `{UC : Comparator (list Z)} `{!ComparatorLaws (list Z)}.
Implicit Types (P : list Z → bool) (kvs : entries).

Lemma keys_sorted_lookup kvs i j a b :
  keys_sorted kvs → kvs !! i = Some a → kvs !! j = Some b → (i < j)%nat → compare_ a.1 b.1 < 0.
Proof. apply (sorted_lookup (λ a b, compare_ a.1 b.1 < 0)). Qed.

(** What satisfies [P] comes first. *)
Definition initial P : Prop := ∀ a b, compare_ a b ≤ 0 → P b = true → P a = true.

Lemma below_initial k : initial (below k).
Proof. intros a b Hab Hb%Z.ltb_lt. apply Z.ltb_lt. by eapply compare_le_lt_trans. Qed.
Lemma up_to_initial k : initial (up_to k).
Proof. intros a b Hab Hb%Z.leb_le. apply Z.leb_le. by eapply compare_trans. Qed.

(** The places of the keys of a sorted list. *)
Lemma cut_at_key kvs i k v :
  keys_sorted kvs → kvs !! i = Some (k, v) → cut (below k) kvs = i ∧ cut (up_to k) kvs = S i.
Proof.
  intros Hs E. pose proof (lookup_lt_Some _ _ _ E) as Hi. split; apply cut_unique; try lia.
  - intros j kv Ej Hj. apply Z.ltb_lt. by apply (keys_sorted_lookup _ _ _ _ _ Hs Ej E).
  - intros kv Ekv. rewrite E in Ekv. injection Ekv as <-. apply Z.ltb_ge. simpl. by rewrite compare_refl.
  - intros j kv Ej Hj. apply Z.leb_le. destruct (decide (j = i)) as [->|].
    + rewrite E in Ej. injection Ej as <-. simpl. by rewrite compare_refl.
    + pose proof (keys_sorted_lookup _ _ _ _ _ Hs Ej E ltac:(lia)). simpl in *. lia.
  - intros kv Ekv. apply Z.leb_gt, compare_sym.
    apply (keys_sorted_lookup _ _ _ _ _ Hs E Ekv). lia.
Qed.

(** The first entry that does not satisfy [P] is the least one. *)
Lemma cut_least P kvs kv :
  keys_sorted kvs → initial P → kv ∈ kvs → P kv.1 = false →
  (∀ kv', kv' ∈ kvs → P kv'.1 = false → compare_ kv.1 kv'.1 ≤ 0) →
  kvs !! cut P kvs = Some kv.
Proof.
  intros Hs HP Hin Hkv Hmin. apply list_elem_of_lookup_1 in Hin as [n E].
  assert (cut P kvs = n) as ->; [|done].
  apply cut_unique; [apply lookup_lt_Some in E; lia| |].
  - intros i kv' E' Hi. destruct (P kv'.1) eqn:Ep; [done|].
    pose proof (keys_sorted_lookup _ _ _ _ _ Hs E' E Hi) as Hlt.
    specialize (Hmin kv' (list_elem_of_lookup_2 _ _ _ E') Ep). apply compare_sym in Hlt. lia.
  - intros kv' E'. rewrite E in E'. by injection E' as <-.
Qed.

(** The last entry that satisfies [P] is the greatest one. *)
Lemma cut_greatest P kvs kv :
  keys_sorted kvs → initial P → kv ∈ kvs → P kv.1 = true →
  (∀ kv', kv' ∈ kvs → P kv'.1 = true → compare_ kv'.1 kv.1 ≤ 0) →
  ∃ n, cut P kvs = S n ∧ kvs !! n = Some kv.
Proof.
  intros Hs HP Hin Hkv Hmax. apply list_elem_of_lookup_1 in Hin as [n E]. exists n. split; [|done].
  apply cut_unique; [apply lookup_lt_Some in E; lia| |].
  - intros i kv' E' Hi. destruct (decide (i = n)) as [->|].
    + rewrite E in E'. by injection E' as <-.
    + pose proof (keys_sorted_lookup _ _ _ _ _ Hs E' E ltac:(lia)). apply (HP _ kv.1); [lia|done].
  - intros kv' E'. destruct (P kv'.1) eqn:Ep; [|done].
    pose proof (keys_sorted_lookup _ _ _ _ _ Hs E E' ltac:(lia)) as Hlt.
    specialize (Hmax kv' (list_elem_of_lookup_2 _ _ _ E') Ep). apply compare_sym in Hlt. lia.
Qed.

Lemma cut_none P kvs : (∀ kv, kv ∈ kvs → P kv.1 = true) → cut P kvs = length kvs.
Proof.
  intros H. apply cut_unique; [done| |].
  - intros i kv E _. by apply H; eapply list_elem_of_lookup_2.
  - intros kv E. apply lookup_lt_Some in E. lia.
Qed.
Lemma cut_zero P kvs : (∀ kv, kv ∈ kvs → P kv.1 = false) → cut P kvs = O.
Proof.
  intros H. apply cut_unique; [lia|lia|]. intros kv E. by apply H; eapply list_elem_of_lookup_2.
Qed.

Lemma compare_nlt_ge (a b : list Z) : compare_ b a ≤ 0 ↔ 0 ≤ compare_ a b.
Proof. pose proof (compare_sym a b). pose proof (compare_sym b a). lia. Qed.

Lemma cut_least_le P kvs kv :
  keys_sorted kvs → initial P → kvs !! cut P kvs = Some kv →
  ∀ kv', kv' ∈ kvs → P kv'.1 = false → compare_ kv.1 kv'.1 ≤ 0.
Proof.
  intros Hs HP E kv' [i E']%list_elem_of_lookup_1 Hf.
  destruct (Nat.lt_trichotomy (cut P kvs) i) as [Hlt|[<-|Hlt]].
  - pose proof (keys_sorted_lookup _ _ _ _ _ Hs E E' Hlt). lia.
  - rewrite E in E'. injection E' as <-. rewrite compare_refl. lia.
  - pose proof (cut_below P _ _ _ E' Hlt). congruence.
Qed.

Lemma cut_greatest_le P kvs kv i :
  keys_sorted kvs → initial P → cut P kvs = S i → kvs !! i = Some kv →
  ∀ kv', kv' ∈ kvs → P kv'.1 = true → compare_ kv'.1 kv.1 ≤ 0.
Proof.
  intros Hs HP Ec E kv' [j E']%list_elem_of_lookup_1 Ht.
  destruct (Nat.lt_trichotomy j i) as [Hlt|[->|Hlt]].
  - pose proof (keys_sorted_lookup _ _ _ _ _ Hs E' E Hlt). lia.
  - rewrite E in E'. injection E' as <-. rewrite compare_refl. lia.
  - pose proof (cut_le P kvs). pose proof (lookup_lt_Some _ _ _ E').
    destruct (lookup_lt_is_Some_2 kvs (S i)) as [kv2 E2]; [lia|].
    pose proof E2 as E2'. rewrite <-Ec in E2'. apply cut_at in E2'.
    assert (P kv2.1 = true); [|congruence]. apply (HP _ kv'.1); [|done].
    destruct (decide (j = S i)) as [->|];
      [rewrite E2 in E'; injection E' as <-; by rewrite compare_refl|].
    pose proof (keys_sorted_lookup _ _ _ _ _ Hs E2 E' ltac:(lia)). lia.
Qed.
End sorted.
