(* ===== verification/LdbBlock.v ===== *)
(** * leveldb: blocks of tables

    table/block_builder.cc and table/block.cc. A block is a sorted list of entries; the
    key of an entry drops the prefix it shares with the key before, except at restart
    points, whose offsets are at the end of the block. *)
From S2P Require Import Prelude LdbCoding SkipList SkipListSpec LdbFormat LdbIterator.

(** ** The builder *)

Record BlockBuilder := MkBlockBuilder {
  bb_buffer_ : list Z;
  bb_restarts_ : list Z;
  bb_counter_ : Z;
  bb_finished_ : bool;
  bb_last_key_ : list Z;
}.

Section builder.
Context `{UC : Comparator (list Z)}.
(** [options_->block_restart_interval] *)
Variable block_restart_interval : Z.

Definition new_BlockBuilder : option BlockBuilder :=
  if 1 <=? block_restart_interval then Some (MkBlockBuilder [] [0] 0 false []) else None.
Definition bb_Reset (b : BlockBuilder) : BlockBuilder := MkBlockBuilder [] [0] 0 false [].
Definition CurrentSizeEstimate (b : BlockBuilder) : Z :=
  Z.of_nat (length (bb_buffer_ b)) + Z.of_nat (length (bb_restarts_ b)) * 4 + 4.

Definition bb_Finish : M BlockBuilder (list Z) :=
  b ← get_state;
  let buffer := foldl PutFixed32 (bb_buffer_ b) (bb_restarts_ b) in
  let buffer := PutFixed32 buffer (u32 (Z.of_nat (length (bb_restarts_ b)))) in
  put_state (MkBlockBuilder buffer (bb_restarts_ b) (bb_counter_ b) true (bb_last_key_ b));;
  mret buffer.

(** The loop that looks for what two keys share is [common_prefix]. *)
Definition bb_Add (key value : list Z) : M BlockBuilder unit :=
  b ← get_state;
  let buffer := bb_buffer_ b in
  let last_key_piece := bb_last_key_ b in
  assert_ (negb (bb_finished_ b));;
  assert_ (bb_counter_ b <=? block_restart_interval);;
  assert_ (bool_decide (buffer = []) || (0 <? compare_ key last_key_piece));;
  let '(shared, restarts, counter) :=
    if bb_counter_ b <? block_restart_interval
    then (common_prefix last_key_piece key, bb_restarts_ b, bb_counter_ b)
    else (O, bb_restarts_ b ++ [u32 (Z.of_nat (length buffer))], 0) in
  let non_shared := (length key - shared)%nat in
  let buffer := PutVarint32 buffer (u32 (Z.of_nat shared)) in
  let buffer := PutVarint32 buffer (u32 (Z.of_nat non_shared)) in
  let buffer := PutVarint32 buffer (u32 (Z.of_nat (length value))) in
  let buffer := buffer ++ take non_shared (drop shared key) in
  let buffer := buffer ++ value in
  let last_key := take shared last_key_piece ++ take non_shared (drop shared key) in
  assert_ (slice_eq last_key key);;
  put_state (MkBlockBuilder buffer restarts (counter + 1) false last_key).
End builder.

(** ** The reader *)

(** A block that has [size_ = 0] is in error. *)
Record Block := MkBlock { blk_data_ : list Z; blk_size_ : Z; blk_restart_offset_ : Z }.

Definition NumRestarts (data : list Z) : option Z := DecodeFixed32 (drop (length data - 4) data).

(** [Block(contents)]; [restart_offset_] is not set when the block is in error. *)
Definition new_Block (contents : list Z) : option Block :=
  let size := Z.of_nat (length contents) in
  if size <? 4 then Some (MkBlock contents 0 0)
  else
    let max_restarts_allowed := (size - 4) / 4 in
    n ← NumRestarts contents;
    if max_restarts_allowed <? n then Some (MkBlock contents 0 0)
    else Some (MkBlock contents size (u32 (size - (1 + n) * 4))).

(** The entry at the front of [l], the bytes from [p] to [limit]: what the key shares,
    the length of the rest of it, the length of the value, and the bytes after these
    numbers. *)
Definition DecodeEntry (l : list Z) : option (Z * Z * Z * list Z) :=
  match l with
  | b0 :: b1 :: b2 :: rest =>
      '(shared, non_shared, value_length, p) ←
        (if Z.lor (Z.lor b0 b1) b2 <? 128 then Some (b0, b1, b2, rest)
         else
           '(shared, p) ← GetVarint32Ptr l;
           '(non_shared, p) ← GetVarint32Ptr p;
           '(value_length, p) ← GetVarint32Ptr p;
           Some (shared, non_shared, value_length, p));
      if u32 (Z.of_nat (length p)) <? u32 (non_shared + value_length) then None
      else Some (shared, non_shared, value_length, p)
  | _ => None
  end.

(** [Block::Iter]: [bi_value_] is the offset and the length of [value_]; it has none
    when it points out of the block. *)
Record BlockIter := MkBlockIter {
  bi_current_ : Z;
  bi_restart_index_ : Z;
  bi_key_ : list Z;
  bi_value_ : option (Z * Z);
  bi_status_ : option string;
}.

Section iter.
Context `{UC : Comparator (list Z)}.
(** The constants of the iterator. *)
Variables (data : list Z) (restarts_ num_restarts_ : Z).

Definition new_BlockIter : option BlockIter :=
  if 0 <? num_restarts_ then Some (MkBlockIter restarts_ num_restarts_ [] None None) else None.

Definition bi_Valid (it : BlockIter) : bool := bi_current_ it <? restarts_.
Definition bi_key : M BlockIter (list Z) :=
  it ← get_state; assert_ (bi_Valid it);; mret (bi_key_ it).

(** [n] bytes at an offset; undefined out of the block. *)
Definition block_bytes (offset n : Z) : option (list Z) :=
  if (0 <=? offset) && (offset + n <=? Z.of_nat (length data))
  then Some (take (Z.to_nat n) (drop (Z.to_nat offset) data)) else None.
Definition bi_value : M BlockIter (list Z) :=
  it ← get_state; assert_ (bi_Valid it);;
  '(offset, n) ← lift_option (bi_value_ it);
  lift_option (block_bytes offset n).

Definition NextEntryOffset : M BlockIter Z :=
  it ← get_state;
  '(offset, n) ← lift_option (bi_value_ it);
  mret (u32 (offset + n)).

Definition GetRestartPoint (index : Z) : option Z :=
  if index <? num_restarts_ then DecodeFixed32 (drop (Z.to_nat (restarts_ + index * 4)) data)
  else None.

Definition SeekToRestartPoint (index : Z) : M BlockIter unit :=
  it ← get_state;
  offset ← lift_option (GetRestartPoint index);
  put_state (MkBlockIter (bi_current_ it) index [] (Some (offset, 0)) (bi_status_ it)).

Definition CorruptionError : M BlockIter unit :=
  put_state (MkBlockIter restarts_ num_restarts_ [] None (Some "bad entry in block")).

(** The last loop of [ParseNextKey]. *)
Definition restart_step (_ : unit) : M BlockIter (unit + unit) :=
  it ← get_state;
  if bi_restart_index_ it + 1 <? num_restarts_ then
    point ← lift_option (GetRestartPoint (bi_restart_index_ it + 1));
    if point <? bi_current_ it then
      put_state (MkBlockIter (bi_current_ it) (bi_restart_index_ it + 1) (bi_key_ it)
        (bi_value_ it) (bi_status_ it));;
      mret (inl tt)
    else mret (inr tt)
  else mret (inr tt).

(** The bytes from an offset to [restarts_]. *)
Definition from_offset (p : Z) : list Z := drop (Z.to_nat p) (take (Z.to_nat restarts_) data).

Definition ParseNextKey : M BlockIter bool :=
  current ← NextEntryOffset;
  it ← get_state;
  if restarts_ <=? current then
    put_state (MkBlockIter restarts_ num_restarts_ (bi_key_ it) (bi_value_ it) (bi_status_ it));;
    mret false
  else
    match DecodeEntry (from_offset current) with
    | None => CorruptionError;; mret false
    | Some (shared, non_shared, value_length, p) =>
        if Z.of_nat (length (bi_key_ it)) <? shared then CorruptionError;; mret false
        else
          let offset := restarts_ - Z.of_nat (length p) in
          delta ← lift_option (block_bytes offset non_shared);
          let key := take (Z.to_nat shared) (bi_key_ it) ++ delta in
          put_state (MkBlockIter current (bi_restart_index_ it) key
            (Some (offset + non_shared, value_length)) (bi_status_ it));;
          loop (num_restarts_ + 1) restart_step tt;;
          mret true
    end.

Definition bi_Next : M BlockIter unit :=
  it ← get_state; assert_ (bi_Valid it);; ParseNextKey;; mret tt.

(** The loop of [Prev] over restart points: whether there is one before [original]. *)
Definition prev_restart_step (original : Z) (_ : unit) : M BlockIter (unit + bool) :=
  it ← get_state;
  point ← lift_option (GetRestartPoint (bi_restart_index_ it));
  if original <=? point then
    if bi_restart_index_ it =? 0 then
      put_state (MkBlockIter restarts_ num_restarts_ (bi_key_ it) (bi_value_ it) (bi_status_ it));;
      mret (inr false)
    else
      put_state (MkBlockIter (bi_current_ it) (bi_restart_index_ it - 1) (bi_key_ it)
        (bi_value_ it) (bi_status_ it));;
      mret (inl tt)
  else mret (inr true).

(** [ParseNextKey() && NextEntryOffset() < limit], as the condition of a loop. *)
Definition parse_until (limit : Z) (_ : unit) : M BlockIter (unit + unit) :=
  ok ← ParseNextKey;
  if (ok : bool) then
    next ← NextEntryOffset;
    mret (if next <? limit then inl tt else inr tt)
  else mret (inr tt).

Definition bi_Prev : M BlockIter unit :=
  it ← get_state;
  assert_ (bi_Valid it);;
  let original := bi_current_ it in
  found ← loop (num_restarts_ + 1) (prev_restart_step original) tt;
  if (found : bool) then
    it ← get_state;
    SeekToRestartPoint (bi_restart_index_ it);;
    loop (restarts_ + 1) (parse_until original) tt
  else mret tt.

(** The binary search of [Seek], on [left_] and [right_]; [None] is a corruption. *)
Definition seek_step (target : list Z) (st : Z * Z) : M BlockIter (Z * Z + option Z) :=
  let '(left_, right_) := st in
  if left_ <? right_ then
    let mid := u32 (left_ + right_ + 1) / 2 in
    region_offset ← lift_option (GetRestartPoint mid);
    match DecodeEntry (from_offset region_offset) with
    | Some (shared, non_shared, _, key_ptr) =>
        if negb (shared =? 0) then CorruptionError;; mret (inr None)
        else
          mid_key ← lift_option (block_bytes (restarts_ - Z.of_nat (length key_ptr)) non_shared);
          mret (inl (if compare_ mid_key target <? 0 then (mid, right_) else (left_, u32 (mid - 1))))
    | None => CorruptionError;; mret (inr None)
    end
  else mret (inr (Some left_)).

(** The linear search. *)
Definition seek_linear (target : list Z) (_ : unit) : M BlockIter (unit + unit) :=
  ok ← ParseNextKey;
  if (ok : bool) then
    it ← get_state;
    mret (if 0 <=? compare_ (bi_key_ it) target then inr tt else inl tt)
  else mret (inr tt).

Definition bi_Seek (target : list Z) : M BlockIter unit :=
  left_ ← loop (num_restarts_ + 1) (seek_step target) (0, num_restarts_ - 1);
  match left_ with
  | None => mret tt
  | Some left_ => SeekToRestartPoint left_;; loop (restarts_ + 1) (seek_linear target) tt
  end.

Definition bi_SeekToFirst : M BlockIter unit := SeekToRestartPoint 0;; ParseNextKey;; mret tt.
Definition bi_SeekToLast : M BlockIter unit :=
  SeekToRestartPoint (num_restarts_ - 1);; loop (restarts_ + 1) (parse_until restarts_) tt.

(** The virtual functions of [Block::Iter]. *)
Definition block_iter_ops : IterOps BlockIter :=
  {| i_Valid := bi_Valid; i_SeekToFirst := bi_SeekToFirst; i_SeekToLast := bi_SeekToLast;
     i_Seek := bi_Seek; i_Next := bi_Next; i_Prev := bi_Prev;
     i_key := bi_key; i_value := bi_value |}.
End iter.

(** A [Block::Iter] as an object: its constants and its state. *)
Record block_object := MkBlockObject {
  bo_data : list Z; bo_restarts : Z; bo_num : Z; bo_iter : BlockIter;
}.

Section object.
Context `{UC : Comparator (list Z)}.

Definition object_ops (o : block_object) : IterOps BlockIter :=
  block_iter_ops (bo_data o) (bo_restarts o) (bo_num o).
Definition on_object {A} (c : block_object → M BlockIter A) : M block_object A := λ o,
  match c o (bo_iter o) with
  | Done (a, it) => Done (a, MkBlockObject (bo_data o) (bo_restarts o) (bo_num o) it)
  | Undef => Undef
  | NoFuel => NoFuel
  end.
#[export] Instance block_object_ops : IterOps block_object :=
  {| i_Valid o := @i_Valid _ (object_ops o) (bo_iter o);
     i_SeekToFirst := on_object (λ o, @i_SeekToFirst _ (object_ops o));
     i_SeekToLast := on_object (λ o, @i_SeekToLast _ (object_ops o));
     i_Seek target := on_object (λ o, @i_Seek _ (object_ops o) target);
     i_Next := on_object (λ o, @i_Next _ (object_ops o));
     i_Prev := on_object (λ o, @i_Prev _ (object_ops o));
     i_key := on_object (λ o, @i_key _ (object_ops o));
     i_value := on_object (λ o, @i_value _ (object_ops o)) |}.
End object.

(** [Block::NewIterator]: an iterator in error, an empty one, or the constants and the
    state of a [Block::Iter]. *)
Inductive new_iterator : Type :=
  | ErrorIterator (msg : string)
  | EmptyIterator
  | NewIter (data : list Z) (restarts num_restarts : Z) (it : BlockIter).

Definition NewIterator (b : Block) : option new_iterator :=
  if blk_size_ b <? 4 then Some (ErrorIterator "bad block contents")
  else
    num_restarts ← NumRestarts (blk_data_ b);
    if num_restarts =? 0 then Some EmptyIterator
    else
      it ← new_BlockIter (blk_restart_offset_ b) num_restarts;
      Some (NewIter (blk_data_ b) (blk_restart_offset_ b) num_restarts it).
