(* ===== verification/LdbBlockSpec.v ===== *)
(** * leveldb: a block gives its entries back

    What the builder of blocks writes, and that an iterator over it is a cursor in the
    sorted list of the entries. *)
From stdpp Require Import sorting.
From S2P Require Import Prelude Leb128 LdbCoding SkipList SkipListSpec LdbFormat LdbIterator LdbBlock.

(** ** The contents of a block *)

(** An entry that shares a prefix with the key before. *)
Record block_entry := BlockEntry { be_shared : nat; be_key : list Z; be_value : list Z }.

Definition entry_delta (e : block_entry) : list Z := drop (be_shared e) (be_key e).
Definition entry_header (e : block_entry) : list Z :=
  EncodeVarint32 (Z.of_nat (be_shared e)) ++
  EncodeVarint32 (Z.of_nat (length (be_key e) - be_shared e)) ++
  EncodeVarint32 (Z.of_nat (length (be_value e))).
Definition entry_bytes (e : block_entry) : list Z :=
  entry_header e ++ entry_delta e ++ be_value e.
Definition entries_bytes (es : list block_entry) : list Z := concat (entry_bytes <$> es).
Definition entry_offset (es : list block_entry) (i : nat) : Z :=
  Z.of_nat (length (entries_bytes (take i es))).
Definition be_kv (e : block_entry) : list Z * list Z := (be_key e, be_value e).

(** Each entry shares what it says with the key before. *)
Fixpoint chain (prev : list Z) (es : list block_entry) : Prop :=
  match es with
  | [] => True
  | e :: es' =>
      (be_shared e ≤ length prev)%nat ∧ (be_shared e ≤ length (be_key e))%nat ∧
      take (be_shared e) prev = take (be_shared e) (be_key e) ∧ chain (be_key e) es'
  end.

Definition kv_ok (kv : list Z * list Z) : Prop :=
  Forall is_byte kv.1 ∧ Forall is_byte kv.2 ∧ Z.of_nat (length kv.1 + length kv.2) < 2 ^ 32.

(** The restart points are entries that share nothing, the first one at the front. *)
Record restart_points (es : list block_entry) (points : list nat) : Prop := {
  rp_head : head points = Some O;
  rp_sorted i j a b : points !! i = Some a → points !! j = Some b → (i < j)%nat → (a < b)%nat;
  rp_entry a : a ∈ points → a = O ∨ ∃ e, es !! a = Some e ∧ be_shared e = O;
}.

(** The bytes of a block. *)
Definition block_bytes_of (es : list block_entry) (points : list nat) : list Z :=
  entries_bytes es ++
  concat (EncodeFixed32 <$> (entry_offset es <$> points)) ++
  EncodeFixed32 (Z.of_nat (length points)).

Record block_wf (es : list block_entry) (points : list nat) : Prop := {
  wf_chain : chain [] es;
  wf_kvs : Forall (λ e, kv_ok (be_kv e)) es;
  wf_points : restart_points es points;
  wf_size : Z.of_nat (length (block_bytes_of es points)) < 2 ^ 32;
}.

(** ** Numbers and offsets *)

Lemma lor_128 a b : 0 ≤ a → 0 ≤ b → Z.lor a b < 128 → a < 128 ∧ b < 128.
Proof.
  intros Ha Hb Hl. pose proof (Z.lor_nonneg a b) as Hn.
  assert (Z.shiftr (Z.lor a b) 7 = 0) as E.
  { rewrite Z.shiftr_div_pow2 by done. apply Z.div_small. change (2 ^ 7) with 128. lia. }
  rewrite Z.shiftr_lor in E. apply Z.lor_eq_0_iff in E as [Ea Eb].
  rewrite Z.shiftr_div_pow2 in Ea, Eb by done. change (2 ^ 7) with 128 in *. split; zdiv.
Qed.

Lemma get32_small b l : 0 ≤ b < 128 → GetVarint32Ptr (b :: l) = Some (b, l).
Proof.
  intros Hb. unfold GetVarint32Ptr.
  assert (Z.land b 128 = 0) as ->; [|done].
  apply Z.bits_inj_iff'. intros n Hn. rewrite Z.land_spec, Z.bits_0. change 128 with (2 ^ 7).
  destruct (decide (n = 7)) as [->|]; [|by rewrite Z.pow2_bits_false, andb_false_r by lia].
  rewrite Z.testbit_odd, Z.shiftr_div_pow2 by lia. change (2 ^ 7) with 128.
  by rewrite Z.div_small.
Qed.

(** The three numbers, whichever path decodes them. *)
Lemma decode_entry_slow l :
  Forall is_byte l →
  DecodeEntry l =
  if (length l <? 3)%nat then None
  else
    '(shared, p) ← GetVarint32Ptr l;
    '(non_shared, p) ← GetVarint32Ptr p;
    '(value_length, p) ← GetVarint32Ptr p;
    if u32 (Z.of_nat (length p)) <? u32 (non_shared + value_length) then None
    else Some (shared, non_shared, value_length, p).
Proof.
  intros Hl. destruct l as [|b0 [|b1 [|b2 l]]]; try done. cbn [length Nat.ltb Nat.leb].
  apply Forall_cons in Hl as [H0 Hl]. apply Forall_cons in Hl as [H1 Hl].
  apply Forall_cons in Hl as [H2 Hl]. unfold is_byte in *. unfold DecodeEntry.
  destruct (Z.ltb_spec (Z.lor (Z.lor b0 b1) b2) 128) as [Hlt|_].
  - apply lor_128 in Hlt as [Hlt Hb2]; [|apply Z.lor_nonneg; lia|lia].
    apply lor_128 in Hlt as [Hb0 Hb1]; [|lia..].
    do 3 (rewrite get32_small by lia; cbn [mbind option_bind]). done.
  - destruct (GetVarint32Ptr (b0 :: b1 :: b2 :: l)) as [[s p]|]; [|done]. cbn [mbind option_bind].
    destruct (GetVarint32Ptr p) as [[n p']|]; [|done]. cbn [mbind option_bind].
    by destruct (GetVarint32Ptr p') as [[v p'']|].
Qed.

Lemma varint32_length v : 0 ≤ v < 2 ^ 32 → (1 ≤ length (EncodeVarint32 v) ≤ 5)%nat.
Proof.
  intros Hv. rewrite EncodeVarint32_uleb by done.
  pose proof (uleb_length v). pose proof (uleb_length_32 v Hv). lia.
Qed.

Lemma entry_lengths e prev es :
  chain prev (e :: es) → kv_ok (be_kv e) →
  0 ≤ Z.of_nat (be_shared e) < 2 ^ 32 ∧
  0 ≤ Z.of_nat (length (be_key e) - be_shared e) < 2 ^ 32 ∧
  0 ≤ Z.of_nat (length (be_value e)) < 2 ^ 32 ∧
  length (entry_delta e) = (length (be_key e) - be_shared e)%nat ∧
  Z.of_nat (length (entry_delta e)) + Z.of_nat (length (be_value e)) < 2 ^ 32.
Proof.
  intros (H1 & H2 & _) (_ & _ & Hl). simpl in Hl. unfold entry_delta. rewrite length_drop. lia.
Qed.

Lemma entry_header_length e prev es :
  chain prev (e :: es) → kv_ok (be_kv e) → (3 ≤ length (entry_header e) ≤ 15)%nat.
Proof.
  intros Hc Hk. destruct (entry_lengths e prev es Hc Hk) as (H1 & H2 & H3 & _).
  unfold entry_header. rewrite !length_app.
  pose proof (varint32_length _ H1). pose proof (varint32_length _ H2).
  pose proof (varint32_length _ H3). lia.
Qed.

Lemma entry_bytes_ok e prev es :
  chain prev (e :: es) → kv_ok (be_kv e) → Forall is_byte (entry_bytes e).
Proof.
  intros Hc Hk. destruct (entry_lengths e prev es Hc Hk) as (H1 & H2 & H3 & _).
  destruct Hk as (Hk & Hv & _). unfold entry_bytes, entry_header.
  repeat (apply Forall_app; split); try (by apply varint32_bytes); [|done].
  by apply Forall_drop.
Qed.

Lemma entries_bytes_app es1 es2 : entries_bytes (es1 ++ es2) = entries_bytes es1 ++ entries_bytes es2.
Proof. unfold entries_bytes. by rewrite fmap_app, concat_app. Qed.

Lemma entries_bytes_snoc es e : entries_bytes (es ++ [e]) = entries_bytes es ++ entry_bytes e.
Proof. rewrite entries_bytes_app. unfold entries_bytes at 2. simpl. by rewrite app_nil_r. Qed.

Lemma chain_app prev es1 es2 :
  chain prev (es1 ++ es2) ↔ chain prev es1 ∧ chain (default prev (be_key <$> last es1)) es2.
Proof.
  revert prev. induction es1 as [|e es1 IH]; intros prev; [simpl; tauto|].
  cbn [app chain]. rewrite IH.
  replace (default prev (be_key <$> last (e :: es1))) with (default (be_key e) (be_key <$> last es1))
    by (by destruct es1; [|rewrite last_cons_cons; destruct (last_is_Some (b :: es1)) as [_ [? ->]]]).
  tauto.
Qed.

Lemma entries_bytes_ok es : ∀ prev,
  chain prev es → Forall (λ e, kv_ok (be_kv e)) es → Forall is_byte (entries_bytes es).
Proof.
  induction es as [|e es IH]; intros prev Hc Hk; [constructor|].
  apply Forall_cons in Hk as [He Hk]. apply Forall_app. split; [by eapply entry_bytes_ok|].
  by apply (IH (be_key e)), Hk; apply Hc.
Qed.

(** An entry is decoded, whatever follows it. *)
Lemma decode_entry_bytes e prev es rest :
  chain prev (e :: es) → kv_ok (be_kv e) → Forall is_byte rest →
  Z.of_nat (length (entry_bytes e ++ rest)) < 2 ^ 32 →
  DecodeEntry (entry_bytes e ++ rest) =
  Some (Z.of_nat (be_shared e), Z.of_nat (length (entry_delta e)), Z.of_nat (length (be_value e)),
    entry_delta e ++ be_value e ++ rest).
Proof.
  intros Hc Hk Hr Hlen. destruct (entry_lengths e prev es Hc Hk) as (H1 & H2 & H3 & Hd & Hs).
  pose proof (entry_bytes_ok e prev es Hc Hk) as Hb.
  pose proof (entry_header_length e prev es Hc Hk) as Hh.
  rewrite decode_entry_slow by (by apply Forall_app).
  rewrite (proj2 (Nat.ltb_ge _ _)) by (unfold entry_bytes; rewrite !length_app; lia).
  unfold entry_bytes, entry_header in *. rewrite <-!app_assoc in *.
  repeat (apply Forall_app in Hb as [? Hb]).
  rewrite (get32_put _ _ H1) by (repeat (apply Forall_app; split); done). cbn [mbind option_bind].
  rewrite (get32_put _ _ H2) by (repeat (apply Forall_app; split); done). cbn [mbind option_bind].
  rewrite (get32_put _ _ H3) by (repeat (apply Forall_app; split); done). cbn [mbind option_bind].
  rewrite !length_app in Hlen. rewrite <-Hd. rewrite !wrapu_small by (rewrite ?length_app; lia).
  rewrite (proj2 (Z.ltb_ge _ _)) by (rewrite !length_app; lia). done.
Qed.

Lemma chain_drop es i prev :
  chain prev es → (i < length es)%nat → (0 < i)%nat →
  ∃ e, es !! pred i = Some e ∧ chain (be_key e) (drop i es).
Proof.
  revert i prev. induction es as [|e es IH]; intros [|i] prev Hc Hi Hi0; simpl in *; try lia.
  destruct i as [|i]; [exists e; rewrite drop_0; split; [done|apply Hc]|].
  destruct (IH (S i) (be_key e)) as (e' & E & Hc'); [apply Hc|lia|lia|]. by exists e'.
Qed.

(** ** Reading *)

Section reading.
Context `{UC : Comparator (list Z)} `{!ComparatorLaws (list Z)}.
Context (es : list block_entry) (points : list nat) (Hwf : block_wf es points).

Let data := block_bytes_of es points.
Let restarts := Z.of_nat (length (entries_bytes es)).
Let num := Z.of_nat (length points).
Let offset := entry_offset es.

Lemma block_length : Z.of_nat (length data) = restarts + 4 * num + 4.
Proof.
  unfold data, restarts, num, block_bytes_of. rewrite !length_app, length_fixed32s, length_fmap.
  unfold EncodeFixed32. rewrite length_le_split. lia.
Qed.

Lemma offset_split i :
  data = entries_bytes (take i es) ++ entries_bytes (drop i es) ++
    drop (length (entries_bytes es)) data.
Proof.
  unfold data, block_bytes_of at 1. rewrite <-(take_drop i es) at 1.
  rewrite entries_bytes_app, <-app_assoc. unfold block_bytes_of. by rewrite drop_app_length.
Qed.

Lemma offset_end i : (length es ≤ i)%nat → offset i = restarts.
Proof. intros Hi. unfold offset, entry_offset. by rewrite take_ge. Qed.

Lemma offset_S i e :
  es !! i = Some e → offset (S i) = offset i + Z.of_nat (length (entry_bytes e)).
Proof.
  intros E. unfold offset, entry_offset. rewrite (take_S_r _ _ _ E), entries_bytes_app, length_app.
  unfold entries_bytes at 2. simpl. rewrite app_nil_r. lia.
Qed.

Lemma entry_at i e :
  es !! i = Some e → kv_ok (be_kv e) ∧ ∃ prev, chain prev (drop i es) ∧ drop i es = e :: drop (S i) es.
Proof.
  intros E. pose proof (wf_kvs _ _ Hwf) as Hk. split; [by eapply Forall_lookup_1 in Hk|].
  pose proof (wf_chain _ _ Hwf) as Hc. rewrite <-(take_drop i es) in Hc.
  apply chain_app in Hc as [_ Hc]. eexists. split; [done|]. by apply drop_S.
Qed.

Lemma offset_step i e :
  es !! i = Some e → offset i + 3 ≤ offset (S i).
Proof.
  intros E. rewrite (offset_S i e E). destruct (entry_at i e E) as (Hk & prev & Hc & Hd).
  rewrite Hd in Hc. pose proof (entry_header_length e prev _ Hc Hk).
  unfold entry_bytes. rewrite length_app. lia.
Qed.

Lemma offset_lt i j : (i < j)%nat → (j ≤ length es)%nat → offset i < offset j.
Proof.
  induction 1 as [|j Hij IH]; intros Hj.
  - destruct (lookup_lt_is_Some_2 es i) as [e E]; [lia|]. pose proof (offset_step i e E). lia.
  - destruct (lookup_lt_is_Some_2 es j) as [e E]; [lia|]. pose proof (offset_step j e E).
    specialize (IH ltac:(lia)). lia.
Qed.

Lemma offset_range i : 0 ≤ offset i ≤ restarts ∧ restarts < 2 ^ 32.
Proof.
  pose proof (wf_size _ _ Hwf) as Hl. change (block_bytes_of es points) with data in Hl.
  rewrite block_length in Hl. unfold offset, entry_offset, restarts, num in *.
  rewrite <-(take_drop i es) at 3. rewrite entries_bytes_app, length_app. lia.
Qed.

(** There are no more entries than bytes. *)
Lemma offset_bound i : (i ≤ length es)%nat → Z.of_nat i ≤ offset i ∧ offset i ≤ restarts.
Proof.
  induction i as [|i IH]; intros Hi.
  - split; [unfold offset, entry_offset; simpl; lia|apply offset_range].
  - destruct (lookup_lt_is_Some_2 es i) as [e E]; [lia|]. pose proof (offset_step i e E).
    pose proof (offset_range (S i)). lia.
Qed.

Lemma offset_lt_iff i j : (i ≤ length es)%nat → (j ≤ length es)%nat → offset i < offset j ↔ (i < j)%nat.
Proof.
  intros Hi Hj. split; [|intros; by apply offset_lt]. intros Ho.
  destruct (Nat.lt_trichotomy i j) as [|[->|Hlt]]; [done|lia|].
  pose proof (offset_lt j i Hlt Hi). lia.
Qed.

Lemma from_offset_at i : from_offset data restarts (offset i) = entries_bytes (drop i es).
Proof.
  unfold from_offset, restarts, offset, entry_offset. rewrite !Nat2Z.id.
  unfold data, block_bytes_of. rewrite take_app_length.
  rewrite <-(take_drop i es) at 2. by rewrite entries_bytes_app, drop_app_length.
Qed.

Lemma point_bound j a : points !! j = Some a → (a ≤ length es)%nat.
Proof.
  intros E. destruct (rp_entry _ _ (wf_points _ _ Hwf) a) as [->|(e & Ee & _)];
    [by eapply list_elem_of_lookup_2|lia|]. apply lookup_lt_Some in Ee. lia.
Qed.

Lemma restart_point j a :
  points !! j = Some a → GetRestartPoint data restarts num (Z.of_nat j) = Some (offset a).
Proof.
  intros E. unfold GetRestartPoint. pose proof (lookup_lt_Some _ _ _ E) as Hj.
  rewrite (proj2 (Z.ltb_lt _ _)) by (unfold num; lia). unfold restarts.
  replace (Z.to_nat _) with (length (entries_bytes es) + 4 * j)%nat by lia.
  unfold data, block_bytes_of. rewrite <-drop_drop, drop_app_length.
  apply fixed32_lookup; [by rewrite list_lookup_fmap, E|]. pose proof (offset_range a). lia.
Qed.

Lemma restart_point_ex j : 0 ≤ j < num → ∃ a, points !! Z.to_nat j = Some a ∧
  GetRestartPoint data restarts num j = Some (offset a).
Proof.
  intros Hj. destruct (lookup_lt_is_Some_2 points (Z.to_nat j)) as [a E]; [unfold num in Hj; lia|].
  exists a. split; [done|]. rewrite <-(restart_point _ _ E). f_equal. lia.
Qed.

Lemma num_pos : 0 < num.
Proof.
  pose proof (rp_head _ _ (wf_points _ _ Hwf)) as Hh. unfold num. destruct points; [done|simpl; lia].
Qed.

Lemma block_middle a b c :
  data = a ++ b ++ c →
  block_bytes data (Z.of_nat (length a)) (Z.of_nat (length b)) = Some b.
Proof.
  intros ->. unfold block_bytes. rewrite !length_app.
  rewrite (proj2 (Z.leb_le _ _)), (proj2 (Z.leb_le _ _)) by lia. cbn [andb].
  by rewrite !Nat2Z.id, drop_app_length, take_app_length.
Qed.

(** The positions of an iterator: at an entry, and about to parse an entry. *)
Definition at_entry (i : nat) (it : BlockIter) : Prop :=
  ∃ e, es !! i = Some e ∧ bi_current_ it = offset i ∧ bi_key_ it = be_key e ∧
    bi_value_ it = Some (offset (S i) - Z.of_nat (length (be_value e)), Z.of_nat (length (be_value e))) ∧
    0 ≤ bi_restart_index_ it < num ∧ bi_status_ it = None.
Definition ready (i : nat) (it : BlockIter) : Prop :=
  (i ≤ length es)%nat ∧ chain (bi_key_ it) (drop i es) ∧
  (∃ o n, bi_value_ it = Some (o, n) ∧ o + n = offset i) ∧
  0 ≤ bi_restart_index_ it < num ∧ bi_status_ it = None.
Definition at_end (it : BlockIter) : Prop :=
  bi_current_ it = restarts ∧ bi_status_ it = None.

Lemma at_entry_ready i it : at_entry i it → ready (S i) it.
Proof.
  intros (e & E & Hc & Hk & Hv & Hr & Hs). pose proof (lookup_lt_Some _ _ _ E) as Hi.
  split_and!; [lia| |rewrite Hv; eexists _, _; split; [done|lia]|lia|lia|done].
  destruct (decide (S i < length es)%nat) as [Hlt|]; [|by rewrite drop_ge by lia].
  destruct (chain_drop es (S i) [] (wf_chain _ _ Hwf) Hlt) as (e' & E' & Hc'); [lia|].
  simpl in E'. rewrite E in E'. injection E' as <-. by rewrite Hk.
Qed.

Lemma run_NextEntryOffset i it : ready i it → NextEntryOffset it = Done (offset i, it).
Proof.
  intros (_ & _ & (o & n & Ev & Eo) & _). unfold NextEntryOffset. rewrite bind_get, Ev. run_unfold. simpl.
  pose proof (offset_range i). by rewrite Eo, wrapu_small by lia.
Qed.

(** The restart index moves forward inside of the array. *)
Lemma run_restart_loop fuel : ∀ it,
  0 ≤ bi_restart_index_ it < num → num - bi_restart_index_ it < fuel →
  ∃ it', loop fuel (restart_step data restarts num) tt it = Done (tt, it') ∧
    bi_current_ it' = bi_current_ it ∧ bi_key_ it' = bi_key_ it ∧ bi_value_ it' = bi_value_ it ∧
    bi_status_ it' = bi_status_ it ∧ 0 ≤ bi_restart_index_ it' < num.
Proof.
  intros it Hr Hf. pose (I := λ (_ : unit) (it' : BlockIter),
    bi_current_ it' = bi_current_ it ∧ bi_key_ it' = bi_key_ it ∧ bi_value_ it' = bi_value_ it ∧
    bi_status_ it' = bi_status_ it ∧ 0 ≤ bi_restart_index_ it' < num).
  destruct (wp_run (loop fuel (restart_step data restarts num) tt) (λ _ it', I tt it') it)
    as ([] & it' & E & HI); [|by exists it'].
  apply (wp_loop I (λ _ it', num - bi_restart_index_ it')); [done|lia|].
  intros [] it1 HI _. unfold restart_step. apply wp_bind, wp_get.
  destruct (Z.ltb_spec (bi_restart_index_ it1 + 1) num) as [Hlt|]; [|by apply wp_ret].
  destruct HI as (H1 & H2 & H3 & H4 & H5).
  destruct (restart_point_ex (bi_restart_index_ it1 + 1)) as (a & _ & Ea); [lia|].
  apply wp_bind. rewrite Ea. apply wp_ret. destruct (_ <? _); [|by apply wp_ret].
  apply wp_bind, wp_put, wp_ret. unfold I. simpl. split_and!; try done; lia.
Qed.

(** What is decoded at an entry, and where its bytes are. *)
Lemma decode_at i e prev :
  es !! i = Some e → chain prev (drop i es) →
  ∃ p, DecodeEntry (from_offset data restarts (offset i)) =
      Some (Z.of_nat (be_shared e), Z.of_nat (length (entry_delta e)),
        Z.of_nat (length (be_value e)), p) ∧
    block_bytes data (restarts - Z.of_nat (length p)) (Z.of_nat (length (entry_delta e))) =
      Some (entry_delta e) ∧
    restarts - Z.of_nat (length p) + Z.of_nat (length (entry_delta e)) =
      offset (S i) - Z.of_nat (length (be_value e)).
Proof.
  intros E Hc. destruct (entry_at i e E) as (Hk & _ & _ & Hd).
  pose proof (offset_split i) as Hsplit. pose proof (offset_range i) as Hrange.
  rewrite from_offset_at. rewrite Hd in Hc, Hsplit |- *.
  change (entries_bytes (e :: drop (S i) es)) with
    (entry_bytes e ++ entries_bytes (drop (S i) es)) in *.
  set (tail := entries_bytes (drop (S i) es)) in *.
  assert (Z.of_nat (length (entry_bytes e ++ tail)) = restarts - offset i) as Hrest.
  { assert (length (entries_bytes es) = length (entries_bytes (take i es) ++ entry_bytes e ++ tail)) as El.
    { rewrite <-(take_drop i es) at 1. by rewrite entries_bytes_app, Hd. }
    unfold restarts, offset, entry_offset. rewrite El, (length_app (entries_bytes _)). lia. }
  exists (entry_delta e ++ be_value e ++ tail). split_and!.
  - apply (decode_entry_bytes e prev (drop (S i) es)); [done|done| |lia].
    eapply entries_bytes_ok; [apply Hc|]. apply Forall_drop, Hwf.
  - replace (restarts - _) with (Z.of_nat (length (entries_bytes (take i es) ++ entry_header e))).
    + apply (block_middle _ _ (be_value e ++ tail ++ drop (length (entries_bytes es)) data)).
      rewrite Hsplit at 1. unfold entry_bytes. by rewrite <-!app_assoc.
    + rewrite (length_app (entries_bytes _)). unfold entry_bytes in Hrest.
      rewrite !length_app in *. unfold offset, entry_offset in *. lia.
  - rewrite (offset_S i e E). unfold entry_bytes in *. rewrite !length_app in *. lia.
Qed.

Lemma run_ParseNextKey i it :
  ready i it →
  ∃ it', ParseNextKey data restarts num it = Done (bool_decide (i < length es)%nat, it') ∧
    if decide (i < length es)%nat then at_entry i it' else at_end it'.
Proof.
  intros Hready. pose proof Hready as (Hi & Hc & _ & Hr & Hs). unfold ParseNextKey.
  bind_with (run_NextEntryOffset i it Hready). rewrite bind_get.
  destruct (decide (i < length es)%nat) as [Hlt|Hge].
  2: { rewrite (offset_end i) by lia. rewrite Z.leb_refl. eexists.
       split; [by rewrite bool_decide_eq_false_2|done]. }
  pose proof (offset_lt i (length es) Hlt ltac:(lia)) as Ho. rewrite (offset_end (length es)) in Ho by lia.
  rewrite (proj2 (Z.leb_gt _ _)) by lia.
  destruct (lookup_lt_is_Some_2 es i Hlt) as [e E].
  destruct (decode_at i e (bi_key_ it) E Hc) as (p & -> & Hb & Hp).
  destruct (entry_at i e E) as (_ & _ & _ & Hd). rewrite Hd in Hc. destruct Hc as (Hc1 & Hc2 & Hc3 & _).
  rewrite (proj2 (Z.ltb_ge _ _)) by lia. cbv zeta. rewrite (bind_lift _ _ _ _ Hb).
  rewrite Nat2Z.id, Hc3. unfold entry_delta at 1. rewrite take_drop.
  match goal with |- context [put_state ?x] => set (it1 := x) end.
  destruct (run_restart_loop (num + 1) it1) as (it' & El & G1 & G2 & G3 & G4 & G5);
    [exact Hr|unfold it1; simpl; lia|].
  exists it'. split.
  { rewrite bool_decide_eq_true_2 by done. rewrite (bind_done _ _ _ tt it1) by done. by bind_with El. }
  exists e. split_and!; [done|by rewrite G1|by rewrite G2| |lia|lia|by rewrite G4].
  rewrite G3. unfold it1. simpl. by rewrite Hp.
Qed.

Lemma point_chain a : a ∈ points → chain [] (drop a es).
Proof.
  intros Ha. destruct (rp_entry _ _ (wf_points _ _ Hwf) a Ha) as [->|(e & E & Hs)]; [apply Hwf|].
  destruct (entry_at a e E) as (_ & prev & Hc & Hd). rewrite Hd in *.
  destruct Hc as (_ & _ & _ & Hc). simpl. rewrite Hs. split_and!; [lia|lia|done|done].
Qed.

Lemma run_SeekToRestartPoint j a it :
  points !! j = Some a → bi_status_ it = None →
  ∃ it', SeekToRestartPoint data restarts num (Z.of_nat j) it = Done (tt, it') ∧ ready a it'.
Proof.
  intros E Hs. unfold SeekToRestartPoint. rewrite bind_get, (bind_lift _ _ _ _ (restart_point j a E)).
  eexists. split; [done|]. pose proof (lookup_lt_Some _ _ _ E). split_and!; simpl.
  - by eapply point_bound.
  - apply point_chain. by eapply list_elem_of_lookup_2.
  - eexists _, _. split; [done|lia].
  - lia.
  - unfold num. lia.
  - done.
Qed.

Lemma run_parse_until n d : ∀ fuel i it,
  ready i it → (n = i + S d)%nat → (n ≤ length es)%nat → Z.of_nat (S d) < fuel →
  ∃ it', loop fuel (parse_until data restarts num (offset n)) tt it = Done (tt, it') ∧
    at_entry (pred n) it'.
Proof.
  induction d as [|d IH]; intros fuel i it Hr -> Hn Hf;
    destruct (run_ParseNextKey i it Hr) as (it1 & E1 & Hat);
    (rewrite bool_decide_eq_true_2 in E1 by lia); (rewrite decide_True in Hat by lia);
    pose proof (run_NextEntryOffset _ it1 (at_entry_ready i it1 Hat)) as En.
  - exists it1. replace (pred (i + 1)) with i by lia. split; [|done]. apply loop_inr; [lia|].
    unfold parse_until. bind_with E1. bind_with En.
    rewrite (proj2 (Z.ltb_ge _ _)); [done|]. replace (i + 1)%nat with (S i) by lia. done.
  - destruct (IH (fuel - 1) (S i) it1) as (it' & E & Hat'); [by apply at_entry_ready|lia|lia|lia|].
    exists it'. split; [|done]. rewrite <-E. apply loop_inl; [lia|].
    unfold parse_until. bind_with E1. bind_with En.
    rewrite (proj2 (Z.ltb_lt _ _)); [done|]. apply offset_lt; lia.
Qed.

(** The entries, and the positions of an iterator over them. *)
Definition kvs_of : entries := be_kv <$> es.
Definition block_at (p : option nat) (it : BlockIter) : Prop :=
  match p with Some i => at_entry i it | None => at_end it end.

Lemma block_at_pos i it :
  (if decide (i < length es)%nat then at_entry i it else at_end it) ↔ block_at (at_pos kvs_of i) it.
Proof.
  unfold at_pos, kvs_of. rewrite length_fmap.
  destruct (decide _), (Nat.ltb_spec i (length es)); try lia; done.
Qed.

Lemma block_at_status p it : block_at p it → bi_status_ it = None.
Proof. destruct p; [by intros (? & _ & _ & _ & _ & _ & ?)|by intros []]. Qed.

Lemma run_seek_linear target d : ∀ fuel i it,
  ready i it → (length es = i + d)%nat → Z.of_nat d < fuel →
  (∀ j kv, kvs_of !! j = Some kv → (j < i)%nat → compare_ kv.1 target < 0) →
  ∃ it', loop fuel (seek_linear data restarts num target) tt it = Done (tt, it') ∧
    block_at (at_pos kvs_of (lower_bound kvs_of target)) it'.
Proof.
  induction d as [|d IH]; intros fuel i it Hr Hl Hf Hlow;
    destruct (run_ParseNextKey i it Hr) as (it1 & E1 & Hat).
  - rewrite bool_decide_eq_false_2 in E1 by lia. exists it1. split.
    { apply loop_inr; [lia|]. unfold seek_linear. by bind_with E1. }
    rewrite (lower_bound_unique _ _ i); [by apply block_at_pos|unfold kvs_of; rewrite length_fmap; lia|done|].
    intros kv Ekv. apply lookup_lt_Some in Ekv. unfold kvs_of in Ekv. rewrite length_fmap in Ekv. lia.
  - rewrite bool_decide_eq_true_2 in E1 by lia.
    pose proof Hat as Hat'. rewrite decide_True in Hat' by lia.
    pose proof Hat' as (e & Ee & _ & Ek & _).
    assert (kvs_of !! i = Some (be_kv e)) as Ekv by (unfold kvs_of; by rewrite list_lookup_fmap, Ee).
    destruct (Z.leb_spec 0 (compare_ (be_key e) target)) as [Hge|Hlt].
    + exists it1. split.
      { apply loop_inr; [lia|]. unfold seek_linear. bind_with E1. rewrite bind_get, Ek.
        by rewrite (proj2 (Z.leb_le _ _)). }
      rewrite (lower_bound_unique _ _ i); [by apply block_at_pos|unfold kvs_of; rewrite length_fmap; lia|done|].
      intros kv Ekv'. rewrite Ekv in Ekv'. by injection Ekv' as <-.
    + destruct (IH (fuel - 1) (S i) it1) as (it' & E & HR); [by apply at_entry_ready|lia|lia| |].
      { intros j kv Ej Hj. destruct (decide (j = i)) as [->|]; [|apply (Hlow j); [done|lia]].
        rewrite Ekv in Ej. by injection Ej as <-. }
      exists it'. split; [|done]. rewrite <-E. apply loop_inl; [lia|].
      unfold seek_linear. bind_with E1. rewrite bind_get, Ek. by rewrite (proj2 (Z.leb_gt _ _)).
Qed.

(** The binary search ends at a restart point whose earlier entries are all below the
    target. *)
Definition below_point (target : list Z) (j : Z) : Prop :=
  ∃ a, points !! Z.to_nat j = Some a ∧
    ∀ i kv, kvs_of !! i = Some kv → (i < a)%nat → compare_ kv.1 target < 0.

Lemma point_below target j a e :
  keys_sorted kvs_of → points !! j = Some a → es !! a = Some e → compare_ (be_key e) target < 0 →
  below_point target (Z.of_nat j).
Proof.
  intros Hs Ea Ee Hlt. exists a. rewrite Nat2Z.id. split; [done|]. intros i kv Ei Hi.
  assert (kvs_of !! a = Some (be_kv e)) as Ek by (unfold kvs_of; by rewrite list_lookup_fmap, Ee).
  pose proof (keys_sorted_lookup _ _ _ _ _ Hs Ei Ek Hi) as Hc. simpl in Hc.
  apply compare_lt_le_trans with (be_key e); [done|lia].
Qed.

Lemma run_seek_search target it fuel :
  keys_sorted kvs_of → num < fuel →
  ∃ j, loop fuel (seek_step data restarts num target) (0, num - 1) it = Done (Some j, it) ∧
    0 ≤ j < num ∧ below_point target j.
Proof.
  intros Hs Hf. pose proof num_pos as Hnum. pose proof (offset_range 0) as Hrange.
  pose proof (wf_size _ _ Hwf) as Hsz. change (block_bytes_of es points) with data in Hsz.
  rewrite block_length in Hsz.
  pose (I := λ (st : Z * Z) (it' : BlockIter), it' = it ∧ 0 ≤ st.1 ≤ st.2 ∧ st.2 < num ∧
    below_point target st.1).
  destruct (wp_run (loop fuel (seek_step data restarts num target) (0, num - 1))
    (λ r it', it' = it ∧ ∃ j, r = Some j ∧ 0 ≤ j < num ∧ below_point target j) it)
    as (r & it' & E & -> & j & -> & Hj); [|by exists j].
  apply (wp_loop I (λ st _, st.2 - st.1)); [|simpl; lia|].
  { split_and!; simpl; [done|lia..|]. exists O. pose proof (rp_head _ _ (wf_points _ _ Hwf)) as Hh.
    split; [by destruct points|]. intros; lia. }
  intros [l r] it1 (-> & Hlr & Hr & Hb) _. simpl in *. unfold seek_step.
  destruct (Z.ltb_spec l r) as [Hlt|]; [|apply wp_ret; split; [done|]; exists l; split_and!; [done|lia|lia|done]].
  rewrite wrapu_small by lia. set (mid := (l + r + 1) / 2).
  assert (l < mid ≤ r) as Hmid by (unfold mid; zdiv).
  destruct (restart_point_ex mid) as (a & Ea & Eo); [lia|].
  apply wp_bind. rewrite Eo. apply wp_ret.
  destruct (rp_entry _ _ (wf_points _ _ Hwf) a) as [->|(e & Ee & Hsh)]; [by eapply list_elem_of_lookup_2| |].
  { pose proof (rp_head _ _ (wf_points _ _ Hwf)) as Hh. rewrite head_lookup in Hh.
    pose proof (rp_sorted _ _ (wf_points _ _ Hwf) _ _ _ _ Hh Ea). lia. }
  destruct (decode_at a e [] Ee) as (p & -> & Hbk & _).
  { apply point_chain. by eapply list_elem_of_lookup_2. }
  rewrite Hsh. cbn [Z.of_nat Z.eqb negb]. apply wp_bind. rewrite Hbk. apply wp_ret.
  assert (entry_delta e = be_key e) as -> by (unfold entry_delta; by rewrite Hsh).
  destruct (Z.ltb_spec (compare_ (be_key e) target) 0) as [Hc|]; apply wp_ret; simpl.
  - split; [|lia]. split_and!; [done|simpl; lia|simpl; lia|simpl; lia|].
    simpl. replace mid with (Z.of_nat (Z.to_nat mid)) by lia. by eapply point_below.
  - rewrite wrapu_small by lia. split; [|lia]. by split_and!; [|simpl; lia..|].
Qed.

Lemma run_bi_Seek target p it :
  keys_sorted kvs_of → block_at p it →
  ∃ it', bi_Seek data restarts num target it = Done (tt, it') ∧
    block_at (at_pos kvs_of (lower_bound kvs_of target)) it'.
Proof.
  intros Hs Hp. unfold bi_Seek.
  destruct (run_seek_search target it (num + 1) Hs ltac:(lia)) as (j & E & Hj & a & Ea & Hlow).
  bind_with E. replace j with (Z.of_nat (Z.to_nat j)) by lia.
  destruct (run_SeekToRestartPoint _ a it Ea (block_at_status _ _ Hp)) as (it1 & E1 & Hr1).
  bind_with E1. apply (run_seek_linear target (length es - a) _ a it1 Hr1).
  - destruct Hr1. lia.
  - pose proof (offset_bound (length es)). lia.
  - done.
Qed.

Lemma run_prev_restarts i it fuel :
  at_entry i it → num < fuel →
  ∃ b it', loop fuel (prev_restart_step data restarts num (offset i)) tt it = Done (b, it') ∧
    if (b : bool) then bi_status_ it' = None ∧ ∃ j a, bi_restart_index_ it' = Z.of_nat j ∧
      points !! j = Some a ∧ (a < i)%nat
    else i = O ∧ at_end it'.
Proof.
  intros (e & Ee & _ & _ & _ & Hr & Hs) Hf. pose proof (lookup_lt_Some _ _ _ Ee) as Hi.
  pose (I := λ (_ : unit) (it' : BlockIter), bi_status_ it' = None ∧ 0 ≤ bi_restart_index_ it' < num).
  apply (wp_run (loop fuel (prev_restart_step data restarts num (offset i)) tt) (λ b it',
    if (b : bool) then bi_status_ it' = None ∧ ∃ j a, bi_restart_index_ it' = Z.of_nat j ∧
      points !! j = Some a ∧ (a < i)%nat
    else i = O ∧ at_end it') it).
  apply (wp_loop I (λ _ it', bi_restart_index_ it')); [done|lia|].
  intros [] it1 [Hs1 Hr1] _. unfold prev_restart_step. apply wp_bind, wp_get.
  destruct (restart_point_ex (bi_restart_index_ it1)) as (a & Ea & Eo); [lia|].
  pose proof (point_bound _ _ Ea) as Ha. apply wp_bind. rewrite Eo. apply wp_ret.
  pose proof (offset_lt_iff a i Ha ltac:(lia)) as Hiff.
  destruct (Z.leb_spec (offset i) (offset a)) as [Hle|Hlt].
  - destruct (Z.eqb_spec (bi_restart_index_ it1) 0) as [E0|Hne].
    + apply wp_bind, wp_put, wp_ret. split; [|done]. rewrite E0 in Ea. change (Z.to_nat 0) with O in Ea.
      pose proof (rp_head _ _ (wf_points _ _ Hwf)) as Hh. rewrite head_lookup, Ea in Hh.
      injection Hh as ->. destruct i; [done|]. pose proof (offset_lt 0 (S i)). lia.
    + apply wp_bind, wp_put, wp_ret. unfold I. simpl. split_and!; [done|lia|lia|lia|lia].
  - apply wp_ret. split; [done|]. exists (Z.to_nat (bi_restart_index_ it1)), a.
    split_and!; [lia|done|by apply Hiff].
Qed.

Lemma run_bi_Prev i it :
  at_entry i it →
  ∃ it', bi_Prev data restarts num it = Done (tt, it') ∧
    block_at (match i with O => None | S i' => Some i' end) it'.
Proof.
  intros Hat. pose proof Hat as (e & Ee & Hcur & _). pose proof (lookup_lt_Some _ _ _ Ee) as Hi.
  unfold bi_Prev. rewrite bind_get. rewrite bind_assert.
  2: { unfold bi_Valid. apply Z.ltb_lt. rewrite Hcur, <-(offset_end (length es)) by done. by apply offset_lt. }
  cbv zeta. rewrite Hcur.
  destruct (run_prev_restarts i it (num + 1) Hat ltac:(lia)) as ([] & it1 & E1 & H1); bind_with E1.
  - destruct H1 as (Hs & j & a & Ej & Ea & Ha). rewrite bind_get, Ej.
    destruct (run_SeekToRestartPoint j a it1 Ea Hs) as (it2 & E2 & Hr2). bind_with E2.
    destruct (run_parse_until i (i - S a) (restarts + 1) a it2 Hr2) as (it3 & E3 & Hat3); [lia|lia| |].
    + pose proof (offset_bound (length es)). lia.
    + exists it3. split; [done|]. destruct i; [lia|done].
  - destruct H1 as [-> Hend]. by exists it1.
Qed.

(** An iterator over the block is a cursor in its entries, that never sees an error. *)
Lemma block_iter_over :
  keys_sorted kvs_of → iter_over (block_iter_ops data restarts num) any_target kvs_of block_at.
Proof.
  intros Hs.
  assert (∀ i it, at_entry i it → bi_Valid restarts it = true) as Hvalid.
  { intros i it (e & Ee & Hc & _). apply lookup_lt_Some in Ee. unfold bi_Valid. apply Z.ltb_lt.
    rewrite Hc, <-(offset_end (length es)) by done. by apply offset_lt. }
  split; cbn [block_iter_ops i_Valid i_SeekToFirst i_SeekToLast i_Seek i_Next i_Prev i_key i_value].
  - intros [i|] it Hp; [by apply (Hvalid i)|]. destruct Hp as [Hc _]. unfold bi_Valid. rewrite Hc.
    by rewrite Z.ltb_irrefl.
  - intros i it (e & Ee & _). unfold kvs_of. rewrite length_fmap. by eapply lookup_lt_Some.
  - intros i it k v Hp Ekv. pose proof (Hvalid i it Hp) as Hv. destruct Hp as (e & Ee & _ & Ek & Ev & _).
    unfold kvs_of in Ekv. rewrite list_lookup_fmap, Ee in Ekv. injection Ekv as <- <-.
    unfold bi_key, bi_value. rewrite !bind_get, !bind_assert, Ek, Ev by done. split; [done|].
    rewrite (bind_lift _ _ _ _ eq_refl). cbv iota beta.
    assert (block_bytes data (offset (S i) - Z.of_nat (length (be_value e)))
      (Z.of_nat (length (be_value e))) = Some (be_value e)) as ->; [|done].
    replace (offset (S i) - _) with
      (Z.of_nat (length (entries_bytes (take i es) ++ entry_header e ++ entry_delta e))).
    + apply (block_middle _ _ (entries_bytes (drop (S i) es) ++ drop (length (entries_bytes es)) data)).
      rewrite (offset_split i) at 1. rewrite (drop_S _ _ _ Ee).
      change (entries_bytes (e :: drop (S i) es)) with
        (entry_bytes e ++ entries_bytes (drop (S i) es)).
      unfold entry_bytes. by rewrite <-!app_assoc.
    + rewrite (offset_S i e Ee). unfold offset, entry_offset, entry_bytes. rewrite !length_app. lia.
  - intros p it Hp. unfold bi_SeekToFirst.
    pose proof (rp_head _ _ (wf_points _ _ Hwf)) as Hh. rewrite head_lookup in Hh.
    destruct (run_SeekToRestartPoint 0 0 it Hh (block_at_status _ _ Hp)) as (it1 & E1 & Hr1).
    destruct (run_ParseNextKey 0 it1 Hr1) as (it2 & E2 & H2).
    exists it2. split; [|by apply block_at_pos]. bind_with E1. by bind_with E2.
  - intros p it Hp. unfold bi_SeekToLast.
    destruct (restart_point_ex (num - 1)) as (a & Ea & _); [pose proof num_pos; lia|].
    destruct (run_SeekToRestartPoint _ a it Ea (block_at_status _ _ Hp)) as (it1 & E1 & Hr1).
    pose proof num_pos. replace (num - 1) with (Z.of_nat (Z.to_nat (num - 1))) by lia.
    bind_with E1. unfold kvs_of at 2. rewrite length_fmap.
    destruct (decide (es = [])) as [Enil|Hne].
    + destruct (run_ParseNextKey a it1 Hr1) as (it2 & E2 & H2).
      rewrite bool_decide_eq_false_2 in E2 by (rewrite Enil; simpl; lia). exists it2. split.
      * apply loop_inr; [unfold restarts; lia|]. unfold parse_until. by bind_with E2.
      * apply block_at_pos. rewrite decide_False by (rewrite Enil; simpl; lia).
        by rewrite decide_False in H2 by (rewrite Enil; simpl; lia).
    + assert (a < length es)%nat as Halt.
      { destruct (rp_entry _ _ (wf_points _ _ Hwf) a) as [->|(e & Ee & _)];
          [by eapply list_elem_of_lookup_2| |by eapply lookup_lt_Some].
        destruct (length es) eqn:El; [by apply nil_length_inv in El|lia]. }
      pose proof (offset_bound (length es) ltac:(done)) as Hbound.
      destruct (run_parse_until (length es) (length es - S a) (restarts + 1) a it1 Hr1)
        as (it2 & E2 & H2); [lia|lia|lia|].
      rewrite (offset_end (length es)) in E2 by done.
      exists it2. split; [done|]. unfold at_pos, kvs_of. rewrite length_fmap.
      rewrite (proj2 (Nat.ltb_lt _ _)) by lia. by rewrite Nat.sub_1_r.
  - intros p it target Hp _. by eapply run_bi_Seek.
  - intros i it Hp. unfold bi_Next. rewrite bind_get, bind_assert by (by apply (Hvalid i)).
    destruct (run_ParseNextKey (S i) it (at_entry_ready _ _ Hp)) as (it' & E & H').
    exists it'. split; [by bind_with E|by apply block_at_pos].
  - intros i it Hp. by apply run_bi_Prev.
Qed.
End reading.

(** ** Building *)

Section building.
Context `{UC : Comparator (list Z)} `{!ComparatorLaws (list Z)}.
Variable interval : Z.
Hypothesis Hinterval : 1 ≤ interval.

(** What a block of these entries takes at most. *)
Definition kvs_size (kvs : entries) : Z :=
  8 + foldr (λ kv n, 19 + Z.of_nat (length kv.1 + length kv.2) + n) 0 kvs.

Record builds (b : BlockBuilder) (es : list block_entry) (points : list nat) : Prop := {
  bd_buffer : bb_buffer_ b = entries_bytes es;
  bd_restarts : bb_restarts_ b = entry_offset es <$> points;
  bd_counter : 0 ≤ bb_counter_ b ≤ interval;
  bd_first : es = [] → bb_counter_ b = 0;
  bd_finished : bb_finished_ b = false;
  bd_last : bb_last_key_ b = default [] (be_key <$> last es);
  bd_chain : chain [] es;
  bd_kvs : Forall (λ e, kv_ok (be_kv e)) es;
  bd_points : restart_points es points;
  bd_bound a : a ∈ points → (a ≤ length es)%nat;
  bd_size : Z.of_nat (length (entries_bytes es)) + 4 * Z.of_nat (length points) + 4 ≤
    kvs_size (kvs_of es);
}.

Lemma kvs_size_app kvs kv :
  kvs_size (kvs ++ [kv]) = kvs_size kvs + (19 + Z.of_nat (length kv.1 + length kv.2)).
Proof.
  unfold kvs_size. induction kvs as [|kv' kvs IH]; simpl; [lia|]. simpl in IH. lia.
Qed.

Lemma slice_eq_refl a : slice_eq a a = true.
Proof.
  unfold slice_eq. rewrite Nat.eqb_refl. simpl. apply Z.eqb_eq. induction a as [|x a IH]; [done|].
  simpl. by rewrite Z.eqb_refl.
Qed.

Lemma offset_end_all es : entry_offset es (length es) = Z.of_nat (length (entries_bytes es)).
Proof. unfold entry_offset. by rewrite firstn_all. Qed.

Lemma offset_snoc es e i : (i ≤ length es)%nat → entry_offset (es ++ [e]) i = entry_offset es i.
Proof. intros Hi. unfold entry_offset. by rewrite take_app_le. Qed.

(** The points of a longer block, with or without a new one. *)
Lemma restart_points_snoc es points points' e :
  restart_points es points → (∀ a, a ∈ points → (a ≤ length es)%nat) →
  points' = points ∨ points' = points ++ [length es] ∧ be_shared e = O ∧ es ≠ [] →
  restart_points (es ++ [e]) points' ∧ (∀ a, a ∈ points' → (a ≤ length es)%nat) ∧
  (length points' ≤ S (length points))%nat.
Proof.
  intros [Hh Hs He] Hb Hp.
  assert (∀ a, a ∈ points → a = O ∨ ∃ e', (es ++ [e]) !! a = Some e' ∧ be_shared e' = O) as He'.
  { intros a Ha. destruct (He a Ha) as [->|(e' & E & H0)]; [by left|right].
    exists e'. by rewrite (lookup_app_l_Some _ _ _ _ E). }
  destruct Hp as [->|(-> & H0 & Hne)]; [split_and!; [by split|done|lia]|].
  assert (0 < length es)%nat as Hpos by (destruct es; [done|simpl; lia]).
  assert (∀ a, a ∈ points → (a < length es)%nat) as Hlt.
  { intros a Ha. destruct (He a Ha) as [->|(e' & E & _)]; [done|by eapply lookup_lt_Some]. }
  split_and!.
  - split.
    + destruct points; [done|]. exact Hh.
    + intros i j a b Ea Eb Hij. apply lookup_snoc_Some in Ea as [[Hi Ea]|[-> <-]],
        Eb as [[Hj Eb]|[-> <-]]; [by eapply Hs| |lia|lia].
      apply Hlt. by eapply list_elem_of_lookup_2.
    + intros a [Ha| ->%list_elem_of_singleton]%elem_of_app; [by apply He'|right].
      exists e. by rewrite lookup_app_r, Nat.sub_diag.
  - intros a [Ha| ->%list_elem_of_singleton]%elem_of_app; [by apply Hb|done].
  - rewrite length_app. simpl. lia.
Qed.

Lemma run_bb_Add b es points key value :
  builds b es points → kv_ok (key, value) →
  (es ≠ [] → compare_ (bb_last_key_ b) key < 0) →
  kvs_size (kvs_of es ++ [(key, value)]) < 2 ^ 32 →
  ∃ b' points' shared, bb_Add interval key value b = Done (tt, b') ∧
    builds b' (es ++ [BlockEntry shared key value]) points'.
Proof.
  intros Hb Hkv Hlast Hsize. pose proof Hb as [B1 B2 B3 B3' B4 B5 B6 B7 B8 B9 B10].
  unfold bb_Add. rewrite bind_get. cbv zeta. rewrite B4, B1.
  rewrite !bind_assert; [|apply orb_true_iff|by apply Z.leb_le, B3|done].
  2: { destruct (decide (es = [])) as [->|Hne]; [by left|right]. apply Z.ltb_lt.
       by apply compare_sym, Hlast. }
  rewrite kvs_size_app in Hsize. cbn [fst snd] in Hsize.
  destruct Hkv as (Hkb & Hvb & Hkvl). cbn [fst snd] in *.
  set (prev := bb_last_key_ b) in *.
  (* what is shared, and the restart points *)
  destruct (if bb_counter_ b <? interval then _ else _) as [[shared restarts] counter] eqn:Esh.
  assert (∃ points', restarts = entry_offset es <$> points' ∧ 0 ≤ counter < interval ∧
    (shared ≤ length prev)%nat ∧ (shared ≤ length key)%nat ∧ take shared prev = take shared key ∧
    (points' = points ∨ points' = points ++ [length es] ∧ shared = O ∧ es ≠ []))
    as (points' & Er & Hc & Hs1 & Hs2 & Hs3 & Hp).
  { destruct (Z.ltb_spec (bb_counter_ b) interval); injection Esh as <- <- <-.
    - exists points. destruct (common_prefix_spec prev key) as (E & H1 & H2 & _).
      split_and!; [done|lia|lia|done|done|done|by left].
    - exists (points ++ [length es]). split_and!; [|lia|lia|simpl; lia|simpl; lia|done|].
      + rewrite wrapu_small by lia. rewrite fmap_app, B2. simpl. by rewrite offset_end_all.
      + right. split_and!; [done|done|]. intros ->. specialize (B3' eq_refl). lia. }
  set (e := BlockEntry shared key value).
  assert (chain prev [e]) as Hce by (by split_and!).
  destruct (restart_points_snoc es points points' e B8 B9 Hp) as (R1 & R2 & R3).
  pose proof (entry_header_length e prev [] Hce) as Hh.
  destruct (entry_lengths e prev [] Hce) as (L1 & L2 & L3 & L4 & _); [done|].
  specialize (Hh ltac:(done)). cbn [be_shared be_key be_value e] in L1, L2, L3, L4.
  assert (take (length key - shared) (drop shared key) = entry_delta e) as ->
    by (unfold entry_delta; apply take_ge; rewrite length_drop; simpl; lia).
  assert (take shared prev ++ entry_delta e = key) as -> by (by rewrite Hs3; apply take_drop).
  rewrite bind_assert by apply slice_eq_refl.
  eexists _, points', shared. fold e. split; [done|]. split; simpl.
  - rewrite entries_bytes_snoc. unfold PutVarint32. rewrite !wrapu_small by lia. unfold entry_bytes, entry_header. by rewrite <-!app_assoc.
  - rewrite Er. apply list_fmap_ext. intros i a Ea. symmetry. apply offset_snoc, R2.
    by eapply list_elem_of_lookup_2.
  - lia.
  - intros Hnil. by apply app_nil in Hnil as [_ ?].
  - done.
  - by rewrite last_snoc.
  - apply chain_app. split; [done|]. by rewrite <-B5.
  - apply Forall_app. split; [done|]. by constructor.
  - done.
  - intros a Ha. rewrite length_app. apply R2 in Ha. lia.
  - unfold kvs_of in *. rewrite fmap_app. change (be_kv <$> [e]) with [(key, value)].
    rewrite kvs_size_app, entries_bytes_snoc, length_app. cbn [fst snd]. unfold entry_bytes. rewrite !length_app, L4. cbn [be_value e]. lia.
Qed.

Fixpoint bb_add_all (kvs : entries) : M BlockBuilder unit :=
  match kvs with
  | [] => mret tt
  | (key, value) :: kvs' => bb_Add interval key value;; bb_add_all kvs'
  end.

Lemma kvs_size_cons kv kvs :
  kvs_size (kv :: kvs) = kvs_size kvs + (19 + Z.of_nat (length kv.1 + length kv.2)).
Proof. unfold kvs_size. simpl. lia. Qed.
Lemma kvs_size_append kvs kvs' : kvs_size (kvs ++ kvs') = kvs_size kvs + kvs_size kvs' - 8.
Proof. induction kvs as [|kv kvs IH]; [unfold kvs_size; simpl; lia|]. cbn [app]. rewrite !kvs_size_cons. lia. Qed.
Lemma kvs_size_ge kvs : 8 ≤ kvs_size kvs.
Proof. induction kvs as [|kv kvs IH]; [done|]. rewrite kvs_size_cons. lia. Qed.

Lemma run_bb_add_all kvs : ∀ b es points,
  builds b es points → Forall kv_ok kvs → keys_sorted (kvs_of es ++ kvs) →
  kvs_size (kvs_of es ++ kvs) < 2 ^ 32 →
  ∃ b' es' points', bb_add_all kvs b = Done (tt, b') ∧ builds b' es' points' ∧
    kvs_of es' = kvs_of es ++ kvs.
Proof.
  induction kvs as [|[key value] kvs IH]; intros b es points Hb Hk Hs Hsz.
  { exists b, es, points. by rewrite app_nil_r. }
  apply Forall_cons in Hk as [Hkv Hk].
  destruct (run_bb_Add b es points key value Hb Hkv) as (b1 & points1 & shared & E1 & Hb1).
  - intros Hne. rewrite (bd_last _ _ _ Hb).
    destruct (last es) as [e|] eqn:El; [|by apply last_None in El]. simpl.
    apply last_Some in El as [es0 ->].
    apply (keys_sorted_lookup _ (length es0) (S (length es0)) (be_kv e) (key, value) Hs); [| |lia].
    + unfold kvs_of. rewrite fmap_app, <-app_assoc, lookup_app_r; rewrite length_fmap; [|done].
      by rewrite Nat.sub_diag.
    + unfold kvs_of. rewrite fmap_app, <-app_assoc, lookup_app_r; rewrite length_fmap; [|lia].
      by replace (S (length es0) - length es0)%nat with 1%nat by lia.
  - rewrite kvs_size_append, !kvs_size_cons in Hsz |- *.
    pose proof (kvs_size_ge kvs). change (kvs_size []) with 8. lia.
  - set (e := BlockEntry shared key value) in *.
    assert (kvs_of (es ++ [e]) = kvs_of es ++ [(key, value)]) as Ee
      by (unfold kvs_of; by rewrite fmap_app).
    destruct (IH b1 (es ++ [e]) points1 Hb1 Hk) as (b' & es' & points' & E & Hb' & Ek);
      [by rewrite Ee, <-app_assoc|by rewrite Ee, <-app_assoc|].
    exists b', es', points'. split_and!; [cbn [bb_add_all]; by bind_with E1|done|].
    by rewrite Ek, Ee, <-app_assoc.
Qed.

Lemma new_builds : builds (MkBlockBuilder [] [0] 0 false []) [] [O].
Proof.
  split; simpl; try done; try lia.
  - split; [done| |].
    + intros [|i] [|j] a b Ea Eb Hij; try done; lia.
    + intros a ->%list_elem_of_singleton. by left.
  - intros a ->%list_elem_of_singleton. done.
Qed.

(** What [Finish] returns. *)
Lemma run_bb_Finish b es points :
  builds b es points → kvs_size (kvs_of es) < 2 ^ 32 →
  block_wf es points ∧
  ∃ b', bb_Finish b = Done (block_bytes_of es points, b').
Proof.
  intros Hb Hsz. pose proof Hb as [B1 B2 B3 B3' B4 B5 B6 B7 B8 B9 B10]. split.
  - split; [done|done|done|]. unfold block_bytes_of.
    rewrite !length_app, length_fixed32s, length_fmap. unfold EncodeFixed32. rewrite length_le_split. lia.
  - eexists. unfold bb_Finish. rewrite bind_get. cbv zeta. rewrite put_fixed32s, B1, B2.
    unfold PutFixed32, block_bytes_of. rewrite length_fmap, wrapu_small by lia.
    by rewrite <-app_assoc.
Qed.
End building.

(** ** Opening *)

Lemma run_open_block `{UC : Comparator (list Z)} es points :
  block_wf es points →
  let data := block_bytes_of es points in
  let restarts := Z.of_nat (length (entries_bytes es)) in
  let num := Z.of_nat (length points) in
  new_Block data = Some (MkBlock data (Z.of_nat (length data)) restarts) ∧
  NewIterator (MkBlock data (Z.of_nat (length data)) restarts) =
    Some (NewIter data restarts num (MkBlockIter restarts num [] None None)).
Proof.
  intros Hwf. cbv zeta. pose proof (block_length es points) as Hl. cbv zeta in Hl.
  pose proof (wf_size _ _ Hwf) as Hsz.
  pose proof (num_pos es points Hwf) as Hnum.
  assert (NumRestarts (block_bytes_of es points) = Some (Z.of_nat (length points))) as En.
  { unfold NumRestarts. unfold block_bytes_of at 2. rewrite app_assoc, drop_app_length'.
    - rewrite <-(app_nil_r (EncodeFixed32 _)). apply fixed32_get_put. lia.
    - rewrite length_app, length_fixed32s, length_fmap. lia. }
  unfold new_Block, NewIterator, new_BlockIter. cbn [blk_size_ blk_data_ blk_restart_offset_]. rewrite En.
  rewrite (proj2 (Z.ltb_ge _ 4)) by lia. cbn [mbind option_bind].
  rewrite (proj2 (Z.ltb_ge _ _)) by (rewrite Hl; zdiv).
  rewrite (proj2 (Z.eqb_neq _ _)), (proj2 (Z.ltb_lt _ _)) by lia. cbn [mbind option_bind].
  split; [|done]. do 2 f_equal. rewrite wrapu_small; lia.
Qed.

(** ** Building and opening *)

Lemma run_build `{UC : Comparator (list Z)} `{!ComparatorLaws (list Z)} interval kvs :
  1 ≤ interval → Forall kv_ok kvs → keys_sorted kvs → kvs_size kvs < 2 ^ 32 →
  ∃ b0 es points b,
    new_BlockBuilder interval = Some b0 ∧ block_wf es points ∧ kvs = kvs_of es ∧
    (bb_add_all interval kvs;; bb_Finish) b0 = Done (block_bytes_of es points, b).
Proof.
  intros Hi Hk Hs Hsz. unfold new_BlockBuilder. rewrite (proj2 (Z.leb_le _ _)) by done.
  destruct (run_bb_add_all interval Hi kvs _ [] [O] (new_builds interval Hi) Hk Hs Hsz)
    as (b1 & es & points & E1 & Hb & Ek).
  rewrite app_nil_l in Ek. subst kvs.
  destruct (run_bb_Finish interval b1 es points Hb Hsz) as (Hwf & b2 & E2).
  eexists _, es, points, b2. split_and!; [done|done|done|]. bind_with E1. exact E2.
Qed.

(** ** The iterator as an object *)

Section object.
Context `{UC : Comparator (list Z)}.
Variables (data : list Z) (restarts num : Z) (kvs : entries) (R : option nat → BlockIter → Prop).

Definition object_at (p : option nat) (o : block_object) : Prop :=
  bo_data o = data ∧ bo_restarts o = restarts ∧ bo_num o = num ∧ R p (bo_iter o).

Lemma run_on_object {A} (c : block_object → M BlockIter A) o a it :
  c o (bo_iter o) = Done (a, it) →
  on_object c o = Done (a, MkBlockObject (bo_data o) (bo_restarts o) (bo_num o) it).
Proof. unfold on_object. by intros ->. Qed.

Lemma object_iter_over :
  iter_over (block_iter_ops data restarts num) any_target kvs R → iter_over block_object_ops any_target kvs object_at.
Proof.
  intros HI.
  assert (∀ (c : block_object → M BlockIter unit) o p q,
    object_at p o → (∃ it, c o (bo_iter o) = Done (tt, it) ∧ R q it) →
    ∃ o', on_object c o = Done (tt, o') ∧ object_at q o') as Hmove.
  { intros c o p q (Ed & Er & En & _) (it & E & Hq). eexists. split; [by apply run_on_object|]. done. }
  split; cbn [block_object_ops i_Valid i_SeekToFirst i_SeekToLast i_Seek i_Next i_Prev i_key i_value].
  - intros p o (<- & <- & <- & Hp). by apply (io_valid _ _ _ _ HI).
  - intros i o (_ & _ & _ & Hp). exact (io_bound _ _ _ _ HI i _ Hp).
  - intros i o k v (<- & <- & <- & Hp) E. destruct (io_entry _ _ _ _ HI i _ k v Hp E) as [Ek Ev].
    destruct o as [d r n it]. split; [by apply (run_on_object _ (MkBlockObject d r n it))|].
    by apply (run_on_object _ (MkBlockObject d r n it)).
  - intros p o Ho. apply (Hmove _ o p); [done|]. destruct Ho as (<- & <- & <- & Hp).
    exact (io_first _ _ _ _ HI p _ Hp).
  - intros p o Ho. apply (Hmove _ o p); [done|]. destruct Ho as (<- & <- & <- & Hp).
    exact (io_last _ _ _ _ HI p _ Hp).
  - intros p o target Ho Ht. apply (Hmove _ o p); [done|]. destruct Ho as (<- & <- & <- & Hp).
    exact (io_seek _ _ _ _ HI p _ target Hp Ht).
  - intros i o Ho. apply (Hmove _ o (Some i)); [done|]. destruct Ho as (<- & <- & <- & Hp).
    exact (io_next _ _ _ _ HI i _ Hp).
  - intros i o Ho. apply (Hmove _ o (Some i)); [done|]. destruct Ho as (<- & <- & <- & Hp).
    exact (io_prev _ _ _ _ HI i _ Hp).
Qed.
End object.

(** There are cursors over each list of entries that a block can keep. *)
Lemma block_cursor `{UC : Comparator (list Z)} `{!ComparatorLaws (list Z)} kvs :
  Forall kv_ok kvs → keys_sorted kvs → kvs_size kvs < 2 ^ 32 →
  ∃ (o : block_object) R, R None o ∧ iter_over block_object_ops any_target kvs R.
Proof.
  intros Hk Hs Hsz. destruct (run_build 16 kvs) as (b0 & es & points & b & _ & Hwf & -> & _); [lia|done..|].
  eexists (MkBlockObject _ _ _ (MkBlockIter _ (Z.of_nat (length points)) [] None None)), _.
  split; [|apply object_iter_over, (block_iter_over es points Hwf Hs)]. done.
Qed.

(** ** Theorems *)

(** C4: a block keeps a sorted list of entries: the assertions of the builder hold, the
    block that it writes is accepted, and an iterator over it is a cursor in the list,
    with the first and the last entry, the first entry that is not before a target, the
    next and the previous entry; it never reads outside of the block, and it ends. *)
Theorem block_refines `{UC : Comparator (list Z)} `{!ComparatorLaws (list Z)} interval kvs :
  1 ≤ interval → Forall kv_ok kvs → keys_sorted kvs → kvs_size kvs < 2 ^ 32 →
  ∃ b0 data b blk restarts num it R,
    new_BlockBuilder interval = Some b0 ∧
    (bb_add_all interval kvs;; bb_Finish) b0 = Done (data, b) ∧
    new_Block data = Some blk ∧ NewIterator blk = Some (NewIter data restarts num it) ∧
    R None it ∧ iter_over (block_iter_ops data restarts num) any_target kvs R ∧
    (∀ p it, R p it → bi_status_ it = None).
Proof.
  intros Hi Hk Hs Hsz.
  destruct (run_build interval kvs Hi Hk Hs Hsz) as (b0 & es & points & b & E0 & Hwf & Ek & Hb).
  destruct (run_open_block es points Hwf) as [Eb Ei]. subst kvs.
  eexists b0, _, b, _, _, _, _, (block_at es points). split_and!; [done|exact Hb|exact Eb|exact Ei|done| |].
  - by apply block_iter_over.
  - intros p it. apply block_at_status.
Qed.

(** [non_shared + value_length] is computed with 32 bits: an entry whose lengths wrap
    around to a small sum is accepted, and its key is read past the end of the block. *)
Theorem block_entry_overflow `{UC : Comparator (list Z)} :
  ∃ data blk restarts num it,
    new_Block data = Some blk ∧ NewIterator blk = Some (NewIter data restarts num it) ∧
    bi_SeekToFirst data restarts num it = Undef.
Proof.
  exists ([0; 0xff; 0xff; 0xff; 0xff; 0x0f; 1] ++ [0; 0; 0; 0] ++ [1; 0; 0; 0]).
  exists (MkBlock [0; 255; 255; 255; 255; 15; 1; 0; 0; 0; 0; 1; 0; 0; 0] 15 7), 7, 1,
    (MkBlockIter 7 1 [] None None).
  split_and!; vm_compute; reflexivity.
Qed.

(** ** Witness *)

Definition example_kvs : entries :=
  [([97; 98], [1]); ([97; 98; 99], [2]); ([98], [3]); ([98; 0], [4])].

Lemma block_refines_witness :
  ∃ data restarts num it it1 it2 it3,
    bi_Seek data restarts num [98] it = Done (tt, it1) ∧ bi_key restarts it1 = Done ([98], it1) ∧
    bi_Prev data restarts num it1 = Done (tt, it2) ∧ bi_key restarts it2 = Done ([97; 98; 99], it2) ∧
    bi_SeekToLast data restarts num it2 = Done (tt, it3) ∧
    bi_value data restarts it3 = Done ([4], it3).
Proof.
  destruct (block_refines 2 example_kvs) as (b0 & data & b & blk & restarts & num & it & R & _ & _ & _ & _ & H0 & HR & _).
  - done.
  - repeat constructor; simpl; unfold is_byte; lia.
  - unfold example_kvs, keys_sorted. repeat constructor; vm_compute; reflexivity.
  - by vm_compute.
  - destruct (io_seek _ _ _ _ HR None it [98] H0 Logic.I) as (it1 & E1 & H1). simpl in H1.
    destruct (io_prev _ _ _ _ HR _ it1 H1) as (it2 & E2 & H2).
    destruct (io_last _ _ _ _ HR _ it2 H2) as (it3 & E3 & H3). simpl in H3.
    exists data, restarts, num, it, it1, it2, it3. split_and!; try done.
    + by apply (io_entry _ _ _ _ HR 2 it1 [98] [3]).
    + by apply (io_entry _ _ _ _ HR 1 it2 [97; 98; 99] [2]).
    + by apply (io_entry _ _ _ _ HR 3 it3 [98; 0] [4]).
Defined.
