(* ===== verification/LdbMerger.v ===== *)
(** * leveldb: the merging iterator (table/iterator_wrapper.h, table/merger.cc)

    An iterator over several children that are any implementation of the interface. *)
From S2P Require Import Prelude SkipList SkipListSpec LdbFormat LdbIterator.

Section merger.
Context `{UC : Comparator (list Z)} {C : Type} `{I : IterOps C}.

(** ** Wrappers

    [valid_] and [key_] are kept beside the iterator. *)
Record IteratorWrapper := MkWrapper { w_iter_ : C; w_valid_ : bool; w_key_ : list Z }.

(** An operation of the iterator, on the wrapper. *)
Definition on_iter {A} (c : M C A) : M IteratorWrapper A := λ w,
  match c (w_iter_ w) with
  | Done (a, it) => Done (a, MkWrapper it (w_valid_ w) (w_key_ w))
  | Undef => Undef
  | NoFuel => NoFuel
  end.

Definition Update : M IteratorWrapper unit :=
  w ← get_state;
  let valid := i_Valid (w_iter_ w) in
  put_state (MkWrapper (w_iter_ w) valid (w_key_ w));;
  if valid then
    key ← on_iter i_key;
    w ← get_state;
    put_state (MkWrapper (w_iter_ w) (w_valid_ w) key)
  else mret tt.

(** [Set(iter)], on a wrapper that holds nothing. *)
Definition new_Wrapper (it : C) : outcome IteratorWrapper :=
  match Update (MkWrapper it false []) with
  | Done (_, w) => Done w
  | Undef => Undef
  | NoFuel => NoFuel
  end.

(** The functions of a wrapper, with those of [Iterator]. *)
#[export] Instance wrapper_ops : IterOps IteratorWrapper :=
  {| i_Valid := w_valid_;
     i_SeekToFirst := on_iter i_SeekToFirst;; Update;
     i_SeekToLast := on_iter i_SeekToLast;; Update;
     i_Seek k := on_iter (i_Seek k);; Update;
     i_Next := on_iter i_Next;; Update;
     i_Prev := on_iter i_Prev;; Update;
     i_key := w ← get_state; assert_ (w_valid_ w);; mret (w_key_ w);
     i_value := w ← get_state; assert_ (w_valid_ w);; on_iter i_value |}.

(** ** The merging iterator *)

(** [current_] is the number of a child; [direction_] is [kForward] or [kReverse]. *)
Record MergingIterator := MkMerging {
  children_ : list IteratorWrapper;
  current_ : option nat;
  forward_ : bool;
}.

(** A call of a child. *)
Definition on_child {A} (i : nat) (c : M IteratorWrapper A) : M MergingIterator A := λ m,
  match children_ m !! i with
  | Some w =>
      match c w with
      | Done (a, w') => Done (a, MkMerging (<[i := w']> (children_ m)) (current_ m) (forward_ m))
      | Undef => Undef
      | NoFuel => NoFuel
      end
  | None => Undef
  end.
Definition child_valid (i : nat) : M MergingIterator bool :=
  m ← get_state;
  w ← lift_option (children_ m !! i);
  mret (i_Valid w).

Definition set_current (c : option nat) : M MergingIterator unit :=
  m ← get_state; put_state (MkMerging (children_ m) c (forward_ m)).
Definition set_direction (forward : bool) : M MergingIterator unit :=
  m ← get_state; put_state (MkMerging (children_ m) (current_ m) forward).

(** [for (int i = 0; i < n_; i++)] *)
Fixpoint each_child (l : list nat) (body : nat → M MergingIterator unit) : M MergingIterator unit :=
  match l with
  | [] => mret tt
  | i :: l' => body i;; each_child l' body
  end.
Definition for_children (body : nat → M MergingIterator unit) : M MergingIterator unit :=
  m ← get_state; each_child (seq 0 (length (children_ m))) body.

(** The loops of [FindSmallest] and of [FindLargest], over the children that are left. *)
Fixpoint find_child (better : Z → bool) (l : list nat) (best : option nat)
    : M MergingIterator (option nat) :=
  match l with
  | [] => mret best
  | i :: l' =>
      valid ← child_valid i;
      if (valid : bool) then
        match best with
        | None => find_child better l' (Some i)
        | Some b =>
            key ← on_child i i_key;
            best_key ← on_child b i_key;
            find_child better l' (if better (compare_ key best_key) then Some i else Some b)
        end
      else find_child better l' best
  end.

Definition FindSmallest : M MergingIterator unit :=
  m ← get_state;
  smallest ← find_child (λ c, c <? 0) (seq 0 (length (children_ m))) None;
  set_current smallest.
Definition FindLargest : M MergingIterator unit :=
  m ← get_state;
  largest ← find_child (λ c, 0 <? c) (reverse (seq 0 (length (children_ m)))) None;
  set_current largest.

Definition merging_Valid (m : MergingIterator) : bool := bool_decide (is_Some (current_ m)).

(** A call of the current child. *)
Definition on_current {A} (c : M IteratorWrapper A) : M MergingIterator A :=
  m ← get_state;
  assert_ (merging_Valid m);;
  i ← lift_option (current_ m);
  on_child i c.
Definition merging_key : M MergingIterator (list Z) := on_current i_key.

Definition merging_SeekToFirst : M MergingIterator unit :=
  for_children (λ i, on_child i i_SeekToFirst);;
  FindSmallest;;
  set_direction true.
Definition merging_SeekToLast : M MergingIterator unit :=
  for_children (λ i, on_child i i_SeekToLast);;
  FindLargest;;
  set_direction false.
Definition merging_Seek (target : list Z) : M MergingIterator unit :=
  for_children (λ i, on_child i (i_Seek target));;
  FindSmallest;;
  set_direction true.

(** The body of the loop of [Next] when the direction changes. *)
Definition turn_forward (i : nat) : M MergingIterator unit :=
  m ← get_state;
  if bool_decide (current_ m = Some i) then mret tt
  else
    key ← merging_key;
    on_child i (i_Seek key);;
    valid ← child_valid i;
    if (valid : bool) then
      key ← merging_key;
      child_key ← on_child i i_key;
      if compare_ key child_key =? 0 then on_child i i_Next else mret tt
    else mret tt.

Definition merging_Next : M MergingIterator unit :=
  m ← get_state;
  assert_ (merging_Valid m);;
  (if negb (forward_ m) then for_children turn_forward;; set_direction true else mret tt);;
  on_current i_Next;;
  FindSmallest.

(** The body of the loop of [Prev] when the direction changes. *)
Definition turn_backward (i : nat) : M MergingIterator unit :=
  m ← get_state;
  if bool_decide (current_ m = Some i) then mret tt
  else
    key ← merging_key;
    on_child i (i_Seek key);;
    valid ← child_valid i;
    if (valid : bool) then on_child i i_Prev else on_child i i_SeekToLast.

Definition merging_Prev : M MergingIterator unit :=
  m ← get_state;
  assert_ (merging_Valid m);;
  (if forward_ m then for_children turn_backward;; set_direction false else mret tt);;
  on_current i_Prev;;
  FindLargest.

#[export] Instance merging_ops : IterOps MergingIterator :=
  {| i_Valid := merging_Valid;
     i_SeekToFirst := merging_SeekToFirst; i_SeekToLast := merging_SeekToLast;
     i_Seek := merging_Seek; i_Next := merging_Next; i_Prev := merging_Prev;
     i_key := merging_key; i_value := on_current i_value |}.

(** The constructor. *)
Fixpoint wrap_all (children : list C) : outcome (list IteratorWrapper) :=
  match children with
  | [] => Done []
  | it :: children' => w ← new_Wrapper it; ws ← wrap_all children'; Done (w :: ws)
  end.
Definition new_MergingIterator (children : list C) : outcome MergingIterator :=
  ws ← wrap_all children; Done (MkMerging ws None true).

(** [NewMergingIterator] *)
Inductive merged_iterator : Type :=
  | MergedEmpty
  | MergedOne (it : C)
  | MergedMany (m : MergingIterator).
Definition NewMergingIterator (children : list C) : outcome merged_iterator :=
  match children with
  | [] => Done MergedEmpty
  | [it] => Done (MergedOne it)
  | _ => m ← new_MergingIterator children; Done (MergedMany m)
  end.
End merger.
Arguments IteratorWrapper : clear implicits.
Arguments MergingIterator : clear implicits.
