(* ===== verification/LdbMergerSpec.v ===== *)
(** * leveldb: merging is merging

    The merging iterator over children that keep the contract of iterators keeps it
    too, for the sorted list of all their entries. *)
From stdpp Require Import sorting.
From S2P Require Import Prelude SkipList SkipListSpec LdbFormat LdbIterator LdbBlock LdbBlockSpec LdbMerger.

(** ** Wrappers *)

Section wrapper.
Context `{UC : Comparator (list Z)} {C : Type} `{I : IterOps C}.
Variables (T : list Z → Prop) (kvs : entries) (R : option nat → C → Prop).

Definition wrapped (p : option nat) (w : IteratorWrapper C) : Prop :=
  R p (w_iter_ w) ∧ w_valid_ w = bool_decide (is_Some p) ∧
  ∀ i k v, p = Some i → kvs !! i = Some (k, v) → w_key_ w = k.

Lemma run_on_iter {A} (c : M C A) w a it :
  c (w_iter_ w) = Done (a, it) → on_iter c w = Done (a, MkWrapper it (w_valid_ w) (w_key_ w)).
Proof. unfold on_iter. by intros ->. Qed.

Hypothesis HI : iter_over I T kvs R.

Lemma run_Update p w : R p (w_iter_ w) → ∃ w', Update w = Done (tt, w') ∧ wrapped p w'.
Proof.
  intros Hp. unfold Update. rewrite bind_get. cbv zeta. rewrite (io_valid _ _ _ _ HI _ _ Hp).
  destruct p as [i|].
  - pose proof (io_bound _ _ _ _ HI _ _ Hp) as Hi. destruct (lookup_lt_is_Some_2 kvs i Hi) as [[k v] E].
    destruct (io_entry _ _ _ _ HI i (w_iter_ w) k v Hp E) as [Ek _].
    rewrite bool_decide_eq_true_2 by done. rewrite (bind_done _ _ _ tt (MkWrapper (w_iter_ w) true (w_key_ w))) by done.
    rewrite (bind_done (on_iter i_key) _ _ _ _ (run_on_iter _ (MkWrapper (w_iter_ w) true (w_key_ w)) _ _ Ek)).
    eexists. split; [done|]. split_and!; [done|by rewrite bool_decide_eq_true_2|].
    intros i' k' v' [= <-] E'. rewrite E in E'. by injection E' as <- _.
  - rewrite bool_decide_eq_false_2 by (intros [? ?]; done). eexists. split; [done|].
    split_and!; [done|by rewrite bool_decide_eq_false_2; [|intros [? ?]]|done].
Qed.

(** Moving the iterator. *)
Lemma run_moved (c : M C unit) p q w :
  wrapped p w → (∃ s', c (w_iter_ w) = Done (tt, s') ∧ R q s') →
  ∃ w', (on_iter c;; Update) w = Done (tt, w') ∧ wrapped q w'.
Proof.
  intros _ (s' & E & Hq). bind_with (run_on_iter c w tt s' E). by apply run_Update.
Qed.

Lemma wrapper_iter_over : iter_over wrapper_ops T kvs wrapped.
Proof.
  split; cbn [wrapper_ops i_Valid i_SeekToFirst i_SeekToLast i_Seek i_Next i_Prev i_key i_value].
  - by intros p w (_ & Hv & _).
  - intros i w (Hw & _). by eapply io_bound.
  - intros i w k v (Hw & Hv & Hk) E.
    rewrite !bind_get, !bind_assert by (rewrite Hv; by apply bool_decide_eq_true_2).
    rewrite (Hk i k v eq_refl E). destruct (io_entry _ _ _ _ HI i (w_iter_ w) k v Hw E) as [_ Ev].
    split; [done|]. rewrite (run_on_iter _ _ _ _ Ev). by destruct w.
  - intros p w Hw. apply (run_moved _ p _ w Hw). by eapply io_first; [|apply Hw].
  - intros p w Hw. apply (run_moved _ p _ w Hw). by eapply io_last; [|apply Hw].
  - intros p w target Hw Ht. apply (run_moved _ p _ w Hw). by eapply io_seek; [|apply Hw|].
  - intros i w Hw. apply (run_moved _ _ _ w Hw). by eapply io_next; [|apply Hw].
  - intros i w Hw. apply (run_moved _ _ _ w Hw). by eapply io_prev; [|apply Hw].
Qed.

Lemma run_new_Wrapper p it : R p it → ∃ w, new_Wrapper it = Done w ∧ wrapped p w.
Proof.
  intros Hp. unfold new_Wrapper. destruct (run_Update p (MkWrapper it false []) Hp) as (w & -> & Hw).
  by exists w.
Qed.
End wrapper.

(** ** Children in their places *)

Section merging.
Context `{UC : Comparator (list Z)} `{!ComparatorLaws (list Z)} {C : Type} `{I : IterOps C}.
(** The entries of the children, and their sorted list. *)
Variables (T : list Z → Prop) (kvss : list entries) (Rs : nat → option nat → C → Prop) (kvs : entries).
Hypothesis HI : ∀ j l, kvss !! j = Some l → iter_over I T l (Rs j).
Hypothesis HT : ∀ i kv, kvs !! i = Some kv → T kv.1.
Hypothesis Hsorted : ∀ j l, kvss !! j = Some l → keys_sorted l.
Hypothesis Hkvs : keys_sorted kvs.
Hypothesis Hperm : kvs ≡ₚ concat kvss.

Let n := length kvss.
Let child_entries (j : nat) : entries := default [] (kvss !! j).

Lemma child_over j :
  (j < n)%nat → iter_over wrapper_ops T (child_entries j) (wrapped (child_entries j) (Rs j)).
Proof.
  intros Hj. destruct (lookup_lt_is_Some_2 kvss j Hj) as [l E]. unfold child_entries. rewrite E.
  by apply wrapper_iter_over, HI.
Qed.

Lemma child_sorted j : (j < n)%nat → keys_sorted (child_entries j).
Proof.
  intros Hj. destruct (lookup_lt_is_Some_2 kvss j Hj) as [l E]. unfold child_entries. rewrite E.
  by eapply Hsorted.
Qed.

(** The position of each child. *)
Definition placed (pos : nat → option nat) (ws : list (IteratorWrapper C)) : Prop :=
  length ws = n ∧
  ∀ j, (j < n)%nat → ∃ w, ws !! j = Some w ∧ wrapped (child_entries j) (Rs j) (pos j) w.

Lemma placed_ext pos pos' ws : (∀ j, (j < n)%nat → pos j = pos' j) → placed pos ws → placed pos' ws.
Proof.
  intros E [Hl Hp]. split; [done|]. intros j Hj. rewrite <-E by done. by apply Hp.
Qed.

(** A child that moves. *)
Definition moved (pos : nat → option nat) (j : nat) (p : option nat) : nat → option nat :=
  λ i, if decide (i = j) then p else pos i.

Lemma run_on_child {A} pos j (c : M (IteratorWrapper C) A) m a q :
  placed pos (children_ m) → (j < n)%nat →
  (∀ w, wrapped (child_entries j) (Rs j) (pos j) w →
    ∃ w', c w = Done (a, w') ∧ wrapped (child_entries j) (Rs j) q w') →
  ∃ ws, on_child j c m = Done (a, MkMerging ws (current_ m) (forward_ m)) ∧
    placed (moved pos j q) ws.
Proof.
  intros [Hl Hp] Hj Hc. destruct (Hp j Hj) as (w & E & Hw). destruct (Hc w Hw) as (w' & E' & Hw').
  exists (<[j := w']> (children_ m)). unfold on_child. rewrite E, E'. split; [done|].
  split; [by rewrite length_insert|]. intros i Hi. unfold moved. destruct (decide (i = j)) as [->|].
  - exists w'. split; [apply list_lookup_insert_eq; lia|done].
  - destruct (Hp i Hi) as (wi & Ei & Hwi). exists wi. by rewrite list_lookup_insert_ne.
Qed.

(** The key of a child. *)
Definition child_kv (pos : nat → option nat) (j : nat) : option (list Z * list Z) :=
  i ← pos j; child_entries j !! i.

Lemma child_kv_bound pos ws j i :
  placed pos ws → (j < n)%nat → pos j = Some i → ∃ kv, child_kv pos j = Some kv.
Proof.
  intros [_ Hp] Hj E. destruct (Hp j Hj) as (w & _ & Hw). rewrite E in Hw.
  pose proof (io_bound _ _ _ _ (child_over j Hj) _ _ Hw) as Hi.
  unfold child_kv. rewrite E. by apply lookup_lt_is_Some_2.
Qed.

Lemma run_child_valid pos m j :
  placed pos (children_ m) → (j < n)%nat →
  child_valid j m = Done (bool_decide (is_Some (pos j)), m).
Proof.
  intros [_ Hp] Hj. destruct (Hp j Hj) as (w & E & Hw). unfold child_valid.
  rewrite bind_get, (bind_lift _ _ _ _ E). by rewrite (io_valid _ _ _ _ (child_over j Hj) _ _ Hw).
Qed.

(** Reading a child leaves it where it is. *)
Lemma run_child_entry pos m j k v :
  placed pos (children_ m) → (j < n)%nat → child_kv pos j = Some (k, v) →
  on_child j i_key m = Done (k, m) ∧ on_child j i_value m = Done (v, m).
Proof.
  intros [_ Hp] Hj E. destruct (Hp j Hj) as (w & Ew & Hw). unfold child_kv in E.
  destruct (pos j) as [i|]; [|done].
  destruct (io_entry _ _ _ _ (child_over j Hj) i w k v Hw E) as [Ek Ev].
  unfold on_child. rewrite Ew, Ek, Ev, list_insert_id by done. by destruct m.
Qed.

(** ** The least and the greatest child *)

(** The order for [FindSmallest], and the reverse one for [FindLargest]. *)
Lemma run_find_child better dir pos m l : ∀ best,
  placed pos (children_ m) → (∀ i, i ∈ l → (i < n)%nat) →
  (∀ c, better c = (dir * c <? 0)) → dir = 1 ∨ dir = -1 →
  (∀ b, best = Some b → (b < n)%nat ∧ is_Some (child_kv pos b)) →
  ∃ r, find_child better l best m = Done (r, m) ∧
    (r = None → best = None ∧ ∀ i, i ∈ l → pos i = None) ∧
    (∀ b, r = Some b → (b < n)%nat ∧ ∃ kv, child_kv pos b = Some kv ∧
      ∀ i kv', i ∈ l ∨ best = Some i → child_kv pos i = Some kv' →
        dir * compare_ kv.1 kv'.1 ≤ 0).
Proof.
  induction l as [|i l IH]; intros best Hp Hl Hb Hd Hbest.
  { exists best. split_and!; [done| |].
    - intros ->. split; [done|]. intros i Hi. by apply not_elem_of_nil in Hi.
    - intros b ->. destruct (Hbest b eq_refl) as [Hbn [kv Ekv]]. split; [done|]. exists kv.
      split; [done|]. intros i kv' [Hi|[= <-]] E'; [by apply not_elem_of_nil in Hi|].
      rewrite Ekv in E'. injection E' as <-. rewrite compare_refl. lia. }
  assert (i < n)%nat as Hi by (apply Hl; left).
  assert (∀ i', i' ∈ l → (i' < n)%nat) as Hl' by (intros; apply Hl; by right).
  cbn [find_child]. bind_with (run_child_valid pos m i Hp Hi).
  destruct (pos i) as [p|] eqn:Ep.
  2: { rewrite bool_decide_eq_false_2 by (by intros [? ?]).
       destruct (IH best Hp Hl' Hb Hd Hbest) as (r & E & Hn & Hs). exists r. split_and!; [done| |].
       - intros Hr. destruct (Hn Hr) as [-> H]. split; [done|].
         intros i' [->|Hi']%elem_of_cons; [done|by apply H].
       - intros b Eb. destruct (Hs b Eb) as (Hbn & kv & Ekv & H). split; [done|]. exists kv.
         split; [done|]. intros i' kv' [[->|Hi']%elem_of_cons|Hi'] E'; [|by eapply H; [left|]|by eapply H; [right|]].
         unfold child_kv in E'. by rewrite Ep in E'. }
  rewrite bool_decide_eq_true_2 by done.
  destruct (child_kv_bound pos _ i p Hp Hi Ep) as [[k v] Ekv].
  destruct best as [b|].
  - destruct (Hbest b eq_refl) as [Hbn [[kb vb] Ekb]].
    bind_with (proj1 (run_child_entry pos m i k v Hp Hi Ekv)).
    bind_with (proj1 (run_child_entry pos m b kb vb Hp Hbn Ekb)). rewrite Hb.
    destruct (IH (if dir * compare_ k kb <? 0 then Some i else Some b) Hp Hl' Hb Hd)
      as (r & E & Hn & Hs).
    { destruct (_ <? 0); intros b' [= <-]; by eauto. }
    exists r. split_and!; [done| |].
    + intros Hr. destruct (Hn Hr) as [H _]. by destruct (_ <? 0).
    + intros b' Eb'. destruct (Hs b' Eb') as (Hb'n & kv & Ekv' & H). split; [done|]. exists kv.
      split; [done|]. pose proof (H i (k, v)) as Hki. pose proof (H b (kb, vb)) as Hkb. simpl in Hki, Hkb.
      assert (dir * compare_ kv.1 k ≤ 0 ∧ dir * compare_ kv.1 kb ≤ 0) as [H1 H2].
      { pose proof (compare_sym kv.1 k). pose proof (compare_sym k kv.1).
        pose proof (compare_sym kv.1 kb). pose proof (compare_sym kb kv.1).
        pose proof (compare_sym k kb). pose proof (compare_sym kb k).
        pose proof (compare_trans kv.1 k kb). pose proof (compare_trans kv.1 kb k).
        pose proof (compare_trans k kb kv.1). pose proof (compare_trans kb k kv.1).
        destruct (Z.ltb_spec (dir * compare_ k kb) 0).
        - specialize (Hki (or_intror eq_refl) Ekv). split; [done|]. destruct Hd; subst dir; lia.
        - specialize (Hkb (or_intror eq_refl) Ekb). split; [|done]. destruct Hd; subst dir; lia. }
      intros i' kv' [[->|Hi']%elem_of_cons|[= ->]] E'.
      * rewrite Ekv in E'. by injection E' as <-.
      * by eapply H; [left|].
      * rewrite Ekb in E'. by injection E' as <-.
  - destruct (IH (Some i) Hp Hl' Hb Hd) as (r & E & Hn & Hs).
    { intros b [= <-]. by eauto. }
    exists r. split_and!; [done| |].
    + intros Hr. by destruct (Hn Hr).
    + intros b' Eb'. destruct (Hs b' Eb') as (Hb'n & kv & Ekv' & H). split; [done|]. exists kv.
      split; [done|]. intros i' kv' [[->|Hi']%elem_of_cons|Hi'] E'; [|by eapply H; [left|]|done].
      by eapply H; [right|].
Qed.

(** ** The entries of all the children *)

Lemma entry_in j i kv : (j < n)%nat → child_entries j !! i = Some kv → kv ∈ kvs.
Proof.
  intros Hj E. rewrite Hperm. destruct (lookup_lt_is_Some_2 kvss j Hj) as [l El].
  unfold child_entries in E. rewrite El in E. apply list_elem_of_concat. exists l.
  split; by eapply list_elem_of_lookup_2.
Qed.

Lemma in_child kv : kv ∈ kvs → ∃ j i, (j < n)%nat ∧ child_entries j !! i = Some kv.
Proof.
  rewrite Hperm. intros (l & El & Hin)%list_elem_of_concat.
  apply list_elem_of_lookup_1 in Hin as [j Ej]. apply list_elem_of_lookup_1 in El as [i Ei].
  exists j, i. split; [by eapply lookup_lt_Some|]. unfold child_entries. by rewrite Ej.
Qed.

Lemma child_index j i kv :
  (j < n)%nat → child_entries j !! i = Some kv →
  concat kvss !! (length (concat (take j kvss)) + i)%nat = Some kv ∧
  (length (concat (take j kvss)) + i < length (concat (take (S j) kvss)))%nat.
Proof.
  intros Hj E. destruct (lookup_lt_is_Some_2 kvss j Hj) as [l El].
  unfold child_entries in E. rewrite El in E. simpl in E. split.
  - assert (concat kvss = concat (take j kvss) ++ l ++ concat (drop (S j) kvss)) as ->
      by (rewrite <-(take_drop_middle kvss j l El) at 1; by rewrite concat_app).
    rewrite lookup_app_r, Nat.add_comm, Nat.add_sub by lia. by apply lookup_app_l_Some.
  - rewrite (take_S_r _ _ _ El), concat_app, length_app. simpl. rewrite app_nil_r.
    apply lookup_lt_Some in E. lia.
Qed.

Lemma concat_take_le j1 j2 :
  (j1 ≤ j2)%nat → (length (concat (take j1 kvss)) ≤ length (concat (take j2 kvss)))%nat.
Proof.
  intros Hj. replace j1 with (j1 `min` j2)%nat by lia. rewrite <-take_take.
  rewrite <-(take_drop j1 (take j2 kvss)) at 2. rewrite concat_app, length_app. lia.
Qed.

(** No two children have the same key. *)
Lemma children_distinct j1 j2 i1 i2 kv1 kv2 :
  (j1 < n)%nat → (j2 < n)%nat → child_entries j1 !! i1 = Some kv1 → child_entries j2 !! i2 = Some kv2 →
  compare_ kv1.1 kv2.1 = 0 → j1 = j2.
Proof.
  intros Hj1 Hj2 E1 E2 Hc.
  destruct (child_index j1 i1 kv1 Hj1 E1) as [F1 G1]. destruct (child_index j2 i2 kv2 Hj2 E2) as [F2 G2].
  destruct (proj1 (Permutation_inj (concat kvss) kvs)) as (_ & f & Hf & Hl); [by symmetry|].
  rewrite Hl in F1, F2. set (x1 := (_ + i1)%nat) in *. set (x2 := (_ + i2)%nat) in *.
  assert (f x1 = f x2) as E.
  { destruct (Nat.lt_trichotomy (f x1) (f x2)) as [Hlt|[|Hlt]]; [|done|].
    - pose proof (keys_sorted_lookup _ _ _ _ _ Hkvs F1 F2 Hlt). lia.
    - pose proof (keys_sorted_lookup _ _ _ _ _ Hkvs F2 F1 Hlt) as H. apply compare_sym in H. lia. }
  apply Hf in E. destruct (Nat.lt_trichotomy j1 j2) as [Hlt|[|Hlt]]; [|done|].
  - pose proof (concat_take_le (S j1) j2 Hlt). lia.
  - pose proof (concat_take_le (S j2) j1 Hlt). lia.
Qed.

(** ** Looking for the next and the previous entry *)

Definition cut_pos (P : list Z → bool) (j : nat) : option nat :=
  at_pos (child_entries j) (cut P (child_entries j)).
Definition before_pos (P : list Z → bool) (j : nat) : option nat :=
  prev_pos (cut P (child_entries j)).

Lemma cut_child P pos j kv :
  (j < n)%nat → pos j = cut_pos P j → child_kv pos j = Some kv →
  kv ∈ kvs ∧ P kv.1 = false ∧
  ∀ i kv', child_entries j !! i = Some kv' → P kv'.1 = false → initial P →
    compare_ kv.1 kv'.1 ≤ 0.
Proof.
  intros Hj Ep E. unfold child_kv in E. rewrite Ep in E. unfold cut_pos, at_pos in E.
  destruct (Nat.ltb_spec (cut P (child_entries j)) (length (child_entries j))); [|done]. simpl in E.
  split_and!; [by eapply entry_in|by apply (cut_at P) in E|]. intros i kv' E' HP Hinit.
  apply (cut_least_le P _ kv (child_sorted j Hj) Hinit E); [by eapply list_elem_of_lookup_2|done].
Qed.

Lemma before_child P pos j kv :
  (j < n)%nat → pos j = before_pos P j → child_kv pos j = Some kv →
  kv ∈ kvs ∧ P kv.1 = true ∧
  ∀ i kv', child_entries j !! i = Some kv' → P kv'.1 = true → initial P → compare_ kv'.1 kv.1 ≤ 0.
Proof.
  intros Hj Ep E. unfold child_kv in E. rewrite Ep in E. unfold before_pos in E.
  destruct (cut P (child_entries j)) as [|p] eqn:Ec; [done|]. simpl in E.
  split_and!; [by eapply entry_in|apply (cut_below P _ _ _ E); lia|]. intros i kv' E' HP Hinit.
  apply (cut_greatest_le P _ kv p (child_sorted j Hj) Hinit Ec E); [by eapply list_elem_of_lookup_2|done].
Qed.

Lemma run_FindSmallest P pos m :
  placed pos (children_ m) → initial P → (∀ j, (j < n)%nat → pos j = cut_pos P j) →
  ∃ r, FindSmallest m = Done (tt, MkMerging (children_ m) r (forward_ m)) ∧
    if decide (cut P kvs < length kvs)%nat
    then ∃ c, r = Some c ∧ (c < n)%nat ∧ ∃ kv, kvs !! cut P kvs = Some kv ∧ child_kv pos c = Some kv
    else r = None.
Proof.
  intros Hp HP Hpos. unfold FindSmallest. rewrite bind_get.
  destruct (run_find_child (λ c, c <? 0) 1 pos m (seq 0 (length (children_ m))) None Hp) as (r & E & Hn & Hs).
  { intros i Hi. apply elem_of_seq in Hi as [_ Hi]. by rewrite (proj1 Hp) in Hi. }
  { intros c. f_equal. lia. }
  { by left. }
  { done. }
  exists r. split; [by bind_with E|].
  destruct r as [c|].
  - destruct (Hs c eq_refl) as (Hc & kv & Ekv & Hmin).
    destruct (cut_child P pos c kv Hc (Hpos c Hc) Ekv) as (Hin & HPk & _).
    assert (kvs !! cut P kvs = Some kv) as Ecut.
    { apply cut_least; [done|done|done|done|]. intros kv' Hin' HP'.
      destruct (in_child kv' Hin') as (j & i & Hj & Ej).
      assert (∃ kj, child_kv pos j = Some kj) as [kj Ekj].
      { unfold child_kv. rewrite (Hpos j Hj). unfold cut_pos, at_pos.
        destruct (Nat.ltb_spec (cut P (child_entries j)) (length (child_entries j))) as [Hlt|Hge].
        - by apply lookup_lt_is_Some_2.
        - pose proof (lookup_lt_Some _ _ _ Ej). pose proof (cut_le P (child_entries j)).
          rewrite (cut_below P _ _ _ Ej) in HP' by lia. done. }
      destruct (cut_child P pos j kj Hj (Hpos j Hj) Ekj) as (_ & _ & Hfirst).
      specialize (Hmin j kj). rewrite Z.mul_1_l in Hmin.
      eapply compare_trans; [apply Hmin; [left|done]|by eapply Hfirst].
      apply elem_of_seq. rewrite (proj1 Hp). lia. }
    rewrite decide_True by (by eapply lookup_lt_Some). exists c. split_and!; [done|done|by exists kv].
  - destruct (Hn eq_refl) as [_ Hnone]. rewrite decide_False; [done|].
    rewrite cut_none; [lia|]. intros kv Hin. destruct (in_child kv Hin) as (j & i & Hj & Ej).
    specialize (Hnone j). rewrite (Hpos j Hj) in Hnone. unfold cut_pos, at_pos in Hnone.
    destruct (Nat.ltb_spec (cut P (child_entries j)) (length (child_entries j))).
    + specialize (Hnone ltac:(apply elem_of_seq; rewrite (proj1 Hp); lia)). done.
    + apply (cut_below P _ i kv Ej). pose proof (lookup_lt_Some _ _ _ Ej). lia.
Qed.

Lemma run_FindLargest P pos m :
  placed pos (children_ m) → initial P → (∀ j, (j < n)%nat → pos j = before_pos P j) →
  ∃ r, FindLargest m = Done (tt, MkMerging (children_ m) r (forward_ m)) ∧
    match cut P kvs with
    | S i => ∃ c, r = Some c ∧ (c < n)%nat ∧ ∃ kv, kvs !! i = Some kv ∧ child_kv pos c = Some kv
    | O => r = None
    end.
Proof.
  intros Hp HP Hpos. unfold FindLargest. rewrite bind_get.
  destruct (run_find_child (λ c, 0 <? c) (-1) pos m (reverse (seq 0 (length (children_ m)))) None Hp)
    as (r & E & Hn & Hs).
  { intros i Hi. apply elem_of_reverse, elem_of_seq in Hi as [_ Hi]. by rewrite (proj1 Hp) in Hi. }
  { intros c. destruct (Z.ltb_spec 0 c), (Z.ltb_spec (-1 * c) 0); lia. }
  { by right. }
  { done. }
  exists r. split; [by bind_with E|].
  destruct r as [c|].
  - destruct (Hs c eq_refl) as (Hc & kv & Ekv & Hmax).
    destruct (before_child P pos c kv Hc (Hpos c Hc) Ekv) as (Hin & HPk & _).
    destruct (cut_greatest P kvs kv) as (i & -> & Ei); [done..| |].
    { intros kv' Hin' HP'. destruct (in_child kv' Hin') as (j & x & Hj & Ej).
      assert (∃ kj, child_kv pos j = Some kj) as [kj Ekj].
      { unfold child_kv. rewrite (Hpos j Hj). unfold before_pos.
        destruct (cut P (child_entries j)) as [|p] eqn:Ec.
        - destruct (child_entries j) as [|kv0 l] eqn:El; [done|]. exfalso. simpl in Ec.
          destruct (P kv0.1) eqn:E0; [done|]. assert (P kv0.1 = true); [|congruence].
          apply (HP _ kv'.1); [|done]. pose proof (child_sorted j Hj) as Hsj. rewrite El in Hsj.
          destruct x as [|x]; [injection Ej as <-; by rewrite compare_refl|].
          pose proof (keys_sorted_lookup _ 0 (S x) kv0 kv' Hsj eq_refl Ej ltac:(lia)). lia.
        - apply lookup_lt_is_Some_2. pose proof (cut_le P (child_entries j)). lia. }
      destruct (before_child P pos j kj Hj (Hpos j Hj) Ekj) as (_ & _ & Hlast).
      assert (compare_ kj.1 kv.1 ≤ 0) as Hle.
      { specialize (Hmax j kj). pose proof (compare_sym kj.1 kv.1). pose proof (compare_sym kv.1 kj.1).
        assert (-1 * compare_ kv.1 kj.1 ≤ 0); [|lia]. apply Hmax; [left|done].
        apply elem_of_reverse, elem_of_seq. rewrite (proj1 Hp). lia. }
      eapply compare_trans; [|exact Hle]. by eapply Hlast. }
    exists c. split_and!; [done|done|by exists kv].
  - destruct (Hn eq_refl) as [_ Hnone]. rewrite cut_zero; [done|]. intros kv Hin.
    destruct (in_child kv Hin) as (j & i & Hj & Ej). destruct (P kv.1) eqn:HPk; [|done].
    specialize (Hnone j). rewrite (Hpos j Hj) in Hnone. unfold before_pos in Hnone.
    destruct (cut P (child_entries j)) as [|p] eqn:Ec.
    + destruct (child_entries j) as [|kv0 l] eqn:El; [done|]. simpl in Ec.
      destruct (P kv0.1) eqn:E0; [done|]. assert (P kv0.1 = true); [|congruence].
      apply (HP _ kv.1); [|done]. pose proof (child_sorted j Hj) as Hsj. rewrite El in Hsj.
      destruct i as [|i]; [injection Ej as <-; by rewrite compare_refl|].
      pose proof (keys_sorted_lookup _ 0 (S i) kv0 kv Hsj eq_refl Ej ltac:(lia)). lia.
    + specialize (Hnone ltac:(apply elem_of_reverse, elem_of_seq; rewrite (proj1 Hp); lia)). done.
Qed.

(** ** Moving all the children *)

(** The children before [j] have moved. *)
Definition mixed (pos pos' : nat → option nat) (j : nat) : nat → option nat :=
  λ i, if (i <? j)%nat then pos' i else pos i.

Lemma run_each_child body pos pos' cur dir d : ∀ j ws,
  (∀ j ws, (j < n)%nat → placed (mixed pos pos' j) ws →
    ∃ ws', body j (MkMerging ws cur dir) = Done (tt, MkMerging ws' cur dir) ∧
      placed (moved (mixed pos pos' j) j (pos' j)) ws') →
  (j + d = n)%nat → placed (mixed pos pos' j) ws →
  ∃ ws', each_child (seq j d) body (MkMerging ws cur dir) = Done (tt, MkMerging ws' cur dir) ∧
    placed pos' ws'.
Proof.
  induction d as [|d IH]; intros j ws Hbody Hj Hp.
  { exists ws. split; [done|]. eapply placed_ext; [|exact Hp]. intros i Hi. unfold mixed.
    by rewrite (proj2 (Nat.ltb_lt _ _)) by lia. }
  cbn [seq each_child]. destruct (Hbody j ws ltac:(lia) Hp) as (ws1 & E1 & Hp1).
  destruct (IH (S j) ws1 Hbody ltac:(lia)) as (ws' & E & Hp').
  - eapply placed_ext; [|exact Hp1]. intros i Hi. unfold moved, mixed.
    destruct (decide (i = j)) as [->|]; [by rewrite (proj2 (Nat.ltb_lt _ _)) by lia|].
    by destruct (Nat.ltb_spec i j), (Nat.ltb_spec i (S j)); try lia.
  - exists ws'. split; [by bind_with E1|done].
Qed.

Lemma run_for_children body pos pos' m :
  placed pos (children_ m) →
  (∀ j ws, (j < n)%nat → placed (mixed pos pos' j) ws →
    ∃ ws', body j (MkMerging ws (current_ m) (forward_ m)) =
        Done (tt, MkMerging ws' (current_ m) (forward_ m)) ∧
      placed (moved (mixed pos pos' j) j (pos' j)) ws') →
  ∃ ws', for_children body m = Done (tt, MkMerging ws' (current_ m) (forward_ m)) ∧
    placed pos' ws'.
Proof.
  intros Hp Hbody. unfold for_children. rewrite bind_get.
  destruct m as [ws cur dir]; cbn [children_ current_ forward_] in *.
  rewrite (proj1 Hp). apply (run_each_child body pos pos' cur dir n 0 ws Hbody eq_refl).
  eapply placed_ext; [|exact Hp]. done.
Qed.

(** The same operation on each child. *)
Lemma run_all_children (c : M (IteratorWrapper C) unit) pos pos' m :
  placed pos (children_ m) →
  (∀ j w, (j < n)%nat → wrapped (child_entries j) (Rs j) (pos j) w →
    ∃ w', c w = Done (tt, w') ∧ wrapped (child_entries j) (Rs j) (pos' j) w') →
  ∃ ws', for_children (λ j, on_child j c) m = Done (tt, MkMerging ws' (current_ m) (forward_ m)) ∧
    placed pos' ws'.
Proof.
  intros Hp Hc. apply (run_for_children _ pos); [done|]. intros j ws Hj Hpj.
  apply (run_on_child _ j c (MkMerging ws _ _) tt (pos' j) Hpj Hj).
  intros w Hw. apply Hc; [done|]. unfold mixed in Hw. by rewrite Nat.ltb_irrefl in Hw.
Qed.

(** The merging iterator at a position of the merged list: around the key of the current
    child, the other children are after it or before it, depending on the direction. *)
Definition merging_at (p : option nat) (m : MergingIterator C) : Prop :=
  ∃ pos, placed pos (children_ m) ∧
  match p with
  | None => current_ m = None
  | Some i => ∃ c kv, current_ m = Some c ∧ (c < n)%nat ∧ kvs !! i = Some kv ∧
      child_kv pos c = Some kv ∧
      ∀ j, (j < n)%nat → j ≠ c →
        pos j = if forward_ m then cut_pos (below kv.1) j else before_pos (below kv.1) j
  end.

Lemma at_pos_cut P : at_pos kvs (cut P kvs) = if decide (cut P kvs < length kvs)%nat
  then Some (cut P kvs) else None.
Proof. unfold at_pos. by destruct (Nat.ltb_spec (cut P kvs) (length kvs)), (decide _); try lia. Qed.

(** The children around the key of the current one. *)
Lemma cut_around pos c kv j :
  (c < n)%nat → (j < n)%nat → child_kv pos c = Some kv → j ≠ c →
  ∀ i kv', child_entries j !! i = Some kv' → compare_ kv'.1 kv.1 ≠ 0.
Proof.
  intros Hc Hj E Hne i kv' E' H0. unfold child_kv in E. destruct (pos c) as [p|]; [|done].
  apply Hne. by eapply children_distinct.
Qed.

Lemma cut_same pos c kv j :
  (c < n)%nat → (j < n)%nat → child_kv pos c = Some kv → j ≠ c →
  cut_pos (below kv.1) j = cut_pos (up_to kv.1) j.
Proof.
  intros Hc Hj E Hne. unfold cut_pos. f_equal. apply cut_unique; [apply cut_le| |].
  - intros i kv' E' Hi. pose proof (cut_below _ _ _ _ E' Hi) as H. apply Z.leb_le in H.
    apply Z.ltb_lt. pose proof (cut_around pos c kv j Hc Hj E Hne i kv' E'). lia.
  - intros kv' E'. apply cut_at in E'. apply Z.leb_gt in E'. apply Z.ltb_ge. lia.
Qed.

Lemma cut_pos_current pos c kv :
  (c < n)%nat → child_kv pos c = Some kv → ∃ i, pos c = Some i ∧
    cut (below kv.1) (child_entries c) = i ∧ cut (up_to kv.1) (child_entries c) = S i.
Proof.
  intros Hc E. unfold child_kv in E. destruct (pos c) as [i|]; [|done]. exists i. split; [done|].
  destruct kv as [k v]. by apply (cut_at_key _ i k v (child_sorted c Hc)).
Qed.

(** After a search for the least child: at the first entry that does not satisfy [P]. *)
Lemma found_smallest P pos m :
  placed pos (children_ m) → initial P → (∀ j, (j < n)%nat → pos j = cut_pos P j) →
  ∃ m', (FindSmallest;; set_direction true) m = Done (tt, m') ∧ merging_at (at_pos kvs (cut P kvs)) m' ∧
  (forward_ m = true → FindSmallest m = Done (tt, m')).
Proof.
  intros Hp HP Hpos. destruct (run_FindSmallest P pos m Hp HP Hpos) as (r & E & Hr).
  exists (MkMerging (children_ m) r true). split_and!; [by bind_with E| |intros <-; done].
  rewrite at_pos_cut. exists pos. split; [done|]. destruct (decide _).
  - destruct Hr as (c & -> & Hc & kv & Ekv & Eck). exists c, kv. split_and!; [done..|].
    intros j Hj Hne. cbn [forward_]. rewrite (Hpos j Hj). unfold cut_pos. f_equal.
    destruct (cut_child P pos c kv Hc (Hpos c Hc) Eck) as (_ & HPk & _).
    symmetry. apply cut_unique; [apply cut_le| |].
    + intros i kv' E' Hi. pose proof (cut_below _ _ _ _ E' Hi) as H. apply Z.ltb_lt.
      destruct (decide (compare_ kv'.1 kv.1 < 0)) as [|Hge]; [done|].
      assert (P kv.1 = true); [|congruence]. apply (HP _ kv'.1); [|done]. by apply compare_nlt.
    + intros kv' E'. pose proof (cut_at _ _ _ E') as H.
      pose proof (cut_least_le P kvs kv Hkvs HP Ekv kv') as Hle. apply Z.ltb_ge.
      apply compare_nlt_ge, Hle; [by eapply entry_in|done].
  - by rewrite Hr.
Qed.

Lemma found_largest P pos m :
  placed pos (children_ m) → initial P → (∀ j, (j < n)%nat → pos j = before_pos P j) →
  ∃ m', (FindLargest;; set_direction false) m = Done (tt, m') ∧ merging_at (prev_pos (cut P kvs)) m' ∧
  (forward_ m = false → FindLargest m = Done (tt, m')).
Proof.
  intros Hp HP Hpos. destruct (run_FindLargest P pos m Hp HP Hpos) as (r & E & Hr).
  exists (MkMerging (children_ m) r false). split_and!; [by bind_with E| |intros <-; done].
  exists pos. split; [done|]. destruct (cut P kvs) as [|i] eqn:Ecut; simpl; [by rewrite Hr|].
  destruct Hr as (c & -> & Hc & kv & Ekv & Eck). exists c, kv. split_and!; [done..|].
  intros j Hj Hne. rewrite (Hpos j Hj). unfold before_pos. f_equal.
  destruct (before_child P pos c kv Hc (Hpos c Hc) Eck) as (_ & HPk & _).
  symmetry. apply cut_unique; [apply cut_le| |].
  - intros x kv' E' Hx. pose proof (cut_below _ _ _ _ E' Hx) as H. apply Z.ltb_lt.
    pose proof (cut_greatest_le P kvs kv i Hkvs HP Ecut Ekv kv' (entry_in j x kv' Hj E') H).
    pose proof (cut_around pos c kv j Hc Hj Eck Hne x kv' E'). lia.
  - intros kv' E'. pose proof (cut_at _ _ _ E') as H. apply Z.ltb_ge.
    destruct (Z.ltb_spec (compare_ kv'.1 kv.1) 0); [|lia].
    assert (P kv'.1 = true); [|congruence]. apply (HP _ kv.1); [lia|done].
Qed.

(** The key of the current child. *)
Lemma run_on_current {A} (c : M (IteratorWrapper C) A) m j a m' :
  current_ m = Some j → on_child j c m = Done (a, m') → on_current c m = Done (a, m').
Proof.
  intros Ec E. unfold on_current, merging_Valid. rewrite bind_get, Ec.
  by rewrite bind_assert, (bind_lift _ j) by (by rewrite ?bool_decide_eq_true_2).
Qed.

Lemma run_merging_entry q m c kv :
  placed q (children_ m) → current_ m = Some c → (c < n)%nat → child_kv q c = Some kv →
  merging_key m = Done (kv.1, m) ∧ on_current i_value m = Done (kv.2, m).
Proof.
  intros Hp Ec Hc E. destruct kv as [k v]. destruct (run_child_entry q m c k v Hp Hc E).
  split; by apply (run_on_current _ _ c _ _ Ec).
Qed.

(** Turning around: the current child stays, and the others go to the other side. *)
Definition turned (pos : nat → option nat) (c : nat) (pos' : nat → option nat) : nat → option nat :=
  λ j, if decide (j = c) then pos c else pos' j.

Lemma mixed_current pos pos' c j : mixed pos (turned pos c pos') j c = pos c.
Proof. unfold mixed, turned. destruct (_ <? _)%nat; [by rewrite decide_True|done]. Qed.

Lemma run_turn (body : nat → M (MergingIterator C) unit) pos' pos m c kv :
  placed pos (children_ m) → current_ m = Some c → (c < n)%nat → child_kv pos c = Some kv →
  (∀ m, current_ m = Some c → body c m = Done (tt, m)) →
  (∀ j q m, (j < n)%nat → j ≠ c → placed q (children_ m) → current_ m = Some c →
    merging_key m = Done (kv.1, m) → q c = pos c →
    ∃ ws', body j m = Done (tt, MkMerging ws' (current_ m) (forward_ m)) ∧
      placed (moved q j (pos' j)) ws') →
  ∃ ws', for_children body m = Done (tt, MkMerging ws' (current_ m) (forward_ m)) ∧
    placed (turned pos c pos') ws'.
Proof.
  intros Hp Ec Hc Ekv Hself Hother. apply (run_for_children body pos); [done|].
  intros j ws Hj Hpj. pose proof (mixed_current pos pos' c j) as Emix.
  destruct (decide (j = c)) as [->|Hne].
  - exists ws. split; [by apply Hself|]. eapply placed_ext; [|exact Hpj]. intros i Hi.
    unfold moved, mixed, turned. destruct (decide (i = c)) as [->|]; [|done].
    rewrite Nat.ltb_irrefl. by rewrite decide_True.
  - assert (child_kv (mixed pos (turned pos c pos') j) c = Some kv) as Ekc
      by (unfold child_kv in *; by rewrite Emix).
    destruct (Hother j _ (MkMerging ws (current_ m) (forward_ m)) Hj Hne Hpj Ec) as (ws' & E & Hp').
    + by eapply run_merging_entry.
    + exact Emix.
    + exists ws'. split; [exact E|]. unfold turned at 2. by rewrite decide_False.
Qed.

Lemma run_turn_forward j q m c kv :
  T kv.1 → (j < n)%nat → j ≠ c → (c < n)%nat → placed q (children_ m) → current_ m = Some c →
  merging_key m = Done (kv.1, m) → child_kv q c = Some kv →
  ∃ ws', turn_forward j m = Done (tt, MkMerging ws' (current_ m) (forward_ m)) ∧
    placed (moved q j (cut_pos (below kv.1) j)) ws'.
Proof.
  intros Ht Hj Hne Hc Hp Ec Ekey Ekv. unfold turn_forward. rewrite bind_get, Ec.
  rewrite bool_decide_eq_false_2 by congruence. bind_with Ekey.
  destruct (run_on_child q j (i_Seek kv.1) m tt (cut_pos (below kv.1) j) Hp Hj) as (ws & E & Hws).
  { intros w Hw. by eapply io_seek; [apply child_over| |]. }
  bind_with E. set (m1 := MkMerging ws (current_ m) (forward_ m)) in *.
  bind_with (run_child_valid _ m1 j Hws Hj). exists ws. split; [|done].
  assert (moved q j (cut_pos (below kv.1) j) j = cut_pos (below kv.1) j) as Emj
    by (unfold moved; by rewrite decide_True).
  rewrite Emj. destruct (cut_pos (below kv.1) j) as [i|] eqn:Ei.
  2: { by rewrite bool_decide_eq_false_2 by (by intros [? ?]); rewrite <-Ec. }
  rewrite bool_decide_eq_true_2 by done.
  destruct (child_kv_bound _ _ j i Hws Hj Emj) as [[kj vj] Ekj].
  assert (child_kv (moved q j (Some i)) c = Some kv) as Ekc
    by (unfold child_kv, moved in *; by rewrite decide_False).
  assert (merging_key m1 = Done (kv.1, m1)) as Ekey1 by (by eapply run_merging_entry).
  bind_with Ekey1. bind_with (proj1 (run_child_entry _ m1 j kj vj Hws Hj Ekj)).
  rewrite (proj2 (Z.eqb_neq _ _)); [by rewrite <-Ec|]. intros H0. apply Hne.
  unfold child_kv in Ekj, Ekc. rewrite Emj in Ekj. simpl in Ekj.
  destruct (moved q j (Some i) c) as [ic|]; [|done].
  by eapply (children_distinct j c i ic (kj, vj) kv); [..|pose proof (compare_sym kv.1 kj); pose proof (compare_sym kj kv.1); simpl; lia].
Qed.

Lemma run_turn_backward j q m c (kv : list Z * list Z) :
  T kv.1 → (j < n)%nat → j ≠ c → placed q (children_ m) → current_ m = Some c →
  merging_key m = Done (kv.1, m) →
  ∃ ws', turn_backward j m = Done (tt, MkMerging ws' (current_ m) (forward_ m)) ∧
    placed (moved q j (before_pos (below kv.1) j)) ws'.
Proof.
  intros Ht Hj Hne Hp Ec Ekey. unfold turn_backward. rewrite bind_get, Ec.
  rewrite bool_decide_eq_false_2 by congruence. bind_with Ekey.
  destruct (run_on_child q j (i_Seek kv.1) m tt (cut_pos (below kv.1) j) Hp Hj) as (ws & E & Hws).
  { intros w Hw. by eapply io_seek; [apply child_over| |]. }
  bind_with E. set (m1 := MkMerging ws (current_ m) (forward_ m)) in *.
  bind_with (run_child_valid _ m1 j Hws Hj).
  assert (moved q j (cut_pos (below kv.1) j) j = cut_pos (below kv.1) j) as Emj
    by (unfold moved; by rewrite decide_True).
  assert (∀ (op : M (IteratorWrapper C) unit),
    (∀ w, wrapped (child_entries j) (Rs j) (cut_pos (below kv.1) j) w →
      ∃ w', op w = Done (tt, w') ∧ wrapped (child_entries j) (Rs j) (before_pos (below kv.1) j) w') →
    ∃ ws', on_child j op m1 = Done (tt, MkMerging ws' (current_ m) (forward_ m)) ∧
      placed (moved q j (before_pos (below kv.1) j)) ws') as Hop.
  { intros op Hw. destruct (run_on_child _ j op m1 tt (before_pos (below kv.1) j) Hws Hj) as (ws' & E' & Hws').
    { intros w Hww. apply Hw. by rewrite Emj in Hww. }
    exists ws'. split; [exact E'|]. eapply placed_ext; [|exact Hws']. intros i Hi. unfold moved.
    by destruct (decide (i = j)). }
  rewrite Emj, <-Ec. unfold cut_pos, at_pos, before_pos in *.
  pose proof (cut_le (below kv.1) (child_entries j)) as Hle.
  destruct (Nat.ltb_spec (cut (below kv.1) (child_entries j)) (length (child_entries j))) as [Hlt|Hge].
  - rewrite bool_decide_eq_true_2 by done. apply Hop. intros w Hw.
    by eapply io_prev; [apply child_over|].
  - rewrite bool_decide_eq_false_2 by (by intros [? ?]). apply Hop. intros w Hw.
    replace (cut (below kv.1) (child_entries j)) with (length (child_entries j)) by lia.
    rewrite <-last_pos. by eapply io_last; [apply child_over|].
Qed.

(** ** The contract *)

Lemma merging_Next_at i m :
  merging_at (Some i) m →
  ∃ m', merging_Next m = Done (tt, m') ∧ merging_at (at_pos kvs (S i)) m'.
Proof.
  intros (pos & Hp & c & kv & Ec & Hc & Ekv & Eck & Hother).
  unfold merging_Next. rewrite bind_get, bind_assert by (unfold merging_Valid; rewrite Ec; by apply bool_decide_eq_true_2).
  (* the other children are after the key *)
  assert (∃ ws, (if negb (forward_ m) then for_children turn_forward;; set_direction true else mret tt) m =
      Done (tt, MkMerging ws (Some c) true) ∧
    placed (turned pos c (cut_pos (below kv.1))) ws) as (ws & E & Hws).
  { destruct (forward_ m) eqn:Ef; cbn [negb].
    - exists (children_ m). split; [destruct m; simpl in *; by subst|].
      eapply placed_ext; [|exact Hp]. intros j Hj. unfold turned.
      destruct (decide (j = c)) as [->|Hne]; [done|by apply Hother].
    - destruct (run_turn turn_forward (cut_pos (below kv.1)) pos m c kv Hp Ec Hc Eck) as (ws & E & Hws).
      + intros m1 Ec1. unfold turn_forward. rewrite bind_get. by rewrite bool_decide_eq_true_2.
      + intros j q m1 Hj Hne Hq Ec1 Ekey Eq. apply (run_turn_forward j q m1 c kv); [by eapply HT|done..|].
        unfold child_kv in *. by rewrite Eq.
      + exists ws. split; [|done]. bind_with E. unfold set_direction. by rewrite bind_get, Ec. }
  bind_with E. destruct (cut_pos_current pos c kv Hc Eck) as (ic & Ei & _ & Ecut).
  set (m1 := MkMerging ws (Some c) true) in *.
  destruct (run_on_child _ c i_Next m1 tt (at_pos (child_entries c) (S ic)) Hws Hc) as (ws' & E' & Hws').
  { intros w Hw. unfold turned in Hw. rewrite decide_True, Ei in Hw by done.
    by eapply io_next; [apply child_over|]. }
  bind_with (run_on_current i_Next m1 c tt _ eq_refl E').
  destruct (found_smallest (up_to kv.1) _ (MkMerging ws' (Some c) true) Hws') as (m' & _ & Hm' & E2).
  { apply up_to_initial. }
  { intros j Hj. unfold moved, turned. destruct (decide (j = c)) as [->|Hne].
    - unfold cut_pos. by rewrite Ecut.
    - by apply (cut_same pos c kv j). }
  exists m'. split; [by apply E2|]. destruct kv as [k v]. cbn [fst] in Hm'.
  by rewrite (proj2 (cut_at_key kvs i k v Hkvs Ekv)) in Hm'.
Qed.

Lemma merging_Prev_at i m :
  merging_at (Some i) m →
  ∃ m', merging_Prev m = Done (tt, m') ∧ merging_at (prev_pos i) m'.
Proof.
  intros (pos & Hp & c & kv & Ec & Hc & Ekv & Eck & Hother).
  unfold merging_Prev. rewrite bind_get, bind_assert by (unfold merging_Valid; rewrite Ec; by apply bool_decide_eq_true_2).
  (* the other children are before the key *)
  assert (∃ ws, (if forward_ m then for_children turn_backward;; set_direction false else mret tt) m =
      Done (tt, MkMerging ws (Some c) false) ∧
    placed (turned pos c (before_pos (below kv.1))) ws) as (ws & E & Hws).
  { destruct (forward_ m) eqn:Ef.
    - destruct (run_turn turn_backward (before_pos (below kv.1)) pos m c kv Hp Ec Hc Eck) as (ws & E & Hws).
      + intros m1 Ec1. unfold turn_backward. rewrite bind_get. by rewrite bool_decide_eq_true_2.
      + intros j q m1 Hj Hne Hq Ec1 Ekey _. apply (run_turn_backward j q m1 c kv); [by eapply HT|done..].
      + exists ws. split; [|done]. bind_with E. unfold set_direction. by rewrite bind_get, Ec.
    - exists (children_ m). split; [destruct m; simpl in *; by subst|].
      eapply placed_ext; [|exact Hp]. intros j Hj. unfold turned.
      destruct (decide (j = c)) as [->|Hne]; [done|by apply Hother]. }
  bind_with E. destruct (cut_pos_current pos c kv Hc Eck) as (ic & Ei & Ecut & _).
  set (m1 := MkMerging ws (Some c) false) in *.
  destruct (run_on_child _ c i_Prev m1 tt (prev_pos ic) Hws Hc) as (ws' & E' & Hws').
  { intros w Hw. unfold turned in Hw. rewrite decide_True, Ei in Hw by done.
    by eapply io_prev; [apply child_over|]. }
  bind_with (run_on_current i_Prev m1 c tt _ eq_refl E').
  destruct (found_largest (below kv.1) _ (MkMerging ws' (Some c) false) Hws') as (m' & _ & Hm' & E2).
  { apply below_initial. }
  { intros j Hj. unfold moved, turned. destruct (decide (j = c)) as [->|Hne]; [|done].
    unfold before_pos. by rewrite Ecut. }
  exists m'. split; [by apply E2|]. destruct kv as [k v]. cbn [fst] in Hm'.
  by rewrite (proj1 (cut_at_key kvs i k v Hkvs Ekv)) in Hm'.
Qed.

(** Moving all the children, then looking for the least one or the greatest one. *)
Lemma run_seek_smallest (op : M (IteratorWrapper C) unit) P p m :
  merging_at p m → initial P →
  (∀ j q w, (j < n)%nat → wrapped (child_entries j) (Rs j) q w →
    ∃ w', op w = Done (tt, w') ∧ wrapped (child_entries j) (Rs j) (cut_pos P j) w') →
  ∃ m', (for_children (λ i, on_child i op);; FindSmallest;; set_direction true) m = Done (tt, m') ∧
    merging_at (at_pos kvs (cut P kvs)) m'.
Proof.
  intros (pos & Hp & _) HP Hop.
  destruct (run_all_children op pos (cut_pos P) m Hp) as (ws & E & Hws); [by intros; eapply Hop|].
  bind_with E.
  destruct (found_smallest P (cut_pos P) (MkMerging ws (current_ m) (forward_ m)) Hws HP) as (m' & E' & Hm' & _);
    [done|]. by exists m'.
Qed.

Lemma merging_iter_over : iter_over merging_ops T kvs merging_at.
Proof.
  split; cbn [merging_ops i_Valid i_SeekToFirst i_SeekToLast i_Seek i_Next i_Prev i_key i_value].
  - intros p m (pos & Hp & H). unfold merging_Valid. destruct p as [i|].
    + by destruct H as (c & kv & -> & _); rewrite !bool_decide_eq_true_2.
    + by rewrite H.
  - intros i m (pos & _ & c & kv & _ & _ & E & _). by eapply lookup_lt_Some.
  - intros i m k v (pos & Hp & c & kv & Ec & Hc & E & Eck & _) E'. rewrite E in E'. injection E' as ->.
    by apply (run_merging_entry pos m c (k, v)).
  - intros p m Hm. apply (run_seek_smallest i_SeekToFirst (λ _, false) p m) in Hm as (m' & E & Hm');
      [|done|].
    + exists m'. split; [done|]. by rewrite (cut_zero (λ _, false)) in Hm'.
    + intros j q w Hj Hw. unfold cut_pos. rewrite (cut_zero (λ _, false)) by done.
      by eapply io_first; [apply child_over|].
  - intros p m (pos & Hp & _). unfold merging_SeekToLast.
    destruct (run_all_children i_SeekToLast pos (before_pos (λ _, true)) m Hp) as (ws & E & Hws).
    { intros j w Hj Hw. unfold before_pos. rewrite (cut_none (λ _, true)) by done.
      rewrite <-last_pos. by eapply io_last; [apply child_over|]. }
    bind_with E.
    destruct (found_largest (λ _, true) _ (MkMerging ws (current_ m) (forward_ m)) Hws) as (m' & E' & Hm' & _);
      [done|done|]. exists m'. split; [done|]. rewrite last_pos.
    by rewrite (cut_none (λ _, true)) in Hm'.
  - intros p m target Hm Ht.
    apply (run_seek_smallest (i_Seek target) (below target) p m) in Hm; [done|apply below_initial|].
    intros j q w Hj Hw. by eapply io_seek; [apply child_over| |].
  - apply merging_Next_at.
  - apply merging_Prev_at.
Qed.

(** A new merging iterator is at no entry. *)
Lemma run_new_merging its :
  Forall2 (λ l it, True) kvss its →
  (∀ j it, its !! j = Some it → Rs j None it) →
  ∃ m, new_MergingIterator its = Done m ∧ merging_at None m.
Proof.
  intros Hl HR.
  assert (∃ ws, wrap_all its = Done ws ∧ length ws = length its ∧
    ∀ j it, its !! j = Some it → ∃ w, ws !! j = Some w ∧ wrapped (child_entries j) (Rs j) None w)
    as (ws & E & Hlen & Hws).
  { assert (∀ its j0, (∀ j it, its !! j = Some it → (j0 + j < n)%nat ∧ Rs (j0 + j)%nat None it) →
      ∃ ws, wrap_all its = Done ws ∧ length ws = length its ∧
        ∀ j it, its !! j = Some it → ∃ w, ws !! j = Some w ∧
          wrapped (child_entries (j0 + j)) (Rs (j0 + j)%nat) None w) as Hgen.
    { clear its Hl HR. induction its as [|it its IH]; intros j0 H; [by exists []|].
      destruct (H 0%nat it eq_refl) as [Hj0 H0]. rewrite Nat.add_0_r in Hj0, H0.
      destruct (run_new_Wrapper T (child_entries j0) (Rs j0)) with (p := @None nat) (it := it) as (w & Ew & Hw).
      { destruct (lookup_lt_is_Some_2 kvss j0 Hj0) as [l E]. unfold child_entries. rewrite E. by apply HI. }
      { done. }
      destruct (IH (S j0)) as (ws & E & Hlen & Hws).
      { intros j it' Ej. rewrite Nat.add_succ_comm. by apply H. }
      exists (w :: ws). split_and!; [simpl; by rewrite Ew; simpl; rewrite E|simpl; by rewrite Hlen|].
      intros [|j] it' Ej; simpl in Ej.
      - exists w. rewrite Nat.add_0_r. by split.
      - destruct (Hws j it' Ej) as (w' & E' & Hw'). exists w'. by rewrite <-Nat.add_succ_comm. }
    destruct (Hgen its O) as (ws & E & Hlen & Hws); [|by exists ws].
    intros j it Ej. split; [|by apply HR]. apply Forall2_length in Hl. unfold n. rewrite Hl.
    by eapply lookup_lt_Some. }
  exists (MkMerging ws None true). split; [unfold new_MergingIterator; by rewrite E|].
  exists (λ _, None). split; [|done]. apply Forall2_length in Hl. split; [simpl; unfold n; lia|].
  intros j Hj. destruct (lookup_lt_is_Some_2 its j) as [it Ej]; [unfold n in Hj; lia|].
  by eapply Hws.
Qed.
End merging.

(** ** Theorems *)

(** C17: merging is composition of the contract of iterators: when each child is a cursor
    in a sorted list of entries, with no key in common, the merging iterator is a cursor
    in the sorted list of all the entries, in both directions and across changes of
    direction, and it starts at no entry. *)
Theorem merging_refines `{UC : Comparator (list Z)} `{!ComparatorLaws (list Z)} {C} `{I : IterOps C}
    T (kvss : list entries) (Rs : nat → option nat → C → Prop) (kvs : entries) (its : list C) :
  (∀ j l, kvss !! j = Some l → iter_over I T l (Rs j) ∧ keys_sorted l) →
  keys_sorted kvs → kvs ≡ₚ concat kvss → (∀ kv, kv ∈ kvs → T kv.1) →
  length its = length kvss → (∀ j it, its !! j = Some it → Rs j None it) →
  ∃ m R, new_MergingIterator its = Done m ∧ R None m ∧ iter_over merging_ops T kvs R.
Proof.
  intros HI Hs Hperm HT Hl HR.
  destruct (run_new_merging T kvss Rs kvs (λ j l E, proj1 (HI j l E)) its) as (m & E & Hm); [|done|].
  { apply Forall2_same_length_lookup_2; [lia|done]. }
  exists m, (merging_at kvss Rs kvs). split_and!; [done|done|].
  apply merging_iter_over; [by intros; apply HI|by intros i kv E'; eapply HT, list_elem_of_lookup_2|by intros j l E'; apply (HI j l E')|done|done].
Qed.

(** ** Witness

    Two blocks, whose keys alternate. *)
Definition odd_kvs : entries := [([1], [10]); ([3], [30]); ([5], [50])].
Definition even_kvs : entries := [([2], [20]); ([4], [40])].
Definition all_kvs : entries := [([1], [10]); ([2], [20]); ([3], [30]); ([4], [40]); ([5], [50])].

Lemma merging_refines_witness :
  ∃ (m m1 m2 m3 : MergingIterator block_object),
    i_Seek [3] m = Done (tt, m1) ∧ i_value m1 = Done ([30], m1) ∧
    i_Prev m1 = Done (tt, m2) ∧ i_key m2 = Done ([2], m2) ∧
    i_Next m2 = Done (tt, m3) ∧ i_key m3 = Done ([3], m3).
Proof.
  assert (∀ kvs, kvs = odd_kvs ∨ kvs = even_kvs →
    ∃ (o : block_object) R, R None o ∧ iter_over block_object_ops any_target kvs R ∧ keys_sorted kvs) as Hc.
  { intros kvs [->| ->].
    all: edestruct block_cursor as (o & R & H0 & HR);
      [| | |by exists o, R; split_and!; [exact H0|exact HR|]; repeat constructor; vm_compute];
      [repeat constructor; simpl; unfold is_byte; lia|repeat constructor; vm_compute; reflexivity|by vm_compute]. }
  destruct (Hc odd_kvs (or_introl eq_refl)) as (o1 & R1 & H1 & HR1 & S1).
  destruct (Hc even_kvs (or_intror eq_refl)) as (o2 & R2 & H2 & HR2 & S2).
  destruct (merging_refines any_target [odd_kvs; even_kvs] (λ j, match j with O => R1 | _ => R2 end) all_kvs [o1; o2])
    as (m & R & _ & Hm & HR).
  - by intros [|[|j]] l [= <-].
  - repeat constructor; vm_compute; reflexivity.
  - unfold all_kvs, odd_kvs, even_kvs. simpl. solve_Permutation.
  - done.
  - done.
  - by intros [|[|j]] it [= <-].
  - destruct (io_seek _ _ _ _ HR None m [3] Hm Logic.I) as (m1 & E1 & H3). simpl in H3.
    destruct (io_prev _ _ _ _ HR _ m1 H3) as (m2 & E2 & H4). simpl in H4.
    destruct (io_next _ _ _ _ HR _ m2 H4) as (m3 & E3 & H5). simpl in H5.
    exists m, m1, m2, m3. split_and!; try done.
    + by apply (io_entry _ _ _ _ HR 2 m1 [3] [30]).
    + by apply (io_entry _ _ _ _ HR 1 m2 [2] [20]).
    + by apply (io_entry _ _ _ _ HR 2 m3 [3] [30]).
Defined.
