(* ===== verification/LdbTwoLevel.v ===== *)
(** * leveldb: the two-level iterator (table/two_level_iterator.cc)

    An iterator over blocks: the values of an index iterator are handles, and a function
    makes an iterator from a handle. Blocks that are empty are skipped. *)
From S2P Require Import Prelude LdbFormat LdbIterator LdbMerger.

Section two_level.
(** The iterators of the index and of the blocks, and what [arg] points to. *)
Context {X D A : Type} `{IterOps X} `{IterOps D} `{IterStatus D}.
Variable block_function : list Z → M A D.
(** A bound on the number of blocks. *)
Variable bound : Z.

(** [tl_data_] is none when [data_iter_.iter()] is NULL. *)
Record TwoLevelIterator := MkTwoLevel {
  tl_arg_ : A;
  tl_status_ : option string;
  tl_index_ : IteratorWrapper X;
  tl_data_ : option (IteratorWrapper D);
  tl_handle_ : list Z;
}.

Definition new_TwoLevelIterator (index_iter : X) (arg : A) : outcome TwoLevelIterator :=
  w ← new_Wrapper index_iter; Done (MkTwoLevel arg None w None []).

(** Calls of [index_iter_], of [data_iter_] and of [block_function_]. *)
Definition on_index {R} (c : M (IteratorWrapper X) R) : M TwoLevelIterator R := λ t,
  match c (tl_index_ t) with
  | Done (r, w) => Done (r, MkTwoLevel (tl_arg_ t) (tl_status_ t) w (tl_data_ t) (tl_handle_ t))
  | Undef => Undef
  | NoFuel => NoFuel
  end.
Definition on_data {R} (c : M (IteratorWrapper D) R) : M TwoLevelIterator R := λ t,
  match tl_data_ t with
  | Some w =>
      match c w with
      | Done (r, w') =>
          Done (r, MkTwoLevel (tl_arg_ t) (tl_status_ t) (tl_index_ t) (Some w') (tl_handle_ t))
      | Undef => Undef
      | NoFuel => NoFuel
      end
  | None => Undef
  end.
Definition call_block_function (handle : list Z) : M TwoLevelIterator D := λ t,
  match block_function handle (tl_arg_ t) with
  | Done (it, a) => Done (it, MkTwoLevel a (tl_status_ t) (tl_index_ t) (tl_data_ t) (tl_handle_ t))
  | Undef => Undef
  | NoFuel => NoFuel
  end.

Definition index_valid : M TwoLevelIterator bool := t ← get_state; mret (i_Valid (tl_index_ t)).
Definition tl_Valid (t : TwoLevelIterator) : bool :=
  match tl_data_ t with Some w => i_Valid w | None => false end.

Definition SaveError (s : option string) : M TwoLevelIterator unit := λ t,
  Done (tt, match tl_status_ t with
            | None => MkTwoLevel (tl_arg_ t) s (tl_index_ t) (tl_data_ t) (tl_handle_ t)
            | Some _ => t
            end).
Definition set_handle (h : list Z) : M TwoLevelIterator unit := λ t,
  Done (tt, MkTwoLevel (tl_arg_ t) (tl_status_ t) (tl_index_ t) (tl_data_ t) h).

Definition SetDataIterator (data_iter : option D) : M TwoLevelIterator unit :=
  t ← get_state;
  match tl_data_ t with Some w => SaveError (i_status (w_iter_ w)) | None => mret tt end;;
  t ← get_state;
  match data_iter with
  | None => put_state (MkTwoLevel (tl_arg_ t) (tl_status_ t) (tl_index_ t) None (tl_handle_ t))
  | Some it =>
      match new_Wrapper it with
      | Done w => put_state (MkTwoLevel (tl_arg_ t) (tl_status_ t) (tl_index_ t) (Some w) (tl_handle_ t))
      | Undef => undef
      | NoFuel => no_fuel
      end
  end.

Definition InitDataBlock : M TwoLevelIterator unit :=
  valid ← index_valid;
  if negb valid then SetDataIterator None
  else
    handle ← on_index i_value;
    t ← get_state;
    if bool_decide (is_Some (tl_data_ t)) && (slice_compare handle (tl_handle_ t) =? 0)
    then mret tt
    else
      iter ← call_block_function handle;
      set_handle handle;;
      SetDataIterator (Some iter).

(** [if (data_iter_.iter() != NULL) data_iter_.f()] *)
Definition if_data (c : M (IteratorWrapper D) unit) : M TwoLevelIterator unit :=
  t ← get_state;
  match tl_data_ t with Some _ => on_data c | None => mret tt end.

(** One turn of the loops that skip blocks. *)
Definition skip_step (move : M (IteratorWrapper X) unit) (seek : M (IteratorWrapper D) unit)
    (_ : unit) : M TwoLevelIterator (unit + unit) :=
  t ← get_state;
  if tl_Valid t then mret (inr tt)
  else
    valid ← index_valid;
    if negb valid then SetDataIterator None;; mret (inr tt)
    else
      on_index move;;
      InitDataBlock;;
      if_data seek;;
      mret (inl tt).

Definition SkipEmptyDataBlocksForward : M TwoLevelIterator unit :=
  loop bound (skip_step i_Next i_SeekToFirst) tt.
Definition SkipEmptyDataBlocksBackward : M TwoLevelIterator unit :=
  loop bound (skip_step i_Prev i_SeekToLast) tt.

Definition tl_Seek (target : list Z) : M TwoLevelIterator unit :=
  on_index (i_Seek target);; InitDataBlock;; if_data (i_Seek target);;
  SkipEmptyDataBlocksForward.
Definition tl_SeekToFirst : M TwoLevelIterator unit :=
  on_index i_SeekToFirst;; InitDataBlock;; if_data i_SeekToFirst;;
  SkipEmptyDataBlocksForward.
Definition tl_SeekToLast : M TwoLevelIterator unit :=
  on_index i_SeekToLast;; InitDataBlock;; if_data i_SeekToLast;;
  SkipEmptyDataBlocksBackward.

(** After [assert(Valid())]. *)
Definition when_valid {R} (c : M TwoLevelIterator R) : M TwoLevelIterator R :=
  t ← get_state; assert_ (tl_Valid t);; c.
Definition tl_Next : M TwoLevelIterator unit :=
  when_valid (on_data i_Next;; SkipEmptyDataBlocksForward).
Definition tl_Prev : M TwoLevelIterator unit :=
  when_valid (on_data i_Prev;; SkipEmptyDataBlocksBackward).

Definition two_level_ops : IterOps TwoLevelIterator :=
  {| i_Valid := tl_Valid;
     i_SeekToFirst := tl_SeekToFirst; i_SeekToLast := tl_SeekToLast; i_Seek := tl_Seek;
     i_Next := tl_Next; i_Prev := tl_Prev;
     i_key := when_valid (on_data i_key); i_value := when_valid (on_data i_value) |}.

Definition tl_status `{IterStatus X} (t : TwoLevelIterator) : option string :=
  match i_status (w_iter_ (tl_index_ t)) with
  | Some s => Some s
  | None =>
      match tl_data_ t with
      | Some w =>
          match i_status (w_iter_ w) with Some s => Some s | None => tl_status_ t end
      | None => tl_status_ t
      end
  end.
End two_level.
Arguments TwoLevelIterator : clear implicits.
