(* ===== verification/LdbTwoLevelSpec.v ===== *)
(** * leveldb: two levels are one

    When the blocks that the index leads to are cursors in sorted lists that follow each
    other, separated by the keys of the index, the two-level iterator is a cursor in the
    whole list. Blocks may be empty. *)
From stdpp Require Import sorting.
From S2P Require Import Prelude SkipList SkipListSpec LdbFormat LdbIterator LdbMerger LdbMergerSpec LdbTwoLevel.

(** ** Positions in a concatenation *)

Section concat.
Implicit Types (kvss : list entries).

(** The number of entries before a block. *)
Definition offset kvss (i : nat) : nat := length (concat (take i kvss)).

Lemma offset_0 kvss : offset kvss 0 = O.
Proof. done. Qed.
Lemma concat_offset_S kvss i kvs : kvss !! i = Some kvs → offset kvss (S i) = (offset kvss i + length kvs)%nat.
Proof.
  intros E. unfold offset. rewrite (take_S_r _ _ _ E), concat_app, length_app. simpl.
  by rewrite app_nil_r.
Qed.
Lemma offset_all kvss i : (length kvss ≤ i)%nat → offset kvss i = length (concat kvss).
Proof. intros Hi. unfold offset. by rewrite take_ge. Qed.

Lemma concat_split kvss i kvs :
  kvss !! i = Some kvs → concat kvss = concat (take i kvss) ++ kvs ++ concat (drop (S i) kvss).
Proof. intros E. rewrite <-(take_drop_middle _ _ _ E) at 1. by rewrite concat_app. Qed.

Lemma concat_lookup kvss i kvs m :
  kvss !! i = Some kvs → (m < length kvs)%nat → concat kvss !! (offset kvss i + m)%nat = kvs !! m.
Proof.
  intros E Hm. rewrite (concat_split _ _ _ E). unfold offset.
  rewrite lookup_app_r, Nat.add_comm, Nat.add_sub by lia. by rewrite lookup_app_l.
Qed.

Lemma offset_le kvss i kvs :
  kvss !! i = Some kvs → (offset kvss i + length kvs ≤ length (concat kvss))%nat.
Proof. intros E. rewrite (concat_split _ _ _ E), !length_app. unfold offset. lia. Qed.

(** Each position of the concatenation is in a block. *)
Lemma concat_lookup_inv kvss n kv :
  concat kvss !! n = Some kv →
  ∃ i kvs m, kvss !! i = Some kvs ∧ kvs !! m = Some kv ∧ n = (offset kvss i + m)%nat.
Proof.
  revert n. induction kvss as [|kvs kvss IH]; intros n E; simpl in E; [done|].
  apply lookup_app_Some in E as [E|[Hge E]].
  - by exists O, kvs, n.
  - destruct (IH _ E) as (i & kvs' & m & Ei & Em & En). exists (S i), kvs', m.
    split_and!; [done|done|]. unfold offset in *. simpl. rewrite length_app. lia.
Qed.

Lemma offset_mono kvss i j : (i ≤ j)%nat → (offset kvss i ≤ offset kvss j)%nat.
Proof.
  induction 1 as [|j Hij IH]; [done|]. destruct (kvss !! j) as [kvs|] eqn:E.
  - rewrite (concat_offset_S _ _ _ E). lia.
  - apply lookup_ge_None in E. rewrite (offset_all kvss (S j)) by lia. by rewrite (offset_all kvss j) in IH.
Qed.
End concat.

Section spec.
Context `{UC : Comparator (list Z)} `{!ComparatorLaws (list Z)}.
Context {X D A : Type} `{IX : IterOps X} `{ID : IterOps D} `{SD : IterStatus D}.
Variables (block_function : list Z → M A D) (bound : Z).
(** The index, the blocks, and the states of what they are read with. *)
Variables (T : list Z → Prop) (idx : entries) (kvss : list entries).
Variables (Rx : option nat → X → Prop) (Rd : nat → option nat → D → Prop) (arg_ok : A → Prop).
Hypothesis HX : iter_over IX T idx Rx.
Hypothesis Hlen : length idx = length kvss.
Hypothesis HD : ∀ i kvs, kvss !! i = Some kvs →
  iter_over ID T kvs (Rd i) ∧ ∀ p it, Rd i p it → i_status it = None.
Hypothesis Hblock : ∀ i k h a, idx !! i = Some (k, h) → arg_ok a →
  ∃ it a', block_function h a = Done (it, a') ∧ Rd i None it ∧ arg_ok a'.
Hypothesis Hhandles : ∀ i j a b, idx !! i = Some a → idx !! j = Some b →
  slice_compare a.2 b.2 = 0 → i = j.
(** The keys of the index separate the blocks. *)
Hypothesis Hbelow : ∀ i k h kvs kv, idx !! i = Some (k, h) → kvss !! i = Some kvs → kv ∈ kvs →
  compare_ kv.1 k ≤ 0.
Hypothesis Habove : ∀ i j k h kvs kv, idx !! i = Some (k, h) → (i < j)%nat → kvss !! j = Some kvs →
  kv ∈ kvs → compare_ k kv.1 < 0.
Hypothesis Hblocks_sorted : ∀ i kvs, kvss !! i = Some kvs → keys_sorted kvs.
Hypothesis Hbound : Z.of_nat (length kvss) + 1 < bound.

Abbreviation st := (TwoLevelIterator X D A).
Abbreviation all := (concat kvss).

(** The index is at a position, and the data iterator, if there is one, is over the
    block whose handle is saved. *)
Definition data_ok (t : st) : Prop :=
  match tl_data_ t with
  | None => True
  | Some w => ∃ j kvs k p, kvss !! j = Some kvs ∧ idx !! j = Some (k, tl_handle_ t) ∧ wrapped kvs (Rd j) p w
  end.
Definition index_at (q : option nat) (t : st) : Prop :=
  arg_ok (tl_arg_ t) ∧ tl_status_ t = None ∧ wrapped idx Rx q (tl_index_ t) ∧ data_ok t.

(** The data iterator at a position of block [i]. *)
Definition data_at (i : nat) (p : option nat) (t : st) : Prop :=
  ∃ kvs k h w, kvss !! i = Some kvs ∧ idx !! i = Some (k, h) ∧ tl_data_ t = Some w ∧
    tl_handle_ t = h ∧ wrapped kvs (Rd i) p w.

Lemma idx_block i : (i < length idx)%nat → ∃ kvs k h, kvss !! i = Some kvs ∧ idx !! i = Some (k, h).
Proof.
  intros Hi. destruct (lookup_lt_is_Some_2 idx i Hi) as [[k h] Ei].
  destruct (lookup_lt_is_Some_2 kvss i) as [kvs Ek]; [by rewrite <-Hlen|]. by exists kvs, k, h.
Qed.

Lemma data_at_ok i p t : data_at i p t → data_ok t.
Proof.
  intros (kvs & k & h & w & Ek & Ei & Ew & <- & Hw). unfold data_ok. rewrite Ew. by exists i, kvs, k, p.
Qed.

(** ** Steps *)

Lemma index_over : iter_over wrapper_ops T idx (wrapped idx Rx).
Proof. by apply wrapper_iter_over. Qed.
Lemma data_over i kvs : kvss !! i = Some kvs → iter_over wrapper_ops T kvs (wrapped kvs (Rd i)).
Proof. intros E. by apply wrapper_iter_over, HD. Qed.

Lemma wp_on_index (c : M (IteratorWrapper X) unit) q q' t :
  index_at q t → (∀ w, wrapped idx Rx q w → ∃ w', c w = Done (tt, w') ∧ wrapped idx Rx q' w') →
  wp (on_index c) (λ _ t', index_at q' t' ∧ tl_data_ t' = tl_data_ t ∧ tl_handle_ t' = tl_handle_ t) t.
Proof.
  intros (Ha & Hs & Hw & Hd) Hc. destruct (Hc _ Hw) as (w' & E & Hw').
  unfold wp, on_index. rewrite E. split_and!; try done; by split_and!.
Qed.

Lemma wp_index_valid Q q t :
  index_at q t → Q (bool_decide (is_Some q)) t → wp index_valid Q t.
Proof.
  intros (_ & _ & Hw & _) HQ. unfold wp, index_valid. rewrite bind_get.
  by rewrite (io_valid _ _ _ _ index_over _ _ Hw).
Qed.

(** Replacing the data iterator saves no error. *)
Lemma wp_SetNull q t :
  index_at q t → wp (SetDataIterator None) (λ _ t', index_at q t' ∧ tl_data_ t' = None) t.
Proof.
  intros (Ha & Hs & Hw & Hd). unfold SetDataIterator. apply wp_bind, wp_get.
  apply wp_bind. unfold data_ok in Hd. destruct (tl_data_ t) as [w|] eqn:Ew.
  - destruct Hd as (j & kvs & k & p & Ek & _ & (Hr & _)). unfold wp, SaveError.
    rewrite Hs, (proj2 (HD j kvs Ek) _ _ Hr). by split_and!.
  - by split_and!.
Qed.

Lemma wp_SetData q t i kvs k h it :
  arg_ok (tl_arg_ t) → tl_status_ t = None → wrapped idx Rx q (tl_index_ t) →
  kvss !! i = Some kvs → idx !! i = Some (k, h) → tl_handle_ t = h → Rd i None it →
  (∀ w, tl_data_ t = Some w → i_status (w_iter_ w) = None) →
  wp (SetDataIterator (Some it)) (λ _ t', index_at q t' ∧ data_at i None t') t.
Proof.
  intros Ha Hs Hw Ek Ei Eh Hit Hst. unfold SetDataIterator. apply wp_bind, wp_get.
  destruct (run_new_Wrapper T kvs (Rd i) (proj1 (HD i kvs Ek)) None it Hit) as (w' & Ew' & Hw').
  apply wp_bind. destruct (tl_data_ t) as [w|] eqn:Ew.
  - unfold wp at 1. unfold SaveError. rewrite Hs, (Hst w eq_refl). apply wp_bind, wp_get.
    rewrite Ew'. apply wp_put. split.
    + split_and!; try done. unfold data_ok. cbn. subst h. by exists i, kvs, k, None.
    + by exists kvs, k, h, w'.
  - apply wp_ret, wp_bind, wp_get. rewrite Ew'. apply wp_put. split.
    + split_and!; try done. unfold data_ok. cbn. subst h. by exists i, kvs, k, None.
    + by exists kvs, k, h, w'.
Qed.

Lemma wp_InitDataBlock q t :
  index_at q t →
  wp (InitDataBlock block_function)
    (λ _ t', index_at q t' ∧ match q with
       | Some i => ∃ p, data_at i p t'
       | None => tl_data_ t' = None
       end) t.
Proof.
  intros Ht. pose proof Ht as (Ha & Hs & Hw & Hd). unfold InitDataBlock.
  apply wp_bind. eapply wp_index_valid; [exact Ht|]. destruct q as [i|].
  2:{ rewrite bool_decide_eq_false_2 by (by intros [? ?]). by apply wp_SetNull. }
  rewrite bool_decide_eq_true_2 by done. cbn [negb].
  pose proof (io_bound _ _ _ _ index_over _ _ Hw) as Hi.
  destruct (idx_block i Hi) as (kvs & k & h & Ek & Ei).
  destruct (io_entry _ _ _ _ index_over _ _ _ _ Hw Ei) as [_ Ev].
  apply wp_bind. eapply wp_done; [unfold on_index; by rewrite Ev|]. apply wp_bind, wp_get.
  cbn [tl_data_ tl_handle_].
  assert (∀ w, tl_data_ t = Some w → i_status (w_iter_ w) = None) as Hst.
  { intros w Ew. unfold data_ok in Hd. rewrite Ew in Hd.
    destruct Hd as (j & kvs' & k' & p & Ek' & _ & (Hr & _)). by apply (proj2 (HD j kvs' Ek') _ _ Hr). }
  destruct (_ && _) eqn:Ec.
  - apply andb_true_iff in Ec as [Hdata%bool_decide_eq_true Heq%Z.eqb_eq].
    apply wp_ret. unfold data_ok in Hd. destruct (tl_data_ t) as [w|] eqn:Ew; [|by destruct Hdata].
    destruct Hd as (j & kvs' & k' & p & Ek' & Ej & Hwd).
    assert (i = j) as <- by (by eapply Hhandles). rewrite Ei in Ej. injection Ej as <- Eh.
    rewrite Ek in Ek'. injection Ek' as <-. split.
    + split_and!; try done. unfold data_ok. cbn. rewrite Eh in Ei. by exists i, kvs, k, p.
    + exists p, kvs, k, h, w. by split_and!.
  - destruct (Hblock i k h (tl_arg_ t) Ei Ha) as (it & a' & Eb & Hit & Ha').
    apply wp_bind. eapply wp_done; [unfold call_block_function; cbn [tl_arg_]; by rewrite Eb|].
    apply wp_bind. eapply wp_done; [done|]. eapply wp_mono.
    + by eapply wp_SetData.
    + intros [] t' [H1 H2]. split; [done|]. by exists None.
Qed.

(** A move of the data iterator, when there is one. *)
Lemma wp_if_data (c : M (IteratorWrapper D) unit) q i p p' t :
  index_at q t → data_at i p t →
  (∀ kvs w, kvss !! i = Some kvs → wrapped kvs (Rd i) p w → ∃ w', c w = Done (tt, w') ∧ wrapped kvs (Rd i) p' w') →
  wp (on_data c) (λ _ t', index_at q t' ∧ data_at i p' t') t ∧
  wp (if_data c) (λ _ t', index_at q t' ∧ data_at i p' t') t.
Proof.
  intros (Ha & Hs & Hw & Hd) (kvs & k & h & w & Ek & Ei & Ew & Eh & Hwd) Hc.
  destruct (Hc kvs w Ek Hwd) as (w' & E & Hw').
  assert (wp (on_data c) (λ _ t', index_at q t' ∧ data_at i p' t') t) as H.
  { unfold wp, on_data. rewrite Ew, E. split.
    - split_and!; try done. unfold data_ok. cbn. subst h. by exists i, kvs, k, p'.
    - by exists kvs, k, h, w'. }
  split; [exact H|]. unfold if_data. apply wp_bind, wp_get. by rewrite Ew.
Qed.

Lemma run_Valid i p t : data_at i p t → tl_Valid t = bool_decide (is_Some p).
Proof.
  intros (kvs & k & h & w & Ek & Ei & Ew & Eh & Hwd). unfold tl_Valid. rewrite Ew.
  apply (io_valid _ _ _ _ (data_over i kvs Ek) _ _ Hwd).
Qed.

(** ** Positions *)

Definition tl_at (p : option nat) (t : st) : Prop :=
  match p with
  | None => (∃ q, index_at q t) ∧ tl_data_ t = None
  | Some n => ∃ i kvs m, index_at (Some i) t ∧ kvss !! i = Some kvs ∧ data_at i (Some m) t ∧
      (m < length kvs)%nat ∧ n = (offset kvss i + m)%nat
  end.

(** The states from which the loops skip: at the entry [m] of block [i], or before it;
    without data the index is at its end. *)
Definition forward_at (i m : nat) (t : st) : Prop :=
  index_at (at_pos idx i) t ∧
  match kvss !! i with
  | Some kvs => (m ≤ length kvs)%nat ∧ data_at i (at_pos kvs m) t
  | None => tl_data_ t = None ∧ m = O
  end.

Definition before_at (m : nat) : option nat := prev_pos m.
Definition backward_at (i m : nat) (t : st) : Prop :=
  ∃ kvs, kvss !! i = Some kvs ∧ index_at (Some i) t ∧ (m ≤ length kvs)%nat ∧ data_at i (prev_pos m) t.

Lemma at_pos_lt (l : entries) n : (n < length l)%nat → at_pos l n = Some n.
Proof. intros Hn. unfold at_pos. by rewrite (proj2 (Nat.ltb_lt _ _)). Qed.
Lemma at_pos_ge (l : entries) n : (length l ≤ n)%nat → at_pos l n = None.
Proof. intros Hn. unfold at_pos. by rewrite (proj2 (Nat.ltb_ge _ _)). Qed.

(** The index moves, and the data iterator with it. *)
Lemma wp_init {R} (c : M (IteratorWrapper X) unit) (f : M (IteratorWrapper D) unit) q q' pf t
    (k : unit → M st R) Q :
  index_at q t →
  (∀ w, wrapped idx Rx q w → ∃ w', c w = Done (tt, w') ∧ wrapped idx Rx q' w') →
  (∀ i p kvs w, q' = Some i → kvss !! i = Some kvs → wrapped kvs (Rd i) p w →
    ∃ w', f w = Done (tt, w') ∧ wrapped kvs (Rd i) (pf kvs) w') →
  (∀ t', index_at q' t' →
    match q' with
    | Some i => ∃ kvs, kvss !! i = Some kvs ∧ data_at i (pf kvs) t'
    | None => tl_data_ t' = None
    end → wp (k tt) Q t') →
  wp (on_index c ≫= λ _, InitDataBlock block_function ≫= λ _, if_data f ≫= k) Q t.
Proof.
  intros Ht Hc Hf Hk. apply wp_bind. eapply wp_mono; [by eapply wp_on_index|]. intros [] t1 (H1 & _).
  apply wp_bind. eapply wp_mono; [by apply wp_InitDataBlock|]. intros [] t2 (H2 & Hd2).
  apply wp_bind. destruct q' as [i|].
  - destruct Hd2 as [p Hd2]. pose proof Hd2 as (kvs & _ & _ & _ & Ek & _).
    eapply wp_mono; [eapply (wp_if_data f _ i p (pf kvs)); [exact H2|exact Hd2|]|].
    + intros kvs' w Ek' Hw. assert (kvs' = kvs) as -> by congruence. by apply (Hf i p kvs w).
    + intros [] t3 [H3 Hd3]. apply Hk; [done|]. by exists kvs.
  - unfold if_data. apply wp_bind, wp_get. rewrite Hd2. apply wp_ret. by apply Hk.
Qed.

Lemma index_bound i t : index_at (Some i) t → (i < length idx)%nat.
Proof. intros (_ & _ & Hw & _). by apply (io_bound _ _ _ _ index_over _ _ Hw). Qed.

(** ** Skipping *)

Lemma at_end t q : index_at q t → tl_data_ t = None → tl_at None t.
Proof. intros Ht E. split; [by exists q|done]. Qed.

Lemma wp_skip_end move seek t :
  index_at None t → tl_data_ t = None →
  wp (skip_step block_function move seek tt) (λ r t', r = inr tt ∧ tl_at None t') t.
Proof.
  intros Hix Hd. unfold skip_step. apply wp_bind, wp_get. unfold tl_Valid. rewrite Hd.
  apply wp_bind. eapply wp_index_valid; [exact Hix|].
  rewrite bool_decide_eq_false_2 by (by intros [? ?]). cbn [negb].
  apply wp_bind. eapply wp_mono; [by apply wp_SetNull|]. intros [] t1 [H1 Hd1]. apply wp_ret.
  split; [done|by eapply at_end].
Qed.

Lemma wp_skip_forward i m t :
  forward_at i m t → wp (SkipEmptyDataBlocksForward block_function bound)
    (λ _ t', tl_at (at_pos all (offset kvss i + m)) t') t.
Proof.
  intros Ht. unfold SkipEmptyDataBlocksForward.
  eapply (wp_loop_upto (λ k _ t', ∃ i' m', k = (S (length kvss) - i')%nat ∧ forward_at i' m' t' ∧
    (offset kvss i' + m')%nat = (offset kvss i + m)%nat) (S (length kvss) - i)%nat).
  { by exists i, m. }
  { lia. }
  clear t Ht. intros k [] t (i' & m' & -> & (Hi & Hd) & Eoff).
  destruct (kvss !! i') as [kvs|] eqn:Ek.
  - unfold skip_step. apply wp_bind, wp_get. destruct Hd as [Hm Hd]. pose proof (lookup_lt_Some _ _ _ Ek) as Hlt.
    rewrite at_pos_lt in Hi by lia. rewrite (run_Valid _ _ _ Hd).
    destruct (decide (m' < length kvs)%nat) as [Hm'|Hm'].
    + rewrite at_pos_lt in * by done. rewrite bool_decide_eq_true_2 by done. apply wp_ret.
      pose proof (offset_le _ _ _ Ek). rewrite <-Eoff, at_pos_lt by lia.
      exists i', kvs, m'. by split_and!.
    + rewrite at_pos_ge in * by lia. rewrite bool_decide_eq_false_2 by (by intros [? ?]).
      apply wp_bind. eapply wp_index_valid; [exact Hi|]. rewrite bool_decide_eq_true_2 by done. cbn [negb].
      apply (wp_init i_Next i_SeekToFirst _ (at_pos idx (S i')) (λ kvs, at_pos kvs 0) _ _ _ Hi).
      * intros w Hw. by eapply io_next; [apply index_over|].
      * intros j p kvs' w _ Ek' Hw. by eapply io_first; [apply data_over|].
      * intros t' Hi' Hd'. apply wp_ret. exists (S (length kvss) - S i')%nat. split; [lia|].
        exists (S i'), O. split_and!; [done| |rewrite (concat_offset_S _ _ _ Ek); lia].
        split; [done|]. destruct (decide (S i' < length idx)%nat) as [Hs|Hs].
        -- rewrite at_pos_lt in Hd' by done. destruct Hd' as (kvs' & -> & Hd'). split; [lia|done].
        -- rewrite at_pos_ge in Hd' by lia. by rewrite lookup_ge_None_2 by lia.
  - destruct Hd as [Hd ->]. pose proof Ek as Hge%lookup_ge_None.
    rewrite at_pos_ge in Hi by lia. eapply wp_mono; [by apply wp_skip_end|]. intros r t1 [-> H1].
    by rewrite <-Eoff, (offset_all kvss i'), at_pos_ge by lia.
Qed.

Lemma wp_skip_backward i m t :
  backward_at i m t → wp (SkipEmptyDataBlocksBackward block_function bound)
    (λ _ t', tl_at (prev_pos (offset kvss i + m)) t') t.
Proof.
  intros Ht. unfold SkipEmptyDataBlocksBackward.
  assert (i < length kvss)%nat as Hi by (destruct Ht as (kvs & Ek & _); by eapply lookup_lt_Some).
  eapply (wp_loop_upto (λ k _ t',
    (∃ i' m', k = S i' ∧ backward_at i' m' t' ∧
      (offset kvss i' + m')%nat = (offset kvss i + m)%nat) ∨
    (k = O ∧ index_at None t' ∧ tl_data_ t' = None ∧ (offset kvss i + m = 0)%nat)) (S i)).
  { left. by exists i, m. }
  { lia. }
  clear t Ht. intros k [] t [(i' & m' & -> & (kvs & Ek & Hix & Hm & Hd) & Eoff)|(-> & Hix & Hd & E0)];
    [unfold skip_step; apply wp_bind, wp_get|].
  - rewrite (run_Valid _ _ _ Hd). destruct m' as [|m']; cbn [prev_pos] in *.
    + rewrite bool_decide_eq_false_2 by (by intros [? ?]). apply wp_bind. eapply wp_index_valid; [exact Hix|]. rewrite bool_decide_eq_true_2 by done. cbn [negb].
      apply (wp_init i_Prev i_SeekToLast _ (prev_pos i') (λ kvs, prev_pos (length kvs)) _ _ _ Hix).
      * intros w Hw. by eapply io_prev; [apply index_over|].
      * intros j p kvs' w _ Ek' Hw. rewrite <-last_pos. by eapply io_last; [apply data_over|].
      * intros t' Hi' Hd'. apply wp_ret. destruct i' as [|i']; simpl in *.
        -- exists O. split; [lia|]. right. by split_and!.
        -- destruct Hd' as (kvs' & Ek' & Hd'). exists (S i'). split; [lia|]. left.
           exists i', (length kvs'). split_and!; [done| |by rewrite <-(concat_offset_S _ _ _ Ek'), <-Eoff; lia].
           by exists kvs'.
    + rewrite bool_decide_eq_true_2 by done. apply wp_ret. rewrite <-Eoff, Nat.add_succ_r. cbn [prev_pos]. exists i', kvs, m'. by split_and!.
  - eapply wp_mono; [by apply wp_skip_end|]. intros r t1 [-> H1]. by rewrite E0.
Qed.

(** ** The contract *)

Lemma all_sorted : keys_sorted all.
Proof.
  apply sorted_of_lookup. intros n1 n2 a b Ea Eb Hlt.
  apply concat_lookup_inv in Ea as (i & kvs1 & m1 & Ei & Em1 & ->).
  apply concat_lookup_inv in Eb as (j & kvs2 & m2 & Ej & Em2 & ->).
  destruct (Nat.lt_trichotomy i j) as [Hij|[->|Hij]].
  - destruct (lookup_lt_is_Some_2 idx i) as [[k h] Ek]; [rewrite Hlen; by eapply lookup_lt_Some|].
    eapply compare_le_lt_trans; [by eapply Hbelow, list_elem_of_lookup_2|].
    by eapply Habove, list_elem_of_lookup_2.
  - rewrite Ei in Ej. injection Ej as <-.
    apply (keys_sorted_lookup kvs1 m1 m2); [by eapply Hblocks_sorted|done|done|lia].
  - pose proof (offset_mono kvss (S j) i ltac:(lia)) as Hm. rewrite (concat_offset_S _ _ _ Ej) in Hm.
    apply lookup_lt_Some in Em2. lia.
Qed.

(** The place of a target. *)
Lemma lower_bound_all target :
  let i := lower_bound idx target in
  lower_bound all target =
    (offset kvss i + match kvss !! i with Some kvs => lower_bound kvs target | None => O end)%nat.
Proof.
  intros i. pose proof (cut_le (below target) idx) as Hi. fold (lower_bound idx target) in Hi. fold i in Hi.
  assert (∀ j kvs kv, kvss !! j = Some kvs → kv ∈ kvs → (j < i)%nat → compare_ kv.1 target < 0) as Hlow.
  { intros j kvs kv Ej Hkv Hj. destruct (lookup_lt_is_Some_2 idx j) as [[k h] Ek]; [lia|].
    pose proof (cut_below _ _ _ _ Ek Hj) as Hb%Z.ltb_lt. eapply compare_le_lt_trans; [by eapply Hbelow|exact Hb]. }
  assert (∀ j kvs kv, kvss !! j = Some kvs → kv ∈ kvs → (i < j)%nat → 0 ≤ compare_ kv.1 target) as Hhigh.
  { intros j kvs kv Ej Hkv Hj. pose proof (lookup_lt_Some _ _ _ Ej) as Hjl.
    destruct (lookup_lt_is_Some_2 idx i) as [[k h] Ek]; [lia|].
    pose proof (cut_at _ _ _ Ek) as Hb%Z.ltb_ge. apply compare_nlt_ge. simpl in Hb.
    apply compare_trans with k; [by apply compare_nlt_ge|]. apply Z.lt_le_incl. by eapply Habove. }
  assert (match kvss !! i with Some kvs => lower_bound kvs target ≤ length kvs | None => True end)%nat as Hm.
  { destruct (kvss !! i) as [kvs|]; [apply cut_le|done]. }
  set (m := match kvss !! i with Some kvs => lower_bound kvs target | None => O end).
  assert (offset kvss i + m ≤ length all)%nat as Hle.
  { destruct (kvss !! i) as [kvs|] eqn:Ek; unfold m.
    - pose proof (offset_le _ _ _ Ek). lia.
    - apply lookup_ge_None in Ek. rewrite offset_all by done. lia. }
  apply lower_bound_unique; [done| |].
  - intros n kv E Hn. apply concat_lookup_inv in E as (j & kvs & p & Ej & Ep & ->).
    pose proof (list_elem_of_lookup_2 _ _ _ Ep) as Hin. pose proof (lookup_lt_Some _ _ _ Ep) as Hp.
    destruct (Nat.lt_trichotomy j i) as [Hji|[->|Hji]]; [by eapply Hlow| |].
    + unfold m in Hn. rewrite Ej in Hn. apply Z.ltb_lt. eapply (cut_below (below target) kvs p); [done|].
      unfold lower_bound in Hn. lia.
    + exfalso. pose proof (offset_mono kvss (S i) j ltac:(lia)) as Ho.
      destruct (kvss !! i) as [kvs'|] eqn:Ek; unfold m in Hn.
      * rewrite (concat_offset_S _ _ _ Ek) in Ho. lia.
      * apply lookup_ge_None in Ek. apply lookup_lt_Some in Ej. lia.
  - intros kv E. apply concat_lookup_inv in E as (j & kvs & p & Ej & Ep & En).
    pose proof (list_elem_of_lookup_2 _ _ _ Ep) as Hin. pose proof (lookup_lt_Some _ _ _ Ep) as Hp.
    destruct (Nat.lt_trichotomy j i) as [Hji|[->|Hji]]; [| |by eapply Hhigh].
    + exfalso. pose proof (offset_mono kvss (S j) i ltac:(lia)) as Ho.
      rewrite (concat_offset_S _ _ _ Ej) in Ho. lia.
    + unfold m in En. rewrite Ej in En. assert (p = lower_bound kvs target) as -> by lia.
      apply Z.ltb_ge. by eapply (cut_at (below target) kvs).
Qed.

Lemma tl_index p t : tl_at p t → ∃ q, index_at q t.
Proof.
  destruct p as [n|]; [|by intros [Hq _]]. intros (i & kvs & m & H & _). by exists (Some i).
Qed.

(** After the index went to the place [i], at the entry [m] of its block. *)
Lemma forward_of i t pf :
  (i ≤ length idx)%nat → index_at (at_pos idx i) t →
  match at_pos idx i with
  | Some i => ∃ kvs, kvss !! i = Some kvs ∧ data_at i (at_pos kvs (pf kvs)) t
  | None => tl_data_ t = None
  end →
  (∀ kvs, (pf kvs ≤ length kvs)%nat) →
  forward_at i (match kvss !! i with Some kvs => pf kvs | None => O end) t.
Proof.
  intros Hi Ht Hd Hpf. split; [done|]. destruct (decide (i < length idx)%nat).
  - rewrite at_pos_lt in Hd by done. destruct Hd as (kvs & -> & Hd). by split.
  - rewrite at_pos_ge in Hd by lia. by rewrite lookup_ge_None_2 by lia.
Qed.

Lemma wp_tl_SeekToFirst p t :
  tl_at p t → wp (tl_SeekToFirst block_function bound) (λ _ t', tl_at (at_pos all 0) t') t.
Proof.
  intros (q & Hq)%tl_index. unfold tl_SeekToFirst.
  apply (wp_init i_SeekToFirst i_SeekToFirst q (at_pos idx 0) (λ kvs, at_pos kvs 0) _ _ _ Hq).
  - intros w Hw. by eapply io_first; [apply index_over|].
  - intros i p' kvs w _ Ek Hw. by eapply io_first; [apply data_over|].
  - intros t' Hi Hd. eapply wp_mono; [eapply (wp_skip_forward 0), (forward_of 0 t' (λ _, O))|].
    + lia.
    + done.
    + done.
    + lia.
    + intros [] t2 H2. rewrite offset_0 in H2. by destruct (kvss !! 0%nat).
Qed.

Lemma wp_tl_Seek p target t :
  tl_at p t → T target →
  wp (tl_Seek block_function bound target) (λ _ t', tl_at (at_pos all (lower_bound all target)) t') t.
Proof.
  intros (q & Hq)%tl_index HT. unfold tl_Seek. set (i := lower_bound idx target).
  apply (wp_init (i_Seek target) (i_Seek target) q (at_pos idx i)
    (λ kvs, at_pos kvs (lower_bound kvs target)) _ _ _ Hq).
  - intros w Hw. by eapply io_seek; [apply index_over| |].
  - intros j p' kvs w _ Ek Hw. by eapply io_seek; [apply data_over| |].
  - intros t' Hi Hd. pose proof (lower_bound_all target) as El. cbv zeta in El. fold i in El. rewrite El.
    apply wp_skip_forward. apply (forward_of i t' (λ kvs, lower_bound kvs target)).
    + apply cut_le.
    + done.
    + done.
    + intros kvs. apply cut_le.
Qed.

Lemma wp_tl_SeekToLast p t :
  tl_at p t → wp (tl_SeekToLast block_function bound) (λ _ t', tl_at (at_pos all (length all - 1)) t') t.
Proof.
  intros (q & Hq)%tl_index. unfold tl_SeekToLast.
  apply (wp_init i_SeekToLast i_SeekToLast q (prev_pos (length idx)) (λ kvs, prev_pos (length kvs)) _ _ _ Hq).
  - intros w Hw. rewrite <-last_pos. by eapply io_last; [apply index_over|].
  - intros i p' kvs w _ Ek Hw. rewrite <-last_pos. by eapply io_last; [apply data_over|].
  - intros t' Hi Hd. rewrite last_pos.
    assert (∃ n, length idx = n) as [n En] by eauto. rewrite En in Hi, Hd.
    destruct n as [|n]; cbn [prev_pos] in *.
    + replace kvss with (@nil entries) by (symmetry; apply nil_length_inv; lia).
      unfold SkipEmptyDataBlocksBackward, wp.
      destruct (wp_run _ _ _ (wp_skip_end i_Prev i_SeekToLast t' Hi Hd)) as (r & t2 & E & -> & H2).
      by rewrite (loop_inr _ _ _ _ tt t2) by (done || lia).
    + destruct Hd as (kvs & Ek & Hd). rewrite <-(offset_all kvss (S n)), (concat_offset_S _ _ _ Ek) by lia.
      apply wp_skip_backward. by exists kvs.
Qed.

(** A step of the data iterator. *)
Lemma wp_data_step (c : M (IteratorWrapper D) unit) (k : M st unit) Q i kvs m p' t :
  index_at (Some i) t → kvss !! i = Some kvs → data_at i (Some m) t →
  (∀ w, wrapped kvs (Rd i) (Some m) w → ∃ w', c w = Done (tt, w') ∧ wrapped kvs (Rd i) p' w') →
  (∀ t', index_at (Some i) t' → data_at i p' t' → wp k Q t') →
  wp (when_valid (on_data c;; k)) Q t.
Proof.
  intros Hi Ek Hd Hc Hk. unfold when_valid. apply wp_bind, wp_get. rewrite (run_Valid _ _ _ Hd).
  apply wp_bind, wp_ret, wp_bind. eapply wp_mono.
  { eapply (wp_if_data c (Some i) i (Some m) p'); [done|done|]. intros kvs' w Ek'.
    assert (kvs' = kvs) as -> by congruence. apply Hc. }
  intros [] t' [H1 H2]. by apply Hk.
Qed.

Lemma wp_tl_Next n t :
  tl_at (Some n) t → wp (tl_Next block_function bound) (λ _ t', tl_at (at_pos all (S n)) t') t.
Proof.
  intros (i & kvs & m & Hi & Ek & Hd & Hm & ->). unfold tl_Next.
  eapply (wp_data_step _ _ _ i kvs m (at_pos kvs (S m))); [done..| |].
  - intros w Hw. by eapply io_next; [by apply data_over|].
  - intros t' Hi' Hd'. rewrite <-Nat.add_succ_r. apply wp_skip_forward. split.
    + by rewrite at_pos_lt by (by eapply index_bound).
    + rewrite Ek. by split.
Qed.

Lemma wp_tl_Prev n t :
  tl_at (Some n) t → wp (tl_Prev block_function bound) (λ _ t', tl_at (prev_pos n) t') t.
Proof.
  intros (i & kvs & m & Hi & Ek & Hd & Hm & ->). unfold tl_Prev.
  eapply (wp_data_step _ _ _ i kvs m (prev_pos m)); [done..| |].
  - intros w Hw. by eapply io_prev; [by apply data_over|].
  - intros t' Hi' Hd'. apply wp_skip_backward. exists kvs. split_and!; [done..|lia|done].
Qed.

Lemma tl_entry n t k v :
  tl_at (Some n) t → all !! n = Some (k, v) →
  when_valid (on_data i_key) t = Done (k, t) ∧ when_valid (on_data i_value) t = Done (v, t).
Proof.
  intros (i & kvs & m & Hi & Ek & Hd & Hm & ->) E. rewrite (concat_lookup _ _ _ _ Ek Hm) in E.
  pose proof (run_Valid _ _ _ Hd) as Hv. destruct Hd as (kvs' & k' & h & w & Ek' & _ & Ew & _ & Hw).
  assert (kvs' = kvs) as -> by congruence.
  destruct (io_entry _ _ _ _ (data_over i kvs Ek) _ _ _ _ Hw E) as [E1 E2].
  unfold when_valid. rewrite !bind_get, !bind_assert by done. unfold on_data. rewrite Ew, E1, E2.
  by destruct t; simpl in *; subst.
Qed.

Lemma tl_iter_over : iter_over (two_level_ops block_function bound) T all tl_at.
Proof.
  assert (∀ (c : M st unit) Q t, wp c (λ _ t', Q t') t → ∃ t', c t = Done (tt, t') ∧ Q t') as Hrun.
  { intros c Q t Hc. destruct (wp_run _ _ _ Hc) as ([] & t' & E & HQ). by exists t'. }
  split; cbn [two_level_ops i_Valid i_SeekToFirst i_SeekToLast i_Seek i_Next i_Prev i_key i_value].
  - intros [n|] t; [|by intros [_ E]; unfold tl_Valid; rewrite E].
    intros (i & kvs & m & Hi & Ek & Hd & _). by rewrite (run_Valid _ _ _ Hd).
  - intros n t (i & kvs & m & Hi & Ek & Hd & Hm & ->). pose proof (offset_le _ _ _ Ek). lia.
  - intros n t k v. apply tl_entry.
  - intros p t Ht. by apply Hrun, (wp_tl_SeekToFirst p).
  - intros p t Ht. by apply Hrun, (wp_tl_SeekToLast p).
  - intros p t target Ht HTt. by apply Hrun, (wp_tl_Seek p).
  - intros n t Ht. by apply Hrun, wp_tl_Next.
  - intros n t Ht. by apply Hrun, wp_tl_Prev.
Qed.

Lemma new_tl_at x a :
  Rx None x → arg_ok a → ∃ t, new_TwoLevelIterator x a = Done t ∧ tl_at None t.
Proof.
  intros Hx Ha. unfold new_TwoLevelIterator.
  destruct (run_new_Wrapper T idx Rx HX None x Hx) as (w & -> & Hw). eexists. split; [done|].
  split; [|done]. by exists None.
Qed.

Lemma tl_no_error `{IterStatus X} p t :
  (∀ q x, Rx q x → i_status x = None) → tl_at p t → tl_status t = None ∧ arg_ok (tl_arg_ t).
Proof.
  intros Hx (q & Ha & Hs & (Hw & _) & Hd)%tl_index. split; [|done]. unfold tl_status.
  rewrite (Hx _ _ Hw). unfold data_ok in Hd. destruct (tl_data_ t) as [w|]; [|done].
  destruct Hd as (j & kvs & k & p' & Ek & _ & Hr & _). by rewrite (proj2 (HD j kvs Ek) _ _ Hr).
Qed.
End spec.
