(* ===== verification/LdbDBIter.v ===== *)
(** * leveldb: the iterator of the database (db/db_iter.cc)

    The entries of the database are updates, with sequence numbers and types, in the
    order of internal keys. [DBIter] goes over them with an iterator of any kind, and
    gives each user key once, with the value it has at a sequence number. *)
From S2P Require Import Prelude LdbCoding LdbRandom SkipList SkipListSpec LdbFormat LdbIterator.

(** [config::kReadBytesPeriod] *)
Definition kReadBytesPeriod : Z := 1048576.

Section db_iter.
Context `{UC : Comparator (list Z)} {C : Type} `{I : IterOps C}.

(** [di_forward_] is [direction_ == kForward]. [di_samples_] are the keys that were
    given to [db_->RecordReadSample], the last one first. *)
Record DBIter := MkDBIter {
  di_iter_ : C;
  di_status_ : option string;
  di_saved_key_ : list Z;
  di_saved_value_ : list Z;
  di_forward_ : bool;
  di_valid_ : bool;
  di_rnd_ : Z;
  di_bytes_counter_ : Z;
  di_samples_ : list (list Z);
}.

(** [sequence_], and a bound on the turns of the loops over the internal iterator. *)
Variables (sequence_ bound : Z).

(** ** The members *)

Definition set_iter (it : C) (d : DBIter) : DBIter :=
  MkDBIter it (di_status_ d) (di_saved_key_ d) (di_saved_value_ d) (di_forward_ d)
    (di_valid_ d) (di_rnd_ d) (di_bytes_counter_ d) (di_samples_ d).
Definition set_status (msg : string) : M DBIter unit := λ d,
  Done (tt, MkDBIter (di_iter_ d) (Some msg) (di_saved_key_ d) (di_saved_value_ d)
    (di_forward_ d) (di_valid_ d) (di_rnd_ d) (di_bytes_counter_ d) (di_samples_ d)).
Definition SaveKey (k : list Z) : M DBIter unit := λ d,
  Done (tt, MkDBIter (di_iter_ d) (di_status_ d) k (di_saved_value_ d)
    (di_forward_ d) (di_valid_ d) (di_rnd_ d) (di_bytes_counter_ d) (di_samples_ d)).
Definition save_value (v : list Z) : M DBIter unit := λ d,
  Done (tt, MkDBIter (di_iter_ d) (di_status_ d) (di_saved_key_ d) v
    (di_forward_ d) (di_valid_ d) (di_rnd_ d) (di_bytes_counter_ d) (di_samples_ d)).
Definition set_forward (b : bool) : M DBIter unit := λ d,
  Done (tt, MkDBIter (di_iter_ d) (di_status_ d) (di_saved_key_ d) (di_saved_value_ d)
    b (di_valid_ d) (di_rnd_ d) (di_bytes_counter_ d) (di_samples_ d)).
Definition set_valid (b : bool) : M DBIter unit := λ d,
  Done (tt, MkDBIter (di_iter_ d) (di_status_ d) (di_saved_key_ d) (di_saved_value_ d)
    (di_forward_ d) b (di_rnd_ d) (di_bytes_counter_ d) (di_samples_ d)).
Definition set_counter (n : Z) : M DBIter unit := λ d,
  Done (tt, MkDBIter (di_iter_ d) (di_status_ d) (di_saved_key_ d) (di_saved_value_ d)
    (di_forward_ d) (di_valid_ d) (di_rnd_ d) n (di_samples_ d)).
Definition set_rnd (seed : Z) : M DBIter unit := λ d,
  Done (tt, MkDBIter (di_iter_ d) (di_status_ d) (di_saved_key_ d) (di_saved_value_ d)
    (di_forward_ d) (di_valid_ d) seed (di_bytes_counter_ d) (di_samples_ d)).
Definition RecordReadSample (k : list Z) : M DBIter unit := λ d,
  Done (tt, MkDBIter (di_iter_ d) (di_status_ d) (di_saved_key_ d) (di_saved_value_ d)
    (di_forward_ d) (di_valid_ d) (di_rnd_ d) (di_bytes_counter_ d) (k :: di_samples_ d)).

(** The capacity of the string is not a part of the model. *)
Definition ClearSavedValue : M DBIter unit := save_value [].

(** A call of [iter_]. *)
Definition on_internal {A} (c : M C A) : M DBIter A := λ d,
  match c (di_iter_ d) with
  | Done (a, it) => Done (a, set_iter it d)
  | Undef => Undef
  | NoFuel => NoFuel
  end.
Definition internal_valid : M DBIter bool := d ← get_state; mret (i_Valid (di_iter_ d)).

(** [ExtractUserKey], with its assertion. *)
Definition extract_user_key {St} (k : list Z) : M St (list Z) :=
  assert_ (8 <=? length k)%nat;; mret (ExtractUserKey k).

(** ** Sampling *)

Definition RandomPeriod : M DBIter Z :=
  d ← get_state;
  let '(n, seed) := Random_Uniform (2 * kReadBytesPeriod) (di_rnd_ d) in
  set_rnd seed;; mret n.

(** A [ssize_t]; an overflow is undefined. *)
Definition counter_add (n : Z) : M DBIter unit :=
  d ← get_state;
  let c := di_bytes_counter_ d + n in
  assert_ ((-2 ^ 63 <=? c) && (c <? 2 ^ 63));; set_counter c.

Definition sample_step (k : list Z) (_ : unit) : M DBIter (unit + unit) :=
  d ← get_state;
  if di_bytes_counter_ d <? 0 then
    n ← RandomPeriod; counter_add n;; RecordReadSample k;; mret (inl tt)
  else mret (inr tt).

(** The key of the internal iterator; none when it is not an internal key. Of two
    periods that follow each other one is not 0, so that the bound is enough. *)
Definition ParseKey : M DBIter (option ParsedInternalKey) :=
  k ← on_internal i_key;
  v ← on_internal i_value;
  let n := s64 (u64 (Z.of_nat (length k) + Z.of_nat (length v))) in
  counter_add (- n);;
  loop (2 * Z.abs n + 2) (sample_step k) tt;;
  match ParseInternalKey k with
  | None => set_status "corrupted internal key in DBIter";; mret None
  | Some ikey => mret (Some ikey)
  end.

(** [ParseKey(&ikey) && ikey.sequence <= sequence_] *)
Definition parse_visible : M DBIter (option ParsedInternalKey) :=
  ikey ← ParseKey;
  mret (match ikey with
        | Some k => if sequence k <=? sequence_ then Some k else None
        | None => None
        end).

(** ** Forward *)

(** One turn of the loop of [FindNextUserEntry]; [skip] is [saved_key_] in every call. *)
Definition find_next_step (skipping : bool) : M DBIter (bool + unit) :=
  ikey ← parse_visible;
  r ← match ikey with
      | None => mret (inl skipping)
      | Some k =>
          if type_ k =? kTypeDeletion then SaveKey (user_key k);; mret (inl true)
          else if type_ k =? kTypeValue then
            d ← get_state;
            if skipping && (compare_ (user_key k) (di_saved_key_ d) <=? 0)
            then mret (inl skipping)
            else set_valid true;; SaveKey [];; mret (inr tt)
          else mret (inl skipping)
      end;
  match r with
  | inr _ => mret (inr tt)
  | inl skipping =>
      on_internal i_Next;;
      valid ← internal_valid;
      if (valid : bool) then mret (inl skipping)
      else SaveKey [];; set_valid false;; mret (inr tt)
  end.

Definition FindNextUserEntry (skipping : bool) : M DBIter unit :=
  valid ← internal_valid;
  assert_ valid;;
  d ← get_state;
  assert_ (di_forward_ d);;
  loop bound find_next_step skipping.

Definition di_Next : M DBIter unit :=
  d ← get_state;
  assert_ (di_valid_ d);;
  more ←
    (if negb (di_forward_ d) then
       set_forward true;;
       valid ← internal_valid;
       (if negb valid then on_internal i_SeekToFirst else on_internal i_Next);;
       valid ← internal_valid;
       if (valid : bool) then mret true
       else set_valid false;; SaveKey [];; mret false
     else
       k ← on_internal i_key;
       u ← extract_user_key k;
       SaveKey u;; mret true);
  if (more : bool) then FindNextUserEntry true else mret tt.

(** ** Backward *)

(** One turn of the loop of [FindPrevUserEntry], on [value_type]. *)
Definition find_prev_step (value_type : Z) : M DBIter (Z + Z) :=
  ikey ← parse_visible;
  d ← get_state;
  r ← match ikey with
      | None => mret (inl value_type)
      | Some k =>
          if negb (value_type =? kTypeDeletion) &&
             (compare_ (user_key k) (di_saved_key_ d) <? 0)
          then mret (inr value_type)
          else
            (if type_ k =? kTypeDeletion then SaveKey [];; ClearSavedValue
             else
               raw_value ← on_internal i_value;
               key ← on_internal i_key;
               u ← extract_user_key key;
               SaveKey u;; save_value raw_value);;
            mret (inl (type_ k))
      end;
  match r with
  | inr t => mret (inr t)
  | inl t =>
      on_internal i_Prev;;
      valid ← internal_valid;
      mret (if (valid : bool) then inl t else inr t)
  end.

Definition FindPrevUserEntry : M DBIter unit :=
  d ← get_state;
  assert_ (negb (di_forward_ d));;
  valid ← internal_valid;
  value_type ← (if (valid : bool) then loop bound find_prev_step kTypeDeletion
                else mret kTypeDeletion);
  if value_type =? kTypeDeletion then
    set_valid false;; SaveKey [];; ClearSavedValue;; set_forward true
  else set_valid true.

(** One turn of the loop of [Prev]: whether there is an entry of a smaller key. *)
Definition prev_scan_step (_ : unit) : M DBIter (unit + bool) :=
  on_internal i_Prev;;
  valid ← internal_valid;
  if negb valid then
    set_valid false;; SaveKey [];; ClearSavedValue;; mret (inr false)
  else
    k ← on_internal i_key;
    u ← extract_user_key k;
    d ← get_state;
    mret (if compare_ u (di_saved_key_ d) <? 0 then inr true else inl tt).

Definition di_Prev : M DBIter unit :=
  d ← get_state;
  assert_ (di_valid_ d);;
  more ←
    (if di_forward_ d then
       valid ← internal_valid;
       assert_ valid;;
       k ← on_internal i_key;
       u ← extract_user_key k;
       SaveKey u;;
       found ← loop bound prev_scan_step tt;
       (if (found : bool) then set_forward false;; mret true else mret false)
     else mret true);
  if (more : bool) then FindPrevUserEntry else mret tt.

(** ** Seeking *)

(** What [Seek] and [SeekToFirst] do once [iter_] is in its place. *)
Definition find_from_here : M DBIter unit :=
  valid ← internal_valid;
  if (valid : bool) then FindNextUserEntry false else set_valid false.

Definition di_Seek (target : list Z) : M DBIter unit :=
  set_forward true;;
  ClearSavedValue;;
  SaveKey [];;
  key ← lift_option (AppendInternalKey [] (MkParsed target sequence_ kValueTypeForSeek));
  SaveKey key;;
  on_internal (i_Seek key);;
  find_from_here.

Definition di_SeekToFirst : M DBIter unit :=
  set_forward true;; ClearSavedValue;; on_internal i_SeekToFirst;; find_from_here.
Definition di_SeekToLast : M DBIter unit :=
  set_forward false;; ClearSavedValue;; on_internal i_SeekToLast;; FindPrevUserEntry.

(** ** The interface *)

Definition di_key : M DBIter (list Z) :=
  d ← get_state;
  assert_ (di_valid_ d);;
  if di_forward_ d then k ← on_internal i_key; extract_user_key k else mret (di_saved_key_ d).
Definition di_value : M DBIter (list Z) :=
  d ← get_state;
  assert_ (di_valid_ d);;
  if di_forward_ d then on_internal i_value else mret (di_saved_value_ d).

Definition dbiter_ops : IterOps DBIter :=
  {| i_Valid := di_valid_;
     i_SeekToFirst := di_SeekToFirst; i_SeekToLast := di_SeekToLast; i_Seek := di_Seek;
     i_Next := di_Next; i_Prev := di_Prev; i_key := di_key; i_value := di_value |}.

(** [status] *)
Definition di_status `{IterStatus C} (d : DBIter) : option string :=
  match di_status_ d with None => i_status (di_iter_ d) | Some msg => Some msg end.

Definition new_DBIter (it : C) (seed : Z) : DBIter :=
  let '(n, seed) := Random_Uniform (2 * kReadBytesPeriod) (Random seed) in
  MkDBIter it None [] [] true false seed n [].
End db_iter.
Arguments DBIter : clear implicits.
