(* ===== verification/LdbMemTable.v ===== *)
(** * leveldb: memtables and write batches

    db/memtable.h, db/memtable.cc and db/write_batch.cc. A memtable is a skip list of
    encoded entries; a batch is a list of updates in one string, that gives them
    consecutive sequence numbers when it is applied. *)
From S2P Require Import Prelude LdbCoding LdbRandom SkipList SkipListSpec LdbFormat LdbIterator.

(** ** Entries *)

(** The [const char*] of an entry: its bytes, that never change. *)
Record mem_entry := MkEntry { me_data : list Z }.

(** [GetVarint32Ptr(p, p + 5, &len)]: the number and what follows it. *)
Definition entry_varint (data : list Z) : option (Z * list Z) :=
  let window := take 5 data in
  '(len, p) ← GetVarint32Ptr window;
  Some (len, drop (length window - length p) data).

(** The slice and what follows it; no value when it is out of the entry. *)
Definition mem_GetLengthPrefixedSlice (data : list Z) : option (list Z * list Z) :=
  '(len, p) ← entry_varint data;
  if Z.of_nat (length p) <? len then None
  else Some (take (Z.to_nat len) p, drop (Z.to_nat len) p).

(** The internal key of an entry, empty when the entry is corrupted. *)
Definition entry_ikey (e : mem_entry) : list Z :=
  match mem_GetLengthPrefixedSlice (me_data e) with Some (k, _) => k | None => [] end.

(** [MemTable::KeyComparator] *)
#[export] Instance mem_compare `{Comparator (list Z)} : Comparator mem_entry := λ a b,
  ikey_compare (entry_ikey a) (entry_ikey b).

#[export] Instance mem_compare_laws `{ComparatorLaws (list Z)} : ComparatorLaws mem_entry.
Proof.
  destruct (lex_laws (λ e, ExtractUserKey (entry_ikey e))
    (λ e, le_combine (drop (length (entry_ikey e) - 8) (entry_ikey e)))
    mem_compare ltac:(intros; reflexivity)) as (H1 & H2 & H3).
  split; [exact H1|exact H2|exact H3].
Qed.

Section memtable.
Context `{UC : Comparator (list Z)}.

(** ** The memtable *)

Record MemTable := MkMemTable { refs_ : Z; table_ : SkipList mem_entry }.

Definition new_MemTable : MemTable := MkMemTable 0 (new_skiplist (MkEntry [])).

Definition Ref : M MemTable unit :=
  m ← get_state; put_state (MkMemTable (refs_ m + 1) (table_ m)).
(** Whether the memtable deletes itself. *)
Definition Unref : M MemTable bool :=
  m ← get_state;
  put_state (MkMemTable (refs_ m - 1) (table_ m));;
  assert_ (0 <=? refs_ m - 1);;
  mret (refs_ m - 1 <=? 0).

Definition with_table {A} (c : M (SkipList mem_entry) A) : M MemTable A := λ m,
  match c (table_ m) with
  | Done (a, t) => Done (a, MkMemTable (refs_ m) t)
  | Undef => Undef
  | NoFuel => NoFuel
  end.

(** [MemTable::Add]; the entry must have exactly the length that was allocated. *)
Definition memtable_Add (s type : Z) (key value : list Z) : M MemTable unit :=
  let key_size := Z.of_nat (length key) in
  let val_size := Z.of_nat (length value) in
  let internal_key_size := key_size + 8 in
  let encoded_len :=
    VarintLength internal_key_size + internal_key_size + VarintLength val_size + val_size in
  let buf :=
    EncodeVarint32 (u32 internal_key_size) ++ key ++
    EncodeFixed64 (Z.lor (u64 (Z.shiftl s 8)) type) ++
    EncodeVarint32 (u32 val_size) ++ value in
  assert_ (Z.of_nat (length buf) =? encoded_len);;
  with_table (Insert (MkEntry buf)).

(** What [Get] gives: [false], or [true] with the value or with [NotFound]. *)
Inductive get_result : Type :=
  | GetFalse
  | GetValue (v : list Z)
  | GetNotFound.

(** The key must be inside of the entry; the program does not check it. *)
Definition memtable_Get (key : LookupKey) : M MemTable get_result :=
  iter ← with_table (Seek (MkEntry (memtable_key key)));
  if Valid iter then
    entry ← with_table (it_key iter);
    '(key_length, key_ptr) ← lift_option (entry_varint (me_data entry));
    assert_ ((8 <=? key_length) && (key_length <=? Z.of_nat (length key_ptr)));;
    let n := Z.to_nat (key_length - 8) in
    if compare_ (take n key_ptr) (lk_user_key key) =? 0 then
      tag ← lift_option (DecodeFixed64 (drop n key_ptr));
      if Z.land tag 0xff =? kTypeValue then
        '(v, _) ← lift_option (mem_GetLengthPrefixedSlice (drop (Z.to_nat key_length) key_ptr));
        mret (GetValue v)
      else if Z.land tag 0xff =? kTypeDeletion then mret GetNotFound
      else mret GetFalse
    else mret GetFalse
  else mret GetFalse.

(** ** Iterators of memtables *)

(** [EncodeKey] *)
Definition EncodeKey (target : list Z) : mem_entry :=
  MkEntry (PutVarint32 [] (u32 (Z.of_nat (length target))) ++ target).

Definition mit_Seek (k : list Z) : M MemTable Iterator := with_table (Seek (EncodeKey k)).
Definition mit_SeekToFirst : M MemTable Iterator := with_table SeekToFirst.
Definition mit_SeekToLast : M MemTable Iterator := with_table SeekToLast.
Definition mit_Next (it : Iterator) : M MemTable Iterator := with_table (it_Next it).
Definition mit_Prev (it : Iterator) : M MemTable Iterator := with_table (it_Prev it).
Definition mit_key (it : Iterator) : M MemTable (list Z) :=
  e ← with_table (it_key it);
  '(k, _) ← lift_option (mem_GetLengthPrefixedSlice (me_data e)); mret k.
Definition mit_value (it : Iterator) : M MemTable (list Z) :=
  e ← with_table (it_key it);
  '(_, p) ← lift_option (mem_GetLengthPrefixedSlice (me_data e));
  '(v, _) ← lift_option (mem_GetLengthPrefixedSlice p); mret v.

(** [MemTableIterator], with the memtable it points to; [tmp_] is scratch space. *)
Record MemTableIterator := MkMemIter { mit_iter_ : Iterator; mit_mem : MemTable }.
Definition mit_move (c : Iterator → M MemTable Iterator) : M MemTableIterator unit := λ s,
  match c (mit_iter_ s) (mit_mem s) with
  | Done (it, m) => Done (tt, MkMemIter it m)
  | Undef => Undef
  | NoFuel => NoFuel
  end.
Definition mit_read {A} (c : Iterator → M MemTable A) : M MemTableIterator A := λ s,
  match c (mit_iter_ s) (mit_mem s) with
  | Done (a, m) => Done (a, MkMemIter (mit_iter_ s) m)
  | Undef => Undef
  | NoFuel => NoFuel
  end.
Definition memtable_iter_ops : IterOps MemTableIterator :=
  {| i_Valid s := Valid (mit_iter_ s);
     i_SeekToFirst := mit_move (λ _, mit_SeekToFirst);
     i_SeekToLast := mit_move (λ _, mit_SeekToLast);
     i_Seek target := mit_move (λ _, mit_Seek target);
     i_Next := mit_move mit_Next;
     i_Prev := mit_move mit_Prev;
     i_key := mit_read mit_key;
     i_value := mit_read mit_value |}.
(** [MemTable::NewIterator] *)
Definition memtable_NewIterator (m : MemTable) : MemTableIterator := MkMemIter None m.
End memtable.

(** ** Write batches *)

(** [kHeader]: a sequence number and a count. *)
Definition kHeader : nat := 12.

(** A batch is its [rep_]. *)
Definition WriteBatch : Type := list Z.
Definition new_WriteBatch : WriteBatch := replicate kHeader 0.
Definition Clear (b : WriteBatch) : WriteBatch := replicate kHeader 0.

(** A number that is stored at a position; undefined out of the string. *)
Definition overwrite (l : list Z) (i : nat) (d : list Z) : option (list Z) :=
  if (i + length d <=? length l)%nat then Some (take i l ++ d ++ drop (i + length d) l) else None.

(** The sum of two [int]s: an overflow is undefined. *)
Definition int_add (a b : Z) : option Z :=
  if (- 2 ^ 31 <=? a + b) && (a + b <? 2 ^ 31) then Some (a + b) else None.

(** An [int]. *)
Definition Count (b : WriteBatch) : option Z := n ← DecodeFixed32 (drop 8 b); Some (s32 n).
Definition SetCount (b : WriteBatch) (n : Z) : option WriteBatch := overwrite b 8 (EncodeFixed32 (u32 n)).
Definition Sequence (b : WriteBatch) : option Z := DecodeFixed64 b.
Definition SetSequence (b : WriteBatch) (seq : Z) : option WriteBatch := overwrite b 0 (EncodeFixed64 seq).

Definition Put (b : WriteBatch) (key value : list Z) : option WriteBatch :=
  n ← Count b;
  n ← int_add n 1;
  b ← SetCount b n;
  let b := b ++ [kTypeValue] in
  Some (PutLengthPrefixedSlice (PutLengthPrefixedSlice b key) value).
Definition Delete (b : WriteBatch) (key : list Z) : option WriteBatch :=
  n ← Count b;
  n ← int_add n 1;
  b ← SetCount b n;
  let b := b ++ [kTypeDeletion] in
  Some (PutLengthPrefixedSlice b key).

(** No value when the assertion on the size of [contents] or of [src] fails, or when the
    sum of the counts overflows. *)
Definition SetContents (contents : list Z) : option WriteBatch :=
  if (kHeader <=? length contents)%nat then Some contents else None.
Definition batch_Append (dst src : WriteBatch) : option WriteBatch :=
  n ← Count dst;
  m ← Count src;
  n ← int_add n m;
  dst ← SetCount dst n;
  if (kHeader <=? length src)%nat then Some (dst ++ drop kHeader src) else None.

(** [WriteBatch::Handler], and the status of [Iterate]: OK or a corruption. *)
Class Handler (St : Type) := {
  handler_Put : list Z → list Z → M St unit;
  handler_Delete : list Z → M St unit;
}.

Section iterate.
Context {St : Type} `{Handler St}.

(** The loop of [Iterate]; a record has at least two bytes, or the loop ends. *)
Fixpoint iterate_loop (fuel : nat) (input : list Z) (found : Z) : M St (string + Z) :=
  match fuel with
  | O => no_fuel
  | S fuel' =>
      match input with
      | [] => mret (inr found)
      | tag :: input =>
          found ← lift_option (int_add found 1);
          if tag =? kTypeValue then
            match GetLengthPrefixedSlice input with
            | Some (key, input) =>
                match GetLengthPrefixedSlice input with
                | Some (value, input) =>
                    handler_Put key value;; iterate_loop fuel' input found
                | None => mret (inl "bad WriteBatch Put")
                end
            | None => mret (inl "bad WriteBatch Put")
            end
          else if tag =? kTypeDeletion then
            match GetLengthPrefixedSlice input with
            | Some (key, input) => handler_Delete key;; iterate_loop fuel' input found
            | None => mret (inl "bad WriteBatch Delete")
            end
          else mret (inl "unknown WriteBatch tag")
      end
  end.

(** [None] is OK. *)
Definition Iterate (b : WriteBatch) : M St (option string) :=
  if (length b <? kHeader)%nat then mret (Some "malformed WriteBatch (too small)")
  else
    r ← iterate_loop (S (length b)) (drop kHeader b) 0;
    match r with
    | inl msg => mret (Some msg)
    | inr found =>
        count ← lift_option (Count b);
        if found =? count then mret None else mret (Some "WriteBatch has wrong count")
    end.
End iterate.

(** [MemTableInserter] *)
Record MemTableInserter := MkInserter { sequence_ : Z; mem_ : MemTable }.

Section insert.
Context `{UC : Comparator (list Z)}.

Definition inserter_Add (type : Z) (key value : list Z) : M MemTableInserter unit := λ i,
  match memtable_Add (sequence_ i) type key value (mem_ i) with
  | Done (_, m) => Done (tt, MkInserter (u64 (sequence_ i + 1)) m)
  | Undef => Undef
  | NoFuel => NoFuel
  end.
#[export] Instance inserter : Handler MemTableInserter :=
  {| handler_Put key value := inserter_Add kTypeValue key value;
     handler_Delete key := inserter_Add kTypeDeletion key [] |}.

Definition InsertInto (b : WriteBatch) : M MemTable (option string) := λ m,
  match Sequence b with
  | None => Undef
  | Some seq =>
      match Iterate b (MkInserter seq m) with
      | Done (s, i) => Done (s, mem_ i)
      | Undef => Undef
      | NoFuel => NoFuel
      end
  end.
End insert.
