(* ===== verification/LdbMemTableSpec.v ===== *)
(** * leveldb: a memtable is a map with versions

    [Get] at a sequence number gives the newest update of the key that is not newer;
    a batch that was filled is applied to a memtable update by update. *)
From stdpp Require Import sorting.
From S2P Require Import Prelude Leb128 LdbCoding LdbRandom SkipList SkipListSpec LdbFormat LdbMemTable.

(** ** Updates *)

(** An update: a value, or a deletion, of a key at a sequence number. *)
Record update := MkUpdate {
  up_seq : Z;
  up_type : Z;
  up_key : list Z;
  up_value : list Z;
}.

Definition key_ok (key : list Z) : Prop :=
  Forall is_byte key ∧ Z.of_nat (length key) + 8 < 2 ^ 32.
Definition value_ok (v : list Z) : Prop := Forall is_byte v ∧ Z.of_nat (length v) < 2 ^ 32.
Definition update_ok (u : update) : Prop :=
  0 ≤ up_seq u ≤ kMaxSequenceNumber ∧ 0 ≤ up_type u ≤ 1 ∧ key_ok (up_key u) ∧ value_ok (up_value u).

Definition up_tag (u : update) : Z := up_seq u * 256 + up_type u.
Definition encode (u : update) : mem_entry :=
  MkEntry (prefixed (up_key u ++ EncodeFixed64 (up_tag u)) ++ prefixed (up_value u)).

Lemma up_tag_range u : update_ok u → 0 ≤ up_tag u < 2 ^ 64.
Proof. intros (Hs & Ht & _). by apply pack_tag. Qed.

Lemma entry_varint_put v l :
  0 ≤ v < 2 ^ 32 → Forall is_byte l → entry_varint (EncodeVarint32 v ++ l) = Some (v, l).
Proof.
  intros Hv Hl. unfold entry_varint.
  assert (length (EncodeVarint32 v) ≤ 5)%nat as Hlen.
  { rewrite EncodeVarint32_uleb by done. by apply uleb_length_32. }
  rewrite take_app_ge by done. rewrite get32_put by (by try apply Forall_take). simpl.
  do 2 f_equal. rewrite length_app.
  replace (length (EncodeVarint32 v) + _ - _)%nat with (length (EncodeVarint32 v)) by lia.
  apply drop_app_length.
Qed.

Lemma mem_get_prefixed v l :
  value_ok v → Forall is_byte l → mem_GetLengthPrefixedSlice (prefixed v ++ l) = Some (v, l).
Proof.
  intros [Hv Hlen] Hl. unfold mem_GetLengthPrefixedSlice, prefixed. rewrite <-app_assoc.
  rewrite entry_varint_put by (try apply Forall_app; (done || lia)). simpl.
  rewrite length_app, Nat2Z.inj_add, Nat2Z.id, (proj2 (Z.ltb_ge _ _)) by lia.
  by rewrite take_app_length, drop_app_length.
Qed.

Lemma ikey_value_ok key tag : key_ok key → value_ok (key ++ EncodeFixed64 tag).
Proof.
  intros [Hk Hl]. split; [apply Forall_app; split; [done|apply EncodeFixed64_bytes]|].
  unfold EncodeFixed64. rewrite length_app, length_le_split. lia.
Qed.

Lemma entry_ikey_prefixed key tag l :
  key_ok key → Forall is_byte l →
  entry_ikey (MkEntry (prefixed (key ++ EncodeFixed64 tag) ++ l)) = key ++ EncodeFixed64 tag.
Proof.
  intros Hk Hl. unfold entry_ikey. simpl. rewrite mem_get_prefixed; [done| |done].
  by apply ikey_value_ok.
Qed.

Lemma value_prefixed_bytes v : value_ok v → Forall is_byte (prefixed v).
Proof. intros [Hv Hl]. by apply prefixed_bytes. Qed.

Section spec.
Context `{UC : Comparator (list Z)} `{!ComparatorLaws (list Z)}.

(** The order of entries. *)
Definition version_compare (ka : list Z) (ta : Z) (kb : list Z) (tb : Z) : Z :=
  if compare_ ka kb =? 0 then if tb <? ta then -1 else if ta <? tb then 1 else compare_ ka kb
  else compare_ ka kb.

Lemma compare_entries ka ta la kb tb lb :
  key_ok ka → key_ok kb → Forall is_byte la → Forall is_byte lb →
  0 ≤ ta < 2 ^ 64 → 0 ≤ tb < 2 ^ 64 →
  compare_ (MkEntry (prefixed (ka ++ EncodeFixed64 ta) ++ la))
    (MkEntry (prefixed (kb ++ EncodeFixed64 tb) ++ lb)) = version_compare ka ta kb tb.
Proof.
  intros. unfold compare_ at 1, mem_compare. rewrite !entry_ikey_prefixed by done.
  by apply ikey_compare_tags.
Qed.

Lemma compare_encode u1 u2 :
  update_ok u1 → update_ok u2 →
  compare_ (encode u1) (encode u2) = version_compare (up_key u1) (up_tag u1) (up_key u2) (up_tag u2).
Proof.
  intros H1 H2. apply compare_entries; try apply H1; try apply H2.
  - apply value_prefixed_bytes, H1.
  - apply value_prefixed_bytes, H2.
  - by apply up_tag_range.
  - by apply up_tag_range.
Qed.

(** ** Adding updates *)

(** The memtable holds some updates, the oldest first. *)
Definition holds (m : MemTable) (us : list update) : Prop :=
  (∃ ks, contents (table_ m) ks ∧ ks ≡ₚ encode <$> us) ∧ Forall update_ok us ∧
  StronglySorted (λ a b, up_seq a < up_seq b) us.

Lemma run_with_table {A} (c : M (SkipList mem_entry) A) m a t :
  c (table_ m) = Done (a, t) → with_table c m = Done (a, MkMemTable (refs_ m) t).
Proof. unfold with_table. by intros ->. Qed.

Lemma new_holds : holds new_MemTable [].
Proof.
  split; [|by split; constructor]. exists []. split; [|done].
  exists (λ _, []). split; [apply new_inv|done].
Qed.

Lemma add_buffer s type key value :
  update_ok (MkUpdate s type key value) →
  EncodeVarint32 (u32 (Z.of_nat (length key) + 8)) ++ key ++
    EncodeFixed64 (Z.lor (u64 (Z.shiftl s 8)) type) ++
    EncodeVarint32 (u32 (Z.of_nat (length value))) ++ value =
  me_data (encode (MkUpdate s type key value)).
Proof.
  intros (Hs & Ht & [Hk Hkl] & [Hv Hvl]). simpl in *. unfold prefixed, up_tag. simpl.
  destruct (pack_tag s type Hs Ht) as [Ep _]. unfold PackSequenceAndType in Ep.
  destruct (_ && _); [|done]. injection Ep as ->.
  assert (Z.of_nat (length (key ++ EncodeFixed64 (s * 256 + type))) = Z.of_nat (length key) + 8) as El.
  { unfold EncodeFixed64. rewrite length_app, length_le_split. lia. }
  rewrite El, !wrapu_small by lia. by rewrite <-!app_assoc.
Qed.

Lemma VarintLength_put v :
  0 ≤ v < 2 ^ 32 → VarintLength v = Z.of_nat (length (EncodeVarint32 v)).
Proof.
  intros Hv. unfold VarintLength. rewrite varint_length_uleb by (simpl; pow2; lia).
  rewrite EncodeVarint32_uleb by done. unfold uleb. lia.
Qed.

Lemma run_Add m us u :
  holds m us → update_ok u → Forall (λ v, up_seq v < up_seq u) us →
  ∃ m', memtable_Add (up_seq u) (up_type u) (up_key u) (up_value u) m = Done (tt, m') ∧
    holds m' (us ++ [u]) ∧ refs_ m' = refs_ m.
Proof.
  intros ((ks & Hc & Hp) & Hus & Hs) Hu Hlt.
  pose proof Hu as (Hsq & Hty & [Hk Hkl] & [Hv Hvl]).
  destruct (contents_insert (table_ m) ks (encode u) Hc) as (t & E & Hc').
  { apply Forall_forall. intros e He. rewrite Hp in He. apply list_elem_of_fmap in He as (v & -> & Hv').
    rewrite Forall_forall in Hus, Hlt. specialize (Hus v Hv'). specialize (Hlt v Hv').
    rewrite compare_encode by done. unfold version_compare, up_tag.
    pose proof Hus as (_ & Htv & _).
    destruct (Z.eqb_spec (compare_ (up_key v) (up_key u)) 0); [|done].
    rewrite (proj2 (Z.ltb_ge _ _)), (proj2 (Z.ltb_lt _ _)) by lia. done. }
  exists (MkMemTable (refs_ m) t). split_and!; [|split_and!|done].
  - unfold memtable_Add. cbv zeta. destruct u as [s ty key value]. cbn [up_seq up_type up_key up_value] in *.
    rewrite add_buffer by done. rewrite bind_assert.
    + by apply run_with_table.
    + apply Z.eqb_eq. rewrite <-add_buffer by done. rewrite !length_app.
      unfold EncodeFixed64. rewrite length_le_split, !wrapu_small by lia.
      rewrite !VarintLength_put by lia. lia.
  - eexists. split; [exact Hc'|]. rewrite fmap_app. simpl.
    rewrite <-Permutation_middle, <-(keys_split _ _ (encode u) Hc), Hp.
    by rewrite Permutation_app_comm.
  - apply Forall_app. by split; [|constructor].
  - apply StronglySorted_app. split_and!; [|done|by repeat constructor].
    intros a b Ha ->%list_elem_of_singleton. rewrite Forall_forall in Hlt. by apply Hlt.
Qed.

(** ** Looking up *)

(** The newest update of a key that is not newer than [s]. *)
Definition version_at (us : list update) (key : list Z) (s : Z) : option update :=
  last (filter (λ u, compare_ (up_key u) key = 0 ∧ up_seq u ≤ s) us).

Definition get_spec (us : list update) (key : list Z) (s : Z) : get_result :=
  match version_at us key s with
  | None => GetFalse
  | Some u => if up_type u =? kTypeValue then GetValue (up_value u) else GetNotFound
  end.

Lemma last_max (l : list update) u :
  StronglySorted (λ a b, up_seq a < up_seq b) l → u ∈ l → (∀ v, v ∈ l → up_seq v ≤ up_seq u) →
  last l = Some u.
Proof.
  intros Hs Hin Hmax. destruct l as [|v l _] using rev_ind; [by apply not_elem_of_nil in Hin|].
  rewrite last_snoc. f_equal. apply elem_of_app in Hin as [Hin| ->%list_elem_of_singleton]; [|done].
  apply StronglySorted_app in Hs as (Hlt & _ & _).
  specialize (Hlt u v Hin ltac:(by left)).
  specialize (Hmax v ltac:(apply elem_of_app; right; by left)). lia.
Qed.

Lemma filter_sorted (P : update → Prop) `{∀ u, Decision (P u)} l :
  StronglySorted (λ a b, up_seq a < up_seq b) l →
  StronglySorted (λ a b, up_seq a < up_seq b) (filter P l).
Proof.
  induction 1 as [|u l Hs IH Hall]; [constructor|].
  destruct (decide (P u)); [rewrite filter_cons_True by done|by rewrite filter_cons_False].
  constructor; [done|]. apply Forall_forall. intros v [_ Hv]%list_elem_of_filter.
  rewrite Forall_forall in Hall. by apply Hall.
Qed.

Definition lookup_entry (key : list Z) (s : Z) : mem_entry :=
  MkEntry (prefixed (key ++ EncodeFixed64 (s * 256 + 1))).

Lemma lookup_entry_key key s :
  key_ok key → 0 ≤ s ≤ kMaxSequenceNumber →
  ∃ lk, new_LookupKey key s = Some lk ∧ MkEntry (memtable_key lk) = lookup_entry key s ∧
    lk_user_key lk = key ∧ internal_key lk = key ++ EncodeFixed64 (s * 256 + 1).
Proof.
  intros [Hk Hl] Hs. destruct (pack_tag s kValueTypeForSeek Hs) as [Ep _]; [split; vm_compute; discriminate|].
  unfold new_LookupKey. rewrite Ep. simpl. eexists. split; [done|].
  unfold lookup_entry, memtable_key, internal_key, prefixed. simpl. split_and!; [|done|done].
  rewrite wrapu_small by lia. unfold EncodeFixed64. rewrite length_app, length_le_split.
  repeat f_equal. lia.
Qed.

Lemma compare_lookup u key s :
  update_ok u → key_ok key → 0 ≤ s ≤ kMaxSequenceNumber →
  compare_ (encode u) (lookup_entry key s) = version_compare (up_key u) (up_tag u) key (s * 256 + 1).
Proof.
  intros Hu Hk Hs. unfold lookup_entry. rewrite <-(app_nil_r (prefixed (key ++ _))).
  apply compare_entries; try done; try apply Hu.
  - apply value_prefixed_bytes, Hu.
  - by apply up_tag_range.
  - apply pack_tag; [done|lia].
Qed.

(** An entry is at or after the entry that is looked up exactly when it is of a
    greater key, or a version of the key that is not too new. *)
Lemma lookup_entry_order u key s :
  update_ok u → key_ok key → 0 ≤ s ≤ kMaxSequenceNumber →
  (¬ compare_ (encode u) (lookup_entry key s) < 0 ↔
    0 < compare_ (up_key u) key ∨ compare_ (up_key u) key = 0 ∧ up_seq u ≤ s).
Proof.
  intros Hu Hk Hs. rewrite compare_lookup by done. unfold version_compare, up_tag.
  pose proof Hu as (_ & Ht & _).
  destruct (Z.eqb_spec (compare_ (up_key u) key) 0) as [E|]; [|lia].
  rewrite E. destruct (Z.ltb_spec (s * 256 + 1) (up_seq u * 256 + up_type u)),
    (Z.ltb_spec (up_seq u * 256 + up_type u) (s * 256 + 1)); lia.
Qed.

(** The first entry that [Seek] finds. *)
Lemma seek_version m us key s ks :
  contents (table_ m) ks → ks ≡ₚ encode <$> us → Forall update_ok us →
  StronglySorted (λ a b, up_seq a < up_seq b) us → key_ok key → 0 ≤ s ≤ kMaxSequenceNumber →
  match head (keys_from (lookup_entry key s) ks) with
  | None => version_at us key s = None
  | Some e => ∃ u, e = encode u ∧ update_ok u ∧
      (if compare_ (up_key u) key =? 0 then version_at us key s = Some u
       else version_at us key s = None)
  end.
Proof.
  intros Hc Hp Hus Hs Hk Hsq. set (target := lookup_entry key s).
  set (P := λ u, compare_ (up_key u) key = 0 ∧ up_seq u ≤ s).
  assert (∀ u, u ∈ filter P us → encode u ∈ keys_from target ks ∧ update_ok u) as Hin.
  { intros u [[HPk HPs] Hu]%list_elem_of_filter. rewrite Forall_forall in Hus. split; [|by apply Hus].
    unfold keys_from. apply list_elem_of_filter. split.
    - apply lookup_entry_order; [by apply Hus|done|done|]. by right.
    - rewrite Hp. by apply list_elem_of_fmap_2. }
  assert (∀ e, e ∈ keys_from target ks → ∃ u, e = encode u ∧ u ∈ us ∧ update_ok u ∧
    (0 < compare_ (up_key u) key ∨ compare_ (up_key u) key = 0 ∧ up_seq u ≤ s)) as Hfrom.
  { intros e [Hge He]%list_elem_of_filter. rewrite Hp in He.
    apply list_elem_of_fmap in He as (u & -> & Hu). rewrite Forall_forall in Hus.
    exists u. split_and!; [done|done|by apply Hus|]. apply lookup_entry_order in Hge; auto. }
  assert (StronglySorted (λ a b, compare_ a b < 0) (keys_from target ks)) as Hsort.
  { pose proof (contents_sorted _ _ Hc) as Hso. rewrite (keys_split _ _ target Hc) in Hso.
    by apply StronglySorted_app in Hso as (_ & _ & ?). }
  unfold version_at. fold P.
  destruct (keys_from target ks) as [|e l]; simpl.
  { destruct (filter P us) as [|u l]; [done|]. destruct (Hin u ltac:(by left)) as [Hno _].
    by apply not_elem_of_nil in Hno. }
  destruct (Hfrom e ltac:(by left)) as (u0 & -> & Hu0 & Hok0 & Hpos0).
  apply StronglySorted_cons in Hsort as [Hall _]. rewrite Forall_forall in Hall.
  exists u0. split; [done|]. split; [done|].
  assert (∀ u, u ∈ filter P us → u = u0 ∨ encode u = encode u0 ∨ compare_ (encode u0) (encode u) < 0) as Hle.
  { intros u Hu. destruct (Hin u Hu) as [[E|Hl]%elem_of_cons _]; [by right; left|].
    right. right. by apply Hall. }
  assert (∀ u, u ∈ filter P us → compare_ (up_key u0) key = 0 ∧ up_seq u ≤ up_seq u0) as Hmatch.
  { intros u Hu. pose proof Hu as [[HPk HPs] Hu']%list_elem_of_filter.
    destruct (Hin u Hu) as [_ Huok].
    assert (compare_ (encode u0) (encode u) ≤ 0) as Hcmp.
    { destruct (Hle u Hu) as [->|[->|]]; [by rewrite compare_refl..|lia]. }
    rewrite compare_encode in Hcmp by done. unfold version_compare, up_tag in Hcmp.
    pose proof Huok as (_ & Htu & _). pose proof Hok0 as (_ & Ht0 & _).
    pose proof (compare_trans (up_key u0) (up_key u) key) as Htr.
    destruct (Z.eqb_spec (compare_ (up_key u0) (up_key u)) 0) as [E0|E0].
    - destruct (Z.ltb_spec (up_seq u * 256 + up_type u) (up_seq u0 * 256 + up_type u0)),
        (Z.ltb_spec (up_seq u0 * 256 + up_type u0) (up_seq u * 256 + up_type u)); lia.
    - exfalso. assert (compare_ (up_key u0) key < 0); [|lia].
      apply (compare_lt_le_trans _ (up_key u)); lia. }
  destruct (Z.eqb_spec (compare_ (up_key u0) key) 0) as [E0|E0].
  - apply last_max; [by apply filter_sorted| |intros v Hv; by apply Hmatch].
    apply list_elem_of_filter. split; [|done]. split; [done|]. lia.
  - destruct (filter P us) as [|u l']; [done|]. destruct (Hmatch u ltac:(by left)). done.
Qed.

Lemma run_Get m us key s lk :
  holds m us → key_ok key → 0 ≤ s ≤ kMaxSequenceNumber → new_LookupKey key s = Some lk →
  memtable_Get lk m = Done (get_spec us key s, m).
Proof.
  intros ((ks & Hc & Hp) & Hus & Hs) Hk Hsq Elk.
  destruct (lookup_entry_key key s Hk Hsq) as (lk' & E & Em & Eu & _).
  rewrite Elk in E. injection E as <-.
  pose proof (seek_version m us key s ks Hc Hp Hus Hs Hk Hsq) as Hv.
  destruct (run_Seek (table_ m) ks (lookup_entry key s) Hc) as (it & Es & Hit).
  assert (∀ (r : MemTable), MkMemTable (refs_ r) (table_ r) = r) as Heta by (by intros []).
  unfold memtable_Get. rewrite Em. bind_with (run_with_table _ m _ _ Es). rewrite Heta.
  unfold get_spec. destruct (head _) as [e|]; [|by rewrite Hit, Hv].
  destruct Hit as [-> Ek]. destruct Hv as (u & -> & Hu & Hv).
  bind_with (run_with_table _ m _ _ Ek). rewrite Heta.
  pose proof (up_tag_range u Hu) as Htag. pose proof Hu as (_ & Hty & Hkok & Hvok).
  set (ik := up_key u ++ EncodeFixed64 (up_tag u)).
  destruct (ikey_value_ok (up_key u) (up_tag u) Hkok) as [Hikb Hikl]. fold ik in Hikb, Hikl.
  assert (Forall is_byte (prefixed (up_value u))) as Hpb by (by apply value_prefixed_bytes).
  assert (entry_varint (me_data (encode u)) =
    Some (Z.of_nat (length ik), ik ++ prefixed (up_value u))) as Ev.
  { simpl. fold ik. unfold prefixed at 1. rewrite <-app_assoc.
    apply entry_varint_put; [lia|]. by apply Forall_app. }
  rewrite (bind_lift _ _ _ _ Ev). cbv beta iota zeta.
  assert (length ik = length (up_key u) + 8)%nat as Elen
    by (unfold ik, EncodeFixed64; by rewrite length_app, length_le_split).
  rewrite bind_assert by (rewrite length_app; apply andb_true_intro; split; apply Z.leb_le; lia).
  replace (Z.to_nat (Z.of_nat (length ik) - 8)) with (length (up_key u)) by lia.
  assert (take (length (up_key u)) (ik ++ prefixed (up_value u)) = up_key u) as ->.
  { unfold ik. by rewrite <-app_assoc, take_app_length. }
  assert (drop (length (up_key u)) (ik ++ prefixed (up_value u)) =
    EncodeFixed64 (up_tag u) ++ prefixed (up_value u)) as ->.
  { unfold ik. by rewrite <-app_assoc, drop_app_length. }
  rewrite Eu. destruct (compare_ (up_key u) key =? 0); [|by rewrite Hv].
  rewrite Hv, (bind_lift _ _ _ _ (fixed64_get_put _ _ Htag)).
  destruct (tag_parts (up_seq u) (up_type u) Hty) as [Et _]. fold (up_tag u) in Et. rewrite Et.
  destruct (Z.eqb_spec (up_type u) kTypeValue) as [|Hne].
  - rewrite Nat2Z.id, drop_app_length.
    rewrite <-(app_nil_r (prefixed (up_value u))).
    by rewrite (bind_lift _ _ _ _ (mem_get_prefixed _ [] Hvok ltac:(constructor))).
  - assert (up_type u = kTypeDeletion) as -> by (unfold kTypeValue, kTypeDeletion in *; lia).
    by rewrite Z.eqb_refl.
Qed.

(** Several updates. *)
Fixpoint add_all (us : list update) : M MemTable unit :=
  match us with
  | [] => mret tt
  | u :: us' => memtable_Add (up_seq u) (up_type u) (up_key u) (up_value u);; add_all us'
  end.

Lemma run_add_all us : ∀ m us0,
  holds m us0 → Forall update_ok us → StronglySorted (λ a b, up_seq a < up_seq b) (us0 ++ us) →
  ∃ m', add_all us m = Done (tt, m') ∧ holds m' (us0 ++ us).
Proof.
  induction us as [|u us IH]; intros m us0 Hm Hok Hs.
  { exists m. by rewrite app_nil_r. }
  apply Forall_cons in Hok as [Hu Hok].
  destruct (run_Add m us0 u Hm Hu) as (m1 & E1 & Hm1 & _).
  { apply StronglySorted_app in Hs as (Hlt & _ & _). apply Forall_forall. intros v Hv.
    apply Hlt; [done|by left]. }
  destruct (IH m1 (us0 ++ [u]) Hm1 Hok) as (m2 & E2 & Hm2); [by rewrite <-app_assoc|].
  exists m2. rewrite <-app_assoc in Hm2. split; [|done]. cbn [add_all]. by bind_with E1.
Qed.
End spec.
