(* ===== verification/LdbBatchSpec.v ===== *)
(** * leveldb: write batches are applied in order

    A batch that was filled with updates gives them back in order to any handler;
    inserted in a memtable, they get consecutive sequence numbers. *)
From stdpp Require Import sorting.
From S2P Require Import Prelude LdbCoding SkipList SkipListSpec LdbFormat LdbMemTable LdbMemTableSpec.

(** ** Filling a batch *)

Inductive batch_op : Type :=
  | BPut (key value : list Z)
  | BDelete (key : list Z).

Definition op_ok (o : batch_op) : Prop :=
  match o with BPut key value => key_ok key ∧ value_ok value | BDelete key => key_ok key end.

Definition op_bytes (o : batch_op) : list Z :=
  match o with
  | BPut key value => kTypeValue :: prefixed key ++ prefixed value
  | BDelete key => kTypeDeletion :: prefixed key
  end.

Definition apply_op (b : WriteBatch) (o : batch_op) : option WriteBatch :=
  match o with BPut key value => Put b key value | BDelete key => Delete b key end.

Fixpoint fill (b : WriteBatch) (ops : list batch_op) : option WriteBatch :=
  match ops with [] => Some b | o :: ops' => b' ← apply_op b o; fill b' ops' end.

(** The bytes of a batch. *)
Definition batch_bytes (seq n : Z) (ops : list batch_op) : WriteBatch :=
  EncodeFixed64 seq ++ EncodeFixed32 n ++ concat (op_bytes <$> ops).


Lemma key_value_ok key : key_ok key → value_ok key.
Proof. intros [Hk Hl]. split; [done|lia]. Qed.

Lemma op_bytes_ok o : op_ok o → Forall is_byte (op_bytes o).
Proof.
  destruct o as [key value|key]; simpl.
  - intros [Hk Hv]. constructor; [unfold is_byte, kTypeValue; lia|].
    apply Forall_app. split; apply value_prefixed_bytes; [by apply key_value_ok|done].
  - intros Hk. constructor; [unfold is_byte, kTypeDeletion; lia|]. by apply value_prefixed_bytes, key_value_ok.
Qed.

Lemma ops_bytes_ok ops : Forall op_ok ops → Forall is_byte (concat (op_bytes <$> ops)).
Proof.
  induction 1 as [|o ops Ho Hops IH]; [constructor|]. simpl. apply Forall_app.
  split; [by apply op_bytes_ok|done].
Qed.

Lemma Count_bytes seq n ops : 0 ≤ n < 2 ^ 31 → Count (batch_bytes seq n ops) = Some n.
Proof.
  intros Hn. unfold Count, batch_bytes.
  rewrite drop_app_length' by (by rewrite length_fixed64).
  rewrite fixed32_get_put by (pow2; lia). simpl. f_equal. apply wraps_small; pow2; lia.
Qed.

Lemma SetCount_bytes seq n m ops :
  0 ≤ m < 2 ^ 32 → SetCount (batch_bytes seq n ops) m = Some (batch_bytes seq m ops).
Proof.
  intros Hm. unfold SetCount, overwrite, batch_bytes. rewrite wrapu_small, length_fixed32 by done.
  rewrite (proj2 (Nat.leb_le _ _)) by (rewrite !length_app, length_fixed64, length_fixed32; lia).
  by rewrite take_app_length' by (by rewrite length_fixed64).
Qed.

Lemma SetSequence_bytes seq seq' n ops :
  SetSequence (batch_bytes seq n ops) seq' = Some (batch_bytes seq' n ops).
Proof.
  unfold SetSequence, overwrite, batch_bytes. rewrite length_fixed64.
  by rewrite (proj2 (Nat.leb_le _ _)) by (rewrite !length_app, length_fixed64; lia).
Qed.

Lemma int_add_in a b : - 2 ^ 31 ≤ a + b < 2 ^ 31 → int_add a b = Some (a + b).
Proof. intros H. unfold int_add. by rewrite (proj2 (Z.leb_le _ _)), (proj2 (Z.ltb_lt _ _)) by lia. Qed.

Lemma Sequence_bytes seq n ops : 0 ≤ seq < 2 ^ 64 → Sequence (batch_bytes seq n ops) = Some seq.
Proof. apply fixed64_get_put. Qed.

Lemma run_apply_op seq n ops o :
  op_ok o → 0 ≤ n → n + 1 < 2 ^ 31 →
  apply_op (batch_bytes seq n ops) o = Some (batch_bytes seq (n + 1) (ops ++ [o])).
Proof.
  intros Ho Hn Hn1.
  assert (∀ x, batch_bytes seq (n + 1) ops ++ x =
    EncodeFixed64 seq ++ EncodeFixed32 (n + 1) ++ concat (op_bytes <$> ops) ++ x) as Ex.
  { intros x. unfold batch_bytes. by rewrite <-!app_assoc. }
  assert (concat (op_bytes <$> (ops ++ [o])) = concat (op_bytes <$> ops) ++ op_bytes o) as Ec.
  { rewrite fmap_app, concat_app. simpl. by rewrite app_nil_r. }
  unfold batch_bytes at 2. rewrite Ec, <-Ex. clear Ec Ex.
  destruct o as [key value|key]; unfold apply_op, Put, Delete; rewrite Count_bytes by lia;
    cbn [mbind option_bind]; rewrite int_add_in by (pow2; lia); cbn [mbind option_bind];
    rewrite SetCount_bytes by (pow2; lia); cbn [mbind option_bind]; cbv zeta.
  - destruct Ho as [[Hk Hkl] [Hv Hvl]]. rewrite !put_prefixed by lia. by rewrite <-!app_assoc.
  - destruct Ho as [Hk Hkl]. rewrite put_prefixed by lia. by rewrite <-!app_assoc.
Qed.

Lemma run_fill seq ops : ∀ n ops0,
  Forall op_ok ops → 0 ≤ n → n + Z.of_nat (length ops) < 2 ^ 31 →
  fill (batch_bytes seq n ops0) ops =
  Some (batch_bytes seq (n + Z.of_nat (length ops)) (ops0 ++ ops)).
Proof.
  induction ops as [|o ops IH]; intros n ops0 Hops Hn Hl; cbn [fill length] in *.
  { by rewrite Z.add_0_r, app_nil_r. }
  apply Forall_cons in Hops as [Ho Hops]. rewrite run_apply_op by (done || lia). simpl.
  rewrite IH by (done || lia). rewrite <-app_assoc. do 2 f_equal. lia.
Qed.

Lemma fill_new ops :
  Forall op_ok ops → Z.of_nat (length ops) < 2 ^ 31 →
  fill new_WriteBatch ops = Some (batch_bytes 0 (Z.of_nat (length ops)) ops).
Proof. intros Hops Hl. apply (run_fill 0 ops 0 []); [done|lia|lia]. Qed.

(** ** Iterating over a batch *)

Section iterate.
Context {St : Type} `{Handler St}.

Fixpoint handle_all (ops : list batch_op) : M St unit :=
  match ops with
  | [] => mret tt
  | BPut key value :: ops' => handler_Put key value;; handle_all ops'
  | BDelete key :: ops' => handler_Delete key;; handle_all ops'
  end.

Lemma run_iterate_loop ops : ∀ fuel found s,
  Forall op_ok ops → (length ops < fuel)%nat → 0 ≤ found → found + Z.of_nat (length ops) < 2 ^ 31 →
  iterate_loop fuel (concat (op_bytes <$> ops)) found s =
  (handle_all ops;; mret (inr (found + Z.of_nat (length ops)))) s.
Proof.
  induction ops as [|o ops IH]; intros fuel found s Hops Hf Hfd Hmax; (destruct fuel as [|fuel]; [simpl in Hf; lia|]).
  { simpl. run_unfold. by rewrite Z.add_0_r. }
  apply Forall_cons in Hops as [Ho Hops]. pose proof (ops_bytes_ok ops Hops) as Hb.
  assert (∀ s, iterate_loop fuel (concat (op_bytes <$> ops)) (found + 1) s =
    (handle_all ops;; mret (inr (found + Z.of_nat (length (o :: ops))))) s) as IH'.
  { intros s'. rewrite IH by (done || (simpl in Hf, Hmax; lia)). apply bind_ext; [done|].
    intros _ s''. cbn [length]. replace (found + 1 + Z.of_nat (length ops)) with (found + Z.of_nat (S (length ops))) by lia. done. }
  assert (int_add found 1 = Some (found + 1)) as Ea by (apply int_add_in; simpl in Hmax; pow2; lia).
  destruct o as [key value|key]; cbn [fmap list_fmap op_bytes concat app iterate_loop];
    rewrite (bind_lift _ _ _ _ Ea).
  - destruct Ho as [Hk Hv]. rewrite <-app_assoc.
    destruct (get_prefixed key (prefixed value ++ concat (op_bytes <$> ops))) as [E _];
      [destruct Hk; lia|apply Hk|apply Forall_app; split; [by apply value_prefixed_bytes|done]|].
    destruct (get_prefixed value (concat (op_bytes <$> ops))) as [E' _]; [apply Hv|apply Hv|done|].
    rewrite Z.eqb_refl, E, E'. cbn [handle_all]. rewrite bind_assoc.
    apply bind_ext; [done|]. intros _ s'. apply IH'.
  - change (kTypeDeletion =? kTypeValue) with false. cbv iota. rewrite Z.eqb_refl.
    destruct (get_prefixed key (concat (op_bytes <$> ops))) as [E _];
      [destruct Ho; lia|apply Ho|done|].
    rewrite E. cbn [handle_all]. rewrite bind_assoc. apply bind_ext; [done|]. intros _ s'. apply IH'.
Qed.

Lemma length_ops_bytes ops : (length ops ≤ length (concat (op_bytes <$> ops)))%nat.
Proof.
  induction ops as [|o ops IH]; [done|]. cbn [fmap list_fmap concat length]. rewrite length_app.
  destruct o; simpl; lia.
Qed.

Lemma run_Iterate seq ops s :
  Forall op_ok ops → Z.of_nat (length ops) < 2 ^ 31 →
  Iterate (batch_bytes seq (Z.of_nat (length ops)) ops) s = (handle_all ops;; mret None) s.
Proof.
  intros Hops Hl. unfold Iterate. set (b := batch_bytes _ _ _).
  assert (length b = kHeader + length (concat (op_bytes <$> ops)))%nat as Elen.
  { unfold b, batch_bytes. by rewrite !length_app, length_fixed64, length_fixed32. }
  rewrite (proj2 (Nat.ltb_ge _ _)) by lia.
  assert (drop kHeader b = concat (op_bytes <$> ops)) as ->.
  { unfold b, batch_bytes. rewrite app_assoc. apply drop_app_length'.
    by rewrite length_app, length_fixed64, length_fixed32. }
  pose proof (length_ops_bytes ops).
  transitivity ((r ← (handle_all ops;; mret (inr (0 + Z.of_nat (length ops))));
    match r with
    | inl msg => mret (Some msg)
    | inr found => count ← lift_option (Count b);
        if found =? count then mret None else mret (Some "WriteBatch has wrong count")
    end) s).
  { apply bind_ext; [by apply run_iterate_loop; [|lia..]|done]. }
  rewrite bind_assoc. apply bind_ext; [done|]. intros _ s'.
  unfold b. rewrite Count_bytes by lia. run_unfold. cbn [lift_option]. run_unfold.
  rewrite (proj2 (Z.eqb_eq _ _)) by lia. done.
Qed.
End iterate.

(** ** Theorems *)

(** C34: a batch that was filled with any updates counts them, and gives them back in
    order to any handler, with an OK status and nothing else. *)
Theorem batch_roundtrip {St : Type} `{Handler St} ops s :
  Forall op_ok ops → Z.of_nat (length ops) < 2 ^ 31 →
  ∃ b, fill new_WriteBatch ops = Some b ∧ Count b = Some (Z.of_nat (length ops)) ∧
    Iterate b s = (handle_all ops;; mret None) s.
Proof.
  intros Hops Hl. eexists. split; [by apply fill_new|]. split; [apply Count_bytes; lia|].
  by apply run_Iterate.
Qed.

Section memtable.
Context `{UC : Comparator (list Z)} `{!ComparatorLaws (list Z)}.

(** The updates of a batch, with their sequence numbers. *)
Fixpoint numbered (seq : Z) (ops : list batch_op) : list update :=
  match ops with
  | [] => []
  | BPut key value :: ops' => MkUpdate seq kTypeValue key value :: numbered (seq + 1) ops'
  | BDelete key :: ops' => MkUpdate seq kTypeDeletion key [] :: numbered (seq + 1) ops'
  end.

Lemma numbered_cons seq o ops :
  op_ok o → 0 ≤ seq ≤ kMaxSequenceNumber →
  ∃ u, numbered seq (o :: ops) = u :: numbered (seq + 1) ops ∧ update_ok u ∧ up_seq u = seq ∧
    (∀ s, handle_all (o :: ops) s = (inserter_Add (up_type u) (up_key u) (up_value u);; handle_all ops) s).
Proof.
  intros Ho Hs. destruct o as [key value|key]; simpl in *; eexists; (split; [done|]).
  - split_and!; [|done|done]. split_and!; simpl; try lia; [unfold kTypeValue; lia..|apply Ho|apply Ho].
  - split_and!; [|done|done]. split_and!; simpl; try lia; [unfold kTypeDeletion; lia..|apply Ho|].
    split; [constructor|simpl; lia].
Qed.

Lemma run_inserter ops : ∀ seq m us,
  holds m us → Forall op_ok ops → 0 ≤ seq → seq + Z.of_nat (length ops) ≤ kMaxSequenceNumber + 1 →
  Forall (λ u, up_seq u < seq) us →
  ∃ i, handle_all ops (MkInserter seq m) = Done (tt, i) ∧ holds (mem_ i) (us ++ numbered seq ops).
Proof.
  induction ops as [|o ops IH]; intros seq m us Hm Hops Hs Hmax Hlt; cbn [length] in Hmax.
  { eexists. split; [done|]. by rewrite app_nil_r. }
  apply Forall_cons in Hops as [Ho Hops].
  destruct (numbered_cons seq o ops Ho) as (u & -> & Hu & Es & Eh); [lia|].
  destruct (run_Add m us u Hm Hu) as (m1 & E1 & Hm1 & _); [by rewrite Es|].
  rewrite Es in E1. rewrite Eh.
  assert (inserter_Add (up_type u) (up_key u) (up_value u) (MkInserter seq m) =
    Done (tt, MkInserter (seq + 1) m1)) as E.
  { unfold inserter_Add. simpl. rewrite E1. do 3 f_equal. apply wrapu_small.
    change kMaxSequenceNumber with (2 ^ 56 - 1) in Hmax.
    change (2 ^ 56) with 72057594037927936 in Hmax. pow2. lia. }
  bind_with E. destruct (IH (seq + 1) m1 (us ++ [u]) Hm1 Hops) as (i & Ei & Hi); [lia|lia| |].
  - apply Forall_app. split; [|by constructor; [lia|constructor]].
    eapply Forall_impl; [exact Hlt|]. simpl. lia.
  - exists i. split; [done|]. by rewrite <-app_assoc in Hi.
Qed.

(** C18: the versions of a memtable: after any updates with increasing sequence
    numbers, [Get] at a sequence number gives the value of the newest update of the
    key that is not newer, says that the key was deleted when it was, and gives
    nothing when there is none; whatever the order of user keys is. *)
Theorem memtable_Get_spec us :
  Forall update_ok us → StronglySorted (λ a b, up_seq a < up_seq b) us →
  ∃ m, add_all us new_MemTable = Done (tt, m) ∧
    ∀ key s, key_ok key → 0 ≤ s ≤ kMaxSequenceNumber →
      ∃ lk, new_LookupKey key s = Some lk ∧ memtable_Get lk m = Done (get_spec us key s, m).
Proof.
  intros Hok Hs. destruct (run_add_all us new_MemTable [] new_holds Hok Hs) as (m & E & Hm).
  exists m. split; [done|]. intros key s Hk Hsq.
  destruct (lookup_entry_key key s Hk Hsq) as (lk & El & _). exists lk. split; [done|].
  by apply run_Get.
Qed.

(** C21: a batch that is inserted in a memtable, with a sequence number that is newer
    than what the memtable holds, is OK and is seen as a whole: a [Get] at a sequence
    number before the batch gives what it gave, and one after it sees all of it. *)
Theorem batch_insert us ops seq m :
  holds m us → Forall op_ok ops → Forall (λ u, up_seq u < seq) us →
  0 ≤ seq → seq + Z.of_nat (length ops) ≤ kMaxSequenceNumber + 1 → Z.of_nat (length ops) < 2 ^ 31 →
  ∃ b b' m', fill new_WriteBatch ops = Some b ∧ SetSequence b seq = Some b' ∧
    InsertInto b' m = Done (None, m') ∧
    ∀ key s lk, key_ok key → 0 ≤ s ≤ kMaxSequenceNumber → new_LookupKey key s = Some lk →
      (s < seq → memtable_Get lk m' = Done (get_spec us key s, m')) ∧
      memtable_Get lk m' = Done (get_spec (us ++ numbered seq ops) key s, m').
Proof.
  intros Hm Hops Hlt Hs Hmax Hl. do 2 eexists.
  destruct (run_inserter ops seq m us Hm Hops Hs Hmax Hlt) as (i & Ei & Hi).
  exists (mem_ i). split; [by apply fill_new|]. split; [apply SetSequence_bytes|]. split.
  { unfold InsertInto. rewrite Sequence_bytes.
    2: { change kMaxSequenceNumber with (2 ^ 56 - 1) in Hmax.
         change (2 ^ 56) with 72057594037927936 in Hmax. pow2. lia. }
    rewrite run_Iterate by done. by bind_with Ei. }
  intros key s lk Hk Hsq Elk. split; [|by apply run_Get]. intros Hss.
  rewrite (run_Get (mem_ i) (us ++ numbered seq ops) key s lk) by done. do 2 f_equal.
  unfold get_spec, version_at. rewrite filter_app.
  assert (filter (λ u, compare_ (up_key u) key = 0 ∧ up_seq u ≤ s) (numbered seq ops) = []) as ->;
    [|by rewrite app_nil_r].
  clear -Hss. assert (s < seq) as Hlt by done. revert Hlt. generalize seq.
  induction ops as [|[key' value|key'] ops IH]; intros q Hq; [done|..]; simpl;
    rewrite filter_cons_False by (simpl; lia); apply IH; lia.
Qed.
End memtable.

(** ** Witnesses *)

Definition ops_example : list batch_op := [BPut [97] [1; 2]; BDelete [98]; BPut [98] []].

Lemma ops_example_ok : Forall op_ok ops_example.
Proof.
  repeat constructor; unfold is_byte; simpl; lia.
Qed.

(** A handler that counts. *)
#[local] Instance counter : Handler Z :=
  {| handler_Put _ _ := λ n, Done (tt, n + 1); handler_Delete _ := λ n, Done (tt, n + 100) |}.

Lemma batch_roundtrip_witness :
  ∃ b, fill new_WriteBatch ops_example = Some b ∧ Count b = Some 3 ∧ Iterate b 0 = Done (None, 102).
Proof. exact (batch_roundtrip ops_example 0 ops_example_ok ltac:(reflexivity)). Defined.

Definition updates_example : list update :=
  [MkUpdate 3 kTypeValue [97] [1]; MkUpdate 5 kTypeValue [98] [2]; MkUpdate 9 kTypeDeletion [97] []].

Lemma updates_example_ok :
  Forall update_ok updates_example ∧ StronglySorted (λ a b, up_seq a < up_seq b) updates_example.
Proof.
  split.
  - repeat constructor; vm_compute; try done; try (split; done).
  - repeat constructor.
Qed.

Lemma memtable_Get_spec_witness :
  ∃ m lk1 lk2, add_all updates_example new_MemTable = Done (tt, m) ∧
    new_LookupKey [97] 8 = Some lk1 ∧ memtable_Get lk1 m = Done (GetValue [1], m) ∧
    new_LookupKey [97] 9 = Some lk2 ∧ memtable_Get lk2 m = Done (GetNotFound, m).
Proof.
  destruct (memtable_Get_spec updates_example (proj1 updates_example_ok) (proj2 updates_example_ok))
    as (m & E & Hg).
  destruct (Hg [97] 8) as (lk1 & E1 & G1); [repeat constructor; unfold is_byte; lia|vm_compute; split; discriminate|].
  destruct (Hg [97] 9) as (lk2 & E2 & G2); [repeat constructor; unfold is_byte; lia|vm_compute; split; discriminate|].
  exists m, lk1, lk2. split_and!; [exact E|exact E1|exact G1|exact E2|exact G2].
Defined.

Lemma batch_insert_witness :
  ∃ b b' m' lk, fill new_WriteBatch ops_example = Some b ∧ SetSequence b 7 = Some b' ∧
    InsertInto b' new_MemTable = Done (None, m') ∧
    new_LookupKey [98] 8 = Some lk ∧ memtable_Get lk m' = Done (GetNotFound, m').
Proof.
  destruct (batch_insert [] ops_example 7 new_MemTable new_holds ops_example_ok) as (b & b' & m' & E & Es & Ei & Hg);
    [constructor|lia|vm_compute; discriminate|reflexivity|].
  destruct (lookup_entry_key [98] 8) as (lk & El & _);
    [repeat constructor; unfold is_byte; lia|vm_compute; split; discriminate|].
  exists b, b', m', lk. split_and!; [exact E|exact Es|exact Ei|exact El|].
  destruct (Hg [98] 8 lk) as [_ G];
    [repeat constructor; unfold is_byte; lia|vm_compute; split; discriminate|exact El|]. exact G.
Defined.
