(* ===== verification/LdbDBIterSpec.v ===== *)
(** * leveldb: the database at a sequence number

    Over any iterator that keeps the contract for the updates in the order of internal
    keys, the iterator of the database keeps it for the user keys that have a value at
    the sequence number, each with that value. *)
From stdpp Require Import sorting.
From S2P Require Import Prelude LdbCoding LdbRandom SkipList SkipListSpec LdbFormat LdbIterator LdbBlock LdbBlockSpec LdbDBIter LdbMemTableSpec.

(** ** Sampling ends *)

(** Of two periods that follow each other one is not 0. *)
Lemma two_periods seed :
  seed_ok seed → Random_Next seed `mod` 2097152 = 0 →
  Random_Next (Random_Next seed) `mod` 2097152 ≠ 0.
Proof.
  intros Hs Hz. destruct (Random_Next_mod seed Hs) as [_ Hr]. set (x := Random_Next seed) in *.
  assert (x = 2097152 * (x / 2097152)) as -> by (apply Z.div_exact; [lia|done]).
  unfold seed_ok, Random_M in Hr. set (q := x / 2097152).
  assert (1 ≤ q < 1024) as Hq by (unfold q; zdiv).
  assert (forallb (λ q, negb (Random_Next (2097152 * q) `mod` 2097152 =? 0)) (seqZ 1 1023) = true) as Hall
    by (vm_compute; reflexivity).
  rewrite forallb_forall in Hall. specialize (Hall q). rewrite <-list_elem_of_In, elem_of_seqZ in Hall.
  specialize (Hall ltac:(lia)). intros E. by rewrite E in Hall.
Qed.

(** ** What a user sees *)

Section view.
Context `{UC : Comparator (list Z)}.
Implicit Types (us : list update) (s : Z).

(** The update at an index is the newest one of its key that is not newer than [s],
    and it is a value; [us] are in the order of internal keys, the newest first. *)
Definition shown s us (j : nat) : bool :=
  match us !! j with
  | Some u =>
      (up_seq u <=? s) && (up_type u =? kTypeValue) &&
      forallb (λ w, (s <? up_seq w) || negb (compare_ (up_key w) (up_key u) =? 0)) (take j us)
  | None => false
  end.
Definition shown_entry s us (j : nat) : option (list Z * list Z) :=
  if shown s us j then (λ u, (up_key u, up_value u)) <$> us !! j else None.
Definition user_view s us : entries := omap (shown_entry s us) (seq 0 (length us)).

(** The number of entries of the view that come from the updates before an index. *)
Definition rank s us (j : nat) : nat := length (omap (shown_entry s us) (seq 0 j)).

Lemma shown_entry_is s us j u :
  us !! j = Some u → shown s us j = true → shown_entry s us j = Some (up_key u, up_value u).
Proof. intros E Hs. unfold shown_entry. by rewrite Hs, E. Qed.

Lemma shown_bound s us j : shown s us j = true → (j < length us)%nat.
Proof. unfold shown. destruct (us !! j) eqn:E; [|done]. intros _. by eapply lookup_lt_Some. Qed.

Lemma shown_spec s us j u :
  us !! j = Some u →
  shown s us j = true ↔
    up_seq u ≤ s ∧ up_type u = kTypeValue ∧
    ∀ e w, (e < j)%nat → us !! e = Some w → up_seq w ≤ s → compare_ (up_key w) (up_key u) ≠ 0.
Proof.
  intros E. unfold shown. rewrite E, !andb_true_iff, Z.leb_le, Z.eqb_eq, forallb_forall.
  split.
  - intros [[Hs Ht] Hall]. split_and!; [done|done|]. intros e w He Ew Hw Hc.
    specialize (Hall w). rewrite <-list_elem_of_In in Hall.
    assert (w ∈ take j us) as Hin.
    { apply list_elem_of_lookup_2 with e. by rewrite lookup_take_lt. }
    specialize (Hall Hin). apply orb_true_iff in Hall as [?%Z.ltb_lt|Hn]; [lia|].
    by rewrite Hc in Hn.
  - intros (Hs & Ht & Hall). split_and!; [done|done|]. intros w Hw%list_elem_of_In.
    apply list_elem_of_lookup_1 in Hw as [e Ew]. apply lookup_take_Some in Ew as [Ew He].
    destruct (Z.ltb_spec s (up_seq w)); [done|]. apply orb_true_iff. right.
    apply negb_true_iff, Z.eqb_neq. by apply (Hall e).
Qed.

Lemma rank_S s us j : rank s us (S j) = (rank s us j + (if shown s us j then 1 else 0))%nat.
Proof.
  unfold rank. rewrite seq_S, omap_app, length_app. simpl. f_equal.
  destruct (shown s us j) eqn:E.
  - pose proof (shown_bound _ _ _ E) as Hj. destruct (lookup_lt_is_Some_2 us j Hj) as [u Eu].
    by rewrite (shown_entry_is _ _ _ u).
  - unfold shown_entry. by rewrite E.
Qed.

Lemma rank_mono s us a b : (a ≤ b)%nat → (rank s us a ≤ rank s us b)%nat.
Proof. induction 1; [done|]. rewrite rank_S. lia. Qed.

Lemma rank_lt s us a b : (a < b)%nat → shown s us a = true → (rank s us a < rank s us b)%nat.
Proof.
  intros Hab Hs. pose proof (rank_mono s us (S a) b Hab). rewrite rank_S, Hs in H. lia.
Qed.

Lemma rank_same s us a b :
  (a ≤ b)%nat → (∀ e, (a ≤ e < b)%nat → shown s us e = false) → rank s us b = rank s us a.
Proof.
  induction 1 as [|b Hab IH]; intros Hn; [done|]. rewrite rank_S, (Hn b) by lia.
  rewrite IH; [lia|]. intros e He. apply Hn. lia.
Qed.

Lemma rank_length s us : rank s us (length us) = length (user_view s us).
Proof. done. Qed.

Lemma view_lookup s us j u :
  us !! j = Some u → shown s us j = true →
  user_view s us !! rank s us j = Some (up_key u, up_value u).
Proof.
  intros E Hs. pose proof (shown_bound _ _ _ Hs) as Hj. unfold user_view.
  replace (length us) with (j + S (length us - S j))%nat by lia.
  rewrite seq_app, omap_app, lookup_app_r by done. unfold rank. rewrite Nat.sub_diag. simpl.
  by rewrite (shown_entry_is _ _ _ u).
Qed.

Lemma view_lookup_inv s us i kv :
  user_view s us !! i = Some kv →
  ∃ j u, us !! j = Some u ∧ shown s us j = true ∧ rank s us j = i ∧ kv = (up_key u, up_value u).
Proof.
  unfold user_view. enough (∀ n, (n ≤ length us)%nat →
    omap (shown_entry s us) (seq 0 n) !! i = Some kv →
    ∃ j u, us !! j = Some u ∧ shown s us j = true ∧ rank s us j = i ∧ kv = (up_key u, up_value u)) by eauto.
  induction n as [|n IH]; intros Hn; [done|]. rewrite seq_S, omap_app.
  intros [Hi|[Hge Hi]]%lookup_app_Some; [apply IH; [lia|done]|].
  destruct (shown_entry s us n) as [kv'|] eqn:En; cbn in Hi; rewrite En in Hi; [|done].
  destruct (i - _)%nat eqn:Ei; [|done]. injection Hi as ->.
  unfold shown_entry in En. destruct (shown s us n) eqn:Es; [|done].
  destruct (us !! n) as [u|] eqn:Eu; [|done]. injection En as <-.
  exists n, u. split_and!; [done|done| |done]. unfold rank in *. lia.
Qed.
End view.

(** ** The updates as entries of the internal iterator *)

Definition ientry (u : update) : list Z * list Z :=
  (up_key u ++ EncodeFixed64 (up_tag u), up_value u).

Section order.
Context `{UC : Comparator (list Z)} `{!ComparatorLaws (list Z)}.
Implicit Types (us : list update) (s : Z).

Definition updates_sorted us : Prop :=
  StronglySorted (λ a b, version_compare (up_key a) (up_tag a) (up_key b) (up_tag b) < 0) us.

Lemma version_le_key ka ta kb tb : version_compare ka ta kb tb < 0 → compare_ ka kb ≤ 0.
Proof.
  unfold version_compare. destruct (Z.eqb_spec (compare_ ka kb) 0); [lia|]. lia.
Qed.

Lemma keys_le us i j a b :
  updates_sorted us → us !! i = Some a → us !! j = Some b → (i ≤ j)%nat →
  compare_ (up_key a) (up_key b) ≤ 0.
Proof.
  intros Hs Ea Eb Hij. destruct (decide (i = j)) as [->|].
  - rewrite Ea in Eb. injection Eb as ->. by rewrite compare_refl.
  - eapply version_le_key. apply (sorted_lookup _ us i j a b Hs); [done|done|lia].
Qed.

Lemma compare_eq_sym (a b : list Z) : compare_ a b = 0 → compare_ b a = 0.
Proof. intros E. pose proof (compare_sym a b). pose proof (compare_sym b a). lia. Qed.

Lemma compare_eq_trans (a b c : list Z) : compare_ a b = 0 → compare_ b c = 0 → compare_ a c = 0.
Proof.
  intros Hab Hbc. pose proof (compare_eq_sym _ _ Hab). pose proof (compare_eq_sym _ _ Hbc).
  assert (compare_ a c ≤ 0) by (apply compare_trans with b; lia).
  assert (compare_ c a ≤ 0) as H2 by (apply compare_trans with b; lia).
  apply compare_nlt_ge in H2. lia.
Qed.

(** The keys of a view are sorted. *)
Lemma user_view_sorted s us : updates_sorted us → keys_sorted (user_view s us).
Proof.
  intros Hs. apply sorted_of_lookup. intros i j a b Ha Hb Hij.
  apply view_lookup_inv in Ha as (ja & ua & Ea & Sa & Ra & ->).
  apply view_lookup_inv in Hb as (jb & ub & Eb & Sb & Rb & ->). simpl.
  assert (ja < jb)%nat as Hlt.
  { destruct (decide (ja < jb)%nat); [done|]. pose proof (rank_mono s us jb ja ltac:(lia)). lia. }
  pose proof (keys_le us ja jb ua ub Hs Ea Eb ltac:(lia)) as Hle.
  apply (shown_spec s us ja ua Ea) in Sa as (Hv & _ & _).
  apply (shown_spec s us jb ub Eb) in Sb as (_ & _ & Hno).
  specialize (Hno ja ua Hlt Ea Hv). lia.
Qed.

Lemma ientry_compare u v :
  update_ok u → update_ok v →
  ikey_compare (ientry u).1 (ientry v).1 = version_compare (up_key u) (up_tag u) (up_key v) (up_tag v).
Proof. intros Hu Hv. apply ikey_compare_tags; by apply up_tag_range. Qed.

Lemma parse_ientry u :
  update_ok u →
  ParseInternalKey (ientry u).1 = Some (MkParsed (up_key u) (up_seq u) (up_type u)) ∧
  ExtractUserKey (ientry u).1 = up_key u ∧ (8 ≤ length (ientry u).1)%nat.
Proof.
  intros Hu. pose proof (up_tag_range u Hu) as Ht. pose proof Hu as (Hs & Hty & _).
  destruct (ikey_parts (up_key u) (up_tag u) Ht) as (Eu & _ & Et & _). cbv zeta in *. simpl.
  assert (length (up_key u ++ EncodeFixed64 (up_tag u)) = length (up_key u) + 8)%nat as Hlen
    by (by rewrite length_app, length_fixed64).
  split_and!; [|done|lia]. unfold ParseInternalKey.
  fold (ExtractUserKey (up_key u ++ EncodeFixed64 (up_tag u))).
  rewrite Et, Eu, Hlen, (proj2 (Nat.ltb_ge _ _)) by lia. simpl.
  destruct (tag_parts (up_seq u) (up_type u) Hty) as [Ec En]. unfold up_tag. rewrite Ec, En.
  by rewrite (proj2 (Z.leb_le _ _)) by (unfold kTypeValue; lia).
Qed.

(** Where a seek at a sequence number leads: no update before it is visible, unless it
    is of a smaller key, and the keys from it on are not smaller. *)
Lemma seek_place s us target :
  updates_sorted us → Forall update_ok us → 0 ≤ s ≤ kMaxSequenceNumber →
  let j0 := @lower_bound internal_comparator (ientry <$> us) (target ++ EncodeFixed64 (s * 256 + 1)) in
  (j0 ≤ length us)%nat ∧
  (∀ e w, us !! e = Some w → (e < j0)%nat → up_seq w ≤ s → compare_ (up_key w) target < 0) ∧
  (∀ e w, us !! e = Some w → (j0 ≤ e)%nat → 0 ≤ compare_ (up_key w) target).
Proof.
  intros Hs Hok Hsq. cbv zeta. set (t := target ++ _). set (j0 := lower_bound _ t).
  assert (j0 ≤ length us)%nat as Hj.
  { pose proof (cut_le (below (UC := internal_comparator) t) (ientry <$> us)) as Hc.
    by rewrite length_fmap in Hc. }
  assert (∀ w, update_ok w → ikey_compare (ientry w).1 t =
    version_compare (up_key w) (up_tag w) target (s * 256 + 1)) as Ecmp.
  { intros w Hw. apply ikey_compare_tags; [by apply up_tag_range|]. by apply pack_tag; [|lia]. }
  rewrite Forall_forall in Hok. split_and!; [done| |].
  - intros e w Ew He Hsee.
    pose proof (Hok w (list_elem_of_lookup_2 _ _ _ Ew)) as Hw.
    assert ((ientry <$> us) !! e = Some (ientry w)) as Ei by (by rewrite list_lookup_fmap, Ew).
    pose proof (cut_below _ _ _ _ Ei He) as Hb%Z.ltb_lt.
    change (ikey_compare (ientry w).1 t < 0) in Hb. rewrite Ecmp in Hb by done.
    unfold version_compare, up_tag in Hb. pose proof Hw as (_ & Hty & _).
    destruct (Z.eqb_spec (compare_ (up_key w) target) 0) as [E|]; [|done]. rewrite E in Hb.
    destruct (Z.ltb_spec (s * 256 + 1) (up_seq w * 256 + up_type w)); [lia|].
    destruct (Z.ltb_spec (up_seq w * 256 + up_type w) (s * 256 + 1)); lia.
  - intros e w Ew He. pose proof (lookup_lt_Some _ _ _ Ew) as Hlt.
    destruct (lookup_lt_is_Some_2 us j0) as [w0 E0]; [lia|].
    pose proof (Hok w0 (list_elem_of_lookup_2 _ _ _ E0)) as Hw0.
    assert ((ientry <$> us) !! j0 = Some (ientry w0)) as Ei by (by rewrite list_lookup_fmap, E0).
    pose proof (cut_at _ _ _ Ei) as Hb%Z.ltb_ge.
    change (0 ≤ ikey_compare (ientry w0).1 t) in Hb. rewrite Ecmp in Hb by done.
    assert (0 ≤ compare_ (up_key w0) target) as H0.
    { unfold version_compare in Hb. destruct (Z.eqb_spec (compare_ (up_key w0) target) 0); lia. }
    pose proof (keys_le us j0 e w0 w Hs E0 Ew He) as Hle.
    apply compare_nlt_ge. apply compare_trans with (up_key w0); [by apply compare_nlt_ge|done].
Qed.
End order.

(** ** Runs *)

Section runs.
Context `{UC : Comparator (list Z)} `{!ComparatorLaws (list Z)} {C : Type} `{I : IterOps C}.
Variables (s bound : Z) (us : list update) (T Tuser : list Z → Prop) (R : option nat → C → Prop).
Hypothesis HI : @iter_over internal_comparator C I T (ientry <$> us) R.
Hypothesis HT : ∀ target, Tuser target → T (target ++ EncodeFixed64 (s * 256 + 1)).
Hypothesis Hsorted : updates_sorted us.
Hypothesis Hok : Forall update_ok us.
Hypothesis Hseq : 0 ≤ s ≤ kMaxSequenceNumber.
Hypothesis Hbound : Z.of_nat (length us) < bound.

Abbreviation st := (DBIter C).

Definition sampling_ok (d : st) : Prop :=
  seed_ok (di_rnd_ d) ∧ 0 ≤ di_bytes_counter_ d < 2097152.

(** The iterator at a position of the updates, and the members but those for sampling. *)
Definition core (p : option nat) (sk sv : list Z) (forward valid : bool) (d : st) : Prop :=
  R p (di_iter_ d) ∧ di_status_ d = None ∧ di_saved_key_ d = sk ∧ di_saved_value_ d = sv ∧
  di_forward_ d = forward ∧ di_valid_ d = valid ∧ sampling_ok d.

Abbreviation place := (λ n, at_pos (ientry <$> us) n).

Lemma place_lt n : (n < length us)%nat → place n = Some n.
Proof. intros Hn. unfold at_pos. rewrite length_fmap. by rewrite (proj2 (Nat.ltb_lt _ _)). Qed.
Lemma place_ge n : (length us ≤ n)%nat → place n = None.
Proof. intros Hn. unfold at_pos. rewrite length_fmap. by rewrite (proj2 (Nat.ltb_ge _ _)). Qed.

Lemma wp_on_internal (c : M C unit) p q sk sv f v d :
  core p sk sv f v d → (∃ it, c (di_iter_ d) = Done (tt, it) ∧ R q it) →
  wp (on_internal c) (λ _ d', core q sk sv f v d') d.
Proof. intros (_ & H) (it & E & Hq). unfold wp, on_internal. rewrite E. by split. Qed.

Lemma run_internal_valid p sk sv f v d :
  core p sk sv f v d → internal_valid d = Done (bool_decide (is_Some p), d).
Proof.
  intros [Hp _]. unfold internal_valid. rewrite bind_get. by rewrite (io_valid _ _ _ _ HI _ _ Hp).
Qed.

Lemma set_iter_same (d : st) : set_iter (di_iter_ d) d = d.
Proof. by destruct d. Qed.

Lemma run_entry j u sk sv f v d :
  core (Some j) sk sv f v d → us !! j = Some u →
  on_internal i_key d = Done ((ientry u).1, d) ∧ on_internal i_value d = Done (up_value u, d).
Proof.
  intros [Hp _] Eu. unfold on_internal.
  assert ((ientry <$> us) !! j = Some ((ientry u).1, up_value u)) as E
    by (by rewrite list_lookup_fmap, Eu).
  destruct (io_entry _ _ _ _ HI _ _ _ _ Hp E) as [-> ->]. by rewrite set_iter_same.
Qed.

Lemma update_at j u : us !! j = Some u → update_ok u.
Proof. intros E. rewrite Forall_forall in Hok. by eapply Hok, list_elem_of_lookup_2. Qed.

Lemma run_user_key j u sk sv f v d :
  core (Some j) sk sv f v d → us !! j = Some u →
  (k ← on_internal i_key; extract_user_key k) d = Done (up_key u, d).
Proof.
  intros Hd Eu. destruct (run_entry _ _ _ _ _ _ _ Hd Eu) as [Ek _]. bind_with Ek.
  destruct (parse_ientry u (update_at _ _ Eu)) as (_ & Ex & Hl). unfold extract_user_key.
  rewrite bind_assert by (by apply Nat.leb_le). by rewrite Ex.
Qed.

Ltac fields := cbn [di_iter_ di_status_ di_saved_key_ di_saved_value_ di_forward_ di_valid_ di_rnd_
  di_bytes_counter_ di_samples_].

(** Sampling ends and touches its own members only. *)
Lemma wp_sample k n p sk sv f v d :
  core p sk sv f v d → 0 ≤ n < 2 ^ 63 →
  wp (counter_add (- n);; loop (2 * Z.abs (- n) + 2) (sample_step k) tt)
    (λ _ d', core p sk sv f v d') d.
Proof.
  intros Hd Hn. pose proof Hd as (HR & H1 & H2 & H3 & H4 & H5 & Hs & Hc).
  assert (∀ n', - 2 ^ 63 ≤ n' < 2 ^ 63 → ((-2 ^ 63 <=? n') && (n' <? 2 ^ 63)) = true) as Hrange.
  { intros n' Hn'. apply andb_true_iff. split; [apply Z.leb_le|apply Z.ltb_lt]; lia. }
  apply wp_bind. unfold counter_add. eapply wp_done.
  { rewrite bind_get. cbv zeta. rewrite bind_assert by (apply Hrange; lia). reflexivity. }
  eapply (wp_loop
    (λ _ d', R p (di_iter_ d') ∧ di_status_ d' = None ∧ di_saved_key_ d' = sk ∧
      di_saved_value_ d' = sv ∧ di_forward_ d' = f ∧ di_valid_ d' = v ∧ seed_ok (di_rnd_ d') ∧
      - n ≤ di_bytes_counter_ d' < 2097152)
    (λ _ d', 2 * Z.max 0 (- di_bytes_counter_ d') +
      (if Random_Next (di_rnd_ d') `mod` 2097152 =? 0 then 1 else 0))).
  - fields. split_and!; try done; lia.
  - fields. destruct (_ =? 0); lia.
  - intros [] d' (HR' & H1' & H2' & H3' & H4' & H5' & Hs' & Hc') _. unfold wp, sample_step.
    rewrite bind_get. destruct (Z.ltb_spec (di_bytes_counter_ d') 0) as [Hneg|Hpos].
    + unfold RandomPeriod, Random_Uniform, counter_add, RecordReadSample, set_rnd, set_counter.
      change (2 * kReadBytesPeriod) with 2097152.
      set (x := Random_Next (di_rnd_ d')).
      pose proof (Z.mod_pos_bound x 2097152 ltac:(lia)) as Hx.
      pose proof (two_periods (di_rnd_ d') Hs') as H2p. fold x in H2p.
      assert (seed_ok x) as Hsx by (by apply Random_Next_mod).
      run_unfold. fields. unfold get_state, assert_. cbv beta iota. fields.
      fold x. rewrite Hrange by lia. run_unfold. fields. split_and!; try done; try lia.
      * destruct (_ =? 0); lia.
      * destruct (Z.eqb_spec (x `mod` 2097152) 0) as [Hx0|Hx0].
        -- specialize (H2p Hx0). rewrite (proj2 (Z.eqb_neq _ 0)) by done. lia.
        -- destruct (_ =? 0); lia.
    + unfold mret, M_ret, core, sampling_ok. cbv beta iota. split_and!; try done; lia.
Qed.

Lemma wp_parse_visible j u sk sv f v d :
  core (Some j) sk sv f v d → us !! j = Some u →
  wp (parse_visible s) (λ r d', core (Some j) sk sv f v d' ∧
    r = if up_seq u <=? s then Some (MkParsed (up_key u) (up_seq u) (up_type u)) else None) d.
Proof.
  intros Hd Eu. destruct (run_entry _ _ _ _ _ _ _ Hd Eu) as [Ek Ev].
  pose proof (update_at _ _ Eu) as Hu. destruct (parse_ientry u Hu) as (Ep & _ & _).
  pose proof Hu as (_ & _ & [_ Hkl] & [_ Hvl]).
  assert (Z.of_nat (length (ientry u).1) = Z.of_nat (length (up_key u)) + 8) as El
    by (simpl; rewrite length_app, length_fixed64; lia).
  unfold parse_visible, ParseKey. apply wp_bind, wp_bind. eapply wp_done; [exact Ek|].
  apply wp_bind. eapply wp_done; [exact Ev|]. cbv zeta.
  rewrite El, wrapu_small, wraps_small by (pow2; lia).
  rewrite <-bind_assoc_wp. apply wp_bind.
  replace (Z.abs (Z.of_nat (length (up_key u)) + 8 + Z.of_nat (length (up_value u))))
    with (Z.abs (- (Z.of_nat (length (up_key u)) + 8 + Z.of_nat (length (up_value u))))) by lia.
  eapply wp_mono; [apply wp_sample; [exact Hd|pow2; lia]|].
  intros [] d' Hd'. rewrite Ep. apply wp_ret. by split.
Qed.

(** The members, one by one. *)
Lemma wp_SaveKey k p sk sv f v d : core p sk sv f v d → wp (SaveKey k) (λ _ d', core p k sv f v d') d.
Proof. intros (H & ? & ? & ? & ? & ? & ?). by split_and!. Qed.
Lemma wp_save_value k p sk sv f v d : core p sk sv f v d → wp (save_value k) (λ _ d', core p sk k f v d') d.
Proof. intros (H & ? & ? & ? & ? & ? & ?). by split_and!. Qed.
Lemma wp_set_forward b p sk sv f v d : core p sk sv f v d → wp (set_forward b) (λ _ d', core p sk sv b v d') d.
Proof. intros (H & ? & ? & ? & ? & ? & ?). by split_and!. Qed.
Lemma wp_set_valid b p sk sv f v d : core p sk sv f v d → wp (set_valid b) (λ _ d', core p sk sv f b d') d.
Proof. intros (H & ? & ? & ? & ? & ? & ?). by split_and!. Qed.

Lemma wp_valid Q p sk sv f v d :
  core p sk sv f v d → Q (bool_decide (is_Some p)) d → wp internal_valid Q d.
Proof. intros Hd. eapply wp_done. by eapply run_internal_valid. Qed.

Lemma wp_next j sk sv f v d :
  core (Some j) sk sv f v d → wp (on_internal i_Next) (λ _ d', core (place (S j)) sk sv f v d') d.
Proof. intros Hd. apply (wp_on_internal _ _ _ _ _ _ _ _ Hd). by apply (io_next _ _ _ _ HI), Hd. Qed.
Lemma wp_prev j sk sv f v d :
  core (Some j) sk sv f v d → wp (on_internal i_Prev) (λ _ d', core (prev_pos j) sk sv f v d') d.
Proof. intros Hd. apply (wp_on_internal _ _ _ _ _ _ _ _ Hd). by apply (io_prev _ _ _ _ HI), Hd. Qed.

Lemma core_bound j sk sv f v d : core (Some j) sk sv f v d → (j < length us)%nat.
Proof. intros [Hp _]. pose proof (io_bound _ _ _ _ HI _ _ Hp) as Hb. by rewrite length_fmap in Hb. Qed.

(** ** Forward *)

Definition same_key (a b : update) : Prop := compare_ (up_key a) (up_key b) = 0.
Definition seen (w : update) : Prop := up_seq w ≤ s.

(** From the index [j] on, an update that is seen is skipped exactly when there is a
    newer one of its key before [j], or at the index [c] that the iterator leaves. *)
Definition hides (c : option nat) (j : nat) (skipping : bool) (sk : list Z) : Prop :=
  ∀ e w, us !! e = Some w → (j ≤ e)%nat → seen w →
    (skipping && (compare_ (up_key w) sk <=? 0) = true ↔
      ∃ e' w', us !! e' = Some w' ∧ seen w' ∧ same_key w' w ∧ ((e' < j)%nat ∨ c = Some e')).

(** The index [c] is one that is shown; nothing between [j] and it is seen. *)
Definition leaving (c : option nat) (j : nat) : Prop :=
  ∀ x, c = Some x → shown s us x = true ∧
    ∀ e w, us !! e = Some w → (j ≤ e < x)%nat → ¬ seen w.

(** The index [e] is the first one from [j] on that is shown and is not [c]. *)
Definition next_shown (c : option nat) (j e : nat) : Prop :=
  (j ≤ e ≤ length us)%nat ∧ (∀ x, (j ≤ x < e)%nat → shown s us x = true → c = Some x) ∧
  ((e < length us)%nat → shown s us e = true ∧ c ≠ Some e).

Definition found_next c j sv d : Prop :=
  ∃ e, next_shown c j e ∧ core (place e) [] sv true (bool_decide (e < length us)%nat) d.

Lemma same_key_trans a b c : same_key a b → same_key b c → same_key a c.
Proof. apply compare_eq_trans. Qed.

Lemma key_between a b w : compare_ (up_key a) (up_key b) ≤ 0 → compare_ (up_key b) (up_key w) ≤ 0 →
  same_key a w → compare_ (up_key w) (up_key b) ≤ 0.
Proof.
  unfold same_key. intros Hab Hbw Haw. apply compare_trans with (up_key a); [|done].
  apply compare_eq_sym in Haw. lia.
Qed.

Lemma hides_unseen c j u skipping sk :
  us !! j = Some u → ¬ seen u → hides c j skipping sk → hides c (S j) skipping sk.
Proof.
  intros Eu Hu H e w Ew He Hw. rewrite (H e w Ew ltac:(lia) Hw).
  split; intros (e' & w' & E' & Hw' & Hk & Hor); exists e', w'; split_and!; try done.
  - destruct Hor; [left; lia|by right].
  - destruct Hor as [Hlt|]; [|by right]. left. destruct (decide (e' = j)) as [->|]; [|lia].
    rewrite Eu in E'. by injection E' as ->.
Qed.

Lemma hides_hidden c j u skipping sk :
  us !! j = Some u → seen u → skipping && (compare_ (up_key u) sk <=? 0) = true →
  hides c j skipping sk → hides c (S j) skipping sk.
Proof.
  intros Eu Hu Hh H e w Ew He Hw. rewrite (H e w Ew ltac:(lia) Hw).
  split; intros (e' & w' & E' & Hw' & Hk & Hor).
  - exists e', w'. split_and!; try done. destruct Hor; [left; lia|by right].
  - destruct Hor as [Hlt|Hc]; [|exists e', w'; split_and!; by try right].
    destruct (decide (e' = j)) as [->|]; [|exists e', w'; split_and!; try done; left; lia].
    rewrite Eu in E'. injection E' as <-.
    apply (H j u Eu ltac:(lia) Hu) in Hh as (e1 & w1 & E1 & Hw1 & Hk1 & Hor1).
    exists e1, w1. split_and!; [done|done|by eapply same_key_trans|done].
Qed.

Lemma hides_deleted c j u :
  us !! j = Some u → seen u → leaving c j → hides c (S j) true (up_key u).
Proof.
  intros Eu Hu Hc e w Ew He Hw. simpl. rewrite Z.leb_le.
  pose proof (keys_le us j e u w Hsorted Eu Ew ltac:(lia)) as Hle. split.
  - intros Hge. exists j, u. split_and!; [done|done| |left; lia].
    unfold same_key. apply compare_nlt_ge in Hge. lia.
  - intros (e' & w' & E' & Hw' & Hk & Hor).
    assert (e' ≤ j)%nat as Hej.
    { destruct Hor as [|E]; [lia|]. destruct (decide (e' ≤ j)%nat); [done|].
      destruct (Hc e' E) as [_ Hgap]. by destruct (Hgap j u Eu ltac:(lia)). }
    eapply key_between; [|exact Hle|exact Hk]. by apply (keys_le us e' j).
Qed.

Lemma hides_start : hides None 0 false [].
Proof. intros e w Ew He Hw. simpl. split; [done|]. intros (? & ? & ? & ? & ? & [?|?]); [lia|done]. Qed.

Lemma shown_here c j u skipping sk :
  us !! j = Some u → seen u → up_type u = kTypeValue → hides c j skipping sk → leaving c j →
  skipping && (compare_ (up_key u) sk <=? 0) = false →
  shown s us j = true ∧ c ≠ Some j.
Proof.
  intros Eu Hu Ht H Hc Hh. specialize (H j u Eu ltac:(lia) Hu). rewrite Hh in H. split.
  - apply (shown_spec s us j u Eu). split_and!; [done|done|]. intros e w He Ew Hw Hk.
    destruct H as [_ H]. discriminate H. exists e, w. split_and!; [done|done|done|by left].
  - intros ->. destruct H as [_ H]. discriminate H. exists j, u.
    split_and!; [done|done|apply compare_refl|by right].
Qed.

Lemma not_shown_here c j u skipping sk :
  us !! j = Some u → seen u → hides c j skipping sk → leaving c j →
  skipping && (compare_ (up_key u) sk <=? 0) = true →
  shown s us j = true → c = Some j.
Proof.
  intros Eu Hu H Hc Hh Hs. apply (H j u Eu ltac:(lia) Hu) in Hh as (e & w & Ew & Hw & Hk & Hor).
  apply (shown_spec s us j u Eu) in Hs as (_ & _ & Hno).
  assert (¬ (e < j)%nat) as Hge by (intros Hlt; by apply (Hno e w)).
  destruct Hor as [|E]; [done|]. destruct (decide (e = j)) as [->|]; [done|].
  destruct (Hc e E) as [_ Hgap]. by destruct (Hgap j u Eu ltac:(lia)).
Qed.

Lemma shown_seen_value j u :
  us !! j = Some u → shown s us j = true → seen u ∧ up_type u = kTypeValue.
Proof. intros Eu Hs. by apply (shown_spec s us j u Eu) in Hs as (? & ? & _). Qed.

Lemma leaving_S c j : leaving c j → leaving c (S j).
Proof.
  intros H x E. destruct (H x E) as [Hs Hg]. split; [done|].
  intros e w Ew He. apply (Hg e w Ew). lia.
Qed.

(** What the loop keeps: it is at the index [j], and has found nothing from [j0] on. *)
Definition searching c j0 sv v (k : nat) (skipping : bool) (d : st) : Prop :=
  ∃ j sk, k = (length us - j)%nat ∧ (j0 ≤ j)%nat ∧ core (Some j) sk sv true v d ∧
    hides c j skipping sk ∧ leaving c j ∧
    ∀ x, (j0 ≤ x < j)%nat → shown s us x = true → c = Some x.

(** The end of a turn: the next update, or the end. *)
Lemma wp_advance c j0 j sk sv v skipping d :
  core (Some j) sk sv true v d → (j0 ≤ j)%nat → leaving c (S j) → hides c (S j) skipping sk →
  (∀ x, (j0 ≤ x < S j)%nat → shown s us x = true → c = Some x) →
  wp (on_internal i_Next;;
      valid ← internal_valid;
      if (valid : bool) then mret (inl skipping)
      else SaveKey [];; set_valid false;; mret (inr tt))
    (λ (r : bool + unit) d',
       match r with
       | inl skipping' => ∃ k', (k' < length us - j)%nat ∧ searching c j0 sv v k' skipping' d'
       | inr _ => found_next c j0 sv d'
       end) d.
Proof.
  intros Hd Hj Hc Hh Hn. pose proof (core_bound _ _ _ _ _ _ Hd) as Hlt.
  apply wp_bind. eapply wp_mono; [by eapply wp_next|]. intros [] d1 H1.
  apply wp_bind. eapply wp_valid; [exact H1|].
  destruct (decide (S j < length us)%nat) as [HS|HS].
  - rewrite place_lt in * by done. rewrite bool_decide_eq_true_2 by done. apply wp_ret.
    exists (length us - S j)%nat. split; [lia|]. exists (S j), sk. split_and!; try done; lia.
  - rewrite place_ge in * by lia. rewrite bool_decide_eq_false_2 by (by intros [? ?]).
    apply wp_bind. eapply wp_mono; [by eapply wp_SaveKey|]. intros [] d2 H2.
    apply wp_bind. eapply wp_mono; [by eapply wp_set_valid|]. intros [] d3 H3. apply wp_ret.
    exists (length us). split; [|by rewrite place_ge, bool_decide_eq_false_2 by lia].
    split_and!; [lia|lia| |lia]. intros x Hx. apply Hn. lia.
Qed.

Lemma wp_find_next_step c j0 sv v k skipping d :
  searching c j0 sv v k skipping d →
  wp (find_next_step s skipping) (λ r d', match r with
    | inl skipping' => ∃ k', (k' < k)%nat ∧ searching c j0 sv v k' skipping' d'
    | inr _ => found_next c j0 sv d'
    end) d.
Proof.
  intros (j & sk & -> & Hj & Hd & Hh & Hc & Hn).
  pose proof (core_bound _ _ _ _ _ _ Hd) as Hlt. destruct (lookup_lt_is_Some_2 us j Hlt) as [u Eu].
  assert (leaving c (S j)) as HcS by (by apply leaving_S).
  assert ((shown s us j = true → c = Some j) →
    ∀ x, (j0 ≤ x < S j)%nat → shown s us x = true → c = Some x) as HnS.
  { intros Hsj x Hx. destruct (decide (x = j)) as [->|]; [done|]. apply Hn. lia. }
  unfold find_next_step. apply wp_bind.
  eapply wp_mono; [by eapply wp_parse_visible|]. intros ikey d1 [Hd1 ->].
  destruct (Z.leb_spec (up_seq u) s) as [Hu|Hu].
  2:{ cbv beta iota. apply wp_bind, wp_ret.
      eapply (wp_advance c j0 j); [exact Hd1|done|done|eapply hides_unseen; [done|unfold seen; lia|done]|].
      apply HnS. intros Hs. apply (shown_seen_value j u Eu) in Hs as [Hs _]. unfold seen in Hs. lia. }
  cbn [type_ user_key]. destruct (Z.eqb_spec (up_type u) kTypeDeletion) as [Ht|Ht].
  { apply wp_bind, wp_bind. eapply wp_mono; [by eapply wp_SaveKey|]. intros [] d2 H2. apply wp_ret.
    eapply (wp_advance c j0 j); [exact H2|done|done|by apply hides_deleted|].
    apply HnS. intros Hs. apply (shown_seen_value j u Eu) in Hs as [_ Hs]. by rewrite Hs in Ht. }
  assert (up_type u = kTypeValue) as Hv.
  { pose proof (update_at _ _ Eu) as (_ & Hty & _). unfold kTypeValue, kTypeDeletion in *. lia. }
  rewrite Hv, Z.eqb_refl. apply wp_bind, wp_bind, wp_get.
  assert (di_saved_key_ d1 = sk) as -> by apply Hd1.
  destruct (skipping && _) eqn:Hhid.
  { apply wp_ret. eapply (wp_advance c j0 j); [exact Hd1|done|done|by eapply hides_hidden|].
    apply HnS. intros Hs. by apply (not_shown_here c j u skipping sk). }
  apply wp_bind. eapply wp_mono; [by eapply wp_set_valid|]. intros [] d2 H2.
  apply wp_bind. eapply wp_mono; [by eapply wp_SaveKey|]. intros [] d3 H3. apply wp_ret, wp_ret.
  destruct (shown_here c j u skipping sk Eu Hu Hv Hh Hc Hhid) as [Hs Hne].
  exists j. split; [|by rewrite place_lt, bool_decide_eq_true_2].
  split_and!; [lia|lia|done|done].
Qed.

Lemma wp_FindNext c j0 sk sv v skipping d :
  core (Some j0) sk sv true v d → hides c j0 skipping sk → leaving c j0 →
  wp (FindNextUserEntry s bound skipping) (λ _ d', found_next c j0 sv d') d.
Proof.
  intros Hd Hh Hc. unfold FindNextUserEntry. apply wp_bind.
  eapply wp_valid; [exact Hd|]. apply wp_bind. apply wp_ret. apply wp_bind, wp_get.
  assert (di_forward_ d = true) as -> by apply Hd. apply wp_bind, wp_ret.
  eapply (wp_loop_upto (searching c j0 sv v) (length us - j0)%nat).
  - exists j0, sk. split_and!; try done. lia.
  - pose proof (core_bound _ _ _ _ _ _ Hd). lia.
  - intros k sk' d'. apply wp_find_next_step.
Qed.

(** ** Backward *)

(** Of the updates from [j] on, the one at [e] is the newest of its key that is seen,
    and it is a value. *)
Definition cand (j e : nat) : Prop :=
  ∃ u, us !! e = Some u ∧ seen u ∧ up_type u = kTypeValue ∧
    ∀ e' w, (j ≤ e' < e)%nat → us !! e' = Some w → seen w → ¬ same_key w u.

(** What the loop keeps when the updates from [j] to [n] are behind it: none of them
    is a candidate, or one, whose key and value are saved. *)
Definition prev_inv (n j : nat) (vt : Z) (sk sv : list Z) : Prop :=
  (vt = kTypeDeletion ∧ ∀ e, (j ≤ e < n)%nat → ¬ cand j e) ∨
  (vt = kTypeValue ∧ ∃ f u, us !! f = Some u ∧ (j ≤ f < n)%nat ∧ cand j f ∧
    (∀ e w, (j ≤ e < f)%nat → us !! e = Some w → ¬ seen w) ∧
    sk = up_key u ∧ sv = up_value u ∧ ∀ e, (j ≤ e < n)%nat → cand j e → e = f).

Lemma cand_up i e : (S i ≤ e)%nat → cand i e → cand (S i) e.
Proof.
  intros He (u & Eu & Hu & Ht & H). exists u. split_and!; try done.
  intros e' w He'. apply H. lia.
Qed.

Lemma prev_inv_unseen n i u vt sk sv :
  us !! i = Some u → ¬ seen u → prev_inv n (S i) vt sk sv → prev_inv n i vt sk sv.
Proof.
  intros Eu Hu H.
  assert (∀ e, (i ≤ e)%nat → cand i e → (S i ≤ e)%nat) as Hne.
  { intros e He (w & Ew & Hw & _). destruct (decide (e = i)) as [->|]; [|lia].
    rewrite Eu in Ew. by injection Ew as <-. }
  destruct H as [[-> H]|(-> & f & w & Ef & Hf & (w' & Ew' & Hw' & Ht & Hc) & Hgap & -> & -> & Hu')].
  - left. split; [done|]. intros e He Hce. pose proof (Hne e ltac:(lia) Hce).
    apply (H e); [lia|by apply cand_up].
  - right. split; [done|]. exists f, w. split_and!; try done; try lia.
    + exists w'. split_and!; try done. intros e' w1 He' E1 H1. destruct (decide (e' = i)) as [->|].
      * rewrite Eu in E1. by injection E1 as <-.
      * apply (Hc e'); [lia|done|done].
    + intros e w1 He E1. destruct (decide (e = i)) as [->|].
      * rewrite Eu in E1. by injection E1 as <-.
      * apply (Hgap e); [lia|done].
    + intros e He Hce. pose proof (Hne e ltac:(lia) Hce). apply Hu'; [lia|by apply cand_up].
Qed.

(** When the loop goes on, a new update that is seen replaces what was saved. *)
Lemma no_other_cand n i u vt sk sv :
  us !! i = Some u → seen u → prev_inv n (S i) vt sk sv →
  (vt ≠ kTypeDeletion → 0 ≤ compare_ (up_key u) sk) →
  ∀ e, (S i ≤ e < n)%nat → ¬ cand i e.
Proof.
  intros Eu Hu H Hge e He Hce. pose proof (cand_up i e ltac:(lia) Hce) as HcS.
  destruct H as [[-> H]|(-> & f & w & Ef & Hf & _ & _ & -> & _ & Hone)].
  - by apply (H e).
  - assert (e = f) as -> by (by apply Hone). destruct Hce as (w' & Ew' & _ & _ & Hno).
    rewrite Ef in Ew'. injection Ew' as <-. apply (Hno i u); [lia|done|done|].
    pose proof (keys_le us i f u w Hsorted Eu Ef ltac:(lia)).
    specialize (Hge ltac:(done)). unfold same_key. lia.
Qed.

Lemma prev_inv_seen n i u vt sk sv :
  (i < n)%nat → us !! i = Some u → seen u → prev_inv n (S i) vt sk sv →
  (vt ≠ kTypeDeletion → 0 ≤ compare_ (up_key u) sk) →
  (up_type u = kTypeDeletion → prev_inv n i (up_type u) [] []) ∧
  (up_type u = kTypeValue → prev_inv n i (up_type u) (up_key u) (up_value u)).
Proof.
  intros Hi Eu Hu H Hge. pose proof (no_other_cand _ _ _ _ _ _ Eu Hu H Hge) as Hno. split; intros Ht.
  - left. split; [done|]. intros e He Hce. destruct (decide (e = i)) as [->|]; [|apply (Hno e); [lia|done]].
    destruct Hce as (w & Ew & _ & Htw & _). rewrite Eu in Ew. injection Ew as <-. by rewrite Ht in Htw.
  - right. split; [done|]. exists i, u. split_and!; try done; try lia.
    + exists u. split_and!; try done. lia.
    + intros e He Hce. destruct (decide (e = i)) as [->|]; [done|]. destruct (Hno e); [lia|done].
Qed.

Definition seeking n (k : nat) (vt : Z) (d : st) : Prop :=
  ∃ i sk sv v, k = S i ∧ (i < n)%nat ∧ core (Some i) sk sv false v d ∧ prev_inv n (S i) vt sk sv.

(** Where the loop ends: before the update that is saved, if there is one. *)
Definition found_prev n (vt : Z) (d : st) : Prop :=
  ∃ j sk sv v, (j ≤ n)%nat ∧ core (prev_pos j) sk sv false v d ∧ prev_inv n j vt sk sv ∧
    (vt = kTypeDeletion → j = O) ∧
    (vt = kTypeValue → ∀ e w, (e < j)%nat → us !! e = Some w → compare_ (up_key w) sk < 0).

Lemma wp_back n i sk sv v vt d :
  (i < n)%nat → core (Some i) sk sv false v d → prev_inv n i vt sk sv →
  wp (on_internal i_Prev;;
      valid ← internal_valid;
      mret (if (valid : bool) then inl vt else inr vt))
    (λ (r : Z + Z) d', match r with
       | inl vt' => ∃ k', (k' < S i)%nat ∧ seeking n k' vt' d'
       | inr vt' => found_prev n vt' d'
       end) d.
Proof.
  intros Hi Hd H. apply wp_bind. eapply wp_mono; [by eapply wp_prev|]. intros [] d1 H1.
  apply wp_bind. eapply wp_valid; [exact H1|]. apply wp_ret. destruct i as [|i]; simpl in *.
  - exists O, sk, sv, v. split_and!; [lia|done|done|done|lia].
  - exists (S i). split; [lia|]. exists i, sk, sv, v. split_and!; [done|lia|done|done].
Qed.

Lemma wp_find_prev_step n k vt d :
  seeking n k vt d →
  wp (find_prev_step s vt) (λ r d', match r with
    | inl vt' => ∃ k', (k' < k)%nat ∧ seeking n k' vt' d'
    | inr vt' => found_prev n vt' d'
    end) d.
Proof.
  intros (i & sk & sv & v & -> & Hi & Hd & Hinv).
  pose proof (core_bound _ _ _ _ _ _ Hd) as Hlt. destruct (lookup_lt_is_Some_2 us i Hlt) as [u Eu].
  unfold find_prev_step. apply wp_bind.
  eapply wp_mono; [by eapply wp_parse_visible|]. intros ikey d1 [Hd1 ->]. apply wp_bind, wp_get.
  destruct (Z.leb_spec (up_seq u) s) as [Hu|Hu].
  2:{ cbv beta iota. apply wp_bind, wp_ret. eapply wp_back; [done|exact Hd1|].
      eapply prev_inv_unseen; [done|unfold seen; lia|done]. }
  cbn [type_ user_key]. assert (di_saved_key_ d1 = sk) as -> by apply Hd1.
  destruct (negb _ && _) eqn:Hbrk.
  { apply wp_bind, wp_ret, wp_ret. apply andb_true_iff in Hbrk as [Hvt%negb_true_iff%Z.eqb_neq Hlow%Z.ltb_lt].
    exists (S i), sk, sv, v. split_and!; [lia|done|done|done|].
    intros _ e w He Ew. eapply compare_le_lt_trans; [|exact Hlow]. apply (keys_le us e i); [done..|lia]. }
  assert (vt ≠ kTypeDeletion → 0 ≤ compare_ (up_key u) sk) as Hge.
  { intros Hne. apply Z.eqb_neq in Hne. rewrite Hne in Hbrk. by apply Z.ltb_ge in Hbrk. }
  destruct (prev_inv_seen n i u vt sk sv Hi Eu Hu Hinv Hge) as [Hdel Hval].
  pose proof (update_at _ _ Eu) as (_ & Hty & _). apply wp_bind.
  destruct (Z.eqb_spec (up_type u) kTypeDeletion) as [Ht|Ht].
  - apply wp_bind, wp_bind. eapply wp_mono; [by eapply wp_SaveKey|]. intros [] d2 H2.
    eapply wp_mono; [by eapply wp_save_value|]. intros [] d3 H3. apply wp_ret.
    eapply wp_back; [done|exact H3|by apply Hdel].
  - destruct (run_entry _ _ _ _ _ _ _ Hd1 Eu) as [_ Ev].
    pose proof (run_user_key _ _ _ _ _ _ _ Hd1 Eu) as Ek.
    apply wp_bind, wp_bind. eapply wp_done; [exact Ev|]. rewrite <-bind_assoc_wp.
    apply wp_bind. eapply wp_done; [exact Ek|].
    apply wp_bind. eapply wp_mono; [by eapply wp_SaveKey|]. intros [] d2 H2.
    eapply wp_mono; [by eapply wp_save_value|]. intros [] d3 H3. apply wp_ret.
    eapply wp_back; [done|exact H3|]. apply Hval. unfold kTypeValue, kTypeDeletion in *. lia.
Qed.

(** ** Positions in the view *)

Abbreviation view := (user_view s us).

Definition behind (n j : nat) (u : update) : Prop :=
  (n ≤ j)%nat ∧ (∀ e w, (e < n)%nat → us !! e = Some w → compare_ (up_key w) (up_key u) < 0) ∧
  (∀ e w, (n ≤ e < j)%nat → us !! e = Some w → ¬ seen w).

Definition dbi_at (p : option nat) (d : st) : Prop :=
  match p with
  | None => ∃ q sk sv f, core q sk sv f false d
  | Some i => ∃ j u, us !! j = Some u ∧ shown s us j = true ∧ rank s us j = i ∧
      ((∃ sk sv, core (Some j) sk sv true true d) ∨
       (∃ n, behind n j u ∧ core (prev_pos n) (up_key u) (up_value u) false true d))
  end.

Lemma found_next_at c j sv d :
  (j ≤ length us)%nat → found_next c j sv d → (c = None → dbi_at (at_pos view (rank s us j)) d) ∧
    (∀ x, c = Some x → (j ≤ x)%nat → leaving c j → dbi_at (at_pos view (S (rank s us x))) d).
Proof.
  intros Hj (e & (Hb & Hn & He) & Hd).
  assert (dbi_at (at_pos view (rank s us e)) d) as He'.
  { unfold at_pos. destruct (decide (e < length us)%nat) as [Hlt|Hge].
    - destruct (He Hlt) as [Hs _]. rewrite <-rank_length, (proj2 (Nat.ltb_lt _ _)) by (by apply rank_lt).
      rewrite place_lt, bool_decide_eq_true_2 in Hd by done.
      destruct (lookup_lt_is_Some_2 us e Hlt) as [u Eu]. exists e, u. split_and!; eauto.
    - rewrite bool_decide_eq_false_2 in Hd by done. replace e with (length us) by lia.
      rewrite rank_length, Nat.ltb_irrefl. by eexists _, _, _, _. }
  split.
  - intros ->. rewrite <-(rank_same s us j e); [done|lia|].
    intros x Hx. destruct (shown s us x) eqn:Es; [|done]. by specialize (Hn x Hx Es).
  - intros x -> Hx Hc. destruct (Hc x eq_refl) as [Hs Hgap].
    assert (x < e)%nat as Hxe.
    { pose proof (shown_bound _ _ _ Hs). destruct (decide (x < e)%nat); [done|].
      destruct (He ltac:(lia)) as [Hse Hne]. destruct (decide (x = e)) as [->|]; [done|].
      destruct (lookup_lt_is_Some_2 us e) as [w Ew]; [lia|].
      destruct (shown_seen_value e w Ew Hse) as [Hw _]. by destruct (Hgap e w Ew ltac:(lia)). }
    replace (S (rank s us x)) with (rank s us (S x)) by (rewrite rank_S, Hs; lia).
    rewrite <-(rank_same s us (S x) e); [done|lia|].
    intros y Hy. destruct (shown s us y) eqn:Es; [|done].
    specialize (Hn y ltac:(lia) Es). injection Hn as ->. lia.
Qed.

Lemma leaving_none j : leaving None j.
Proof. by intros x. Qed.

(** Leaving the update at [j] from [n] on. *)
Lemma leaving_some n j u :
  us !! j = Some u → shown s us j = true → (n ≤ j)%nat →
  (∀ e w, (n ≤ e < j)%nat → us !! e = Some w → ¬ seen w) →
  leaving (Some j) n ∧ hides (Some j) n true (up_key u).
Proof.
  intros Eu Hs Hn Hgap. destruct (shown_seen_value j u Eu Hs) as [Hu _]. split.
  - intros x [= <-]. split; [done|]. intros e w Ew He. by apply (Hgap e).
  - intros e w Ew He Hw. simpl. rewrite Z.leb_le.
    assert (j ≤ e)%nat as Hje.
    { destruct (decide (j ≤ e)%nat); [done|]. by destruct (Hgap e w ltac:(lia) Ew). }
    pose proof (keys_le us j e u w Hsorted Eu Ew Hje) as Hle. split.
    + intros Hge. exists j, u. split_and!; [done|done| |by right].
      apply compare_nlt_ge in Hge. unfold same_key. lia.
    + intros (e' & w' & E' & Hw' & Hk & Hor). eapply key_between; [|exact Hle|exact Hk].
      destruct Hor as [Hlt|[= <-]]; eapply (keys_le us); [done|exact E'|exact Eu|lia|done|exact E'|exact Eu|lia].
Qed.

Lemma found_prev_at n vt d :
  (n ≤ length us)%nat → found_prev n vt d →
  (vt = kTypeDeletion → rank s us n = O) ∧
  (vt ≠ kTypeDeletion → ∃ f u n', rank s us n = S (rank s us f) ∧ us !! f = Some u ∧
    shown s us f = true ∧ behind n' f u ∧
    ∃ v, core (prev_pos n') (up_key u) (up_value u) false v d).
Proof.
  intros Hn (j & sk & sv & v & Hj & Hd & Hinv & Hdel & Hval).
  assert (∀ e, shown s us e = true → cand j e) as Hcand.
  { intros e Hs. destruct (lookup_lt_is_Some_2 us e (shown_bound _ _ _ Hs)) as [u Eu].
    exists u. destruct (proj1 (shown_spec s us e u Eu) Hs) as (H1 & H2 & H3).
    split_and!; try done. intros e' w He' Ew Hw. apply (H3 e' w); [lia|done|done]. }
  destruct Hinv as [[-> H]|(-> & f & u & Ef & Hf & (u' & Eu' & Hu & Ht & Hno) & Hgap & -> & -> & Hone)].
  - split; [|done]. intros _. rewrite (rank_same s us 0 n); [done|lia|].
    intros e He. rewrite (Hdel eq_refl) in H. destruct (shown s us e) eqn:Es; [|done].
    destruct (H e He). rewrite <-(Hdel eq_refl). by apply Hcand.
  - split; [done|]. intros _. specialize (Hval eq_refl). rewrite Ef in Eu'. injection Eu' as <-.
    assert (shown s us f = true) as Hs.
    { apply (shown_spec s us f u Ef). split_and!; [done|done|]. intros e w He Ew Hw Hk.
      destruct (decide (e < j)%nat) as [Hlt|]; [specialize (Hval e w Hlt Ew); lia|].
      by apply (Hno e w); [lia|..]. }
    exists f, u, j. split_and!; [|done|done|split_and!; [lia|done|done]|by exists v].
    replace (S (rank s us f)) with (rank s us (S f)) by (rewrite rank_S, Hs; lia).
    apply rank_same; [lia|]. intros e He. destruct (shown s us e) eqn:Es; [|done].
    assert (e = f) by (apply Hone; [lia|by apply Hcand]). lia.
Qed.

Lemma wp_FindPrev n sk sv v d :
  (n ≤ length us)%nat → core (prev_pos n) sk sv false v d →
  wp (FindPrevUserEntry s bound) (λ _ d', dbi_at (prev_pos (rank s us n)) d') d.
Proof.
  intros Hn Hd. unfold FindPrevUserEntry. apply wp_bind, wp_get.
  assert (di_forward_ d = false) as -> by apply Hd. apply wp_bind, wp_ret.
  apply wp_bind. eapply wp_valid; [exact Hd|]. apply wp_bind.
  assert (wp (if bool_decide (is_Some (prev_pos n)) then loop bound (find_prev_step s) kTypeDeletion
              else mret kTypeDeletion) (λ vt d', found_prev n vt d') d) as Hloop.
  { destruct n as [|n]; simpl in *.
    - apply wp_ret. exists O, sk, sv, v. split_and!; try done; try lia. left. split; [done|lia].
    - eapply (wp_loop_upto (seeking (S n)) (S n)).
      + exists n, sk, sv, v. split_and!; [done|lia|done|]. left. split; [done|lia].
      + lia.
      + intros k vt d'. apply wp_find_prev_step. }
  eapply wp_mono; [exact Hloop|]. intros vt d1 H1.
  destruct (found_prev_at n vt d1 Hn H1) as [Hdel Hval].
  destruct H1 as (j & sk1 & sv1 & v1 & _ & Hd1 & _).
  destruct (Z.eqb_spec vt kTypeDeletion) as [E|E].
  - rewrite (Hdel E). apply wp_bind. eapply wp_mono; [by eapply wp_set_valid|]. intros [] d2 H2.
    apply wp_bind. eapply wp_mono; [by eapply wp_SaveKey|]. intros [] d3 H3.
    apply wp_bind. eapply wp_mono; [by eapply wp_save_value|]. intros [] d4 H4.
    eapply wp_mono; [by eapply wp_set_forward|]. intros [] d5 H5. by eexists _, _, _, _.
  - destruct (Hval E) as (f & u & n' & -> & Ef & Hs & Hb & v2 & Hd2).
    eapply wp_mono; [by eapply wp_set_valid|]. intros [] d3 H3.
    exists f, u. split_and!; try done. right. by exists n'.
Qed.

(** ** Operations *)

Lemma dbi_core p d : dbi_at p d → ∃ q sk sv f v, core q sk sv f v d.
Proof.
  destruct p as [i|]; [|intros (q & sk & sv & f & H); by eauto 6].
  intros (j & u & _ & _ & _ & [(sk & sv & H)|(n & _ & H)]); eauto 6.
Qed.

Lemma dbi_valid p d : dbi_at p d → di_valid_ d = bool_decide (is_Some p).
Proof.
  destruct p as [i|]; [|intros (q & sk & sv & f & H); apply H].
  intros (j & u & _ & _ & _ & [(sk & sv & H)|(n & _ & H)]); apply H.
Qed.

Lemma dbi_entry i d k v :
  dbi_at (Some i) d → view !! i = Some (k, v) → di_key d = Done (k, d) ∧ di_value d = Done (v, d).
Proof.
  intros Hd Ev. pose proof (dbi_valid _ _ Hd) as Hv. rewrite bool_decide_eq_true_2 in Hv by done.
  destruct Hd as (j & u & Eu & Hs & <- & Hd). rewrite (view_lookup _ _ _ _ Eu Hs) in Ev.
  injection Ev as <- <-. unfold di_key, di_value. rewrite !bind_get, !bind_assert by done.
  destruct Hd as [(sk & sv & Hd)|(n & _ & Hd)].
  - assert (di_forward_ d = true) as -> by apply Hd. split; [by eapply run_user_key|].
    by apply (run_entry _ _ _ _ _ _ _ Hd Eu).
  - assert (di_forward_ d = false) as -> by apply Hd. destruct Hd as (_ & _ & -> & -> & _). done.
Qed.

(** The end of [Seek] and of [SeekToFirst], when nothing before the place is seen that
    has a key which is at or after it. *)
Lemma wp_find_from_here n sk sv v d :
  (n ≤ length us)%nat → core (place n) sk sv true v d → hides None n false sk →
  wp (find_from_here s bound) (λ _ d', dbi_at (at_pos view (rank s us n)) d') d.
Proof.
  intros Hn Hd Hh. unfold find_from_here. apply wp_bind. eapply wp_valid; [exact Hd|].
  destruct (decide (n < length us)%nat) as [Hlt|].
  - rewrite place_lt in * by done. rewrite bool_decide_eq_true_2 by done.
    eapply wp_mono; [eapply wp_FindNext; [exact Hd|exact Hh|apply leaving_none]|].
    intros [] d1 H1. by apply (found_next_at None n _ _ Hn H1).
  - rewrite place_ge in * by lia. rewrite bool_decide_eq_false_2 by (by intros [? ?]).
    eapply wp_mono; [by eapply wp_set_valid|]. intros [] d1 H1.
    replace n with (length us) by lia. rewrite rank_length. unfold at_pos. rewrite Nat.ltb_irrefl.
    by eexists _, _, _, _.
Qed.

Lemma wp_SeekToFirst p d :
  dbi_at p d → wp (di_SeekToFirst s bound) (λ _ d', dbi_at (at_pos view 0) d') d.
Proof.
  intros (q & sk & sv & f & v & Hd)%dbi_core. unfold di_SeekToFirst.
  apply wp_bind. eapply wp_mono; [by eapply wp_set_forward|]. intros [] d1 H1.
  apply wp_bind. eapply wp_mono; [by eapply wp_save_value|]. intros [] d2 H2.
  apply wp_bind. eapply wp_mono.
  { eapply wp_on_internal; [exact H2|]. eapply (io_first _ _ _ _ HI), H2. }
  intros [] d3 H3. apply (wp_find_from_here 0 sk [] v); [lia|exact H3|].
  intros e w Ew He Hw. simpl. split; [done|]. intros (e' & w' & _ & _ & _ & [?|?]); [lia|done].
Qed.

Lemma wp_SeekToLast p d :
  dbi_at p d → wp (di_SeekToLast s bound) (λ _ d', dbi_at (at_pos view (length view - 1)) d') d.
Proof.
  intros (q & sk & sv & f & v & Hd)%dbi_core. unfold di_SeekToLast.
  apply wp_bind. eapply wp_mono; [by eapply wp_set_forward|]. intros [] d1 H1.
  apply wp_bind. eapply wp_mono; [by eapply wp_save_value|]. intros [] d2 H2.
  apply wp_bind. eapply wp_mono.
  { eapply wp_on_internal; [exact H2|]. eapply (io_last _ _ _ _ HI), H2. }
  intros [] d3 H3. eapply wp_mono.
  { eapply (wp_FindPrev (length us)); [done|]. rewrite length_fmap in H3.
    assert (at_pos (ientry <$> us) (length us - 1) = prev_pos (length us)) as E; [|rewrite E in H3; exact H3].
    destruct (length us) as [|n] eqn:El; simpl; [by rewrite place_ge by lia|].
    rewrite Nat.sub_0_r. apply place_lt. lia. }
  intros [] d4. rewrite rank_length. unfold at_pos.
  destruct (length view) as [|n]; simpl; [done|]. rewrite Nat.sub_0_r.
  by rewrite (proj2 (Nat.ltb_lt _ _)) by lia.
Qed.

(** The place of a target among the user keys. *)
Lemma rank_lower_bound target n :
  (n ≤ length us)%nat →
  (∀ e w, us !! e = Some w → (e < n)%nat → seen w → compare_ (up_key w) target < 0) →
  (∀ e w, us !! e = Some w → (n ≤ e)%nat → 0 ≤ compare_ (up_key w) target) →
  lower_bound view target = rank s us n.
Proof.
  intros Hn Hlow Hhigh. apply lower_bound_unique.
  - rewrite <-rank_length. by apply rank_mono.
  - intros i kv E Hi. apply view_lookup_inv in E as (j & u & Eu & Hs & <- & ->). simpl.
    apply (Hlow j u Eu); [|by apply (shown_seen_value j u Eu)].
    destruct (decide (j < n)%nat); [done|]. pose proof (rank_mono s us n j ltac:(lia)). lia.
  - intros kv E. apply view_lookup_inv in E as (j & u & Eu & Hs & Hr & ->). simpl.
    apply (Hhigh j u Eu). destruct (decide (n ≤ j)%nat); [done|].
    pose proof (rank_lt s us j n ltac:(lia) Hs). lia.
Qed.

Lemma wp_Seek p target d :
  dbi_at p d → Tuser target →
  wp (di_Seek s bound target) (λ _ d', dbi_at (at_pos view (lower_bound view target)) d') d.
Proof.
  intros (q & sk & sv & f & v & Hd)%dbi_core Ht. unfold di_Seek.
  apply wp_bind. eapply wp_mono; [by eapply wp_set_forward|]. intros [] d1 H1.
  apply wp_bind. eapply wp_mono; [by eapply wp_save_value|]. intros [] d2 H2.
  apply wp_bind. eapply wp_mono; [by eapply wp_SaveKey|]. intros [] d3 H3.
  destruct (pack_tag s kValueTypeForSeek Hseq) as [Ep _]; [split; vm_compute; discriminate|].
  apply wp_bind. eapply wp_lift_option; [unfold AppendInternalKey; cbn [sequence type_]; by rewrite Ep|].
  apply wp_bind. eapply wp_mono; [by eapply wp_SaveKey|]. intros [] d4 H4.
  unfold PutFixed64 in *. cbn [user_key app] in *. change kValueTypeForSeek with 1 in *.
  destruct (seek_place s us target Hsorted Hok Hseq) as (Hn & Hlow & Hhigh). cbv zeta in *.
  apply wp_bind. eapply wp_mono.
  { eapply wp_on_internal; [exact H4|]. eapply (io_seek _ _ _ _ HI), HT, Ht. apply H4. }
  intros [] d5 H5. rewrite (rank_lower_bound target _ Hn Hlow Hhigh).
  eapply wp_find_from_here; [exact Hn|exact H5|].
  intros e w Ew He Hw. simpl. split; [done|]. intros (e' & w' & E' & Hw' & Hk & [Hlt|?]); [|done].
  specialize (Hlow e' w' E' Hlt Hw'). specialize (Hhigh e w Ew He).
  assert (compare_ (up_key w') target < 0 → 0 ≤ compare_ (up_key w') target) as Hc; [intros _|lia].
  apply compare_nlt_ge. apply compare_trans with (up_key w); [by apply compare_nlt_ge|].
  apply compare_eq_sym in Hk. lia.
Qed.

Lemma wp_Next i d :
  dbi_at (Some i) d → wp (di_Next s bound) (λ _ d', dbi_at (at_pos view (S i)) d') d.
Proof.
  intros Hd. pose proof (dbi_valid _ _ Hd) as Hv. rewrite bool_decide_eq_true_2 in Hv by done.
  destruct Hd as (j & u & Eu & Hs & <- & Hd).
  pose proof (lookup_lt_Some _ _ _ Eu) as Hj.
  assert (∀ n sv d', (n ≤ j)%nat → (∀ e w, (n ≤ e < j)%nat → us !! e = Some w → ¬ seen w) →
    core (Some n) (up_key u) sv true true d' →
    wp (FindNextUserEntry s bound true) (λ _ d', dbi_at (at_pos view (S (rank s us j))) d') d') as Hgo.
  { intros n sv d' Hnj Hgap H. destruct (leaving_some n j u Eu Hs Hnj Hgap) as [Hl Hh].
    eapply wp_mono; [eapply wp_FindNext; [exact H|exact Hh|exact Hl]|]. intros [] d1 H1.
    destruct (found_next_at (Some j) n sv d1) as [_ Hat]; [lia|exact H1|]. by apply Hat. }
  unfold di_Next. apply wp_bind, wp_get. rewrite Hv. apply wp_bind, wp_ret.
  destruct Hd as [(sk & sv & Hd)|(n & Hb & Hd)].
  - assert (di_forward_ d = true) as -> by apply Hd. cbn [negb].
    apply wp_bind. rewrite <-bind_assoc_wp. apply wp_bind.
    eapply wp_done; [by eapply run_user_key|].
    apply wp_bind. eapply wp_mono; [by eapply wp_SaveKey|]. intros [] d1 H1. apply wp_ret.
    eapply Hgo; [done|lia|exact H1].
  - assert (di_forward_ d = false) as -> by apply Hd. cbn [negb].
    apply wp_bind, wp_bind. eapply wp_mono; [by eapply wp_set_forward|]. intros [] d1 H1.
    apply wp_bind. eapply wp_valid; [exact H1|]. pose proof Hb as (Hnj & _ & Hgap).
    apply wp_bind. eapply (wp_mono _ (λ _ d', core (Some n) (up_key u) (up_value u) true true d')).
    { destruct n as [|n]; simpl in *.
      - eapply wp_mono; [eapply wp_on_internal; [exact H1|]; eapply (io_first _ _ _ _ HI), H1|].
        intros [] d2. by rewrite place_lt by lia.
      - eapply wp_mono; [by eapply wp_next|]. intros [] d2. by rewrite place_lt by lia. }
    intros [] d2 H2. apply wp_bind. eapply wp_valid; [exact H2|].
    rewrite bool_decide_eq_true_2 by done. apply wp_ret. by eapply Hgo.
Qed.

(** The scan of [Prev]: the first of the updates with keys that are not smaller. *)
Definition scanning j u (k : nat) (_ : unit) (d : st) : Prop :=
  ∃ sv v, (k ≤ j)%nat ∧ core (Some k) (up_key u) sv true v d ∧
    ∀ e w, (k ≤ e ≤ j)%nat → us !! e = Some w → 0 ≤ compare_ (up_key w) (up_key u).

Definition scanned j u (found : bool) (d : st) : Prop :=
  ∃ n sk sv, (n ≤ j)%nat ∧
    (∀ e w, (n ≤ e ≤ j)%nat → us !! e = Some w → 0 ≤ compare_ (up_key w) (up_key u)) ∧
    if found then ∃ v, core (prev_pos n) sk sv true v d else n = O ∧ core None sk sv true false d.

Lemma wp_prev_scan_step j u k d :
  scanning j u k tt d →
  wp (prev_scan_step tt) (λ (r : unit + bool) d', match r with
    | inl x => ∃ k', (k' < k)%nat ∧ scanning j u k' x d'
    | inr found => scanned j u found d'
    end) d.
Proof.
  intros (sv & v & Hk & Hd & Hge). pose proof (core_bound _ _ _ _ _ _ Hd) as Hlt.
  unfold prev_scan_step. apply wp_bind. eapply wp_mono; [by eapply wp_prev|]. intros [] d1 H1.
  apply wp_bind. eapply wp_valid; [exact H1|]. destruct k as [|k].
  - rewrite bool_decide_eq_false_2 by (by intros [? ?]). cbn [negb].
    apply wp_bind. eapply wp_mono; [by eapply wp_set_valid|]. intros [] d2 H2.
    apply wp_bind. eapply wp_mono; [by eapply wp_SaveKey|]. intros [] d3 H3.
    apply wp_bind. eapply wp_mono; [by eapply wp_save_value|]. intros [] d4 H4. apply wp_ret.
    exists O, [], []. split_and!; [lia|done|done|done].
  - rewrite bool_decide_eq_true_2 by done. cbn [negb prev_pos] in *.
    destruct (lookup_lt_is_Some_2 us k) as [w Ew]; [lia|].
    rewrite <-bind_assoc_wp. apply wp_bind. eapply wp_done; [by eapply run_user_key|].
    apply wp_bind, wp_get, wp_ret. assert (di_saved_key_ d1 = up_key u) as -> by apply H1.
    destruct (Z.ltb_spec (compare_ (up_key w) (up_key u)) 0).
    + exists (S k), (up_key u), sv. split_and!; [done|done|by exists v].
    + exists k. split; [lia|]. exists sv, v. split_and!; [lia|done|].
      intros e w' He Ew'. destruct (decide (e = k)) as [->|]; [|apply (Hge e); [lia|done]].
      rewrite Ew in Ew'. by injection Ew' as <-.
Qed.

Lemma wp_Prev i d :
  dbi_at (Some i) d → wp (di_Prev s bound) (λ _ d', dbi_at (prev_pos i) d') d.
Proof.
  intros Hd. pose proof (dbi_valid _ _ Hd) as Hv. rewrite bool_decide_eq_true_2 in Hv by done.
  destruct Hd as (j & u & Eu & Hs & <- & Hd).
  pose proof (lookup_lt_Some _ _ _ Eu) as Hj. destruct (shown_seen_value j u Eu Hs) as [Hu _].
  unfold di_Prev. apply wp_bind, wp_get. rewrite Hv. apply wp_bind, wp_ret.
  destruct Hd as [(sk & sv & Hd)|(n & (Hnj & _ & Hgap) & Hd)].
  - assert (∀ n, (n ≤ j)%nat →
      (∀ e w, (n ≤ e ≤ j)%nat → us !! e = Some w → 0 ≤ compare_ (up_key w) (up_key u)) →
      rank s us j = rank s us n) as Hrank.
    { intros n Hn Hge. apply rank_same; [done|]. intros e He.
      destruct (shown s us e) eqn:Es; [|done]. destruct (lookup_lt_is_Some_2 us e) as [w Ew]; [lia|].
      destruct (shown_seen_value e w Ew Es) as [Hw _]. exfalso.
      apply (shown_spec s us j u Eu) in Hs as (_ & _ & Hno). apply (Hno e w); [lia|done|done|].
      pose proof (keys_le us e j w u Hsorted Ew Eu ltac:(lia)). specialize (Hge e w ltac:(lia) Ew). lia. }
    assert (di_forward_ d = true) as -> by apply Hd.
    apply wp_bind, wp_bind. eapply wp_valid; [exact Hd|]. apply wp_bind, wp_ret.
    rewrite <-bind_assoc_wp. apply wp_bind. eapply wp_done; [by eapply run_user_key|].
    apply wp_bind. eapply wp_mono; [by eapply wp_SaveKey|]. intros [] d1 H1.
    apply wp_bind. eapply wp_mono.
    { eapply (wp_loop_upto (scanning j u) j _ _ _ _ (scanned j u)); [| |].
      - exists sv, true. split_and!; [done|exact H1|]. intros e w He Ew.
        assert (e = j) as -> by lia. rewrite Eu in Ew. injection Ew as <-. by rewrite compare_refl.
      - lia.
      - intros k [] d'. apply wp_prev_scan_step. }
    intros [] d2 (n & sk' & sv' & Hn & Hge & H2); rewrite (Hrank n Hn Hge).
    + destruct H2 as [v H2]. apply wp_bind. eapply wp_mono; [by eapply wp_set_forward|].
      intros [] d3 H3. apply wp_ret. eapply wp_FindPrev; [lia|exact H3].
    + destruct H2 as [-> H2]. apply wp_ret, wp_ret. by eexists _, _, _, _.
  - assert (rank s us j = rank s us n) as ->.
    { apply rank_same; [done|]. intros e He. destruct (shown s us e) eqn:Es; [|done].
      destruct (lookup_lt_is_Some_2 us e) as [w Ew]; [lia|].
      destruct (shown_seen_value e w Ew Es) as [Hw _]. by destruct (Hgap e w He Ew). }
    assert (di_forward_ d = false) as -> by apply Hd. apply wp_bind, wp_ret.
    eapply wp_FindPrev; [lia|exact Hd].
Qed.

Lemma dbi_iter_over : iter_over (dbiter_ops s bound) Tuser view dbi_at.
Proof.
  assert (∀ (c : M st unit) Q d, wp c (λ _ d', Q d') d → ∃ d', c d = Done (tt, d') ∧ Q d') as Hrun.
  { intros c Q d H. destruct (wp_run _ _ _ H) as ([] & d' & E & HQ). by exists d'. }
  split; cbn [dbiter_ops i_Valid i_SeekToFirst i_SeekToLast i_Seek i_Next i_Prev i_key i_value].
  - intros p d. apply dbi_valid.
  - intros i d (j & u & Eu & Hs & <- & _). by eapply lookup_lt_Some, view_lookup.
  - intros i d k v. apply dbi_entry.
  - intros p d Hd. by apply Hrun, (wp_SeekToFirst p).
  - intros p d Hd. by apply Hrun, (wp_SeekToLast p).
  - intros p d target Hd Ht. by apply Hrun, (wp_Seek p).
  - intros i d Hd. by apply Hrun, wp_Next.
  - intros i d Hd. by apply Hrun, wp_Prev.
Qed.

Lemma new_dbi_at it seed p : R p it → dbi_at None (new_DBIter it seed).
Proof.
  intros Hp. exists p, [], [], true. unfold new_DBIter, Random_Uniform.
  change (2 * kReadBytesPeriod) with 2097152.
  pose proof (Random_ok seed) as Hs. destruct (Random_Next_mod _ Hs) as [_ Hs'].
  split_and!; try done. split; [done|]. fields. by apply Z.mod_pos_bound.
Qed.
End runs.

(** ** Theorems *)

(** C6: the iterator of the database gives a consistent view: over any iterator that is
    a cursor in the updates in the order of internal keys, it is a cursor in the list of
    the user keys that have a value at the sequence number, in order and each once, with
    the newest value that is not newer than it; in both directions and across changes of
    direction. It never reports an error, its assertions hold and its loops end. *)
Theorem dbiter_refines `{UC : Comparator (list Z)} `{!ComparatorLaws (list Z)} {C} `{I : IterOps C}
    s bound seed us T Tuser R (it : C) :
  @iter_over internal_comparator C I T (ientry <$> us) R → R None it →
  (∀ target, Tuser target → T (target ++ EncodeFixed64 (s * 256 + 1))) →
  updates_sorted us → Forall update_ok us → 0 ≤ s ≤ kMaxSequenceNumber →
  Z.of_nat (length us) < bound →
  keys_sorted (user_view s us) ∧
  ∃ R', R' None (new_DBIter it seed) ∧ iter_over (dbiter_ops s bound) Tuser (user_view s us) R' ∧
    ∀ p d, R' p d → di_status_ d = None.
Proof.
  intros HI H0 HT Hs Hok Hsq Hb. split; [by apply user_view_sorted|].
  exists (dbi_at s us R). split_and!; [by eapply new_dbi_at|by eapply dbi_iter_over|].
  intros p d (q & sk & sv & f & v & Hd)%dbi_core. apply Hd.
Qed.

(** ** Witness

    A key with a deletion at 9 and a value at 3, and a key with a value at 5, in a block;
    at 8 the deletion is not seen. *)
Definition versions : list update :=
  [MkUpdate 9 kTypeDeletion [97] []; MkUpdate 3 kTypeValue [97] [1]; MkUpdate 5 kTypeValue [98] [2]].

Lemma dbiter_refines_witness :
  ∃ (d d1 d2 d3 : DBIter block_object),
    @i_SeekToLast _ (dbiter_ops 8 4) d = Done (tt, d1) ∧
    @i_value _ (dbiter_ops 8 4) d1 = Done ([2], d1) ∧
    @i_Prev _ (dbiter_ops 8 4) d1 = Done (tt, d2) ∧
    @i_value _ (dbiter_ops 8 4) d2 = Done ([1], d2) ∧
    @i_Next _ (dbiter_ops 8 4) d2 = Done (tt, d3) ∧
    @i_key _ (dbiter_ops 8 4) d3 = Done ([98], d3).
Proof.
  destruct (block_cursor (UC := internal_comparator) (ientry <$> versions)) as (o & R & H0 & HR).
  - repeat constructor; vm_compute; done.
  - unfold keys_sorted. repeat constructor; vm_compute; reflexivity.
  - vm_compute. reflexivity.
  - destruct (dbiter_refines 8 4 301 versions any_target any_target R o HR H0) as [_ (R' & Hd & HR' & _)].
    + done.
    + unfold updates_sorted. repeat constructor; vm_compute; reflexivity.
    + repeat constructor; vm_compute; try done; by split.
    + vm_compute. split; discriminate.
    + reflexivity.
    + set (d := new_DBIter o 301) in *. assert (user_view 8 versions = [([97], [1]); ([98], [2])]) as Ev by reflexivity.
      rewrite Ev in HR'.
      destruct (io_last _ _ _ _ HR' _ d Hd) as (d1 & E1 & H1). simpl in H1.
      destruct (io_prev _ _ _ _ HR' _ d1 H1) as (d2 & E2 & H2). simpl in H2.
      destruct (io_next _ _ _ _ HR' _ d2 H2) as (d3 & E3 & H3). simpl in H3.
      exists d, d1, d2, d3. split_and!; try done.
      * by apply (io_entry _ _ _ _ HR' 1 d1 [98] [2]).
      * by apply (io_entry _ _ _ _ HR' 0 d2 [97] [1]).
      * by apply (io_entry _ _ _ _ HR' 1 d3 [98] [2]).
Defined.
