(* ===== verification/LdbMemIterSpec.v ===== *)
(** * leveldb: the iterator of a memtable, and reads at a snapshot

    The iterator of a memtable keeps the contract of iterators for its updates in the
    order of internal keys, so that the iterator of the database can be over it; what
    that shows is what [Get] answers. *)
From stdpp Require Import sorting.
From S2P Require Import Prelude LdbCoding LdbRandom SkipList SkipListSpec LdbFormat LdbIterator LdbDBIter LdbMemTable LdbMemTableSpec LdbBatchSpec LdbDBIterSpec.

(** The targets that can be encoded. *)
Lemma lookup_target_ok target seq :
  key_ok target → value_ok (target ++ EncodeFixed64 (seq * 256 + 1)).
Proof. apply ikey_value_ok. Qed.

Section mem_iter.
Context `{UC : Comparator (list Z)} `{!ComparatorLaws (list Z)}.

(** The updates of a memtable in the order of its table. *)
Lemma holds_sorted m us' :
  holds m us' → ∃ us, us ≡ₚ us' ∧ updates_sorted us ∧ Forall update_ok us ∧
    ∃ L, inv (table_ m) L ∧ snd <$> L 0%nat = encode <$> us.
Proof.
  intros ((ks & Hc & Hp) & Hok & _). destruct (Permutation_map_inv encode us' Hp) as (us & -> & Hus).
  assert (Forall update_ok us) as Hok' by (by rewrite <-Hus).
  exists us. split_and!; [done| |done|].
  - pose proof (contents_sorted _ _ Hc) as Hs. apply sorted_of_lookup. intros i j a b Ea Eb Hij.
    rewrite Forall_forall in Hok'.
    rewrite <-compare_encode by (by eapply Hok', list_elem_of_lookup_2).
    apply (sorted_lookup (λ a b, compare_ a b < 0) (encode <$> us) i j); [exact Hs| | |done].
    + by rewrite list_lookup_fmap, Ea.
    + by rewrite list_lookup_fmap, Eb.
  - destruct Hc as (L & Hi & E). by exists L.
Qed.

Variables (m : MemTable) (us : list update) (L : nat → list (addr * mem_entry)).
Hypothesis Hinv : inv (table_ m) L.
Hypothesis HL : snd <$> L 0%nat = encode <$> us.
Hypothesis Hok : Forall update_ok us.
Hypothesis Hsorted : updates_sorted us.

(** An iterator at an index, at none past the end. *)
Definition iter_at (n : nat) : Iterator := fst <$> L 0%nat !! n.
Definition mit_at (p : option nat) (s : MemTableIterator) : Prop :=
  mit_mem s = m ∧ mit_iter_ s = match p with Some i => iter_at i | None => None end ∧
  match p with Some i => (i < length us)%nat | None => True end.

Lemma length_L : length (L 0%nat) = length us.
Proof. rewrite <-(length_fmap snd), HL. by rewrite length_fmap. Qed.

Lemma mit_at_pos n : mit_at (at_pos (ientry <$> us) n) (MkMemIter (iter_at n) m).
Proof.
  unfold at_pos. rewrite length_fmap. destruct (Nat.ltb_spec n (length us)) as [Hn|Hn]; [done|].
  split_and!; [done| |done]. unfold iter_at. rewrite lookup_ge_None_2; [done|]. by rewrite length_L.
Qed.

Lemma first_addr_drop n : first_addr (drop n (L 0%nat)) None = iter_at n.
Proof.
  unfold iter_at. destruct (L 0%nat !! n) as [[y k]|] eqn:E.
  - by rewrite (drop_S _ _ _ E).
  - rewrite drop_ge; [done|]. by apply lookup_ge_None.
Qed.

Lemma it_last_take i : (S i ≤ length us)%nat → it_last (take (S i) (L 0%nat)) = iter_at i.
Proof.
  intros Hi. unfold it_last, iter_at. destruct (lookup_lt_is_Some_2 (L 0%nat) i) as [e E]; [rewrite length_L; lia|].
  by rewrite (take_S_r _ _ _ E), last_snoc, E.
Qed.

Lemma list_entry_at i u :
  us !! i = Some u → ∃ y, L 0%nat !! i = Some (y, encode u) ∧
    L 0%nat = take i (L 0%nat) ++ (y, encode u) :: drop (S i) (L 0%nat).
Proof.
  intros Eu. pose proof (lookup_lt_Some _ _ _ Eu) as Hi.
  destruct (lookup_lt_is_Some_2 (L 0%nat) i) as [[y e] E]; [by rewrite length_L|].
  assert (Some e = Some (encode u)) as [= ->].
  { transitivity ((snd <$> L 0%nat) !! i); [by rewrite list_lookup_fmap, E|].
    by rewrite HL, list_lookup_fmap, Eu. }
  exists y. split; [done|]. by rewrite take_drop_middle.
Qed.

Lemma run_mit_move (c : Iterator → M (SkipList mem_entry) Iterator) s it :
  mit_mem s = m → c (mit_iter_ s) (table_ m) = Done (it, table_ m) →
  mit_move (λ i, with_table (c i)) s = Done (tt, MkMemIter it m).
Proof.
  intros E H. unfold mit_move. rewrite E, (run_with_table _ m _ _ H). by destruct m.
Qed.

(** The key and the value of an entry. *)
Lemma run_mit_entry i u s :
  mit_at (Some i) s → us !! i = Some u →
  mit_read mit_key s = Done ((ientry u).1, s) ∧ mit_read mit_value s = Done (up_value u, s).
Proof.
  intros (Em & Ei & _) Eu. destruct (list_entry_at i u Eu) as (y & E & El).
  destruct (run_at_entry _ _ _ _ _ _ Hinv El) as (Hk & _). unfold iter_at in Ei. rewrite E in Ei.
  assert (update_ok u) as Hu by (rewrite Forall_forall in Hok; by eapply Hok, list_elem_of_lookup_2).
  pose proof Hu as (_ & _ & Hkok & Hvok).
  assert (mem_GetLengthPrefixedSlice (me_data (encode u)) = Some ((ientry u).1, prefixed (up_value u))) as Eg.
  { apply mem_get_prefixed; [by apply ikey_value_ok|by apply value_prefixed_bytes]. }
  assert (with_table (it_key (mit_iter_ s)) m = Done (encode u, m)) as Ek.
  { rewrite Ei. cbn [fmap option_fmap option_map fst]. rewrite (run_with_table _ m _ _ (run_it_key _ _ _ Hk)).
    by destruct m. }
  unfold mit_read, mit_key, mit_value. rewrite Em. split.
  - rewrite (bind_done _ _ _ _ _ Ek), (bind_lift _ _ _ _ Eg). destruct s; simpl in *; by subst.
  - rewrite (bind_done _ _ _ _ _ Ek), (bind_lift _ _ _ _ Eg).
    rewrite <-(app_nil_r (prefixed (up_value u))).
    rewrite (bind_lift _ _ _ _ (mem_get_prefixed _ [] Hvok ltac:(constructor))).
    destruct s; simpl in *; by subst.
Qed.

(** The entries before a target are those that [Seek] skips. *)
Lemma lower_is_bound target :
  value_ok target →
  upper (EncodeKey target) (L 0%nat) =
    drop (@lower_bound internal_comparator (ientry <$> us) target) (L 0%nat).
Proof.
  intros [Hb Hl]. set (t := EncodeKey target).
  pose proof (sorted_split t (L 0%nat) (inv_sorted _ _ Hinv)) as Es.
  assert (@lower_bound internal_comparator (ientry <$> us) target = length (lower t (L 0%nat))) as ->.
  { assert (∀ i u, us !! i = Some u → ∃ y, L 0%nat !! i = Some (y, encode u) ∧
      compare_ (encode u) t = ikey_compare (ientry u).1 target) as Hcmp.
    { intros i u Eu. destruct (list_entry_at i u Eu) as (y & E & _). exists y. split; [done|].
      assert (update_ok u) as Hu by (rewrite Forall_forall in Hok; by eapply Hok, list_elem_of_lookup_2).
      pose proof Hu as (_ & _ & Hkok & Hvok).
      unfold compare_ at 1, mem_compare, encode. rewrite entry_ikey_prefixed by (done || by apply value_prefixed_bytes).
      assert (entry_ikey t = target) as ->; [|done].
      unfold t, EncodeKey, entry_ikey, PutVarint32. cbn [me_data].
      rewrite wrapu_small by lia. change ([] ++ EncodeVarint32 ?n) with (EncodeVarint32 n).
      fold (prefixed target). rewrite <-(app_nil_r (prefixed target)).
      by rewrite mem_get_prefixed by (done || constructor). }
    pose proof (lower_before t (L 0%nat)) as Hlo. pose proof (upper_not_before t (L 0%nat)) as Hup.
    apply (lower_bound_unique (UC := internal_comparator)).
    - pose proof (f_equal length Es) as El. rewrite length_app in El. rewrite length_fmap, <-length_L. lia.
    - intros i kv E Hi. rewrite list_lookup_fmap in E. destruct (us !! i) as [u|] eqn:Eu; [|done].
      injection E as <-. destruct (Hcmp i u Eu) as (y & E & Ec).
      change (ikey_compare (ientry u).1 target < 0). rewrite <-Ec.
      rewrite Es, lookup_app_l in E by done. apply list_elem_of_lookup_2 in E.
      rewrite Forall_forall in Hlo. by apply (Hlo _ E).
    - intros kv E. rewrite list_lookup_fmap in E.
      destruct (us !! length (lower t (L 0%nat))) as [u|] eqn:Eu; [|done].
      injection E as <-. destruct (Hcmp _ u Eu) as (y & E & Ec).
      change (0 ≤ ikey_compare (ientry u).1 target). rewrite <-Ec.
      rewrite Es in E at 2. rewrite lookup_app_r, Nat.sub_diag in E by done.
      apply list_elem_of_lookup_2 in E. rewrite Forall_forall in Hup.
      specialize (Hup _ E). unfold before in Hup. simpl in Hup. lia. }
  rewrite Es at 3. by rewrite drop_app_length.
Qed.

(** A target is looked up at the first entry that is not before it. *)
Lemma run_mit_Seek target :
  value_ok target →
  Seek (EncodeKey target) (table_ m) =
    Done (iter_at (@lower_bound internal_comparator (ientry <$> us) target), table_ m).
Proof.
  intros Ht. rewrite (run_Seek_upper _ L (EncodeKey target) Hinv).
  by rewrite lower_is_bound, first_addr_drop by done.
Qed.

Lemma run_mit_step i s :
  mit_at (Some i) s →
  it_Next (mit_iter_ s) (table_ m) = Done (iter_at (S i), table_ m) ∧
  it_Prev (mit_iter_ s) (table_ m) =
    Done (match i with O => None | S i' => iter_at i' end, table_ m).
Proof.
  intros (_ & Ei & Hi). destruct (lookup_lt_is_Some_2 us i Hi) as [u Eu].
  destruct (list_entry_at i u Eu) as (y & E & El).
  destruct (run_at_entry _ _ _ _ _ _ Hinv El) as (_ & Hn & Hp).
  rewrite Ei. unfold iter_at at 1 3. rewrite E. cbn [fmap option_fmap option_map fst].
  rewrite Hn, Hp, first_addr_drop. split; [done|]. destruct i as [|i]; [done|].
  by rewrite it_last_take by lia.
Qed.

Lemma memtable_iter_over :
  @iter_over internal_comparator _ memtable_iter_ops value_ok (ientry <$> us) mit_at.
Proof.
  split; cbn [memtable_iter_ops i_Valid i_SeekToFirst i_SeekToLast i_Seek i_Next i_Prev i_key i_value].
  - intros [i|] s (_ & -> & Hi); [|done]. unfold Valid, iter_at.
    destruct (lookup_lt_is_Some_2 (L 0%nat) i) as [e ->]; [by rewrite length_L|].
    by rewrite !bool_decide_eq_true_2.
  - intros i s (_ & _ & Hi). by rewrite length_fmap.
  - intros i s k v Hs E. rewrite list_lookup_fmap in E.
    destruct (us !! i) as [u|] eqn:Eu; [|done]. injection E as <- <-. by apply (run_mit_entry i).
  - intros p s (Em & _). eexists. split; [|apply mit_at_pos].
    apply run_mit_move; [done|]. rewrite (run_SeekToFirst _ L Hinv).
    change (L 0%nat) with (drop 0 (L 0%nat)). by rewrite first_addr_drop.
  - intros p s (Em & _). eexists. split; [|apply mit_at_pos].
    apply run_mit_move; [done|]. rewrite (run_SeekToLast _ L Hinv), length_fmap.
    destruct (decide (length us = 0%nat)) as [E0|].
    + pose proof length_L as Hl. rewrite E0 in Hl. apply nil_length_inv in Hl.
      unfold iter_at. by rewrite E0, Hl.
    + rewrite <-it_last_take by lia. rewrite take_ge; [done|]. rewrite length_L. lia.
  - intros p s target (Em & _) Ht. eexists. split; [|apply mit_at_pos].
    apply run_mit_move; [done|]. by apply run_mit_Seek.
  - intros i s Hs. pose proof Hs as (Em & _). eexists. split; [|apply mit_at_pos].
    apply run_mit_move; [done|]. by apply run_mit_step.
  - intros i s Hs. pose proof Hs as (Em & _ & Hi). exists (MkMemIter (match i with O => None | S i' => iter_at i' end) m).
    split; [apply run_mit_move; [done|]; by apply run_mit_step|].
    destruct i as [|i]; simpl; split_and!; try done. lia.
Qed.

Lemma new_mit_at : mit_at None (memtable_NewIterator m).
Proof. done. Qed.
End mem_iter.

(** ** Reads at a snapshot *)

Section snapshot.
Context `{UC : Comparator (list Z)} `{!ComparatorLaws (list Z)}.

Lemma version_sorted_seq us i j u w :
  updates_sorted us → us !! i = Some w → us !! j = Some u → (i < j)%nat →
  compare_ (up_key w) (up_key u) = 0 → 0 ≤ up_type w ≤ 1 → 0 ≤ up_type u ≤ 1 →
  up_seq u ≤ up_seq w ∧ up_tag u < up_tag w.
Proof.
  intros Hs Ew Eu Hij Hk Htw Htu. pose proof (sorted_lookup _ us i j w u Hs Ew Eu Hij) as Hlt.
  unfold version_compare in Hlt. rewrite Hk in Hlt. simpl in Hlt. unfold up_tag in *.
  destruct (Z.ltb_spec (up_seq u * 256 + up_type u) (up_seq w * 256 + up_type w)); [lia|].
  destruct (Z.ltb_spec (up_seq w * 256 + up_type w) (up_seq u * 256 + up_type u)); lia.
Qed.

(** What the view shows of a key is what a lookup of it gives. *)
Lemma view_is_get us us' key s v :
  us ≡ₚ us' → updates_sorted us → Forall update_ok us →
  StronglySorted (λ a b, up_seq a < up_seq b) us' →
  get_spec us' key s = GetValue v ↔ ∃ k, compare_ k key = 0 ∧ (k, v) ∈ user_view s us.
Proof.
  intros Hp Hs Hok Hseq. rewrite Forall_forall in Hok.
  assert (∀ j u, us !! j = Some u → update_ok u ∧ u ∈ us') as Hat.
  { intros j u E%list_elem_of_lookup_2. split; [by apply Hok|]. by rewrite <-Hp. }
  unfold get_spec, version_at. split.
  - destruct (last _) as [u|] eqn:El; [|done].
    destruct (Z.eqb_spec (up_type u) kTypeValue) as [Ht|]; [|done]. intros [= <-].
    apply last_Some in El as [l El].
    assert (u ∈ filter (λ u, compare_ (up_key u) key = 0 ∧ up_seq u ≤ s) us') as Hu
      by (rewrite El; apply elem_of_app; right; by left).
    apply list_elem_of_filter in Hu as [[Hk Hsu] Hu]. pose proof Hu as Hu'. rewrite <-Hp in Hu'.
    apply list_elem_of_lookup_1 in Hu' as [j Ej]. exists (up_key u). split; [done|].
    eapply list_elem_of_lookup_2, view_lookup; [exact Ej|].
    apply (shown_spec s us j u Ej). split_and!; [done|done|]. intros e w He Ew Hw Hkw.
    destruct (Hat _ _ Ew) as [(_ & Htw & _) Hin]. destruct (Hat _ _ Ej) as [(_ & Htu & _) _].
    destruct (version_sorted_seq us e j u w Hs Ew Ej He Hkw Htw Htu) as [Hle Hlt].
    assert (w ∈ filter (λ u, compare_ (up_key u) key = 0 ∧ up_seq u ≤ s) us') as Hwf.
    { apply list_elem_of_filter. split; [split; [|done]|done].
      by apply compare_eq_trans with (up_key u). }
    pose proof (filter_sorted (λ u, compare_ (up_key u) key = 0 ∧ up_seq u ≤ s) us' Hseq) as Hfs.
    rewrite El in Hwf, Hfs. apply StronglySorted_app in Hfs as (Hll & _ & _).
    apply elem_of_app in Hwf as [Hwl| ->%list_elem_of_singleton]; [|lia].
    specialize (Hll w u Hwl ltac:(by left)). lia.
  - intros (k & Hk & Hin). apply list_elem_of_lookup_1 in Hin as [i Hi].
    apply view_lookup_inv in Hi as (j & u & Ej & Hsh & _ & [= -> ->]).
    apply (shown_spec s us j u Ej) in Hsh as (Hsu & Ht & Hno).
    destruct (Hat _ _ Ej) as [(_ & Htu & _) Hin].
    rewrite (last_max (filter (λ u, compare_ (up_key u) key = 0 ∧ up_seq u ≤ s) us') u).
    + by rewrite Ht.
    + by apply filter_sorted.
    + by apply list_elem_of_filter.
    + intros w [[Hkw Hsw] Hw]%list_elem_of_filter. rewrite <-Hp in Hw.
      apply list_elem_of_lookup_1 in Hw as [e Ew].
      assert (compare_ (up_key w) (up_key u) = 0) as Hwu.
      { apply compare_eq_sym in Hk. by apply compare_eq_trans with key. }
      destruct (Nat.lt_trichotomy e j) as [Hlt|[->|Hlt]].
      * by destruct (Hno e w Hlt Ew Hsw).
      * rewrite Ej in Ew. injection Ew as <-. lia.
      * destruct (Hat _ _ Ew) as [(_ & Htw & _) _]. apply compare_eq_sym in Hwu.
        by apply (version_sorted_seq us j e w u Hs Ej Ew Hlt Hwu Htu Htw).
Qed.
End snapshot.

(** ** Theorems *)

Section theorems.
Context `{UC : Comparator (list Z)} `{!ComparatorLaws (list Z)}.

(** The iterator of a memtable is a cursor in its updates, in the order of internal
    keys, for all the targets that can be encoded; it changes nothing. *)
Theorem memtable_iterator_refines m us' :
  holds m us' →
  ∃ us R, us ≡ₚ us' ∧ updates_sorted us ∧ R None (memtable_NewIterator m) ∧
    @iter_over internal_comparator _ memtable_iter_ops value_ok (ientry <$> us) R ∧
    ∀ p it, R p it → mit_mem it = m.
Proof.
  intros Hm. destruct (holds_sorted m us' Hm) as (us & Hp & Hs & Hok & L & Hi & HL).
  exists us, (mit_at m us L). split_and!; [done|done|done|by apply memtable_iter_over|].
  by intros p it [E _].
Qed.

(** C19: reading at a snapshot is the same by [Get] and by iterating: over the iterator
    of a memtable the iterator of the database is a cursor in the keys that have a value
    at the sequence number, and a [Get] at that sequence number gives a value exactly
    when the cursor shows the key with it. *)
Theorem snapshot_reads m us' s bound seed :
  holds m us' → 0 ≤ s ≤ kMaxSequenceNumber → Z.of_nat (length us') < bound →
  ∃ view R, keys_sorted view ∧ R None (new_DBIter (memtable_NewIterator m) seed) ∧
    @iter_over UC _ (dbiter_ops (I := memtable_iter_ops) s bound) key_ok view R ∧
    ∀ key lk, key_ok key → new_LookupKey key s = Some lk →
      ∃ r, memtable_Get lk m = Done (r, m) ∧
        ∀ v, r = GetValue v ↔ ∃ k, compare_ k key = 0 ∧ (k, v) ∈ view.
Proof.
  intros Hm Hsq Hb. destruct (holds_sorted m us' Hm) as (us & Hp & Hs & Hok & L & Hi & HL).
  exists (user_view s us), (dbi_at s us (mit_at m us L)). split_and!.
  - by apply user_view_sorted.
  - by apply new_dbi_at with None.
  - eapply dbi_iter_over; [by apply memtable_iter_over| |done|done|done|by rewrite Hp].
    intros target Ht. by apply lookup_target_ok.
  - intros key lk Hk Elk. exists (get_spec us' key s). split; [by apply run_Get|].
    intros v. apply view_is_get; [done|done|done|]. by destruct Hm as (_ & _ & Hseq).
Qed.
End theorems.

Lemma snapshot_reads_witness :
  ∃ m d d1 view, add_all updates_example new_MemTable = Done (tt, m) ∧
    new_DBIter (memtable_NewIterator m) 301 = d ∧
    di_SeekToFirst (I := memtable_iter_ops) 8 4 d = Done (tt, d1) ∧
    (∃ k, compare_ k [97] = 0 ∧ (k, [1]) ∈ view) ∧ keys_sorted view.
Proof.
  destruct updates_example_ok as [Hok Hs].
  destruct (run_add_all updates_example new_MemTable [] new_holds Hok Hs) as (m & E & Hm).
  destruct (snapshot_reads m updates_example 8 4 301 Hm) as (view & R & Hv & H0 & HR & Hg);
    [vm_compute; split; discriminate|reflexivity|].
  destruct (io_first _ _ _ _ HR _ _ H0) as (d1 & E1 & _).
  exists m, (new_DBIter (memtable_NewIterator m) 301), d1, view. split_and!; [done|done|exact E1| |done].
  assert (key_ok [97]) as Hk by (repeat constructor; unfold is_byte; lia).
  destruct (lookup_entry_key [97] 8 Hk) as (lk & Elk & _); [vm_compute; split; discriminate|].
  destruct (Hg [97] lk Hk Elk) as (r & Er & Hr). apply Hr.
  pose proof (run_Get m updates_example [97] 8 lk Hm Hk) as Eg.
  rewrite Eg in Er; [|vm_compute; split; discriminate|done]. injection Er as <-. reflexivity.
Defined.
