(* ===== verification/LdbTableFormat.v ===== *)
(** * leveldb: the format of tables

    table/format.h and table/format.cc, with the files that tables are read from
    (include/leveldb/env.h, util/env_posix.cc) and the compression of
    port/port_posix.h. A table is a file of blocks, each with a trailer that has its
    type and its checksum; a handle is the place of a block; the footer has the handles
    of the last two blocks. *)
From S2P Require Import Prelude LdbCoding LdbCrc LdbLog.

(** ** Files that are read at any place *)

(** [file_Read offset n] is the message of an error, or the bytes that were read and
    whether they are in [scratch]. *)
Class RandomAccessFile (F : Type) := {
  file_Read : Z → Z → M F (string + list Z * bool);
}.

(** [PosixMmapReadableFile]: the bytes of the region. Reading out of the region is
    undefined; the sum wraps. *)
Record PosixMmapReadableFile := MkMmapFile { filename_ : string; mmapped_region_ : list Z }.
Definition mmap_Read (offset n : Z) : M PosixMmapReadableFile (string + list Z * bool) :=
  f ← get_state;
  let length_ := Z.of_nat (length (mmapped_region_ f)) in
  if length_ <? u64 (offset + n) then mret (inl (filename_ f))
  else
    assert_ (offset + n <=? length_);;
    mret (inr (take (Z.to_nat n) (drop (Z.to_nat offset) (mmapped_region_ f)), false)).
#[export] Instance mmap_file : RandomAccessFile PosixMmapReadableFile := {| file_Read := mmap_Read |}.

(** ** Compression

    [Snappy_Compress], [Snappy_GetUncompressedLength] and [Snappy_Uncompress]. *)
Class Snappy := {
  Snappy_Compress : list Z → option (list Z);
  Snappy_GetUncompressedLength : list Z → option Z;
  Snappy_Uncompress : list Z → option (list Z);
}.

(** The library is not in the build: [SNAPPY] is not defined. *)
#[export] Instance no_snappy : Snappy :=
  {| Snappy_Compress _ := None; Snappy_GetUncompressedLength _ := None; Snappy_Uncompress _ := None |}.

Definition kNoCompression : Z := 0x0.
Definition kSnappyCompression : Z := 0x1.

(** ** Handles *)

Record BlockHandle := MkHandle { offset_ : Z; size_ : Z }.
Definition new_BlockHandle : BlockHandle := MkHandle (2 ^ 64 - 1) (2 ^ 64 - 1).
Definition kMaxEncodedLength : Z := 10 + 10.

(** No value when an assertion fails. *)
Definition handle_EncodeTo (h : BlockHandle) (dst : list Z) : option (list Z) :=
  if negb (offset_ h =? 2 ^ 64 - 1) && negb (size_ h =? 2 ^ 64 - 1)
  then Some (PutVarint64 (PutVarint64 dst (offset_ h)) (size_ h)) else None.

(** The handle and the bytes after it, or a corruption. *)
Definition handle_DecodeFrom (input : list Z) : string + BlockHandle * list Z :=
  match GetVarint64 input with
  | Some (offset, input) =>
      match GetVarint64 input with
      | Some (size, input) => inr (MkHandle offset size, input)
      | None => inl "bad block handle"
      end
  | None => inl "bad block handle"
  end.

(** ** The footer *)

Record Footer := MkFooter { metaindex_handle_ : BlockHandle; index_handle_ : BlockHandle }.
Definition kEncodedLength : Z := 2 * kMaxEncodedLength + 8.
Definition kTableMagicNumber : Z := 0xdb4775248b80fb57.

(** [resize]: cut, or filled with zeros. *)
Definition str_resize (l : list Z) (n : Z) : list Z :=
  take (Z.to_nat n) l ++ replicate (Z.to_nat n - length l) 0.

Definition footer_EncodeTo (f : Footer) (dst : list Z) : option (list Z) :=
  let original_size := slen dst in
  dst ← handle_EncodeTo (metaindex_handle_ f) dst;
  dst ← handle_EncodeTo (index_handle_ f) dst;
  let dst := str_resize dst (2 * kMaxEncodedLength) in
  let dst := PutFixed32 dst (u32 (Z.land kTableMagicNumber 0xffffffff)) in
  let dst := PutFixed32 dst (u32 (Z.shiftr kTableMagicNumber 32)) in
  if slen dst =? original_size + kEncodedLength then Some dst else None.

(** No value when the magic number is not in the bytes of [input]. *)
Definition footer_DecodeFrom (input : list Z) : option (string + Footer * list Z) :=
  let magic_ptr := drop (Z.to_nat (kEncodedLength - 8)) input in
  magic_lo ← DecodeFixed32 magic_ptr;
  magic_hi ← DecodeFixed32 (drop 4 magic_ptr);
  let magic := Z.lor (Z.shiftl magic_hi 32) magic_lo in
  Some
    (if negb (magic =? kTableMagicNumber) then inl "not an sstable (bad magic number)"
     else
       match handle_DecodeFrom input with
       | inl msg => inl msg
       | inr (metaindex, rest) =>
           match handle_DecodeFrom rest with
           | inl msg => inl msg
           | inr (index, _) => inr (MkFooter metaindex index, drop 8 magic_ptr)
           end
       end).

(** ** Reading a block *)

Definition kBlockTrailerSize : Z := 5.

Record BlockContents := MkContents { bc_data : list Z; bc_cachable : bool; bc_heap_allocated : bool }.

(** What the type of a block says of its [n] bytes. *)
Definition uncompress `{Snappy} (contents : list Z) (n type : Z) (in_scratch : bool)
    : option (string + BlockContents) :=
  let data := take (Z.to_nat n) contents in
  if type =? kNoCompression then Some (inr (MkContents data in_scratch in_scratch))
  else if type =? kSnappyCompression then
    match Snappy_GetUncompressedLength data with
    | None => Some (inl "corrupted compressed block contents")
    | Some ulength =>
        match Snappy_Uncompress data with
        | None => Some (inl "corrupted compressed block contents")
        | Some ubuf =>
            if slen ubuf =? ulength then Some (inr (MkContents ubuf true true)) else None
        end
    end
  else Some (inl "bad block type").

(** The status is an error, or it is OK and [*result] is the contents. The size of a
    handle is any number of 64 bits: the sum wraps, and the type or the checksum can be
    out of the bytes that were read. *)
Definition ReadBlock {F} `{RandomAccessFile F} `{Snappy} (verify_checksums : bool)
    (handle : BlockHandle) : M F (string + BlockContents) :=
  let n := size_ handle in
  let n_trailer := u64 (n + kBlockTrailerSize) in
  r ← file_Read (offset_ handle) n_trailer;
  match r with
  | inl s => mret (inl s)
  | inr (contents, in_scratch) =>
      if negb (slen contents =? n_trailer) then mret (inl "truncated block read")
      else
        ok ← (if verify_checksums then
                stored ← lift_option (DecodeFixed32 (drop (Z.to_nat (n + 1)) contents));
                assert_ (n + 1 <=? slen contents);;
                mret (Value 0 (take (Z.to_nat (n + 1)) contents) =? Unmask stored)
              else mret true);
        if negb ok then mret (inl "block checksum mismatch")
        else
          type ← lift_option (contents !! Z.to_nat n);
          lift_option (uncompress contents n type in_scratch)
  end.
