(* ===== verification/LdbTableBuilder.v ===== *)
(** * leveldb: building tables (table/table_builder.cc)

    The keys are added in order. A data block that is full is written to the file; its
    entry in the index is made when the next key is known, so that the key of the entry
    can be short. The end of the file has the filter, the metaindex, the index and the
    footer. *)
From S2P Require Import Prelude LdbCoding LdbCrc LdbLog SkipList LdbFormat LdbFilter LdbBlock LdbTableFormat.

(** What else the comparator of the options does; no value when an assertion of it
    fails. *)
Class Separators := {
  opt_FindShortestSeparator : list Z → list Z → option (list Z);
  opt_FindShortSuccessor : list Z → option (list Z);
}.
Definition bytewise_separators : Separators :=
  {| opt_FindShortestSeparator start limit := Some (FindShortestSeparator start limit);
     opt_FindShortSuccessor key := Some (FindShortSuccessor key) |}.
Definition internal_separators `{UC : Comparator (list Z)} `{KeyShortener} : Separators :=
  {| opt_FindShortestSeparator := ikey_FindShortestSeparator;
     opt_FindShortSuccessor := ikey_FindShortSuccessor |}.

(** A filter policy that has a name. *)
Record NamedPolicy := MkPolicy { policy_name : list Z; policy : FilterPolicy }.

(** The part of [Options] that tables use. [o_comparator] is the address of the
    comparator. *)
Record Options := MkOptions {
  o_comparator : Z;
  o_paranoid_checks : bool;
  o_block_size : Z;
  o_block_restart_interval : Z;
  o_compression : Z;
  o_filter_policy : option NamedPolicy;
}.
Definition set_restart_interval (n : Z) (o : Options) : Options :=
  MkOptions (o_comparator o) (o_paranoid_checks o) (o_block_size o) n (o_compression o)
    (o_filter_policy o).

(** The bytes of ["filter."] *)
Definition filter_prefix : list Z := [102; 105; 108; 116; 101; 114; 46].

Section table_builder.
Context `{UC : Comparator (list Z)} `{Separators} {F : Type} `{WritableFile F} `{Snappy}.

(** [TableBuilder::Rep]. [tb_status] is whether the status is OK; [compressed_output]
    is empty between two blocks. *)
Record TableBuilder := MkBuilder {
  tb_options : Options;
  tb_index_block_options : Options;
  tb_file : F;
  tb_offset : Z;
  tb_status : bool;
  tb_data_block : BlockBuilder;
  tb_index_block : BlockBuilder;
  tb_last_key : list Z;
  tb_num_entries : Z;
  tb_closed : bool;
  tb_filter_block : option (FilterPolicy * FilterBlockBuilder);
  tb_pending_index_entry : bool;
  tb_pending_handle : BlockHandle;
}.

(** ** The members *)

Definition set_options (o io : Options) : M TableBuilder unit := λ r,
  Done (tt, MkBuilder o io (tb_file r) (tb_offset r) (tb_status r) (tb_data_block r)
    (tb_index_block r) (tb_last_key r) (tb_num_entries r) (tb_closed r) (tb_filter_block r)
    (tb_pending_index_entry r) (tb_pending_handle r)).
Definition set_out (f : F) (status : bool) : M TableBuilder unit := λ r,
  Done (tt, MkBuilder (tb_options r) (tb_index_block_options r) f (tb_offset r) status
    (tb_data_block r) (tb_index_block r) (tb_last_key r) (tb_num_entries r) (tb_closed r)
    (tb_filter_block r) (tb_pending_index_entry r) (tb_pending_handle r)).
Definition set_offset (n : Z) : M TableBuilder unit := λ r,
  Done (tt, MkBuilder (tb_options r) (tb_index_block_options r) (tb_file r) n (tb_status r)
    (tb_data_block r) (tb_index_block r) (tb_last_key r) (tb_num_entries r) (tb_closed r)
    (tb_filter_block r) (tb_pending_index_entry r) (tb_pending_handle r)).
Definition set_data_block (b : BlockBuilder) : M TableBuilder unit := λ r,
  Done (tt, MkBuilder (tb_options r) (tb_index_block_options r) (tb_file r) (tb_offset r)
    (tb_status r) b (tb_index_block r) (tb_last_key r) (tb_num_entries r) (tb_closed r)
    (tb_filter_block r) (tb_pending_index_entry r) (tb_pending_handle r)).
Definition set_index_block (b : BlockBuilder) : M TableBuilder unit := λ r,
  Done (tt, MkBuilder (tb_options r) (tb_index_block_options r) (tb_file r) (tb_offset r)
    (tb_status r) (tb_data_block r) b (tb_last_key r) (tb_num_entries r) (tb_closed r)
    (tb_filter_block r) (tb_pending_index_entry r) (tb_pending_handle r)).
Definition set_last_key (k : list Z) (n : Z) : M TableBuilder unit := λ r,
  Done (tt, MkBuilder (tb_options r) (tb_index_block_options r) (tb_file r) (tb_offset r)
    (tb_status r) (tb_data_block r) (tb_index_block r) k n (tb_closed r)
    (tb_filter_block r) (tb_pending_index_entry r) (tb_pending_handle r)).
Definition set_closed : M TableBuilder unit := λ r,
  Done (tt, MkBuilder (tb_options r) (tb_index_block_options r) (tb_file r) (tb_offset r)
    (tb_status r) (tb_data_block r) (tb_index_block r) (tb_last_key r) (tb_num_entries r) true
    (tb_filter_block r) (tb_pending_index_entry r) (tb_pending_handle r)).
Definition set_filter (f : option (FilterPolicy * FilterBlockBuilder)) : M TableBuilder unit := λ r,
  Done (tt, MkBuilder (tb_options r) (tb_index_block_options r) (tb_file r) (tb_offset r)
    (tb_status r) (tb_data_block r) (tb_index_block r) (tb_last_key r) (tb_num_entries r)
    (tb_closed r) f (tb_pending_index_entry r) (tb_pending_handle r)).
Definition set_pending (b : bool) (h : BlockHandle) : M TableBuilder unit := λ r,
  Done (tt, MkBuilder (tb_options r) (tb_index_block_options r) (tb_file r) (tb_offset r)
    (tb_status r) (tb_data_block r) (tb_index_block r) (tb_last_key r) (tb_num_entries r)
    (tb_closed r) (tb_filter_block r) b h).

(** A call of a builder of blocks, or of filters, that the state has. *)
Definition on_block {A} (get : TableBuilder → BlockBuilder) (set : BlockBuilder → M TableBuilder unit)
    (c : M BlockBuilder A) : M TableBuilder A :=
  r ← get_state;
  match c (get r) with
  | Done (a, b) => set b;; mret a
  | Undef => undef
  | NoFuel => no_fuel
  end.
Definition on_data_block {A} (c : M BlockBuilder A) : M TableBuilder A :=
  on_block tb_data_block set_data_block c.
Definition on_index_block {A} (c : M BlockBuilder A) : M TableBuilder A :=
  on_block tb_index_block set_index_block c.

(** [if (filter_block != NULL) filter_block->f()] *)
Definition on_filter {A} (c : FilterPolicy → M FilterBlockBuilder A) : M TableBuilder (option A) :=
  r ← get_state;
  match tb_filter_block r with
  | None => mret None
  | Some (p, b) =>
      match c p b with
      | Done (a, b) => set_filter (Some (p, b));; mret (Some a)
      | Undef => undef
      | NoFuel => no_fuel
      end
  end.

Definition tb_ok : M TableBuilder bool := r ← get_state; mret (tb_status r).

(** [r->status = r->file->Append(data)] *)
Definition file_Append (data : list Z) : M TableBuilder bool :=
  r ← get_state; let '(ok, f) := Append data (tb_file r) in set_out f ok;; mret ok.
Definition file_Flush : M TableBuilder bool :=
  r ← get_state; let '(ok, f) := Flush (tb_file r) in set_out f ok;; mret ok.

(** ** Operations *)

Definition new_TableBuilder (options : Options) (file : F) : outcome TableBuilder :=
  let index_options := set_restart_interval 1 options in
  match new_BlockBuilder (o_block_restart_interval options) with
  | Some block =>
      let filter := match o_filter_policy options with
                    | None => None
                    | Some p => Some (policy p, new_FilterBlockBuilder)
                    end in
      let r := MkBuilder options index_options file 0 true block block [] 0 false
                 filter false new_BlockHandle in
      '(_, r) ← on_filter (λ p, StartBlock (H := p) 0) r; Done r
  | None => Undef
  end.

(** None is OK. *)
Definition ChangeOptions (options : Options) : M TableBuilder (option string) :=
  r ← get_state;
  if negb (o_comparator options =? o_comparator (tb_options r))
  then mret (Some "changing comparator while building table")
  else set_options options (set_restart_interval 1 options);; mret None.

(** The handle that is written in [*handle]. *)
Definition WriteRawBlock (block_contents : list Z) (type : Z) : M TableBuilder BlockHandle :=
  r ← get_state;
  let handle := MkHandle (tb_offset r) (slen block_contents) in
  ok ← file_Append block_contents;
  (if (ok : bool) then
     let crc := Value 0 block_contents in
     let crc := Extend 0 crc [u8 type] in
     ok ← file_Append (u8 type :: EncodeFixed32 (Mask crc));
     if (ok : bool) then
       r ← get_state;
       set_offset (u64 (tb_offset r + (slen block_contents + kBlockTrailerSize)))
     else mret tt
   else mret tt);;
  mret handle.

(** The contents that are stored and their type. Any other compression leaves the
    contents empty. *)
Definition compress_block (compression : Z) (raw : list Z) : list Z * Z :=
  if compression =? kNoCompression then (raw, compression)
  else if compression =? kSnappyCompression then
    match Snappy_Compress raw with
    | Some compressed =>
        if slen compressed <? slen raw - slen raw / 8 then (compressed, compression)
        else (raw, kNoCompression)
    | None => (raw, kNoCompression)
    end
  else ([], compression).

(** The builder of the block and the handle, as they are at the end. *)
Definition WriteBlock (block : BlockBuilder) : M TableBuilder (BlockBuilder * BlockHandle) :=
  ok ← tb_ok;
  assert_ ok;;
  r ← get_state;
  match bb_Finish block with
  | Done (raw, block) =>
      let '(block_contents, type) := compress_block (o_compression (tb_options r)) raw in
      handle ← WriteRawBlock block_contents type;
      mret (bb_Reset block, handle)
  | Undef => undef
  | NoFuel => no_fuel
  end.

Definition bb_empty (b : BlockBuilder) : bool := bool_decide (bb_buffer_ b = []).

Definition tb_Flush : M TableBuilder unit :=
  r ← get_state;
  assert_ (negb (tb_closed r));;
  if negb (tb_status r) then mret tt
  else if bb_empty (tb_data_block r) then mret tt
  else
    assert_ (negb (tb_pending_index_entry r));;
    '(block, handle) ← WriteBlock (tb_data_block r);
    set_data_block block;;
    set_pending false handle;;
    ok ← tb_ok;
    (if (ok : bool) then set_pending true handle;; file_Flush;; mret tt else mret tt);;
    r ← get_state;
    on_filter (λ p, StartBlock (H := p) (tb_offset r));;
    mret tt.

(** The entry of the index for the block that was written, with the key [last_key]. *)
Definition add_index_entry (last_key : list Z) : M TableBuilder unit :=
  r ← get_state;
  set_last_key last_key (tb_num_entries r);;
  handle_encoding ← lift_option (handle_EncodeTo (tb_pending_handle r) []);
  on_index_block
    (bb_Add (o_block_restart_interval (tb_index_block_options r)) last_key handle_encoding);;
  set_pending false (tb_pending_handle r).

Definition tb_Add (key value : list Z) : M TableBuilder unit :=
  r ← get_state;
  assert_ (negb (tb_closed r));;
  if negb (tb_status r) then mret tt
  else
    (if 0 <? tb_num_entries r then assert_ (0 <? compare_ key (tb_last_key r)) else mret tt);;
    (if tb_pending_index_entry r then
       assert_ (bb_empty (tb_data_block r));;
       last_key ← lift_option (opt_FindShortestSeparator (tb_last_key r) key);
       add_index_entry last_key
     else mret tt);;
    on_filter (λ _, AddKey key);;
    set_last_key key (tb_num_entries r + 1);;
    on_data_block (bb_Add (o_block_restart_interval (tb_options r)) key value);;
    r ← get_state;
    let estimated_block_size := CurrentSizeEstimate (tb_data_block r) in
    if o_block_size (tb_options r) <=? estimated_block_size then tb_Flush else mret tt.

(** ** Finishing *)

(** The steps of [Finish], each of them when the status is OK. *)
Definition if_ok {A} (c : M TableBuilder A) : M TableBuilder (option A) :=
  ok ← tb_ok; if (ok : bool) then a ← c; mret (Some a) else mret None.

Definition write_filter_block : M TableBuilder BlockHandle :=
  contents ← on_filter (λ p, filter_Finish (H := p));
  match contents with
  | Some contents => WriteRawBlock contents kNoCompression
  | None => mret new_BlockHandle
  end.

(** The name of the policy is that of the options, which must have one when there is a
    builder of filters. *)
Definition write_metaindex (filter_handle : BlockHandle) : M TableBuilder BlockHandle :=
  r ← get_state;
  meta_index_block ← lift_option (new_BlockBuilder (o_block_restart_interval (tb_options r)));
  meta_index_block ←
    match tb_filter_block r with
    | None => mret meta_index_block
    | Some _ =>
        p ← lift_option (o_filter_policy (tb_options r));
        handle_encoding ← lift_option (handle_EncodeTo filter_handle []);
        match bb_Add (o_block_restart_interval (tb_options r)) (filter_prefix ++ policy_name p) handle_encoding meta_index_block with
        | Done (_, b) => mret b
        | Undef => undef
        | NoFuel => no_fuel
        end
    end;
  '(_, handle) ← WriteBlock meta_index_block;
  mret handle.

Definition write_index : M TableBuilder BlockHandle :=
  r ← get_state;
  (if tb_pending_index_entry r then
     last_key ← lift_option (opt_FindShortSuccessor (tb_last_key r));
     add_index_entry last_key
   else mret tt);;
  r ← get_state;
  '(block, handle) ← WriteBlock (tb_index_block r);
  set_index_block block;;
  mret handle.

Definition write_footer (metaindex index : BlockHandle) : M TableBuilder unit :=
  footer_encoding ← lift_option (footer_EncodeTo (MkFooter metaindex index) []);
  ok ← file_Append footer_encoding;
  if (ok : bool) then
    r ← get_state; set_offset (u64 (tb_offset r + slen footer_encoding))
  else mret tt.

Definition tb_Finish : M TableBuilder bool :=
  tb_Flush;;
  r ← get_state;
  assert_ (negb (tb_closed r));;
  set_closed;;
  filter_handle ← if_ok write_filter_block;
  metaindex ← if_ok (write_metaindex (default new_BlockHandle filter_handle));
  index ← if_ok write_index;
  if_ok (write_footer (default new_BlockHandle metaindex) (default new_BlockHandle index));;
  tb_ok.

Definition Abandon : M TableBuilder unit :=
  r ← get_state; assert_ (negb (tb_closed r));; set_closed.
Definition NumEntries (r : TableBuilder) : Z := u64 (tb_num_entries r).
Definition FileSize (r : TableBuilder) : Z := tb_offset r.
End table_builder.
Arguments TableBuilder : clear implicits.
