(* ===== verification/LdbTable.v ===== *)
(** * leveldb: reading tables (table/table.cc, table/iterator.cc)

    A table that is open has its index block and its filter in memory; a data block is
    read when it is needed, from the file or from the block cache. *)
From S2P Require Import Prelude LdbCoding LdbLog SkipList LdbFormat LdbFilter LdbIterator LdbBlock LdbMerger LdbTwoLevel LdbTableFormat LdbTableBuilder.

(** ** The iterators of blocks *)

(** [EmptyIterator], with its status, or a [Block::Iter]. *)
Inductive table_iter : Type :=
  | EmptyIter (status : option string)
  | BlockIt (o : block_object).

Section table_iter.
Context `{UC : Comparator (list Z)}.

(** A function of [Block::Iter]; what it is on an [EmptyIterator]. *)
Definition on_block_it {A} (empty : M table_iter A) (c : M block_object A) : M table_iter A := λ it,
  match it with
  | EmptyIter _ => empty it
  | BlockIt o =>
      match c o with
      | Done (a, o) => Done (a, BlockIt o)
      | Undef => Undef
      | NoFuel => NoFuel
      end
  end.
#[export] Instance table_iter_ops : IterOps table_iter :=
  {| i_Valid it := match it with EmptyIter _ => false | BlockIt o => i_Valid o end;
     i_SeekToFirst := on_block_it (mret tt) i_SeekToFirst;
     i_SeekToLast := on_block_it (mret tt) i_SeekToLast;
     i_Seek target := on_block_it (mret tt) (i_Seek target);
     i_Next := on_block_it undef i_Next;
     i_Prev := on_block_it undef i_Prev;
     i_key := on_block_it undef i_key;
     i_value := on_block_it undef i_value |}.
#[export] Instance table_iter_status : IterStatus table_iter := λ it,
  match it with EmptyIter s => s | BlockIt o => bi_status_ (bo_iter o) end.

(** [Block::NewIterator] *)
Definition block_NewIterator (b : Block) : option table_iter :=
  it ← NewIterator b;
  Some
    match it with
    | ErrorIterator msg => EmptyIter (Some msg)
    | EmptyIterator => EmptyIter None
    | NewIter data restarts num it => BlockIt (MkBlockObject data restarts num it)
    end.
End table_iter.

(** ** The cache of blocks

    [Lookup] gives the block of the handle; handles are not released in the model. *)
Class BlockCache (K : Type) := {
  cache_NewId : M K Z;
  cache_Lookup : list Z → M K (option Block);
  cache_Insert : list Z → Block → Z → M K unit;
}.

Section table.
Context `{UC : Comparator (list Z)} {F : Type} `{RandomAccessFile F} `{Snappy} {K : Type} `{BlockCache K}.
(** A bound on the number of data blocks. *)
Variable bound : Z.

(** What a table reads with: its file, and the block cache when it is not NULL. *)
Record TableEnv := MkTableEnv { te_file : F; te_cache : option K }.

(** [Table::Rep], but for the file; [ropt_*] are of [ReadOptions]. *)
Record Table := MkTable {
  t_options : Options;
  t_cache_id : Z;
  t_filter : option (FilterPolicy * FilterBlockReader);
  t_metaindex_handle : BlockHandle;
  t_index_block : Block;
}.
Record ReadOptions := MkReadOptions { ropt_verify_checksums : bool; ropt_fill_cache : bool }.

Definition on_file {A} (c : M F A) : M TableEnv A := λ e,
  match c (te_file e) with
  | Done (a, f) => Done (a, MkTableEnv f (te_cache e))
  | Undef => Undef
  | NoFuel => NoFuel
  end.
Definition on_cache {A} (c : M K A) : M TableEnv (option A) := λ e,
  match te_cache e with
  | None => Done (None, e)
  | Some k =>
      match c k with
      | Done (a, k) => Done (Some a, MkTableEnv (te_file e) (Some k))
      | Undef => Undef
      | NoFuel => NoFuel
      end
  end.

(** ** Opening *)

(** The filter, when its handle can be read. *)
Definition ReadFilter (options : Options) (p : NamedPolicy) (filter_handle_value : list Z)
    : M TableEnv (option (FilterPolicy * FilterBlockReader)) :=
  match handle_DecodeFrom filter_handle_value with
  | inl _ => mret None
  | inr (filter_handle, _) =>
      block ← on_file (ReadBlock (o_paranoid_checks options) filter_handle);
      match block with
      | inl _ => mret None
      | inr block =>
          r ← lift_option (new_FilterBlockReader (bc_data block));
          mret (Some (policy p, r))
      end
  end.

(** The metaindex is in the order of bytes. Errors are dropped. *)
Definition ReadMeta (options : Options) (footer : Footer)
    : M TableEnv (option (FilterPolicy * FilterBlockReader)) :=
  match o_filter_policy options with
  | None => mret None
  | Some p =>
      contents ← on_file (ReadBlock (o_paranoid_checks options) (metaindex_handle_ footer));
      match contents with
      | inl _ => mret None
      | inr contents =>
          meta ← lift_option (new_Block (bc_data contents));
          it ← lift_option (block_NewIterator meta);
          let key := filter_prefix ++ policy_name p in
          let found :=
            (i_Seek (IterOps := table_iter_ops (UC := bytewise_compare)) key;;
             it ← get_state;
             if i_Valid (IterOps := table_iter_ops (UC := bytewise_compare)) it then
               k ← i_key (IterOps := table_iter_ops (UC := bytewise_compare));
               if slice_eq k key then
                 v ← i_value (IterOps := table_iter_ops (UC := bytewise_compare)); mret (Some v)
               else mret None
             else mret None) in
          match found it with
          | Done (Some v, _) => ReadFilter options p v
          | Done (None, _) => mret None
          | Undef => undef
          | NoFuel => no_fuel
          end
      end
  end.

(** An error, or the table. [footer_space] is not initialised: a footer that was not
    read in full is undefined. *)
Definition Open (options : Options) (size : Z) : M TableEnv (string + Table) :=
  if size <? kEncodedLength then mret (inl "file is too short to be an sstable")
  else
    r ← on_file (file_Read (size - kEncodedLength) kEncodedLength);
    match r with
    | inl s => mret (inl s)
    | inr (footer_input, _) =>
        footer ← lift_option (footer_DecodeFrom footer_input);
        match footer with
        | inl s => mret (inl s)
        | inr (footer, _) =>
            contents ← on_file (ReadBlock (o_paranoid_checks options) (index_handle_ footer));
            match contents with
            | inl s => mret (inl s)
            | inr contents =>
                index_block ← lift_option (new_Block (bc_data contents));
                id ← on_cache cache_NewId;
                filter ← ReadMeta options footer;
                mret (inr (MkTable options (default 0 id) filter (metaindex_handle_ footer) index_block))
            end
        end
    end.

(** ** Reading *)

Definition read_block (ro : ReadOptions) (handle : BlockHandle) : M TableEnv (string + Block * bool) :=
  contents ← on_file (ReadBlock (ropt_verify_checksums ro) handle);
  match contents with
  | inl s => mret (inl s)
  | inr contents =>
      block ← lift_option (new_Block (bc_data contents));
      mret (inr (block, bc_cachable contents))
  end.

(** The block of a handle, from the cache when it is there. *)
Definition find_block (t : Table) (ro : ReadOptions) (handle : BlockHandle)
    : M TableEnv (string + Block) :=
  let key := EncodeFixed64 (t_cache_id t) ++ EncodeFixed64 (offset_ handle) in
  found ← on_cache (cache_Lookup key);
  match found with
  | Some (Some block) => mret (inr block)
  | Some None =>
      r ← read_block ro handle;
      match r with
      | inl s => mret (inl s)
      | inr (block, cachable) =>
          (if cachable && ropt_fill_cache ro
           then on_cache (cache_Insert key block (blk_size_ block));; mret tt else mret tt);;
          mret (inr block)
      end
  | None =>
      r ← read_block ro handle;
      match r with
      | inl s => mret (inl s)
      | inr (block, _) => mret (inr block)
      end
  end.

Definition BlockReader (t : Table) (ro : ReadOptions) (index_value : list Z) : M TableEnv table_iter :=
  block ← (match handle_DecodeFrom index_value with
           | inl s => mret (inl s)
           | inr (handle, _) => find_block t ro handle
           end);
  match block with
  | inl s => mret (EmptyIter (Some s))
  | inr block => lift_option (block_NewIterator block)
  end.

Definition table_NewIterator (t : Table) (ro : ReadOptions) (e : TableEnv)
    : outcome (TwoLevelIterator table_iter table_iter TableEnv) :=
  match block_NewIterator (t_index_block t) with
  | Some index_iter => new_TwoLevelIterator index_iter e
  | None => Undef
  end.
Definition table_iterator_ops (t : Table) (ro : ReadOptions)
    : IterOps (TwoLevelIterator table_iter table_iter TableEnv) :=
  two_level_ops (BlockReader t ro) bound.

(** The iterator of the index, after a [Seek]. *)
Definition index_seek (t : Table) (k : list Z) : M TableEnv table_iter :=
  it ← lift_option (block_NewIterator (t_index_block t));
  match i_Seek k it with
  | Done (_, it) => mret it
  | Undef => undef
  | NoFuel => no_fuel
  end.

(** A call of an iterator that is a local variable. *)
Definition on_iter {A} (it : table_iter) (c : M table_iter A) : M TableEnv (A * table_iter) :=
  match c it with
  | Done (a, it) => mret (a, it)
  | Undef => undef
  | NoFuel => no_fuel
  end.

(** Whether the filter says that the key is not in the block of the handle. *)
Definition filter_skips (t : Table) (handle_value k : list Z) : M TableEnv bool :=
  match t_filter t, handle_DecodeFrom handle_value with
  | Some (p, filter), inr (handle, _) =>
      may ← lift_option (reader_KeyMayMatch (H := p) filter (offset_ handle) k);
      mret (negb may)
  | _, _ => mret false
  end.

(** The status of the block, and the entry that is found in it. *)
Definition block_get (t : Table) (ro : ReadOptions) (handle_value k : list Z)
    : M TableEnv (option string * option (list Z * list Z)) :=
  block_iter ← BlockReader t ro handle_value;
  '(_, block_iter) ← on_iter block_iter (i_Seek k);
  if i_Valid block_iter then
    '(key, block_iter) ← on_iter block_iter i_key;
    '(value, block_iter) ← on_iter block_iter i_value;
    mret (i_status block_iter, Some (key, value))
  else mret (i_status block_iter, None).

(** The status, and the entry that [saver] is called with, if it is called. *)
Definition InternalGet (t : Table) (ro : ReadOptions) (k : list Z)
    : M TableEnv (option string * option (list Z * list Z)) :=
  iiter ← index_seek t k;
  if i_Valid iiter then
    '(handle_value, iiter) ← on_iter iiter i_value;
    skip ← filter_skips t handle_value k;
    if (skip : bool) then mret (i_status iiter, None)
    else
      '(handle_value, iiter) ← on_iter iiter i_value;
      '(s, saved) ← block_get t ro handle_value k;
      mret (match s with None => i_status iiter | Some _ => s end, saved)
  else mret (i_status iiter, None).

Definition ApproximateOffsetOf (t : Table) (key : list Z) : M TableEnv Z :=
  index_iter ← index_seek t key;
  if i_Valid index_iter then
    '(handle_value, _) ← on_iter index_iter i_value;
    mret (match handle_DecodeFrom handle_value with
          | inr (handle, _) => offset_ handle
          | inl _ => offset_ (t_metaindex_handle t)
          end)
  else mret (offset_ (t_metaindex_handle t)).
End table.
Arguments TableEnv : clear implicits.
