(* ===== verification/LdbTableFormatSpec.v ===== *)
(** * leveldb: handles, footers and blocks are read back

    What is at a handle of a file, as a relation that survives when the file grows, and
    that [ReadBlock] inverts on any file that reads its contents. *)
From S2P Require Import Prelude Leb128 LdbCoding LdbCrc LdbLog LdbLogSpec LdbTableFormat.

(** ** Files and compression that do what they are asked *)

Class ReliableRandomAccess (F : Type) `{RandomAccessFile F} := {
  file_contents : F → list Z;
  file_Read_reliable off n f :
    0 ≤ off → 0 ≤ n → off + n ≤ slen (file_contents f) → slen (file_contents f) < 2 ^ 64 →
    ∃ b f', file_Read off n f = Done (inr (take (Z.to_nat n) (drop (Z.to_nat off) (file_contents f)), b), f') ∧
      file_contents f' = file_contents f;
}.
#[export] Instance mmap_reliable : ReliableRandomAccess PosixMmapReadableFile.
Proof.
  refine {| file_contents := mmapped_region_ |}. intros off n f Hoff Hn Hle Hlt.
  exists false, f. split; [|done]. cbn [file_Read mmap_file]. unfold mmap_Read. rewrite bind_get.
  cbv zeta. fold (slen (mmapped_region_ f)). rewrite wrapu_small by lia.
  rewrite (proj2 (Z.ltb_ge _ _)) by lia. by rewrite bind_assert by (by apply Z.leb_le).
Defined.

Class SnappyLaws `{Snappy} :=
  snappy_law raw compressed : Forall is_byte raw → Snappy_Compress raw = Some compressed →
    Forall is_byte compressed ∧ Snappy_GetUncompressedLength compressed = Some (slen raw) ∧
    Snappy_Uncompress compressed = Some raw.
#[export] Instance no_snappy_laws : SnappyLaws.
Proof. by intros raw compressed _ E. Defined.

Lemma zeros_bytes n : Forall is_byte (replicate n 0).
Proof. apply Forall_replicate. unfold is_byte. lia. Qed.

(** Lists of bytes that are in several parts. *)
Ltac bytes := repeat first [done | apply EncodeFixed32_bytes | apply zeros_bytes | apply Forall_app; split].

(** ** Handles *)

Definition handle_bytes (h : BlockHandle) : list Z :=
  EncodeVarint64 (offset_ h) ++ EncodeVarint64 (size_ h).
Definition handle_ok (h : BlockHandle) : Prop :=
  0 ≤ offset_ h < 2 ^ 64 - 1 ∧ 0 ≤ size_ h < 2 ^ 64 - 1.

Lemma run_handle_EncodeTo h dst : handle_ok h → handle_EncodeTo h dst = Some (dst ++ handle_bytes h).
Proof.
  intros [Ho Hs]. unfold handle_EncodeTo.
  rewrite !(proj2 (Z.eqb_neq _ _)) by lia. simpl. unfold PutVarint64, handle_bytes. by rewrite app_assoc.
Qed.

Lemma run_handle_DecodeFrom h rest :
  handle_ok h → Forall is_byte rest → handle_DecodeFrom (handle_bytes h ++ rest) = inr (h, rest).
Proof.
  intros [Ho Hs] Hr. unfold handle_DecodeFrom, handle_bytes, GetVarint64. rewrite <-app_assoc.
  rewrite get64_put by (lia || (apply Forall_app; split; [apply varint64_bytes; lia|done])).
  rewrite get64_put by (lia || done). by destruct h.
Qed.
Lemma handle_decode_bytes h : handle_ok h → handle_DecodeFrom (handle_bytes h) = inr (h, []).
Proof. intros Hh. rewrite <-(app_nil_r (handle_bytes h)). by apply run_handle_DecodeFrom. Qed.

Lemma handle_bytes_ok h : handle_ok h → Forall is_byte (handle_bytes h) ∧ (length (handle_bytes h) ≤ 20)%nat.
Proof.
  intros [Ho Hs]. unfold handle_bytes. split.
  - apply Forall_app. split; apply varint64_bytes; lia.
  - rewrite length_app, !EncodeVarint64_uleb by lia.
    pose proof (uleb_length (offset_ h)). pose proof (uleb_length (size_ h)). lia.
Qed.

(** Different handles have different bytes. *)
Lemma handle_bytes_inj h1 h2 :
  handle_ok h1 → handle_ok h2 → handle_bytes h1 = handle_bytes h2 → h1 = h2.
Proof.
  intros H1 H2 E. pose proof (handle_decode_bytes h1 H1) as E1.
  rewrite E, (handle_decode_bytes h2 H2) in E1. congruence.
Qed.

(** ** The footer *)

Definition footer_bytes (f : Footer) : list Z :=
  str_resize (handle_bytes (metaindex_handle_ f) ++ handle_bytes (index_handle_ f)) 40 ++
  EncodeFixed32 (kTableMagicNumber `mod` 2 ^ 32) ++ EncodeFixed32 (kTableMagicNumber / 2 ^ 32).

Lemma length_str_resize l n : length (str_resize l n) = Z.to_nat n.
Proof. unfold str_resize. rewrite length_app, length_take, length_replicate. lia. Qed.
Lemma length_footer_bytes f : length (footer_bytes f) = 48%nat.
Proof.
  unfold footer_bytes. by rewrite !length_app, length_str_resize, !length_fixed32.
Qed.

Definition footer_ok (f : Footer) : Prop := handle_ok (metaindex_handle_ f) ∧ handle_ok (index_handle_ f).

Lemma run_footer_EncodeTo f : footer_ok f → footer_EncodeTo f [] = Some (footer_bytes f).
Proof.
  intros [Hm Hi]. unfold footer_EncodeTo. rewrite run_handle_EncodeTo by done. cbn [mbind option_bind].
  rewrite run_handle_EncodeTo by done. cbn [mbind option_bind]. unfold PutFixed32.
  rewrite <-app_assoc. change (2 * kMaxEncodedLength) with 40. rewrite app_nil_l.
  change (u32 (Z.land kTableMagicNumber 0xffffffff)) with (kTableMagicNumber `mod` 2 ^ 32).
  change (u32 (Z.shiftr kTableMagicNumber 32)) with (kTableMagicNumber / 2 ^ 32).
  fold (footer_bytes f). unfold slen at 1. by rewrite length_footer_bytes.
Qed.

Lemma run_footer_DecodeFrom f rest :
  footer_ok f → Forall is_byte rest →
  footer_DecodeFrom (footer_bytes f ++ rest) = Some (inr (f, rest)).
Proof.
  intros [Hm Hi] Hr. unfold footer_DecodeFrom. cbv zeta.
  assert (drop (Z.to_nat (kEncodedLength - 8)) (footer_bytes f ++ rest) =
    EncodeFixed32 (kTableMagicNumber `mod` 2 ^ 32) ++ EncodeFixed32 (kTableMagicNumber / 2 ^ 32) ++ rest) as ->.
  { unfold footer_bytes. rewrite <-!app_assoc, drop_app_length'; [done|]. by rewrite length_str_resize. }
  rewrite fixed32_get_put by (split; [by vm_compute|by vm_compute]). cbn [mbind option_bind].
  rewrite (drop_app_length' _ _ 4) by (by rewrite length_fixed32).
  rewrite fixed32_get_put by (split; [by vm_compute|by vm_compute]). cbn [mbind option_bind].
  change (Z.lor _ _ =? kTableMagicNumber) with true. cbn [negb].
  destruct (handle_bytes_ok _ Hm) as [Hmb Hml]. destruct (handle_bytes_ok _ Hi) as [Hib Hil].
  unfold footer_bytes, str_resize. rewrite take_ge by (rewrite length_app; simpl; lia). rewrite <-!app_assoc.
  rewrite run_handle_DecodeFrom by bytes.
  rewrite run_handle_DecodeFrom by bytes.
  rewrite app_assoc, drop_app_length' by (by rewrite length_app, !length_fixed32). by destruct f.
Qed.

(** ** Blocks in a file *)

Definition block_trailer (data : list Z) (type : Z) : list Z :=
  u8 type :: EncodeFixed32 (Mask (Value 0 (data ++ [u8 type]))).

Lemma length_block_trailer data type : length (block_trailer data type) = 5%nat.
Proof. done. Qed.

Lemma crc_of_block data type :
  Forall is_byte data → is_byte type → Extend 0 (Value 0 data) [type] = Value 0 (data ++ [type]).
Proof.
  intros Hd Ht. unfold Value.
  assert (Forall is_byte [type]) as Ht1 by (by apply Forall_singleton).
  rewrite (Extend_crc_ref _ _ data), (Extend_crc_ref _ _ (data ++ [type]))
    by (done || lia || by apply Forall_app).
  rewrite Extend_crc_ref by (done || by apply crc_ref_range).
  by rewrite <-crc_ref_app.
Qed.

(** The bytes [data] of a block of the type say [raw]. *)
Definition encodes `{Snappy} (type : Z) (data raw : list Z) : Prop :=
  Forall is_byte data ∧
  (type = kNoCompression ∧ data = raw ∨
   type = kSnappyCompression ∧ Snappy_GetUncompressedLength data = Some (slen raw) ∧
     Snappy_Uncompress data = Some raw).

(** The block [raw] is at the handle. *)
Definition stored_at `{Snappy} (out : list Z) (h : BlockHandle) (raw : list Z) : Prop :=
  ∃ pre data type post, out = pre ++ data ++ block_trailer data type ++ post ∧
    h = MkHandle (slen pre) (slen data) ∧ encodes type data raw.

Section stored.
Context `{Snappy}.
Implicit Types (out raw : list Z) (h : BlockHandle).

Lemma stored_app out h raw more : stored_at out h raw → stored_at (out ++ more) h raw.
Proof.
  intros (pre & data & type & post & -> & -> & He). exists pre, data, type, (post ++ more).
  by rewrite <-!app_assoc.
Qed.

Lemma stored_new out data type raw :
  encodes type data raw →
  stored_at (out ++ data ++ block_trailer data type) (MkHandle (slen out) (slen data)) raw.
Proof. intros He. exists out, data, type, []. by rewrite app_nil_r. Qed.

Lemma stored_bound out h raw :
  stored_at out h raw → 0 ≤ offset_ h ∧ 0 ≤ size_ h ∧ offset_ h + size_ h + 5 ≤ slen out.
Proof.
  intros (pre & data & type & post & -> & -> & He). cbn [offset_ size_]. rewrite !slen_app.
  unfold slen. rewrite (length_block_trailer data type). lia.
Qed.

Lemma stored_handle_ok out h raw : stored_at out h raw → slen out < 2 ^ 64 → handle_ok h.
Proof. intros Hs%stored_bound Hl. unfold handle_ok. lia. Qed.

(** Two blocks at the same place. *)
Lemma stored_before out1 h1 raw1 out2 h2 raw2 :
  stored_at out1 h1 raw1 → stored_at out2 h2 raw2 → offset_ h2 = slen out1 → offset_ h1 < offset_ h2.
Proof. intros H1%stored_bound H2%stored_bound E. lia. Qed.

Context {F : Type} `{ReliableRandomAccess F}.

Lemma run_uncompress type data raw rest b :
  encodes type data raw →
  ∃ c, uncompress (data ++ rest) (slen data) type b = Some (inr c) ∧ bc_data c = raw.
Proof.
  intros [_ [[-> ->]|(-> & El & Eu)]]; unfold uncompress, slen; rewrite Nat2Z.id, take_app_length.
  - by eexists.
  - simpl. fold (slen data). rewrite El, Eu, Z.eqb_refl. by eexists.
Qed.

Lemma run_ReadBlock out h raw verify f :
  stored_at out h raw → file_contents f = out → slen out < 2 ^ 64 →
  ∃ c f', ReadBlock verify h f = Done (inr c, f') ∧ bc_data c = raw ∧ file_contents f' = out.
Proof.
  intros Hs Ef Hl. pose proof (stored_bound _ _ _ Hs) as Hb.
  destruct Hs as (pre & data & type & post & -> & -> & He). cbn [offset_ size_] in Hb.
  unfold ReadBlock. cbv zeta. cbn [offset_ size_].
  rewrite (wrapu_small 64) by (unfold kBlockTrailerSize; lia).
  destruct (file_Read_reliable (slen pre) (slen data + kBlockTrailerSize) f) as (b & f' & E & Ef');
    [apply slen_nonneg|unfold kBlockTrailerSize; lia|rewrite Ef; unfold kBlockTrailerSize; lia|by rewrite Ef|].
  assert (take (Z.to_nat (slen data + kBlockTrailerSize)) (drop (Z.to_nat (slen pre))
    (pre ++ data ++ block_trailer data type ++ post)) = data ++ block_trailer data type) as Et.
  { unfold slen. rewrite Nat2Z.id, drop_app_length, app_assoc. apply take_app_length'.
    rewrite length_app, length_block_trailer. unfold kBlockTrailerSize. lia. }
  rewrite Ef, Et in E. bind_with E. cbv beta iota.
  assert (slen (data ++ block_trailer data type) = slen data + kBlockTrailerSize) as Elen.
  { rewrite slen_app. unfold slen. by rewrite length_block_trailer. }
  rewrite Elen, Z.eqb_refl. cbn [negb].
  assert (is_byte type ∧ u8 type = type) as [Hty Eu8].
  { destruct He as [_ [[-> _]|[-> _]]]; split; try done; unfold is_byte; vm_compute; split; congruence. }
  pose proof He as [Hdb _].
  assert ((if verify then
      stored ← lift_option (DecodeFixed32 (drop (Z.to_nat (slen data + 1)) (data ++ block_trailer data type)));
      assert_ (slen data + 1 <=? slen data + kBlockTrailerSize);;
      mret (Value 0 (take (Z.to_nat (slen data + 1)) (data ++ block_trailer data type)) =? Unmask stored)
    else mret true) f' = Done (true, f')) as Ec.
  { destruct verify; [|done].
    assert (data ++ block_trailer data type =
      (data ++ [type]) ++ EncodeFixed32 (Mask (Value 0 (data ++ [type])))) as ->
      by (unfold block_trailer; by rewrite Eu8, <-app_assoc).
    replace (Z.to_nat (slen data + 1)) with (length (data ++ [type])) by (rewrite length_app; unfold slen; simpl; lia).
    rewrite drop_app_length, take_app_length.
    rewrite (bind_lift _ (Mask (Value 0 (data ++ [type]))));
      [|rewrite <-(app_nil_r (EncodeFixed32 _)); apply fixed32_get_put, Mask_range].
    rewrite bind_assert by (apply Z.leb_le; unfold kBlockTrailerSize; lia).
    assert (Forall is_byte (data ++ [type])) as Hall by (apply Forall_app; split; [done|by apply Forall_singleton]).
    rewrite Unmask_Mask, Z.eqb_refl; [done|]. unfold Value. rewrite Extend_crc_ref by (done || lia).
    by apply crc_ref_range. }
  bind_with Ec. cbn [negb].
  assert ((data ++ block_trailer data type) !! Z.to_nat (slen data) = Some type) as Ety.
  { unfold slen. rewrite Nat2Z.id, lookup_app_r, Nat.sub_diag by done. unfold block_trailer. by rewrite Eu8. }
  rewrite (bind_lift _ _ _ _ Ety).
  destruct (run_uncompress type data raw (block_trailer data type) b He) as (c & -> & Hc).
  exists c, f'. split_and!; [done|done|congruence].
Qed.
End stored.

(** ** Errors *)

Section errors.
Context `{Snappy} {F : Type} `{ReliableRandomAccess F}.
Implicit Types (f : F).

(** A block whose bytes are [body], with its type, and [sum], the masked checksum. *)
Lemma run_ReadBlock_mismatch pre body sum post n f :
  file_contents f = pre ++ body ++ sum ++ post → slen body = n + 1 → length sum = 4%nat → 0 ≤ n →
  slen (file_contents f) < 2 ^ 64 → Forall is_byte sum → Value 0 body ≠ Unmask (le_combine sum) →
  ∃ f', ReadBlock true (MkHandle (slen pre) n) f = Done (inl "block checksum mismatch", f') ∧
    file_contents f' = file_contents f.
Proof.
  intros Ef Hb Hsum Hn Hl Hsb Hne. unfold ReadBlock. cbv zeta. cbn [offset_ size_].
  assert (slen (file_contents f) = slen pre + (n + 1) + 4 + slen post) as El.
  { rewrite Ef, !slen_app, Hb. unfold slen. rewrite Hsum. lia. }
  pose proof (slen_nonneg pre) as Hpre. pose proof (slen_nonneg post). change kBlockTrailerSize with 5.
  rewrite (wrapu_small 64) by lia.
  destruct (file_Read_reliable (slen pre) (n + 5) f) as (b & f' & E & Ef'); [lia..|].
  assert (take (Z.to_nat (n + 5)) (drop (Z.to_nat (slen pre)) (file_contents f)) = body ++ sum) as Et.
  { rewrite Ef. unfold slen at 1. rewrite Nat2Z.id, drop_app_length, app_assoc. apply take_app_length'.
    rewrite length_app, Hsum. unfold slen in Hb. lia. }
  rewrite Et in E. bind_with E. cbv beta iota.
  assert (slen (body ++ sum) = n + 5) as Elen by (rewrite slen_app, Hb; unfold slen; rewrite Hsum; lia).
  rewrite Elen, Z.eqb_refl. cbn [negb]. exists f'. split; [|done].
  assert (Z.to_nat (n + 1) = length body) as -> by (unfold slen in Hb; lia).
  rewrite drop_app_length, take_app_length.
  assert (DecodeFixed32 sum = Some (le_combine sum)) as Ed.
  { unfold DecodeFixed32. rewrite bool_decide_eq_true_2 by lia. by rewrite take_ge by lia. }
  erewrite bind_done; [|rewrite (bind_lift _ _ _ _ Ed), bind_assert by (apply Z.leb_le; lia); reflexivity].
  by rewrite (proj2 (Z.eqb_neq _ _) Hne).
Qed.

(** C25: a block that was damaged is refused when checksums are verified: whatever other
    bytes are in a place of four bytes at most of the contents and the type, or in the
    checksum, [ReadBlock] returns the error of the checksum, and reads nothing out of
    the file. *)
Theorem corruption_reported pre data type post body sum f :
  Forall is_byte (data ++ [u8 type]) →
  file_contents f = pre ++ body ++ sum ++ post → slen (file_contents f) < 2 ^ 64 →
  length sum = 4%nat → Forall is_byte sum →
  damaged (data ++ [u8 type]) body ∧ u8 type :: sum = block_trailer data type ∨
  body = data ++ [u8 type] ∧ u8 type :: sum ≠ block_trailer data type →
  ∃ f', ReadBlock true (MkHandle (slen pre) (slen data)) f = Done (inl "block checksum mismatch", f') ∧
    file_contents f' = file_contents f.
Proof.
  intros Hd Ef Hl Hsum Hsb Hcase.
  assert (length body = S (length data)) as Hbl.
  { destruct Hcase as [[Hdam _]|[-> _]]; [apply damaged_length in Hdam; rewrite Hdam|]; rewrite length_app; simpl; lia. }
  eapply run_ReadBlock_mismatch; [exact Ef|unfold slen; lia|done|apply slen_nonneg|done|done|].
  assert (0 ≤ Value 0 (data ++ [u8 type]) < 2 ^ 32) as Hv.
  { unfold Value. rewrite Extend_crc_ref by (done || lia). by apply crc_ref_range. }
  unfold block_trailer in Hcase. destruct Hcase as [[Hdam [= ->]]|[-> Hne]].
  - unfold EncodeFixed32. rewrite le_combine_split, Z.mod_small by apply Mask_range. rewrite Unmask_Mask by done.
    intros E. symmetry in E. revert E. by apply crc_detects.
  - intros E. apply Hne. f_equal. rewrite E.
    assert (0 ≤ le_combine sum < 2 ^ 32) as Hr.
    { pose proof (le_combine_range sum Hsb) as Hr. rewrite Hsum in Hr. change (256 ^ Z.of_nat 4) with (2 ^ 32) in Hr. done. }
    rewrite (proj1 (Mask_Unmask _ Hr)). unfold EncodeFixed32. by rewrite <-Hsum, le_split_combine.
Qed.
End errors.

(** ** Sizes that wrap *)

(** [ReadBlock] adds the size of the trailer to the size of the handle with 64 bits, and
    the mapped file adds the offset to that: a handle with the greatest sizes passes
    both checks and is read out of the bytes. *)
Theorem ReadBlock_size_wraps :
  let f := MkMmapFile "t" (replicate 64 0) in
  ReadBlock false (MkHandle 0 (2 ^ 64 - 3)) f = Undef ∧ mmap_Read (2 ^ 64 - 1) 65 f = Undef.
Proof.
  cbv zeta. split; [|reflexivity]. unfold ReadBlock. cbv zeta. cbn [offset_ size_].
  change (u64 (2 ^ 64 - 3 + kBlockTrailerSize)) with 2.
  erewrite bind_done; [|vm_compute; reflexivity]. cbv beta iota. change (slen [0; 0] =? 2) with true. cbn [negb].
  erewrite bind_done by reflexivity. cbn [negb].
  assert ([0; 0] !! Z.to_nat (2 ^ 64 - 3) = None) as E; [|by unfold lift_option, mbind, M_bind; rewrite E].
  apply lookup_ge_None. simpl length. lia.
Qed.

(** The footer is read at 48 bytes from the end, and it is decoded whatever the number of
    bytes that were read: a short read is used past its end. *)
Theorem footer_short_read_undefined : footer_DecodeFrom [1; 2; 3; 4] = None.
Proof. by vm_compute. Qed.

Lemma corruption_reported_witness :
  ∃ f', ReadBlock true (MkHandle 2 3) (MkMmapFile "t" ([9; 9] ++ [1; 7; 3; 0] ++ EncodeFixed32 (Mask (Value 0 [1; 2; 3; 0])))) =
    Done (inl "block checksum mismatch", f').
Proof.
  destruct (corruption_reported [9; 9] [1; 2; 3] 0 [] [1; 7; 3; 0] (EncodeFixed32 (Mask (Value 0 [1; 2; 3; 0])))
    (MkMmapFile "t" ([9; 9] ++ [1; 7; 3; 0] ++ EncodeFixed32 (Mask (Value 0 [1; 2; 3; 0]))))) as (f' & E & _).
  - change (u8 0) with 0. repeat constructor; unfold is_byte; lia.
  - by rewrite app_nil_r.
  - by vm_compute.
  - done.
  - apply EncodeFixed32_bytes.
  - left. split; [|done]. exists [1], [2], [7], [3; 0]. split_and!; [done..|simpl; lia|].
    repeat constructor; unfold is_byte; lia.
  - by exists f'.
Defined.
