(* ===== verification/LdbTableBuilderSpec.v ===== *)
(** * leveldb: what the builder of tables writes

    An invariant of the builder: the blocks that are in the file, the entries of the
    index, which separate them, the data block that is being made, and the filters. From
    the constructor to [Finish] it gives the layout of the file. *)
From stdpp Require Import sorting.
From S2P Require Import Prelude LdbCoding LdbCrc LdbLog LdbLogSpec SkipList SkipListSpec LdbFormat LdbFilter LdbFilterSpec LdbIterator LdbBlock LdbBlockSpec LdbMergerSpec LdbTwoLevelSpec LdbTableFormat LdbTableBuilder LdbTableFormatSpec.

(** ** Interfaces *)

(** What include/leveldb/comparator.h asks for the separators of keys. [finds k key]: a
    lookup of [k] is to find the entry of [key]; it does not find one after the separator
    when it looks before it. *)
Class SeparatorLaws `{UC : Comparator (list Z)} `{Separators} := {
  table_key : list Z → Prop;
  finds : list Z → list Z → Prop;
  separator_law start limit : table_key start → table_key limit → compare_ start limit < 0 →
    ∃ sep, opt_FindShortestSeparator start limit = Some sep ∧
      compare_ start sep ≤ 0 ∧ compare_ sep limit < 0 ∧
      Forall is_byte sep ∧ (length sep ≤ length start)%nat ∧
      ∀ key k, compare_ limit key ≤ 0 → finds k key → compare_ k sep ≤ 0 → compare_ k start ≤ 0;
  successor_law key : table_key key →
    ∃ succ, opt_FindShortSuccessor key = Some succ ∧ compare_ key succ ≤ 0 ∧
      Forall is_byte succ ∧ (length succ ≤ length key)%nat;
}.

(** A policy that keeps its contract. *)
Record lawful_policy := MkLawful {
  lp_name : list Z;
  lp_policy : FilterPolicy;
  lp_laws : @FilterPolicyLaws lp_policy;
  lp_name_bytes : Forall is_byte lp_name;
}.
Definition lp_named (l : lawful_policy) : NamedPolicy := MkPolicy (lp_name l) (lp_policy l).

(** ** Sizes *)

(** The bytes of some entries, at most. *)
Definition weight (kvs : entries) : Z := kvs_size kvs - 8.

Lemma weight_nil : weight [] = 0.
Proof. done. Qed.
Lemma weight_cons kv kvs : weight (kv :: kvs) = 19 + Z.of_nat (length kv.1 + length kv.2) + weight kvs.
Proof. unfold weight. rewrite kvs_size_cons. lia. Qed.
Lemma weight_app kvs kvs' : weight (kvs ++ kvs') = weight kvs + weight kvs'.
Proof. unfold weight. rewrite kvs_size_append. lia. Qed.
Lemma weight_nonneg kvs : 0 ≤ weight kvs.
Proof. unfold weight. pose proof (kvs_size_ge kvs). lia. Qed.
Lemma weight_elem kv kvs : kv ∈ kvs → 19 + Z.of_nat (length kv.1) ≤ weight kvs.
Proof.
  intros (l1 & l2 & ->)%list_elem_of_split. rewrite weight_app, weight_cons.
  pose proof (weight_nonneg l1). pose proof (weight_nonneg l2). lia.
Qed.

(** ** The layout of a table *)

(** The data blocks that are in the file, with their handles. *)
Abbreviation blocks := (list (entries * BlockHandle)).

Definition block_at_handle `{Snappy} (out : list Z) (h : BlockHandle) (kvs : entries) : Prop :=
  ∃ es points, stored_at out h (block_bytes_of es points) ∧ block_wf es points ∧ kvs_of es = kvs.

(** The entries of the index. *)
Definition index_of (seps : list (list Z)) (ds : blocks) : entries :=
  zip_with (λ k d, (k, handle_bytes d.2)) seps ds.

Section layout.
Context `{UC : Comparator (list Z)} `{!ComparatorLaws (list Z)} `{Sep : Separators} `{SL : !SeparatorLaws}.
Implicit Types (seps : list (list Z)) (ds : blocks).

(** A lookup that finds the key [x], or one after it, and that is not after the separator
    [k], is not after the entries either. *)
Definition apart (kvs : entries) (k x : list Z) : Prop :=
  ∃ a, a ∈ kvs ∧ ∀ key t, compare_ x key ≤ 0 → finds t key → compare_ t k ≤ 0 → compare_ t a.1 ≤ 0.
Lemma apart_mono kvs k x x' : apart kvs k x → compare_ x x' ≤ 0 → apart kvs k x'.
Proof. intros (a & Ha & H) Hx. exists a. split; [done|]. intros key t Hk. apply H. by eapply compare_trans. Qed.

(** The separators are not before the keys of their blocks, and before the keys of the
    blocks that follow and of the entries [cur] that are not in a block yet. *)
Record separated seps ds (cur : entries) : Prop := {
  sep_below i k d kv : seps !! i = Some k → ds !! i = Some d → kv ∈ d.1 → compare_ kv.1 k ≤ 0;
  sep_above i j k d kv : seps !! i = Some k → ds !! j = Some d → (i < j)%nat → kv ∈ d.1 →
    compare_ k kv.1 < 0;
  sep_above_cur k kv : k ∈ seps → kv ∈ cur → compare_ k kv.1 < 0;
  sep_apart i j k d e kv : seps !! i = Some k → ds !! i = Some d → ds !! j = Some e → (i < j)%nat → kv ∈ e.1 →
    apart d.1 k kv.1;
  sep_apart_cur i k d kv : seps !! i = Some k → ds !! i = Some d → kv ∈ cur → apart d.1 k kv.1;
  sep_bytes : Forall (Forall is_byte) seps;
  sep_length i k d : seps !! i = Some k → ds !! i = Some d →
    ∃ kv, kv ∈ d.1 ∧ (length k ≤ length kv.1)%nat;
  sep_count : (length seps ≤ length ds)%nat;
}.

(** The blocks are in the file in their order. *)
Record laid `{Snappy} (out : list Z) ds : Prop := {
  laid_block d : d ∈ ds → block_at_handle out d.2 d.1 ∧ d.1 ≠ [];
  laid_order i j d e : ds !! i = Some d → ds !! j = Some e → (i < j)%nat →
    offset_ d.2 < offset_ e.2;
}.

(** What the filter of the block of a key says. *)
Definition filtered (l : lawful_policy) (fs : list (list Z)) ds : Prop :=
  ∀ d kv, d ∈ ds → kv ∈ d.1 → ∃ f, fs !! filter_index (offset_ d.2) = Some f ∧
    @KeyMayMatch (lp_policy l) kv.1 f = Some true.

Record table_layout `{Snappy} (pol : option lawful_policy) (out : list Z) ds seps (ft : Footer) : Prop := {
  tl_footer : ∃ pre, out = pre ++ footer_bytes ft;
  tl_footer_ok : footer_ok ft;
  tl_size : slen out < 2 ^ 63;
  tl_count : length seps = length ds;
  tl_separated : separated seps ds [];
  tl_laid : laid out ds;
  tl_index : block_at_handle out (index_handle_ ft) (index_of seps ds);
  tl_meta : match pol with
            | None => True
            | Some l => ∃ fh fs, handle_ok fh ∧
                block_at_handle out (metaindex_handle_ ft) [(filter_prefix ++ lp_name l, handle_bytes fh)] ∧
                stored_at out fh (filter_block fs) ∧ slen (filter_block fs) < 2 ^ 32 ∧ filtered l fs ds
            end;
}.

(** ** Growing *)

Context `{Snappy}.

Lemma block_at_app out h kvs more : block_at_handle out h kvs → block_at_handle (out ++ more) h kvs.
Proof. intros (es & pts & Hs & Hw). exists es, pts. split; [by apply stored_app|done]. Qed.

Lemma laid_app out ds more : laid out ds → laid (out ++ more) ds.
Proof.
  intros [Hb Ho]. split; [|done]. intros d Hd. destruct (Hb d Hd) as [? ?].
  split; [by apply block_at_app|done].
Qed.

Lemma laid_snoc out ds kvs h more :
  laid out ds → block_at_handle (out ++ more) h kvs → offset_ h = slen out → kvs ≠ [] →
  laid (out ++ more) (ds ++ [(kvs, h)]).
Proof.
  intros Hl Hb Eo Hne. split.
  - intros d [Hd| ->%list_elem_of_singleton]%elem_of_app; [|done]. by apply (laid_app _ _ more) in Hl as [? _]; auto.
  - intros i j d e Ei Ej Hij. apply lookup_snoc_Some in Ei as [[Hi Ei]|[-> <-]], Ej as [[Hj Ej]|[-> <-]];
      [by eapply laid_order| |lia|lia].
    cbn [snd]. rewrite Eo.
    destruct (laid_block _ _ Hl d) as [(es & pts & Hs & _) _]; [by eapply list_elem_of_lookup_2|].
    apply stored_bound in Hs. lia.
Qed.

(** The entries that were not in a block make a new one. *)
Lemma separated_flush seps ds cur h : separated seps ds cur → separated seps (ds ++ [(cur, h)]) [].
Proof.
  intros [H1 H2 H3 H7 H8 H4 H5 H6]. split; try done.
  - intros i k d kv Ek Ed Hin. apply lookup_snoc_Some in Ed as [[_ Ed]|[-> <-]]; [by eapply H1|].
    apply lookup_lt_Some in Ek. lia.
  - intros i j k d kv Ek Ed Hij Hin. apply lookup_snoc_Some in Ed as [[_ Ed]|[-> <-]]; [by eapply H2|].
    apply H3; [by eapply list_elem_of_lookup_2|done].
  - intros k kv _ Hin. by apply not_elem_of_nil in Hin.
  - intros i j k d e kv Ek Ed Ee Hij Hin. apply lookup_snoc_Some in Ed as [[_ Ed]|[-> <-]]; [|apply lookup_lt_Some in Ek; lia].
    apply lookup_snoc_Some in Ee as [[_ Ee]|[-> <-]]; [by eapply H7|by eapply H8].
  - intros i k d kv _ _ Hin. by apply not_elem_of_nil in Hin.
  - intros i k d Ek Ed. apply lookup_snoc_Some in Ed as [[_ Ed]|[-> <-]]; [by eapply H5|].
    apply lookup_lt_Some in Ek. lia.
  - rewrite length_app. simpl. lia.
Qed.

(** An entry after all the others. *)
Lemma separated_add seps ds cur kv :
  separated seps ds cur → (∀ k, k ∈ seps → compare_ k kv.1 < 0) →
  (∀ i k d, seps !! i = Some k → ds !! i = Some d → apart d.1 k kv.1) → separated seps ds (cur ++ [kv]).
Proof.
  intros [H1 H2 H3 H7 H8 H4 H5 H6] Hk Ha. split; try done.
  - intros k kv' Hin [Hc| ->%list_elem_of_singleton]%elem_of_app; [by apply H3|by apply Hk].
  - intros i k d kv' Ek Ed [Hc| ->%list_elem_of_singleton]%elem_of_app; [by eapply H8|by eapply Ha].
Qed.

(** A new separator, after the last block. *)
Lemma separated_sep seps ds d k :
  separated seps (ds ++ [d]) [] → length seps = length ds → Forall is_byte k →
  (∀ kv, kv ∈ d.1 → compare_ kv.1 k ≤ 0) → (∃ kv, kv ∈ d.1 ∧ (length k ≤ length kv.1)%nat) →
  separated (seps ++ [k]) (ds ++ [d]) [].
Proof.
  intros [H1 H2 H3 H7 H8 H4 H5 H6] Hl Hb Hk Hlen. split.
  - intros i k' d' kv Ek Ed Hin. apply lookup_snoc_Some in Ek as [[_ Ek]|[-> <-]]; [by eapply H1|].
    rewrite lookup_app_r, Hl, Nat.sub_diag in Ed by lia. injection Ed as <-. by apply Hk.
  - intros i j k' d' kv Ek Ed Hij Hin. apply lookup_snoc_Some in Ek as [[_ Ek]|[-> <-]]; [by eapply H2|].
    apply lookup_lt_Some in Ed. rewrite length_app in Ed. simpl in Ed. lia.
  - intros k' kv _ Hin. by apply not_elem_of_nil in Hin.
  - intros i j k' d' e kv Ek Ed Ee Hij Hin. apply lookup_snoc_Some in Ek as [[_ Ek]|[-> <-]]; [by eapply H7|].
    apply lookup_lt_Some in Ee. rewrite length_app in Ee. simpl in Ee. lia.
  - intros i k' d' kv _ _ Hin. by apply not_elem_of_nil in Hin.
  - apply Forall_app. by split; [|apply Forall_singleton].
  - intros i k' d' Ek Ed. apply lookup_snoc_Some in Ek as [[_ Ek]|[-> <-]]; [by eapply H5|].
    rewrite lookup_app_r, Hl, Nat.sub_diag in Ed by lia. by injection Ed as <-.
  - rewrite !length_app. simpl. lia.
Qed.

Lemma index_of_snoc seps ds d k :
  length seps = length ds →
  index_of seps (ds ++ [d]) = index_of seps ds ∧
  index_of (seps ++ [k]) (ds ++ [d]) = index_of seps ds ++ [(k, handle_bytes d.2)].
Proof.
  intros Hl. unfold index_of. split.
  - rewrite <-(app_nil_r seps) at 1. rewrite zip_with_app by done. simpl. by rewrite app_nil_r.
  - by rewrite zip_with_app.
Qed.

(** The index takes no more than the entries. *)
Lemma index_weight seps ds :
  (∀ i k d, seps !! i = Some k → ds !! i = Some d → ∃ kv, kv ∈ d.1 ∧ (length k ≤ length kv.1)%nat) →
  (∀ d, d ∈ ds → handle_ok d.2) →
  weight (index_of seps ds) ≤ weight (concat ds.*1) + 20 * Z.of_nat (length (concat ds.*1)).
Proof.
  revert ds. induction seps as [|k seps IH]; intros ds Hk Hh.
  { change (index_of [] ds) with (@nil (list Z * list Z)). rewrite weight_nil.
    pose proof (weight_nonneg (concat ds.*1)). lia. }
  destruct ds as [|d ds]; [done|]. cbn [index_of zip_with fmap list_fmap concat].
  rewrite weight_cons, weight_app, length_app. cbn [fst snd].
  destruct (Hk O k d) as (kv & Hin & Hl); [done..|]. pose proof (weight_elem _ _ Hin) as Hw.
  destruct (handle_bytes_ok d.2) as [_ Hb]; [apply Hh; left|].
  specialize (IH ds (λ i, Hk (S i)) (λ d' Hd, Hh d' (list_elem_of_further _ _ _ Hd))). fold (index_of seps ds) in *.
  assert (1 ≤ length d.1)%nat by (destruct d.1; [by apply not_elem_of_nil in Hin|simpl; lia]). lia.
Qed.
End layout.

(** ** Writing blocks *)

(** The bytes of a block. *)
Lemma block_bytes_ok es points : block_wf es points → Forall is_byte (block_bytes_of es points).
Proof.
  intros Hw. unfold block_bytes_of. apply Forall_app. split; [by eapply entries_bytes_ok; apply Hw|].
  apply Forall_app. split; [|apply EncodeFixed32_bytes].
  apply Forall_concat, Forall_fmap, Forall_true. intros v. apply EncodeFixed32_bytes.
Qed.

Lemma block_bytes_size interval b es points :
  builds interval b es points → slen (block_bytes_of es points) ≤ kvs_size (kvs_of es).
Proof.
  intros Hb. pose proof (bd_size _ _ _ _ Hb) as Hsz. unfold slen, block_bytes_of.
  rewrite !length_app, length_fixed32s, length_fmap, length_fixed32. lia.
Qed.

Lemma compress_encodes `{SnappyLaws} c raw :
  c = kNoCompression ∨ c = kSnappyCompression → Forall is_byte raw →
  encodes (compress_block c raw).2 (compress_block c raw).1 raw ∧
  slen (compress_block c raw).1 ≤ slen raw ∧ is_byte (compress_block c raw).2.
Proof.
  intros Hc Hr. assert (encodes kNoCompression raw raw ∧ slen raw ≤ slen raw ∧ is_byte kNoCompression) as Hno.
  { split_and!; [|done|by vm_compute]. split; [done|by left]. }
  unfold compress_block. destruct Hc as [-> | ->]; [exact Hno|]. simpl.
  destruct (Snappy_Compress raw) as [compressed|] eqn:E; [|exact Hno].
  destruct (Z.ltb_spec (slen compressed) (slen raw - slen raw / 8)) as [Hlt|]; [|exact Hno].
  destruct (snappy_law raw compressed Hr E) as (Hcb & El & Eu). split_and!.
  - split; [done|by right].
  - pose proof (slen_nonneg raw). simpl. zdiv.
  - by vm_compute.
Qed.

Section writing.
Context {F : Type} `{ReliableWritable F} `{SnappyLaws}.
Implicit Types (r : TableBuilder F).

(** The builder with more in its file. *)
Definition put_out (f : F) (n : Z) r : TableBuilder F :=
  MkBuilder (tb_options r) (tb_index_block_options r) f n true
    (tb_data_block r) (tb_index_block r) (tb_last_key r) (tb_num_entries r) (tb_closed r)
    (tb_filter_block r) (tb_pending_index_entry r) (tb_pending_handle r).

Lemma run_file_Append d r :
  ∃ f, file_Append d r = Done (true, put_out f (tb_offset r) r) ∧ written f = written (tb_file r) ++ d.
Proof.
  destruct (Append_reliable d (tb_file r)) as (f & E & Ef). exists f. split; [|done].
  unfold file_Append. rewrite bind_get, E. done.
Qed.
Lemma run_file_Flush r :
  ∃ f, file_Flush r = Done (true, put_out f (tb_offset r) r) ∧ written f = written (tb_file r).
Proof.
  destruct (Flush_reliable (tb_file r)) as (f & E & Ef). exists f. split; [|done].
  unfold file_Flush. rewrite bind_get, E. done.
Qed.

Lemma run_WriteRawBlock data type r :
  Forall is_byte data → is_byte type → 0 ≤ tb_offset r → tb_offset r + slen data + 5 < 2 ^ 64 →
  ∃ f, WriteRawBlock data type r =
      Done (MkHandle (tb_offset r) (slen data), put_out f (tb_offset r + (slen data + 5)) r) ∧
    written f = written (tb_file r) ++ data ++ block_trailer data type.
Proof.
  intros Hd Ht Ho Hl. assert (u8 type = type) as Eu by (apply (wrapu_small 8); exact Ht).
  destruct (run_file_Append data r) as (f1 & E1 & W1).
  destruct (run_file_Append (block_trailer data type) (put_out f1 (tb_offset r) r)) as (f2 & E2 & W2).
  exists f2. split.
  - unfold WriteRawBlock. rewrite bind_get. cbv zeta. bind_with E1. cbv beta iota. rewrite bind_assoc.
    rewrite Eu, crc_of_block by done. unfold block_trailer in E2. rewrite Eu in E2. bind_with E2. cbv beta iota.
    pose proof (slen_nonneg data). unfold kBlockTrailerSize. rewrite bind_assoc, bind_get. cbn [tb_offset put_out].
    by rewrite wrapu_small by lia.
  - cbn [tb_file put_out] in W2. by rewrite W2, W1, <-app_assoc.
Qed.

Lemma run_tb_ok r : tb_status r = true → tb_ok r = Done (true, r).
Proof. intros E. unfold tb_ok. by rewrite bind_get, E. Qed.

(** A block is appended to the file. *)
Lemma run_WriteBlock interval b es points r :
  builds interval b es points → kvs_size (kvs_of es) < 2 ^ 32 →
  tb_status r = true → o_compression (tb_options r) = kNoCompression ∨ o_compression (tb_options r) = kSnappyCompression →
  tb_offset r = slen (written (tb_file r)) → tb_offset r < 2 ^ 62 →
  ∃ f h more, WriteBlock b r = Done ((bb_Reset b, h), put_out f (slen (written f)) r) ∧
    written f = written (tb_file r) ++ more ∧ slen more ≤ kvs_size (kvs_of es) + 5 ∧
    block_at_handle (written f) h (kvs_of es) ∧ offset_ h = slen (written (tb_file r)).
Proof.
  intros Hb Hsz Hst Hc Ho Hlim.
  destruct (run_bb_Finish interval b es points Hb Hsz) as (Hw & b' & Eb).
  pose proof (block_bytes_ok es points Hw) as Hbytes. pose proof (block_bytes_size _ _ _ _ Hb) as Hbl.
  set (raw := block_bytes_of es points) in *.
  destruct (compress_encodes _ raw Hc Hbytes) as (He & Hle & Hty).
  destruct (compress_block (o_compression (tb_options r)) raw) as [data type] eqn:Ec. cbn [fst snd] in *.
  pose proof (slen_nonneg (written (tb_file r))) as Hw0.
  destruct (run_WriteRawBlock data type r) as (f & E & W); [apply He|done|lia|pow2; lia|].
  assert (slen (written f) = tb_offset r + (slen data + 5)) as El.
  { rewrite W, !slen_app. unfold slen. rewrite (length_block_trailer data type). unfold slen in Ho. lia. }
  exists f, (MkHandle (tb_offset r) (slen data)), (data ++ block_trailer data type). split_and!.
  - unfold WriteBlock. bind_with (run_tb_ok r Hst). rewrite bind_assert, bind_get, Eb, Ec by done.
    bind_with E. by rewrite El.
  - done.
  - rewrite slen_app. unfold slen at 2. rewrite (length_block_trailer data type). lia.
  - exists es, points. split_and!; [|done|done]. rewrite W, Ho. by apply stored_new.
  - done.
Qed.
End writing.

(** ** The invariant of the builder *)

Section building.
Context `{UC : Comparator (list Z)} `{CL : !ComparatorLaws (list Z)} `{Sep : Separators} `{SL : !SeparatorLaws}.
Context {F : Type} `{WF : WritableFile F} `{RW : !ReliableWritable F} `{SN : Snappy} `{SNL : !SnappyLaws}.
Variables (opts : Options) (pol : option lawful_policy).
Hypothesis Hpol : o_filter_policy opts = lp_named <$> pol.
Hypothesis Hinterval : 1 ≤ o_block_restart_interval opts.
Hypothesis Hcompression : o_compression opts = kNoCompression ∨ o_compression opts = kSnappyCompression.
Implicit Types (r : TableBuilder F) (out : list Z) (ds : blocks) (seps : list (list Z)) (cur kvs : entries).

Abbreviation interval := (o_block_restart_interval opts).

(** All the entries. *)
Definition all_of ds cur : entries := concat ds.*1 ++ cur.

Lemma all_of_flush ds cur h : all_of (ds ++ [(cur, h)]) [] = all_of ds cur.
Proof. unfold all_of. rewrite fmap_app, concat_app. simpl. by rewrite !app_nil_r. Qed.
Lemma all_of_add ds cur kv : all_of ds (cur ++ [kv]) = all_of ds cur ++ [kv].
Proof. unfold all_of. by rewrite app_assoc. Qed.

(** What a filter takes for a key, and the name of the policy. *)
Definition pol_bytes : Z := match pol with None => 0 | Some l => @filter_bytes _ (lp_laws l) end.
Definition pol_name : list Z := match pol with None => [] | Some l => lp_name l end.

Definition entry_ok (kv : list Z * list Z) : Prop :=
  kv_ok kv ∧ table_key kv.1 ∧ match pol with None => True | Some l => @filter_key _ (lp_laws l) kv.1 end.

(** The entries, the index, the filters and the footer are below the limits of 32 bits. *)
Definition table_budget kvs : Prop :=
  weight kvs + (40 + pol_bytes) * Z.of_nat (length kvs) + slen pol_name + 200 < 2 ^ 32.

Definition entries_ok kvs : Prop := keys_sorted kvs ∧ Forall entry_ok kvs ∧ table_budget kvs.

(** The builder of filters has the keys of all the entries. *)
Definition filters_inv out ds cur (fb : option (FilterPolicy * FilterBlockBuilder)) : Prop :=
  match pol with
  | None => fb = None
  | Some l =>
      ∃ b fs gs q, fb = Some (lp_policy l, b) ∧
        @filters (lp_policy l) (lp_laws l) b fs gs q ∧ length gs = filter_index (slen out) ∧
        concat gs ++ q = (all_of ds cur).*1 ∧
        (∀ d kv, d ∈ ds → kv ∈ d.1 → in_filter (filter_index (offset_ d.2)) kv.1 gs q) ∧
        ∀ kv, kv ∈ cur → kv.1 ∈ q
  end.

Record building out ds seps cur r : Prop := {
  bg_options : tb_options r = opts;
  bg_index_options : tb_index_block_options r = set_restart_interval 1 opts;
  bg_file : written (tb_file r) = out;
  bg_offset : tb_offset r = slen out;
  bg_status : tb_status r = true;
  bg_closed : tb_closed r = false;
  bg_data : ∃ es points, builds interval (tb_data_block r) es points ∧ kvs_of es = cur;
  bg_index : ∃ es points, builds 1 (tb_index_block r) es points ∧ kvs_of es = index_of seps ds;
  bg_last : tb_last_key r = default [] (fst <$> last (all_of ds cur));
  bg_num : tb_num_entries r = Z.of_nat (length (all_of ds cur));
  bg_pending : if tb_pending_index_entry r
               then cur = [] ∧ length ds = S (length seps) ∧ snd <$> last ds = Some (tb_pending_handle r)
               else length ds = length seps ∧ (cur = [] → ds = []);
  bg_laid : laid out ds;
  bg_separated : separated seps ds cur;
  bg_size : slen out ≤ weight (concat ds.*1) + 13 * Z.of_nat (length ds);
  bg_filter : filters_inv out ds cur (tb_filter_block r);
}.

(** ** Bounds *)

Lemma pol_bytes_nonneg : 0 ≤ pol_bytes.
Proof. unfold pol_bytes. destruct pol as [l|]; [apply filter_bytes_nonneg|done]. Qed.

Lemma laid_count out ds : laid out ds → (length ds ≤ length (concat ds.*1))%nat.
Proof.
  intros [Hb _]. induction ds as [|d ds IH]; [done|]. cbn [fmap list_fmap concat length]. rewrite length_app.
  destruct (Hb d) as [_ Hne]; [left|]. specialize (IH (λ d' Hd, Hb d' (list_elem_of_further _ _ _ Hd))).
  assert (1 ≤ length d.1)%nat by (destruct d.1; [done|simpl; lia]). lia.
Qed.

Lemma budget_bounds kvs :
  table_budget kvs → 0 ≤ weight kvs ∧ weight kvs + 40 * Z.of_nat (length kvs) + slen pol_name + 200 < 2 ^ 32.
Proof.
  intros Hb. unfold table_budget in Hb. pose proof pol_bytes_nonneg. pose proof (weight_nonneg kvs). nia.
Qed.

Lemma out_bound out ds seps cur r :
  building out ds seps cur r → table_budget (all_of ds cur) → 0 ≤ slen out < 2 ^ 33.
Proof.
  intros Hg [_ Hb]%budget_bounds. pose proof (bg_size _ _ _ _ _ Hg). pose proof (laid_count _ _ (bg_laid _ _ _ _ _ Hg)).
  unfold all_of in Hb. rewrite weight_app, length_app in Hb. pose proof (weight_nonneg cur).
  pose proof (slen_nonneg out). pose proof (slen_nonneg pol_name). change (2 ^ 33) with 8589934592. pow2. lia.
Qed.

Lemma handles_ok out ds : laid out ds → slen out < 2 ^ 33 → ∀ d, d ∈ ds → handle_ok d.2.
Proof.
  intros [Hb _] Hl d Hd. destruct (Hb d Hd) as [(es & pts & Hs & _) _]. eapply stored_handle_ok; [exact Hs|].
  change (2 ^ 33) with 8589934592 in Hl. pow2. lia.
Qed.

(** The index is a block that can be written. *)
Lemma index_size out ds seps cur r :
  building out ds seps cur r → table_budget (all_of ds cur) → kvs_size (index_of seps ds) < 2 ^ 32.
Proof.
  intros Hg Hb. pose proof (out_bound _ _ _ _ _ Hg Hb) as [_ Ho]. apply budget_bounds in Hb as [_ Hb].
  pose proof (index_weight seps ds (sep_length _ _ _ (bg_separated _ _ _ _ _ Hg))
    (handles_ok _ _ (bg_laid _ _ _ _ _ Hg) Ho)) as Hw.
  unfold all_of in Hb. rewrite weight_app, length_app in Hb. pose proof (weight_nonneg cur).
  pose proof (slen_nonneg pol_name). unfold weight in *. lia.
Qed.

(** ** Filters *)

Definition put_filter (fb : option (FilterPolicy * FilterBlockBuilder)) r : TableBuilder F :=
  MkBuilder (tb_options r) (tb_index_block_options r) (tb_file r) (tb_offset r) (tb_status r)
    (tb_data_block r) (tb_index_block r) (tb_last_key r) (tb_num_entries r)
    (tb_closed r) fb (tb_pending_index_entry r) (tb_pending_handle r).

Lemma put_filter_same fb r : tb_filter_block r = fb → put_filter fb r = r.
Proof. intros <-. by destruct r. Qed.

Lemma run_filter_AddKey out ds cur kv r :
  filters_inv out ds cur (tb_filter_block r) → entry_ok kv →
  ∃ a fb, on_filter (λ _, AddKey kv.1) r = Done (a, put_filter fb r) ∧ filters_inv out ds (cur ++ [kv]) fb.
Proof.
  unfold filters_inv, entry_ok, on_filter. rewrite bind_get. destruct pol as [l|].
  2:{ intros E _. rewrite E. exists None, None. by rewrite (put_filter_same _ _ E). }
  intros (b & fs & gs & q & -> & Hf & Hg & Hk & Hin & Hcur) (_ & _ & Hkey).
  destruct (@run_AddKey _ (lp_laws l) b fs gs q kv.1 Hf Hkey) as (b' & -> & Hf').
  exists (Some tt), (Some (lp_policy l, b')). split; [done|]. exists b', fs, gs, (q ++ [kv.1]).
  split_and!; [done|done|done| | |].
  - rewrite app_assoc, Hk. unfold all_of. by rewrite app_assoc, !fmap_app.
  - intros d kv' Hd Hkv. destruct (Hin d kv' Hd Hkv) as [Hx|[E Hx]]; [by left|right].
    split; [done|]. apply elem_of_app. by left.
  - intros kv' [Hkv| ->%list_elem_of_singleton]%elem_of_app; apply elem_of_app; [left; by apply Hcur|right; by apply list_elem_of_singleton].
Qed.

(** The keys of the block that was written are in the filter of its offset. *)
Lemma run_filter_StartBlock out more ds cur h r :
  filters_inv out ds cur (tb_filter_block r) → offset_ h = slen out → slen (out ++ more) < 2 ^ 62 →
  Z.of_nat (length (all_of ds cur)) < 2 ^ 31 →
  ∃ a fb, on_filter (λ p, StartBlock (H := p) (slen (out ++ more))) r = Done (a, put_filter fb r) ∧
    filters_inv (out ++ more) (ds ++ [(cur, h)]) [] fb.
Proof.
  intros Hinv Eh Hl Hn. unfold filters_inv, on_filter in *. rewrite bind_get. destruct pol as [l|].
  2:{ rewrite Hinv. exists None, None. by rewrite (put_filter_same _ _ Hinv). }
  destruct Hinv as (b & fs & gs & q & -> & Hf & Hg & Hk & Hin & Hcur).
  assert (length q ≤ length (all_of ds cur))%nat as Hq.
  { apply (f_equal length) in Hk. rewrite length_app, length_fmap in Hk. lia. }
  pose proof (slen_nonneg out) as H0. pose proof (slen_nonneg more) as H1.
  assert (filter_index (slen out) ≤ filter_index (slen (out ++ more)))%nat as Hle.
  { unfold filter_index. rewrite slen_app. apply Z2Nat.inj_le; [by apply Z.div_pos|apply Z.div_pos; [lia|done]|].
    apply Z.div_le_mono; [done|lia]. }
  assert (0 ≤ slen (out ++ more) / kFilterBase) as Hd by (apply Z.div_pos; [apply slen_nonneg|done]).
  destruct (@run_start_loop _ (lp_laws l) (filter_index (slen (out ++ more)))
    (filter_index (slen (out ++ more)) - length gs) (slen (out ++ more) / kFilterBase + 1) b fs gs q Hf)
    as (b' & fs' & gs' & q' & E & Hf' & Hg' & Hk' & _ & Hin'); [lia|lia|unfold filter_index in *; lia|].
  exists (Some tt), (Some (lp_policy l, b')). split.
  - unfold StartBlock. cbv zeta. rewrite bind_get.
    assert (length (filter_offsets_ b) = length gs) as ->.
    { rewrite (filters_offsets _ _ _ _ Hf), length_fmap, length_starts. symmetry.
      eapply Forall2_length, (filters_match _ _ _ _ Hf). }
    rewrite bind_assert by (apply Z.leb_le; unfold filter_index in *; lia).
    unfold filter_index in E. rewrite Z2Nat.id in E by done. rewrite E. done.
  - exists b', fs', gs', q'. split_and!; [done|done|done| | |].
    + by rewrite Hk', Hk, all_of_flush.
    + intros d kv [Hdin| ->%list_elem_of_singleton]%elem_of_app Hkv; apply Hin'; [by apply Hin|].
      right. split; [by rewrite Hg, <-Eh|by apply Hcur].
    + intros kv Hkv. by apply not_elem_of_nil in Hkv.
Qed.

(** ** Flushing *)

Lemma builds_empty n b es points : builds n b es points → bb_empty b = bool_decide (kvs_of es = []).
Proof.
  intros Hb. unfold bb_empty. rewrite (bd_buffer _ _ _ _ Hb). apply bool_decide_ext.
  destruct es as [|e es]; [done|]. split; [|done]. intros E. exfalso.
  pose proof (entry_header_length e [] es (bd_chain _ _ _ _ Hb)) as Hl.
  pose proof (Forall_inv (bd_kvs _ _ _ _ Hb)) as Hk. specialize (Hl Hk).
  apply (f_equal length) in E. unfold entries_bytes in E. cbn [fmap list_fmap concat] in E.
  unfold entry_bytes in E. rewrite !length_app in E. simpl in E. lia.
Qed.

Lemma run_tb_Flush out ds seps cur r :
  building out ds seps cur r → cur ≠ [] → table_budget (all_of ds cur) →
  ∃ more h r', tb_Flush r = Done (tt, r') ∧ building (out ++ more) (ds ++ [(cur, h)]) seps [] r'.
Proof.
  intros Hg Hne Hb. pose proof (out_bound _ _ _ _ _ Hg Hb) as Ho. pose proof (budget_bounds _ Hb) as [_ Hbb].
  unfold all_of in Hbb. rewrite weight_app, length_app in Hbb. pose proof (weight_nonneg (concat ds.*1)).
  pose proof (weight_nonneg cur). pose proof (slen_nonneg pol_name).
  destruct (bg_data _ _ _ _ _ Hg) as (es & points & Hd & Ecur).
  destruct (run_WriteBlock interval (tb_data_block r) es points r) as (f & h & more & E & W & Hl & Hbh & Eh).
  { done. }
  { rewrite Ecur. unfold weight in *. lia. }
  { by apply (bg_status _ _ _ _ _ Hg). }
  { by rewrite (bg_options _ _ _ _ _ Hg). }
  { by rewrite (bg_file _ _ _ _ _ Hg), (bg_offset _ _ _ _ _ Hg). }
  { rewrite (bg_offset _ _ _ _ _ Hg). change (2 ^ 33) with 8589934592 in Ho. change (2 ^ 62) with 4611686018427387904. lia. }
  rewrite (bg_file _ _ _ _ _ Hg) in W, Eh. rewrite Ecur in Hl, Hbh.
  set (r1 := put_out f (slen (written f)) r) in *.
  set (r2 := MkBuilder (tb_options r) (tb_index_block_options r) f (slen (written f)) true
    (bb_Reset (tb_data_block r)) (tb_index_block r) (tb_last_key r) (tb_num_entries r) (tb_closed r)
    (tb_filter_block r) true h).
  destruct (run_file_Flush r2) as (f3 & E3 & W3).
  set (r3 := put_out f3 (tb_offset r2) r2) in *.
  assert (slen (written f) < 2 ^ 62) as Hlim.
  { rewrite W, slen_app. unfold weight in *. change (2 ^ 33) with 8589934592 in Ho.
    change (2 ^ 62) with 4611686018427387904. pow2. lia. }
  destruct (run_filter_StartBlock out more ds cur h r3) as (a & fb & E4 & Hfb).
  { apply (bg_filter _ _ _ _ _ Hg). }
  { done. }
  { by rewrite <-W. }
  { unfold all_of. rewrite length_app. unfold weight in *. pow2. lia. }
  assert (tb_pending_index_entry r = false) as Hp.
  { pose proof (bg_pending _ _ _ _ _ Hg) as Hp. destruct (tb_pending_index_entry r); [|done]. by destruct Hp. }
  exists more, h, (put_filter fb r3). split.
  - unfold tb_Flush. rewrite bind_get, (bg_closed _ _ _ _ _ Hg), (bg_status _ _ _ _ _ Hg), (builds_empty _ _ _ _ Hd).
    rewrite bind_assert by done. cbn [negb]. rewrite bool_decide_eq_false_2 by (by rewrite Ecur).
    rewrite Hp, bind_assert by done. bind_with E. cbv beta iota.
    erewrite bind_done by reflexivity. erewrite bind_done by reflexivity. erewrite bind_done by (by apply run_tb_ok).
    cbv iota. rewrite bind_assoc. erewrite bind_done by reflexivity.
    match goal with |- _ ?s = _ => change s with r2 end.
    rewrite bind_assoc. bind_with E3. rewrite bind_done with (a := tt) (s' := r3) by reflexivity.
    rewrite bind_get. change (tb_offset r3) with (slen (written f)). rewrite W. by bind_with E4.
  - pose proof Hg as [B1 B2 B3 B4 B5 B6 B7 B8 B9 B10 B11 B12 B13 B14 B15].
    rewrite <-W in *. split; try done.
    + eexists [], [O]. split; [|done]. by apply new_builds.
    + destruct B8 as (es8 & p8 & Hb8 & E8). exists es8, p8. split; [done|].
      rewrite Hp in B11. by rewrite (proj1 (index_of_snoc seps ds (cur, h) [] (eq_sym (proj1 B11)))).
    + by rewrite all_of_flush.
    + by rewrite all_of_flush.
    + cbn. rewrite Hp in B11. rewrite last_snoc, length_app. simpl. split_and!; [done|lia|done].
    + rewrite W. apply laid_snoc; [done| |done|done]. by rewrite <-W.
    + by apply separated_flush.
    + rewrite W, slen_app, fmap_app, concat_app, length_app. cbn [fmap list_fmap fst concat length].
      rewrite app_nil_r, weight_app. unfold weight in *. lia.
Qed.

(** ** The index *)

Lemma index_keys seps ds : (length seps ≤ length ds)%nat → (index_of seps ds).*1 = seps.
Proof. intros Hl. unfold index_of. by rewrite fmap_zip_with_l. Qed.

Lemma builds_last n b es points :
  builds n b es points → bb_last_key_ b = default [] (fst <$> last (kvs_of es)).
Proof.
  intros Hb. rewrite (bd_last _ _ _ _ Hb). unfold kvs_of. rewrite fmap_last. by destruct (last es).
Qed.

Definition put_index (b : BlockBuilder) (k : list Z) r : TableBuilder F :=
  MkBuilder (tb_options r) (tb_index_block_options r) (tb_file r) (tb_offset r) (tb_status r)
    (tb_data_block r) b k (tb_num_entries r) (tb_closed r) (tb_filter_block r) false (tb_pending_handle r).

(** The part of the invariant that is about the index. *)
Record indexed ds seps cur r : Prop := {
  ix_options : tb_index_block_options r = set_restart_interval 1 opts;
  ix_builds : ∃ es points, builds 1 (tb_index_block r) es points ∧ kvs_of es = index_of seps ds;
  ix_pending : if tb_pending_index_entry r
               then cur = [] ∧ length ds = S (length seps) ∧ snd <$> last ds = Some (tb_pending_handle r)
               else length ds = length seps ∧ (cur = [] → ds = []);
  ix_separated : separated seps ds cur;
  ix_handles d : d ∈ ds → handle_ok d.2;
  ix_last : tb_last_key r = default [] (fst <$> last (all_of ds cur));
  ix_blocks d : d ∈ ds → d.1 ≠ [];
}.

Lemma building_indexed out ds seps cur r :
  building out ds seps cur r → table_budget (all_of ds cur) → indexed ds seps cur r.
Proof.
  intros Hg Hb. pose proof (out_bound _ _ _ _ _ Hg Hb) as [_ Ho].
  pose proof Hg as [B1 B2 B3 B4 B5 B6 B7 B8 B9 B10 B11 B12 B13 B14 B15]. split; try done.
  - by eapply handles_ok.
  - intros d Hd. by apply B12.
Qed.

(** The entry of the index for the last block, with a separator that is not before its
    keys. *)
Lemma run_add_index_entry ds seps r k :
  indexed ds seps [] r → tb_pending_index_entry r = true → table_budget (all_of ds []) →
  Forall is_byte k →
  (∀ d kv, last ds = Some d → kv ∈ d.1 → compare_ kv.1 k ≤ 0) →
  (∃ d kv, last ds = Some d ∧ kv ∈ d.1 ∧ (length k ≤ length kv.1)%nat) →
  ∃ b es points, add_index_entry k r = Done (tt, put_index b k r) ∧ builds 1 b es points ∧
    kvs_of es = index_of (seps ++ [k]) ds ∧ separated (seps ++ [k]) ds [] ∧ length ds = S (length seps).
Proof.
  intros Hg Hp Hb Hk Hbelow (d & kv & El & Hin & Hlen).
  pose proof (ix_handles _ _ _ _ Hg) as Hh.
  pose proof (ix_pending _ _ _ _ Hg) as Hpd. rewrite Hp, El in Hpd. destruct Hpd as (_ & Hcount & [= Eh]).
  apply last_Some in El as [ds0 ->]. rewrite length_app in Hcount. simpl in Hcount.
  assert (length seps = length ds0) as Hc by lia. specialize (Hbelow d).
  assert (separated (seps ++ [k]) (ds0 ++ [d]) []) as Hsep.
  { apply separated_sep; [apply (ix_separated _ _ _ _ Hg)|done|done| |by exists kv].
    intros kv' Hkv'. apply Hbelow; [by rewrite last_snoc|done]. }
  destruct (index_of_snoc seps ds0 d k Hc) as [Ei1 Ei2].
  destruct (ix_builds _ _ _ _ Hg) as (es & points & Hi & Ei). rewrite Ei1 in Ei.
  assert (handle_ok d.2) as Hhd by (apply Hh, elem_of_app; right; by apply list_elem_of_singleton).
  destruct (handle_bytes_ok _ Hhd) as [Hhb Hhl].
  pose proof (weight_elem _ _ Hin) as Hw. pose proof (budget_bounds _ Hb) as [_ Hbb].
  pose proof (index_weight (seps ++ [k]) (ds0 ++ [d]) (sep_length _ _ _ Hsep) Hh) as Hiw.
  unfold all_of in Hbb. rewrite app_nil_r in Hbb. rewrite Ei2 in Hiw.
  pose proof (slen_nonneg pol_name).
  assert (weight d.1 ≤ weight (concat (ds0 ++ [d]).*1)) as Hwd.
  { rewrite fmap_app, concat_app, weight_app. cbn [fmap list_fmap concat]. rewrite app_nil_r.
    pose proof (weight_nonneg (concat ds0.*1)). lia. }
  destruct (run_bb_Add 1 ltac:(done) (tb_index_block r) es points k (handle_bytes d.2) Hi)
    as (b & points' & shared & E & Hb').
  - split_and!; [done|done|]. cbn [fst snd]. pow2. lia.
  - intros Hne. rewrite (builds_last _ _ _ _ Hi), Ei, <-fmap_last, <-Ei1, index_keys by (rewrite length_app; lia).
    destruct (last seps) as [k0|] eqn:Ek0.
    2:{ apply last_None in Ek0 as ->. exfalso. apply Hne. apply (fmap_nil_inv be_kv). exact Ei. }
    simpl. apply last_Some in Ek0 as [seps0 ->]. rewrite length_app in Hc. simpl in Hc.
    eapply compare_lt_le_trans; [|by apply Hbelow; [apply last_snoc|]].
    eapply (sep_above _ _ _ (ix_separated _ _ _ _ Hg) (length seps0) (length ds0) k0 d kv); [| |lia|done];
      by rewrite lookup_app_r, Nat.sub_diag by done.
  - rewrite Ei. unfold weight in *. pow2. lia.
  - exists b, (es ++ [BlockEntry shared k (handle_bytes d.2)]), points'. split_and!; [|done| |done|].
    + unfold add_index_entry. rewrite bind_get. erewrite bind_done by reflexivity.
      rewrite <-Eh. rewrite (bind_lift _ (handle_bytes d.2)) by (by rewrite run_handle_EncodeTo).
      rewrite (ix_options _ _ _ _ Hg). unfold on_index_block, on_block. rewrite bind_assoc, bind_get.
      cbn [tb_index_block]. change (o_block_restart_interval _) with 1. rewrite E.
      unfold put_index. by rewrite (ix_options _ _ _ _ Hg), <-Eh.
    + unfold kvs_of in *. rewrite fmap_app, Ei, Ei2. done.
    + rewrite length_app. simpl. lia.
Qed.

(** ** Adding *)

Lemma sorted_before kvs kv kv' : keys_sorted (kvs ++ [kv]) → kv' ∈ kvs → compare_ kv'.1 kv.1 < 0.
Proof.
  intros Hs [i E]%list_elem_of_lookup_1. pose proof (lookup_lt_Some _ _ _ E) as Hi.
  apply (keys_sorted_lookup (kvs ++ [kv]) i (length kvs)); [done|by rewrite lookup_app_l| |done].
  by rewrite lookup_app_r, Nat.sub_diag.
Qed.

Lemma in_blocks ds cur d kv : d ∈ ds → kv ∈ d.1 → kv ∈ all_of ds cur.
Proof.
  intros Hd Hkv. apply elem_of_app. left. apply list_elem_of_concat. exists d.1.
  split; [done|by apply list_elem_of_fmap_2].
Qed.

(** The separators are before an entry that comes after all the others. *)
Definition after_seps seps ds (kv : list Z * list Z) : Prop :=
  (∀ k, k ∈ seps → compare_ k kv.1 < 0) ∧ ∀ i k d, seps !! i = Some k → ds !! i = Some d → apart d.1 k kv.1.
Lemma after_seps_mono seps ds kv kv' : after_seps seps ds kv → compare_ kv.1 kv'.1 < 0 → after_seps seps ds kv'.
Proof.
  intros [H1 H2] Hlt. split; [intros k Hk; eapply compare_lt_trans; [by apply H1|done]|].
  intros i k d Ek Ed. eapply apart_mono; [by eapply H2|lia].
Qed.
Lemma seps_before out ds seps cur r kv :
  building out ds seps cur r → keys_sorted (all_of ds cur ++ [kv]) → after_seps seps ds kv.
Proof.
  intros Hg Hs. destruct (decide (seps = [])) as [->|Hne].
  { split; [by intros k ?%not_elem_of_nil|done]. }
  assert (∃ kv', kv' ∈ all_of ds cur ∧ after_seps seps ds kv') as (kv' & Hin & Ha).
  { pose proof (bg_separated _ _ _ _ _ Hg) as Hsep. pose proof (bg_pending _ _ _ _ _ Hg) as Hp.
    destruct (tb_pending_index_entry r).
    - destruct Hp as (-> & Hl & _). destruct (lookup_lt_is_Some_2 ds (length seps)) as [d Ed]; [lia|].
      destruct (laid_block _ _ (bg_laid _ _ _ _ _ Hg) d) as [_ Hd]; [by eapply list_elem_of_lookup_2|].
      destruct d as [[|kv' kvs] h]; [done|]. exists kv'.
      split; [eapply in_blocks; [by eapply list_elem_of_lookup_2|left]|]. split.
      + intros k [i Ei]%list_elem_of_lookup_1. pose proof (lookup_lt_Some _ _ _ Ei).
        eapply (sep_above _ _ _ Hsep i (length seps)); [done|done|lia|left].
      + intros i k d Ei Edi. pose proof (lookup_lt_Some _ _ _ Ei).
        eapply (sep_apart _ _ _ Hsep i (length seps)); [done|done|done|lia|left].
    - destruct cur as [|kv' cur].
      + destruct Hp as [Hl Hnil]. rewrite (Hnil eq_refl) in Hl. destruct Hne. by apply nil_length_inv.
      + exists kv'. split; [apply elem_of_app; right; left|]. split.
        * intros k Hk. apply (sep_above_cur _ _ _ Hsep); [done|left].
        * intros i k d Ek Ed. eapply (sep_apart_cur _ _ _ Hsep); [done|done|left]. }
  eapply after_seps_mono; [exact Ha|by eapply sorted_before].
Qed.

(** The first part of [Add]: the entry of the index for the block before. *)
Lemma run_separator out ds seps cur r kv :
  building out ds seps cur r → entries_ok (all_of ds cur ++ [kv]) → table_budget (all_of ds cur) →
  ∃ b k seps' es points,
    (if tb_pending_index_entry r then
       assert_ (bb_empty (tb_data_block r));;
       last_key ← lift_option (opt_FindShortestSeparator (tb_last_key r) kv.1);
       add_index_entry last_key
     else mret tt) r = Done (tt, put_index b k r) ∧
    builds 1 b es points ∧ kvs_of es = index_of seps' ds ∧ separated seps' ds cur ∧
    length ds = length seps' ∧ after_seps seps' ds kv.
Proof.
  intros Hg (Hs & Hok & _) Hb. pose proof (bg_pending _ _ _ _ _ Hg) as Hp.
  destruct (tb_pending_index_entry r) eqn:Ep.
  2:{ destruct (bg_index _ _ _ _ _ Hg) as (es & points & Hi & Ei).
      exists (tb_index_block r), (tb_last_key r), seps, es, points. split_and!; [|done|done| | |].
      - destruct r. cbn in Ep. subst. done.
      - apply (bg_separated _ _ _ _ _ Hg).
      - by destruct Hp.
      - by eapply seps_before. }
  destruct Hp as (-> & Hl & Elast).
  destruct (last ds) as [d|] eqn:El; [|done]. pose proof El as [ds0 Eds]%last_Some.
  destruct (laid_block _ _ (bg_laid _ _ _ _ _ Hg) d) as [_ Hne].
  { rewrite Eds. apply elem_of_app. right. by apply list_elem_of_singleton. }
  assert (∃ kvs kv0, d.1 = kvs ++ [kv0]) as (kvs & kv0 & Ed).
  { destruct (exists_last Hne) as (kvs & kv0 & E). by exists kvs, kv0. }
  assert (all_of ds [] = (concat ds0.*1 ++ kvs) ++ [kv0]) as Eall.
  { unfold all_of. rewrite app_nil_r, Eds, fmap_app, concat_app. cbn [fmap list_fmap concat].
    by rewrite app_nil_r, Ed, app_assoc. }
  assert (kv0 ∈ d.1) as Hin0 by (rewrite Ed; apply elem_of_app; right; by apply list_elem_of_singleton).
  assert (d ∈ ds) as Hd by (rewrite Eds; apply elem_of_app; right; by apply list_elem_of_singleton).
  assert (kv0 ∈ all_of ds []) as Hin by (by eapply in_blocks).
  rewrite Forall_forall in Hok.
  destruct (separator_law kv0.1 kv.1) as (k & Ek & Hk1 & Hk2 & Hkb & Hkl & Hfind).
  { apply Hok, elem_of_app. by left. }
  { apply Hok, elem_of_app. right. by apply list_elem_of_singleton. }
  { by eapply sorted_before. }
  destruct (run_add_index_entry ds seps r k (building_indexed _ _ _ _ _ Hg Hb) Ep Hb Hkb) as (b & es & points & E & Hi & Ei & Hsep & Hc).
  { rewrite El. intros d' kv' [= <-] Hkv'. eapply compare_trans; [|exact Hk1].
    rewrite Ed in Hkv'. apply elem_of_app in Hkv' as [Hkv'| ->%list_elem_of_singleton]; [|by rewrite compare_refl].
    apply Z.lt_le_incl, (sorted_before (concat ds0.*1 ++ kvs)); [|apply elem_of_app; by right].
    rewrite <-Eall. by eapply StronglySorted_app_1_l. }
  { exists d, kv0. split_and!; [done|done|lia]. }
  exists b, k, (seps ++ [k]), es, points. split_and!; [|done|done|done| |].
  - destruct (bg_data _ _ _ _ _ Hg) as (es' & p' & Hd' & Ecur). rewrite (builds_empty _ _ _ _ Hd'), Ecur.
    rewrite bind_assert by done. rewrite (bg_last _ _ _ _ _ Hg), Eall, last_snoc. simpl.
    by rewrite (bind_lift _ _ _ _ Ek).
  - rewrite length_app. simpl. lia.
  - destruct (seps_before _ _ _ _ _ kv Hg Hs) as [Hb1 Hb2]. split.
    + intros k' [Hk'| ->%list_elem_of_singleton]%elem_of_app; [by apply Hb1|done].
    + intros i k' d' Ek' Ed'. apply lookup_snoc_Some in Ek' as [[_ Ek']|[-> <-]]; [by eapply Hb2|].
      exists kv0. split; [|done]. rewrite Eds, lookup_app_r in Ed' by (rewrite Eds, length_app in Hl; simpl in Hl; lia).
      replace (length seps - length ds0)%nat with O in Ed' by (rewrite Eds, length_app in Hl; simpl in Hl; lia). by injection Ed' as <-.
Qed.

(** The budget of the entries before another one. *)
Lemma budget_before kvs kv : table_budget (kvs ++ [kv]) → table_budget kvs.
Proof.
  unfold table_budget. rewrite weight_app, length_app. intros Hb. pose proof (weight_nonneg [kv]).
  pose proof pol_bytes_nonneg. simpl in *. nia.
Qed.

(** [Add] up to the point where the block may be full. *)
Lemma run_add_entry out ds seps cur r kv :
  building out ds seps cur r → entries_ok (all_of ds cur ++ [kv]) →
  ∃ r' seps', building out ds seps' (cur ++ [kv]) r' ∧
    tb_Add kv.1 kv.2 r =
      (if o_block_size opts <=? CurrentSizeEstimate (tb_data_block r') then tb_Flush else mret tt) r'.
Proof.
  intros Hg Hok. pose proof Hok as (Hs & Hall & Hb). pose proof (budget_before _ _ Hb) as Hb0.
  assert (entry_ok kv) as Hkv.
  { rewrite Forall_forall in Hall. apply Hall, elem_of_app. right. by apply list_elem_of_singleton. }
  destruct (run_separator _ _ _ _ _ _ Hg Hok Hb0) as (b & k & seps' & esi & pi & E1 & Hi & Ei & Hsep & Hl & Hlt).
  destruct (run_filter_AddKey out ds cur kv (put_index b k r) (bg_filter _ _ _ _ _ Hg) Hkv) as (a & fb & E2 & Hfb).
  destruct (bg_data _ _ _ _ _ Hg) as (es & points & Hd & Ecur).
  destruct (run_bb_Add interval Hinterval (tb_data_block r) es points kv.1 kv.2 Hd)
    as (b' & points' & shared & E3 & Hd').
  { destruct kv. apply Hkv. }
  { intros Hne. rewrite (builds_last _ _ _ _ Hd), Ecur. destruct (last cur) as [kv0|] eqn:El.
    - simpl. apply (sorted_before (all_of ds cur)); [done|]. apply elem_of_app. right.
      apply last_Some in El as [cur0 ->]. apply elem_of_app. right. by apply list_elem_of_singleton.
    - apply last_None in El as ->. exfalso. apply Hne. by apply (fmap_nil_inv be_kv). }
  { rewrite Ecur. replace (kv.1, kv.2) with kv by (by destruct kv). apply budget_bounds in Hb as [_ Hb].
    unfold all_of in Hb. rewrite <-app_assoc, (weight_app (concat _)), length_app in Hb.
    pose proof (weight_nonneg (concat ds.*1)). pose proof (slen_nonneg pol_name). unfold weight in *. pow2. lia. }
  set (r' := MkBuilder (tb_options r) (tb_index_block_options r) (tb_file r) (tb_offset r) (tb_status r)
    b' b kv.1 (tb_num_entries r + 1) (tb_closed r) fb false (tb_pending_handle r)).
  exists r', seps'. split.
  - pose proof Hg as [B1 B2 B3 B4 B5 B6 B7 B8 B9 B10 B11 B12 B13 B14 B15]. split; try done.
    + exists (es ++ [BlockEntry shared kv.1 kv.2]), points'. split; [done|]. unfold kvs_of in *.
      rewrite fmap_app, Ecur. by destruct kv.
    + by exists esi, pi.
    + by rewrite all_of_add, last_snoc.
    + rewrite all_of_add, length_app. cbn [r' tb_num_entries length]. rewrite B10. lia.
    + cbn. split; [done|]. by intros ?%app_nil%proj2.
    + apply separated_add; [done|apply Hlt..].
  - unfold tb_Add. rewrite bind_get, (bg_closed _ _ _ _ _ Hg), (bg_status _ _ _ _ _ Hg).
    rewrite bind_assert by done. cbn [negb].
    assert ((if 0 <? tb_num_entries r then assert_ (0 <? compare_ kv.1 (tb_last_key r)) else mret tt) r = Done (tt, r)) as E0.
    { rewrite (bg_num _ _ _ _ _ Hg), (bg_last _ _ _ _ _ Hg). destruct (last (all_of ds cur)) as [kv0|] eqn:El.
      - apply last_Some in El as [l0 El]. rewrite (proj2 (Z.ltb_lt 0 (Z.of_nat _))) by (rewrite El, length_app; simpl; lia).
        simpl. rewrite (proj2 (Z.ltb_lt _ _)); [done|]. apply compare_sym. apply (sorted_before (all_of ds cur)); [done|].
        rewrite El. apply elem_of_app. right. by apply list_elem_of_singleton.
      - by apply last_None in El as ->. }
    bind_with E0. bind_with E1. bind_with E2. erewrite bind_done by reflexivity.
    unfold on_data_block, on_block. rewrite bind_assoc, bind_get. cbn [tb_data_block put_filter put_index tb_options].
    rewrite (bg_options _ _ _ _ _ Hg) at 1. rewrite E3. rewrite bind_assoc. erewrite bind_done by reflexivity.
    erewrite bind_done by reflexivity. rewrite bind_get. cbv zeta.
    match goal with |- (if _ then _ else _) ?s = _ => change s with r' end.
    change (tb_options r') with (tb_options r). by rewrite (bg_options _ _ _ _ _ Hg).
Qed.

Lemma run_tb_Add out ds seps cur r kv :
  building out ds seps cur r → entries_ok (all_of ds cur ++ [kv]) →
  ∃ out' ds' seps' cur' r', tb_Add kv.1 kv.2 r = Done (tt, r') ∧ building out' ds' seps' cur' r' ∧
    all_of ds' cur' = all_of ds cur ++ [kv].
Proof.
  intros Hg Hok. destruct (run_add_entry _ _ _ _ _ _ Hg Hok) as (r1 & seps1 & Hg1 & ->).
  destruct (_ <=? _).
  - destruct (run_tb_Flush _ _ _ _ _ Hg1) as (more & h & r2 & E2 & Hg2).
    + by intros ?%app_nil%proj2.
    + rewrite all_of_add. apply Hok.
    + eexists _, _, _, _, r2. split_and!; [exact E2|exact Hg2|]. by rewrite all_of_flush, all_of_add.
  - eexists _, _, _, _, r1. split_and!; [done|exact Hg1|]. by rewrite all_of_add.
Qed.

Fixpoint add_entries kvs : M (TableBuilder F) unit :=
  match kvs with
  | [] => mret tt
  | (key, value) :: kvs' => tb_Add key value;; add_entries kvs'
  end.

Lemma entries_ok_app kvs kvs' : entries_ok (kvs ++ kvs') → entries_ok kvs.
Proof.
  revert kvs. induction kvs' as [|kv kvs' IH]; intros kvs Hok; [by rewrite app_nil_r in Hok|].
  assert (entries_ok (kvs ++ [kv])) as (Hs & Hk & Hb).
  { apply IH. by rewrite <-app_assoc. }
  split_and!; [by eapply StronglySorted_app_1_l|by apply Forall_app in Hk as [? _]|by eapply budget_before].
Qed.

Lemma run_add_entries kvs : ∀ out ds seps cur r,
  building out ds seps cur r → entries_ok (all_of ds cur ++ kvs) →
  ∃ out' ds' seps' cur' r', add_entries kvs r = Done (tt, r') ∧ building out' ds' seps' cur' r' ∧
    all_of ds' cur' = all_of ds cur ++ kvs.
Proof.
  induction kvs as [|[key value] kvs IH]; intros out ds seps cur r Hg Hok.
  { exists out, ds, seps, cur, r. by rewrite app_nil_r. }
  change ((key, value) :: kvs) with ([(key, value)] ++ kvs) in Hok |- *. rewrite app_assoc in Hok.
  destruct (run_tb_Add _ _ _ _ _ (key, value) Hg) as (out1 & ds1 & seps1 & cur1 & r1 & E1 & Hg1 & Ea).
  { by eapply entries_ok_app. }
  rewrite <-Ea in Hok. destruct (IH _ _ _ _ _ Hg1 Hok) as (out' & ds' & seps' & cur' & r' & E & Hg' & Ea').
  exists out', ds', seps', cur', r'. split_and!; [|done|by rewrite Ea', Ea, <-app_assoc].
  cbn [add_entries app]. by bind_with E1.
Qed.

(** ** Starting *)

Lemma run_new_TableBuilder f :
  written f = [] → ∃ r, new_TableBuilder opts f = Done r ∧ building [] [] [] [] r.
Proof.
  intros Hf. unfold new_TableBuilder, new_BlockBuilder. rewrite (proj2 (Z.leb_le _ _)) by done.
  assert (∃ fb, (match o_filter_policy opts with None => None | Some p => Some (policy p, new_FilterBlockBuilder) end) = fb ∧
    ∀ r, tb_filter_block r = fb → ∃ a fb', on_filter (λ p, StartBlock (H := p) 0) r = Done (a, put_filter fb' r) ∧
      filters_inv [] [] [] fb') as (fb & -> & Hfb).
  { eexists. split; [done|]. intros r Er. unfold on_filter. rewrite bind_get, Er, Hpol. unfold filters_inv.
    destruct pol as [l|]; simpl.
    - eexists _, (Some (lp_policy l, new_FilterBlockBuilder)). split; [done|].
      eexists _, [], [], []. split_and!; try done; [apply (@new_filters _ (lp_laws l))| |].
      + intros d kv Hd. by apply not_elem_of_nil in Hd.
      + intros kv Hkv. by apply not_elem_of_nil in Hkv.
    - exists None, None. split; [|done]. rewrite put_filter_same; [done|]. by rewrite Er, Hpol. }
  match goal with |- context [on_filter _ ?r0] => destruct (Hfb r0 eq_refl) as (a & fb' & E & Hinv) end.
  eexists. split; [unfold mbind, outcome_bind, obind; rewrite E; reflexivity|].
  split; try done.
  - eexists [], [O]. split; [by apply new_builds|done].
  - eexists [], [O]. split; [by apply new_builds|done].
  - split; [intros d Hd; by apply not_elem_of_nil in Hd|done].
  - split; try done. intros k kv Hk. by apply not_elem_of_nil in Hk.
Qed.

(** ** Finishing *)

(** The state after the last data block: the blocks that follow are only added to the
    file. *)
Record finishing out ds seps r : Prop := {
  fi_options : tb_options r = opts;
  fi_file : written (tb_file r) = out;
  fi_offset : tb_offset r = slen out;
  fi_status : tb_status r = true;
  fi_indexed : indexed ds seps [] r;
  fi_laid : laid out ds;
  fi_filter : tb_filter_block r = None ↔ pol = None;
}.

Lemma finishing_more out more ds seps r f :
  finishing out ds seps r → written f = out ++ more →
  finishing (out ++ more) ds seps (put_out f (slen (written f)) r).
Proof.
  intros [F1 F2 F3 F4 F5 F6 F7] W. split; try done.
  - cbn. by rewrite W.
  - by destruct F5.
  - by apply laid_app.
Qed.

Lemma if_ok_done {A} (c : M (TableBuilder F) A) r a r' :
  tb_status r = true → c r = Done (a, r') → if_ok c r = Done (Some a, r').
Proof. intros Hst E. unfold if_ok. bind_with (run_tb_ok r Hst). by bind_with E. Qed.

(** The filter block, when there is a policy. *)
Definition filter_stored out ds (fh : BlockHandle) : Prop :=
  match pol with
  | None => True
  | Some l => ∃ fs, stored_at out fh (filter_block fs) ∧ slen (filter_block fs) < 2 ^ 32 ∧ filtered l fs ds
  end.

Lemma filter_block_bytes fs : Forall (Forall is_byte) fs → Forall is_byte (filter_block fs).
Proof.
  intros Hb. unfold filter_block. apply Forall_app. split; [by apply Forall_concat|].
  apply Forall_app. split; [|by repeat constructor].
  apply Forall_concat, Forall_fmap, Forall_true. intros v. apply EncodeFixed32_bytes.
Qed.

Lemma run_write_filter_block out ds seps r :
  finishing out ds seps r → filters_inv out ds [] (tb_filter_block r) → table_budget (concat ds.*1) →
  slen out < 2 ^ 33 → slen out ≤ weight (concat ds.*1) + 13 * Z.of_nat (length ds) → (length ds ≤ length (concat ds.*1))%nat →
  ∃ fh more r', write_filter_block r = Done (fh, r') ∧ finishing (out ++ more) ds seps r' ∧
    slen more < 2 ^ 33 ∧ filter_stored (out ++ more) ds fh.
Proof.
  intros Hf Hinv Hb Ho Hsz Hcnt. unfold write_filter_block, on_filter, filters_inv, filter_stored in *.
  rewrite bind_assoc, bind_get. pose proof (fi_filter _ _ _ _ Hf) as Hpf.
  unfold table_budget, pol_bytes in Hb. destruct pol as [l|] eqn:Epol.
  2:{ rewrite Hinv. exists new_BlockHandle, [], r. rewrite app_nil_r. split_and!; try done. }
  destruct Hinv as (b & fs & gs & q & Eb & Hfl & Hg & Hk & Hin & _). rewrite Eb.
  pose proof (@filter_bytes_nonneg _ (lp_laws l)) as Hfb0. pose proof (weight_nonneg (concat ds.*1)) as Hw0.
  unfold all_of in Hk. rewrite app_nil_r in Hk.
  assert (length (concat gs ++ q) = length (concat ds.*1)) as Hkl by (by rewrite Hk, length_fmap).
  assert (Z.of_nat (length q) < 2 ^ 31) as Hq.
  { rewrite length_app in Hkl. pose proof (slen_nonneg pol_name). pow2. nia. }
  destruct (@run_filter_Finish _ (lp_laws l) b fs gs q Hfl Hq) as (b' & fs' & gs' & E & Hm & Hgs & Hfb & Hsize & Hlen).
  fold (filter_block fs') in E. rewrite E.
  assert (slen (filter_block fs') < 2 ^ 32) as Hlim.
  { unfold slen. rewrite length_filter_block. rewrite Hkl in Hsize.
    assert (Z.of_nat (length gs) ≤ slen out / 2048) as Hgl.
    { rewrite Hg. unfold filter_index. change kFilterBase with 2048. pose proof (slen_nonneg out).
      rewrite Z2Nat.id; [done|]. by apply Z.div_pos. }
    assert (4 * (slen out / 2048) ≤ slen out) by (pose proof (slen_nonneg out); zdiv).
    pose proof (slen_nonneg pol_name). nia. }
  set (r1 := put_filter (Some (lp_policy l, b')) r).
  destruct (run_WriteRawBlock (filter_block fs') kNoCompression r1) as (f & Ew & W).
  { by apply filter_block_bytes. }
  { by vm_compute. }
  { cbn. rewrite (fi_offset _ _ _ _ Hf). apply slen_nonneg. }
  { cbn. rewrite (fi_offset _ _ _ _ Hf). change (2 ^ 33) with 8589934592 in Ho. pow2. lia. }
  cbn [r1 put_filter tb_file tb_offset] in Ew, W. rewrite (fi_file _ _ _ _ Hf) in W. rewrite (fi_offset _ _ _ _ Hf) in Ew.
  eexists _, _, _. split_and!.
  - rewrite bind_assoc. erewrite bind_done by reflexivity. exact Ew.
  - assert (slen out + (slen (filter_block fs') + 5) = slen (written f)) as ->.
    { rewrite W, !slen_app. unfold slen at 5. rewrite (length_block_trailer (filter_block fs') kNoCompression). lia. }
    apply finishing_more; [|exact W]. destruct Hf as [F1 F2 F3 F4 F5 F6 F7]. split; try done.
    + by destruct F5.
    + by rewrite Epol.
  - rewrite slen_app. unfold slen at 2. rewrite (length_block_trailer (filter_block fs') kNoCompression).
    change (2 ^ 33) with 8589934592. pow2. lia.
  - exists fs'. split_and!; [|done|].
    + apply stored_new. split; [by apply filter_block_bytes|by left].
    + intros d kv Hd Hkv. destruct (Hgs _ _ (Hin d kv Hd Hkv)) as (ks & Eks & Hks).
      destruct (Forall2_lookup_l _ _ _ _ _ Hm Eks) as (f' & Ef & Hf'). exists f'. split; [done|by apply Hf'].
Qed.

(** The metaindex: the handle of the filter under the name of the policy. *)
Definition meta_entries (fh : BlockHandle) : entries :=
  match pol with None => [] | Some l => [(filter_prefix ++ lp_name l, handle_bytes fh)] end.

Lemma run_write_metaindex out ds seps r fh :
  finishing out ds seps r → slen pol_name + 200 < 2 ^ 32 → slen out < 2 ^ 60 →
  (pol ≠ None → handle_ok fh) →
  ∃ mh more r', write_metaindex fh r = Done (mh, r') ∧ finishing (out ++ more) ds seps r' ∧
    slen more < 2 ^ 33 ∧ block_at_handle (out ++ more) mh (meta_entries fh).
Proof.
  intros Hf Hname Ho Hfh. unfold write_metaindex. rewrite bind_get, (fi_options _ _ _ _ Hf).
  unfold new_BlockBuilder. rewrite (proj2 (Z.leb_le _ _)) by done.
  rewrite (bind_lift _ (MkBlockBuilder [] [0] 0 false [])) by done.
  pose proof (fi_filter _ _ _ _ Hf) as Hpf. pose proof (new_builds interval Hinterval) as Hnew.
  assert (∃ b es points, (match tb_filter_block r with
      | None => mret (MkBlockBuilder [] [0] 0 false [])
      | Some _ =>
          p ← lift_option (o_filter_policy opts);
          handle_encoding ← lift_option (handle_EncodeTo fh []);
          match bb_Add interval (filter_prefix ++ policy_name p) handle_encoding (MkBlockBuilder [] [0] 0 false []) with
          | Done (_, b) => mret b
          | Undef => undef
          | NoFuel => no_fuel
          end
      end) r = Done (b, r) ∧ builds interval b es points ∧ kvs_of es = meta_entries fh) as (b & es & points & E & Hb & Ek).
  { unfold meta_entries, pol_name in *. rewrite Hpol. destruct pol as [l|] eqn:Epol.
    - destruct (tb_filter_block r) as [x|]; [|by destruct Hpf as [Hpf _]; specialize (Hpf eq_refl)].
      specialize (Hfh ltac:(done)). destruct (handle_bytes_ok _ Hfh) as [Hb1 Hb2].
      rewrite (bind_lift _ (lp_named l)), (bind_lift _ (handle_bytes fh)) by (done || by rewrite run_handle_EncodeTo).
      cbn [policy_name lp_named].
      destruct (run_bb_Add interval Hinterval (MkBlockBuilder [] [0] 0 false []) [] [O]
        (filter_prefix ++ lp_name l) (handle_bytes fh) Hnew) as (b & points & shared & E & Hb).
      + split_and!; [apply Forall_app; split; [|apply lp_name_bytes]|done|].
        * repeat constructor; vm_compute; congruence.
        * cbn [fst snd]. rewrite length_app. unfold slen in Hname. simpl. pow2. lia.
      + done.
      + change (kvs_of [] ++ ?l) with l. rewrite kvs_size_cons. cbn [fst snd]. rewrite length_app.
        change (kvs_size []) with 8. unfold slen in Hname. simpl. pow2. lia.
      + eexists b, _, points. rewrite E. by split_and!.
    - rewrite (proj2 Hpf eq_refl). eexists _, [], [O]. by split_and!. }
  bind_with E.
  assert (kvs_size (meta_entries fh) < 2 ^ 31 + slen pol_name) as Hms.
  { unfold meta_entries, pol_name. destruct pol as [l|] eqn:Epol; [|by vm_compute].
    destruct (handle_bytes_ok _ (Hfh ltac:(done))) as [_ Hb2].
    rewrite kvs_size_cons. cbn [fst snd]. rewrite length_app. change (kvs_size []) with 8.
    unfold slen. simpl. pow2. lia. }
  destruct (run_WriteBlock interval b es points r Hb) as (f & h & more & Ew & W & Hl & Hbh & Eh).
  { rewrite Ek. unfold meta_entries, pol_name in *. destruct pol as [l|]; [|by vm_compute].
    destruct (handle_bytes_ok _ (Hfh ltac:(done))) as [_ Hb2].
    rewrite kvs_size_cons. cbn [fst snd]. rewrite length_app. change (kvs_size []) with 8.
    unfold slen in *. simpl. pow2. lia. }
  { apply Hf. }
  { by rewrite (fi_options _ _ _ _ Hf). }
  { by rewrite (fi_file _ _ _ _ Hf), (fi_offset _ _ _ _ Hf). }
  { rewrite (fi_offset _ _ _ _ Hf). change (2 ^ 60) with 1152921504606846976 in Ho. change (2 ^ 62) with 4611686018427387904. lia. }
  rewrite (fi_file _ _ _ _ Hf) in W. rewrite Ek in Hl, Hbh.
  exists h, more, (put_out f (slen (written f)) r). split_and!.
  - by bind_with Ew.
  - by apply finishing_more.
  - change (2 ^ 33) with 8589934592. pow2. lia.
  - by rewrite <-W.
Qed.

(** The index, with the entry of the last block. *)
Lemma run_write_index out ds seps r :
  finishing out ds seps r → entries_ok (concat ds.*1) → slen out < 2 ^ 60 →
  ∃ ih seps' more r', write_index r = Done (ih, r') ∧ tb_status r' = true ∧
    written (tb_file r') = out ++ more ∧ tb_offset r' = slen (out ++ more) ∧ slen more < 2 ^ 33 ∧
    block_at_handle (out ++ more) ih (index_of seps' ds) ∧ separated seps' ds [] ∧ length seps' = length ds.
Proof.
  intros Hf (Hs & Hok & Hb) Ho. pose proof (fi_indexed _ _ _ _ Hf) as Hix.
  assert (all_of ds [] = concat ds.*1) as Eall by (unfold all_of; by rewrite app_nil_r).
  assert (∃ b k seps' es points,
    (if tb_pending_index_entry r then
       last_key ← lift_option (opt_FindShortSuccessor (tb_last_key r)); add_index_entry last_key
     else mret tt) r = Done (tt, put_index b k r) ∧
    builds 1 b es points ∧ kvs_of es = index_of seps' ds ∧ separated seps' ds [] ∧ length seps' = length ds)
    as (b & k & seps' & es & points & E & Hi & Ei & Hsep & Hl).
  { pose proof (ix_pending _ _ _ _ Hix) as Hp. destruct (tb_pending_index_entry r) eqn:Ep.
    2:{ destruct (ix_builds _ _ _ _ Hix) as (es & points & Hi & Ei).
        exists (tb_index_block r), (tb_last_key r), seps, es, points. split_and!; [|done|done|apply Hix|by destruct Hp].
        destruct r. cbn in Ep. subst. done. }
    destruct Hp as (_ & Hl & Elast). destruct (last ds) as [d|] eqn:El; [|done].
    pose proof El as [ds0 Eds]%last_Some.
    assert (d ∈ ds) as Hd by (rewrite Eds; apply elem_of_app; right; by apply list_elem_of_singleton).
    destruct (exists_last (ix_blocks _ _ _ _ Hix d Hd)) as (kvs & kv0 & Ed).
    assert (concat ds.*1 = (concat ds0.*1 ++ kvs) ++ [kv0]) as Ecat.
    { rewrite Eds, fmap_app, concat_app. cbn [fmap list_fmap concat]. by rewrite app_nil_r, Ed, app_assoc. }
    assert (kv0 ∈ d.1) as Hin0 by (rewrite Ed; apply elem_of_app; right; by apply list_elem_of_singleton).
    rewrite Forall_forall in Hok.
    destruct (successor_law kv0.1) as (k & Ek & Hk1 & Hkb & Hkl).
    { apply Hok. rewrite Ecat. apply elem_of_app. right. by apply list_elem_of_singleton. }
    destruct (run_add_index_entry ds seps r k Hix Ep) as (b & es & points & E & Hi & Ei & Hsep & Hc);
      [by rewrite Eall|done| | |].
    { rewrite El. intros d' kv' [= <-] Hkv'. eapply compare_trans; [|exact Hk1].
      rewrite Ed in Hkv'. apply elem_of_app in Hkv' as [Hkv'| ->%list_elem_of_singleton]; [|by rewrite compare_refl].
      apply Z.lt_le_incl, (sorted_before (concat ds0.*1 ++ kvs)); [by rewrite <-Ecat|apply elem_of_app; by right]. }
    { exists d, kv0. by split_and!. }
    exists b, k, (seps ++ [k]), es, points. split_and!; [|done|done|done|rewrite length_app; simpl; lia].
    rewrite (ix_last _ _ _ _ Hix), Eall, Ecat, last_snoc. simpl. by rewrite (bind_lift _ _ _ _ Ek). }
  pose proof (index_weight seps' ds (sep_length _ _ _ Hsep) (ix_handles _ _ _ _ Hix)) as Hw.
  apply budget_bounds in Hb as [_ Hb]. pose proof (slen_nonneg pol_name).
  destruct (run_WriteBlock 1 b es points (put_index b k r) Hi) as (f & h & more & Ew & W & Hlen & Hbh & Eh).
  { rewrite Ei. unfold weight in *. pow2. lia. }
  { apply Hf. }
  { cbn. by rewrite (fi_options _ _ _ _ Hf). }
  { cbn. by rewrite (fi_file _ _ _ _ Hf), (fi_offset _ _ _ _ Hf). }
  { cbn. rewrite (fi_offset _ _ _ _ Hf). change (2 ^ 60) with 1152921504606846976 in Ho. change (2 ^ 62) with 4611686018427387904. lia. }
  cbn [put_index tb_file] in W. rewrite (fi_file _ _ _ _ Hf) in W. rewrite Ei in Hlen, Hbh.
  eexists h, seps', more, _. split_and!.
  - unfold write_index. rewrite bind_get. bind_with E. rewrite bind_get. cbn [tb_index_block put_index].
    bind_with Ew. by erewrite bind_done by reflexivity.
  - done.
  - exact W.
  - cbn. by rewrite W.
  - unfold weight in *. change (2 ^ 33) with 8589934592. pow2. lia.
  - by rewrite <-W.
  - done.
  - done.
Qed.

(** The last data block. *)
Lemma run_last_flush out ds seps cur r :
  building out ds seps cur r → entries_ok (all_of ds cur) →
  ∃ out' ds' r', tb_Flush r = Done (tt, r') ∧ building out' ds' seps [] r' ∧ concat ds'.*1 = all_of ds cur.
Proof.
  intros Hg (_ & _ & Hb). destruct (decide (cur = [])) as [->|Hne].
  - exists out, ds, r. split_and!; [|done|unfold all_of; by rewrite app_nil_r].
    destruct (bg_data _ _ _ _ _ Hg) as (es & points & Hd & Ecur).
    unfold tb_Flush. rewrite bind_get, (bg_closed _ _ _ _ _ Hg), (bg_status _ _ _ _ _ Hg), (builds_empty _ _ _ _ Hd).
    rewrite bind_assert by done. by rewrite Ecur.
  - destruct (run_tb_Flush _ _ _ _ _ Hg Hne Hb) as (more & h & r' & E & Hg').
    eexists _, _, r'. split_and!; [exact E|exact Hg'|].
    rewrite <-(all_of_flush ds cur h). unfold all_of. by rewrite app_nil_r.
Qed.

Definition put_closed r : TableBuilder F :=
  MkBuilder (tb_options r) (tb_index_block_options r) (tb_file r) (tb_offset r) (tb_status r)
    (tb_data_block r) (tb_index_block r) (tb_last_key r) (tb_num_entries r) true
    (tb_filter_block r) (tb_pending_index_entry r) (tb_pending_handle r).

Lemma building_finishing out ds seps r :
  building out ds seps [] r → table_budget (all_of ds []) → finishing out ds seps (put_closed r).
Proof.
  intros Hg Hb. pose proof (building_indexed _ _ _ _ _ Hg Hb) as Hix.
  pose proof Hg as [B1 B2 B3 B4 B5 B6 B7 B8 B9 B10 B11 B12 B13 B14 B15]. split; try done.
  - by destruct Hix.
  - unfold filters_inv in B15. cbn. destruct pol; [|by rewrite B15]. by destruct B15 as (b & fs & gs & q & -> & _).
Qed.

Lemma run_write_footer mh ih r :
  tb_status r = true → tb_offset r = slen (written (tb_file r)) → handle_ok mh → handle_ok ih →
  slen (written (tb_file r)) < 2 ^ 60 →
  ∃ f, write_footer mh ih r = Done (tt, put_out f (slen (written f)) r) ∧
    written f = written (tb_file r) ++ footer_bytes (MkFooter mh ih).
Proof.
  intros Hst Ho Hm Hi Hl. destruct (run_file_Append (footer_bytes (MkFooter mh ih)) r) as (f & E & W).
  exists f. split; [|exact W]. unfold write_footer.
  rewrite (bind_lift _ (footer_bytes (MkFooter mh ih))) by (by rewrite run_footer_EncodeTo).
  bind_with E. cbv iota. rewrite bind_get. cbn [tb_offset put_out].
  assert (slen (written f) = slen (written (tb_file r)) + 48) as El.
  { rewrite W, slen_app. unfold slen at 2. by rewrite length_footer_bytes. }
  assert (slen (footer_bytes (MkFooter mh ih)) = 48) as Ef by (unfold slen; by rewrite length_footer_bytes).
  rewrite Ho, Ef, wrapu_small; [|pose proof (slen_nonneg (written (tb_file r)))].
  - by rewrite El.
  - change (2 ^ 60) with 1152921504606846976 in Hl. pow2. lia.
Qed.

Lemma block_handle_ok out h kvs : block_at_handle out h kvs → slen out < 2 ^ 63 → handle_ok h.
Proof. intros (es & pts & Hs & _) Hl. eapply stored_handle_ok; [exact Hs|]. pow2. lia. Qed.

Lemma run_tb_Finish out ds seps cur r :
  building out ds seps cur r → entries_ok (all_of ds cur) →
  ∃ r' ds' seps' ft, tb_Finish r = Done (true, r') ∧ FileSize r' = slen (written (tb_file r')) ∧
    table_layout pol (written (tb_file r')) ds' seps' ft ∧ concat ds'.*1 = all_of ds cur.
Proof.
  intros Hg Hok. destruct (run_last_flush _ _ _ _ _ Hg Hok) as (out1 & ds1 & r1 & E1 & Hg1 & Eall).
  rewrite <-Eall in Hok. pose proof Hok as (Hs & Hall & Hb).
  assert (all_of ds1 [] = concat ds1.*1) as Ea by (unfold all_of; by rewrite app_nil_r).
  pose proof (out_bound _ _ _ _ _ Hg1 ltac:(by rewrite Ea)) as [_ Ho1].
  pose proof (building_finishing _ _ _ _ Hg1 ltac:(by rewrite Ea)) as Hf1.
  destruct (run_write_filter_block out1 ds1 seps (put_closed r1) Hf1) as (fh & m2 & r2 & E2 & Hf2 & Hm2 & Hfs).
  { apply (bg_filter _ _ _ _ _ Hg1). }
  { done. } { done. } { apply (bg_size _ _ _ _ _ Hg1). } { eapply laid_count, (bg_laid _ _ _ _ _ Hg1). }
  change (2 ^ 33) with 8589934592 in Ho1, Hm2. pose proof (budget_bounds _ Hb) as [Hw0 Hbb].
  assert (slen (out1 ++ m2) < 2 ^ 35) as Ho2 by (rewrite slen_app; change (2 ^ 35) with 34359738368; lia).
  change (2 ^ 35) with 34359738368 in Ho2.
  destruct (run_write_metaindex _ _ _ _ fh Hf2) as (mh & m3 & r3 & E3 & Hf3 & Hm3 & Hmb).
  { pow2. lia. } { change (2 ^ 60) with 1152921504606846976. lia. }
  { intros Hne. unfold filter_stored in Hfs. destruct pol as [l|]; [|done]. destruct Hfs as (fs & Hst & _).
    eapply stored_handle_ok; [exact Hst|]. pow2. lia. }
  change (2 ^ 33) with 8589934592 in Hm3.
  assert (slen ((out1 ++ m2) ++ m3) < 51539607552) as Ho3 by (rewrite slen_app; lia).
  destruct (run_write_index _ _ _ _ Hf3 Hok) as (ih & seps' & m4 & r4 & E4 & Hst4 & W4 & Hoff4 & Hm4 & Hib & Hsep & Hl).
  { change (2 ^ 60) with 1152921504606846976. lia. }
  change (2 ^ 33) with 8589934592 in Hm4. set (out4 := ((out1 ++ m2) ++ m3) ++ m4) in *.
  assert (slen out4 < 68719476736) as Ho4 by (unfold out4; rewrite slen_app; lia).
  assert (handle_ok mh) as Hmh by (eapply block_handle_ok; [exact Hmb|pow2; lia]).
  assert (handle_ok ih) as Hih by (eapply block_handle_ok; [exact Hib|pow2; lia]).
  destruct (run_write_footer mh ih r4 Hst4) as (f & E5 & W5).
  { by rewrite W4. } { done. } { done. } { rewrite W4. change (2 ^ 60) with 1152921504606846976. lia. }
  rewrite W4 in W5. eexists _, ds1, seps', (MkFooter mh ih). split_and!.
  - unfold tb_Finish. bind_with E1. rewrite bind_get, (bg_closed _ _ _ _ _ Hg1), bind_assert by done.
    erewrite bind_done by reflexivity. fold (put_closed r1).
    bind_with (if_ok_done _ _ _ _ (fi_status _ _ _ _ Hf1) E2). cbn [default from_option].
    bind_with (if_ok_done _ _ _ _ (fi_status _ _ _ _ Hf2) E3). bind_with (if_ok_done _ _ _ _ (fi_status _ _ _ _ Hf3) E4).
    bind_with (if_ok_done _ _ _ _ Hst4 E5). by apply run_tb_ok.
  - done.
  - cbn [tb_file put_out]. rewrite W5. split; try done.
    + by eexists.
    + rewrite slen_app. unfold slen at 2. rewrite length_footer_bytes. pow2. lia.
    + unfold out4. rewrite <-!app_assoc. apply laid_app. apply Hg1.
    + apply block_at_app, Hib.
    + unfold filter_stored, meta_entries in *. destruct pol as [l|]; [|done]. destruct Hfs as (fs & Hst & Hfl & Hfi).
      exists fh, fs. split_and!; [eapply stored_handle_ok; [exact Hst|pow2; lia]| | |done|done].
      * apply block_at_app. unfold out4. by apply block_at_app.
      * unfold out4. rewrite <-!app_assoc, app_assoc. by apply stored_app.
  - done.
Qed.

(** ** The whole file *)

Lemma run_build_table f kvs :
  written f = [] → entries_ok kvs →
  ∃ r0 r ds seps ft, new_TableBuilder opts f = Done r0 ∧
    (add_entries kvs;; tb_Finish) r0 = Done (true, r) ∧ FileSize r = slen (written (tb_file r)) ∧
    table_layout pol (written (tb_file r)) ds seps ft ∧ concat ds.*1 = kvs.
Proof.
  intros Hf Hok. destruct (run_new_TableBuilder f Hf) as (r0 & E0 & Hg0).
  destruct (run_add_entries kvs _ _ _ _ _ Hg0 Hok) as (out & ds & seps & cur & r1 & E1 & Hg1 & Ea).
  destruct (run_tb_Finish _ _ _ _ _ Hg1) as (r & ds' & seps' & ft & E2 & Hsize & Hlay & Ea').
  { by rewrite Ea. }
  exists r0, r, ds', seps', ft. split_and!; [done|by bind_with E1|done|done|]. by rewrite Ea', Ea.
Qed.
End building.

(** ** Options that change *)

(** The interval between restarts can be changed while a table is built, and a smaller
    one is used at once: the assertion of [BlockBuilder::Add] fails when the block that
    is being made already has more entries since its last restart. *)
Theorem smaller_interval_asserts :
  let opts n := MkOptions 0 false 4096 n kNoCompression None in
  let add k := tb_Add (UC := bytewise_compare) (H := bytewise_separators) [k] [] in
  ∃ r0, new_TableBuilder (opts 16) ([] : list Z) = Done r0 ∧
    (let run := add 97;; add 98;; add 99;; add 100 in if run r0 is Done _ then True else False) ∧
    (add 97;; add 98;; add 99;; ChangeOptions (opts 2);; add 100) r0 = Undef.
Proof.
  cbv zeta. eexists. split; [vm_compute; reflexivity|]. split; [by vm_compute|vm_compute; reflexivity].
Qed.
