(* ===== verification/LdbTableSpec.v ===== *)
(** * leveldb: tables are read back

    A table that is opened over the layout of the builder is a cursor in all its entries,
    with or without a block cache that keeps its contract, and a lookup is not misled by
    the filter. The two-level iterator, the block iterators, the filter reader and the
    handles meet here; each of them is used by its contract. *)
From stdpp Require Import sorting.
From S2P Require Import Prelude LdbCoding LdbLog LdbLogSpec SkipList SkipListSpec LdbFormat LdbFilter LdbFilterSpec LdbIterator LdbBlock LdbBlockSpec LdbMerger LdbMergerSpec LdbTwoLevel LdbTwoLevelSpec LdbTableFormat LdbTableBuilder LdbTable LdbTableFormatSpec LdbTableBuilderSpec.

(** ** The contract of the block cache

    [cached k key b]: a lookup of the key may give the block. *)
Class BlockCacheLaws (K : Type) `{BlockCache K} := {
  cached : K → list Z → Block → Prop;
  last_id : K → Z;
  last_id_nonneg k : 0 ≤ last_id k;
  NewId_law k : last_id k + 1 < 2 ^ 64 → ∃ k', cache_NewId k = Done (last_id k + 1, k') ∧
    last_id k' = last_id k + 1 ∧ ∀ key b, cached k' key b → cached k key b;
  Lookup_law key k : ∃ r k', cache_Lookup key k = Done (r, k') ∧ last_id k' = last_id k ∧
    (∀ b, r = Some b → cached k key b) ∧ ∀ key' b, cached k' key' b → cached k key' b;
  Insert_law key b charge k : ∃ k', cache_Insert key b charge k = Done (tt, k') ∧
    last_id k' = last_id k ∧
    ∀ key' b', cached k' key' b' → key' = key ∧ b' = b ∨ cached k key' b';
}.

(** The keys that tables use. *)
Definition cache_key (id offset : Z) : list Z := EncodeFixed64 id ++ EncodeFixed64 offset.

Lemma fixed64_inj a b l l' :
  0 ≤ a < 2 ^ 64 → 0 ≤ b < 2 ^ 64 → EncodeFixed64 a ++ l = EncodeFixed64 b ++ l' → a = b.
Proof.
  intros Ha Hb E. pose proof (fixed64_get_put a l Ha) as E1.
  rewrite E, (fixed64_get_put b l' Hb) in E1. congruence.
Qed.

Lemma cache_key_inj id off id' off' :
  0 ≤ id < 2 ^ 64 → 0 ≤ id' < 2 ^ 64 → 0 ≤ off < 2 ^ 64 → 0 ≤ off' < 2 ^ 64 →
  cache_key id off = cache_key id' off' → id = id' ∧ off = off'.
Proof.
  intros Hi Hi' Ho Ho' E. pose proof (fixed64_inj _ _ _ _ Hi Hi' E) as <-. split; [done|].
  apply app_inv_head in E. apply (fixed64_inj off off' [] []); by rewrite ?app_nil_r.
Qed.

(** The ids in the keys of a cache were given by it. *)
Definition ids_issued `{BlockCacheLaws K} (k : K) : Prop :=
  last_id k < 2 ^ 64 ∧
  ∀ key b, cached k key b → ∃ id off, key = cache_key id off ∧ 0 ≤ id ≤ last_id k ∧ 0 ≤ off < 2 ^ 64.

(** ** Iterators of blocks *)

Section block_iter.
Context `{UC : Comparator (list Z)} `{CL : !ComparatorLaws (list Z)}.

Definition block_of (es : list block_entry) (points : list nat) : Block :=
  MkBlock (block_bytes_of es points) (Z.of_nat (length (block_bytes_of es points)))
    (Z.of_nat (length (entries_bytes es))).

(** A block that holds the entries. *)
Definition block_has (kvs : entries) (b : Block) : Prop :=
  ∃ es points, block_wf es points ∧ kvs_of es = kvs ∧ b = block_of es points.

(** An iterator of such a block. *)
Definition block_it_at (kvs : entries) (p : option nat) (it : table_iter) : Prop :=
  ∃ es points, block_wf es points ∧ kvs_of es = kvs ∧
    ∃ o, it = BlockIt o ∧
      object_at (block_bytes_of es points) (Z.of_nat (length (entries_bytes es)))
        (Z.of_nat (length points)) (block_at es points) p o.

Lemma block_it_over kvs : keys_sorted kvs → iter_over table_iter_ops any_target kvs (block_it_at kvs).
Proof.
  intros Hs.
  assert (∀ es points, block_wf es points → kvs_of es = kvs →
    iter_over block_object_ops any_target kvs
      (object_at (block_bytes_of es points) (Z.of_nat (length (entries_bytes es)))
        (Z.of_nat (length points)) (block_at es points))) as HO.
  { intros es points Hw <-. by apply object_iter_over, block_iter_over. }
  assert (∀ (c : M block_object unit) e q es points o, block_wf es points → kvs_of es = kvs →
    (∃ o', c o = Done (tt, o') ∧ object_at (block_bytes_of es points) (Z.of_nat (length (entries_bytes es)))
        (Z.of_nat (length points)) (block_at es points) q o') →
    ∃ it', on_block_it e c (BlockIt o) = Done (tt, it') ∧ block_it_at kvs q it') as Hmove.
  { intros c e q es points o Hw Ek (o' & E & Ho'). exists (BlockIt o'). cbn [on_block_it]. rewrite E.
    split; [done|]. exists es, points. split_and!; [done..|]. by exists o'. }
  split; cbn [table_iter_ops i_Valid i_SeekToFirst i_SeekToLast i_Seek i_Next i_Prev i_key i_value].
  - intros p s (es & points & Hw & Ek & o & -> & Ho). by apply (io_valid _ _ _ _ (HO _ _ Hw Ek) _ _ Ho).
  - intros i s (es & points & Hw & Ek & o & -> & Ho). by apply (io_bound _ _ _ _ (HO _ _ Hw Ek) _ _ Ho).
  - intros i s k v (es & points & Hw & Ek & o & -> & Ho) E.
    destruct (io_entry _ _ _ _ (HO _ _ Hw Ek) _ _ _ _ Ho E) as [E1 E2]. cbn [on_block_it]. by rewrite E1, E2.
  - intros p s (es & points & Hw & Ek & o & -> & Ho). eapply Hmove; [done..|].
    by apply (io_first _ _ _ _ (HO _ _ Hw Ek) _ _ Ho).
  - intros p s (es & points & Hw & Ek & o & -> & Ho). eapply Hmove; [done..|].
    by apply (io_last _ _ _ _ (HO _ _ Hw Ek) _ _ Ho).
  - intros p s target (es & points & Hw & Ek & o & -> & Ho) HT. eapply Hmove; [done..|].
    by apply (io_seek _ _ _ _ (HO _ _ Hw Ek) _ _ target Ho).
  - intros i s (es & points & Hw & Ek & o & -> & Ho). eapply Hmove; [done..|].
    by apply (io_next _ _ _ _ (HO _ _ Hw Ek) _ _ Ho).
  - intros i s (es & points & Hw & Ek & o & -> & Ho). eapply Hmove; [done..|].
    by apply (io_prev _ _ _ _ (HO _ _ Hw Ek) _ _ Ho).
Qed.

Lemma block_it_status kvs p it : block_it_at kvs p it → i_status it = None.
Proof.
  intros (es & points & Hw & Ek & o & -> & (_ & _ & _ & Hp)). cbn. by eapply block_at_status.
Qed.

Lemma run_block_NewIterator kvs b :
  block_has kvs b → ∃ it, block_NewIterator b = Some it ∧ block_it_at kvs None it.
Proof.
  intros (es & points & Hw & Ek & ->). destruct (run_open_block es points Hw) as [_ Ei].
  eexists. unfold block_NewIterator, block_of. rewrite Ei. split; [done|].
  exists es, points. split_and!; [done..|]. eexists. split; [done|]. done.
Qed.

(** The only entry is found by its key. *)
Lemma seek_only key value it :
  block_it_at [(key, value)] None it →
  ∃ it', i_Seek key it = Done (tt, it') ∧
    i_Valid it' = true ∧
    i_key it' = Done (key, it') ∧
    i_value it' = Done (value, it').
Proof.
  intros Hit. assert (keys_sorted [(key, value)]) as Hs by repeat constructor.
  pose proof (block_it_over [(key, value)] Hs) as HO.
  destruct (io_seek _ _ _ _ HO _ _ key Hit Logic.I) as (it' & E & Hit'). exists it'.
  assert (lower_bound [(key, value)] key = O) as El.
  { unfold lower_bound, below. simpl. by rewrite compare_refl. }
  rewrite El in Hit'. change (at_pos _ 0) with (Some O) in Hit'. split_and!; [done| | |].
  - by rewrite (io_valid _ _ _ _ HO _ _ Hit').
  - by apply (io_entry _ _ _ _ HO O it' key value Hit').
  - by apply (io_entry _ _ _ _ HO O it' key value Hit').
Qed.
End block_iter.

Lemma run_new_Block `{Snappy} out h kvs :
  block_at_handle out h kvs → ∃ raw b, stored_at out h raw ∧ new_Block raw = Some b ∧ block_has kvs b.
Proof.
  intros (es & points & Hs & Hw & Ek). exists (block_bytes_of es points), (block_of es points).
  split_and!; [done| |by exists es, points].
  by apply (run_open_block (UC := bytewise_compare) es points Hw).
Qed.

(** ** A layout that is open *)

Section layout.
Context `{UC : Comparator (list Z)} `{CL : !ComparatorLaws (list Z)} `{Sep : Separators} `{SL : !SeparatorLaws}.
Context {F : Type} `{RF : RandomAccessFile F} `{RR : !ReliableRandomAccess F} `{SN : Snappy}.
Context {K : Type} `{BC : BlockCache K} `{BL : !BlockCacheLaws K}.
Variables (pol : option lawful_policy) (out : list Z) (ds : blocks) (seps : list (list Z)) (ft : Footer).
Hypothesis Hlay : table_layout pol out ds seps ft.
Hypothesis Hsorted : keys_sorted (concat ds.*1).
Implicit Types (e : TableEnv F K).

Abbreviation idx := (index_of seps ds).
Abbreviation all := (concat ds.*1).

Lemma idx_lookup i k h :
  idx !! i = Some (k, h) ↔ ∃ d, seps !! i = Some k ∧ ds !! i = Some d ∧ h = handle_bytes d.2.
Proof.
  unfold index_of. rewrite lookup_zip_with_Some. split.
  - intros (k' & d & [= -> ->] & Ek & Ed). by exists d.
  - intros (d & Ek & Ed & ->). by exists k, d.
Qed.
Lemma idx_length : length idx = length ds.*1.
Proof. unfold index_of. rewrite length_zip_with, length_fmap, (tl_count _ _ _ _ _ Hlay). lia. Qed.

Lemma block_handle d : d ∈ ds → handle_ok d.2.
Proof.
  intros Hd. destruct (laid_block _ _ (tl_laid _ _ _ _ _ Hlay) d Hd) as [(es & pts & Hs & _) _].
  eapply stored_handle_ok; [exact Hs|]. pose proof (tl_size _ _ _ _ _ Hlay) as Hl. pow2. lia.
Qed.

(** A block is at one place. *)
Lemma block_place i j d d' :
  ds !! i = Some d → ds !! j = Some d' → offset_ d.2 = offset_ d'.2 → i = j.
Proof.
  intros Ei Ej Eo. pose proof (laid_order _ _ (tl_laid _ _ _ _ _ Hlay)) as Ho.
  destruct (Nat.lt_trichotomy i j) as [Hij|[->|Hij]]; [|done|].
  - pose proof (Ho _ _ _ _ Ei Ej Hij). lia.
  - pose proof (Ho _ _ _ _ Ej Ei Hij). lia.
Qed.

Lemma block_sorted i kvs : ds.*1 !! i = Some kvs → keys_sorted kvs.
Proof.
  intros E. pose proof Hsorted as Hs. unfold keys_sorted in Hs. rewrite (concat_split _ _ _ E) in Hs.
  by apply StronglySorted_app_1_r, StronglySorted_app_1_l in Hs.
Qed.

Lemma idx_below i k h kvs kv :
  idx !! i = Some (k, h) → ds.*1 !! i = Some kvs → kv ∈ kvs → compare_ kv.1 k ≤ 0.
Proof.
  intros (d & Ek & Ed & _)%idx_lookup E Hin. rewrite list_lookup_fmap, Ed in E. injection E as <-.
  by eapply (sep_below _ _ _ (tl_separated _ _ _ _ _ Hlay)).
Qed.
Lemma idx_above i j k h kvs kv :
  idx !! i = Some (k, h) → (i < j)%nat → ds.*1 !! j = Some kvs → kv ∈ kvs → compare_ k kv.1 < 0.
Proof.
  intros (d & Ek & Ed & _)%idx_lookup Hij E Hin. apply list_lookup_fmap_Some in E as (d' & -> & Ed').
  by eapply (sep_above _ _ _ (tl_separated _ _ _ _ _ Hlay)).
Qed.

Lemma idx_sorted : keys_sorted idx.
Proof.
  apply sorted_of_lookup. intros i j [k h] [k' h'] Ei Ej Hij. cbn [fst].
  pose proof Ej as (d & _ & Ed & _)%idx_lookup.
  destruct (laid_block _ _ (tl_laid _ _ _ _ _ Hlay) d) as [_ Hne]; [by eapply list_elem_of_lookup_2|].
  assert (∃ kv, kv ∈ d.1) as [kv Hin] by (destruct d.1 as [|kv ?]; [done|]; exists kv; left).
  assert (ds.*1 !! j = Some d.1) as E by (by rewrite list_lookup_fmap, Ed).
  pose proof (idx_above _ _ _ _ _ _ Ei Hij E Hin). pose proof (idx_below _ _ _ _ _ Ej E Hin).
  by eapply compare_lt_le_trans.
Qed.

(** ** The environment *)

(** What others may have in the cache, and its last id, when there is a cache: a table that
    is open leaves them. *)
Variables (others : list Z → Block → Prop) (last : option Z).

(** The file is the layout; what the cache may give for a block of the table is the
    block; the other keys are those of others. *)
Definition cache_ok (id : Z) (k : K) : Prop :=
  ids_issued k ∧ 0 ≤ id ≤ last_id k ∧
  (∀ d b, d ∈ ds → cached k (cache_key id (offset_ d.2)) b → block_has d.1 b) ∧ last = Some (last_id k) ∧
  ∀ key b, cached k key b → (∃ off, 0 ≤ off < 2 ^ 64 ∧ key = cache_key id off) ∨ others key b.
Definition env_ok (id : Z) e : Prop :=
  file_contents (te_file e) = out ∧ match te_cache e with None => last = None | Some k => cache_ok id k end.

Lemma run_file_block id e verify h raw :
  env_ok id e → stored_at out h raw →
  ∃ c e', on_file (ReadBlock verify h) e = Done (inr c, e') ∧ bc_data c = raw ∧ env_ok id e' ∧ te_cache e' = te_cache e.
Proof.
  intros [Hf Hc] Hs.
  destruct (run_ReadBlock out h raw verify (te_file e) Hs Hf) as (c & f & E & Ec & Ef).
  { pose proof (tl_size _ _ _ _ _ Hlay) as Hl. pow2. lia. }
  exists c, (MkTableEnv f (te_cache e)). unfold on_file. rewrite E. split_and!; [done|done| |done]. by split.
Qed.

Lemma run_read_block id e ro d :
  env_ok id e → d ∈ ds →
  ∃ b cachable e', read_block ro d.2 e = Done (inr (b, cachable), e') ∧ block_has d.1 b ∧
    env_ok id e' ∧ te_cache e' = te_cache e.
Proof.
  intros He Hd. destruct (laid_block _ _ (tl_laid _ _ _ _ _ Hlay) d Hd) as [Hb _].
  destruct (run_new_Block _ _ _ Hb) as (raw & b & Hs & Eb & Hhas).
  destruct (run_file_block id e (ropt_verify_checksums ro) d.2 raw He Hs) as (c & e' & E & Ec & He').
  exists b, (bc_cachable c), e'. split; [|done]. unfold read_block. bind_with E. rewrite Ec.
  by rewrite (bind_lift _ _ _ _ Eb).
Qed.

(** A block that was read may be kept. *)
Lemma cache_ok_insert id k k' d b :
  cache_ok id k → d ∈ ds → block_has d.1 b → last_id k' = last_id k →
  (∀ key b', cached k' key b' → key = cache_key id (offset_ d.2) ∧ b' = b ∨ cached k key b') →
  cache_ok id k'.
Proof.
  intros ((Hlt & Hids) & Hid & Hc & Hfl & Ho) Hd Hb El Hk.
  assert (∀ d', d' ∈ ds → 0 ≤ offset_ d'.2 < 2 ^ 64) as Hoff.
  { intros d' Hd'. destruct (block_handle d' Hd') as [? _]. lia. }
  split_and!; rewrite ?El; [split; rewrite ?El; [done|]|lia|lia| |done|].
  - intros key b' [[-> _]|Hin]%Hk; [|by eapply Hids]. exists id, (offset_ d.2). split_and!; try lia; [done|apply Hoff..]; done.
  - intros d' b' Hd' [[E ->]|Hin]%Hk; [|by eapply Hc].
    apply cache_key_inj in E as [_ Eo]; [|lia|lia|by apply Hoff|by apply Hoff].
    apply list_elem_of_lookup in Hd' as [i Ei], Hd as [j Ej].
    assert (i = j) as -> by (by eapply block_place). by simplify_eq.
  - intros key b' [[-> _]|Hin]%Hk; [left|by apply Ho]. exists (offset_ d.2). split; [by apply Hoff|done].
Qed.
Lemma cache_ok_sub id k k' :
  cache_ok id k → last_id k' = last_id k → (∀ key b, cached k' key b → cached k key b) → cache_ok id k'.
Proof.
  intros ((Hlt & Hids) & Hid & Hc & Hfl & Ho) El Hk. split_and!; rewrite ?El; [split; rewrite ?El; [done|]|lia|lia| |done|].
  - intros key b Hin. by eapply Hids, Hk.
  - intros d b Hd Hin. by eapply Hc, Hk.
  - intros key b Hin. by apply Ho, Hk.
Qed.

Lemma run_find_block t ro e d :
  env_ok (t_cache_id t) e → d ∈ ds →
  ∃ b e', find_block t ro d.2 e = Done (inr b, e') ∧ block_has d.1 b ∧ env_ok (t_cache_id t) e'.
Proof.
  intros He Hd. unfold find_block. cbv zeta. fold (cache_key (t_cache_id t) (offset_ d.2)).
  set (key := cache_key _ _). destruct (te_cache e) as [k|] eqn:Ek.
  2:{ erewrite bind_done by (unfold on_cache; by rewrite Ek).
      destruct (run_read_block _ e ro d He Hd) as (b & c & e' & E & Hb & He' & _).
      exists b, e'. split; [by bind_with E|done]. }
  destruct He as [Hf Hk]. rewrite Ek in Hk.
  destruct (Lookup_law key k) as (r & k1 & El & Eid & Hr & Hsub).
  erewrite bind_done by (unfold on_cache; by rewrite Ek, El). cbv beta.
  pose proof (cache_ok_sub _ _ _ Hk Eid Hsub) as Hk1. set (e1 := MkTableEnv (te_file e) (Some k1)).
  assert (env_ok (t_cache_id t) e1) as He1 by (by split). destruct r as [b|].
  { exists b, e1. split_and!; [done| |done]. destruct Hk as (_ & _ & Hc). apply Hc; [done|by apply Hr]. }
  destruct (run_read_block _ e1 ro d He1 Hd) as (b & c & e2 & E & Hb & He2 & Ec2). bind_with E. cbv beta iota.
  destruct (c && ropt_fill_cache ro); [|by exists b, e2].
  destruct (Insert_law key b (blk_size_ b) k1) as (k3 & Ei & Eid3 & Hin).
  exists b, (MkTableEnv (te_file e2) (Some k3)). split_and!; [|done|].
  - unfold on_cache at 1. run_unfold. cbn [te_cache e1] in Ec2. by rewrite Ec2, Ei.
  - split; [by destruct He2|]. cbn [te_cache]. by eapply cache_ok_insert.
Qed.

Lemma run_BlockReader t ro e d :
  env_ok (t_cache_id t) e → d ∈ ds →
  ∃ it e', BlockReader t ro (handle_bytes d.2) e = Done (it, e') ∧ block_it_at d.1 None it ∧ env_ok (t_cache_id t) e'.
Proof.
  intros He Hd. destruct (run_find_block t ro e d He Hd) as (b & e' & E & Hb & He').
  destruct (run_block_NewIterator _ _ Hb) as (it & Ei & Hi). exists it, e'. split_and!; [|done|done].
  unfold BlockReader. rewrite handle_decode_bytes by (by apply block_handle). cbv beta iota. bind_with E.
  by rewrite Ei.
Qed.

(** ** Opening *)

Definition filter_ok (f : option (FilterPolicy * FilterBlockReader)) : Prop :=
  match pol with
  | None => f = None
  | Some l => ∃ fs, f = Some (lp_policy l, MkFilterReader (filter_block fs) (Z.of_nat (length (concat fs)))
      (Z.of_nat (length fs)) 11) ∧ slen (filter_block fs) < 2 ^ 32 ∧ filtered l fs ds
  end.

Lemma run_ReadFilter id e opts l fh fs :
  env_ok id e → handle_ok fh → stored_at out fh (filter_block fs) → slen (filter_block fs) < 2 ^ 32 →
  ∃ e', ReadFilter opts (lp_named l) (handle_bytes fh) e =
      Done (Some (lp_policy l, MkFilterReader (filter_block fs) (Z.of_nat (length (concat fs)))
        (Z.of_nat (length fs)) 11), e') ∧ env_ok id e'.
Proof.
  intros He Hh Hs Hl. unfold ReadFilter. rewrite handle_decode_bytes by done. cbv beta iota.
  destruct (run_file_block id e (o_paranoid_checks opts) fh _ He Hs) as (c & e' & E & Ec & He' & _).
  exists e'. split; [|done]. bind_with E. cbv beta iota. rewrite Ec.
  by rewrite (bind_lift _ _ _ _ (run_new_reader fs Hl)).
Qed.

Lemma run_ReadMeta id e opts :
  o_filter_policy opts = lp_named <$> pol → env_ok id e →
  ∃ f e', ReadMeta opts ft e = Done (f, e') ∧ env_ok id e' ∧ filter_ok f.
Proof.
  intros Ho He. pose proof (tl_meta _ _ _ _ _ Hlay) as Hm. unfold ReadMeta, filter_ok. rewrite Ho.
  remember pol as p eqn:Ep in Hm |- *. destruct p as [l|]; [|by exists None, e]. destruct Hm as (fh & fs & Hfh & Hb & Hs & Hl & Hfs).
  cbn [fmap option_fmap option_map].
  destruct (run_new_Block _ _ _ Hb) as (raw & b & Hraw & Eb & Hhas).
  destruct (run_file_block id e (o_paranoid_checks opts) _ raw He Hraw) as (c & e1 & E1 & Ec & He1 & _).
  destruct (run_block_NewIterator (UC := bytewise_compare) _ _ Hhas) as (it & Ei & Hit).
  destruct (seek_only (UC := bytewise_compare) (CL := bytewise_laws) _ _ it Hit) as (it' & Es & Ev & Ek & Evl).
  destruct (run_ReadFilter id e1 opts l fh fs He1 Hfh Hs Hl) as (e2 & E2 & He2).
  eexists _, e2. split_and!; [|done|by exists fs].
  bind_with E1. cbv beta iota. rewrite Ec, (bind_lift _ _ _ _ Eb), (bind_lift _ _ _ _ Ei). cbv zeta.
  cbn [policy_name lp_named]. rewrite (bind_done _ _ _ _ _ Es), bind_get, Ev.
  rewrite (bind_done _ _ _ _ _ Ek), slice_eq_refl, (bind_done _ _ _ _ _ Evl). done.
Qed.

(** What [Open] gives. *)
Definition opened opts (t : Table) : Prop :=
  t_options t = opts ∧ t_metaindex_handle t = metaindex_handle_ ft ∧ block_has idx (t_index_block t) ∧
  filter_ok (t_filter t).
Definition env_fresh e : Prop :=
  file_contents (te_file e) = out ∧
  match te_cache e with
  | None => last = None
  | Some k => ids_issued k ∧ last_id k + 1 < 2 ^ 64 ∧ last = Some (last_id k + 1) ∧ ∀ key b, cached k key b → others key b
  end.

Lemma run_cache_id e :
  env_fresh e → ∃ id e', on_cache cache_NewId e = Done (id, e') ∧ env_ok (default 0 id) e' ∧ id = last.
Proof.
  intros [Hf Hc]. unfold on_cache. destruct (te_cache e) as [k|] eqn:Ek.
  2:{ exists None, e. split; [done|]. split; [|done]. split; [done|]. by rewrite Ek. }
  destruct Hc as ([_ Hids] & Hlast & Hfl & Ho). destruct (NewId_law k Hlast) as (k' & -> & El & Hsub).
  eexists (Some _), _. split; [done|]. split; [|by rewrite Hfl]. split; [done|]. cbn [te_cache default from_option].
  pose proof (last_id_nonneg k). unfold cache_ok, ids_issued. rewrite El. split_and!; [lia| |unfold id; lia..| |by subst|by right; apply Ho, Hsub].
  - intros key b Hin. destruct (Hids key b (Hsub _ _ Hin)) as (id & off & -> & Hid & Hoff).
    exists id, off. split_and!; [done|lia..].
  - intros d b Hd Hin. destruct (Hids _ b (Hsub _ _ Hin)) as (id & off & E & Hid & Hoff).
    destruct (block_handle d Hd) as [? _]. apply cache_key_inj in E as [E _]; [|unfold Datatypes.id in *; lia..].
    unfold Datatypes.id in E. lia.
Qed.

Lemma run_Open e opts :
  env_fresh e → o_filter_policy opts = lp_named <$> pol →
  ∃ t e', Open opts (slen out) e = Done (inr t, e') ∧ opened opts t ∧ env_ok (t_cache_id t) e' ∧ t_cache_id t = default 0 last.
Proof.
  intros [Hf Hc] Ho. pose proof (tl_size _ _ _ _ _ Hlay) as Hsz. destruct (tl_footer _ _ _ _ _ Hlay) as [pre Epre].
  assert (slen out = slen pre + kEncodedLength) as El.
  { rewrite Epre, slen_app. unfold slen at 2. by rewrite length_footer_bytes. }
  pose proof (slen_nonneg pre) as Hpre. change kEncodedLength with 48 in El.
  unfold Open. change kEncodedLength with 48. rewrite (proj2 (Z.ltb_ge _ _)) by lia.
  destruct (file_Read_reliable (slen out - 48) 48 (te_file e)) as (b & f & E & Ef);
    [lia|done|rewrite Hf; lia|rewrite Hf; pow2; lia|].
  assert (take (Z.to_nat 48) (drop (Z.to_nat (slen out - 48)) (file_contents (te_file e))) = footer_bytes ft) as Et.
  { rewrite Hf, El, Epre. replace (Z.to_nat (_ - 48)) with (length pre) by (unfold slen; lia).
    rewrite drop_app_length. apply take_ge. by rewrite length_footer_bytes. }
  rewrite Et in E. set (e1 := MkTableEnv f (te_cache e)).
  assert (env_fresh e1) as He1 by (by split; [rewrite <-Hf|]).
  erewrite bind_done by (unfold on_file; by rewrite E). cbv beta iota.
  pose proof (run_footer_DecodeFrom ft [] (tl_footer_ok _ _ _ _ _ Hlay) ltac:(done)) as Ed.
  rewrite app_nil_r in Ed. rewrite (bind_lift _ _ _ _ Ed). cbv beta iota.
  destruct (run_new_Block _ _ _ (tl_index _ _ _ _ _ Hlay)) as (raw & ib & Hs & Eb & Hib).
  destruct (run_ReadBlock out _ raw (o_paranoid_checks opts) f Hs) as (c & f2 & E2 & Ec & Ef2).
  { congruence. } { pow2. lia. }
  set (e2 := MkTableEnv f2 (te_cache e)).
  assert (env_fresh e2) as He2 by (by split).
  erewrite bind_done by (unfold on_file; cbn [te_file e1]; by rewrite E2). cbv beta iota. rewrite Ec, (bind_lift _ _ _ _ Eb).
  destruct (run_cache_id e2 He2) as (id & e3 & E3 & He3 & Eid). bind_with E3.
  destruct (run_ReadMeta _ e3 opts Ho He3) as (flt & e4 & E4 & He4 & Hflt). bind_with E4.
  eexists _, e4. split; [done|]. split_and!; [by split|done|by rewrite <-Eid].
Qed.

(** ** The iterator *)

Section opened.
Variables (opts : Options) (t : Table) (ro : ReadOptions).
Hypothesis Hopen : opened opts t.

Lemma table_index_over : iter_over table_iter_ops any_target idx (block_it_at idx).
Proof. apply block_it_over, idx_sorted. Qed.

(** The iterators of a block. *)
Definition data_it_at (i : nat) : option nat → table_iter → Prop := block_it_at (default [] (ds.*1 !! i)).
Lemma data_it_over i kvs :
  ds.*1 !! i = Some kvs → iter_over table_iter_ops any_target kvs (data_it_at i) ∧
    ∀ p it, data_it_at i p it → i_status it = None.
Proof.
  intros E. unfold data_it_at. rewrite E. split; [by eapply block_it_over, block_sorted|].
  intros p it. apply block_it_status.
Qed.

Lemma idx_read i k h e :
  idx !! i = Some (k, h) → env_ok (t_cache_id t) e →
  ∃ it e', BlockReader t ro h e = Done (it, e') ∧ data_it_at i None it ∧ env_ok (t_cache_id t) e'.
Proof.
  intros (d & _ & Ed & ->)%idx_lookup He. unfold data_it_at. rewrite list_lookup_fmap, Ed.
  apply run_BlockReader; [done|by eapply list_elem_of_lookup_2].
Qed.

Lemma idx_handles i j a b :
  idx !! i = Some a → idx !! j = Some b → slice_compare a.2 b.2 = 0 → i = j.
Proof.
  destruct a as [k h], b as [k' h'].
  intros (d & _ & Ed & ->)%idx_lookup (d' & _ & Ed' & ->)%idx_lookup E%slice_compare_eq.
  apply handle_bytes_inj in E; [|eapply block_handle, list_elem_of_lookup_2; eassumption..].
  eapply block_place; [done..|by rewrite E].
Qed.

Lemma run_table_NewIterator bound e :
  env_ok (t_cache_id t) e → Z.of_nat (length ds) + 1 < bound →
  ∃ it R, table_NewIterator t ro e = Done it ∧ R None it ∧
    iter_over (table_iterator_ops bound t ro) any_target all R ∧
    ∀ p it, R p it → tl_status it = None ∧ env_ok (t_cache_id t) (tl_arg_ it).
Proof.
  intros He Hbound. destruct Hopen as (_ & _ & Hib & _).
  destruct (run_block_NewIterator _ _ Hib) as (x & Ex & Hx). unfold table_NewIterator. rewrite Ex.
  destruct (new_tl_at any_target idx ds.*1 (block_it_at idx) data_it_at (env_ok (t_cache_id t))
    table_index_over x e Hx He) as (it & E & Hit).
  eexists it, _. split_and!; [done|exact Hit| |].
  - apply tl_iter_over; [apply table_index_over|apply idx_length|apply data_it_over| | | | |].
    + intros i k h a. apply idx_read.
    + apply idx_handles.
    + apply idx_below.
    + apply idx_above.
    + by rewrite length_fmap.
  - intros p it'. eapply tl_no_error; [apply data_it_over|]. intros q x'. apply block_it_status.
Qed.

(** ** Lookups *)

Lemma run_index_seek k e :
  ∃ it, index_seek t k e = Done (it, e) ∧ block_it_at idx (at_pos idx (lower_bound idx k)) it.
Proof.
  destruct Hopen as (_ & _ & Hib & _). destruct (run_block_NewIterator _ _ Hib) as (x & Ex & Hx).
  destruct (io_seek _ _ _ _ table_index_over _ _ k Hx Logic.I) as (it & Es & Hit).
  exists it. split; [|done]. unfold index_seek. by rewrite (bind_lift _ _ _ _ Ex), Es.
Qed.

(** No separator is between a lookup and the entry that it finds. *)
Lemma finds_target k kv sep :
  all !! lower_bound all k = Some kv → finds k kv.1 → sep ∈ seps → compare_ k sep ≤ 0 → compare_ kv.1 sep ≤ 0.
Proof.
  intros E Hf [i Ei]%list_elem_of_lookup_1 Hk.
  assert (∀ a, a ∈ all → compare_ k a.1 ≤ 0 → compare_ kv.1 a.1 ≤ 0) as Hfirst.
  { intros a [n En]%list_elem_of_lookup_1 Ha. destruct (decide (n = lower_bound all k)) as [->|Hne]; [simplify_eq; by rewrite compare_refl|].
    destruct (decide (n < lower_bound all k)%nat) as [Hlt|Hge].
    - pose proof (cut_below _ _ _ _ En Hlt) as Hb%Z.ltb_lt. apply compare_nlt_ge in Ha. lia.
    - apply Z.lt_le_incl, (sorted_lookup _ _ _ _ _ _ Hsorted E En). lia. }
  destruct (lookup_lt_is_Some_2 ds i) as [d Ed]; [rewrite <-(tl_count _ _ _ _ _ Hlay); by eapply lookup_lt_Some|].
  apply list_elem_of_lookup_2 in E as Hin. apply list_elem_of_concat in Hin as (kvs & Hkv & (e & -> & [j Ej]%list_elem_of_lookup_1)%list_elem_of_fmap).
  pose proof (tl_separated _ _ _ _ _ Hlay) as Hsep.
  destruct (decide (i < j)%nat) as [Hij|Hij].
  - destruct (sep_apart _ _ _ Hsep i j sep d e kv Ei Ed Ej Hij Hkv) as (a & Ha & Hap).
    eapply compare_trans; [|by apply (sep_below _ _ _ Hsep i sep d a)]. apply Hfirst; [|apply (Hap kv.1); [by rewrite compare_refl|done..]].
    apply list_elem_of_concat. exists d.1. split; [done|]. apply list_elem_of_fmap_2. by eapply list_elem_of_lookup_2.
  - destruct (decide (j = i)) as [->|Hne]; [simplify_eq; by apply (sep_below _ _ _ Hsep i sep d kv)|].
    destruct (laid_block _ _ (tl_laid _ _ _ _ _ Hlay) d) as [_ Hd]; [by eapply list_elem_of_lookup_2|].
    assert (∃ a, a ∈ d.1) as [a Ha] by (destruct d.1 as [|a ?]; [done|]; exists a; left).
    destruct (lookup_lt_is_Some_2 seps j) as [sj Esj]; [rewrite (tl_count _ _ _ _ _ Hlay); by eapply lookup_lt_Some|].
    eapply compare_trans; [by apply (sep_below _ _ _ Hsep j sj e kv)|]. apply Z.lt_le_incl.
    eapply compare_lt_le_trans; [by apply (sep_above _ _ _ Hsep j i sj d a); [..|lia|]|by apply (sep_below _ _ _ Hsep i sep d a)].
Qed.

(** The first entry that is not before a key is in the block that the index gives, when
    no separator is between them. *)
Lemma target_block k kv :
  all !! lower_bound all k = Some kv → (∀ sep, sep ∈ seps → compare_ k sep ≤ 0 → compare_ kv.1 sep ≤ 0) →
  ∃ sep d m, idx !! lower_bound idx k = Some (sep, handle_bytes d.2) ∧ ds !! lower_bound idx k = Some d ∧
    m = lower_bound d.1 k ∧ d.1 !! m = Some kv.
Proof.
  intros E Hsep.
  pose proof (lower_bound_all idx ds.*1 idx_length idx_below idx_above k) as Elb. cbv zeta in Elb.
  set (i := lower_bound idx k) in *. rewrite Elb in E.
  destruct (ds !! i) as [d|] eqn:Ed.
  2:{ rewrite list_lookup_fmap, Ed in E. simpl in E. apply lookup_lt_Some in E.
      rewrite offset_all in E by (rewrite length_fmap; by apply lookup_ge_None). lia. }
  rewrite list_lookup_fmap, Ed in E. cbn [fmap option_fmap option_map] in E.
  assert (∃ sep, seps !! i = Some sep) as [sep Es].
  { apply lookup_lt_is_Some_2. rewrite (tl_count _ _ _ _ _ Hlay). by eapply lookup_lt_Some. }
  assert (idx !! i = Some (sep, handle_bytes d.2)) as Ei by (apply idx_lookup; by exists d).
  exists sep, d, (lower_bound d.1 k). split_and!; [done..|].
  pose proof (cut_le (below k) d.1) as Hm. fold (lower_bound d.1 k) in Hm.
  assert (ds.*1 !! i = Some d.1) as Ed1 by (by rewrite list_lookup_fmap, Ed).
  destruct (decide (lower_bound d.1 k < length d.1)%nat) as [Hlt|Hge].
  - by rewrite (concat_lookup _ _ _ _ Ed1 Hlt) in E.
  - exfalso. apply concat_lookup_inv in E as (j & kvs & n & Ej & En & Epos).
    assert (i < j)%nat as Hij.
    { destruct (Nat.lt_ge_cases i j) as [|Hji]; [done|]. exfalso.
      apply lookup_lt_Some in En. apply Nat.le_lteq in Hji as [Hji| ->]; [|simplify_eq; lia].
      pose proof (offset_mono ds.*1 (S j) i Hji) as Ho. rewrite (concat_offset_S _ _ _ Ej) in Ho. lia. }
    assert (kv ∈ kvs) as Hin by (by eapply list_elem_of_lookup_2).
    pose proof (idx_above _ _ _ _ _ _ Ei Hij Ej Hin) as Hab.
    pose proof (cut_at _ _ _ Ei) as Hk%Z.ltb_ge. cbn [fst] in Hk.
    apply compare_nlt_ge in Hk. specialize (Hsep sep ltac:(by eapply list_elem_of_lookup_2) Hk).
    rewrite compare_nlt_ge in Hsep. lia.
Qed.

(** An entry that is found in the block of the index. *)
Lemma block_target k d m kv :
  ds !! lower_bound idx k = Some d → m = lower_bound d.1 k → d.1 !! m = Some kv →
  all !! lower_bound all k = Some kv.
Proof.
  intros Ed -> E.
  rewrite (lower_bound_all idx ds.*1 idx_length idx_below idx_above k).
  assert (ds.*1 !! lower_bound idx k = Some d.1) as Ed1 by (by rewrite list_lookup_fmap, Ed).
  rewrite Ed1, (concat_lookup _ _ _ _ Ed1); [done|by eapply lookup_lt_Some].
Qed.

(** The filter lets a key through where it lets the other through. *)
Definition filter_as (k k' : list Z) : Prop :=
  match pol with
  | None => True
  | Some l => ∀ f, @KeyMayMatch (lp_policy l) k' f = Some true → @KeyMayMatch (lp_policy l) k f = Some true
  end.
Definition lookup_key_ok (k : list Z) : Prop :=
  match pol with None => True | Some l => @filter_key _ (lp_laws l) k end.

Lemma run_filter_skips d k e :
  d ∈ ds → lookup_key_ok k →
  ∃ skip, filter_skips t (handle_bytes d.2) k e = Done (skip, e) ∧
    ∀ kv, kv ∈ d.1 → filter_as k kv.1 → skip = false.
Proof.
  intros Hd Hk. destruct Hopen as (_ & _ & _ & Hf). unfold filter_skips, filter_ok, filter_as, lookup_key_ok in *.
  remember pol as p eqn:Ep in Hf, Hk |- *. destruct p as [l|]; [|rewrite Hf; by exists false].
  destruct Hf as (fs & Ef & Hl & Hfs). rewrite Ef. rewrite handle_decode_bytes by (by apply block_handle).
  destruct (laid_block _ _ (tl_laid _ _ _ _ _ Hlay) d Hd) as [_ Hne].
  assert (∃ kv, kv ∈ d.1) as [kv0 Hin0] by (destruct d.1 as [|kv ?]; [done|]; exists kv; left).
  destruct (Hfs d kv0 Hd Hin0) as (f & Efs & _).
  destruct (@may_match_defined _ (lp_laws l) k f Hk) as [may Em].
  assert (0 ≤ offset_ d.2) as Hoff by (by destruct (block_handle d Hd) as [[? ?] ?]).
  pose proof (run_reader (H := lp_policy l) fs (offset_ d.2) f k Hl Hoff Efs) as Er. rewrite Em in Er.
  exists (negb may). split; [by rewrite (bind_lift _ _ _ _ Er)|].
  intros kv Hin Has. destruct (Hfs d kv Hd Hin) as (f' & Efs' & Hm). simplify_eq.
  apply Has in Hm. by rewrite Hm in Em; injection Em as <-.
Qed.

Lemma run_on_iter_block {A} (it it' : table_iter) (c : M table_iter A) a e :
  c it = Done (a, it') → on_iter (F := F) (K := K) it c e = Done (a, it', e).
Proof. intros E. unfold on_iter. by rewrite E. Qed.

Lemma run_block_get k e d :
  env_ok (t_cache_id t) e → d ∈ ds →
  ∃ e', block_get t ro (handle_bytes d.2) k e = Done (None, d.1 !! lower_bound d.1 k, e') ∧ env_ok (t_cache_id t) e'.
Proof.
  intros He Hd. pose proof Hd as [i Ei]%list_elem_of_lookup_1.
  assert (keys_sorted d.1) as Hs by (apply (block_sorted i); by rewrite list_lookup_fmap, Ei).
  destruct (run_BlockReader t ro e d He Hd) as (it & e' & Eb & Hit & He'). exists e'. split; [|done].
  pose proof (block_it_over _ Hs) as HO. destruct (io_seek _ _ _ _ HO _ _ k Hit Logic.I) as (it' & Es & Hit').
  unfold block_get. bind_with Eb. rewrite (bind_done _ _ _ _ _ (run_on_iter_block _ _ _ _ e' Es)).
  rewrite (io_valid _ _ _ _ HO _ _ Hit'), (block_it_status _ _ _ Hit'). unfold at_pos in *.
  destruct (Nat.ltb_spec (lower_bound d.1 k) (length d.1)) as [Hlt|Hge].
  - rewrite bool_decide_eq_true_2 by done. destruct (lookup_lt_is_Some_2 _ _ Hlt) as [[key value] E].
    destruct (io_entry _ _ _ _ HO _ _ _ _ Hit' E) as [Ek Ev].
    rewrite (bind_done _ _ _ _ _ (run_on_iter_block _ _ _ _ e' Ek)).
    rewrite (bind_done _ _ _ _ _ (run_on_iter_block _ _ _ _ e' Ev)).
    by rewrite (block_it_status _ _ _ Hit'), E.
  - rewrite bool_decide_eq_false_2 by (by intros [? ?]). by rewrite lookup_ge_None_2.
Qed.

Lemma run_InternalGet k e :
  env_ok (t_cache_id t) e → lookup_key_ok k →
  ∃ saved e', InternalGet t ro k e = Done (None, saved, e') ∧ env_ok (t_cache_id t) e' ∧
    (saved = None ∨ saved = all !! lower_bound all k) ∧
    ∀ kv, all !! lower_bound all k = Some kv → filter_as k kv.1 →
      (∀ sep, sep ∈ seps → compare_ k sep ≤ 0 → compare_ kv.1 sep ≤ 0) → saved = Some kv.
Proof.
  intros He Hk. destruct (run_index_seek k e) as (it & Es & Hit). unfold InternalGet. bind_with Es.
  set (i := lower_bound idx k) in *.
  rewrite (io_valid _ _ _ _ table_index_over _ _ Hit), (block_it_status _ _ _ Hit). unfold at_pos in *.
  destruct (Nat.ltb_spec i (length idx)) as [Hi|Hi].
  2:{ rewrite bool_decide_eq_false_2 by (by intros [? ?]).
      exists None, e. split_and!; [done|done|by left|]. intros kv E _ Hsep.
      destruct (target_block k kv E Hsep) as (sep & d & m & Ei & _). fold i in Ei. apply lookup_lt_Some in Ei. lia. }
  rewrite bool_decide_eq_true_2 by done.
  destruct (lookup_lt_is_Some_2 idx i Hi) as [[sep h] Ei].
  destruct (io_entry _ _ _ _ table_index_over _ _ _ _ Hit Ei) as [_ Ev].
  pose proof Ei as (d & _ & Ed & ->)%idx_lookup. assert (d ∈ ds) as Hd by (by eapply list_elem_of_lookup_2).
  rewrite (bind_done _ _ _ _ _ (run_on_iter_block _ _ _ _ e Ev)).
  destruct (run_filter_skips d k e Hd Hk) as (skip & Esk & Hskip). bind_with Esk.
  assert (∀ kv, all !! lower_bound all k = Some kv → (∀ sep, sep ∈ seps → compare_ k sep ≤ 0 → compare_ kv.1 sep ≤ 0) →
    d.1 !! lower_bound d.1 k = Some kv) as Hin.
  { intros kv E Hsep. destruct (target_block k kv E Hsep) as (sep' & d' & m & _ & Ed' & -> & Em).
    fold i in Ed'. by simplify_eq. }
  destruct skip.
  - rewrite (block_it_status _ _ _ Hit). exists None, e. split_and!; [done|done|by left|].
    intros kv E Has Hsep. specialize (Hin kv E Hsep). by specialize (Hskip kv ltac:(by eapply list_elem_of_lookup_2) Has).
  - rewrite (bind_done _ _ _ _ _ (run_on_iter_block _ _ _ _ e Ev)).
    destruct (run_block_get k e d He Hd) as (e' & Eb & He'). bind_with Eb. rewrite (block_it_status _ _ _ Hit).
    eexists _, e'. split_and!; [done|done| |by intros kv E _ Hsep; apply Hin].
    destruct (d.1 !! lower_bound d.1 k) as [kv|] eqn:E; [right|by left].
    symmetry. by eapply block_target.
Qed.
End opened.
End layout.

(** ** Comparators that separate *)

#[export] Instance bytewise_separator_laws : @SeparatorLaws bytewise_compare bytewise_separators.
Proof.
  refine {| table_key := Forall is_byte : list Z → Prop; finds := eq |}.
  - intros start limit Hs _ Hlt. destruct (separator_spec start limit Hs Hlt) as (H1 & H2 & H3).
    eexists. split_and!; [done|exact H1|exact H2|by apply separator_bytes|exact H3|].
    intros key ? Hk <- Hsep. pose proof (compare_le_lt_trans _ _ _ (compare_trans _ _ _ Hk Hsep) H2). pose proof (compare_refl limit). lia.
  - intros key Hk. destruct (successor_spec key Hk) as [H1 H2].
    eexists. split_and!; [done|exact H1|by apply successor_bytes|exact H2].
Defined.

(** A lookup of a user key is to find an entry of the same user key. *)
Definition same_user `{UC : Comparator (list Z)} (k key : list Z) : Prop :=
  ∃ u t u' t', k = u ++ EncodeFixed64 t ∧ key = u' ++ EncodeFixed64 t' ∧ 0 ≤ t < 2 ^ 64 ∧ 0 ≤ t' < 2 ^ 64 ∧ compare_ u u' = 0.

(** The internal keys whose user keys are compared by their bytes. *)
#[export] Instance internal_separator_laws :
  @SeparatorLaws (internal_comparator (UC := bytewise_compare)) (internal_separators (UC := bytewise_compare)).
Proof.
  refine {| table_key := λ k : list Z, ∃ u tag, k = u ++ EncodeFixed64 tag ∧ Forall is_byte u ∧ 0 ≤ tag < 2 ^ 64; finds := same_user |}.
  - intros ? ? (u & tag & -> & Hu & Ht) (u' & tag' & -> & _ & Ht') Hlt.
    destruct (internal_separator_law u tag u' tag' Hu Ht Ht' Hlt) as (sep & E & H1 & H2 & H3 & H4 & H5).
    exists sep. split_and!; [done..|]. intros ? ? Hk (v & t & v' & t' & -> & -> & Hvt & Hvt' & Ev). by eapply H5.
  - intros ? (u & tag & -> & Hu & Ht). by apply internal_successor_law.
Defined.

(** ** Theorems *)

(** A key that is there is at its lower bound. *)
Lemma lower_bound_in `{UC : Comparator (list Z)} `{!ComparatorLaws (list Z)} kvs kv :
  keys_sorted kvs → kv ∈ kvs → kvs !! lower_bound kvs kv.1 = Some kv.
Proof.
  intros Hs [n En]%list_elem_of_lookup_1.
  rewrite (lower_bound_unique kvs kv.1 n); [done|apply lookup_lt_Some in En; lia| |].
  - intros i kv' Ei Hi. by apply (sorted_lookup _ _ _ _ _ _ Hs Ei En).
  - intros kv' E. simplify_eq. by rewrite compare_refl.
Qed.

(** C5: a table is the sorted list of entries it was built from. The builder's assertions
    hold and it ends with the status OK; over any file with its bytes, with or without a
    block cache, the table opens; its iterator is a cursor in the entries; a lookup gives
    nothing or the first entry that is not before the key, and it gives the entry of each
    key that was added, whatever the filter policy is. The hypotheses bound the sizes to
    what fits in 32 bits. *)
Theorem table_refines `{UC : Comparator (list Z)} `{!ComparatorLaws (list Z)} `{Separators} `{!SeparatorLaws}
    {F} `{WritableFile F} `{!ReliableWritable F} `{Snappy} `{!SnappyLaws}
    {G} `{RandomAccessFile G} `{!ReliableRandomAccess G} {K} `{BlockCache K} `{!BlockCacheLaws K}
    opts pol (kvs : entries) (f : F) bound :
  o_filter_policy opts = lp_named <$> pol → 1 ≤ o_block_restart_interval opts →
  o_compression opts = kNoCompression ∨ o_compression opts = kSnappyCompression →
  written f = [] → entries_ok pol kvs → Z.of_nat (length kvs) + 1 < bound →
  ∃ r0 r, new_TableBuilder opts f = Done r0 ∧ (add_entries kvs;; tb_Finish) r0 = Done (true, r) ∧
    ∀ (e : TableEnv G K) last, env_fresh (written (tb_file r)) (λ _ _, True) last e →
      ∃ t e', Open opts (FileSize r) e = Done (inr t, e') ∧
        ∀ ro : ReadOptions,
          (∃ it R, table_NewIterator t ro e' = Done it ∧ R None it ∧
             iter_over (table_iterator_ops bound t ro) any_target kvs R ∧
             ∀ p it, R p it → tl_status it = None) ∧
          ∀ k, lookup_key_ok pol k →
            ∃ saved e'', InternalGet t ro k e' = Done (None, saved, e'') ∧
              (saved = None ∨ saved = kvs !! lower_bound kvs k) ∧
              ∀ v, (k, v) ∈ kvs → saved = Some (k, v).
Proof.
  intros Hpol Hint Hcomp Hf Hok Hbound.
  destruct (run_build_table opts pol Hpol Hint Hcomp f kvs Hf Hok) as (r0 & r & ds & seps & ft & E0 & E & Esz & Hl & Ec).
  exists r0, r. split_and!; [done..|]. intros e last He. subst kvs.
  pose proof (laid_count _ _ (tl_laid _ _ _ _ _ Hl)) as Hc. destruct Hok as (Hs & _ & _).
  destruct (run_Open pol _ ds seps ft Hl (λ _ _, True) last e opts He Hpol) as (t & e' & Eo & Hopen & He' & _).
  exists t, e'. rewrite Esz. split; [done|]. intros ro. split.
  - destruct (run_table_NewIterator pol _ ds seps ft Hl Hs (λ _ _, True) last opts t ro Hopen bound e' He') as (it & R & En & HR & HO & Hst); [lia|].
    exists it, R. split_and!; [done..|]. intros p it' Hp. by apply (Hst p it').
  - intros k Hk. destruct (run_InternalGet pol _ ds seps ft Hl Hs (λ _ _, True) last opts t ro Hopen k e' He' Hk) as (saved & e'' & Eg & _ & Hor & Hin).
    exists saved, e''. split_and!; [done..|]. intros v Hkv. apply (Hin (k, v)); [by apply (lower_bound_in _ (k, v))| |done].
    unfold filter_as. by destruct pol.
Qed.

(** ** Witness *)

#[local] Existing Instance bytewise_separators.

(** A cache that keeps nothing; its state is the last id. *)
#[local] Instance no_cache : BlockCache nat :=
  {| cache_NewId k := Done (Z.of_nat (S k), S k); cache_Lookup key k := Done (None, k);
     cache_Insert key b n k := Done (tt, k) |}.
#[local] Instance no_cache_laws : BlockCacheLaws nat.
Proof.
  refine {| cached k key b := False; last_id k := Z.of_nat k |}; [lia| | |].
  - intros k _. exists (S k). split_and!; [cbn; f_equal; f_equal; lia|lia|done].
  - intros key k. by exists None, k.
  - intros key b charge k. exists k. split_and!; [done..|by right].
Defined.

Definition example_table_kvs : entries :=
  [([97], [1]); ([97; 98], [2]); ([98], [3]); ([99; 0], [4]); ([100], [5])].
Definition example_bloom : lawful_policy :=
  MkLawful [98] (BloomFilterPolicy 10) (bloom_laws 10 ltac:(split; [done|by vm_compute])) ltac:(repeat constructor; unfold is_byte; lia).
Definition example_table_options : Options :=
  MkOptions 0 true 20 2 kNoCompression (Some (lp_named example_bloom)).

Lemma table_refines_witness :
  ∃ r0 r t e saved e',
    new_TableBuilder example_table_options ([] : list Z) = Done r0 ∧
    (add_entries example_table_kvs;; tb_Finish) r0 = Done (true, r) ∧
    InternalGet t (MkReadOptions true true) [98] e = Done (None, saved, e') ∧
    saved = Some ([98], [3]).
Proof.
  destruct (table_refines (G := PosixMmapReadableFile) (K := nat)
    example_table_options (Some example_bloom) example_table_kvs ([] : list Z) 10)
    as (r0 & r & E0 & E & Hopen).
  - done.
  - done.
  - by left.
  - done.
  - split_and!; [| |by vm_compute].
    + unfold example_table_kvs, keys_sorted. repeat constructor; vm_compute; reflexivity.
    + repeat constructor; simpl; unfold is_byte; lia.
  - by vm_compute.
  - destruct (Hopen (MkTableEnv (MkMmapFile "000005.ldb" (written (tb_file r))) (Some O)) (Some 1)) as (t & e' & _ & Hro).
    { split; [done|]. split; [split; [by vm_compute|done]|]. split_and!; [by vm_compute|done|done]. }
    destruct (Hro (MkReadOptions true true)) as [_ Hget].
    destruct (Hget [98]) as (saved & e'' & Eg & _ & Hin); [done|].
    exists r0, r, t, e', saved, e''. split_and!; [exact E0|exact E|exact Eg|]. apply Hin. apply list_elem_of_In. simpl. tauto.
Defined.
