(* ===== verification/LdbFileName.v ===== *)
(** * leveldb: numbers in names of files (util/logging.cc, db/filename.cc)

    The files of a database have names with a decimal number; [ParseFileName] is the
    inverse of the functions that make the names. *)
From Stdlib Require Import Ascii.
From S2P Require Import Prelude LdbFormat.

(** The bytes of a literal. *)
Definition bytes (s : string) : list Z := (λ c, Z.of_N (N_of_ascii c)) <$> String.list_ascii_of_string s.

(** ** Numbers *)

(** [snprintf] with ["%llu"]. *)
Fixpoint digits_from (fuel : nat) (n : Z) : list Z :=
  match fuel with
  | O => []
  | S fuel => (if n <? 10 then [] else digits_from fuel (n / 10)) ++ [48 + n `mod` 10]
  end.
Definition decimal (n : Z) : list Z := digits_from 20 n.
(** With ["%06llu"]. *)
Definition decimal6 (n : Z) : list Z := let d := decimal n in replicate (6 - length d) 48 ++ d.

Definition AppendNumberTo (str : list Z) (num : Z) : list Z := str ++ decimal num.
Definition NumberToString (num : Z) : list Z := AppendNumberTo [] num.

(** ["\\x%02x"] *)
Definition hex_digit (n : Z) : Z := if n <? 10 then 48 + n else 87 + n.
Definition AppendEscapedStringTo (str value : list Z) : list Z :=
  str ++ concat ((λ c, if (32 <=? c) && (c <=? 126) then [c]
                       else [92; 120; hex_digit (c / 16); hex_digit (c `mod` 16)]) <$> value).
Definition EscapeString (value : list Z) : list Z := AppendEscapedStringTo [] value.

Definition kMaxUint64 : Z := 2 ^ 64 - 1.

(** The number, whether there was a digit, and the rest; no value on overflow. *)
Fixpoint consume_digits (input : list Z) (v : Z) (digits : nat) : option (Z * nat * list Z) :=
  match input with
  | [] => Some (v, digits, [])
  | c :: rest =>
      if (48 <=? c) && (c <=? 57) then
        let delta := c - 48 in
        if (kMaxUint64 / 10 <? v) || ((v =? kMaxUint64 / 10) && (kMaxUint64 `mod` 10 <? delta)) then None
        else consume_digits rest (v * 10 + delta) (S digits)
      else Some (v, digits, input)
  end.
Definition ConsumeDecimalNumber (input : list Z) : option (Z * list Z) :=
  '(v, digits, rest) ← consume_digits input 0 O;
  if (0 <? digits)%nat then Some (v, rest) else None.

(** ** Names *)

Inductive FileType : Type :=
  | kLogFile | kDBLockFile | kTableFile | kDescriptorFile | kCurrentFile | kTempFile | kInfoLogFile.
#[export] Instance FileType_eq_dec : EqDecision FileType.
Proof. solve_decision. Defined.

Definition MakeFileName (name : list Z) (number : Z) (suffix : list Z) : list Z :=
  name ++ bytes "/" ++ decimal6 number ++ bytes "." ++ suffix.

(** No value when the assertion on the number fails. *)
Definition numbered (number : Z) (name : list Z) : option (list Z) := if 0 <? number then Some name else None.
Definition LogFileName (name : list Z) (number : Z) : option (list Z) :=
  numbered number (MakeFileName name number (bytes "log")).
Definition TableFileName (name : list Z) (number : Z) : option (list Z) :=
  numbered number (MakeFileName name number (bytes "ldb")).
Definition SSTTableFileName (name : list Z) (number : Z) : option (list Z) :=
  numbered number (MakeFileName name number (bytes "sst")).
Definition DescriptorFileName (dbname : list Z) (number : Z) : option (list Z) :=
  numbered number (dbname ++ bytes "/MANIFEST-" ++ decimal6 number).
Definition TempFileName (dbname : list Z) (number : Z) : option (list Z) :=
  numbered number (MakeFileName dbname number (bytes "dbtmp")).
Definition CurrentFileName (dbname : list Z) : list Z := dbname ++ bytes "/CURRENT".
Definition LockFileName (dbname : list Z) : list Z := dbname ++ bytes "/LOCK".
Definition InfoLogFileName (dbname : list Z) : list Z := dbname ++ bytes "/LOG".
Definition OldInfoLogFileName (dbname : list Z) : list Z := dbname ++ bytes "/LOG.old".

Definition ParseFileName (fname : list Z) : option (Z * FileType) :=
  if slice_eq fname (bytes "CURRENT") then Some (0, kCurrentFile)
  else if slice_eq fname (bytes "LOCK") then Some (0, kDBLockFile)
  else if slice_eq fname (bytes "LOG") || slice_eq fname (bytes "LOG.old") then Some (0, kInfoLogFile)
  else if starts_with fname (bytes "MANIFEST-") then
    '(num, rest) ← ConsumeDecimalNumber (drop (length (bytes "MANIFEST-")) fname);
    if bool_decide (rest = []) then Some (num, kDescriptorFile) else None
  else
    '(num, suffix) ← ConsumeDecimalNumber fname;
    if slice_eq suffix (bytes ".log") then Some (num, kLogFile)
    else if slice_eq suffix (bytes ".sst") || slice_eq suffix (bytes ".ldb") then Some (num, kTableFile)
    else if slice_eq suffix (bytes ".dbtmp") then Some (num, kTempFile)
    else None.

(** The contents of CURRENT for a descriptor; no value when an assertion fails. *)
Definition current_contents (dbname : list Z) (descriptor_number : Z) : option (list Z) :=
  manifest ← DescriptorFileName dbname descriptor_number;
  if starts_with manifest (dbname ++ bytes "/") then Some (drop (length dbname + 1) manifest ++ [10]) else None.

(** ** Digits *)

Definition is_digit (c : Z) : Prop := 48 ≤ c ≤ 57.
#[export] Instance is_digit_dec c : Decision (is_digit c) := _.

(** The number that digits say, after [v]. *)
Definition digits_value (ds : list Z) (v : Z) : Z := foldl (λ v c, v * 10 + (c - 48)) v ds.

Lemma digits_value_app a b v : digits_value (a ++ b) v = digits_value b (digits_value a v).
Proof. apply foldl_app. Qed.
Lemma digits_value_ge ds : ∀ v, Forall is_digit ds → 0 ≤ v → v ≤ digits_value ds v.
Proof.
  induction ds as [|c ds IH]; intros v Hd Hv; [done|]. apply Forall_cons in Hd as [Hc Hd]. unfold is_digit in Hc.
  cbn. specialize (IH (v * 10 + (c - 48)) Hd). unfold digits_value in IH. lia.
Qed.

Lemma digit_test c : (48 <=? c) && (c <=? 57) = bool_decide (is_digit c).
Proof. unfold is_digit. case_bool_decide; destruct (Z.leb_spec 48 c), (Z.leb_spec c 57); simpl; try done; lia. Qed.

(** The digits at the front are read as long as the number has 64 bits. *)
Lemma consume_digits_spec ds : ∀ rest v n,
  Forall is_digit ds → (∀ c, head rest = Some c → ¬ is_digit c) → 0 ≤ v ≤ kMaxUint64 →
  consume_digits (ds ++ rest) v n =
    if bool_decide (digits_value ds v ≤ kMaxUint64) then Some (digits_value ds v, (n + length ds)%nat, rest) else None.
Proof.
  induction ds as [|c ds IH]; intros rest v n Hd Hr Hv; cbn [app consume_digits length].
  - rewrite bool_decide_eq_true_2 by (cbn; lia). rewrite Nat.add_0_r.
    destruct rest as [|c rest]; [done|]. cbn [consume_digits].
    rewrite digit_test, bool_decide_eq_false_2 by (by apply Hr). done.
  - apply Forall_cons in Hd as [Hc Hd]. rewrite digit_test, bool_decide_eq_true_2 by done.
    unfold is_digit in Hc. cbv zeta.
    assert ((kMaxUint64 / 10 <? v) || ((v =? kMaxUint64 / 10) && (kMaxUint64 `mod` 10 <? c - 48)) =
      bool_decide (kMaxUint64 < v * 10 + (c - 48))) as ->.
    { unfold kMaxUint64 in *. change ((2 ^ 64 - 1) / 10) with 1844674407370955161. change ((2 ^ 64 - 1) `mod` 10) with 5.
      change (2 ^ 64 - 1) with 18446744073709551615 in *.
      case_bool_decide; destruct (Z.ltb_spec 1844674407370955161 v), (Z.eqb_spec v 1844674407370955161), (Z.ltb_spec 5 (c - 48));
        simpl; try done; lia. }
    change (digits_value (c :: ds) v) with (digits_value ds (v * 10 + (c - 48))). case_bool_decide as Hov.
    + pose proof (digits_value_ge ds (v * 10 + (c - 48)) Hd ltac:(lia)).
      by rewrite bool_decide_eq_false_2 by lia.
    + rewrite IH by (done || lia). by rewrite Nat.add_succ_r.
Qed.

Lemma digits_from_spec fuel : ∀ n, 0 ≤ n < 10 ^ Z.of_nat fuel →
  Forall is_digit (digits_from fuel n) ∧ digits_value (digits_from fuel n) 0 = n ∧ (fuel ≠ O → digits_from fuel n ≠ []).
Proof.
  induction fuel as [|fuel IH]; intros n Hn.
  - change (10 ^ Z.of_nat 0) with 1 in Hn. split_and!; [constructor|cbn; lia|done].
  - cbn [digits_from]. rewrite Nat2Z.inj_succ, Z.pow_succ_r in Hn by lia.
    assert (is_digit (48 + n `mod` 10)) as Hd by (unfold is_digit; zdiv).
    destruct (Z.ltb_spec n 10).
    + split_and!; [by apply Forall_singleton|cbn; zdiv|done].
    + destruct (IH (n / 10)) as (H1 & H2 & _); [zdiv|]. split_and!.
      * apply Forall_app. by split; [|apply Forall_singleton].
      * rewrite digits_value_app, H2. cbn. zdiv.
      * by destruct (digits_from fuel (n / 10)).
Qed.
Lemma decimal_spec n : 0 ≤ n < 2 ^ 64 →
  Forall is_digit (decimal n) ∧ digits_value (decimal n) 0 = n ∧ decimal n ≠ [].
Proof.
  intros Hn. destruct (digits_from_spec 20 n) as (H1 & H2 & H3).
  - change (10 ^ Z.of_nat 20) with 100000000000000000000. pow2. lia.
  - split_and!; [done|done|by apply H3].
Qed.
Lemma decimal6_spec n : 0 ≤ n < 2 ^ 64 →
  Forall is_digit (decimal6 n) ∧ digits_value (decimal6 n) 0 = n ∧ decimal6 n ≠ [].
Proof.
  intros Hn. destruct (decimal_spec n Hn) as (H1 & H2 & H3). unfold decimal6. split_and!.
  - apply Forall_app. split; [|done]. apply Forall_replicate. unfold is_digit. lia.
  - rewrite digits_value_app. assert (digits_value (replicate (6 - length (decimal n)) 48) 0 = 0) as ->; [|done].
    generalize (6 - length (decimal n))%nat. intros k. induction k as [|k IH]; [done|]. cbn. exact IH.
  - by destruct (replicate _ _), (decimal n).
Qed.

Lemma ConsumeDecimal_digits ds rest :
  Forall is_digit ds → (∀ c, head rest = Some c → ¬ is_digit c) →
  ConsumeDecimalNumber (ds ++ rest) =
    if bool_decide (ds ≠ [] ∧ digits_value ds 0 ≤ kMaxUint64) then Some (digits_value ds 0, rest) else None.
Proof.
  intros Hd Hr. unfold ConsumeDecimalNumber. rewrite consume_digits_spec by (done || by vm_compute).
  case_bool_decide as H1.
  - cbn [mbind option_bind]. destruct ds as [|c ds]; [by rewrite bool_decide_eq_false_2 by (by intros [? _])|].
    cbn [length Nat.add Nat.ltb Nat.leb]. by rewrite bool_decide_eq_true_2.
  - by rewrite bool_decide_eq_false_2 by (by intros [_ ?]).
Qed.

(** A string is its digits at the front and what follows. *)
Lemma digits_split s : ∃ ds rest, s = ds ++ rest ∧ Forall is_digit ds ∧ ∀ c, head rest = Some c → ¬ is_digit c.
Proof.
  induction s as [|c s (ds & rest & -> & Hd & Hr)]; [by exists [], []|].
  destruct (decide (is_digit c)) as [Hc|Hc].
  - exists (c :: ds), rest. split_and!; [done|by constructor|done].
  - exists [], (c :: ds ++ rest). split_and!; [done|constructor|]. by intros c' [= <-].
Qed.

(** ** Names are parsed *)

Lemma slice_eq_spec a b : slice_eq a b = bool_decide (a = b).
Proof.
  unfold slice_eq. revert b. induction a as [|x a IH]; intros [|y b]; cbn [length Nat.eqb memcmp]; try done.
  destruct (Z.eqb_spec x y) as [->|Hne].
  - rewrite (IH b). case_bool_decide as H1; case_bool_decide as H2; congruence.
  - rewrite (proj2 (Z.eqb_neq (x - y) 0)) by lia. rewrite andb_false_r. symmetry. apply bool_decide_eq_false. congruence.
Qed.

Lemma starts_with_app a b : starts_with (a ++ b) a = true.
Proof.
  unfold starts_with. rewrite length_app, (proj2 (Nat.leb_le _ _)) by lia. apply Z.eqb_eq.
  induction a as [|x a IH]; [by destruct b|]. cbn. by rewrite Z.eqb_refl.
Qed.

Lemma decimal6_first n : 0 ≤ n < 2 ^ 64 → ∃ c ds, decimal6 n = c :: ds ∧ is_digit c.
Proof.
  intros Hn. destruct (decimal6_spec n Hn) as (H1 & _ & H3). destruct (decimal6 n) as [|c ds]; [done|].
  apply Forall_cons in H1 as [Hc _]. by exists c, ds.
Qed.

Lemma consume_decimal6 n rest :
  0 ≤ n < 2 ^ 64 → (∀ c, head rest = Some c → ¬ is_digit c) →
  ConsumeDecimalNumber (decimal6 n ++ rest) = Some (n, rest).
Proof.
  intros Hn Hr. destruct (decimal6_spec n Hn) as (H1 & H2 & H3). rewrite ConsumeDecimal_digits by done.
  rewrite H2, bool_decide_eq_true_2; [done|]. split; [done|]. unfold kMaxUint64. lia.
Qed.

(** A name that starts with a digit is not a name with letters. *)
Lemma ParseFileName_digits n suffix :
  0 ≤ n < 2 ^ 64 →
  ParseFileName (decimal6 n ++ suffix) =
    '(num, suffix) ← ConsumeDecimalNumber (decimal6 n ++ suffix);
    if slice_eq suffix (bytes ".log") then Some (num, kLogFile)
    else if slice_eq suffix (bytes ".sst") || slice_eq suffix (bytes ".ldb") then Some (num, kTableFile)
    else if slice_eq suffix (bytes ".dbtmp") then Some (num, kTempFile)
    else None.
Proof.
  intros Hn. unfold ParseFileName. destruct (decimal6_first n Hn) as (c & ds & -> & Hc). unfold is_digit in Hc.
  rewrite !slice_eq_spec.
  assert (∀ d l, d ≠ c → bool_decide ((c :: ds) ++ suffix = d :: l) = false) as Hne.
  { intros d l Hd. apply bool_decide_eq_false. intros E. injection E as E _. congruence. }
  change (bytes "CURRENT") with (67 :: bytes "URRENT"). change (bytes "LOCK") with (76 :: bytes "OCK").
  change (bytes "LOG") with (76 :: bytes "OG"). change (bytes "LOG.old") with (76 :: bytes "OG.old").
  rewrite !Hne by lia. cbn [orb].
  assert (starts_with ((c :: ds) ++ suffix) (bytes "MANIFEST-") = false) as ->; [|done].
  unfold starts_with. change (bytes "MANIFEST-") with (77 :: bytes "ANIFEST-"). cbn [length memcmp app].
  rewrite (proj2 (Z.eqb_neq c 77)) by lia. rewrite (proj2 (Z.eqb_neq (c - 77) 0)) by lia. apply andb_false_r.
Qed.

Lemma ParseFileName_suffix n c suffix :
  0 ≤ n < 2 ^ 64 → ¬ is_digit c →
  ParseFileName (decimal6 n ++ c :: suffix) =
    if slice_eq (c :: suffix) (bytes ".log") then Some (n, kLogFile)
    else if slice_eq (c :: suffix) (bytes ".sst") || slice_eq (c :: suffix) (bytes ".ldb") then Some (n, kTableFile)
    else if slice_eq (c :: suffix) (bytes ".dbtmp") then Some (n, kTempFile)
    else None.
Proof.
  intros Hn Hc. rewrite ParseFileName_digits, consume_decimal6 by (done || (intros c'; cbn; congruence)). done.
Qed.

(** ** Theorems *)

(** The decimal number at the front of a string is read when it has a digit and fits in
    64 bits, leading zeros included, and nothing is read otherwise. *)
Theorem ConsumeDecimalNumber_spec s :
  ∃ ds rest, s = ds ++ rest ∧ Forall is_digit ds ∧ (∀ c, head rest = Some c → ¬ is_digit c) ∧
    ConsumeDecimalNumber s =
      if bool_decide (ds ≠ [] ∧ digits_value ds 0 ≤ kMaxUint64) then Some (digits_value ds 0, rest) else None.
Proof.
  destruct (digits_split s) as (ds & rest & -> & Hd & Hr). exists ds, rest. split_and!; [done..|].
  by apply ConsumeDecimal_digits.
Qed.

(** The name of each kind of numbered file, without the directory, is parsed as the
    number and the kind; the descriptor that CURRENT names is parsed too. *)
Theorem filename_roundtrip dbname n :
  0 < n < 2 ^ 64 →
  Forall (λ '(make, t), ∃ name, make dbname n = Some (dbname ++ bytes "/" ++ name) ∧ ParseFileName name = Some (n, t))
    [(LogFileName, kLogFile); (TableFileName, kTableFile); (SSTTableFileName, kTableFile);
     (TempFileName, kTempFile); (DescriptorFileName, kDescriptorFile)] ∧
  ∃ name, current_contents dbname n = Some (name ++ bytes (String (Ascii.ascii_of_nat 10) "")) ∧
    ParseFileName name = Some (n, kDescriptorFile).
Proof.
  intros Hn. assert (¬ is_digit 46) as Hdot by (unfold is_digit; lia).
  assert (ParseFileName (bytes "MANIFEST-" ++ decimal6 n) = Some (n, kDescriptorFile)) as Hman.
  { unfold ParseFileName.
    assert (starts_with (bytes "MANIFEST-" ++ decimal6 n) (bytes "MANIFEST-") = true) as -> by apply starts_with_app.
    rewrite drop_app_length, <-(app_nil_r (decimal6 n)), consume_decimal6 by (done || lia). done. }
  assert (∀ m, numbered n m = Some m) as Hnum by (intros m; unfold numbered; by rewrite (proj2 (Z.ltb_lt 0 n)) by lia).
  split.
  - unfold LogFileName, TableFileName, SSTTableFileName, TempFileName, DescriptorFileName, MakeFileName.
    repeat (apply Forall_cons_2 || apply Forall_nil_2); eexists; rewrite Hnum; (split; [reflexivity|]);
      try (apply (ParseFileName_suffix n 46); [lia|done]). exact Hman.
  - exists (bytes "MANIFEST-" ++ decimal6 n). split; [|done]. unfold current_contents, DescriptorFileName. rewrite Hnum.
    cbn [mbind option_bind].
    change (bytes "/MANIFEST-" ++ decimal6 n) with (bytes "/" ++ bytes "MANIFEST-" ++ decimal6 n).
    rewrite (app_assoc dbname), starts_with_app. f_equal.
    replace (length dbname + 1)%nat with (length (dbname ++ bytes "/")) by (by rewrite length_app).
    by rewrite drop_app_length.
Qed.

Lemma filename_roundtrip_witness :
  ∃ name, TableFileName (bytes "/db") 12 = Some (bytes "/db/" ++ name) ∧ name = bytes "000012.ldb" ∧
    ParseFileName name = Some (12, kTableFile).
Proof.
  destruct (filename_roundtrip (bytes "/db") 12) as [H _]; [split; [done|by vm_compute]|].
  apply Forall_cons in H as [_ H]. apply Forall_cons in H as [(name & E & P) _]. exists name.
  assert (name = bytes "000012.ldb") as En by (vm_compute in E; vm_compute; by injection E as <-).
  split_and!; [exact E|exact En|exact P].
Defined.
