(* ===== verification/LdbRing.v ===== *)
(** * Circular doubly-linked lists

    The snapshots, the versions and the entries of the block cache are kept in lists of
    objects with two pointers each, that go around through a dummy head. The pointers are
    two maps from addresses, which have the members of the objects that are alive; a
    member that is not initialised has no value. *)
From S2P Require Import Prelude.

Record links := MkLinks { next_ : gmap Z (option Z); prev_ : gmap Z (option Z) }.

Definition get_next (a : Z) : M links Z := l ← get_state; n ← lift_option (next_ l !! a); lift_option n.
Definition get_prev (a : Z) : M links Z := l ← get_state; p ← lift_option (prev_ l !! a); lift_option p.
Definition put_next (a b : Z) : M links unit :=
  l ← get_state; lift_option (next_ l !! a);; put_state (MkLinks (<[a := Some b]> (next_ l)) (prev_ l)).
Definition put_prev (a b : Z) : M links unit :=
  l ← get_state; lift_option (prev_ l !! a);; put_state (MkLinks (next_ l) (<[a := Some b]> (prev_ l))).

(** An object that is made, and one that is no longer alive. *)
Definition new_links (a : Z) (l : links) : links := MkLinks (<[a := None]> (next_ l)) (<[a := None]> (prev_ l)).
Definition drop_links (a : Z) (l : links) : links := MkLinks (delete a (next_ l)) (delete a (prev_ l)).
Definition has_links (l : links) (a : Z) : Prop := is_Some (next_ l !! a) ∧ is_Some (prev_ l !! a).

(** From [a], over the objects of [xs], to [b]. *)
Fixpoint segment (l : links) (a : Z) (xs : list Z) (b : Z) : Prop :=
  match xs with
  | [] => next_ l !! a = Some (Some b) ∧ prev_ l !! b = Some (Some a)
  | x :: xs => next_ l !! a = Some (Some x) ∧ prev_ l !! x = Some (Some a) ∧ segment l x xs b
  end.
Definition ring (l : links) (h : Z) (xs : list Z) : Prop := NoDup (h :: xs) ∧ segment l h xs h.

(** Objects for which two states have the same members. *)
Definition same_links (l l' : links) (a : Z) : Prop := next_ l' !! a = next_ l !! a ∧ prev_ l' !! a = prev_ l !! a.

Lemma segment_app l a xs x ys b : segment l a (xs ++ x :: ys) b ↔ segment l a xs x ∧ segment l x ys b.
Proof. revert a. induction xs as [|y xs IH]; intros a; cbn; [tauto|]. rewrite IH. tauto. Qed.

Lemma segment_first l a xs b : segment l a xs b → next_ l !! a = Some (Some (default b (head xs))).
Proof. destruct xs; cbn; tauto. Qed.
Lemma segment_last l a xs b : segment l a xs b → prev_ l !! b = Some (Some (default a (last xs))).
Proof.
  destruct xs as [|x xs _] using rev_ind; [cbn; tauto|]. rewrite segment_app, last_snoc. cbn. tauto.
Qed.

(** The members that a segment uses. *)
Lemma segment_frame l l' a xs b :
  segment l a xs b → (∀ y, y ∈ a :: xs → next_ l' !! y = next_ l !! y) → (∀ y, y ∈ xs ++ [b] → prev_ l' !! y = prev_ l !! y) →
  segment l' a xs b.
Proof.
  revert a. induction xs as [|x xs IH]; intros a; cbn.
  - intros [Hn Hp] Hn' Hp'. rewrite Hn', Hp' by left. done.
  - intros (Hn & Hp & Hs) Hn' Hp'. rewrite Hn', Hp' by left. split_and!; [done..|].
    apply IH; [done|intros y Hy; apply Hn'; by right|intros y Hy; apply Hp'; by right].
Qed.

Lemma ring_frame l l' h xs : ring l h xs → (∀ y, y ∈ h :: xs → same_links l l' y) → ring l' h xs.
Proof.
  intros [Hnd Hs] Hf. split; [done|]. eapply segment_frame; [done|intros y Hy; by apply Hf|].
  intros y [Hy|Hy]%elem_of_app; apply Hf; [by right|]. apply list_elem_of_singleton in Hy as ->. left.
Qed.

Lemma ring_first l h xs : ring l h xs → next_ l !! h = Some (Some (default h (head xs))).
Proof. intros [_ Hs]. by apply segment_first in Hs. Qed.
Lemma ring_last l h xs : ring l h xs → prev_ l !! h = Some (Some (default h (last xs))).
Proof. intros [_ Hs]. by apply segment_last in Hs. Qed.
Lemma ring_empty l h xs : ring l h xs → next_ l !! h = Some (Some h) ↔ xs = [].
Proof.
  intros Hr. pose proof (ring_first _ _ _ Hr) as E. destruct Hr as [Hnd _]. rewrite E. destruct xs as [|x xs]; cbn; [done|].
  apply NoDup_cons in Hnd as [Hx _]. split; [|done]. intros [= ->]. destruct Hx. left.
Qed.
Lemma ring_new l h : next_ l !! h = Some (Some h) → prev_ l !! h = Some (Some h) → ring l h [].
Proof. intros Hn Hp. split; [apply NoDup_singleton|done]. Qed.

(** The object that is linked before the head: the newest one. *)
Definition linked_before (h x p : Z) (l : links) : links :=
  MkLinks (<[p := Some x]> (<[x := Some h]> (next_ l))) (<[h := Some x]> (<[x := Some p]> (prev_ l))).
Lemma ring_append l h xs x :
  ring l h xs → x ∉ h :: xs → ring (linked_before h x (default h (last xs)) l) h (xs ++ [x]).
Proof.
  intros [Hnd Hs] Hx. apply not_elem_of_cons in Hx as [Hxh Hx]. split.
  - apply NoDup_cons in Hnd as [Hh Hnd]. apply NoDup_cons. rewrite elem_of_app, list_elem_of_singleton. split; [by intros [?|?]|].
    apply NoDup_app. split_and!; [done| |apply NoDup_singleton]. by intros y Hy ->%list_elem_of_singleton.
  - assert (prev_ l !! h = Some (Some (default h (last xs)))) as Hlast by (by eapply segment_last).
    set (p := default h (last xs)) in *. apply segment_app. cbn [segment linked_before next_ prev_].
    assert (p ≠ x) as Hpx by (unfold p; destruct (last xs) as [y|] eqn:E; [|done]; apply last_Some_elem_of in E; by intros <-).
    split; [|split; [by rewrite lookup_insert_ne, lookup_insert_eq by done|by rewrite lookup_insert_eq]].
    destruct xs as [|y ys _] using rev_ind; [unfold p; cbn; split; [by rewrite lookup_insert_eq|by rewrite lookup_insert_ne, lookup_insert_eq by done]|].
    unfold p in *. rewrite last_snoc in *. cbn [default from_option] in *. unfold id in *. clear p. apply segment_app in Hs as [Hs _].
    apply segment_app. split; [|cbn; split; [by rewrite lookup_insert_eq|by rewrite lookup_insert_ne, lookup_insert_eq by done]].
    apply NoDup_cons in Hnd as [Hh Hnd]. apply NoDup_app in Hnd as (_ & Hy & _).
    eapply segment_frame; [done|..]; intros z Hz; cbn [linked_before next_ prev_].
    + rewrite !lookup_insert_ne; [done|..].
      * intros ->. apply elem_of_cons in Hz as [->|Hz]; [done|]. apply Hx, elem_of_app. by left.
      * intros ->. apply elem_of_cons in Hz as [->|Hz]; [apply Hh, elem_of_app; right; left|]. apply (Hy z Hz). left.
    + rewrite !lookup_insert_ne; [done|..]; intros ->; [by apply Hx|by apply Hh].
Qed.

(** The object that is unlinked. *)
Definition unlinked (a b : Z) (l : links) : links := MkLinks (<[a := Some b]> (next_ l)) (<[b := Some a]> (prev_ l)).
Lemma ring_remove l h xs x ys :
  ring l h (xs ++ x :: ys) →
  let a := default h (last xs) in let b := default h (head ys) in
  prev_ l !! x = Some (Some a) ∧ next_ l !! x = Some (Some b) ∧ ring (unlinked a b l) h (xs ++ ys).
Proof.
  intros [Hnd Hs] a b. apply segment_app in Hs as [H1 H2].
  assert (prev_ l !! x = Some (Some a)) as Ha by (by eapply segment_last).
  assert (next_ l !! x = Some (Some b)) as Hb by (by eapply segment_first). split_and!; [done..|].
  pose proof Hnd as Hnd'. change (h :: xs ++ x :: ys) with ((h :: xs) ++ x :: ys) in Hnd'.
  apply NoDup_app in Hnd' as (N1 & Hd & [Hxy N2]%NoDup_cons). split.
  { change (h :: xs ++ ys) with ((h :: xs) ++ ys). apply NoDup_app. split_and!; [done| |done]. intros y Hy Hy'. apply (Hd y Hy). by right. }
  assert (segment (unlinked a b l) h xs b ∧ (∀ y ys', ys = y :: ys' → segment (unlinked a b l) y ys' h)) as [S1 S2].
  2: { destruct ys as [|y ys]; [by rewrite app_nil_r|]. apply segment_app. split; [exact S1|by apply S2]. }
  assert (a ∈ h :: xs) as Hain.
  { unfold a. destruct (last xs) as [y|] eqn:E; [right; by apply last_Some_elem_of|left]. }
  split.
  - unfold a, b in *. destruct xs as [|y xs' _] using rev_ind; [by split; cbn; rewrite lookup_insert_eq|].
    rewrite last_snoc in *. cbn [default from_option] in *. unfold id in *. apply segment_app in H1 as [H1 _].
    apply segment_app. split; [|by split; cbn; rewrite lookup_insert_eq].
    eapply segment_frame; [done|..]; intros z Hz; cbn [unlinked next_ prev_]; rewrite lookup_insert_ne; [done| |done|].
    + intros ->. rewrite NoDup_cons, NoDup_app in N1. destruct N1 as (Hh & _ & N1 & _).
      apply elem_of_cons in Hz as [->|Hz]; [apply Hh, elem_of_app; right; left|]. apply (N1 z Hz). left.
    + intros <-. destruct ys as [|w ys]; cbn in Hz.
      * rewrite NoDup_cons in N1. by destruct N1 as [Hh _].
      * apply (Hd w); [right; done|]. right. left.
  - intros y ys' ->. cbn [segment] in H2. destruct H2 as (_ & Hpy & H2). cbn in b.
    apply NoDup_cons in N2 as [Hy _].
    eapply segment_frame; [done|..]; intros z Hz; cbn [unlinked next_ prev_]; rewrite lookup_insert_ne; [done| |done|].
    + intros E. apply (Hd _ Hain). rewrite E. by right.
    + change (y ≠ z). intros E. rewrite <-E in Hz. apply elem_of_app in Hz as [Hz|Hz%list_elem_of_singleton]; [done|].
      apply (Hd h); [left|]. rewrite <-Hz. right; left.
Qed.

(** ** Runs of the operations *)

(** An object is linked before the head. *)
Definition ring_Append (h x : Z) : M links unit :=
  put_next x h;; p ← get_prev h; put_prev x p;;
  p ← get_prev x; put_next p x;; n ← get_next x; put_prev n x.
(** An object is unlinked; its own members stay. *)
Definition ring_Remove (x : Z) : M links unit :=
  n ← get_next x; p ← get_prev x; put_prev n p;;
  p ← get_prev x; n ← get_next x; put_next p n.

Lemma run_get_next l a b : next_ l !! a = Some (Some b) → get_next a l = Done (b, l).
Proof. intros E. unfold get_next. by rewrite bind_get, (bind_lift _ _ _ _ E). Qed.
Lemma run_get_prev l a b : prev_ l !! a = Some (Some b) → get_prev a l = Done (b, l).
Proof. intros E. unfold get_prev. by rewrite bind_get, (bind_lift _ _ _ _ E). Qed.
Lemma run_put_next l a b : is_Some (next_ l !! a) → put_next a b l = Done (tt, MkLinks (<[a := Some b]> (next_ l)) (prev_ l)).
Proof. intros [n E]. unfold put_next. by rewrite bind_get, (bind_lift _ _ _ _ E). Qed.
Lemma run_put_prev l a b : is_Some (prev_ l !! a) → put_prev a b l = Done (tt, MkLinks (next_ l) (<[a := Some b]> (prev_ l))).
Proof. intros [n E]. unfold put_prev. by rewrite bind_get, (bind_lift _ _ _ _ E). Qed.

Lemma segment_next l a xs b y : segment l a xs b → y ∈ a :: xs → ∃ z, next_ l !! y = Some (Some z) ∧ z ∈ xs ++ [b].
Proof.
  revert a. induction xs as [|x xs IH]; intros a; cbn.
  - intros [E _] ->%list_elem_of_singleton. exists b. split; [done|left].
  - intros (E & _ & Hs) [->|Hy]%elem_of_cons; [exists x; split; [done|left]|].
    destruct (IH x Hs Hy) as (z & Ez & Hz). exists z. split; [done|by right].
Qed.
Lemma ring_next l h xs y : ring l h xs → y ∈ h :: xs → ∃ z, next_ l !! y = Some (Some z) ∧ z ∈ h :: xs.
Proof.
  intros [_ Hs] Hy. destruct (segment_next _ _ _ _ _ Hs Hy) as (z & E & Hz). exists z. split; [done|].
  apply elem_of_app in Hz as [Hz| ->%list_elem_of_singleton]; [by right|left].
Qed.
Lemma last_in (h : Z) xs : default h (last xs) ∈ h :: xs.
Proof. destruct (last xs) as [y|] eqn:E; [right; by apply last_Some_elem_of|left]. Qed.

Lemma run_ring_Append l h xs x :
  ring l h xs → x ∉ h :: xs → has_links l x → ring_Append h x l = Done (tt, linked_before h x (default h (last xs)) l).
Proof.
  intros Hr Hx [Hn Hp]. pose proof (ring_last _ _ _ Hr) as Hlast. pose proof (last_in h xs) as Hin. set (p := default h (last xs)) in *.
  assert (p ≠ x) as Hpx by by intros ->. apply not_elem_of_cons in Hx as [Hxh _]. destruct (ring_next _ _ _ _ Hr Hin) as (z & Ez & _).
  unfold ring_Append. bind_with (run_put_next l x h Hn). erewrite bind_done by (apply run_get_prev; exact Hlast).
  erewrite bind_done by (by apply run_put_prev). erewrite bind_done by (apply run_get_prev; apply lookup_insert_eq). cbn [next_ prev_].
  erewrite bind_done by (apply run_put_next; cbn; rewrite lookup_insert_ne by done; by eexists). cbn [next_ prev_].
  erewrite bind_done by (apply run_get_next; cbn; rewrite lookup_insert_ne by done; apply lookup_insert_eq).
  apply run_put_prev. cbn. rewrite lookup_insert_ne by done. by eexists.
Qed.

Lemma run_ring_Remove l h xs x ys :
  ring l h (xs ++ x :: ys) → ring_Remove x l = Done (tt, unlinked (default h (last xs)) (default h (head ys)) l).
Proof.
  intros Hr. pose proof (ring_remove _ _ _ _ _ Hr) as (Hp & Hn & _). cbv zeta in *.
  destruct Hr as [Hnd Hs]. change (h :: xs ++ x :: ys) with ((h :: xs) ++ x :: ys) in Hnd.
  apply NoDup_app in Hnd as (_ & Hd & [Hxy _]%NoDup_cons). apply segment_app in Hs as [H1 H2].
  assert (∃ z, next_ l !! default h (last xs) = Some (Some z)) as [z Ez].
  { destruct (segment_next _ _ _ _ _ H1 (last_in h xs)) as (z & E & _). by exists z. }
  assert (∃ z, prev_ l !! default h (head ys) = Some (Some z)) as [z' Ez'] by (destruct ys as [|y ys]; cbn in *; by eexists; apply H2).
  set (a := default h (last xs)) in *. set (b := default h (head ys)) in *.
  assert (b ≠ x) as Hbx.
  { unfold b. destruct ys as [|y ys]; cbn; [intros ->; apply (Hd x); left|]. intros ->. apply Hxy. left. }
  unfold ring_Remove. bind_with (run_get_next _ _ _ Hn). bind_with (run_get_prev _ _ _ Hp).
  erewrite bind_done by (apply run_put_prev; by eexists). erewrite bind_done by (apply run_get_prev; cbn; rewrite lookup_insert_ne by done; exact Hp).
  erewrite bind_done by (apply run_get_next; exact Hn). apply run_put_next. by eexists.
Qed.

(** ** Both operations with what they change *)

Lemma ring_readable l h xs y : ring l h xs → y ∈ xs → ∃ n, next_ l !! y = Some (Some n) ∧ n ≠ y.
Proof.
  intros Hr (xs1 & xs2 & ->)%list_elem_of_split. destruct (ring_remove _ _ _ _ _ Hr) as (_ & Hn & _). cbv zeta in Hn.
  eexists. split; [exact Hn|]. destruct Hr as [Hnd _]. apply NoDup_cons in Hnd as [Hh Hnd]. apply NoDup_app in Hnd as (_ & _ & Hnd).
  apply NoDup_cons in Hnd as [Hy _]. destruct xs2 as [|z xs2]; cbn; [|intros ->; apply Hy; left].
  intros ->. apply Hh, elem_of_app. right. left.
Qed.

Lemma has_links_insert (m : gmap Z (option Z)) a b y :
  is_Some (m !! y) → is_Some (<[a := b]> m !! y).
Proof. intros H. destruct (decide (a = y)) as [->|]; [rewrite lookup_insert_eq; by eexists|by rewrite lookup_insert_ne]. Qed.

Lemma run_unlink l h xs x ys :
  ring l h (xs ++ x :: ys) →
  ∃ l', ring_Remove x l = Done (tt, l') ∧ ring l' h (xs ++ ys) ∧ (∀ y, y ∉ h :: xs ++ ys → same_links l l' y) ∧
    ∀ y, has_links l y → has_links l' y.
Proof.
  intros Hr. eexists. split; [by apply run_ring_Remove|]. pose proof (ring_remove _ _ _ _ _ Hr) as (_ & _ & Hr'). split_and!; [done| |].
  - intros y Hy. pose proof (last_in h xs) as Ha. assert (default h (last xs) ∈ h :: xs ++ ys) as Ha'
      by (apply elem_of_cons in Ha as [->|Ha]; [left|right; apply elem_of_app; by left]).
    assert (default h (head ys) ∈ h :: xs ++ ys) as Hb by (destruct ys; cbn; [left|right; apply elem_of_app; right; left]).
    unfold same_links. cbn. split; rewrite lookup_insert_ne; [done| |done|]; intros <-; done.
  - intros y [H1 H2]. split; cbn; by apply has_links_insert.
Qed.

Lemma run_link l h xs x :
  ring l h xs → x ∉ h :: xs → has_links l x →
  ∃ l', ring_Append h x l = Done (tt, l') ∧ ring l' h (xs ++ [x]) ∧ (∀ y, y ∉ h :: xs ++ [x] → same_links l l' y) ∧
    ∀ y, has_links l y → has_links l' y.
Proof.
  intros Hr Hx Hl. eexists. split; [by eapply run_ring_Append|]. split_and!; [by apply ring_append| |].
  - intros y [Hyh [Hy Hyx]%not_elem_of_app]%not_elem_of_cons. pose proof (last_in h xs) as Ha.
    apply not_elem_of_cons in Hyx as [Hyx _]. assert (default h (last xs) ≠ y) as Hay by (intros E; rewrite E in Ha; by apply elem_of_cons in Ha as [->|Ha]).
    unfold same_links. cbn. by split; rewrite !lookup_insert_ne by congruence.
  - intros y [H1 H2]. split; cbn; by do 2 apply has_links_insert.
Qed.
