(* ===== verification/LdbCache.v ===== *)
(** * leveldb: the block cache (util/cache.cc)

    Entries that are counted by their references, in a hash table of their own and in one
    of two circular lists: the entries that nobody uses, the oldest one first, and the
    others. The cache is divided in shards by the hash of the key. *)
From S2P Require Import Prelude LdbLog LdbFilter LdbRing.

(** The addresses of the dummy heads; handles are made after them. *)
Definition lru_ : Z := 0.
Definition in_use_ : Z := 1.

Section cache.
Context {V : Type}.

(** [LRUHandle], without its pointers; the deleter and its calls are below. *)
Record LRUHandle := MkHandle {
  h_value : V;
  h_charge : Z;
  h_key : list Z;
  h_in_cache : bool;
  h_refs : Z;
  h_hash : Z;
}.

(** [LRUCache] with its [HandleTable]. [handles] has the handles that are allocated,
    [next_hash_] their members [next_hash] and [ring_] their members [next] and [prev];
    [deleted_] has the calls of deleters, in their order. *)
Record LRUCache := MkCache {
  capacity_ : Z;
  usage_ : Z;
  handles : gmap Z LRUHandle;
  malloc_ : Z;
  ring_ : links;
  next_hash_ : gmap Z (option Z);
  length_ : Z;
  elems_ : Z;
  list_ : list (option Z);
  deleted_ : list (list Z * V);
}.
Implicit Types c : LRUCache.

(** ** The members *)

Definition set_usage (n : Z) : M LRUCache unit := λ c,
  Done (tt, MkCache (capacity_ c) n (handles c) (malloc_ c) (ring_ c) (next_hash_ c) (length_ c) (elems_ c) (list_ c) (deleted_ c)).
Definition set_next_hash (m : gmap Z (option Z)) : M LRUCache unit := λ c,
  Done (tt, MkCache (capacity_ c) (usage_ c) (handles c) (malloc_ c) (ring_ c) m (length_ c) (elems_ c) (list_ c) (deleted_ c)).
Definition set_table (length elems : Z) (l : list (option Z)) : M LRUCache unit := λ c,
  Done (tt, MkCache (capacity_ c) (usage_ c) (handles c) (malloc_ c) (ring_ c) (next_hash_ c) length elems l (deleted_ c)).
Definition set_handle (e : Z) (h : LRUHandle) : M LRUCache unit := λ c,
  Done (tt, MkCache (capacity_ c) (usage_ c) (<[e := h]> (handles c)) (malloc_ c) (ring_ c) (next_hash_ c) (length_ c) (elems_ c) (list_ c) (deleted_ c)).

Definition on_ring {A} (f : M links A) : M LRUCache A := λ c,
  match f (ring_ c) with
  | Done (a, l) => Done (a, MkCache (capacity_ c) (usage_ c) (handles c) (malloc_ c) l (next_hash_ c) (length_ c) (elems_ c) (list_ c) (deleted_ c))
  | Undef => Undef
  | NoFuel => NoFuel
  end.

Definition deref_handle (e : Z) : M LRUCache LRUHandle := c ← get_state; lift_option (handles c !! e).
Definition set_refs (e refs : Z) : M LRUCache unit :=
  h ← deref_handle e;
  set_handle e (MkHandle (h_value h) (h_charge h) (h_key h) (h_in_cache h) refs (h_hash h)).
Definition set_in_cache (e : Z) (b : bool) : M LRUCache unit :=
  h ← deref_handle e;
  set_handle e (MkHandle (h_value h) (h_charge h) (h_key h) b (h_refs h) (h_hash h)).

(** [key]. A handle whose next one is itself would have a key in its value: there is
    none, the value of this model is not a key. *)
Definition handle_key (e : Z) : M LRUCache (list Z) :=
  h ← deref_handle e;
  n ← on_ring (get_next e);
  if n =? e then undef else mret (h_key h).

(** [malloc]; the members are not initialised, and [next_hash] and the links are not
    set at once. *)
Definition new_handle (h : LRUHandle) : M LRUCache Z := λ c,
  let e := malloc_ c in
  Done (e, MkCache (capacity_ c) (usage_ c) (<[e := h]> (handles c)) (e + 1) (new_links e (ring_ c)) (next_hash_ c)
    (length_ c) (elems_ c) (list_ c) (deleted_ c)).
(** The deleter, with its arguments, and [free]. *)
Definition free_handle (e : Z) (key : list Z) (value : V) : M LRUCache unit := λ c,
  Done (tt, MkCache (capacity_ c) (usage_ c) (delete e (handles c)) (malloc_ c) (drop_links e (ring_ c)) (delete e (next_hash_ c))
    (length_ c) (elems_ c) (list_ c) (deleted_ c ++ [(key, value)])).

(** ** The hash table *)

(** A pointer to a pointer to a handle: an element of the array, or the member
    [next_hash] of a handle. *)
Inductive slot : Type :=
  | Bucket (i : nat)
  | NextHash (e : Z).

Definition read_slot (s : slot) : M LRUCache (option Z) :=
  c ← get_state;
  match s with
  | Bucket i => lift_option (list_ c !! i)
  | NextHash e => lift_option (next_hash_ c !! e)
  end.
Definition write_slot (s : slot) (v : option Z) : M LRUCache unit :=
  read_slot s;;
  c ← get_state;
  match s with
  | Bucket i => set_table (length_ c) (elems_ c) (<[i := v]> (list_ c))
  | NextHash e => set_next_hash (<[e := v]> (next_hash_ c))
  end.

Definition bucket_of (hash length : Z) : nat := Z.to_nat (Z.land hash (u32 (length - 1))).

(** A chain has at most [elems_] handles. *)
Definition find_step (key : list Z) (hash : Z) (ptr : slot) : M LRUCache (slot + slot) :=
  v ← read_slot ptr;
  match v with
  | None => mret (inr ptr)
  | Some e =>
      h ← deref_handle e;
      if h_hash h =? hash then
        k ← handle_key e;
        mret (if bool_decide (key = k) then inr ptr else inl (NextHash e))
      else mret (inl (NextHash e))
  end.
Definition FindPointer (key : list Z) (hash : Z) : M LRUCache slot :=
  c ← get_state;
  loop (elems_ c + 2) (find_step key hash) (Bucket (bucket_of hash (length_ c))).

Definition table_Lookup (key : list Z) (hash : Z) : M LRUCache (option Z) :=
  ptr ← FindPointer key hash; read_slot ptr.

(** The handles of a chain are moved to the new array; the number of them is counted. *)
Definition move_step (new_length : Z) (v : option Z * list (option Z) * Z)
    : M LRUCache (option Z * list (option Z) * Z + list (option Z) * Z) :=
  let '(h, new_list, count) := v in
  match h with
  | None => mret (inr (new_list, count))
  | Some h =>
      next ← read_slot (NextHash h);
      handle ← deref_handle h;
      let i := bucket_of (h_hash handle) new_length in
      first ← lift_option (new_list !! i);
      write_slot (NextHash h) first;;
      mret (inl (next, <[i := Some h]> new_list, u32 (count + 1)))
  end.
Fixpoint move_buckets (buckets : list (option Z)) (new_length : Z) (new_list : list (option Z)) (count : Z)
    : M LRUCache (list (option Z) * Z) :=
  match buckets with
  | [] => mret (new_list, count)
  | h :: buckets =>
      c ← get_state;
      '(new_list, count) ← loop (elems_ c + 2) (move_step new_length) (h, new_list, count);
      move_buckets buckets new_length new_list count
  end.

(** The length is doubled until it is not less than the number of elements; it is 0
    after 2^31. *)
Definition double_step (elems new_length : Z) : M LRUCache (Z + Z) :=
  mret (if new_length <? elems then inl (u32 (new_length * 2)) else inr new_length).
Definition Resize : M LRUCache unit :=
  c ← get_state;
  new_length ← loop 40 (double_step (elems_ c)) 4;
  '(new_list, count) ← move_buckets (list_ c) new_length (replicate (Z.to_nat new_length) None) 0;
  assert_ (elems_ c =? count);;
  set_table new_length (elems_ c) new_list.

(** The handle that was there for the key. *)
Definition table_Insert (h : Z) : M LRUCache (option Z) :=
  key ← handle_key h;
  handle ← deref_handle h;
  ptr ← FindPointer key (h_hash handle);
  old ← read_slot ptr;
  next ← match old with None => mret None | Some o => read_slot (NextHash o) end;
  c ← get_state;
  set_next_hash (<[h := next]> (next_hash_ c));;
  write_slot ptr (Some h);;
  (match old with
   | None =>
       c ← get_state;
       set_table (length_ c) (u32 (elems_ c + 1)) (list_ c);;
       c ← get_state;
       if length_ c <? elems_ c then Resize else mret tt
   | Some _ => mret tt
   end);;
  mret old.

Definition table_Remove (key : list Z) (hash : Z) : M LRUCache (option Z) :=
  ptr ← FindPointer key hash;
  result ← read_slot ptr;
  (match result with
   | Some e =>
       next ← read_slot (NextHash e);
       write_slot ptr next;;
       c ← get_state;
       set_table (length_ c) (u32 (elems_ c - 1)) (list_ c)
   | None => mret tt
   end);;
  mret result.

(** ** Entries *)

Definition LRU_Remove (e : Z) : M LRUCache unit := on_ring (ring_Remove e).
Definition LRU_Append (list e : Z) : M LRUCache unit := on_ring (ring_Append list e).

Definition lru_Ref (e : Z) : M LRUCache unit :=
  h ← deref_handle e;
  (if (h_refs h =? 1) && h_in_cache h then LRU_Remove e;; LRU_Append in_use_ e else mret tt);;
  h ← deref_handle e;
  set_refs e (u32 (h_refs h + 1)).

Definition lru_Unref (e : Z) : M LRUCache unit :=
  h ← deref_handle e;
  assert_ (0 <? h_refs h);;
  set_refs e (h_refs h - 1);;
  h ← deref_handle e;
  if h_refs h =? 0 then
    assert_ (negb (h_in_cache h));;
    key ← handle_key e;
    free_handle e key (h_value h)
  else if h_in_cache h && (h_refs h =? 1) then LRU_Remove e;; LRU_Append lru_ e
  else mret tt.

Definition FinishErase (e : option Z) : M LRUCache bool :=
  match e with
  | None => mret false
  | Some e =>
      h ← deref_handle e;
      assert_ (h_in_cache h);;
      LRU_Remove e;;
      set_in_cache e false;;
      c ← get_state;
      set_usage (u64 (usage_ c - h_charge h));;
      lru_Unref e;;
      mret true
  end.

(** ** Operations *)

Definition lru_Lookup (key : list Z) (hash : Z) : M LRUCache (option Z) :=
  e ← table_Lookup key hash;
  (match e with Some e => lru_Ref e | None => mret tt end);;
  mret e.
Definition lru_Release (handle : Z) : M LRUCache unit := lru_Unref handle.
Definition lru_Erase (key : list Z) (hash : Z) : M LRUCache unit :=
  e ← table_Remove key hash; FinishErase e;; mret tt.

(** The oldest entry that nobody uses is erased. *)
Definition evict (old : Z) : M LRUCache unit :=
  h ← deref_handle old;
  assert_ (h_refs h =? 1);;
  key ← handle_key old;
  e ← table_Remove key (h_hash h);
  erased ← FinishErase e;
  assert_ erased.
Definition evict_step (_ : unit) : M LRUCache (unit + unit) :=
  c ← get_state;
  if capacity_ c <? usage_ c then
    old ← on_ring (get_next lru_);
    if old =? lru_ then mret (inr tt) else evict old;; mret (inl tt)
  else mret (inr tt).

Definition lru_Insert (key : list Z) (hash : Z) (value : V) (charge : Z) : M LRUCache Z :=
  e ← new_handle (MkHandle value charge key false 1 hash);
  c ← get_state;
  (if 0 <? capacity_ c then
     h ← deref_handle e;
     set_refs e (h_refs h + 1);;
     set_in_cache e true;;
     LRU_Append in_use_ e;;
     c ← get_state;
     set_usage (u64 (usage_ c + charge));;
     old ← table_Insert e;
     FinishErase old;;
     mret tt
   else mret tt);;
  c ← get_state;
  loop (elems_ c + 1) evict_step tt;;
  mret e.

Definition prune_step (_ : unit) : M LRUCache (unit + unit) :=
  e ← on_ring (get_next lru_);
  if e =? lru_ then mret (inr tt) else evict e;; mret (inl tt).
Definition lru_Prune : M LRUCache unit := c ← get_state; loop (elems_ c + 1) prune_step tt.
Definition TotalCharge (c : LRUCache) : Z := usage_ c.

(** The constructor, with the capacity that is set at once. *)
Definition new_LRUCache (capacity : Z) : outcome LRUCache :=
  let heads := {[lru_ := Some lru_; in_use_ := Some in_use_]} in
  '(_, c) ← Resize (MkCache capacity 0 ∅ 2 (MkLinks heads heads) ∅ 0 0 [] []);
  Done c.

(** The destructor. *)
Definition drop_step (e : Z) : M LRUCache (Z + unit) :=
  if e =? lru_ then mret (inr tt)
  else
    next ← on_ring (get_next e);
    h ← deref_handle e;
    assert_ (h_in_cache h);;
    set_in_cache e false;;
    h ← deref_handle e;
    assert_ (h_refs h =? 1);;
    lru_Unref e;;
    mret (inl next).
Definition drop_LRUCache : M LRUCache unit :=
  n ← on_ring (get_next in_use_);
  assert_ (n =? in_use_);;
  e ← on_ring (get_next lru_);
  c ← get_state;
  loop (elems_ c + 1) drop_step e.

(** ** Shards *)

Definition kNumShardBits : Z := 4.
Definition kNumShards : Z := Z.shiftl 1 kNumShardBits.

(** A handle of the sharded cache is the shard and the address: the address of an object
    says where it is. *)
Record ShardedLRUCache := MkSharded { shard_ : list LRUCache; last_id_ : Z }.

Definition HashSlice (s : list Z) : Z := Hash s 0.
Definition Shard (hash : Z) : Z := Z.shiftr hash (32 - kNumShardBits).

Definition on_shard {A} (i : Z) (f : M LRUCache A) : M ShardedLRUCache A := λ s,
  match shard_ s !! Z.to_nat i with
  | None => Undef
  | Some c => '(a, c) ← f c; Done (a, MkSharded (<[Z.to_nat i := c]> (shard_ s)) (last_id_ s))
  end.

Definition new_ShardedLRUCache (capacity : Z) : outcome ShardedLRUCache :=
  let per_shard := u64 (capacity + (kNumShards - 1)) / kNumShards in
  c ← new_LRUCache per_shard;
  Done (MkSharded (replicate (Z.to_nat kNumShards) c) 0).

Definition sharded_Insert (key : list Z) (value : V) (charge : Z) : M ShardedLRUCache (Z * Z) :=
  let hash := HashSlice key in
  e ← on_shard (Shard hash) (lru_Insert key hash value charge); mret (Shard hash, e).
Definition sharded_Lookup (key : list Z) : M ShardedLRUCache (option (Z * Z)) :=
  let hash := HashSlice key in
  e ← on_shard (Shard hash) (lru_Lookup key hash); mret ((λ e, (Shard hash, e)) <$> e).
Definition sharded_Release (handle : Z * Z) : M ShardedLRUCache unit := on_shard handle.1 (
  h ← deref_handle handle.2; assert_ (Shard (h_hash h) =? handle.1);; lru_Release handle.2).
Definition sharded_Erase (key : list Z) : M ShardedLRUCache unit :=
  let hash := HashSlice key in on_shard (Shard hash) (lru_Erase key hash).
Definition sharded_Value (handle : Z * Z) : M ShardedLRUCache V := on_shard handle.1 (
  h ← deref_handle handle.2; mret (h_value h)).
Definition NewId : M ShardedLRUCache Z := λ s,
  let id := u64 (last_id_ s + 1) in Done (id, MkSharded (shard_ s) id).
Fixpoint prune_shards (n i : nat) : M ShardedLRUCache unit :=
  match n with
  | O => mret tt
  | S n => on_shard (Z.of_nat i) lru_Prune;; prune_shards n (S i)
  end.
Definition sharded_Prune : M ShardedLRUCache unit := prune_shards (Z.to_nat kNumShards) 0.
Definition sharded_TotalCharge (s : ShardedLRUCache) : Z :=
  foldl (λ total c, u64 (total + TotalCharge c)) 0 (shard_ s).
End cache.
Arguments LRUHandle : clear implicits.
Arguments LRUCache : clear implicits.
Arguments ShardedLRUCache : clear implicits.
