(* ===== verification/LdbCacheTable.v ===== *)
(** * leveldb: the hash table of the block cache

    The chains of the buckets as lists of addresses: what [FindPointer] finds, and that
    insertion, removal and the change of size keep a set of entries with distinct keys. *)
From S2P Require Import Prelude LdbLog LdbFilter LdbRing LdbCache.

(** An element of a list of lists, which is replaced, and the others. *)
Lemma concat_at {A} (ls : list (list A)) i l :
  ls !! i = Some l → ∃ others, concat ls ≡ₚ l ++ others ∧ (∀ l', concat (<[i := l']> ls) ≡ₚ l' ++ others) ∧
    ∀ j l', j ≠ i → ls !! j = Some l' → l' ⊆ others.
Proof.
  intros E. exists (concat (take i ls) ++ concat (drop (S i) ls)). split_and!.
  - rewrite <-(take_drop_middle ls i l E) at 1. rewrite concat_app. cbn. solve_Permutation.
  - intros l'. rewrite insert_take_drop by (by eapply lookup_lt_Some). rewrite concat_app. cbn. solve_Permutation.
  - intros j l' Hj Ej x Hx. apply elem_of_app. destruct (decide (j < i)%nat) as [Hlt|Hge].
    + left. apply list_elem_of_concat. exists l'. split; [done|]. apply (list_elem_of_lookup_2 _ j). by rewrite lookup_take_lt.
    + right. apply list_elem_of_concat. exists l'. split; [done|]. apply (list_elem_of_lookup_2 _ (j - S i)%nat).
      rewrite lookup_drop. rewrite <-Ej. f_equal. lia.
Qed.
Lemma elem_of_concat_lookup {A} (ls : list (list A)) i l x : ls !! i = Some l → x ∈ l → x ∈ concat ls.
Proof. intros E Hx. apply list_elem_of_concat. exists l. split; [done|by eapply list_elem_of_lookup_2]. Qed.

Section table.
Context {V : Type}.
Implicit Types (c : LRUCache V) (es : list Z) (chains : list (list Z)) (nh : gmap Z (option Z)) (p q : option Z).

(** ** Chains *)

(** From the pointer [p], over the handles of [es], to the pointer [q]. *)
Fixpoint path nh p es q : Prop :=
  match es with
  | [] => p = q
  | e :: es => p = Some e ∧ ∃ n, nh !! e = Some n ∧ path nh n es q
  end.

Lemma path_app nh p es es' q : path nh p (es ++ es') q ↔ ∃ r, path nh p es r ∧ path nh r es' q.
Proof.
  revert p. induction es as [|e es IH]; intros p; cbn; [split; [by exists p|by intros (? & -> & ?)]|].
  setoid_rewrite IH. split.
  - intros (-> & n & En & r & H1 & H2). exists r. split; [|done]. split; [done|]. by exists n.
  - intros (r & (-> & n & En & H1) & H2). split; [done|]. exists n. split; [done|]. by exists r.
Qed.
Lemma path_frame nh nh' p es q : path nh p es q → (∀ e, e ∈ es → nh' !! e = nh !! e) → path nh' p es q.
Proof.
  revert p. induction es as [|e es IH]; intros p; cbn; [done|]. intros (-> & n & En & H) Hf. split; [done|].
  exists n. split; [rewrite Hf; [done|left]|]. apply IH; [done|]. intros x Hx. apply Hf. by right.
Qed.

(** The chain of a bucket. *)
Definition chain_at c (i : nat) es q : Prop := ∃ p, list_ c !! i = Some p ∧ path (next_hash_ c) p es q.

Lemma chain_at_app c i es es' q : chain_at c i (es ++ es') q ↔ ∃ r, chain_at c i es r ∧ path (next_hash_ c) r es' q.
Proof. unfold chain_at. setoid_rewrite path_app. naive_solver. Qed.

(** The pointer after some handles of a chain. *)
Definition slot_at (i : nat) es : slot := match last es with None => Bucket i | Some e => NextHash e end.
Lemma slot_snoc i es e : slot_at i (es ++ [e]) = NextHash e.
Proof. unfold slot_at. by rewrite last_snoc. Qed.

Lemma run_read_slot c i es q : chain_at c i es q → read_slot (slot_at i es) c = Done (q, c).
Proof.
  intros (p & Ep & Hp). unfold slot_at. destruct es as [|e es _] using rev_ind.
  - cbn in Hp. subst q. unfold read_slot. cbn. by rewrite bind_get, Ep.
  - rewrite last_snoc. apply path_app in Hp as (r & _ & -> & n & En & ->). unfold read_slot. by rewrite bind_get, En.
Qed.

Definition put_slot (i : nat) es p c : LRUCache V :=
  match last es with
  | None => MkCache (capacity_ c) (usage_ c) (handles c) (malloc_ c) (ring_ c) (next_hash_ c) (length_ c) (elems_ c) (<[i := p]> (list_ c)) (deleted_ c)
  | Some e => MkCache (capacity_ c) (usage_ c) (handles c) (malloc_ c) (ring_ c) (<[e := p]> (next_hash_ c)) (length_ c) (elems_ c) (list_ c) (deleted_ c)
  end.
Lemma run_write_slot c i es p q : chain_at c i es q → write_slot (slot_at i es) p c = Done (tt, put_slot i es p c).
Proof.
  intros Hc. unfold write_slot. bind_with (run_read_slot _ _ _ _ Hc). unfold slot_at, put_slot. rewrite bind_get. by destruct (last es).
Qed.

Lemma put_chain c i es p q : chain_at c i es q → NoDup es → chain_at (put_slot i es p c) i es p.
Proof.
  intros (p0 & Ep & Hp) Hnd. unfold put_slot, chain_at. destruct es as [|e es _] using rev_ind.
  - exists p. cbn. split; [|done]. apply list_lookup_insert_eq. by eapply lookup_lt_Some.
  - rewrite last_snoc. exists p0. split; [done|]. cbn [next_hash_]. apply path_app in Hp as (r & H1 & -> & n & En & _).
    apply path_app. exists (Some e). split.
    + eapply path_frame; [done|]. intros x Hx. rewrite lookup_insert_ne; [done|]. intros ->.
      apply NoDup_app in Hnd as (_ & Hd & _). apply (Hd x Hx). left.
    + split; [done|]. exists p. split; [|done]. apply lookup_insert_eq.
Qed.
(** What the slot does not change. *)
Lemma put_path c i es p p' es' q' :
  path (next_hash_ c) p' es' q' → (∀ x, x ∈ es → x ∉ es') → path (next_hash_ (put_slot i es p c)) p' es' q'.
Proof.
  intros Hp Hd. eapply path_frame; [done|]. intros x Hx. unfold put_slot.
  destruct (last es) as [e|] eqn:El; cbn; [|done]. rewrite lookup_insert_ne; [done|]. intros ->.
  by apply (Hd x); [apply last_Some_elem_of|].
Qed.
Lemma put_other c i j es p es' q' :
  chain_at c j es' q' → j ≠ i → (∀ x, x ∈ es → x ∉ es') → chain_at (put_slot i es p c) j es' q'.
Proof.
  intros (p0 & Ep & Hp) Hj Hd. exists p0. split; [|by apply put_path]. unfold put_slot. destruct (last es); cbn; [done|].
  by rewrite list_lookup_insert_ne.
Qed.

(** The other members. *)
Record same_but_table c c' : Prop := {
  sb_capacity : capacity_ c' = capacity_ c;
  sb_usage : usage_ c' = usage_ c;
  sb_handles : handles c' = handles c;
  sb_malloc : malloc_ c' = malloc_ c;
  sb_ring : ring_ c' = ring_ c;
  sb_deleted : deleted_ c' = deleted_ c;
}.
Lemma same_but_table_trans c1 c2 c3 : same_but_table c1 c2 → same_but_table c2 c3 → same_but_table c1 c3.
Proof. intros [] []. split; congruence. Qed.
Lemma put_same i es p c : same_but_table c (put_slot i es p c).
Proof. unfold put_slot. by destruct (last es). Qed.
Lemma put_lengths i es p c : length_ (put_slot i es p c) = length_ c ∧ elems_ (put_slot i es p c) = elems_ c ∧ length (list_ (put_slot i es p c)) = length (list_ c).
Proof. unfold put_slot. destruct (last es); cbn; [done|]. by rewrite length_insert. Qed.

(** ** The table *)

(** [chains] are the chains of the buckets, without regard to keys. *)
Record buckets c chains : Prop := {
  bk_chain i es : chains !! i = Some es → chain_at c i es None;
  bk_count : length chains = length (list_ c);
  bk_place i es e : chains !! i = Some es → e ∈ es → ∃ h, handles c !! e = Some h ∧ bucket_of (h_hash h) (length_ c) = i;
  bk_nodup : NoDup (concat chains);
  bk_length : Z.of_nat (length (list_ c)) = length_ c;
}.
Definition key_of c (e : Z) : option (Z * list Z) := (λ h, (h_hash h, h_key h)) <$> handles c !! e.
Record table c chains : Prop := {
  tb_buckets : buckets c chains;
  tb_keys e e' : e ∈ concat chains → e' ∈ concat chains → key_of c e = key_of c e' → e = e';
  tb_pow : ∃ k, 2 ≤ k ≤ 31 ∧ length_ c = 2 ^ k;
  tb_elems : elems_ c = Z.of_nat (length (concat chains));
  tb_small : elems_ c ≤ 2 ^ 31;
}.

(** The keys of the handles can be read. *)
Definition readable c (e : Z) : Prop := ∃ n, next_ (ring_ c) !! e = Some (Some n) ∧ n ≠ e.

Lemma run_deref c e h : handles c !! e = Some h → deref_handle e c = Done (h, c).
Proof. intros E. unfold deref_handle. by rewrite bind_get, E. Qed.
Lemma on_ring_same {A} (f : M links A) c a : f (ring_ c) = Done (a, ring_ c) → on_ring f c = Done (a, c).
Proof. unfold on_ring. intros ->. by destruct c. Qed.
Lemma run_handle_key c e h : handles c !! e = Some h → readable c e → handle_key e c = Done (h_key h, c).
Proof.
  intros E (n & En & Hn). unfold handle_key. bind_with (run_deref _ _ _ E).
  erewrite bind_done by (apply on_ring_same; by apply run_get_next). by rewrite (proj2 (Z.eqb_neq _ _)).
Qed.

Lemma bucket_bound c chains hash :
  table c chains → ∃ es, chains !! bucket_of hash (length_ c) = Some es.
Proof.
  intros Ht. apply lookup_lt_is_Some_2. rewrite (bk_count _ _ (tb_buckets _ _ Ht)).
  pose proof (bk_length _ _ (tb_buckets _ _ Ht)) as Hl. destruct (tb_pow _ _ Ht) as (k & Hk & Ek). unfold bucket_of.
  assert (0 < 2 ^ k) as Hpos by lia. assert (2 ^ k ≤ 2 ^ 31) as Hmax by (apply Z.pow_le_mono_r; lia). change (2 ^ 31) with 2147483648 in Hmax.
  rewrite wrapu_small by (pow2; lia). rewrite Ek in Hl |- *. replace (2 ^ k - 1) with (Z.ones k) by (rewrite Z.ones_equiv; lia). rewrite Z.land_ones by lia.
  pose proof (Z.mod_pos_bound hash (2 ^ k) Hpos). lia.
Qed.

(** ** Finding *)

Definition matches c key hash (e : Z) : Prop := key_of c e = Some (hash, key).
#[local] Instance matches_dec c key hash e : Decision (matches c key hash e) := decide_rel (=) _ _.

Lemma run_find c i key hash : ∀ es2 es1 q n,
  chain_at c i es1 q → path (next_hash_ c) q es2 None →
  (∀ e, e ∈ es2 → is_Some (handles c !! e) ∧ readable c e) → Z.of_nat (length es2) < n →
  ∃ es3 es4, es2 = es3 ++ es4 ∧
    loop n (find_step key hash) (slot_at i es1) c = Done (slot_at i (es1 ++ es3), c) ∧
    (∀ e, e ∈ es3 → ¬ matches c key hash e) ∧ (∀ e es5, es4 = e :: es5 → matches c key hash e).
Proof.
  induction es2 as [|e es2 IH]; intros es1 q n Hc Hp Hes Hn.
  - cbn in Hp. subst q. exists [], []. rewrite (app_nil_r es1). split_and!; [done| |by intros ? ?%not_elem_of_nil|done].
    apply loop_inr; [simpl in Hn; lia|]. unfold find_step. by bind_with (run_read_slot _ _ _ _ Hc).
  - destruct Hp as (-> & n' & En & Hp). destruct (Hes e) as [[h Eh] Hr]; [left|].
    assert (matches c key hash e ↔ h_hash h = hash ∧ key = h_key h) as Hiff by (unfold matches, key_of; rewrite Eh; cbn; naive_solver).
    assert (find_step key hash (slot_at i es1) c = Done (if bool_decide (matches c key hash e) then inr (slot_at i es1) else inl (NextHash e), c)) as Estep.
    { unfold find_step. bind_with (run_read_slot _ _ _ _ Hc). bind_with (run_deref _ _ _ Eh). rewrite (bool_decide_ext _ _ Hiff).
      destruct (Z.eqb_spec (h_hash h) hash) as [Eh'|Hne]; [|by rewrite bool_decide_eq_false_2 by by intros [? _]].
      bind_with (run_handle_key _ _ _ Eh Hr). destruct (decide (key = h_key h)) as [Ek|Hk]; [by rewrite !bool_decide_eq_true_2|].
      by rewrite !bool_decide_eq_false_2 by by try intros [_ ?]. }
    destruct (decide (matches c key hash e)) as [Hm|Hm].
    + rewrite bool_decide_eq_true_2 in Estep by done. exists [], (e :: es2). rewrite (app_nil_r es1).
      split_and!; [done| |by intros ? ?%not_elem_of_nil|by intros ? ? [= <- <-]]. apply loop_inr; [lia|exact Estep].
    + rewrite bool_decide_eq_false_2 in Estep by done.
      destruct (IH (es1 ++ [e]) n' (n - 1)) as (es3 & es4 & -> & El & Hno & Hyes).
      * apply chain_at_app. exists (Some e). split; [done|]. split; [done|]. by exists n'.
      * done.
      * intros x Hx. apply Hes. by right.
      * cbn [length] in Hn. lia.
      * exists (e :: es3), es4. rewrite slot_snoc in El. rewrite <-app_assoc in El. cbn [length] in Hn. split_and!; [done| | |done].
        -- rewrite (loop_inl n _ _ _ _ _ ltac:(lia) Estep). exact El.
        -- intros x [->|Hx]%elem_of_cons; [done|by apply Hno].
Qed.

Lemma run_FindPointer c chains key hash :
  table c chains → (∀ e, e ∈ concat chains → readable c e) →
  let i := bucket_of hash (length_ c) in
  ∃ es1 es2, chains !! i = Some (es1 ++ es2) ∧ FindPointer key hash c = Done (slot_at i es1, c) ∧
    (∀ e, e ∈ es1 → ¬ matches c key hash e) ∧ (∀ e es, es2 = e :: es → matches c key hash e).
Proof.
  intros Ht Hr i. destruct (bucket_bound c chains hash Ht) as [es Ees]. fold i in Ees. pose proof (tb_buckets _ _ Ht) as Hb.
  destruct (bk_chain _ _ Hb i es Ees) as (p & Ep & Hp).
  assert (length es ≤ length (concat chains))%nat as Hlen.
  { rewrite <-(take_drop_middle chains i es Ees), concat_app. cbn. rewrite !length_app. lia. }
  destruct (run_find c i key hash es [] p (elems_ c + 2)) as (es1 & es2 & E & El & Hno & Hyes).
  - by exists p.
  - done.
  - intros e He. split; [|apply Hr; by eapply elem_of_concat_lookup]. destruct (bk_place _ _ Hb i es e Ees He) as (h & Eh & _). by eexists.
  - rewrite (tb_elems _ _ Ht). lia.
  - exists es1, es2. rewrite <-E. split_and!; [done| |done|done]. unfold FindPointer. rewrite bind_get. exact El.
Qed.
(** What a search gives. *)
Definition finds c chains key hash (r : option Z) : Prop :=
  match r with
  | Some e => e ∈ concat chains ∧ matches c key hash e
  | None => ∀ e, e ∈ concat chains → ¬ matches c key hash e
  end.

(** A handle that matches is in the chain of its bucket. *)
Lemma matches_place c chains key hash e es :
  buckets c chains → e ∈ concat chains → matches c key hash e → chains !! bucket_of hash (length_ c) = Some es → e ∈ es.
Proof.
  intros Hb He Hm Ees. apply list_elem_of_concat in He as (es' & He & [j Ej]%list_elem_of_lookup).
  destruct (bk_place _ _ Hb j es' e Ej He) as (h & Eh & Ebk). unfold matches, key_of in Hm. rewrite Eh in Hm. cbn in Hm.
  injection Hm as <- _. rewrite Ebk, Ej in Ees. by injection Ees as ->.
Qed.

Lemma run_chain_search c chains key hash :
  table c chains → (∀ e, e ∈ concat chains → readable c e) →
  let i := bucket_of hash (length_ c) in
  ∃ es1 es2 q, chains !! i = Some (es1 ++ es2) ∧ FindPointer key hash c = Done (slot_at i es1, c) ∧
    chain_at c i es1 q ∧ path (next_hash_ c) q es2 None ∧ q = head es2 ∧ finds c chains key hash q.
Proof.
  intros Ht Hr i. destruct (run_FindPointer c chains key hash Ht Hr) as (es1 & es2 & Ei & Ef & Hno & Hyes). fold i in Ei, Ef.
  pose proof (bk_chain _ _ (tb_buckets _ _ Ht) _ _ Ei) as (q & Hc & Hp)%chain_at_app. exists es1, es2, q.
  assert (q = head es2) as -> by (destruct es2 as [|e es2]; [exact Hp|apply Hp]). split_and!; try done.
  destruct es2 as [|e es2]; cbn.
  - intros e He Hm. rewrite app_nil_r in Ei. apply (Hno e); [|done]. by eapply matches_place; [apply Ht| | |].
  - split; [|by eapply Hyes]. eapply elem_of_concat_lookup; [done|]. apply elem_of_app. right. left.
Qed.

Lemma run_table_Lookup c chains key hash :
  table c chains → (∀ e, e ∈ concat chains → readable c e) →
  ∃ r, table_Lookup key hash c = Done (r, c) ∧ finds c chains key hash r.
Proof.
  intros Ht Hr. destruct (run_chain_search c chains key hash Ht Hr) as (es1 & es2 & q & _ & Ef & Hc & _ & _ & Hq).
  exists q. split; [|done]. unfold table_Lookup. bind_with Ef. by apply run_read_slot.
Qed.

(** ** Changes of a chain *)

Lemma same_key_of c c' e : same_but_table c c' → key_of c' e = key_of c e.
Proof. intros H. unfold key_of. by rewrite (sb_handles _ _ H). Qed.

Lemma put_buckets c chains i es1 es2 es2' n q :
  buckets c chains → chains !! i = Some (es1 ++ es2) → chain_at c i es1 q → path (next_hash_ c) n es2' None → NoDup (es1 ++ es2') →
  (∀ e, e ∈ es2' → ∃ h, handles c !! e = Some h ∧ bucket_of (h_hash h) (length_ c) = i) →
  (∀ e, e ∈ es2' → e ∈ es2 ∨ e ∉ concat chains) →
  buckets (put_slot i es1 n c) (<[i := es1 ++ es2']> chains).
Proof.
  intros Hb Ei Hc Hp Hnd Hpl Hnew. destruct (concat_at chains i _ Ei) as (others & Eall & Enew & Hothers).
  pose proof (bk_nodup _ _ Hb) as Hnd0. rewrite Eall in Hnd0. apply NoDup_app in Hnd0 as (_ & Hdis & Hndo).
  destruct (put_lengths i es1 n c) as (El & _ & Ell). pose proof (sb_handles _ _ (put_same i es1 n c)) as Eh.
  assert (∀ e, e ∈ es1 ++ es2' → e ∉ others) as Hdis'.
  { intros e [He|He]%elem_of_app Ho; [by apply (Hdis e); [apply elem_of_app; left|]|].
    destruct (Hnew e He) as [He2|Hn]; [by apply (Hdis e); [apply elem_of_app; right|]|]. apply Hn. rewrite Eall. apply elem_of_app. by right. }
  assert (i < length chains)%nat as Hi by (by eapply lookup_lt_Some).
  split.
  - intros j es Ej. destruct (decide (j = i)) as [->|Hj].
    + rewrite list_lookup_insert_eq in Ej by done. injection Ej as <-. apply chain_at_app. exists n.
      apply NoDup_app in Hnd as (Hnd1 & Hd & _). split; [by eapply put_chain|by apply put_path].
    + rewrite list_lookup_insert_ne in Ej by done. apply put_other; [by apply (bk_chain _ _ Hb)|done|].
      intros x Hx Hx'. apply (Hdis' x); [apply elem_of_app; by left|by eapply Hothers].
  - rewrite length_insert, Ell. apply (bk_count _ _ Hb).
  - intros j es e Ej He. rewrite Eh, El. destruct (decide (j = i)) as [->|Hj].
    + rewrite list_lookup_insert_eq in Ej by done. injection Ej as <-. apply elem_of_app in He as [He|He]; [|by apply Hpl].
      eapply (bk_place _ _ Hb); [exact Ei|]. apply elem_of_app. by left.
    + rewrite list_lookup_insert_ne in Ej by done. by eapply (bk_place _ _ Hb).
  - rewrite Enew. by apply NoDup_app.
  - rewrite El, Ell. apply (bk_length _ _ Hb).
Qed.

Lemma run_table_Remove c chains key hash :
  table c chains → (∀ e, e ∈ concat chains → readable c e) →
  ∃ r c' chains', table_Remove key hash c = Done (r, c') ∧ finds c chains key hash r ∧ same_but_table c c' ∧ table c' chains' ∧
    concat chains ≡ₚ option_list r ++ concat chains'.
Proof.
  intros Ht Hr. destruct (run_chain_search c chains key hash Ht Hr) as (es1 & es2 & q & Ei & Ef & Hc & Hp & Eq & Hq).
  set (i := bucket_of hash (length_ c)) in *. unfold table_Remove. bind_with Ef. bind_with (run_read_slot _ _ _ _ Hc).
  destruct es2 as [|e es2]; cbn in Eq; subst q; [by exists None, c, chains|].
  destruct Hp as (_ & n & En & Hp). erewrite bind_done; [|].
  2: { erewrite bind_done by (unfold read_slot; rewrite bind_get, En; reflexivity). bind_with (run_write_slot _ _ _ n _ Hc).
       rewrite bind_get. reflexivity. }
  destruct (concat_at chains i _ Ei) as (others & Eall & Enew & _).
  pose proof (bk_nodup _ _ (tb_buckets _ _ Ht)) as Hnd. rewrite Eall in Hnd. apply NoDup_app in Hnd as (Hnd & _ & _).
  pose proof (tb_elems _ _ Ht) as Hel. pose proof (tb_small _ _ Ht) as Hsm. change (2 ^ 31) with 2147483648 in Hsm.
  assert (concat chains ≡ₚ e :: concat (<[i := es1 ++ es2]> chains)) as Eperm by (rewrite Eall, Enew; solve_Permutation).
  rewrite Eperm in Hel. cbn [length] in Hel.
  destruct (put_lengths i es1 n c) as (El & Ele & _). rewrite El, Ele.
  assert (u32 (elems_ c - 1) = elems_ c - 1) as -> by (apply wrapu_small; pow2; lia).
  eexists (Some e), _, (<[i := es1 ++ es2]> chains). split; [reflexivity|].
  assert (buckets (put_slot i es1 n c) (<[i := es1 ++ es2]> chains)) as Hb'.
  { eapply (put_buckets c chains i es1 (e :: es2)); [apply Ht|exact Ei|exact Hc|exact Hp| | |].
    - apply NoDup_app in Hnd as (H1 & Hd & [_ H2]%NoDup_cons). apply NoDup_app. split_and!; [done| |done].
      intros x Hx Hx'. apply (Hd x Hx). by right.
    - intros x Hx. eapply (bk_place _ _ (tb_buckets _ _ Ht)); [exact Ei|]. apply elem_of_app. right. by right.
    - intros x Hx. left. by right. }
  pose proof (put_same i es1 n c) as Hs. split_and!; [done|by destruct Hs| |exact Eperm].
  split.
  - destruct Hb' as [H1 H2 H3 H4 H5]. split; [exact H1|exact H2| |exact H4|].
    + intros j es x Ej Hx. destruct (H3 j es x Ej Hx) as (h & Eh & Ebk). exists h. rewrite El in Ebk. done.
    + cbn. by rewrite <-El.
  - intros x y Hx Hy Exy. apply (tb_keys _ _ Ht); [rewrite Eperm; by right..|].
    rewrite <-(same_key_of _ _ x Hs), <-(same_key_of _ _ y Hs). exact Exy.
  - apply (tb_pow _ _ Ht).
  - cbn. lia.
  - cbn. pow2. lia.
Qed.
(** ** The change of the size *)

Definition with_list c (length : Z) (l : list (option Z)) : LRUCache V :=
  MkCache (capacity_ c) (usage_ c) (handles c) (malloc_ c) (ring_ c) (next_hash_ c) length (elems_ c) l (deleted_ c).
Definition put_next_hash (e : Z) p c : LRUCache V :=
  MkCache (capacity_ c) (usage_ c) (handles c) (malloc_ c) (ring_ c) (<[e := p]> (next_hash_ c)) (length_ c) (elems_ c) (list_ c) (deleted_ c).

Definition power (length : Z) : Prop := ∃ k, 2 ≤ k ≤ 31 ∧ length = 2 ^ k.
Lemma bucket_of_lt hash length : power length → (bucket_of hash length < Z.to_nat length)%nat.
Proof.
  intros (k & Hk & ->). unfold bucket_of. assert (0 < 2 ^ k) as Hpos by lia.
  assert (2 ^ k ≤ 2 ^ 31) as Hmax by (apply Z.pow_le_mono_r; lia). change (2 ^ 31) with 2147483648 in Hmax.
  rewrite wrapu_small by (pow2; lia). replace (2 ^ k - 1) with (Z.ones k) by (rewrite Z.ones_equiv; lia). rewrite Z.land_ones by lia.
  pose proof (Z.mod_pos_bound hash (2 ^ k) Hpos). lia.
Qed.

Lemma run_double c elems n : ∀ k, elems ≤ 2 ^ 31 → 2 ≤ k ≤ 31 → (Z.to_nat (31 - k) = n)%nat → ∀ b, Z.of_nat n < b →
  ∃ len, loop b (double_step elems) (2 ^ k) c = Done (len, c) ∧ power len ∧ elems ≤ len.
Proof.
  induction n as [|n IH]; intros k Hel Hk Hn b Hb.
  - assert (k = 31) as -> by lia. exists (2 ^ 31). split_and!; [|by exists 31|done]. apply loop_inr; [lia|].
    unfold double_step. by rewrite (proj2 (Z.ltb_ge _ _)).
  - destruct (Z.ltb_spec (2 ^ k) elems) as [Hlt|Hge].
    + assert (u32 (2 ^ k * 2) = 2 ^ (k + 1)) as E.
      { rewrite Z.pow_add_r by lia. apply wrapu_small. assert (2 ^ (k + 1) ≤ 2 ^ 31) as H by (apply Z.pow_le_mono_r; lia).
        rewrite Z.pow_add_r in H by lia. change (2 ^ 31) with 2147483648 in H. pow2. lia. }
      destruct (IH (k + 1) Hel ltac:(lia) ltac:(lia) (b - 1) ltac:(lia)) as (len & El & Hlen). exists len. split; [|done].
      rewrite (loop_inl b _ _ c (2 ^ (k + 1)) c); [exact El|lia|]. unfold double_step. by rewrite (proj2 (Z.ltb_lt _ _)), E.
    + exists (2 ^ k). split_and!; [|by exists k|done]. apply loop_inr; [lia|]. unfold double_step. by rewrite (proj2 (Z.ltb_ge _ _)).
Qed.

(** The members that moving a chain leaves. *)
Record moved c c' (es : list Z) : Prop := {
  mv_same : same_but_table c c';
  mv_list : list_ c' = list_ c;
  mv_length : length_ c' = length_ c;
  mv_elems : elems_ c' = elems_ c;
  mv_next x : x ∉ es → next_hash_ c' !! x = next_hash_ c !! x;
}.
Lemma moved_trans c1 c2 c3 es es' : moved c1 c2 es → moved c2 c3 es' → moved c1 c3 (es ++ es').
Proof.
  intros [H1 H2 H3 H4 H5] [I1 I2 I3 I4 I5]. split; [by eapply same_but_table_trans|congruence..|].
  intros x [? ?]%not_elem_of_app. rewrite I5, H5; done.
Qed.

(** A handle is put in front of the chain of its bucket in the new array. *)
Lemma move_buckets_one c len l chains e h es i :
  buckets (with_list c len l) chains → handles c !! e = Some h → bucket_of (h_hash h) len = i → chains !! i = Some es →
  e ∉ concat chains → is_Some (next_hash_ c !! e) → ∃ first, l !! i = Some first ∧
  buckets (with_list (put_next_hash e first c) len (<[i := Some e]> l)) (<[i := e :: es]> chains).
Proof.
  intros Hb Eh Ei Ees He Hn. destruct (bk_chain _ _ Hb i es Ees) as (first & Ef & Hp). exists first. split; [done|].
  set (c1 := with_list (put_next_hash e first c) len l).
  assert (buckets c1 chains) as Hb1.
  { destruct Hb as [H1 H2 H3 H4 H5]. split; [|done..]. intros j es' Ej. destruct (H1 j es' Ej) as (q & Eq & Hq). exists q. split; [done|].
    eapply path_frame; [exact Hq|]. intros x Hx. cbn. rewrite lookup_insert_ne; [done|]. intros ->. apply He. by eapply elem_of_concat_lookup. }
  pose proof (put_buckets c1 chains i [] es (e :: es) (Some e) first Hb1 Ees) as H. cbn in H. apply H; clear H.
  - exists first. by split.
  - split; [done|]. exists first. split; [apply lookup_insert_eq|]. destruct (bk_chain _ _ Hb1 i es Ees) as (q & Eq & Hq). cbn in Eq, Ef. rewrite Ef in Eq. injection Eq as <-. exact Hq.
  - destruct (concat_at chains i _ Ees) as (others & Eall & _). pose proof (bk_nodup _ _ Hb) as Hnd. rewrite Eall in Hnd.
    apply NoDup_app in Hnd as (Hnd & _ & _). apply NoDup_cons. split; [|done]. intros Hin. apply He. by eapply elem_of_concat_lookup.
  - intros x [->|Hx]%elem_of_cons; [by exists h|]. by eapply (bk_place _ _ Hb1).
  - intros x [->|Hx]%elem_of_cons; [by right|by left].
Qed.

Lemma run_move len : power len → ∀ es p c l chains count n,
  buckets (with_list c len l) chains → path (next_hash_ c) p es None → NoDup (es ++ concat chains) →
  (∀ e, e ∈ es → is_Some (handles c !! e)) → 0 ≤ count → count + Z.of_nat (length es) < 2 ^ 32 → Z.of_nat (length es) < n →
  ∃ c' l' chains', loop n (move_step len) (p, l, count) c = Done ((l', count + Z.of_nat (length es)), c') ∧
    buckets (with_list c' len l') chains' ∧ concat chains' ≡ₚ es ++ concat chains ∧ moved c c' es.
Proof.
  intros Hlen. induction es as [|e es IH]; intros p c l chains count n Hb Hp Hnd Hes H0 Hcount Hn.
  { cbn in Hp. subst p. exists c, l, chains. rewrite Z.add_0_r. split_and!; [by apply loop_inr|done|done|done]. }
  destruct Hp as (-> & next & En & Hp). destruct (Hes e) as [h Eh]; [left|]. cbn [app] in Hnd. apply NoDup_cons in Hnd as [He Hnd].
  set (i := bucket_of (h_hash h) len) in *. pose proof (bucket_of_lt (h_hash h) len Hlen) as Hi. fold i in Hi.
  destruct (lookup_lt_is_Some_2 chains i) as [ci Eci].
  { rewrite (bk_count _ _ Hb). pose proof (bk_length _ _ Hb) as Hbl. cbn in *. lia. }
  destruct (move_buckets_one c len l chains e h ci i Hb Eh eq_refl Eci) as (first & Efirst & Hb1).
  { intros Hin. apply He, elem_of_app. by right. } { by eexists. }
  set (c1 := put_next_hash e first c) in *.
  assert (move_step len (Some e, l, count) c = Done (inl (next, <[i := Some e]> l, u32 (count + 1)), c1)) as Estep.
  { unfold move_step. erewrite bind_done by (unfold read_slot; rewrite bind_get, En; reflexivity).
    bind_with (run_deref _ _ _ Eh). fold i. rewrite (bind_lift _ _ _ _ Efirst).
    erewrite bind_done; [reflexivity|]. unfold write_slot, read_slot. rewrite bind_assoc, bind_get, En. reflexivity. }
  destruct (concat_at chains i _ Eci) as (others & Eall & Enew & _).
  destruct (IH next c1 (<[i := Some e]> l) (<[i := e :: ci]> chains) (u32 (count + 1)) (n - 1)) as (c' & l' & chains' & El & Hb' & Ec & Hm).
  - exact Hb1.
  - eapply path_frame; [exact Hp|]. intros x Hx. cbn. rewrite lookup_insert_ne; [done|]. intros ->. apply He, elem_of_app. by left.
  - rewrite (Enew (e :: ci)). rewrite Eall in Hnd, He. apply (NoDup_Permutation_proper (e :: es ++ ci ++ others)); [solve_Permutation|].
    by apply NoDup_cons.
  - intros x Hx. apply Hes. by right.
  - apply wrapu_range; lia.
  - cbn [length] in Hcount. pow2. rewrite wrapu_small by (pow2; lia). lia.
  - cbn [length] in Hn. lia.
  - cbn [length] in Hcount, Hn |- *. pow2. rewrite wrapu_small in El, Estep by (pow2; lia). exists c', l', chains'. split_and!.
    + rewrite (loop_inl n _ _ _ _ _ ltac:(lia) Estep), El. f_equal. f_equal. f_equal. lia.
    + done.
    + rewrite Ec, (Enew (e :: ci)), Eall. solve_Permutation.
    + change (e :: es) with ([e] ++ es). eapply moved_trans; [|exact Hm]. split; try done.
      intros x Hx. cbn. rewrite lookup_insert_ne; [done|]. intros ->. apply Hx. left.
Qed.
(** Some chains are in the old array still. *)
Lemma run_move_buckets len ps : power len → ∀ ess c l chains count,
  buckets (with_list c len l) chains → Forall2 (λ p es, path (next_hash_ c) p es None) ps ess →
  NoDup (concat ess ++ concat chains) → (∀ e, e ∈ concat ess → is_Some (handles c !! e)) →
  0 ≤ count → count + Z.of_nat (length (concat ess)) ≤ elems_ c → elems_ c ≤ 2 ^ 31 →
  ∃ c' l' chains', move_buckets ps len l count c = Done ((l', count + Z.of_nat (length (concat ess))), c') ∧
    buckets (with_list c' len l') chains' ∧ concat chains' ≡ₚ concat ess ++ concat chains ∧ moved c c' (concat ess).
Proof.
  intros Hlen. induction ps as [|p ps IH]; intros ess c l chains count Hb Hps Hnd Hes H0 Hcount Hel.
  { apply Forall2_nil_inv_l in Hps as ->. cbn. exists c, l, chains. rewrite Z.add_0_r. by split_and!. }
  apply Forall2_cons_inv_l in Hps as (es & ess' & Hp & Hps & ->). cbn [concat] in *. rewrite length_app in Hcount.
  rewrite <-app_assoc in Hnd. apply NoDup_app in Hnd as (Hnd1 & Hd1 & Hnd2). change (2 ^ 31) with 2147483648 in Hel.
  destruct (run_move len Hlen es p c l chains count (elems_ c + 2)) as (c1 & l1 & chains1 & E1 & Hb1 & Ec1 & Hm1); [done|done| |..|lia|pow2; lia|lia|].
  { apply NoDup_app in Hnd2 as (_ & _ & Hnd2). apply NoDup_app. split_and!; [done| |done]. intros x Hx Hx'. apply (Hd1 x Hx), elem_of_app. by right. }
  { intros x Hx. apply Hes, elem_of_app. by left. }
  destruct Hm1 as [Hs1 Hl1 Hlen1 Hel1 Hn1].
  destruct (IH ess' c1 l1 chains1 (count + Z.of_nat (length es))) as (c2 & l2 & chains2 & E2 & Hb2 & Ec2 & Hm2).
  - done.
  - apply Forall2_same_length_lookup. split; [by eapply Forall2_length|]. intros i q es' Eq Ees'.
    eapply path_frame; [by apply (Forall2_lookup_lr _ _ _ _ _ _ Hps Eq)|]. intros x Hx. apply Hn1. intros Hx'.
    apply (Hd1 x Hx'), elem_of_app. left. by eapply elem_of_concat_lookup.
  - rewrite Ec1. apply NoDup_app in Hnd2 as (N1 & D1 & N2). apply NoDup_app. split_and!; [done| |].
    + intros x Hx [Hx'|Hx']%elem_of_app; [by apply (Hd1 x Hx'), elem_of_app; left|by apply (D1 x)].
    + apply NoDup_app. split_and!; [done| |done]. intros x Hx Hx'. apply (Hd1 x Hx), elem_of_app. by right.
  - intros x Hx. rewrite (sb_handles _ _ Hs1). apply Hes, elem_of_app. by right.
  - lia.
  - rewrite Hel1. lia.
  - rewrite Hel1. done.
  - exists c2, l2, chains2. split_and!.
    + cbn [move_buckets]. rewrite bind_get. bind_with E1. rewrite E2, length_app. do 3 f_equal. lia.
    + done.
    + rewrite Ec2, Ec1. solve_Permutation.
    + eapply moved_trans; [|exact Hm2]. by split.
Qed.

Lemma new_buckets c len : 0 ≤ len → buckets (with_list c len (replicate (Z.to_nat len) None)) (replicate (Z.to_nat len) []).
Proof.
  intros Hlen. split.
  - intros i es [-> Hi]%lookup_replicate. exists None. split; [|done]. cbn. by apply lookup_replicate.
  - cbn. by rewrite !length_replicate.
  - intros i es e [-> _]%lookup_replicate Hin. by apply not_elem_of_nil in Hin.
  - assert (concat (replicate (Z.to_nat len) ([] : list Z)) = []) as -> by (induction (Z.to_nat len); [done|cbn; done]). constructor.
  - cbn. rewrite length_replicate. lia.
Qed.
Lemma concat_nils n : concat (replicate n ([] : list Z)) = [].
Proof. induction n; [done|cbn; done]. Qed.

(** The size is changed: the same handles, and room for all of them. *)
Lemma run_Resize c chains :
  buckets c chains → elems_ c = Z.of_nat (length (concat chains)) → elems_ c ≤ 2 ^ 31 →
  (∀ e e', e ∈ concat chains → e' ∈ concat chains → key_of c e = key_of c e' → e = e') →
  ∃ c' chains', Resize c = Done (tt, c') ∧ same_but_table c c' ∧ table c' chains' ∧ concat chains' ≡ₚ concat chains ∧
    elems_ c' = elems_ c ∧ elems_ c' ≤ length_ c'.
Proof.
  intros Hb Hel Hsm Hkeys. unfold Resize. rewrite bind_get.
  destruct (run_double c (elems_ c) 29 2 Hsm ltac:(lia) eq_refl 40 ltac:(lia)) as (len & E1 & Hlen & Hle). change (2 ^ 2) with 4 in E1. bind_with E1.
  assert (0 ≤ len) as Hpos by (destruct Hlen as (k & ? & ->); lia).
  pose proof (new_buckets c len Hpos) as Hnew.
  destruct (run_move_buckets len (list_ c) Hlen chains c (replicate (Z.to_nat len) None) (replicate (Z.to_nat len) []) 0) as (c' & l' & chains' & E2 & Hb' & Ec & Hm).
  - done.
  - apply Forall2_same_length_lookup. split; [symmetry; apply (bk_count _ _ Hb)|]. intros i p es Ep Ees.
    destruct (bk_chain _ _ Hb i es Ees) as (q & Eq & Hq). by simplify_eq.
  - rewrite concat_nils, app_nil_r. apply (bk_nodup _ _ Hb).
  - intros e (es & He & [i Ei]%list_elem_of_lookup)%list_elem_of_concat. destruct (bk_place _ _ Hb i es e Ei He) as (h & Eh & _). by eexists.
  - done.
  - lia.
  - done.
  - bind_with E2. rewrite bind_assert by (apply Z.eqb_eq; lia). destruct Hm as [Hs Hl Hln Hel' _].
    rewrite concat_nils, app_nil_r in Ec. rewrite <-Hel'. exists (with_list c' len l'), chains'.
    split_and!; [done|by destruct Hs| |done|done|cbn; lia]. split; [done| | | |].
    + intros x y Hx Hy Exy. rewrite Ec in Hx, Hy. apply Hkeys; [done..|].
      unfold key_of in *. cbn in Exy. by rewrite (sb_handles _ _ Hs) in Exy.
    + exact Hlen.
    + cbn. by rewrite Ec, Hel'.
    + cbn. lia.
Qed.

(** ** Insertion *)

(** The handle that is put in the place of the one that is found, or at the end. *)
Lemma insert_buckets c chains i es1 es2 q h hh :
  buckets c chains → chains !! i = Some (es1 ++ es2) → chain_at c i es1 q → path (next_hash_ c) q es2 None →
  handles c !! h = Some hh → bucket_of (h_hash hh) (length_ c) = i → h ∉ concat chains →
  ∃ next, (match q with None => mret None | Some o => read_slot (NextHash o) end) c = Done (next, c) ∧
    let c1 := put_next_hash h next c in
    chain_at c1 i es1 q ∧ buckets (put_slot i es1 (Some h) c1) (<[i := es1 ++ h :: tail es2]> chains).
Proof.
  intros Hb Ei Hc Hp Eh Ebk Hh.
  assert (∃ next, (match q with None => mret None | Some o => read_slot (NextHash o) end) c = Done (next, c) ∧ path (next_hash_ c) next (tail es2) None)
    as (next & En & Hnext).
  { destruct es2 as [|e es2]; cbn in Hp; [subst q; by exists None|]. destruct Hp as (-> & n & En & Hp). exists n.
    split; [|done]. unfold read_slot. by rewrite bind_get, En. }
  exists next. split; [done|]. intros c1.
  assert (∀ j es, chains !! j = Some es → h ∉ es) as Hout by (intros j es Ej Hin; apply Hh; by eapply elem_of_concat_lookup).
  assert (∀ p es r, path (next_hash_ c) p es r → h ∉ es → path (next_hash_ c1) p es r) as Hpath.
  { intros p es r Hpa Hin. eapply path_frame; [done|]. intros x Hx. cbn. rewrite lookup_insert_ne; [done|]. by intros ->. }
  assert (h ∉ es1 ∧ h ∉ es2) as [H1 H2] by (by apply not_elem_of_app, (Hout i)).
  assert (chain_at c1 i es1 q) as Hc1 by (destruct Hc as (p & Ep & Hpp); exists p; split; [done|by apply Hpath]).
  split; [done|]. assert (buckets c1 chains) as Hb1.
  { destruct Hb as [B1 B2 B3 B4 B5]. split; [|done..]. intros j es Ej. destruct (B1 j es Ej) as (p & Ep & Hpp). exists p. split; [done|].
    apply Hpath; [done|by eapply Hout]. }
  assert (NoDup (es1 ++ es2)) as Hnd.
  { destruct (concat_at chains i _ Ei) as (others & Eall & _). pose proof (bk_nodup _ _ Hb) as H. rewrite Eall in H. by apply NoDup_app in H as (? & _). }
  assert (∀ x, x ∈ tail es2 → x ∈ es2) as Htail by (intros x Hx; destruct es2; [done|by right]).
  eapply (put_buckets c1 chains i es1 es2); [exact Hb1|exact Ei|exact Hc1| | | |].
  - split; [done|]. exists next. split; [apply lookup_insert_eq|]. apply Hpath; [done|]. auto.
  - apply NoDup_app in Hnd as (N1 & D & N2). apply NoDup_app. split_and!; [done| |].
    + intros x Hx [->|Hx']%elem_of_cons; [done|]. apply (D x Hx). auto.
    + apply NoDup_cons. split; [auto|]. destruct es2; [constructor|by apply NoDup_cons in N2 as [_ ?]].
  - intros x [->|Hx]%elem_of_cons; [by exists hh|]. eapply (bk_place _ _ Hb1); [exact Ei|]. apply elem_of_app. right. auto.
  - intros x [->|Hx]%elem_of_cons; [by right|left; auto].
Qed.

Lemma run_table_Insert c chains h hh :
  table c chains → (∀ e, e ∈ h :: concat chains → readable c e) → handles c !! h = Some hh → h ∉ concat chains → elems_ c < 2 ^ 31 →
  ∃ old c' chains', table_Insert h c = Done (old, c') ∧ finds c chains (h_key hh) (h_hash hh) old ∧ same_but_table c c' ∧
    table c' chains' ∧ h :: concat chains ≡ₚ option_list old ++ concat chains'.
Proof.
  intros Ht Hr Eh Hh Hsm. pose proof (tb_buckets _ _ Ht) as Hb. change (2 ^ 31) with 2147483648 in Hsm.
  destruct (run_chain_search c chains (h_key hh) (h_hash hh) Ht) as (es1 & es2 & q & Ei & Ef & Hc & Hp & Eq & Hq); [intros e He; apply Hr; by right|].
  set (i := bucket_of (h_hash hh) (length_ c)) in *.
  destruct (insert_buckets c chains i es1 es2 q h hh Hb Ei Hc Hp Eh eq_refl Hh) as (next & En & Hc1 & Hb1). cbv zeta in Hc1, Hb1.
  set (c1 := put_next_hash h next c) in *. set (c2 := put_slot i es1 (Some h) c1) in *.
  set (chains2 := <[i := es1 ++ h :: tail es2]> chains) in *.
  assert (same_but_table c c2) as Hs by (eapply same_but_table_trans; [|apply put_same]; done).
  assert (h :: concat chains ≡ₚ option_list q ++ concat chains2) as Eperm.
  { destruct (concat_at chains i _ Ei) as (others & Eall & Enew & _). unfold chains2. rewrite Enew, Eall, Eq.
    destruct es2 as [|e es2]; cbn; [|]; solve_Permutation. }
  assert (∀ e e', e ∈ concat chains2 → e' ∈ concat chains2 → key_of c e = key_of c e' → e = e') as Hkeys.
  { assert (key_of c h = Some (h_hash hh, h_key hh)) as Ekh by (unfold key_of; by rewrite Eh).
    assert (NoDup (h :: concat chains)) as Hnd by (apply NoDup_cons; split; [done|apply (bk_nodup _ _ Hb)]). rewrite Eperm in Hnd.
    assert (∀ e, e ∈ concat chains2 → e = h ∨ e ∈ concat chains ∧ ¬ matches c (h_key hh) (h_hash hh) e) as Hcase.
    { intros e He. assert (e ∈ h :: concat chains) as [->|Hin]%elem_of_cons by (rewrite Eperm; apply elem_of_app; by right); [by left|].
      right. split; [done|]. destruct q as [o|]; cbn in Hq, Hnd; [|by apply Hq]. intros Hm. destruct Hq as [Ho Hmo].
      assert (e = o) as -> by (apply (tb_keys _ _ Ht); [done..|]; unfold matches in *; congruence). by apply NoDup_cons in Hnd as [? _]. }
    intros x y Hx Hy Exy. destruct (Hcase x Hx) as [->|[Hx1 Hx2]], (Hcase y Hy) as [->|[Hy1 Hy2]]; [done| | |by apply (tb_keys _ _ Ht)].
    - destruct Hy2. unfold matches. congruence.
    - destruct Hx2. unfold matches. congruence. }
  assert (∀ e e', e ∈ concat chains2 → e' ∈ concat chains2 → key_of c2 e = key_of c2 e' → e = e') as Hkeys2.
  { intros x y Hx Hy. rewrite !(same_key_of c c2) by done. by apply Hkeys. }
  destruct (put_lengths i es1 (Some h) c1) as (El & Ee & _). fold c2 in El, Ee. cbn in El, Ee.
  unfold table_Insert. bind_with (run_handle_key c h hh Eh (Hr h ltac:(left))). bind_with (run_deref _ _ _ Eh). bind_with Ef.
  bind_with (run_read_slot _ _ _ _ Hc). bind_with En. rewrite bind_get. erewrite bind_done by reflexivity. fold (put_next_hash h next c) c1.
  bind_with (run_write_slot c1 i es1 (Some h) q Hc1). fold c2. pose proof (tb_elems _ _ Ht) as Hel.
  destruct q as [o|].
  - exists (Some o), c2, chains2. split_and!; [done|done|done| |done]. cbn in Eperm. apply Permutation_length in Eperm as El2. cbn in El2.
    split; [exact Hb1|exact Hkeys2|rewrite El; apply (tb_pow _ _ Ht)|lia|pow2; lia].
  - cbn in Eperm. apply Permutation_length in Eperm as El2. cbn in El2. rewrite bind_assoc, bind_get.
    assert (u32 (elems_ c2 + 1) = elems_ c2 + 1) as -> by (apply wrapu_small; pow2; lia).
    set (c4 := MkCache (capacity_ c2) (usage_ c2) (handles c2) (malloc_ c2) (ring_ c2) (next_hash_ c2) (length_ c2) (elems_ c2 + 1) (list_ c2) (deleted_ c2)).
    rewrite bind_assoc, (bind_done (set_table _ _ _) _ c2 tt c4 eq_refl), bind_assoc, bind_get.
    assert (buckets c4 chains2) as Hb4 by (destruct Hb1; by split).
    assert (same_but_table c c4) as Hs4 by (by destruct Hs).
    destruct (Z.ltb_spec (length_ c4) (elems_ c4)).
    + destruct (run_Resize c4 chains2 Hb4) as (c5 & chains5 & E5 & Hs5 & Ht5 & Ec5 & _); [cbn; lia|cbn; pow2; lia|exact Hkeys2|].
      exists None, c5, chains5. bind_with E5. split_and!; [done|done|by eapply same_but_table_trans|done|]. cbn. by rewrite Ec5.
    + exists None, c4, chains2. split_and!; [done|done|done| |done].
      split; [exact Hb4|exact Hkeys2|cbn; rewrite El; apply (tb_pow _ _ Ht)|cbn; lia|cbn; pow2; lia].
Qed.
End table.
