(* ===== verification/LdbCacheSpec.v ===== *)
(** * leveldb: what the block cache promises

    An abstract cache: the entries that nobody uses, in the order of their last use, the
    entries in use, the handles that clients hold, and what was deleted. The pointers, the
    reference counts and the hash table of [LdbCache] refine it. *)
From S2P Require Import Prelude LdbLog LdbFilter LdbRing LdbCache LdbCacheTable.

(** ** The abstract cache *)

Section abstract.
Context {V : Type}.

Record Entry := MkEntry { en_key : list Z; en_hash : Z; en_value : V; en_charge : Z }.

(** [a_entries] has the entries that are alive; [a_out] has a handle as often as clients
    hold it. *)
Record ACache := MkACache {
  a_entries : gmap Z Entry;
  a_lru : list Z;
  a_used : list Z;
  a_out : list Z;
  a_deleted : list (list Z * V);
  a_next : Z;
}.
Implicit Types a : ACache.

Definition without (e : Z) (l : list Z) : list Z := filter (λ x, x ≠ e) l.
Fixpoint remove_one (e : Z) (l : list Z) : list Z :=
  match l with [] => [] | x :: l => if decide (x = e) then l else x :: remove_one e l end.
Definition cached_ids a : list Z := a_lru a ++ a_used a.
Definition charge_of a (e : Z) : Z := from_option en_charge 0 (a_entries a !! e).
Definition charge a : Z := foldr Z.add 0 (charge_of a <$> cached_ids a).

(** The entry of a key. *)
Definition has_key a (key : list Z) (hash : Z) (e : Z) : Prop :=
  ∃ en, a_entries a !! e = Some en ∧ en_key en = key ∧ en_hash en = hash.
#[export] Instance has_key_dec a key hash e : Decision (has_key a key hash e).
Proof.
  refine (match a_entries a !! e as o return a_entries a !! e = o → _ with
          | Some en => λ E, cast_if (decide (en_key en = key ∧ en_hash en = hash))
          | None => λ E, right _ end eq_refl); [exists en; tauto|..]; intros (en' & E' & H); simplify_eq; tauto.
Defined.
Definition a_find a (key : list Z) (hash : Z) : option Z := head (filter (has_key a key hash) (cached_ids a)).

(** A client takes a handle of the entry. *)
Definition a_ref (e : Z) a : ACache :=
  if decide (e ∈ a_lru a) then MkACache (a_entries a) (without e (a_lru a)) (a_used a ++ [e]) (e :: a_out a) (a_deleted a) (a_next a)
  else MkACache (a_entries a) (a_lru a) (a_used a) (e :: a_out a) (a_deleted a) (a_next a).
(** A client gives a handle back: the last one of an entry that is not cached deletes it. *)
Definition a_release (e : Z) a : ACache :=
  let out := remove_one e (a_out a) in
  if decide (e ∈ out) then MkACache (a_entries a) (a_lru a) (a_used a) out (a_deleted a) (a_next a)
  else if decide (e ∈ a_used a) then MkACache (a_entries a) (a_lru a ++ [e]) (without e (a_used a)) out (a_deleted a) (a_next a)
  else
    let last := (λ en, (en_key en, en_value en)) <$> a_entries a !! e in
    MkACache (delete e (a_entries a)) (a_lru a) (a_used a) out (a_deleted a ++ option_list last) (a_next a).
(** The cache lets an entry go; its own reference is given back like that of a client. *)
Definition a_erase (e : Z) a : ACache :=
  a_release e (MkACache (a_entries a) (without e (a_lru a)) (without e (a_used a)) (e :: a_out a) (a_deleted a) (a_next a)).
Definition a_erase_opt (e : option Z) a : ACache := match e with Some e => a_erase e a | None => a end.

(** The oldest entries that nobody uses are erased until the charge fits. *)
Fixpoint a_evict (capacity : Z) (n : nat) a : ACache :=
  match n with
  | O => a
  | S n =>
      if capacity <? charge a then
        match a_lru a with [] => a | e :: _ => a_evict capacity n (a_erase e a) end
      else a
  end.
Definition a_insert (capacity : Z) (key : list Z) (hash : Z) (value : V) (charge : Z) a : ACache :=
  let e := a_next a in
  let old := a_find a key hash in
  let a := MkACache (<[e := MkEntry key hash value charge]> (a_entries a)) (a_lru a) (a_used a ++ [e]) (e :: a_out a)
             (a_deleted a) (e + 1) in
  let a := a_erase_opt old a in
  a_evict capacity (length (a_lru a)) a.
Definition a_lookup (key : list Z) (hash : Z) a : option Z * ACache :=
  let e := a_find a key hash in (e, match e with Some e => a_ref e a | None => a end).
Definition a_prune a : ACache := foldr a_erase a (rev (a_lru a)).
End abstract.
Arguments Entry : clear implicits.
Arguments ACache : clear implicits.

(** ** Lists of handles *)

Definition occ (e : Z) (l : list Z) : nat := length (filter (λ x, x = e) l).
Lemma occ_cons e x l : occ e (x :: l) = ((if decide (x = e) then 1 else 0) + occ e l)%nat.
Proof. unfold occ. rewrite filter_cons. by destruct (decide (x = e)). Qed.
Lemma occ_zero e l : occ e l = O ↔ e ∉ l.
Proof.
  unfold occ. split.
  - intros H%nil_length_inv Hin. apply (not_elem_of_nil e). rewrite <-H. by apply list_elem_of_filter.
  - intros H. destruct (filter (λ x, x = e) l) as [|x l'] eqn:E; [done|].
    assert (x ∈ filter (λ x, x = e) l) as [-> Hx]%list_elem_of_filter by (rewrite E; left). done.
Qed.
Lemma occ_remove_one e x l : e ∈ l → occ x (remove_one e l) = (occ x l - (if decide (e = x) then 1 else 0))%nat.
Proof.
  induction l as [|y l IH]; [by intros ?%not_elem_of_nil|]. cbn [remove_one]. intros Hin. destruct (decide (y = e)) as [->|Hne].
  - rewrite occ_cons. destruct (decide (e = x)); lia.
  - apply elem_of_cons in Hin as [->|Hin]; [done|]. rewrite !occ_cons, (IH Hin). destruct (decide (e = x)) as [<-|]; [|lia].
    rewrite decide_False by done. lia.
Qed.
Lemma remove_one_in e x l : x ∈ remove_one e l → x ∈ l.
Proof. induction l as [|y l IH]; [done|]. cbn [remove_one]. destruct (decide (y = e)); [by right|]. intros [->|H]%elem_of_cons; [left|right; auto]. Qed.

Lemma without_id e l : e ∉ l → without e l = l.
Proof.
  induction l as [|x l IH]; [done|]. intros [Hx Hl]%not_elem_of_cons. unfold without. rewrite filter_cons_True by congruence.
  f_equal. by apply IH.
Qed.
Lemma without_split e xs ys : NoDup (xs ++ e :: ys) → without e (xs ++ e :: ys) = xs ++ ys.
Proof.
  intros (H1 & Hd & [He H2]%NoDup_cons)%NoDup_app. unfold without. rewrite filter_app, filter_cons_False by tauto.
  fold (without e xs) (without e ys). rewrite !without_id; [done|done|]. intros Hin. apply (Hd e Hin). left.
Qed.
Lemma elem_of_without e x l : x ∈ without e l ↔ x ≠ e ∧ x ∈ l.
Proof. unfold without. by rewrite list_elem_of_filter. Qed.
Lemma without_perm e l : NoDup l → e ∈ l → l ≡ₚ e :: without e l.
Proof. intros Hnd (xs & ys & ->)%list_elem_of_split. rewrite without_split by done. solve_Permutation. Qed.
Lemma NoDup_without e l : NoDup l → NoDup (without e l).
Proof. apply NoDup_filter. Qed.

(** ** The relation *)

Section refinement.
Context {V : Type}.
Implicit Types (c : LRUCache V) (a : ACache V).

Definition entry_of (h : LRUHandle V) : Entry V := MkEntry (h_key h) (h_hash h) (h_value h) (h_charge h).

(** The lists. *)
Record rings (l : links) (lru used : list Z) : Prop := {
  rg_lru : ring l lru_ lru;
  rg_used : ring l in_use_ used;
  rg_nodup : NoDup (lru ++ used);
  rg_heads e : e ∈ lru ++ used → 2 ≤ e;
}.

(** The counts of references are those of the clients and of the cache. *)
Record handle_ok (cached out : list Z) (malloc e : Z) (h : LRUHandle V) : Prop := {
  ho_range : 2 ≤ e < malloc;
  ho_cached : h_in_cache h = bool_decide (e ∈ cached);
  ho_refs : h_refs h = Z.of_nat (occ e out) + (if h_in_cache h then 1 else 0);
  ho_alive : 0 < h_refs h;
}.

(** [T] has the handles of the table. *)
Record rel c a (T : list Z) : Prop := {
  re_rings : rings (ring_ c) (a_lru a) (a_used a);
  re_handles e h : handles c !! e = Some h → handle_ok (cached_ids a) (a_out a) (malloc_ c) e h;
  re_links e : is_Some (handles c !! e) → has_links (ring_ c) e ∧ readable c e;
  re_alive e : e ∈ cached_ids a ++ a_out a → is_Some (handles c !! e);
  re_idle e : e ∈ a_lru a → e ∉ a_out a;
  re_busy e : e ∈ a_used a → e ∈ a_out a;
  re_entries : entry_of <$> handles c = a_entries a;
  re_deleted : deleted_ c = a_deleted a;
  re_malloc : malloc_ c = a_next a ∧ 2 ≤ malloc_ c;
  re_usage : usage_ c = charge a;
  re_charges e en : a_entries a !! e = Some en → 0 ≤ en_charge en;
  re_small : charge a < 2 ^ 64;
  re_table : ∃ chains, table c chains ∧ concat chains ≡ₚ T;
  re_in_table : T ⊆ cached_ids a;
}.
Definition cache_rel c a : Prop := ∃ T, rel c a T ∧ T ≡ₚ cached_ids a.

Lemma entry_lookup c a T e : rel c a T → a_entries a !! e = entry_of <$> handles c !! e.
Proof. intros Hr. by rewrite <-(re_entries _ _ _ Hr), lookup_fmap. Qed.

Lemma run_on_ring {A} (f : M links A) c x l :
  f (ring_ c) = Done (x, l) →
  on_ring f c = Done (x, MkCache (capacity_ c) (usage_ c) (handles c) (malloc_ c) l (next_hash_ c) (length_ c) (elems_ c) (list_ c) (deleted_ c)).
Proof. unfold on_ring. by intros ->. Qed.

(** The table does not depend on counts, on the lists, or on handles that it has not. *)
Lemma table_frame c c' chains :
  table c chains → list_ c' = list_ c → length_ c' = length_ c → elems_ c' = elems_ c →
  (∀ e, e ∈ concat chains → next_hash_ c' !! e = next_hash_ c !! e ∧ key_of c' e = key_of c e) → table c' chains.
Proof.
  intros [[B1 B2 B3 B4 B5] K P N S] El Eln Ele Hf. split; [split| | | |]; rewrite ?El, ?Eln, ?Ele; try done.
  - intros i es Ei. destruct (B1 i es Ei) as (p & Ep & Hp). exists p. rewrite El. split; [done|]. eapply path_frame; [done|].
    intros x Hx. apply Hf. by eapply elem_of_concat_lookup.
  - intros i es e Ei He. destruct (B3 i es e Ei He) as (h & Eh & Ebk). destruct (Hf e) as [_ Ek]; [by eapply elem_of_concat_lookup|].
    unfold key_of in Ek. rewrite Eh in Ek. cbn in Ek. destruct (handles c' !! e) as [h'|]; [|done]. injection Ek as Eh' _. exists h'. by rewrite Eh'.
  - intros x y Hx Hy Exy. apply K; [done..|]. destruct (Hf x Hx) as [_ <-], (Hf y Hy) as [_ <-]. done.
Qed.

(** A handle with other counts. *)
Lemma entries_insert (hs : gmap Z (LRUHandle V)) e h h' :
  hs !! e = Some h → entry_of h' = entry_of h → entry_of <$> <[e := h']> hs = entry_of <$> hs.
Proof. intros Eh E. rewrite fmap_insert, E. apply insert_id. by rewrite lookup_fmap, Eh. Qed.

Lemma run_set_refs c e h n :
  handles c !! e = Some h →
  set_refs e n c = Done (tt, MkCache (capacity_ c) (usage_ c) (<[e := MkHandle (h_value h) (h_charge h) (h_key h) (h_in_cache h) n (h_hash h)]> (handles c))
    (malloc_ c) (ring_ c) (next_hash_ c) (length_ c) (elems_ c) (list_ c) (deleted_ c)).
Proof. intros Eh. unfold set_refs. by bind_with (run_deref c e h Eh). Qed.
(** ** Moves between the lists *)

(** Two lists with the heads [hA] and [hB]. *)
Record two (l : links) (hA : Z) (A : list Z) (hB : Z) (B : list Z) : Prop := {
  tw_A : ring l hA A;
  tw_B : ring l hB B;
  tw_nodup : NoDup (A ++ B);
  tw_heads : hA ≠ hB ∧ hA ∉ A ++ B ∧ hB ∉ A ++ B;
}.
Lemma two_sym l hA A hB B : two l hA A hB B → two l hB B hA A.
Proof. intros [H1 H2 H3 (H4 & H5 & H6)]. rewrite !elem_of_app in H5, H6. split; [done..|by rewrite Permutation_app_comm|rewrite !elem_of_app; split_and!; [by apply not_eq_sym|tauto..]]. Qed.
Lemma rings_two l lru used : rings l lru used → two l lru_ lru in_use_ used.
Proof.
  intros [H1 H2 H3 H4]. split; [done..|]. unfold lru_, in_use_ in *. split_and!; [done|intros H%H4; lia..].
Qed.
Lemma two_rings l lru used : two l lru_ lru in_use_ used → (∀ e, e ∈ lru ++ used → 2 ≤ e) → rings l lru used.
Proof. intros [H1 H2 H3 _] H4. by split. Qed.

Lemma run_take_out l hA A hB B e :
  two l hA A hB B → e ∈ A →
  ∃ l', ring_Remove e l = Done (tt, l') ∧ two l' hA (without e A) hB B ∧ (∀ y, y ∉ hA :: without e A → same_links l l' y) ∧
    ∀ y, has_links l y → has_links l' y.
Proof.
  intros [HA HB Hnd (Hne & HhA & HhB)] He. pose proof He as (xs & ys & ->)%list_elem_of_split. pose proof Hnd as (NA & D & NB)%NoDup_app.
  rewrite without_split by done. destruct (run_unlink l hA xs e ys HA) as (l' & E1 & HA' & Hf & Hm). exists l'.
  assert (∀ x, x ∈ xs ++ ys → x ∈ xs ++ e :: ys) as Hsub by (intros x; rewrite !elem_of_app, elem_of_cons; tauto).
  assert (∀ x, x ∈ (xs ++ ys) ++ B → x ∈ (xs ++ e :: ys) ++ B) as Hsub' by (intros x [Hx|Hx]%elem_of_app; apply elem_of_app; auto).
  split_and!; [done| |done|done]. split; [done| | |split_and!; [done|auto..]].
  - eapply ring_frame; [done|]. intros y Hy. apply Hf. intros Hin. apply elem_of_cons in Hy as [->|Hy], Hin as [E|Hin%Hsub].
    + by apply Hne.
    + apply HhB, elem_of_app. by left.
    + subst y. apply HhA, elem_of_app. by right.
    + by apply (D y).
  - apply NoDup_app. split_and!; [destruct HA' as [[_ ?]%NoDup_cons _]; done| |done]. intros x Hx%Hsub. by apply D.
Qed.

Lemma run_put_in l hA A hB B e :
  two l hA A hB B → e ∉ A ++ B → e ≠ hA → e ≠ hB → has_links l e →
  ∃ l', ring_Append hB e l = Done (tt, l') ∧ two l' hA A hB (B ++ [e]) ∧ (∀ y, y ∉ hB :: B ++ [e] → same_links l l' y) ∧
    ∀ y, has_links l y → has_links l' y.
Proof.
  intros [HA HB Hnd (Hne & HhA & HhB)] He HeA HeB Hl. pose proof Hnd as (NA & D & NB)%NoDup_app. rewrite !not_elem_of_app in He, HhA, HhB.
  pose proof (not_eq_sym HeA) as HAe. pose proof (not_eq_sym HeB) as HBe. assert (∀ x, x ∉ [e] ↔ x ≠ e) as Hone by (intros x; by rewrite list_elem_of_singleton).
  destruct (run_link l hB B e HB) as (l' & E1 & HB' & Hf & Hm); [rewrite not_elem_of_cons; tauto|done|]. exists l'.
  split_and!; [done| |done|done]. split; [|done| |].
  - eapply ring_frame; [done|]. intros y Hy. apply Hf. rewrite not_elem_of_cons, not_elem_of_app, Hone.
    apply elem_of_cons in Hy as [->|Hy]; [tauto|].
    split_and!; [intros ->; tauto|intros Hin; by apply (D y)|intros ->; tauto].
  - apply NoDup_app. split_and!; [done| |by destruct HB' as [[_ ?]%NoDup_cons _]]. intros x Hx [Hx'|Hx'%list_elem_of_singleton]%elem_of_app; [by apply (D x)|].
    subst x. tauto.
  - rewrite !not_elem_of_app, !Hone. tauto.
Qed.

(** An entry goes from one list to the end of the other. *)
Lemma run_move_entry l hA A hB B e :
  two l hA A hB B → e ∈ A → has_links l e →
  ∃ l1 l2, ring_Remove e l = Done (tt, l1) ∧ ring_Append hB e l1 = Done (tt, l2) ∧ two l2 hA (without e A) hB (B ++ [e]) ∧
    (∀ y, y ∉ hA :: hB :: A ++ B → same_links l l2 y) ∧ ∀ y, has_links l y → has_links l2 y.
Proof.
  intros H He Hl. destruct (run_take_out l hA A hB B e H He) as (l1 & E1 & H1 & Hf1 & Hm1).
  pose proof H as [_ _ Hnd (Hne & HhA & HhB)]. pose proof Hnd as (NA & D & NB)%NoDup_app.
  destruct (run_put_in l1 hA (without e A) hB B e H1) as (l2 & E2 & H2 & Hf2 & Hm2).
  - rewrite not_elem_of_app, elem_of_without. split; [tauto|by apply D].
  - intros ->. apply HhA, elem_of_app. by left.
  - intros ->. apply HhB, elem_of_app. by left.
  - by apply Hm1.
  - exists l1, l2. split_and!; [done..| |auto]. intros y [HyA [HyB [Hy1 Hy2]%not_elem_of_app]%not_elem_of_cons]%not_elem_of_cons.
    destruct (Hf1 y) as [Hn1 Hp1]; [rewrite not_elem_of_cons, elem_of_without; tauto|].
    destruct (Hf2 y) as [Hn2 Hp2]; [rewrite not_elem_of_cons, not_elem_of_app, list_elem_of_singleton; split_and!; [done|done|by intros ->]|].
    split; congruence.
Qed.
(** ** References *)

Lemma charge_perm a a' : a_entries a' = a_entries a → cached_ids a' ≡ₚ cached_ids a → charge a' = charge a.
Proof.
  intros Ee Ep. unfold charge, charge_of. rewrite Ee. apply (foldr_permutation_proper (=) Z.add 0); [intros; lia|]. by apply fmap_Permutation.
Qed.

Definition upd c (l : links) (hs : gmap Z (LRUHandle V)) : LRUCache V :=
  MkCache (capacity_ c) (usage_ c) hs (malloc_ c) l (next_hash_ c) (length_ c) (elems_ c) (list_ c) (deleted_ c).

Lemma rings_readable l lru used e : rings l lru used → e ∈ lru ++ used → ∃ n, next_ l !! e = Some (Some n) ∧ n ≠ e.
Proof. intros [H1 H2 _ _] [He|He]%elem_of_app; [by apply (ring_readable _ _ _ _ H1)|by apply (ring_readable _ _ _ _ H2)]. Qed.

(** The counts of one handle and the lists change. *)
Lemma rel_update c a a' T l e h n :
  rel c a T → handles c !! e = Some h →
  a_entries a' = a_entries a → a_deleted a' = a_deleted a → a_next a' = a_next a → cached_ids a' ≡ₚ cached_ids a →
  rings l (a_lru a') (a_used a') → (∀ y, y ∉ lru_ :: in_use_ :: cached_ids a → same_links (ring_ c) l y) → (∀ y, has_links (ring_ c) y → has_links l y) →
  n = Z.of_nat (occ e (a_out a')) + (if h_in_cache h then 1 else 0) → 0 < n → (∀ x, x ≠ e → occ x (a_out a') = occ x (a_out a)) →
  (∀ x, x ∈ a_lru a' → x ∉ a_out a') → (∀ x, x ∈ a_used a' → x ∈ a_out a') →
  rel (upd c l (<[e := MkHandle (h_value h) (h_charge h) (h_key h) (h_in_cache h) n (h_hash h)]> (handles c))) a' T.
Proof.
  intros Hr Eh Ee Ed En Ec Hrings Hf Hm Hn Hpos Hocc Hidle Hbusy. set (h' := MkHandle _ _ _ _ _ _).
  assert (∀ x, is_Some (<[e := h']> (handles c) !! x) → is_Some (handles c !! x)) as Hsub.
  { intros x [hx Ex]. destruct (decide (e = x)) as [->|Hne]; [by eexists|]. rewrite lookup_insert_ne in Ex by done. by eexists. }
  assert (∀ x, is_Some (handles c !! x) → is_Some (<[e := h']> (handles c) !! x)) as Hsup.
  { intros x Hx. destruct (decide (e = x)) as [->|Hne]; [rewrite lookup_insert_eq; by eexists|by rewrite lookup_insert_ne]. }
  assert (∀ x, bool_decide (x ∈ cached_ids a') = bool_decide (x ∈ cached_ids a)) as Hdec.
  { intros x. apply bool_decide_ext. by rewrite Ec. }
  split; cbn.
  - done.
  - intros x hx Ex. destruct (decide (e = x)) as [<-|Hne].
    + rewrite lookup_insert_eq in Ex. injection Ex as <-. destruct (re_handles _ _ _ Hr e h Eh) as [R1 R2 R3 R4].
      split; cbn; [done|by rewrite Hdec|done|done].
    + rewrite lookup_insert_ne in Ex by done. destruct (re_handles _ _ _ Hr x hx Ex) as [R1 R2 R3 R4].
      split; [done|by rewrite Hdec|by rewrite Hocc|done].
  - intros x Hx%Hsub. destruct (re_links _ _ _ Hr x Hx) as [Hl (m & Em & Hne)]. split; [auto|]. unfold readable. cbn.
    destruct (decide (x ∈ cached_ids a)) as [Hin|Hout].
    + apply (rings_readable _ _ _ _ Hrings). fold (cached_ids a'). by rewrite Ec.
    + exists m. destruct (Hf x) as [-> _]; [|done]. destruct Hx as [hx Ex]. destruct (re_handles _ _ _ Hr x hx Ex) as [R1 _ _ _].
      unfold lru_, in_use_. rewrite !not_elem_of_cons. split_and!; [lia|lia|done].
  - intros x Hx. apply Hsup. destruct (decide (x = e)) as [->|Hne]; [by eexists|]. apply (re_alive _ _ _ Hr).
    apply elem_of_app in Hx as [Hx|Hx]; apply elem_of_app; [left; by rewrite <-Ec|right].
    destruct (decide (x ∈ a_out a)) as [|Hno]; [done|]. apply occ_zero in Hno. rewrite <-Hocc in Hno by done. by apply occ_zero in Hno.
  - done.
  - done.
  - by rewrite (entries_insert _ _ h), (re_entries _ _ _ Hr).
  - by rewrite Ed, (re_deleted _ _ _ Hr).
  - rewrite En. apply (re_malloc _ _ _ Hr).
  - by rewrite (charge_perm a a' Ee Ec), (re_usage _ _ _ Hr).
  - rewrite Ee. apply (re_charges _ _ _ Hr).
  - rewrite (charge_perm a a' Ee Ec). apply (re_small _ _ _ Hr).
  - destruct (re_table _ _ _ Hr) as (chains & Ht & ET). exists chains. split; [|done]. eapply table_frame; [done..|].
    intros x _. split; [done|]. unfold key_of. cbn. destruct (decide (e = x)) as [<-|Hne]; [by rewrite lookup_insert_eq, Eh|by rewrite lookup_insert_ne].
  - rewrite Ec. apply (re_in_table _ _ _ Hr).
Qed.

Lemma alive_handle c a T e : rel c a T → e ∈ cached_ids a ++ a_out a → ∃ h, handles c !! e = Some h ∧ handle_ok (cached_ids a) (a_out a) (malloc_ c) e h.
Proof. intros Hr He. destruct (re_alive _ _ _ Hr e He) as [h Eh]. exists h. split; [done|by eapply re_handles]. Qed.

Lemma cached_move (xs ys : list Z) e : NoDup xs → e ∈ xs → without e xs ++ ys ++ [e] ≡ₚ xs ++ ys.
Proof. intros Hnd He. rewrite (without_perm e xs Hnd He) at 2. solve_Permutation. Qed.

Lemma run_lru_Ref c a T e :
  rel c a T → e ∈ cached_ids a ++ a_out a → Z.of_nat (occ e (a_out a)) + 2 < 2 ^ 32 →
  ∃ c', lru_Ref e c = Done (tt, c') ∧ rel c' (a_ref e a) T.
Proof.
  intros Hr He Hsmall. destruct (alive_handle c a T e Hr He) as (h & Eh & [R1 R2 R3 R4]). destruct (re_links _ _ _ Hr e) as [Hl _]; [by eexists|].
  pose proof (re_rings _ _ _ Hr) as Hrings. pose proof (rg_nodup _ _ _ Hrings) as Hnd. pose proof Hnd as (N1 & D & N2)%NoDup_app.
  unfold lru_Ref. bind_with (run_deref c e h Eh). unfold a_ref.
  assert (u32 (h_refs h + 1) = h_refs h + 1) as Eu by (apply wrapu_small; pow2; destruct (h_in_cache h); lia).
  assert ((h_refs h =? 1) && h_in_cache h = bool_decide (e ∈ a_lru a)) as ->.
  { rewrite R2 in R3 |- *. destruct (decide (e ∈ a_lru a)) as [Hin|Hout].
    - rewrite (bool_decide_eq_true_2 (e ∈ a_lru a)) by done. rewrite bool_decide_eq_true_2 in R3 |- * by (apply elem_of_app; by left).
      apply (re_idle _ _ _ Hr), occ_zero in Hin. rewrite R3, Hin. done.
    - rewrite (bool_decide_eq_false_2 (e ∈ a_lru a)) by done. apply andb_false_iff. destruct (decide (e ∈ a_used a)) as [Hu|Hu].
      + left. rewrite bool_decide_eq_true_2 in R3 by (apply elem_of_app; by right). apply (re_busy _ _ _ Hr) in Hu.
        apply Z.eqb_neq. destruct (occ e (a_out a)) eqn:Eo; [by apply occ_zero in Eo|lia].
      + right. apply bool_decide_eq_false_2. unfold cached_ids. rewrite elem_of_app. tauto. }
  destruct (decide (e ∈ a_lru a)) as [Hin|Hout].
  - rewrite bool_decide_eq_true_2 by done.
    destruct (run_move_entry (ring_ c) lru_ (a_lru a) in_use_ (a_used a) e) as (l1 & l2 & E1 & E2 & H2 & Hf & Hm); [by apply rings_two|done|done|].
    rewrite bind_assoc. unfold LRU_Remove, LRU_Append. bind_with (run_on_ring _ c _ _ E1). erewrite bind_done by (apply run_on_ring; exact E2).
    erewrite bind_done by (apply run_deref; exact Eh). rewrite Eu. eexists. split; [apply run_set_refs; exact Eh|].
    apply (rel_update c a); cbn [a_entries a_deleted a_next a_lru a_used a_out]; try done.
    + unfold cached_ids. cbn. by apply cached_move.
    + apply two_rings; [done|]. intros x Hx. apply (rg_heads _ _ _ Hrings). rewrite (cached_move (a_lru a) (a_used a) e) in Hx by done. done.
    + rewrite occ_cons, decide_True by done. rewrite R3. destruct (h_in_cache h); lia.
    + destruct (h_in_cache h); lia.
    + intros x Hx. rewrite occ_cons, decide_False by congruence. done.
    + intros x [Hx Hxl]%elem_of_without. rewrite not_elem_of_cons. split; [done|by apply (re_idle _ _ _ Hr)].
    + intros x [Hx|Hx%list_elem_of_singleton]%elem_of_app; [right; by apply (re_busy _ _ _ Hr)|subst x; left].
  - rewrite bool_decide_eq_false_2 by done. erewrite bind_done by reflexivity. bind_with (run_deref c e h Eh). rewrite Eu.
    eexists. split; [by apply run_set_refs|]. apply (rel_update c a); cbn [a_entries a_deleted a_next a_lru a_used a_out]; try done.
    + rewrite occ_cons, decide_True by done. rewrite R3. destruct (h_in_cache h); lia.
    + lia.
    + intros x Hx. rewrite occ_cons, decide_False by congruence. done.
    + intros x Hx. rewrite not_elem_of_cons. split; [by intros ->|by apply (re_idle _ _ _ Hr)].
    + intros x Hx. right. by apply (re_busy _ _ _ Hr).
Qed.
(** An entry that nobody holds, and that is not cached, is deleted. *)
Definition freed c (e : Z) (h : LRUHandle V) : LRUCache V :=
  MkCache (capacity_ c) (usage_ c) (delete e (handles c)) (malloc_ c) (drop_links e (ring_ c)) (delete e (next_hash_ c))
    (length_ c) (elems_ c) (list_ c) (deleted_ c ++ [(h_key h, h_value h)]).
Lemma rel_freed c a T e h out :
  rel c a T → handles c !! e = Some h → e ∉ cached_ids a → e ∉ out → (∀ x, x ≠ e → occ x out = occ x (a_out a)) →
  rel (freed c e h) (MkACache (delete e (a_entries a)) (a_lru a) (a_used a) out (a_deleted a ++ [(h_key h, h_value h)]) (a_next a)) T.
Proof.
  intros Hr Eh Hc Ho Hocc. destruct (re_handles _ _ _ Hr e h Eh) as [R1 _ _ _].
  assert (∀ x, x ≠ e → x ∈ out ↔ x ∈ a_out a) as Hin.
  { intros x Hx. specialize (Hocc x Hx). destruct (decide (x ∈ out)) as [H|H], (decide (x ∈ a_out a)) as [H'|H']; try tauto.
    - apply occ_zero in H'. rewrite <-Hocc in H'. by apply occ_zero in H'.
    - apply occ_zero in H. rewrite Hocc in H. by apply occ_zero in H. }
  assert (charge (MkACache (delete e (a_entries a)) (a_lru a) (a_used a) out (a_deleted a ++ [(h_key h, h_value h)]) (a_next a)) = charge a) as Ech.
  { unfold charge, cached_ids. cbn. f_equal. apply list_fmap_ext. intros i x Ex. unfold charge_of. cbn.
    rewrite lookup_delete_ne; [done|]. intros ->. apply Hc. by eapply list_elem_of_lookup_2. }
  split; try rewrite Ech; cbn.
  - destruct (re_rings _ _ _ Hr) as [H1 H2 H3 H4]. split; [| |done|done].
    + eapply ring_frame; [done|]. intros y Hy. unfold same_links. cbn. rewrite !lookup_delete_ne; [done|..]; intros <-;
        (apply elem_of_cons in Hy as [->|Hy]; [unfold lru_ in R1; lia|apply Hc, elem_of_app; by left]).
    + eapply ring_frame; [done|]. intros y Hy. unfold same_links. cbn. rewrite !lookup_delete_ne; [done|..]; intros <-;
        (apply elem_of_cons in Hy as [->|Hy]; [unfold in_use_ in R1; lia|apply Hc, elem_of_app; by right]).
  - intros x hx [Hne Ex]%lookup_delete_Some. destruct (re_handles _ _ _ Hr x hx Ex) as [Q1 Q2 Q3 Q4]. split; [done|done| |done].
    rewrite Hocc; [done|congruence].
  - intros x [hx [Hne Ex]%lookup_delete_Some]. destruct (re_links _ _ _ Hr x) as [[L1 L2] (m & Em & Hm)]; [by eexists|].
    split; [split; cbn; by rewrite lookup_delete_ne|]. exists m. cbn. by rewrite lookup_delete_ne.
  - intros x Hx. assert (x ≠ e) as Hne.
    { intros ->. apply elem_of_app in Hx as [Hx|Hx]; [by apply Hc|done]. }
    rewrite lookup_delete_ne by done. apply (re_alive _ _ _ Hr). apply elem_of_app in Hx as [Hx|Hx]; apply elem_of_app; [by left|right; by apply Hin].
  - intros x Hx. assert (x ≠ e) as Hne by (intros ->; apply Hc, elem_of_app; by left). rewrite Hin by done. by apply (re_idle _ _ _ Hr).
  - intros x Hx. assert (x ≠ e) as Hne by (intros ->; apply Hc, elem_of_app; by right). rewrite Hin by done. by apply (re_busy _ _ _ Hr).
  - by rewrite fmap_delete, (re_entries _ _ _ Hr).
  - by rewrite (re_deleted _ _ _ Hr).
  - apply (re_malloc _ _ _ Hr).
  - apply (re_usage _ _ _ Hr).
  - intros x en [_ Ex]%lookup_delete_Some. by eapply (re_charges _ _ _ Hr).
  - apply (re_small _ _ _ Hr).
  - destruct (re_table _ _ _ Hr) as (chains & Ht & ET). exists chains. split; [|done]. eapply table_frame; [done..|].
    intros x Hx. assert (x ≠ e) as Hne by (intros ->; apply Hc, (re_in_table _ _ _ Hr); by rewrite <-ET).
    unfold key_of. cbn. by rewrite !lookup_delete_ne.
  - apply (re_in_table _ _ _ Hr).
Qed.

Lemma run_lru_Unref c a T e :
  rel c a T → e ∈ a_out a → ∃ c', lru_Unref e c = Done (tt, c') ∧ rel c' (a_release e a) T.
Proof.
  intros Hr Hout. destruct (alive_handle c a T e Hr) as (h & Eh & [R1 R2 R3 R4]); [apply elem_of_app; by right|].
  destruct (re_links _ _ _ Hr e) as [Hl Hread]; [by eexists|]. pose proof (re_rings _ _ _ Hr) as Hrings.
  pose proof (rg_nodup _ _ _ Hrings) as Hnd. pose proof Hnd as (N1 & D & N2)%NoDup_app.
  set (out := remove_one e (a_out a)). assert (∀ x, occ x out = (occ x (a_out a) - (if decide (e = x) then 1 else 0))%nat) as Hocc by (intros x; by apply occ_remove_one).
  assert (∀ x, x ≠ e → occ x out = occ x (a_out a)) as Hother by (intros x Hx; rewrite Hocc, decide_False by congruence; lia).
  pose proof (Hocc e) as Hoe. rewrite decide_True in Hoe by done.
  assert (occ e (a_out a) ≠ 0%nat) as Hpos by (intros H; by apply occ_zero in H).
  assert (∀ x, x ≠ e → x ∈ a_out a → x ∈ out) as Hkeep.
  { intros x Hx Hxo. destruct (decide (x ∈ out)) as [|H]; [done|]. apply occ_zero in H. rewrite Hother in H by done. by apply occ_zero in H. }
  assert (e ∉ a_lru a) as Hnl by (intros H; by apply (re_idle _ _ _ Hr) in H).
  unfold lru_Unref. bind_with (run_deref c e h Eh). rewrite bind_assert by (by apply Z.ltb_lt). bind_with (run_set_refs c e h (h_refs h - 1) Eh).
  erewrite bind_done by (apply run_deref; apply lookup_insert_eq). cbn [h_refs h_in_cache].
  unfold a_release. fold out. destruct (decide (e ∈ out)) as [Hin|Hnin].
  - assert (occ e out ≠ 0%nat) as Hoz by (intros H; by apply occ_zero in H).
    rewrite (proj2 (Z.eqb_neq _ _)) by (destruct (h_in_cache h); lia).
    replace (h_in_cache h && (h_refs h - 1 =? 1)) with false.
    2: { destruct (h_in_cache h); [cbn|done]. symmetry. apply Z.eqb_neq. lia. }
    eexists. split; [reflexivity|]. apply (rel_update c a); cbn [a_entries a_deleted a_next a_lru a_used a_out]; try done.
    + rewrite R3. destruct (h_in_cache h); lia.
    + destruct (h_in_cache h); lia.
    + intros x Hx Hxo%remove_one_in. by apply (re_idle _ _ _ Hr) in Hx.
    + intros x Hx. destruct (decide (x = e)) as [->|Hne]; [done|]. by apply Hkeep, (re_busy _ _ _ Hr).
  - assert (occ e out = 0%nat) as Hoz by (by apply occ_zero). destruct (decide (e ∈ a_used a)) as [Hu|Hu].
    + assert (h_in_cache h = true) as Eic by (rewrite R2; apply bool_decide_eq_true_2, elem_of_app; by right).
      rewrite Eic in R3 |- *. rewrite (proj2 (Z.eqb_neq _ _)) by lia. replace (h_refs h - 1) with 1 by lia. cbn [andb Z.eqb Pos.eqb].
      destruct (run_move_entry (ring_ c) in_use_ (a_used a) lru_ (a_lru a) e) as (l1 & l2 & E1 & E2 & H2 & Hf & Hm); [by apply two_sym, rings_two|done|done|].
      unfold LRU_Remove, LRU_Append. erewrite bind_done by (apply run_on_ring; exact E1). eexists. split; [apply run_on_ring; exact E2|].
      change (rel (upd c l2 (<[e := MkHandle (h_value h) (h_charge h) (h_key h) true 1 (h_hash h)]> (handles c))) (MkACache (a_entries a) (a_lru a ++ [e]) (without e (a_used a)) out (a_deleted a) (a_next a)) T).
      rewrite <-Eic. apply (rel_update c a); cbn [a_entries a_deleted a_next a_lru a_used a_out]; try done.
      * unfold cached_ids. cbn. rewrite <-app_assoc. rewrite (without_perm e (a_used a)) at 2 by done. solve_Permutation.
      * apply two_rings; [by apply two_sym|]. intros x Hx. apply (rg_heads _ _ _ Hrings). apply elem_of_app. rewrite !elem_of_app, list_elem_of_singleton, elem_of_without in Hx.
        destruct Hx as [[?| ->]|[_ ?]]; tauto.
      * intros y Hy. apply Hf. rewrite !not_elem_of_cons in Hy. rewrite !not_elem_of_cons, not_elem_of_app. unfold cached_ids in Hy. rewrite not_elem_of_app in Hy. tauto.
      * rewrite Eic. lia.
      * intros x [Hx|Hx%list_elem_of_singleton]%elem_of_app; [|by subst x]. intros Hxo%remove_one_in. by apply (re_idle _ _ _ Hr) in Hx.
      * intros x [Hne Hx]%elem_of_without. by apply Hkeep, (re_busy _ _ _ Hr).
    + assert (e ∉ cached_ids a) as Hc by (unfold cached_ids; rewrite elem_of_app; tauto).
      assert (h_in_cache h = false) as Eic by (rewrite R2; by apply bool_decide_eq_false_2).
      rewrite Eic in R3 |- *. rewrite (proj2 (Z.eqb_eq _ _)) by lia. rewrite bind_assert by done.
      set (h' := MkHandle _ _ _ _ _ _). set (c1 := MkCache _ _ _ _ _ _ _ _ _ _).
      erewrite bind_done; [|apply (run_handle_key c1 e h'); [apply lookup_insert_eq|exact Hread]].
      eexists. split; [reflexivity|]. rewrite (entry_lookup c a T e Hr), Eh. cbn [fmap option_fmap option_map entry_of en_key en_value option_list].
      assert (∀ m : LRUCache V, m = freed c e h → rel m (MkACache (delete e (a_entries a)) (a_lru a) (a_used a) out (a_deleted a ++ [(h_key h, h_value h)]) (a_next a)) T) as Hfin.
      { intros m ->. by apply rel_freed. }
      apply Hfin. unfold freed. cbn. f_equal. apply delete_insert_eq.
Qed.
End refinement.
