(* ===== verification/LdbCacheOps.v ===== *)
(** * leveldb: the block cache refines what it promises

    Each operation of a shard of the cache does to the pointers what the abstract operation
    does to the lists; so does any sequence of calls that gives back handles it has. *)
From S2P Require Import Prelude LdbLog LdbFilter LdbRing LdbCache LdbCacheTable LdbCacheSpec.

Section operations.
Context {V : Type}.
Implicit Types (c : LRUCache V) (a : ACache V).

(** ** The capacity is not changed *)

Definition keeps {A} (f : M (LRUCache V) A) : Prop := ∀ c x c', f c = Done (x, c') → capacity_ c' = capacity_ c.
Lemma keeps_bind {A B} (f : M (LRUCache V) A) (g : A → M (LRUCache V) B) : keeps f → (∀ x, keeps (g x)) → keeps (x ← f; g x).
Proof.
  intros Hf Hg c y c' E. unfold mbind, M_bind in E. destruct (f c) as [[x c1]| |] eqn:E1; [|done..].
  rewrite (Hg x c1 y c' E). by eapply Hf.
Qed.
Lemma keeps_ret {A} (x : A) : keeps (mret x).
Proof. by intros c y c' [= <- <-]. Qed.
Lemma keeps_get : keeps get_state.
Proof. by intros c y c' [= <- <-]. Qed.
Lemma keeps_lift {A} (x : option A) : keeps (lift_option x).
Proof. destruct x; [apply keeps_ret|done]. Qed.
Lemma keeps_assert b : keeps (assert_ b).
Proof. destruct b; [apply keeps_ret|done]. Qed.
Lemma keeps_undef {A} : keeps (undef : M _ A).
Proof. done. Qed.
Lemma keeps_on_ring {A} (f : M links A) : keeps (on_ring f).
Proof. intros c x c'. unfold on_ring. destruct (f (ring_ c)) as [[y l]| |]; [|done..]. by intros [= <- <-]. Qed.
Lemma keeps_set_handle e h : keeps (set_handle e h).
Proof. by intros c x c' [= <- <-]. Qed.
Lemma keeps_set_usage n : keeps (set_usage n).
Proof. by intros c x c' [= <- <-]. Qed.
Lemma keeps_free_handle e k v : keeps (free_handle e k v).
Proof. by intros c x c' [= <- <-]. Qed.
End operations.
Create HintDb keeps.
#[export] Hint Resolve keeps_bind keeps_ret keeps_get keeps_lift keeps_assert keeps_undef keeps_on_ring keeps_set_handle
  keeps_set_usage keeps_free_handle : keeps.
Ltac keeps := repeat first
  [ progress (intros; cbn [fst snd])
  | solve [auto with keeps] | apply keeps_bind
  | match goal with |- keeps (if ?b then _ else _) => destruct b end ].

Section erasing.
Context {V : Type}.
Implicit Types (c : LRUCache V) (a : ACache V).

Lemma keeps_deref e : keeps (V := V) (deref_handle e).
Proof. unfold deref_handle. keeps. Qed.
Lemma keeps_set_refs e n : keeps (V := V) (set_refs e n).
Proof. unfold set_refs. keeps. Qed.
Lemma keeps_key e : keeps (V := V) (handle_key e).
Proof. unfold handle_key. keeps. Qed.
#[local] Hint Resolve keeps_deref keeps_set_refs keeps_key : keeps.
Lemma keeps_Unref e : keeps (V := V) (lru_Unref e).
Proof. unfold lru_Unref, LRU_Remove, LRU_Append. keeps. Qed.
Lemma keeps_Ref e : keeps (V := V) (lru_Ref e).
Proof. unfold lru_Ref, LRU_Remove, LRU_Append. keeps. Qed.
#[local] Hint Resolve keeps_Unref : keeps.
Lemma keeps_FinishErase e : keeps (V := V) (FinishErase e).
Proof. unfold FinishErase, LRU_Remove, set_in_cache. destruct e; keeps. Qed.

(** ** Erasing *)

(** An entry is taken out of its list, whichever it is. *)
Lemma run_unlist l lru used e :
  rings l lru used → e ∈ lru ++ used →
  ∃ l', ring_Remove e l = Done (tt, l') ∧ rings l' (without e lru) (without e used) ∧
    (∀ y, y ∉ lru_ :: in_use_ :: without e lru ++ without e used → same_links l l' y) ∧ ∀ y, has_links l y → has_links l' y.
Proof.
  intros Hr He. pose proof (rg_nodup _ _ _ Hr) as Hnd. pose proof Hnd as (N1 & D & N2)%NoDup_app. pose proof (rings_two _ _ _ Hr) as H2.
  assert (∀ x, x ∈ without e lru ++ without e used → 2 ≤ x) as Hheads.
  { intros x Hx. apply (rg_heads _ _ _ Hr). rewrite elem_of_app, !elem_of_without in Hx. apply elem_of_app. tauto. }
  apply elem_of_app in He as [He|He].
  - destruct (run_take_out l lru_ lru in_use_ used e H2 He) as (l' & E & H' & Hf & Hm). exists l'. pose proof (D e He) as Hnot.
    rewrite (without_id e used) in * by done. split_and!; [done|by apply two_rings| |done].
    intros y [Hy1 [Hy2 [Hy3 Hy4]%not_elem_of_app]%not_elem_of_cons]%not_elem_of_cons. apply Hf. by rewrite not_elem_of_cons.
  - destruct (run_take_out l in_use_ used lru_ lru e (two_sym _ _ _ _ _ H2) He) as (l' & E & H' & Hf & Hm). exists l'.
    assert (e ∉ lru) as Hnot by (intros Hl; by apply (D e)). rewrite (without_id e lru) in * by done.
    split_and!; [done|apply two_rings; [by apply two_sym|done]| |done].
    intros y [Hy1 [Hy2 [Hy3 Hy4]%not_elem_of_app]%not_elem_of_cons]%not_elem_of_cons. apply Hf. by rewrite not_elem_of_cons.
Qed.

Lemma charge_nonneg a (l : list Z) : (∀ e en, a_entries a !! e = Some en → 0 ≤ en_charge en) → 0 ≤ foldr Z.add 0 (charge_of a <$> l).
Proof.
  intros H. induction l as [|e l IH]; cbn; [lia|]. assert (0 ≤ charge_of a e); [|lia]. unfold charge_of.
  destruct (a_entries a !! e) as [en|] eqn:E; cbn; [by eapply H|lia].
Qed.

(** The entry is the cache's no longer; the reference is not given back yet. *)
Definition uncached (e : Z) a : ACache V :=
  MkACache (a_entries a) (without e (a_lru a)) (without e (a_used a)) (e :: a_out a) (a_deleted a) (a_next a).
Lemma cached_uncached e a : cached_ids (uncached e a) = without e (cached_ids a).
Proof. unfold cached_ids, without. cbn. by rewrite filter_app. Qed.
Lemma charge_uncached e a en : NoDup (cached_ids a) → e ∈ cached_ids a → a_entries a !! e = Some en → charge a = en_charge en + charge (uncached e a).
Proof.
  intros Hnd He Een. unfold charge. rewrite cached_uncached.
  rewrite (foldr_permutation_proper (=) Z.add 0 ltac:(intros; lia) _ _ (fmap_Permutation (charge_of a) _ _ (without_perm e _ Hnd He))).
  cbn. unfold charge_of at 1. rewrite Een. done.
Qed.

Lemma rel_uncached c a T e h l :
  rel c a T → handles c !! e = Some h → e ∈ cached_ids a → e ∉ T → rings l (without e (a_lru a)) (without e (a_used a)) →
  (∀ y, y ∉ lru_ :: in_use_ :: cached_ids (uncached e a) → same_links (ring_ c) l y) → (∀ y, has_links (ring_ c) y → has_links l y) →
  rel (MkCache (capacity_ c) (u64 (usage_ c - h_charge h)) (<[e := MkHandle (h_value h) (h_charge h) (h_key h) false (h_refs h) (h_hash h)]> (handles c))
    (malloc_ c) l (next_hash_ c) (length_ c) (elems_ c) (list_ c) (deleted_ c)) (uncached e a) T.
Proof.
  intros Hr Eh He HT Hrings Hf Hm. set (h' := MkHandle _ _ _ _ _ _). pose proof (rg_nodup _ _ _ (re_rings _ _ _ Hr)) as Hnd.
  destruct (re_handles _ _ _ Hr e h Eh) as [R1 R2 R3 R4]. rewrite bool_decide_eq_true_2 in R2 by done. rewrite R2 in R3.
  assert (∀ x, x ≠ e → x ∈ cached_ids (uncached e a) ↔ x ∈ cached_ids a) as Hin.
  { intros x Hx. rewrite cached_uncached, elem_of_without. tauto. }
  assert (e ∉ cached_ids (uncached e a)) as Hnot by (rewrite cached_uncached, elem_of_without; tauto).
  assert (a_entries a !! e = Some (entry_of h)) as Een by (by rewrite (entry_lookup c a T e Hr), Eh).
  pose proof (charge_uncached e a _ Hnd He Een) as Ech. cbn [en_charge entry_of] in Ech. pose proof (re_usage _ _ _ Hr) as Eu. pose proof (re_small _ _ _ Hr) as Hsm.
  pose proof (re_charges _ _ _ Hr e _ Een) as Hpos. cbn in Hpos.
  pose proof (charge_nonneg (uncached e a) (cached_ids (uncached e a)) (re_charges _ _ _ Hr)) as Hpos'. fold (charge (uncached e a)) in Hpos'.
  assert (∀ x, is_Some (<[e := h']> (handles c) !! x) ↔ is_Some (handles c !! x)) as Hsub.
  { intros x. destruct (decide (e = x)) as [->|Hne]; [rewrite lookup_insert_eq, Eh; split; by eexists|by rewrite lookup_insert_ne]. }
  split; cbn -[charge cached_ids occ]; try done.
  - intros x hx Ex. destruct (decide (e = x)) as [<-|Hne].
    + rewrite lookup_insert_eq in Ex. injection Ex as <-. split; cbn -[cached_ids occ]; [done|by rewrite bool_decide_eq_false_2| |done].
      rewrite occ_cons, decide_True by done. lia.
    + rewrite lookup_insert_ne in Ex by done. destruct (re_handles _ _ _ Hr x hx Ex) as [Q1 Q2 Q3 Q4].
      split; [done| | |done]; [rewrite Q2; apply bool_decide_ext; symmetry; apply Hin; congruence|].
      cbn [uncached a_out]. by rewrite occ_cons, decide_False by done.
  - intros x Hx%Hsub. destruct (re_links _ _ _ Hr x Hx) as [Hl (m & Em & Hne)]. split; [auto|]. unfold readable. cbn.
    destruct (decide (x ∈ cached_ids (uncached e a))) as [Hi|Hout]; [by apply (rings_readable _ _ _ _ Hrings)|].
    exists m. destruct (Hf x) as [-> _]; [|done]. destruct Hx as [hx Ex]. destruct (re_handles _ _ _ Hr x hx Ex) as [Q1 _ _ _].
    unfold lru_, in_use_. rewrite !not_elem_of_cons. split_and!; [lia|lia|done].
  - intros x Hx. apply Hsub. destruct (decide (x = e)) as [->|Hne]; [by eexists|]. apply (re_alive _ _ _ Hr).
    rewrite elem_of_app, elem_of_cons, Hin in Hx by done. apply elem_of_app. tauto.
  - intros x [Hne Hx]%elem_of_without. rewrite not_elem_of_cons. split; [done|by apply (re_idle _ _ _ Hr)].
  - intros x [Hne Hx]%elem_of_without. right. by apply (re_busy _ _ _ Hr).
  - by rewrite (entries_insert _ _ h), (re_entries _ _ _ Hr).
  - apply (re_deleted _ _ _ Hr).
  - apply (re_malloc _ _ _ Hr).
  - rewrite wrapu_small; [lia|]. pow2. lia.
  - apply (re_charges _ _ _ Hr).
  - lia.
  - destruct (re_table _ _ _ Hr) as (chains & Ht & ET). exists chains. split; [|done]. eapply table_frame; [done..|].
    intros x _. split; [done|]. unfold key_of. cbn. destruct (decide (e = x)) as [<-|Hne]; [by rewrite lookup_insert_eq, Eh|by rewrite lookup_insert_ne].
  - intros x Hx. apply Hin; [by intros ->|]. by apply (re_in_table _ _ _ Hr).
Qed.

Lemma run_FinishErase c a T e :
  rel c a T → e ∈ cached_ids a → e ∉ T →
  ∃ c', FinishErase (Some e) c = Done (true, c') ∧ rel c' (a_erase e a) T ∧ capacity_ c' = capacity_ c.
Proof.
  intros Hr He HT. destruct (alive_handle c a T e Hr) as (h & Eh & [R1 R2 R3 R4]); [apply elem_of_app; by left|].
  rewrite bool_decide_eq_true_2 in R2 by done.
  destruct (run_unlist (ring_ c) _ _ e (re_rings _ _ _ Hr) He) as (l' & E1 & Hrings & Hf & Hm).
  pose proof (rel_uncached c a T e h l' Hr Eh He HT Hrings Hf Hm) as Hr1.
  destruct (run_lru_Unref _ _ _ e Hr1) as (c' & E2 & Hr2); [left|]. exists c'.
  assert (FinishErase (Some e) c = Done (true, c')) as E; [|split_and!; [exact E|exact Hr2|by eapply keeps_FinishErase]].
  unfold FinishErase. bind_with (run_deref c e h Eh). rewrite bind_assert by done. unfold LRU_Remove. erewrite bind_done by (apply run_on_ring; exact E1).
  unfold set_in_cache. rewrite bind_assoc. erewrite bind_done by (apply run_deref; exact Eh). erewrite bind_done by reflexivity.
  rewrite bind_get. erewrite bind_done by reflexivity. cbn [usage_ capacity_ handles malloc_ ring_ next_hash_ length_ elems_ list_ deleted_]. by bind_with E2.
Qed.

(** What remains in the cache. *)
Lemma release_cached e a : e ∉ a_used a → cached_ids (a_release e a) = cached_ids a ∧ a_lru (a_release e a) = a_lru a ∧ a_used (a_release e a) = a_used a.
Proof. intros H. unfold a_release, cached_ids. destruct (decide _); [done|]. rewrite decide_False by done. done. Qed.
Lemma erase_cached e a : cached_ids (a_erase e a) = without e (cached_ids a) ∧ a_lru (a_erase e a) = without e (a_lru a) ∧ a_used (a_erase e a) = without e (a_used a).
Proof.
  unfold a_erase. destruct (release_cached e (uncached e a)) as (E1 & E2 & E3); [cbn; rewrite elem_of_without; tauto|].
  fold (uncached e a). rewrite E1, E2, E3, cached_uncached. done.
Qed.
End erasing.

(** ** The table *)

Section finding.
Context {V : Type}.
Implicit Types (c : LRUCache V) (a : ACache V).

Lemma rel_table c c' a T T' :
  rel c a T → same_but_table c c' → (∃ chains, table c' chains ∧ concat chains ≡ₚ T') → T' ⊆ cached_ids a → rel c' a T'.
Proof.
  intros [] [S1 S2 S3 S4 S5 S6] Ht HT. split; unfold readable in *; rewrite ?S2, ?S3, ?S4, ?S5, ?S6; done.
Qed.

Lemma rel_table_perm c a T T' : rel c a T → T ≡ₚ T' → rel c a T'.
Proof.
  intros Hr HT. destruct (re_table _ _ _ Hr) as (chains & Ht & ET). eapply rel_table; [done|by split| |].
  - exists chains. split; [done|by rewrite ET].
  - intros x Hx. apply (re_in_table _ _ _ Hr). by rewrite HT.
Qed.

Lemma key_of_has_key c a T key hash e : rel c a T → key_of c e = Some (hash, key) ↔ has_key a key hash e.
Proof.
  intros Hr. unfold has_key, key_of. rewrite (entry_lookup c a T e Hr). destruct (handles c !! e) as [h|]; cbn.
  - split; [intros [= <- <-]; by eexists|]. by intros (en & [= <-] & <- & <-).
  - split; [done|]. by intros (en & ? & _).
Qed.

(** The table finds the entry of a key. *)
Lemma finds_find c a T chains key hash r :
  rel c a T → table c chains → concat chains ≡ₚ cached_ids a → finds c chains key hash r → r = a_find a key hash.
Proof.
  intros Hr Ht Hp Hf. unfold a_find. destruct (filter (has_key a key hash) (cached_ids a)) as [|x l] eqn:E; cbn.
  - destruct r as [e|]; [|done]. destruct Hf as [He Hm]. destruct (not_elem_of_nil e). rewrite <-E. apply list_elem_of_filter.
    split; [|by rewrite <-Hp]. by eapply key_of_has_key.
  - assert (x ∈ filter (has_key a key hash) (cached_ids a)) as [Hk Hx]%list_elem_of_filter by (rewrite E; left).
    rewrite <-Hp in Hx. eapply key_of_has_key in Hk; [|done]. destruct r as [e|]; [|by destruct (Hf x)].
    destruct Hf as [He Hm]. f_equal. apply (tb_keys _ _ Ht); [done..|]. unfold matches in Hm. congruence.
Qed.

Lemma rel_readable c a T e : rel c a T → e ∈ T → readable c e.
Proof.
  intros Hr He%(re_in_table _ _ _ Hr). destruct (re_alive _ _ _ Hr e) as [h Eh]; [apply elem_of_app; by left|].
  apply (re_links _ _ _ Hr). by eexists.
Qed.

Lemma a_find_cached a key hash e : a_find a key hash = Some e → e ∈ cached_ids a ∧ has_key a key hash e.
Proof.
  unfold a_find. intros E%head_Some_elem_of. apply list_elem_of_filter in E. tauto.
Qed.

Lemma cache_elems c a : cache_rel c a → elems_ c = Z.of_nat (length (cached_ids a)).
Proof.
  intros (T & Hr & HT). destruct (re_table _ _ _ Hr) as (chains & Ht & ET). rewrite (tb_elems _ _ Ht), ET, HT. done.
Qed.
Lemma cache_rel_table c a : cache_rel c a → ∃ chains, table c chains ∧ concat chains ≡ₚ cached_ids a ∧ rel c a (cached_ids a) ∧ ∀ e, e ∈ concat chains → readable c e.
Proof.
  intros (T & Hr & HT). pose proof (rel_table_perm c a T _ Hr HT) as Hr'. destruct (re_table _ _ _ Hr') as (chains & Ht & ET).
  exists chains. split_and!; [done..|]. intros e He. eapply rel_readable; [done|]. by rewrite <-ET.
Qed.

(** The entry of a key is taken out of the table and erased. *)
Lemma run_erase c a key hash :
  cache_rel c a →
  ∃ c1 c', table_Remove key hash c = Done (a_find a key hash, c1) ∧
    FinishErase (a_find a key hash) c1 = Done (bool_decide (is_Some (a_find a key hash)), c') ∧
    cache_rel c' (a_erase_opt (a_find a key hash) a) ∧ capacity_ c' = capacity_ c.
Proof.
  intros Hc. destruct (cache_rel_table c a Hc) as (chains & Ht & ET & Hr & Hread).
  destruct (run_table_Remove c chains key hash Ht Hread) as (r & c1 & chains1 & E1 & Hf & Hs & Ht1 & Hp).
  assert (r = a_find a key hash) as -> by (by eapply finds_find). exists c1.
  assert (concat chains1 ⊆ cached_ids a) as Hsub by (intros x Hx; rewrite <-ET, Hp; apply elem_of_app; by right).
  assert (rel c1 a (concat chains1)) as Hr1 by (eapply rel_table; [done|done|by exists chains1|done]).
  pose proof (rg_nodup _ _ _ (re_rings _ _ _ Hr)) as Hnd. fold (cached_ids a) in Hnd.
  destruct (a_find a key hash) as [e|] eqn:Ef.
  - cbn in Hp. assert (e ∉ concat chains1) as Hnot.
    { rewrite <-ET, Hp in Hnd. by apply NoDup_cons in Hnd as [? _]. }
    destruct (run_FinishErase c1 a _ e Hr1) as (c' & E2 & Hr2 & Ecap); [by apply a_find_cached in Ef as [? _]|done|].
    exists c'. split_and!; [done|done| |by rewrite Ecap, (sb_capacity _ _ Hs)].
    exists (concat chains1). split; [done|]. cbn. destruct (erase_cached e a) as [-> _].
    apply (Permutation_cons_inv (a := e)). rewrite <-without_perm; [by rewrite <-ET, Hp|done|by apply a_find_cached in Ef as [? _]].
  - exists c1. split_and!; [done|done| |by rewrite (sb_capacity _ _ Hs)]. exists (concat chains1). split; [done|]. cbn in Hp. by rewrite <-ET, Hp.
Qed.

Lemma a_find_self c a e en : cache_rel c a → e ∈ cached_ids a → a_entries a !! e = Some en → a_find a (en_key en) (en_hash en) = Some e.
Proof.
  intros Hc He Een. destruct (cache_rel_table c a Hc) as (chains & Ht & ET & Hr & _). symmetry.
  eapply (finds_find c a _ chains); [done..|]. split; [by rewrite ET|]. unfold matches. eapply key_of_has_key; [done|]. by exists en.
Qed.

(** ** Evicting *)

(** The oldest entry that nobody uses. *)
Lemma run_oldest c a : cache_rel c a → on_ring (get_next lru_) c = Done (default lru_ (head (a_lru a)), c).
Proof.
  intros (T & Hr & _). apply on_ring_same, run_get_next. apply (ring_first _ _ _ (rg_lru _ _ _ (re_rings _ _ _ Hr))).
Qed.

Lemma run_evict c a e : cache_rel c a → e ∈ a_lru a → ∃ c', evict e c = Done (tt, c') ∧ cache_rel c' (a_erase e a) ∧ capacity_ c' = capacity_ c.
Proof.
  intros Hc He. assert (e ∈ cached_ids a) as Hin by (apply elem_of_app; by left). pose proof Hc as (T & Hr & _).
  destruct (alive_handle c a T e Hr) as (h & Eh & [R1 R2 R3 R4]); [apply elem_of_app; by left|].
  rewrite bool_decide_eq_true_2 in R2 by done. rewrite R2, (proj2 (occ_zero e _)) in R3 by (by apply (re_idle _ _ _ Hr)).
  assert (a_entries a !! e = Some (entry_of h)) as Een by (by rewrite (entry_lookup c a T e Hr), Eh).
  destruct (run_erase c a (h_key h) (h_hash h) Hc) as (c1 & c' & E1 & E2 & Hc' & Ecap).
  rewrite (a_find_self c a e _ Hc Hin Een : a_find a (h_key h) (h_hash h) = _) in E1, E2, Hc'. exists c'. split_and!; [|done..].
  unfold evict. bind_with (run_deref c e h Eh). rewrite bind_assert by (by apply Z.eqb_eq).
  destruct (re_links _ _ _ Hr e) as [_ Hread]; [by eexists|]. bind_with (run_handle_key c e h Eh Hread). bind_with E1. by bind_with E2.
Qed.

Lemma without_head e l : NoDup (e :: l) → without e (e :: l) = l.
Proof. intros H. apply (without_split e [] l H). Qed.

Lemma rel_nodup c a : cache_rel c a → NoDup (cached_ids a) ∧ NoDup (a_lru a) ∧ ∀ e, e ∈ cached_ids a → 2 ≤ e.
Proof.
  intros (T & Hr & _). pose proof (re_rings _ _ _ Hr) as Hrings. pose proof (rg_nodup _ _ _ Hrings) as Hnd.
  split_and!; [done|by apply NoDup_app in Hnd as [? _]|apply (rg_heads _ _ _ Hrings)].
Qed.

(** The loops take the first entry as long as it is their turn. *)
Lemma run_evict_loop n : ∀ c a b, cache_rel c a → length (a_lru a) = n → Z.of_nat n < b →
  ∃ c', loop b evict_step tt c = Done (tt, c') ∧ cache_rel c' (a_evict (capacity_ c) n a) ∧ capacity_ c' = capacity_ c.
Proof.
  induction n as [|n IH]; intros c a b Hc Hn Hb; pose proof Hc as (T & Hr & _); pose proof (re_usage _ _ _ Hr) as Eu; cbn [a_evict].
  - exists c. split_and!; [|done..]. apply loop_inr; [lia|]. unfold evict_step. rewrite bind_get, Eu. destruct (capacity_ c <? charge a); [|done].
    bind_with (run_oldest c a Hc). by rewrite (nil_length_inv _ Hn).
  - destruct (capacity_ c <? charge a) eqn:El.
    + destruct (a_lru a) as [|e l] eqn:Elru; [done|]. destruct (run_evict c a e Hc) as (c1 & E1 & Hc1 & Ecap); [rewrite Elru; left|].
      destruct (rel_nodup c a Hc) as (_ & Hnd & Hheads). assert (lru_ < e) as Hlt.
      { assert (2 ≤ e); [|unfold lru_; lia]. apply Hheads, elem_of_app. left. rewrite Elru. left. }
      destruct (IH c1 (a_erase e a) (b - 1) Hc1) as (c' & E & Hc' & Ecap'); [|lia|].
      * destruct (erase_cached e a) as (_ & -> & _). rewrite Elru in Hnd |- *. rewrite without_head by done. simpl in Hn. lia.
      * exists c'. split_and!; [|by rewrite <-Ecap|by rewrite Ecap']. rewrite (loop_inl _ _ _ _ tt c1); [done|lia|].
        unfold evict_step. rewrite bind_get, Eu, El. bind_with (run_oldest c a Hc). rewrite Elru. cbn [head default]. unfold id.
        rewrite (proj2 (Z.eqb_neq _ _)) by lia. by bind_with E1.
    + exists c. split_and!; [|done..]. apply loop_inr; [lia|]. unfold evict_step. by rewrite bind_get, Eu, El.
Qed.
End finding.

(** ** The operations *)

Section refinement.
Context {V : Type}.
Implicit Types (c : LRUCache V) (a : ACache V).

Definition empty_acache : ACache V := MkACache ∅ [] [] [] [] 2.
Lemma new_cache_rel capacity : ∃ c, new_LRUCache capacity = Done c ∧ cache_rel c empty_acache ∧ capacity_ c = capacity.
Proof.
  unfold new_LRUCache. set (c0 := MkCache _ _ _ _ _ _ _ _ _ _).
  destruct (run_Resize (V := V) c0 []) as (c & chains & E & Hs & Ht & Ep & _); [|done|done|by intros e e' ?%not_elem_of_nil|].
  - split; [by intros i es|done|by intros i es e|constructor|done].
  - unfold obind. cbv zeta. rewrite E. exists c. split_and!; [done| |by rewrite (sb_capacity _ _ Hs)]. exists (concat chains). cbn in Ep. split; [|by rewrite Ep].
    destruct Hs as [S1 S2 S3 S4 S5 S6]. split; unfold readable; rewrite ?S2, ?S3, ?S4, ?S5, ?S6; cbn; try done; try (by intros ? ?%not_elem_of_nil); try (intros ? [? ?]; done).
    + split; [| |constructor|by intros e ?%not_elem_of_nil]; apply ring_new; done.
    + by exists chains.
    + by rewrite Ep.
Qed.

(** A new entry that the cache and the client refer to, not yet in the table. *)
Definition with_new c (e : Z) (h : LRUHandle V) (l : links) : LRUCache V :=
  MkCache (capacity_ c) (u64 (usage_ c + h_charge h)) (<[e := h]> (handles c)) (e + 1) l (next_hash_ c) (length_ c) (elems_ c) (list_ c) (deleted_ c).
Definition a_new (e : Z) (en : Entry V) a : ACache V :=
  MkACache (<[e := en]> (a_entries a)) (a_lru a) (a_used a ++ [e]) (e :: a_out a) (a_deleted a) (e + 1).

Lemma a_new_fresh c a T : rel c a T → malloc_ c ∉ cached_ids a ++ a_out a ∧ handles c !! malloc_ c = None.
Proof.
  intros Hr. assert (handles c !! malloc_ c = None) as E.
  { destruct (handles c !! malloc_ c) as [h|] eqn:E; [|done]. destruct (re_handles _ _ _ Hr _ h E) as [R _ _ _]. lia. }
  split; [|done]. intros H%(re_alive _ _ _ Hr). rewrite E in H. by destruct H.
Qed.
Lemma cached_new e en a : cached_ids (a_new e en a) = cached_ids a ++ [e].
Proof. unfold cached_ids. cbn. by rewrite app_assoc. Qed.
Lemma charge_new e en a : e ∉ cached_ids a → charge (a_new e en a) = charge a + en_charge en.
Proof.
  intros He. unfold charge. rewrite cached_new, fmap_app. cbn. unfold charge_of at 2. cbn. rewrite lookup_insert_eq. cbn.
  assert (charge_of (a_new e en a) <$> cached_ids a = charge_of a <$> cached_ids a) as ->.
  { apply list_fmap_ext. intros i x Ex. unfold charge_of. cbn. rewrite lookup_insert_ne; [done|]. intros ->. apply He. by eapply list_elem_of_lookup_2. }
  induction (charge_of a <$> cached_ids a); cbn; lia.
Qed.

Lemma rel_new c a key hash value chg l :
  let e := malloc_ c in
  cache_rel c a → 0 ≤ chg → charge a + chg < 2 ^ 64 → rings l (a_lru a) (a_used a ++ [e]) →
  (∀ y, y ∉ in_use_ :: a_used a ++ [e] → same_links (new_links e (ring_ c)) l y) → (∀ y, has_links (new_links e (ring_ c)) y → has_links l y) →
  rel (with_new c e (MkHandle value chg key true 2 hash) l) (a_new e (MkEntry key hash value chg) a) (cached_ids a).
Proof.
  intros e Hc Hchg Hsm Hrings Hf Hm. destruct (cache_rel_table c a Hc) as (chains & Ht & ET & Hr & _).
  destruct (a_new_fresh c a _ Hr) as [[Hnc Hno]%not_elem_of_app Hnone]. fold e in Hnc, Hno, Hnone. destruct (re_malloc _ _ _ Hr) as [Em Hm2]. fold e in Em, Hm2.
  pose proof (charge_new e (MkEntry key hash value chg) a Hnc) as Ech. cbn [en_charge] in Ech. pose proof (re_usage _ _ _ Hr) as Eu.
  pose proof (charge_nonneg a (cached_ids a) (re_charges _ _ _ Hr)) as Hpos. fold (charge a) in Hpos.
  assert (∀ x, x ≠ e → x ∈ cached_ids (a_new e (MkEntry key hash value chg) a) ↔ x ∈ cached_ids a) as Hin.
  { intros x Hx. rewrite cached_new, elem_of_app, list_elem_of_singleton. tauto. }
  assert (e ∈ cached_ids (a_new e (MkEntry key hash value chg) a)) as Hein by (rewrite cached_new, elem_of_app, list_elem_of_singleton; by right).
  split; cbn -[charge cached_ids occ]; try done.
  - intros x hx [[<- <-]|[Hne Ex]]%lookup_insert_Some.
    + split; cbn -[cached_ids occ]; [lia|by rewrite bool_decide_eq_true_2| |lia]. rewrite occ_cons, decide_True by done.
      rewrite (proj2 (occ_zero e _)) by done. done.
    + destruct (re_handles _ _ _ Hr x hx Ex) as [Q1 Q2 Q3 Q4]. split; [cbn; lia| | |done].
      * rewrite Q2. apply bool_decide_ext. symmetry. apply Hin. congruence.
      * cbn [a_new a_out]. by rewrite occ_cons, decide_False by done.
  - intros x [hx Ex]. unfold readable. cbn. assert (has_links (new_links e (ring_ c)) x ∧ (x ≠ e → readable c x)) as [H1 H2].
    { apply lookup_insert_Some in Ex as [[<- _]|[Hne Ex]].
      - split; [|done]. split; cbn; rewrite lookup_insert_eq; by eexists.
      - destruct (re_links _ _ _ Hr x) as [[L1 L2] Hread]; [by eexists|]. split; [|done]. split; cbn; by rewrite lookup_insert_ne. }
    split; [auto|]. destruct (decide (x ∈ cached_ids (a_new e (MkEntry key hash value chg) a))) as [Hi|Hout]; [by apply (rings_readable _ _ _ _ Hrings)|].
    assert (x ≠ e) as Hne by by intros ->. destruct (H2 Hne) as (m & Emm & Hmx). exists m. destruct (Hf x) as [-> _].
    + rewrite not_elem_of_cons. split; [|intros Hu; apply Hout; unfold cached_ids; cbn; apply elem_of_app; by right].
      apply lookup_insert_Some in Ex as [[? _]|[_ Ex]]; [congruence|]. destruct (re_handles _ _ _ Hr x hx Ex) as [Q1 _ _ _]. unfold in_use_. lia.
    + cbn. by rewrite lookup_insert_ne.
  - intros x Hx. destruct (decide (x = e)) as [->|Hne]; [rewrite lookup_insert_eq; by eexists|]. rewrite lookup_insert_ne by done.
    apply (re_alive _ _ _ Hr). rewrite elem_of_app, elem_of_cons, Hin in Hx by done. apply elem_of_app. tauto.
  - intros x Hx. rewrite not_elem_of_cons. split; [intros ->; apply Hnc, elem_of_app; by left|by apply (re_idle _ _ _ Hr)].
  - intros x [Hx|Hx%list_elem_of_singleton]%elem_of_app; [right; by apply (re_busy _ _ _ Hr)|subst x; left].
  - by rewrite fmap_insert, (re_entries _ _ _ Hr).
  - apply (re_deleted _ _ _ Hr).
  - lia.
  - rewrite wrapu_small; [lia|]. pow2. lia.
  - intros x en [[<- <-]|[_ Ex]]%lookup_insert_Some; [done|by eapply (re_charges _ _ _ Hr)].
  - lia.
  - exists chains. split; [|done]. eapply table_frame; [done..|]. intros x Hx. split; [done|]. unfold key_of. cbn.
    rewrite lookup_insert_ne; [done|]. intros <-. apply Hnc. by rewrite <-ET.
  - intros x Hx. apply Hin; [by intros ->|done].
Qed.

Lemma run_lru_Lookup c a key hash :
  cache_rel c a → Z.of_nat (length (a_out a)) + 2 < 2 ^ 32 →
  ∃ c', lru_Lookup key hash c = Done ((a_lookup key hash a).1, c') ∧ cache_rel c' (a_lookup key hash a).2 ∧ capacity_ c' = capacity_ c.
Proof.
  intros Hc Hout. destruct (cache_rel_table c a Hc) as (chains & Ht & ET & Hr & Hread).
  destruct (run_table_Lookup c chains key hash Ht Hread) as (r & E & Hf). assert (r = a_find a key hash) as -> by (by eapply finds_find).
  unfold lru_Lookup, a_lookup. cbn [fst snd]. destruct (a_find a key hash) as [e|] eqn:Ef; [|exists c; split_and!; [by bind_with E|done..]].
  pose proof (a_find_cached _ _ _ _ Ef) as [He _]. destruct (run_lru_Ref c a _ e Hr) as (c' & E2 & Hr2).
  - apply elem_of_app. by left.
  - assert (occ e (a_out a) ≤ length (a_out a))%nat by apply length_filter. lia.
  - exists c'. split_and!; [by bind_with E; bind_with E2| |by eapply keeps_Ref]. exists (cached_ids a). split; [done|].
    unfold a_ref. destruct (decide (e ∈ a_lru a)) as [Hin|]; [|done]. unfold cached_ids. cbn. destruct (rel_nodup c a Hc) as (_ & Hnd & _).
    symmetry. by apply cached_move.
Qed.

Lemma run_lru_Release c a e :
  cache_rel c a → e ∈ a_out a → ∃ c', lru_Release e c = Done (tt, c') ∧ cache_rel c' (a_release e a) ∧ capacity_ c' = capacity_ c.
Proof.
  intros (T & Hr & HT) He. destruct (run_lru_Unref c a T e Hr He) as (c' & E & Hr'). exists c'. split_and!; [done| |by eapply keeps_Unref].
  exists T. split; [done|]. rewrite HT. unfold a_release. destruct (decide _); [done|]. destruct (decide (e ∈ a_used a)) as [Hu|]; [|done].
  unfold cached_ids. cbn. pose proof (rg_nodup _ _ _ (re_rings _ _ _ Hr)) as (_ & _ & Hnd)%NoDup_app. rewrite (without_perm e (a_used a)) at 1 by done. solve_Permutation.
Qed.

Lemma run_lru_Erase c a key hash :
  cache_rel c a → ∃ c', lru_Erase key hash c = Done (tt, c') ∧ cache_rel c' (a_erase_opt (a_find a key hash) a) ∧ capacity_ c' = capacity_ c.
Proof.
  intros Hc. destruct (run_erase c a key hash Hc) as (c1 & c' & E1 & E2 & H). exists c'. split; [|done].
  unfold lru_Erase. bind_with E1. by bind_with E2.
Qed.

Lemma run_prune_loop n : ∀ c a b, cache_rel c a → length (a_lru a) = n → Z.of_nat n < b →
  ∃ c', loop b prune_step tt c = Done (tt, c') ∧ cache_rel c' (a_prune a) ∧ capacity_ c' = capacity_ c.
Proof.
  induction n as [|n IH]; intros c a b Hc Hn Hb; unfold a_prune.
  - exists c. rewrite (nil_length_inv _ Hn). split_and!; [|done..]. apply loop_inr; [lia|]. unfold prune_step.
    bind_with (run_oldest c a Hc). by rewrite (nil_length_inv _ Hn).
  - destruct (a_lru a) as [|e l] eqn:Elru; [done|]. destruct (run_evict c a e Hc) as (c1 & E1 & Hc1 & Ecap); [rewrite Elru; left|].
    destruct (rel_nodup c a Hc) as (_ & Hnd & Hheads). assert (2 ≤ e) as Hlt by (apply Hheads, elem_of_app; left; rewrite Elru; left).
    assert (a_lru (a_erase e a) = l) as El by (destruct (erase_cached e a) as (_ & -> & _); rewrite Elru in Hnd |- *; by apply without_head).
    destruct (IH c1 (a_erase e a) (b - 1) Hc1) as (c' & E & Hc' & Ecap'); [by rewrite El; simpl in Hn; lia|lia|].
    exists c'. unfold a_prune in Hc'. rewrite El in Hc'. cbn [rev]. rewrite foldr_app. split_and!; [|done|congruence].
    rewrite (loop_inl _ _ _ _ tt c1); [done|lia|]. unfold prune_step. bind_with (run_oldest c a Hc). rewrite Elru. cbn [head default]. unfold id.
    rewrite (proj2 (Z.eqb_neq _ _)) by (unfold lru_; lia). by bind_with E1.
Qed.
Lemma lru_count c a : cache_rel c a → Z.of_nat (length (a_lru a)) ≤ elems_ c.
Proof. intros Hc. rewrite (cache_elems c a Hc). unfold cached_ids. rewrite length_app. lia. Qed.
Lemma run_lru_Prune c a : cache_rel c a → ∃ c', lru_Prune c = Done (tt, c') ∧ cache_rel c' (a_prune a) ∧ capacity_ c' = capacity_ c.
Proof.
  intros Hc. pose proof (lru_count c a Hc). unfold lru_Prune. rewrite bind_get. by eapply run_prune_loop; [|done|lia].
Qed.

(** The entry is made and linked. *)
Lemma run_lru_new c a key hash value chg :
  let e := malloc_ c in
  cache_rel c a → 0 ≤ chg → charge a + chg < 2 ^ 64 →
  ∃ l, ring_Append in_use_ e (new_links e (ring_ c)) = Done (tt, l) ∧
    rel (with_new c e (MkHandle value chg key true 2 hash) l) (a_new e (MkEntry key hash value chg) a) (cached_ids a).
Proof.
  intros e Hc Hchg Hsm. destruct (cache_rel_table c a Hc) as (_ & _ & _ & Hr & _).
  destruct (a_new_fresh c a _ Hr) as [[Hnc Hno]%not_elem_of_app Hnone]. fold e in Hnc, Hno, Hnone. destruct (re_malloc _ _ _ Hr) as [_ He]. fold e in He.
  pose proof (re_rings _ _ _ Hr) as [G1 G2 G3 G4].
  assert (∀ y, y ≠ e → same_links (ring_ c) (new_links e (ring_ c)) y) as Hsame by (intros y Hy; split; cbn; by rewrite lookup_insert_ne).
  assert (∀ h xs, (∀ x, x ∈ h :: xs → x ≠ e) → ring (ring_ c) h xs → ring (new_links e (ring_ c)) h xs) as Hring by (intros h xs Hx Hring; eapply ring_frame; [done|auto]).
  assert (∀ x, x ∈ lru_ :: in_use_ :: cached_ids a → x ≠ e) as Hout.
  { intros x [->|[->|Hx]%elem_of_cons]%elem_of_cons; [unfold lru_; lia|unfold in_use_; lia|by intros ->]. }
  destruct (run_put_in (new_links e (ring_ c)) lru_ (a_lru a) in_use_ (a_used a) e) as (l & E & H2 & Hf & Hm).
  - apply rings_two. split; [| |done|done]; apply Hring; [|done| |done]; intros x [->|Hx]%elem_of_cons; apply Hout; unfold cached_ids;
      rewrite !elem_of_cons, ?elem_of_app; auto.
  - done.
  - unfold lru_. lia.
  - unfold in_use_. lia.
  - split; cbn; rewrite lookup_insert_eq; by eexists.
  - exists l. split; [done|]. apply rel_new; [done..| |done|done]. apply two_rings; [done|].
    intros x. rewrite app_assoc. intros [Hx|Hx%list_elem_of_singleton]%elem_of_app; [by apply G4|by subst x].
Qed.

(** An entry is added; the one that was there for the key is erased; the oldest entries go
    until the charge fits. *)
Lemma run_lru_Insert c a key hash value chg :
  cache_rel c a → 0 < capacity_ c → 0 ≤ chg → charge a + chg < 2 ^ 64 → Z.of_nat (length (cached_ids a)) < 2 ^ 31 →
  ∃ c', lru_Insert key hash value chg c = Done (a_next a, c') ∧ cache_rel c' (a_insert (capacity_ c) key hash value chg a) ∧ capacity_ c' = capacity_ c.
Proof.
  intros Hc Hcap Hchg Hsm Hlen. destruct (cache_rel_table c a Hc) as (chains & Ht & ET & Hr & Hread).
  destruct (re_malloc _ _ _ Hr) as [Enext _]. destruct (a_new_fresh c a _ Hr) as [[Hnc Hno]%not_elem_of_app Hnone].
  destruct (run_lru_new c a key hash value chg Hc Hchg Hsm) as (l & E1 & Hr1). set (e := malloc_ c) in *.
  set (hh := MkHandle value chg key true 2 hash) in *. set (c1 := with_new c e hh l) in *. set (a1 := a_new e _ a) in *.
  assert (handles c1 !! e = Some hh) as Eh by apply lookup_insert_eq.
  assert (∀ x, x ∈ concat chains → key_of c1 x = key_of c x) as Hkey.
  { intros x Hx. unfold key_of. cbn. rewrite lookup_insert_ne; [done|]. intros <-. apply Hnc. by rewrite <-ET. }
  assert (table c1 chains) as Ht1 by (eapply table_frame; [done..|auto]).
  assert (e ∉ concat chains) as Hech by by rewrite ET.
  assert (cached_ids a1 = cached_ids a ++ [e]) as Ecached by apply cached_new.
  destruct (run_table_Insert c1 chains e hh Ht1) as (old & c2 & chains2 & E2 & Hf & Hs & Ht2 & Hp); [|done|done| |].
  { intros x Hx. apply (re_links _ _ _ Hr1). apply (re_alive _ _ _ Hr1). apply elem_of_app. left. rewrite Ecached.
    apply elem_of_app. apply elem_of_cons in Hx as [->|Hx]; [right; left|left; by rewrite <-ET]. }
  { change (elems_ c1) with (elems_ c). by rewrite (cache_elems c a Hc). }
  assert (old = a_find a key hash) as ->.
  { eapply finds_find; [done|done|done|]. destruct old as [o|]; cbn in Hf |- *; unfold matches in *; [rewrite <-Hkey by tauto; tauto|].
    intros x Hx. rewrite <-Hkey by done. by apply Hf. }
  assert (concat chains2 ⊆ cached_ids a1) as Hsub.
  { intros x Hx. assert (x ∈ e :: concat chains) as Hx' by (rewrite Hp; apply elem_of_app; by right). rewrite Ecached.
    apply elem_of_app. apply elem_of_cons in Hx' as [->|Hx']; [right; left|left; by rewrite <-ET]. }
  assert (rel c2 a1 (concat chains2)) as Hr2 by (eapply rel_table; [done|done|by exists chains2|done]).
  assert (NoDup (e :: concat chains)) as Hnd by (apply NoDup_cons; split; [done|apply (bk_nodup _ _ (tb_buckets _ _ Ht))]).
  assert (e :: concat chains ≡ₚ cached_ids a1) as Eperm by (rewrite Ecached, ET; solve_Permutation).
  assert (capacity_ c2 = capacity_ c) as Ecap2 by (by rewrite (sb_capacity _ _ Hs)).
  assert (∃ c3, FinishErase (a_find a key hash) c2 = Done (bool_decide (is_Some (a_find a key hash)), c3) ∧ cache_rel c3 (a_erase_opt (a_find a key hash) a1) ∧ capacity_ c3 = capacity_ c)
    as (c3 & E3 & Hc3 & Ecap3).
  { destruct (a_find a key hash) as [o|].
    - cbn in Hp. assert (o ∈ cached_ids a1) as Ho by (rewrite <-Eperm, Hp; left).
      rewrite Hp in Hnd. apply NoDup_cons in Hnd as [Hno2 Hnd2].
      destruct (run_FinishErase c2 a1 _ o Hr2 Ho Hno2) as (c3 & E3 & Hr3 & Ecap3). exists c3. split_and!; [done| |congruence].
      exists (concat chains2). split; [done|]. cbn. destruct (erase_cached o a1) as [-> _]. apply (Permutation_cons_inv (a := o)).
      rewrite <-without_perm; [by rewrite <-Hp|apply (rg_nodup _ _ _ (re_rings _ _ _ Hr1))|done].
    - exists c2. split_and!; [done| |done]. exists (concat chains2). split; [done|]. cbn in Hp |- *. by rewrite <-Hp. }
  destruct (run_evict_loop (length (a_lru (a_erase_opt (a_find a key hash) a1))) c3 _ (elems_ c3 + 1) Hc3 eq_refl) as (c4 & E4 & Hc4 & Ecap4).
  { pose proof (lru_count _ _ Hc3). lia. }
  exists c4. split_and!; [|by unfold a_insert; rewrite <-Enext, <-Ecap3|congruence]. rewrite <-Enext.
  unfold lru_Insert. erewrite bind_done by reflexivity. fold e. rewrite bind_get. cbn [capacity_]. rewrite (proj2 (Z.ltb_lt _ _) Hcap).
  rewrite bind_assoc. erewrite bind_done by (apply run_deref; apply lookup_insert_eq). rewrite bind_assoc.
  erewrite bind_done by (apply run_set_refs; apply lookup_insert_eq). rewrite bind_assoc. unfold set_in_cache.
  erewrite bind_done; [|erewrite bind_done by (apply run_deref; apply lookup_insert_eq); reflexivity].
  rewrite bind_assoc. unfold LRU_Append. erewrite bind_done by (apply run_on_ring; exact E1). rewrite bind_assoc, bind_get, bind_assoc.
  erewrite bind_done by reflexivity. cbn [usage_ capacity_ handles malloc_ ring_ next_hash_ length_ elems_ list_ deleted_ h_value h_charge h_key h_in_cache h_refs h_hash].
  rewrite !insert_insert_eq. fold c1. change (2 ^ 64) with (2 ^ 64).
  rewrite bind_assoc. erewrite bind_done by exact E2. rewrite bind_assoc. erewrite bind_done by exact E3. erewrite bind_done by reflexivity.
  rewrite bind_get. by bind_with E4.
Qed.
End refinement.
