(* ===== verification/LdbCacheCalls.v ===== *)
(** * leveldb: calls of the block cache

    Any sequence of calls of a shard of the cache does what the abstract cache does, and the
    value of a handle stays as long as a client has the handle. *)
From S2P Require Import Prelude LdbLog LdbFilter LdbRing LdbCache LdbCacheTable LdbCacheSpec LdbCacheOps.

Section calls.
Context {V : Type}.
Implicit Types (c : LRUCache V) (a : ACache V).

Inductive cache_call : Type :=
  | CInsert (key : list Z) (hash : Z) (value : V) (charge : Z)
  | CLookup (key : list Z) (hash : Z)
  | CRelease (e : Z)
  | CErase (key : list Z) (hash : Z)
  | CPrune.

(** The handle that a call gives. *)
Definition run_call (k : cache_call) : M (LRUCache V) (option Z) :=
  match k with
  | CInsert key hash value charge => e ← lru_Insert key hash value charge; mret (Some e)
  | CLookup key hash => lru_Lookup key hash
  | CRelease e => lru_Release e;; mret None
  | CErase key hash => lru_Erase key hash;; mret None
  | CPrune => lru_Prune;; mret None
  end.
Fixpoint run_calls (ks : list cache_call) : M (LRUCache V) (list (option Z)) :=
  match ks with
  | [] => mret []
  | k :: ks => r ← run_call k; rs ← run_calls ks; mret (r :: rs)
  end.

Definition a_call (capacity : Z) (k : cache_call) a : option Z * ACache V :=
  match k with
  | CInsert key hash value charge => (Some (a_next a), a_insert capacity key hash value charge a)
  | CLookup key hash => a_lookup key hash a
  | CRelease e => (None, a_release e a)
  | CErase key hash => (None, a_erase_opt (a_find a key hash) a)
  | CPrune => (None, a_prune a)
  end.
Fixpoint a_calls (capacity : Z) (ks : list cache_call) a : list (option Z) * ACache V :=
  match ks with
  | [] => ([], a)
  | k :: ks => let '(r, a) := a_call capacity k a in let '(rs, a) := a_calls capacity ks a in (r :: rs, a)
  end.

(** A client gives back what it has; sizes and numbers stay within their types. *)
Definition call_ok (k : cache_call) a : Prop :=
  match k with
  | CInsert key hash value chg => 0 ≤ chg ∧ charge a + chg < 2 ^ 64 ∧ Z.of_nat (length (cached_ids a)) < 2 ^ 31
  | CLookup key hash => Z.of_nat (length (a_out a)) + 2 < 2 ^ 32
  | CRelease e => e ∈ a_out a
  | CErase key hash => True
  | CPrune => True
  end.
Fixpoint calls_ok (capacity : Z) (ks : list cache_call) a : Prop :=
  match ks with
  | [] => True
  | k :: ks => call_ok k a ∧ calls_ok capacity ks (a_call capacity k a).2
  end.
#[export] Instance call_ok_dec k a : Decision (call_ok k a).
Proof. destruct k; cbn; apply _. Defined.
#[export] Instance calls_ok_dec capacity ks a : Decision (calls_ok capacity ks a).
Proof. revert a. induction ks as [|k ks IH]; intros a; cbn; apply _. Defined.

Lemma run_call_refines c a k :
  cache_rel c a → 0 < capacity_ c → call_ok k a →
  ∃ c', run_call k c = Done ((a_call (capacity_ c) k a).1, c') ∧ cache_rel c' (a_call (capacity_ c) k a).2 ∧ capacity_ c' = capacity_ c.
Proof.
  intros Hc Hcap Hok. destruct k as [key hash value chg|key hash|e|key hash|]; cbn [run_call a_call call_ok fst snd] in *.
  - destruct (run_lru_Insert c a key hash value chg) as (c' & E & H); [tauto..|]. exists c'. split; [by bind_with E|done].
  - by apply run_lru_Lookup.
  - destruct (run_lru_Release c a e) as (c' & E & H); [done..|]. exists c'. split; [by bind_with E|done].
  - destruct (run_lru_Erase c a key hash Hc) as (c' & E & H). exists c'. split; [by bind_with E|done].
  - destruct (run_lru_Prune c a Hc) as (c' & E & H). exists c'. split; [by bind_with E|done].
Qed.

Lemma run_calls_refine ks : ∀ c a,
  cache_rel c a → 0 < capacity_ c → calls_ok (capacity_ c) ks a →
  ∃ c', run_calls ks c = Done ((a_calls (capacity_ c) ks a).1, c') ∧ cache_rel c' (a_calls (capacity_ c) ks a).2 ∧ capacity_ c' = capacity_ c.
Proof.
  induction ks as [|k ks IH]; intros c a Hc Hcap; cbn [run_calls a_calls calls_ok]; [intros _; by exists c|]. intros [Hk Hks].
  destruct (run_call_refines c a k Hc Hcap Hk) as (c1 & E1 & Hc1 & Ecap1).
  specialize (IH c1 _ Hc1). rewrite Ecap1 in IH. destruct (IH Hcap Hks) as (c' & E2 & Hc' & Ecap2). exists c'.
  destruct (a_call (capacity_ c) k a) as [r a1]. cbn [fst snd] in *. destruct (a_calls (capacity_ c) ks a1) as [rs a2]. cbn [fst snd] in *.
  split_and!; [by bind_with E1; bind_with E2|done|done].
Qed.

(** ** Held handles *)

(** What an operation does to the entry [e]: clients give [n] handles of it back. *)
Record held (e : Z) (n : nat) a a' : Prop := {
  hd_entry : a_entries a' !! e = a_entries a !! e;
  hd_out : (occ e (a_out a) ≤ occ e (a_out a') + n)%nat;
  hd_next : a_next a ≤ a_next a';
}.
Lemma held_refl e a : held e 0 a a.
Proof. by split; [|lia|]. Qed.
Lemma held_trans e n a1 a2 a3 : held e 0 a1 a2 → held e n a2 a3 → held e n a1 a3.
Proof. intros [] []. split; [congruence|lia..]. Qed.

Lemma release_out x a : a_out (a_release x a) = remove_one x (a_out a).
Proof. unfold a_release. by repeat destruct (decide _). Qed.
Lemma release_next x a : a_next (a_release x a) = a_next a.
Proof. unfold a_release. by repeat destruct (decide _). Qed.
Lemma release_entries e x a : e ∈ remove_one x (a_out a) ∨ e ≠ x → a_entries (a_release x a) !! e = a_entries a !! e.
Proof.
  intros H. unfold a_release. destruct (decide (x ∈ remove_one x (a_out a))) as [|Hx]; [done|]. destruct (decide _); [done|].
  cbn. rewrite lookup_delete_ne; [done|]. intros ->. by destruct H.
Qed.
Lemma remove_one_head x l : remove_one x (x :: l) = l.
Proof. cbn. by rewrite decide_True. Qed.
Lemma occ_pos e l : (0 < occ e l)%nat → e ∈ l.
Proof. intros H. destruct (decide (e ∈ l)) as [|Hn]; [done|]. apply occ_zero in Hn. lia. Qed.

Lemma held_erase e x a : e ∈ a_out a → held e 0 a (a_erase x a).
Proof.
  intros H. unfold a_erase. split; rewrite ?release_out, ?release_next; cbn [a_out a_next]; rewrite ?remove_one_head; [|lia|lia].
  rewrite release_entries; [done|]. cbn [a_out]. left. by rewrite remove_one_head.
Qed.
Lemma held_in e a a' : held e 0 a a' → e ∈ a_out a → e ∈ a_out a'.
Proof. intros [_ H _] He. apply occ_pos. destruct (occ e (a_out a)) eqn:E; [by apply occ_zero in E|lia]. Qed.
Lemma held_erase_opt e x a : e ∈ a_out a → held e 0 a (a_erase_opt x a).
Proof. destruct x; [apply held_erase|intros _; apply held_refl]. Qed.
Lemma held_evict e n : ∀ cap a, e ∈ a_out a → held e 0 a (a_evict cap n a).
Proof.
  induction n as [|n IH]; intros cap a He; cbn [a_evict]; [apply held_refl|]. destruct (cap <? charge a); [|apply held_refl].
  destruct (a_lru a) as [|x l]; [apply held_refl|]. pose proof (held_erase e x a He) as Hx. eapply held_trans; [done|]. apply IH. by eapply held_in.
Qed.
Lemma held_prune e a : e ∈ a_out a → held e 0 a (a_prune a).
Proof.
  intros He. unfold a_prune. induction (rev (a_lru a)) as [|x l IH]; cbn; [apply held_refl|]. eapply held_trans; [exact IH|].
  apply held_erase. by eapply held_in.
Qed.

(** The handles of [e] that the calls give back. *)
Definition gives_back (e : Z) (k : cache_call) : nat := match k with CRelease x => if decide (x = e) then 1 else 0 | _ => 0 end.

Lemma held_call cap k a e : (gives_back e k < occ e (a_out a))%nat → e < a_next a → held e (gives_back e k) a (a_call cap k a).2.
Proof.
  intros Hn He. assert (e ∈ a_out a) as Hin by (apply occ_pos; lia). destruct k as [key hash value chg|key hash|x|key hash|]; cbn [gives_back a_call fst snd] in *.
  - unfold a_insert. set (a1 := MkACache _ _ _ _ _ _).
    assert (held e 0 a a1) as H1 by (split; cbn -[occ]; [by rewrite lookup_insert_ne by lia|rewrite occ_cons; lia|lia]).
    pose proof (held_in _ _ _ H1 Hin) as Hin1. pose proof (held_erase_opt e (a_find a key hash) a1 Hin1) as H2.
    eapply held_trans; [exact H1|]. eapply held_trans; [exact H2|]. apply held_evict. by eapply held_in.
  - unfold a_lookup. cbn [snd]. destruct (a_find a key hash) as [x|]; [|apply held_refl]. unfold a_ref.
    destruct (decide (x ∈ a_lru a)); split; cbn -[occ]; rewrite ?occ_cons; done || lia.
  - destruct (decide (x ∈ a_out a)) as [Hx|Hx].
    + assert (occ e (remove_one x (a_out a)) = occ e (a_out a) - (if decide (x = e) then 1 else 0))%nat as Eo by by apply occ_remove_one.
      split; rewrite ?release_out, ?release_next; [|lia|lia]. apply release_entries. left. apply occ_pos. lia.
    + assert (x ≠ e) as Hne by by intros ->. rewrite decide_False in * by done. split; rewrite ?release_out, ?release_next; [|cut (remove_one x (a_out a) = a_out a); [intros ->; lia|]|lia].
      * apply release_entries. right. congruence.
      * clear -Hx. induction (a_out a) as [|y l IH]; [done|]. apply not_elem_of_cons in Hx as [Hy Hl]. cbn. rewrite decide_False by congruence. f_equal. by apply IH.
  - by apply held_erase_opt.
  - by apply held_prune.
Qed.
Lemma held_calls cap ks e : ∀ a, (sum_list_with (gives_back e) ks < occ e (a_out a))%nat → e < a_next a →
  held e (sum_list_with (gives_back e) ks) a (a_calls cap ks a).2.
Proof.
  induction ks as [|k ks IH]; intros a Hn He; cbn [a_calls sum_list_with] in *; [apply held_refl|].
  destruct (held_call cap k a e) as [H1 H2 H3]; [lia|done|]. destruct (a_call cap k a) as [r a1]. cbn [snd] in *.
  destruct (IH a1) as [G1 G2 G3]; [lia|lia|]. destruct (a_calls cap ks a1) as [rs a2]. cbn [snd] in *. split; [congruence|lia|lia].
Qed.

(** ** The contract *)

(** C15: a new shard of the block cache, with a capacity, refines the abstract cache: every
    sequence of insertions, lookups, releases of held handles, erasures and prunes ends with
    the results of the abstract operations and with pointers, counts, lists and table that
    represent the abstract state. *)
Theorem lru_cache_refines capacity ks :
  0 < capacity → calls_ok capacity ks empty_acache →
  ∃ c0 c, new_LRUCache capacity = Done c0 ∧ run_calls ks c0 = Done ((a_calls capacity ks empty_acache).1, c) ∧
    cache_rel c (a_calls capacity ks empty_acache).2 ∧ deleted_ c = a_deleted (a_calls capacity ks empty_acache).2 ∧
    TotalCharge c = charge (a_calls capacity ks empty_acache).2.
Proof.
  intros Hcap Hok. destruct (new_cache_rel (V := V) capacity) as (c0 & E0 & Hc0 & <-). exists c0.
  destruct (run_calls_refine ks c0 _ Hc0 Hcap Hok) as (c & E & Hc & _). exists c. split_and!; [done|done|done|..]; destruct Hc as (T & Hr & _).
  - apply (re_deleted _ _ _ Hr).
  - apply (re_usage _ _ _ Hr).
Qed.

(** C16: the value of a handle stays while a client holds the handle, whatever is erased,
    replaced, pruned or evicted: after calls that give back fewer handles than are held,
    the handle has the value it had. *)
Theorem held_value_stays c a ks e h :
  cache_rel c a → 0 < capacity_ c → calls_ok (capacity_ c) ks a → handles c !! e = Some h →
  (sum_list_with (gives_back e) ks < occ e (a_out a))%nat →
  ∃ rs c' h', run_calls ks c = Done (rs, c') ∧ handles c' !! e = Some h' ∧
    h_value h' = h_value h ∧ h_key h' = h_key h ∧ h_charge h' = h_charge h.
Proof.
  intros Hc Hcap Hok Eh Hn. destruct (run_calls_refine ks c a Hc Hcap Hok) as (c' & E & (T' & Hr' & _) & _). destruct Hc as (T & Hr & _).
  destruct (held_calls (capacity_ c) ks e a Hn) as [H1 _ _].
  { rewrite <-(proj1 (re_malloc _ _ _ Hr)). apply (re_handles _ _ _ Hr e h Eh). }
  rewrite (entry_lookup c a T e Hr), Eh, (entry_lookup c' _ T' e Hr') in H1. destruct (handles c' !! e) as [h'|] eqn:Eh'; [|done].
  injection H1 as H1 H2 H3 H4. by exists (a_calls (capacity_ c) ks a).1, c', h'.
Qed.

(** After an insertion the charge fits, or every entry of the cache is in use. *)
Lemma evict_fits n : ∀ cap a, NoDup (a_lru a) → length (a_lru a) = n →
  charge (a_evict cap n a) ≤ cap ∨ a_lru (a_evict cap n a) = [].
Proof.
  induction n as [|n IH]; intros cap a Hnd Hn; cbn [a_evict]; [right; by apply nil_length_inv|].
  destruct (Z.ltb_spec cap (charge a)); [|by left]. destruct (a_lru a) as [|e l] eqn:El; [done|].
  destruct (erase_cached e a) as (_ & E & _). rewrite El, without_head in E by done. apply IH; rewrite E; [by apply NoDup_cons in Hnd as [_ ?]|simpl in Hn; lia].
Qed.
End calls.
Arguments cache_call : clear implicits.

(** ** Examples *)

Definition sample_calls : list (cache_call Z) :=
  [CInsert [1] 1 10 1; CInsert [5] 5 50 1; CRelease 2; CLookup [1] 1; CInsert [1] 1 11 1; CErase [5] 5; CRelease 3;
   CRelease 4; CInsert [9] 9 90 2; CRelease 5; CRelease 2; CPrune].
Lemma lru_cache_refines_witness :
  calls_ok 2 sample_calls empty_acache ∧
  ∃ c0 c, new_LRUCache (V := Z) 2 = Done c0 ∧ run_calls sample_calls c0 = Done ((a_calls 2 sample_calls empty_acache).1, c) ∧
    cache_rel c (a_calls 2 sample_calls empty_acache).2 ∧ deleted_ c = a_deleted (a_calls 2 sample_calls empty_acache).2 ∧
    TotalCharge c = charge (a_calls 2 sample_calls empty_acache).2.
Proof.
  assert (calls_ok 2 sample_calls empty_acache) as H by (apply (bool_decide_unpack _); by vm_compute).
  split; [exact H|]. exact (lru_cache_refines 2 sample_calls eq_refl H).
Defined.

Lemma held_value_stays_witness :
  ∃ c0 c h, new_LRUCache (V := Z) 2 = Done c0 ∧ run_calls [CInsert [1] 1 10 1] c0 = Done ([Some 2], c) ∧ handles c !! 2 = Some h ∧
    ∃ rs c' h', run_calls [CErase [1] 1; CPrune; CInsert [1] 1 11 3] c = Done (rs, c') ∧ handles c' !! 2 = Some h' ∧
      h_value h' = h_value h ∧ h_key h' = h_key h ∧ h_charge h' = h_charge h.
Proof.
  destruct (new_cache_rel (V := Z) 2) as (c0 & E0 & Hc0 & Ecap). exists c0.
  destruct (run_calls_refine [CInsert [1] 1 10 1] c0 _ Hc0) as (c & E & Hc & Ecap1); [by rewrite Ecap|rewrite Ecap; apply (bool_decide_unpack _); by vm_compute|].
  rewrite Ecap in E, Hc, Ecap1. exists c. pose proof Hc as (T & Hr & _).
  destruct (re_alive _ _ _ Hr 2) as [h Eh]; [apply (bool_decide_unpack _); by vm_compute|]. exists h. split_and!; [done|exact E|done|].
  apply (held_value_stays c _ [CErase [1] 1; CPrune; CInsert [1] 1 11 3] 2 h Hc); [by rewrite Ecap1| |done|by vm_compute; lia].
  rewrite Ecap1. apply (bool_decide_unpack _). by vm_compute.
Defined.

(** With the capacity 0 an entry is not linked, and its key, which is read when it is
    deleted, depends on the pointer [next] that was never set. *)
Lemma cache_off_reads_unset :
  (c ← new_LRUCache (V := Z) 0; (e ← lru_Insert [1] 1 10 1; lru_Release e) c) = Undef.
Proof. by vm_compute. Qed.
