(* ===== verification/LdbSnapshot.v ===== *)
(** * leveldb: snapshots (db/snapshot.h)

    The circular list of the snapshots that clients hold, and what a compaction reads of
    it: the number of the oldest one. *)
From stdpp Require Import sorting.
From S2P Require Import Prelude LdbRing.

(** [SnapshotList], with its [SnapshotImpl]s: [snap_links] has their members [next_] and
    [prev_], [numbers] their [number_]; the dummy head is 0. *)
Record SnapshotList := MkSnapshots { snap_links : links; numbers : gmap Z Z; snap_malloc : Z }.
Definition snap_head : Z := 0.
Definition new_SnapshotList : SnapshotList := MkSnapshots (MkLinks {[snap_head := Some snap_head]} {[snap_head := Some snap_head]}) ∅ 1.

Definition on_snaps {A} (f : M links A) : M SnapshotList A := λ s,
  match f (snap_links s) with
  | Done (a, l) => Done (a, MkSnapshots l (numbers s) (snap_malloc s))
  | Undef => Undef
  | NoFuel => NoFuel
  end.
Definition number_ (s : Z) : M SnapshotList Z := l ← get_state; lift_option (numbers l !! s).

Definition empty : M SnapshotList bool := n ← on_snaps (get_next snap_head); mret (n =? snap_head).
Definition oldest : M SnapshotList Z := e ← empty; assert_ (negb e);; on_snaps (get_next snap_head).
Definition newest : M SnapshotList Z := e ← empty; assert_ (negb e);; on_snaps (get_prev snap_head).

Definition New (seq : Z) : M SnapshotList Z := λ l,
  let s := snap_malloc l in
  ('(_, l) ← on_snaps (put_next s snap_head;; p ← get_prev snap_head; put_prev s p;;
                      p ← get_prev s; put_next p s;; n ← get_next s; put_prev n s)
       (MkSnapshots (new_links s (snap_links l)) (<[s := seq]> (numbers l)) (s + 1));
   Done (s, l)).

(** The assertion on [list_] holds for the snapshots of this list, which are alive. *)
Definition Delete (s : Z) : M SnapshotList unit :=
  number_ s;;
  on_snaps (p ← get_prev s; n ← get_next s; put_next p n;; n ← get_next s; p ← get_prev s; put_prev n p);;
  l ← get_state;
  put_state (MkSnapshots (drop_links s (snap_links l)) (delete s (numbers l)) (snap_malloc l)).

(** [DBImpl::GetSnapshot], [DBImpl::ReleaseSnapshot], and the number that
    [DBImpl::DoCompactionWork] keeps updates for; [sn_last] is
    [versions_->LastSequence()]. *)
Record Snapshots := MkSnapDB { snapshots_ : SnapshotList; sn_last : Z }.
Definition on_snapshots {A} (f : M SnapshotList A) : M Snapshots A := λ d,
  match f (snapshots_ d) with
  | Done (a, l) => Done (a, MkSnapDB l (sn_last d))
  | Undef => Undef
  | NoFuel => NoFuel
  end.
Definition GetSnapshot : M Snapshots Z := d ← get_state; on_snapshots (New (sn_last d)).
Definition ReleaseSnapshot (s : Z) : M Snapshots unit := on_snapshots (Delete s).
Definition smallest_snapshot : M Snapshots Z :=
  e ← on_snapshots empty;
  if e : bool then d ← get_state; mret (sn_last d)
  else on_snapshots (s ← oldest; number_ s).

(** ** Specification *)

(** The snapshots that are held, the oldest one first, with their numbers. *)
Record snaps_rel (l : SnapshotList) (held : list (Z * Z)) : Prop := {
  sr_ring : ring (snap_links l) snap_head held.*1;
  sr_numbers s n : (s, n) ∈ held → numbers l !! s = Some n;
  sr_range s : s ∈ held.*1 → 0 < s < snap_malloc l;
  sr_malloc : 0 < snap_malloc l;
}.

Lemma new_snaps : snaps_rel new_SnapshotList [].
Proof.
  split; [by apply ring_new|by intros s n ?%not_elem_of_nil|by intros s ?%not_elem_of_nil|done].
Qed.

Lemma run_New l held seq :
  snaps_rel l held → ∃ l', New seq l = Done (snap_malloc l, l') ∧ snaps_rel l' (held ++ [(snap_malloc l, seq)]) ∧ snap_malloc l' = snap_malloc l + 1.
Proof.
  intros [Hr Hn Hs Hm]. set (s := snap_malloc l) in *. assert (s ∉ snap_head :: held.*1) as Hout.
  { rewrite not_elem_of_cons. unfold snap_head. split; [lia|]. intros H%Hs. lia. }
  assert (ring (new_links s (snap_links l)) snap_head held.*1) as Hr'.
  { eapply ring_frame; [done|]. intros y Hy. split; cbn; (rewrite lookup_insert_ne; [done|by intros ->]). }
  destruct (run_link _ _ _ s Hr' Hout) as (l' & E & Hr2 & _ & _).
  { split; cbn; rewrite lookup_insert_eq; by eexists. }
  exists (MkSnapshots l' (<[s := seq]> (numbers l)) (s + 1)). split_and!; [| |done].
  - unfold New, on_snaps. fold s. cbn [snap_links numbers snap_malloc]. unfold ring_Append in E. by rewrite E.
  - split; cbn; [by rewrite fmap_app| | |lia].
    + intros k n [Hk|[= -> ->]%list_elem_of_singleton]%elem_of_app; [|apply lookup_insert_eq].
      rewrite lookup_insert_ne; [by apply Hn|]. intros <-. assert (s ∈ held.*1) as ?%Hs by (apply list_elem_of_fmap; by exists (s, n)). lia.
    + intros k. rewrite fmap_app. intros [Hk%Hs|Hk%list_elem_of_singleton]%elem_of_app; cbn in *; lia.
Qed.

Lemma ring_unlink l h xs x ys :
  ring l h (xs ++ x :: ys) →
  ∃ l', (p ← get_prev x; n ← get_next x; put_next p n;; n ← get_next x; p ← get_prev x; put_prev n p) l = Done (tt, l') ∧ ring l' h (xs ++ ys).
Proof.
  intros Hr. pose proof (ring_remove _ _ _ _ _ Hr) as (Hp & Hn & Hr'). cbv zeta in *.
  destruct (run_unlink _ _ _ _ _ Hr) as (l1 & E1 & _ & _ & Hm). rewrite (run_ring_Remove _ _ _ _ _ Hr) in E1. injection E1 as <-.
  set (a := default h (last xs)) in *. set (b := default h (head ys)) in *. exists (unlinked a b l). split; [|done].
  destruct Hr as [Hnd Hs]. apply segment_app in Hs as [H1 H2]. assert (a ≠ x) as Hax.
  { intros E. change (h :: xs ++ x :: ys) with ((h :: xs) ++ x :: ys) in Hnd. apply NoDup_app in Hnd as (_ & Hd & _). apply (Hd a (last_in h xs)). rewrite E. left. }
  assert (is_Some (next_ l !! a)) as Ha by (destruct (segment_next _ _ _ _ _ H1 (last_in h xs)) as (z & E & _); by eexists).
  assert (is_Some (prev_ l !! b)) as Hb by (destruct ys as [|y ys]; cbn in *; eexists; apply H2).
  bind_with (run_get_prev _ _ _ Hp). bind_with (run_get_next _ _ _ Hn). bind_with (run_put_next _ _ b Ha).
  erewrite bind_done by (apply run_get_next; cbn; rewrite lookup_insert_ne by done; exact Hn).
  erewrite bind_done by (apply run_get_prev; exact Hp). by apply run_put_prev.
Qed.

Lemma run_Delete l xs s n ys :
  snaps_rel l (xs ++ (s, n) :: ys) → ∃ l', Delete s l = Done (tt, l') ∧ snaps_rel l' (xs ++ ys) ∧ snap_malloc l' = snap_malloc l.
Proof.
  intros [Hr Hn Hs Hm]. rewrite fmap_app in Hr. cbn in Hr. pose proof Hr as [[_ Hnd]%NoDup_cons _]. destruct (ring_unlink _ _ _ _ _ Hr) as (l1 & E & Hr1).
  assert (s ∉ xs.*1 ++ ys.*1) as Hout.
  { apply NoDup_app in Hnd as (_ & Hd & [Hy _]%NoDup_cons). intros [Hx|Hx]%elem_of_app; [by apply (Hd s Hx); left|done]. }
  exists (MkSnapshots (drop_links s l1) (delete s (numbers l)) (snap_malloc l)). split_and!; [| |done].
  - unfold Delete. erewrite bind_done by (unfold number_; rewrite bind_get; rewrite (Hn s n) by (apply elem_of_app; right; left); reflexivity).
    unfold on_snaps. erewrite bind_done by (rewrite E; reflexivity). done.
  - assert (∀ p, p ∈ xs ++ ys → p ∈ xs ++ (s, n) :: ys) as Hsub by (intros p; rewrite !elem_of_app, elem_of_cons; tauto).
    split; cbn; [|..|done].
    + rewrite fmap_app. eapply ring_frame; [done|]. intros y Hy. assert (y ≠ s) as Hys.
      { intros ->. apply elem_of_cons in Hy as [E'|Hy]; [|done]. assert (s ∈ (xs ++ (s, n) :: ys).*1) as ?%Hs by (rewrite fmap_app; apply elem_of_app; right; left). unfold snap_head in E'. lia. }
      split; cbn; by rewrite lookup_delete_ne.
    + intros k j Hk. rewrite lookup_delete_ne; [by apply Hn, Hsub|]. intros ->. apply Hout. rewrite <-fmap_app. apply list_elem_of_fmap. by exists (k, j).
    + intros k Hk. apply Hs. rewrite fmap_app in Hk |- *. apply elem_of_app in Hk as [Hk|Hk]; apply elem_of_app; [by left|right; by right].
Qed.

Lemma run_oldest_snap l held : snaps_rel l held →
  empty l = Done (match held with [] => true | _ => false end, l) ∧
  ∀ s n held', held = (s, n) :: held' → (s ← oldest; number_ s) l = Done (n, l).
Proof.
  intros [Hr Hn Hs Hm]. pose proof (ring_first _ _ _ Hr) as E. assert (on_snaps (get_next snap_head) l = Done (default snap_head (head held.*1), l)) as Ef.
  { unfold on_snaps. rewrite (run_get_next _ _ _ E). by destruct l. }
  assert (empty l = Done (match held with [] => true | _ => false end, l)) as Ee.
  { unfold empty. bind_with Ef. destruct held as [|[s n] held]; [done|]. cbn. assert (0 < s) by (apply Hs; left). unfold id. by rewrite (proj2 (Z.eqb_neq _ _)) by (unfold snap_head; lia). }
  split; [done|]. intros s n held' ->. unfold oldest. rewrite bind_assoc. bind_with Ee. rewrite bind_assoc, bind_assert by done. bind_with Ef.
  unfold number_. rewrite bind_get. cbn. unfold id. by rewrite (Hn s n) by left.
Qed.

(** ** Runs *)

(** Writes make the last sequence number larger; clients take and release snapshots. *)
Inductive snap_event : Type :=
  | SWrite (last : Z)
  | SGet
  | SRelease (s : Z).
Definition run_event (e : snap_event) : M Snapshots unit :=
  match e with
  | SWrite last => d ← get_state; put_state (MkSnapDB (snapshots_ d) last)
  | SGet => GetSnapshot;; mret tt
  | SRelease s => ReleaseSnapshot s
  end.
Fixpoint run_events (es : list snap_event) : M Snapshots unit :=
  match es with [] => mret tt | e :: es => run_event e;; run_events es end.

(** The held snapshots and the last sequence number, with the next address. *)
Definition a_event (e : snap_event) (st : list (Z * Z) * Z * Z) : list (Z * Z) * Z * Z :=
  let '(held, last, next) := st in
  match e with
  | SWrite last' => (held, last', next)
  | SGet => (held ++ [(next, last)], last, next + 1)
  | SRelease s => (filter (λ p, p.1 ≠ s) held, last, next)
  end.
Definition event_ok (e : snap_event) (st : list (Z * Z) * Z * Z) : Prop :=
  match e with SWrite last' => st.1.2 ≤ last' | SGet => True | SRelease s => s ∈ st.1.1.*1 end.
Fixpoint events_ok (es : list snap_event) (st : list (Z * Z) * Z * Z) : Prop :=
  match es with [] => True | e :: es => event_ok e st ∧ events_ok es (a_event e st) end.

Record snap_inv (d : Snapshots) (st : list (Z * Z) * Z * Z) : Prop := {
  si_rel : snaps_rel (snapshots_ d) st.1.1;
  si_last : sn_last d = st.1.2;
  si_next : snap_malloc (snapshots_ d) = st.2;
  si_sorted : StronglySorted Z.le (st.1.1.*2 ++ [st.1.2]);
}.

Lemma filter_split (held : list (Z * Z)) s : s ∈ held.*1 → NoDup held.*1 → ∃ xs n ys, held = xs ++ (s, n) :: ys ∧ filter (λ p, p.1 ≠ s) held = xs ++ ys.
Proof.
  intros ([s' n] & -> & Hin)%list_elem_of_fmap Hnd. apply list_elem_of_split in Hin as (xs & ys & ->). exists xs, n, ys. split; [done|]. cbn.
  rewrite fmap_app in Hnd. cbn in Hnd. apply NoDup_app in Hnd as (_ & Hd & [Hy _]%NoDup_cons).
  assert (∀ l : list (Z * Z), s' ∉ l.*1 → filter (λ p, p.1 ≠ s') l = l) as Hid.
  { induction l as [|[k j] l IH]; [done|]. rewrite fmap_cons. intros [Hk Hl]%not_elem_of_cons. rewrite filter_cons_True by (cbn in *; congruence). by rewrite IH. }
  rewrite filter_app, filter_cons_False by (cbn; tauto). rewrite !Hid; [done|done|]. intros Hx. apply (Hd s' Hx). left.
Qed.

Lemma run_event_inv d st e : snap_inv d st → event_ok e st → ∃ d', run_event e d = Done (tt, d') ∧ snap_inv d' (a_event e st).
Proof.
  destruct st as [[held last] next]. intros [Hr Hl Hx Hs] Hok. cbn in *. destruct e as [last'| |s]; cbn in *.
  - exists (MkSnapDB (snapshots_ d) last'). split; [done|]. split; cbn; [done..|].
    apply StronglySorted_app in Hs as (H1 & H2 & _). apply StronglySorted_app. split_and!; [|done|by repeat constructor].
    intros x y Hx' Hy%list_elem_of_singleton. subst y. specialize (H1 x last Hx' ltac:(left)). lia.
  - destruct (run_New (snapshots_ d) held (sn_last d) Hr) as (l' & E & Hr' & Em). exists (MkSnapDB l' (sn_last d)). split.
    + unfold GetSnapshot. rewrite bind_assoc, bind_get. erewrite bind_done by (unfold on_snapshots; rewrite E; reflexivity). done.
    + split; cbn; [by rewrite <-Hl, <-Hx|done|lia|]. rewrite fmap_app. cbn. apply StronglySorted_app in Hs as (H1 & H2 & H3). rewrite <-app_assoc. cbn.
      apply StronglySorted_app. split_and!; [|done|repeat constructor; lia].
      intros x y Hx' Hy. specialize (H1 x last Hx' ltac:(left)). rewrite !elem_of_cons in Hy. destruct Hy as [->|[->|Hy%not_elem_of_nil]]; lia || done.
  - pose proof (sr_ring _ _ Hr) as [[_ Hnd]%NoDup_cons _]. destruct (filter_split held s Hok Hnd) as (xs & n & ys & -> & Ef). rewrite Ef.
    destruct (run_Delete (snapshots_ d) xs s n ys Hr) as (l' & E & Hr' & Em). exists (MkSnapDB l' (sn_last d)). split; [unfold ReleaseSnapshot, on_snapshots; by rewrite E|].
    split; cbn; [done|done|congruence|]. rewrite !fmap_app, <-!app_assoc in Hs |- *. cbn in Hs. apply StronglySorted_app in Hs as (H1 & H2 & H3).
    apply StronglySorted_inv in H3 as [H3 _]. apply StronglySorted_app. split_and!; [|done|done]. intros x y Hx' Hy. apply H1; [done|by right].
Qed.

(** C40: whatever snapshots clients took and gave back, the number that a compaction keeps
    updates for is that of the oldest snapshot that is held, or the last one that was
    written when none is; no held snapshot has a smaller number, so none loses updates. *)
Theorem snapshots_protected es last :
  events_ok es ([], last, 1) →
  ∃ d n, run_events es (MkSnapDB new_SnapshotList last) = Done (tt, d) ∧ smallest_snapshot d = Done (n, d) ∧
    let '(held, last', _) := foldl (λ st e, a_event e st) ([], last, 1) es in
    sn_last d = last' ∧ n = from_option snd last' (head held) ∧ n ≤ last' ∧
    ∀ s k, (s, k) ∈ held → numbers (snapshots_ d) !! s = Some k ∧ n ≤ k ∧ k ≤ last'.
Proof.
  intros Hok. assert (snap_inv (MkSnapDB new_SnapshotList last) ([], last, 1)) as Hi by (split; [apply new_snaps|done|done|cbn; repeat constructor]).
  revert Hok Hi. generalize (MkSnapDB new_SnapshotList last) as d0. generalize (([], last, 1) : list (Z * Z) * Z * Z) as st.
  induction es as [|e es IH]; intros st d0 Hok Hi; cbn [run_events foldl].
  - destruct st as [[held last'] next], Hi as [Hr Hl Hx Hs]. cbn in *. destruct (run_oldest_snap _ _ Hr) as [Ee Ho].
    exists d0, (from_option snd last' (head held)). split; [done|]. assert (on_snapshots empty d0 = Done (match held with [] => true | _ => false end, d0)) as Ee'.
    { unfold on_snapshots. rewrite Ee. by destruct d0. }
    apply StronglySorted_app in Hs as (H1 & H2 & _). split_and!; [|done|done|..].
    + unfold smallest_snapshot. bind_with Ee'. destruct held as [|[s n] held]; [by rewrite bind_get, Hl|]. unfold on_snapshots. rewrite (Ho s n held eq_refl). by destruct d0.
    + destruct held as [|[s n] held]; cbn; [lia|]. apply H1; left.
    + intros s k Hk. assert (k ∈ held.*2) as Hk2 by (apply list_elem_of_fmap; by exists (s, k)). split_and!; [by apply (sr_numbers _ _ Hr)| |apply (H1 k last' Hk2); left].
      destruct held as [|[s0 n] held]; [by apply not_elem_of_nil in Hk|]. cbn. apply elem_of_cons in Hk as [[= -> ->]|Hk]; [lia|].
      cbn in H2. apply StronglySorted_inv in H2 as [_ H2]. rewrite Forall_forall in H2. apply H2. apply list_elem_of_fmap. by exists (s, k).
  - destruct Hok as [Hok Hoks]. destruct (run_event_inv d0 st e Hi Hok) as (d1 & E & Hi1). destruct (IH _ d1 Hoks Hi1) as (d & n & E2 & H2). exists d, n. split; [by bind_with E|exact H2].
Qed.

Lemma snapshots_protected_witness :
  let es := [SGet; SWrite 7; SGet; SRelease 1; SWrite 9; SGet] in
  events_ok es ([], 5, 1) ∧ ∃ d, run_events es (MkSnapDB new_SnapshotList 5) = Done (tt, d) ∧ smallest_snapshot d = Done (7, d).
Proof.
  intros es. assert (events_ok es ([], 5, 1)) as H by (cbn; split_and!; try lia; left). split; [exact H|].
  destruct (snapshots_protected es 5 H) as (d & n & E1 & E2 & H2). exists d. split; [exact E1|]. vm_compute in H2. destruct H2 as (_ & -> & _). exact E2.
Defined.
