(* ===== verification/LdbReads.v ===== *)
(** * leveldb: what a read must give

    The abstract specification of reads: a key at a sequence number reads the newest of
    the updates of the key that are not newer. The memtables, the tables of a version and
    the compactions are shown to keep it. *)
From stdpp Require Import sorting.
From S2P Require Import Prelude LdbCoding SkipList SkipListSpec LdbFormat LdbIterator LdbMemTable LdbMemTableSpec LdbDBIterSpec.

Section reads.
Context `{UC : Comparator (list Z)} `{CL : !ComparatorLaws (list Z)}.
Implicit Types (u w : update) (us : list update) (key : list Z) (s : Z).

(** The updates of the key that the sequence number can see. *)
Definition sees key s u : Prop := compare_ (up_key u) key = 0 ∧ up_seq u ≤ s.

Definition newest us key s (o : option update) : Prop :=
  match o with
  | Some u => u ∈ us ∧ sees key s u ∧ ∀ w, w ∈ us → sees key s w → up_tag w ≤ up_tag u
  | None => ∀ w, w ∈ us → ¬ sees key s w
  end.

(** What a read of a newest update gives: its value, unless it is a deletion. *)
Definition read_of (o : option update) : option (list Z) :=
  u ← o; if up_type u =? kTypeValue then Some (up_value u) else None.
Definition reads us key s (r : option (list Z)) : Prop := ∃ o, newest us key s o ∧ read_of o = r.

Lemma newest_nil key s : newest [] key s None.
Proof. by intros w ?%not_elem_of_nil. Qed.

(** Updates that are older, or that cannot be seen, do not change what is read. *)
Lemma newest_app_old us us' key s u :
  newest us key s (Some u) → (∀ w, w ∈ us' → sees key s w → up_tag w ≤ up_tag u) →
  newest (us ++ us') key s (Some u).
Proof.
  intros (Hin & Hs & Hmax) Hold. split_and!; [by apply elem_of_app; left|done|].
  intros w [Hw|Hw]%elem_of_app; auto.
Qed.
Lemma newest_app_none us us' key s o :
  newest us key s None → newest us' key s o → newest (us ++ us') key s o.
Proof.
  intros Hno Ho. destruct o as [u|].
  - destruct Ho as (Hin & Hs & Hmax). split_and!; [by apply elem_of_app; right|done|].
    intros w [Hw|Hw]%elem_of_app Hsw; [by destruct (Hno w Hw Hsw)|auto].
  - intros w [Hw|Hw]%elem_of_app; auto.
Qed.

(** A part of the updates that has, for each one that is seen, one that is not older. *)
Lemma newest_part us us' key s o :
  us' ⊆ us → (∀ w, w ∈ us → sees key s w → ∃ v, v ∈ us' ∧ sees key s v ∧ up_tag w ≤ up_tag v) →
  newest us' key s o → newest us key s o.
Proof.
  intros Hsub Hdom Ho. destruct o as [u|].
  - destruct Ho as (Hin & Hs & Hmax). split_and!; [by apply Hsub|done|].
    intros w Hw Hsw. destruct (Hdom w Hw Hsw) as (v & Hv & Hsv & Hle). specialize (Hmax v Hv Hsv). lia.
  - intros w Hw Hsw. destruct (Hdom w Hw Hsw) as (v & Hv & Hsv & _). by destruct (Ho v Hv).
Qed.

(** Versions of a key that are the same update. *)
Definition versions_unique us : Prop :=
  ∀ u w, u ∈ us → w ∈ us → compare_ (up_key u) (up_key w) = 0 → up_tag u = up_tag w → read_of (Some u) = read_of (Some w).

Lemma sees_same key s u w : sees key s u → sees key s w → compare_ (up_key u) (up_key w) = 0.
Proof. intros [Hu _] [Hw _]. eapply compare_eq_trans; [exact Hu|by apply compare_eq_sym]. Qed.

(** Then a read gives one result. *)
Lemma reads_functional us key s r r' : versions_unique us → reads us key s r → reads us key s r' → r = r'.
Proof.
  intros Hu (o & Ho & <-) (o' & Ho' & <-). destruct o as [u|], o' as [w|]; cbn in *.
  - destruct Ho as (Hiu & Hsu & Hmu), Ho' as (Hiw & Hsw & Hmw).
    apply (Hu u w Hiu Hiw); [by eapply sees_same|]. pose proof (Hmu w Hiw Hsw). pose proof (Hmw u Hiu Hsu). lia.
  - destruct Ho as (Hiu & Hsu & _). by destruct (Ho' u Hiu).
  - destruct Ho' as (Hiw & Hsw & _). by destruct (Ho w Hiw).
  - done.
Qed.

(** ** Sorted updates *)

(** A lookup key and its order with the updates. *)
Definition lookup_ikey key s : list Z := key ++ EncodeFixed64 (s * 256 + 1).

Lemma lookup_tag s : 0 ≤ s ≤ kMaxSequenceNumber → 0 ≤ s * 256 + 1 < 2 ^ 64.
Proof. intros Hs. by apply (pack_tag s 1). Qed.

Lemma tag_seq u s : update_ok u → up_tag u ≤ s * 256 + 1 ↔ up_seq u ≤ s.
Proof. intros (_ & Ht & _). unfold up_tag. lia. Qed.

Lemma ientry_below u key s :
  update_ok u → 0 ≤ s ≤ kMaxSequenceNumber →
  ikey_compare (ientry u).1 (lookup_ikey key s) < 0 ↔
    compare_ (up_key u) key < 0 ∨ compare_ (up_key u) key = 0 ∧ s < up_seq u.
Proof.
  intros Hu Hs. pose proof (lookup_tag s Hs). pose proof (up_tag_range u Hu). pose proof (tag_seq u s Hu).
  unfold ientry, lookup_ikey. cbn [fst]. rewrite ikey_compare_tags by done.
  destruct (Z.eqb_spec (compare_ (up_key u) key) 0) as [E|]; [|lia].
  rewrite E. destruct (Z.ltb_spec (s * 256 + 1) (up_tag u)), (Z.ltb_spec (up_tag u) (s * 256 + 1)); lia.
Qed.
Lemma ientry_not_below u key s :
  update_ok u → 0 ≤ s ≤ kMaxSequenceNumber →
  0 ≤ ikey_compare (ientry u).1 (lookup_ikey key s) ↔ 0 < compare_ (up_key u) key ∨ sees key s u.
Proof. intros Hu Hs. pose proof (ientry_below u key s Hu Hs). unfold sees. lia. Qed.

(** Of sorted updates the newest that is seen is the first at the lookup key or after
    it, when it is of the key. *)
Lemma newest_sorted us key s :
  updates_sorted us → Forall update_ok us → 0 ≤ s ≤ kMaxSequenceNumber →
  newest us key s
    (u ← us !! lower_bound (UC := internal_comparator) (ientry <$> us) (lookup_ikey key s);
     if decide (compare_ (up_key u) key = 0) then Some u else None).
Proof.
  intros Hsort Hok Hs. set (lb := lower_bound _ _). rewrite Forall_lookup in Hok.
  assert (∀ i w, us !! i = Some w → sees key s w → (lb ≤ i)%nat) as Hafter.
  { intros i w Ei Hsw. destruct (Nat.le_gt_cases lb i) as [|Hlt]; [done|exfalso].
    assert ((ientry <$> us) !! i = Some (ientry w)) as Ei' by (by rewrite list_lookup_fmap, Ei).
    pose proof (cut_below _ _ _ _ Ei' Hlt) as Hb%Z.ltb_lt. apply (ientry_below w) in Hb; [|by eapply Hok|done].
    destruct Hsw. lia. }
  destruct (us !! lb) as [u|] eqn:Eu; cbn [mbind option_bind].
  2:{ intros w [i Ei]%list_elem_of_lookup Hsw. specialize (Hafter i w Ei Hsw). apply lookup_lt_Some in Ei.
      apply lookup_ge_None in Eu. lia. }
  assert ((ientry <$> us) !! lb = Some (ientry u)) as Eu' by (by rewrite list_lookup_fmap, Eu).
  pose proof (cut_at _ _ _ Eu') as Hb%Z.ltb_ge.
  apply (ientry_not_below u) in Hb; [|by eapply Hok|done].
  assert (∀ i w, us !! i = Some w → (lb < i)%nat →
    version_compare (up_key u) (up_tag u) (up_key w) (up_tag w) < 0) as Hlater.
  { intros i w Ei Hlt. by apply (sorted_lookup _ us lb i u w Hsort). }
  case_decide as Ek.
  - destruct Hb as [Hb|Hb]; [lia|]. split_and!; [by eapply list_elem_of_lookup_2|done|].
    intros w [i Ei]%list_elem_of_lookup Hsw. specialize (Hafter i w Ei Hsw).
    destruct (decide (lb = i)) as [<-|]; [by simplify_eq|]. specialize (Hlater i w Ei ltac:(lia)).
    pose proof (sees_same _ _ _ _ Hb Hsw) as E. unfold version_compare in Hlater. rewrite (proj2 (Z.eqb_eq _ _) E) in Hlater.
    destruct (Z.ltb_spec (up_tag w) (up_tag u)), (Z.ltb_spec (up_tag u) (up_tag w)); lia.
  - intros w [i Ei]%list_elem_of_lookup Hsw. specialize (Hafter i w Ei Hsw).
    destruct Hb as [Hb|[Hb _]]; [|done].
    destruct (decide (lb = i)) as [<-|]; [simplify_eq; by destruct Hsw|]. specialize (Hlater i w Ei ltac:(lia)).
    apply version_le_key in Hlater. destruct Hsw as [Ew _].
    assert (compare_ (up_key u) key ≤ 0) by (apply compare_trans with (up_key w); lia). lia.
Qed.

(** A memtable keeps the specification. *)
Lemma version_at_newest us key s :
  StronglySorted (λ a b, up_seq a < up_seq b) us → Forall update_ok us →
  newest us key s (version_at us key s).
Proof.
  intros Hs Hok. unfold version_at. destruct (last _) as [u|] eqn:E.
  - apply last_Some in E as [l E].
    assert (u ∈ filter (λ u, compare_ (up_key u) key = 0 ∧ up_seq u ≤ s) us) as Hu
      by (rewrite E; apply elem_of_app; right; by left).
    apply list_elem_of_filter in Hu as [Hsu Hin]. split_and!; [done|done|]. intros w Hw Hsw.
    pose proof (filter_sorted (λ u, compare_ (up_key u) key = 0 ∧ up_seq u ≤ s) us Hs) as Hf. rewrite E in Hf.
    apply StronglySorted_app in Hf as (Hlt & _ & _).
    assert (w ∈ l ++ [u]) as [Hwl| ->%list_elem_of_singleton]%elem_of_app
      by (rewrite <-E; apply list_elem_of_filter; by split); [|done].
    specialize (Hlt w u Hwl ltac:(by left)). rewrite Forall_forall in Hok.
    destruct (Hok w Hw) as (_ & ? & _), (Hok u Hin) as (_ & ? & _). unfold up_tag. lia.
  - intros w Hw Hsw. apply last_None in E.
    assert (w ∈ filter (λ u, compare_ (up_key u) key = 0 ∧ up_seq u ≤ s) us) as Hin
      by (apply list_elem_of_filter; by split). rewrite E in Hin. by apply not_elem_of_nil in Hin.
Qed.
End reads.
