(* ===== verification/LdbWrite.v ===== *)
(** * leveldb: the queue of writers (db/db_impl.cc)

    Threads that call [DBImpl::Write] wait in a queue; the first one writes its batch and
    those of others to the log and to the memtable, and tells the others. The relation
    [step] has one step for each part of [Write] in which a thread has the mutex, or works
    without it. The background thread has such steps too: [BackgroundCall] gives the mutex
    back while a table is built, while the manifest is written ([LogAndApply]) and during
    the turns of [DoCompactionWork], where a memtable that became full meanwhile is
    compacted first; writers run in between. *)
From S2P Require Import Prelude LdbMemTable.

(** What the queue is used with: the versions, the log and the memtables. A result [false]
    is a status that is not OK. *)
Class WriteEnv (E : Type) := {
  env_level0 : E → Z;             (* versions_->NumLevelFiles(0) *)
  env_needs : E → bool;           (* versions_->NeedsCompaction() *)
  env_usage : E → Z;              (* mem_->ApproximateMemoryUsage() *)
  env_buffer : Z;                 (* options_.write_buffer_size *)
  env_NewLog : E → bool * E;      (* NewFileNumber, NewWritableFile; ReuseFileNumber after an error *)
  env_Switch : E → E;             (* the new log, imm_ = mem_ and the new mem_ *)
  env_AddRecord : list Z → E → bool * E;
  env_Sync : E → bool * E;
  env_InsertInto : WriteBatch → E → bool * E;
  env_BuildTable : E → bool * E;  (* BuildTable of imm_ *)
  env_ApplyTable : E → bool * E;  (* LogAndApply of the edit with the new table *)
  env_compaction : Type;          (* Compaction* *)
  env_Pick : E → option (env_compaction * bool) * E;   (* PickCompaction, IsTrivialMove *)
  env_entries : env_compaction → nat;                  (* the entries of the merged input *)
  env_Entry : env_compaction → E → bool * E;           (* the work for one of them *)
  env_FinishInput : env_compaction → E → bool * E;     (* the last output, input->status() *)
  env_Install : env_compaction → E → bool * E;         (* LogAndApply of its edit *)
}.

(** [config] *)
Definition kL0_SlowdownWritesTrigger : Z := 8.
Definition kL0_StopWritesTrigger : Z := 12.

Definition ByteSize (b : WriteBatch) : Z := Z.of_nat (length b).

(** What [BuildBatchGroup] gives a pointer to. *)
Inductive updates : Type :=
  | MyBatch
  | TmpBatch.

(** Where a writer is in [MakeRoomForWrite], and in [Write]. *)
Inductive room : Type :=
  | RLoop
  | RSleep                        (* without the mutex *)
  | RWait (woken : bool).         (* bg_cv_.Wait() *)
Inductive thread : Type :=
  | TStart
  | TWait (woken : bool)          (* w.cv.Wait() *)
  | TRoom (force allow_delay : bool) (at_ : room)
  (* without the mutex: *)
  | TLog (u : updates) (last_writer : nat) (last_sequence : Z)
  | TSync (u : updates) (last_writer : nat) (last_sequence : Z)
  | TInsert (u : updates) (last_writer : nat) (last_sequence : Z)
  | TLock (u : updates) (last_writer : nat) (last_sequence : Z) (status sync_error : bool)
  | TReturned (status : bool).

(** [DBImpl::Writer], with the thread that waits with it. *)
Record Writer := MkWriter {
  w_status : bool;
  w_batch : option WriteBatch;
  w_sync : bool;
  w_done : bool;
  w_thread : thread;
}.

(** Where the background thread is, without the mutex but when it is idle: in
    [BuildTable] or in the [LogAndApply] of a [CompactMemTable], which [DoCompactionWork]
    calls too, before the entry it is at; in [DoCompactionWork], at the top of its loop
    with some entries to go, or at an entry; in the [LogAndApply] of a compaction. *)
Inductive background (C : Type) : Type :=
  | BIdle
  | BBuild (inner : option (C * nat))
  | BApply (inner : option (C * nat))
  | BTurn (c : C) (entries : nat)
  | BEntry (c : C) (entries : nat)
  | BInstall (c : C).
Arguments BIdle {C}.
Arguments BBuild {C} _.
Arguments BApply {C} _.
Arguments BTurn {C} _ _.
Arguments BEntry {C} _ _.
Arguments BInstall {C} _.

Section write.
Context {E : Type} `{WriteEnv E}.

(** The members of [DBImpl] that writers use: a [Writer*] is a number. *)
Record DB := MkDB {
  writers_ : list nat;
  threads : gmap nat Writer;
  tmp_batch_ : WriteBatch;
  last_sequence_ : Z;
  has_imm : bool;                 (* imm_ != NULL *)
  bg_error : bool;                (* !bg_error_.ok() *)
  bg_compaction_scheduled_ : bool;
  bg_thread : background env_compaction;
  env_ : E;
}.
Implicit Types s : DB.

Definition set_writers (q : list nat) : M DB unit := λ s,
  Done (tt, MkDB q (threads s) (tmp_batch_ s) (last_sequence_ s) (has_imm s) (bg_error s) (bg_compaction_scheduled_ s) (bg_thread s) (env_ s)).
Definition set_threads (m : gmap nat Writer) : M DB unit := λ s,
  Done (tt, MkDB (writers_ s) m (tmp_batch_ s) (last_sequence_ s) (has_imm s) (bg_error s) (bg_compaction_scheduled_ s) (bg_thread s) (env_ s)).
Definition set_tmp (b : WriteBatch) : M DB unit := λ s,
  Done (tt, MkDB (writers_ s) (threads s) b (last_sequence_ s) (has_imm s) (bg_error s) (bg_compaction_scheduled_ s) (bg_thread s) (env_ s)).
Definition SetLastSequence (n : Z) : M DB unit := λ s,
  Done (tt, MkDB (writers_ s) (threads s) (tmp_batch_ s) n (has_imm s) (bg_error s) (bg_compaction_scheduled_ s) (bg_thread s) (env_ s)).
Definition set_background (imm err scheduled : bool) : M DB unit := λ s,
  Done (tt, MkDB (writers_ s) (threads s) (tmp_batch_ s) (last_sequence_ s) imm err scheduled (bg_thread s) (env_ s)).
Definition set_bg_thread (t : background env_compaction) : M DB unit := λ s,
  Done (tt, MkDB (writers_ s) (threads s) (tmp_batch_ s) (last_sequence_ s) (has_imm s) (bg_error s) (bg_compaction_scheduled_ s) t (env_ s)).
Definition on_env {A} (f : E → A * E) : M DB A := λ s,
  let '(x, e) := f (env_ s) in
  Done (x, MkDB (writers_ s) (threads s) (tmp_batch_ s) (last_sequence_ s) (has_imm s) (bg_error s) (bg_compaction_scheduled_ s) (bg_thread s) e).

Definition get_writer (w : nat) : M DB Writer := s ← get_state; lift_option (threads s !! w).
Definition put_writer (w : nat) (x : Writer) : M DB unit := s ← get_state; set_threads (<[w := x]> (threads s)).
Definition with_thread (t : thread) (x : Writer) : Writer := MkWriter (w_status x) (w_batch x) (w_sync x) (w_done x) t.
Definition set_thread (w : nat) (t : thread) : M DB unit := x ← get_writer w; put_writer w (with_thread t x).

(** ** The background thread *)

(** [bg_cv_.SignalAll()] *)
Definition wake_room (x : Writer) : Writer :=
  match w_thread x with TRoom force allow_delay (RWait _) => with_thread (TRoom force allow_delay (RWait true)) x | _ => x end.
Definition SignalAll : M DB unit := s ← get_state; set_threads (wake_room <$> threads s).

Definition RecordBackgroundError : M DB unit :=
  s ← get_state;
  if bg_error s then mret tt else set_background (has_imm s) true (bg_compaction_scheduled_ s);; SignalAll.

(** Without a manual compaction, and not while the database is closed. *)
Definition MaybeScheduleCompaction : M DB unit :=
  s ← get_state;
  if bg_compaction_scheduled_ s then mret tt
  else if bg_error s then mret tt
  else if negb (has_imm s) && negb (env_needs (env_ s)) then mret tt
  else set_background (has_imm s) (bg_error s) true.

(** The end of [BackgroundCall]. *)
Definition end_BackgroundCall : M DB unit :=
  s ← get_state;
  set_background (has_imm s) (bg_error s) false;;
  set_bg_thread BIdle;;
  MaybeScheduleCompaction;;
  SignalAll.

(** [CompactMemTable] up to [BuildTable]; after it; and after its [LogAndApply], back in the
    function that called it. *)
Definition CompactMemTable (inner : option (env_compaction * nat)) : M DB unit :=
  s ← get_state;
  assert_ (has_imm s);;
  set_bg_thread (BBuild inner).
Definition CompactMemTable_end (inner : option (env_compaction * nat)) (ok : bool) : M DB unit :=
  (if ok then s ← get_state; set_background false (bg_error s) (bg_compaction_scheduled_ s)
   else RecordBackgroundError);;
  match inner with
  | None => end_BackgroundCall
  | Some (c, entries) => SignalAll;; set_bg_thread (BEntry c entries)
  end.
Definition CompactMemTable_apply (inner : option (env_compaction * nat)) (ok : bool) : M DB unit :=
  if ok then set_bg_thread (BApply inner) else CompactMemTable_end inner false.

(** [BackgroundCompaction] up to where it gives the mutex back. *)
Definition BackgroundCompaction : M DB unit :=
  s ← get_state;
  if has_imm s then CompactMemTable None
  else
    picked ← on_env env_Pick;
    match picked with
    | None => end_BackgroundCall
    | Some (c, is_trivial) => set_bg_thread (if (is_trivial : bool) then BInstall c else BTurn c (env_entries c))
    end.
Definition BackgroundCall : M DB unit :=
  s ← get_state;
  assert_ (bg_compaction_scheduled_ s);;
  if bg_error s then end_BackgroundCall else BackgroundCompaction.

(** The top of the loop of [DoCompactionWork], or its end; the rest of a turn; and the end of
    the compaction. *)
Definition compaction_failed : M DB unit := RecordBackgroundError;; end_BackgroundCall.
Definition work_turn (c : env_compaction) (entries : nat) : M DB unit :=
  match entries with
  | O =>
      ok ← on_env (env_FinishInput c);
      if ok : bool then set_bg_thread (BInstall c) else compaction_failed
  | S entries =>
      s ← get_state;
      if has_imm s then CompactMemTable (Some (c, entries)) else set_bg_thread (BEntry c entries)
  end.
Definition work_entry (c : env_compaction) (entries : nat) : M DB unit :=
  ok ← on_env (env_Entry c);
  if ok : bool then set_bg_thread (BTurn c entries) else compaction_failed.

(** What the background thread does next, when it was scheduled. *)
Definition background_step : M DB unit :=
  s ← get_state;
  match bg_thread s with
  | BIdle => BackgroundCall
  | BBuild inner => ok ← on_env env_BuildTable; CompactMemTable_apply inner ok
  | BApply inner => ok ← on_env env_ApplyTable; CompactMemTable_end inner ok
  | BTurn c entries => work_turn c entries
  | BEntry c entries => work_entry c entries
  | BInstall c => ok ← on_env (env_Install c); if ok : bool then end_BackgroundCall else compaction_failed
  end.

(** ** The group of batches *)

Definition append_tmp (b : WriteBatch) : M DB unit :=
  s ← get_state; t ← lift_option (batch_Append (tmp_batch_ s) b); set_tmp t.

(** The loop over the queue after its first writer. *)
Fixpoint group_loop (first : nat) (iter : list nat) (size max_size : Z) (result : updates) (last_writer : nat) : M DB (updates * nat) :=
  match iter with
  | [] => mret (result, last_writer)
  | w :: iter =>
      x ← get_writer w;
      f ← get_writer first;
      if w_sync x && negb (w_sync f) then mret (result, last_writer)
      else
        match w_batch x with
        | None => group_loop first iter size max_size result w
        | Some b =>
            let size := u64 (size + ByteSize b) in
            if max_size <? size then mret (result, last_writer)
            else
              result ← match result with
                       | MyBatch =>
                           s ← get_state;
                           n ← lift_option (Count (tmp_batch_ s));
                           assert_ (n =? 0);;
                           fb ← lift_option (w_batch f);
                           append_tmp fb;;
                           mret TmpBatch
                       | TmpBatch => mret TmpBatch
                       end;
              append_tmp b;;
              group_loop first iter size max_size result w
        end
  end.
Definition BuildBatchGroup : M DB (updates * nat) :=
  s ← get_state;
  match writers_ s with
  | [] => undef
  | first :: iter =>
      f ← get_writer first;
      b ← lift_option (w_batch f);
      let size := ByteSize b in
      let max_size := if size <=? Z.shiftl 128 10 then u64 (size + Z.shiftl 128 10) else Z.shiftl 1 20 in
      group_loop first iter size max_size MyBatch first
  end.

(** The batch of the group, and its number. *)
Definition get_updates (w : nat) (u : updates) : M DB WriteBatch :=
  match u with
  | MyBatch => x ← get_writer w; lift_option (w_batch x)
  | TmpBatch => s ← get_state; mret (tmp_batch_ s)
  end.
Definition SetSequence_updates (w : nat) (u : updates) (seq : Z) : M DB unit :=
  b ← get_updates w u;
  b ← lift_option (SetSequence b seq);
  match u with
  | MyBatch => x ← get_writer w; put_writer w (MkWriter (w_status x) (Some b) (w_sync x) (w_done x) (w_thread x))
  | TmpBatch => set_tmp b
  end.

(** ** [Write] *)

(** [cv.Signal()] *)
Definition signal (x : Writer) : Writer := match w_thread x with TWait _ => with_thread (TWait true) x | _ => x end.

(** The writers of the group are told, from the first one to the last. *)
Fixpoint pop_writers (queue : list nat) (w last_writer : nat) (status : bool) : M DB unit :=
  match queue with
  | [] => undef
  | ready :: queue =>
      set_writers queue;;
      (if decide (ready = w) then mret tt
       else
         x ← get_writer ready;
         put_writer ready (signal (MkWriter status (w_batch x) (w_sync x) true (w_thread x))));;
      if decide (ready = last_writer) then mret tt else pop_writers queue w last_writer status
  end.
Definition finish (w last_writer : nat) (status : bool) : M DB unit :=
  s ← get_state;
  pop_writers (writers_ s) w last_writer status;;
  s ← get_state;
  (match writers_ s with
   | [] => mret tt
   | next :: _ => x ← get_writer next; put_writer next (signal x)
   end);;
  set_thread w (TReturned status).

(** After [MakeRoomForWrite], up to where the mutex is unlocked. *)
Definition after_room (w : nat) (status : bool) : M DB unit :=
  s ← get_state;
  x ← get_writer w;
  let last_sequence := last_sequence_ s in
  match status, w_batch x with
  | true, Some _ =>
      '(u, last_writer) ← BuildBatchGroup;
      SetSequence_updates w u (u64 (last_sequence + 1));;
      b ← get_updates w u;
      n ← lift_option (Count b);
      set_thread w (TLog u last_writer (u64 (last_sequence + n)))
  | _, _ => finish w w status
  end.

(** A turn of the loop of [MakeRoomForWrite]. *)
Definition room_step (w : nat) (force allow_delay : bool) : M DB unit :=
  s ← get_state;
  let e := env_ s in
  if bg_error s then after_room w false
  else if allow_delay && (kL0_SlowdownWritesTrigger <=? env_level0 e) then set_thread w (TRoom force false RSleep)
  else if negb force && (env_usage e <=? env_buffer) then after_room w true
  else if has_imm s then set_thread w (TRoom force allow_delay (RWait false))
  else if kL0_StopWritesTrigger <=? env_level0 e then set_thread w (TRoom force allow_delay (RWait false))
  else
    ok ← on_env env_NewLog;
    if ok : bool then
      on_env (λ e, (tt, env_Switch e));;
      s ← get_state;
      set_background true (bg_error s) (bg_compaction_scheduled_ s);;
      MaybeScheduleCompaction;;
      set_thread w (TRoom false allow_delay RLoop)
    else after_room w false.

(** The condition of the loop around [Wait]. *)
Definition check_turn (w : nat) : M DB unit :=
  x ← get_writer w;
  if w_done x then set_thread w (TReturned (w_status x))
  else
    s ← get_state;
    front ← lift_option (head (writers_ s));
    if decide (w = front) then
      let force := negb (bool_decide (is_Some (w_batch x))) in
      set_thread w (TRoom force (negb force) RLoop)
    else set_thread w (TWait false).

(** What a thread does next; it does nothing while it waits. *)
Definition thread_step (w : nat) : M DB unit :=
  x ← get_writer w;
  match w_thread x with
  | TStart => s ← get_state; set_writers (writers_ s ++ [w]);; check_turn w
  | TWait true => check_turn w
  | TRoom force allow_delay RLoop => room_step w force allow_delay
  | TRoom force allow_delay RSleep => set_thread w (TRoom force allow_delay RLoop)
  | TRoom force allow_delay (RWait true) => set_thread w (TRoom force allow_delay RLoop)
  | TLog u last_writer last_sequence =>
      b ← get_updates w u;
      ok ← on_env (env_AddRecord b);
      set_thread w (if ok : bool then if w_sync x then TSync u last_writer last_sequence else TInsert u last_writer last_sequence
                    else TLock u last_writer last_sequence false false)
  | TSync u last_writer last_sequence =>
      ok ← on_env env_Sync;
      set_thread w (if ok : bool then TInsert u last_writer last_sequence else TLock u last_writer last_sequence false true)
  | TInsert u last_writer last_sequence =>
      b ← get_updates w u;
      ok ← on_env (env_InsertInto b);
      set_thread w (TLock u last_writer last_sequence ok false)
  | TLock u last_writer last_sequence status sync_error =>
      (if sync_error then RecordBackgroundError else mret tt);;
      (match u with TmpBatch => s ← get_state; set_tmp (Clear (tmp_batch_ s)) | MyBatch => mret tt end);;
      SetLastSequence last_sequence;;
      finish w last_writer status
  | TWait false | TRoom _ _ (RWait false) | TReturned _ => undef
  end.

(** A wake-up that nobody caused lets a thread test its condition and wait again: such a
    step would not change the state, and is not in the relation. *)
Definition blocked (t : thread) : Prop :=
  match t with TWait false | TRoom _ _ (RWait false) | TReturned _ => True | _ => False end.
Inductive step : DB → DB → Prop :=
  | step_thread w x s s' :
      threads s !! w = Some x → ¬ blocked (w_thread x) → thread_step w s = Done (tt, s') → step s s'
  | step_background s s' :
      bg_compaction_scheduled_ s = true → background_step s = Done (tt, s') → step s s'.
End write.
Arguments DB E {H}.
