(* ===== verification/LdbWriteGroup.v ===== *)
(** * leveldb: the group of batches that one writer writes

    [BuildBatchGroup] takes writers from the front of the queue; their batches, in the
    order of the queue, are written as one. *)
From S2P Require Import Prelude LdbCoding LdbFormat LdbMemTable LdbMemTableSpec LdbBatchSpec LdbWrite.

(** ** Batches *)

(** What [Put], [Delete], [Clear] and [Append] keep: a batch has a header, and each of the
    updates that it counts has bytes after it. *)
Record batch_hdr (b : WriteBatch) : Prop := {
  bk_size : (kHeader ≤ length b)%nat;
  bk_count : ∃ n, Count b = Some n ∧ 0 ≤ n ≤ ByteSize b - 12;
}.
(** A batch that is in memory. *)
Definition batch_ok (b : WriteBatch) : Prop := batch_hdr b ∧ ByteSize b < 2 ^ 63.

Definition count_of (b : WriteBatch) : Z := default 0 (Count b).
Lemma hdr_count b : batch_hdr b → Count b = Some (count_of b) ∧ 0 ≤ count_of b ≤ ByteSize b - 12 ∧ 12 ≤ ByteSize b.
Proof.
  intros [Hs (n & En & Hn)]. unfold count_of. rewrite En. cbn. unfold ByteSize, kHeader in *. split_and!; [done|lia..].
Qed.

Lemma overwrite_some l i d : (i + length d ≤ length l)%nat → overwrite l i d = Some (take i l ++ d ++ drop (i + length d) l).
Proof. intros H. unfold overwrite. by rewrite (proj2 (Nat.leb_le _ _)). Qed.
Lemma length_overwrite l i d b : overwrite l i d = Some b → length b = length l.
Proof.
  unfold overwrite. destruct (Nat.leb_spec (i + length d) (length l)); [|done]. intros [= <-].
  rewrite !length_app, length_take, length_drop. lia.
Qed.
Lemma Count_app b l : (kHeader ≤ length b)%nat → Count (b ++ l) = Count b.
Proof.
  unfold kHeader, Count, DecodeFixed32. intros H. rewrite !drop_app_le by lia.
  rewrite !bool_decide_eq_true_2 by (rewrite ?length_app, length_drop; lia).
  by rewrite take_app_le by (rewrite length_drop; lia).
Qed.
Lemma SetCount_spec b n : (kHeader ≤ length b)%nat → 0 ≤ n < 2 ^ 31 →
  ∃ b', SetCount b n = Some b' ∧ length b' = length b ∧ Count b' = Some n.
Proof.
  unfold kHeader. intros Hb Hn. unfold SetCount. rewrite overwrite_some by (rewrite length_fixed32; lia).
  eexists. split; [done|]. split; [by eapply length_overwrite, overwrite_some; rewrite length_fixed32; lia|].
  unfold Count. rewrite wrapu_small by (pow2; lia). rewrite drop_app_length' by (rewrite length_take; lia).
  rewrite fixed32_get_put by (pow2; lia). cbn. f_equal. apply wraps_small; pow2; lia.
Qed.
Lemma SetSequence_spec b n : (kHeader ≤ length b)%nat → ∃ b', SetSequence b n = Some b' ∧ length b' = length b ∧ Count b' = Count b.
Proof.
  unfold kHeader. intros Hb. unfold SetSequence. rewrite overwrite_some by (rewrite length_fixed64; lia).
  eexists. split; [done|]. split; [by eapply length_overwrite, overwrite_some; rewrite length_fixed64; lia|].
  unfold Count. rewrite take_0, length_fixed64. cbn [app]. by rewrite drop_app_length' by (by rewrite length_fixed64).
Qed.
Lemma SetSequence_ok b n : batch_ok b → ∃ b', SetSequence b n = Some b' ∧ batch_ok b'.
Proof.
  intros [[Hs Hc] Hm]. destruct (SetSequence_spec b n Hs) as (b' & E & El & Ec). exists b'. split; [done|].
  unfold batch_ok, ByteSize in *. split; [constructor|]; unfold ByteSize; rewrite ?El, ?Ec; done.
Qed.
Lemma SetSequence_hdr b n : batch_hdr b → ∃ b', SetSequence b n = Some b' ∧ batch_hdr b'.
Proof.
  intros [Hs Hc]. destruct (SetSequence_spec b n Hs) as (b' & E & El & Ec). exists b'. split; [done|].
  constructor; unfold ByteSize in *; rewrite ?El, ?Ec; done.
Qed.
(** Appending does not overflow the count. *)
Lemma batch_Append_total dst src : batch_hdr dst → batch_hdr src → count_of dst + count_of src < 2 ^ 31 →
  ∃ b, batch_Append dst src = Some b ∧ batch_hdr b ∧ count_of b = count_of dst + count_of src ∧ ByteSize b ≤ ByteSize dst + ByteSize src.
Proof.
  intros Hd Hs Hsum. destruct (hdr_count dst Hd) as (En & Hn & Hdl), (hdr_count src Hs) as (Em & Hm & Hsl).
  unfold batch_Append. rewrite En, Em. cbn [mbind option_bind]. rewrite int_add_in by (pow2; lia). cbn [mbind option_bind].
  destruct (SetCount_spec dst (count_of dst + count_of src) (bk_size _ Hd)) as (d & -> & El & Ec); [lia|]. cbn [mbind option_bind].
  rewrite (proj2 (Nat.leb_le _ _) (bk_size _ Hs)). pose proof (bk_size _ Hd) as Hk. unfold kHeader in *.
  assert (Count (d ++ drop 12 src) = Some (count_of dst + count_of src)) as Ec' by (rewrite Count_app by (unfold kHeader; lia); done).
  assert (ByteSize (d ++ drop 12 src) = ByteSize dst + ByteSize src - 12) as Eb.
  { unfold ByteSize in *. rewrite length_app, length_drop. lia. }
  eexists. split; [done|]. split_and!; [constructor; [rewrite length_app; unfold kHeader; lia|]|unfold count_of at 1; by rewrite Ec'|lia].
  rewrite Ec', Eb. eexists. split; [done|]. lia.
Qed.

(** The counts and the sizes of batches. *)
Definition sum_counts (bs : list WriteBatch) : Z := foldr (λ b n, count_of b + n) 0 bs.
Definition sum_sizes (bs : list WriteBatch) : Z := foldr (λ b n, ByteSize b + n) 0 bs.
Lemma sum_counts_app l1 l2 : sum_counts (l1 ++ l2) = sum_counts l1 + sum_counts l2.
Proof. unfold sum_counts. induction l1; cbn; lia. Qed.
Lemma sum_sizes_app l1 l2 : sum_sizes (l1 ++ l2) = sum_sizes l1 + sum_sizes l2.
Proof. unfold sum_sizes. induction l1; cbn; lia. Qed.
Lemma sums_le bs : Forall batch_hdr bs → 0 ≤ sum_counts bs ≤ sum_sizes bs.
Proof.
  unfold sum_counts, sum_sizes. induction 1 as [|b bs Hb Hbs IH]; cbn; [lia|]. destruct (hdr_count b Hb) as (_ & ? & ?). lia.
Qed.
(** Batches that are appended, one after the other. *)
Fixpoint append_all (t : WriteBatch) (bs : list WriteBatch) : option WriteBatch :=
  match bs with [] => Some t | b :: bs => t ← batch_Append t b; append_all t bs end.
Lemma append_all_snoc bs : ∀ t b, append_all t (bs ++ [b]) = t ← append_all t bs; batch_Append t b.
Proof.
  induction bs as [|b0 bs IH]; intros t b; cbn; [by destruct (batch_Append t b)|]. destruct (batch_Append t b0) as [t'|]; [|done]. cbn. apply IH.
Qed.
Lemma batch_Append_sum dst src b : batch_Append dst src = Some b → batch_hdr dst → batch_hdr src → count_of dst + count_of src < 2 ^ 31.
Proof.
  intros Eb Hd Hs. unfold batch_Append in Eb. rewrite (proj1 (hdr_count dst Hd)), (proj1 (hdr_count src Hs)) in Eb. cbn [mbind option_bind] in Eb.
  unfold int_add in Eb. destruct (_ && _) eqn:Ea; [|done]. apply andb_true_iff in Ea as [_ Ea%Z.ltb_lt]. exact Ea.
Qed.
Lemma batch_Append_hdr dst src b : batch_Append dst src = Some b → batch_hdr dst → batch_hdr src → batch_hdr b.
Proof.
  intros Eb Hd Hs. pose proof (batch_Append_sum dst src b Eb Hd Hs) as Hsum.
  destruct (batch_Append_total dst src Hd Hs Hsum) as (b' & Eb' & Hb & _). congruence.
Qed.
Lemma append_all_sum bs : ∀ t t', append_all t bs = Some t' → batch_hdr t → Forall batch_hdr bs → count_of t < 2 ^ 31 →
  count_of t + sum_counts bs < 2 ^ 31.
Proof.
  unfold sum_counts. induction bs as [|b bs IH]; intros t t' E Ht Hbs Hlt; cbn [append_all foldr] in *; [lia|]. apply Forall_cons in Hbs as [Hb Hbs].
  destruct (batch_Append t b) as [t1|] eqn:E1; [|done]. pose proof (batch_Append_sum t b t1 E1 Ht Hb) as Hsum.
  destruct (batch_Append_total t b Ht Hb Hsum) as (t1' & E1' & Ht1 & Ec & _). rewrite E1 in E1'. injection E1' as <-.
  pose proof (IH t1 t' E Ht1 Hbs). lia.
Qed.
Lemma append_all_ok bs : ∀ t t', append_all t bs = Some t' → batch_hdr t → Forall batch_hdr bs → batch_hdr t'.
Proof.
  induction bs as [|b bs IH]; intros t t' E Ht Hbs; cbn in E; [by injection E as <-|]. apply Forall_cons in Hbs as [Hb Hbs].
  destruct (batch_Append t b) as [t1|] eqn:E1; [|done]. eapply IH; [exact E|by eapply batch_Append_hdr|done].
Qed.
Lemma new_batch_hdr : batch_hdr new_WriteBatch.
Proof. constructor; [unfold new_WriteBatch; by rewrite length_replicate|]. exists 0. by vm_compute. Qed.
Lemma new_batch_ok : batch_ok new_WriteBatch.
Proof. split; [apply new_batch_hdr|by vm_compute]. Qed.

Lemma append_all_hdr bs : ∀ t, batch_hdr t → Forall batch_hdr bs → count_of t + sum_counts bs < 2 ^ 31 →
  ∃ t', append_all t bs = Some t' ∧ batch_hdr t' ∧ count_of t' = count_of t + sum_counts bs.
Proof.
  unfold sum_counts. induction bs as [|b bs IH]; intros t Ht Hbs Hsum; cbn [append_all foldr] in *; [exists t; split_and!; [done|done|lia]|].
  apply Forall_cons in Hbs as [Hb Hbs]. pose proof (sums_le bs Hbs) as Hle. unfold sum_counts in Hle.
  destruct (batch_Append_total t b Ht Hb) as (t1 & -> & Ht1 & Ec & _); [lia|]. cbn [mbind option_bind].
  destruct (IH t1 Ht1 Hbs) as (t' & E & Ht' & Ec'); [lia|]. exists t'. split_and!; [done|done|lia].
Qed.

(** The batches [gs] are gathered, of [size] bytes, and the batches [iter] are to come: the counts
    do not overflow, because they are small or because a group is. *)
Definition room_for (size : Z) (gs iter : list WriteBatch) : Prop :=
  sum_counts (gs ++ iter) < 2 ^ 31 ∨ (size = sum_sizes gs ∧ size < 2 ^ 63 ∧ Forall (λ b, ByteSize b < 2 ^ 63) iter).
Lemma room_for_next size gs b iter max_size :
  room_for size gs (b :: iter) → Forall batch_hdr (gs ++ b :: iter) → max_size <? u64 (size + ByteSize b) = false → max_size ≤ 2 ^ 20 →
  sum_counts (gs ++ [b]) < 2 ^ 31 ∧ room_for (u64 (size + ByteSize b)) (gs ++ [b]) iter.
Proof.
  intros Hroom Hh Hmax Hm. assert (gs ++ b :: iter = (gs ++ [b]) ++ iter) as Eg by by rewrite <-app_assoc.
  rewrite Eg in Hh. apply Forall_app in Hh as [Hg Hi]. pose proof (sums_le _ Hg) as Hle. pose proof (sums_le _ Hi) as Hle'.
  destruct Hroom as [Hc|(-> & Hs & Hall)].
  - rewrite Eg in Hc. split; [rewrite (sum_counts_app _ iter) in Hc; lia|by left].
  - apply Forall_cons in Hall as [Hb Hall]. apply Z.ltb_ge in Hmax.
    apply Forall_app in Hg as [Hg Hb']. pose proof (sums_le _ Hg). apply Forall_cons in Hb' as [Hb' _]. destruct (hdr_count b Hb') as (_ & _ & Hlb).
    rewrite sum_sizes_app in Hle. assert (sum_sizes [b] = ByteSize b) as E1 by (unfold sum_sizes; cbn; lia). rewrite E1 in Hle.
    rewrite wrapu_small in * by (pow2; lia). change (2 ^ 20) with 1048576 in Hm. split; [pow2; lia|]. right.
    rewrite sum_sizes_app, E1. split_and!; [done|pow2; lia|done].
Qed.

(** Appending joins the records and adds the counts. *)
Lemma append_bytes seq n ops seq' n' ops' :
  0 ≤ n → 0 ≤ n' → n + n' < 2 ^ 31 →
  batch_Append (batch_bytes seq n ops) (batch_bytes seq' n' ops') = Some (batch_bytes seq (n + n') (ops ++ ops')).
Proof.
  intros Hn Hn' Hs. unfold batch_Append. rewrite !Count_bytes by lia. cbn [mbind option_bind]. rewrite int_add_in by (pow2; lia).
  cbn [mbind option_bind]. rewrite SetCount_bytes by (pow2; lia). cbn [mbind option_bind].
  assert (length (batch_bytes seq' n' ops') = 12 + length (concat (op_bytes <$> ops')))%nat as El.
  { unfold batch_bytes. rewrite !length_app, length_fixed32. unfold EncodeFixed64. rewrite length_le_split. lia. }
  rewrite (proj2 (Nat.leb_le _ _)) by (rewrite El; unfold kHeader; lia). f_equal.
  assert (drop kHeader (batch_bytes seq' n' ops') = concat (op_bytes <$> ops')) as ->.
  { unfold batch_bytes. rewrite app_assoc. apply drop_app_length'. rewrite length_app, length_fixed32. unfold EncodeFixed64. by rewrite length_le_split. }
  unfold batch_bytes. rewrite fmap_app, concat_app, <-!app_assoc. done.
Qed.
Definition bytes_of (p : Z * list batch_op) : WriteBatch := batch_bytes p.1 (Z.of_nat (length p.2)) p.2.
Lemma append_all_bytes ps : ∀ seq ops,
  Z.of_nat (length (ops ++ concat (snd <$> ps))) < 2 ^ 31 →
  append_all (bytes_of (seq, ops)) (bytes_of <$> ps) = Some (bytes_of (seq, ops ++ concat (snd <$> ps))).
Proof.
  induction ps as [|[sq o] ps IH]; intros seq ops Hl; cbn [append_all fmap list_fmap concat snd]; [by rewrite app_nil_r|].
  cbn [fmap list_fmap concat snd] in Hl. rewrite !length_app in Hl.
  assert (batch_Append (bytes_of (seq, ops)) (bytes_of (sq, o)) = Some (bytes_of (seq, ops ++ o))) as E.
  { unfold bytes_of. cbn [fst snd]. rewrite append_bytes by lia. do 2 f_equal. rewrite length_app. lia. }
  rewrite E. cbn [mbind option_bind]. rewrite IH; [by rewrite <-app_assoc|]. rewrite !length_app. lia.
Qed.

Section group.
Context {E : Type} `{WriteEnv E}.
Implicit Types (s : DB E).

Definition with_tmp (t : WriteBatch) s : DB E :=
  MkDB (writers_ s) (threads s) t (last_sequence_ s) (has_imm s) (bg_error s) (bg_compaction_scheduled_ s) (bg_thread s) (env_ s).

(** The batches of some writers, without those that are NULL. *)
Definition batches_of s (ws : list nat) : list WriteBatch := omap (λ w, x ← threads s !! w; w_batch x) ws.

(** What is gathered: the batch [fb] of the first writer, and [bs] of others. *)
Definition gathered (fb : WriteBatch) (u : updates) (t : WriteBatch) (bs : list WriteBatch) : Prop :=
  match u with MyBatch => bs = [] ∧ t = new_WriteBatch | TmpBatch => append_all new_WriteBatch (fb :: bs) = Some t end.

Lemma run_group_loop s first f fb max_size iter : ∀ size u lw t bs,
  threads s !! first = Some f → w_batch f = Some fb → batch_hdr fb → Forall batch_hdr bs →
  (∀ w, w ∈ iter → ∃ x, threads s !! w = Some x ∧ ∀ b, w_batch x = Some b → batch_hdr b) → gathered fb u t bs →
  room_for size (fb :: bs) (batches_of s iter) → max_size ≤ 2 ^ 20 →
  ∃ g rest u' t', iter = g ++ rest ∧
    group_loop first iter size max_size u lw (with_tmp t s) = Done ((u', default lw (last g)), with_tmp t' s) ∧
    gathered fb u' t' (bs ++ batches_of s g) ∧ Forall batch_hdr (bs ++ batches_of s g) ∧
    (∀ w x, w ∈ g → threads s !! w = Some x → w_sync x → w_sync f).
Proof.
  induction iter as [|w iter IH]; intros size u lw t bs Ef Efb Hfb Hbs Hw Hg Hroom Hmax.
  { exists [], [], u, t. change (batches_of s []) with ([] : list WriteBatch). rewrite !app_nil_r. split_and!; [done..|]. by intros w x ?%not_elem_of_nil. }
  assert (∃ rest u' t', w :: iter = [] ++ rest ∧ Done ((u, lw), with_tmp t s) = Done ((u', default lw (last ([] : list nat))), with_tmp t' s) ∧
    gathered fb u' t' (bs ++ batches_of s []) ∧ Forall batch_hdr (bs ++ batches_of s []) ∧ (∀ w x, w ∈ ([] : list nat) → threads s !! w = Some x → w_sync x → w_sync f)) as Hstop.
  { exists (w :: iter), u, t. change (batches_of s []) with ([] : list WriteBatch). rewrite !app_nil_r. split_and!; [done..|]. by intros ? ? ?%not_elem_of_nil. }
  destruct (Hw w ltac:(left)) as (x & Ex & Hb). cbn [group_loop]. unfold get_writer.
  rewrite bind_assoc, bind_get, (bind_lift _ x) by exact Ex. rewrite bind_assoc, bind_get, (bind_lift _ f) by exact Ef.
  destruct (w_sync x && negb (w_sync f)) eqn:Es; [exists []; exact Hstop|].
  assert (∀ y, threads s !! w = Some y → w_sync y → w_sync f) as Hsync.
  { intros y Ey. rewrite Ex in Ey. injection Ey as <-. by destruct (w_sync x), (w_sync f). }
  assert (∀ g, last (w :: g) = Some (default w (last g))) as Elast by (intros [|y g]; [done|cbn; by destruct (last (y :: g)) eqn:El; [|apply last_None in El]]).
  destruct (w_batch x) as [b|] eqn:Eb.
  - cbv zeta. destruct (max_size <? u64 (size + ByteSize b)) eqn:Esz; [exists []; exact Hstop|].
    assert (batches_of s (w :: iter) = b :: batches_of s iter) as Ebi by (unfold batches_of; cbn; rewrite Ex; cbn; by rewrite Eb).
    assert (Forall batch_hdr (batches_of s iter)) as Hiter.
    { apply Forall_forall. intros b' Hb'. unfold batches_of in Hb'. apply list_elem_of_omap in Hb' as (v & Hv & Ev).
      destruct (Hw v ltac:(by right)) as (y & Ey & Hy). rewrite Ey in Ev. by apply Hy. }
    rewrite Ebi in Hroom. destruct (room_for_next size (fb :: bs) b (batches_of s iter) max_size Hroom) as [Hsum Hroom'];
      [apply Forall_app; split; [by constructor|constructor; [by apply Hb|done]]|done|done|].
    pose proof (sums_le bs Hbs) as Hbs0. destruct (hdr_count fb Hfb) as (_ & Hfb0 & _), (hdr_count b (Hb b eq_refl)) as (_ & Hb0 & _).
    assert (count_of new_WriteBatch = 0) as Ec0 by by vm_compute.
    rewrite sum_counts_app in Hsum. unfold sum_counts in Hsum. cbn [foldr] in Hsum. fold (sum_counts bs) in Hsum.
    assert (∃ t1, (match u with MyBatch => s ← get_state; n ← lift_option (Count (tmp_batch_ s)); assert_ (n =? 0);; fb ← lift_option (w_batch f); append_tmp fb;; mret TmpBatch | TmpBatch => mret TmpBatch end)
      (with_tmp t s) = Done (TmpBatch, with_tmp t1 s) ∧ append_all new_WriteBatch (fb :: bs) = Some t1) as (t1 & E1 & Ht1).
    { destruct u; [|by exists t]. destruct Hg as [-> ->]. destruct (batch_Append_total new_WriteBatch fb new_batch_hdr Hfb) as (t1 & Et1 & _); [lia|].
      exists t1. split; [|cbn [append_all]; by rewrite Et1]. rewrite bind_get. cbn [with_tmp tmp_batch_]. rewrite (bind_lift _ 0) by (by vm_compute).
      rewrite bind_assert by done. rewrite (bind_lift _ fb) by exact Efb. erewrite bind_done; [reflexivity|]. unfold append_tmp. rewrite bind_get.
      cbn [with_tmp tmp_batch_]. by rewrite (bind_lift _ t1). }
    bind_with E1. assert (batch_hdr t1 ∧ count_of t1 = count_of fb + sum_counts bs) as [Hok1 Ec1].
    { destruct (append_all_hdr (fb :: bs) new_WriteBatch new_batch_hdr) as (t1' & E1' & H1 & Ec1); [by constructor|unfold sum_counts in *; cbn [foldr]; lia|].
      rewrite Ht1 in E1'. injection E1' as <-. split; [done|]. unfold sum_counts in *. cbn [foldr] in Ec1. lia. }
    destruct (batch_Append_total t1 b Hok1 (Hb b eq_refl)) as (t2 & Et2 & _); [lia|].
    erewrite bind_done by (unfold append_tmp; rewrite bind_get; cbn [with_tmp tmp_batch_]; rewrite (bind_lift _ t2) by exact Et2; reflexivity).
    destruct (IH (u64 (size + ByteSize b)) TmpBatch w t2 (bs ++ [b])) as (g & rest & u' & t' & -> & E2 & Hg' & Hbs' & Hs'); [done..| | | |exact Hroom'|done|].
    + apply Forall_app. split; [done|]. constructor; [by apply Hb|constructor].
    + intros y Hy. apply Hw. by right.
    + change (fb :: bs ++ [b]) with ((fb :: bs) ++ [b]). unfold gathered. change (fb :: bs ++ [b]) with ((fb :: bs) ++ [b]). rewrite append_all_snoc, Ht1. exact Et2.
    + exists (w :: g), rest, u', t'. assert (bs ++ batches_of s (w :: g) = (bs ++ [b]) ++ batches_of s g) as ->.
      { unfold batches_of. cbn. rewrite Ex. cbn. rewrite Eb. by rewrite <-app_assoc. }
      rewrite Elast. split_and!; [done|exact E2|done|done|]. intros y z [->|Hy]%elem_of_cons; [apply Hsync|by apply Hs'].
  - assert (batches_of s (w :: iter) = batches_of s iter) as Ebi by (unfold batches_of; cbn; rewrite Ex; cbn; by rewrite Eb).
    destruct (IH size u w t bs) as (g & rest & u' & t' & -> & E2 & Hg' & Hbs' & Hs'); [done..| |done| |done|].
    + intros y Hy. apply Hw. by right.
    + by rewrite <-Ebi.
    + exists (w :: g), rest, u', t'. assert (batches_of s (w :: g) = batches_of s g) as ->.
      { unfold batches_of. cbn. rewrite Ex. cbn. by rewrite Eb. }
      rewrite Elast. split_and!; [done|exact E2|done|done|]. intros y z [->|Hy]%elem_of_cons; [apply Hsync|by apply Hs'].
Qed.

(** The group of the first writer of the queue. *)
Lemma run_BuildBatchGroup s w q x fb :
  writers_ s = w :: q → threads s !! w = Some x → w_batch x = Some fb → batch_hdr fb → tmp_batch_ s = new_WriteBatch →
  (∀ v, v ∈ q → ∃ y, threads s !! v = Some y ∧ ∀ b, w_batch y = Some b → batch_hdr b) →
  room_for (ByteSize fb) [fb] (batches_of s q) →
  ∃ g rest u t, q = g ++ rest ∧ BuildBatchGroup s = Done ((u, default w (last g)), with_tmp t s) ∧
    gathered fb u t (batches_of s g) ∧ Forall batch_hdr (batches_of s g) ∧ (∀ v y, v ∈ g → threads s !! v = Some y → w_sync y → w_sync x).
Proof.
  intros Eq Ex Eb Hfb Et Hq Hroom. unfold BuildBatchGroup. rewrite bind_get, Eq. unfold get_writer. rewrite bind_assoc, bind_get, (bind_lift _ x) by exact Ex.
  rewrite (bind_lift _ fb) by exact Eb. cbv zeta. set (mx := if ByteSize fb <=? _ then _ else _).
  assert (mx ≤ 2 ^ 20) as Hmx.
  { unfold mx. destruct (Z.leb_spec (ByteSize fb) (Z.shiftl 128 10)) as [Hl|Hl]; [|done]. destruct (hdr_count fb Hfb) as (_ & _ & H12).
    change (Z.shiftl 128 10) with 131072 in *. rewrite wrapu_small by (pow2; lia). change (2 ^ 20) with 1048576. lia. }
  destruct (run_group_loop s w x fb mx q (ByteSize fb) MyBatch w new_WriteBatch [] Ex Eb Hfb) as (g & rest & u & t & E1 & E2 & H1); [constructor|done|done|done|done|].
  exists g, rest, u, t. split; [done|]. assert (with_tmp new_WriteBatch s = s) as Es by (destruct s; cbn in *; by subst). rewrite Es in E2. split; [exact E2|exact H1].
Qed.

Lemma gathered_ok fb u t bs : gathered fb u t bs → batch_hdr fb → Forall batch_hdr bs → batch_hdr t.
Proof.
  destruct u; cbn [gathered]; [intros [_ ->] _ _; apply new_batch_hdr|]. intros Ht Hfb Hbs. eapply append_all_ok; [exact Ht|apply new_batch_hdr|by constructor].
Qed.

(** ** What is written *)

(** A batch of the queue, with its sequence number and its updates; [None] is NULL. *)
Definition all_ops (ops : nat → option (Z * list batch_op)) (ws : list nat) : list batch_op := concat (snd <$> omap ops ws).
Lemma batches_of_ops s ops ws :
  (∀ v, v ∈ ws → ∃ y, threads s !! v = Some y ∧ w_batch y = bytes_of <$> ops v) → batches_of s ws = bytes_of <$> omap ops ws.
Proof.
  induction ws as [|v ws IH]; intros Hw; [done|]. destruct (Hw v ltac:(left)) as (y & Ey & Eb). unfold batches_of in *. cbn. rewrite Ey. cbn. rewrite Eb.
  rewrite IH by (intros k Hk; apply Hw; by right). by destruct (ops v).
Qed.
Lemma bytes_of_hdr p : Z.of_nat (length p.2) < 2 ^ 31 → batch_hdr (bytes_of p) ∧ count_of (bytes_of p) = Z.of_nat (length p.2).
Proof.
  intros Hl. assert (Count (bytes_of p) = Some (Z.of_nat (length p.2))) as Ec by (apply Count_bytes; lia).
  assert (length (bytes_of p) = 12 + length (concat (op_bytes <$> p.2)))%nat as El.
  { unfold bytes_of, batch_bytes. rewrite !length_app, length_fixed32, length_fixed64. lia. }
  pose proof (length_ops_bytes p.2). split; [|unfold count_of; by rewrite Ec]. constructor; [rewrite El; unfold kHeader; lia|].
  rewrite Ec. eexists. split; [done|]. unfold ByteSize. rewrite El. lia.
Qed.
(** A batch that the code can make: its count is an [int], and its bytes are in memory. *)
Definition batch_sized (p : Z * list batch_op) : Prop := Z.of_nat (length p.2) < 2 ^ 31 ∧ ByteSize (bytes_of p) < 2 ^ 63.
Lemma sum_counts_ops ps : Forall batch_sized ps → sum_counts (bytes_of <$> ps) = Z.of_nat (length (concat (snd <$> ps))).
Proof.
  unfold sum_counts. induction 1 as [|p ps [Hp _] _ IH]; [done|]. cbn [fmap list_fmap concat foldr]. rewrite length_app.
  rewrite (proj2 (bytes_of_hdr p Hp)), IH. lia.
Qed.
Lemma sized_hdr ps : Forall batch_sized ps → Forall batch_hdr (bytes_of <$> ps).
Proof. intros Hps. apply Forall_fmap. eapply Forall_impl; [exact Hps|]. intros p [Hp _]. by apply bytes_of_hdr. Qed.
Context `{UC : Comparator (list Z)} `{CL : !ComparatorLaws (list Z)}.

Lemma run_InsertInto m us seq0 seq ops :
  holds m us → Forall op_ok ops → Forall (λ u, up_seq u < seq) us → 0 ≤ seq → seq + Z.of_nat (length ops) ≤ kMaxSequenceNumber + 1 → Z.of_nat (length ops) < 2 ^ 31 →
  ∃ b m', SetSequence (bytes_of (seq0, ops)) seq = Some b ∧ InsertInto b m = Done (None, m') ∧ holds m' (us ++ numbered seq ops).
Proof.
  intros Hm Hops Hlt Hs Hmax Hl. destruct (run_inserter ops seq m us Hm Hops Hs Hmax Hlt) as (i & Ei & Hi). eexists _, (mem_ i). split; [apply SetSequence_bytes|]. split; [|done].
  unfold InsertInto, bytes_of. cbn [fst snd]. rewrite Sequence_bytes.
  2: { change kMaxSequenceNumber with (2 ^ 56 - 1) in Hmax. change (2 ^ 56) with 72057594037927936 in Hmax. pow2. lia. }
  rewrite run_Iterate by done. by bind_with Ei.
Qed.

(** What is gathered is a batch of all the updates. *)
Lemma run_gathered s w x p u t ps :
  threads s !! w = Some x → w_batch x = Some (bytes_of p) → Forall batch_sized (p :: ps) → gathered (bytes_of p) u t (bytes_of <$> ps) →
  ∃ seq0, get_updates w u (with_tmp t s) = Done (bytes_of (seq0, concat (snd <$> (p :: ps))), with_tmp t s) ∧ Z.of_nat (length (concat (snd <$> (p :: ps)))) < 2 ^ 31.
Proof.
  intros Ex Eb Hps Hg. destruct u; cbn [gathered] in Hg.
  - destruct Hg as [->%fmap_nil_inv _]. apply Forall_cons in Hps as [[Hp _] _]. cbn. rewrite app_nil_r. exists p.1. split; [|done].
    unfold get_updates, get_writer. rewrite bind_assoc, bind_get. cbn [with_tmp threads]. rewrite (bind_lift _ x) by exact Ex. rewrite Eb. by destruct p.
  - change (bytes_of p :: (bytes_of <$> ps)) with (bytes_of <$> (p :: ps)) in Hg.
    assert (Z.of_nat (length (concat (snd <$> (p :: ps)))) < 2 ^ 31) as Hl.
    { pose proof (append_all_sum _ _ _ Hg new_batch_hdr (sized_hdr _ Hps)) as Hsum. rewrite sum_counts_ops in Hsum by done.
      assert (count_of new_WriteBatch = 0) as Ec by by vm_compute. rewrite Ec in Hsum. apply Hsum. lia. }
    exists 0. split; [|done]. unfold get_updates. rewrite bind_get. cbn [with_tmp tmp_batch_]. change new_WriteBatch with (bytes_of (0, [])) in Hg.
    rewrite (append_all_bytes (p :: ps) 0 []) in Hg by done. by injection Hg as <-.
Qed.

(** C12: the first writer of the queue writes a group: itself and the writers that follow it
    up to some point, no writer that wants a sync with one that does not. The batch it writes
    has the updates of the group in the order of the queue, and inserting it in a memtable
    gives them consecutive sequence numbers. No count overflows, however long the queue is. *)
Theorem group_written s w q x ops p :
  writers_ s = w :: q → threads s !! w = Some x → ops w = Some p → tmp_batch_ s = new_WriteBatch →
  (∀ v, v ∈ w :: q → ∃ y, threads s !! v = Some y ∧ w_batch y = bytes_of <$> ops v ∧ ∀ p', ops v = Some p' → batch_sized p') →
  ∃ g rest u lw s' seq0, w :: q = g ++ rest ∧ last g = Some lw ∧ BuildBatchGroup s = Done ((u, lw), s') ∧
    get_updates w u s' = Done (bytes_of (seq0, all_ops ops g), s') ∧ threads s' = threads s ∧ writers_ s' = writers_ s ∧
    (∀ v y, v ∈ g → threads s !! v = Some y → w_sync y → w_sync x) ∧
    ∀ m us seq, holds m us → Forall op_ok (all_ops ops g) → Forall (λ u, up_seq u < seq) us → 0 ≤ seq →
      seq + Z.of_nat (length (all_ops ops g)) ≤ kMaxSequenceNumber + 1 →
      ∃ b m', SetSequence (bytes_of (seq0, all_ops ops g)) seq = Some b ∧ InsertInto b m = Done (None, m') ∧ holds m' (us ++ numbered seq (all_ops ops g)).
Proof.
  intros Eq Ex Ep Et Hops. destruct (Hops w ltac:(left)) as (y & Ey & Eb & Hp). rewrite Ex in Ey. injection Ey as <-. rewrite Ep in Eb. cbn in Eb. specialize (Hp p Ep).
  assert (Forall batch_sized (omap ops q)) as Hsz.
  { apply Forall_forall. intros p' (v & Hv & Ev)%list_elem_of_omap. destruct (Hops v ltac:(by right)) as (_ & _ & _ & Hs). by apply Hs. }
  assert (∀ ws, (∀ v, v ∈ ws → v ∈ q) → batches_of s ws = bytes_of <$> omap ops ws) as Ebq.
  { intros ws Hws. apply batches_of_ops. intros v Hv. destruct (Hops v) as (y & Ey & Eb' & _); [right; by apply Hws|by exists y]. }
  destruct (run_BuildBatchGroup s w q x (bytes_of p) Eq Ex Eb) as (g & rest & u & t & Egr & E1 & Hg & _ & Hsync).
  { by apply bytes_of_hdr, Hp. }
  { done. }
  { intros v Hv. destruct (Hops v ltac:(by right)) as (y & Ey & Eb' & Hs). exists y. split; [done|]. rewrite Eb'. intros b. destruct (ops v) as [p'|]; cbn; [|done].
    intros [= <-]. by apply bytes_of_hdr, Hs. }
  { right. split_and!; [unfold sum_sizes; cbn; lia|apply Hp|]. rewrite Ebq by done. apply Forall_fmap. eapply Forall_impl; [exact Hsz|]. by intros p' [_ H']. }
  assert (∀ v, v ∈ g → v ∈ q) as Hgq by (intros v Hv; rewrite Egr; apply elem_of_app; by left). rewrite Ebq in Hg by done.
  assert (Forall batch_sized (p :: omap ops g)) as Hgs.
  { constructor; [done|]. rewrite Egr, omap_app in Hsz. by apply Forall_app in Hsz as [Hsz _]. }
  assert (all_ops ops (w :: g) = concat (snd <$> (p :: omap ops g))) as Eops by (unfold all_ops; cbn; by rewrite Ep).
  destruct (run_gathered s w x p u t (omap ops g) Ex Eb Hgs Hg) as (seq0 & Eu & Hlen). rewrite <-Eops in Eu, Hlen.
  exists (w :: g), rest, u, (default w (last g)), (with_tmp t s), seq0. split_and!; try done.
  - by rewrite Egr.
  - destruct g as [|k g]; [done|]. cbn. by destruct (last (k :: g)) eqn:El; [|apply last_None in El].
  - intros v y [->|Hv]%elem_of_cons Ey; [by simplify_eq|by apply (Hsync v y)].
  - intros m us seq Hm Hok Hlt Hs Hmax. by apply run_InsertInto.
Qed.
End group.
