(* ===== verification/LdbWriteSpec.v ===== *)
(** * leveldb: no writer waits for ever

    The invariant of the queue of writers, and the measure that every step decreases:
    the writers that are still to switch the memtable, the work of the background thread
    and the places of the threads. *)
From S2P Require Import Prelude LdbCoding LdbMemTable LdbWrite LdbWriteGroup.

(** What is assumed of the rest of the database: a memtable that was just made is not
    full, background work does not fill it, level 0 with too many files needs a
    compaction, only [LogAndApply] changes the versions, and not when it fails; there is
    a compaction to pick when one is needed, it stays in the versions until it is
    installed, and installing it leaves less work. *)
Class WriteEnvLaws (E : Type) `{WriteEnv E} := {
  env_work : E → nat;
  env_picked : env_compaction → E → Prop;
  same_versions (e e' : E) : Prop := env_level0 e' = env_level0 e ∧ env_needs e' = env_needs e ∧ env_work e' = env_work e ∧
    ∀ c, env_picked c e → env_picked c e';
  stop_needs e : kL0_StopWritesTrigger ≤ env_level0 e → env_needs e = true;
  switch_fresh e : env_usage (env_Switch e) ≤ env_buffer;
  switch_same e : same_versions e (env_Switch e);
  newlog_same e : same_versions e (env_NewLog e).2;
  record_same b e : same_versions e (env_AddRecord b e).2;
  sync_same e : same_versions e (env_Sync e).2;
  insert_same b e : same_versions e (env_InsertInto b e).2;
  build_same e : same_versions e (env_BuildTable e).2;
  build_usage e : env_usage (env_BuildTable e).2 = env_usage e;
  apply_fails e : (env_ApplyTable e).1 = false → same_versions e (env_ApplyTable e).2;
  apply_picked c e : env_picked c e → env_picked c (env_ApplyTable e).2;
  apply_usage e : env_usage (env_ApplyTable e).2 = env_usage e;
  pick_same e : same_versions e (env_Pick e).2;
  pick_usage e : env_usage (env_Pick e).2 = env_usage e;
  pick_needed e : env_needs e = true → (env_Pick e).1 ≠ None;
  pick_picked e c t : (env_Pick e).1 = Some (c, t) → env_picked c (env_Pick e).2;
  entry_same c e : same_versions e (env_Entry c e).2;
  entry_usage c e : env_usage (env_Entry c e).2 = env_usage e;
  finish_same c e : same_versions e (env_FinishInput c e).2;
  finish_usage c e : env_usage (env_FinishInput c e).2 = env_usage e;
  install_fails c e : (env_Install c e).1 = false → same_versions e (env_Install c e).2;
  install_usage c e : env_usage (env_Install c e).2 = env_usage e;
  install_work c e : env_picked c e → (env_Install c e).1 = true → (env_work (env_Install c e).2 < env_work e)%nat;
}.

#[local] Arguments new_WriteBatch : simpl never.

(** ** Sums over maps *)

Section sums.
Implicit Types (l : list nat) (f g : nat → nat).
Definition sum_of l f : nat := sum_list_with f l.
Lemma sum_of_le l f g : (∀ k, k ∈ l → f k ≤ g k)%nat → (sum_of l f ≤ sum_of l g)%nat.
Proof.
  unfold sum_of. induction l as [|k l IH]; cbn; [done|]. intros H. pose proof (H k ltac:(left)). specialize (IH ltac:(intros j Hj; apply H; by right)). lia.
Qed.
Lemma sum_of_lt l f g w : w ∈ l → (∀ k, k ∈ l → f k ≤ g k)%nat → (f w < g w)%nat → (sum_of l f < sum_of l g)%nat.
Proof.
  intros Hw H Hlt. apply list_elem_of_split in Hw as (l1 & l2 & ->). unfold sum_of in *. rewrite !sum_list_with_app. cbn.
  pose proof (sum_of_le l1 f g ltac:(intros k Hk; apply H, elem_of_app; by left)).
  pose proof (sum_of_le l2 f g ltac:(intros k Hk; apply H, elem_of_app; right; by right)). unfold sum_of in *. lia.
Qed.
Lemma sum_of_bound l f g c : (∀ k, k ∈ l → f k ≤ g k + c)%nat → (sum_of l f ≤ sum_of l g + c * length l)%nat.
Proof.
  unfold sum_of. induction l as [|k l IH]; cbn; [lia|]. intros H. pose proof (H k ltac:(left)). specialize (IH ltac:(intros j Hj; apply H; by right)). lia.
Qed.
End sums.

Section queue.
Context {E : Type} `{WriteEnv E}.
Implicit Types (q : list nat) (m : gmap nat Writer) (t : thread).

(** ** The queue *)

(** The thread that does the work: the first writer of the queue. *)
Definition active t : bool :=
  match t with TRoom _ _ _ | TLog _ _ _ | TSync _ _ _ | TInsert _ _ _ | TLock _ _ _ _ _ => true | _ => false end.

(** A writer that is not in the queue has not come yet, has been told, or is gone. *)
Definition out_ok (x : Writer) : Prop :=
  match w_thread x with TStart => w_done x = false | TWait woken => woken = true ∧ w_done x = true | TReturned _ => True | _ => False end.
(** The first writer works, or was woken. *)
Definition head_ok (x : Writer) : Prop := w_done x = false ∧ (w_thread x = TWait true ∨ active (w_thread x)).
Definition tail_ok (x : Writer) : Prop := w_done x = false ∧ w_thread x = TWait false.

Record queue_ok q m : Prop := {
  qk_nodup : NoDup q;
  qk_head h : head q = Some h → ∃ x, m !! h = Some x ∧ head_ok x;
  qk_tail w : w ∈ tail q → ∃ x, m !! w = Some x ∧ tail_ok x;
  qk_out w x : m !! w = Some x → w ∉ q → out_ok x;
}.

Lemma queue_cases q m w x : queue_ok q m → m !! w = Some x →
  (head q = Some w ∧ head_ok x) ∨ (w ∈ tail q ∧ tail_ok x) ∨ (w ∉ q ∧ out_ok x).
Proof.
  intros Hq Ex. destruct (decide (w ∈ q)) as [Hin|Hout]; [|right; right; split; [done|by eapply qk_out]].
  destruct q as [|h q]; [by apply not_elem_of_nil in Hin|]. apply elem_of_cons in Hin as [->|Hin].
  - left. split; [done|]. destruct (qk_head _ _ Hq h eq_refl) as (y & Ey & Hy). by simplify_eq.
  - right. left. split; [done|]. destruct (qk_tail _ _ Hq w Hin) as (y & Ey & Hy). by simplify_eq.
Qed.

(** Only the first writer is active. *)
Lemma active_head q m w x : queue_ok q m → m !! w = Some x → active (w_thread x) → ∃ q', q = w :: q' ∧ w_done x = false.
Proof.
  intros Hq Ex Ha. destruct (queue_cases q m w x Hq Ex) as [[Hh [Hd _]]|[[_ [_ Ht]]|[_ Ho]]].
  - destruct q as [|h q']; [done|]. injection Hh as ->. by exists q'.
  - by rewrite Ht in Ha.
  - unfold out_ok in Ho. by destruct (w_thread x).
Qed.

(** A map that is changed at each key. *)
Definition changed (F : nat → Writer → Writer) m m' : Prop := ∀ k, m' !! k = F k <$> m !! k.
Lemma changed_insert m w x : m !! w = Some x → ∀ x', changed (λ k y, if decide (k = w) then x' else y) m (<[w := x']> m).
Proof.
  intros Ex x' k. destruct (decide (k = w)) as [->|Hne]; [by rewrite lookup_insert_eq, Ex|]. rewrite lookup_insert_ne by done. by destruct (m !! k).
Qed.
Lemma changed_id m : changed (λ _ x, x) m m.
Proof. intros k. by destruct (m !! k). Qed.
Lemma changed_trans F G m1 m2 m3 : changed F m1 m2 → changed G m2 m3 → changed (λ k x, G k (F k x)) m1 m3.
Proof. intros H1 H2 k. rewrite H2, H1. by destruct (m1 !! k). Qed.
Lemma changed_ext F G m m' : changed F m m' → (∀ k x, m !! k = Some x → F k x = G k x) → changed G m m'.
Proof. intros Hc He k. rewrite Hc. destruct (m !! k) as [x|] eqn:Ex; [|done]. cbn. f_equal. by apply He. Qed.
Lemma changed_dom F m m' : changed F m m' → dom m' = dom m.
Proof. intros Hc. apply set_eq. intros k. rewrite !elem_of_dom, Hc. by destruct (m !! k); split; intros [? ?]; eauto. Qed.
Lemma changed_fmap (f : Writer → Writer) m : changed (λ _, f) m (f <$> m).
Proof. intros k. by rewrite lookup_fmap. Qed.
Lemma changed_lookup F m m' k x' : changed F m m' → m' !! k = Some x' → ∃ x, m !! k = Some x ∧ x' = F k x.
Proof. intros Hc E'. rewrite Hc in E'. destruct (m !! k) as [x|]; [|done]. injection E' as <-. by exists x. Qed.

Lemma queue_changed q q' F m m' :
  queue_ok q m → changed F m m' → NoDup q' →
  (∀ h, head q' = Some h → ∃ x, m !! h = Some x ∧ head_ok (F h x)) →
  (∀ w, w ∈ tail q' → ∃ x, m !! w = Some x ∧ tail_ok (F w x)) →
  (∀ w x, m !! w = Some x → w ∉ q' → out_ok (F w x)) → queue_ok q' m'.
Proof.
  intros Hq Hc Hnd Hh Ht Ho. split; [done|..].
  - intros h Eh. destruct (Hh h Eh) as (x & Ex & Hx). exists (F h x). by rewrite Hc, Ex.
  - intros w Hw. destruct (Ht w Hw) as (x & Ex & Hx). exists (F w x). by rewrite Hc, Ex.
  - intros w x' Ex' Hw. destruct (changed_lookup _ _ _ _ _ Hc Ex') as (x & Ex & ->). by apply Ho.
Qed.

(** The first writer goes on. *)
Lemma queue_head_moves w q m x x' : queue_ok (w :: q) m → head_ok x' → m !! w = Some x → queue_ok (w :: q) (<[w := x']> m).
Proof.
  intros Hq Hx' Ex. pose proof (qk_nodup _ _ Hq) as [Hw Hnd]%NoDup_cons.
  eapply queue_changed; [done|by eapply changed_insert|by apply NoDup_cons|..].
  - intros h [= <-]. exists x. by rewrite decide_True.
  - intros k Hk. destruct (qk_tail _ _ Hq k Hk) as (y & Ey & Hy). exists y. cbv beta. rewrite decide_False; [done|]. by intros ->.
  - intros k y Ey Hk. cbv beta. rewrite decide_False; [by eapply qk_out|]. intros ->. apply Hk. left.
Qed.

Lemma queue_wake_room q m : queue_ok q m → queue_ok q (wake_room <$> m).
Proof.
  intros Hq. assert (∀ x, (head_ok x → head_ok (wake_room x)) ∧ (tail_ok x → tail_ok (wake_room x)) ∧ (out_ok x → out_ok (wake_room x))) as Hw.
  { intros [st b sy d t]. unfold head_ok, tail_ok, out_ok, wake_room. cbn. destruct t as [| |? ? []| | | | |]; cbn; naive_solver. }
  eapply queue_changed; [done|apply changed_fmap|apply (qk_nodup _ _ Hq)|..].
  - intros h Eh. destruct (qk_head _ _ Hq h Eh) as (x & Ex & Hx). exists x. split; [done|by apply Hw].
  - intros w Ew. destruct (qk_tail _ _ Hq w Ew) as (x & Ex & Hx). exists x. split; [done|by apply Hw].
  - intros w x Ex Hw'. apply Hw. by eapply qk_out.
Qed.
End queue.

(** ** The invariant *)

Section invariant.
Context {E : Type} `{WE : WriteEnv E} `{!WriteEnvLaws E}.
Implicit Types (s : DB E) (t : thread) (x : Writer).

(** A thread between the two critical sections of [Write]. *)
Definition writing t : option (updates * nat) :=
  match t with TLog u lw _ | TSync u lw _ | TInsert u lw _ | TLock u lw _ _ _ => Some (u, lw) | _ => None end.

(** The background thread works when it was scheduled, on a memtable that is there, or on a
    compaction that is still to be done. *)
Definition bg_ok (t : background env_compaction) (scheduled imm : bool) (e : E) : Prop :=
  match t with
  | BIdle => True
  | BBuild inner | BApply inner => scheduled = true ∧ imm = true ∧ ∀ c k, inner = Some (c, k) → env_picked c e
  | BTurn c _ | BEntry c _ | BInstall c => scheduled = true ∧ env_picked c e
  end.
Lemma bg_ok_env (g : background env_compaction) sch imm e e' : (∀ c, env_picked c e → env_picked c e') → bg_ok g sch imm e → bg_ok g sch imm e'.
Proof. intros He. destruct g; cbn; naive_solver. Qed.
Lemma bg_ok_imm (g : background env_compaction) sch imm e : bg_ok g sch imm e → bg_ok g true true e.
Proof. destruct g; cbn; naive_solver. Qed.

Record wf s : Prop := {
  wf_queue : queue_ok (writers_ s) (threads s);
  wf_batches w x b : threads s !! w = Some x → w_batch x = Some b → batch_ok b;
  wf_tmp : batch_hdr (tmp_batch_ s);
  wf_clear : (∀ w x lw, threads s !! w = Some x → writing (w_thread x) ≠ Some (TmpBatch, lw)) → tmp_batch_ s = new_WriteBatch;
  wf_writing w x u lw : threads s !! w = Some x → writing (w_thread x) = Some (u, lw) → lw ∈ writers_ s ∧ is_Some (w_batch x);
  wf_scheduled : bg_error s = false → has_imm s = true ∨ env_needs (env_ s) = true → bg_compaction_scheduled_ s = true;
  wf_room w x f d : threads s !! w = Some x → w_thread x = TRoom f d (RWait false) → bg_compaction_scheduled_ s = true;
  wf_bg : bg_ok (bg_thread s) (bg_compaction_scheduled_ s) (has_imm s) (env_ s);
}.

(** ** The measure *)

(** The switches of the memtable that a writer can still cause; its place. *)
Definition switches (e : E) t : nat :=
  match t with
  | TStart | TWait _ => 2
  | TRoom force _ _ => if force || (env_buffer <? env_usage e) then 2 else 1
  | _ => 0
  end.
Definition rank t : nat :=
  match t with
  | TStart => 11
  | TWait _ => 10
  | TRoom _ d r =>
      (if d then 8 else 6) + match r with RLoop => 0 | RSleep => 1 | RWait woken => if woken then 1 else 0 end -
      match r with RWait false => 1 | _ => 0 end
  | TLog _ _ _ => 4
  | TSync _ _ _ => 3
  | TInsert _ _ _ => 2
  | TLock _ _ _ _ _ => 1
  | TReturned _ => 0
  end%nat.
Definition over s (f : Writer → nat) (k : nat) : nat := from_option f 0%nat (threads s !! k).
Definition ids s : list nat := elements (dom (threads s)).
Definition m_switch s : nat := sum_of (ids s) (over s (λ x, switches (env_ s) (w_thread x))).
Definition m_rank s : nat := sum_of (ids s) (over s (λ x, rank (w_thread x))).
Definition bit (b : bool) : nat := if b then 1%nat else 0%nat.
Definition m_top s : nat := (2 * m_switch s + bit (negb (bg_error s)) + bit (has_imm s))%nat.
(** The background thread: a call that did not begin, and the steps to the end of one that did. *)
Definition idle (t : background env_compaction) : bool := match t with BIdle => true | _ => false end.
Definition steps_left (t : background env_compaction) : nat :=
  match t with
  | BIdle => 0
  | BBuild None => 2
  | BApply None => 1
  | BInstall _ => 1
  | BTurn _ n => 4 * n + 2
  | BEntry _ n => 4 * n + 3
  | BApply (Some (_, n)) => 4 * n + 4
  | BBuild (Some (_, n)) => 4 * n + 5
  end.
Definition m_stage s : nat := bit (bg_compaction_scheduled_ s && idle (bg_thread s)).
Definition m_low s : nat := (m_rank s + (2 * length (ids s) + 1) * steps_left (bg_thread s))%nat.

Lemma over_changed s s' F (f : Writer → nat) k : changed F (threads s) (threads s') → over s' f k = from_option (λ x, f (F k x)) 0%nat (threads s !! k).
Proof. intros Hc. unfold over. rewrite Hc. by destruct (threads s !! k). Qed.
Lemma ids_changed s s' F : changed F (threads s) (threads s') → ids s' = ids s.
Proof. intros Hc. unfold ids. by rewrite (changed_dom _ _ _ Hc). Qed.
Lemma ids_lookup s k x : threads s !! k = Some x → k ∈ ids s.
Proof. intros Ex. unfold ids. apply elem_of_elements, elem_of_dom. by eexists. Qed.

(** Sums do not grow when the threads do not; one thread that goes on makes them less. *)
Lemma sum_changed s s' F (f f' : Writer → nat) :
  changed F (threads s) (threads s') → (∀ k x, threads s !! k = Some x → f' (F k x) ≤ f x)%nat →
  (sum_of (ids s') (over s' f') ≤ sum_of (ids s) (over s f))%nat.
Proof.
  intros Hc Hle. rewrite (ids_changed _ _ _ Hc). apply sum_of_le. intros k _. rewrite (over_changed _ _ _ _ _ Hc). unfold over.
  destruct (threads s !! k) as [x|] eqn:Ex; cbn; [by apply Hle|lia].
Qed.
Lemma sum_changed_lt s s' F (f f' : Writer → nat) w x :
  changed F (threads s) (threads s') → (∀ k x, threads s !! k = Some x → f' (F k x) ≤ f x)%nat →
  threads s !! w = Some x → (f' (F w x) < f x)%nat → (sum_of (ids s') (over s' f') < sum_of (ids s) (over s f))%nat.
Proof.
  intros Hc Hle Ex Hlt. rewrite (ids_changed _ _ _ Hc). apply (sum_of_lt _ _ _ w); [by eapply ids_lookup|..].
  - intros k _. rewrite (over_changed _ _ _ _ _ Hc). unfold over. destruct (threads s !! k) as [y|] eqn:Ey; cbn; [by apply Hle|lia].
  - rewrite (over_changed _ _ _ _ _ Hc). unfold over. by rewrite Ex.
Qed.
End invariant.

Section decrease.
Context {E : Type} `{WE : WriteEnv E} `{!WriteEnvLaws E}.
Implicit Types (s : DB E) (t : thread) (x : Writer).

Inductive decreases s s' : Prop :=
  | dec_top : (m_top s' < m_top s)%nat → decreases s s'
  | dec_work : (m_top s' ≤ m_top s)%nat → (env_work (env_ s') < env_work (env_ s))%nat → decreases s s'
  | dec_stage : (m_top s' ≤ m_top s)%nat → (env_work (env_ s') ≤ env_work (env_ s))%nat → (m_stage s' < m_stage s)%nat → decreases s s'
  | dec_low : (m_top s' ≤ m_top s)%nat → (env_work (env_ s') ≤ env_work (env_ s))%nat → (m_stage s' ≤ m_stage s)%nat → (m_low s' < m_low s)%nat → decreases s s'.

(** What a step gives. *)
Definition goes_on s (o : outcome (unit * DB E)) : Prop := ∃ s', o = Done (tt, s') ∧ wf s' ∧ decreases s s'.

(** Every run ends. *)
Lemma decreases_acc (R : DB E → DB E → Prop) :
  (∀ s s', wf s → R s s' → wf s' ∧ decreases s s') → ∀ s, wf s → Acc (λ s' s, R s s') s.
Proof.
  intros HR.
  assert (∀ a b c d s, wf s → (m_top s ≤ a)%nat → (env_work (env_ s) ≤ b)%nat → (m_stage s ≤ c)%nat → (m_low s ≤ d)%nat → Acc (λ s' s, R s s') s) as H.
  2: { intros s Hs. by eapply (H (m_top s) (env_work (env_ s)) (m_stage s) (m_low s)). }
  intros a. induction (lt_wf a) as [a _ IHa]. intros b. induction (lt_wf b) as [b _ IHb]. intros c. induction (lt_wf c) as [c _ IHc].
  intros d. induction (lt_wf d) as [d _ IHd]. intros s Hs Ha Hb Hc Hd. constructor. intros s' Hstep.
  destruct (HR s s' Hs Hstep) as [Hs' [H1|H1 H2|H1 H2 H3|H1 H2 H3 H4]].
  - by eapply (IHa (m_top s')); [lia|..].
  - by eapply (IHb (env_work (env_ s'))); [lia|..]; try lia.
  - by eapply (IHc (m_stage s')); [lia|..]; try lia.
  - by eapply (IHd (m_low s')); [lia|..]; try lia.
Qed.
End decrease.

(** ** Steps of the first writer *)

Section moves.
Context {E : Type} `{WE : WriteEnv E} `{!WriteEnvLaws E}.
Implicit Types (s : DB E) (t : thread) (x : Writer).

Definition busy t : bool := match t with TRoom _ _ _ => true | _ => bool_decide (is_Some (writing t)) end.
Lemma busy_active t : busy t → active t.
Proof. by destruct t. Qed.
Lemma other_not_active s w x k y :
  wf s → threads s !! w = Some x → active (w_thread x) → threads s !! k = Some y → k ≠ w → active (w_thread y) = false.
Proof.
  intros Hs Ex Ha Ey Hne. destruct (active (w_thread y)) eqn:Ea; [|done]. exfalso.
  destruct (active_head _ _ _ _ (wf_queue _ Hs) Ex Ha) as (q & Eq & _).
  destruct (active_head _ _ k y (wf_queue _ Hs) Ey) as (q' & Eq' & _); [by rewrite Ea|]. rewrite Eq in Eq'. by injection Eq' as ->.
Qed.

Lemma wf_move s s' w x x' :
  wf s → threads s !! w = Some x → active (w_thread x) → writers_ s' = writers_ s → threads s' = <[w := x']> (threads s) →
  head_ok x' → (∀ b, w_batch x' = Some b → batch_ok b) → batch_hdr (tmp_batch_ s') →
  ((∀ lw, writing (w_thread x') ≠ Some (TmpBatch, lw)) → tmp_batch_ s' = new_WriteBatch) →
  (∀ u lw, writing (w_thread x') = Some (u, lw) → lw ∈ writers_ s ∧ is_Some (w_batch x')) →
  (bg_error s' = false → has_imm s' = true ∨ env_needs (env_ s') = true → bg_compaction_scheduled_ s' = true) →
  (∀ f d, w_thread x' = TRoom f d (RWait false) → bg_compaction_scheduled_ s' = true) →
  (bg_compaction_scheduled_ s = true → bg_compaction_scheduled_ s' = true) →
  bg_ok (bg_thread s') (bg_compaction_scheduled_ s') (has_imm s') (env_ s') → wf s'.
Proof.
  intros Hs Ex Ha Eq Et Hx' Hb Htmp Hclear Hw Hsch Hroom Hsch' Hbg. pose proof (other_not_active s w x) as Hother.
  destruct (active_head _ _ _ _ (wf_queue _ Hs) Ex Ha) as (q & Ewq & _). split.
  - rewrite Eq, Et, Ewq. pose proof (wf_queue _ Hs) as Hq. rewrite Ewq in Hq. by eapply queue_head_moves.
  - intros k y b. rewrite Et. intros [[<- <-]|[_ Ey]]%lookup_insert_Some; [apply Hb|by eapply wf_batches].
  - done.
  - intros Hno. apply Hclear. intros lw. apply (Hno w x' lw). rewrite Et. apply lookup_insert_eq.
  - intros k y u lw. rewrite Et, Eq. intros [[<- <-]|[_ Ey]]%lookup_insert_Some; [apply Hw|by eapply wf_writing].
  - done.
  - intros k y f d. rewrite Et. intros [[<- <-]|[Hne Ey]]%lookup_insert_Some; [by apply Hroom|]. intros Ey'.
    pose proof (Hother k y Hs Ex Ha Ey ltac:(done)) as Hn. by rewrite Ey' in Hn.
  - done.
Qed.

Lemma switches_inactive (e e' : E) t : active t = false → switches e' t = switches e t.
Proof. by destruct t. Qed.

(** The sums after a move. *)
Lemma top_move s s' w x x' :
  wf s → threads s !! w = Some x → active (w_thread x) → threads s' = <[w := x']> (threads s) →
  (switches (env_ s') (w_thread x') ≤ switches (env_ s) (w_thread x))%nat → (m_switch s' ≤ m_switch s)%nat.
Proof.
  intros Hs Ex Ha Et Hle. pose proof (changed_insert (threads s) w x Ex x') as Hc. rewrite <-Et in Hc. unfold m_switch.
  eapply (sum_changed s s' _ _ _ Hc). intros k y Ey. cbv beta. destruct (decide (k = w)) as [->|Hne]; [by simplify_eq|].
  rewrite (switches_inactive (env_ s) (env_ s')); [lia|]. by apply (other_not_active s w x k y).
Qed.
Lemma rank_move s s' w x x' :
  threads s !! w = Some x → threads s' = <[w := x']> (threads s) → (rank (w_thread x') < rank (w_thread x))%nat →
  (m_rank s' < m_rank s)%nat ∧ ids s' = ids s.
Proof.
  intros Ex Et Hlt. pose proof (changed_insert (threads s) w x Ex x') as Hc. rewrite <-Et in Hc. split; [|by eapply ids_changed].
  unfold m_rank. eapply (sum_changed_lt s s' _ _ _ w x Hc); [|done|cbv beta; by rewrite decide_True].
  intros k y Ey. cbv beta. destruct (decide (k = w)) as [->|Hne]; [simplify_eq; lia|lia].
Qed.
Lemma dec_move s s' w x x' :
  wf s → threads s !! w = Some x → active (w_thread x) → threads s' = <[w := x']> (threads s) →
  (switches (env_ s') (w_thread x') ≤ switches (env_ s) (w_thread x))%nat → (rank (w_thread x') < rank (w_thread x))%nat →
  (bg_error s = true → bg_error s' = true) → has_imm s' = has_imm s → bg_compaction_scheduled_ s' = bg_compaction_scheduled_ s →
  bg_thread s' = bg_thread s → (env_work (env_ s') ≤ env_work (env_ s))%nat → decreases s s'.
Proof.
  intros Hs Ex Ha Et Hsw Hrk Herr Him Hsch Hbg Hwk. destruct (rank_move s s' w x x' Ex Et Hrk) as [Hr Hids].
  pose proof (top_move s s' w x x' Hs Ex Ha Et Hsw) as Ht. apply dec_low.
  - unfold m_top. rewrite Him. destruct (bg_error s), (bg_error s'); cbn; first [lia|by specialize (Herr eq_refl)].
  - done.
  - unfold m_stage. by rewrite Hsch, Hbg.
  - unfold m_low. rewrite Hids, Hbg. lia.
Qed.

Lemma run_get_writer s w x : threads s !! w = Some x → get_writer w s = Done (x, s).
Proof. intros E0. unfold get_writer. by rewrite bind_get, E0. Qed.
Definition with_threads (m : gmap nat Writer) s : DB E :=
  MkDB (writers_ s) m (tmp_batch_ s) (last_sequence_ s) (has_imm s) (bg_error s) (bg_compaction_scheduled_ s) (bg_thread s) (env_ s).
Lemma run_put_writer s w x : put_writer w x s = Done (tt, with_threads (<[w := x]> (threads s)) s).
Proof. done. Qed.
Lemma run_set_thread s w x t : threads s !! w = Some x → set_thread w t s = Done (tt, with_threads (<[w := with_thread t x]> (threads s)) s).
Proof. intros Ex. unfold set_thread. by bind_with (run_get_writer s w x Ex). Qed.

(** A writer that only goes to another place. *)
Lemma goes_set_thread s w x t :
  wf s → threads s !! w = Some x → active (w_thread x) → active t → (rank t < rank (w_thread x))%nat →
  (switches (env_ s) t ≤ switches (env_ s) (w_thread x))%nat → writing t = writing (w_thread x) →
  (∀ f d, t = TRoom f d (RWait false) → bg_compaction_scheduled_ s = true) → goes_on s (set_thread w t s).
Proof.
  intros Hs Ex Ha Ht Hrk Hsw Hwr Hroom. eexists. split; [by apply run_set_thread|].
  destruct (active_head _ _ _ _ (wf_queue _ Hs) Ex Ha) as (q & Ewq & Hd). split.
  - eapply wf_move; [done|done|done|done|reflexivity|..]; cbn.
    + split; [done|by right].
    + intros b. by apply (wf_batches _ Hs w x).
    + apply (wf_tmp _ Hs).
    + rewrite Hwr. intros Hno. apply (wf_clear _ Hs). intros k y lw Ey. destruct (decide (k = w)) as [->|Hne]; [simplify_eq; apply Hno|].
      pose proof (other_not_active s w x k y Hs Ex Ha Ey Hne) as Hn. by destruct (w_thread y).
    + rewrite Hwr. intros u lw. by apply (wf_writing _ Hs w x).
    + apply (wf_scheduled _ Hs).
    + done.
    + done.
    + apply (wf_bg _ Hs).
  - by eapply (dec_move s _ w x (with_thread t x)).
Qed.
End moves.

(** ** The end of a write *)

Section finishing.
Context {E : Type} `{WE : WriteEnv E} `{!WriteEnvLaws E}.
Implicit Types (s : DB E) (t : thread) (x : Writer) (g rest : list nat).

(** A writer of the group is told. *)
Definition told (st : bool) (w : nat) g (k : nat) x : Writer :=
  if decide (k ∈ g ∧ k ≠ w) then signal (MkWriter st (w_batch x) (w_sync x) true (w_thread x)) else x.

Definition with_queue q (m : gmap nat Writer) s : DB E :=
  MkDB q m (tmp_batch_ s) (last_sequence_ s) (has_imm s) (bg_error s) (bg_compaction_scheduled_ s) (bg_thread s) (env_ s).

Lemma run_pop_writers w lw st rest g : ∀ s,
  NoDup (g ++ [lw]) → (∀ k, k ∈ g ++ [lw] → is_Some (threads s !! k)) →
  ∃ m', pop_writers (g ++ lw :: rest) w lw st s = Done (tt, with_queue rest m' s) ∧ changed (told st w (g ++ [lw])) (threads s) m'.
Proof.
  assert (∀ s k q, is_Some (threads s !! k) → ∃ m', (if decide (k = w) then mret tt else x ← get_writer k; put_writer k (signal (MkWriter st (w_batch x) (w_sync x) true (w_thread x))))
    (with_queue q (threads s) s) = Done (tt, with_queue q m' s) ∧ changed (told st w [k]) (threads s) m') as Hone.
  { intros s k q [x Ex]. destruct (decide (k = w)) as [->|Hne].
    - exists (threads s). split; [done|]. eapply changed_ext; [apply changed_id|]. intros j y Ey. unfold told. rewrite decide_False; [done|].
      intros [->%list_elem_of_singleton Hj]. done.
    - eexists. split; [by bind_with (run_get_writer (with_queue q (threads s) s) k x Ex)|].
      eapply changed_ext; [by apply (changed_insert _ k x)|]. intros j y Ey. cbv beta. unfold told. destruct (decide (j = k)) as [->|Hj].
      + rewrite decide_True by (rewrite list_elem_of_singleton; done). by simplify_eq.
      + rewrite decide_False; [done|]. by intros [?%list_elem_of_singleton _]. }
  induction g as [|k g IH]; intros s Hnd Hin; cbn [app pop_writers].
  - erewrite bind_done by reflexivity. fold (with_queue rest (threads s) s).
    destruct (Hone s lw rest) as (m' & E1 & Hc); [apply Hin; left|]. exists m'. bind_with E1. by rewrite decide_True.
  - cbn [app] in Hnd, Hin. apply NoDup_cons in Hnd as [Hk Hnd]. erewrite bind_done by reflexivity. fold (with_queue (g ++ lw :: rest) (threads s) s).
    destruct (Hone s k (g ++ lw :: rest)) as (m1 & E1 & Hc1); [apply Hin; left|]. bind_with E1.
    rewrite decide_False by (intros ->; apply Hk, elem_of_app; right; left).
    destruct (IH (with_queue (g ++ lw :: rest) m1 s)) as (m' & E2 & Hc2); [done| |].
    { intros j Hj. cbn. rewrite Hc1. destruct (Hin j) as [y Ey]; [by right|]. rewrite Ey. by eexists. }
    exists m'. split; [exact E2|]. eapply changed_ext; [by eapply changed_trans|]. intros j y Ey. cbv beta. unfold told. cbn [app].
    destruct (decide (j = k)) as [->|Hj].
    + rewrite (decide_False (P := k ∈ g ++ [lw] ∧ _)) by tauto. destruct (decide (k = w)) as [->|Hkw].
      * rewrite !decide_False by tauto. done.
      * rewrite !decide_True by (rewrite ?elem_of_cons; auto). done.
    + rewrite (decide_False (P := j ∈ [k] ∧ _)) by (rewrite list_elem_of_singleton; tauto). apply decide_ext. rewrite elem_of_cons. tauto.
Qed.

(** What [finish] does to a writer. *)
Definition finished (st : bool) (w : nat) g rest (k : nat) x : Writer :=
  if decide (k = w) then with_thread (TReturned st) x
  else if decide (k ∈ g) then signal (MkWriter st (w_batch x) (w_sync x) true (w_thread x))
  else if decide (head rest = Some k) then signal x else x.

Lemma run_write_finish s w g rest st :
  writers_ s = g ++ rest → w ∈ g → NoDup (g ++ rest) → (∀ k, k ∈ g ++ rest → is_Some (threads s !! k)) →
  ∃ lw m', last g = Some lw ∧ finish w lw st s = Done (tt, with_queue rest m' s) ∧ changed (finished st w g rest) (threads s) m'.
Proof.
  intros Eq Hw Hnd Hin. pose proof Hnd as (Hndg & Hdis & Hndr)%NoDup_app. destruct g as [|lw g _] using rev_ind; [by apply not_elem_of_nil in Hw|].
  exists lw. assert (writers_ s = g ++ lw :: rest) as Eq' by (rewrite Eq, <-app_assoc; done).
  destruct (run_pop_writers w lw st rest g s Hndg) as (m1 & E1 & Hc1); [intros k Hk; apply Hin, elem_of_app; by left|].
  unfold finish. rewrite bind_get, Eq'. set (g' := g ++ [lw]) in *.
  assert (∃ m2, (match rest with [] => mret tt | next :: _ => x ← get_writer next; put_writer next (signal x) end) (with_queue rest m1 s) = Done (tt, with_queue rest m2 s) ∧
    changed (λ k x, if decide (head rest = Some k) then signal x else x) m1 m2) as (m2 & E2 & Hc2).
  { destruct rest as [|n rest]; [exists m1; split; [done|apply changed_id]|].
    destruct (Hin n) as [x Ex]; [apply elem_of_app; right; left|]. assert (m1 !! n = Some (told st w g' n x)) as En by (by rewrite Hc1, Ex).
    eexists. split; [by bind_with (run_get_writer (with_queue (n :: rest) m1 s) n _ En)|].
    eapply changed_ext; [exact (changed_insert m1 n _ En _)|]. intros k y Ey. cbv beta. cbn [head]. destruct (decide (k = n)) as [->|Hk].
    - rewrite decide_True by done. by simplify_eq.
    - rewrite decide_False; [done|]. by intros [= ->]. }
  destruct (Hin w) as [x Ex]; [apply elem_of_app; by left|].
  assert (∃ y, m2 !! w = Some y) as [y Ey] by (rewrite Hc2, Hc1, Ex; by eexists).
  exists (<[w := with_thread (TReturned st) y]> m2). split_and!; [apply last_snoc| |].
  - bind_with E1. rewrite bind_get. cbn [with_queue writers_]. bind_with E2. exact (run_set_thread (with_queue rest m2 s) w y _ Ey).
  - eapply changed_ext; [eapply changed_trans; [eapply changed_trans; [exact Hc1|exact Hc2]|exact (changed_insert m2 w y Ey _)]|].
    intros k z Ez. cbv beta. unfold finished. destruct (decide (k = w)) as [->|Hk].
    + assert (y = told st w g' w x) as ->.
      { rewrite Hc2, Hc1, Ex in Ey. cbn in Ey. rewrite decide_False in Ey; [by injection Ey as <-|]. intros Hh. destruct rest as [|n rest]; [done|]. injection Hh as ->.
        apply (Hdis w Hw). left. }
      unfold told. rewrite decide_False by tauto. by simplify_eq.
    + unfold told. destruct (decide (k ∈ g')) as [Hg|Hg].
      * rewrite (decide_True (P := k ∈ g' ∧ _)) by done. rewrite decide_False; [done|]. intros Hh. destruct rest as [|n rest]; [done|]. injection Hh as ->.
        apply (Hdis k Hg). left.
      * rewrite (decide_False (P := k ∈ g' ∧ _)) by tauto. done.
Qed.

(** The state [s1] differs from [s] in what writers do not see. *)
Lemma goes_finish s s1 w x q g rest lw st :
  wf s → threads s !! w = Some x → active (w_thread x) → writers_ s = w :: q → w :: q = g ++ rest → last g = Some lw →
  threads s1 = threads s → writers_ s1 = writers_ s → tmp_batch_ s1 = new_WriteBatch →
  (bg_error s1 = false → has_imm s1 = true ∨ env_needs (env_ s1) = true → bg_compaction_scheduled_ s1 = true) →
  (bg_error s = true → bg_error s1 = true) → has_imm s1 = has_imm s → bg_compaction_scheduled_ s1 = bg_compaction_scheduled_ s →
  bg_thread s1 = bg_thread s → (∀ c, env_picked c (env_ s) → env_picked c (env_ s1)) →
  (env_work (env_ s1) ≤ env_work (env_ s))%nat → goes_on s (finish w lw st s1).
Proof.
  intros Hs Ex Ha Eq Eg Elast Et Ewr Etmp Hsch Herr Him Hbg Hbgt Hpk Hwk. pose proof (wf_queue _ Hs) as Hq. rewrite Eq in Hq.
  assert (w ∈ g) as Hw by (destruct g as [|z g]; [done|]; injection Eg as <- _; left).
  pose proof (qk_nodup _ _ Hq) as Hnd. rewrite Eg in Hnd. pose proof Hnd as (Hndg & Hdis & Hndr)%NoDup_app.
  assert (∀ k, k ∈ rest → k ∈ q) as Hrest.
  { intros k Hk. assert (k ∈ w :: q) as [->|?]%elem_of_cons by (rewrite Eg; apply elem_of_app; by right); [by destruct (Hdis w Hw)|done]. }
  assert (∀ k, k ∈ g → k ≠ w → k ∈ q) as Hg.
  { intros k Hk Hne. assert (k ∈ w :: q) as [->|?]%elem_of_cons by (rewrite Eg; apply elem_of_app; by left); done. }
  assert (∀ k, k ∈ q → ∃ y, threads s !! k = Some y ∧ tail_ok y) as Htail by (intros k Hk; by apply (qk_tail _ _ Hq)).
  destruct (run_write_finish s1 w g rest st) as (lw' & m' & Elast' & E1 & Hc).
  { by rewrite Ewr, Eq. } { done. } { done. }
  { intros k. rewrite <-Eg, Et. intros [->|Hk]%elem_of_cons; [by eexists|]. destruct (Htail k Hk) as (y & Ey & _). by eexists. }
  assert (lw' = lw) as -> by congruence. rewrite Et in Hc. set (s' := with_queue rest m' s1) in *.
  assert (∀ x, tail_ok x → head_ok (signal x)) as Hsig by (intros [? ? ? d t] [Hd Ht]; cbn in *; subst; split; [done|by left]).
  assert (∀ k y, threads s !! k = Some y → k ≠ w → active (w_thread (finished st w g rest k y)) = false) as Hina.
  { intros k y Ey Hk. unfold finished. rewrite decide_False by done. pose proof (other_not_active s w x k y Hs Ex Ha Ey Hk) as Hn.
    assert (∀ z, w_thread z = w_thread y → active (w_thread (signal z)) = false) as Hz.
    { intros z Ez. unfold signal. rewrite <-Ez in Hn. destruct (w_thread z) eqn:Etz; rewrite ?Etz; done. }
    destruct (decide (k ∈ g)); [by apply Hz|]. destruct (decide _); [by apply Hz|done]. }
  assert (∀ k y', threads s' !! k = Some y' → active (w_thread y') = false) as Hina'.
  { intros k y' Ey'. destruct (changed_lookup _ _ _ _ _ Hc Ey') as (y & Ey & ->). destruct (decide (k = w)) as [->|Hk]; [|by apply Hina].
    unfold finished. by rewrite decide_True. }
  assert (∀ t, active t = false → writing t = None) as Hnw by (by intros []).
  exists s'. split; [exact E1|]. split.
  - split.
    + eapply queue_changed; [exact Hq|exact Hc|exact Hndr|..].
      * intros h Eh. assert (h ∈ rest) as Hh by (destruct rest; [done|]; injection Eh as ->; left).
        destruct (Htail h (Hrest h Hh)) as (y & Ey & Hy). exists y. split; [done|]. unfold finished.
        assert (h ∉ g) as Hng by (intros Hhg; by apply (Hdis h)). rewrite decide_False by (by intros ->).
        rewrite decide_False by done. rewrite decide_True by done. by apply Hsig.
      * intros k Hk. assert (k ∈ rest) as Hkr by (destruct rest; [done|]; by right). destruct (Htail k (Hrest k Hkr)) as (y & Ey & Hy). exists y. split; [done|].
        assert (k ∉ g) as Hng by (intros Hhg; by apply (Hdis k)). unfold finished. rewrite decide_False by (by intros ->). rewrite decide_False by done.
        rewrite decide_False; [done|]. destruct rest as [|n rest]; [done|]. intros [= ->]. by apply NoDup_cons in Hndr as [? _].
      * intros k y Ey Hk. unfold finished. destruct (decide (k = w)) as [->|Hkw]; [done|]. destruct (decide (k ∈ g)) as [Hkg|Hkg].
        { destruct (Htail k (Hg k Hkg Hkw)) as (y' & Ey' & [Hd Ht]). simplify_eq. unfold signal, out_ok. cbn. rewrite Ht. done. }
        rewrite decide_False; [|intros Hh; apply Hk; destruct rest; [done|]; injection Hh as ->; left].
        apply (qk_out _ _ Hq k y Ey). rewrite Eg. rewrite elem_of_app. tauto.
    + intros k y' b Ey'. destruct (changed_lookup _ _ _ _ _ Hc Ey') as (y & Ey & ->). intros Eb. apply (wf_batches _ Hs k y b Ey).
      rewrite <-Eb. unfold finished, signal, with_thread. destruct (decide (k = w)); [done|]. destruct (decide (k ∈ g)); cbn; [by destruct (w_thread y)|].
      destruct (decide _); [by destruct (w_thread y)|done].
    + cbn. rewrite Etmp. apply new_batch_hdr.
    + by intros _.
    + intros k y' u lw0 Ey' Ew'. apply Hina', Hnw in Ey'. congruence.
    + exact Hsch.
    + intros k y' f d Ey' Ew'. apply Hina' in Ey'. by rewrite Ew' in Ey'.
    + cbn. rewrite Hbgt, Hbg, Him. eapply bg_ok_env; [exact Hpk|apply (wf_bg _ Hs)].
  - assert (∀ k y, threads s !! k = Some y → rank (w_thread (finished st w g rest k y)) ≤ rank (w_thread y)
      ∧ switches (env_ s') (w_thread (finished st w g rest k y)) ≤ switches (env_ s) (w_thread y))%nat as Hle.
    { intros k y Ey. unfold finished. destruct (decide (k = w)) as [->|Hkw]; [cbn; lia|].
      assert (∀ z, w_thread z = w_thread y → rank (w_thread (signal z)) ≤ rank (w_thread y) ∧ switches (env_ s') (w_thread (signal z)) ≤ switches (env_ s) (w_thread y))%nat as Hz.
      { pose proof (other_not_active s w x k y Hs Ex Ha Ey Hkw) as Hn. intros z Ez. unfold signal. rewrite <-Ez in *. destruct (w_thread z) eqn:Etz; rewrite ?Etz; try done; cbn; lia. }
      destruct (decide (k ∈ g)); [by apply Hz|]. destruct (decide _); [by apply Hz|].
      rewrite (switches_inactive (env_ s) (env_ s')); [lia|]. by apply (other_not_active s w x k y). }
    apply dec_low.
    + unfold m_top. cbn [s' with_queue has_imm bg_error]. rewrite Him.
      assert (m_switch s' ≤ m_switch s)%nat by (eapply sum_changed; [exact Hc|]; intros k y Ey; by apply Hle).
      destruct (bg_error s), (bg_error s1); cbn; first [lia|by specialize (Herr eq_refl)].
    + exact Hwk.
    + unfold m_stage. cbn [s' with_queue bg_compaction_scheduled_ bg_thread]. by rewrite Hbg, Hbgt.
    + unfold m_low. rewrite (ids_changed s s' _ Hc). cbn [s' with_queue bg_thread]. rewrite Hbgt.
      assert (m_rank s' < m_rank s)%nat; [|lia]. eapply (sum_changed_lt s s' _ _ _ w x Hc); [intros k y Ey; by apply Hle|done|].
      unfold finished. rewrite decide_True by done. cbn [with_thread w_thread rank]. clear -Ha. destruct (w_thread x) as [| |f [] [| |[]]| | | | |]; cbn in Ha |- *; first [done|lia].
Qed.
End finishing.

(** ** Making room *)

Section rooms.
Context {E : Type} `{WE : WriteEnv E} `{!WriteEnvLaws E}.
Implicit Types (s : DB E) (t : thread) (x : Writer).

Definition with_env (e : E) s : DB E :=
  MkDB (writers_ s) (threads s) (tmp_batch_ s) (last_sequence_ s) (has_imm s) (bg_error s) (bg_compaction_scheduled_ s) (bg_thread s) e.

Lemma same_refl e : same_versions e e.
Proof. done. Qed.
Lemma none_writing s w x :
  wf s → threads s !! w = Some x → active (w_thread x) → writing (w_thread x) = None → tmp_batch_ s = new_WriteBatch.
Proof.
  intros Hs Ex Ha Hn. apply (wf_clear _ Hs). intros k y lw Ey. destruct (decide (k = w)) as [->|Hne]; [simplify_eq; by rewrite Hn|].
  pose proof (other_not_active s w x k y Hs Ex Ha Ey Hne) as Hk. by destruct (w_thread y).
Qed.
Lemma wf_scheduled_env s e : wf s → same_versions (env_ s) e →
  bg_error s = false → has_imm s = true ∨ env_needs e = true → bg_compaction_scheduled_ s = true.
Proof. intros Hs (_ & -> & _). apply (wf_scheduled _ Hs). Qed.
Lemma same_bg s e : wf s → same_versions (env_ s) e → bg_ok (bg_thread s) (bg_compaction_scheduled_ s) (has_imm s) e.
Proof. intros Hs (_ & _ & _ & Hp). eapply bg_ok_env; [exact Hp|apply (wf_bg _ Hs)]. Qed.

Lemma goes_after_room s w x f d e status :
  wf s → threads s !! w = Some x → w_thread x = TRoom f d RLoop → same_versions (env_ s) e → goes_on s (after_room w status (with_env e s)).
Proof.
  intros Hs Ex Etx Hsame. assert (active (w_thread x)) as Ha by by rewrite Etx. pose proof Hsame as (_ & _ & Hwork & Hpk).
  destruct (active_head _ _ _ _ (wf_queue _ Hs) Ex Ha) as (q & Eq & Hd).
  assert (tmp_batch_ s = new_WriteBatch) as Etmp by (apply (none_writing s w x); [done..|by rewrite Etx]).
  assert (goes_on s (finish w w status (with_env e s))) as Hfin.
  { apply (goes_finish s (with_env e s) w x q [w] q w status); try done; cbn; [by apply wf_scheduled_env|lia]. }
  unfold after_room. rewrite bind_get. bind_with (run_get_writer (with_env e s) w x Ex). cbv zeta.
  destruct status; [|exact Hfin]. destruct (w_batch x) as [fb|] eqn:Eb; [|exact Hfin]. clear Hfin.
  pose proof (wf_batches _ Hs w x fb Ex Eb) as Hfb. pose proof (wf_queue _ Hs) as Hq. rewrite Eq in Hq.
  destruct (run_BuildBatchGroup (with_env e s) w q x fb) as (g & rest & u & t & Egr & E1 & Hg & Hgb & _); [done..|by destruct Hfb|done| | |].
  { intros v Hv. destruct (qk_tail _ _ Hq v Hv) as (y & Ey & _). exists y. split; [done|]. intros b Hb. by apply (wf_batches _ Hs v y b). }
  { right. split_and!; [unfold sum_sizes; cbn; lia|by destruct Hfb|]. apply Forall_forall. intros b Hb. unfold batches_of in Hb.
    apply list_elem_of_omap in Hb as (v & Hv & Ev). destruct (threads (with_env e s) !! v) as [y|] eqn:Ey; [|done]. by apply (wf_batches _ Hs v y b). }
  bind_with E1. set (lw := default w (last g)).
  assert (lw ∈ writers_ s) as Hlw.
  { rewrite Eq. unfold lw. destruct (last g) as [z|] eqn:El; [|left]. right. rewrite Egr. apply elem_of_app. left. by apply last_Some_elem_of. }
  pose proof (gathered_ok _ _ _ _ Hg (proj1 Hfb) Hgb) as Ht. set (s1 := with_tmp t (with_env e s)).
  assert (∃ b x' tm, SetSequence_updates w u (u64 (last_sequence_ (with_env e s) + 1)) s1 = Done (tt, with_tmp tm (with_threads (<[w := x']> (threads s)) (with_env e s))) ∧
    get_updates w u (with_tmp tm (with_threads (<[w := x']> (threads s)) (with_env e s))) = Done (b, with_tmp tm (with_threads (<[w := x']> (threads s)) (with_env e s))) ∧
    batch_hdr b ∧ batch_hdr tm ∧ (u = MyBatch → tm = new_WriteBatch) ∧ w_done x' = false ∧ ∃ fb', w_batch x' = Some fb' ∧ batch_ok fb')
    as (b & x' & tm & E2 & E3 & Hb & Ht' & Htm & Hd' & fb' & Eb' & Hfb').
  { assert (get_writer w s1 = Done (x, s1)) as Egw by (by apply run_get_writer). unfold SetSequence_updates, get_updates. set (sq := u64 _). destruct u.
    - destruct (SetSequence_ok fb sq Hfb) as (b' & Es & Hb'). exists b', (MkWriter (w_status x) (Some b') (w_sync x) (w_done x) (w_thread x)), t.
      split_and!; [..|eexists; split; [done|]]; try done; try (by destruct Hb').
      + rewrite bind_assoc. bind_with Egw. rewrite (bind_lift _ fb) by exact Eb. rewrite (bind_lift _ b') by exact Es. by bind_with Egw.
      + erewrite bind_done by (apply run_get_writer; apply lookup_insert_eq). done.
      + intros _. apply Hg.
    - destruct (SetSequence_hdr t sq Ht) as (b' & Es & Hb'). exists b', x, b'. split_and!; [..|by exists fb]; try done.
      rewrite bind_assoc, bind_get. erewrite bind_done by reflexivity. cbn [s1 with_tmp tmp_batch_]. rewrite (bind_lift _ b') by exact Es.
      cbn. unfold with_tmp, with_threads. cbn. by rewrite insert_id. }
  bind_with E2. bind_with E3. destruct (hdr_count b Hb) as (En & _). rewrite (bind_lift _ _ _ _ En).
  eexists. split; [apply run_set_thread; apply lookup_insert_eq|]. cbn. rewrite insert_insert_eq. set (ls := u64 _). split.
  - eapply (wf_move s _ w x (with_thread (TLog u lw ls) x')); cbn; try done.
    + split; [done|by right].
    + rewrite Eb'. by intros ? [= <-].
    + intros Hno. apply Htm. destruct u; [done|]. by destruct (Hno lw).
    + rewrite Eb'. by intros ? ? [= <- <-].
    + by apply wf_scheduled_env.
    + by apply same_bg.
  - eapply (dec_move s _ w x (with_thread (TLog u lw ls) x')); cbn; try done; rewrite ?Etx; cbn; [lia|destruct d; lia|lia].
Qed.

(** A turn of the loop. *)
Lemma goes_room_step s w x f d :
  wf s → threads s !! w = Some x → w_thread x = TRoom f d RLoop → goes_on s (room_step w f d s).
Proof.
  intros Hs Ex Etx. assert (active (w_thread x)) as Ha by by rewrite Etx.
  destruct (active_head _ _ _ _ (wf_queue _ Hs) Ex Ha) as (q & Eq & Hd).
  assert (∀ st, goes_on s (after_room w st s)) as Hafter.
  { intros st. pose proof (goes_after_room s w x f d (env_ s) st Hs Ex Etx (same_refl _)) as Hg. by destruct s. }
  unfold room_step. rewrite bind_get. cbv zeta. destruct (bg_error s) eqn:Eerr; [apply Hafter|].
  destruct (d && (kL0_SlowdownWritesTrigger <=? env_level0 (env_ s))) eqn:Edel.
  { apply andb_true_iff in Edel as [-> _]. apply (goes_set_thread s w x); rewrite ?Etx; cbn; try done; lia. }
  destruct (negb f && (env_usage (env_ s) <=? env_buffer)) eqn:Eroom; [apply Hafter|].
  assert (bg_compaction_scheduled_ s = true → goes_on s (set_thread w (TRoom f d (RWait false)) s)) as Hwait.
  { intros Hsch. apply (goes_set_thread s w x); rewrite ?Etx; cbn; try done; destruct d; cbn; lia. }
  destruct (has_imm s) eqn:Eimm; [apply Hwait, (wf_scheduled _ Hs); [done|by left]|].
  destruct (Z.leb_spec kL0_StopWritesTrigger (env_level0 (env_ s))) as [Hstop|Hgo].
  { apply Hwait, (wf_scheduled _ Hs); [done|]. right. by apply stop_needs. }
  pose proof (newlog_same (env_ s)) as Hsame. destruct (env_NewLog (env_ s)) as [ok e] eqn:Enew. cbn in Hsame.
  erewrite bind_done by (unfold on_env; rewrite Enew; reflexivity). fold (with_env e s).
  destruct ok; [|by apply goes_after_room with (x := x) (f := f) (d := d)].
  erewrite bind_done by reflexivity. cbn [with_env env_]. rewrite bind_get. erewrite bind_done by reflexivity.
  cbn [with_env writers_ threads tmp_batch_ last_sequence_ has_imm bg_error bg_compaction_scheduled_ bg_thread env_].
  set (e' := env_Switch e). pose proof (switch_same e) as Hsame'. fold e' in Hsame'.
  assert (∀ sch, sch = true → let s2 := MkDB (writers_ s) (threads s) (tmp_batch_ s) (last_sequence_ s) true (bg_error s) sch (bg_thread s) e' in
    goes_on s (set_thread w (TRoom false d RLoop) s2)) as Hgo2.
  { intros sch -> s2. eexists. split; [by apply (run_set_thread s2 w x)|]. split.
    - eapply (wf_move s _ w x (with_thread (TRoom false d RLoop) x)); cbn; try done.
      + split; [done|by right].
      + intros b. by apply (wf_batches _ Hs w x).
      + apply (wf_tmp _ Hs).
      + intros _. apply (none_writing s w x); [done..|by rewrite Etx].
      + eapply bg_ok_imm, (same_bg s). { exact Hs. } destruct Hsame as (? & ? & ? & ?), Hsame' as (? & ? & ? & ?). split_and!; [congruence|congruence|congruence|auto].
    - apply dec_top. set (s' := with_threads _ s2).
      assert (m_switch s' < m_switch s)%nat as Hlt; 
        [|assert (m_top s' = (2 * m_switch s' + bit (negb (bg_error s)) + 1)%nat) as -> by done; unfold m_top; rewrite Eimm; unfold bit at 3; lia].
      unfold m_switch. eapply (sum_changed_lt s s' _ _ _ w x (changed_insert (threads s) w x Ex (with_thread (TRoom false d RLoop) x))); [|done|].
      + intros k y Ey. cbv beta. destruct (decide (k = w)) as [->|Hne].
        * simplify_eq. cbn. rewrite Etx. pose proof (switch_fresh e). rewrite (proj2 (Z.ltb_ge _ _)) by done. cbn. destruct (f || _); lia.
        * rewrite (switches_inactive (env_ s) (env_ s')); [lia|]. by apply (other_not_active s w x k y).
      + cbv beta. rewrite decide_True by done. cbn. rewrite Etx. pose proof (switch_fresh e). rewrite (proj2 (Z.ltb_ge _ _)) by done. cbn.
        destruct f; cbn in *; [lia|]. apply Z.leb_gt in Eroom. rewrite (proj2 (Z.ltb_lt _ _)) by lia. lia. }
  unfold MaybeScheduleCompaction. rewrite bind_assoc, bind_get. cbn [bg_compaction_scheduled_ bg_error has_imm env_].
  destruct (bg_compaction_scheduled_ s) eqn:Esch.
  - erewrite bind_done by reflexivity. by apply (Hgo2 true).
  - rewrite Eerr. cbn [negb andb]. erewrite bind_done by reflexivity. cbn [writers_ threads tmp_batch_ last_sequence_ bg_thread env_].
    pose proof (Hgo2 true eq_refl) as Hg. cbv zeta in Hg. rewrite Eerr in Hg. exact Hg.
Qed.
End rooms.

(** ** The other steps *)

Section steps.
Context {E : Type} `{WE : WriteEnv E} `{!WriteEnvLaws E}.
Implicit Types (s : DB E) (t : thread) (x : Writer).

(** Work without the mutex: the environment changes, and the writer goes on. *)
Lemma goes_work s w x t e u lw :
  wf s → threads s !! w = Some x → writing (w_thread x) = Some (u, lw) → writing t = Some (u, lw) → (rank t < rank (w_thread x))%nat →
  same_versions (env_ s) e → goes_on s (set_thread w t (with_env e s)).
Proof.
  intros Hs Ex Ew Et Hrk Hsame. assert (active (w_thread x)) as Ha by (by destruct (w_thread x)). assert (active t) as Hat by (by destruct t).
  destruct (active_head _ _ _ _ (wf_queue _ Hs) Ex Ha) as (q & Eq & Hd). pose proof Hsame as (_ & _ & Hwork & _).
  eexists. split; [by apply (run_set_thread (with_env e s) w x)|]. split.
  - eapply (wf_move s _ w x (with_thread t x)); cbn; try done.
    + split; [done|by right].
    + intros b. by apply (wf_batches _ Hs w x).
    + apply (wf_tmp _ Hs).
    + rewrite Et. intros Hno. apply (wf_clear _ Hs). intros k y lw' Ey. destruct (decide (k = w)) as [->|Hne]; [simplify_eq; by rewrite Ew|].
      pose proof (other_not_active s w x k y Hs Ex Ha Ey Hne) as Hn. by destruct (w_thread y).
    + rewrite Et. intros u' lw' [= <- <-]. by apply (wf_writing _ Hs w x u lw).
    + by apply wf_scheduled_env.
    + intros f d ->. done.
    + by apply same_bg.
  - eapply (dec_move s _ w x (with_thread t x)); cbn; try done; [|lia]. destruct t; cbn; try done; lia.
Qed.

Lemma get_updates_some s w x u lw :
  wf s → threads s !! w = Some x → writing (w_thread x) = Some (u, lw) → ∃ b, get_updates w u s = Done (b, s).
Proof.
  intros Hs Ex Ew. destruct (wf_writing _ Hs w x u lw Ex Ew) as [_ [b Eb]]. unfold get_updates. destruct u; [|by eexists].
  exists b. bind_with (run_get_writer s w x Ex). by rewrite Eb.
Qed.

Lemma wake_none (m : gmap nat Writer) : (∀ k x f d b, m !! k = Some x → w_thread x ≠ TRoom f d (RWait b)) → wake_room <$> m = m.
Proof.
  intros Hno. apply map_eq. intros k. rewrite lookup_fmap. destruct (m !! k) as [x|] eqn:Ex; [|done]. cbn. f_equal. unfold wake_room.
  destruct (w_thread x) as [| |f d []| | | | |] eqn:Et; try done. by destruct (Hno k x f d woken Ex).
Qed.

(** The end of a write, with an error of the background thread when the log is in doubt. *)
Lemma goes_lock s w x u lw ls st err :
  wf s → threads s !! w = Some x → w_thread x = TLock u lw ls st err → goes_on s (thread_step w s).
Proof.
  intros Hs Ex Et. assert (active (w_thread x)) as Ha by by rewrite Et.
  destruct (active_head _ _ _ _ (wf_queue _ Hs) Ex Ha) as (q & Eq & Hd).
  destruct (wf_writing _ Hs w x u lw Ex) as [Hlw _]; [by rewrite Et|]. pose proof (qk_nodup _ _ (wf_queue _ Hs)) as Hnd. pose proof (wf_queue _ Hs) as Hqk.
  apply list_elem_of_split in Hlw as (g & rest & Eg).
  assert (∃ e1, (if err then RecordBackgroundError else mret tt) s = Done (tt, MkDB (writers_ s) (threads s) (tmp_batch_ s) (last_sequence_ s) (has_imm s) e1 (bg_compaction_scheduled_ s) (bg_thread s) (env_ s)) ∧
    (e1 = false → bg_error s = false) ∧ (bg_error s = true → e1 = true)) as (e1 & E1 & He1 & He1').
  { destruct err; [|exists (bg_error s); by destruct s]. unfold RecordBackgroundError. rewrite bind_get. destruct (bg_error s) eqn:Eb; [exists true; by destruct s; cbn in *; subst|].
    exists true. split_and!; [|done..]. erewrite bind_done by reflexivity. unfold SignalAll. rewrite bind_get. cbn [threads].
    rewrite wake_none; [done|]. intros k y f d b Ey Ey'. destruct (decide (k = w)) as [->|Hne]; [by simplify_eq; rewrite Et in Ey'|].
    pose proof (other_not_active s w x k y Hs Ex Ha Ey Hne) as Hn. by rewrite Ey' in Hn. }
  unfold thread_step. bind_with (run_get_writer s w x Ex). rewrite Et. bind_with E1.
  set (s1 := MkDB _ _ _ _ _ e1 _ _ _).
  assert (∃ tm, (match u with TmpBatch => s ← get_state; set_tmp (Clear (tmp_batch_ s)) | MyBatch => mret tt end) s1 = Done (tt, with_tmp tm s1) ∧ tm = new_WriteBatch) as (tm & E2 & ->).
  { destruct u; [|by exists new_WriteBatch]. exists (tmp_batch_ s). split; [done|]. apply (wf_clear _ Hs). intros k y lw' Ey.
    destruct (decide (k = w)) as [->|Hne]; [simplify_eq; by rewrite Et|]. pose proof (other_not_active s w x k y Hs Ex Ha Ey Hne) as Hn. by destruct (w_thread y). }
  bind_with E2. erewrite bind_done by reflexivity.
  apply (goes_finish s _ w x q (g ++ [lw]) rest lw st); try done; cbn.
  - rewrite <-Eq, Eg, <-app_assoc. done.
  - by rewrite last_snoc.
  - intros He. apply (wf_scheduled _ Hs). auto.
Qed.

(** A thread comes, or was woken. *)
Lemma goes_turn s w x : wf s → threads s !! w = Some x → w_thread x = TWait true → goes_on s (check_turn w s).
Proof.
  intros Hs Ex Et. pose proof (wf_queue _ Hs) as Hq. unfold check_turn. bind_with (run_get_writer s w x Ex).
  assert (∀ t, w_thread x = TWait true → (t = TReturned (w_status x) ∨ ∃ f d, t = TRoom f d RLoop) → queue_ok (writers_ s) (<[w := with_thread t x]> (threads s)) → goes_on s (set_thread w t s)) as Hmove.
  { intros t _ Ht Hq'. eexists. split; [by apply run_set_thread|].
    assert (writing t = None ∧ (∀ f d, t ≠ TRoom f d (RWait false)) ∧ rank t < 10 ∧ switches (env_ s) t ≤ 2)%nat as (Hw & Hr & Hrk & Hsw).
    { destruct Ht as [->|(f & d & ->)]; cbn; split_and!; try done; try lia; [destruct d; lia|destruct (f || _); lia]. }
    split.
    - split; cbn; [exact Hq'|..].
      + intros k y b [[<- <-]|[_ Ey]]%lookup_insert_Some; [by apply (wf_batches _ Hs w x)|by eapply wf_batches].
      + apply (wf_tmp _ Hs).
      + intros Hno. apply (wf_clear _ Hs). intros k y lw Ey Ey'. destruct (decide (k = w)) as [->|Hne]; [simplify_eq; by rewrite Et in Ey'|].
        apply (Hno k y lw); [by rewrite lookup_insert_ne|done].
      + intros k y u lw [[<- <-]|[_ Ey]]%lookup_insert_Some; [cbn; congruence|by apply (wf_writing _ Hs k y)].
      + apply (wf_scheduled _ Hs).
      + intros k y f d [[<- <-]|[_ Ey]]%lookup_insert_Some; [by intros ?%Hr|by apply (wf_room _ Hs k y)].
      + apply (wf_bg _ Hs).
    - apply dec_low; cbn.
      + set (s' := with_threads _ s). assert (m_switch s' ≤ m_switch s)%nat; [|unfold m_top; cbn; lia]. unfold m_switch.
        eapply (sum_changed s s' _ _ _ (changed_insert (threads s) w x Ex _)). intros k y Ey. cbv beta. destruct (decide (k = w)) as [->|Hne]; [|cbn; lia].
        simplify_eq. cbn. rewrite Et. cbn. lia.
      + lia.
      + done.
      + set (s' := with_threads _ s). destruct (rank_move s s' w x (with_thread t x) Ex eq_refl) as [H1 H2]; [rewrite Et; cbn; lia|].
        unfold m_low. rewrite H2. cbn. lia. }
  destruct (queue_cases _ _ w x Hq Ex) as [[Hh Hx]|[[_ [_ Ht]]|[Hout Hx]]].
  - destruct Hx as [Hd _]. rewrite Hd, bind_get, (bind_lift _ w) by done. rewrite decide_True by done. cbv zeta. apply Hmove; [done|right; by eexists _, _|].
    destruct (writers_ s) as [|w' q]; [done|]. injection Hh as ->. eapply queue_head_moves; [done| |done]. split; [done|by right].
  - by rewrite Et in Ht.
  - unfold out_ok in Hx. rewrite Et in Hx. destruct Hx as [_ Hd]. rewrite Hd. apply Hmove; [done|by left|].
    eapply queue_changed; [done|by apply (changed_insert _ w x)|apply (qk_nodup _ _ Hq)|..].
    + intros h Eh. destruct (qk_head _ _ Hq h Eh) as (y & Ey & Hy). exists y. cbv beta. rewrite decide_False; [done|]. intros ->. apply Hout.
      destruct (writers_ s); [done|]. injection Eh as ->. left.
    + intros k Hk. destruct (qk_tail _ _ Hq k Hk) as (y & Ey & Hy). exists y. cbv beta. rewrite decide_False; [done|]. intros ->. apply Hout.
      destruct (writers_ s); [done|]. by right.
    + intros k y Ey Hk. cbv beta. destruct (decide (k = w)) as [->|]; [done|by eapply qk_out].
Qed.
End steps.

Section background.
Context {E : Type} `{WE : WriteEnv E} `{!WriteEnvLaws E}.
Implicit Types (s : DB E) (t : thread) (x : Writer).

(** A thread comes to the queue. *)
Lemma goes_start s w x : wf s → threads s !! w = Some x → w_thread x = TStart → goes_on s (thread_step w s).
Proof.
  intros Hs Ex Et. pose proof (wf_queue _ Hs) as Hq. pose proof (qk_nodup _ _ Hq) as Hnd.
  assert (w ∉ writers_ s ∧ w_done x = false) as [Hout Hd].
  { destruct (queue_cases _ _ w x Hq Ex) as [[_ [_ [Ht|Ht]]]|[[_ [_ Ht]]|[Hout Hx]]]; [by rewrite Et in Ht..|]. unfold out_ok in Hx. by rewrite Et in Hx. }
  unfold thread_step. bind_with (run_get_writer s w x Ex). rewrite Et, bind_get. erewrite bind_done by reflexivity. set (s1 := MkDB _ _ _ _ _ _ _ _ _).
  unfold check_turn. bind_with (run_get_writer s1 w x Ex). rewrite Hd, bind_get. cbn [s1 writers_].
  assert (∀ t, (writing t = None ∧ (∀ f d, t ≠ TRoom f d (RWait false)) ∧ rank t < 11 ∧ switches (env_ s) t ≤ 2)%nat →
    queue_ok (writers_ s ++ [w]) (<[w := with_thread t x]> (threads s)) → goes_on s (set_thread w t s1)) as Hmove.
  { intros t (Hw & Hr & Hrk & Hsw) Hq'. eexists. split; [by apply (run_set_thread s1)|]. split.
    - split; cbn; [exact Hq'|..].
      + intros k y b [[<- <-]|[_ Ey]]%lookup_insert_Some; [by apply (wf_batches _ Hs w x)|by eapply wf_batches].
      + apply (wf_tmp _ Hs).
      + intros Hno. apply (wf_clear _ Hs). intros k y lw Ey Ey'. destruct (decide (k = w)) as [->|Hne]; [simplify_eq; by rewrite Et in Ey'|].
        apply (Hno k y lw); [by rewrite lookup_insert_ne|done].
      + intros k y u lw [[<- <-]|[_ Ey]]%lookup_insert_Some; [cbn; congruence|]. intros Ey'. destruct (wf_writing _ Hs k y u lw Ey Ey').
        split; [apply elem_of_app; by left|done].
      + apply (wf_scheduled _ Hs).
      + intros k y f d [[<- <-]|[_ Ey]]%lookup_insert_Some; [by intros ?%Hr|by apply (wf_room _ Hs k y)].
      + apply (wf_bg _ Hs).
    - set (s' := with_threads _ s1). destruct (rank_move s s' w x (with_thread t x) Ex eq_refl) as [H1 H2]; [rewrite Et; cbn; lia|].
      apply dec_low; [|done|done|unfold m_low; rewrite H2; cbn; lia].
      assert (m_switch s' ≤ m_switch s)%nat; [|unfold m_top; cbn; lia]. unfold m_switch.
      eapply (sum_changed s s' _ _ _ (changed_insert (threads s) w x Ex (with_thread t x))). intros k y Ey. cbv beta. destruct (decide (k = w)) as [->|Hne]; [|cbn; lia].
      simplify_eq. cbn. rewrite Et. cbn. lia. }
  assert (NoDup (writers_ s ++ [w])) as Hnd'.
  { apply NoDup_app. split_and!; [done| |apply NoDup_singleton]. by intros k Hk ->%list_elem_of_singleton. }
  assert (∀ k, k ∉ writers_ s ++ [w] → k ∉ writers_ s ∧ k ≠ w) as Hsplit by (intros k; rewrite elem_of_app, list_elem_of_singleton; tauto).
  destruct (writers_ s) as [|h q] eqn:Eq; cbn [app head]; rewrite (bind_lift _ _) by reflexivity.
  - rewrite decide_True by done. cbv zeta. set (f := negb _). apply Hmove.
    + split_and!; [done..| |]; cbn; [destruct f; cbn; lia|destruct (f || _); lia].
    + eapply queue_changed; [exact Hq|by apply (changed_insert _ w x)|done|..].
      * intros k [= <-]. exists x. cbv beta. rewrite decide_True by done. split; [done|]. split; [done|by right].
      * intros k Hk. by apply not_elem_of_nil in Hk.
      * intros k y Ey [_ Hk]%Hsplit. cbv beta. rewrite decide_False by done. eapply qk_out; [done..|apply not_elem_of_nil].
  - rewrite decide_False by (intros ->; apply Hout; left). apply Hmove.
    + split_and!; [done..| |]; cbn; lia.
    + eapply queue_changed; [exact Hq|by apply (changed_insert _ w x)|done|..].
      * intros k [= <-]. destruct (qk_head _ _ Hq h eq_refl) as (y & Ey & Hy). exists y. cbv beta. rewrite decide_False; [done|]. intros ->. apply Hout. left.
      * intros k [Hk| ->%list_elem_of_singleton]%elem_of_app.
        -- destruct (qk_tail _ _ Hq k Hk) as (y & Ey & Hy). exists y. cbv beta. rewrite decide_False; [done|]. intros ->. apply Hout. by right.
        -- exists x. cbv beta. by rewrite decide_True.
      * intros k y Ey [Hk1 Hk2]%Hsplit. cbv beta. rewrite decide_False by done. by eapply qk_out.
Qed.

Lemma wake_idem x : wake_room (wake_room x) = wake_room x.
Proof. destruct x as [st b sy d t]. by destruct t as [| |? ? []| | | | |]. Qed.
Lemma wake_facts x (e e' : E) : env_usage e' = env_usage e →
  (rank (w_thread (wake_room x)) ≤ rank (w_thread x) + 2)%nat ∧ switches e' (w_thread (wake_room x)) = switches e (w_thread x) ∧
  writing (w_thread (wake_room x)) = writing (w_thread x) ∧ w_batch (wake_room x) = w_batch x.
Proof.
  intros Hu. destruct x as [st b sy d t]. destruct t as [| |? [] [| |[]]| | | | |]; cbn; rewrite ?Hu; split_and!; done || lia.
Qed.

(** The background thread leaves the queue as it is; it wakes those who wait for it, or is
    still there for them. *)
Definition after_background s (m : gmap nat Writer) (imm err sch : bool) (b : background env_compaction) (e : E) : DB E :=
  MkDB (writers_ s) m (tmp_batch_ s) (last_sequence_ s) imm err sch b e.
Lemma goes_background s (woken : bool) imm err sch b e :
  wf s → env_usage e = env_usage (env_ s) → (err = false → imm = true ∨ env_needs e = true → sch = true) →
  (woken = true ∨ sch = true) → bg_ok b sch imm e → (bg_error s = true → err = true) → (imm = true → has_imm s = true) →
  (err = true ∧ bg_error s = false) ∨ (imm = false ∧ has_imm s = true) ∨
  ((env_work e < env_work (env_ s))%nat ∨ (env_work e ≤ env_work (env_ s))%nat ∧
    (bit (sch && idle b) < m_stage s ∨ bit (sch && idle b) ≤ m_stage s ∧ steps_left b < steps_left (bg_thread s))%nat) →
  let s' := after_background s (if woken then wake_room <$> threads s else threads s) imm err sch b e in wf s' ∧ decreases s s'.
Proof.
  intros Hs Hu Hsch Hwoken Hbg Herr Him Hdec s'.
  assert (changed (λ _ x, if woken then wake_room x else x) (threads s) (threads s')) as Hc by (destruct woken; [apply changed_fmap|apply changed_id]).
  assert (∀ x, (rank (w_thread (if woken then wake_room x else x)) ≤ rank (w_thread x) + 2)%nat ∧
    switches e (w_thread (if woken then wake_room x else x)) = switches (env_ s) (w_thread x) ∧
    writing (w_thread (if woken then wake_room x else x)) = writing (w_thread x) ∧ w_batch (if woken then wake_room x else x) = w_batch x) as Hf.
  { intros x. destruct (wake_facts x (env_ s) e Hu) as (? & ? & ? & ?). destruct woken; [done|]. split_and!; [lia| |done|done].
    unfold switches. by rewrite Hu. }
  split.
  - split; cbn.
    + destruct woken; [by apply queue_wake_room, (wf_queue _ Hs)|apply (wf_queue _ Hs)].
    + intros k y' b' Ey'. destruct (changed_lookup _ _ _ _ _ Hc Ey') as (y & Ey & ->). destruct (Hf y) as (_ & _ & _ & ->). by apply (wf_batches _ Hs k y).
    + apply (wf_tmp _ Hs).
    + intros Hno. apply (wf_clear _ Hs). intros k y lw Ey Ey'. apply (Hno k (if woken then wake_room y else y) lw).
      * destruct woken; [by rewrite lookup_fmap, Ey|done].
      * destruct (Hf y) as (_ & _ & -> & _). done.
    + intros k y' u lw Ey'. destruct (changed_lookup _ _ _ _ _ Hc Ey') as (y & Ey & ->). destruct (Hf y) as (_ & _ & -> & ->). by apply (wf_writing _ Hs k y).
    + done.
    + intros k y' f d Ey' Et'. destruct Hwoken as [->|Hw]; [|done]. destruct (changed_lookup _ _ _ _ _ Hc Ey') as (y & Ey & ->).
      unfold wake_room in Et'. destruct (w_thread y) as [| |? ? []| | | | |] eqn:Et; cbn in Et'; congruence.
    + done.
  - assert (m_switch s' ≤ m_switch s)%nat as Hsw.
    { eapply (sum_changed s s' _ _ _ Hc). intros k y Ey. destruct (Hf y) as (_ & E1 & _). cbn. rewrite E1. lia. }
    assert (m_top s' = 2 * m_switch s' + bit (negb err) + bit imm)%nat as Etop by done.
    assert (bit (negb err) ≤ bit (negb (bg_error s)) ∧ bit imm ≤ bit (has_imm s))%nat as [Hb1 Hb2].
    { split; [destruct err, (bg_error s)|destruct imm, (has_imm s)]; cbn; first [lia|by specialize (Herr eq_refl)|by specialize (Him eq_refl)]. }
    assert (m_top s' ≤ m_top s)%nat as Htop by (rewrite Etop; unfold m_top; lia).
    destruct Hdec as [[-> He]|[[-> Hi]|[Hw|[Hw [Hst|[Hst Hlt]]]]]].
    + apply dec_top. rewrite Etop. unfold m_top. rewrite He in *. unfold bit in *. cbn in *. destruct imm, (has_imm s); lia.
    + apply dec_top. rewrite Etop. unfold m_top. rewrite Hi in *. unfold bit in *. cbn in *. destruct err, (bg_error s); cbn in *; lia.
    + by apply dec_work.
    + by apply dec_stage.
    + apply dec_low; [done|done|done|]. unfold m_low. rewrite (ids_changed s s' _ Hc). cbn [s' after_background bg_thread].
      assert (m_rank s' ≤ m_rank s + 2 * length (ids s))%nat; [|nia]. unfold m_rank. rewrite (ids_changed s s' _ Hc). apply sum_of_bound.
      intros k _. rewrite (over_changed _ _ _ _ _ Hc). unfold over. destruct (threads s !! k) as [y|]; cbn; [|lia].
      destruct (Hf y) as (H1 & _). lia.
Qed.

Lemma wake_twice (m : gmap nat Writer) : wake_room <$> (wake_room <$> m) = wake_room <$> m.
Proof. rewrite <-map_fmap_compose. apply map_fmap_ext. intros k x _. apply wake_idem. Qed.

(** The commands of the background thread, on the states that it makes from [s]. *)
Lemma run_background_end s (w : bool) imm err b e :
  end_BackgroundCall (after_background s (if w then wake_room <$> threads s else threads s) imm err true b e) =
  Done (tt, after_background s (wake_room <$> threads s) imm err (negb err && (imm || env_needs e)) BIdle e).
Proof.
  assert (wake_room <$> (if w then wake_room <$> threads s else threads s) = wake_room <$> threads s) as Hm by (destruct w; [apply wake_twice|done]).
  unfold end_BackgroundCall. rewrite bind_get. do 2 erewrite bind_done by reflexivity.
  cbn [after_background has_imm bg_error writers_ threads tmp_batch_ last_sequence_ bg_thread bg_compaction_scheduled_ env_].
  unfold MaybeScheduleCompaction. rewrite bind_assoc, bind_get. cbn [bg_compaction_scheduled_ bg_error has_imm env_].
  destruct err; [|destruct imm; [|destruct (env_needs e) eqn:En]]; cbn [negb andb orb]; erewrite bind_done by reflexivity; unfold SignalAll; rewrite bind_get;
    cbn [threads]; rewrite Hm; done.
Qed.
Lemma run_RecordBackgroundError s imm err b e :
  ∃ w, RecordBackgroundError (after_background s (threads s) imm err true b e) =
    Done (tt, after_background s (if w : bool then wake_room <$> threads s else threads s) imm true true b e) ∧ (err = false → w = true).
Proof.
  unfold RecordBackgroundError. rewrite bind_get. cbn [after_background bg_error]. destruct err; [by exists false|].
  exists true. split; [|done]. erewrite bind_done by reflexivity. done.
Qed.

(** A step that goes on in the same call, and one that ends it. *)
Lemma goes_on_call s c b e :
  wf s → bg_compaction_scheduled_ s = true → c s = Done (tt, after_background s (threads s) (has_imm s) (bg_error s) true b e) →
  env_usage e = env_usage (env_ s) → same_versions (env_ s) e → bg_ok b true (has_imm s) e → idle b = false →
  (idle (bg_thread s) = true ∨ steps_left b < steps_left (bg_thread s))%nat → goes_on s (c s).
Proof.
  intros Hs Hsch Ec Hu (_ & Hn & Hw & _) Hbg Hidle Hlt. eexists. split; [exact Ec|].
  apply (goes_background s false); try done; [by right|].
  right. right. right. split; [lia|]. unfold m_stage. rewrite Hsch, Hidle. cbn. destruct Hlt as [->|Hlt]; [left; cbn; lia|right; lia].
Qed.
Lemma goes_end_call s c imm err e w b :
  wf s → bg_compaction_scheduled_ s = true → c s = end_BackgroundCall (after_background s (if w : bool then wake_room <$> threads s else threads s) imm err true b e) →
  env_usage e = env_usage (env_ s) → (bg_error s = true → err = true) → (imm = true → has_imm s = true) →
  (err = true ∧ (bg_error s = false ∨ same_versions (env_ s) e)) ∨ (imm = false ∧ has_imm s = true) ∨ (env_work e < env_work (env_ s))%nat ∨
    (same_versions (env_ s) e ∧ imm = false ∧ env_needs e = false) →
  (idle (bg_thread s) = true ∨ 0 < steps_left (bg_thread s))%nat → goes_on s (c s).
Proof.
  intros Hs Hsch Ec Hu Herr Him Hdec Hlt. rewrite run_background_end in Ec. eexists. split; [exact Ec|].
  assert ((bit false < m_stage s ∨ bit false ≤ m_stage s ∧ 0 < steps_left (bg_thread s))%nat) as Hstage.
  { unfold m_stage. rewrite Hsch. cbn. destruct Hlt as [->|Hlt]; [left; cbn; lia|right; lia]. }
  apply (goes_background s true); try done; [|by left|].
  - intros -> [-> | ->]; cbn; [done|]. by rewrite orb_true_r.
  - destruct Hdec as [[-> [He|(_ & _ & Hw & _)]]|[Hi|[Hw|((_ & _ & Hw & _) & -> & ->)]]].
    + by left.
    + right. right. right. split; [lia|]. exact Hstage.
    + right. by left.
    + right. right. by left.
    + right. right. right. split; [lia|]. rewrite andb_false_r. exact Hstage.
Qed.
Lemma background_eta s : bg_compaction_scheduled_ s = true →
  s = after_background s (threads s) (has_imm s) (bg_error s) true (bg_thread s) (env_ s).
Proof. destruct s. cbn. by intros ->. Qed.
Lemma run_background_env {A} (f : E → A * E) s a e : f (env_ s) = (a, e) → bg_compaction_scheduled_ s = true →
  on_env f s = Done (a, after_background s (threads s) (has_imm s) (bg_error s) true (bg_thread s) e).
Proof. intros Ef Hsch. unfold on_env. rewrite Ef. unfold after_background. by rewrite Hsch. Qed.

(** A compaction that fails. *)
Lemma goes_failed s c e :
  wf s → bg_compaction_scheduled_ s = true → idle (bg_thread s) = false → (0 < steps_left (bg_thread s))%nat → env_usage e = env_usage (env_ s) → same_versions (env_ s) e →
  c s = compaction_failed (after_background s (threads s) (has_imm s) (bg_error s) true (bg_thread s) e) → goes_on s (c s).
Proof.
  intros Hs Hsch Hidle Hlt Hu Hsame Ec.
  destruct (run_RecordBackgroundError s (has_imm s) (bg_error s) (bg_thread s) e) as (w & Er & _).
  unfold compaction_failed in Ec. rewrite (bind_done _ _ _ _ _ Er) in Ec.
  eapply goes_end_call; [done|done|exact Ec|done|done|done|left; split; [done|by right]|by right].
Qed.

(** The end of [CompactMemTable], in [BackgroundCompaction] or in a turn of [DoCompactionWork]. *)
Lemma goes_CompactMemTable_end s c inner (ok : bool) e :
  wf s → bg_compaction_scheduled_ s = true → has_imm s = true →
  c s = CompactMemTable_end inner ok (after_background s (threads s) true (bg_error s) true (bg_thread s) e) →
  env_usage e = env_usage (env_ s) → (ok = false → same_versions (env_ s) e) → (∀ c k, inner = Some (c, k) → env_picked c e) →
  idle (bg_thread s) = false → (match inner with None => 0 | Some (_, k) => 4 * k + 3 end < steps_left (bg_thread s))%nat → goes_on s (c s).
Proof.
  intros Hs Hsch Himm Ec Hu Hsame Hpk Hidle Hlt.
  assert (∃ w imm err, (if ok then s ← get_state; set_background false (bg_error s) (bg_compaction_scheduled_ s) else RecordBackgroundError)
      (after_background s (threads s) true (bg_error s) true (bg_thread s) e) =
    Done (tt, after_background s (if w : bool then wake_room <$> threads s else threads s) imm err true (bg_thread s) e) ∧
    (bg_error s = true → err = true) ∧ ((err = true ∧ same_versions (env_ s) e) ∨ (imm = false ∧ err = bg_error s)) ) as (w & imm & err & E1 & Herr & Hcase).
  { destruct ok; [exists false, false, (bg_error s); split_and!; [done|done|by right]|].
    destruct (run_RecordBackgroundError s true (bg_error s) (bg_thread s) e) as (w & Er & _). exists w, true, true. split_and!; [done|done|left; auto]. }
  unfold CompactMemTable_end in Ec. rewrite (bind_done _ _ _ _ _ E1) in Ec. destruct inner as [[c0 k]|].
  - unfold SignalAll in Ec. rewrite bind_assoc, bind_get in Ec. erewrite bind_done in Ec by reflexivity.
    assert (c s = Done (tt, after_background s (wake_room <$> threads s) imm err true (BEntry c0 k) e)) as Ec'.
    { rewrite Ec. cbn. destruct w; [by rewrite wake_twice|done]. }
    eexists. split; [exact Ec'|]. apply (goes_background s true); try done; [by left|by split; [|eapply Hpk]|].
    destruct Hcase as [[-> (_ & _ & Hw & _)]|[-> ->]]; [|right; by left]. destruct (bg_error s) eqn:Eb; [|by left].
    right. right. right. split; [lia|]. right. unfold m_stage. rewrite Hsch, Hidle. cbn. lia.
  - eapply goes_end_call; [done|done|exact Ec|done|done|done| |right; lia].
    destruct Hcase as [[-> Hv]|[-> ->]]; [left; split; [done|by right]|right; by left].
Qed.

(** Every step of the background thread. *)
Lemma goes_BackgroundCall s : wf s → bg_compaction_scheduled_ s = true → bg_thread s = BIdle → goes_on s (BackgroundCall s).
Proof.
  intros Hs Hsch Hb. assert (same_versions (env_ s) (env_ s)) as Hrefl by apply same_refl. pose proof (background_eta s Hsch) as Eta.
  assert (BackgroundCall s = (if bg_error s then end_BackgroundCall else BackgroundCompaction) s) as Ec by (unfold BackgroundCall; by rewrite bind_get, bind_assert).
  destruct (bg_error s) eqn:Eerr.
  { apply (goes_end_call s _ (has_imm s) true (env_ s) false BIdle); try done; [rewrite Ec; f_equal; rewrite Eta at 1; by rewrite Hb|..]; [left; auto|left; by rewrite Hb]. }
  unfold BackgroundCompaction in Ec. rewrite bind_get in Ec. destruct (has_imm s) eqn:Eimm.
  { apply (goes_on_call s _ (BBuild None) (env_ s)); try done; [|left; by rewrite Hb].
    rewrite Ec. unfold CompactMemTable. rewrite bind_get, bind_assert by done. unfold set_bg_thread, after_background. by rewrite Eimm, Eerr, Hsch. }
  pose proof (pick_same (env_ s)) as Hsame. pose proof (pick_usage (env_ s)) as Hu. pose proof (pick_needed (env_ s)) as Hneed.
  pose proof (pick_picked (env_ s)) as Hpk. destruct (env_Pick (env_ s)) as [o e] eqn:Ep. cbn in Hsame, Hu, Hneed, Hpk.
  rewrite (bind_done _ _ _ _ _ (run_background_env _ _ _ _ Ep Hsch)) in Ec. destruct o as [[c t]|].
  - apply (goes_on_call s BackgroundCall (if t then BInstall c else BTurn c (env_entries c)) e); [done|done|rewrite Ec; by destruct t|done|done| | |].
    + destruct t; split; eauto.
    + by destruct t.
    + left. by rewrite Hb.
  - apply (goes_end_call s BackgroundCall false false e false (bg_thread s)); try done; [by rewrite Ec, Eimm, Eerr|by rewrite Eerr| |left; by rewrite Hb].
    right. right. right. split_and!; [done|done|]. destruct Hsame as (_ & -> & _). destruct (env_needs (env_ s)); [by destruct Hneed|done].
Qed.

Lemma goes_work_turn s c n : wf s → bg_compaction_scheduled_ s = true → bg_thread s = BTurn c n → goes_on s (work_turn c n s).
Proof.
  intros Hs Hsch Hb. pose proof (wf_bg _ Hs) as Hbg. rewrite Hb in Hbg. destruct Hbg as [_ Hpk]. destruct n as [|n].
  - pose proof (finish_same c (env_ s)) as Hsame. pose proof (finish_usage c (env_ s)) as Hu. destruct (env_FinishInput c (env_ s)) as [ok e] eqn:Ee. cbn in Hsame, Hu.
    pose proof (run_background_env _ _ _ _ Ee Hsch) as Er. destruct ok.
    + apply (goes_on_call s _ (BInstall c) e); try done; [|split; [done|by apply Hsame]|right; rewrite Hb; cbn; lia].
      unfold work_turn. by bind_with Er.
    + apply (goes_failed s _ e); try done; [by rewrite Hb|rewrite Hb; cbn; lia|]. unfold work_turn. by bind_with Er.
  - unfold work_turn. rewrite bind_get. destruct (has_imm s) eqn:Eimm.
    + apply (goes_on_call s _ (BBuild (Some (c, n))) (env_ s)); try done; [|cbn; split_and!; [done|done|by intros ? ? [= <- <-]]|right; rewrite Hb; cbn; lia].
      unfold CompactMemTable. rewrite bind_get, bind_assert by done. unfold set_bg_thread, after_background. by rewrite Hsch.
    + apply (goes_on_call s _ (BEntry c n) (env_ s)); try done; [|right; rewrite Hb; cbn; lia].
      unfold set_bg_thread, after_background. by rewrite Hsch.
Qed.

Lemma goes_work_entry s c n : wf s → bg_compaction_scheduled_ s = true → bg_thread s = BEntry c n → goes_on s (work_entry c n s).
Proof.
  intros Hs Hsch Hb. pose proof (wf_bg _ Hs) as Hbg. rewrite Hb in Hbg. destruct Hbg as [_ Hpk].
  pose proof (entry_same c (env_ s)) as Hsame. pose proof (entry_usage c (env_ s)) as Hu. destruct (env_Entry c (env_ s)) as [ok e] eqn:Ee. cbn in Hsame, Hu.
  pose proof (run_background_env _ _ _ _ Ee Hsch) as Er. destruct ok.
  - apply (goes_on_call s _ (BTurn c n) e); try done; [|split; [done|by apply Hsame]|right; rewrite Hb; cbn; lia]. unfold work_entry. by bind_with Er.
  - apply (goes_failed s _ e); try done; [by rewrite Hb|rewrite Hb; cbn; lia|]. unfold work_entry. by bind_with Er.
Qed.

Lemma goes_background_step s : wf s → bg_compaction_scheduled_ s = true → goes_on s (background_step s).
Proof.
  intros Hs Hsch. pose proof (wf_bg _ Hs) as Hbg. unfold background_step. rewrite bind_get.
  destruct (bg_thread s) as [|inner|inner|c n|c n|c] eqn:Eb; cbn in Hbg; [by apply goes_BackgroundCall|..|by apply goes_work_turn|by apply goes_work_entry|].
  - destruct Hbg as (_ & Himm & Hpk). pose proof (build_same (env_ s)) as Hsame. pose proof (build_usage (env_ s)) as Hu.
    destruct (env_BuildTable (env_ s)) as [ok e] eqn:Ee. cbn in Hsame, Hu. rewrite (bind_done _ _ _ _ _ (run_background_env _ _ _ _ Ee Hsch)).
    assert (∀ c k, inner = Some (c, k) → env_picked c e) as Hpk' by (intros c k Ei; apply Hsame; by eapply Hpk). destruct ok; cbn [CompactMemTable_apply].
    + apply (goes_on_call s (λ s, CompactMemTable_apply inner true (after_background s (threads s) (has_imm s) (bg_error s) true (bg_thread s) e)) (BApply inner) e); try done.
      right. rewrite Eb. destruct inner as [[c k]|]; cbn; lia.
    + apply (goes_CompactMemTable_end s (λ s, CompactMemTable_end inner false (after_background s (threads s) (has_imm s) (bg_error s) true (bg_thread s) e)) inner false e);
        try done; [by rewrite Himm|by rewrite Eb|rewrite Eb; destruct inner as [[c k]|]; cbn; lia].
  - destruct Hbg as (_ & Himm & Hpk). pose proof (apply_fails (env_ s)) as Hsame. pose proof (apply_usage (env_ s)) as Hu. pose proof (λ c, apply_picked c (env_ s)) as Hap.
    destruct (env_ApplyTable (env_ s)) as [ok e] eqn:Ee. cbn in Hsame, Hu, Hap. rewrite (bind_done _ _ _ _ _ (run_background_env _ _ _ _ Ee Hsch)).
    apply (goes_CompactMemTable_end s (λ s, CompactMemTable_end inner ok (after_background s (threads s) (has_imm s) (bg_error s) true (bg_thread s) e)) inner ok e);
      try done; [by rewrite Himm|by eauto|by rewrite Eb|rewrite Eb; destruct inner as [[c k]|]; cbn; lia].
  - destruct Hbg as (_ & Hpk). pose proof (install_fails c (env_ s)) as Hsame. pose proof (install_usage c (env_ s)) as Hu. pose proof (install_work c (env_ s) Hpk) as Hw.
    destruct (env_Install c (env_ s)) as [ok e] eqn:Ee. cbn in Hsame, Hu, Hw. rewrite (bind_done _ _ _ _ _ (run_background_env _ _ _ _ Ee Hsch)). destruct ok.
    + apply (goes_end_call s (λ s, end_BackgroundCall (after_background s (threads s) (has_imm s) (bg_error s) true (bg_thread s) e)) (has_imm s) (bg_error s) e false (bg_thread s));
        try done; [right; right; left; auto|right; rewrite Eb; cbn; lia].
    + apply (goes_failed s (λ s, compaction_failed (after_background s (threads s) (has_imm s) (bg_error s) true (bg_thread s) e)) e); try done; [by rewrite Eb|rewrite Eb; cbn; lia|auto].
Qed.
End background.
