(* ===== verification/LdbWriteLive.v ===== *)
(** * leveldb: every write returns

    Every run of the queue of writers comes to an end, and at its end all writers have
    returned: no wake-up is lost, and nobody waits for a thread that waits. *)
From stdpp Require Import relations.
From S2P Require Import Prelude LdbCoding LdbFormat LdbMemTable LdbMemTableSpec LdbBatchSpec LdbWrite LdbWriteGroup LdbWriteSpec.

Section live.
Context {E : Type} `{WE : WriteEnv E} `{!WriteEnvLaws E}.
Implicit Types (s : DB E) (t : thread) (x : Writer).

(** Writers that have not come yet, and a database that is open. *)
Record start_ok s : Prop := {
  st_queue : writers_ s = [];
  st_tmp : tmp_batch_ s = new_WriteBatch;
  st_threads w x : threads s !! w = Some x → w_thread x = TStart ∧ w_done x = false ∧ ∀ b, w_batch x = Some b → batch_ok b;
  st_background : bg_thread s = BIdle;
  st_scheduled : bg_error s = false → has_imm s = true ∨ env_needs (env_ s) = true → bg_compaction_scheduled_ s = true;
}.
Lemma start_wf s : start_ok s → wf s.
Proof.
  intros [Hq Ht Hth Hbg Hb]. split.
  - rewrite Hq. split; [constructor|done|by intros w ?%not_elem_of_nil|]. intros w x Ex _. destruct (Hth w x Ex) as (E1 & E2 & _). unfold out_ok. by rewrite E1.
  - intros w x b Ex. by apply (Hth w x Ex).
  - rewrite Ht. apply new_batch_hdr.
  - done.
  - intros w x u lw Ex Ew. destruct (Hth w x Ex) as (E1 & _). by rewrite E1 in Ew.
  - done.
  - intros w x f d Ex Ew. destruct (Hth w x Ex) as (E1 & _). by rewrite E1 in Ew.
  - by rewrite Hbg.
Qed.

(** A thread that does not wait goes on. *)
Lemma goes_thread s w x : wf s → threads s !! w = Some x → ¬ blocked (w_thread x) → goes_on s (thread_step w s).
Proof.
  intros Hs Ex Hb. destruct (w_thread x) as [|woken|f d r|u lw ls|u lw ls|u lw ls|u lw ls st err|st] eqn:Et.
  - by eapply goes_start.
  - destruct woken; [|by destruct Hb]. unfold thread_step. bind_with (run_get_writer s w x Ex). rewrite Et. by eapply goes_turn.
  - unfold thread_step. bind_with (run_get_writer s w x Ex). rewrite Et. destruct r as [| |woken].
    + by eapply goes_room_step.
    + apply (goes_set_thread s w x); rewrite ?Et; cbn; try done; destruct d; lia.
    + destruct woken; [|by destruct Hb]. apply (goes_set_thread s w x); rewrite ?Et; cbn; try done; destruct d; lia.
  - unfold thread_step. bind_with (run_get_writer s w x Ex). rewrite Et. destruct (get_updates_some s w x u lw Hs Ex) as [b Eb]; [by rewrite Et|].
    bind_with Eb. pose proof (record_same b (env_ s)) as Hsame. destruct (env_AddRecord b (env_ s)) as [ok e] eqn:Ea. cbn in Hsame.
    erewrite bind_done by (unfold on_env; rewrite Ea; reflexivity). fold (with_env e s). apply (goes_work s w x _ e u lw); try done; rewrite ?Et; [done|..];
      destruct ok, (w_sync x); cbn; done || lia.
  - unfold thread_step. bind_with (run_get_writer s w x Ex). rewrite Et. pose proof (sync_same (env_ s)) as Hsame. destruct (env_Sync (env_ s)) as [ok e] eqn:Ea. cbn in Hsame.
    erewrite bind_done by (unfold on_env; rewrite Ea; reflexivity). fold (with_env e s). apply (goes_work s w x _ e u lw); try done; rewrite ?Et; [done|..];
      destruct ok; cbn; done || lia.
  - unfold thread_step. bind_with (run_get_writer s w x Ex). rewrite Et. destruct (get_updates_some s w x u lw Hs Ex) as [b Eb]; [by rewrite Et|].
    bind_with Eb. pose proof (insert_same b (env_ s)) as Hsame. destruct (env_InsertInto b (env_ s)) as [ok e] eqn:Ea. cbn in Hsame.
    erewrite bind_done by (unfold on_env; rewrite Ea; reflexivity). fold (with_env e s). apply (goes_work s w x _ e u lw); try done; rewrite ?Et; cbn; done || lia.
  - by eapply goes_lock.
  - by destruct Hb.
Qed.

Lemma step_goes s s' : wf s → step s s' → wf s' ∧ decreases s s'.
Proof.
  intros Hs Hst. revert Hs. destruct Hst as [w x s1 s1' Ex Hb E1|s1 s1' Hbg E1]; intros Hs.
  - destruct (goes_thread s1 w x Hs Ex Hb) as (s2 & E2 & H2). rewrite E1 in E2. by injection E2 as <-.
  - destruct (goes_background_step s1 Hs Hbg) as (s2 & E2 & H2). rewrite E1 in E2. by injection E2 as <-.
Qed.
Lemma reach_wf s s' : wf s → rtc step s s' → wf s'.
Proof. intros Hs Hr. induction Hr as [|s1 s2 s3 Hst _ IH]; [done|]. apply IH. by apply (step_goes s1). Qed.

(** Nobody is left to wait. *)
Lemma stuck_returned s : wf s → (∀ s', ¬ step s s') → ∀ w x, threads s !! w = Some x → ∃ st, w_thread x = TReturned st.
Proof.
  intros Hs Hstuck.
  assert (∀ w x, threads s !! w = Some x → blocked (w_thread x)) as Hblk.
  { intros w x Ex. destruct (w_thread x) as [|[]|f d [| |[]]| | | | |] eqn:Et; cbn; try done;
      exfalso; destruct (goes_thread s w x Hs Ex) as (s' & E1 & _); (rewrite Et; cbn; tauto) || (eapply Hstuck, step_thread; [exact Ex|rewrite Et; cbn; tauto|exact E1]). }
  assert (∀ w x f d, threads s !! w = Some x → w_thread x ≠ TRoom f d (RWait false)) as Hroom.
  { intros w x f d Ex Et. destruct (goes_background_step s Hs) as (s' & E1 & _); [by eapply wf_room|]. eapply Hstuck, step_background; [by eapply wf_room|exact E1]. }
  assert (writers_ s = []) as Hq.
  { destruct (writers_ s) as [|h q] eqn:Eq; [done|]. exfalso. destruct (qk_head _ _ (wf_queue _ Hs) h) as (x & Ex & _ & Hx); [by rewrite Eq|].
    pose proof (Hblk h x Ex) as Hb. destruct Hx as [Hx|Hx]; [by rewrite Hx in Hb|]. destruct (w_thread x) as [| |f d [| |[]]| | | | |] eqn:Et; try done. by eapply Hroom. }
  intros w x Ex. pose proof (Hblk w x Ex) as Hb. pose proof (qk_out _ _ (wf_queue _ Hs) w x Ex) as Ho. rewrite Hq in Ho.
  specialize (Ho (not_elem_of_nil _)). unfold out_ok in Ho. destruct (w_thread x) as [|[]| | | | | |st] eqn:Et; try done; [by destruct Ho|by exists st].
Qed.

(** C11: no write waits for ever: from a database that is open, with any writers and any
    interleaving of their steps with those of the background thread, which gives the mutex
    back while it builds tables, writes the manifest and compacts, every run ends, no step of
    a thread that does not wait, or of the background thread when it was scheduled, is
    undefined, and when there is no step left all writers have returned. *)
Theorem writes_return s :
  start_ok s →
  Acc (λ s' s, step s s') s ∧
  ∀ s', rtc step s s' →
    (∀ w x, threads s' !! w = Some x → ¬ blocked (w_thread x) → ∃ s'', thread_step w s' = Done (tt, s'')) ∧
    (bg_compaction_scheduled_ s' = true → ∃ s'', background_step s' = Done (tt, s'')) ∧
    ((∀ s'', ¬ step s' s'') → ∀ w x, threads s' !! w = Some x → ∃ st, w_thread x = TReturned st).
Proof.
  intros Hs%start_wf. split; [by apply (decreases_acc step); [intros; by apply step_goes|]|]. intros s' Hr. pose proof (reach_wf s s' Hs Hr) as Hs'. split_and!.
  - intros w x Ex Hb. destruct (goes_thread s' w x Hs' Ex Hb) as (s'' & E1 & _). by exists s''.
  - intros Hbg. destruct (goes_background_step s' Hs' Hbg) as (s'' & E1 & _). by exists s''.
  - by apply stuck_returned.
Qed.
End live.

(** ** An example *)

(** A database that keeps what it is given, with files of level 0 only: a compaction takes
    four of them, and reads five entries. *)
Record sample_db := MkSample { sd_log : list (list Z); sd_mem : list WriteBatch; sd_usage : Z; sd_files : nat }.
Definition sample_level0 (e : sample_db) (n : nat) : sample_db := MkSample (sd_log e) (sd_mem e) (sd_usage e) n.
Definition sample_full (e : sample_db) : bool := bool_decide (4 ≤ sd_files e)%nat.
#[local] Instance sample_env : WriteEnv sample_db := {|
  env_level0 e := Z.of_nat (sd_files e);
  env_needs e := sample_full e;
  env_usage e := sd_usage e;
  env_buffer := 64;
  env_NewLog e := (true, e);
  env_Switch e := MkSample [] [] 0 (sd_files e);
  env_AddRecord b e := (true, MkSample (sd_log e ++ [b]) (sd_mem e) (sd_usage e) (sd_files e));
  env_Sync e := (true, e);
  env_InsertInto b e := (true, MkSample (sd_log e) (sd_mem e ++ [b]) (sd_usage e + ByteSize b) (sd_files e));
  env_BuildTable e := (true, e);
  env_ApplyTable e := (true, sample_level0 e (S (sd_files e)));
  env_compaction := nat;
  env_Pick e := (if sample_full e then Some (5%nat, false) else None, e);
  env_entries c := c;
  env_Entry c e := (true, e);
  env_FinishInput c e := (true, e);
  env_Install c e := (true, sample_level0 e (sd_files e - 4));
|}.
#[local] Instance sample_laws : WriteEnvLaws sample_db.
Proof.
  refine {| env_work := sd_files; env_picked _ e := sample_full e = true |}; try done; cbn.
  - intros e Hl. unfold kL0_StopWritesTrigger in Hl. apply bool_decide_eq_true_2. lia.
  - intros c e He%bool_decide_eq_true. apply bool_decide_eq_true_2. cbn. lia.
  - intros e He. by rewrite He.
  - intros e c t. by destruct (sample_full e).
  - intros c e He%bool_decide_eq_true _. lia.
Defined.

Definition sample_ops (w : nat) : option (Z * list batch_op) :=
  match w with 1%nat => Some (0, [BPut [97] [1]]) | 2%nat => Some (0, [BDelete [98]; BPut [99] [2; 3]]) | _ => None end.
Lemma sample_ok w p : sample_ops w = Some p → batch_ok (bytes_of p).
Proof.
  destruct w as [|[|[|w]]]; cbn; try done; intros [= <-]; (split; [by apply bytes_of_hdr|by vm_compute]).
Qed.
Definition sample_writer (w : nat) (t : thread) : Writer := MkWriter true (bytes_of <$> sample_ops w) false false t.
Definition sample_start : DB sample_db :=
  MkDB [] (<[1%nat := sample_writer 1 TStart]> (<[2%nat := sample_writer 2 TStart]> {[3%nat := sample_writer 3 TStart]})) new_WriteBatch 41 false false false BIdle (MkSample [] [] 0 0).

Lemma writes_return_witness :
  start_ok sample_start ∧ Acc (λ s' s, step s s') sample_start ∧
  ∀ s', rtc step sample_start s' → (∀ s'', ¬ step s' s'') → ∀ w x, threads s' !! w = Some x → ∃ st, w_thread x = TReturned st.
Proof.
  assert (start_ok sample_start) as H.
  { split; [done|done| |done|intros _ [|]; done].
    assert (∀ w, w_thread (sample_writer w TStart) = TStart ∧ w_done (sample_writer w TStart) = false ∧ ∀ b, w_batch (sample_writer w TStart) = Some b → batch_ok b) as Hw.
    { intros w. split_and!; [done..|]. intros b. cbn. destruct (sample_ops w) as [p|] eqn:Ep; [|done]. intros [= <-]. by apply sample_ok in Ep. }
    cbn. intros w x [[<- <-]|[_ [[<- <-]|[_ [<- <-]%lookup_singleton_Some]]%lookup_insert_Some]]%lookup_insert_Some; apply Hw. }
  split; [exact H|]. destruct (writes_return sample_start H) as [H1 H2]. split; [exact H1|]. intros s' Hr. by apply H2.
Defined.

Definition sample_queue : DB sample_db :=
  MkDB [1; 2; 3]%nat (<[1%nat := sample_writer 1 (TRoom false true RLoop)]> (<[2%nat := sample_writer 2 (TWait false)]> {[3%nat := sample_writer 3 (TWait false)]}))
    new_WriteBatch 41 false false false BIdle (MkSample [] [] 0 0).
Lemma group_written_witness :
  ∃ g rest u lw s' seq0, [1; 2; 3]%nat = g ++ rest ∧ last g = Some lw ∧ BuildBatchGroup sample_queue = Done ((u, lw), s') ∧
    get_updates 1 u s' = Done (bytes_of (seq0, all_ops sample_ops g), s') ∧
    ∃ b m', SetSequence (bytes_of (seq0, all_ops sample_ops g)) 42 = Some b ∧ InsertInto b new_MemTable = Done (None, m').
Proof.
  destruct (group_written (E := sample_db) sample_queue 1 [2; 3]%nat (sample_writer 1 (TRoom false true RLoop)) sample_ops (0, [BPut [97] [1]]))
    as (g & rest & u & lw & s' & seq0 & E1 & E2 & E3 & E4 & _ & _ & _ & H); [reflexivity..| |].
  { intros v [->|[->|[->|Hv%not_elem_of_nil]%elem_of_cons]%elem_of_cons]%elem_of_cons; [..|done]; eexists; (split_and!; [reflexivity|reflexivity|]); intros p' [= <-]; by vm_compute. }
  exists g, rest, u, lw, s', seq0. split_and!; [exact E1|exact E2|exact E3|exact E4|].
  assert (all_ops sample_ops g = all_ops sample_ops (take (length g) [1; 2; 3]%nat)) as Eg by (rewrite E1, take_app_length; reflexivity).
  assert (length g ≤ 3)%nat as Hl by (apply (f_equal length) in E1; rewrite length_app in E1; simpl in E1; lia).
  assert (Forall op_ok (all_ops sample_ops g)) as Hok.
  { rewrite Eg. destruct (length g) as [|[|[|[|n]]]]; [..|lia]; cbn; repeat constructor; unfold is_byte; simpl; lia. }
  destruct (H new_MemTable [] 42 new_holds Hok) as (b & m' & Eb & Em & _); [apply Forall_nil_2|lia| |by exists b, m'].
  rewrite Eg. destruct (length g) as [|[|[|[|n]]]]; [vm_compute; discriminate..|lia].
Defined.

(** A NULL batch asks for a switch of the memtable; it is lost when the batch is in the
    group of another writer: the writer returns OK and nothing was switched. *)
Definition in_group : M (DB sample_db) unit :=
  thread_step 1;; thread_step 3;; thread_step 1;; thread_step 1;; thread_step 1;; thread_step 1;; thread_step 3.
Definition outcome_of (w : nat) (o : outcome (unit * DB sample_db)) : option (thread * bool * bool) :=
  match o with Done (_, s) => (λ x, (w_thread x, has_imm s, bg_compaction_scheduled_ s)) <$> threads s !! w | _ => None end.
Lemma null_batch_lost :
  outcome_of 3 (in_group sample_start) = Some (TReturned true, false, false) ∧
  outcome_of 3 ((thread_step 3;; thread_step 3) sample_start) = Some (TRoom false false RLoop, true, true).
Proof. split; by vm_compute. Qed.
