(* ===== verification/LdbVersionEdit.v ===== *)
(** * leveldb: edits of versions (db/version_edit.h, db/version_edit.cc)

    An edit is what a record of the manifest says: files that are new in a level, files
    that are deleted, and the numbers of the database. Keys of files are internal keys,
    as their bytes. *)
From S2P Require Import Prelude LdbCoding LdbFormat.

(** ** Data *)

Definition kNumLevels : Z := 7.

Record FileMetaData := MkFile {
  f_refs : Z;
  f_allowed_seeks : Z;
  f_number : Z;
  f_file_size : Z;
  f_smallest : list Z;
  f_largest : list Z;
}.
(** The constructor, with all the other members set at once. *)
Definition new_FileMetaData (number file_size : Z) (smallest largest : list Z) : FileMetaData :=
  MkFile 0 (Z.shiftl 1 30) number file_size smallest largest.

Record VersionEdit := MkEdit {
  comparator_ : list Z;
  log_number_ : Z;
  prev_log_number_ : Z;
  next_file_number_ : Z;
  last_sequence_ : Z;
  has_comparator_ : bool;
  has_log_number_ : bool;
  has_prev_log_number_ : bool;
  has_next_file_number_ : bool;
  has_last_sequence_ : bool;
  compact_pointers_ : list (Z * list Z);
  deleted_files_ : list (Z * Z);            (* std::set, in its order *)
  new_files_ : list (Z * FileMetaData);
}.

(** [Clear] does not clear [compact_pointers_]. *)
Definition Clear (e : VersionEdit) : VersionEdit :=
  MkEdit [] 0 0 0 0 false false false false false (compact_pointers_ e) [] [].
Definition new_VersionEdit : VersionEdit :=
  Clear (MkEdit [] 0 0 0 0 false false false false false [] [] []).

(** [std::set::insert], in the order of pairs. *)
Definition pair_lt (a b : Z * Z) : bool := (a.1 <? b.1) || ((a.1 =? b.1) && (a.2 <? b.2)).
Fixpoint set_insert (x : Z * Z) (s : list (Z * Z)) : list (Z * Z) :=
  match s with
  | [] => [x]
  | y :: s' => if pair_lt x y then x :: s else if pair_lt y x then y :: set_insert x s' else s
  end.

(** ** The setters *)

Section setters.
Implicit Types (e : VersionEdit).

Definition SetComparatorName (name : list Z) e : VersionEdit :=
  MkEdit name (log_number_ e) (prev_log_number_ e) (next_file_number_ e) (last_sequence_ e)
    true (has_log_number_ e) (has_prev_log_number_ e) (has_next_file_number_ e) (has_last_sequence_ e)
    (compact_pointers_ e) (deleted_files_ e) (new_files_ e).
Definition SetLogNumber (num : Z) e : VersionEdit :=
  MkEdit (comparator_ e) num (prev_log_number_ e) (next_file_number_ e) (last_sequence_ e)
    (has_comparator_ e) true (has_prev_log_number_ e) (has_next_file_number_ e) (has_last_sequence_ e)
    (compact_pointers_ e) (deleted_files_ e) (new_files_ e).
Definition SetPrevLogNumber (num : Z) e : VersionEdit :=
  MkEdit (comparator_ e) (log_number_ e) num (next_file_number_ e) (last_sequence_ e)
    (has_comparator_ e) (has_log_number_ e) true (has_next_file_number_ e) (has_last_sequence_ e)
    (compact_pointers_ e) (deleted_files_ e) (new_files_ e).
Definition SetNextFile (num : Z) e : VersionEdit :=
  MkEdit (comparator_ e) (log_number_ e) (prev_log_number_ e) num (last_sequence_ e)
    (has_comparator_ e) (has_log_number_ e) (has_prev_log_number_ e) true (has_last_sequence_ e)
    (compact_pointers_ e) (deleted_files_ e) (new_files_ e).
Definition SetLastSequence (seq : Z) e : VersionEdit :=
  MkEdit (comparator_ e) (log_number_ e) (prev_log_number_ e) (next_file_number_ e) seq
    (has_comparator_ e) (has_log_number_ e) (has_prev_log_number_ e) (has_next_file_number_ e) true
    (compact_pointers_ e) (deleted_files_ e) (new_files_ e).

Definition set_lists (cs : list (Z * list Z)) (ds : list (Z * Z)) (ns : list (Z * FileMetaData)) e : VersionEdit :=
  MkEdit (comparator_ e) (log_number_ e) (prev_log_number_ e) (next_file_number_ e) (last_sequence_ e)
    (has_comparator_ e) (has_log_number_ e) (has_prev_log_number_ e) (has_next_file_number_ e)
    (has_last_sequence_ e) cs ds ns.
Definition SetCompactPointer (level : Z) (key : list Z) e : VersionEdit :=
  set_lists (compact_pointers_ e ++ [(level, key)]) (deleted_files_ e) (new_files_ e) e.
Definition AddFile (level file file_size : Z) (smallest largest : list Z) e : VersionEdit :=
  set_lists (compact_pointers_ e) (deleted_files_ e)
    (new_files_ e ++ [(level, new_FileMetaData file file_size smallest largest)]) e.
Definition DeleteFile (level file : Z) e : VersionEdit :=
  set_lists (compact_pointers_ e) (set_insert (level, file) (deleted_files_ e)) (new_files_ e) e.
End setters.

(** ** Encoding *)

Definition kComparator : Z := 1.
Definition kLogNumber : Z := 2.
Definition kNextFileNumber : Z := 3.
Definition kLastSequence : Z := 4.
Definition kCompactPointer : Z := 5.
Definition kDeletedFile : Z := 6.
Definition kNewFile : Z := 7.
Definition kPrevLogNumber : Z := 9.

(** [InternalKey::Encode]: no value when the assertion fails. *)
Definition ikey_Encode (rep : list Z) : option (list Z) := if bool_decide (rep = []) then None else Some rep.

Definition put_if (b : bool) (tag : Z) (put : list Z → list Z) (dst : list Z) : list Z :=
  if b then put (PutVarint32 dst tag) else dst.

Definition put_pointer (dst : list Z) (p : Z * list Z) : option (list Z) :=
  key ← ikey_Encode p.2;
  Some (PutLengthPrefixedSlice (PutVarint32 (PutVarint32 dst kCompactPointer) (u32 p.1)) key).
Definition put_deleted (dst : list Z) (d : Z * Z) : list Z :=
  PutVarint64 (PutVarint32 (PutVarint32 dst kDeletedFile) (u32 d.1)) d.2.
Definition put_file (dst : list Z) (n : Z * FileMetaData) : option (list Z) :=
  let f := n.2 in
  let dst := PutVarint32 (PutVarint32 dst kNewFile) (u32 n.1) in
  let dst := PutVarint64 (PutVarint64 dst (f_number f)) (f_file_size f) in
  smallest ← ikey_Encode (f_smallest f);
  let dst := PutLengthPrefixedSlice dst smallest in
  largest ← ikey_Encode (f_largest f);
  Some (PutLengthPrefixedSlice dst largest).

(** A loop that appends to [dst]. *)
Fixpoint put_all {A} (put : list Z → A → option (list Z)) (l : list A) (dst : list Z) : option (list Z) :=
  match l with [] => Some dst | x :: l' => dst ← put dst x; put_all put l' dst end.

Definition edit_EncodeTo (e : VersionEdit) (dst : list Z) : option (list Z) :=
  let dst := put_if (has_comparator_ e) kComparator (λ d, PutLengthPrefixedSlice d (comparator_ e)) dst in
  let dst := put_if (has_log_number_ e) kLogNumber (λ d, PutVarint64 d (log_number_ e)) dst in
  let dst := put_if (has_prev_log_number_ e) kPrevLogNumber (λ d, PutVarint64 d (prev_log_number_ e)) dst in
  let dst := put_if (has_next_file_number_ e) kNextFileNumber (λ d, PutVarint64 d (next_file_number_ e)) dst in
  let dst := put_if (has_last_sequence_ e) kLastSequence (λ d, PutVarint64 d (last_sequence_ e)) dst in
  dst ← put_all put_pointer (compact_pointers_ e) dst;
  dst ← put_all (λ dst d, Some (put_deleted dst d)) (deleted_files_ e) dst;
  put_all put_file (new_files_ e) dst.

(** ** Decoding *)

Definition GetInternalKey (input : list Z) : option (list Z * list Z) := GetLengthPrefixedSlice input.

Definition GetLevel (input : list Z) : option (Z * list Z) :=
  '(v, input) ← GetVarint32 input;
  if v <? kNumLevels then Some (v, input) else None.

(** What follows a tag: the edit with the item, and the rest of the input, or the
    message. *)
Definition or_msg (msg : string) (r : option (VersionEdit * list Z)) : string + VersionEdit * list Z :=
  match r with Some x => inr x | None => inl msg end.

Definition decode_item (tag : Z) (e : VersionEdit) (input : list Z) : string + VersionEdit * list Z :=
  if tag =? kComparator then
    or_msg "comparator name" ('(str, input) ← GetLengthPrefixedSlice input; Some (SetComparatorName str e, input))
  else if tag =? kLogNumber then
    or_msg "log number" ('(n, input) ← GetVarint64 input; Some (SetLogNumber n e, input))
  else if tag =? kPrevLogNumber then
    or_msg "previous log number" ('(n, input) ← GetVarint64 input; Some (SetPrevLogNumber n e, input))
  else if tag =? kNextFileNumber then
    or_msg "next file number" ('(n, input) ← GetVarint64 input; Some (SetNextFile n e, input))
  else if tag =? kLastSequence then
    or_msg "last sequence number" ('(n, input) ← GetVarint64 input; Some (SetLastSequence n e, input))
  else if tag =? kCompactPointer then
    or_msg "compaction pointer"
      ('(level, input) ← GetLevel input;
       '(key, input) ← GetInternalKey input;
       Some (SetCompactPointer level key e, input))
  else if tag =? kDeletedFile then
    or_msg "deleted file"
      ('(level, input) ← GetLevel input;
       '(number, input) ← GetVarint64 input;
       Some (DeleteFile level number e, input))
  else if tag =? kNewFile then
    or_msg "new-file entry"
      ('(level, input) ← GetLevel input;
       '(number, input) ← GetVarint64 input;
       '(file_size, input) ← GetVarint64 input;
       '(smallest, input) ← GetInternalKey input;
       '(largest, input) ← GetInternalKey input;
       Some (AddFile level number file_size smallest largest e, input))
  else inl "unknown tag".

Fixpoint decode_loop (fuel : nat) (e : VersionEdit) (input : list Z) : outcome (option string * VersionEdit) :=
  match fuel with
  | O => NoFuel
  | S fuel =>
      match GetVarint32 input with
      | None => Done (if bool_decide (input = []) then None else Some "invalid tag", e)
      | Some (tag, input) =>
          match decode_item tag e input with
          | inl msg => Done (Some msg, e)
          | inr (e, input) => decode_loop fuel e input
          end
      end
  end.

(** The message of the corruption, if there is one, and the edit. *)
Definition edit_DecodeFrom (src : list Z) (e : VersionEdit) : outcome (option string * VersionEdit) :=
  decode_loop (S (length src)) (Clear e) src.
