(* ===== verification/LdbVersionEditSpec.v ===== *)
(** * leveldb: edits are read back

    An edit is a list of items; their bytes follow each other, and each of them is read
    back in the order they have. *)
From stdpp Require Import sorting.
From S2P Require Import Prelude Leb128 LdbCoding LdbFormat LdbVersionEdit.

(** ** What is left of the input *)

Lemma GetVarint32_rest p v q :
  Forall is_byte p → GetVarint32 p = Some (v, q) →
  0 ≤ v < 2 ^ 32 ∧ Forall is_byte q ∧ (length q < length p)%nat.
Proof.
  intros Hp E. unfold GetVarint32 in E. rewrite GetVarint32Ptr_leb128 in E by done.
  destruct (leb128 p) as [[x k]|] eqn:El; [|done]. destruct (leb128_range _ _ _ Hp El) as [Hx Hk].
  case_bool_decide; [|done]. injection E as <- <-. split; [by apply wrapu_range|].
  split; [by apply Forall_drop|]. rewrite length_drop. lia.
Qed.
Lemma GetVarint64_rest p v q :
  Forall is_byte p → GetVarint64 p = Some (v, q) →
  0 ≤ v < 2 ^ 64 ∧ Forall is_byte q ∧ (length q < length p)%nat.
Proof.
  intros Hp E. unfold GetVarint64 in E. rewrite GetVarint64Ptr_leb128 in E by done.
  destruct (leb128 p) as [[x k]|] eqn:El; [|done]. destruct (leb128_range _ _ _ Hp El) as [Hx Hk].
  case_bool_decide; [|done]. injection E as <- <-. split; [by apply wrapu_range|].
  split; [by apply Forall_drop|]. rewrite length_drop. lia.
Qed.

(** A string that can be written with its length. *)
Definition str_ok (s : list Z) : Prop := Forall is_byte s ∧ Z.of_nat (length s) < 2 ^ 32.

Lemma GetLengthPrefixedSlice_rest p s q :
  Forall is_byte p → GetLengthPrefixedSlice p = Some (s, q) →
  str_ok s ∧ Forall is_byte q ∧ (length q < length p)%nat.
Proof.
  intros Hp E. unfold GetLengthPrefixedSlice in E. destruct (GetVarint32 p) as [[len r]|] eqn:El; [|done].
  destruct (GetVarint32_rest _ _ _ Hp El) as (Hlen & Hr & Hl). cbn [mbind option_bind] in E.
  destruct (Z.leb_spec len (Z.of_nat (length r))) as [Hle|]; [|done]. injection E as <- <-. split; [split|split].
  - by apply Forall_take.
  - rewrite length_take. lia.
  - by apply Forall_drop.
  - rewrite length_drop. lia.
Qed.
Lemma GetLevel_rest p l q :
  Forall is_byte p → GetLevel p = Some (l, q) →
  0 ≤ l < kNumLevels ∧ Forall is_byte q ∧ (length q < length p)%nat.
Proof.
  intros Hp E. unfold GetLevel in E. destruct (GetVarint32 p) as [[v r]|] eqn:El; [|done].
  destruct (GetVarint32_rest _ _ _ Hp El) as (Hv & Hr & Hl). cbn [mbind option_bind] in E.
  destruct (Z.ltb_spec v kNumLevels); [|done]. injection E as <- <-. split; [lia|done].
Qed.

(** ** Typed edits *)

Definition u64_ok (n : Z) : Prop := 0 ≤ n < 2 ^ 64.
Definition level_ok (l : Z) : Prop := 0 ≤ l < kNumLevels.

Definition file_typed (n : Z * FileMetaData) : Prop :=
  level_ok n.1 ∧ u64_ok (f_number n.2) ∧ u64_ok (f_file_size n.2) ∧
  str_ok (f_smallest n.2) ∧ str_ok (f_largest n.2) ∧
  f_refs n.2 = 0 ∧ f_allowed_seeks n.2 = 2 ^ 30.
Definition pointer_typed (p : Z * list Z) : Prop := level_ok p.1 ∧ str_ok p.2.
Definition deleted_typed (d : Z * Z) : Prop := level_ok d.1 ∧ u64_ok d.2.

(** The members are in their ranges; a number or a name that was not set has its
    default. *)
Record edit_typed (e : VersionEdit) : Prop := {
  et_comparator : str_ok (comparator_ e) ∧ (has_comparator_ e = false → comparator_ e = []);
  et_log_number : u64_ok (log_number_ e) ∧ (has_log_number_ e = false → log_number_ e = 0);
  et_prev_log_number : u64_ok (prev_log_number_ e) ∧ (has_prev_log_number_ e = false → prev_log_number_ e = 0);
  et_next_file : u64_ok (next_file_number_ e) ∧ (has_next_file_number_ e = false → next_file_number_ e = 0);
  et_last_sequence : u64_ok (last_sequence_ e) ∧ (has_last_sequence_ e = false → last_sequence_ e = 0);
  et_pointers : Forall pointer_typed (compact_pointers_ e);
  et_deleted : Forall deleted_typed (deleted_files_ e);
  et_sorted : StronglySorted pair_lt (deleted_files_ e);
  et_files : Forall file_typed (new_files_ e);
}.

Lemma pair_lt_spec a b : pair_lt a b ↔ a.1 < b.1 ∨ a.1 = b.1 ∧ a.2 < b.2.
Proof. unfold pair_lt. rewrite orb_True, andb_True, !Is_true_true, Z.eqb_eq, !Z.ltb_lt. done. Qed.
Lemma pair_lt_trans a b c : pair_lt a b → pair_lt b c → pair_lt a c.
Proof. rewrite !pair_lt_spec. lia. Qed.

Lemma set_insert_elem x s y : y ∈ set_insert x s ↔ y = x ∨ y ∈ s.
Proof.
  induction s as [|z s IH]; simpl; [by rewrite elem_of_cons|].
  destruct (pair_lt x z) eqn:E1; [by rewrite elem_of_cons|].
  destruct (pair_lt z x) eqn:E2; [rewrite !elem_of_cons, IH; tauto|].
  assert (x = z) as ->; [|rewrite elem_of_cons; tauto].
  assert (¬ pair_lt x z) as H1 by (by rewrite E1; intros []). assert (¬ pair_lt z x) as H2 by (by rewrite E2; intros []).
  rewrite pair_lt_spec in H1, H2. destruct x as [x1 x2], z as [z1 z2]. cbn in *. f_equal; lia.
Qed.
Lemma set_insert_sorted x s : StronglySorted pair_lt s → StronglySorted pair_lt (set_insert x s).
Proof.
  induction 1 as [|y s Hs IH Hy]; simpl; [repeat constructor|].
  destruct (pair_lt x y) eqn:E1.
  - constructor; [by constructor|]. constructor; [by rewrite E1|]. eapply Forall_impl; [exact Hy|].
    intros z Hz. eapply pair_lt_trans; [|exact Hz]. by rewrite E1.
  - destruct (pair_lt y x) eqn:E2; [|by constructor]. constructor; [done|].
    apply Forall_forall. intros z [-> |Hz]%set_insert_elem; [by rewrite E2|]. by apply (proj1 (Forall_forall _ _) Hy).
Qed.

(** ** Decoding any bytes *)

Lemma Clear_typed e : Forall pointer_typed (compact_pointers_ e) → edit_typed (Clear e).
Proof.
  intros Hp. assert (u64_ok 0) by (unfold u64_ok; lia).
  split; cbn; try done; by constructor.
Qed.

Lemma file_typed_new l n sz a b :
  level_ok l → u64_ok n → u64_ok sz → str_ok a → str_ok b → file_typed (l, new_FileMetaData n sz a b).
Proof. intros H1 H2 H3 H4 H5. exact (conj H1 (conj H2 (conj H3 (conj H4 (conj H5 (conj eq_refl eq_refl)))))). Qed.

Ltac get_rest H :=
  match type of H with
  | context [GetVarint64 ?p] =>
      let E := fresh in destruct (GetVarint64 p) as [[? ?]|] eqn:E; [|done];
      apply GetVarint64_rest in E as (? & ? & ?); [|done]
  | context [GetLevel ?p] =>
      let E := fresh in destruct (GetLevel p) as [[? ?]|] eqn:E; [|done];
      apply GetLevel_rest in E as (? & ? & ?); [|done]
  | context [GetLengthPrefixedSlice ?p] =>
      let E := fresh in destruct (GetLengthPrefixedSlice p) as [[? ?]|] eqn:E; [|done];
      apply GetLengthPrefixedSlice_rest in E as (? & ? & ?); [|done]
  end; cbn [mbind option_bind or_msg] in H.

Lemma decode_item_typed tag e p e' q :
  edit_typed e → Forall is_byte p → decode_item tag e p = inr (e', q) →
  edit_typed e' ∧ Forall is_byte q ∧ (length q ≤ length p)%nat.
Proof.
  intros He Hp E. unfold decode_item, GetInternalKey in E. destruct He as [H1 H2 H3 H4 H5 H6 H7 H8 H9].
  repeat match type of E with (if ?b then _ else _) = _ => destruct b end; try done;
    repeat get_rest E; injection E as <- <-; (split; [split; cbn; try done|split; [done|lia]]).
  - apply Forall_app. split; [done|]. by apply Forall_singleton.
  - apply Forall_forall. intros d [-> |Hd]%set_insert_elem; [done|]. by apply (proj1 (Forall_forall _ _) H7).
  - by apply set_insert_sorted.
  - apply Forall_app. split; [done|]. by apply Forall_singleton, file_typed_new.
Qed.

Lemma decode_loop_typed fuel : ∀ e p,
  edit_typed e → Forall is_byte p → (length p < fuel)%nat →
  ∃ msg e', decode_loop fuel e p = Done (msg, e') ∧ edit_typed e'.
Proof.
  induction fuel as [|fuel IH]; intros e p He Hp Hf; [lia|]. cbn [decode_loop].
  destruct (GetVarint32 p) as [[tag q]|] eqn:E; [|by eexists _, e].
  destruct (GetVarint32_rest _ _ _ Hp E) as (_ & Hq & Hl).
  destruct (decode_item tag e q) as [msg|[e' r]] eqn:Ei; [by eexists _, e|].
  destruct (decode_item_typed _ _ _ _ _ He Hq Ei) as (He' & Hr & Hl'). apply IH; [done..|lia].
Qed.

(** ** Items *)

Inductive item : Type :=
  | IComparator (name : list Z)
  | INumber (tag n : Z)
  | IPointer (p : Z * list Z)
  | IDeleted (d : Z * Z)
  | IFile (n : Z * FileMetaData).

Definition item_tag (i : item) : Z :=
  match i with
  | IComparator _ => kComparator
  | INumber tag _ => tag
  | IPointer _ => kCompactPointer
  | IDeleted _ => kDeletedFile
  | IFile _ => kNewFile
  end.
(** The bytes after the tag. *)
Definition item_payload (i : item) : list Z :=
  match i with
  | IComparator name => prefixed name
  | INumber _ n => EncodeVarint64 n
  | IPointer p => EncodeVarint32 p.1 ++ prefixed p.2
  | IDeleted d => EncodeVarint32 d.1 ++ EncodeVarint64 d.2
  | IFile n => EncodeVarint32 n.1 ++ EncodeVarint64 (f_number n.2) ++ EncodeVarint64 (f_file_size n.2) ++
      prefixed (f_smallest n.2) ++ prefixed (f_largest n.2)
  end.
Definition item_bytes (i : item) : list Z := EncodeVarint32 (item_tag i) ++ item_payload i.
Definition item_apply (e : VersionEdit) (i : item) : VersionEdit :=
  match i with
  | IComparator name => SetComparatorName name e
  | INumber tag n =>
      if tag =? kLogNumber then SetLogNumber n e
      else if tag =? kPrevLogNumber then SetPrevLogNumber n e
      else if tag =? kNextFileNumber then SetNextFile n e
      else SetLastSequence n e
  | IPointer p => SetCompactPointer p.1 p.2 e
  | IDeleted d => DeleteFile d.1 d.2 e
  | IFile n => AddFile n.1 (f_number n.2) (f_file_size n.2) (f_smallest n.2) (f_largest n.2) e
  end.
Definition item_ok (i : item) : Prop :=
  match i with
  | IComparator name => str_ok name
  | INumber tag n => tag ∈ [kLogNumber; kPrevLogNumber; kNextFileNumber; kLastSequence] ∧ u64_ok n
  | IPointer p => pointer_typed p
  | IDeleted d => deleted_typed d
  | IFile n => file_typed n
  end.

Lemma item_tag_small i : item_ok i → 0 ≤ item_tag i < 128.
Proof.
  destruct i as [|tag n|p|d|n]; cbn; unfold kComparator, kCompactPointer, kDeletedFile, kNewFile; try lia.
  intros [Ht _]. rewrite !elem_of_cons in Ht. unfold kLogNumber, kPrevLogNumber, kNextFileNumber, kLastSequence in Ht.
  destruct Ht as [->|[->|[->|[->|?%not_elem_of_nil]]]]; done || lia.
Qed.

Lemma varint64_u64 v : u64_ok v → Forall is_byte (EncodeVarint64 v).
Proof. intros [Hv _]. by apply varint64_bytes. Qed.
Lemma level_u32 l : level_ok l → 0 ≤ l < 2 ^ 32.
Proof. unfold level_ok, kNumLevels. pow2. lia. Qed.

Lemma prefixed_str s : str_ok s → Forall is_byte (prefixed s).
Proof. intros [Hb Hl]. by apply prefixed_bytes. Qed.

Ltac item_bytes_ok :=
  repeat first [assumption | apply varint32_bytes, level_u32 | apply varint64_u64 | apply prefixed_str
    | apply Forall_app; split].

Lemma item_payload_bytes i : item_ok i → Forall is_byte (item_payload i).
Proof.
  destruct i as [name|tag n|p|d|n]; cbn [item_ok item_payload].
  - apply prefixed_str.
  - intros [_ H]. by apply varint64_u64.
  - intros [H1 H2]. item_bytes_ok.
  - intros [H1 H2]. item_bytes_ok.
  - intros (H1 & H2 & H3 & H4 & H5 & _). item_bytes_ok.
Qed.
Lemma item_bytes_ok i : item_ok i → Forall is_byte (item_bytes i).
Proof.
  intros Hi. apply Forall_app. split; [|by apply item_payload_bytes].
  apply varint32_bytes. pose proof (item_tag_small i Hi). pow2. lia.
Qed.

(** Reading what was put, in front of bytes. *)
Lemma get_level l q : level_ok l → Forall is_byte q → GetLevel (EncodeVarint32 l ++ q) = Some (l, q).
Proof.
  intros Hl Hq. unfold GetLevel, GetVarint32. rewrite get32_put by (done || by apply level_u32). cbn [mbind option_bind].
  unfold level_ok in Hl. by rewrite (proj2 (Z.ltb_lt _ _)) by lia.
Qed.
Lemma get_u64 n q : u64_ok n → Forall is_byte q → GetVarint64 (EncodeVarint64 n ++ q) = Some (n, q).
Proof. intros Hn Hq. by apply get64_put. Qed.
Lemma get_str s q : str_ok s → Forall is_byte q → GetLengthPrefixedSlice (prefixed s ++ q) = Some (s, q).
Proof. intros [Hs Hl] Hq. by apply get_prefixed. Qed.

Lemma decode_item_bytes i e q :
  item_ok i → Forall is_byte q →
  GetVarint32 (item_bytes i ++ q) = Some (item_tag i, item_payload i ++ q) ∧
  decode_item (item_tag i) e (item_payload i ++ q) = inr (item_apply e i, q).
Proof.
  intros Hi Hq. split.
  { unfold item_bytes, GetVarint32. rewrite <-app_assoc. pose proof (item_tag_small i Hi).
    apply get32_put; [pow2; lia|]. apply Forall_app. split; [by apply item_payload_bytes|done]. }
  destruct i as [name|tag n|p|d|n]; cbn [item_ok item_payload item_tag item_apply] in *; unfold decode_item, GetInternalKey.
  - by rewrite get_str.
  - destruct Hi as [Ht Hn]. rewrite !elem_of_cons in Ht.
    destruct Ht as [->|[->|[->|[->|?%not_elem_of_nil]]]]; simpl; try done; by rewrite get_u64.
  - destruct Hi as [H1 H2]. simpl. rewrite <-app_assoc, get_level by item_bytes_ok. cbn [mbind option_bind].
    by rewrite get_str.
  - destruct Hi as [H1 H2]. simpl. rewrite <-app_assoc, get_level by item_bytes_ok. cbn [mbind option_bind].
    by rewrite get_u64.
  - destruct Hi as (H1 & H2 & H3 & H4 & H5 & _). simpl.
    rewrite <-!app_assoc, get_level by item_bytes_ok. cbn [mbind option_bind].
    rewrite get_u64 by item_bytes_ok. cbn [mbind option_bind]. rewrite get_u64 by item_bytes_ok. cbn [mbind option_bind].
    rewrite get_str by item_bytes_ok. cbn [mbind option_bind]. by rewrite get_str.
Qed.

Lemma item_bytes_ne i : (1 ≤ length (item_bytes i))%nat.
Proof.
  unfold item_bytes. rewrite length_app. assert (1 ≤ length (EncodeVarint32 (item_tag i)))%nat; [|lia].
  unfold EncodeVarint32. repeat case_match; simpl; lia.
Qed.

Lemma decode_items its : ∀ fuel e,
  Forall item_ok its → (length (concat (item_bytes <$> its)) < fuel)%nat →
  decode_loop fuel e (concat (item_bytes <$> its)) = Done (None, foldl item_apply e its).
Proof.
  induction its as [|i its IH]; intros [|fuel] e Hi Hf; try (simpl in Hf; lia); [done|].
  cbn [fmap list_fmap concat foldl] in *. apply Forall_cons in Hi as [Hi His]. rewrite length_app in Hf.
  pose proof (item_bytes_ne i). cbn [decode_loop].
  assert (Forall is_byte (concat (item_bytes <$> its))) as Hb.
  { apply Forall_concat, Forall_fmap. eapply Forall_impl; [exact His|]. apply item_bytes_ok. }
  destruct (decode_item_bytes i e _ Hi Hb) as [-> ->]. apply IH; [done|lia].
Qed.

(** ** The items of an edit *)

Definition opt {A} (b : bool) (x : A) : list A := if b then [x] else [].
Definition edit_items (e : VersionEdit) : list item :=
  opt (has_comparator_ e) (IComparator (comparator_ e)) ++
  opt (has_log_number_ e) (INumber kLogNumber (log_number_ e)) ++
  opt (has_prev_log_number_ e) (INumber kPrevLogNumber (prev_log_number_ e)) ++
  opt (has_next_file_number_ e) (INumber kNextFileNumber (next_file_number_ e)) ++
  opt (has_last_sequence_ e) (INumber kLastSequence (last_sequence_ e)) ++
  (IPointer <$> compact_pointers_ e) ++ (IDeleted <$> deleted_files_ e) ++ (IFile <$> new_files_ e).
Definition edit_bytes (e : VersionEdit) : list Z := concat (item_bytes <$> edit_items e).

Lemma edit_items_ok e : edit_typed e → Forall item_ok (edit_items e).
Proof.
  intros [[H1 _] [H2 _] [H3 _] [H4 _] [H5 _] H6 H7 _ H9]. unfold edit_items.
  assert (∀ b i, item_ok i → Forall item_ok (opt b i)) as Hopt by (intros [] i Hi; by repeat constructor).
  assert (∀ t n, t ∈ [kLogNumber; kPrevLogNumber; kNextFileNumber; kLastSequence] → u64_ok n → item_ok (INumber t n)) as Hnum by done.
  repeat apply Forall_app_2; try apply Hopt; try (apply Hnum; [rewrite !elem_of_cons; tauto|done]); try done; by apply Forall_fmap.
Qed.

(** The keys are set: [Encode] asserts that they are not empty. *)
Definition keys_set (e : VersionEdit) : Prop :=
  Forall (λ p, p.2 ≠ []) (compact_pointers_ e) ∧
  Forall (λ n, f_smallest n.2 ≠ [] ∧ f_largest n.2 ≠ []) (new_files_ e).

Lemma put_if_item b tag put i dst :
  (∀ d, put (PutVarint32 d tag) = d ++ item_bytes i) → put_if b tag put dst = dst ++ concat (item_bytes <$> opt b i).
Proof. intros Hput. destruct b; cbn; [by rewrite Hput, app_nil_r|by rewrite app_nil_r]. Qed.
Lemma put_all_items {A} (put : list Z → A → option (list Z)) (mk : A → item) l : ∀ dst,
  (∀ d x, x ∈ l → put d x = Some (d ++ item_bytes (mk x))) →
  put_all put l dst = Some (dst ++ concat (item_bytes <$> (mk <$> l))).
Proof.
  induction l as [|x l IH]; intros dst Hput; cbn [put_all fmap list_fmap concat]; [by rewrite app_nil_r|].
  rewrite Hput by left. cbn [mbind option_bind]. rewrite IH by (intros d y Hy; apply Hput; by right).
  by rewrite <-app_assoc.
Qed.

Lemma put_str dst s : str_ok s → PutLengthPrefixedSlice dst s = dst ++ prefixed s.
Proof. intros [_ Hl]. by apply put_prefixed. Qed.
Lemma level_small l : level_ok l → u32 l = l.
Proof. intros Hl%level_u32. by apply wrapu_small. Qed.

Lemma run_edit_EncodeTo e dst :
  edit_typed e → keys_set e → edit_EncodeTo e dst = Some (dst ++ edit_bytes e).
Proof.
  intros He [Hp Hn]. pose proof He as [[H1 _] _ _ _ _ H6 H7 _ H9]. rewrite Forall_forall in Hp.
  rewrite Forall_forall in Hn. rewrite Forall_forall in H6. rewrite Forall_forall in H7. rewrite Forall_forall in H9.
  unfold edit_EncodeTo, edit_bytes, edit_items. rewrite !fmap_app, !concat_app.
  rewrite (put_if_item _ _ _ (INumber kLastSequence (last_sequence_ e))) by
    (intros d; cbv beta; unfold PutVarint64, PutVarint32, item_bytes; by rewrite app_assoc).
  rewrite (put_if_item _ _ _ (INumber kNextFileNumber (next_file_number_ e))) by
    (intros d; cbv beta; unfold PutVarint64, PutVarint32, item_bytes; by rewrite app_assoc).
  rewrite (put_if_item _ _ _ (INumber kPrevLogNumber (prev_log_number_ e))) by
    (intros d; cbv beta; unfold PutVarint64, PutVarint32, item_bytes; by rewrite app_assoc).
  rewrite (put_if_item _ _ _ (INumber kLogNumber (log_number_ e))) by
    (intros d; cbv beta; unfold PutVarint64, PutVarint32, item_bytes; by rewrite app_assoc).
  rewrite (put_if_item _ _ _ (IComparator (comparator_ e))) by
    (intros d; cbv beta; rewrite put_str by done; unfold PutVarint32, item_bytes; by rewrite app_assoc).
  rewrite (put_all_items _ IPointer).
  2:{ intros d p Hin. destruct (H6 p Hin) as [Hl Hk]. unfold put_pointer, ikey_Encode.
      rewrite bool_decide_eq_false_2 by (by apply Hp). cbn [mbind option_bind]. rewrite put_str, level_small by done.
      unfold PutVarint32, item_bytes. cbn [item_tag item_payload]. by rewrite <-!app_assoc. }
  cbn [mbind option_bind]. rewrite (put_all_items _ IDeleted).
  2:{ intros d x Hin. destruct (H7 x Hin) as [Hl Hk]. unfold put_deleted. rewrite level_small by done.
      unfold PutVarint64, PutVarint32, item_bytes. cbn [item_tag item_payload]. by rewrite <-!app_assoc. }
  cbn [mbind option_bind]. rewrite (put_all_items _ IFile); [by rewrite <-!app_assoc|].
  intros d n Hin. destruct (H9 n Hin) as (Hl & _ & _ & Hs & Hg & _). destruct (Hn n Hin) as [Hs0 Hg0].
  unfold put_file, ikey_Encode. rewrite !bool_decide_eq_false_2 by done. cbn [mbind option_bind].
  rewrite !put_str, level_small by done. unfold PutVarint64, PutVarint32, item_bytes. cbn [item_tag item_payload].
  by rewrite <-!app_assoc.
Qed.

(** ** The items give the edit back *)

Lemma set_insert_last x s : Forall (λ y, pair_lt y x) s → set_insert x s = s ++ [x].
Proof.
  induction 1 as [|y s Hy Hs IH]; [done|]. cbn [set_insert app]. rewrite IH.
  destruct (pair_lt x y) eqn:E; [|by destruct (pair_lt y x)].
  assert (pair_lt x y) as Hxy by (by rewrite E). rewrite pair_lt_spec in Hy, Hxy. lia.
Qed.

Lemma apply_pointers l : ∀ e,
  foldl item_apply e (IPointer <$> l) = set_lists (compact_pointers_ e ++ l) (deleted_files_ e) (new_files_ e) e.
Proof.
  induction l as [|p l IH]; intros e; cbn [fmap list_fmap foldl]; [rewrite app_nil_r; by destruct e|].
  rewrite IH. cbn. rewrite <-app_assoc. by destruct p.
Qed.
Lemma apply_deleted l : ∀ e,
  StronglySorted pair_lt (deleted_files_ e ++ l) →
  foldl item_apply e (IDeleted <$> l) = set_lists (compact_pointers_ e) (deleted_files_ e ++ l) (new_files_ e) e.
Proof.
  induction l as [|d l IH]; intros e Hs; cbn [fmap list_fmap foldl]; [rewrite app_nil_r; by destruct e|].
  assert (deleted_files_ (item_apply e (IDeleted d)) = deleted_files_ e ++ [d]) as Ed.
  { cbn. rewrite <-surjective_pairing. apply set_insert_last, Forall_forall. intros y Hy.
    apply (StronglySorted_app_1_elem_of pair_lt (deleted_files_ e) (d :: l)); [done..|left]. }
  rewrite IH; rewrite Ed, <-app_assoc; done.
Qed.
Lemma apply_files l : ∀ e,
  Forall file_typed l →
  foldl item_apply e (IFile <$> l) = set_lists (compact_pointers_ e) (deleted_files_ e) (new_files_ e ++ l) e.
Proof.
  induction l as [|[lev f] l IH]; intros e Hl; cbn [fmap list_fmap foldl]; [rewrite app_nil_r; by destruct e|].
  apply Forall_cons in Hl as [(_ & _ & _ & _ & _ & Er & Ea) Hl].
  assert (item_apply e (IFile (lev, f)) =
    set_lists (compact_pointers_ e) (deleted_files_ e) (new_files_ e ++ [(lev, f)]) e) as ->.
  { destruct f; cbn in *. by subst. }
  rewrite IH by done. cbn. by rewrite <-app_assoc.
Qed.

(** The edit [e] after the compaction pointers of [e0]. *)
Definition after_pointers (e0 e : VersionEdit) : VersionEdit :=
  set_lists (compact_pointers_ e0 ++ compact_pointers_ e) (deleted_files_ e) (new_files_ e) e.

Lemma apply_edit_items e0 e : edit_typed e → foldl item_apply (Clear e0) (edit_items e) = after_pointers e0 e.
Proof.
  intros [[_ H1] [_ H2] [_ H3] [_ H4] [_ H5] _ _ Hs Hf]. unfold edit_items. rewrite !foldl_app.
  destruct e as [c n1 n2 n3 n4 b b1 b2 b3 b4 cp df nf]. cbn in *.
  repeat match goal with
  | H : ?b = false → _ = _ |- _ => destruct b; [clear H|specialize (H eq_refl); subst]
  end; cbn [foldl opt item_apply]; rewrite apply_files, apply_pointers, apply_deleted by done; reflexivity.
Qed.

(** ** Theorems *)

(** C37: whatever the bytes of a record are, decoding them ends, with the message of a
    corruption or not; and what is in the edit then is typed: the levels are levels of
    the database, the numbers have 64 bits, the set of deleted files is sorted. *)
Theorem edit_decoding_typed src e :
  Forall is_byte src → Forall pointer_typed (compact_pointers_ e) →
  ∃ msg e', edit_DecodeFrom src e = Done (msg, e') ∧ edit_typed e'.
Proof. intros Hs He. apply decode_loop_typed; [by apply Clear_typed|done|lia]. Qed.

(** C36: an edit whose keys are set is read back from its bytes, whatever they are
    appended to; read in an edit that already has compaction pointers, it comes after
    these, which are not cleared. *)
Theorem edit_roundtrip e e0 dst :
  edit_typed e → keys_set e →
  ∃ bytes, edit_EncodeTo e dst = Some (dst ++ bytes) ∧
    edit_DecodeFrom bytes e0 = Done (None, after_pointers e0 e) ∧
    edit_DecodeFrom bytes new_VersionEdit = Done (None, e).
Proof.
  intros He Hk. exists (edit_bytes e). split; [by apply run_edit_EncodeTo|].
  assert (∀ e1, edit_DecodeFrom (edit_bytes e) e1 = Done (None, after_pointers e1 e)) as Hd.
  { intros e1. unfold edit_DecodeFrom, edit_bytes. rewrite decode_items by (by apply edit_items_ok || lia).
    by rewrite apply_edit_items. }
  split; [apply Hd|]. rewrite Hd. by destruct e.
Qed.

(** An edit that is decoded into a second time keeps the compaction pointers of the first
    record. *)
Theorem Clear_keeps_pointers :
  let e := SetCompactPointer 1 [7] new_VersionEdit in
  ∃ bytes e1, edit_EncodeTo e [] = Some bytes ∧ edit_DecodeFrom bytes new_VersionEdit = Done (None, e1) ∧
    edit_DecodeFrom [] e1 = Done (None, e) ∧ e1 = e.
Proof. by eexists _, _. Qed.

(** A key that is empty is accepted by [DecodeFrom], and cannot be encoded again. *)
Theorem empty_key_accepted :
  ∃ e, edit_DecodeFrom [5; 1; 0] new_VersionEdit = Done (None, e) ∧ edit_EncodeTo e [] = None.
Proof. by eexists. Qed.

(** ** Witnesses *)

Definition example_edit : VersionEdit :=
  AddFile 2 301 5000 [97; 1; 1; 0; 0; 0; 0; 0; 0] [122; 1; 9; 0; 0; 0; 0; 0; 0]
    (DeleteFile 1 7 (DeleteFile 0 12 (SetCompactPointer 1 [99; 1; 5; 0; 0; 0; 0; 0; 0]
      (SetLastSequence 300 (SetNextFile 17 (SetLogNumber 9 (SetComparatorName [108; 100; 98] new_VersionEdit))))))).

Lemma example_edit_typed : edit_typed example_edit.
Proof.
  split; cbn; unfold u64_ok, str_ok; pow2; try (split; [|done]); try lia.
  - split; [|simpl; lia]. repeat constructor; unfold is_byte; lia.
  - repeat constructor; unfold is_byte, kNumLevels; cbn; lia.
  - repeat constructor; unfold is_byte, kNumLevels; cbn; lia.
  - repeat constructor.
  - repeat constructor; unfold is_byte, kNumLevels; cbn; lia.
Qed.

Lemma edit_roundtrip_witness :
  ∃ bytes, edit_EncodeTo example_edit [] = Some bytes ∧
    edit_DecodeFrom bytes new_VersionEdit = Done (None, example_edit) ∧ length bytes = 56%nat.
Proof.
  destruct (edit_roundtrip example_edit new_VersionEdit []) as (bytes & E & _ & Ed).
  - apply example_edit_typed.
  - split; by repeat constructor.
  - exists bytes. split_and!; [exact E|exact Ed|]. vm_compute in E. injection E as <-. reflexivity.
Defined.

Lemma edit_decoding_typed_witness :
  ∃ msg e, edit_DecodeFrom [2; 9; 7; 8] new_VersionEdit = Done (msg, e) ∧ edit_typed e ∧ msg = Some "new-file entry".
Proof.
  destruct (edit_decoding_typed [2; 9; 7; 8] new_VersionEdit) as (msg & e & E & He).
  - repeat constructor; unfold is_byte; lia.
  - constructor.
  - exists msg, e. split_and!; [exact E|exact He|]. vm_compute in E. by injection E as <- <-.
Defined.
