(* ===== verification/LdbVersion.v ===== *)
(** * leveldb: the files of a version (db/version_set.cc)

    A version has the files of each level. Level 0 holds tables that were written from
    memtables and may overlap; in the other levels the files are in order and disjoint.
    Here are the functions that search the files: what they read of a file is its
    numbers and its first and last key. *)
From S2P Require Import Prelude LdbCoding SkipList LdbFormat LdbIterator LdbVersionEdit.

(** Undefined when there is no value. *)
Definition need {A} (o : option A) : outcome A := match o with Some a => Done a | None => Undef end.

Abbreviation files := (list FileMetaData).

Definition kMaxMemCompactLevel : Z := 2.

(** [config] and the options; [max_file_size] is converted to an [int]. *)
Section version.
Context `{UC : Comparator (list Z)}.
Variable max_file_size : Z.

Definition TargetFileSize : Z := s32 max_file_size.
(** Products of [int]s: overflow is undefined. *)
Definition int_mul (a b : Z) : outcome Z := 
  if (- 2 ^ 31 <=? a * b) && (a * b <? 2 ^ 31) then Done (a * b) else Undef.
Definition MaxGrandParentOverlapBytes : outcome Z := int_mul 10 TargetFileSize.
Definition ExpandedCompactionByteSizeLimit : outcome Z := int_mul 25 TargetFileSize.
Definition MaxFileSizeForLevel (level : Z) : Z := u64 TargetFileSize.
Definition TotalFileSize (fs : files) : Z := foldl (λ sum f, s64 (sum + f_file_size f)) 0 fs.

(** ** Keys of files *)

(** [InternalKey::user_key]: [ExtractUserKey] asserts that there are eight bytes. *)
Definition ikey_user_key (rep : list Z) : outcome (list Z) :=
  if (8 <=? length rep)%nat then Done (ExtractUserKey rep) else Undef.
Definition icmp_Compare (a b : list Z) : outcome Z :=
  _ ← ikey_user_key a; _ ← ikey_user_key b; Done (ikey_compare a b).
Definition new_InternalKey (user_key : list Z) (s t : Z) : outcome (list Z) :=
  need (AppendInternalKey [] (MkParsed user_key s t)).

(** ** Searching *)

Fixpoint find_file_loop (fuel : nat) (fs : files) (key : list Z) (left right : Z) : outcome Z :=
  match fuel with
  | O => NoFuel
  | S fuel =>
      if left <? right then
        let mid := u32 (left + right) / 2 in
        f ← need (fs !! Z.to_nat mid);
        largest ← need (ikey_Encode (f_largest f));
        c ← icmp_Compare largest key;
        if c <? 0 then find_file_loop fuel fs key (mid + 1) right
        else find_file_loop fuel fs key left mid
      else Done right
  end.
(** Each turn halves the interval. The result is returned as an [int]. *)
Definition FindFile (fs : files) (key : list Z) : outcome Z :=
  right ← find_file_loop 33 fs key 0 (u32 (Z.of_nat (length fs)));
  Done (s32 right).

(** None is a NULL key. *)
Definition AfterFile (user_key : option (list Z)) (f : FileMetaData) : outcome bool :=
  match user_key with
  | None => Done false
  | Some k => l ← ikey_user_key (f_largest f); Done (0 <? compare_ k l)
  end.
Definition BeforeFile (user_key : option (list Z)) (f : FileMetaData) : outcome bool :=
  match user_key with
  | None => Done false
  | Some k => s ← ikey_user_key (f_smallest f); Done (compare_ k s <? 0)
  end.

Fixpoint some_overlap (fs : files) (smallest largest : option (list Z)) : outcome bool :=
  match fs with
  | [] => Done false
  | f :: fs' =>
      a ← AfterFile smallest f;
      if (a : bool) then some_overlap fs' smallest largest
      else
        b ← BeforeFile largest f;
        if (b : bool) then some_overlap fs' smallest largest else Done true
  end.

Definition SomeFileOverlapsRange (disjoint_sorted_files : bool) (fs : files)
    (smallest_user_key largest_user_key : option (list Z)) : outcome bool :=
  if negb disjoint_sorted_files then some_overlap fs smallest_user_key largest_user_key
  else
    index ← (match smallest_user_key with
             | None => Done 0
             | Some k =>
                 small ← new_InternalKey k kMaxSequenceNumber kValueTypeForSeek;
                 index ← FindFile fs small;
                 Done (u32 index)
             end);
    if Z.of_nat (length fs) <=? index then Done false
    else
      f ← need (fs !! Z.to_nat index);
      b ← BeforeFile largest_user_key f;
      Done (negb b).

(** ** The files of a level as an iterator *)

Record LevelFileNumIterator := MkLevelIter { li_flist_ : files; li_index_ : Z }.
Definition new_LevelFileNumIterator (flist : files) : LevelFileNumIterator :=
  MkLevelIter flist (u32 (Z.of_nat (length flist))).
Definition li_Valid (it : LevelFileNumIterator) : bool := li_index_ it <? Z.of_nat (length (li_flist_ it)).
Definition li_set (index : Z) : M LevelFileNumIterator unit := λ it, Done (tt, MkLevelIter (li_flist_ it) (u32 index)).
Definition li_Seek (target : list Z) : M LevelFileNumIterator unit := λ it,
  obind (λ index, li_set index it) (FindFile (li_flist_ it) target).
Definition li_SeekToLast : M LevelFileNumIterator unit :=
  it ← get_state;
  li_set (if bool_decide (li_flist_ it = []) then 0 else Z.of_nat (length (li_flist_ it)) - 1).
Definition li_Next : M LevelFileNumIterator unit :=
  it ← get_state; assert_ (li_Valid it);; li_set (li_index_ it + 1).
Definition li_Prev : M LevelFileNumIterator unit :=
  it ← get_state;
  assert_ (li_Valid it);;
  li_set (if li_index_ it =? 0 then Z.of_nat (length (li_flist_ it)) else li_index_ it - 1).
Definition li_file : M LevelFileNumIterator FileMetaData :=
  it ← get_state; assert_ (li_Valid it);; lift_option (li_flist_ it !! Z.to_nat (li_index_ it)).
Definition li_key : M LevelFileNumIterator (list Z) := f ← li_file; lift_option (ikey_Encode (f_largest f)).
Definition file_value (f : FileMetaData) : list Z := EncodeFixed64 (f_number f) ++ EncodeFixed64 (f_file_size f).
Definition li_value : M LevelFileNumIterator (list Z) := f ← li_file; mret (file_value f).
#[export] Instance level_iter_ops : IterOps LevelFileNumIterator :=
  {| i_Valid := li_Valid; i_SeekToFirst := li_set 0; i_SeekToLast := li_SeekToLast; i_Seek := li_Seek;
     i_Next := li_Next; i_Prev := li_Prev; i_key := li_key; i_value := li_value |}.
#[export] Instance level_iter_status : IterStatus LevelFileNumIterator := λ it, None.

(** ** Overlapping files *)

(** Whether the file is completely before, or after, the range. *)
Definition file_outside (user_begin user_end : option (list Z)) (f : FileMetaData) : outcome bool :=
  file_start ← ikey_user_key (f_smallest f);
  file_limit ← ikey_user_key (f_largest f);
  Done (match user_begin with Some b => compare_ file_limit b <? 0 | None => false end
    || match user_end with Some e => 0 <? compare_ file_start e | None => false end).

(** The loop of [GetOverlappingInputs] on what is left of the level; a restart goes back
    to all of its files, [all]. *)
Fixpoint overlap_loop (fuel : nat) (level : Z) (all rest : files) (user_begin user_end : option (list Z))
    (inputs : files) : outcome files :=
  match rest with
  | [] => Done inputs
  | f :: rest =>
      match fuel with
      | O => NoFuel
      | S fuel =>
          outside ← file_outside user_begin user_end f;
          if (outside : bool) then overlap_loop fuel level all rest user_begin user_end inputs
          else if level =? 0 then
            let file_start := ExtractUserKey (f_smallest f) in
            let file_limit := ExtractUserKey (f_largest f) in
            if match user_begin with Some b => compare_ file_start b <? 0 | None => false end
            then overlap_loop fuel level all all (Some file_start) user_end []
            else if match user_end with Some e => 0 <? compare_ file_limit e | None => false end
            then overlap_loop fuel level all all user_begin (Some file_limit) []
            else overlap_loop fuel level all rest user_begin user_end (inputs ++ [f])
          else overlap_loop fuel level all rest user_begin user_end (inputs ++ [f])
      end
  end.
(** Each file can move each end of the range once. *)
Definition overlap_fuel (n : nat) : nat := (2 * n + 1) * n.
Definition GetOverlappingInputs (levels : list files) (level : Z) (begin end_ : option (list Z)) : outcome files :=
  if (0 <=? level) && (level <? kNumLevels) then
    fs ← need (levels !! Z.to_nat level);
    user_begin ← (match begin with Some b => u ← ikey_user_key b; Done (Some u) | None => Done None end);
    user_end ← (match end_ with Some e => u ← ikey_user_key e; Done (Some u) | None => Done None end);
    overlap_loop (overlap_fuel (length fs)) level fs fs user_begin user_end []
  else Undef.

Definition OverlapInLevel (levels : list files) (level : Z) (smallest largest : option (list Z)) : outcome bool :=
  fs ← need (levels !! Z.to_nat level);
  SomeFileOverlapsRange (0 <? level) fs smallest largest.

(** The loop of [PickLevelForMemTableOutput]. *)
Fixpoint pick_level (fuel : nat) (levels : list files) (smallest largest start limit : list Z) (level : Z) : outcome Z :=
  match fuel with
  | O => NoFuel
  | S fuel =>
      if level <? kMaxMemCompactLevel then
        o ← OverlapInLevel levels (level + 1) (Some smallest) (Some largest);
        if (o : bool) then Done level
        else
          stop ← (if level + 2 <? kNumLevels then
                    overlaps ← GetOverlappingInputs levels (level + 2) (Some start) (Some limit);
                    max_bytes ← MaxGrandParentOverlapBytes;
                    Done (max_bytes <? TotalFileSize overlaps)
                  else Done false);
          if (stop : bool) then Done level else pick_level fuel levels smallest largest start limit (level + 1)
      else Done level
  end.
Definition PickLevelForMemTableOutput (levels : list files) (smallest_user_key largest_user_key : list Z) : outcome Z :=
  o ← OverlapInLevel levels 0 (Some smallest_user_key) (Some largest_user_key);
  if (o : bool) then Done 0
  else
    start ← new_InternalKey smallest_user_key kMaxSequenceNumber kValueTypeForSeek;
    limit ← new_InternalKey largest_user_key 0 0;
    pick_level 3 levels smallest_user_key largest_user_key start limit 0.
End version.
