(* ===== verification/LdbVersionSpec.v ===== *)
(** * leveldb: searching the files of a version

    The binary search of a level is the lower bound of its last keys; overlaps are those
    of the ranges of user keys; the inputs that level 0 gives are closed under overlap;
    and the level that is picked for a new table has nothing of its range above it. *)
From stdpp Require Import sorting.
From S2P Require Import Prelude LdbCoding SkipList SkipListSpec LdbFormat LdbIterator LdbVersionEdit LdbVersion.

(** ** Internal keys that are well formed *)

Definition max_tag : Z := kMaxSequenceNumber * 256 + kValueTypeForSeek.
Definition ikey_wf (k : list Z) : Prop := ∃ u tag, k = u ++ EncodeFixed64 tag ∧ 0 ≤ tag ≤ max_tag.

Lemma max_tag_lt : max_tag < 2 ^ 64.
Proof. by vm_compute. Qed.
Lemma ikey_wf_length k : ikey_wf k → (8 ≤ length k)%nat.
Proof. intros (u & tag & -> & _). rewrite length_app, length_fixed64. lia. Qed.
Lemma ikey_wf_user u tag : 0 ≤ tag ≤ max_tag → ExtractUserKey (u ++ EncodeFixed64 tag) = u.
Proof. intros Ht. pose proof max_tag_lt. by destruct (ikey_parts u tag ltac:(lia)) as (E & _). Qed.

Lemma run_ikey_user k : (8 ≤ length k)%nat → ikey_user_key k = Done (ExtractUserKey k).
Proof. intros Hl. unfold ikey_user_key. by rewrite (proj2 (Nat.leb_le _ _)). Qed.
Lemma run_ikey_Encode k : (8 ≤ length k)%nat → ikey_Encode k = Some k.
Proof. intros Hl. unfold ikey_Encode. rewrite bool_decide_eq_false_2; [done|]. intros ->. simpl in Hl. lia. Qed.

Lemma obind_done {A B} (a : A) (f : A → outcome B) : (x ← Done a; f x) = f a.
Proof. done. Qed.
Lemma u32_index (i n : nat) : (i ≤ n)%nat → Z.of_nat n < 2 ^ 31 → u32 (Z.of_nat i) = Z.of_nat i.
Proof. change (2 ^ 31) with 2147483648. intros Hi Hn. apply wrapu_small. pow2. lia. Qed.

Section version_spec.
Context `{UC : Comparator (list Z)} `{CL : !ComparatorLaws (list Z)}.
Implicit Types (fs : list FileMetaData) (f : FileMetaData).

Abbreviation IC := (internal_comparator (UC := UC)).
Abbreviation user := ExtractUserKey.

Lemma run_icmp a b : (8 ≤ length a)%nat → (8 ≤ length b)%nat → icmp_Compare a b = Done (ikey_compare a b).
Proof. intros Ha Hb. unfold icmp_Compare. by rewrite !run_ikey_user. Qed.

Lemma ikey_lt_user a b : ikey_compare a b < 0 → compare_ (user a) (user b) ≤ 0.
Proof. unfold ikey_compare. destruct (Z.eqb_spec (compare_ (user a) (user b)) 0); lia. Qed.
Lemma ikey_le_user a b : ikey_compare a b ≤ 0 → compare_ (user a) (user b) ≤ 0.
Proof. unfold ikey_compare. destruct (Z.eqb_spec (compare_ (user a) (user b)) 0); lia. Qed.
Lemma user_lt_ikey a b : compare_ (user a) (user b) < 0 → ikey_compare a b < 0.
Proof. intros H. unfold ikey_compare. by rewrite (proj2 (Z.eqb_neq _ 0)) by lia. Qed.

(** The first internal key of a user key. *)
Lemma ikey_first k u : ikey_wf k → ikey_compare k (u ++ EncodeFixed64 max_tag) < 0 ↔ compare_ (user k) u < 0.
Proof.
  intros (uk & tag & -> & Ht). pose proof max_tag_lt. rewrite ikey_wf_user by done.
  rewrite ikey_compare_tags by lia. destruct (Z.eqb_spec (compare_ uk u) 0) as [E|]; [|done].
  destruct (Z.ltb_spec max_tag tag), (Z.ltb_spec tag max_tag); lia.
Qed.
Lemma run_first_key u : new_InternalKey u kMaxSequenceNumber kValueTypeForSeek = Done (u ++ EncodeFixed64 max_tag).
Proof. reflexivity. Qed.

(** ** Files *)

Definition file_ok f : Prop :=
  ikey_wf (f_smallest f) ∧ ikey_wf (f_largest f) ∧ ikey_compare (f_smallest f) (f_largest f) ≤ 0.
Definition disjoint fs : Prop := StronglySorted (λ a b, ikey_compare (f_largest a) (f_smallest b) < 0) fs.

Lemma file_ok_lengths f : file_ok f → (8 ≤ length (f_smallest f))%nat ∧ (8 ≤ length (f_largest f))%nat.
Proof. intros (Hs & Hl & _). split; by apply ikey_wf_length. Qed.
Lemma file_ok_users f : file_ok f → compare_ (user (f_smallest f)) (user (f_largest f)) ≤ 0.
Proof. intros (_ & _ & H). by apply ikey_le_user. Qed.

(** The entries of the iterator of a level. *)
Definition file_entries fs : entries := (λ f, (f_largest f, file_value f)) <$> fs.

Lemma file_entries_lookup fs i f : fs !! i = Some f → file_entries fs !! i = Some (f_largest f, file_value f).
Proof. intros E. unfold file_entries. by rewrite list_lookup_fmap, E. Qed.

Lemma disjoint_lookup fs i j f g :
  disjoint fs → fs !! i = Some f → fs !! j = Some g → (i < j)%nat → ikey_compare (f_largest f) (f_smallest g) < 0.
Proof. apply (sorted_lookup (λ a b, ikey_compare (f_largest a) (f_smallest b) < 0)). Qed.

Lemma file_entries_sorted fs : Forall file_ok fs → disjoint fs → keys_sorted (UC := IC) (file_entries fs).
Proof.
  intros Hok Hd. apply sorted_of_lookup. intros i j a b Ea Eb Hij.
  apply list_lookup_fmap_Some in Ea as (f & -> & Ef). apply list_lookup_fmap_Some in Eb as (g & -> & Eg).
  pose proof (disjoint_lookup _ _ _ _ _ Hd Ef Eg Hij) as Hlt. rewrite Forall_lookup in Hok.
  destruct (Hok _ _ Eg) as (_ & _ & Hle). cbn [fst].
  by apply (compare_lt_le_trans (H := IC) (f_largest f) (f_smallest g)).
Qed.

(** ** The binary search *)

Lemma lower_bound_above fs key j f :
  keys_sorted (UC := IC) (file_entries fs) → fs !! j = Some f →
  (lower_bound (UC := IC) (file_entries fs) key ≤ j)%nat → 0 ≤ ikey_compare (f_largest f) key.
Proof.
  intros Hs Ef Hge. set (lb := lower_bound _ _) in *. pose proof (lookup_lt_Some _ _ _ Ef).
  destruct (lookup_lt_is_Some_2 fs lb) as [g Eg]; [lia|].
  pose proof (cut_at (below (UC := IC) key) _ _ (file_entries_lookup _ _ _ Eg)) as Hb%Z.ltb_ge. cbn [fst] in Hb.
  unfold compare_, internal_comparator in Hb.
  destruct (decide (lb = j)) as [E|Hne]; [rewrite E in Eg; by simplify_eq|].
  pose proof (keys_sorted_lookup (UC := IC) _ _ _ _ _ Hs (file_entries_lookup _ _ _ Eg) (file_entries_lookup _ _ _ Ef) ltac:(lia)) as Hgf.
  cbn [fst] in Hgf. destruct (Z.le_gt_cases 0 (ikey_compare (f_largest f) key)) as [|Hlt]; [done|].
  pose proof (compare_lt_trans (H := IC) _ _ _ Hgf Hlt) as Hc. unfold compare_, internal_comparator in Hc. lia.
Qed.

Lemma run_find_loop fs key k : ∀ left right,
  Forall (λ f, 8 ≤ length (f_largest f))%nat fs → keys_sorted (UC := IC) (file_entries fs) → (8 ≤ length key)%nat →
  Z.of_nat (length fs) < 2 ^ 31 →
  0 ≤ left ≤ Z.of_nat (lower_bound (UC := IC) (file_entries fs) key) →
  Z.of_nat (lower_bound (UC := IC) (file_entries fs) key) ≤ right ≤ Z.of_nat (length fs) →
  right - left < 2 ^ Z.of_nat k →
  find_file_loop (S k) fs key left right = Done (Z.of_nat (lower_bound (UC := IC) (file_entries fs) key)).
Proof.
  set (lb := lower_bound _ _). induction k as [|k IH]; intros left right Hok Hs Hk Hlen Hl Hr Hd.
  - change (2 ^ Z.of_nat 0) with 1 in Hd. cbn [find_file_loop].
    rewrite (proj2 (Z.ltb_ge left right)) by lia. f_equal. lia.
  - cbn [find_file_loop]. destruct (Z.ltb_spec left right); [|f_equal; lia].
    rewrite Nat2Z.inj_succ, Z.pow_succ_r in Hd by lia. change (2 ^ 31) with 2147483648 in Hlen.
    rewrite wrapu_small by (pow2; lia). set (mid := (left + right) / 2).
    assert (left ≤ mid < right) as Hmid by (unfold mid; zdiv).
    destruct (lookup_lt_is_Some_2 fs (Z.to_nat mid)) as [f Ef]; [lia|]. rewrite Ef. cbn [need mbind outcome_bind obind].
    rewrite Forall_lookup in Hok. pose proof (Hok _ _ Ef) as Hfl. rewrite <-Forall_lookup in Hok.
    rewrite run_ikey_Encode by done. cbn [need mbind outcome_bind obind].
    rewrite run_icmp by done. cbn [mbind outcome_bind obind].
    pose proof (file_entries_lookup _ _ _ Ef) as Ee.
    pose proof (cut_le (below (UC := IC) key) (file_entries fs)) as Hcl. fold (lower_bound (UC := IC) (file_entries fs) key) in Hcl.
    fold lb in Hcl. unfold file_entries in Hcl. rewrite length_fmap in Hcl.
    destruct (Z.ltb_spec (ikey_compare (f_largest f) key) 0) as [Hlt|Hge].
    + apply IH; try done; [|unfold mid in *; zdiv].
      assert (Z.to_nat mid < lb)%nat; [|lia]. destruct (Nat.lt_ge_cases (Z.to_nat mid) lb) as [|Hge]; [done|exfalso].
      pose proof (lower_bound_above fs key _ _ Hs Ef Hge). lia.
    + apply IH; try done; [|unfold mid in *; zdiv].
      assert (lb ≤ Z.to_nat mid)%nat; [|lia]. destruct (Nat.le_gt_cases lb (Z.to_nat mid)) as [|Hgt]; [done|exfalso].
      pose proof (cut_below (below (UC := IC) key) _ _ _ Ee Hgt) as Hb%Z.ltb_lt. cbn [fst] in Hb.
      unfold compare_, internal_comparator in Hb. lia.
Qed.

Lemma lower_bound_files fs key : (lower_bound (UC := IC) (file_entries fs) key ≤ length fs)%nat.
Proof.
  pose proof (cut_le (below (UC := IC) key) (file_entries fs)) as Hc. unfold file_entries in Hc at 2.
  by rewrite length_fmap in Hc.
Qed.
Lemma run_FindFile fs key :
  Forall (λ f, 8 ≤ length (f_largest f))%nat fs → keys_sorted (UC := IC) (file_entries fs) → (8 ≤ length key)%nat →
  Z.of_nat (length fs) < 2 ^ 31 →
  FindFile fs key = Done (Z.of_nat (lower_bound (UC := IC) (file_entries fs) key)).
Proof.
  intros Hok Hs Hk Hlen. unfold FindFile. change (2 ^ 31) with 2147483648 in Hlen.
  rewrite wrapu_small by (pow2; lia). pose proof (lower_bound_files fs key) as Hcl.
  rewrite (run_find_loop fs key 32) by (done || lia). cbn [mbind outcome_bind obind].
  rewrite wraps_small; [done|lia|]. change (2 ^ (32 - 1)) with 2147483648. lia.
Qed.

(** The iterator of a level is a cursor in its entries. *)
Definition level_it_at fs (p : option nat) (it : LevelFileNumIterator) : Prop :=
  li_flist_ it = fs ∧
  match p with
  | Some i => li_index_ it = Z.of_nat i ∧ (i < length fs)%nat
  | None => li_index_ it = Z.of_nat (length fs)
  end.
Definition long_key (k : list Z) : Prop := (8 ≤ length k)%nat.

Lemma new_level_it fs : Z.of_nat (length fs) < 2 ^ 31 → level_it_at fs None (new_LevelFileNumIterator fs).
Proof.
  intros Hl. split; [done|]. cbn. change (2 ^ 31) with 2147483648 in Hl. apply wrapu_small. pow2. lia.
Qed.

Lemma level_it_set fs (n : nat) it :
  li_flist_ it = fs → (n ≤ length fs)%nat → Z.of_nat (length fs) < 2 ^ 31 →
  ∃ it', li_set (Z.of_nat n) it = Done (tt, it') ∧ level_it_at fs (at_pos (file_entries fs) n) it'.
Proof.
  intros Ef Hn Hl. change (2 ^ 31) with 2147483648 in Hl. eexists. split; [reflexivity|]. split; [done|].
  cbn [li_index_]. rewrite wrapu_small by (pow2; lia). unfold at_pos, file_entries. rewrite length_fmap.
  destruct (Nat.ltb_spec n (length fs)); [done|]. f_equal. lia.
Qed.

Lemma level_it_over fs :
  Forall file_ok fs → disjoint fs → Z.of_nat (length fs) < 2 ^ 31 →
  iter_over level_iter_ops long_key (file_entries fs) (level_it_at fs) (UC := IC).
Proof.
  intros Hok Hd Hl. pose proof (file_entries_sorted fs Hok Hd) as Hs.
  assert (Forall (λ f, 8 ≤ length (f_largest f))%nat fs) as Hlens.
  { eapply Forall_impl; [exact Hok|]. intros f Hf. by apply file_ok_lengths. }
  assert (∀ i it, level_it_at fs (Some i) it → li_Valid it = true) as Hv.
  { intros i it (Ef & Ei & Hi). unfold li_Valid. rewrite Ef, Ei. apply Z.ltb_lt. lia. }
  split; cbn [level_iter_ops i_Valid i_SeekToFirst i_SeekToLast i_Seek i_Next i_Prev i_key i_value].
  - intros [i|] it Hp; [by rewrite (Hv i)|]. destruct Hp as [Ef Ei]. unfold li_Valid. rewrite Ef, Ei. apply Z.ltb_irrefl.
  - intros i it (_ & _ & Hi). unfold file_entries. by rewrite length_fmap.
  - intros i it k v Hp E. pose proof (Hv i it Hp) as Hval. destruct Hp as (Ef & Ei & Hi).
    apply list_lookup_fmap_Some in E as (f & [= -> ->] & E). rewrite Forall_lookup in Hlens.
    assert (li_file it = Done (f, it)) as Efile.
    { unfold li_file. rewrite bind_get, bind_assert, Ef, Ei, Nat2Z.id by done. by rewrite E. }
    unfold li_key, li_value. rewrite !(bind_done _ _ _ _ _ Efile). rewrite run_ikey_Encode by (by eapply Hlens). done.
  - intros p it [Ef _]. apply (level_it_set fs 0); [done|lia|done].
  - intros p it [Ef _]. unfold li_SeekToLast. rewrite bind_get, Ef. destruct fs as [|f fs0] eqn:Efs.
    + rewrite bool_decide_eq_true_2 by done. by apply (level_it_set [] 0).
    + rewrite bool_decide_eq_false_2 by done. unfold file_entries at 2. rewrite length_fmap. rewrite <-Efs in *.
      replace (Z.of_nat (length fs) - 1) with (Z.of_nat (length fs - 1)) by (rewrite Efs; simpl; lia).
      apply level_it_set; [done|lia|done].
  - intros p it target [Ef _] Ht. unfold li_Seek. rewrite Ef, run_FindFile by done. cbn [obind].
    apply level_it_set; [done|apply lower_bound_files|done].
  - intros i it Hp. pose proof (Hv i it Hp) as Hval. destruct Hp as (Ef & Ei & Hi). unfold li_Next.
    rewrite bind_get, bind_assert, Ei by done. replace (Z.of_nat i + 1) with (Z.of_nat (S i)) by lia.
    apply level_it_set; [done|lia|done].
  - intros i it Hp. pose proof (Hv i it Hp) as Hval. destruct Hp as (Ef & Ei & Hi). unfold li_Prev.
    rewrite bind_get, bind_assert, Ei, Ef by done. destruct i as [|i]; cbn [prev_pos].
    + change (Z.of_nat 0 =? 0) with true. cbv iota.
      destruct (level_it_set fs (length fs) it Ef ltac:(lia) Hl) as (it' & E & Hit'). exists it'. split; [done|].
      unfold at_pos, file_entries in Hit'. by rewrite length_fmap, Nat.ltb_irrefl in Hit'.
    + rewrite (proj2 (Z.eqb_neq _ 0)) by lia. replace (Z.of_nat (S i) - 1) with (Z.of_nat i) by lia.
      destruct (level_it_set fs i it Ef ltac:(lia) Hl) as (it' & E & Hit'). exists it'. split; [done|].
      unfold at_pos, file_entries in Hit'. rewrite length_fmap, (proj2 (Nat.ltb_lt _ _)) in Hit' by lia. done.
Qed.

(** ** Overlaps *)

(** The file has keys between the bounds; None is no bound. *)
Definition not_after (k : option (list Z)) f : Prop :=
  ∀ k', k = Some k' → compare_ k' (user (f_largest f)) ≤ 0.
Definition not_before (k : option (list Z)) f : Prop :=
  ∀ k', k = Some k' → compare_ (user (f_smallest f)) k' ≤ 0.
Definition overlaps (lo hi : option (list Z)) f : Prop := not_after lo f ∧ not_before hi f.

#[local] Instance not_after_dec k f : Decision (not_after k f).
Proof.
  unfold not_after. destruct k as [k|]; [|by left]. destruct (decide (compare_ k (user (f_largest f)) ≤ 0)) as [H|H].
  - left. by intros k' [= <-].
  - right. intros Hk. by specialize (Hk k eq_refl).
Defined.
#[local] Instance not_before_dec k f : Decision (not_before k f).
Proof.
  unfold not_before. destruct k as [k|]; [|by left]. destruct (decide (compare_ (user (f_smallest f)) k ≤ 0)) as [H|H].
  - left. by intros k' [= <-].
  - right. intros Hk. by specialize (Hk k eq_refl).
Defined.
#[local] Instance overlaps_dec lo hi f : Decision (overlaps lo hi f) := and_dec _ _.

Lemma run_AfterFile k f : file_ok f →
  AfterFile k f = Done (bool_decide (¬ not_after k f)).
Proof.
  intros Hf. destruct (file_ok_lengths f Hf) as [_ Hl]. unfold AfterFile. destruct k as [k|].
  - rewrite run_ikey_user by done. cbn. f_equal. apply Bool.eq_iff_eq_true.
    rewrite Z.ltb_lt, bool_decide_eq_true. split; [intros H1 H2; specialize (H2 k eq_refl); lia|].
    intros H1. destruct (Z_lt_le_dec 0 (compare_ k (user (f_largest f)))) as [|Hle]; [done|].
    exfalso. apply H1. by intros k' [= <-].
  - rewrite bool_decide_eq_false_2; [done|]. intros H. by apply H.
Qed.
Lemma run_BeforeFile k f : file_ok f →
  BeforeFile k f = Done (bool_decide (¬ not_before k f)).
Proof.
  intros Hf. destruct (file_ok_lengths f Hf) as [Hl _]. unfold BeforeFile. destruct k as [k|].
  - rewrite run_ikey_user by done. cbn. f_equal. apply Bool.eq_iff_eq_true.
    rewrite Z.ltb_lt, bool_decide_eq_true. split.
    + intros H1 H2. specialize (H2 k eq_refl). apply compare_sym in H1. lia.
    + intros H1. destruct (Z_lt_le_dec (compare_ k (user (f_smallest f))) 0) as [|Hle]; [done|].
      exfalso. apply H1. intros k' [= <-]. by apply compare_nlt_ge.
  - rewrite bool_decide_eq_false_2; [done|]. intros H. by apply H.
Qed.
Lemma file_outside_spec lo hi f : file_ok f → file_outside lo hi f = Done (bool_decide (¬ overlaps lo hi f)).
Proof.
  intros Hf. destruct (file_ok_lengths f Hf) as [Hs Hl]. unfold file_outside. rewrite !run_ikey_user by done. cbn.
  f_equal. apply Bool.eq_iff_eq_true. rewrite orb_true_iff, bool_decide_eq_true. split.
  - intros [H|H] [H1 H2].
    + destruct lo as [k|]; [|done]. apply Z.ltb_lt, compare_sym in H. specialize (H1 k eq_refl). lia.
    + destruct hi as [k|]; [|done]. apply Z.ltb_lt in H. specialize (H2 k eq_refl). lia.
  - intros H. destruct (decide (not_after lo f)) as [Ha|Ha].
    + right. destruct hi as [k|]; [|by destruct H]. apply Z.ltb_lt.
      destruct (Z_lt_le_dec 0 (compare_ (user (f_smallest f)) k)); [done|]. destruct H. split; [done|]. by intros ? [= <-].
    + left. destruct lo as [k|]; [|by destruct Ha]. apply Z.ltb_lt.
      destruct (Z_lt_le_dec (compare_ (user (f_largest f)) k) 0); [done|]. destruct Ha.
      intros ? [= <-]. by apply compare_nlt_ge.
Qed.

Lemma some_overlap_spec fs lo hi :
  Forall file_ok fs → ∃ b, some_overlap fs lo hi = Done b ∧ (b = true ↔ ∃ f, f ∈ fs ∧ overlaps lo hi f).
Proof.
  induction 1 as [|f fs Hf Hfs IH].
  { exists false. split; [done|]. split; [done|]. by intros (f & Hin%not_elem_of_nil & _). }
  destruct IH as (b & E & Hb). cbn [some_overlap]. rewrite run_AfterFile by done. cbn [mbind outcome_bind obind].
  assert (¬ overlaps lo hi f → (b = true ↔ ∃ g, g ∈ f :: fs ∧ overlaps lo hi g)) as Hskip.
  { intros Hno. rewrite Hb. split; intros (g & Hin & Hg); exists g; (split; [|done]).
    - by right.
    - apply elem_of_cons in Hin as [-> |Hin]; [done|done]. }
  case_bool_decide as H1.
  { exists b. split; [done|]. apply Hskip. by intros [? _]. }
  rewrite run_BeforeFile by done. cbn [mbind outcome_bind obind]. case_bool_decide as H2.
  { exists b. split; [done|]. apply Hskip. by intros [_ ?]. }
  exists true. split; [done|]. split; [intros _|done]. exists f. split; [left|].
  done.
Qed.

Lemma level_first_file fs k :
  Forall file_ok fs → disjoint fs → Z.of_nat (length fs) < 2 ^ 31 →
  ∃ i, FindFile fs (k ++ EncodeFixed64 max_tag) = Done (Z.of_nat i) ∧ (i ≤ length fs)%nat ∧
    (∀ j f, fs !! j = Some f → (j < i)%nat → compare_ (user (f_largest f)) k < 0) ∧
    (∀ f, fs !! i = Some f → compare_ k (user (f_largest f)) ≤ 0).
Proof.
  intros Hok Hd Hl. pose proof (file_entries_sorted fs Hok Hd) as Hs. set (key := k ++ EncodeFixed64 max_tag).
  exists (lower_bound (UC := IC) (file_entries fs) key). rewrite Forall_lookup in Hok. split_and!.
  - apply run_FindFile; [|done| |done].
    + apply Forall_lookup. intros j f Ef. by eapply file_ok_lengths, Hok.
    + unfold key. rewrite length_app, length_fixed64. lia.
  - pose proof (cut_le (below (UC := IC) key) (file_entries fs)) as Hc. unfold file_entries in Hc at 2.
    by rewrite length_fmap in Hc.
  - intros j f Ef Hj. pose proof (cut_below _ _ _ _ (file_entries_lookup _ _ _ Ef) Hj) as Hb%Z.ltb_lt. cbn [fst] in Hb.
    destruct (Hok _ _ Ef) as (_ & Hw & _). by apply (ikey_first _ k Hw).
  - intros f Ef. pose proof (cut_at _ _ _ (file_entries_lookup _ _ _ Ef)) as Hb%Z.ltb_ge. cbn [fst] in Hb.
    destruct (Hok _ _ Ef) as (_ & Hw & _). apply compare_nlt_ge.
    destruct (Z_lt_le_dec (compare_ (user (f_largest f)) k) 0) as [Hlt|]; [|done].
    apply (ikey_first _ k Hw) in Hlt. unfold compare_, internal_comparator in Hb. unfold key in Hb. lia.
Qed.

Lemma disjoint_users fs i j f g :
  Forall file_ok fs → disjoint fs → fs !! i = Some f → fs !! j = Some g → (i ≤ j)%nat →
  compare_ (user (f_smallest f)) (user (f_smallest g)) ≤ 0.
Proof.
  intros Hok Hd Ef Eg Hij. rewrite Forall_lookup in Hok. destruct (decide (i = j)) as [->|].
  - simplify_eq. by rewrite compare_refl.
  - pose proof (disjoint_lookup _ _ _ _ _ Hd Ef Eg ltac:(lia)) as Hlt%ikey_lt_user.
    eapply compare_trans; [|exact Hlt]. by eapply file_ok_users, Hok.
Qed.

Lemma run_SomeFileOverlapsRange dis fs lo hi :
  Forall file_ok fs → (dis = true → disjoint fs) → Z.of_nat (length fs) < 2 ^ 31 →
  ∃ b, SomeFileOverlapsRange dis fs lo hi = Done b ∧ (b = true ↔ ∃ f, f ∈ fs ∧ overlaps lo hi f).
Proof.
  intros Hok Hd Hl. unfold SomeFileOverlapsRange. destruct dis; cbn [negb]; [|by apply some_overlap_spec].
  specialize (Hd eq_refl).
  assert (∃ i, (match lo with
      | None => Done 0
      | Some k => small ← new_InternalKey k kMaxSequenceNumber kValueTypeForSeek; index ← FindFile fs small; Done (u32 index)
      end) = Done (Z.of_nat i) ∧
    (∀ j f, fs !! j = Some f → (j < i)%nat → ¬ overlaps lo hi f) ∧
    (∀ f, fs !! i = Some f → ∀ k, lo = Some k → compare_ k (user (f_largest f)) ≤ 0)) as (i & -> & Hbefore & Hat).
  { destruct lo as [k|]; [|exists O; split_and!; [done|lia|done]].
    rewrite run_first_key, obind_done.
    destruct (level_first_file fs k Hok Hd Hl) as (i & -> & Hi & H1 & H2). exists i. rewrite obind_done.
    rewrite (u32_index i (length fs)) by done. split_and!; [done| |].
    - intros j f Ef Hj [Hlo _]. pose proof (H1 j f Ef Hj) as Hlt. specialize (Hlo k eq_refl).
      apply compare_sym in Hlt. lia.
    - intros f Ef k' [= <-]. by apply H2. }
  cbn [mbind outcome_bind obind].
  destruct (Z.leb_spec (Z.of_nat (length fs)) (Z.of_nat i)) as [Hge|Hlt].
  { exists false. split; [done|]. split; [done|]. intros (f & [j Ej]%list_elem_of_lookup_1 & Ho).
    pose proof (lookup_lt_Some _ _ _ Ej). destruct (Hbefore j f Ej ltac:(lia) Ho). }
  destruct (lookup_lt_is_Some_2 fs i ltac:(lia)) as [f Ef]. rewrite Nat2Z.id, Ef. cbn [need mbind outcome_bind obind].
  pose proof (proj1 (Forall_lookup _ _) Hok _ _ Ef) as Hf. rewrite run_BeforeFile by done. cbn [mbind outcome_bind obind].
  eexists. split; [done|]. rewrite negb_true_iff, bool_decide_eq_false. split.
  - intros Hb%dec_stable. exists f. split; [by eapply list_elem_of_lookup_2|]. split; [exact (Hat f Ef)|done].
  - intros (g & [j Ej]%list_elem_of_lookup_1 & Ho) Hb. apply Hb. intros k Ek.
    destruct (Nat.lt_ge_cases j i) as [Hj|Hj]; [by destruct (Hbefore j g Ej Hj)|].
    destruct Ho as [_ Ho]. eapply compare_trans; [|by apply Ho]. by eapply disjoint_users.
Qed.

(** ** The files that overlap a range *)

Lemma filter_length_le {A} (P Q : A → Prop) `{!∀ x, Decision (P x), !∀ x, Decision (Q x)} l :
  (∀ x, P x → Q x) → (length (filter P l) ≤ length (filter Q l))%nat.
Proof.
  intros HPQ. induction l as [|x l IH]; [done|]. rewrite !filter_cons.
  destruct (decide (P x)) as [HP|]; [rewrite decide_True by auto; simpl; lia|].
  destruct (decide (Q x)); simpl; lia.
Qed.
Lemma filter_length_lt {A} (P Q : A → Prop) `{!∀ x, Decision (P x), !∀ x, Decision (Q x)} l x :
  (∀ x, P x → Q x) → x ∈ l → Q x → ¬ P x → (length (filter P l) < length (filter Q l))%nat.
Proof.
  intros HPQ Hin HQ HP. apply list_elem_of_split in Hin as (l1 & l2 & ->).
  rewrite !filter_app, !filter_cons, !length_app, (decide_False (P := P x)), (decide_True (P := Q x)) by done.
  pose proof (filter_length_le P Q l1 HPQ). pose proof (filter_length_le P Q l2 HPQ). simpl. lia.
Qed.

(** The file starts before the range, or ends after it. *)
Definition starts_before (lo : option (list Z)) f : Prop :=
  match lo with Some b => compare_ (user (f_smallest f)) b < 0 | None => False end.
Definition ends_after (hi : option (list Z)) f : Prop :=
  match hi with Some e => 0 < compare_ (user (f_largest f)) e | None => False end.
#[local] Instance starts_before_dec lo f : Decision (starts_before lo f).
Proof. unfold starts_before. destruct lo; apply _. Defined.
#[local] Instance ends_after_dec hi f : Decision (ends_after hi f).
Proof. unfold ends_after. destruct hi; apply _. Defined.

(** A range that has another one. *)
Definition wider_lo (lo lo' : option (list Z)) : Prop :=
  match lo, lo' with None, None => True | Some b, Some b' => compare_ b' b ≤ 0 | _, _ => False end.
Definition wider_hi (hi hi' : option (list Z)) : Prop :=
  match hi, hi' with None, None => True | Some e, Some e' => compare_ e e' ≤ 0 | _, _ => False end.
Lemma wider_lo_refl lo : wider_lo lo lo.
Proof. destruct lo; simpl; [by rewrite compare_refl|done]. Qed.
Lemma wider_hi_refl hi : wider_hi hi hi.
Proof. destruct hi; simpl; [by rewrite compare_refl|done]. Qed.
Lemma wider_lo_trans a b c : wider_lo a b → wider_lo b c → wider_lo a c.
Proof. destruct a, b, c; simpl; try done. intros H1 H2. by eapply compare_trans. Qed.
Lemma wider_hi_trans a b c : wider_hi a b → wider_hi b c → wider_hi a c.
Proof. destruct a, b, c; simpl; try done. intros H1 H2. by eapply compare_trans. Qed.

Lemma overlap_loop_above level fs0 rest lo hi : ∀ fuel inputs,
  level ≠ 0 → Forall file_ok rest → (length rest ≤ fuel)%nat →
  overlap_loop fuel level fs0 rest lo hi inputs = Done (inputs ++ filter (overlaps lo hi) rest).
Proof.
  induction rest as [|f rest IH]; intros [|fuel] inputs Hlev Hok Hf; cbn [length] in Hf; try lia;
    cbn [overlap_loop]; rewrite ?app_nil_r; try done.
  apply Forall_cons in Hok as [Hfok Hok]. rewrite file_outside_spec by done. cbn [mbind outcome_bind obind].
  rewrite filter_cons. case_bool_decide as H.
  - rewrite decide_False by done. apply IH; [done..|lia].
  - rewrite decide_True by done. rewrite (proj2 (Z.eqb_neq _ _)) by done. rewrite IH by (done || lia).
    by rewrite <-app_assoc.
Qed.

(** In level 0, the range is extended until it has all the files that overlap it. *)
Definition range_closed fs lo hi : Prop := ∀ f, f ∈ fs → overlaps lo hi f → ¬ starts_before lo f ∧ ¬ ends_after hi f.

Lemma overlap_loop_zero fs0 : Forall file_ok fs0 → ∀ fuel pre rest lo hi,
  fs0 = pre ++ rest → (∀ f, f ∈ pre → overlaps lo hi f → ¬ starts_before lo f ∧ ¬ ends_after hi f) →
  ((length (filter (starts_before lo) fs0) + length (filter (ends_after hi) fs0)) * length fs0 + length rest ≤ fuel)%nat →
  ∃ lo' hi', overlap_loop fuel 0 fs0 rest lo hi (filter (overlaps lo hi) pre) = Done (filter (overlaps lo' hi') fs0) ∧
    wider_lo lo lo' ∧ wider_hi hi hi' ∧ range_closed fs0 lo' hi'.
Proof.
  intros Hok. induction fuel as [|fuel IH]; intros pre rest lo hi Efs Hin Hf.
  all: destruct rest as [|f rest]; cbn [length] in Hf; try lia.
  1,2: exists lo, hi; rewrite Efs, app_nil_r in *; cbn [overlap_loop];
    split_and!; [done|apply wider_lo_refl|apply wider_hi_refl|exact Hin].
  assert (f ∈ fs0) as Hfin by (rewrite Efs; apply elem_of_app; right; left).
  pose proof (proj1 (Forall_forall _ _) Hok _ Hfin) as Hfok. destruct (file_ok_lengths f Hfok) as [Hs Hl].
  cbn [overlap_loop]. rewrite file_outside_spec by done. cbn [mbind outcome_bind obind].
  case_bool_decide as Hov.
  { destruct (IH (pre ++ [f]) rest lo hi) as (lo' & hi' & E & H); [by rewrite <-app_assoc| |lia|].
    - intros g [Hg| ->%list_elem_of_singleton]%elem_of_app; [by apply Hin|done].
    - rewrite filter_app, filter_cons_False, app_nil_r in E by done. by exists lo', hi'. }
  change (0 =? 0) with true. cbv iota zeta.
  assert (match lo with Some b => compare_ (user (f_smallest f)) b <? 0 | None => false end = bool_decide (starts_before lo f)) as ->.
  { apply Bool.eq_iff_eq_true. rewrite bool_decide_eq_true. destruct lo; [apply Z.ltb_lt|split; done]. }
  assert (match hi with Some e => 0 <? compare_ (user (f_largest f)) e | None => false end = bool_decide (ends_after hi f)) as ->.
  { apply Bool.eq_iff_eq_true. rewrite bool_decide_eq_true. destruct hi; [apply Z.ltb_lt|split; done]. }
  case_bool_decide as Hb; [|case_bool_decide as He].
  - destruct (IH [] fs0 (Some (user (f_smallest f))) hi) as (lo' & hi' & E & Hlo & Hhi & Hc); [done|by intros g ?%not_elem_of_nil| |].
    { assert (length (filter (starts_before (Some (user (f_smallest f)))) fs0) < length (filter (starts_before lo) fs0))%nat; [|nia].
      apply (filter_length_lt _ _ fs0 f); [|done|done|].
      - intros g Hg. destruct lo as [b|]; [|done]. by eapply compare_lt_trans.
      - cbn. rewrite compare_refl. lia. }
    exists lo', hi'. split_and!; [exact E| |done|done]. eapply wider_lo_trans; [|exact Hlo].
    destruct lo as [b|]; [|done]. cbn in *. lia.
  - destruct (IH [] fs0 lo (Some (user (f_largest f)))) as (lo' & hi' & E & Hlo & Hhi & Hc); [done|by intros g ?%not_elem_of_nil| |].
    { assert (length (filter (ends_after (Some (user (f_largest f)))) fs0) < length (filter (ends_after hi) fs0))%nat; [|nia].
      apply (filter_length_lt _ _ fs0 f); [|done|done|].
      - intros g Hg. destruct hi as [b|]; [|done]. cbn in *. rewrite <-compare_sym in *. by eapply compare_lt_trans.
      - cbn. rewrite compare_refl. lia. }
    exists lo', hi'. split_and!; [exact E|done| |done]. eapply wider_hi_trans; [|exact Hhi].
    destruct hi as [b|]; [|done]. cbn in *. apply compare_nlt_ge. lia.
  - destruct (IH (pre ++ [f]) rest lo hi) as (lo' & hi' & E & H); [by rewrite <-app_assoc| |lia|].
    + intros g [Hg| ->%list_elem_of_singleton]%elem_of_app; [by apply Hin|done].
    + rewrite filter_app, filter_cons_True in E by done. by exists lo', hi'.
Qed.

(** ** Versions *)

(** The files of the levels: in order from level 1 on. *)
Record levels_ok (levels : list files) : Prop := {
  lv_length : length levels = Z.to_nat kNumLevels;
  lv_files i fs : levels !! i = Some fs → Forall file_ok fs ∧ Z.of_nat (length fs) < 2 ^ 31;
  lv_disjoint i fs : levels !! i = Some fs → i ≠ O → disjoint fs;
}.

Lemma levels_lookup levels level : levels_ok levels → 0 ≤ level < kNumLevels → ∃ fs, levels !! Z.to_nat level = Some fs.
Proof. intros Hl Hi. apply lookup_lt_is_Some_2. rewrite (lv_length _ Hl). lia. Qed.

Definition user_bound (k : option (list Z)) : option (list Z) := user <$> k.

Lemma run_GetOverlappingInputs levels level begin end_ :
  levels_ok levels → 0 ≤ level < kNumLevels →
  (∀ k, begin = Some k ∨ end_ = Some k → long_key k) →
  ∃ fs lo hi, levels !! Z.to_nat level = Some fs ∧
    GetOverlappingInputs levels level begin end_ = Done (filter (overlaps lo hi) fs) ∧
    wider_lo (user_bound begin) lo ∧ wider_hi (user_bound end_) hi ∧
    (if decide (level = 0) then range_closed fs lo hi else lo = user_bound begin ∧ hi = user_bound end_).
Proof.
  intros Hl Hlev Hk. destruct (levels_lookup _ _ Hl Hlev) as [fs Efs]. destruct (lv_files _ Hl _ _ Efs) as [Hok _].
  unfold GetOverlappingInputs. rewrite (proj2 (Z.leb_le 0 level)), (proj2 (Z.ltb_lt level _)) by lia. cbn [andb].
  rewrite Efs. cbn [need mbind outcome_bind obind].
  assert (∀ (k : option (list Z)), (∀ k', k = Some k' → long_key k') →
    (match k with Some b => u ← ikey_user_key b; Done (Some u) | None => Done None end) = Done (user_bound k)) as Hu.
  { intros [k|] Hlong; [|done]. rewrite run_ikey_user by (by apply Hlong). done. }
  rewrite (Hu begin) by (intros k E; apply Hk; by left). cbn [mbind outcome_bind obind].
  rewrite (Hu end_) by (intros k E; apply Hk; by right). cbn [mbind outcome_bind obind].
  case_decide as H0.
  - subst level. destruct (overlap_loop_zero fs Hok (overlap_fuel (length fs)) [] fs (user_bound begin) (user_bound end_))
      as (lo & hi & E & Hlo & Hhi & Hc); [done|by intros f ?%not_elem_of_nil| |by exists fs, lo, hi].
    unfold overlap_fuel. pose proof (length_filter (starts_before (user_bound begin)) fs).
    pose proof (length_filter (ends_after (user_bound end_)) fs). nia.
  - exists fs, (user_bound begin), (user_bound end_). split_and!; [done| |apply wider_lo_refl|apply wider_hi_refl|done..].
    rewrite overlap_loop_above; [done..|]. unfold overlap_fuel. nia.
Qed.

Lemma run_OverlapInLevel levels level lo hi :
  levels_ok levels → 0 ≤ level < kNumLevels →
  ∃ fs b, levels !! Z.to_nat level = Some fs ∧ OverlapInLevel levels level lo hi = Done b ∧
    (b = true ↔ ∃ f, f ∈ fs ∧ overlaps lo hi f).
Proof.
  intros Hl Hlev. destruct (levels_lookup _ _ Hl Hlev) as [fs Efs]. destruct (lv_files _ Hl _ _ Efs) as [Hok Hlen].
  unfold OverlapInLevel. rewrite Efs. cbn [need mbind outcome_bind obind].
  destruct (run_SomeFileOverlapsRange (0 <? level) fs lo hi Hok) as (b & E & Hb); [|done|by exists fs, b].
  intros Hpos%Z.ltb_lt. eapply (lv_disjoint _ Hl); [exact Efs|lia].
Qed.

(** Nothing of the range is in the level. *)
Definition level_free (levels : list files) (level : Z) lo hi : Prop :=
  ∀ fs f, levels !! Z.to_nat level = Some fs → f ∈ fs → ¬ overlaps lo hi f.

Lemma run_int_mul a b : - 2 ^ 31 ≤ a * b < 2 ^ 31 → int_mul a b = Done (a * b).
Proof. intros H. unfold int_mul. by rewrite (proj2 (Z.leb_le _ _)), (proj2 (Z.ltb_lt _ _)) by lia. Qed.

(** The sizes for which the products are defined. *)
Definition size_ok (max_file_size : Z) : Prop := 0 ≤ max_file_size ∧ 25 * max_file_size < 2 ^ 31.
Lemma run_TargetFileSize max_file_size : size_ok max_file_size → TargetFileSize max_file_size = max_file_size.
Proof.
  intros [H1 H2]. unfold TargetFileSize. change (2 ^ 31) with 2147483648 in H2. apply wraps_small; [lia|].
  change (2 ^ (32 - 1)) with 2147483648. lia.
Qed.
Lemma run_grandparent_limit max_file_size :
  size_ok max_file_size → MaxGrandParentOverlapBytes max_file_size = Done (10 * max_file_size).
Proof.
  intros H. unfold MaxGrandParentOverlapBytes. rewrite run_TargetFileSize by done. apply run_int_mul. destruct H. lia.
Qed.

Lemma run_pick_level max_file_size levels a b start limit : ∀ fuel level,
  size_ok max_file_size → levels_ok levels → long_key start → long_key limit → 0 ≤ level ≤ kMaxMemCompactLevel →
  kMaxMemCompactLevel - level < Z.of_nat fuel →
  (∀ j, 0 ≤ j ≤ level → level_free levels j (Some a) (Some b)) →
  ∃ l, pick_level max_file_size fuel levels a b start limit level = Done l ∧ level ≤ l ≤ kMaxMemCompactLevel ∧
    ∀ j, 0 ≤ j ≤ l → level_free levels j (Some a) (Some b).
Proof.
  change kMaxMemCompactLevel with 2.
  induction fuel as [|fuel IH]; intros level Hsize Hl Hs Ht Hlev Hf Hfree; [lia|]. cbn [pick_level]. change kMaxMemCompactLevel with 2.
  destruct (Z.ltb_spec level 2); [|exists level; split; [done|split; [lia|done]]].
  destruct (run_OverlapInLevel levels (level + 1) (Some a) (Some b) Hl) as (fs & o & Efs & -> & Ho); [unfold kNumLevels; lia|].
  cbn [mbind outcome_bind obind]. destruct o; [exists level; split; [done|split; [lia|done]]|].
  assert (level_free levels (level + 1) (Some a) (Some b)) as Hnext.
  { intros fs' f Efs' Hin Hov. assert (fs' = fs) as -> by congruence.
    assert (false = true); [|done]. apply Ho. by exists f. }
  destruct (run_GetOverlappingInputs levels (level + 2) (Some start) (Some limit) Hl) as (fs2 & lo & hi & _ & E & _);
    [unfold kNumLevels; lia|by intros k [[= <-]|[= <-]]|].
  rewrite (proj2 (Z.ltb_lt (level + 2) kNumLevels)) by (unfold kNumLevels; lia). rewrite E. cbn [mbind outcome_bind obind].
  rewrite run_grandparent_limit by done. cbn [mbind outcome_bind obind]. destruct (_ <? _); [exists level; split; [done|split; [lia|done]]|].
  destruct (IH (level + 1)) as (l & El & Hle & Hall); [done..|lia|lia| |exists l; split_and!; [done|lia|lia|done]].
  intros j Hj. destruct (decide (j = level + 1)) as [->|]; [done|]. apply Hfree. lia.
Qed.

Lemma run_PickLevel max_file_size levels a b :
  size_ok max_file_size → levels_ok levels →
  ∃ l, PickLevelForMemTableOutput max_file_size levels a b = Done l ∧ 0 ≤ l ≤ kMaxMemCompactLevel ∧
    (0 < l → ∀ j, 0 ≤ j ≤ l → level_free levels j (Some a) (Some b)).
Proof.
  intros Hsize Hl. unfold PickLevelForMemTableOutput.
  destruct (run_OverlapInLevel levels 0 (Some a) (Some b) Hl) as (fs & o & Efs & -> & Ho); [done|].
  cbn [mbind outcome_bind obind]. destruct o; [exists 0; split_and!; [done..|lia]|].
  rewrite run_first_key. cbn [mbind outcome_bind obind].
  assert (new_InternalKey b 0 0 = Done (b ++ EncodeFixed64 0)) as -> by reflexivity. cbn [mbind outcome_bind obind].
  destruct (run_pick_level max_file_size levels a b (a ++ EncodeFixed64 max_tag) (b ++ EncodeFixed64 0) 3 0)
    as (l & E & Hle & Hall); [done|done| | |unfold kMaxMemCompactLevel; lia|unfold kMaxMemCompactLevel; lia| |].
  - unfold long_key. rewrite length_app, length_fixed64. lia.
  - unfold long_key. rewrite length_app, length_fixed64. lia.
  - intros j Hj. replace j with 0 by lia. intros fs' f Efs' Hin Hov. assert (fs' = fs) as -> by congruence.
    assert (false = true); [|done]. apply Ho. by exists f.
  - exists l. split_and!; [done|lia|lia|]. intros _. exact Hall.
Qed.

(** ** Theorems *)

(** The search in a level that is in order is total, and gives the first file that
    ends at the key or after it: every file before it ends before the key. *)
Theorem FindFile_lower_bound fs key :
  Forall file_ok fs → disjoint fs → long_key key → Z.of_nat (length fs) < 2 ^ 31 →
  ∃ i : nat, FindFile fs key = Done (Z.of_nat i) ∧ (i ≤ length fs)%nat ∧
    ∀ j f, fs !! j = Some f → ((j < i)%nat ↔ ikey_compare (f_largest f) key < 0).
Proof.
  intros Hok Hd Hk Hl. pose proof (file_entries_sorted fs Hok Hd) as Hs.
  exists (lower_bound (UC := IC) (file_entries fs) key). split; [|split].
  - apply run_FindFile; [|done..]. eapply Forall_impl; [exact Hok|]. intros f Hf. by apply file_ok_lengths.
  - apply lower_bound_files.
  - intros j f Ef. pose proof (file_entries_lookup _ _ _ Ef) as Ee. split; intros H.
    + by pose proof (cut_below _ _ _ _ Ee H) as Hb%Z.ltb_lt.
    + destruct (Nat.lt_ge_cases j (lower_bound (UC := IC) (file_entries fs) key)) as [|Hge]; [done|exfalso].
      pose proof (lower_bound_above fs key j f Hs Ef Hge). lia.
Qed.

(** C39: the inputs of a compaction are the files of the level that overlap a range that
    has the one that was asked for; in level 0 no file of the level that overlaps that
    range reaches out of it, so that nothing older or newer than the inputs is left
    behind among them; the restarts end. *)
Theorem overlapping_inputs_closed levels level begin end_ :
  levels_ok levels → 0 ≤ level < kNumLevels → (∀ k, begin = Some k ∨ end_ = Some k → long_key k) →
  ∃ fs lo hi, levels !! Z.to_nat level = Some fs ∧
    wider_lo (user_bound begin) lo ∧ wider_hi (user_bound end_) hi ∧
    (level ≠ 0 → lo = user_bound begin ∧ hi = user_bound end_) ∧
    ∃ inputs, GetOverlappingInputs levels level begin end_ = Done inputs ∧
      (∀ f, f ∈ inputs ↔ f ∈ fs ∧ overlaps lo hi f) ∧
      (level = 0 → ∀ f, f ∈ inputs → ¬ starts_before lo f ∧ ¬ ends_after hi f).
Proof.
  intros Hl Hlev Hk. destruct (run_GetOverlappingInputs levels level begin end_ Hl Hlev Hk) as (fs & lo & hi & Efs & E & Hlo & Hhi & Hc).
  assert (∀ f, f ∈ filter (overlaps lo hi) fs ↔ f ∈ fs ∧ overlaps lo hi f) as Hin.
  { intros f. rewrite list_elem_of_filter. tauto. }
  exists fs, lo, hi. split_and!; [done..| |].
  - intros Hne. by rewrite decide_False in Hc.
  - exists (filter (overlaps lo hi) fs). split_and!; [done..|]. intros -> f [Hf Ho]%Hin. rewrite decide_True in Hc by done.
    by apply Hc.
Qed.

(** C38: the level that is picked for a table of new updates is within the bounds; when
    it is not level 0, no file of it nor of a level above it has keys of the range of
    the table, so that lookups, which search from the first level on, still find the
    newest update first. *)
Theorem PickLevel_safe max_file_size levels a b :
  size_ok max_file_size → levels_ok levels →
  ∃ l, PickLevelForMemTableOutput max_file_size levels a b = Done l ∧ 0 ≤ l ≤ kMaxMemCompactLevel ∧
    (0 < l → ∀ j fs f, 0 ≤ j ≤ l → levels !! Z.to_nat j = Some fs → f ∈ fs → ¬ overlaps (Some a) (Some b) f).
Proof.
  intros Hsize Hl. destruct (run_PickLevel max_file_size levels a b Hsize Hl) as (l & E & Hlev & H). exists l. split_and!; [done|lia..|].
  intros Hpos j fs f Hj Efs Hf. by apply (H Hpos j Hj fs f).
Qed.

(** [SanitizeOptions] admits file sizes up to 1 GB, but the limits are computed as
    products of [int]s, which overflow from 214748365 bytes on. *)
Theorem grandparent_limit_overflows max_file_size :
  214748365 ≤ max_file_size < 2 ^ 31 → MaxGrandParentOverlapBytes max_file_size = Undef.
Proof.
  change (2 ^ 31) with 2147483648. intros H. unfold MaxGrandParentOverlapBytes, TargetFileSize, int_mul.
  rewrite wraps_small by (try change (2 ^ (32 - 1)) with 2147483648; lia). change (2 ^ 31) with 2147483648.
  rewrite (proj2 (Z.ltb_ge (10 * max_file_size) _)) by lia. by rewrite andb_false_r.
Qed.
End version_spec.

Lemma grandparent_limit_overflows_witness : MaxGrandParentOverlapBytes (2 ^ 30) = Undef.
Proof. apply grandparent_limit_overflows. by vm_compute. Defined.

(** ** Witnesses *)

(** A key with a sequence number and a type of one byte each. *)
Definition ikey_of (c seq : Z) : list Z := [c] ++ EncodeFixed64 (seq * 256 + 1).
Definition file_of (number a b : Z) : FileMetaData := new_FileMetaData number 100 (ikey_of a 9) (ikey_of b 9).
Definition sample_levels : list files :=
  [[file_of 5 10 20; file_of 6 18 30; file_of 7 50 60]; []; [file_of 3 1 9; file_of 4 40 50]; []; []; []; []].

Lemma file_of_ok number a b : ikey_compare (ikey_of a 9) (ikey_of b 9) ≤ 0 → file_ok (file_of number a b).
Proof.
  intros Hab. assert (∀ c, ikey_wf (ikey_of c 9)) as Hwf; [|by split; [apply Hwf|split; [apply Hwf|exact Hab]]].
  intros c. exists [c], 2305. split; [done|]. split; [done|]. by vm_compute.
Qed.
Lemma sample_levels_ok : levels_ok sample_levels.
Proof.
  split; [done| |].
  - intros i fs E. do 7 (destruct i as [|i]; [injection E as <-; split; [|done];
      repeat (apply Forall_cons_2 || apply Forall_nil_2); apply file_of_ok; by vm_compute|]). done.
  - intros i fs E Hi. do 7 (destruct i as [|i]; [injection E as <-; repeat constructor; by vm_compute|]). done.
Qed.

Lemma FindFile_lower_bound_witness :
  ∃ i : nat, FindFile [file_of 3 1 9; file_of 4 40 50] (ikey_of 12 7) = Done (Z.of_nat i) ∧ i = 1%nat.
Proof.
  destruct (FindFile_lower_bound [file_of 3 1 9; file_of 4 40 50] (ikey_of 12 7)) as (i & E & _ & _); [| |by vm_compute; lia|done|].
  - repeat (apply Forall_cons_2 || apply Forall_nil_2); apply file_of_ok; by vm_compute.
  - by repeat constructor.
  - exists i. split; [exact E|].
    assert (FindFile [file_of 3 1 9; file_of 4 40 50] (ikey_of 12 7) = Done 1) as E1 by (by vm_compute).
    rewrite E in E1. injection E1 as E1. lia.
Defined.

(** The range [15, 25] is extended to [10, 30], which has the first two files. *)
Lemma overlapping_inputs_closed_witness :
  ∃ inputs, GetOverlappingInputs sample_levels 0 (Some (ikey_of 19 9)) (Some (ikey_of 25 9)) = Done inputs ∧
    inputs = [file_of 5 10 20; file_of 6 18 30] ∧ (∀ f, f ∈ inputs → ¬ ends_after (Some [30]) f).
Proof.
  destruct (overlapping_inputs_closed sample_levels 0 (Some (ikey_of 19 9)) (Some (ikey_of 25 9)) sample_levels_ok)
    as (fs & lo & hi & _ & _ & _ & _ & inputs & E & _ & _); [done|by intros k [[= <-]|[= <-]]; vm_compute; lia|].
  exists inputs. split; [exact E|]. vm_compute in E. injection E as <-. split; [by vm_compute|].
  intros f [->|[->| []%not_elem_of_nil]%elem_of_cons]%elem_of_cons; by vm_compute.
Defined.

Lemma PickLevel_safe_witness :
  ∃ l, PickLevelForMemTableOutput 1000 sample_levels [42] [45] = Done l ∧ l = 1 ∧
    (∀ f, f ∈ [file_of 5 10 20; file_of 6 18 30; file_of 7 50 60] → ¬ overlaps (Some [42]) (Some [45]) f).
Proof.
  destruct (PickLevel_safe 1000 sample_levels [42] [45]) as (l & E & _ & H); [done|exact sample_levels_ok|]. exists l.
  assert (l = 1) as -> by (vm_compute in E; by injection E as <-).
  split_and!; [exact E|done|]. intros f. by apply (H ltac:(done) 0); [|reflexivity].
Defined.
