(* ===== verification/LdbVersionGet.v ===== *)
(** * leveldb: reading a version (db/version_set.cc)

    A version has, for each level, pointers to the objects of its files; the objects are
    shared by versions, and their counters of seeks change, so that they are in a heap.
    The cache of tables is an interface here. *)
From stdpp Require Import sorting.
From S2P Require Import Prelude LdbCoding SkipList LdbFormat LdbIterator LdbTable LdbVersionEdit LdbVersion.

(** ** The cache of tables *)

(** [TableCache::Get]: the status, and the entry that the callback is called with, if it
    is called. *)
Class TableCache (T : Type) := {
  tc_Get : ReadOptions → Z → Z → list Z → M T (option string * option (list Z * list Z));
}.

(** ** Versions *)

(** The objects of files, by their pointers. *)
Abbreviation file_heap := (gmap Z FileMetaData).

Record Version := MkVersion {
  v_refs_ : Z;
  v_files_ : list (list Z);
  v_file_to_compact_ : option Z;
  v_file_to_compact_level_ : Z;
}.
Definition new_Version : Version := MkVersion 0 (replicate (Z.to_nat kNumLevels) []) None (-1).

Section version_get.
Context `{UC : Comparator (list Z)}.

Definition deref (h : file_heap) (p : Z) : outcome FileMetaData := need (h !! p).
Fixpoint deref_all (h : file_heap) (ps : list Z) : outcome files :=
  match ps with
  | [] => Done []
  | p :: ps => f ← deref h p; fs ← deref_all h ps; Done (f :: fs)
  end.

(** ** The callback *)

Inductive SaverState : Type := kNotFound | kFound | kDeleted | kCorrupt.
#[export] Instance SaverState_eq_dec : EqDecision SaverState.
Proof. solve_decision. Defined.

Record Saver := MkSaver { sv_state : SaverState; sv_user_key : list Z; sv_value : list Z }.

Definition SaveValue (s : Saver) (ikey v : list Z) : Saver :=
  match ParseInternalKey ikey with
  | None => MkSaver kCorrupt (sv_user_key s) (sv_value s)
  | Some parsed_key =>
      if compare_ (user_key parsed_key) (sv_user_key s) =? 0 then
        let state := if type_ parsed_key =? kTypeValue then kFound else kDeleted in
        MkSaver state (sv_user_key s) (match state with kFound => v | _ => sv_value s end)
      else s
  end.

(** ** The files that may have a key *)

(** [std::sort] with [NewestFirst]. *)
Definition newer_or_same (a b : Z * FileMetaData) : Prop := f_number b.2 ≤ f_number a.2.
#[export] Instance newer_or_same_dec a b : Decision (newer_or_same a b) := Z_le_dec _ _.
Definition sort_newest (l : list (Z * FileMetaData)) : list (Z * FileMetaData) := merge_sort newer_or_same l.

(** The files of level 0 whose range has the key. *)
Fixpoint files_with_key (h : file_heap) (ps : list Z) (ukey : list Z) : outcome (list (Z * FileMetaData)) :=
  match ps with
  | [] => Done []
  | p :: ps =>
      f ← deref h p;
      smallest ← ikey_user_key (f_smallest f);
      within ← (if 0 <=? compare_ ukey smallest then
                  largest ← ikey_user_key (f_largest f); Done (compare_ ukey largest <=? 0)
                else Done false);
      tmp ← files_with_key h ps ukey;
      Done (if (within : bool) then (p, f) :: tmp else tmp)
  end.

(** The files of a level to search, in order. *)
Definition level_candidates (h : file_heap) (level : Z) (ps : list Z) (ikey ukey : list Z) : outcome (list Z) :=
  if bool_decide (ps = []) then Done []
  else if level =? 0 then
    tmp ← files_with_key h ps ukey;
    Done (fst <$> sort_newest tmp)
  else
    fs ← deref_all h ps;
    index ← FindFile fs ikey;
    if Z.of_nat (length ps) <=? u32 index then Done []
    else
      p ← need (ps !! Z.to_nat (u32 index));
      f ← deref h p;
      smallest ← ikey_user_key (f_smallest f);
      Done (if compare_ ukey smallest <? 0 then [] else [p]).

(** [ForEachOverlapping]: [func] gives whether to go on. *)
Section for_each.
Context {St : Type} (func : Z → Z → M St bool).

Fixpoint call_while (level : Z) (ps : list Z) : M St bool :=
  match ps with
  | [] => mret true
  | p :: ps => go ← func level p; if (go : bool) then call_while level ps else mret false
  end.
Fixpoint for_levels (h : file_heap) (level : Z) (levels : list (list Z)) (ukey ikey : list Z) : M St unit :=
  match levels with
  | [] => mret tt
  | ps :: levels =>
      candidates ← lift_outcome (level_candidates h level ps ikey ukey);
      go ← call_while level candidates;
      if (go : bool) then for_levels h (level + 1) levels ukey ikey else mret tt
  end.
Definition ForEachOverlapping (h : file_heap) (v : Version) (ukey ikey : list Z) : M St unit :=
  for_levels h 0 (v_files_ v) ukey ikey.
End for_each.

(** ** Get *)

Record GetStats := MkGetStats { seek_file : option Z; seek_file_level : Z }.

Inductive get_status : Type :=
  | GetOk
  | GetNotFoundStatus
  | GetCorruption (msg : string)
  | GetError (s : string).

(** The variables of [Get]. *)
Record GetVars := MkGetVars {
  g_stats : GetStats;
  g_last_file_read : option Z;
  g_last_file_read_level : Z;
  g_value : list Z;
}.

Section get.
Context {T : Type} `{TC : TableCache T}.

(** The first file that was read is charged when there is a second one. *)
Definition charge (g : GetVars) : GetStats :=
  match g_last_file_read g, seek_file (g_stats g) with
  | Some f, None => MkGetStats (Some f) (g_last_file_read_level g)
  | _, _ => g_stats g
  end.

(** One file: the result, when the search ends there. *)
Definition get_in_file (h : file_heap) (ro : ReadOptions) (k : LookupKey) (level p : Z) (g : GetVars)
    : M T (GetVars * option get_status) :=
  f ← lift_option (h !! p);
  '(s, saved) ← tc_Get ro (f_number f) (f_file_size f) (internal_key k);
  let saver := MkSaver kNotFound (lk_user_key k) (g_value g) in
  let saver := match saved with Some (ikey, v) => SaveValue saver ikey v | None => saver end in
  let g := MkGetVars (charge g) (Some p) level (sv_value saver) in
  mret (g, match s with
           | Some e => Some (GetError e)
           | None =>
               match sv_state saver with
               | kNotFound => None
               | kFound => Some GetOk
               | kDeleted => Some GetNotFoundStatus
               | kCorrupt => Some (GetCorruption "corrupted key for ")
               end
           end).

Fixpoint get_in_files (h : file_heap) (ro : ReadOptions) (k : LookupKey) (level : Z) (ps : list Z) (g : GetVars)
    : M T (GetVars * option get_status) :=
  match ps with
  | [] => mret (g, None)
  | p :: ps =>
      '(g, r) ← get_in_file h ro k level p g;
      match r with
      | Some s => mret (g, Some s)
      | None => get_in_files h ro k level ps g
      end
  end.

Fixpoint get_in_levels (h : file_heap) (ro : ReadOptions) (k : LookupKey) (level : Z) (levels : list (list Z)) (g : GetVars)
    : M T (GetVars * get_status) :=
  match levels with
  | [] => mret (g, GetNotFoundStatus)
  | ps :: levels =>
      candidates ← lift_outcome (level_candidates h level ps (internal_key k) (lk_user_key k));
      '(g, r) ← get_in_files h ro k level candidates g;
      match r with
      | Some s => mret (g, s)
      | None => get_in_levels h ro k (level + 1) levels g
      end
  end.

(** The status, what [*value] is then, and the statistics. *)
Definition version_Get (h : file_heap) (v : Version) (ro : ReadOptions) (k : LookupKey) (value : list Z)
    : M T (get_status * list Z * GetStats) :=
  '(g, s) ← get_in_levels h ro k 0 (v_files_ v) (MkGetVars (MkGetStats None (-1)) None (-1) value);
  mret (s, g_value g, g_stats g).
End get.

(** ** Seeks *)

(** [allowed_seeks--] overflows at the least [int]. *)
Definition UpdateStats (stats : GetStats) : M (file_heap * Version) bool := λ '(h, v),
  match seek_file stats with
  | None => Done (false, (h, v))
  | Some p =>
      f ← deref h p;
      if - 2 ^ 31 <? f_allowed_seeks f then
        let seeks := f_allowed_seeks f - 1 in
        let h := <[p := MkFile (f_refs f) seeks (f_number f) (f_file_size f) (f_smallest f) (f_largest f)]> h in
        if (seeks <=? 0) && bool_decide (v_file_to_compact_ v = None)
        then Done (true, (h, MkVersion (v_refs_ v) (v_files_ v) (Some p) (seek_file_level stats)))
        else Done (false, (h, v))
      else Undef
  end.

(** [State::Match]; the state has the first match, once there is one, and the number of
    matches. *)
Definition match_file (level p : Z) : M (GetStats * Z) bool := λ '(stats, matches),
  let matches := matches + 1 in
  let stats := if matches =? 1 then MkGetStats (Some p) level else stats in
  Done (matches <? 2, (stats, matches)).

Definition RecordReadSample (internal_key : list Z) : M (file_heap * Version) bool := λ '(h, v),
  match ParseInternalKey internal_key with
  | None => Done (false, (h, v))
  | Some ikey =>
      '(_, (stats, matches)) ← ForEachOverlapping match_file h v (user_key ikey) internal_key (MkGetStats None (-1), 0);
      if 2 <=? matches then UpdateStats stats (h, v) else Done (false, (h, v))
  end.
End version_get.
