(* ===== verification/LdbVersionGetSpec.v ===== *)
(** * leveldb: a version reads the newest update

    The tables of a version are searched level by level, and level 0 from its newest
    table on. When newer updates of a key are in tables that are searched before, as
    flushes and compactions keep it, the search gives what the specification of reads
    says of all the updates of the version. *)
From stdpp Require Import sorting.
From S2P Require Import Prelude LdbCoding SkipList SkipListSpec LdbFormat LdbIterator LdbMemTable LdbMemTableSpec LdbDBIterSpec LdbTable LdbReads LdbVersionEdit LdbVersion LdbVersionSpec LdbVersionGet.

(** ** The contract of the cache of tables

    [holds t num size us]: the table of the file has the updates, in the order of internal
    keys. A lookup gives the first entry at the key or after it when it is of the user key,
    and if not that one or nothing. [room t n]: there is room for [n] lookups; one may open
    a table, and what a cache counts is bounded. *)
Class TableCacheLaws (T : Type) `{Comparator (list Z)} `{TableCache T} := {
  holds : T → Z → Z → list update → Prop;
  room : T → nat → Prop;
  room_le t m n : room t n → (m ≤ n)%nat → room t m;
  tc_Get_law t n ro num size us key s :
    holds t num size us → room t (S n) → key_ok key → 0 ≤ s ≤ kMaxSequenceNumber →
    let place := lower_bound (UC := internal_comparator) (ientry <$> us) (lookup_ikey key s) in
    ∃ saved t', tc_Get ro num size (lookup_ikey key s) t = Done ((None, saved), t') ∧
      (∀ n z us', holds t n z us' → holds t' n z us') ∧ room t' n ∧
      (saved = None ∨ saved = ientry <$> us !! place) ∧
      (∀ u, us !! place = Some u → compare_ (up_key u) key = 0 → saved = Some (ientry u));
}.

Section version_get_spec.
Context `{UC : Comparator (list Z)} `{CL : !ComparatorLaws (list Z)}.
Context {T : Type} `{TC : TableCache T} `{TL : !TableCacheLaws T}.
Implicit Types (h : file_heap) (us_of : Z → list update) (f : FileMetaData) (fs : list FileMetaData) (us : list update) (u w : update) (key : list Z).

Abbreviation IC := (internal_comparator (UC := UC)).

(** ** Files and their updates *)

(** The ends of a file are the keys of its first and of its last update. *)
Definition describes f us : Prop :=
  updates_sorted us ∧ Forall update_ok us ∧
  (∃ u, head us = Some u ∧ f_smallest f = (ientry u).1) ∧
  ∃ w, last us = Some w ∧ f_largest f = (ientry w).1.

Lemma ientry_wf u : update_ok u → ikey_wf (ientry u).1.
Proof.
  intros (Hs & Ht & _). exists (up_key u), (up_tag u). split; [done|]. unfold max_tag, up_tag.
  change kValueTypeForSeek with 1. lia.
Qed.
Lemma ientry_user u : update_ok u → ExtractUserKey (ientry u).1 = up_key u.
Proof. intros Hu. by destruct (parse_ientry u Hu) as (_ & E & _). Qed.

Lemma updates_le us i j u w :
  updates_sorted us → Forall update_ok us → us !! i = Some u → us !! j = Some w → (i ≤ j)%nat →
  ikey_compare (ientry u).1 (ientry w).1 ≤ 0.
Proof.
  intros Hs Hok Ei Ej Hij. rewrite Forall_lookup in Hok. destruct (decide (i = j)) as [->|].
  - simplify_eq. pose proof (compare_refl (H := IC) (ientry u).1) as E. unfold compare_, internal_comparator in E. lia.
  - rewrite ientry_compare by (by eapply Hok). pose proof (sorted_lookup _ us i j u w Hs Ei Ej ltac:(lia)). cbn in *. lia.
Qed.

Lemma describes_bounds f us u :
  describes f us → u ∈ us →
  ikey_compare (f_smallest f) (ientry u).1 ≤ 0 ∧ ikey_compare (ientry u).1 (f_largest f) ≤ 0.
Proof.
  intros (Hs & Hok & (a & Ha & ->) & b & Hb & ->) [i Ei]%list_elem_of_lookup.
  rewrite head_lookup in Ha. rewrite last_lookup in Hb. pose proof (lookup_lt_Some _ _ _ Ei).
  split; eapply updates_le; [done|done|exact Ha|exact Ei|lia|done|done|exact Ei|exact Hb|lia].
Qed.
Lemma describes_update f us u : describes f us → u ∈ us → update_ok u.
Proof. intros (_ & Hok & _) Hu. rewrite Forall_forall in Hok. by apply Hok. Qed.

Lemma describes_file_ok f us : describes f us → file_ok f.
Proof.
  intros Hd. pose proof Hd as (Hs & Hok & (a & Ha & Ea) & b & Hb & Eb).
  assert (a ∈ us) as Hina by (rewrite head_lookup in Ha; by eapply list_elem_of_lookup_2).
  assert (b ∈ us) as Hinb by (rewrite last_lookup in Hb; by eapply list_elem_of_lookup_2).
  split_and!.
  - rewrite Ea. apply ientry_wf. by eapply describes_update.
  - rewrite Eb. apply ientry_wf. by eapply describes_update.
  - rewrite Eb. by apply (describes_bounds f us b Hd).
Qed.

(** The user key of an update is in the range of its file. *)
Lemma describes_users f us u :
  describes f us → u ∈ us →
  compare_ (ExtractUserKey (f_smallest f)) (up_key u) ≤ 0 ∧ compare_ (up_key u) (ExtractUserKey (f_largest f)) ≤ 0.
Proof.
  intros Hd Hu. destruct (describes_bounds f us u Hd Hu) as [H1 H2].
  rewrite <-(ientry_user u) by (by eapply describes_update). split; by apply ikey_le_user.
Qed.

(** ** Pointers *)

Lemma run_deref_all h ps fs : Forall2 (λ p f, h !! p = Some f) ps fs → deref_all h ps = Done fs.
Proof.
  induction 1 as [|p f ps fs E _ IH]; [done|]. cbn [deref_all]. unfold deref. rewrite E. cbn [need]. rewrite obind_done, IH.
  by rewrite obind_done.
Qed.

(** The object of the pointer describes the updates, and its table has them. *)
Definition stored (h : file_heap) (t : T) us_of (p : Z) : Prop :=
  ∃ f, h !! p = Some f ∧ describes f (us_of p) ∧ holds t (f_number f) (f_file_size f) (us_of p).

(** An update that is older than all that are seen of some updates. *)
Definition covered us_of (ps : list Z) key s w : Prop :=
  ∃ p v, p ∈ ps ∧ v ∈ us_of p ∧ sees key s v ∧ up_tag w ≤ up_tag v.
(** The updates of a key in [p] are not older than those in [q]. *)
Definition not_older us_of (p q : Z) : Prop :=
  ∀ u w, u ∈ us_of p → w ∈ us_of q → compare_ (up_key u) (up_key w) = 0 → up_tag w ≤ up_tag u.

(** What is searched of a level: it covers what is seen of the level, the newest first. *)
Definition candidates_of us_of ps key s (cs : list Z) : Prop :=
  cs ⊆ ps ∧ (length cs ≤ length ps)%nat ∧ (∀ q w, q ∈ ps → w ∈ us_of q → sees key s w → covered us_of cs key s w) ∧
  StronglySorted (not_older us_of) cs.

(** The updates of some files. *)
Definition updates_of us_of (ps : list Z) : list update := concat (us_of <$> ps).
Lemma elem_of_updates us_of ps w : w ∈ updates_of us_of ps ↔ ∃ p, p ∈ ps ∧ w ∈ us_of p.
Proof.
  unfold updates_of. rewrite list_elem_of_concat. setoid_rewrite list_elem_of_fmap. split.
  - intros (us & Hw & p & -> & Hp). by exists p.
  - intros (p & Hp & Hw). exists (us_of p). split; [done|]. by exists p.
Qed.
Lemma updates_of_app us_of ps qs : updates_of us_of (ps ++ qs) = updates_of us_of ps ++ updates_of us_of qs.
Proof. unfold updates_of. by rewrite fmap_app, concat_app. Qed.

(** ** A level of disjoint files *)

Section level_above.
Variables (h : file_heap) (t : T) (us_of : Z → list update) (ps : list Z) (fs : list FileMetaData) (key : list Z) (s : Z).
Hypothesis Hfs : Forall2 (λ p f, h !! p = Some f) ps fs.
Hypothesis Hst : Forall (stored h t us_of) ps.
Hypothesis Hd : disjoint fs.
Hypothesis Hl : Z.of_nat (length fs) < 2 ^ 31.
Hypothesis Hs : 0 ≤ s ≤ kMaxSequenceNumber.

Lemma level_length : length ps = length fs.
Proof. by eapply Forall2_length. Qed.
Lemma level_file i p : ps !! i = Some p → ∃ f, fs !! i = Some f ∧ h !! p = Some f ∧ describes f (us_of p).
Proof.
  intros Ep. destruct (Forall2_lookup_l _ _ _ _ _ Hfs Ep) as (f & Ef & Eh). exists f. split_and!; [done..|].
  destruct (proj1 (Forall_lookup _ _) Hst i p Ep) as (f' & Eh' & Hdf & _). by simplify_eq.
Qed.
Lemma level_update i p w : ps !! i = Some p → w ∈ us_of p → update_ok w.
Proof. intros Ep Hw. destruct (level_file i p Ep) as (f & _ & _ & Hdf). by eapply describes_update. Qed.
Lemma level_files_ok : Forall file_ok fs.
Proof.
  apply Forall_lookup. intros i f Ef. destruct (lookup_lt_is_Some_2 ps i) as [p Ep].
  { rewrite level_length. by eapply lookup_lt_Some. }
  destruct (level_file i p Ep) as (f' & Ef' & _ & Hdf). simplify_eq. by eapply describes_file_ok.
Qed.

(** The index of the search, and the updates of the files before and after it. *)
Definition at_index (i : nat) : Prop :=
  ∀ j f, fs !! j = Some f → (j < i)%nat ↔ ikey_compare (f_largest f) (lookup_ikey key s) < 0.

Lemma seen_after i j q w : at_index i → ps !! j = Some q → w ∈ us_of q → sees key s w → (i ≤ j)%nat.
Proof.
  intros Hi Eq Hw Hsw. destruct (Nat.le_gt_cases i j) as [|Hji]; [done|exfalso].
  destruct (level_file j q Eq) as (g & Eg & _ & Hdg).
  pose proof (proj1 (Hi j g Eg) Hji) as Hlt. destruct (describes_bounds g _ w Hdg Hw) as [_ Hle].
  pose proof (compare_le_lt_trans (H := IC) _ _ _ Hle Hlt) as Hb.
  apply (ientry_below w) in Hb; [|by eapply level_update|done]. destruct Hsw. lia.
Qed.
Lemma later_above i f j q w :
  fs !! i = Some f → ps !! j = Some q → w ∈ us_of q → (i < j)%nat → ikey_compare (f_largest f) (ientry w).1 < 0.
Proof.
  intros Ef Eq Hw Hij. destruct (level_file j q Eq) as (g & Eg & _ & Hdg).
  destruct (describes_bounds g _ w Hdg Hw) as [Hle _].
  eapply (compare_lt_le_trans (H := IC)); [by eapply disjoint_lookup|done].
Qed.
Lemma later_users i f j q w :
  fs !! i = Some f → ps !! j = Some q → w ∈ us_of q → (i ≤ j)%nat →
  compare_ (ExtractUserKey (f_smallest f)) (up_key w) ≤ 0.
Proof.
  intros Ef Eq Hw Hij. destruct (decide (i = j)) as [<-|].
  - destruct (level_file i q Eq) as (g & Eg & _ & Hdg). simplify_eq. by eapply describes_users.
  - pose proof (later_above i f j q w Ef Eq Hw ltac:(lia)) as Hlt%ikey_lt_user.
    rewrite ientry_user in Hlt by (by eapply level_update).
    eapply compare_trans; [|exact Hlt]. apply file_ok_users. by eapply Forall_lookup_1; [apply level_files_ok|].
Qed.

(** When a later file has a version of the key that is seen, the last update of the file
    at the index is a newer one. *)
Lemma last_covers i p j q w :
  at_index i → ps !! i = Some p → ps !! j = Some q → w ∈ us_of q → sees key s w → (i < j)%nat →
  ∃ x, x ∈ us_of p ∧ sees key s x ∧ up_tag w ≤ up_tag x.
Proof.
  intros Hi Ep Eq Hw Hsw Hij. destruct (level_file i p Ep) as (f & Ef & _ & Hdf).
  pose proof (later_above i f j q w Ef Eq Hw Hij) as Hlw. pose proof Hdf as (_ & _ & _ & x & Ex & El).
  assert (x ∈ us_of p) as Hx by (rewrite last_lookup in Ex; by eapply list_elem_of_lookup_2).
  pose proof (level_update i p x Ep Hx) as Hokx. pose proof (level_update j q w Eq Hw) as Hokw.
  rewrite El, ientry_compare in Hlw by done. pose proof (version_le_key _ _ _ _ Hlw) as Hxw. pose proof Hsw as [Ew _].
  assert (0 < compare_ (up_key x) key ∨ sees key s x) as [Hgt|Hsx].
  { apply (ientry_not_below x key s); [done..|]. rewrite <-El. apply Z.nlt_ge. intros Hc. apply (Hi i f Ef) in Hc. lia. }
  - assert (compare_ (up_key x) key ≤ 0) by (apply compare_trans with (up_key w); lia). lia.
  - exists x. split_and!; [done..|]. unfold version_compare in Hlw.
    rewrite (proj2 (Z.eqb_eq _ _) (sees_same _ _ _ _ Hsx Hsw)) in Hlw.
    destruct (Z.ltb_spec (up_tag w) (up_tag x)), (Z.ltb_spec (up_tag x) (up_tag w)); lia.
Qed.

Lemma no_candidates :
  (∀ j q w, ps !! j = Some q → w ∈ us_of q → ¬ sees key s w) → candidates_of us_of ps key s [].
Proof.
  intros Hno. split_and!; [apply list_subseteq_nil|apply Nat.le_0_l| |constructor].
  intros q w [j Eq]%list_elem_of_lookup Hw Hsw. by destruct (Hno j q w Eq Hw).
Qed.

Lemma run_level_above level :
  level ≠ 0 →
  ∃ cs, level_candidates h level ps (lookup_ikey key s) key = Done cs ∧ candidates_of us_of ps key s cs.
Proof.
  intros Hlev. unfold level_candidates. case_bool_decide as Eps.
  { exists []. split; [done|]. apply no_candidates. by rewrite Eps. }
  rewrite (proj2 (Z.eqb_neq level 0)) by done. rewrite (run_deref_all h ps fs), obind_done by done.
  destruct (FindFile_lower_bound fs (lookup_ikey key s) level_files_ok Hd) as (i & -> & Hi & Hlb); [|exact Hl|].
  { unfold long_key, lookup_ikey. rewrite length_app, length_fixed64. lia. }
  rewrite obind_done, (u32_index i (length fs)), level_length by done.
  destruct (Z.leb_spec (Z.of_nat (length fs)) (Z.of_nat i)) as [Hge|Hlt].
  { exists []. split; [done|]. apply no_candidates. intros j q w Eq Hw Hsw.
    pose proof (seen_after i j q w Hlb Eq Hw Hsw). apply lookup_lt_Some in Eq. rewrite level_length in Eq. lia. }
  destruct (lookup_lt_is_Some_2 ps i) as [p Ep]; [rewrite level_length; lia|].
  destruct (level_file i p Ep) as (f & Ef & Eh & Hdf). rewrite Nat2Z.id, Ep. cbn [need]. rewrite obind_done.
  unfold deref at 1. rewrite Eh. cbn [need]. rewrite obind_done.
  rewrite run_ikey_user, obind_done by (by eapply file_ok_lengths, describes_file_ok).
  eexists. split; [done|]. destruct (Z.ltb_spec (compare_ key (ExtractUserKey (f_smallest f))) 0) as [Hbefore|Hin].
  - apply no_candidates. intros j q w Eq Hw Hsw. pose proof (seen_after i j q w Hlb Eq Hw Hsw) as Hij.
    pose proof (compare_lt_le_trans _ _ _ Hbefore (later_users i f j q w Ef Eq Hw Hij)) as Hlt'.
    destruct Hsw as [E _]. apply compare_sym in Hlt'. lia.
  - split_and!; [intros ? ->%list_elem_of_singleton; by eapply list_elem_of_lookup_2|apply lookup_lt_Some in Ep; simpl; lia| |repeat constructor].
    intros q w [j Eq]%list_elem_of_lookup Hw Hsw. pose proof (seen_after i j q w Hlb Eq Hw Hsw).
    destruct (decide (i = j)) as [<-|]; [simplify_eq; exists p, w; split_and!; [by left|done..]|].
    destruct (last_covers i p j q w Hlb Ep Eq Hw Hsw ltac:(lia)) as (x & Hx & Hsx & Hle).
    exists p, x. split_and!; [by left|done..].
Qed.
End level_above.

(** ** Level 0 *)

#[local] Instance newer_or_same_total : Total newer_or_same.
Proof. intros a b. unfold newer_or_same. lia. Qed.
#[local] Instance newer_or_same_trans : Transitive newer_or_same.
Proof. intros a b c. unfold newer_or_same. lia. Qed.

(** The files of greater numbers have the newer updates. *)
Definition numbered_newest h us_of ps : Prop :=
  NoDup ps ∧ ∀ p q f g, p ∈ ps → q ∈ ps → p ≠ q → h !! p = Some f → h !! q = Some g →
    f_number g ≤ f_number f → not_older us_of p q.

Definition in_range f key : Prop :=
  0 ≤ compare_ key (ExtractUserKey (f_smallest f)) ∧ compare_ key (ExtractUserKey (f_largest f)) ≤ 0.

Lemma run_files_with_key h t us_of ps key :
  Forall (stored h t us_of) ps →
  ∃ tmp, files_with_key h ps key = Done tmp ∧ tmp.*1 `sublist_of` ps ∧
    ∀ p f, (p, f) ∈ tmp ↔ p ∈ ps ∧ h !! p = Some f ∧ in_range f key.
Proof.
  induction 1 as [|p ps (f & Eh & Hdf & _) _ (tmp & E & Hsub & IH)].
  { exists []. split_and!; [done|constructor|]. intros p f. split; [by intros ?%not_elem_of_nil|by intros [?%not_elem_of_nil _]]. }
  destruct (file_ok_lengths f (describes_file_ok _ _ Hdf)) as [Hls Hll].
  cbn [files_with_key]. unfold deref. rewrite Eh. cbn [need]. rewrite obind_done, (run_ikey_user (f_smallest f)), obind_done by done.
  assert ((if 0 <=? compare_ key (ExtractUserKey (f_smallest f))
           then largest ← ikey_user_key (f_largest f); Done (compare_ key largest <=? 0)
           else Done false) = Done ((0 <=? compare_ key (ExtractUserKey (f_smallest f))) &&
             (compare_ key (ExtractUserKey (f_largest f)) <=? 0))) as ->.
  { destruct (0 <=? _); [|done]. by rewrite run_ikey_user, obind_done by done. }
  rewrite obind_done, E, obind_done. set (b := _ && _). assert (b = true ↔ in_range f key) as Hb.
  { unfold b, in_range. by rewrite andb_true_iff, !Z.leb_le. }
  eexists. split; [reflexivity|]. split; [destruct b; cbn [fmap list_fmap fst]; by constructor|].
  intros q g. assert ((q, g) ∈ (if b then (p, f) :: tmp else tmp) ↔ (b = true ∧ q = p ∧ g = f) ∨ (q, g) ∈ tmp) as ->.
  { destruct b; [rewrite elem_of_cons|]; naive_solver. }
  rewrite IH, Hb, elem_of_cons. split; [naive_solver|]. intros ([-> |Hq] & Eg & Hr); [|naive_solver]. left. naive_solver.
Qed.

Lemma run_level_zero h t us_of ps key s :
  Forall (stored h t us_of) ps → numbered_newest h us_of ps →
  ∃ cs, level_candidates h 0 ps (lookup_ikey key s) key = Done cs ∧ candidates_of us_of ps key s cs.
Proof.
  intros Hst [Hnd Hnew]. unfold level_candidates. case_bool_decide as Eps.
  { exists []. split; [done|]. apply no_candidates. by rewrite Eps. }
  change (0 =? 0) with true. cbv iota. destruct (run_files_with_key h t us_of ps key Hst) as (tmp & -> & Hsub & Hin).
  rewrite obind_done. eexists. split; [done|]. unfold sort_newest.
  pose proof (merge_sort_Permutation newer_or_same tmp) as Hperm.
  assert (∀ p f, (p, f) ∈ merge_sort newer_or_same tmp ↔ p ∈ ps ∧ h !! p = Some f ∧ in_range f key) as Hin'.
  { intros p f. by rewrite Hperm. }
  split_and!.
  - intros p (x & -> & Hx)%list_elem_of_fmap. destruct x as [p f]. by apply Hin' in Hx as (Hp & _).
  - rewrite length_fmap, Hperm, <-(length_fmap fst tmp). by apply sublist_length.
  - intros q w Hq Hw Hsw. destruct (proj1 (Forall_forall _ _) Hst q Hq) as (f & Eh & Hdf & _).
    exists q, w. split_and!; [|done..]. apply list_elem_of_fmap. exists (q, f). split; [done|]. apply Hin'. split_and!; [done..|].
    destruct (describes_users f _ w Hdf Hw) as [H1 H2]. destruct Hsw as [Ew _]. split.
    + rewrite <-compare_nlt_ge. eapply compare_trans; [exact H1|]. lia.
    + eapply compare_trans; [|exact H2]. apply compare_nlt_ge. lia.
  - apply sorted_of_lookup. intros i j p q Ep Eq Hij. apply list_lookup_fmap_Some in Ep as ([p' f] & -> & Ep).
    apply list_lookup_fmap_Some in Eq as ([q' g] & -> & Eq). cbn [fst].
    pose proof (list_elem_of_lookup_2 _ _ _ Ep) as (Hp & Eh & _)%Hin'. pose proof (list_elem_of_lookup_2 _ _ _ Eq) as (Hq & Eg & _)%Hin'.
    apply (Hnew p' q' f g); [done|done| |done|done|].
    + intros ->. assert (NoDup (merge_sort newer_or_same tmp).*1) as Hnd'.
      { assert ((merge_sort newer_or_same tmp).*1 ≡ₚ tmp.*1) as -> by (by apply fmap_Permutation). by eapply sublist_NoDup. }
      assert (i = j); [|lia]. eapply (NoDup_lookup _ _ _ q' Hnd'); by rewrite list_lookup_fmap, ?Ep, ?Eq.
    + apply (sorted_lookup newer_or_same _ i j _ _ (StronglySorted_merge_sort _ _) Ep Eq Hij).
Qed.

(** ** The search *)

Definition keeps (t t' : T) : Prop := ∀ n z us, holds t n z us → holds t' n z us.
Lemma keeps_refl t : keeps t t.
Proof. by intros n z us. Qed.
Lemma keeps_trans t1 t2 t3 : keeps t1 t2 → keeps t2 t3 → keeps t1 t3.
Proof. intros H1 H2 n z us H. by apply H2, H1. Qed.
Lemma stored_keeps h t t' us_of p : keeps t t' → stored h t us_of p → stored h t' us_of p.
Proof. intros Hk (f & E & Hd & Hh). exists f. split_and!; [done|done|by apply Hk]. Qed.

(** The variables of [Get] when some files, with their levels, have been read. *)
Definition stats_of (read : list (Z * Z)) : GetStats :=
  match read with f :: _ :: _ => MkGetStats (Some f.2) f.1 | _ => MkGetStats None (-1) end.
Definition vars_of (read : list (Z * Z)) (value : list Z) : GetVars :=
  MkGetVars (stats_of read) (snd <$> last read) (default (-1) (fst <$> last read)) value.

Lemma charge_vars read value x : charge (vars_of read value) = stats_of (read ++ [x]).
Proof.
  destruct read as [|f1 [|f2 read]]; [done|done|]. unfold charge, vars_of.
  cbn [g_last_file_read g_stats stats_of seek_file app]. by destruct (snd <$> _).
Qed.

(** What ends the search, and the value then. *)
Definition status_of (o : option update) : option get_status :=
  u ← o; Some (if up_type u =? kTypeValue then GetOk else GetNotFoundStatus).
Definition value_of (o : option update) (value : list Z) : list Z := default value (read_of o).

Lemma SaveValue_ientry u key value :
  update_ok u →
  SaveValue (MkSaver kNotFound key value) (ientry u).1 (ientry u).2 =
    if decide (compare_ (up_key u) key = 0)
    then MkSaver (if up_type u =? kTypeValue then kFound else kDeleted) key (value_of (Some u) value)
    else MkSaver kNotFound key value.
Proof.
  intros Hu. destruct (parse_ientry u Hu) as (E & _). unfold SaveValue. rewrite E. cbn [user_key type_ sv_user_key sv_value].
  unfold value_of, read_of. cbn [mbind option_bind].
  destruct (Z.eqb_spec (compare_ (up_key u) key) 0); [rewrite decide_True by done|by rewrite decide_False].
  by destruct (up_type u =? kTypeValue).
Qed.

Section search.
Variables (h : file_heap) (us_of : Z → list update) (ro : ReadOptions) (k : LookupKey) (key : list Z) (s : Z).
Hypothesis Hkey : key_ok key.
Hypothesis Hs : 0 ≤ s ≤ kMaxSequenceNumber.
Hypothesis Hku : lk_user_key k = key.
Hypothesis Hki : internal_key k = lookup_ikey key s.

Lemma run_get_in_file t n level p read value :
  stored h t us_of p → room t (S n) →
  ∃ o t', newest (us_of p) key s o ∧ keeps t t' ∧ room t' n ∧
    get_in_file h ro k level p (vars_of read value) t =
      Done ((vars_of (read ++ [(level, p)]) (value_of o value), status_of o), t').
Proof.
  intros (f & Eh & Hdf & Hh) Hroom. pose proof Hdf as (Hsort & Hok & _).
  destruct (tc_Get_law t n ro _ _ _ key s Hh Hroom Hkey Hs) as (saved & t' & E & Hkeep & Hleft & Hsaved & Hfound).
  set (place := lower_bound _ _) in *. pose proof (newest_sorted (us_of p) key s Hsort Hok Hs) as Hnew. fold place in Hnew.
  eexists _, t'. split; [exact Hnew|]. split; [exact Hkeep|]. split; [exact Hleft|].
  unfold get_in_file. rewrite Eh, Hki, Hku. cbn [lift_option]. erewrite bind_done by reflexivity. rewrite (bind_done _ _ _ _ _ E).
  rewrite (charge_vars read value (level, p)). unfold vars_of. rewrite last_snoc. cbn [fmap option_fmap option_map fst snd default from_option id].
  destruct (us_of p !! place) as [u|] eqn:Eu; cbn [mbind option_bind].
  - assert (update_ok u) as Hu by (by eapply Forall_lookup_1). case_decide as Ek.
    + rewrite (Hfound u eq_refl Ek), (surjective_pairing (ientry u)), SaveValue_ientry, decide_True by done. unfold status_of. cbn.
      by destruct (up_type u =? kTypeValue).
    + destruct Hsaved as [->| ->]; [done|]. cbn [fmap option_fmap option_map].
      rewrite (surjective_pairing (ientry u)), SaveValue_ientry, decide_False by done. done.
  - by destruct Hsaved as [->| ->].
Qed.

Lemma run_get_in_files m cs : ∀ t level read value,
  Forall (stored h t us_of) cs → StronglySorted (not_older us_of) cs → room t (length cs + m) →
  ∃ o t' n, newest (updates_of us_of cs) key s o ∧ keeps t t' ∧ room t' m ∧
    get_in_files h ro k level cs (vars_of read value) t =
      Done ((vars_of (read ++ (pair level <$> take n cs)) (value_of o value), status_of o), t').
Proof.
  induction cs as [|p cs IH]; intros t level read value Hst Hord Hroom.
  { exists None, t, O. split_and!; [apply newest_nil|apply keeps_refl|exact Hroom|]. by rewrite app_nil_r. }
  apply Forall_cons in Hst as [Hp Hst]. apply StronglySorted_cons in Hord as [Hpc Hord]. cbn [get_in_files]. change (updates_of us_of (p :: cs)) with (us_of p ++ updates_of us_of cs).
  destruct (run_get_in_file t (length cs + m) level p read value Hp Hroom) as (o & t1 & Ho & Hk1 & Hr1 & E1). rewrite (bind_done _ _ _ _ _ E1).
  destruct o as [u|]; cbn [status_of mbind option_bind].
  - exists (Some u), t1, 1%nat. split_and!; [|done|apply (room_le _ _ _ Hr1); lia|by destruct cs]. apply newest_app_old; [done|].
    intros w (q & Hq & Hw)%elem_of_updates Hsw.
    rewrite Forall_forall in Hpc. destruct Ho as (Hu & Hsu & _). apply (Hpc q Hq u w Hu Hw). by eapply sees_same.
  - destruct (IH t1 level (read ++ [(level, p)]) value) as (o & t2 & n & Ho2 & Hk2 & Hr2 & E);
      [eapply Forall_impl; [exact Hst|]; intros q; by apply stored_keeps|done|done|].
    exists o, t2, (S n). split_and!; [by apply newest_app_none|by eapply keeps_trans|done|].
    cbn [take fmap list_fmap]. rewrite <-app_assoc in E. exact E.
Qed.

(** A level whose files have their tables. *)
Definition level_ok t (level : Z) ps : Prop :=
  Forall (stored h t us_of) ps ∧
  if decide (level = 0) then numbered_newest h us_of ps
  else ∃ fs, Forall2 (λ p f, h !! p = Some f) ps fs ∧ disjoint fs ∧ Z.of_nat (length fs) < 2 ^ 31.

Lemma level_ok_keeps t t' level ps : keeps t t' → level_ok t level ps → level_ok t' level ps.
Proof.
  intros Hk [Hst Hps]. split; [|done]. eapply Forall_impl; [exact Hst|]. intros p. by apply stored_keeps.
Qed.

Lemma run_candidates t level ps :
  level_ok t level ps →
  ∃ cs, level_candidates h level ps (lookup_ikey key s) key = Done cs ∧ candidates_of us_of ps key s cs.
Proof.
  intros [Hst Hps]. case_decide as E; [rewrite E; by eapply run_level_zero|].
  destruct Hps as (fs & Hfs & Hd & Hl). by eapply run_level_above.
Qed.

(** The levels from one on: each is kept in order, and no later one has newer updates. *)
Definition levels_from t (level : Z) (levels : list (list Z)) : Prop :=
  (∀ i ps, levels !! i = Some ps → level_ok t (level + Z.of_nat i) ps) ∧
  StronglySorted (λ ps qs, ∀ p q, p ∈ ps → q ∈ qs → not_older us_of p q) levels.

Lemma levels_from_cons t level ps levels :
  levels_from t level (ps :: levels) →
  level_ok t level ps ∧ levels_from t (level + 1) levels ∧
    ∀ p q, p ∈ ps → q ∈ concat levels → not_older us_of p q.
Proof.
  intros [Hok Hord]. apply StronglySorted_cons in Hord as [Hps Hord]. split_and!.
  - specialize (Hok O ps eq_refl). by rewrite Z.add_0_r in Hok.
  - split; [|done]. intros i qs E. specialize (Hok (S i) qs E). by replace (level + Z.of_nat (S i)) with (level + 1 + Z.of_nat i) in Hok by lia.
  - intros p q Hp (qs & Hq & Hqs)%list_elem_of_concat. rewrite Forall_forall in Hps. by apply (Hps qs).
Qed.
Lemma levels_from_keeps t t' level levels : keeps t t' → levels_from t level levels → levels_from t' level levels.
Proof. intros Hk [Hok Hord]. split; [|done]. intros i ps E. eapply level_ok_keeps; [exact Hk|by apply Hok]. Qed.

Lemma newest_candidates ps cs o :
  candidates_of us_of ps key s cs → newest (updates_of us_of cs) key s o → newest (updates_of us_of ps) key s o.
Proof.
  intros (Hsub & _ & Hcov & _). apply newest_part.
  - intros w (p & Hp & Hw)%elem_of_updates. apply elem_of_updates. exists p.
    split; [by apply Hsub|done].
  - intros w (q & Hq & Hw)%elem_of_updates Hsw.
    destruct (Hcov q w Hq Hw Hsw) as (p & v & Hp & Hv & Hsv & Hle). exists v. split_and!; [|done..].
    apply elem_of_updates. by exists p.
Qed.

Lemma elem_of_take_sub (l : list Z) n x : x ∈ take n l → x ∈ l.
Proof. intros Hx. rewrite <-(take_drop n l). apply elem_of_app. by left. Qed.
Lemma run_get_in_levels m levels : ∀ t level read value,
  levels_from t level levels → room t (length (concat levels) + m) →
  ∃ o t' more, newest (updates_of us_of (concat levels)) key s o ∧ keeps t t' ∧ room t' m ∧ Forall (λ x, x.2 ∈ concat levels) more ∧
    get_in_levels h ro k level levels (vars_of read value) t =
      Done ((vars_of (read ++ more) (value_of o value), default GetNotFoundStatus (status_of o)), t').
Proof.
  induction levels as [|ps levels IH]; intros t level read value Hlev Hroom.
  { exists None, t, []. rewrite app_nil_r. split_and!; [apply newest_nil|apply keeps_refl|exact Hroom|constructor|done]. }
  apply levels_from_cons in Hlev as (Hps & Hlev & Hold). cbn [concat get_in_levels]. rewrite updates_of_app.
  destruct (run_candidates t level ps Hps) as (cs & Ecs & Hcs). rewrite Hki, Hku, Ecs. cbn [lift_outcome].
  assert (Forall (stored h t us_of) cs) as Hst.
  { apply Forall_forall. intros p Hp. destruct Hps as [Hst _]. rewrite Forall_forall in Hst. by apply Hst, Hcs. }
  assert (length cs ≤ length ps)%nat as Hlen by apply Hcs. cbn [concat] in Hroom. rewrite length_app in Hroom.
  destruct (run_get_in_files (length (concat levels) + m) cs t level read value Hst ltac:(apply Hcs)) as (o & t1 & n & Ho & Hk1 & Hr1 & E);
    [apply (room_le _ _ _ Hroom); lia|].
  apply (newest_candidates ps) in Ho; [|done].
  assert (Forall (λ x : Z * Z, x.2 ∈ ps ++ concat levels) (pair level <$> take n cs)) as Hmore.
  { apply Forall_forall. intros x (p & -> & Hp)%list_elem_of_fmap. apply elem_of_app. left. apply Hcs. by eapply elem_of_take_sub. }
  erewrite bind_done by reflexivity. rewrite (bind_done _ _ _ _ _ E). destruct o as [u|]; cbn [status_of mbind option_bind].
  - eexists (Some u), t1, _. split_and!; [|done|apply (room_le _ _ _ Hr1); lia|exact Hmore|reflexivity]. apply newest_app_old; [done|].
    intros w (q & Hq & Hw)%elem_of_updates Hsw. destruct Ho as (Hu & Hsu & _).
    apply elem_of_updates in Hu as (p & Hp & Hu).
    apply (Hold p q Hp Hq u w Hu Hw). by eapply sees_same.
  - destruct (IH t1 (level + 1) (read ++ (pair level <$> take n cs)) value) as (o & t2 & more & Ho2 & Hk2 & Hr2 & Hm & E2);
      [by eapply levels_from_keeps|done|].
    exists o, t2, ((pair level <$> take n cs) ++ more). rewrite (app_assoc read). split_and!; [by apply newest_app_none|by eapply keeps_trans|done| |exact E2].
    apply Forall_app. split; [exact Hmore|]. eapply Forall_impl; [exact Hm|]. intros x Hx. apply elem_of_app. by right.
Qed.
End search.

(** A version: the tables of its files have their updates; level 0 is numbered from the
    oldest on, the other levels are in order, and the updates of a key never get newer
    with the level. *)
Definition version_holds h t us_of (v : Version) : Prop := levels_from h us_of t 0 (v_files_ v).
Definition version_updates us_of (v : Version) : list update := updates_of us_of (concat (v_files_ v)).

(** [Version::Get], with the files that it read. *)
Lemma run_version_Get m h t us_of v ro key s lk value :
  version_holds h t us_of v → room t (length (concat (v_files_ v)) + m) → key_ok key → 0 ≤ s ≤ kMaxSequenceNumber → new_LookupKey key s = Some lk →
  ∃ o t' read, newest (version_updates us_of v) key s o ∧ keeps t t' ∧ room t' m ∧ Forall (λ x, x.2 ∈ concat (v_files_ v)) read ∧
    version_Get h v ro lk value t = Done ((default GetNotFoundStatus (status_of o), value_of o value, stats_of read), t').
Proof.
  intros Hv Hroom Hk Hs Elk. destruct (lookup_entry_key key s Hk Hs) as (lk' & Elk' & _ & Hku & Hki). assert (lk' = lk) as -> by congruence.
  destruct (run_get_in_levels h us_of ro lk key s Hk Hs Hku Hki m (v_files_ v) t 0 [] value Hv Hroom) as (o & t' & read & Ho & Hkeep & Hleft & Hr & E).
  exists o, t', read. split_and!; [done..|]. unfold version_Get. by rewrite (bind_done _ _ _ _ _ E).
Qed.

(** C9: [Version::Get] reads the newest: it ends with the value of the newest update of
    the key that the sequence number sees, of all the updates in the tables of the
    version, and says that there is none when it is a deletion or there is no update; the
    string of the caller is not written then. The cache of tables has room for a lookup in
    each file. *)
Theorem version_Get_newest h t us_of v ro key s lk value :
  version_holds h t us_of v → room t (length (concat (v_files_ v))) → key_ok key → 0 ≤ s ≤ kMaxSequenceNumber → new_LookupKey key s = Some lk →
  ∃ r stats t', reads (version_updates us_of v) key s r ∧
    version_Get h v ro lk value t =
      Done ((match r with Some _ => GetOk | None => GetNotFoundStatus end, default value r, stats), t').
Proof.
  intros Hv Hroom Hk Hs Elk. destruct (run_version_Get 0 h t us_of v ro key s lk value Hv) as (o & t' & read & Ho & _ & _ & _ & E); [by rewrite Nat.add_0_r|done..|].
  exists (read_of o), (stats_of read), t'. split; [by exists o|]. rewrite E. unfold value_of, read_of, status_of.
  destruct o as [u|]; [|done]. cbn [mbind option_bind]. by destruct (up_type u =? kTypeValue).
Qed.
End version_get_spec.

(** ** Witnesses *)

(** A cache whose tables are lists of updates. *)
Abbreviation tables := (list (Z * Z * list update)).
#[local] Instance list_cache : TableCache tables := {|
  tc_Get ro num size k := λ t,
    Done ((None,
      '(_, us) ← list_find (λ x, x.1 = (num, size)) t;
      (ientry <$> us.2) !! lower_bound (UC := internal_comparator) (ientry <$> us.2) k), t)
|}.
#[local] Instance list_cache_laws : TableCacheLaws tables.
Proof.
  refine {| holds t num size us := ∃ i, list_find (λ x : Z * Z * list update, x.1 = (num, size)) t = Some (i, (num, size, us));
    room _ _ := True |}; [done|].
  intros t n ro num size us key s [i E] _ _ _. eexists _, t. cbn. rewrite E. cbn. split_and!; [done|done|done|right|].
  - by rewrite list_lookup_fmap.
  - intros u Eu _. unfold lower_bound in Eu. by rewrite list_lookup_fmap, Eu.
Defined.

(** Key 97 has a new value in level 0, key 98 was deleted there; their old values are in
    level 1. *)
Definition new_updates : list update := [MkUpdate 9 kTypeValue [97] [1]; MkUpdate 8 kTypeDeletion [98] []].
Definition old_updates : list update := [MkUpdate 3 kTypeValue [97] [2]; MkUpdate 4 kTypeValue [98] [3]; MkUpdate 5 kTypeValue [99] [4]].
Definition two_files : file_heap :=
  {[ 1 := new_FileMetaData 12 100 ([97] ++ EncodeFixed64 2305) ([98] ++ EncodeFixed64 2048);
     2 := new_FileMetaData 7 200 ([97] ++ EncodeFixed64 769) ([99] ++ EncodeFixed64 1281) ]}.
Definition two_levels : Version := MkVersion 1 [[1]; [2]; []; []; []; []; []] None (-1).
Definition two_tables : tables := [(12, 100, new_updates); (7, 200, old_updates)].
Definition two_updates (p : Z) : list update := if p =? 1 then new_updates else old_updates.

Lemma update_ok_small s ty c v : 0 ≤ s ≤ 100 → 0 ≤ ty ≤ 1 → is_byte c → Forall is_byte v → Z.of_nat (length v) < 2 ^ 32 →
  update_ok (MkUpdate s ty [c] v).
Proof.
  intros Hs Ht Hc Hv Hl. change (2 ^ 32) with 4294967296 in Hl.
  split; [cbn [up_seq]; change kMaxSequenceNumber with (2 ^ 56 - 1); lia|]. split; [done|]. split; [|by split].
  split; [by apply Forall_singleton|by vm_compute].
Qed.

Lemma two_updates_ok us : us = new_updates ∨ us = old_updates → Forall update_ok us ∧ updates_sorted us.
Proof.
  intros [-> | ->]; (split; [repeat (apply Forall_cons_2 || apply Forall_nil_2); apply update_ok_small;
    first [by vm_compute | by repeat constructor | unfold is_byte; lia | lia]|repeat constructor; by vm_compute]).
Qed.

Lemma two_version_holds : version_holds two_files two_tables two_updates two_levels.
Proof.
  pose proof two_updates_ok as Hus.
  split.
  - intros i ps E. destruct i as [|[|[|[|[|[|[|i]]]]]]]; [injection E as <-..|done].
    + split.
      * apply Forall_singleton. eexists. split; [reflexivity|]. destruct (Hus new_updates) as [H1 H2]; [by left|].
        split; [split_and!; [done|done|by eexists|by eexists]|by exists O].
      * cbn. split; [repeat constructor; by intros ?%not_elem_of_nil|].
        intros p q f g ->%list_elem_of_singleton ->%list_elem_of_singleton. done.
    + split.
      * apply Forall_singleton. eexists. split; [reflexivity|]. destruct (Hus old_updates) as [H1 H2]; [by right|].
        split; [split_and!; [done|done|by eexists|by eexists]|by exists 1%nat].
      * cbn. eexists [_]. split_and!; [by repeat constructor|by repeat constructor|done].
    + split; [done|]. exists []. split_and!; [done|constructor|done].
    + split; [done|]. exists []. split_and!; [done|constructor|done].
    + split; [done|]. exists []. split_and!; [done|constructor|done].
    + split; [done|]. exists []. split_and!; [done|constructor|done].
    + split; [done|]. exists []. split_and!; [done|constructor|done].
  - repeat constructor; try (by intros p q _ ?%not_elem_of_nil).
    intros p q ->%list_elem_of_singleton ->%list_elem_of_singleton u w Hu Hw.
    repeat (apply elem_of_cons in Hu as [->|Hu]); try by apply not_elem_of_nil in Hu.
    all: repeat (apply elem_of_cons in Hw as [->|Hw]); try (by apply not_elem_of_nil in Hw); by vm_compute.
Qed.

Lemma version_Get_newest_witness :
  ∃ lk r stats t', new_LookupKey [98] 6 = Some lk ∧ reads (version_updates two_updates two_levels) [98] 6 r ∧
    version_Get two_files two_levels (MkReadOptions false true) lk [] two_tables =
      Done ((match r with Some _ => GetOk | None => GetNotFoundStatus end, default [] r, stats), t') ∧ r = Some [3].
Proof.
  destruct (new_LookupKey [98] 6) as [lk|] eqn:E; [|by vm_compute in E].
  destruct (version_Get_newest two_files two_tables two_updates two_levels (MkReadOptions false true) [98] 6 lk []) as (r & stats & t' & Hr & Er);
    [exact two_version_holds|done|split; [by repeat constructor|by vm_compute]|by vm_compute|done|].
  exists lk, r, stats, t'. split_and!; [done|done|done|]. vm_compute in E. injection E as <-. vm_compute in Er.
  destruct r as [r|]; [|done]. by injection Er as -> _ _.
Defined.
