(* ===== verification/LdbDBGet.v ===== *)
(** * leveldb: reads of the database (db/db_impl.cc, Get)

    A read looks in the memtable, in the one that is being compacted, and in the current
    version; together they give the newest update of all. *)
From stdpp Require Import sorting.
From S2P Require Import Prelude LdbCoding SkipList SkipListSpec LdbFormat LdbIterator LdbMemTable LdbMemTableSpec LdbDBIterSpec LdbTable LdbReads LdbVersionEdit LdbVersion LdbVersionSpec LdbVersionGet LdbVersionGetSpec.

(** [Version::Ref], and [Version::Unref], which says whether the version is deleted. *)
Definition Version_Ref : M Version unit :=
  v ← get_state; put_state (MkVersion (v_refs_ v + 1) (v_files_ v) (v_file_to_compact_ v) (v_file_to_compact_level_ v)).
Definition Version_Unref : M Version bool :=
  v ← get_state;
  assert_ (1 <=? v_refs_ v);;
  put_state (MkVersion (v_refs_ v - 1) (v_files_ v) (v_file_to_compact_ v) (v_file_to_compact_level_ v));;
  mret (v_refs_ v - 1 =? 0).

Section get.
Context `{UC : Comparator (list Z)} {T : Type} `{TC : TableCache T}.

(** What a read uses of the database; [rd_last] is [versions_->LastSequence()]. *)
Record Reads := MkReads {
  rd_last : Z;
  rd_mem : MemTable;
  rd_imm : option MemTable;
  rd_heap : file_heap;
  rd_current : Version;
  rd_cache : T;
}.
Definition on_mem {A} (f : M MemTable A) : M Reads A := λ d,
  match f (rd_mem d) with
  | Done (a, m) => Done (a, MkReads (rd_last d) m (rd_imm d) (rd_heap d) (rd_current d) (rd_cache d))
  | Undef => Undef
  | NoFuel => NoFuel
  end.
(** Nothing is done when there is no memtable that is being compacted. *)
Definition on_imm {A} (x : A) (f : M MemTable A) : M Reads A := λ d,
  match rd_imm d with
  | None => Done (x, d)
  | Some imm =>
      match f imm with
      | Done (a, m) => Done (a, MkReads (rd_last d) (rd_mem d) (Some m) (rd_heap d) (rd_current d) (rd_cache d))
      | Undef => Undef
      | NoFuel => NoFuel
      end
  end.
Definition on_version {A} (f : M (file_heap * Version) A) : M Reads A := λ d,
  match f (rd_heap d, rd_current d) with
  | Done (a, (h, v)) => Done (a, MkReads (rd_last d) (rd_mem d) (rd_imm d) h v (rd_cache d))
  | Undef => Undef
  | NoFuel => NoFuel
  end.
Definition on_its_version {A} (f : M Version A) : M Reads A :=
  on_version (λ '(h, v), match f v with Done (a, v) => Done (a, (h, v)) | Undef => Undef | NoFuel => NoFuel end).
Definition on_cache {A} (f : M T A) : M Reads A := λ d,
  match f (rd_cache d) with
  | Done (a, t) => Done (a, MkReads (rd_last d) (rd_mem d) (rd_imm d) (rd_heap d) (rd_current d) t)
  | Undef => Undef
  | NoFuel => NoFuel
  end.

(** The status and the string of the caller, and whether [MaybeScheduleCompaction] is
    called. The memtables and the version are used without the mutex; their counts of
    references keep them. *)
Definition DB_Get (snapshot : option Z) (ro : ReadOptions) (key value : list Z) : M Reads (get_status * list Z * bool) :=
  d ← get_state;
  let snapshot := default (rd_last d) snapshot in
  on_mem Ref;;
  on_imm tt Ref;;
  on_its_version Version_Ref;;
  lkey ← lift_option (new_LookupKey key snapshot);
  r ← on_mem (memtable_Get lkey);
  r ← (match r with GetFalse => on_imm GetFalse (memtable_Get lkey) | _ => mret r end);
  '(s, value, stats) ←
    (match r with
     | GetValue v => mret (GetOk, v, None)
     | GetNotFound => mret (GetNotFoundStatus, value, None)
     | GetFalse =>
         d ← get_state;
         '(s, value, stats) ← on_cache (version_Get (rd_heap d) (rd_current d) ro lkey value);
         mret (s, value, Some stats)
     end);
  compact ← (match stats with Some stats => on_version (UpdateStats stats) | None => mret false end);
  on_mem Unref;;
  on_imm false Unref;;
  on_its_version Version_Unref;;
  mret (s, value, compact).
End get.
Arguments Reads : clear implicits.

(** ** Specification *)

Abbreviation mem_holds := LdbMemTableSpec.holds.

Section spec.
Context `{UC : Comparator (list Z)} `{CL : !ComparatorLaws (list Z)} {T : Type} `{TC : TableCache T} `{TL : !TableCacheLaws T}.
Implicit Types (d : Reads T) (us : list update).

(** The updates of the database: those of the memtable, of the one that is being
    compacted, and of the version, where no later part has newer ones. *)
Record reads_ok d us_mem us_imm (us_of : Z → list update) : Prop := {
  ro_mem : mem_holds (rd_mem d) us_mem;
  ro_imm : match rd_imm d with Some m => mem_holds m us_imm | None => us_imm = [] end;
  ro_version : version_holds (rd_heap d) (rd_cache d) us_of (rd_current d);
  ro_room : room (rd_cache d) (length (concat (v_files_ (rd_current d))));
  ro_seeks p f : p ∈ concat (v_files_ (rd_current d)) → rd_heap d !! p = Some f → - 2 ^ 31 < f_allowed_seeks f;
  ro_refs : 1 ≤ refs_ (rd_mem d) ∧ (∀ m, rd_imm d = Some m → 1 ≤ refs_ m) ∧ 1 ≤ v_refs_ (rd_current d);
  ro_newer u w : u ∈ us_mem → w ∈ us_imm ++ version_updates us_of (rd_current d) → compare_ (up_key u) (up_key w) = 0 → up_tag w ≤ up_tag u;
  ro_newer_imm u w : u ∈ us_imm → w ∈ version_updates us_of (rd_current d) → compare_ (up_key u) (up_key w) = 0 → up_tag w ≤ up_tag u;
}.
Definition all_updates d us_mem us_imm us_of : list update := us_mem ++ us_imm ++ version_updates us_of (rd_current d).

Lemma holds_refs n m us : mem_holds m us → mem_holds (MkMemTable n (table_ m)) us.
Proof. done. Qed.
Lemma eta_refs m : MkMemTable (refs_ m + 1 - 1) (table_ m) = m.
Proof. destruct m. cbn. f_equal. lia. Qed.

(** What a memtable gives of the newest update of the key. *)
Lemma get_spec_newest us key s : StronglySorted (λ a b, up_seq a < up_seq b) us → Forall update_ok us →
  ∃ o, newest us key s o ∧ get_spec us key s = match o with None => GetFalse | Some _ => match read_of o with Some v => GetValue v | None => GetNotFound end end.
Proof.
  intros Hs Hok. exists (version_at us key s). split; [by apply version_at_newest|]. unfold get_spec, read_of. destruct (version_at us key s) as [u|]; [|done]. cbn.
  by destruct (up_type u =? kTypeValue).
Qed.

Lemma version_stored h t us_of v p : version_holds h t us_of v → p ∈ concat (v_files_ v) → is_Some (h !! p).
Proof.
  intros [Hv _] (ps & Hp & [i Ei]%list_elem_of_lookup)%list_elem_of_concat. destruct (Hv i ps Ei) as [Hst _].
  rewrite Forall_forall in Hst. destruct (Hst p Hp) as (f & Ef & _). by exists f.
Qed.

(** ** What counts the seeks keeps the version *)

Definition with_seeks n (f : FileMetaData) : FileMetaData :=
  MkFile (f_refs f) n (f_number f) (f_file_size f) (f_smallest f) (f_largest f).
Lemma with_seeks_same f : with_seeks (f_allowed_seeks f) f = f.
Proof. by destruct f. Qed.

Section seeks.
Variables (h h' : file_heap).
Hypothesis Hh : ∀ p f, h !! p = Some f → ∃ n, h' !! p = Some (with_seeks n f).

Lemma seeks_back p f f' : h !! p = Some f → h' !! p = Some f' → ∃ n, f' = with_seeks n f.
Proof. intros (n & E)%Hh E'. exists n. congruence. Qed.

Lemma stored_seeks t us_of p : stored h t us_of p → stored h' t us_of p.
Proof. intros (f & (n & E)%Hh & Hd & Ht). by exists (with_seeks n f). Qed.

Lemma disjoint_seeks fs fs' : Forall2 (λ f f', ∃ n, f' = with_seeks n f) fs fs' → disjoint fs → disjoint fs'.
Proof.
  induction 1 as [|f ? fs fs' [n ->] Hfs IH]; [done|]. intros [Hf Hd]%StronglySorted_cons. apply StronglySorted_cons.
  split; [|by apply IH]. clear -Hfs Hf. induction Hfs as [|g ? fs fs' [m ->] _ IH]; [done|].
  apply Forall_cons in Hf as [Hg Hf]. apply Forall_cons. split; [exact Hg|by apply IH].
Qed.
Lemma files_seeks ps fs : Forall2 (λ p f, h !! p = Some f) ps fs →
  ∃ fs', Forall2 (λ p f, h' !! p = Some f) ps fs' ∧ Forall2 (λ f f', ∃ n, f' = with_seeks n f) fs fs'.
Proof.
  induction 1 as [|p f ps fs (n & E)%Hh _ (fs' & IH & IHn)]; [by exists []|].
  exists (with_seeks n f :: fs'). split; constructor; [done..|by exists n|done].
Qed.

Lemma level_ok_seeks t us_of level ps : level_ok h us_of t level ps → level_ok h' us_of t level ps.
Proof.
  intros [Hst Hps]. split; [eapply Forall_impl; [exact Hst|]; intros p; by apply stored_seeks|]. case_decide.
  - destruct Hps as [Hnd Hnew]. split; [done|]. intros p q f' g' Hp Hq Hpq Ef' Eg'. rewrite Forall_forall in Hst.
    destruct (Hst p Hp) as (f & Ef & _), (Hst q Hq) as (g & Eg & _).
    destruct (seeks_back p f f' Ef Ef') as [n ->], (seeks_back q g g' Eg Eg') as [m ->]. by apply (Hnew p q f g).
  - destruct Hps as (fs & Hfs & Hd & Hl). destruct (files_seeks ps fs Hfs) as (fs' & Hfs' & Hn).
    exists fs'. split; [done|]. split; [by eapply disjoint_seeks|]. by rewrite <-(Forall2_length _ _ _ Hn).
Qed.
Lemma version_holds_seeks t us_of v v' : v_files_ v' = v_files_ v → version_holds h t us_of v → version_holds h' t us_of v'.
Proof. unfold version_holds. intros -> [Hok Hord]. split; [|done]. intros i ps E. by apply level_ok_seeks, Hok. Qed.
End seeks.

Lemma version_UpdateStats h v read :
  (∀ x, x ∈ read → ∃ f, h !! x.2 = Some f ∧ - 2 ^ 31 < f_allowed_seeks f) →
  ∃ b h' v', UpdateStats (stats_of read) (h, v) = Done (b, (h', v')) ∧ v_refs_ v' = v_refs_ v ∧ v_files_ v' = v_files_ v ∧
    ∀ p f, h !! p = Some f → ∃ n, h' !! p = Some (with_seeks n f).
Proof.
  intros Hr. assert (∀ p f, h !! p = Some f → ∃ n, h !! p = Some (with_seeks n f)) as Hsame.
  { intros p f E. exists (f_allowed_seeks f). by rewrite with_seeks_same. }
  unfold UpdateStats, stats_of. destruct read as [|[l p] [|y read]]; cbn [seek_file]; [by eexists _, _, _|by eexists _, _, _|].
  destruct (Hr (l, p) ltac:(left)) as (f & Ef & Hf). cbn in Ef. cbn [snd fst]. unfold deref. rewrite Ef. cbn. rewrite (proj2 (Z.ltb_lt _ _) Hf).
  assert (∀ q g, h !! q = Some g → ∃ n, <[p := with_seeks (f_allowed_seeks f - 1) f]> h !! q = Some (with_seeks n g)) as Hset.
  { intros q g Eg. destruct (decide (q = p)) as [->|]; [|by rewrite lookup_insert_ne; auto]. simplify_eq. rewrite lookup_insert_eq. by eexists. }
  destruct (_ && _); by eexists _, _, _.
Qed.

(** C8: a read of the database gives the value of the newest update of the key that the
    snapshot sees, of all the updates in the memtables and in the tables of the current
    version, and says that there is none when it is a deletion or there is no update.
    Every reference that it took is given back, and the version still holds its updates. *)
Theorem DB_Get_newest d us_mem us_imm us_of snapshot ro key value :
  reads_ok d us_mem us_imm us_of → key_ok key → 0 ≤ default (rd_last d) snapshot ≤ kMaxSequenceNumber →
  ∃ r compact d', reads (all_updates d us_mem us_imm us_of) key (default (rd_last d) snapshot) r ∧
    DB_Get snapshot ro key value d = Done (match r with Some _ => GetOk | None => GetNotFoundStatus end, default value r, compact, d') ∧
    rd_mem d' = rd_mem d ∧ rd_imm d' = rd_imm d ∧ v_refs_ (rd_current d') = v_refs_ (rd_current d) ∧ v_files_ (rd_current d') = v_files_ (rd_current d) ∧
    version_holds (rd_heap d') (rd_cache d') us_of (rd_current d').
Proof.
  intros [Hmem Himm Hver Hroom Hseek (Hr1 & Hr2 & Hr3) Hnew Hnewi] Hk. set (s := default _ _). intros Hs.
  destruct (lookup_entry_key key s Hk Hs) as (lk & Elk & _). set (v1 := MkVersion (v_refs_ (rd_current d) + 1) (v_files_ (rd_current d)) (v_file_to_compact_ (rd_current d)) (v_file_to_compact_level_ (rd_current d))).
  set (mem1 := MkMemTable (refs_ (rd_mem d) + 1) (table_ (rd_mem d))). set (imm1 := (λ m, MkMemTable (refs_ m + 1) (table_ m)) <$> rd_imm d).
  set (d1 := MkReads (rd_last d) mem1 imm1 (rd_heap d) v1 (rd_cache d)).
  assert (∀ (B : Type) (k : M (Reads T) B), (on_mem Ref;; on_imm tt Ref;; on_its_version Version_Ref;; k) d = k d1) as Estart.
  { intros B k. erewrite bind_done by reflexivity. unfold d1, imm1. unfold on_imm at 1. cbn [rd_imm]. destruct (rd_imm d) as [m|] eqn:Ei; by erewrite bind_done by (cbn; rewrite ?Ei; reflexivity). }
  pose proof Hmem as (_ & Hok1 & Hs1). destruct (get_spec_newest us_mem key s Hs1 Hok1) as (o1 & Ho1 & Eg1).
  assert (StronglySorted (λ a b, up_seq a < up_seq b) us_imm ∧ Forall update_ok us_imm) as [Hs2 Hok2].
  { destruct (rd_imm d); [by destruct Himm as (_ & ? & ?)|rewrite Himm; split; constructor]. }
  destruct (get_spec_newest us_imm key s Hs2 Hok2) as (o2 & Ho2 & Eg2).
  assert (on_mem (memtable_Get lk) d1 = Done (get_spec us_mem key s, d1)) as Em.
  { unfold on_mem. cbn [d1 rd_mem]. rewrite (run_Get mem1 us_mem key s lk (holds_refs _ _ _ Hmem) Hk Hs Elk). done. }
  assert (on_imm GetFalse (memtable_Get lk) d1 = Done (get_spec us_imm key s, d1)) as Ei.
  { unfold on_imm. cbn [d1 rd_imm]. unfold imm1. destruct (rd_imm d) as [m|] eqn:Eim; cbn; [|by rewrite Himm].
    rewrite (run_Get _ us_imm key s lk (holds_refs _ _ _ Himm) Hk Hs Elk). done. }
  destruct (run_version_Get 0 (rd_heap d) (rd_cache d) us_of v1 ro key s lk value Hver) as (o3 & t' & read & Ho3 & Hkeep & _ & Hread & Ev);
    [by rewrite Nat.add_0_r|done..|].
  assert (∀ (st : get_status) (val : list Z) stats t2, (stats = None ∨ stats = Some (stats_of read)) → keeps (rd_cache d) t2 →
    let d2 := MkReads (rd_last d) mem1 imm1 (rd_heap d) v1 t2 in
    ∃ compact d', (compact ← (match stats with Some stats => on_version (UpdateStats stats) | None => mret false end);
      on_mem Unref;; on_imm false Unref;; on_its_version Version_Unref;; mret (st, val, compact)) d2 = Done (st, val, compact, d') ∧
      rd_mem d' = rd_mem d ∧ rd_imm d' = rd_imm d ∧ v_refs_ (rd_current d') = v_refs_ (rd_current d) ∧ v_files_ (rd_current d') = v_files_ (rd_current d) ∧
      version_holds (rd_heap d') (rd_cache d') us_of (rd_current d')) as Hend.
  { intros st val stats t2 Hst Ht2 d2.
    assert (∃ b h' v', (match stats with Some stats => on_version (UpdateStats stats) | None => mret false end) d2 = Done (b, MkReads (rd_last d) mem1 imm1 h' v' t2) ∧
      v_refs_ v' = v_refs_ v1 ∧ v_files_ v' = v_files_ v1 ∧ ∀ p f, rd_heap d !! p = Some f → ∃ n, h' !! p = Some (with_seeks n f)) as (b & h' & v' & E1 & Er & Ef & Hh).
    { destruct Hst as [->| ->].
      { eexists _, _, _. split_and!; [done..|]. intros p f E. exists (f_allowed_seeks f). by rewrite with_seeks_same. } destruct (version_UpdateStats (rd_heap d) v1 read) as (b & h' & v' & E & H).
      - rewrite Forall_forall in Hread. intros x Hx%Hread. destruct (version_stored _ _ _ _ _ Hver Hx) as [f Ef]. exists f. split; [done|]. by apply (Hseek _ _ Hx).
      - exists b, h', v'. split; [|done]. unfold on_version. cbn [d2 rd_heap rd_current]. by rewrite E. }
    bind_with E1. exists b, (MkReads (rd_last d) (rd_mem d) (rd_imm d) h' (MkVersion (v_refs_ v' - 1) (v_files_ v') (v_file_to_compact_ v') (v_file_to_compact_level_ v')) t2).
    split; [|cbn; split_and!; [done|done|rewrite Er; cbn; lia|done|eapply (version_holds_seeks _ _ Hh), levels_from_keeps; [done|exact Ht2|exact Hver]]].
    assert (∀ m, 0 ≤ refs_ m → Unref (MkMemTable (refs_ m + 1) (table_ m)) = Done (refs_ m <=? 0, m)) as Eunref.
    { intros m Hm. unfold Unref. rewrite bind_get. erewrite bind_done by reflexivity. cbn [refs_ table_]. rewrite bind_assert by (apply Z.leb_le; lia).
      rewrite eta_refs. by replace (refs_ m + 1 - 1) with (refs_ m) by lia. }
    erewrite bind_done by (unfold on_mem; cbn [rd_mem]; unfold mem1; rewrite Eunref by lia; reflexivity). cbn [rd_last rd_imm rd_heap rd_current rd_cache].
    assert (∃ b2, on_imm false Unref (MkReads (rd_last d) (rd_mem d) imm1 h' v' t2) = Done (b2, MkReads (rd_last d) (rd_mem d) (rd_imm d) h' v' t2)) as [b2 Eimm].
    { unfold on_imm, imm1. cbn [rd_imm]. destruct (rd_imm d) as [m|]; cbn; [|by exists false]. rewrite (Eunref m) by (specialize (Hr2 m eq_refl); lia). by eexists. }
    bind_with Eimm.
    cbn [rd_last rd_mem rd_imm rd_heap rd_current rd_cache]. assert (1 ≤ v_refs_ v') as Hv1 by (rewrite Er; cbn; lia).
    erewrite bind_done by (unfold on_its_version, on_version; cbn [rd_heap rd_current]; unfold Version_Unref; rewrite bind_get, bind_assert by (by apply Z.leb_le); reflexivity).
    done. }
  unfold DB_Get. rewrite bind_get. cbv zeta. fold s. rewrite Estart, (bind_lift _ lk) by exact Elk. bind_with Em. rewrite Eg1.
  destruct o1 as [u1|].
  - exists (read_of (Some u1)). destruct (Hend (match read_of (Some u1) with Some _ => GetOk | None => GetNotFoundStatus end) (default value (read_of (Some u1))) None (rd_cache d)) as (compact & d' & E & H); [by left|apply keeps_refl|].
    exists compact, d'. split_and!; [|by destruct (read_of (Some u1)); exact E|apply H..].
    exists (Some u1). split; [|done]. apply newest_app_old; [done|]. intros w Hw Hsw. destruct Ho1 as (Hin & Hsu & _). apply (Hnew u1 w Hin Hw). by eapply sees_same.
  - bind_with Ei. rewrite Eg2. destruct o2 as [u2|].
    + exists (read_of (Some u2)). destruct (Hend (match read_of (Some u2) with Some _ => GetOk | None => GetNotFoundStatus end) (default value (read_of (Some u2))) None (rd_cache d)) as (compact & d' & E & H); [by left|apply keeps_refl|].
      exists compact, d'. split_and!; [|by destruct (read_of (Some u2)); exact E|apply H..].
      exists (Some u2). split; [|done]. apply newest_app_none; [done|]. apply newest_app_old; [done|]. intros w Hw Hsw.
      destruct Ho2 as (Hin & Hsu & _). apply (Hnewi u2 w Hin Hw). by eapply sees_same.
    + exists (read_of o3). destruct (Hend (default GetNotFoundStatus (status_of o3)) (value_of o3 value) (Some (stats_of read)) t') as (compact & d' & E & H); [by right|done|].
      exists compact, d'. split_and!; [exists o3; split; [|done]; apply newest_app_none; [done|]; by apply newest_app_none| |apply H..].
      assert (on_cache (version_Get (rd_heap d1) (rd_current d1) ro lk value) d1 = Done (default GetNotFoundStatus (status_of o3), value_of o3 value, stats_of read, MkReads (rd_last d) mem1 imm1 (rd_heap d) v1 t')) as Ec.
      { unfold on_cache. cbn [d1 rd_heap rd_current rd_cache]. by rewrite Ev. }
      rewrite bind_assoc, bind_get. cbv beta. rewrite bind_assoc. bind_with Ec. erewrite bind_done by reflexivity.
      etransitivity; [exact E|]. unfold value_of, status_of, read_of. destruct o3 as [u3|]; [|done]. cbn. by destruct (up_type u3 =? kTypeValue).
Qed.
End spec.

(** ** Witness *)

#[local] Existing Instances list_cache list_cache_laws.

(** Key 99 was written after the tables were, and key 97 was deleted. *)
Definition mem_updates : list update := [MkUpdate 12 kTypeValue [99] [7]].
Definition imm_updates : list update := [MkUpdate 10 kTypeDeletion [97] []].
Definition two_reads (mem imm : MemTable) : Reads tables :=
  MkReads 12 (MkMemTable 1 (table_ mem)) (Some (MkMemTable 1 (table_ imm))) two_files two_levels two_tables.

Lemma filled us : Forall update_ok us → StronglySorted (λ a b, up_seq a < up_seq b) us →
  ∃ m, add_all us new_MemTable = Done (tt, m) ∧ mem_holds m us.
Proof. intros Hok Hs. exact (run_add_all us new_MemTable [] new_holds Hok Hs). Qed.

Lemma two_reads_ok mem imm :
  mem_holds mem mem_updates → mem_holds imm imm_updates → reads_ok (two_reads mem imm) mem_updates imm_updates two_updates.
Proof.
  intros Hm Hi. split; [done|done|exact two_version_holds|done| | | |]; cbn [two_reads rd_mem rd_imm rd_heap rd_current].
  - intros p f Hp. cbn in Hp. repeat (apply elem_of_cons in Hp as [->|Hp]); try by apply not_elem_of_nil in Hp.
    all: by intros [= <-].
  - split_and!; [done| |done]. by intros m [= <-].
  - intros u w ->%list_elem_of_singleton Hw. cbn in Hw.
    repeat (apply elem_of_cons in Hw as [->|Hw]); try (by apply not_elem_of_nil in Hw); by vm_compute.
  - intros u w ->%list_elem_of_singleton Hw. cbn in Hw.
    repeat (apply elem_of_cons in Hw as [->|Hw]); try (by apply not_elem_of_nil in Hw); by vm_compute.
Qed.

(** The snapshot 9 does not see that key 97 is deleted. *)
Lemma DB_Get_newest_witness :
  ∃ mem imm r compact d', add_all mem_updates new_MemTable = Done (tt, mem) ∧ add_all imm_updates new_MemTable = Done (tt, imm) ∧
    reads (all_updates (two_reads mem imm) mem_updates imm_updates two_updates) [97] 9 r ∧
    DB_Get (Some 9) (MkReadOptions false true) [97] [] (two_reads mem imm) =
      Done (match r with Some _ => GetOk | None => GetNotFoundStatus end, default [] r, compact, d').
Proof.
  destruct (filled mem_updates) as (mem & Em & Hm); [repeat constructor; by vm_compute|repeat constructor|].
  destruct (filled imm_updates) as (imm & Ei & Hi); [repeat constructor; by vm_compute|repeat constructor|].
  destruct (DB_Get_newest (two_reads mem imm) mem_updates imm_updates two_updates (Some 9) (MkReadOptions false true) [97] []
    (two_reads_ok mem imm Hm Hi)) as (r & compact & d' & Hr & E & _); [split; [by repeat constructor|by vm_compute]|by vm_compute|].
  by exists mem, imm, r, compact, d'.
Defined.
