(* ===== verification/LdbTableCache.v ===== *)
(** * leveldb: the cache of tables (db/table_cache.cc)

    The tables that are open, with their files, in a cache by the numbers of the files. A
    table that is not in the cache is opened from the file of its number. *)
From S2P Require Import Prelude LdbCoding LdbLog SkipList LdbFormat LdbFilter LdbIterator LdbBlock LdbTwoLevel LdbTableFormat LdbTableBuilder LdbTable LdbFileName LdbRing LdbCache LdbVersionGet.

(** The environment: [NewRandomAccessFile], a message or the file; and the destructor of
    the file, which closes it. *)
Class FileEnv (E F : Type) := {
  env_NewRandomAccessFile : list Z → M E (string + F);
  env_delete_file : F → M E unit;
}.

Section table_cache.
Context `{UC : Comparator (list Z)} {F : Type} `{RF : RandomAccessFile F} `{SN : Snappy} {K : Type} `{BC : BlockCache K}.
Context {E : Type} `{FE : FileEnv E F}.
(** [dbname_] and [options_], which never change. *)
Variables (dbname : list Z) (options : Options).

Record TableAndFile := MkTableAndFile { tf_file : F; tf_table : Table }.

(** The objects [TableAndFile] are at their pointers; [tc_blocks] is the block cache of the
    options, when it is not NULL. *)
Record TCache := MkTCache {
  tc_env : E;
  tc_blocks : option K;
  tc_objects : gmap Z TableAndFile;
  tc_malloc : Z;
  tc_cache : ShardedLRUCache Z;
}.

Definition on_env {A} (f : M E A) : M TCache A := λ t,
  match f (tc_env t) with
  | Done (a, e) => Done (a, MkTCache e (tc_blocks t) (tc_objects t) (tc_malloc t) (tc_cache t))
  | Undef => Undef
  | NoFuel => NoFuel
  end.

(** What a table does with its file and the block cache. *)
Definition on_file_of {A} (file : F) (f : M (TableEnv F K) A) : M TCache (A * F) := λ t,
  match f (MkTableEnv file (tc_blocks t)) with
  | Done (a, e) => Done ((a, te_file e), MkTCache (tc_env t) (te_cache e) (tc_objects t) (tc_malloc t) (tc_cache t))
  | Undef => Undef
  | NoFuel => NoFuel
  end.

Definition new_object (tf : TableAndFile) : M TCache Z := λ t,
  Done (tc_malloc t, MkTCache (tc_env t) (tc_blocks t) (<[tc_malloc t := tf]> (tc_objects t)) (tc_malloc t + 1) (tc_cache t)).
Definition object (p : Z) : M TCache TableAndFile := t ← get_state; lift_option (tc_objects t !! p).
Definition set_object (p : Z) (tf : TableAndFile) : M TCache unit := λ t,
  Done (tt, MkTCache (tc_env t) (tc_blocks t) (<[p := tf]> (tc_objects t)) (tc_malloc t) (tc_cache t)).

Definition drop_object (p : Z) : M TCache unit := λ t,
  Done (tt, MkTCache (tc_env t) (tc_blocks t) (delete p (tc_objects t)) (tc_malloc t) (tc_cache t)).

(** [DeleteEntry]: the table, the file and the object. *)
Definition DeleteEntry (p : Z) : M TCache unit :=
  tf ← object p;
  on_env (env_delete_file (tf_file tf));;
  drop_object p.
Fixpoint delete_entries (ps : list Z) : M TCache unit :=
  match ps with
  | [] => mret tt
  | p :: ps => DeleteEntry p;; delete_entries ps
  end.

(** A call of the cache. The model of the cache lists the values it deletes; [DeleteEntry]
    does not use the cache, so it is called after the call, in the same order. *)
Definition newly_deleted (before after : ShardedLRUCache Z) : list Z :=
  concat (zip_with (λ c c', (drop (length (deleted_ c)) (deleted_ c')).*2) (shard_ before) (shard_ after)).
Definition on_tables {A} (f : M (ShardedLRUCache Z) A) : M TCache A := λ t,
  match f (tc_cache t) with
  | Done (a, c) =>
      (delete_entries (newly_deleted (tc_cache t) c);; mret a)
        (MkTCache (tc_env t) (tc_blocks t) (tc_objects t) (tc_malloc t) c)
  | Undef => Undef
  | NoFuel => NoFuel
  end.

Definition new_TableCache (entries : Z) (env : E) (blocks : option K) : outcome TCache :=
  c ← new_ShardedLRUCache entries; Done (MkTCache env blocks ∅ 0 c).

(** The destructor: the shards are destroyed from the last one on. *)
Fixpoint drop_shards (n : nat) : M TCache unit :=
  match n with
  | O => mret tt
  | S n => on_tables (on_shard (Z.of_nat n) drop_LRUCache);; drop_shards n
  end.
Definition drop_TableCache : M TCache unit := drop_shards (Z.to_nat kNumShards).

(** The key of a file in the cache. *)
Definition file_key (file_number : Z) : list Z := EncodeFixed64 file_number.

(** The file of a number, under its name or its old name. *)
Definition open_file (file_number : Z) : M TCache (string + F) :=
  fname ← lift_option (TableFileName dbname file_number);
  s ← on_env (env_NewRandomAccessFile fname);
  match s with
  | inr file => mret (inr file)
  | inl msg =>
      old_fname ← lift_option (SSTTableFileName dbname file_number);
      s ← on_env (env_NewRandomAccessFile old_fname);
      match s with
      | inr file => mret (inr file)
      | inl _ => mret (inl msg)
      end
  end.

(** An error, or a handle of the table, which the caller has to release. *)
Definition FindTable (file_number file_size : Z) : M TCache (string + Z * Z) :=
  handle ← on_tables (sharded_Lookup (file_key file_number));
  match handle with
  | Some handle => mret (inr handle)
  | None =>
      s ← open_file file_number;
      match s with
      | inl msg => mret (inl msg)
      | inr file =>
          '(s, file) ← on_file_of file (Open options file_size);
          match s with
          | inl msg => on_env (env_delete_file file);; mret (inl msg)
          | inr table =>
              tf ← new_object (MkTableAndFile file table);
              handle ← on_tables (sharded_Insert (file_key file_number) tf 1);
              mret (inr handle)
          end
      end
  end.

(** The object of a handle. *)
Definition handle_object (handle : Z * Z) : M TCache (Z * TableAndFile) :=
  p ← on_tables (sharded_Value handle); tf ← object p; mret (p, tf).

Definition cache_Get (ro : ReadOptions) (file_number file_size : Z) (k : list Z)
    : M TCache (option string * option (list Z * list Z)) :=
  s ← FindTable file_number file_size;
  match s with
  | inl msg => mret (Some msg, None)
  | inr handle =>
      '(p, tf) ← handle_object handle;
      '(r, file) ← on_file_of (tf_file tf) (InternalGet (tf_table tf) ro k);
      set_object p (MkTableAndFile file (tf_table tf));;
      on_tables (sharded_Release handle);;
      mret r
  end.

Definition Evict (file_number : Z) : M TCache unit := on_tables (sharded_Erase (file_key file_number)).

(** [NewIterator] gives an error, or the handle, the pointer of the table and the iterator;
    the handle stays until the iterator is deleted, when [UnrefEntry] releases it. The
    iterator reads with the file and the block cache of when it is made. *)
Definition cache_NewIterator (ro : ReadOptions) (file_number file_size : Z)
    : M TCache (string + (Z * Z) * Z * TwoLevelIterator table_iter table_iter (TableEnv F K)) :=
  s ← FindTable file_number file_size;
  match s with
  | inl msg => mret (inl msg)
  | inr handle =>
      '(p, tf) ← handle_object handle;
      t ← get_state;
      match table_NewIterator (tf_table tf) ro (MkTableEnv (tf_file tf) (tc_blocks t)) with
      | Done it => mret (inr (handle, p, it))
      | Undef => undef
      | NoFuel => no_fuel
      end
  end.
Definition UnrefEntry (handle : Z * Z) : M TCache unit := on_tables (sharded_Release handle).

#[export] Instance table_cache_ops : TableCache TCache := {| tc_Get := cache_Get |}.
End table_cache.
Arguments TCache F K E : clear implicits.
Arguments TableAndFile F : clear implicits.
