(* ===== verification/LdbTableCacheInv.v ===== *)
(** * leveldb: the cache of tables owns its objects

    The entries of the sharded cache are the open tables: each has an object of its own,
    under the number of its file, and an operation of the cache deletes the objects of the
    entries that it lets go, each once. First what the block cache deletes: the entries
    that an operation of the abstract cache lets go are those whose values it deletes. *)
From S2P Require Import Prelude LdbCoding LdbLog LdbFilter LdbTableFormat LdbTable LdbTableFormatSpec LdbRing LdbCache LdbCacheTable LdbCacheSpec LdbCacheOps LdbCacheCalls LdbTableCache.

Section evolve.
Context {V : Type}.
Implicit Types (a : ACache V) (gone : list (Z * Entry V)).

(** The entries that are gone, in the order in which they were deleted. *)
Record gone_of a gone a' : Prop := {
  go_nodup : NoDup gone.*1;
  go_were e en : (e, en) ∈ gone → a_entries a !! e = Some en;
  go_deleted : a_deleted a' = a_deleted a ++ ((λ x, (en_key x.2, en_value x.2)) <$> gone);
  go_entries e : a_entries a' !! e = if decide (e ∈ gone.*1) then None else a_entries a !! e;
}.

Lemma gone_same a a' : a_entries a' = a_entries a → a_deleted a' = a_deleted a → gone_of a [] a'.
Proof.
  intros Ee Ed. split; [constructor|by intros e en ?%not_elem_of_nil|by rewrite Ed, app_nil_r|].
  intros e. rewrite Ee. destruct (decide _) as [H|]; [by apply not_elem_of_nil in H|done].
Qed.
Lemma gone_trans a1 a2 a3 g1 g2 : gone_of a1 g1 a2 → gone_of a2 g2 a3 → gone_of a1 (g1 ++ g2) a3.
Proof.
  intros [N1 W1 D1 E1] [N2 W2 D2 E2].
  assert (∀ e en, (e, en) ∈ g2 → e ∉ g1.*1 ∧ a_entries a1 !! e = Some en) as H2.
  { intros e en H%W2. rewrite E1 in H. by destruct (decide _). }
  split.
  - rewrite fmap_app. apply NoDup_app. split_and!; [done| |done].
    intros e He ([e' en] & -> & Hin)%list_elem_of_fmap. cbn in He. by apply H2 in Hin as [? _].
  - intros e en [H|H]%elem_of_app; [by apply W1|by apply H2].
  - by rewrite D2, D1, fmap_app, app_assoc.
  - intros e. rewrite E2, fmap_app. destruct (decide (e ∈ g2.*1)) as [H|H].
    + by rewrite decide_True by (apply elem_of_app; by right).
    + rewrite E1. destruct (decide (e ∈ g1.*1)) as [H'|H'].
      * by rewrite decide_True by (apply elem_of_app; by left).
      * rewrite decide_False; [done|]. by intros [?|?]%elem_of_app.
Qed.

Lemma gone_release e a : ∃ gone, gone_of a gone (a_release e a).
Proof.
  unfold a_release. destruct (decide _); [exists []; by apply gone_same|]. destruct (decide _); [exists []; by apply gone_same|].
  destruct (a_entries a !! e) as [en|] eqn:E.
  - exists [(e, en)]. split; cbn.
    + apply NoDup_singleton.
    + by intros x ex [= -> ->]%list_elem_of_singleton.
    + done.
    + intros x. destruct (decide (x ∈ [e])) as [->%list_elem_of_singleton|Hx]; [apply lookup_delete_eq|].
      rewrite lookup_delete_ne; [done|]. intros ->. apply Hx. left.
  - exists []. apply gone_same; cbn; [by apply delete_id|by rewrite app_nil_r].
Qed.
Lemma gone_erase e a : ∃ gone, gone_of a gone (a_erase e a).
Proof.
  unfold a_erase. set (a1 := MkACache _ _ _ _ _ _). destruct (gone_release e a1) as (g & H). exists g.
  exact (gone_trans a a1 _ [] g (gone_same a a1 eq_refl eq_refl) H).
Qed.
Lemma gone_erase_opt e a : ∃ gone, gone_of a gone (a_erase_opt e a).
Proof. destruct e; [apply gone_erase|exists []; by apply gone_same]. Qed.
Lemma gone_evict cap n : ∀ a, ∃ gone, gone_of a gone (a_evict cap n a).
Proof.
  induction n as [|n IH]; intros a; cbn [a_evict]; [exists []; by apply gone_same|].
  destruct (cap <? charge a); [|exists []; by apply gone_same]. destruct (a_lru a) as [|e l]; [exists []; by apply gone_same|].
  destruct (gone_erase e a) as (g1 & H1), (IH (a_erase e a)) as (g2 & H2). exists (g1 ++ g2). by eapply gone_trans.
Qed.
Lemma gone_lookup key hash a : gone_of a [] (a_lookup key hash a).2.
Proof. unfold a_lookup. cbn [snd]. destruct (a_find a key hash) as [e|]; [|by apply gone_same]. unfold a_ref. destruct (decide _); by apply gone_same. Qed.

(** An insertion that finds no entry of the key: the new one is there, and what is gone is
    not the new one. *)
Lemma out_erase e a : a_out (a_erase e a) = a_out a.
Proof. unfold a_erase. rewrite release_out. apply remove_one_head. Qed.
Lemma out_evict cap n : ∀ a, a_out (a_evict cap n a) = a_out a.
Proof.
  induction n as [|n IH]; intros a; cbn [a_evict]; [done|]. destruct (cap <? charge a); [|done]. destruct (a_lru a) as [|e l]; [done|].
  by rewrite IH, out_erase.
Qed.
Lemma gone_insert cap key hash value chg a :
  a_find a key hash = None →
  let a1 := a_new (a_next a) (MkEntry key hash value chg) a in
  let a' := a_insert cap key hash value chg a in
  (∃ gone, gone_of a1 gone a') ∧ a_entries a' !! a_next a = Some (MkEntry key hash value chg) ∧ a_out a' = a_next a :: a_out a.
Proof.
  intros Hno a1 a'. unfold a', a_insert. rewrite Hno. cbn [a_erase_opt]. fold (a_new (a_next a) (MkEntry key hash value chg) a). fold a1.
  split_and!; [apply gone_evict| |by rewrite out_evict].
  rewrite (hd_entry _ _ _ _ (held_evict (a_next a) (length (a_lru a1)) cap a1 ltac:(left))). by apply lookup_insert_eq.
Qed.

(** ** The number of entries *)

Lemma charge_count a : (∀ e, e ∈ cached_ids a → charge_of a e = 1) → charge a = Z.of_nat (length (cached_ids a)).
Proof.
  unfold charge. induction (cached_ids a) as [|e l IH]; intros H; [done|]. cbn. rewrite (H e) by left. rewrite IH; [lia|].
  intros x Hx. apply H. by right.
Qed.
Lemma used_bound c a : cache_rel c a → (length (a_used a) ≤ length (a_out a))%nat.
Proof.
  intros (T & Hr & _). pose proof (rg_nodup _ _ _ (re_rings _ _ _ Hr)) as (_ & _ & Hnd)%NoDup_app.
  apply submseteq_length, NoDup_submseteq; [done|]. intros e. apply (re_busy _ _ _ Hr).
Qed.
(** Every entry is charged 1. *)
Definition unit_charges a : Prop := ∀ e en, a_entries a !! e = Some en → en_charge en = 1.
Lemma unit_count c a : cache_rel c a → unit_charges a → charge a = Z.of_nat (length (cached_ids a)).
Proof.
  intros (T & Hr & _) Hu. apply charge_count. intros e He.
  destruct (re_alive _ _ _ Hr e) as [h Eh]; [apply elem_of_app; by left|]. unfold charge_of. rewrite (entry_lookup c a T e Hr), Eh. cbn.
  apply (Hu e (entry_of h)). by rewrite (entry_lookup c a T e Hr), Eh.
Qed.
Lemma unit_gone a gone a' : gone_of a gone a' → unit_charges a → unit_charges a'.
Proof. intros [_ _ _ E] Hu e en. rewrite E. destruct (decide _); [done|apply Hu]. Qed.
Lemma cached_release c a e : cache_rel c a → length (cached_ids (a_release e a)) = length (cached_ids a).
Proof.
  intros (T & Hr & _). unfold a_release. destruct (decide _); [done|]. destruct (decide (e ∈ a_used a)) as [Hu|]; [|done].
  unfold cached_ids. cbn. pose proof (rg_nodup _ _ _ (re_rings _ _ _ Hr)) as (_ & _ & Hnd)%NoDup_app.
  rewrite !length_app. rewrite (Permutation_length (without_perm e (a_used a) Hnd Hu)). simpl. lia.
Qed.
Lemma cached_lookup c a key hash : cache_rel c a → length (cached_ids (a_lookup key hash a).2) = length (cached_ids a).
Proof.
  intros (T & Hr & _). unfold a_lookup. cbn [snd]. destruct (a_find a key hash) as [e|]; [|done]. unfold a_ref.
  destruct (decide (e ∈ a_lru a)) as [Hu|]; [|done].
  unfold cached_ids. cbn. pose proof (rg_nodup _ _ _ (re_rings _ _ _ Hr)) as (Hnd & _ & _)%NoDup_app.
  rewrite !length_app. rewrite (Permutation_length (without_perm e (a_lru a) Hnd Hu)). simpl. lia.
Qed.

(** After an insertion the charge fits, or every entry is in use. *)
Lemma insert_count c' cap key hash value a lim :
  a_find a key hash = None → let a' := a_insert cap key hash value 1 a in
  cache_rel c' a' → unit_charges a → NoDup (a_lru a) → cap ≤ lim → Z.of_nat (length (a_out a)) < lim →
  Z.of_nat (length (cached_ids a')) ≤ lim ∧ unit_charges a'.
Proof.
  intros Hno a' Hc Hu Hnd Hcap Hlim. destruct (gone_insert cap key hash value 1 a Hno) as ((gone & Hg) & _ & Ho). fold a' in Hg, Ho.
  assert (unit_charges (a_new (a_next a) (MkEntry key hash value 1) a)) as Hu1.
  { intros e en. cbn. destruct (decide (a_next a = e)) as [<-|]; [rewrite lookup_insert_eq; by intros [= <-]|].
    rewrite lookup_insert_ne by done. apply Hu. }
  pose proof (unit_gone _ _ _ Hg Hu1) as Hu'. split; [|done].
  set (a1 := a_new (a_next a) (MkEntry key hash value 1) a) in *.
  destruct (evict_fits (length (a_lru a1)) cap a1) as [Hf|Hf]; [done|done| |].
  - assert (a_evict cap (length (a_lru a1)) a1 = a') as E by (unfold a', a_insert; by rewrite Hno). rewrite E in Hf.
    rewrite (unit_count _ _ Hc Hu') in Hf. lia.
  - assert (a_evict cap (length (a_lru a1)) a1 = a') as E by (unfold a', a_insert; by rewrite Hno). rewrite E in Hf.
    pose proof (used_bound _ _ Hc) as Hub. unfold cached_ids. rewrite Hf, Ho in *. simpl in *. lia.
Qed.
End evolve.

(** ** Hashes of file numbers, and the environment *)

(** What env.h says of files that are only read: [env_files] are their contents by their
    names, and files that are opened have those contents. *)
Class FileEnvLaws (E F : Type) `{FE : FileEnv E F} `{RR : ReliableRandomAccess F} := {
  env_files : E → list Z → option (list Z);
  NewRandomAccessFile_law name e : ∃ r e', env_NewRandomAccessFile name e = Done (r, e') ∧
    (∀ n, env_files e' n = env_files e n) ∧
    match env_files e name, r with
    | Some bytes, inr f => file_contents f = bytes
    | None, inl _ => True
    | _, _ => False
    end;
  delete_file_law f e : ∃ e', env_delete_file f e = Done (tt, e') ∧ ∀ n, env_files e' n = env_files e n;
}.

(** ** Hashes and shards *)

Lemma lxor_u32 a b : 0 ≤ a < 2 ^ 32 → 0 ≤ b < 2 ^ 32 → 0 ≤ Z.lxor a b < 2 ^ 32.
Proof.
  intros Ha Hb. assert (0 ≤ Z.lxor a b) as Hn by (apply Z.lxor_nonneg; lia). split; [done|].
  destruct (Z.eq_dec (Z.lxor a b) 0) as [->|]; [lia|]. apply Z.log2_lt_pow2; [lia|].
  eapply Z.le_lt_trans; [apply Z.log2_lxor; lia|]. apply Z.max_lub_lt.
  - destruct (Z.eq_dec a 0) as [->|]; [by vm_compute|]. apply Z.log2_lt_pow2; lia.
  - destruct (Z.eq_dec b 0) as [->|]; [by vm_compute|]. apply Z.log2_lt_pow2; lia.
Qed.
Lemma shiftr_small a n : 0 ≤ a < 2 ^ 32 → 0 ≤ n → 0 ≤ Z.shiftr a n < 2 ^ 32.
Proof.
  intros Ha Hn. rewrite Z.shiftr_div_pow2 by done. assert (0 < 2 ^ n) by (apply Z.pow_pos_nonneg; lia). split; [apply Z.div_pos; lia|].
  apply Z.div_lt_upper_bound; [lia|]. nia.
Qed.
Lemma u32_range x : 0 ≤ u32 x < 2 ^ 32.
Proof. by apply wrapu_range. Qed.
Lemma hash_words_range data : ∀ h rest h', 0 ≤ h < 2 ^ 32 → hash_words data h = (rest, h') → 0 ≤ h' < 2 ^ 32.
Proof.
  induction data as [data IH] using (induction_ltof1 _ (@length Z)). unfold ltof in IH. intros h rest h' Hh.
  destruct data as [|b0 [|b1 [|b2 [|b3 data]]]]; cbn [hash_words]; try (by intros [= _ <-]).
  apply IH; [simpl; lia|]. apply lxor_u32; [apply u32_range|]. apply shiftr_small; [apply u32_range|done].
Qed.
Lemma Hash_range data seed : 0 ≤ Hash data seed < 2 ^ 32.
Proof.
  unfold Hash. destruct (hash_words data _) as [rest h] eqn:E. apply hash_words_range in E; [|apply u32_range].
  assert (∀ b x, 0 ≤ hash_last b x < 2 ^ 32) as Hl.
  { intros b x. unfold hash_last. apply lxor_u32; [apply u32_range|]. apply shiftr_small; [apply u32_range|done]. }
  unfold hash_rest. destruct rest as [|b0 [|b1 [|b2 [|b3 rest]]]]; done.
Qed.
Lemma Shard_range data : 0 ≤ Shard (HashSlice data) < kNumShards.
Proof.
  pose proof (Hash_range data 0) as H. unfold Shard, HashSlice. change (32 - kNumShardBits) with 28. rewrite Z.shiftr_div_pow2 by done.
  change kNumShards with (2 ^ 4). split; [by apply Z.div_pos; [lia|]|]. apply Z.div_lt_upper_bound; [done|]. change (2 ^ 28 * 2 ^ 4) with (2 ^ 32). lia.
Qed.
Definition shard_of (num : Z) : nat := Z.to_nat (Shard (HashSlice (file_key num))).
Lemma shard_of_spec num : Shard (HashSlice (file_key num)) = Z.of_nat (shard_of num) ∧ (shard_of num < 16)%nat.
Proof. pose proof (Shard_range (file_key num)) as H. unfold shard_of. change kNumShards with 16 in H. lia. Qed.

Lemma file_key_inj a b : 0 ≤ a < 2 ^ 64 → 0 ≤ b < 2 ^ 64 → file_key a = file_key b → a = b.
Proof.
  intros Ha Hb E. pose proof (fixed64_get_put a [] Ha) as E1. unfold file_key in E. rewrite E, (fixed64_get_put b [] Hb) in E1. congruence.
Qed.

(** ** Deleting objects *)

Section cache.
Context {F : Type} `{RF : RandomAccessFile F} `{RR : !ReliableRandomAccess F} {K W : Type} `{FE : FileEnv W F} `{FL : !FileEnvLaws W F}.
Implicit Types (t : TCache F K W) (a : ACache Z) (c : LRUCache Z) (ps : list Z).

(** What a call of the cache leaves of the rest. *)
Record rest_kept t t' : Prop := {
  rk_env n : env_files (tc_env t') n = env_files (tc_env t) n;
  rk_blocks : tc_blocks t' = tc_blocks t;
  rk_malloc : tc_malloc t' = tc_malloc t;
}.
Lemma rest_refl t : rest_kept t t.
Proof. done. Qed.
Lemma rest_trans t1 t2 t3 : rest_kept t1 t2 → rest_kept t2 t3 → rest_kept t1 t3.
Proof. intros [A1 B1 C1] [A2 B2 C2]. split; [intros n; by rewrite A2|congruence..]. Qed.

Definition objects_without ps t t' : Prop :=
  ∀ p, tc_objects t' !! p = if decide (p ∈ ps) then None else tc_objects t !! p.

Lemma run_DeleteEntry p t :
  is_Some (tc_objects t !! p) →
  ∃ t', DeleteEntry p t = Done (tt, t') ∧ tc_objects t' = delete p (tc_objects t) ∧ rest_kept t t' ∧ tc_cache t' = tc_cache t.
Proof.
  intros [tf Ep]. destruct (delete_file_law (tf_file tf) (tc_env t)) as (e & Ee & He).
  eexists. unfold DeleteEntry, object. rewrite bind_assoc, bind_get, (bind_lift _ _ _ _ Ep).
  erewrite bind_done by (unfold on_env; rewrite Ee; reflexivity). split_and!; [reflexivity|done|by split|done].
Qed.
Lemma run_delete_entries ps : ∀ t,
  NoDup ps → (∀ p, p ∈ ps → is_Some (tc_objects t !! p)) →
  ∃ t', delete_entries ps t = Done (tt, t') ∧ objects_without ps t t' ∧ rest_kept t t' ∧ tc_cache t' = tc_cache t.
Proof.
  induction ps as [|p ps IH]; intros t Hnd Hp.
  { exists t. split_and!; [done| |done|done]. intros p. destruct (decide _) as [H|]; [by apply not_elem_of_nil in H|done]. }
  apply NoDup_cons in Hnd as [Hp0 Hnd]. destruct (run_DeleteEntry p t) as (t1 & E1 & Eo & Hr & Ec); [apply Hp; left|].
  destruct (IH t1 Hnd) as (t2 & E2 & Ho & Hr2 & Ec2).
  { intros q Hq. rewrite Eo, lookup_delete_ne by (by intros ->). apply Hp. by right. }
  exists t2. split_and!; [cbn [delete_entries]; by bind_with E1| |by eapply rest_trans|congruence].
  intros q. rewrite Ho, Eo. destruct (decide (q = p)) as [->|Hne].
  - rewrite lookup_delete_eq, (decide_True (P := p ∈ p :: ps)) by left. by destruct (decide _).
  - rewrite lookup_delete_ne by done. destruct (decide (q ∈ ps)) as [H|H].
    + by rewrite decide_True by (by right).
    + rewrite decide_False; [done|]. by intros [?|?]%elem_of_cons.
Qed.

Lemma newly_deleted_one (shards : list (LRUCache Z)) i c c' id id' :
  shards !! i = Some c →
  newly_deleted (MkSharded shards id) (MkSharded (<[i := c']> shards) id') = (drop (length (deleted_ c)) (deleted_ c')).*2.
Proof.
  unfold newly_deleted. cbn [shard_].
  assert (∀ l : list (LRUCache Z), concat (zip_with (λ c c', (drop (length (deleted_ c)) (deleted_ c')).*2) l l) = []) as Hsame.
  { intros l. induction l as [|x l IH]; [done|]. cbn. by rewrite drop_all, IH. }
  revert i. induction shards as [|x shards IH]; intros [|i]; cbn; [done|done| |].
  - intros [= ->]. by rewrite Hsame, app_nil_r.
  - intros Ei. rewrite drop_all. exact (IH i Ei).
Qed.

(** ** The invariant *)

(** [owner] has the numbers of the files of the objects, also of those that are deleted. *)
Variables (cap lim : Z).
Implicit Types (owner : gmap Z Z) (abs : list (ACache Z)).

Record shard_ok owner (i : nat) c a : Prop := {
  so_rel : cache_rel c a;
  so_cap : capacity_ c = cap;
  so_unit : unit_charges a;
  so_count : Z.of_nat (length (cached_ids a)) ≤ lim;
  so_out : Z.of_nat (length (a_out a)) ≤ lim;
  so_entry e en : a_entries a !! e = Some en → ∃ num, 0 ≤ num < 2 ^ 64 ∧ en_key en = file_key num ∧
    en_hash en = HashSlice (file_key num) ∧ i = shard_of num ∧ owner !! en_value en = Some num;
}.

(** Each entry has an object of its own. *)
Record entries_live abs t : Prop := {
  el_live i a e en : abs !! i = Some a → a_entries a !! e = Some en → is_Some (tc_objects t !! en_value en);
  el_distinct i j a b e x en xn : abs !! i = Some a → abs !! j = Some b → a_entries a !! e = Some en →
    a_entries b !! x = Some xn → en_value en = en_value xn → i = j ∧ e = x;
}.
Record cache_inv owner abs t : Prop := {
  ci_shards : length (shard_ (tc_cache t)) = 16%nat;
  ci_abs : length abs = 16%nat;
  ci_shard i c a : shard_ (tc_cache t) !! i = Some c → abs !! i = Some a → shard_ok owner i c a;
  ci_live : entries_live abs t;
}.

(** Each object is that of an entry. *)
Definition has_entry abs (p : Z) : Prop := ∃ i a e en, abs !! i = Some a ∧ a_entries a !! e = Some en ∧ en_value en = p.
Definition owned abs t : Prop := ∀ p, is_Some (tc_objects t !! p) → has_entry abs p.

Definition values_of (gone : list (Z * Entry Z)) : list Z := (λ x, en_value x.2) <$> gone.

Lemma gone_values abs t i a gone a' :
  entries_live abs t → abs !! i = Some a → gone_of a gone a' →
  NoDup (values_of gone) ∧ (∀ p, p ∈ values_of gone → is_Some (tc_objects t !! p)).
Proof.
  intros [Hl Hd] Ea [Hn Hw _ _]. split.
  - unfold values_of. assert (∀ x y, x ∈ gone → y ∈ gone → en_value x.2 = en_value y.2 → x.1 = y.1) as Hinj.
    { intros [e en] [x xn] He%Hw Hx%Hw Ev. by destruct (Hd i i a a e x en xn Ea Ea He Hx Ev). }
    clear Hw. induction gone as [|x gone IH]; [constructor|]. cbn in Hn |- *. apply NoDup_cons in Hn as [Hx Hn]. apply NoDup_cons. split.
    + intros (y & Ey & Hy)%list_elem_of_fmap. apply Hx. rewrite (Hinj x y); [by apply list_elem_of_fmap_2|left|by right|done].
    + apply IH; [done|]. intros y z Hy Hz. apply Hinj; by right.
  - intros p ([e en] & -> & H%Hw)%list_elem_of_fmap. by apply (Hl i a e en).
Qed.

(** A call that does on a shard what the abstract operation does. [a1] is the abstract shard
    with the entry that is inserted. *)
Lemma run_on_tables {A} (f : M (ShardedLRUCache Z) A) owner abs t i c a a1 a' c' (x : A) gone id :
  cache_inv owner abs t → shard_ (tc_cache t) !! i = Some c → abs !! i = Some a →
  f (tc_cache t) = Done (x, MkSharded (<[i := c']> (shard_ (tc_cache t))) id) →
  a_deleted a1 = a_deleted a → entries_live (<[i := a1]> abs) t → gone_of a1 gone a' → shard_ok owner i c' a' →
  ∃ t', on_tables f t = Done (x, t') ∧ cache_inv owner (<[i := a']> abs) t' ∧ rest_kept t t' ∧ objects_without (values_of gone) t t' ∧
    (owned (<[i := a1]> abs) t → owned (<[i := a']> abs) t').
Proof.
  intros [H1 H2 H3 H4] Ec Ea Ef Ed Hlive Hg Hok. pose proof (lookup_lt_Some _ _ _ Ea) as Hi.
  assert (<[i := a1]> abs !! i = Some a1) as Ea1 by (by apply list_lookup_insert_eq).
  destruct (gone_values _ t i a1 gone a' Hlive Ea1 Hg) as [Hnd Hobj].
  set (s' := MkSharded _ _) in Ef. set (t0 := MkTCache (tc_env t) (tc_blocks t) (tc_objects t) (tc_malloc t) s').
  assert (newly_deleted (tc_cache t) s' = values_of gone) as En.
  { unfold s'. destruct (tc_cache t) as [sh lid]. rewrite (newly_deleted_one _ i c) by done.
    pose proof (H3 i c a Ec Ea) as [(T & Hr & _) _ _ _ _ _]. destruct Hok as [(T' & Hr' & _) _ _ _ _ _].
    rewrite (re_deleted _ _ _ Hr), (re_deleted _ _ _ Hr'), (go_deleted _ _ _ Hg), Ed, drop_app_length. unfold values_of. by rewrite <-list_fmap_compose. }
  destruct (run_delete_entries (values_of gone) t0 Hnd Hobj) as (t' & E' & Ho & Hr & Ecache).
  exists t'. split_and!; [|split|by destruct Hr|done|].
  - unfold on_tables. rewrite Ef, En. by bind_with E'.
  - rewrite Ecache. cbn. by rewrite length_insert.
  - by rewrite length_insert.
  - intros j d b. rewrite Ecache. cbn. intros Ej Eb. destruct (decide (i = j)) as [<-|Hne].
    + rewrite list_lookup_insert_eq in Ej by (by eapply lookup_lt_Some). rewrite list_lookup_insert_eq in Eb by done. by simplify_eq.
    + rewrite list_lookup_insert_ne in Ej by done. rewrite list_lookup_insert_ne in Eb by done. by apply H3.
  - assert (∀ j b e en, <[i := a']> abs !! j = Some b → a_entries b !! e = Some en →
      ∃ b1, <[i := a1]> abs !! j = Some b1 ∧ a_entries b1 !! e = Some en ∧ (j = i → e ∉ gone.*1)) as Hold.
    { intros j b e en. destruct (decide (i = j)) as [<-|Hne].
      - rewrite list_lookup_insert_eq by done. intros [= <-]. rewrite (go_entries _ _ _ Hg). destruct (decide _); [done|]. by exists a1.
      - rewrite list_lookup_insert_ne by done. intros Eb Een. exists b. rewrite list_lookup_insert_ne by done. split_and!; [done|done|by intros ->]. }
    destruct Hlive as [Hl Hd]. split.
    + intros j b e en Eb Een. destruct (Hold j b e en Eb Een) as (b1 & Eb1 & Een1 & Hng). rewrite Ho.
      rewrite decide_False; [by apply (Hl j b1 e en)|]. intros ([x' xn] & Ex & Hx)%list_elem_of_fmap. cbn in Ex.
      pose proof (go_were _ _ _ Hg _ _ Hx) as Exn. destruct (Hd j i b1 a1 e x' en xn Eb1 Ea1 Een1 Exn Ex) as [-> ->].
      apply (Hng eq_refl). apply list_elem_of_fmap. by exists (x', xn).
    + intros j k b d e y en yn Eb Edd Een Eyn Ev.
      destruct (Hold j b e en Eb Een) as (b1 & Eb1 & Een1 & _), (Hold k d y yn Edd Eyn) as (d1 & Ed1 & Eyn1 & _).
      by apply (Hd j k b1 d1 e y en yn).
  - intros Hown p. rewrite Ho. destruct (decide (p ∈ values_of gone)) as [|Hp]; [by intros []|]. intros (j & b & e & en & Eb & Een & Ev)%Hown.
    destruct (decide (i = j)) as [<-|Hne].
    + rewrite Ea1 in Eb. injection Eb as <-. exists i, a', e, en. rewrite list_lookup_insert_eq by done. split_and!; [done| |done].
      rewrite (go_entries _ _ _ Hg), decide_False; [done|]. intros ([x' xn] & -> & Hx)%list_elem_of_fmap. apply Hp.
      pose proof (go_were _ _ _ Hg _ _ Hx) as Exn. cbn in Een. assert (xn = en) as -> by congruence.
      rewrite <-Ev. apply list_elem_of_fmap. by exists (x', en).
    + rewrite list_lookup_insert_ne in Eb by done. exists j, b, e, en. by rewrite list_lookup_insert_ne.
Qed.

(** ** The calls of the cache *)

Hypothesis Hcap : 0 < cap ≤ lim.
Hypothesis Hlim : lim + 2 < 2 ^ 31.

Lemma run_on_shard {A} i (f : M (LRUCache Z) A) (s : ShardedLRUCache Z) c x c' :
  shard_ s !! i = Some c → f c = Done (x, c') → on_shard (Z.of_nat i) f s = Done (x, MkSharded (<[i := c']> (shard_ s)) (last_id_ s)).
Proof. intros Ec Ef. unfold on_shard. by rewrite Nat2Z.id, Ec, Ef. Qed.

Lemma without_nothing t t' : objects_without (values_of []) t t' → tc_objects t' = tc_objects t.
Proof. intros H. apply map_eq. intros p. rewrite (H p). destruct (decide _) as [Hp|]; [by apply not_elem_of_nil in Hp|done]. Qed.

Lemma the_shard owner abs t i a : cache_inv owner abs t → abs !! i = Some a →
  ∃ c, shard_ (tc_cache t) !! i = Some c ∧ shard_ok owner i c a ∧ entries_live (<[i := a]> abs) t.
Proof.
  intros [H1 H2 H3 H4] Ea. destruct (lookup_lt_is_Some_2 (shard_ (tc_cache t)) i) as [c Ec]; [rewrite H1, <-H2; by eapply lookup_lt_Some|].
  exists c. split_and!; [done|by apply H3|by rewrite list_insert_id].
Qed.

(** The handle of an entry. *)
Lemma entry_handle c a e en : cache_rel c a → a_entries a !! e = Some en → ∃ h, handles c !! e = Some h ∧ entry_of h = en.
Proof. intros (T & Hr & _) Een. rewrite (entry_lookup c a T e Hr) in Een. destruct (handles c !! e) as [h|]; [|done]. injection Een as <-. by exists h. Qed.

Lemma run_tables_Lookup owner abs t num a :
  cache_inv owner abs t → abs !! shard_of num = Some a → Z.of_nat (length (a_out a)) < lim →
  let found := a_lookup (file_key num) (HashSlice (file_key num)) a in
  ∃ t', on_tables (sharded_Lookup (file_key num)) t = Done ((λ e, (Z.of_nat (shard_of num), e)) <$> found.1, t') ∧
    cache_inv owner (<[shard_of num := found.2]> abs) t' ∧ rest_kept t t' ∧ tc_objects t' = tc_objects t ∧
    (owned abs t → owned (<[shard_of num := found.2]> abs) t').
Proof.
  intros Hinv Ea Hout found. destruct (the_shard _ _ _ _ _ Hinv Ea) as (c & Ec & [R1 R2 R3 R4 R5 R6] & Hl).
  destruct (shard_of_spec num) as [Es _].
  destruct (run_lru_Lookup c a (file_key num) (HashSlice (file_key num)) R1) as (c' & E1 & R1' & Ecap); [lia|].
  pose proof (gone_lookup (file_key num) (HashSlice (file_key num)) a) as Hg. fold found in E1, R1', Hg.
  destruct (run_on_tables (sharded_Lookup (file_key num)) owner abs t (shard_of num) c a a found.2 c'
    ((λ e, (Z.of_nat (shard_of num), e)) <$> found.1) [] (last_id_ (tc_cache t)) Hinv Ec Ea) as (t' & E & Hinv' & Hr & Ho & Hown).
  - unfold sharded_Lookup. rewrite Es. bind_with (run_on_shard _ _ _ _ _ _ Ec E1). done.
  - done.
  - done.
  - done.
  - split; [done|congruence|by eapply unit_gone|unfold found; by rewrite (cached_lookup c a)| |].
    + unfold found, a_lookup. cbn [snd]. destruct (a_find _ _ _) as [e|]; [|done]. unfold a_ref. destruct (decide _); cbn; lia.
    + intros e en. rewrite (go_entries _ _ _ Hg). destruct (decide _); [done|apply R6].
  - exists t'. rewrite (list_insert_id abs) in Hown by done. split_and!; [done|done|done|by apply without_nothing|done].
Qed.

Lemma run_tables_Value owner abs t i a e en :
  cache_inv owner abs t → abs !! i = Some a → a_entries a !! e = Some en →
  ∃ t', on_tables (sharded_Value (Z.of_nat i, e)) t = Done (en_value en, t') ∧
    cache_inv owner abs t' ∧ rest_kept t t' ∧ tc_objects t' = tc_objects t ∧ (owned abs t → owned abs t').
Proof.
  intros Hinv Ea Een. destruct (the_shard _ _ _ _ _ Hinv Ea) as (c & Ec & Hok & Hl). pose proof Hok as [R1 _ _ _ _ _].
  destruct (entry_handle c a e en R1 Een) as (h & Eh & <-).
  destruct (run_on_tables (sharded_Value (Z.of_nat i, e)) owner abs t i c a a a c (h_value h) [] (last_id_ (tc_cache t)) Hinv Ec Ea) as (t' & E1 & Hinv' & Hr & Ho & Hown).
  - apply run_on_shard with c; [done|]. by bind_with (run_deref c e h Eh).
  - done.
  - done.
  - by apply gone_same.
  - done.
  - exists t'. rewrite list_insert_id in Hinv', Hown by done. split_and!; [done|done|done|by apply without_nothing|done].
Qed.

Lemma run_tables_Release owner abs t i a e :
  cache_inv owner abs t → abs !! i = Some a → e ∈ a_out a →
  ∃ gone t', on_tables (sharded_Release (Z.of_nat i, e)) t = Done (tt, t') ∧
    cache_inv owner (<[i := a_release e a]> abs) t' ∧ rest_kept t t' ∧ objects_without gone t t' ∧
    (owned abs t → owned (<[i := a_release e a]> abs) t').
Proof.
  intros Hinv Ea He. destruct (the_shard _ _ _ _ _ Hinv Ea) as (c & Ec & [R1 R2 R3 R4 R5 R6] & Hl).
  destruct (run_lru_Release c a e R1 He) as (c' & E1 & R1' & Ecap). destruct (gone_release e a) as (gone & Hg).
  pose proof R1 as (T & Hr & _). destruct (re_alive _ _ _ Hr e) as [h Eh]; [apply elem_of_app; by right|].
  assert (a_entries a !! e = Some (entry_of h)) as Een by (by rewrite (entry_lookup c a T e Hr), Eh).
  destruct (R6 e _ Een) as (num & _ & _ & Eh' & Ei & _). destruct (shard_of_spec num) as [Es _].
  destruct (run_on_tables (sharded_Release (Z.of_nat i, e)) owner abs t i c a a (a_release e a) c' tt gone (last_id_ (tc_cache t)) Hinv Ec Ea)
    as (t' & E & Hinv' & Hk & Ho & Hown).
  - apply run_on_shard with c; [done|]. cbn [fst snd]. bind_with (run_deref c e h Eh). change (h_hash h) with (en_hash (entry_of h)). rewrite Eh', Es, Ei, bind_assert by apply Z.eqb_refl. done.
  - done.
  - done.
  - done.
  - split; [done|congruence|by eapply unit_gone|by rewrite (cached_release c a)| |].
    + rewrite release_out. cut (length (remove_one e (a_out a)) ≤ length (a_out a))%nat; [lia|]. clear.
      induction (a_out a) as [|x l IH]; cbn; [done|]. destruct (decide _); simpl; lia.
    + intros x en. rewrite (go_entries _ _ _ Hg). destruct (decide _); [done|apply R6].
  - exists (values_of gone), t'. rewrite (list_insert_id abs) in Hown by done. by split_and!.
Qed.

Lemma run_tables_Erase owner abs t num a :
  cache_inv owner abs t → abs !! shard_of num = Some a →
  let a' := a_erase_opt (a_find a (file_key num) (HashSlice (file_key num))) a in
  ∃ gone t', on_tables (sharded_Erase (file_key num)) t = Done (tt, t') ∧
    cache_inv owner (<[shard_of num := a']> abs) t' ∧ rest_kept t t' ∧ objects_without gone t t' ∧
    (owned abs t → owned (<[shard_of num := a']> abs) t') ∧ a_out a' = a_out a.
Proof.
  intros Hinv Ea a'. destruct (the_shard _ _ _ _ _ Hinv Ea) as (c & Ec & [R1 R2 R3 R4 R5 R6] & Hl).
  destruct (shard_of_spec num) as [Es _]. set (key := file_key num) in *.
  destruct (run_lru_Erase c a key (HashSlice key) R1) as (c' & E1 & R1' & Ecap). fold a' in R1'.
  destruct (gone_erase_opt (a_find a key (HashSlice key)) a) as (gone & Hg). fold a' in Hg.
  assert (a_out a' = a_out a ∧ (length (cached_ids a') ≤ length (cached_ids a))%nat) as [Eout Hlen].
  { unfold a'. destruct (a_find _ _ _) as [e|]; [|done]. cbn [a_erase_opt]. split; [apply out_erase|].
    destruct (erase_cached e a) as (-> & _ & _). apply length_filter. }
  destruct (run_on_tables (sharded_Erase key) owner abs t (shard_of num) c a a a' c' tt gone (last_id_ (tc_cache t)) Hinv Ec Ea)
    as (t' & E & Hinv' & Hk & Ho & Hown).
  - unfold sharded_Erase. cbv zeta. rewrite Es. by apply run_on_shard with c.
  - done.
  - done.
  - done.
  - split; [done|congruence|by eapply unit_gone|lia|by rewrite Eout|].
    intros x en. rewrite (go_entries _ _ _ Hg). destruct (decide _); [done|apply R6].
  - exists (values_of gone), t'. rewrite (list_insert_id abs) in Hown by done. by split_and!.
Qed.

(** An object that no entry has is inserted for its number. *)
Lemma run_tables_Insert owner abs t num a p :
  cache_inv owner abs t → abs !! shard_of num = Some a → 0 ≤ num < 2 ^ 64 →
  a_find a (file_key num) (HashSlice (file_key num)) = None → Z.of_nat (length (a_out a)) < lim →
  is_Some (tc_objects t !! p) → owner !! p = Some num →
  (∀ i b e en, abs !! i = Some b → a_entries b !! e = Some en → en_value en ≠ p) →
  let key := file_key num in
  let a' := a_insert cap key (HashSlice key) p 1 a in
  ∃ gone t', on_tables (sharded_Insert key p 1) t = Done ((Z.of_nat (shard_of num), a_next a), t') ∧
    cache_inv owner (<[shard_of num := a']> abs) t' ∧ rest_kept t t' ∧ objects_without gone t t' ∧
    a_entries a' !! a_next a = Some (MkEntry key (HashSlice key) p 1) ∧ a_out a' = a_next a :: a_out a ∧
    ((∀ q, is_Some (tc_objects t !! q) → q = p ∨ has_entry abs q) → owned (<[shard_of num := a']> abs) t').
Proof.
  intros Hinv Ea Hnum Hno Hout Hp Eo Hfresh key a'. destruct (the_shard _ _ _ _ _ Hinv Ea) as (c & Ec & [R1 R2 R3 R4 R5 R6] & Hl).
  destruct (shard_of_spec num) as [Es _]. pose proof (unit_count c a R1 R3) as Ecount.
  destruct (run_lru_Insert c a key (HashSlice key) p 1 R1) as (c' & E1 & R1' & Ecap); [lia|done|lia|lia|].
  rewrite R2 in R1'. fold a' in R1'. destruct (gone_insert cap key (HashSlice key) p 1 a Hno) as ((gone & Hg) & Enew & Eout). fold a' in Hg, Enew, Eout.
  set (en := MkEntry key (HashSlice key) p 1) in *. set (a1 := a_new (a_next a) en a) in *.
  assert (NoDup (a_lru a)) as Hnd by (by destruct (rel_nodup c a R1) as (_ & ? & _)).
  destruct (insert_count c' cap key (HashSlice key) p a lim Hno R1' R3 Hnd) as [Hc' Hu']; [lia|done|]. fold a' in Hc', Hu'.
  assert (∀ e x, a_entries a1 !! e = Some x → e = a_next a ∧ x = en ∨ a_entries a !! e = Some x) as Hin.
  { intros e x. cbn. destruct (decide (a_next a = e)) as [<-|]; [rewrite lookup_insert_eq; intros [= <-]; by left|].
    rewrite lookup_insert_ne by done. by right. }
  destruct (run_on_tables (sharded_Insert key p 1) owner abs t (shard_of num) c a a1 a' c' (Z.of_nat (shard_of num), a_next a) gone (last_id_ (tc_cache t)) Hinv Ec Ea)
    as (t' & E & Hinv' & Hk & Ho & Hown).
  - unfold sharded_Insert. cbv zeta. unfold key. rewrite Es. by bind_with (run_on_shard _ _ _ _ _ _ Ec E1).
  - done.
  - pose proof (lookup_lt_Some _ _ _ Ea) as Hi. destruct (ci_live _ _ _ Hinv) as [Hlive Hdist].
    assert (∀ i b e x, <[shard_of num := a1]> abs !! i = Some b → a_entries b !! e = Some x →
      i = shard_of num ∧ e = a_next a ∧ x = en ∨ ∃ b0, abs !! i = Some b0 ∧ a_entries b0 !! e = Some x) as Hcase.
    { intros i b e x. destruct (decide (shard_of num = i)) as [<-|].
      - rewrite list_lookup_insert_eq by done. intros [= <-] [[-> ->]|Hx]%Hin; [by left|]. right. by exists a.
      - rewrite list_lookup_insert_ne by done. intros Eb Ex. right. by exists b. }
    split.
    + intros i b e x Eb Ex. destruct (Hcase i b e x Eb Ex) as [(_ & _ & ->)|(b0 & Eb0 & Ex0)]; [done|by eapply Hlive].
    + intros i j b d e y x xn Eb Ed Ex Exn Ev.
      destruct (Hcase i b e x Eb Ex) as [(-> & -> & ->)|(b0 & Eb0 & Ex0)], (Hcase j d y xn Ed Exn) as [(-> & -> & ->)|(d0 & Ed0 & Exn0)];
        [done|by destruct (Hfresh j d0 y xn)|by destruct (Hfresh i b0 e x)|by apply (Hdist i j b0 d0 e y x xn)].
  - done.
  - split; [done|congruence|done|done|rewrite Eout; simpl; lia|].
    intros e x. rewrite (go_entries _ _ _ Hg). destruct (decide _); [done|]. intros [[-> ->]|Hx]%Hin; [|by apply (R6 e)].
    exists num. split; [done|by split_and!].
  - exists (values_of gone), t'. split_and!; [done..|]. intros Hall. apply Hown. intros q Hq. pose proof (lookup_lt_Some _ _ _ Ea) as Hi.
    destruct (Hall q Hq) as [->|(i & b & e & x & Eb & Ex & Ev)].
    + exists (shard_of num), a1, (a_next a), en. rewrite list_lookup_insert_eq by done. split_and!; [done|apply lookup_insert_eq|done].
    + destruct (decide (shard_of num = i)) as [<-|Hne]; [|exists i, b, e, x; by rewrite list_lookup_insert_ne].
      simplify_eq. exists (shard_of num), a1, e, x. rewrite list_lookup_insert_eq by done. split_and!; [done| |done]. cbn.
      rewrite lookup_insert_ne; [done|]. intros <-. pose proof R1 as (T & Hr & _). destruct (a_new_fresh c a T Hr) as [_ Hnone].
      rewrite (entry_lookup c a T _ Hr), <-(proj1 (re_malloc _ _ _ Hr)), Hnone in Ex. done.
Qed.
End cache.
