(* ===== verification/LdbTableCacheSpec.v ===== *)
(** * leveldb: the cache of tables serves the tables

    A lookup in a table through the cache opens the file when it is not open and finds what
    the table has, whatever the cache has evicted before; the block cache is shared by the
    tables, and none takes a block of another. This is the contract that the reads of a
    version use. *)
From S2P Require Import Prelude LdbCoding LdbLog LdbLogSpec SkipList SkipListSpec LdbFormat LdbFilter LdbFilterSpec LdbIterator LdbBlock LdbBlockSpec LdbMerger LdbMergerSpec LdbTwoLevel LdbTwoLevelSpec LdbMemTable LdbMemTableSpec LdbDBIterSpec LdbTableFormat LdbTableBuilder LdbTable LdbTableFormatSpec LdbTableBuilderSpec LdbTableSpec LdbFileName LdbRing LdbCache LdbCacheTable LdbCacheSpec LdbCacheOps LdbCacheCalls LdbReads LdbVersionGet LdbVersionGetSpec LdbTableCache LdbTableCacheInv.

Abbreviation IC := (internal_comparator).

(** The bytes of a file, their layout as a table, and the updates that the table has. *)
Record table_data := MkTableData {
  td_bytes : list Z;
  td_blocks : blocks;
  td_seps : list (list Z);
  td_footer : Footer;
  td_updates : list update;
}.

Section objects.
Context `{UC : Comparator (list Z)} `{CL : !ComparatorLaws (list Z)} `{Sep : Separators} `{SL : !SeparatorLaws (UC := internal_comparator (UC := UC))}.
Context {F : Type} `{RF : RandomAccessFile F} `{RR : !ReliableRandomAccess F} `{SN : Snappy}.
Context {K : Type} `{BC : BlockCache K} `{BL : !BlockCacheLaws K} {W : Type} `{FE : FileEnv W F} `{FL : !FileEnvLaws W F}.
Variables (dbname : list Z) (options : Options) (pol : option lawful_policy) (tables : Z → option table_data).
Hypothesis Hpol : o_filter_policy options = lp_named <$> pol.
Implicit Types (t : TCache F K W) (x : table_data) (tf : TableAndFile F) (k : K).

Definition table_ok x : Prop :=
  table_layout (UC := internal_comparator) pol (td_bytes x) (td_blocks x) (td_seps x) (td_footer x) ∧
  concat (td_blocks x).*1 = ientry <$> td_updates x ∧ keys_sorted (UC := internal_comparator) (concat (td_blocks x).*1) ∧
  Forall update_ok (td_updates x).
Hypothesis Htables : ∀ num x, tables num = Some x → 0 ≤ num < 2 ^ 64 ∧ table_ok x.

(** ** Open tables *)

Definition last_of (bs : option K) : option Z := last_id <$> bs.
Definition any_block (key : list Z) (b : Block) : Prop := True.

(** The object is the table, open over its file. *)
Definition good x tf (bs : option K) : Prop :=
  opened pol (td_blocks x) (td_seps x) (td_footer x) options (tf_table tf) ∧
  env_ok (td_bytes x) (td_blocks x) any_block (last_of bs) (t_cache_id (tf_table tf)) (MkTableEnv (tf_file tf) bs).

(** What a table with the id does to the block cache. *)
Definition blocks_step (id : Z) (bs bs' : option K) : Prop :=
  match bs, bs' with
  | None, None => True
  | Some k, Some k' => ids_issued k' ∧ last_id k ≤ last_id k' ∧
      ∀ key b, cached k' key b → (∃ off, 0 ≤ off < 2 ^ 64 ∧ key = cache_key id off) ∨ cached k key b
  | _, _ => False
  end.

Lemma good_frame x tf id bs bs' :
  table_ok x → good x tf bs → blocks_step id bs bs' →
  match bs with None => True | Some _ => t_cache_id (tf_table tf) ≠ id ∧ 0 ≤ id < 2 ^ 64 end → good x tf bs'.
Proof.
  intros (Hl & _ & Hs & _) [Ho [Hf Hc]] Hst Hne. split; [done|]. split; [done|]. cbn [te_cache te_file] in *.
  destruct bs as [k|], bs' as [k'|]; [|done..]. destruct Hst as ([Hlt Hids] & Hlast & Hk), Hne as [Hne Hid].
  destruct Hc as (_ & Hr & Hown & _). unfold cache_ok. cbn. split_and!; [by split|lia|lia| |done|by right].
  intros d b Hd [(off & Hoff & E)|Hin]%Hk; [|by eapply Hown]. destruct (block_handle (UC := internal_comparator) _ _ _ _ _ Hl d Hd) as [? _].
  apply cache_key_inj in E as [E _]; [done|lia..].
Qed.

(** What the block cache has now. *)
Definition held_blocks (bs : option K) (key : list Z) (b : Block) : Prop :=
  match bs with Some k => cached k key b | None => True end.

Lemma good_own x tf bs : good x tf bs →
  env_ok (td_bytes x) (td_blocks x) (held_blocks bs) (last_of bs) (t_cache_id (tf_table tf)) (MkTableEnv (tf_file tf) bs).
Proof.
  intros [_ [Hf Hc]]. split; [done|]. cbn [te_cache te_file] in *. destruct bs as [k|]; [|done].
  destruct Hc as (H1 & H2 & H3 & H4 & _). split; [done|]. split; [done|]. split; [done|]. split; [done|]. by right.
Qed.

(** After a table was used: the table is still good, and the others see its step. *)
Lemma used_step x id bs e :
  env_ok (td_bytes x) (td_blocks x) (held_blocks bs) (last_of bs) id e →
  env_ok (td_bytes x) (td_blocks x) any_block (last_of (te_cache e)) id e ∧ blocks_step id bs (te_cache e) ∧
  last_of (te_cache e) = last_of bs.
Proof.
  intros [Hf Hc]. destruct (te_cache e) as [k'|] eqn:Ek'.
  - destruct Hc as (H1 & H2 & H3 & H4 & H5). destruct bs as [k|]; [|done]. injection H4 as El. split_and!.
    + split; [done|]. rewrite Ek'. split; [done|]. split; [done|]. split; [done|]. split; [done|]. by right.
    + cbn. split_and!; [done|lia|done].
    + cbn. by rewrite El.
  - destruct bs as [k|]; [done|]. split_and!; [|done|done]. split; [done|]. by rewrite Ek'.
Qed.

(** The ids of the block cache: one for each table that is open. *)
Definition ids_left (n : nat) (bs : option K) : Prop :=
  match bs with None => True | Some k => last_id k + Z.of_nat n < 2 ^ 64 end.
Definition has_ids (bs : option K) : Prop := match bs with None => True | Some k => ids_issued k end.

Lemma run_open_table x file bs :
  table_ok x → file_contents file = td_bytes x → has_ids bs → ids_left 1 bs →
  ∃ tb e', Open options (slen (td_bytes x)) (MkTableEnv file bs) = Done (inr tb, e') ∧
    good x (MkTableAndFile (te_file e') tb) (te_cache e') ∧ blocks_step (t_cache_id tb) bs (te_cache e') ∧
    match bs, te_cache e' with Some k, Some k' => t_cache_id tb = last_id k + 1 ∧ last_id k' = last_id k + 1 | _, _ => True end.
Proof.
  intros (Hl & _ & Hs & _) Hf Hids Hleft.
  destruct (run_Open (UC := internal_comparator) pol _ _ _ _ Hl (held_blocks bs) ((λ k, last_id k + 1) <$> bs) (MkTableEnv file bs) options) as (tb & e' & E & Ho & He & Eid).
  - split; [done|]. cbn [te_cache]. destruct bs as [k|]; [|done]. cbn in Hleft. split_and!; [apply Hids|lia|done|done].
  - done.
  - exists tb, e'. split; [exact E|]. destruct e' as [file' bs']. destruct He as [Hf' Hc]. cbn [te_file te_cache] in *. destruct bs' as [k'|].
    + destruct Hc as (H1 & H2 & H3 & H4 & H5). destruct bs as [k|]; [|done]. injection H4 as El. split_and!.
      * split; [done|]. split; [done|]. cbn [te_cache]. split; [done|]. split; [done|]. split; [done|]. split; [done|]. by right.
      * cbn. split_and!; [done|lia|done].
      * by rewrite Eid.
      * done.
    + destruct bs as [k|]; [done|]. split_and!; [|done|done]. split; [done|]. by split.
Qed.

(** ** The invariant *)

Implicit Types (owner : gmap Z Z) (objs : gmap Z (TableAndFile F)).

(** The tables that are open have different ids in the block cache. *)
Record objects_inv owner (bs : option K) objs (malloc : Z) : Prop := {
  oi_malloc p tf : objs !! p = Some tf → p < malloc;
  oi_good p tf num x : objs !! p = Some tf → owner !! p = Some num → tables num = Some x → good x tf bs;
  oi_ids : has_ids bs;
  oi_range p tf : objs !! p = Some tf → match bs with None => True | Some k => 0 ≤ t_cache_id (tf_table tf) ≤ last_id k end;
  oi_differ p q tf tf' : objs !! p = Some tf → objs !! q = Some tf' → p ≠ q →
    match bs with None => True | Some _ => t_cache_id (tf_table tf) ≠ t_cache_id (tf_table tf') end;
}.

Lemma objects_sub owner bs objs objs' malloc :
  objects_inv owner bs objs malloc → (∀ p tf, objs' !! p = Some tf → objs !! p = Some tf) → objects_inv owner bs objs' malloc.
Proof.
  intros [H1 H2 H3 H4 H5] Hsub. split; [| |done| |].
  - intros p tf Hp. eapply H1. by apply Hsub.
  - intros p tf num x Hp. apply (H2 p). by apply Hsub.
  - intros p tf Hp. eapply H4. by apply Hsub.
  - intros p q tf tf' Hp Hq. eapply H5; by apply Hsub.
Qed.

(** One object takes a step with the block cache: it is new, or it was used. *)
Lemma objects_step owner bs bs' objs malloc p tf num id malloc' :
  objects_inv owner bs objs malloc → blocks_step id bs bs' → id = t_cache_id (tf_table tf) →
  (∀ x, tables num = Some x → good x tf bs') →
  match bs' with None => True | Some k => 0 ≤ id ≤ last_id k end →
  (∀ q tf', objs !! q = Some tf' → q ≠ p → match bs with None => True | Some _ => t_cache_id (tf_table tf') ≠ id end) →
  malloc ≤ malloc' → p < malloc' →
  objects_inv (<[p := num]> owner) bs' (<[p := tf]> objs) malloc'.
Proof.
  intros [H1 H2 H3 H4 H5] Hst Eid Hgood Hid Hne Hm Hp.
  assert (match bs' with Some k => has_ids bs' | None => True end) as Hids by (destruct bs, bs'; naive_solver).
  assert (∀ q tf', <[p := tf]> objs !! q = Some tf' → q = p ∧ tf' = tf ∨ q ≠ p ∧ objs !! q = Some tf') as Hcase.
  { intros q tf'. destruct (decide (p = q)) as [<-|Hpq]; [rewrite lookup_insert_eq; intros [= <-]; by left|].
    rewrite lookup_insert_ne by done. right. split; [by apply not_eq_sym|done]. }
  split.
  - intros q tf' [[-> _]|[_ Hq%H1]]%Hcase; lia.
  - intros q tf' n x [[-> ->]|[Hqp Hq]]%Hcase En Hx.
    + rewrite lookup_insert_eq in En. injection En as <-. by apply Hgood.
    + rewrite lookup_insert_ne in En by (by apply not_eq_sym). pose proof (H2 q tf' n x Hq En Hx) as Hg.
      apply (good_frame x tf' id bs bs'); [by eapply Htables|done|done|]. pose proof (Hne q tf' Hq Hqp). destruct bs as [k|]; [|done].
      destruct bs' as [k'|]; [|done]. destruct Hst as ([Hlt _] & _ & _). split; [done|lia].
  - destruct bs'; done.
  - intros q tf' [[-> ->]|[Hqp Hq]]%Hcase; [by rewrite <-Eid|]. pose proof (H4 q tf' Hq). destruct bs, bs'; [|done..].
    destruct Hst as (_ & Hle & _). lia.
  - intros q r tf1 tf2 [[-> ->]|[Hqp Hq]]%Hcase [[-> ->]|[Hrp Hr]]%Hcase Hqr; [done| | |].
    + pose proof (Hne r tf2 Hr Hrp). destruct bs, bs'; try done. rewrite <-Eid. by apply not_eq_sym.
    + pose proof (Hne q tf1 Hq Hqp). destruct bs, bs'; try done. by rewrite <-Eid.
    + pose proof (H5 q r tf1 tf2 Hq Hr Hqr). destruct bs, bs'; done.
Qed.

(** The file of a table, under its name or its old name. *)
Definition env_has (w : W) (num : Z) x : Prop :=
  ∃ fname old, TableFileName dbname num = Some fname ∧ SSTTableFileName dbname num = Some old ∧
    (env_files w fname = Some (td_bytes x) ∨ env_files w fname = None ∧ env_files w old = Some (td_bytes x)).

Variables (cap lim : Z).
Hypothesis Hcap : 0 < cap ≤ lim.
Hypothesis Hlim : lim + 2 < 2 ^ 31.
Implicit Types (abs : list (ACache Z)).

Record tcache_inv owner abs t : Prop := {
  ti_cache : cache_inv cap lim owner abs t;
  ti_objects : objects_inv owner (tc_blocks t) (tc_objects t) (tc_malloc t);
  ti_files num x : tables num = Some x → env_has (tc_env t) num x;
  ti_owned : owned abs t;
}.

Lemma env_has_same w w' num x : (∀ n, env_files w' n = env_files w n) → env_has w num x → env_has w' num x.
Proof. intros Hw (fname & old & E1 & E2 & H). exists fname, old. rewrite !Hw. by split_and!. Qed.

Lemma run_tc_env {A} (f : M W A) t (r : A) w : f (tc_env t) = Done (r, w) →
  on_env f t = Done (r, MkTCache w (tc_blocks t) (tc_objects t) (tc_malloc t) (tc_cache t)).
Proof. intros Ef. unfold on_env. by rewrite Ef. Qed.

(** The file is opened under the name that it has. *)
Lemma run_open_file t num x :
  env_has (tc_env t) num x →
  ∃ f w, open_file dbname num t = Done (inr f, MkTCache w (tc_blocks t) (tc_objects t) (tc_malloc t) (tc_cache t)) ∧
    file_contents f = td_bytes x ∧ ∀ n, env_files w n = env_files (tc_env t) n.
Proof.
  intros (fname & old & E1 & E2 & Hf). unfold open_file. rewrite (bind_lift _ _ _ _ E1).
  destruct (NewRandomAccessFile_law fname (tc_env t)) as (r & w & En & Hw & Hr). rewrite (bind_done _ _ _ _ _ (run_tc_env _ t _ _ En)).
  destruct Hf as [Hf|[Hf Ho]]; rewrite Hf in Hr; destruct r as [msg|f]; try done.
  - by exists f, w.
  - rewrite (bind_lift _ _ _ _ E2). set (t1 := MkTCache _ _ _ _ _). destruct (NewRandomAccessFile_law old (tc_env t1)) as (r & w2 & En2 & Hw2 & Hr2).
    rewrite (bind_done _ _ _ _ _ (run_tc_env _ t1 _ _ En2)). cbn [tc_env t1] in *. rewrite Hw, Ho in Hr2. destruct r as [msg2|f]; [done|].
    exists f, w2. split_and!; [done|done|]. intros n. by rewrite Hw2, Hw.
Qed.

(** After a call of the cache: the objects that are left are as they were. *)
Lemma tcache_after owner abs t t' gone :
  cache_inv cap lim owner abs t' → rest_kept t t' → objects_without gone t t' →
  objects_inv owner (tc_blocks t) (tc_objects t) (tc_malloc t) → (∀ num x, tables num = Some x → env_has (tc_env t) num x) → owned abs t' →
  tcache_inv owner abs t'.
Proof.
  intros Hc [Hw Hb Hm] Ho Hobj Hf Hown. split; [done| | |done].
  - rewrite Hb, Hm. eapply objects_sub; [done|]. intros p tf. rewrite Ho. by destruct (decide _).
  - intros num x Hx. eapply env_has_same; [done|by apply Hf].
Qed.
Lemma same_objects t t' : tc_objects t' = tc_objects t → objects_without [] t t'.
Proof. intros E p. rewrite E. destruct (decide _) as [H|]; [by apply not_elem_of_nil in H|done]. Qed.

(** The cache does not look at the other parts of the state, nor at the owners of objects
    that it does not have. *)
Lemma cache_inv_frame owner owner' abs t t' :
  cache_inv cap lim owner abs t → tc_cache t' = tc_cache t →
  (∀ p, is_Some (tc_objects t !! p) → is_Some (tc_objects t' !! p) ∧ owner' !! p = owner !! p) → cache_inv cap lim owner' abs t'.
Proof.
  intros [H1 H2 H3 [H4 H5]] Ec Hp. split; rewrite ?Ec; [done|done| |].
  - intros i c a Ei Ea. destruct (H3 i c a Ei Ea) as [R1 R2 R3 R4 R5 R6]. split; [done..|]. intros e en Een.
    destruct (R6 e en Een) as (num & ? & ? & ? & ? & Eo). exists num. split_and!; [lia|lia|done..|].
    destruct (Hp (en_value en)) as [_ ->]; [by apply (H4 i a e en)|done].
  - split; [|done]. intros i a e en Ea Een. apply Hp. by apply (H4 i a e en).
Qed.

Definition is_handle owner abs num (i : nat) (e : Z) : Prop :=
  ∃ a en, abs !! i = Some a ∧ a_entries a !! e = Some en ∧ owner !! en_value en = Some num ∧ e ∈ a_out a.

(** [FindTable] gives a handle of the table of the number; the ids that are left are one
    less at the most. The other shards, and who has their entries, are as they were. *)
Lemma run_FindTable n owner abs t num x a :
  tcache_inv owner abs t → tables num = Some x → abs !! shard_of num = Some a → Z.of_nat (length (a_out a)) < lim →
  ids_left (S n) (tc_blocks t) →
  ∃ owner' a' e t', FindTable dbname options num (slen (td_bytes x)) t = Done (inr (Z.of_nat (shard_of num), e), t') ∧
    tcache_inv owner' (<[shard_of num := a']> abs) t' ∧ is_handle owner' (<[shard_of num := a']> abs) num (shard_of num) e ∧
    a_out a' = e :: a_out a ∧ ids_left n (tc_blocks t').
Proof.
  intros [Hc Hobj Hf Hown] Hx Ea Hout Hids. destruct (Htables num x Hx) as [Hnum Hok]. pose proof (lookup_lt_Some _ _ _ Ea) as Hi.
  assert (∀ m (bs bs' : option K), bs' = bs → ids_left (S m) bs → ids_left m bs') as Hless.
  { intros m bs ? ->. destruct bs as [k|]; [|done]. cbn. lia. }
  destruct (run_tables_Lookup cap lim Hlim owner abs t num a Hc Ea Hout) as (t1 & E1 & Hc1 & Hr1 & Ho1 & Hown1).
  set (key := file_key num) in *. unfold a_lookup in E1, Hc1, Hown1. cbn [fst snd] in E1, Hc1, Hown1. specialize (Hown1 Hown). unfold FindTable. fold key. bind_with E1.
  destruct (a_find a key (HashSlice key)) as [e|] eqn:Efind; cbn [fmap option_fmap option_map].
  - destruct (a_find_cached _ _ _ _ Efind) as [Hcached (en & Een & Ekey & _)].
    assert (a_entries (a_ref e a) !! e = Some en ∧ a_out (a_ref e a) = e :: a_out a) as [Een' Eout] by (unfold a_ref; by destruct (decide _)).
    exists owner, (a_ref e a), e, t1. split; [done|]. split; [by eapply tcache_after; [..|apply same_objects| | |]|]. split; [|split; [done|]].
    + exists (a_ref e a), en. rewrite list_lookup_insert_eq by done. split_and!; [done|done| |rewrite Eout; left].
      destruct (the_shard _ _ _ _ _ _ _ Hc Ea) as (c & _ & [_ _ _ _ _ R6] & _). destruct (R6 e en Een) as (num' & Hn' & Ek' & _ & _ & Eo).
      rewrite Ekey in Ek'. unfold key in Ek'. by rewrite (file_key_inj _ _ Hnum Hn' Ek').
    + eapply Hless; [|exact Hids]. apply (rk_blocks _ _ Hr1).
  - rewrite list_insert_id in Hc1, Hown1 by done. assert (env_has (tc_env t1) num x) as Hf1 by (eapply env_has_same; [apply (rk_env _ _ Hr1)|by apply Hf]).
    destruct (run_open_file t1 num x Hf1) as (file & w & E2 & Hfile & Hw). bind_with E2. rewrite (rk_blocks _ _ Hr1), (rk_malloc _ _ Hr1), Ho1.
    set (t2 := MkTCache w _ _ _ _). pose proof Hobj as [O1 O2 O3 O4 O5].
    destruct (run_open_table x file (tc_blocks t) Hok Hfile O3) as (tb & [file' bs'] & E3 & Hgood & Hstep & Hnew).
    { destruct (tc_blocks t); [|done]. cbn in Hids |- *. lia. }
    cbn [te_file te_cache] in Hgood, Hstep, Hnew. set (tf := MkTableAndFile file' tb) in *.
    erewrite bind_done by (unfold on_file_of; cbn [tc_blocks t2]; rewrite E3; reflexivity). cbv beta iota. cbn [te_file te_cache tc_env tc_objects tc_malloc tc_cache t2].
    set (p := tc_malloc t). set (t3 := MkTCache w bs' (<[p := tf]> (tc_objects t)) (p + 1) (tc_cache t1)).
    rewrite bind_done with (a := p) (s' := t3) by (unfold new_object; reflexivity). set (owner' := <[p := num]> owner).
    assert (tc_objects t !! p = None) as Enone.
    { destruct (tc_objects t !! p) as [tf'|] eqn:Ep; [|done]. pose proof (O1 p tf' Ep). unfold p in *. lia. }
    assert (∀ q, is_Some (tc_objects t !! q) → q ≠ p) as Hqp by (intros q Hq ->; rewrite Enone in Hq; by destruct Hq).
    assert (cache_inv cap lim owner' abs t3) as Hc3.
    { apply (cache_inv_frame owner owner' abs t1 t3 Hc1 eq_refl). cbn [tc_objects t3]. rewrite Ho1. intros q Hq. pose proof (Hqp q Hq).
      unfold owner'. rewrite !lookup_insert_ne by (by apply not_eq_sym). done. }
    destruct (run_tables_Insert cap lim Hcap Hlim owner' abs t3 num a p Hc3 Ea Hnum Efind Hout) as (gone & t4 & E4 & Hc4 & Hr4 & Ho4 & Enew & Eout & Hown4).
    { cbn. rewrite lookup_insert_eq. by eexists. } { apply lookup_insert_eq. }
    { intros i b e en Eb Een Ev. destruct (ci_live _ _ _ _ _ Hc) as [Hl _]. pose proof (Hl i b e en Eb Een) as Hq%Hqp. done. }
    fold key in E4, Enew, Eout. bind_with E4. exists owner', (a_insert cap key (HashSlice key) p 1 a), (a_next a), t4. split; [done|]. split; [|split; [|split; [done|]]].
    + eapply tcache_after; [done|done|done| | |].
      * cbn [tc_blocks tc_objects tc_malloc t3]. apply (objects_step owner (tc_blocks t) bs' _ p p tf num (t_cache_id tb)); try done; try lia.
        -- intros x' Hx'. by simplify_eq.
        -- destruct bs' as [k'|], (tc_blocks t) as [k|]; try done. pose proof (last_id_nonneg k). lia.
        -- intros q tf' Eq Hne. pose proof (O4 q tf' Eq). destruct (tc_blocks t) as [k|]; [|done]. destruct bs' as [k'|]; [|done]. lia.
      * intros num' x' Hx'. apply env_has_same with (tc_env t); [|by apply Hf]. intros m. cbn. rewrite Hw. apply (rk_env _ _ Hr1).
      * apply Hown4. intros q. cbn [tc_objects t3]. destruct (decide (p = q)) as [->|Hne]; [by left|]. rewrite lookup_insert_ne by done.
        right. by apply Hown.
    + exists (a_insert cap key (HashSlice key) p 1 a), (MkEntry key (HashSlice key) p 1). rewrite list_lookup_insert_eq by done.
      split_and!; [done|done|apply lookup_insert_eq|rewrite Eout; left].
    + rewrite (rk_blocks _ _ Hr4). cbn [tc_blocks t3]. destruct (tc_blocks t) as [k|], bs' as [k'|]; try done. cbn in Hids |- *. lia.
Qed.

(** The object of a handle is the table. *)
Lemma run_handle_object owner abs t num x i e :
  tcache_inv owner abs t → tables num = Some x → is_handle owner abs num i e →
  ∃ p tf t', handle_object (Z.of_nat i, e) t = Done ((p, tf), t') ∧ tcache_inv owner abs t' ∧ tc_blocks t' = tc_blocks t ∧
    tc_objects t' !! p = Some tf ∧ owner !! p = Some num ∧ good x tf (tc_blocks t').
Proof.
  intros [Hc Hobj Hf Hown] Hx (a & en & Ea & Een & Eo & _).
  destruct (run_tables_Value cap lim owner abs t i a e en Hc Ea Een) as (t' & E1 & Hc' & Hr & Ho & Hown').
  destruct (ci_live _ _ _ _ _ Hc) as [Hl _]. destruct (Hl i a e en Ea Een) as [tf Etf]. exists (en_value en), tf, t'.
  split_and!; [|by eapply tcache_after; [..|apply same_objects| | |auto]|apply (rk_blocks _ _ Hr)|by rewrite Ho|done|].
  - unfold handle_object. bind_with E1. unfold object. rewrite bind_assoc, bind_get, (bind_lift _ tf) by (by rewrite Ho). done.
  - rewrite (rk_blocks _ _ Hr). by apply (oi_good _ _ _ _ Hobj (en_value en) tf num).
Qed.

(** The table of an object was used. *)
Lemma tcache_used owner abs t p tf num x e :
  tcache_inv owner abs t → tables num = Some x → tc_objects t !! p = Some tf → owner !! p = Some num → good x tf (tc_blocks t) →
  env_ok (td_bytes x) (td_blocks x) (held_blocks (tc_blocks t)) (last_of (tc_blocks t)) (t_cache_id (tf_table tf)) e →
  let t' := MkTCache (tc_env t) (te_cache e) (<[p := MkTableAndFile (te_file e) (tf_table tf)]> (tc_objects t)) (tc_malloc t) (tc_cache t) in
  tcache_inv owner abs t' ∧ last_of (te_cache e) = last_of (tc_blocks t).
Proof.
  intros [Hc Hobj Hf Hown] Hx Ep Eo [Hopen _] He t'. pose proof Hobj as [O1 O2 O3 O4 O5].
  destruct (used_step _ _ _ _ He) as (He' & Hst & El). split; [|done]. split; [| |done|].
  - apply (cache_inv_frame owner owner abs t t' Hc eq_refl). intros q Hq. split; [|done]. cbn [tc_objects t'].
    destruct (decide (p = q)) as [<-|]; [rewrite lookup_insert_eq; by eexists|by rewrite lookup_insert_ne].
  - rewrite <-(insert_id owner p num Eo). pose proof (O1 p tf Ep).
    apply (objects_step owner (tc_blocks t) (te_cache e) _ (tc_malloc t) p _ num (t_cache_id (tf_table tf))); try done.
    + intros x' Hx'. simplify_eq. split; [done|]. by destruct e.
    + pose proof (O4 p tf Ep). destruct (tc_blocks t) as [k|], (te_cache e) as [k'|]; try done. cbn in El. injection El as El. lia.
    + intros q tf' Eq Hne. by apply (O5 q p).
  - intros q Hq. apply Hown. cbn [tc_objects t'] in Hq. destruct (decide (p = q)) as [<-|]; [by eexists|by rewrite lookup_insert_ne in Hq].
Qed.

(** What lookups of user keys need of the separators and of the filter. *)
Hypothesis Hfinds : ∀ key s u, key_ok key → 0 ≤ s ≤ kMaxSequenceNumber → update_ok u → compare_ (up_key u) key = 0 →
  LdbTableBuilderSpec.finds (UC := internal_comparator) (lookup_ikey key s) (ientry u).1 ∧ filter_as pol (lookup_ikey key s) (ientry u).1.
Hypothesis Hlookup : ∀ key s, key_ok key → 0 ≤ s ≤ kMaxSequenceNumber → lookup_key_ok pol (lookup_ikey key s).

Definition place_in (us : list update) key s : nat := lower_bound (UC := internal_comparator) (ientry <$> us) (lookup_ikey key s).

Lemma run_table_get x tf bs ro key s :
  table_ok x → good x tf bs → key_ok key → 0 ≤ s ≤ kMaxSequenceNumber →
  ∃ saved e, InternalGet (UC := internal_comparator) (tf_table tf) ro (lookup_ikey key s) (MkTableEnv (tf_file tf) bs) = Done ((None, saved), e) ∧
    env_ok (td_bytes x) (td_blocks x) (held_blocks bs) (last_of bs) (t_cache_id (tf_table tf)) e ∧
    (saved = None ∨ saved = ientry <$> td_updates x !! place_in (td_updates x) key s) ∧
    ∀ u, td_updates x !! place_in (td_updates x) key s = Some u → compare_ (up_key u) key = 0 → saved = Some (ientry u).
Proof.
  intros (Hl & Eus & Hs & Hok) Hg Hk Hsq. pose proof (good_own _ _ _ Hg) as He. destruct Hg as [Hopen _].
  destruct (run_InternalGet (UC := internal_comparator) pol _ _ _ _ Hl Hs _ _ _ _ ro Hopen (lookup_ikey key s) _ He (Hlookup key s Hk Hsq))
    as (saved & e & E & He' & Hor & Hin).
  exists saved, e. rewrite Eus in Hor, Hin. unfold place_in. rewrite list_lookup_fmap in Hor. split_and!; [exact E|done|done|].
  intros u Eu Ek. assert (update_ok u) as Hu by (by eapply Forall_lookup_1). destruct (Hfinds key s u Hk Hsq Hu Ek) as [H1 H2].
  apply (Hin (ientry u)); [by rewrite list_lookup_fmap, Eu|done|]. intros sep Hsep Hle.
  eapply (finds_target (UC := internal_comparator) pol _ _ _ _ Hl Hs); [|exact H1|done|done]. rewrite Eus. by rewrite list_lookup_fmap, Eu.
Qed.

Lemma run_cache_Get n owner abs t num x ro key s :
  tcache_inv owner abs t → tables num = Some x → Forall (λ a, Z.of_nat (length (a_out a)) < lim) abs →
  ids_left (S n) (tc_blocks t) → key_ok key → 0 ≤ s ≤ kMaxSequenceNumber →
  ∃ saved owner' abs' t', cache_Get (UC := internal_comparator) dbname options ro num (slen (td_bytes x)) (lookup_ikey key s) t = Done ((None, saved), t') ∧
    tcache_inv owner' abs' t' ∧ a_out <$> abs' = a_out <$> abs ∧ ids_left n (tc_blocks t') ∧
    (saved = None ∨ saved = ientry <$> td_updates x !! place_in (td_updates x) key s) ∧
    ∀ u, td_updates x !! place_in (td_updates x) key s = Some u → compare_ (up_key u) key = 0 → saved = Some (ientry u).
Proof.
  intros Hinv Hx Hout Hids Hk Hsq. destruct (Htables num x Hx) as [_ Hok]. destruct (shard_of_spec num) as [_ Hi].
  destruct (lookup_lt_is_Some_2 abs (shard_of num)) as [a Ea]; [by rewrite (ci_abs _ _ _ _ _ (ti_cache _ _ _ Hinv))|].
  destruct (run_FindTable n owner abs t num x a Hinv Hx Ea) as (owner1 & a1 & e & t1 & E1 & Hinv1 & Hh & Eout & Hids1); [exact (Forall_lookup_1 _ _ _ _ Hout Ea)|done|].
  destruct (run_handle_object _ _ t1 num x _ e Hinv1 Hx Hh) as (p & tf & t2 & E2 & Hinv2 & Eb2 & Ep & Eo & Hg).
  destruct (run_table_get x tf (tc_blocks t2) ro key s Hok Hg Hk Hsq) as (saved & e3 & E3 & He3 & Hor & Hin).
  destruct (tcache_used _ _ t2 p tf num x e3 Hinv2 Hx Ep Eo Hg He3) as [Hinv3 El]. cbv zeta in Hinv3. set (t3 := MkTCache _ _ _ _ _) in Hinv3.
  pose proof (lookup_lt_Some _ _ _ Ea) as Hlt. assert (<[shard_of num := a1]> abs !! shard_of num = Some a1) as Ea1 by (by apply list_lookup_insert_eq).
  destruct Hinv3 as [Hc3 Hobj3 Hf3 Hown3].
  destruct (run_tables_Release cap lim owner1 _ t3 (shard_of num) a1 e Hc3 Ea1) as (gone & t4 & E4 & Hc4 & Hr4 & Ho4 & Hown4); [rewrite Eout; left|].
  exists saved, owner1, (<[shard_of num := a_release e a1]> (<[shard_of num := a1]> abs)), t4. split_and!; [|by eapply tcache_after; [..|auto]| | |done|done].
  - unfold cache_Get. bind_with E1. bind_with E2. cbv beta iota.
    erewrite bind_done by (unfold on_file_of; rewrite E3; reflexivity). cbv beta iota.
    rewrite bind_done with (a := tt) (s' := t3) by reflexivity. by bind_with E4.
  - rewrite list_insert_insert_eq, list_fmap_insert, release_out, Eout, remove_one_head. apply list_insert_id. by rewrite list_lookup_fmap, Ea.
  - rewrite (rk_blocks _ _ Hr4). cbn [tc_blocks t3]. rewrite <-Eb2 in Hids1. destruct (tc_blocks t2) as [k|], (te_cache e3) as [k'|]; try done.
    cbn in El, Hids1 |- *. injection El as El. lia.
Qed.

(** [Evict] lets the table of a file go; the others stay. *)
Lemma run_Evict owner abs t num :
  tcache_inv owner abs t →
  ∃ abs' t', Evict num t = Done (tt, t') ∧ tcache_inv owner abs' t' ∧ a_out <$> abs' = a_out <$> abs ∧ tc_blocks t' = tc_blocks t.
Proof.
  intros [Hc Hobj Hf Hown]. destruct (shard_of_spec num) as [_ Hi].
  destruct (lookup_lt_is_Some_2 abs (shard_of num)) as [a Ea]; [by rewrite (ci_abs _ _ _ _ _ Hc)|].
  destruct (run_tables_Erase cap lim owner abs t num a Hc Ea) as (gone & t' & E & Hc' & Hr & Ho & Hown' & Eout).
  eexists _, t'. split; [exact E|]. split; [by eapply tcache_after; [..|auto]|]. split; [|apply (rk_blocks _ _ Hr)].
  rewrite list_fmap_insert, Eout. apply list_insert_id. by rewrite list_lookup_fmap, Ea.
Qed.

(** A new cache of tables. *)
Lemma run_new_TableCache entries w bs :
  0 < entries → entries + 15 < 2 ^ 64 → cap = (entries + 15) / 16 → has_ids bs → (∀ num x, tables num = Some x → env_has w num x) →
  ∃ t : TCache F K W, new_TableCache entries w bs = Done t ∧ tc_blocks t = bs ∧ tcache_inv ∅ (replicate 16 empty_acache) t.
Proof.
  intros He Hlt Ecap Hids Hf. destruct (new_cache_rel (V := Z) cap) as (c & Ec & Hc & Hcapc).
  assert (u64 (entries + (kNumShards - 1)) / kNumShards = cap) as Epc.
  { change kNumShards with 16. rewrite wrapu_small by lia. rewrite Ecap. f_equal. }
  exists (MkTCache w bs ∅ 0 (MkSharded (replicate (Z.to_nat kNumShards) c) 0)).
  split; [|split; [done|]]; [unfold new_TableCache, new_ShardedLRUCache; cbv zeta; rewrite Epc, Ec; done|].
  assert (∀ i a, replicate 16 empty_acache !! i = Some a → a = (empty_acache : ACache Z)) as Ha by (by intros i a [-> _]%lookup_replicate).
  assert (∀ e en, a_entries (empty_acache : ACache Z) !! e = Some en → False) as Hnone by (intros e en E; cbn in E; by rewrite lookup_empty in E).
  split; cbn [tc_cache tc_blocks tc_objects tc_malloc tc_env].
  - split; cbn [tc_cache shard_].
    + by rewrite length_replicate.
    + by rewrite length_replicate.
    + intros i c' a [-> _]%lookup_replicate ->%Ha. split; [done|done|by intros e en ?%Hnone|cbn; lia|cbn; lia|by intros e en ?%Hnone].
    + split; [by intros i a e en ->%Ha ?%Hnone|by intros i j a b e x en xn ->%Ha _ ?%Hnone].
  - split; [by intros p tf ?%lookup_empty_Some|by intros p tf num x ?%lookup_empty_Some|done|by intros p tf ?%lookup_empty_Some|by intros p q tf tf' ?%lookup_empty_Some].
  - done.
  - intros p [tf Ep]. cbn in Ep. by rewrite lookup_empty in Ep.
Qed.

(** ** Sequences of calls *)

Inductive table_call : Type :=
  | TGet (ro : ReadOptions) (num : Z) (key : list Z) (s : Z)
  | TEvict (num : Z).
Definition size_of (num : Z) : Z := from_option (λ x, slen (td_bytes x)) 0 (tables num).
Definition run_table_call (c : table_call) : M (TCache F K W) (option (option string * option (list Z * list Z))) :=
  match c with
  | TGet ro num key s => r ← cache_Get (UC := internal_comparator) dbname options ro num (size_of num) (lookup_ikey key s); mret (Some r)
  | TEvict num => Evict num;; mret None
  end.
Fixpoint run_table_calls (cs : list table_call) : M (TCache F K W) (list (option (option string * option (list Z * list Z)))) :=
  match cs with
  | [] => mret []
  | c :: cs => r ← run_table_call c; rs ← run_table_calls cs; mret (r :: rs)
  end.
Definition table_call_ok (c : table_call) : Prop :=
  match c with
  | TGet ro num key s => is_Some (tables num) ∧ key_ok key ∧ 0 ≤ s ≤ kMaxSequenceNumber
  | TEvict num => True
  end.

(** What a lookup in a table gives: no error, and the first entry at the lookup key or
    after it, or nothing; and that entry when it is of the user key. *)
Definition table_answer (us : list update) key s (r : option string * option (list Z * list Z)) : Prop :=
  r.1 = None ∧ (r.2 = None ∨ r.2 = ientry <$> us !! place_in us key s) ∧
  ∀ u, us !! place_in us key s = Some u → compare_ (up_key u) key = 0 → r.2 = Some (ientry u).
Definition call_answer (c : table_call) (r : option (option string * option (list Z * list Z))) : Prop :=
  match c with
  | TGet ro num key s => ∃ x r', tables num = Some x ∧ r = Some r' ∧ table_answer (td_updates x) key s r'
  | TEvict num => r = None
  end.

Lemma run_table_calls_ok cs : ∀ owner abs t,
  tcache_inv owner abs t → Forall (λ a, a_out a = []) abs → Forall table_call_ok cs → ids_left (length cs) (tc_blocks t) →
  ∃ rs owner' abs' t', run_table_calls cs t = Done (rs, t') ∧ Forall2 call_answer cs rs ∧
    tcache_inv owner' abs' t' ∧ Forall (λ a, a_out a = []) abs'.
Proof.
  assert (∀ abs abs', a_out <$> abs' = a_out <$> abs → Forall (λ a, a_out a = []) abs → Forall (λ a : ACache Z, a_out a = []) abs') as Hkeep.
  { intros abs abs' E H. apply Forall_lookup. intros i a Ea. assert ((a_out <$> abs) !! i = Some (a_out a)) as Eb by (by rewrite <-E, list_lookup_fmap, Ea).
    apply list_lookup_fmap_Some in Eb as (b & -> & Eb). by eapply (Forall_lookup_1 _ _ _ _ H). }
  induction cs as [|c cs IH]; intros owner abs t Hinv Hout Hok Hids.
  { by exists [], owner, abs, t. }
  apply Forall_cons in Hok as [Hc Hok]. cbn [run_table_calls].
  assert (∃ r owner1 abs1 t1, run_table_call c t = Done (r, t1) ∧ call_answer c r ∧ tcache_inv owner1 abs1 t1 ∧
    a_out <$> abs1 = a_out <$> abs ∧ ids_left (length cs) (tc_blocks t1)) as (r & owner1 & abs1 & t1 & E1 & Ha & Hinv1 & Eout & Hids1).
  { destruct c as [ro num key s|num]; cbn [run_table_call table_call_ok call_answer] in *.
    - destruct Hc as ([x Hx] & Hk & Hs).
      destruct (run_cache_Get (length cs) owner abs t num x ro key s Hinv Hx) as (saved & owner1 & abs1 & t1 & E & Hinv1 & Eout & Hids1 & Hor & Hin); [|done..|].
      { eapply Forall_impl; [exact Hout|]. intros a ->. simpl. lia. }
      eexists _, owner1, abs1, t1. split_and!; [unfold size_of; rewrite Hx; bind_with E; reflexivity| |done..].
      by exists x, (None, saved).
    - destruct (run_Evict owner abs t num Hinv) as (abs1 & t1 & E & Hinv1 & Eout & Eb).
      exists None, owner, abs1, t1. split_and!; [by bind_with E|done|done|done|]. rewrite Eb. destruct (tc_blocks t); [|done]. cbn in Hids |- *. lia. }
  destruct (IH owner1 abs1 t1 Hinv1 ltac:(by eapply Hkeep) Hok Hids1) as (rs & owner2 & abs2 & t2 & E2 & Hrs & Hinv2 & Hout2).
  exists (r :: rs), owner2, abs2, t2. split_and!; [by bind_with E1; bind_with E2|by constructor|done|done].
Qed.

(** An open table is in the cache, and nobody uses it. *)
Definition idle_in_cache (t : TCache F K W) (p : Z) : Prop :=
  ∃ i c e h, shard_ (tc_cache t) !! i = Some c ∧ handles c !! e = Some h ∧ h_value h = p ∧ h_in_cache h = true ∧ h_refs h = 1.
Lemma idle_objects owner abs t p :
  tcache_inv owner abs t → Forall (λ a, a_out a = []) abs → is_Some (tc_objects t !! p) → idle_in_cache t p.
Proof.
  intros [Hc _ _ Hown] Hout (i & a & e & en & Ea & Een & <-)%Hown.
  destruct (the_shard _ _ _ _ _ _ _ Hc Ea) as (c & Ec & [(T & Hr & HT) _ _ _ _ _] & _).
  destruct (entry_handle c a e en) as (h & Eh & <-); [by exists T|done|]. exists i, c, e, h. split_and!; [done..| |].
  all: destruct (re_handles _ _ _ Hr e h Eh) as [_ _ Href Halive]; rewrite (Forall_lookup_1 _ _ _ _ Hout Ea) in Href; cbn in Href;
    destruct (h_in_cache h); done || lia.
Qed.

(** C14: the cache of tables serves the tables. From the constructor on, after any sequence of
    lookups and evictions, with or without a block cache that the tables share, every
    lookup finds what its table has: the table is opened when it is not in the cache, also
    under the old name of its file, and no table takes a block of another. Nothing leaks:
    at the end each table that is open is in the cache, and no handle is held. *)
Theorem table_cache_serves entries w bs cs :
  0 < entries → entries + 15 < 2 ^ 64 → cap = (entries + 15) / 16 → has_ids bs → ids_left (length cs) bs →
  (∀ num x, tables num = Some x → env_has w num x) → Forall table_call_ok cs →
  ∃ t0 rs (t : TCache F K W), new_TableCache entries w bs = Done t0 ∧ run_table_calls cs t0 = Done (rs, t) ∧
    Forall2 call_answer cs rs ∧ ∀ p, is_Some (tc_objects t !! p) → idle_in_cache t p.
Proof.
  intros He Hlt Ecap Hids Hleft Hf Hok. destruct (run_new_TableCache entries w bs He Hlt Ecap Hids Hf) as (t0 & E0 & Eb & Hinv).
  destruct (run_table_calls_ok cs ∅ _ t0 Hinv) as (rs & owner & abs & t & E & Hrs & Hinv' & Hout);
    [by apply Forall_replicate|done|by rewrite Eb|].
  exists t0, rs, t. split_and!; [done..|]. intros p. by eapply idle_objects.
Qed.

(** The contract that reads of a version use. *)
Definition serving (t : TCache F K W) : Prop :=
  ∃ owner abs, tcache_inv owner abs t ∧ Forall (λ a, Z.of_nat (length (a_out a)) < lim) abs.
Definition table_cache_laws : @TableCacheLaws (TCache F K W) UC (table_cache_ops (UC := internal_comparator) dbname options).
Proof.
  refine {|
    holds (t : TCache F K W) num size us := serving t ∧ ∃ x, tables num = Some x ∧ size = slen (td_bytes x) ∧ us = td_updates x;
    room (t : TCache F K W) n := ids_left n (tc_blocks t) |}.
  - intros t m n. unfold ids_left. destruct (tc_blocks t); [|done]. lia.
  - intros t n ro num size us key s ((owner & abs & Hinv & Hout) & x & Hx & -> & ->) Hroom Hk Hs.
    destruct (run_cache_Get n owner abs t num x ro key s Hinv Hx Hout Hroom Hk Hs) as (saved & owner' & abs' & t' & E & Hinv' & Eout & Hids & Hor & Hin).
    exists saved, t'. split; [exact E|]. split; [|by split_and!]. intros n' z us' [_ Hx']. split; [|done]. exists owner', abs'. split; [done|].
    apply Forall_lookup. intros i a Ea. assert ((a_out <$> abs) !! i = Some (a_out a)) as Eb by (by rewrite <-Eout, list_lookup_fmap, Ea).
    apply list_lookup_fmap_Some in Eb as (b & -> & Eb). by eapply (Forall_lookup_1 _ _ _ _ Hout).
Defined.
End objects.

(** ** Witness *)

#[local] Existing Instance internal_separators.
#[local] Existing Instances no_cache no_cache_laws.

(** Files by their names. *)
Abbreviation file_system := (gmap (list Z) (list Z)).
#[local] Instance file_system_env : FileEnv file_system PosixMmapReadableFile := {|
  env_NewRandomAccessFile name := λ w, Done (match w !! name with Some b => inr (MkMmapFile "" b) | None => inl "No such file or directory"%string end, w);
  env_delete_file f := λ w, Done (tt, w) |}.
#[local] Instance file_system_laws : FileEnvLaws file_system PosixMmapReadableFile.
Proof.
  refine {| env_files (w : file_system) name := w !! name |}.
  - intros name w. eexists _, w. split; [done|]. split; [done|]. by destruct (w !! name).
  - intros f w. by exists w.
Defined.

Definition cached_options : Options := MkOptions 0 true 20 2 kNoCompression None.

(** The lookups of user keys that are compared by their bytes, without a filter. *)
Lemma bytewise_finds key s u : key_ok key → 0 ≤ s ≤ kMaxSequenceNumber → update_ok u → compare_ (up_key u) key = 0 →
  LdbTableBuilderSpec.finds (UC := internal_comparator (UC := bytewise_compare)) (lookup_ikey key s) (ientry u).1 ∧ filter_as None (lookup_ikey key s) (ientry u).1.
Proof.
  intros Hk Hs Hu E. split; [|done]. exists key, (s * 256 + 1), (up_key u), (up_tag u). split_and!; [done|done|..].
  all: try apply lookup_tag; try apply up_tag_range; try done. by apply compare_eq_sym.
Qed.

(** The table that the builder makes of some updates. *)
Lemma built_table us :
  keys_sorted (UC := internal_comparator (UC := bytewise_compare)) (ientry <$> us) → Forall kv_ok (ientry <$> us) → Forall update_ok us →
  table_budget None (ientry <$> us) → ∃ x, table_ok (UC := bytewise_compare) None x ∧ td_updates x = us.
Proof.
  intros Hs Hkv Hu Hb. destruct (run_build_table (UC := internal_comparator (UC := bytewise_compare)) cached_options None eq_refl ltac:(done) ltac:(by left) ([] : list Z) (ientry <$> us) eq_refl)
    as (r0 & r & ds & seps & ft & _ & _ & _ & Hl & Ec).
  - split_and!; [exact Hs| |exact Hb]. apply Forall_forall. intros kv Hin. rewrite Forall_forall in Hkv. split; [by apply Hkv|split; [|done]].
    apply list_elem_of_fmap in Hin as (u & -> & Hin). rewrite Forall_forall in Hu. exists (up_key u), (up_tag u).
    split_and!; [done|by apply Hu|apply up_tag_range; by apply Hu..].
  - exists (MkTableData (written (tb_file r)) ds seps ft us). split; [|done]. split_and!; [exact Hl|exact Ec| |exact Hu]. cbn. by rewrite Ec.
Qed.

Definition two_table_files (new old : table_data) : file_system :=
  {[ bytes "/db/000012.ldb" := td_bytes new; bytes "/db/000007.sst" := td_bytes old ]}.
Definition two_table_numbers (new old : table_data) (num : Z) : option table_data :=
  if num =? 12 then Some new else if num =? 7 then Some old else None.
Definition table_calls : list table_call :=
  [TGet (MkReadOptions true true) 12 [97] 9; TGet (MkReadOptions true true) 7 [98] 9; TEvict 7; TGet (MkReadOptions true true) 7 [98] 9].

Lemma table_cache_serves_witness :
  ∃ new old t0 rs t, td_updates new = new_updates ∧ td_updates old = old_updates ∧
    new_TableCache 32 (two_table_files new old) (Some O) = Done t0 ∧
    run_table_calls (UC := bytewise_compare) (F := PosixMmapReadableFile) (bytes "/db") cached_options (two_table_numbers new old) table_calls t0 = Done (rs, t) ∧
    Forall2 (call_answer (UC := bytewise_compare) (two_table_numbers new old)) table_calls rs ∧
    (rs !! 3%nat) = Some (Some (None, Some (ientry (MkUpdate 4 kTypeValue [98] [3])))).
Proof.
  destruct (two_updates_ok new_updates) as [Hnu _]; [by left|]. destruct (two_updates_ok old_updates) as [Hou _]; [by right|].
  destruct (built_table new_updates) as (new & Hnew & Enew);
    [unfold keys_sorted; repeat constructor; by vm_compute|repeat constructor; vm_compute; done|exact Hnu|by vm_compute|].
  destruct (built_table old_updates) as (old & Hold & Eold);
    [unfold keys_sorted; repeat constructor; by vm_compute|repeat constructor; vm_compute; done|exact Hou|by vm_compute|].
  exists new, old.
  destruct (table_cache_serves (UC := bytewise_compare) (F := PosixMmapReadableFile) (K := nat) (W := file_system)
    (bytes "/db") cached_options None (two_table_numbers new old)) with (cap := 2) (lim := 2) (entries := 32) (w := two_table_files new old) (bs := Some O) (cs := table_calls)
    as (t0 & rs & t & E0 & E & Hrs & _).
  - done.
  - intros num x. unfold two_table_numbers. destruct (Z.eqb_spec num 12) as [->|]; [by intros [= <-]|].
    destruct (Z.eqb_spec num 7) as [->|]; [by intros [= <-]|done].
  - done.
  - done.
  - exact bytewise_finds.
  - done.
  - done.
  - done.
  - done.
  - by split.
  - done.
  - intros num x. unfold two_table_numbers. destruct (Z.eqb_spec num 12) as [->|].
    { intros [= <-]. exists (bytes "/db/000012.ldb"), (bytes "/db/000012.sst"). split_and!; [done|done|left]. apply lookup_insert_eq. }
    destruct (Z.eqb_spec num 7) as [->|]; [|done]. intros [= <-].
    exists (bytes "/db/000007.ldb"), (bytes "/db/000007.sst"). split_and!; [done|done|right]. split; cbn [env_files file_system_laws].
    + unfold two_table_files. by rewrite !lookup_insert_ne.
    + unfold two_table_files. rewrite lookup_insert_ne by done. apply lookup_insert_eq.
  - assert (∀ c, is_byte c → key_ok [c]) as Hkey by (intros c Hc; split; [by apply Forall_singleton|by vm_compute]).
    repeat (apply Forall_cons; split); try done; cbn; (split; [by eexists|split; [apply Hkey; unfold is_byte; lia|by vm_compute]]).
  - exists t0, rs, t. split_and!; [exact Enew|exact Eold|exact E0|exact E|exact Hrs|].
    destruct (Forall2_lookup_l _ _ _ 3%nat _ Hrs eq_refl) as (r & Er & x & r' & Ex & -> & Hor1 & Hor2 & Hin).
    injection Ex as <-. rewrite Eold in Hin. rewrite Er. destruct r' as [e v]. cbn in Hor1. subst e.
    rewrite <-(Hin (MkUpdate 4 kTypeValue [98] [3])); [done|by vm_compute|by vm_compute].
Defined.
