(* ===== verification/LdbCompaction.v ===== *)
(** * leveldb: compactions (db/version_set.cc)

    A compaction merges files of a level with the files of the next one that overlap
    them. Here are the choice of the inputs and the questions that the loop of the
    compaction asks: whether a key has data below, and whether the output must be split.
    Files are used by their numbers, sizes and keys. *)
From S2P Require Import Prelude LdbCoding SkipList LdbFormat LdbIterator LdbVersionEdit LdbVersion.

(** [std::vector] of the files of each level of the version that is compacted, which is
    held by a reference while the compaction is alive. *)
Record Compaction := MkCompaction {
  c_level_ : Z;
  c_max_output_file_size_ : Z;
  c_input_version_ : list files;
  c_edit_ : VersionEdit;
  c_inputs_0 : files;
  c_inputs_1 : files;
  c_grandparents_ : files;
  c_grandparent_index_ : Z;
  c_seen_key_ : bool;
  c_overlapped_bytes_ : Z;
  c_level_ptrs_ : list Z;
}.

Section compaction.
Context `{UC : Comparator (list Z)}.
Variable max_file_size : Z.

(** The constructor, and the version that is set after it. *)
Definition new_Compaction (level : Z) (version : list files) : Compaction :=
  MkCompaction level (MaxFileSizeForLevel max_file_size level) version new_VersionEdit [] [] [] 0 false 0
    (replicate (Z.to_nat kNumLevels) 0).
Definition set_inputs (inputs0 inputs1 : files) (c : Compaction) : Compaction :=
  MkCompaction (c_level_ c) (c_max_output_file_size_ c) (c_input_version_ c) (c_edit_ c) inputs0 inputs1
    (c_grandparents_ c) (c_grandparent_index_ c) (c_seen_key_ c) (c_overlapped_bytes_ c) (c_level_ptrs_ c).
Definition set_grandparents (gs : files) (e : VersionEdit) (c : Compaction) : Compaction :=
  MkCompaction (c_level_ c) (c_max_output_file_size_ c) (c_input_version_ c) e (c_inputs_0 c) (c_inputs_1 c)
    gs (c_grandparent_index_ c) (c_seen_key_ c) (c_overlapped_bytes_ c) (c_level_ptrs_ c).

(** ** Choosing the inputs *)

(** [Compare] of two [InternalKey]s. *)
Definition ikeys_Compare (a b : list Z) : outcome Z :=
  a ← need (ikey_Encode a); b ← need (ikey_Encode b); icmp_Compare a b.

(** The loop of [GetRange], after its first file. *)
Fixpoint range_loop (inputs : files) (smallest largest : list Z) : outcome (list Z * list Z) :=
  match inputs with
  | [] => Done (smallest, largest)
  | f :: inputs =>
      s ← ikeys_Compare (f_smallest f) smallest;
      l ← ikeys_Compare (f_largest f) largest;
      range_loop inputs (if s <? 0 then f_smallest f else smallest) (if 0 <? l then f_largest f else largest)
  end.
Definition GetRange (inputs : files) : outcome (list Z * list Z) :=
  match inputs with [] => Undef | f :: inputs => range_loop inputs (f_smallest f) (f_largest f) end.
Definition GetRange2 (inputs1 inputs2 : files) : outcome (list Z * list Z) := GetRange (inputs1 ++ inputs2).

(** A sum of [int64_t]s. *)
Definition int64_add (a b : Z) : outcome Z :=
  if (- 2 ^ 63 <=? a + b) && (a + b <? 2 ^ 63) then Done (a + b) else Undef.

(** More files of the level, when they do not need more files of the next one: the
    inputs, the end of the range of the level and the range of all of them. *)
Definition expand_inputs (levels : list files) (level : Z) (inputs0 inputs1 : files) (largest all_start all_limit : list Z)
    : outcome (files * files * list Z * list Z * list Z) :=
  let same := (inputs0, inputs1, largest, all_start, all_limit) in
  if bool_decide (inputs1 = []) then Done same
  else
    expanded0 ← GetOverlappingInputs levels level (Some all_start) (Some all_limit);
    let inputs1_size := TotalFileSize inputs1 in
    let expanded0_size := TotalFileSize expanded0 in
    small ← (if (length inputs0 <? length expanded0)%nat then
               sum ← int64_add inputs1_size expanded0_size;
               limit ← ExpandedCompactionByteSizeLimit max_file_size;
               Done (sum <? limit)
             else Done false);
    if (small : bool) then
      '(new_start, new_limit) ← GetRange expanded0;
      expanded1 ← GetOverlappingInputs levels (level + 1) (Some new_start) (Some new_limit);
      if (length expanded1 =? length inputs1)%nat then
        '(all_start, all_limit) ← GetRange2 expanded0 expanded1;
        Done (expanded0, expanded1, new_limit, all_start, all_limit)
      else Done same
    else Done same.

(** The compaction, and the place where the next one of the level starts. *)
Definition SetupOtherInputs (levels : list files) (c : Compaction) (compact_pointer : list (list Z))
    : outcome (Compaction * list (list Z)) :=
  let level := c_level_ c in
  '(smallest, largest) ← GetRange (c_inputs_0 c);
  inputs1 ← GetOverlappingInputs levels (level + 1) (Some smallest) (Some largest);
  '(all_start, all_limit) ← GetRange2 (c_inputs_0 c) inputs1;
  '(inputs0, inputs1, largest, all_start, all_limit) ← expand_inputs levels level (c_inputs_0 c) inputs1 largest all_start all_limit;
  grandparents ← (if level + 2 <? kNumLevels then GetOverlappingInputs levels (level + 2) (Some all_start) (Some all_limit)
                  else Done []);
  pointer ← need (ikey_Encode largest);
  Done (set_grandparents grandparents (SetCompactPointer level largest (c_edit_ c)) (set_inputs inputs0 inputs1 c),
        <[Z.to_nat level := pointer]> compact_pointer).

(** The first file that ends after the pointer. *)
Fixpoint first_after (fs : files) (pointer : list Z) : outcome (option FileMetaData) :=
  match fs with
  | [] => Done None
  | f :: fs =>
      if bool_decide (pointer = []) then Done (Some f)
      else
        largest ← need (ikey_Encode (f_largest f));
        r ← icmp_Compare largest pointer;
        if 0 <? r then Done (Some f) else first_after fs pointer
  end.

(** [PickCompaction]: [size_level] is the level to compact when its score is at least 1,
    [seek_file] the file that had too many seeks, with its level. *)
Definition pick_first (levels : list files) (size_level : option Z) (seek_file : option (FileMetaData * Z))
    (compact_pointer : list (list Z)) : outcome (option (Z * FileMetaData)) :=
  match size_level with
  | Some level =>
      if (0 <=? level) && (level + 1 <? kNumLevels) then
        fs ← need (levels !! Z.to_nat level);
        pointer ← need (compact_pointer !! Z.to_nat level);
        o ← first_after fs pointer;
        f ← (match o with Some f => Done f | None => need (head fs) end);
        Done (Some (level, f))
      else Undef
  | None => Done (match seek_file with Some (f, level) => Some (level, f) | None => None end)
  end.
Definition PickCompaction (levels : list files) (size_level : option Z) (seek_file : option (FileMetaData * Z))
    (compact_pointer : list (list Z)) : outcome (option Compaction * list (list Z)) :=
  first ← pick_first levels size_level seek_file compact_pointer;
  match first with
  | None => Done (None, compact_pointer)
  | Some (level, f) =>
      let c := new_Compaction level levels in
      inputs0 ← (if level =? 0 then
                   '(smallest, largest) ← GetRange [f];
                   inputs ← GetOverlappingInputs levels 0 (Some smallest) (Some largest);
                   if bool_decide (inputs = []) then Undef else Done inputs
                 else Done [f]);
      '(c, compact_pointer) ← SetupOtherInputs levels (set_inputs inputs0 [] c) compact_pointer;
      Done (Some c, compact_pointer)
  end.

(** The first files with at least [limit] bytes; [total] has 64 bits. *)
Fixpoint limit_inputs (inputs : files) (total limit : Z) : files :=
  match inputs with
  | [] => []
  | f :: inputs =>
      let total := u64 (total + f_file_size f) in
      if limit <=? total then [f] else f :: limit_inputs inputs total limit
  end.
Definition CompactRange (levels : list files) (level : Z) (begin end_ : option (list Z)) (compact_pointer : list (list Z))
    : outcome (option Compaction * list (list Z)) :=
  inputs ← GetOverlappingInputs levels level begin end_;
  if bool_decide (inputs = []) then Done (None, compact_pointer)
  else
    let inputs := if 0 <? level then limit_inputs inputs 0 (MaxFileSizeForLevel max_file_size level) else inputs in
    '(c, compact_pointer) ← SetupOtherInputs levels (set_inputs inputs [] (new_Compaction level levels)) compact_pointer;
    Done (Some c, compact_pointer).

(** ** What the loop of the compaction asks *)

Definition IsTrivialMove (c : Compaction) : outcome bool :=
  if (length (c_inputs_0 c) =? 1)%nat && (length (c_inputs_1 c) =? 0)%nat then
    max_bytes ← MaxGrandParentOverlapBytes max_file_size;
    Done (TotalFileSize (c_grandparents_ c) <=? max_bytes)
  else Done false.

Definition AddInputDeletions (c : Compaction) (edit : VersionEdit) : VersionEdit :=
  let edit := foldl (λ e f, DeleteFile (c_level_ c) (f_number f) e) edit (c_inputs_0 c) in
  foldl (λ e f, DeleteFile (c_level_ c + 1) (f_number f) e) edit (c_inputs_1 c).

(** From the files at the pointer of a level on: the pointer, and whether the file at it
    has the key in its range. *)
Fixpoint advance_ptr (fs : files) (ptr : Z) (user_key : list Z) : outcome (Z * bool) :=
  match fs with
  | [] => Done (ptr, false)
  | f :: fs =>
      largest ← ikey_user_key (f_largest f);
      if compare_ user_key largest <=? 0 then
        smallest ← ikey_user_key (f_smallest f);
        Done (ptr, 0 <=? compare_ user_key smallest)
      else advance_ptr fs (ptr + 1) user_key
  end.
(** The levels from [lvl] on, [n] of them. *)
Fixpoint base_loop (n : nat) (version : list files) (lvl : Z) (ptrs : list Z) (user_key : list Z)
    : outcome (bool * list Z) :=
  match n with
  | O => Done (true, ptrs)
  | S n =>
      fs ← need (version !! Z.to_nat lvl);
      ptr ← need (ptrs !! Z.to_nat lvl);
      '(ptr, found) ← advance_ptr (drop (Z.to_nat ptr) fs) ptr user_key;
      let ptrs := <[Z.to_nat lvl := ptr]> ptrs in
      if (found : bool) then Done (false, ptrs) else base_loop n version (lvl + 1) ptrs user_key
  end.
Definition IsBaseLevelForKey (user_key : list Z) : M Compaction bool := λ c,
  '(b, ptrs) ← base_loop (Z.to_nat (kNumLevels - (c_level_ c + 2))) (c_input_version_ c) (c_level_ c + 2) (c_level_ptrs_ c) user_key;
  Done (b, MkCompaction (c_level_ c) (c_max_output_file_size_ c) (c_input_version_ c) (c_edit_ c) (c_inputs_0 c) (c_inputs_1 c)
             (c_grandparents_ c) (c_grandparent_index_ c) (c_seen_key_ c) (c_overlapped_bytes_ c) ptrs).

(** The grandparents from the index on that end before the key: the index and the bytes
    after them. *)
Fixpoint skip_grandparents (gs : files) (index bytes : Z) (seen_key : bool) (internal_key : list Z) : outcome (Z * Z) :=
  match gs with
  | [] => Done (index, bytes)
  | f :: gs =>
      largest ← need (ikey_Encode (f_largest f));
      r ← icmp_Compare internal_key largest;
      if 0 <? r then
        skip_grandparents gs (index + 1) (if seen_key then s64 (bytes + f_file_size f) else bytes) seen_key internal_key
      else Done (index, bytes)
  end.
Definition ShouldStopBefore (internal_key : list Z) : M Compaction bool := λ c,
  '(index, bytes) ← skip_grandparents (drop (Z.to_nat (c_grandparent_index_ c)) (c_grandparents_ c))
                      (c_grandparent_index_ c) (c_overlapped_bytes_ c) (c_seen_key_ c) internal_key;
  max_bytes ← MaxGrandParentOverlapBytes max_file_size;
  let stop := max_bytes <? bytes in
  Done (stop, MkCompaction (c_level_ c) (c_max_output_file_size_ c) (c_input_version_ c) (c_edit_ c) (c_inputs_0 c) (c_inputs_1 c)
                (c_grandparents_ c) index true (if stop then 0 else bytes) (c_level_ptrs_ c)).
End compaction.
