(* ===== verification/LdbCompactionSpec.v ===== *)
(** * leveldb: the inputs of compactions

    What is chosen is total and complete: the inputs of the next level are all its files
    that overlap the range of the inputs of the level, and the question whether a key has
    data below is answered right as long as the keys come in order. *)
From stdpp Require Import sorting.
From S2P Require Import Prelude LdbCoding SkipList SkipListSpec LdbFormat LdbIterator LdbMemTableSpec LdbDBIterSpec LdbTable LdbVersionEdit LdbVersion LdbVersionSpec LdbVersionGet LdbVersionGetSpec LdbCompaction.

#[local] Existing Instance overlaps_dec.

Section compaction_spec.
Context `{UC : Comparator (list Z)} `{CL : !ComparatorLaws (list Z)}.
Implicit Types (fs inputs : list FileMetaData) (f : FileMetaData) (key : list Z).

Abbreviation IC := (internal_comparator (UC := UC)).
Abbreviation user := ExtractUserKey.

(** ** Ranges *)

Lemma run_ikeys a b : long_key a → long_key b → ikeys_Compare a b = Done (ikey_compare a b).
Proof.
  intros Ha Hb. unfold ikeys_Compare. rewrite !run_ikey_Encode by done. cbn [need]. rewrite !obind_done. by apply run_icmp.
Qed.

(** The least first key and the greatest last key. *)
Definition range_of inputs (s l : list Z) : Prop :=
  (∃ f, f ∈ inputs ∧ s = f_smallest f) ∧ (∃ f, f ∈ inputs ∧ l = f_largest f) ∧
  ∀ f, f ∈ inputs → ikey_compare s (f_smallest f) ≤ 0 ∧ ikey_compare (f_largest f) l ≤ 0.

Lemma file_long f : file_ok f → long_key (f_smallest f) ∧ long_key (f_largest f).
Proof. apply file_ok_lengths. Qed.

Lemma ikey_refl a : ikey_compare a a = 0.
Proof. exact (compare_refl (H := IC) a). Qed.
Lemma ikey_sym a b : ikey_compare a b < 0 ↔ 0 < ikey_compare b a.
Proof. exact (compare_sym (H := IC) a b). Qed.
Lemma pick_least a b :
  let m := if ikey_compare a b <? 0 then a else b in ikey_compare m a ≤ 0 ∧ ikey_compare m b ≤ 0.
Proof.
  cbv zeta. pose proof (ikey_refl a). pose proof (ikey_refl b). pose proof (ikey_sym a b). pose proof (ikey_sym b a).
  destruct (Z.ltb_spec (ikey_compare a b) 0); lia.
Qed.
Lemma pick_greatest a b :
  let m := if 0 <? ikey_compare a b then a else b in ikey_compare a m ≤ 0 ∧ ikey_compare b m ≤ 0.
Proof.
  cbv zeta. pose proof (ikey_refl a). pose proof (ikey_refl b). pose proof (ikey_sym a b). pose proof (ikey_sym b a).
  destruct (Z.ltb_spec 0 (ikey_compare a b)); lia.
Qed.

Lemma run_range_loop inputs : ∀ before s l,
  Forall file_ok inputs → long_key s → long_key l → range_of before s l →
  ∃ s' l', range_loop inputs s l = Done (s', l') ∧ range_of (before ++ inputs) s' l'.
Proof.
  induction inputs as [|f inputs IH]; intros before s l Hok Hs Hl Hr.
  { exists s, l. by rewrite app_nil_r. }
  apply Forall_cons in Hok as [Hf Hok]. destruct (file_long f Hf) as [Hfs Hfl]. cbn [range_loop].
  rewrite !run_ikeys by done. rewrite !obind_done.
  destruct (IH (before ++ [f]) (if ikey_compare (f_smallest f) s <? 0 then f_smallest f else s)
    (if 0 <? ikey_compare (f_largest f) l then f_largest f else l)) as (s' & l' & E & H); [done|by destruct (_ <? _)..| |].
  - destruct Hr as ((g & Hg & ->) & (g' & Hg' & ->) & Hall). split_and!.
    + destruct (_ <? _); [exists f|exists g]; (split; [|done]); apply elem_of_app; [right; by left|by left].
    + destruct (_ <? _); [exists f|exists g']; (split; [|done]); apply elem_of_app; [right; by left|by left].
    + intros x Hx.
      destruct (pick_least (f_smallest f) (f_smallest g)) as [H2 H1].
      destruct (pick_greatest (f_largest f) (f_largest g')) as [H4 H3].
      apply elem_of_app in Hx as [Hx| ->%list_elem_of_singleton]; [|done]. destruct (Hall x Hx) as [H5 H6].
      split; eapply (compare_trans (H := IC)); [exact H1|exact H5|exact H6|exact H3].
  - exists s', l'. split; [done|]. by rewrite <-app_assoc in H.
Qed.

Lemma run_GetRange inputs :
  Forall file_ok inputs → inputs ≠ [] → ∃ s l, GetRange inputs = Done (s, l) ∧ range_of inputs s l.
Proof.
  intros Hok Hne. destruct inputs as [|f inputs]; [done|]. apply Forall_cons in Hok as [Hf Hok].
  destruct (file_long f Hf) as [Hfs Hfl]. apply (run_range_loop inputs [f]); [done..|].
  split_and!; [exists f; split; [by left|done]..|]. intros g ->%list_elem_of_singleton.
  rewrite !ikey_refl. lia.
Qed.

(** ** The files that overlap *)

Definition within (s l : list Z) : FileMetaData → Prop := overlaps (Some (user s)) (Some (user l)).

Lemma within_range inputs s l f : file_ok f → range_of inputs s l → f ∈ inputs → within s l f.
Proof.
  intros Hf (_ & _ & Hall) Hin. destruct (Hall f Hin) as [Hs Hl]. pose proof (file_ok_users f Hf) as Hu.
  apply ikey_le_user in Hs, Hl. split; intros k [= <-]; by eapply compare_trans.
Qed.

Lemma run_overlapping levels level s l :
  levels_ok levels → 0 ≤ level < kNumLevels → long_key s → long_key l →
  ∃ fs inputs, levels !! Z.to_nat level = Some fs ∧
    GetOverlappingInputs levels level (Some s) (Some l) = Done inputs ∧ inputs ⊆ fs ∧ (length inputs ≤ length fs)%nat ∧
    (∀ f, f ∈ fs → within s l f → f ∈ inputs) ∧ (level ≠ 0 → ∀ f, f ∈ inputs → within s l f).
Proof.
  intros Hl Hlev Hs Hlk.
  destruct (run_GetOverlappingInputs levels level (Some s) (Some l) Hl Hlev) as (fs & lo & hi & Efs & E & Hlo & Hhi & Hc).
  { by intros k [[= <-]|[= <-]]. }
  exists fs, (filter (overlaps lo hi) fs). split_and!; [done|done| |apply length_filter| |].
  - intros f [_ Hf]%list_elem_of_filter. done.
  - intros f Hf [Ha Hb]. apply list_elem_of_filter. split; [|done]. destruct lo as [lo|], hi as [hi|]; try done.
    specialize (Ha _ eq_refl). specialize (Hb _ eq_refl). cbn in Hlo, Hhi.
    split; intros k [= <-]; by eapply compare_trans.
  - intros Hne f [Hf _]%list_elem_of_filter. rewrite decide_False in Hc by done. destruct Hc as [-> ->]. exact Hf.
Qed.

(** In level 0 what overlaps the range of the inputs is one of them. *)
Definition closed_inputs (level : Z) fs inputs : Prop :=
  level = 0 → ∀ s l f, range_of inputs s l → f ∈ fs → within s l f → f ∈ inputs.

Lemma run_inputs levels level begin end_ :
  levels_ok levels → 0 ≤ level < kNumLevels → (∀ k, begin = Some k ∨ end_ = Some k → long_key k) →
  ∃ fs inputs, levels !! Z.to_nat level = Some fs ∧ GetOverlappingInputs levels level begin end_ = Done inputs ∧
    inputs ⊆ fs ∧ closed_inputs level fs inputs.
Proof.
  intros Hl Hlev Hk. destruct (run_GetOverlappingInputs levels level begin end_ Hl Hlev Hk) as (fs & lo & hi & Efs & E & _ & _ & Hc).
  exists fs, (filter (overlaps lo hi) fs). split_and!; [done..|by intros f [_ Hf]%list_elem_of_filter|].
  intros -> s l f ((g & Hg & ->) & (g' & Hg' & ->) & _) Hf [Ha Hb]. rewrite decide_True in Hc by done.
  apply list_elem_of_filter in Hg as [Hog Hg], Hg' as [Hog' Hg']. destruct (Hc g Hg Hog) as [Hng _], (Hc g' Hg' Hog') as [_ Hng'].
  specialize (Ha _ eq_refl). specialize (Hb _ eq_refl). apply list_elem_of_filter. split; [|done]. split.
  - intros k ->. eapply compare_trans; [|exact Ha]. apply compare_nlt_ge. cbn in Hng. lia.
  - intros k ->. eapply compare_trans; [exact Hb|]. cbn in Hng'. lia.
Qed.

(** ** Sizes *)

Definition sizes_ok (levels : list files) : Prop :=
  ∀ i fs f, levels !! i = Some fs → f ∈ fs → 0 ≤ f_file_size f < 2 ^ 31.

Lemma total_loop fs : ∀ sum,
  0 ≤ sum → (∀ f, f ∈ fs → 0 ≤ f_file_size f < 2 ^ 31) → sum + 2 ^ 31 * Z.of_nat (length fs) < 2 ^ 63 →
  sum ≤ foldl (λ sum f, s64 (sum + f_file_size f)) sum fs ≤ sum + 2 ^ 31 * Z.of_nat (length fs).
Proof.
  change (2 ^ 31) with 2147483648. change (2 ^ 63) with 9223372036854775808.
  induction fs as [|f fs IH]; intros sum Hs Hf Hb; cbn [foldl length] in *; [lia|].
  destruct (Hf f ltac:(by left)) as [H1 H2].
  rewrite wraps_small by (try change (2 ^ (64 - 1)) with 9223372036854775808; lia).
  destruct (IH (sum + f_file_size f)) as [H3 H4]; [lia|intros g Hg; apply Hf; by right|lia|]. lia.
Qed.
Lemma TotalFileSize_bound fs :
  (∀ f, f ∈ fs → 0 ≤ f_file_size f < 2 ^ 31) → Z.of_nat (length fs) < 2 ^ 31 → 0 ≤ TotalFileSize fs < 2 ^ 62.
Proof.
  change (2 ^ 31) with 2147483648. intros Hf Hl. unfold TotalFileSize.
  pose proof (total_loop fs 0 ltac:(lia) Hf) as H. change (2 ^ 31) with 2147483648 in H.
  change (2 ^ 63) with 9223372036854775808 in H. change (2 ^ 62) with 4611686018427387904. lia.
Qed.

Lemma run_expanded_limit max_file_size :
  size_ok max_file_size → ExpandedCompactionByteSizeLimit max_file_size = Done (25 * max_file_size).
Proof.
  intros H. unfold ExpandedCompactionByteSizeLimit. rewrite run_TargetFileSize by done. apply run_int_mul. destruct H. lia.
Qed.

(** ** Setting up *)

Section setup.
Variables (max_file_size : Z) (levels : list files) (level : Z) (fs0 fs1 : files).
Hypothesis Hsize : size_ok max_file_size.
Hypothesis Hlevels : levels_ok levels.
Hypothesis Hsizes : sizes_ok levels.
Hypothesis Hlevel : 0 ≤ level ∧ level + 1 < kNumLevels.
Hypothesis Hfs0 : levels !! Z.to_nat level = Some fs0.
Hypothesis Hfs1 : levels !! Z.to_nat (level + 1) = Some fs1.

Lemma level_ok_files fs i inputs : levels !! i = Some fs → inputs ⊆ fs → Forall file_ok inputs.
Proof.
  intros E Hsub. destruct (lv_files _ Hlevels _ _ E) as [Hok _]. rewrite Forall_forall in *. intros f Hf. by apply Hok, Hsub.
Qed.
Lemma range_long inputs s l : Forall file_ok inputs → range_of inputs s l → long_key s ∧ long_key l.
Proof.
  rewrite Forall_forall. intros Hok ((f & Hf & ->) & (g & Hg & ->) & _). by split; apply file_long, Hok.
Qed.

(** Inputs that are complete: what overlaps them in the next level is with them. *)
Definition complete (inputs0 inputs1 : files) (s l : list Z) : Prop :=
  inputs0 ≠ [] ∧ inputs0 ⊆ fs0 ∧ closed_inputs level fs0 inputs0 ∧ range_of inputs0 s l ∧
  ∀ f, f ∈ inputs1 ↔ f ∈ fs1 ∧ within s l f.

Lemma complete_ok inputs0 inputs1 s l :
  complete inputs0 inputs1 s l → Forall file_ok (inputs0 ++ inputs1) ∧ inputs0 ++ inputs1 ≠ [].
Proof.
  intros (Hne & Hsub & _ & _ & Hin). split; [|by destruct inputs0]. apply Forall_app. split.
  - exact (level_ok_files fs0 _ _ Hfs0 Hsub).
  - apply (level_ok_files fs1 _ _ Hfs1). by intros f [Hf _]%Hin.
Qed.

Lemma run_next_level inputs0 :
  inputs0 ≠ [] → inputs0 ⊆ fs0 → closed_inputs level fs0 inputs0 →
  ∃ s l inputs1, GetRange inputs0 = Done (s, l) ∧ GetOverlappingInputs levels (level + 1) (Some s) (Some l) = Done inputs1 ∧
    (length inputs1 ≤ length fs1)%nat ∧ complete inputs0 inputs1 s l.
Proof.
  intros Hne Hsub Hcl. pose proof (level_ok_files fs0 _ _ Hfs0 Hsub) as Hok.
  destruct (run_GetRange inputs0 Hok Hne) as (s & l & E & Hr). destruct (range_long _ _ _ Hok Hr) as [Hls Hll].
  destruct (run_overlapping levels (level + 1) s l Hlevels ltac:(lia) Hls Hll) as (fs & inputs1 & Efs & Ei & Hin & Hlen & Hall & Hov).
  assert (fs = fs1) as -> by congruence.
  exists s, l, inputs1. split_and!; [done..|]. split_and!; [done..|]. intros f. split; [|naive_solver].
  intros Hf. split; [by apply Hin|]. apply Hov; [lia|done].
Qed.

Lemma sum_small inputs expanded :
  inputs ⊆ fs1 → (length inputs ≤ length fs1)%nat → expanded ⊆ fs0 → (length expanded ≤ length fs0)%nat →
  int64_add (TotalFileSize inputs) (TotalFileSize expanded) = Done (TotalFileSize inputs + TotalFileSize expanded).
Proof.
  intros Hi Hil He Hel.
  destruct (lv_files _ Hlevels _ _ Hfs0) as [_ Hl0], (lv_files _ Hlevels _ _ Hfs1) as [_ Hl1].
  pose proof (TotalFileSize_bound inputs (λ f Hf, Hsizes _ _ f Hfs1 (Hi f Hf)) ltac:(lia)) as H1.
  pose proof (TotalFileSize_bound expanded (λ f Hf, Hsizes _ _ f Hfs0 (He f Hf)) ltac:(lia)) as H2.
  change (2 ^ 62) with 4611686018427387904 in *. unfold int64_add. change (2 ^ 63) with 9223372036854775808.
  by rewrite (proj2 (Z.leb_le _ _)), (proj2 (Z.ltb_lt _ _)) by lia.
Qed.

Lemma run_expand inputs0 inputs1 s l all_start all_limit :
  complete inputs0 inputs1 s l → (length inputs1 ≤ length fs1)%nat → range_of (inputs0 ++ inputs1) all_start all_limit →
  ∃ i0 i1 s' l' a b, expand_inputs max_file_size levels level inputs0 inputs1 l all_start all_limit = Done (i0, i1, l', a, b) ∧
    complete i0 i1 s' l' ∧ range_of (i0 ++ i1) a b ∧ inputs0 ⊆ i0.
Proof.
  intros Hc Hlen Hr. destruct (complete_ok _ _ _ _ Hc) as [Hok _]. destruct (range_long _ _ _ Hok Hr) as [Hla Hlb].
  assert (∃ i0 i1 s' l' a b, Done (inputs0, inputs1, l, all_start, all_limit) = Done (i0, i1, l', a, b) ∧
    complete i0 i1 s' l' ∧ range_of (i0 ++ i1) a b ∧ inputs0 ⊆ i0) as Hsame by (by eexists inputs0, inputs1, s, l, _, _).
  unfold expand_inputs. cbv zeta. case_bool_decide as Hne; [done|].
  destruct (run_overlapping levels level all_start all_limit Hlevels ltac:(lia) Hla Hlb) as (fs & e0 & Efs & E0 & Hin & Hl0 & Hall & _).
  assert (fs = fs0) as -> by congruence.
  destruct (run_inputs levels level (Some all_start) (Some all_limit) Hlevels ltac:(lia)) as (fs & e0' & Efs' & Ee0 & _ & Hcl0);
    [by intros k [[= <-]|[= <-]]|].
  rewrite E0 in Ee0. injection Ee0 as <-. assert (fs = fs0) as -> by congruence. rewrite E0, obind_done. pose proof Hc as (H0 & Hsub0 & _ & _ & Hi1).
  assert (inputs0 ⊆ e0) as Hgrow.
  { intros f Hf. apply Hall; [by apply Hsub0|]. eapply within_range; [|exact Hr|by apply elem_of_app; left].
    apply Forall_app in Hok as [Hok _]. rewrite Forall_forall in Hok. by apply Hok. }
  assert (∃ b : bool, (if (length inputs0 <? length e0)%nat
    then sum ← int64_add (TotalFileSize inputs1) (TotalFileSize e0);
         limit ← ExpandedCompactionByteSizeLimit max_file_size; Done (sum <? limit)
    else Done false) = Done b) as [[] ->]; [| |done].
  { destruct (_ <? _)%nat; [|by exists false]. rewrite sum_small, obind_done by (done || by intros f [Hf _]%Hi1).
    rewrite run_expanded_limit, obind_done by done. by eexists. }
  rewrite obind_done. destruct (run_next_level e0) as (s' & l' & e1 & -> & E1 & _ & Hc'); [|done| |].
  { intros ->. destruct inputs0 as [|f inputs0]; [done|]. specialize (Hgrow f ltac:(by left)). by apply not_elem_of_nil in Hgrow. }
  { done. }
  rewrite obind_done, E1, obind_done. destruct (_ =? _)%nat; [|done]. destruct (complete_ok _ _ _ _ Hc') as [Hok' Hne'].
  unfold GetRange2. destruct (run_GetRange _ Hok' Hne') as (a & b & -> & Hr'). rewrite obind_done.
  by eexists e0, e1, s', l', a, b.
Qed.

(** The compaction is set up with complete inputs, and the next one of the level starts
    after them. *)
Lemma run_Setup c pointers :
  c_level_ c = level → c_inputs_0 c ≠ [] → c_inputs_0 c ⊆ fs0 → closed_inputs level fs0 (c_inputs_0 c) → (length pointers = Z.to_nat kNumLevels)%nat →
  ∃ c' s l, SetupOtherInputs max_file_size levels c pointers = Done (c', <[Z.to_nat level := l]> pointers) ∧
    complete (c_inputs_0 c') (c_inputs_1 c') s l ∧ c_inputs_0 c ⊆ c_inputs_0 c' ∧
    c_level_ c' = level ∧ c_input_version_ c' = c_input_version_ c ∧ c_level_ptrs_ c' = c_level_ptrs_ c.
Proof.
  intros Elev Hne Hsub Hcl Hp. unfold SetupOtherInputs. cbv zeta. rewrite Elev.
  destruct (run_next_level _ Hne Hsub Hcl) as (s & l & inputs1 & -> & E1 & Hlen & Hc). rewrite obind_done. rewrite E1, obind_done.
  destruct (complete_ok _ _ _ _ Hc) as [Hok Hne']. unfold GetRange2.
  destruct (run_GetRange _ Hok Hne') as (a & b & -> & Hr). rewrite obind_done.
  destruct (run_expand _ _ _ _ _ _ Hc Hlen Hr) as (i0 & i1 & s' & l' & a' & b' & -> & Hc' & Hr' & Hgrow). rewrite obind_done.
  destruct (complete_ok _ _ _ _ Hc') as [Hok' _]. destruct (range_long _ _ _ Hok' Hr') as [Hla Hlb].
  assert (∃ gs, (if level + 2 <? kNumLevels then GetOverlappingInputs levels (level + 2) (Some a') (Some b') else Done []) = Done gs)
    as [gs ->].
  { destruct (Z.ltb_spec (level + 2) kNumLevels); [|by eexists].
    destruct (run_overlapping levels (level + 2) a' b' Hlevels ltac:(lia) Hla Hlb) as (fs & gs & _ & E & _). by exists gs. }
  rewrite obind_done. pose proof Hc' as (_ & Hsub' & _ & Hr0 & _).
  destruct (range_long i0 s' l' (level_ok_files fs0 _ _ Hfs0 Hsub') Hr0) as [_ Hl'].
  rewrite run_ikey_Encode by done. cbn [need]. rewrite obind_done. eexists _, s', l'. split; [reflexivity|]. done.
Qed.
End setup.

(** ** Picking *)

Definition pointers_ok (pointers : list (list Z)) : Prop :=
  length pointers = Z.to_nat kNumLevels ∧ ∀ i p, pointers !! i = Some p → p = [] ∨ long_key p.

Lemma run_first_after fs pointer :
  Forall file_ok fs → pointer = [] ∨ long_key pointer →
  ∃ o, first_after fs pointer = Done o ∧ ∀ f, o = Some f → f ∈ fs.
Proof.
  intros Hok Hp. induction Hok as [|f fs Hf _ (o & E & Ho)]; [by exists None|]. cbn [first_after].
  case_bool_decide as Hnil; [exists (Some f); split; [done|]; intros ? [= <-]; by left|].
  destruct Hp as [|Hp]; [done|]. destruct (file_long f Hf) as [_ Hl].
  rewrite run_ikey_Encode by done. cbn [need]. rewrite obind_done, run_icmp, obind_done by done.
  destruct (_ <? _); [exists (Some f)|exists o]; (split; [done|]); intros g Eg; [injection Eg as <-; by left|right; by apply Ho].
Qed.

(** A compaction with complete inputs at two levels of the version. *)
Definition picked levels (c : Compaction) : Prop :=
  ∃ fs0 fs1 s l, 0 ≤ c_level_ c ∧ c_level_ c + 1 < kNumLevels ∧ levels !! Z.to_nat (c_level_ c) = Some fs0 ∧
    levels !! Z.to_nat (c_level_ c + 1) = Some fs1 ∧ complete (c_level_ c) fs0 fs1 (c_inputs_0 c) (c_inputs_1 c) s l ∧
    c_input_version_ c = levels ∧ c_level_ptrs_ c = replicate (Z.to_nat kNumLevels) 0.

Section pick.
Variables (max_file_size : Z) (levels : list files) (pointers : list (list Z)).
Hypothesis Hsize : size_ok max_file_size.
Hypothesis Hlevels : levels_ok levels.
Hypothesis Hsizes : sizes_ok levels.
Hypothesis Hpointers : pointers_ok pointers.

Lemma run_Setup_picked level fs0 inputs0 :
  0 ≤ level → level + 1 < kNumLevels → levels !! Z.to_nat level = Some fs0 →
  inputs0 ≠ [] → inputs0 ⊆ fs0 → closed_inputs level fs0 inputs0 →
  ∃ c pointers', SetupOtherInputs max_file_size levels (set_inputs inputs0 [] (new_Compaction max_file_size level levels)) pointers
      = Done (c, pointers') ∧ picked levels c ∧ c_level_ c = level ∧ inputs0 ⊆ c_inputs_0 c ∧ length pointers' = length pointers.
Proof.
  intros H0 H1 Efs Hne Hsub Hcl. destruct (levels_lookup levels (level + 1) Hlevels ltac:(lia)) as [fs1 Efs1].
  destruct (run_Setup max_file_size levels level fs0 fs1 Hsize Hlevels Hsizes ltac:(lia) Efs Efs1
    (set_inputs inputs0 [] (new_Compaction max_file_size level levels)) pointers)
    as (c & s & l & E & Hc & Hgrow & Elev & Ever & Eptrs); [done..|by destruct Hpointers|].
  eexists c, _. split; [exact E|]. split_and!; [|done|done|by rewrite length_insert].
  exists fs0, fs1, s, l. rewrite Elev. split_and!; [done..|by rewrite Ever|by rewrite Eptrs].
Qed.

Lemma run_pick_first size_level seek_file :
  (∀ level, size_level = Some level → 0 ≤ level ∧ level + 1 < kNumLevels ∧ levels !! Z.to_nat level ≠ Some []) →
  (∀ f level, seek_file = Some (f, level) → 0 ≤ level ∧ level + 1 < kNumLevels ∧
    ∃ fs, levels !! Z.to_nat level = Some fs ∧ f ∈ fs) →
  ∃ o, pick_first levels size_level seek_file pointers = Done o ∧
    (o = None ↔ size_level = None ∧ seek_file = None) ∧
    ∀ level f, o = Some (level, f) → 0 ≤ level ∧ level + 1 < kNumLevels ∧
      ∃ fs, levels !! Z.to_nat level = Some fs ∧ f ∈ fs.
Proof.
  intros Hs Hk. unfold pick_first. destruct size_level as [level|].
  - destruct (Hs level eq_refl) as (H0 & H1 & Hne). rewrite (proj2 (Z.leb_le 0 level)), (proj2 (Z.ltb_lt _ _)) by lia. cbn [andb].
    destruct (levels_lookup levels level Hlevels ltac:(lia)) as [fs Efs]. rewrite Efs. cbn [need]. rewrite obind_done.
    destruct Hpointers as [Hpl Hp]. destruct (lookup_lt_is_Some_2 pointers (Z.to_nat level)) as [p Ep]; [rewrite Hpl; lia|].
    rewrite Ep. cbn [need]. rewrite obind_done. destruct (lv_files _ Hlevels _ _ Efs) as [Hok _].
    destruct (run_first_after fs p Hok (Hp _ _ Ep)) as (o & -> & Ho). rewrite obind_done.
    assert (∃ f, (match o with Some f => Done f | None => need (head fs) end) = Done f ∧ f ∈ fs) as (f & -> & Hf).
    { destruct o as [f|]; [exists f; split; [done|by apply Ho]|]. destruct fs as [|f fs]; [by rewrite Efs in Hne|].
      exists f. split; [done|by left]. }
    rewrite obind_done. eexists. split; [reflexivity|]. split; [naive_solver|]. intros level' f' [= <- <-]. split_and!; [done..|by exists fs].
  - eexists. split; [reflexivity|]. destruct seek_file as [[f level]|]; [|naive_solver].
    split; [naive_solver|]. intros level' f' [= <- <-]. by apply Hk.
Qed.

Lemma run_first_inputs level fs f :
  0 ≤ level → level + 1 < kNumLevels → levels !! Z.to_nat level = Some fs → f ∈ fs →
  ∃ inputs0, (if level =? 0 then
                '(smallest, largest) ← GetRange [f];
                inputs ← GetOverlappingInputs levels 0 (Some smallest) (Some largest);
                if bool_decide (inputs = []) then Undef else Done inputs
              else Done [f]) = Done inputs0 ∧ f ∈ inputs0 ∧ inputs0 ⊆ fs ∧ closed_inputs level fs inputs0.
Proof.
  intros H0 H1 Efs Hf. destruct (lv_files _ Hlevels _ _ Efs) as [Hok _]. pose proof (proj1 (Forall_forall _ _) Hok f Hf) as Hfok.
  destruct (file_long f Hfok) as [Hs Hl]. destruct (Z.eqb_spec level 0) as [->|Hne].
  - cbn [GetRange range_loop]. rewrite obind_done.
    destruct (run_overlapping levels 0 _ _ Hlevels ltac:(lia) Hs Hl) as (fs' & inputs & Efs' & E & Hin & _ & Hall & _).
    destruct (run_inputs levels 0 (Some (f_smallest f)) (Some (f_largest f)) Hlevels ltac:(lia)) as (fs2 & inputs2 & Efs2 & E2 & _ & Hcl);
      [by intros k [[= <-]|[= <-]]|]. assert (fs' = fs) as -> by congruence. assert (fs2 = fs) as -> by congruence.
    rewrite E in E2. injection E2 as <-. rewrite E, obind_done. assert (f ∈ inputs) as Hfi.
    { apply Hall; [done|]. pose proof (file_ok_users f Hfok). split; by intros k [= <-]. }
    rewrite bool_decide_eq_false_2 by (intros ->; by apply not_elem_of_nil in Hfi). by exists inputs.
  - exists [f]. split; [done|]. split_and!; [by left| |by intros ?]. by intros g ->%list_elem_of_singleton.
Qed.

Lemma run_PickCompaction size_level seek_file :
  (∀ level, size_level = Some level → 0 ≤ level ∧ level + 1 < kNumLevels ∧ levels !! Z.to_nat level ≠ Some []) →
  (∀ f level, seek_file = Some (f, level) → 0 ≤ level ∧ level + 1 < kNumLevels ∧
    ∃ fs, levels !! Z.to_nat level = Some fs ∧ f ∈ fs) →
  ∃ o pointers', PickCompaction max_file_size levels size_level seek_file pointers = Done (o, pointers') ∧
    (o = None ↔ size_level = None ∧ seek_file = None) ∧ ∀ c, o = Some c → picked levels c.
Proof.
  intros Hs Hk. unfold PickCompaction. destruct (run_pick_first size_level seek_file Hs Hk) as (o & -> & Hnone & Ho).
  rewrite obind_done. destruct o as [[level f]|].
  2:{ exists None, pointers. split; [done|]. split; [|done]. by split; [intros _; apply Hnone|]. }
  destruct (Ho level f eq_refl) as (H0 & H1 & fs & Efs & Hf). cbv zeta.
  destruct (run_first_inputs level fs f H0 H1 Efs Hf) as (inputs0 & -> & Hin & Hsub & Hcl). rewrite obind_done.
  destruct (run_Setup_picked level fs inputs0 H0 H1 Efs) as (c & pointers' & -> & Hp & _); [|done..|].
  { intros ->. by apply not_elem_of_nil in Hin. }
  rewrite obind_done. exists (Some c), pointers'. split; [done|]. split; [naive_solver|]. by intros ? [= <-].
Qed.

Lemma limit_inputs_prefix limit inputs : ∀ total, limit_inputs inputs total limit ⊆ inputs ∧ (inputs ≠ [] → limit_inputs inputs total limit ≠ []).
Proof.
  induction inputs as [|f inputs IH]; intros total; [done|]. cbn [limit_inputs].
  destruct (_ <=? _); (split; [|done]); intros g; rewrite !elem_of_cons.
  - intros [->|[]%not_elem_of_nil]. by left.
  - intros [->|Hg]; [by left|right]. by apply (IH (u64 (total + f_file_size f))).
Qed.

Lemma run_CompactRange level begin end_ :
  0 ≤ level → level + 1 < kNumLevels → (∀ k, begin = Some k ∨ end_ = Some k → long_key k) →
  ∃ o pointers', CompactRange max_file_size levels level begin end_ pointers = Done (o, pointers') ∧
    ∀ c, o = Some c → picked levels c.
Proof.
  intros H0 H1 Hk. unfold CompactRange.
  destruct (run_inputs levels level begin end_ Hlevels ltac:(lia) Hk) as (fs & inputs & Efs & -> & Hsub & Hcl). rewrite obind_done.
  case_bool_decide as Hne; [by exists None, pointers|]. cbv zeta.
  set (inputs0 := if 0 <? level then _ else _).
  destruct (run_Setup_picked level fs inputs0 H0 H1 Efs) as (c & pointers' & -> & Hp & _).
  - unfold inputs0. destruct (_ <? _); [by apply limit_inputs_prefix|done].
  - unfold inputs0. destruct (_ <? _); [|done]. intros f Hf. apply Hsub. by apply (proj1 (limit_inputs_prefix _ _ 0)) in Hf.
  - intros ->. unfold inputs0. change (0 <? 0) with false. cbv iota. by apply Hcl.
  - rewrite obind_done. exists (Some c), pointers'. split; [done|]. by intros ? [= <-].
Qed.
End pick.

(** ** Data below *)

Definition has_key key : FileMetaData → Prop := overlaps (Some key) (Some key).

Lemma run_advance key fs : ∀ ptr,
  Forall file_ok fs → disjoint fs →
  ∃ (k : nat) found, advance_ptr fs ptr key = Done (ptr + Z.of_nat k, found) ∧ (k ≤ length fs)%nat ∧
    (∀ j f, fs !! j = Some f → (j < k)%nat → compare_ (user (f_largest f)) key < 0) ∧
    (found = true ↔ ∃ f, f ∈ fs ∧ has_key key f).
Proof.
  induction fs as [|f fs IH]; intros ptr Hok Hd.
  { exists O, false. rewrite Z.add_0_r. split_and!; [done|done|done|]. split; [done|]. by intros (f & ?%not_elem_of_nil & _). }
  pose proof Hok as [Hf Hok']%Forall_cons. pose proof Hd as [Hd' Hlt]%StronglySorted_inv. destruct (file_ok_lengths f Hf) as [Hls Hll].
  cbn [advance_ptr]. rewrite (run_ikey_user (f_largest f)), obind_done by done. destruct (Z.leb_spec (compare_ key (user (f_largest f))) 0) as [Hle|Hgt].
  - rewrite (run_ikey_user (f_smallest f)), obind_done by done. exists O. eexists. rewrite Z.add_0_r. split; [reflexivity|]. split_and!; [lia|by intros ? ? ? ?%Nat.nlt_0_r|].
    rewrite Z.leb_le. split.
    + intros Hge. exists f. split; [by left|]. split; intros k [= <-]; [done|]. apply compare_nlt_ge. lia.
    + intros (g & Hg & Ha & Hb). specialize (Hb _ eq_refl).
      assert (compare_ (user (f_smallest f)) key ≤ 0) as Hs; [|apply compare_nlt_ge in Hs; lia].
      apply elem_of_cons in Hg as [->|Hg]; [done|]. rewrite Forall_forall in Hlt. pose proof (Hlt g Hg) as Hfg%ikey_lt_user.
      eapply compare_trans; [by apply file_ok_users|]. by eapply compare_trans.
  - destruct (IH (ptr + 1) Hok' Hd') as (k & found & -> & Hk & Hbelow & Hfound). exists (S k), found.
    split_and!; [f_equal; f_equal; lia|simpl; lia| |].
    + intros [|j] g Eg Hj; [injection Eg as <-; by apply compare_sym|]. apply (Hbelow j g Eg). lia.
    + rewrite Hfound. split; intros (g & Hg & Hk'); exists g; (split; [|done]); [by right|].
      apply elem_of_cons in Hg as [->|Hg]; [|done]. destruct Hk' as [Ha _]. specialize (Ha _ eq_refl). lia.
Qed.

(** The pointers of the levels below: the files before them end before the key. *)
Definition ptrs_ok (levels : list files) (level : Z) (ptrs : list Z) key : Prop :=
  ∀ lvl, level + 2 ≤ lvl < kNumLevels → ∃ fs (p : nat), levels !! Z.to_nat lvl = Some fs ∧ ptrs !! Z.to_nat lvl = Some (Z.of_nat p) ∧
    (p ≤ length fs)%nat ∧ ∀ j f, fs !! j = Some f → (j < p)%nat → compare_ (user (f_largest f)) key < 0.

Lemma ptrs_ok_mono levels level ptrs key key' :
  compare_ key key' ≤ 0 → ptrs_ok levels level ptrs key → ptrs_ok levels level ptrs key'.
Proof.
  intros Hle Hp lvl Hlvl. destruct (Hp lvl Hlvl) as (fs & p & Efs & Ep & Hl & Hb). exists fs, p. split_and!; [done..|].
  intros j f Ef Hj. eapply compare_lt_le_trans; [by eapply Hb|done].
Qed.
Lemma ptrs_ok_start levels level key :
  levels_ok levels → 0 ≤ level → ptrs_ok levels level (replicate (Z.to_nat kNumLevels) 0) key.
Proof.
  intros Hl H0 lvl Hlvl. destruct (levels_lookup levels lvl Hl ltac:(lia)) as [fs Efs]. exists fs, O. split_and!; [done| |lia|lia].
  apply lookup_replicate. split; [done|lia].
Qed.

Lemma run_base_loop levels level key : levels_ok levels → 0 ≤ level → ∀ n lvl ptrs,
  level + 2 ≤ lvl → lvl + Z.of_nat n = kNumLevels → ptrs_ok levels level ptrs key →
  ∃ b ptrs', base_loop n levels lvl ptrs key = Done (b, ptrs') ∧ ptrs_ok levels level ptrs' key ∧
    (b = true ↔ ∀ i fs f, lvl ≤ i < kNumLevels → levels !! Z.to_nat i = Some fs → f ∈ fs → ¬ has_key key f).
Proof.
  intros Hl H0. induction n as [|n IH]; intros lvl ptrs Hlvl Hn Hp.
  { exists true, ptrs. split_and!; [done|done|]. split; [lia|done]. }
  cbn [base_loop]. destruct (Hp lvl ltac:(lia)) as (fs & p & Efs & Ep & Hpl & Hbelow). rewrite Efs, Ep. cbn [need]. rewrite !obind_done.
  destruct (lv_files _ Hl _ _ Efs) as [Hok _]. pose proof (lv_disjoint _ Hl _ _ Efs ltac:(lia)) as Hd.
  rewrite Nat2Z.id. pose proof (Forall_drop _ p _ Hok) as Hok2. pose proof Hd as Hd2.
  rewrite <-(take_drop p fs) in Hd2. apply StronglySorted_app in Hd2 as (_ & _ & Hd2).
  destruct (run_advance key (drop p fs) (Z.of_nat p) Hok2 Hd2) as (k & found & -> & Hk & Hadv & Hfound). rewrite obind_done. cbv zeta.
  rewrite length_drop in Hk.
  assert (ptrs_ok levels level (<[Z.to_nat lvl:=Z.of_nat p + Z.of_nat k]> ptrs) key) as Hp'.
  { intros i Hi. destruct (decide (i = lvl)) as [->|Hne].
    - exists fs, (p + k)%nat. split_and!; [done| |lia|].
      + rewrite list_lookup_insert_eq by (by eapply lookup_lt_Some). f_equal. lia.
      + intros j f Ef Hj. destruct (decide (j < p)%nat) as [|Hge]; [by eapply Hbelow|].
        apply (Hadv (j - p)%nat f); [|lia]. rewrite lookup_drop. by replace (p + (j - p))%nat with j by lia.
    - destruct (Hp i Hi) as (fs' & p' & H1 & H2 & H3). exists fs', p'. split_and!; [done| |apply H3..].
      rewrite list_lookup_insert_ne by lia. done. }
  assert (∀ f, f ∈ fs → has_key key f → f ∈ drop p fs) as Hrest.
  { intros f [j Ef]%list_elem_of_lookup [Ha _]. specialize (Ha _ eq_refl). destruct (decide (j < p)%nat) as [Hj|Hge].
    - pose proof (Hbelow j f Ef Hj) as Hlt%compare_sym. lia.
    - apply list_elem_of_lookup. exists (j - p)%nat. rewrite lookup_drop. by replace (p + (j - p))%nat with j by lia. }
  destruct found.
  - exists false, (<[Z.to_nat lvl:=Z.of_nat p + Z.of_nat k]> ptrs). split_and!; [done|done|]. split; [done|]. intros Hno.
    destruct (proj1 Hfound eq_refl) as (f & Hf & Hkf). destruct (Hno lvl fs f ltac:(lia) Efs); [|done].
    by eapply subseteq_drop.
  - destruct (IH (lvl + 1) _ ltac:(lia) ltac:(lia) Hp') as (b & ptrs' & E & Hp2 & Hb). exists b, ptrs'. split_and!; [done|done|].
    rewrite Hb. split; [|intros H i fs' f Hi; apply H; lia]. intros H i fs' f Hi Efs' Hf.
    destruct (decide (i = lvl)) as [->|]; [|apply (H i fs'); [lia|done..]].
    assert (fs' = fs) as -> by congruence. intros Hkf. assert (false = true); [|done]. apply Hfound. exists f. split; [by apply Hrest|done].
Qed.

(** No file of a level below the next one has the key. *)
Definition base_key (levels : list files) (level : Z) key : Prop :=
  ∀ i fs f, level + 2 ≤ i < kNumLevels → levels !! Z.to_nat i = Some fs → f ∈ fs → ¬ has_key key f.

Lemma run_IsBaseLevel c key :
  levels_ok (c_input_version_ c) → 0 ≤ c_level_ c → c_level_ c + 1 < kNumLevels →
  ptrs_ok (c_input_version_ c) (c_level_ c) (c_level_ptrs_ c) key →
  ∃ b ptrs, IsBaseLevelForKey key c = Done (b, MkCompaction (c_level_ c) (c_max_output_file_size_ c) (c_input_version_ c) (c_edit_ c)
      (c_inputs_0 c) (c_inputs_1 c) (c_grandparents_ c) (c_grandparent_index_ c) (c_seen_key_ c) (c_overlapped_bytes_ c) ptrs) ∧
    (b = true ↔ base_key (c_input_version_ c) (c_level_ c) key) ∧
    ptrs_ok (c_input_version_ c) (c_level_ c) ptrs key.
Proof.
  intros Hl H0 H1 Hp. unfold IsBaseLevelForKey.
  destruct (run_base_loop _ _ key Hl H0 (Z.to_nat (kNumLevels - (c_level_ c + 2))) (c_level_ c + 2) (c_level_ptrs_ c))
    as (b & ptrs & -> & Hp' & Hb); [lia|lia|done|].
  rewrite obind_done. by exists b, ptrs.
Qed.

(** ** Grandparents *)

Lemma run_skip_grandparents gs seen key : ∀ index bytes,
  Forall file_ok gs → long_key key →
  ∃ index' bytes', skip_grandparents gs index bytes seen key = Done (index', bytes') ∧ index ≤ index' ≤ index + Z.of_nat (length gs).
Proof.
  induction gs as [|f gs IH]; intros index bytes Hok Hk; [by exists index, bytes; split; [|simpl; lia]|].
  apply Forall_cons in Hok as [Hf Hok]. destruct (file_long f Hf) as [_ Hl]. cbn [skip_grandparents length].
  rewrite run_ikey_Encode by done. cbn [need]. rewrite obind_done, run_icmp, obind_done by done.
  destruct (_ <? _); [|by exists index, bytes; split; [|lia]].
  destruct (IH (index + 1) (if seen then s64 (bytes + f_file_size f) else bytes) Hok Hk) as (i & b & E & Hi).
  exists i, b. split; [exact E|lia].
Qed.

Lemma run_ShouldStopBefore max_file_size c key :
  size_ok max_file_size → Forall file_ok (c_grandparents_ c) → 0 ≤ c_grandparent_index_ c → long_key key →
  ∃ stop index bytes, ShouldStopBefore max_file_size key c = Done (stop, MkCompaction (c_level_ c) (c_max_output_file_size_ c)
      (c_input_version_ c) (c_edit_ c) (c_inputs_0 c) (c_inputs_1 c) (c_grandparents_ c) index true bytes (c_level_ptrs_ c)) ∧
    0 ≤ index.
Proof.
  intros Hs Hok Hi Hk. unfold ShouldStopBefore.
  destruct (run_skip_grandparents (drop (Z.to_nat (c_grandparent_index_ c)) (c_grandparents_ c)) (c_seen_key_ c) key
    (c_grandparent_index_ c) (c_overlapped_bytes_ c)) as (i & b & -> & Hi'); [by apply Forall_drop|done|].
  rewrite obind_done, run_grandparent_limit, obind_done by done. eexists _, i, _. split; [reflexivity|lia].
Qed.
End compaction_spec.

(** ** Theorems *)

(** C10: picking a compaction is total, and it picks one unless there is nothing to do.
    Its inputs are complete: of the level there is at least one file, and in level 0 all
    files that overlap the range of the inputs; of the next level there are exactly the
    files that overlap the range of user keys of the inputs. A manual compaction of a
    range picks in the same way. *)
Theorem compaction_inputs_complete `{UC : Comparator (list Z)} `{!ComparatorLaws (list Z)}
    max_file_size levels pointers size_level seek_file level begin end_ :
  size_ok max_file_size → levels_ok levels → sizes_ok levels → pointers_ok pointers →
  (∀ level, size_level = Some level → 0 ≤ level ∧ level + 1 < kNumLevels ∧ levels !! Z.to_nat level ≠ Some []) →
  (∀ f level, seek_file = Some (f, level) → 0 ≤ level ∧ level + 1 < kNumLevels ∧
    ∃ fs, levels !! Z.to_nat level = Some fs ∧ f ∈ fs) →
  0 ≤ level → level + 1 < kNumLevels → (∀ k, begin = Some k ∨ end_ = Some k → long_key k) →
  (∃ o pointers', PickCompaction max_file_size levels size_level seek_file pointers = Done (o, pointers') ∧
    (o = None ↔ size_level = None ∧ seek_file = None) ∧ ∀ c, o = Some c → picked levels c) ∧
  ∃ o pointers', CompactRange max_file_size levels level begin end_ pointers = Done (o, pointers') ∧
    ∀ c, o = Some c → picked levels c.
Proof.
  intros Hsize Hl Hsizes Hp Hs Hk H0 H1 Hb. split; [by apply run_PickCompaction|by apply run_CompactRange].
Qed.

(** The question for each key in turn. *)
Fixpoint ask_base `{UC : Comparator (list Z)} (keys : list (list Z)) : M Compaction (list bool) :=
  match keys with
  | [] => mret []
  | key :: keys => b ← IsBaseLevelForKey key; bs ← ask_base keys; mret (b :: bs)
  end.

(** C13: when keys come in order, the question whether a key has no data below the output
    of a compaction is answered right for each of them, although the pointers of the
    levels never go back. *)
Theorem base_level_right `{UC : Comparator (list Z)} `{!ComparatorLaws (list Z)} c keys :
  levels_ok (c_input_version_ c) → 0 ≤ c_level_ c → c_level_ c + 1 < kNumLevels →
  c_level_ptrs_ c = replicate (Z.to_nat kNumLevels) 0 →
  StronglySorted (λ a b, compare_ a b ≤ 0) keys →
  ∃ bs c', ask_base keys c = Done (bs, c') ∧
    Forall2 (λ key b, b = true ↔ base_key (c_input_version_ c) (c_level_ c) key) keys bs.
Proof.
  intros Hl H0 H1 Hptrs Hsort.
  assert (∀ key, head keys = Some key → ptrs_ok (c_input_version_ c) (c_level_ c) (c_level_ptrs_ c) key) as Hstart.
  { intros key _. rewrite Hptrs. by apply ptrs_ok_start. }
  clear Hptrs. revert c Hl H0 H1 Hstart. induction Hsort as [|key keys Hsort IH Hlt]; intros c Hl H0 H1 Hstart.
  { exists [], c. split; [done|constructor]. }
  destruct (run_IsBaseLevel c key Hl H0 H1 (Hstart key eq_refl)) as (b & ptrs & E & Hb & Hp).
  cbn [ask_base]. rewrite (bind_done _ _ _ _ _ E).
  match type of E with _ = Done (_, ?c1) => destruct (IH c1) as (bs & c2 & E2 & Hbs) end; [done..| |].
  { intros key' Hkey'. destruct keys as [|key0 keys]; [done|]. injection Hkey' as ->. apply Forall_cons in Hlt as [Hle _].
    by eapply ptrs_ok_mono. }
  exists (b :: bs), c2. split; [by rewrite (bind_done _ _ _ _ _ E2)|]. by constructor.
Qed.

(** ** Versions of a key in two files

    A level can have versions of a user key at the end of a file and at the start of the
    next one. What is picked of level 1 or above is one file: the older version stays
    where it is while the newer one moves below it. *)
Section straddling.
#[local] Existing Instance bytewise_compare.

Definition straddling_heap : file_heap :=
  {[ 1 := new_FileMetaData 11 100 (ikey_of 97 9) (ikey_of 98 9); 2 := new_FileMetaData 12 100 (ikey_of 98 5) (ikey_of 99 5) ]}.
Definition straddling_tables : tables :=
  [(11, 100, [MkUpdate 9 kTypeValue [97] [1]; MkUpdate 9 kTypeValue [98] [2]]);
   (12, 100, [MkUpdate 5 kTypeValue [98] [3]; MkUpdate 5 kTypeValue [99] [4]])].
Definition straddling_files : list files :=
  [[]; [new_FileMetaData 11 100 (ikey_of 97 9) (ikey_of 98 9); new_FileMetaData 12 100 (ikey_of 98 5) (ikey_of 99 5)]; []; []; []; []; []].
Definition before_move : Version := MkVersion 1 [[]; [1; 2]; []; []; []; []; []] None (-1).
Definition after_move : Version := MkVersion 1 [[]; [2]; [1]; []; []; []; []] None (-1).
#[local] Existing Instance list_cache.
Definition read_98 (v : Version) : option (list Z) :=
  lk ← new_LookupKey [98] 10;
  match version_Get straddling_heap v (MkReadOptions false true) lk [] straddling_tables with
  | Done (GetOk, value, _, _) => Some value
  | _ => None
  end.

(** A compaction of level 1 that is a trivial move of its first file makes a read at the
    last sequence number give the old value of a key. *)
Theorem trivial_move_hides_newest :
  (∃ c pointers, PickCompaction 2097152 straddling_files (Some 1) None (replicate 7 []) = Done (Some c, pointers) ∧
    f_number <$> c_inputs_0 c = [11] ∧ IsTrivialMove 2097152 c = Done true) ∧
  read_98 before_move = Some [2] ∧ read_98 after_move = Some [3].
Proof. split; [eexists _, _; split; [vm_compute; reflexivity|by vm_compute]|by vm_compute]. Qed.
End straddling.

(** ** Witnesses *)

Lemma compaction_inputs_complete_witness :
  ∃ o pointers, PickCompaction 2097152 sample_levels (Some 0) None (replicate 7 []) = Done (o, pointers) ∧
    (∃ c, o = Some c ∧ f_number <$> c_inputs_0 c = [5; 6]) ∧ ∀ c, o = Some c → picked sample_levels c.
Proof.
  destruct (compaction_inputs_complete 2097152 sample_levels (replicate 7 []) (Some 0) None 0 None None)
    as [(o & pointers & E & _ & H) _]; [done|exact sample_levels_ok| | | |done|done|done|by intros k [?|?]|].
  - intros i fs f Ef Hf. do 7 (destruct i as [|i]; [injection Ef as <-; repeat (apply elem_of_cons in Hf as [->|Hf]; [done|]);
      by apply not_elem_of_nil in Hf|]). done.
  - split; [done|]. intros i p [-> _]%lookup_replicate. by left.
  - intros level [= <-]. split_and!; done.
  - exists o, pointers. split_and!; [exact E| |exact H]. vm_compute in E. injection E as <- _. by eexists.
Defined.

Lemma base_level_right_witness :
  ∃ bs c', ask_base [[5]; [20]] (new_Compaction 2097152 0 sample_levels) = Done (bs, c') ∧ bs = [false; true].
Proof.
  destruct (base_level_right (new_Compaction 2097152 0 sample_levels) [[5]; [20]]) as (bs & c' & E & _);
    [exact sample_levels_ok|done|done|done|repeat constructor; by vm_compute|].
  exists bs, c'. split; [|vm_compute in E; by injection E as <- _]. exact E.
Defined.
