(* ===== verification/LdbCompactionRule.v ===== *)
(** * leveldb: what a compaction may drop

    The rule of the loop of [DoCompactionWork] (db/db_impl.cc), on a sorted list of
    updates: an update is dropped when a newer one of its key is old enough for every
    reader, and a deletion when it is old enough and nothing older is left below. Reads at
    the oldest snapshot and after it give the same as before. *)
From stdpp Require Import sorting.
From S2P Require Import Prelude LdbCoding SkipList SkipListSpec LdbFormat LdbIterator LdbMemTable LdbMemTableSpec LdbDBIterSpec LdbReads.

Section rule.
Context `{UC : Comparator (list Z)} `{CL : !ComparatorLaws (list Z)}.
(** The oldest sequence number that is read, and the keys without data below. *)
Variables (snapshot : Z) (base : list Z → bool).
Implicit Types (u v w : update) (us : list update).

(** The sequence number of the entry before, when it is of the same key. *)
Definition last_sequence (prev : option (list Z * Z)) (key : list Z) : Z :=
  match prev with
  | Some (k, s) => if compare_ key k =? 0 then s else kMaxSequenceNumber
  | None => kMaxSequenceNumber
  end.
Definition drops (prev : option (list Z * Z)) u : bool :=
  (last_sequence prev (up_key u) <=? snapshot) ||
  ((up_type u =? kTypeDeletion) && (up_seq u <=? snapshot) && base (up_key u)).
Fixpoint compact_rule (prev : option (list Z * Z)) us : list update :=
  match us with
  | [] => []
  | u :: us =>
      let rest := compact_rule (Some (up_key u, up_seq u)) us in
      if drops prev u then rest else u :: rest
  end.

Definition prev_of us : option (list Z * Z) := (λ u, (up_key u, up_seq u)) <$> last us.

(** A newer version of the key is old enough. *)
Definition hidden us v : Prop :=
  ∃ w, w ∈ us ∧ compare_ (up_key w) (up_key v) = 0 ∧ up_tag v < up_tag w ∧ up_seq w ≤ snapshot.
Definition obsolete v : Prop := up_type v = kTypeDeletion ∧ up_seq v ≤ snapshot ∧ base (up_key v) = true.

Lemma later_older us i j u w :
  updates_sorted us → us !! i = Some u → us !! j = Some w → (i < j)%nat → compare_ (up_key u) (up_key w) = 0 →
  up_tag w < up_tag u.
Proof.
  intros Hs Eu Ew Hij E. pose proof (sorted_lookup _ us i j u w Hs Eu Ew Hij) as Hlt. cbn in Hlt.
  unfold version_compare in Hlt. rewrite (proj2 (Z.eqb_eq _ _) E) in Hlt.
  destruct (Z.ltb_spec (up_tag w) (up_tag u)), (Z.ltb_spec (up_tag u) (up_tag w)); lia.
Qed.

(** The entry before tells whether there is a version that hides this one. *)
Lemma hidden_by_prev pre u us :
  updates_sorted (pre ++ u :: us) → Forall update_ok (pre ++ u :: us) → snapshot < kMaxSequenceNumber →
  last_sequence (prev_of pre) (up_key u) ≤ snapshot ↔ hidden (pre ++ u :: us) u.
Proof.
  intros Hs Hok Hsn. set (all := pre ++ u :: us) in *. rewrite Forall_lookup in Hok.
  assert (all !! length pre = Some u) as Eu by (unfold all; rewrite lookup_app_r by lia; by rewrite Nat.sub_diag).
  split.
  - unfold prev_of. destruct (last pre) as [p|] eqn:Ep; cbn; [|lia]. destruct (Z.eqb_spec (compare_ (up_key u) (up_key p)) 0) as [E|]; [|lia].
    intros Hp. rewrite last_lookup in Ep. pose proof (lookup_lt_Some _ _ _ Ep).
    assert (all !! pred (length pre) = Some p) as Ep' by (by apply lookup_app_l_Some).
    apply compare_eq_sym in E. exists p. split_and!; [by eapply list_elem_of_lookup_2|done| |done].
    apply (later_older all (pred (length pre)) (length pre) p u); [done..|lia|done].
  - intros (w & [i Ew]%list_elem_of_lookup & E & Htag & Hseq).
    assert (i < length pre)%nat as Hi.
    { destruct (Nat.lt_ge_cases i (length pre)) as [|Hge]; [done|exfalso]. destruct (decide (i = length pre)) as [->|].
      - rewrite Eu in Ew. injection Ew as ->. lia.
      - apply compare_eq_sym in E. pose proof (later_older all (length pre) i u w Hs Eu Ew ltac:(lia) E). lia. }
    destruct (lookup_lt_is_Some_2 pre (pred (length pre)) ltac:(lia)) as [p Ep].
    unfold prev_of. rewrite last_lookup, Ep. cbn. apply (lookup_app_l_Some pre (u :: us)) in Ep as Ep'. fold all in Ep'.
    pose proof (keys_le all i (pred (length pre)) w p Hs Ew Ep' ltac:(lia)) as H1.
    pose proof (keys_le all (pred (length pre)) (length pre) p u Hs Ep' Eu ltac:(lia)) as H2.
    assert (compare_ (up_key u) (up_key p) ≤ 0) as H3 by (apply compare_trans with (up_key w); [apply compare_eq_sym in E; lia|done]).
    apply compare_nlt_ge in H3. pose proof (compare_sym (up_key u) (up_key p)).
    destruct (Z.eqb_spec (compare_ (up_key u) (up_key p)) 0) as [E'|Hne].
    + destruct (decide (i = pred (length pre))) as [->|]; [congruence|].
      assert (compare_ (up_key w) (up_key p) = 0) as Ewp by (by eapply compare_eq_trans).
      pose proof (later_older all i (pred (length pre)) w p Hs Ew Ep' ltac:(lia) Ewp).
      destruct (Hok _ _ Ew) as (_ & ? & _), (Hok _ _ Ep') as (_ & ? & _). unfold up_tag in *. lia.
    + exfalso. apply Hne, compare_eq_sym. lia.
Qed.

Lemma compact_rule_spec us : ∀ pre,
  updates_sorted (pre ++ us) → Forall update_ok (pre ++ us) → snapshot < kMaxSequenceNumber →
  ∀ v, v ∈ compact_rule (prev_of pre) us ↔ v ∈ us ∧ ¬ hidden (pre ++ us) v ∧ ¬ obsolete v.
Proof.
  induction us as [|u us IH]; intros pre Hs Hok Hsn v.
  { split; [by intros ?%not_elem_of_nil|by intros [?%not_elem_of_nil _]]. }
  cbn [compact_rule]. specialize (IH (pre ++ [u])). rewrite <-app_assoc in IH. specialize (IH Hs Hok Hsn v).
  unfold prev_of in IH at 1. rewrite last_snoc in IH. cbn [fmap option_fmap option_map] in IH.
  assert (drops (prev_of pre) u = true ↔ hidden (pre ++ u :: us) u ∨ obsolete u) as Hd.
  { unfold drops, obsolete. rewrite orb_true_iff, !andb_true_iff, Z.eqb_eq, !Z.leb_le.
    rewrite (hidden_by_prev pre u us Hs Hok Hsn). tauto. }
  cbn [app] in IH. destruct (drops (prev_of pre) u) eqn:Edrop.
  - rewrite IH, elem_of_cons. destruct Hd as [Hd _]. specialize (Hd eq_refl). split; [tauto|]. intros ([->|Hv] & Hh & Ho); tauto.
  - rewrite elem_of_cons, IH, elem_of_cons. assert (¬ hidden (pre ++ u :: us) u ∧ ¬ obsolete u) as Hkeep.
    { split; intros H; destruct Hd as [_ Hd]; [discriminate Hd; by left|discriminate Hd; by right]. }
    split; [intros [->|H]; tauto|tauto].
Qed.

(** In sorted updates a version is there once. *)
Lemma sorted_versions us u w :
  updates_sorted us → u ∈ us → w ∈ us → compare_ (up_key u) (up_key w) = 0 → up_tag u = up_tag w → u = w.
Proof.
  intros Hs [i Eu]%list_elem_of_lookup [j Ew]%list_elem_of_lookup E Et.
  destruct (Nat.lt_trichotomy i j) as [Hlt|[->|Hlt]]; [|by simplify_eq|].
  - pose proof (later_older us i j u w Hs Eu Ew Hlt E). lia.
  - apply compare_eq_sym in E. pose proof (later_older us j i w u Hs Ew Eu Hlt E). lia.
Qed.

Lemma dropped_or_not us u : (¬ hidden us u ∧ ¬ obsolete u) ∨ hidden us u ∨ obsolete u.
Proof.
  destruct (decide (obsolete u)) as [|Ho]; [by right; right|].
  destruct (decide (Exists (λ w, compare_ (up_key w) (up_key u) = 0 ∧ up_tag u < up_tag w ∧ up_seq w ≤ snapshot) us)) as [H|H];
    rewrite Exists_exists in H; [by right; left|by left].
Qed.

(** What is read before a compaction is read after it. *)
Lemma compact_newest us others key s o :
  updates_sorted us → Forall update_ok us → snapshot < kMaxSequenceNumber → snapshot ≤ s →
  (∀ u w, u ∈ us → obsolete u → w ∈ others → compare_ (up_key u) (up_key w) = 0 → up_tag u < up_tag w) →
  newest (us ++ others) key s o →
  ∃ o', newest (compact_rule None us ++ others) key s o' ∧ read_of o' = read_of o.
Proof.
  intros Hs Hok Hsn Hle Hbase Ho. pose proof (compact_rule_spec us [] Hs Hok Hsn) as Hrule. cbn in Hrule.
  assert (compact_rule None us ++ others ⊆ us ++ others) as Hsub.
  { intros v [Hv|Hv]%elem_of_app; apply elem_of_app; [left; by apply Hrule|by right]. }
  destruct o as [u|]; [|exists None; split; [|done]; intros w Hw; by apply Ho, Hsub].
  destruct Ho as (Hin & Hsu & Hmax).
  assert (u ∈ compact_rule None us ++ others → newest (compact_rule None us ++ others) key s (Some u)) as Hkept.
  { intros Hu. split_and!; [done|done|]. intros w Hw. by apply Hmax, Hsub. }
  apply elem_of_app in Hin as [Hin|Hin]; [|exists (Some u); split; [|done]; apply Hkept, elem_of_app; by right].
  destruct (dropped_or_not us u) as [[Hnh Hno]|[Hh|Hob]].
  - exists (Some u). split; [|done]. apply Hkept, elem_of_app. left. by apply Hrule.
  - exfalso. destruct Hh as (w & Hw & E & Htag & Hseq). destruct Hsu as [Eu Hus].
    assert (sees key s w) as Hsw by (split; [by eapply compare_eq_trans|lia]).
    specialize (Hmax w ltac:(apply elem_of_app; by left) Hsw). lia.
  - exists None. split; [|cbn; by rewrite (proj1 Hob)]. intros v [Hv|Hv]%elem_of_app Hsv.
    + apply Hrule in Hv as (Hv & Hnh & Hno). specialize (Hmax v ltac:(apply elem_of_app; by left) Hsv).
      pose proof (sees_same _ _ _ _ Hsu Hsv) as E. destruct (decide (up_tag v = up_tag u)) as [Et|Hne].
      * by assert (u = v) as -> by (by apply (sorted_versions us)).
      * apply Hnh. exists u. destruct Hob as (_ & Hseq & _). split_and!; [done|done|lia|done].
    + specialize (Hmax v ltac:(apply elem_of_app; by right) Hsv).
      pose proof (Hbase u v Hin Hob Hv (sees_same _ _ _ _ Hsu Hsv)). lia.
Qed.
End rule.

Section newest_exists.
Context `{UC : Comparator (list Z)}.

#[local] Instance sees_dec key s u : Decision (sees key s u) := and_dec _ _.

Lemma newest_exists us key s : ∃ o, newest us key s o.
Proof.
  induction us as [|u us (o & Ho)]; [exists None; apply newest_nil|].
  destruct (decide (sees key s u)) as [Hu|Hu].
  - destruct o as [w|].
    + destruct Ho as (Hin & Hsw & Hmax). destruct (Z.le_gt_cases (up_tag w) (up_tag u)).
      * exists (Some u). split_and!; [by left|done|]. intros v [->|Hv]%elem_of_cons Hsv; [done|]. specialize (Hmax v Hv Hsv). lia.
      * exists (Some w). split_and!; [by right|done|]. intros v [->|Hv]%elem_of_cons Hsv; [lia|auto].
    + exists (Some u). split_and!; [by left|done|]. intros v [->|Hv]%elem_of_cons Hsv; [done|]. by destruct (Ho v Hv).
  - exists o. destruct o as [w|].
    + destruct Ho as (Hin & Hsw & Hmax). split_and!; [by right|done|]. intros v [->|Hv]%elem_of_cons Hsv; [done|auto].
    + intros v [->|Hv]%elem_of_cons; [done|auto].
Qed.
End newest_exists.

(** A compaction of some updates keeps what is read at the oldest snapshot and at
    every later sequence number, for every key: neither a value is lost, nor does an old
    or a deleted one come back. The other updates of the database are arbitrary, except
    that a deletion that may be dropped must not be newer than another update of its key:
    what is older was in the compaction or in the levels below it. *)
Lemma compact_reads `{UC : Comparator (list Z)} `{!ComparatorLaws (list Z)} snapshot base us others key s r :
  updates_sorted us → Forall update_ok us → versions_unique (us ++ others) →
  snapshot < kMaxSequenceNumber → snapshot ≤ s →
  (∀ u w, u ∈ us → obsolete snapshot base u → w ∈ others → compare_ (up_key u) (up_key w) = 0 → up_tag u < up_tag w) →
  reads (us ++ others) key s r ↔ reads (compact_rule snapshot base None us ++ others) key s r.
Proof.
  intros Hs Hok Hu Hsn Hle Hbase. pose proof (compact_rule_spec snapshot base us [] Hs Hok Hsn) as Hrule. cbn in Hrule.
  destruct (newest_exists (us ++ others) key s) as (o & Ho).
  destruct (compact_newest snapshot base us others key s o Hs Hok Hsn Hle Hbase Ho) as (o' & Ho' & E).
  assert (versions_unique (compact_rule snapshot base None us ++ others)) as Hu'.
  { intros a b Ha Hb. apply Hu; [destruct (elem_of_app (compact_rule snapshot base None us) others a) as [[Hi|Hi] _]; [done|..]|
      destruct (elem_of_app (compact_rule snapshot base None us) others b) as [[Hi|Hi] _]; [done|..]];
      apply elem_of_app; first [right; exact Hi|left; by apply Hrule]. }
  split; intros Hr.
  - assert (read_of o = r) as <- by (by eapply reads_functional; [exact Hu|exists o|]). by exists o'.
  - assert (read_of o' = r) as <- by (by eapply reads_functional; [exact Hu'|exists o'|]). by exists o.
Qed.

(** ** An example *)

(** The deletion of 97 and what it hides are dropped, the two newest values of 98 are
    kept for the snapshot at 7. *)
Definition compacted_updates : list update :=
  [MkUpdate 6 kTypeDeletion [97] []; MkUpdate 3 kTypeValue [97] [1];
   MkUpdate 9 kTypeValue [98] [2]; MkUpdate 5 kTypeValue [98] [3]; MkUpdate 4 kTypeValue [98] [4]].
Lemma compacted_updates_ok : updates_sorted compacted_updates ∧ Forall update_ok compacted_updates.
Proof.
  split; [repeat constructor; by vm_compute|].
  repeat (apply Forall_cons_2 || apply Forall_nil_2); (split_and!; [by vm_compute..| |split; [by repeat constructor|by vm_compute]]);
    (split; [by repeat constructor|by vm_compute]).
Qed.

Lemma compact_reads_example :
  let kept := compact_rule 7 (λ _, true) None compacted_updates in
  kept = [MkUpdate 9 kTypeValue [98] [2]; MkUpdate 5 kTypeValue [98] [3]] ∧
  (reads (compacted_updates ++ []) [97] 8 None ↔ reads (kept ++ []) [97] 8 None).
Proof.
  cbv zeta. split; [by vm_compute|]. destruct compacted_updates_ok as [Hs Hok].
  apply compact_reads; [done|done| |by vm_compute|done|by intros u w _ _ ?%not_elem_of_nil].
  rewrite app_nil_r. intros u w Hu Hw E Et. by rewrite (sorted_versions _ u w Hs Hu Hw E Et).
Qed.
