(* ===== verification/LdbCompactionWork.v ===== *)
(** * leveldb: the loop of a compaction (db/db_impl.cc)

    The entries of the inputs are read in order, the ones that may be dropped are left
    out, and the others are written to tables of the next level. *)
From S2P Require Import Prelude LdbCoding LdbLog SkipList LdbFormat LdbFilter LdbIterator LdbBlock LdbMerger LdbTwoLevel LdbTableFormat LdbTableBuilder LdbTable LdbFileName LdbVersionEdit LdbVersion LdbCompaction.

(** ** What the loop uses of the database

    The state [E] has what other threads can change while the mutex is not held. The file
    number is allocated by the set of versions and kept among the pending outputs.
    [ce_Usable] opens a table that is complete through the cache of tables. Statuses are
    messages of errors. *)
Class CompactionEnv (E F : Type) := {
  ce_ShuttingDown : M E bool;
  ce_CompactMemTable : M E unit;
  ce_NewFileNumber : M E Z;
  ce_NewWritableFile : list Z → M E (string + F);
  ce_Sync : F → M E (option string);
  ce_Close : F → M E (option string);
  ce_Usable : Z → Z → M E (option string);
}.

Section work.
Context `{UC : Comparator (list Z)} `{KS : KeyShortener} {C : Type} `{I : IterOps C} `{IS : IterStatus C}.
Context {F : Type} `{WF : WritableFile F} `{SN : Snappy} {E : Type} `{CE : CompactionEnv E F}.
Variables (max_file_size : Z) (options : Options) (dbname : list Z) (bound : Z).

#[local] Existing Instance internal_separators.
Abbreviation IC := (internal_comparator (UC := UC)).
Abbreviation builder := (TableBuilder F).

(** [CompactionState::Output]; the size of the file is not initialised at first. *)
Record Output := MkOutput {
  out_number : Z;
  out_file_size : option Z;
  out_smallest : list Z;
  out_largest : list Z;
}.

(** [CompactionState]; [outfile] is the file of the builder, and NULL when [cs_builder]
    is. [cs_written] has the files that were closed. *)
Record CompactionState := MkState {
  cs_compaction : Compaction;
  cs_smallest_snapshot : Z;
  cs_outputs : list Output;
  cs_builder : option builder;
  cs_total_bytes : Z;
  cs_written : list F;
}.

(** The state and the variables of [DoCompactionWork]. *)
Record Work := MkWork {
  w_input : C;
  w_compact : CompactionState;
  w_env : E;
  w_current_user_key : list Z;
  w_has_current_user_key : bool;
  w_last_sequence_for_key : Z;
}.

Definition on_input {A} (c : M C A) : M Work A := λ w,
  match c (w_input w) with
  | Done (a, i) => Done (a, MkWork i (w_compact w) (w_env w) (w_current_user_key w) (w_has_current_user_key w) (w_last_sequence_for_key w))
  | Undef => Undef
  | NoFuel => NoFuel
  end.
Definition on_compact {A} (c : M CompactionState A) : M Work A := λ w,
  match c (w_compact w) with
  | Done (a, s) => Done (a, MkWork (w_input w) s (w_env w) (w_current_user_key w) (w_has_current_user_key w) (w_last_sequence_for_key w))
  | Undef => Undef
  | NoFuel => NoFuel
  end.
Definition on_env {A} (c : M E A) : M Work A := λ w,
  match c (w_env w) with
  | Done (a, e) => Done (a, MkWork (w_input w) (w_compact w) e (w_current_user_key w) (w_has_current_user_key w) (w_last_sequence_for_key w))
  | Undef => Undef
  | NoFuel => NoFuel
  end.
Definition set_key (key : list Z) (has : bool) (last : Z) : M Work unit := λ w,
  Done (tt, MkWork (w_input w) (w_compact w) (w_env w) key has last).

Definition set_outputs (outputs : list Output) (b : option builder) : M CompactionState unit := λ s,
  Done (tt, MkState (cs_compaction s) (cs_smallest_snapshot s) outputs b (cs_total_bytes s) (cs_written s)).
Definition on_compaction {A} (c : M Compaction A) : M Work A := on_compact (λ s,
  match c (cs_compaction s) with
  | Done (a, c) => Done (a, MkState c (cs_smallest_snapshot s) (cs_outputs s) (cs_builder s) (cs_total_bytes s) (cs_written s))
  | Undef => Undef
  | NoFuel => NoFuel
  end).
Definition on_builder {A} (c : M builder A) : M Work A := on_compact (λ s,
  match cs_builder s with
  | None => Undef
  | Some b =>
      match c b with
      | Done (a, b) => Done (a, MkState (cs_compaction s) (cs_smallest_snapshot s) (cs_outputs s) (Some b) (cs_total_bytes s) (cs_written s))
      | Undef => Undef
      | NoFuel => NoFuel
      end
  end).

(** The outputs with the current one, the last, changed. *)
Definition set_current (f : Output → Output) : M Work unit :=
  on_compact (s ← get_state;
    match last (cs_outputs s) with
    | None => undef
    | Some o => set_outputs (removelast (cs_outputs s) ++ [f o]) (cs_builder s)
    end).

(** A status, and the next step when it is OK. *)
Definition and_then (s : option string) (c : M Work (option string)) : M Work (option string) :=
  match s with Some e => mret (Some e) | None => c end.

(** ** Output files *)

Definition OpenCompactionOutputFile : M Work (option string) :=
  s ← on_compact get_state;
  assert_ (match cs_builder s with None => true | Some _ => false end);;
  number ← on_env ce_NewFileNumber;
  s ← on_compact get_state;
  on_compact (set_outputs (cs_outputs s ++ [MkOutput number None [] []]) None);;
  fname ← lift_option (TableFileName dbname number);
  r ← on_env (ce_NewWritableFile fname);
  match r with
  | inl e => mret (Some e)
  | inr file =>
      b ← lift_outcome (new_TableBuilder options file);
      s ← on_compact get_state;
      on_compact (set_outputs (cs_outputs s) (Some b));;
      mret None
  end.

(** The builder is deleted with the size of its file noted, and the file is given. *)
Definition take_builder : M Work (Z * F) :=
  s ← on_compact get_state;
  b ← lift_option (cs_builder s);
  let current_bytes := FileSize b in
  set_current (λ o, MkOutput (out_number o) (Some current_bytes) (out_smallest o) (out_largest o));;
  on_compact (λ s, Done (tt, MkState (cs_compaction s) (cs_smallest_snapshot s) (cs_outputs s) None
    (u64 (cs_total_bytes s + current_bytes)) (cs_written s ++ [tb_file b])));;
  mret (current_bytes, tb_file b).

Definition FinishCompactionOutputFile : M Work (option string) :=
  s ← on_compact get_state;
  b ← lift_option (cs_builder s);
  current ← lift_option (last (cs_outputs s));
  let output_number := out_number current in
  assert_ (negb (output_number =? 0));;
  w ← get_state;
  let current_entries := NumEntries b in
  s ← (match i_status (w_input w) with
       | None => ok ← on_builder (tb_Finish (UC := IC)); mret (if (ok : bool) then None else Some "table builder")
       | Some e => on_builder Abandon;; mret (Some e)
       end);
  '(current_bytes, file) ← take_builder;
  s ← and_then s (on_env (ce_Sync file));
  s ← and_then s (on_env (ce_Close file));
  and_then s (if 0 <? current_entries then on_env (ce_Usable output_number current_bytes) else mret None).

(** ** The loop *)

(** Whether the entry of the key is dropped. *)
Definition drop_key (key : list Z) : M Work bool :=
  match ParseInternalKey key with
  | None => set_key [] false kMaxSequenceNumber;; mret false
  | Some ikey =>
      w ← get_state;
      (if negb (w_has_current_user_key w) || negb (compare_ (user_key ikey) (w_current_user_key w) =? 0)
       then set_key (user_key ikey) true kMaxSequenceNumber else mret tt);;
      w ← get_state;
      let snapshot := cs_smallest_snapshot (w_compact w) in
      drop ← (if w_last_sequence_for_key w <=? snapshot then mret true
              else if (type_ ikey =? kTypeDeletion) && (sequence ikey <=? snapshot)
              then on_compaction (IsBaseLevelForKey (user_key ikey))
              else mret false);
      w ← get_state;
      set_key (w_current_user_key w) (w_has_current_user_key w) (sequence ikey);;
      mret drop
  end.

(** An entry that is not dropped. *)
Definition add_kept (key : list Z) : M Work (option string) :=
  s ← on_compact get_state;
  opened ← (match cs_builder s with None => OpenCompactionOutputFile | Some _ => mret None end);
  and_then opened (
    s ← on_compact get_state;
    b ← lift_option (cs_builder s);
    (if NumEntries b =? 0 then set_current (λ o, MkOutput (out_number o) (out_file_size o) key (out_largest o)) else mret tt);;
    set_current (λ o, MkOutput (out_number o) (out_file_size o) (out_smallest o) key);;
    value ← on_input i_value;
    on_builder (tb_Add (UC := IC) key value);;
    s ← on_compact get_state;
    b ← lift_option (cs_builder s);
    if c_max_output_file_size_ (cs_compaction s) <=? FileSize b then FinishCompactionOutputFile else mret None).

(** One turn: the loop ends with the status. *)
Definition work_step (_ : unit) : M Work (unit + option string) :=
  w ← get_state;
  shutting_down ← (if i_Valid (w_input w) then on_env ce_ShuttingDown else mret true);
  if (shutting_down : bool) then mret (inr None)
  else
    on_env ce_CompactMemTable;;
    key ← on_input i_key;
    stop ← on_compaction (ShouldStopBefore max_file_size key);
    s ← on_compact get_state;
    finished ← (if (stop : bool) && bool_decide (is_Some (cs_builder s)) then FinishCompactionOutputFile else mret None);
    match finished with
    | Some e => mret (inr (Some e))
    | None =>
        drop ← drop_key key;
        added ← (if (drop : bool) then mret None else add_kept key);
        match added with
        | Some e => mret (inr (Some e))
        | None => on_input i_Next;; mret (inl tt)
        end
    end.

(** The bytes that were written, for the statistics. *)
Fixpoint bytes_written (outputs : list Output) (sum : Z) : outcome Z :=
  match outputs with
  | [] => Done sum
  | o :: outputs => size ← need (out_file_size o); bytes_written outputs (s64 (sum + size))
  end.

(** [DoCompactionWork], up to the installation of the results. *)
Definition DoCompactionWork : M Work (option string) :=
  on_input i_SeekToFirst;;
  set_key [] false kMaxSequenceNumber;;
  status ← loop bound work_step tt;
  status ← and_then status (
    shutting_down ← on_env ce_ShuttingDown;
    mret (if (shutting_down : bool) then Some "Deleting DB during compaction" else None));
  s ← on_compact get_state;
  status ← and_then status (match cs_builder s with Some _ => FinishCompactionOutputFile | None => mret None end);
  w ← get_state;
  let status := match status with None => i_status (w_input w) | Some e => Some e end in
  s ← on_compact get_state;
  lift_outcome (bytes_written (cs_outputs s) 0);;
  mret status.

(** [InstallCompactionResults]: the edit that is applied. *)
Definition compaction_edit (s : CompactionState) : outcome VersionEdit :=
  let c := cs_compaction s in
  let edit := AddInputDeletions c (c_edit_ c) in
  foldl (λ e o,
    e ← e;
    size ← need (out_file_size o);
    Done (AddFile (c_level_ c + 1) (out_number o) size (out_smallest o) (out_largest o) e)) (Done edit) (cs_outputs s).
End work.
