(* ===== verification/LdbCompactionWorkSpec.v ===== *)
(** * leveldb: what the loop of a compaction writes

    The loop refines the rule of [LdbCompactionRule]: the tables that are written have,
    one after the other, the entries that the rule keeps of the inputs. *)
From stdpp Require Import sorting.
From S2P Require Import Prelude LdbCoding LdbLog LdbLogSpec SkipList SkipListSpec LdbFormat LdbFilter LdbIterator LdbBlock LdbBlockSpec LdbMemTable LdbMemTableSpec LdbDBIterSpec LdbTableFormat LdbTableBuilder LdbTable LdbTableFormatSpec LdbTableBuilderSpec LdbTableSpec LdbFileName LdbReads LdbVersionEdit LdbVersion LdbVersionSpec LdbCompaction LdbCompactionSpec LdbCompactionRule LdbCompactionWork.

(** ** The database while nothing goes wrong

    No shutdown, files that can be made and closed, tables that can be opened, and
    numbers of files that are new. *)
Class CompactionLaws (E F : Type) `{CE : CompactionEnv E F} `{RW : ReliableWritable F} := {
  ce_ok : E → Prop;
  ce_issued : E → list Z;
  ce_running e : ce_ok e → ∃ e', ce_ShuttingDown e = Done (false, e') ∧ ce_ok e' ∧ ce_issued e ⊆ ce_issued e';
  ce_compacts e : ce_ok e → ∃ e', ce_CompactMemTable e = Done (tt, e') ∧ ce_ok e' ∧ ce_issued e ⊆ ce_issued e';
  ce_number e : ce_ok e → ∃ n e', ce_NewFileNumber e = Done (n, e') ∧ ce_ok e' ∧
    0 < n ∧ n ∉ ce_issued e ∧ n ∈ ce_issued e' ∧ ce_issued e ⊆ ce_issued e';
  ce_file name e : ce_ok e → ∃ f e', ce_NewWritableFile name e = Done (inr f, e') ∧ ce_ok e' ∧
    written f = [] ∧ ce_issued e ⊆ ce_issued e';
  ce_synced f e : ce_ok e → ∃ e', ce_Sync f e = Done (None, e') ∧ ce_ok e' ∧ ce_issued e ⊆ ce_issued e';
  ce_closed f e : ce_ok e → ∃ e', ce_Close f e = Done (None, e') ∧ ce_ok e' ∧ ce_issued e ⊆ ce_issued e';
  ce_usable n size e : ce_ok e → ∃ e', ce_Usable n size e = Done (None, e') ∧ ce_ok e' ∧ ce_issued e ⊆ ce_issued e';
}.

(** ** Entries that are left out *)

Lemma weight_sublist (l l' : entries) : l `sublist_of` l' → weight l ≤ weight l' ∧ (length l ≤ length l')%nat.
Proof.
  induction 1 as [|kv l l' H IH|kv l l' H IH]; [done|..]; rewrite ?weight_cons; cbn [length]; lia.
Qed.
Lemma part_sorted {A} (P : A → A → Prop) l l' : l `sublist_of` l' → StronglySorted P l' → StronglySorted P l.
Proof.
  induction 1 as [|x l l' H IH|x l l' H IH]; [done|..]; intros [Hs Hf]%StronglySorted_inv; [|by apply IH].
  constructor; [by apply IH|]. rewrite Forall_forall in Hf |- *. intros y Hy. apply Hf. by eapply elem_of_sublist.
Qed.

Section entries.
Context `{UC : Comparator (list Z)} `{CL : !ComparatorLaws (list Z)} `{Sep : Separators} `{SL : !SeparatorLaws}.

Lemma entries_ok_sublist pol kvs kvs' : kvs `sublist_of` kvs' → entries_ok pol kvs' → entries_ok pol kvs.
Proof.
  intros Hsub (Hs & Hok & Hb). split_and!.
  - by eapply part_sorted.
  - rewrite Forall_forall in Hok |- *. intros kv Hkv. apply Hok. by eapply elem_of_sublist.
  - unfold table_budget in *. destruct (weight_sublist _ _ Hsub). assert (0 ≤ pol_bytes pol) by (unfold pol_bytes; destruct pol; [apply filter_bytes_nonneg|done]). nia.
Qed.
End entries.

Section rule.
Context `{UC : Comparator (list Z)}.

Lemma rule_sublist snapshot base us : ∀ prev, compact_rule snapshot base prev us `sublist_of` us.
Proof.
  induction us as [|u us IH]; intros prev; [done|]. cbn [compact_rule].
  destruct (drops _ _ _ _); [by apply sublist_cons|by apply sublist_skip].
Qed.
End rule.

(** Whether no level below the output has a file with the key. *)
#[local] Existing Instance overlaps_dec.
Definition is_base `{UC : Comparator (list Z)} (levels : list files) (level : Z) (key : list Z) : bool :=
  bool_decide (Forall (Forall (λ f, ¬ has_key key f)) (drop (Z.to_nat (level + 2)) levels)).

Lemma is_base_spec `{UC : Comparator (list Z)} levels level key :
  length levels = Z.to_nat kNumLevels → 0 ≤ level →
  is_base levels level key = true ↔ base_key levels level key.
Proof.
  intros Hlen H0. unfold is_base, base_key. rewrite bool_decide_eq_true, Forall_lookup. split.
  - intros H i fs f Hi Efs Hf. specialize (H (Z.to_nat i - Z.to_nat (level + 2))%nat fs).
    rewrite lookup_drop in H. rewrite Forall_forall in H. apply H; [|done]. rewrite <-Efs. f_equal. lia.
  - intros H i fs Efs. apply Forall_forall. intros f. rewrite lookup_drop in Efs. pose proof (lookup_lt_Some _ _ _ Efs).
    apply (H (level + 2 + Z.of_nat i)); [lia|]. rewrite <-Efs. f_equal. lia.
Qed.

(** Where an update that is not an input is: it is newer than the inputs with its key, as
    in a memtable or in a level above, or it is in a file of a level below the output. The
    other files of the two levels of the compaction may only have keys of their own, or
    newer updates; [dropped_deletion_shows_old_value] is what happens otherwise. *)
Definition elsewhere `{UC : Comparator (list Z)} (levels : list files) (level : Z) (us : list update) (v : update) : Prop :=
  (∀ u, u ∈ us → compare_ (up_key u) (up_key v) = 0 → up_tag u < up_tag v) ∨
  (∃ i fs f, level + 2 ≤ i < kNumLevels ∧ levels !! Z.to_nat i = Some fs ∧ f ∈ fs ∧ has_key (up_key v) f).

Lemma has_key_compat `{UC : Comparator (list Z)} `{!ComparatorLaws (list Z)} a b f : compare_ a b = 0 → has_key b f → has_key a f.
Proof.
  intros E [Ha Hb]. pose proof (compare_sym b a) as Hs. split; intros k [= <-].
  - eapply (compare_trans a b); [lia|]. by apply Ha.
  - eapply (compare_trans _ b a); [by apply Hb|]. pose proof (compare_sym a b). lia.
Qed.
(** A deletion that is dropped hides nothing that is elsewhere. *)
Lemma obsolete_hides_nothing `{UC : Comparator (list Z)} `{!ComparatorLaws (list Z)} snapshot levels level us others u v :
  length levels = Z.to_nat kNumLevels → 0 ≤ level → Forall (elsewhere levels level us) others →
  u ∈ us → obsolete snapshot (is_base levels level) u → v ∈ others → compare_ (up_key u) (up_key v) = 0 → up_tag u < up_tag v.
Proof.
  intros Hlen H0 Helse Hu (_ & _ & Hb) Hv E. rewrite Forall_forall in Helse.
  destruct (Helse v Hv) as [Hn|(i & fs & f & Hi & Efs & Hf & Hk)]; [by apply Hn|]. exfalso.
  apply is_base_spec in Hb; [|done|done]. eapply Hb; [exact Hi|exact Efs|exact Hf|]. by eapply has_key_compat.
Qed.

Section work_spec.
Context `{UC : Comparator (list Z)} `{CL : !ComparatorLaws (list Z)} `{KS : KeyShortener}.
#[local] Existing Instance internal_separators.
Abbreviation IC := (internal_comparator (UC := UC)).
Context `{SL : !SeparatorLaws (UC := IC)}.
Context {C : Type} `{I : IterOps C} `{IS : IterStatus C}.
Context {F : Type} `{WF : WritableFile F} `{RW : !ReliableWritable F} `{SN : Snappy} `{SNL : !SnappyLaws}.
Context {E : Type} `{CE : CompactionEnv E F} `{LE : !CompactionLaws E F}.
Variables (max_file_size : Z) (opts : Options) (pol : option lawful_policy) (dbname : list Z).
Hypothesis Hpol : o_filter_policy opts = lp_named <$> pol.
Hypothesis Hinterval : 1 ≤ o_block_restart_interval opts.
Hypothesis Hcompression : o_compression opts = kNoCompression ∨ o_compression opts = kSnappyCompression.

Abbreviation Work := (@Work C F E).
Abbreviation State := (CompactionState (F := F)).
Implicit Types (w : Work) (s : State) (us g cur : list update) (gs : list (list update)) (e : E).

(** ** Runs of parts of the state *)

Definition put_input (it : C) w : Work :=
  MkWork it (w_compact w) (w_env w) (w_current_user_key w) (w_has_current_user_key w) (w_last_sequence_for_key w).
Definition put_compact s w : Work :=
  MkWork (w_input w) s (w_env w) (w_current_user_key w) (w_has_current_user_key w) (w_last_sequence_for_key w).
Definition put_env e w : Work :=
  MkWork (w_input w) (w_compact w) e (w_current_user_key w) (w_has_current_user_key w) (w_last_sequence_for_key w).
Definition put_compaction (c : Compaction) s : State :=
  MkState c (cs_smallest_snapshot s) (cs_outputs s) (cs_builder s) (cs_total_bytes s) (cs_written s).

Lemma run_on_input {A} (c : M C A) w a it : c (w_input w) = Done (a, it) → on_input c w = Done (a, put_input it w).
Proof. unfold on_input. by intros ->. Qed.
Lemma run_on_compact {A} (c : M State A) w a s : c (w_compact w) = Done (a, s) → on_compact c w = Done (a, put_compact s w).
Proof. unfold on_compact. by intros ->. Qed.
Lemma run_on_env {A} (c : M E A) w a e : c (w_env w) = Done (a, e) → on_env c w = Done (a, put_env e w).
Proof. unfold on_env. by intros ->. Qed.
Lemma run_on_compaction {A} (c : M Compaction A) w a c' :
  c (cs_compaction (w_compact w)) = Done (a, c') → on_compaction c w = Done (a, put_compact (put_compaction c' (w_compact w)) w).
Proof. intros Ec. unfold on_compaction. apply run_on_compact. by rewrite Ec. Qed.
Lemma get_compact w : on_compact get_state w = Done (w_compact w, w).
Proof. by destruct w. Qed.
(** ** The outputs *)

Definition first_key g : option (list Z) := (λ u, (ientry u).1) <$> head g.
Definition last_key g : option (list Z) := (λ u, (ientry u).1) <$> last g.

(** A table that is complete, with the updates of [g]. *)
Record output_is (o : Output) (f : F) g : Prop := {
  oi_size : out_file_size o = Some (slen (written f));
  oi_first : first_key g = Some (out_smallest o);
  oi_last : last_key g = Some (out_largest o);
  oi_table : ∃ ds seps ft, table_layout (UC := IC) pol (written f) ds seps ft ∧ concat ds.*1 = ientry <$> g;
}.

(** The table that is being made. *)
Record in_progress (o : Output) (b : TableBuilder F) cur : Prop := {
  ip_first : default (out_smallest o) (first_key cur) = out_smallest o;
  ip_last : default (out_largest o) (last_key cur) = out_largest o;
  ip_building : ∃ out ds seps bc, building (UC := IC) opts pol out ds seps bc b ∧ all_of ds bc = ientry <$> cur;
}.

(** The groups of the tables that are complete, and the current one. *)
Definition outs s gs cur : Prop :=
  ∃ complete, Forall3 output_is complete (cs_written s) gs ∧
    match cs_builder s with
    | None => cur = [] ∧ cs_outputs s = complete
    | Some b => ∃ o, cs_outputs s = complete ++ [o] ∧ in_progress o b cur
    end.

Definition numbers (outputs : list Output) e : Prop :=
  NoDup (out_number <$> outputs) ∧ ∀ n, n ∈ out_number <$> outputs → 0 < n ∧ n ∈ ce_issued e.

Record fine w gs cur : Prop := {
  fn_outs : outs (w_compact w) gs cur;
  fn_numbers : numbers (cs_outputs (w_compact w)) (w_env w);
  fn_env : ce_ok (w_env w);
}.

(** What the files do not touch. *)
Record same w w' : Prop := {
  sm_input : w_input w' = w_input w;
  sm_compaction : cs_compaction (w_compact w') = cs_compaction (w_compact w);
  sm_snapshot : cs_smallest_snapshot (w_compact w') = cs_smallest_snapshot (w_compact w);
  sm_key : w_current_user_key w' = w_current_user_key w;
  sm_has : w_has_current_user_key w' = w_has_current_user_key w;
  sm_last : w_last_sequence_for_key w' = w_last_sequence_for_key w;
}.
Lemma same_trans w1 w2 w3 : same w1 w2 → same w2 w3 → same w1 w3.
Proof. intros [] []. split; congruence. Qed.

Lemma numbers_more outputs e e' : ce_issued e ⊆ ce_issued e' → numbers outputs e → numbers outputs e'.
Proof. intros Hs [Hn Hi]. split; [done|]. intros n Hn'. destruct (Hi n Hn'). auto. Qed.

(** What the database does in between changes nothing. *)
Lemma run_env {A} (c : M E A) w gs cur a e :
  fine w gs cur → c (w_env w) = Done (a, e) → ce_ok e → ce_issued (w_env w) ⊆ ce_issued e →
  on_env c w = Done (a, put_env e w) ∧ fine (put_env e w) gs cur ∧ same w (put_env e w).
Proof.
  intros [Ho Hn He] Ec He' Hi. split_and!; [by apply run_on_env| |done]. split; [done| |done]. by eapply numbers_more.
Qed.

Lemma run_set_current f o outputs w :
  cs_outputs (w_compact w) = outputs ++ [o] →
  set_current f w = Done (tt, put_compact (MkState (cs_compaction (w_compact w)) (cs_smallest_snapshot (w_compact w))
    (outputs ++ [f o]) (cs_builder (w_compact w)) (cs_total_bytes (w_compact w)) (cs_written (w_compact w))) w).
Proof.
  intros Eo. unfold set_current. apply run_on_compact. rewrite bind_get, Eo, last_snoc, removelast_last. done.
Qed.
Lemma run_on_builder {A} (c : M (TableBuilder F) A) w a b b' :
  cs_builder (w_compact w) = Some b → c b = Done (a, b') →
  on_builder c w = Done (a, put_compact (MkState (cs_compaction (w_compact w)) (cs_smallest_snapshot (w_compact w))
    (cs_outputs (w_compact w)) (Some b') (cs_total_bytes (w_compact w)) (cs_written (w_compact w))) w).
Proof. intros Eb Ec. unfold on_builder. apply run_on_compact. by rewrite Eb, Ec. Qed.

Lemma run_OpenOutput w gs :
  fine w gs [] → cs_builder (w_compact w) = None →
  ∃ w', OpenCompactionOutputFile opts dbname w = Done (None, w') ∧ fine w' gs [] ∧ same w w' ∧
    is_Some (cs_builder (w_compact w')).
Proof.
  intros Hf Eb. pose proof Hf as [(complete & Hall & Ho) (Hnd & Hnums) He]. rewrite Eb in Ho. destruct Ho as [_ Ho].
  unfold OpenCompactionOutputFile. bind_with (get_compact w). rewrite bind_assert by (by rewrite Eb).
  destruct (ce_number _ He) as (n & e1 & En & He1 & Hpos & Hnew & Hin & Hsub). bind_with (run_on_env _ _ _ _ En).
  bind_with (get_compact (put_env e1 w)). erewrite bind_done by (by apply run_on_compact).
  assert (∃ name, TableFileName dbname n = Some name) as (name & Ename).
  { unfold TableFileName, numbered. rewrite (proj2 (Z.ltb_lt _ _)) by done. by eexists. }
  rewrite (bind_lift _ _ _ _ Ename).
  destruct (ce_file name _ He1) as (f & e2 & Ef & He2 & Hempty & Hsub2). erewrite bind_done by (by apply run_on_env).
  destruct (run_new_TableBuilder (UC := IC) opts pol Hpol Hinterval f Hempty) as (b & Enew & Hb).
  erewrite bind_done by (unfold lift_outcome; by rewrite Enew). erewrite bind_done by apply get_compact.
  erewrite bind_done by (by apply run_on_compact). eexists. split; [reflexivity|].
  split_and!; [|done|by eexists]. split; cbn; [|split|exact He2].
  - exists complete. split; [done|]. rewrite Ho. eexists. split; [reflexivity|]. split; [done..|]. by exists [], [], [], [].
  - rewrite fmap_app. apply NoDup_app. split_and!; [done| |apply NoDup_singleton].
    intros k Hk ->%list_elem_of_singleton. by destruct (Hnums _ Hk).
  - intros k. rewrite fmap_app, elem_of_app. intros [Hk| ->%list_elem_of_singleton]; [|auto].
    destruct (Hnums _ Hk). auto.
Qed.

(** The builder is deleted; [Hend] says that the file is a table. *)
Lemma run_take_builder w gs cur complete o b :
  Forall3 output_is complete (cs_written (w_compact w)) gs →
  cs_outputs (w_compact w) = complete ++ [o] → cs_builder (w_compact w) = Some b →
  numbers (cs_outputs (w_compact w)) (w_env w) → ce_ok (w_env w) →
  output_is (MkOutput (out_number o) (Some (FileSize b)) (out_smallest o) (out_largest o)) (tb_file b) cur →
  ∃ w', take_builder w = Done ((FileSize b, tb_file b), w') ∧ fine w' (gs ++ [cur]) [] ∧ same w w' ∧
    cs_builder (w_compact w') = None.
Proof.
  intros Hall Ho Eb [Hnd Hn] He Hend. unfold take_builder. bind_with (get_compact w). rewrite (bind_lift _ _ _ _ Eb).
  erewrite bind_done by (by apply run_set_current). erewrite bind_done by (by apply run_on_compact).
  eexists. split; [reflexivity|]. rewrite Ho, fmap_app in Hnd, Hn. split_and!; [|done|done].
  split; cbn; [|split|exact He]; rewrite ?fmap_app; [|done|done].
  eexists. split; [|split; [done|reflexivity]]. apply Forall3_app; [done|]. apply Forall3_cons; [exact Hend|constructor].
Qed.

Lemma ientries_nil cur : ientry <$> cur = [] → cur = [].
Proof. by intros ?%fmap_nil_inv. Qed.

Lemma run_FinishOutput w gs cur :
  fine w gs cur → is_Some (cs_builder (w_compact w)) → cur ≠ [] → i_status (w_input w) = None →
  entries_ok (UC := IC) pol (ientry <$> cur) →
  ∃ w', FinishCompactionOutputFile w = Done (None, w') ∧ fine w' (gs ++ [cur]) [] ∧ same w w' ∧
    cs_builder (w_compact w') = None.
Proof.
  intros [(complete & Hall & Ho) Hn He] [b Eb] Hne Hst Hok. rewrite Eb in Ho. destruct Ho as (o & Ho & [Hfirst Hlast Hb]).
  destruct Hb as (out & ds & seps & bc & Hb & Ea). rewrite <-Ea in Hok.
  unfold FinishCompactionOutputFile. bind_with (get_compact w). rewrite (bind_lift _ _ _ _ Eb).
  assert (last (cs_outputs (w_compact w)) = Some o) as El by (by rewrite Ho, last_snoc). rewrite (bind_lift _ _ _ _ El).
  assert (0 < out_number o ∧ out_number o ∈ ce_issued (w_env w)) as [Hpos _].
  { apply Hn. rewrite Ho, fmap_app. apply elem_of_app. right. by left. }
  rewrite bind_assert by (by rewrite (proj2 (Z.eqb_neq _ 0)) by lia). rewrite bind_get, Hst.
  destruct (run_tb_Finish opts pol Hpol Hinterval Hcompression _ _ _ _ _ Hb Hok) as (b' & ds' & seps' & ft & Ef & Esz & Hl & Ec).
  pose proof (run_on_builder _ w _ _ _ Eb Ef) as E1.
  erewrite bind_done; [|erewrite bind_done; [reflexivity|exact E1]].
  set (w1 := put_compact _ w).
  destruct (run_take_builder w1 gs cur complete o b') as (w2 & E2 & Hf2 & Hs2 & Hb2); [done..| |].
  { destruct (head cur) as [u|] eqn:Eh; [|by destruct cur]. destruct (last cur) as [v|] eqn:Ev; [|by apply last_None in Ev].
    unfold first_key, last_key in *. rewrite Eh in Hfirst. rewrite Ev in Hlast. cbn in Hfirst, Hlast. split; cbn.
    - by rewrite Esz.
    - unfold first_key. by rewrite Eh, <-Hfirst.
    - unfold last_key. by rewrite Ev, <-Hlast.
    - exists ds', seps', ft. split; [done|]. congruence. }
  bind_with E2. cbn [and_then].
  destruct (ce_synced (tb_file b') _ (fn_env _ _ _ Hf2)) as (e3 & E3 & He3 & Hi3).
  destruct (run_env _ w2 _ _ _ _ Hf2 E3 He3 Hi3) as (R3 & Hf3 & Hs3). bind_with R3. cbn [and_then].
  destruct (ce_closed (tb_file b') _ (fn_env _ _ _ Hf3)) as (e4 & E4 & He4 & Hi4).
  destruct (run_env _ _ _ _ _ _ Hf3 E4 He4 Hi4) as (R4 & Hf4 & Hs4). bind_with R4. cbn [and_then].
  assert (same w (put_env e4 (put_env e3 w2))) as Hs by (eapply same_trans; [|exact Hs4]; eapply same_trans; [|exact Hs3];
    eapply same_trans; [|exact Hs2]; done).
  destruct (0 <? _); [|eexists; split_and!; [reflexivity|done..]].
  destruct (ce_usable (out_number o) (FileSize b') _ (fn_env _ _ _ Hf4)) as (e5 & E5 & He5 & Hi5).
  destruct (run_env _ _ _ _ _ _ Hf4 E5 He5 Hi5) as (R5 & Hf5 & Hs5). eexists. split_and!; [exact R5|done| |done].
  by eapply same_trans.
Qed.

(** ** An entry that is kept *)

Lemma run_opened w gs cur :
  fine w gs cur →
  ∃ w', (match cs_builder (w_compact w) with None => OpenCompactionOutputFile opts dbname | Some _ => mret None end) w = Done (None, w') ∧
    fine w' gs cur ∧ same w w' ∧ is_Some (cs_builder (w_compact w')).
Proof.
  intros Hf. destruct (cs_builder (w_compact w)) as [b|] eqn:Eb; [by exists w; rewrite Eb|].
  pose proof (fn_outs _ _ _ Hf) as (complete & _ & Ho). rewrite Eb in Ho. destruct Ho as [-> _]. by apply run_OpenOutput.
Qed.

Lemma last_key_snoc cur u : last_key (cur ++ [u]) = Some (ientry u).1.
Proof. unfold last_key. by rewrite last_snoc. Qed.
Lemma first_key_snoc cur u : first_key (cur ++ [u]) = Some (default (ientry u).1 (first_key cur)).
Proof. by destruct cur. Qed.

(** The keys of the output are noted. *)
Definition noted (b : TableBuilder F) (key : list Z) (o : Output) : Output :=
  MkOutput (out_number o) (out_file_size o) (if NumEntries b =? 0 then key else out_smallest o) key.
Lemma run_note w b key o outputs :
  cs_outputs (w_compact w) = outputs ++ [o] →
  ((if NumEntries b =? 0 then set_current (λ o, MkOutput (out_number o) (out_file_size o) key (out_largest o)) else mret tt);;
   set_current (λ o, MkOutput (out_number o) (out_file_size o) (out_smallest o) key)) w =
  Done (tt, put_compact (MkState (cs_compaction (w_compact w)) (cs_smallest_snapshot (w_compact w))
    (outputs ++ [noted b key o]) (cs_builder (w_compact w)) (cs_total_bytes (w_compact w)) (cs_written (w_compact w))) w).
Proof.
  intros Eo. unfold noted. destruct (NumEntries b =? 0).
  - rewrite (bind_done _ _ _ _ _ (run_set_current _ _ _ _ Eo)). by rewrite (run_set_current _ (MkOutput (out_number o) (out_file_size o) key (out_largest o)) outputs) by done.
  - rewrite (bind_done _ _ w tt w) by done. by rewrite (run_set_current _ _ _ _ Eo).
Qed.

Lemma run_add w gs cur u b :
  fine w gs cur → cs_builder (w_compact w) = Some b → entries_ok (UC := IC) pol (ientry <$> (cur ++ [u])) →
  i_value (w_input w) = Done (up_value u, w_input w) →
  ∃ w' b', (∀ A (K : M Work A), ((if NumEntries b =? 0 then set_current (λ o, MkOutput (out_number o) (out_file_size o) (ientry u).1 (out_largest o)) else mret tt);;
    set_current (λ o, MkOutput (out_number o) (out_file_size o) (out_smallest o) (ientry u).1);;
    value ← on_input i_value;
    on_builder (tb_Add (UC := IC) (ientry u).1 value);; K) w = K w') ∧
    fine w' gs (cur ++ [u]) ∧ same w w' ∧ cs_builder (w_compact w') = Some b'.
Proof.
  intros [(complete & Hall & Ho) Hn He] Eb Hok Hv. rewrite Eb in Ho. destruct Ho as (o & Ho & [Hfirst Hlast Hb]).
  destruct Hb as (out & ds & seps & bc & Hb & Ea). rewrite fmap_app in Hok. cbn [fmap list_fmap] in Hok.
  pose proof Hok as (_ & _ & Hbud). rewrite <-Ea in Hok.
  destruct (run_tb_Add opts pol Hpol Hinterval Hcompression _ _ _ _ _ (ientry u) Hb Hok) as (out' & ds' & seps' & bc' & b' & Eadd & Hb' & Ea').
  pose proof (run_note w b (ientry u).1 o complete Ho) as E1. 
  eexists _, b'. split.
  { intros A K. rewrite <-bind_assoc. bind_with E1. erewrite bind_done by (by apply run_on_input).
    erewrite bind_done by (by eapply run_on_builder). reflexivity. }
  destruct Hn as [Hnd Hin]. rewrite Ho, fmap_app in Hnd, Hin.
  split_and!; [|done|done]. split; cbn; [|split|exact He].
  - exists complete. split; [done|]. eexists. split; [reflexivity|]. split; cbn.
    + rewrite first_key_snoc. cbn. destruct cur as [|u0 cur]; cbn in *.
      * apply bg_num in Hb. unfold NumEntries. rewrite Hb, Ea. done.
      * apply bg_num in Hb. unfold NumEntries. rewrite Hb, Ea. cbn [length fmap list_fmap].
        rewrite (proj2 (Z.eqb_neq _ 0)); [done|]. rewrite wrapu_small; [lia|].
        apply (budget_bounds opts pol Hpol) in Hbud as [? Hbud]. pose proof (slen_nonneg (pol_name pol)). cbn [length fmap list_fmap app] in Hbud. rewrite length_app in Hbud. pow2. lia.
    + by rewrite last_key_snoc.
    + exists out', ds', seps', bc'. split; [done|]. by rewrite Ea', Ea, fmap_app.
  - rewrite fmap_app. exact Hnd.
  - rewrite fmap_app. exact Hin.
Qed.

Lemma run_add_kept w gs cur u :
  fine w gs cur → i_value (w_input w) = Done (up_value u, w_input w) → i_status (w_input w) = None →
  entries_ok (UC := IC) pol (ientry <$> (cur ++ [u])) →
  ∃ w' gs' cur', add_kept opts dbname (ientry u).1 w = Done (None, w') ∧ fine w' gs' cur' ∧ same w w' ∧
    (is_Some (cs_builder (w_compact w')) → cur' ≠ []) ∧ concat gs' ++ cur' = concat gs ++ cur ++ [u].
Proof.
  intros Hf Hv Hst Hok. destruct (run_opened w gs cur Hf) as (w1 & E1 & Hf1 & Hs1 & [b Eb]).
  unfold add_kept. bind_with (get_compact w). bind_with E1. cbn [and_then]. bind_with (get_compact w1). rewrite (bind_lift _ _ _ _ Eb).
  rewrite <-(sm_input _ _ Hs1) in Hv, Hst.
  destruct (run_add w1 gs cur u b Hf1 Eb Hok Hv) as (w2 & b2 & E2 & Hf2 & Hs2 & Eb2).
  pose proof (same_trans _ _ _ Hs1 Hs2) as Hs.
  rewrite E2. bind_with (get_compact w2). rewrite (bind_lift _ _ _ _ Eb2). rewrite <-(sm_input _ _ Hs2) in Hst.
  destruct (_ <=? _).
  - destruct (run_FinishOutput w2 gs (cur ++ [u])) as (w3 & E3 & Hf3 & Hs3 & Eb3); [done|by eexists|by intros ?%app_nil%proj2|done..|].
    exists w3, (gs ++ [cur ++ [u]]), []. rewrite E3, Eb3, concat_app, app_nil_r. cbn [concat]. rewrite app_nil_r.
    split_and!; [done|done|by eapply same_trans|by intros [? ?]|done].
  - exists w2, gs, (cur ++ [u]). split_and!; [done..| |done]. by intros _ ?%app_nil%proj2.
Qed.

(** ** The loop *)

Section loop.
Variables (snapshot : Z) (c0 : Compaction) (us : list update) (R : option nat → C → Prop) (bound : Z).
Abbreviation levels := (c_input_version_ c0).
Abbreviation level := (c_level_ c0).
Abbreviation base := (is_base levels level).
Abbreviation kvs := (ientry <$> us).
Hypothesis Hsize : size_ok max_file_size.
Hypothesis Hlevels : levels_ok levels.
Hypothesis Hlevel : 0 ≤ level ∧ level + 1 < kNumLevels.
Hypothesis Hgrand : Forall file_ok (c_grandparents_ c0).
Hypothesis Hover : iter_over (UC := IC) I any_target kvs R.
Hypothesis Hstatus : ∀ p it, R p it → i_status it = None.
Hypothesis Hok : entries_ok (UC := IC) pol kvs.
Hypothesis Husok : Forall update_ok us.
Hypothesis Hsorted : updates_sorted us.
Hypothesis Hsnapshot : snapshot < kMaxSequenceNumber.

(** What the loop does not change of the compaction. *)
Record going (c : Compaction) : Prop := {
  go_version : c_input_version_ c = levels;
  go_level : c_level_ c = level;
  go_grand : c_grandparents_ c = c_grandparents_ c0;
  go_index : 0 ≤ c_grandparent_index_ c;
  go_edit : c_edit_ c = c_edit_ c0;
  go_inputs_0 : c_inputs_0 c = c_inputs_0 c0;
  go_inputs_1 : c_inputs_1 c = c_inputs_1 c0;
}.
Definition key_state (prev : option (list Z * Z)) w : Prop :=
  match prev with
  | None => w_has_current_user_key w = false ∧ w_last_sequence_for_key w = kMaxSequenceNumber
  | Some (k, seq) => w_has_current_user_key w = true ∧ compare_ (w_current_user_key w) k = 0 ∧ w_last_sequence_for_key w = seq
  end.

Lemma key_state_last prev w u :
  key_state prev w →
  (if negb (w_has_current_user_key w) || negb (compare_ (up_key u) (w_current_user_key w) =? 0)
   then kMaxSequenceNumber else w_last_sequence_for_key w) = last_sequence prev (up_key u).
Proof.
  destruct prev as [[k seq]|]; cbn; [|by intros [-> _]]. intros (-> & Ek & ->). cbn.
  pose proof (compare_eq_trans (up_key u) (w_current_user_key w) k). pose proof (compare_eq_trans (up_key u) k (w_current_user_key w)).
  pose proof (compare_eq_sym _ _ Ek). destruct (Z.eqb_spec (compare_ (up_key u) (w_current_user_key w)) 0), (Z.eqb_spec (compare_ (up_key u) k) 0); cbn; tauto.
Qed.

Definition ptrs_at (c : Compaction) key : Prop := ptrs_ok levels level (c_level_ptrs_ c) key.

Lemma run_base c key :
  going c → ptrs_at c key → ∃ c', IsBaseLevelForKey key c = Done (base key, c') ∧ going c' ∧ ptrs_at c' key.
Proof.
  intros [Ev El Eg Hi Ee Ei0 Ei1] Hp. destruct (run_IsBaseLevel c key) as (b & ptrs & Eb & Hb & Hp').
  { by rewrite Ev. } { rewrite El. lia. } { rewrite El. lia. } { by rewrite Ev, El. }
  rewrite Ev, El in Hb, Hp'. assert (b = base key) as ->.
  { apply eq_bool_prop_intro. rewrite !Is_true_true, Hb. symmetry. apply is_base_spec; [apply Hlevels|lia]. }
  eexists. by split_and!; [exact Eb|..].
Qed.

(** A change of the compaction alone. *)
Lemma run_compaction {A} (c : M Compaction A) w gs cur a c' :
  fine w gs cur → c (cs_compaction (w_compact w)) = Done (a, c') →
  on_compaction c w = Done (a, put_compact (put_compaction c' (w_compact w)) w) ∧
  fine (put_compact (put_compaction c' (w_compact w)) w) gs cur.
Proof. intros [Ho Hn He] Ec. split; [by apply run_on_compaction|]. by split. Qed.
Definition put_key (key : list Z) (last : Z) w : Work :=
  MkWork (w_input w) (w_compact w) (w_env w) key true last.

Lemma run_same_key w prev u :
  key_state prev w →
  ∃ key, (if negb (w_has_current_user_key w) || negb (compare_ (up_key u) (w_current_user_key w) =? 0)
    then set_key (up_key u) true kMaxSequenceNumber else mret tt) w = Done (tt, put_key key (last_sequence prev (up_key u)) w) ∧
    compare_ key (up_key u) = 0.
Proof.
  intros Hk. rewrite <-(key_state_last _ _ _ Hk). destruct (negb (w_has_current_user_key w)) eqn:Eh; cbn.
  { exists (up_key u). split; [done|apply compare_refl]. }
  destruct (Z.eqb_spec (compare_ (up_key u) (w_current_user_key w)) 0) as [Ec|]; cbn.
  - exists (w_current_user_key w). split; [|by apply compare_eq_sym]. apply negb_false_iff in Eh.
    unfold put_key. rewrite <-Eh. by destruct w.
  - exists (up_key u). split; [done|apply compare_refl].
Qed.

(** The part of the state that an entry changes before it is added. *)
Record stepping w w' u : Prop := {
  st_going : going (cs_compaction (w_compact w'));
  st_ptrs : ptrs_at (cs_compaction (w_compact w')) (up_key u);
  st_input : w_input w' = w_input w;
  st_snapshot : cs_smallest_snapshot (w_compact w') = snapshot;
  st_builder : cs_builder (w_compact w') = cs_builder (w_compact w);
}.

Lemma run_drop_key w gs cur prev u :
  fine w gs cur → stepping w w u → key_state prev w → update_ok u →
  ∃ w', drop_key (ientry u).1 w = Done (drops snapshot base prev u, w') ∧ fine w' gs cur ∧ stepping w w' u ∧
    key_state (Some (up_key u, up_seq u)) w'.
Proof.
  intros Hf [Hg Hp _ Hs _] Hk Hu. destruct (parse_ientry u Hu) as (Eparse & _ & _). unfold drop_key. rewrite Eparse.
  cbn [user_key sequence type_]. rewrite bind_get. destruct (run_same_key w prev u Hk) as (key & E1 & Ekey). bind_with E1.
  rewrite bind_get. cbn [w_compact put_key w_last_sequence_for_key]. rewrite Hs. unfold drops. set (w1 := put_key _ _ w).
  assert (fine w1 gs cur) as Hf1 by (by destruct Hf).
  assert (∃ w2, (if last_sequence prev (up_key u) <=? snapshot then mret true
      else if (up_type u =? kTypeDeletion) && (up_seq u <=? snapshot) then on_compaction (IsBaseLevelForKey (up_key u)) else mret false) w1 =
      Done ((last_sequence prev (up_key u) <=? snapshot) || ((up_type u =? kTypeDeletion) && (up_seq u <=? snapshot) && base (up_key u)), w2) ∧
      fine w2 gs cur ∧ stepping w w2 u ∧ w_current_user_key w2 = key ∧ w_has_current_user_key w2 = true) as (w2 & E2 & Hf2 & Hs2 & Ek2 & Eh2).
  { destruct (last_sequence _ _ <=? _); cbn; [by exists w1|]. destruct (_ && _); cbn; [|by exists w1].
    destruct (run_base _ _ Hg Hp) as (c' & Ec & Hg' & Hp'). destruct (run_compaction _ w1 gs cur _ c' Hf1 Ec) as [E2 Hf2].
    eexists. by split_and!; [exact E2|exact Hf2|..]. }
  bind_with E2. rewrite bind_get. erewrite bind_done by reflexivity. eexists. split; [reflexivity|]. rewrite Ek2, Eh2.
  split_and!; [by destruct Hf2|by destruct Hs2|done].
Qed.
Abbreviation rule := (compact_rule snapshot base).

(** What is in the tables, and what the rule gives for the entries that are left. *)
Definition split_at (j : nat) gs cur : Prop :=
  concat gs ++ cur ++ rule (prev_of (take j us)) (drop j us) = rule None us.

Record inv (j : nat) w gs cur : Prop := {
  iv_place : (j ≤ length us)%nat;
  iv_input : R (at_pos kvs j) (w_input w);
  iv_fine : fine w gs cur;
  iv_started : is_Some (cs_builder (w_compact w)) → cur ≠ [];
  iv_split : split_at j gs cur;
  iv_key : key_state (prev_of (take j us)) w;
  iv_going : going (cs_compaction (w_compact w));
  iv_ptrs u : us !! j = Some u → ptrs_at (cs_compaction (w_compact w)) (up_key u);
  iv_snapshot : cs_smallest_snapshot (w_compact w) = snapshot;
}.

Lemma part_ok gs cur more : concat gs ++ cur ++ more = rule None us → entries_ok (UC := IC) pol (ientry <$> cur).
Proof.
  intros Hs. eapply entries_ok_sublist; [|exact Hok]. apply fmap_sublist. etrans; [|apply (rule_sublist snapshot base us None)].
  rewrite <-Hs. by apply sublist_inserts_l, sublist_inserts_r.
Qed.

Lemma run_stop w gs cur u :
  fine w gs cur → going (cs_compaction (w_compact w)) → update_ok u →
  ptrs_at (cs_compaction (w_compact w)) (up_key u) → cs_smallest_snapshot (w_compact w) = snapshot →
  ∃ stop w', on_compaction (ShouldStopBefore max_file_size (ientry u).1) w = Done (stop, w') ∧ fine w' gs cur ∧ stepping w w' u ∧
    (∀ prev, key_state prev w → key_state prev w').
Proof.
  intros Hf [Ev El Eg Hi Ee Ei0 Ei1] Hu Hp Hs. destruct (parse_ientry u Hu) as (_ & _ & Hlong).
  destruct (run_ShouldStopBefore max_file_size (cs_compaction (w_compact w)) (ientry u).1) as (stop & index & bytes & Ec & Hidx); [done|by rewrite Eg|done|done|].
  destruct (run_compaction _ w gs cur _ _ Hf Ec) as [Es Hf']. exists stop. eexists. split_and!; [exact Es|exact Hf'|by split|done].
Qed.

(** The current table is finished before an entry. *)
Lemma run_maybe_finish j w gs cur (stop : bool) :
  fine w gs cur → split_at j gs cur → (is_Some (cs_builder (w_compact w)) → cur ≠ []) → i_status (w_input w) = None →
  ∃ w' gs' cur', (if stop && bool_decide (is_Some (cs_builder (w_compact w))) then FinishCompactionOutputFile else mret None) w = Done (None, w') ∧
    fine w' gs' cur' ∧ split_at j gs' cur' ∧ (is_Some (cs_builder (w_compact w')) → cur' ≠ []) ∧ same w w'.
Proof.
  intros Hf Hsp Hst Hi. destruct (stop && _) eqn:Eb; [|by exists w, gs, cur].
  apply andb_true_iff in Eb as [_ Eb%bool_decide_eq_true].
  destruct (run_FinishOutput w gs cur Hf Eb (Hst Eb) Hi (part_ok _ _ _ Hsp)) as (w' & E1 & Hf' & Hs & Eb').
  exists w', (gs ++ [cur]), []. rewrite Eb'. split_and!; [done|done| |by intros []|done].
  unfold split_at in *. rewrite concat_app. cbn [concat app]. by rewrite app_nil_r, <-app_assoc.
Qed.

Lemma rule_step j u : us !! j = Some u →
  rule (prev_of (take j us)) (drop j us) =
  (if drops snapshot base (prev_of (take j us)) u then [] else [u]) ++ rule (prev_of (take (S j) us)) (drop (S j) us) ∧
  prev_of (take (S j) us) = Some (up_key u, up_seq u).
Proof.
  intros Eu. assert (prev_of (take (S j) us) = Some (up_key u, up_seq u)) as Ep.
  { unfold prev_of. by rewrite (take_S_r us j u Eu), last_snoc. }
  split; [|done]. rewrite (drop_S us u j Eu), Ep. cbn [compact_rule]. by destruct (drops _ _ _ _).
Qed.

(** An entry is dropped or added. *)
Lemma run_rule_entry j w gs cur u :
  us !! j = Some u → fine w gs cur → stepping w w u → key_state (prev_of (take j us)) w →
  split_at j gs cur → (is_Some (cs_builder (w_compact w)) → cur ≠ []) →
  i_value (w_input w) = Done (up_value u, w_input w) → i_status (w_input w) = None →
  ∃ w' gs' cur', (drop ← drop_key (ientry u).1; if (drop : bool) then mret None else add_kept opts dbname (ientry u).1) w = Done (None, w') ∧
    fine w' gs' cur' ∧ split_at (S j) gs' cur' ∧ (is_Some (cs_builder (w_compact w')) → cur' ≠ []) ∧
    key_state (prev_of (take (S j) us)) w' ∧ going (cs_compaction (w_compact w')) ∧
    ptrs_at (cs_compaction (w_compact w')) (up_key u) ∧ w_input w' = w_input w ∧ cs_smallest_snapshot (w_compact w') = snapshot.
Proof.
  intros Eu Hf Hs Hk Hsp Hst Hv Hi. assert (update_ok u) as Hu by (by eapply Forall_lookup_1).
  destruct (run_drop_key w gs cur _ u Hf Hs Hk Hu) as (w1 & E1 & Hf1 & [Hg1 Hp1 Ei1 Es1 Eb1] & Hk1). bind_with E1.
  destruct (rule_step j u Eu) as [Er Ep]. unfold split_at in *. rewrite Er in Hsp. rewrite Ep. rewrite <-Eb1 in Hst.
  destruct (drops _ _ _ _).
  { exists w1, gs, cur. split_and!; try done. by rewrite <-Ep. }
  destruct (run_add_kept w1 gs cur u) as (w2 & gs' & cur' & E2 & Hf2 & Hs2 & Hst2 & Ec2); [done|by rewrite Ei1|by rewrite Ei1| |].
  { eapply (part_ok gs (cur ++ [u])). rewrite <-(app_assoc cur [u]). exact Hsp. }
  exists w2, gs', cur'. rewrite (sm_compaction _ _ Hs2), (sm_snapshot _ _ Hs2), (sm_input _ _ Hs2). split_and!; try done.
  - rewrite app_assoc, Ec2, <-Ep, <-!app_assoc. exact Hsp.
  - destruct Hk1 as (H1 & H2 & H3). destruct Hs2 as [_ _ _ Ek Eh El]. cbn. rewrite Ek, Eh, El. done.
Qed.
Lemma run_work_step j w gs cur u :
  inv j w gs cur → us !! j = Some u →
  ∃ w' gs' cur', work_step max_file_size opts dbname tt w = Done (inl tt, w') ∧ inv (S j) w' gs' cur'.
Proof.
  intros [Hj Hin Hf Hst Hsp Hk Hg Hp Hs] Eu. assert (update_ok u) as Hu by (by eapply Forall_lookup_1).
  assert (at_pos kvs j = Some j) as Ej.
  { unfold at_pos. rewrite length_fmap. apply lookup_lt_Some in Eu. by rewrite (proj2 (Nat.ltb_lt _ _)). }
  rewrite Ej in Hin. unfold work_step. rewrite bind_get, (io_valid _ _ _ _ Hover _ _ Hin). cbn [bool_decide].
  rewrite bool_decide_eq_true_2 by by eexists.
  destruct (ce_running _ (fn_env _ _ _ Hf)) as (e1 & E1 & He1 & Hi1). destruct (run_env _ _ _ _ _ _ Hf E1 He1 Hi1) as (R1 & Hf1 & Hs1).
  bind_with R1. destruct (ce_compacts _ (fn_env _ _ _ Hf1)) as (e2 & E2 & He2 & Hi2).
  destruct (run_env _ _ _ _ _ _ Hf1 E2 He2 Hi2) as (R2 & Hf2 & Hs2). bind_with R2. set (w2 := put_env e2 _) in *.
  destruct (io_entry _ _ _ _ Hover j (w_input w2) (ientry u).1 (ientry u).2 Hin) as [Ekey Eval].
  { by rewrite list_lookup_fmap, Eu. }
  assert (on_input i_key w2 = Done ((ientry u).1, w2)) as R3 by (by rewrite (run_on_input _ _ _ _ Ekey)). bind_with R3.
  destruct (run_stop w2 gs cur u Hf2 Hg Hu (Hp u Eu) Hs) as (stop & w3 & R4 & Hf3 & Hst3 & Hk3). bind_with R4.
  bind_with (get_compact w3).
  destruct (run_maybe_finish j w3 gs cur stop) as (w4 & gs4 & cur4 & R5 & Hf4 & Hsp4 & Hst4 & Hs4); [done|done| | |].
  { by rewrite (st_builder _ _ _ Hst3). } { rewrite (st_input _ _ _ Hst3). by eapply Hstatus. }
  bind_with R5. destruct Hst3 as [Hg3 Hp3 Ei3 Es3 _]. destruct Hs4 as [Ei4 Ec4 Es4 Ek4 Eh4 El4].
  destruct (run_rule_entry j w4 gs4 cur4 u Eu Hf4) as (w5 & gs5 & cur5 & R6 & Hf5 & Hsp5 & Hst5 & Hk5 & Hg5 & Hp5 & Ei5 & Es5); [| |done|done| | |].
  { split; [by rewrite Ec4|by rewrite Ec4|done|by rewrite Es4|done]. }
  { specialize (Hk3 _ Hk). destruct (prev_of _) as [[k seq]|]; cbn in *; by rewrite Ek4, Eh4, El4 || by rewrite Eh4, El4. }
  { rewrite Ei4, Ei3. exact Eval. } { rewrite Ei4, Ei3. by eapply Hstatus. }
  rewrite <-bind_assoc. bind_with R6.
  destruct (io_next _ _ _ _ Hover j (w_input w5)) as (it & En & Hnext); [by rewrite Ei5, Ei4, Ei3|].
  erewrite bind_done by (by apply run_on_input). eexists _, gs5, cur5. split; [reflexivity|].
  pose proof (lookup_lt_Some _ _ _ Eu). split; [lia|exact Hnext|by destruct Hf5|exact Hst5|exact Hsp5|exact Hk5|exact Hg5| |exact Es5].
  intros v Ev. eapply ptrs_ok_mono; [|exact Hp5]. apply (keys_le us j (S j)); [done..|lia].
Qed.

Lemma run_work_loop n : ∀ j w gs cur,
  inv j w gs cur → (length us - j = n)%nat → ∀ bound, Z.of_nat n < bound →
  ∃ w' gs' cur', loop bound (work_step max_file_size opts dbname) tt w = Done (None, w') ∧ inv (length us) w' gs' cur'.
Proof.
  induction n as [|n IH]; intros j w gs cur Hinv Hn bound' Hb.
  - assert (j = length us) as -> by (pose proof (iv_place _ _ _ _ Hinv); lia). exists w, gs, cur. split; [|done].
    apply loop_inr; [lia|]. unfold work_step. rewrite bind_get, (io_valid _ _ _ _ Hover _ _ (iv_input _ _ _ _ Hinv)).
    unfold at_pos. rewrite length_fmap, Nat.ltb_irrefl. rewrite bool_decide_eq_false_2 by by intros [].
    reflexivity.
  - destruct (lookup_lt_is_Some_2 us j) as [u Eu]; [lia|]. destruct (run_work_step j w gs cur u Hinv Eu) as (w1 & gs1 & cur1 & E1 & Hinv1).
    destruct (IH (S j) w1 gs1 cur1 Hinv1 ltac:(lia) (bound' - 1) ltac:(lia)) as (w2 & gs2 & cur2 & E2 & Hinv2).
    exists w2, gs2, cur2. split; [|done]. rewrite (loop_inl bound' _ _ _ _ _ ltac:(lia) E1). exact E2.
Qed.
Lemma run_bytes_written outputs : ∀ sum,
  Forall (λ o, is_Some (out_file_size o)) outputs → ∃ n, bytes_written outputs sum = Done n.
Proof.
  induction outputs as [|o outputs IH]; intros sum; [by eexists|]. intros [[size Es] H]%Forall_cons.
  cbn [bytes_written]. rewrite Es. cbn [need]. rewrite obind_done. by apply IH.
Qed.

(** The state that the loop starts from. *)
Record starting w : Prop := {
  sw_input : ∃ p, R p (w_input w);
  sw_compaction : cs_compaction (w_compact w) = c0;
  sw_index : 0 ≤ c_grandparent_index_ c0;
  sw_ptrs : c_level_ptrs_ c0 = replicate (Z.to_nat kNumLevels) 0;
  sw_snapshot : cs_smallest_snapshot (w_compact w) = snapshot;
  sw_outputs : cs_outputs (w_compact w) = [];
  sw_builder : cs_builder (w_compact w) = None;
  sw_written : cs_written (w_compact w) = [];
  sw_env : ce_ok (w_env w);
}.

Lemma run_start w :
  starting w → ∃ w', (on_input i_SeekToFirst;; set_key [] false kMaxSequenceNumber) w = Done (tt, w') ∧ inv 0 w' [] [].
Proof.
  intros [[p Hin] Ec Hi Hp Hs Ho Eb Ew He]. destruct (io_first _ _ _ _ Hover p (w_input w) Hin) as (it & E1 & Hin').
  erewrite bind_done by (by apply run_on_input). eexists. split; [reflexivity|].
  split; cbn; [lia|exact Hin'| |by rewrite Eb; intros []|done|done| | |done].
  - split; cbn; [|rewrite Ho; split; [constructor|by intros n ?%not_elem_of_nil]|done].
    exists []. rewrite Ew, Eb, Ho. split; [constructor|done].
  - rewrite Ec. split; done.
  - intros u _. rewrite Ec. unfold ptrs_at. rewrite Hp. apply ptrs_ok_start; [done|lia].
Qed.

(** The last table is finished. *)
Lemma run_last w gs cur :
  inv (length us) w gs cur →
  ∃ w' gs', (match cs_builder (w_compact w) with Some _ => FinishCompactionOutputFile | None => mret None end) w = Done (None, w') ∧
    fine w' gs' [] ∧ same w w' ∧ cs_builder (w_compact w') = None ∧ concat gs' = rule None us.
Proof.
  intros [_ Hin Hf Hst Hsp _ _ _ _]. pose proof (Hstatus _ _ Hin) as Hi. unfold split_at in Hsp.
  pose proof (part_ok gs cur _ Hsp) as Hcur. rewrite firstn_all, drop_all in Hsp. cbn [compact_rule] in Hsp. rewrite app_nil_r in Hsp.
  destruct (cs_builder (w_compact w)) as [b|] eqn:Eb.
  - destruct (run_FinishOutput w gs cur Hf) as (w' & E1 & Hf' & Hs & Eb'); [by eexists|by apply Hst|done|done|].
    exists w', (gs ++ [cur]). split_and!; [done..|]. rewrite concat_app. cbn [concat]. by rewrite app_nil_r.
  - pose proof (fn_outs _ _ _ Hf) as (complete & _ & Ho). rewrite Eb in Ho. destruct Ho as [-> _].
    exists w, gs. split_and!; [done..|by rewrite app_nil_r in Hsp].
Qed.

Lemma run_DoCompactionWork w :
  starting w → Z.of_nat (length us) < bound →
  ∃ w' gs, DoCompactionWork max_file_size opts dbname bound w = Done (None, w') ∧
    Forall3 output_is (cs_outputs (w_compact w')) (cs_written (w_compact w')) gs ∧ concat gs = rule None us ∧
    NoDup (out_number <$> cs_outputs (w_compact w')) ∧ going (cs_compaction (w_compact w')).
Proof.
  intros Hw Hb. destruct (run_start w Hw) as (w1 & E1 & Hinv1). unfold DoCompactionWork. rewrite <-bind_assoc. bind_with E1.
  destruct (run_work_loop (length us) 0 w1 [] [] Hinv1 ltac:(lia) bound Hb) as (w2 & gs2 & cur2 & E2 & Hinv2). bind_with E2.
  pose proof (iv_fine _ _ _ _ Hinv2) as Hf2. cbn [and_then].
  destruct (ce_running _ (fn_env _ _ _ Hf2)) as (e3 & E3 & He3 & Hi3). destruct (run_env _ _ _ _ _ _ Hf2 E3 He3 Hi3) as (R3 & Hf3 & Hs3).
  rewrite bind_assoc. bind_with R3. erewrite bind_done by reflexivity. set (w3 := put_env e3 w2) in *. bind_with (get_compact w3).
  assert (inv (length us) w3 gs2 cur2) as Hinv3 by (by destruct Hinv2).
  cbn [and_then]. destruct (run_last w3 gs2 cur2 Hinv3) as (w4 & gs4 & E4 & Hf4 & Hs4 & Eb4 & Ec4). bind_with E4.
  rewrite bind_get. bind_with (get_compact w4). rewrite (sm_input _ _ Hs4), (Hstatus _ _ (iv_input _ _ _ _ Hinv3)).
  destruct Hf4 as [(complete & Hall & Ho) [Hnd _] _]. rewrite Eb4 in Ho. destruct Ho as [_ <-].
  destruct (run_bytes_written (cs_outputs (w_compact w4)) 0) as [n En].
  { apply Forall_lookup. intros i o Eo. destruct (Forall3_lookup_l _ _ _ _ _ _ Hall Eo) as (f & g & _ & _ & Hoi).
    by rewrite (oi_size _ _ _ Hoi). }
  erewrite bind_done by (unfold lift_outcome; by rewrite En). exists w4, gs4. split_and!; [done..|].
  rewrite (sm_compaction _ _ Hs4). apply (iv_going _ _ _ _ Hinv3).
Qed.
End loop.

End work_spec.

(** ** Theorems *)

#[local] Existing Instance internal_separators.

(** C7: a compaction ends with the status OK, and it writes what it must. The inputs are
    an iterator over sorted updates, the database is not shut down and its files can be
    written. The tables that are written have, one after the other, exactly the updates
    that the rule of [compact_rule] keeps; each of them is a table of its updates, with
    the size and the first and last keys that are noted of it and a number of its own;
    the inputs and the edit of the compaction are as they were. And a read at the oldest
    snapshot, or at a later sequence number, gives what it gave before, whatever the
    levels below the output have, when the other updates that the database has elsewhere
    are newer than the inputs with their keys. *)
Theorem compaction_refines `{UC : Comparator (list Z)} `{!ComparatorLaws (list Z)} `{KS : KeyShortener}
    `{SL : !@SeparatorLaws (internal_comparator (UC := UC)) (internal_separators (UC := UC))}
    {C} `{I : IterOps C} `{IterStatus C} {F} `{WF : WritableFile F} `{!ReliableWritable F} `{SN : Snappy} `{!SnappyLaws}
    {E} `{CE : CompactionEnv E F} `{!CompactionLaws E F}
    max_file_size opts pol dbname snapshot (c0 : Compaction) us R bound (w : Work (C := C)) :
  o_filter_policy opts = lp_named <$> pol → 1 ≤ o_block_restart_interval opts →
  o_compression opts = kNoCompression ∨ o_compression opts = kSnappyCompression →
  size_ok max_file_size → levels_ok (c_input_version_ c0) → 0 ≤ c_level_ c0 ∧ c_level_ c0 + 1 < kNumLevels →
  Forall file_ok (c_grandparents_ c0) →
  iter_over (UC := internal_comparator) I any_target (ientry <$> us) R → (∀ p it, R p it → i_status it = None) →
  entries_ok (UC := internal_comparator) pol (ientry <$> us) → Forall update_ok us → updates_sorted us →
  snapshot < kMaxSequenceNumber → starting snapshot c0 R w → Z.of_nat (length us) < bound →
  let base := is_base (c_input_version_ c0) (c_level_ c0) in
  ∃ w' gs, DoCompactionWork max_file_size opts dbname bound w = Done (None, w') ∧
    Forall3 (output_is pol) (cs_outputs (w_compact w')) (cs_written (w_compact w')) gs ∧
    concat gs = compact_rule snapshot base None us ∧
    NoDup (out_number <$> cs_outputs (w_compact w')) ∧ going c0 (cs_compaction (w_compact w')) ∧
    ∀ others key s r, versions_unique (us ++ others) → snapshot ≤ s →
      Forall (elsewhere (c_input_version_ c0) (c_level_ c0) us) others →
      reads (us ++ others) key s r ↔ reads (concat gs ++ others) key s r.
Proof.
  intros Hpol Hint Hcomp Hsize Hlv Hlevel Hgr Hover Hst Hok Husok Hsort Hsn Hw Hb base.
  destruct (run_DoCompactionWork max_file_size opts pol dbname Hpol Hint Hcomp snapshot c0 us R bound Hsize Hlv Hlevel Hgr Hover Hst
    Hok Husok Hsort w Hw Hb) as (w' & gs & E1 & Hall & Ec & Hnd & Hg).
  exists w', gs. split_and!; [done..|]. intros others key s r Hu Hs Helse. rewrite Ec. apply compact_reads; try done.
  intros u v Hin Hobs Hv Euv. eapply obsolete_hides_nothing; [apply Hlv|apply Hlevel|exact Helse|done..].
Qed.

(** ** Witness *)

(** A database whose state is the last number of a file. *)
#[local] Instance quiet_database : CompactionEnv Z (list Z) := {|
  ce_ShuttingDown e := Done (false, e);
  ce_CompactMemTable e := Done (tt, e);
  ce_NewFileNumber e := Done (e + 1, e + 1);
  ce_NewWritableFile name e := Done (inr [], e);
  ce_Sync f e := Done (None, e);
  ce_Close f e := Done (None, e);
  ce_Usable number size e := Done (None, e);
|}.
#[local] Instance quiet_database_ok : CompactionLaws Z (list Z).
Proof.
  refine {| ce_ok e := 0 ≤ e; ce_issued e := seqZ 1 e |}; intros; cbn; try by eexists.
  - eexists _, _. split; [done|]. split_and!; [lia|lia|rewrite elem_of_seqZ; lia|apply elem_of_seqZ; lia|].
    intros n. rewrite !elem_of_seqZ. lia.
  - by eexists _, _.
Defined.
#[local] Instance internal_blocks : IterOps block_object := block_object_ops (UC := internal_comparator (UC := bytewise_compare)).
#[local] Instance block_object_status : IterStatus block_object := λ _, None.

Definition plain_options : Options := MkOptions 0 false 4096 16 kNoCompression None.
Definition work_of {C} (it : C) (c : Compaction) (snapshot : Z) : Work (C := C) (F := list Z) :=
  MkWork it (MkState c snapshot [] None 0 []) 8 [] false 0.

(** The updates of [compacted_updates], in a block. *)
Definition other_updates : list update := [MkUpdate 10 kTypeValue [98] [7]; MkUpdate 2 kTypeValue [5] [1]].
Lemma other_updates_elsewhere : Forall (elsewhere sample_levels 0 compacted_updates) other_updates ∧ versions_unique (compacted_updates ++ other_updates).
Proof.
  split.
  - apply Forall_cons_2; [left|apply Forall_cons_2; [right|apply Forall_nil_2]].
    + intros u Hu _. repeat (apply elem_of_cons in Hu as [->|Hu]; [by vm_compute|]). by apply not_elem_of_nil in Hu.
    + exists 2, [file_of 3 1 9; file_of 4 40 50], (file_of 3 1 9). (split_and!; [done|done|done|by left|]).
      split; intros k [= <-]; vm_compute; discriminate.
  - intros u v Hu Hv E Et. 
    repeat (apply elem_of_cons in Hu as [->|Hu];
      [repeat (apply elem_of_cons in Hv as [->|Hv]; [first [done|by vm_compute in E, Et]|]); by apply not_elem_of_nil in Hv|]).
    by apply not_elem_of_nil in Hu.
Qed.
Lemma compaction_refines_witness :
  ∃ (o : block_object) w', DoCompactionWork 2097152 plain_options [100] 10
      (work_of o (new_Compaction 2097152 0 sample_levels) 7) = Done (None, w') ∧
    ∃ gs, Forall3 (output_is None) (cs_outputs (w_compact w')) (cs_written (w_compact w')) gs ∧
      concat gs = [MkUpdate 9 kTypeValue [98] [2]; MkUpdate 5 kTypeValue [98] [3]] ∧
      ∀ key s r, 7 ≤ s → reads (compacted_updates ++ other_updates) key s r ↔ reads (concat gs ++ other_updates) key s r.
Proof.
  assert (keys_sorted (UC := internal_comparator) (ientry <$> compacted_updates)) as Hsort
    by (unfold keys_sorted; repeat constructor; vm_compute; reflexivity).
  assert (Forall kv_ok (ientry <$> compacted_updates)) as Hkv by (repeat constructor; vm_compute; done).
  destruct (block_cursor (UC := internal_comparator) (ientry <$> compacted_updates) Hkv Hsort) as (o & R & H0 & HR); [by vm_compute|].
  destruct compacted_updates_ok as [Hus Huok].
  destruct (compaction_refines 2097152 plain_options None [100] 7 (new_Compaction 2097152 0 sample_levels) compacted_updates R 10
    (work_of o (new_Compaction 2097152 0 sample_levels) 7)) as (w' & gs & E1 & Hall & Ec & _ & _ & Hr);
    [done|done|by left|done|exact sample_levels_ok|done|by apply Forall_nil_2|exact HR|done| |exact Huok|exact Hus|done| |done|].
  - split_and!; [exact Hsort| |by vm_compute]. apply Forall_forall. intros kv Hin. rewrite Forall_forall in Hkv. rewrite Forall_forall in Huok. split; [by apply Hkv|split; [|done]].
    apply list_elem_of_fmap in Hin as (u & -> & Hu). exists (up_key u), (up_tag u).
    split_and!; [done|by apply Huok|apply up_tag_range; by apply Huok..].
  - split; try done. by exists None.
  - exists o, w'. split; [exact E1|]. exists gs. split; [exact Hall|]. split; [rewrite Ec; by vm_compute|].
    intros key s r Hs. apply Hr; [apply other_updates_elsewhere|exact Hs|apply other_updates_elsewhere].
Defined.

(** ** What can go wrong *)

Section wrong.
#[local] Existing Instance bytewise_compare.

(** An iterator over a list. *)
#[local] Instance list_iterator : IterOps (entries * nat) := {|
  i_Valid it := (it.2 <? length it.1)%nat;
  i_SeekToFirst it := Done (tt, (it.1, O));
  i_SeekToLast it := Done (tt, (it.1, pred (length it.1)));
  i_Seek target it := Done (tt, (it.1, lower_bound (UC := internal_comparator) it.1 target));
  i_Next it := Done (tt, (it.1, S it.2));
  i_Prev it := Done (tt, (it.1, if (it.2 =? 0)%nat then length it.1 else pred it.2));
  i_key it := lift_option (fst <$> it.1 !! it.2) it;
  i_value it := lift_option (snd <$> it.1 !! it.2) it;
|}.
#[local] Instance list_iterator_status : IterStatus (entries * nat) := λ _, None.

(** A database that cannot make a file. *)
Definition full_disk : CompactionEnv Z (list Z) := {|
  ce_ShuttingDown e := Done (false, e);
  ce_CompactMemTable e := Done (tt, e);
  ce_NewFileNumber e := Done (e + 1, e + 1);
  ce_NewWritableFile name e := Done (inl "No space left on device"%string, e);
  ce_Sync f e := Done (None, e);
  ce_Close f e := Done (None, e);
  ce_Usable number size e := Done (None, e);
|}.

(** When the file of an output cannot be made, the output is in the list already, and
    its size, which nothing has set, is read for the statistics. *)
Theorem failed_output_size_unset :
  DoCompactionWork (CE := full_disk) 2097152 plain_options [100] 10
    (work_of ((ientry <$> compacted_updates, O) : entries * nat) (new_Compaction 2097152 0 sample_levels) 7) = Undef.
Proof. by vm_compute. Qed.

(** A level has a deletion at the end of a file and an older value of its key at the
    start of the next one. A compaction with the first file only drops the deletion. *)
Definition resurrecting_files : list files :=
  [[]; [new_FileMetaData 11 100 (ikey_of 97 12) (ikey_of 97 11)];
   [new_FileMetaData 21 100 (ikey_of 97 9) ([98] ++ EncodeFixed64 (9 * 256)); new_FileMetaData 22 100 (ikey_of 98 5) (ikey_of 99 5)]; []; []; []; []].
Definition resurrecting_inputs : list update :=
  [MkUpdate 12 kTypeValue [97] [1]; MkUpdate 11 kTypeValue [97] [2]; MkUpdate 9 kTypeValue [97] [3]; MkUpdate 9 kTypeDeletion [98] []].
Definition resurrecting_rest : list update := [MkUpdate 5 kTypeValue [98] [4]; MkUpdate 5 kTypeValue [99] [5]].

Theorem dropped_deletion_shows_old_value :
  (∃ c pointers, PickCompaction 2097152 resurrecting_files (Some 1) None (replicate 7 []) = Done (Some c, pointers) ∧
    f_number <$> c_inputs_0 c = [11] ∧ f_number <$> c_inputs_1 c = [21] ∧
    ∃ w, DoCompactionWork 2097152 plain_options [100] 10
      (work_of ((ientry <$> resurrecting_inputs, O) : entries * nat) c 20) = Done (None, w) ∧
      out_largest <$> cs_outputs (w_compact w) = [ikey_of 97 12]) ∧
  reads (resurrecting_inputs ++ resurrecting_rest) [98] 20 None ∧
  reads ([MkUpdate 12 kTypeValue [97] [1]] ++ resurrecting_rest) [98] 20 (Some [4]).
Proof.
  split_and!.
  - eexists _, _. split; [vm_compute; reflexivity|]. split_and!; [done|done|]. eexists. split; [vm_compute; reflexivity|by vm_compute].
  - exists (Some (MkUpdate 9 kTypeDeletion [98] [])). split; [|done]. cbn.
    split_and!; [set_solver|by split|]. intros w Hw [E _].
    repeat (apply elem_of_cons in Hw as [->|Hw]; [vm_compute in E |- *; done|]). by apply not_elem_of_nil in Hw.
  - exists (Some (MkUpdate 5 kTypeValue [98] [4])). split; [|done]. cbn. split_and!; [set_solver|by split|]. intros w Hw [E _].
    repeat (apply elem_of_cons in Hw as [->|Hw]; [vm_compute in E |- *; done|]). by apply not_elem_of_nil in Hw.
Qed.
End wrong.
